(* ===== verification/_CoqProject ===== *)
-Q . S2P
Prelude.v
Float.v
IntFloat.v
HalTypes.v
HalValue.v
Encoding.v
FlatBuffers.v
HalIr.v
FunctionBlocks.v
Vm.v
Executor.v
ExecutorFacts.v
ExecutorControl.v
Text.v
TextFacts.v
IlSyntax.v
IlCodegen.v
StraightLine.v
IlFacts.v
IlCorrect.v
LdCompiler.v
Transport.v
Qos.v
Stream.v
Middleware.v
Zenoh.v
Signals.v
Lifecycle.v
Engine.v
Configuration.v
Modbus.v
ModbusDevice.v
VirtualHart.v
ModbusAdapter.v
HartAdapter.v
AdapterManager.v
GcodeParser.v
GcodeText.v
CncMotion.v
MotionFacts.v
GcodeCompiler.v
GcodeFacts.v
Flow.v
AxisConfig.v
SoftLimits.v
Homing.v
Backlash.v
Alarm.v
AxisGroup.v
LdSemantics.v
LdCycle.v
Sfc.v
Fbd.v
CommonTypes.v
EngineThread.v
HealthServer.v
Process.v
IpcWire.v
IpcServer.v
RuntimeClient.v
IpcFacts.v
Agent.v
Simulation.v
StLexer.v
StParser.v
StParserFacts.v
StPrint.v
StCodegen.v
StLayout.v
StBackpatch.v
StGenerator.v
StSemantics.v
StExprRun.v
StCorrect.v
StProgram.v
StSafety.v
StBehaviour.v
LdLayout.v
DapAdapter.v
TheiaBridge.v
