(* ===== verification/Prelude.v ===== *)
(** * AUDESYS: a verification library of the controller

    ** The program

    AUDESYS is an industrial controller.  PLC source text (Structured Text, IL,
    ladder, function block and sequential function charts, G-code) is compiled
    to HAL IR, a small register machine's instruction set; the runtime loads a
    HAL IR program and runs it once per scan cycle, between a read barrier that
    takes the inputs from a middleware and a write barrier that publishes the
    outputs to it.  Clients reach the runtime over a socket with signed tokens
    and roles; field buses, a debug adapter, a supervisor and the studio's
    backend sit around it.  This library models the Rust crates under
    [src/crates/].

    ** The files

    Each file opens with the sources it models; a definition keeps the name of
    the function it translates, with a prefix where two would clash.

    Values and machine
      Prelude         results, machine integers, bytes and little-endian words,
                      slices, strings as bytes and UTF-8, tactics
      Float, IntFloat f32/f64 as bit patterns, computed with SpecFloat; integers
                      that floats hold exactly
      HalTypes        pin types, stream configuration, [HalError]
      HalValue        hal-core/value.rs: the value enum, arrays, operators
      Encoding        hal-core/encoding.rs: [encode_halvalue], [decode_halvalue]
      FlatBuffers     hal-flatbuffers/lib.rs: values as FlatBuffers tables
      HalIr           hal-ir/{types,instruction,program}.rs
      FunctionBlocks  hal-ir/{vm,executor}.rs: timers, counters, flip-flops, edges
      Vm, Executor    hal-ir/{vm,executor}.rs: state, opcodes, [step],
                      [run_to_halt], debugger
      ExecutorFacts   well-formedness, reachable executors, what steps keep
      ExecutorControl control flow, termination, the debugger and debug sessions

    IEC compilers
      Text, TextFacts the string functions of the text front ends; numbers
      IlSyntax, IlCodegen  il-compiler: lexer, parser, code generator
      StraightLine    running straight-line code, used by the compiler proofs
      IlFacts, IlCorrect   the IL generator: shape, panics, computed outputs
      LdCompiler      ld-compiler and its correctness
      LdSemantics     ld-semantics: networks, power flow, execution of elements
      LdCycle         ld-semantics: rungs built by the builders, whole scans
      LdLayout        ld-layout: the grid, rails and wires of a network
      Sfc, Fbd        sfc-compiler, fbd-compiler
      StLexer, StParser    hal-binding-gen: lexer, parser
      StParserFacts, StPrint  the parser is total and inverts the printer
      StCodegen       hal-binding-gen: code generator, [compile]
      StLayout, StBackpatch, StGenerator  the generated code as a layout with
                      labels, back-patching, and their equivalence
      StSemantics, StExprRun, StCorrect, StProgram  source semantics of the
                      DINT fragment and the correctness of its compilation
      StSafety, StBehaviour  what compiled programs do outside that fragment

    Motion
      GcodeParser, GcodeText  gcode-compiler: lexer, parser, printed programs
      CncMotion, MotionFacts  cnc-motion: trapezoidal moves
      GcodeCompiler, GcodeFacts  gcode-compiler: modal state, code, behaviour
      Flow            running code with jumps, for the motion programs
      AxisConfig, SoftLimits, Homing, Backlash, Alarm, AxisGroup
                      cnc-axis-group: the programs of an axis group, combined

    Middleware
      Transport, Qos, Stream  hal-core and amw-inproc: signals, lock levels and
                      config barrier, streams
      Middleware      amw-inproc {discovery,middleware}.rs, the bundle
      Zenoh           amw-zenoh: the network transport and discovery

    Runtime
      Signals         runtime/{signals,metrics}.rs
      Lifecycle       runtime/lifecycle.rs: child supervision
      Engine          runtime/engine.rs: the scan cycle, programs, hot swap
      EngineThread    runtime/engine.rs: the thread step by step, deadlines
      Configuration   runtime/config.rs: settings, validation, file watcher
      HealthServer    runtime/health.rs: the HTTP endpoint
      Process         runtime/{logging,main}.rs
      Simulation      runtime/simulation.rs: faults, scenes, playback
      AdapterManager  runtime/adapter_manager.rs

    Field buses
      Modbus, ModbusDevice  runtime/virtual_modbus.rs: both copies of the device
      ModbusAdapter   modbus: conversions, client, poll loop
      VirtualHart     runtime/virtual_hart.rs
      HartAdapter     hart: conversions, client, poll loop

    Clients
      CommonTypes     runtime-common: roles, health, metrics text
      IpcWire, IpcServer  runtime/ipc.rs: frames, tokens, handlers, connections
      RuntimeClient   runtime-client: the socket client
      IpcFacts        authorization, sessions, client and server together
      Agent           agent: the supervisor process
      DapAdapter      dap-adapter: the debug adapter
      TheiaBridge     theia-bridge: what the studio's backend calls

    ** How the parts interact

    A compiler produces a [HalProgram]; [executor_new] pairs it with a fresh
    [Vm]; [Engine.cycle] copies the signal registry into the machine's signal
    table, runs the executor to its halt and copies the table back.  The engine
    reaches its middleware only through the classes [HalTransport], [HalQoS] and
    their laws ([HalTransportLaws], [AmwMiddlewareLaws]); everything about the
    engine is proved for any lawful instance; [InprocTransport] and
    [InprocMiddleware] are shown lawful, and [ZenohTransport] lawful but for its
    shutdown.  [EngineThread] runs the turns of [Engine] as interleaved steps.
    [IpcServer] handles requests over an engine; [RuntimeClient] writes the
    frames it reads and reads the frames it writes, and [Agent], [DapAdapter] and
    [TheiaBridge] are clients of it - the debug adapter through the class
    [ControllerClient], implemented by the socket client on a given input
    ([SocketClient]) and by the socket client with the server handling its
    requests ([LiveClient]).  The Modbus and HART adapters publish to any transport
    and talk to devices through the classes [Libmodbus] and [SerialPort].

    ** Conventions

    - A Rust panic (an index out of range, a failed slice, an overflow in a
      checked build) is the [None] of an [option]; a [Result] is [result] with
      [Ok] and [Err].  [let?] is [?] on results, [let??] on results of code
      that may also panic.
    - [BuildProfile] is Cargo's [overflow-checks] switch.  The theorems hold for
      both values unless they say otherwise.
    - An integer of width [w] is a [Z] with the wrap-around written out
      ([wrap_u], [wrap_s], [arith]); the well-formedness predicates state the
      range.  Floats are their bit patterns, NaN results are the canonical NaN.
    - A string is its sequence of bytes.  The case, trimming and splitting
      functions are those of ASCII text; beyond ASCII, Rust's Unicode tables
      would differ.
    - The order in which a [HashMap] is iterated is unspecified; the model
      fixes one, and the theorems only speak of membership.
    - Callbacks, compute closures and process handles are identifiers; what the
      clock, the operating system, a socket or another thread reports is an
      argument.
    - Third-party code is a class parameter: bincode, YAML and UTF-8 error texts
      ([Decoders], [ConfigYaml]), HMAC ([Hmac]), float texts ([FloatFormat],
      [FloatParse]), the transcendental functions ([FloatFunctions]), [io::Error]
      texts ([IoDisplay]), JSON ([JsonText], [BridgeJson]), libmodbus
      ([Libmodbus]), the serial port and the HART codec ([SerialPort],
      [HartCodec]), flatbuffers ([FlatBuffers]).  Where a theorem needs a law of
      one of them, the law is a class or a hypothesis of its own, states what
      its documentation promises, and is instantiated by a concrete function in
      the theorem's witness.

    ** Fuel and bounds

    Fuel occurs where the program may loop for ever or waits for the outside:
    [run_loop] ([run_loop_sound] and [run_loop_complete]: the same run for any fuel above its length;
    [forward_program_halts] and the compiler theorems give enough), [shutdown_loop] ([shutdown_terminates]), the parser of
    Structured Text ([parse_fuel], linear in the tokens, is enough:
    [parse_total]), the poll loops of the adapters ([stop_all_joins],
    [hart_loop_terminates]), the steps of the engine's thread
    ([stop_ends_thread]: eight, and two after the end of a cycle), ladder scans
    ([ladder_scan]: the size of a network), the polls of a starting controller
    ([controller_start_ends]: 101) and the exits a supervisor survives
    ([crash_loop_ends]: four turns).

    ** What is shown

    Values and encoding: arithmetic gives the exact result, wraps or panics as
    stated, and [S32(0)] on mixed or non-numeric operands; array stores are
    read back, and array reads panic exactly as stated; decoding inverts
    encoding (but for empty arrays, which the decoder rejects) and accepts
    nothing else; the FlatBuffers form loses only the sign of a float zero.

    Machine: every executor reachable through the API, the machine's own mutators
    included, is well formed; a debug session goes through the states of the
    plain program and reaches its halt; forward programs halt; only a [Store]
    changes a signal; the timers
    and counters meet their specifications, with the deviations the findings
    list.

    Compilers: source texts round-trip through printer, lexer and parser;
    generated code is well formed and its panics are characterised; Boolean IL
    programs, ladder rungs and the DINT fragment of Structured Text compute the
    outputs of their sources when run; the Structured Text generator equals a
    layout with labels; power flow in a ladder is reachability and a scan of built
    rungs is boolean logic, edges apart, which are not detected; SFC, FBD and the
    rest of Structured Text behave as stated, mostly not as intended.

    Motion: trapezoidal moves follow the kinematic recurrence and end; programs
    of rapid moves leave the signals of the command sequence; linear moves with
    two cycles of acceleration or of cruise never end; the combined program of an axis group does what
    its parts do in order.

    Middleware: latest-value reads for any lawful transport; delivery to
    subscribers; monotone lock levels and the FIFO config barrier; order, bound
    and overflow behaviour of streams for every interleaving; the network
    transport follows the in-process one but for the differences listed: no
    subscriber is called, patterns match anywhere, calls have no timeout.

    Runtime: registry stability; the metrics ring buffer is a sliding window; a
    child is restarted at most three times in thirty seconds; shutdown ends;
    the inputs and outputs of a completed cycle are exactly those the design asks
    for, and with a computed signal the cycle blocks on its own lock; hot swap,
    the engine invariant, single stepping; the thread's gate refines the turn of
    the engine; a stopped thread ends exactly when it is not in the second
    waiting loop and its cycle is over some time; the watcher announces two of
    the six settings of its file; health and log texts read back; injection, faults
    and playback of the simulation.

    Field buses: the devices answer with well-formed frames, read back what was
    written and split a byte stream into requests; after a turn the Modbus
    device holds a written signal no write of which has failed; failed polls
    change nothing;
    the poll loops end.

    Clients: a request changes only what its session's role may change; a session
    is given, and a request let through, exactly under the conditions stated; a
    subscription is dropped by the cleanup after the request that makes it; a
    written value is read back;
    because the server answers an authentication twice, a client is always one
    response behind, which decides what the bridge reports; the supervisor
    restarts a process at most three times, and its status push is a request to
    load a program; the debug adapter answers every request in order, but
    after attaching clears no breakpoint and reports the answer to another
    request.

    ** What is not modelled

    The layout of FlatBuffers tables in bytes (third-party code behind generated
    boilerplate), the user interfaces in TypeScript and the vendored AUDEDeck,
    tests and test vectors.  Mutex poisoning, and scheduling finer than the steps
    named in each file: an API call of the engine is atomic with respect to a
    cycle, except where [EngineThread] interleaves them, and each adapter has
    one poll thread. *)

From Stdlib Require Export ZArith Lia Bool List Ascii String.
From stdpp Require Export base decidable list option gmap sets strings sorting.

Declare Scope hal_scope.
Delimit Scope hal_scope with hal.
Open Scope hal_scope.
Open Scope Z_scope.

(** ** Results

    A Rust [Result<A, E>].  Partiality ([panic!], an out-of-range index, an
    arithmetic overflow under [overflow-checks]) is an outer [option], whose
    [None] is the panic. *)
Inductive result (A E : Type) : Type :=
  | Ok (a : A)
  | Err (e : E).
Arguments Ok {A E} _.
Arguments Err {A E} _.

Definition result_bind {A B E} (m : result A E) (f : A → result B E) : result B E :=
  match m with Ok a => f a | Err e => Err e end.

Definition is_ok {A E} (m : result A E) : bool :=
  match m with Ok _ => true | Err _ => false end.

Notation "'let?' x := m 'in' k" := (result_bind m (fun x => k))
  (at level 10, x pattern, m at level 100, k at level 200)
  : hal_scope.

(** The composition of a panic and an error: [?] inside code that may panic. *)
Definition presult_bind {A B E} (m : option (result A E))
    (f : A → option (result B E)) : option (result B E) :=
  match m with
  | None => None
  | Some (Err e) => Some (Err e)
  | Some (Ok a) => f a
  end.

Notation "'let??' x := m 'in' k" := (presult_bind m (fun x => k))
  (at level 10, x pattern, m at level 100, k at level 200)
  : hal_scope.

(** Cargo's [overflow-checks] switch: on in the [dev] profile (an arithmetic
    overflow panics), off in [release] (it wraps). *)
Class BuildProfile := overflow_checks : bool.
Definition debug_profile : BuildProfile := true.
Definition release_profile : BuildProfile := false.

(** ** Machine integers *)
Definition wrap_u (w z : Z) : Z := z mod 2 ^ w.
Definition wrap_s (w z : Z) : Z := (z + 2 ^ (w - 1)) mod 2 ^ w - 2 ^ (w - 1).
Definition wrap (signed : bool) (w z : Z) : Z :=
  if signed then wrap_s w z else wrap_u w z.

Definition in_u (w z : Z) : bool := (0 <=? z) && (z <? 2 ^ w).
Definition in_s (w z : Z) : bool := (- 2 ^ (w - 1) <=? z) && (z <? 2 ^ (w - 1)).
Definition in_int (signed : bool) (w z : Z) : bool :=
  if signed then in_s w z else in_u w z.

(** An arithmetic result [z] computed at width [w]: itself when it fits, a
    panic or its wrapped value when it does not. *)
Definition arith `{BuildProfile} (signed : bool) (w z : Z) : option Z :=
  if in_int signed w z then Some z
  else if overflow_checks then None else Some (wrap signed w z).

Create HintDb hal discriminated.
Create Rewrite HintDb hal.

Lemma in_u_spec w z : in_u w z = true ↔ 0 ≤ z < 2 ^ w.
Proof. unfold in_u. rewrite andb_true_iff, Z.leb_le, Z.ltb_lt. done. Qed.

Lemma in_s_spec w z : in_s w z = true ↔ - 2 ^ (w - 1) ≤ z < 2 ^ (w - 1).
Proof. unfold in_s. rewrite andb_true_iff, Z.leb_le, Z.ltb_lt. done. Qed.

Lemma wrap_u_in w z : 0 ≤ w → in_u w (wrap_u w z) = true.
Proof.
  intros Hw. apply in_u_spec. unfold wrap_u.
  apply Z.mod_pos_bound, Z.pow_pos_nonneg; lia.
Qed.

Lemma pow2_half w : 0 < w → 2 ^ w = 2 * 2 ^ (w - 1).
Proof. intros Hw. rewrite <- Z.pow_succ_r by lia. f_equal; lia. Qed.

Lemma wrap_s_in w z : 0 < w → in_s w (wrap_s w z) = true.
Proof.
  intros Hw. apply in_s_spec. unfold wrap_s.
  pose proof (pow2_half w Hw).
  assert (0 < 2 ^ (w - 1)) by (apply Z.pow_pos_nonneg; lia).
  pose proof (Z.mod_pos_bound (z + 2 ^ (w - 1)) (2 ^ w)). lia.
Qed.

Lemma wrap_u_id w z : in_u w z = true → wrap_u w z = z.
Proof. rewrite in_u_spec. intros. unfold wrap_u. apply Z.mod_small; lia. Qed.

Lemma wrap_s_id w z : 0 < w → in_s w z = true → wrap_s w z = z.
Proof.
  rewrite in_s_spec. intros Hw Hz. unfold wrap_s.
  rewrite Z.mod_small; [lia|]. pose proof (pow2_half w Hw). lia.
Qed.

Lemma wrap_s_mod w z : 0 < w → wrap_s w (z mod 2 ^ w) = wrap_s w z.
Proof. intros Hw. unfold wrap_s. rewrite Zplus_mod_idemp_l. done. Qed.

Lemma wrap_u_mod w z : wrap_u w (z mod 2 ^ w) = wrap_u w z.
Proof. unfold wrap_u. apply Zmod_mod. Qed.

Lemma wrap_in s w z : 0 < w → in_int s w (wrap s w z) = true.
Proof. destruct s; [apply wrap_s_in | intros; apply wrap_u_in; lia]. Qed.

Lemma wrap_id s w z : 0 < w → in_int s w z = true → wrap s w z = z.
Proof. destruct s; [apply wrap_s_id | intros; by apply wrap_u_id]. Qed.

Lemma wrap_mod s w z : 0 < w → wrap s w (z mod 2 ^ w) = wrap s w z.
Proof. destruct s; [apply wrap_s_mod | intros; apply wrap_u_mod]. Qed.

Lemma arith_in `{BuildProfile} s w z r :
  0 < w → arith s w z = Some r → in_int s w r = true.
Proof.
  unfold arith. intros Hw. destruct (in_int s w z) eqn:E.
  - intros [= <-]. done.
  - destruct overflow_checks; [done|]. intros [= <-]. by apply wrap_in.
Qed.

Lemma arith_exact `{BuildProfile} s w z :
  in_int s w z = true → arith s w z = Some z.
Proof. unfold arith. by intros ->. Qed.

#[export] Hint Resolve wrap_u_in wrap_s_in wrap_in arith_in : hal.
#[export] Hint Extern 2 (0 < _) => lia : hal.
#[export] Hint Extern 2 (0 ≤ _) => lia : hal.

(** ** Bytes

    A byte is a [Z] in [0, 256); [le_bytes n z] is [z.to_le_bytes()] of an
    [8 * n]-bit integer (two's complement for a negative [z]) and
    [of_le_bytes] is [from_le_bytes] at the unsigned type. *)
Definition is_byte (b : Z) : bool := in_u 8 b.
Definition bytes_wf (l : list Z) : bool := forallb is_byte l.

Fixpoint le_bytes (n : nat) (z : Z) : list Z :=
  match n with
  | O => []
  | S n => z mod 256 :: le_bytes n (z / 256)
  end.

Fixpoint of_le_bytes (l : list Z) : Z :=
  match l with
  | [] => 0
  | b :: l => b + 256 * of_le_bytes l
  end.

Definition be_bytes (n : nat) (z : Z) : list Z := rev (le_bytes n z).
Definition of_be_bytes (l : list Z) : Z := of_le_bytes (rev l).

Lemma is_byte_spec b : is_byte b = true ↔ 0 ≤ b < 256.
Proof. unfold is_byte. rewrite in_u_spec. done. Qed.

Lemma bytes_wf_cons b l : bytes_wf (b :: l) = true ↔ 0 ≤ b < 256 ∧ bytes_wf l = true.
Proof. cbn. rewrite andb_true_iff, is_byte_spec. done. Qed.

Lemma bytes_wf_app l k :
  bytes_wf (l ++ k) = true ↔ bytes_wf l = true ∧ bytes_wf k = true.
Proof. unfold bytes_wf. rewrite forallb_app, andb_true_iff. done. Qed.

Lemma bytes_wf_Forall l : bytes_wf l = true ↔ Forall (fun b => 0 ≤ b < 256) l.
Proof.
  induction l as [|b l IH]; [by split|].
  rewrite bytes_wf_cons, Forall_cons, IH. done.
Qed.

Lemma bytes_wf_take n l : bytes_wf l = true → bytes_wf (take n l) = true.
Proof. rewrite !bytes_wf_Forall. apply Forall_take. Qed.

Lemma bytes_wf_drop n l : bytes_wf l = true → bytes_wf (drop n l) = true.
Proof. rewrite !bytes_wf_Forall. apply Forall_drop. Qed.

Lemma le_bytes_length n z : length (le_bytes n z) = n.
Proof. revert z. induction n; intros; cbn; auto. Qed.

Lemma le_bytes_wf n z : bytes_wf (le_bytes n z) = true.
Proof.
  revert z. induction n; intros z; [done|].
  apply bytes_wf_cons. split; [apply Z.mod_pos_bound; lia | apply IHn].
Qed.

Lemma of_le_bytes_bound l :
  bytes_wf l = true → 0 ≤ of_le_bytes l < 2 ^ (8 * Z.of_nat (length l)).
Proof.
  induction l as [|b l IH]; cbn [of_le_bytes length]; [cbn; lia|].
  rewrite bytes_wf_cons. intros [Hb Hl]. specialize (IH Hl).
  replace (8 * Z.of_nat (S (length l))) with (8 + 8 * Z.of_nat (length l)) by lia.
  rewrite Z.pow_add_r by lia. change (2 ^ 8) with 256. lia.
Qed.

Lemma of_le_bytes_le_bytes n z :
  of_le_bytes (le_bytes n z) = z mod 2 ^ (8 * Z.of_nat n).
Proof.
  revert z. induction n as [|n IH]; intros z; cbn [of_le_bytes le_bytes].
  - cbn. rewrite Z.mod_1_r. done.
  - rewrite IH. replace (8 * Z.of_nat (S n)) with (8 + 8 * Z.of_nat n) by lia.
    rewrite Z.pow_add_r by lia. change (2 ^ 8) with 256.
    rewrite Z.rem_mul_r by lia. lia.
Qed.

Lemma le_bytes_of_le_bytes l :
  bytes_wf l = true → le_bytes (length l) (of_le_bytes l) = l.
Proof.
  induction l as [|b l IH]; [done|]. rewrite bytes_wf_cons. intros [Hb Hl].
  cbn [of_le_bytes length le_bytes]. f_equal.
  - rewrite Z.mul_comm, Z.mod_add by lia. apply Z.mod_small; lia.
  - replace ((b + 256 * of_le_bytes l) / 256) with (of_le_bytes l); [auto|].
    rewrite Z.mul_comm, Z.div_add, Z.div_small by lia. lia.
Qed.

Lemma le_bytes_mod n z : le_bytes n (z mod 2 ^ (8 * Z.of_nat n)) = le_bytes n z.
Proof.
  rewrite <- of_le_bytes_le_bytes.
  rewrite <- (le_bytes_length n z) at 1. apply le_bytes_of_le_bytes, le_bytes_wf.
Qed.

Lemma be_bytes_length n z : length (be_bytes n z) = n.
Proof. unfold be_bytes. rewrite length_rev. apply le_bytes_length. Qed.

Lemma of_be_bytes_be_bytes n z :
  of_be_bytes (be_bytes n z) = z mod 2 ^ (8 * Z.of_nat n).
Proof. unfold of_be_bytes, be_bytes. rewrite rev_involutive. apply of_le_bytes_le_bytes. Qed.

#[export] Hint Resolve le_bytes_wf bytes_wf_take bytes_wf_drop : hal.
#[export] Hint Rewrite le_bytes_length be_bytes_length : hal.

(** ** Slices

    [slice l a b] is [&l[a..b]]: it panics when [a > b] or [b > l.len()]. *)
Definition slice {A} (l : list A) (a b : nat) : option (list A) :=
  if (a <=? b)%nat && (b <=? length l)%nat then Some (take (b - a) (drop a l))
  else None.

(** [l[a..a + k.len()].copy_from_slice(k)] for an in-range [a]. *)
Definition splice {A} (l : list A) (a : nat) (k : list A) : list A :=
  take a l ++ k ++ drop (a + length k) l.

Lemma slice_ok {A} (l : list A) a n :
  (a + n ≤ length l)%nat → slice l a (a + n) = Some (take n (drop a l)).
Proof.
  intros H. unfold slice.
  rewrite (proj2 (Nat.leb_le _ _)) by lia. rewrite (proj2 (Nat.leb_le _ _)) by lia.
  cbn. do 2 f_equal. lia.
Qed.

Lemma slice_length {A} (l k : list A) a b :
  slice l a b = Some k → length k = (b - a)%nat.
Proof.
  unfold slice. destruct (andb _ _) eqn:E; [|done]. intros [= <-].
  apply andb_true_iff in E as [?%Nat.leb_le ?%Nat.leb_le].
  rewrite length_take, length_drop. lia.
Qed.

Lemma splice_length {A} (l k : list A) a :
  (a + length k ≤ length l)%nat → length (splice l a k) = length l.
Proof.
  intros. unfold splice. rewrite !length_app, length_take, length_drop. lia.
Qed.

Lemma splice_same {A} (l k : list A) a :
  (a + length k ≤ length l)%nat → take (length k) (drop a (splice l a k)) = k.
Proof.
  intros. unfold splice. rewrite drop_app_length'.
  - apply take_app_length.
  - rewrite length_take. lia.
Qed.

Lemma splice_before {A} (l k : list A) a b n :
  (b + n ≤ a)%nat → (a ≤ length l)%nat →
  take n (drop b (splice l a k)) = take n (drop b l).
Proof.
  intros. unfold splice.
  rewrite drop_app_le by (rewrite length_take; lia).
  rewrite take_app_le by (rewrite length_drop, length_take; lia).
  rewrite drop_take_drop || rewrite skipn_firstn_comm.
  rewrite take_take. f_equal. lia.
Qed.

Lemma splice_after {A} (l k : list A) a b n :
  (a + length k ≤ b)%nat → (a + length k ≤ length l)%nat →
  take n (drop b (splice l a k)) = take n (drop b l).
Proof.
  intros. unfold splice. f_equal.
  rewrite drop_app_ge by (rewrite length_take; lia).
  rewrite drop_app_ge by (rewrite length_take; lia).
  rewrite length_take, drop_drop. f_equal. lia.
Qed.

(** ** Strings

    A Rust [String] is a Rocq [string] of bytes that satisfies [utf8_valid]. *)
Definition byte_of_ascii (c : ascii) : Z := Z.of_N (N_of_ascii c).
Definition ascii_of_byte (b : Z) : ascii := ascii_of_N (Z.to_N b).

Fixpoint string_bytes (s : string) : list Z :=
  match s with
  | EmptyString => []
  | String.String c s => byte_of_ascii c :: string_bytes s
  end.

Fixpoint bytes_string (l : list Z) : string :=
  match l with
  | [] => EmptyString
  | b :: l => String.String (ascii_of_byte b) (bytes_string l)
  end.

Lemma ascii_byte_roundtrip c : ascii_of_byte (byte_of_ascii c) = c.
Proof. unfold ascii_of_byte, byte_of_ascii. rewrite N2Z.id. apply ascii_N_embedding. Qed.

Lemma byte_ascii_roundtrip b : 0 ≤ b < 256 → byte_of_ascii (ascii_of_byte b) = b.
Proof.
  intros H. unfold ascii_of_byte, byte_of_ascii. rewrite N_ascii_embedding by lia. lia.
Qed.

Lemma byte_of_ascii_bound c : 0 ≤ byte_of_ascii c < 256.
Proof. unfold byte_of_ascii. pose proof (N_ascii_bounded c). lia. Qed.

Lemma bytes_string_bytes s : bytes_string (string_bytes s) = s.
Proof. induction s as [|c s IH]; [done|]. cbn. rewrite ascii_byte_roundtrip, IH. done. Qed.

Lemma string_bytes_string l : bytes_wf l = true → string_bytes (bytes_string l) = l.
Proof.
  induction l as [|b l IH]; [done|]. rewrite bytes_wf_cons. intros [Hb Hl].
  cbn. rewrite byte_ascii_roundtrip, IH; auto.
Qed.

Lemma string_bytes_wf s : bytes_wf (string_bytes s) = true.
Proof.
  induction s; [done|]. cbn [string_bytes]. apply bytes_wf_cons.
  split; [apply byte_of_ascii_bound | done].
Qed.

Lemma string_bytes_app s t : string_bytes (s +:+ t) = string_bytes s ++ string_bytes t.
Proof. induction s as [|c s IH]; [done|]. cbn [string_bytes app]. rewrite <- IH. done. Qed.

Lemma string_bytes_length s : length (string_bytes s) = String.length s.
Proof. induction s; cbn; auto. Qed.

(** Well-formed UTF-8 (Unicode table 3-7), the acceptance condition of
    [String::from_utf8]. *)
Definition utf8_cont (b : Z) : bool := (128 <=? b) && (b <=? 191).
Definition between (lo hi b : Z) : bool := (lo <=? b) && (b <=? hi).

Definition utf8_snd (b0 b1 : Z) : bool :=
  if b0 =? 224 then between 160 191 b1
  else if b0 =? 237 then between 128 159 b1
  else if b0 =? 240 then between 144 191 b1
  else if b0 =? 244 then between 128 143 b1
  else utf8_cont b1.

Fixpoint utf8_valid (l : list Z) : bool :=
  match l with
  | [] => true
  | b0 :: l1 =>
      if between 0 127 b0 then utf8_valid l1
      else match l1 with
      | [] => false
      | b1 :: l2 =>
          if between 194 223 b0 then utf8_cont b1 && utf8_valid l2
          else match l2 with
          | [] => false
          | b2 :: l3 =>
              if between 224 239 b0 then utf8_snd b0 b1 && utf8_cont b2 && utf8_valid l3
              else match l3 with
              | [] => false
              | b3 :: l4 =>
                  between 240 244 b0 && utf8_snd b0 b1 && utf8_cont b2
                  && utf8_cont b3 && utf8_valid l4
              end
          end
      end
  end.

(** [String::from_utf8(bytes)]: [None] is its [Err]. *)
Definition from_utf8 (l : list Z) : option string :=
  if utf8_valid l then Some (bytes_string l) else None.

Definition string_wf (s : string) : bool := utf8_valid (string_bytes s).

Lemma from_utf8_string_bytes s :
  string_wf s = true → from_utf8 (string_bytes s) = Some s.
Proof. unfold string_wf, from_utf8. intros ->. by rewrite bytes_string_bytes. Qed.

Lemma from_utf8_wf l s :
  bytes_wf l = true → from_utf8 l = Some s → string_wf s = true ∧ string_bytes s = l.
Proof.
  unfold from_utf8, string_wf. intros Hl. destruct (utf8_valid l) eqn:E; [|done].
  intros [= <-]. rewrite string_bytes_string; done.
Qed.

Lemma ascii_string_wf l :
  Forall (fun b => 0 ≤ b < 128) l → utf8_valid l = true.
Proof.
  induction 1 as [|b l Hb Hl IH]; [done|]. cbn.
  replace (between 0 127 b) with true; [done|].
  symmetry. unfold between. apply andb_true_iff. rewrite !Z.leb_le. lia.
Qed.

(** ** Tactics *)

(** Case split on every [match] scrutinee of the goal or of a hypothesis. *)
Ltac case_match_in H :=
  match type of H with
  | context [match ?x with _ => _ end] =>
      lazymatch x with
      | context [match _ with _ => _ end] => fail
      | _ => let E := fresh "E" in destruct x eqn:E
      end
  end.

Ltac crush_match H := repeat (case_match_in H; simplify_eq; try done).

(** Unfold the [option] binds of [H : ... = Some _]. *)
Ltac inv_bind H :=
  repeat match type of H with
  | _ ≫= _ = Some _ => apply bind_Some in H as (? & ? & H)
  end.

(** Turn boolean comparisons in the context into arithmetic facts. *)
Ltac breflect :=
  repeat match goal with
  | H : (_ && _) = true |- _ => apply andb_true_iff in H as [? ?]
  | H : (_ || _) = false |- _ => apply orb_false_iff in H as [? ?]
  | H : negb _ = true |- _ => apply negb_true_iff in H
  | H : negb _ = false |- _ => apply negb_false_iff in H
  | H : (_ <=? _)%Z = true |- _ => apply Z.leb_le in H
  | H : (_ <=? _)%Z = false |- _ => apply Z.leb_gt in H
  | H : (_ <? _)%Z = true |- _ => apply Z.ltb_lt in H
  | H : (_ <? _)%Z = false |- _ => apply Z.ltb_ge in H
  | H : (_ =? _)%Z = true |- _ => apply Z.eqb_eq in H
  | H : (_ =? _)%Z = false |- _ => apply Z.eqb_neq in H
  | H : (_ <=? _)%nat = true |- _ => apply Nat.leb_le in H
  | H : (_ <=? _)%nat = false |- _ => apply Nat.leb_gt in H
  | H : (_ <? _)%nat = true |- _ => apply Nat.ltb_lt in H
  | H : (_ <? _)%nat = false |- _ => apply Nat.ltb_ge in H
  | H : (_ =? _)%nat = true |- _ => apply Nat.eqb_eq in H
  | H : (_ =? _)%nat = false |- _ => apply Nat.eqb_neq in H
  end.
