(* ===== verification/Float.v ===== *)
(** * IEEE 754 numbers as Rust's [f32] and [f64] store them

    A float is its bit pattern ([to_bits]), a [Z]; the arithmetic decodes the
    pattern to the Standard Library's executable [spec_float], uses the
    round-to-nearest-even operations of [SpecFloat] and encodes the result.
    A NaN result is the canonical quiet NaN, one of the patterns Rust allows. *)
From S2P Require Import Prelude.
From Stdlib Require Import Floats.SpecFloat.
Local Open Scope Z_scope.

(** A binary format: mantissa width, exponent width. *)
Record format := Format { mant_w : Z; exp_w : Z }.
Definition binary32 : format := Format 23 8.
Definition binary64 : format := Format 52 11.

Definition prec (f : format) : Z := mant_w f + 1.
Definition emax (f : format) : Z := 2 ^ (exp_w f - 1).
Definition emin (f : format) : Z := SpecFloat.emin (prec f) (emax f).
Definition width (f : format) : Z := mant_w f + exp_w f + 1.

Definition float_sign (f : format) (bits : Z) : bool := Z.testbit bits (mant_w f + exp_w f).
Definition float_exp (f : format) (bits : Z) : Z := (bits / 2 ^ mant_w f) mod 2 ^ exp_w f.
Definition float_mant (f : format) (bits : Z) : Z := bits mod 2 ^ mant_w f.

(** [f64::from_bits], to the value the pattern denotes. *)
Definition float_decode (f : format) (bits : Z) : spec_float :=
  let s := float_sign f bits in
  let e := float_exp f bits in
  let m := float_mant f bits in
  if e =? 0 then
    match m with
    | Zpos p => S754_finite s p (emin f)
    | _ => S754_zero s
    end
  else if e =? 2 ^ exp_w f - 1 then
    if m =? 0 then S754_infinity s else S754_nan
  else
    match m + 2 ^ mant_w f with
    | Zpos p => S754_finite s p (e + emin f - 1)
    | _ => S754_nan
    end.

Definition float_pack (f : format) (s : bool) (e m : Z) : Z :=
  wrap_u (width f)
    ((if s then 2 ^ (mant_w f + exp_w f) else 0) + e * 2 ^ mant_w f + m).

Definition float_nan (f : format) : Z :=
  float_pack f false (2 ^ exp_w f - 1) (2 ^ (mant_w f - 1)).

(** [f64::to_bits] of a value. *)
Definition float_encode (f : format) (x : spec_float) : Z :=
  match x with
  | S754_zero s => float_pack f s 0 0
  | S754_infinity s => float_pack f s (2 ^ exp_w f - 1) 0
  | S754_nan => float_nan f
  | S754_finite s m e =>
      if Zpos m <? 2 ^ mant_w f then float_pack f s 0 (Zpos m)
      else float_pack f s (e - emin f + 1) (Zpos m - 2 ^ mant_w f)
  end.

(** ** Arithmetic on bit patterns *)
Definition float_op (op : spec_float → spec_float → spec_float)
    (f : format) (a b : Z) : Z :=
  float_encode f (op (float_decode f a) (float_decode f b)).

Definition float_add (f : format) : Z → Z → Z := float_op (SFadd (prec f) (emax f)) f.
Definition float_sub (f : format) : Z → Z → Z := float_op (SFsub (prec f) (emax f)) f.
Definition float_mul (f : format) : Z → Z → Z := float_op (SFmul (prec f) (emax f)) f.
Definition float_div (f : format) : Z → Z → Z := float_op (SFdiv (prec f) (emax f)) f.

(** [%] on floats is C's [fmod]: exact, with the sign of the dividend. *)
Definition SFrem (f : format) (x y : spec_float) : spec_float :=
  match x, y with
  | S754_nan, _ | _, S754_nan => S754_nan
  | S754_infinity _, _ => S754_nan
  | _, S754_zero _ => S754_nan
  | _, S754_infinity _ => x
  | S754_zero _, _ => x
  | S754_finite sx mx ex, S754_finite _ my ey =>
      let e := Z.min ex ey in
      let r := (Zpos mx * 2 ^ (ex - e)) mod (Zpos my * 2 ^ (ey - e)) in
      if r =? 0 then S754_zero sx
      else binary_normalize (prec f) (emax f) (if sx then - r else r) e sx
  end.
Definition float_rem (f : format) : Z → Z → Z := float_op (SFrem f) f.

(** Unary minus flips the sign bit, of a NaN too. *)
Definition float_neg (f : format) (a : Z) : Z :=
  wrap_u (width f) (Z.lxor a (2 ^ (mant_w f + exp_w f))).

Definition float_abs (f : format) (a : Z) : Z := a mod 2 ^ (mant_w f + exp_w f).

Definition float_cmp (f : format) (a b : Z) : option comparison :=
  SFcompare (float_decode f a) (float_decode f b).
Definition float_eqb (f : format) (a b : Z) : bool :=
  match float_cmp f a b with Some Eq => true | _ => false end.
Definition float_ltb (f : format) (a b : Z) : bool :=
  match float_cmp f a b with Some Lt => true | _ => false end.
Definition float_leb (f : format) (a b : Z) : bool :=
  match float_cmp f a b with Some (Lt | Eq) => true | _ => false end.

(** [f64::max] / [f64::min]: the other operand when one is a NaN. *)
Definition float_max (f : format) (a b : Z) : Z :=
  match float_decode f a, float_decode f b with
  | S754_nan, _ => b
  | _, S754_nan => a
  | _, _ => if float_ltb f a b then b else a
  end.
Definition float_min (f : format) (a b : Z) : Z :=
  match float_decode f a, float_decode f b with
  | S754_nan, _ => b
  | _, S754_nan => a
  | _, _ => if float_ltb f b a then b else a
  end.

(** [z as f64] rounds to nearest; [m * 2 ^ e] for a constant with a binary
    exponent. *)
Definition float_of_dyadic (f : format) (m e : Z) : Z :=
  float_encode f (binary_normalize (prec f) (emax f) m e false).
Definition float_of_Z (f : format) (z : Z) : Z := float_of_dyadic f z 0.

(** A decimal literal [m / 10 ^ k], rounded once ([SFdiv] is correctly rounded
    and both operands are exact for the literals of the source). *)
Definition float_lit (f : format) (m k : Z) : Z :=
  float_div f (float_of_Z f m) (float_of_Z f (10 ^ k)).

(** [f as f64] / [f as f32]: re-rounding from one format to another. *)
Definition float_convert (src dst : format) (a : Z) : Z :=
  match float_decode src a with
  | S754_finite s m e =>
      float_encode dst
        (binary_normalize (prec dst) (emax dst) (if s then Zneg m else Zpos m) e s)
  | x => float_encode dst x
  end.

(** Truncation towards zero of a finite value. *)
Definition SFtrunc (x : spec_float) : option Z :=
  match x with
  | S754_zero _ => Some 0
  | S754_finite s m e =>
      let a := if 0 <=? e then Zpos m * 2 ^ e else Zpos m / 2 ^ (- e) in
      Some (if s then - a else a)
  | _ => None
  end.

(** [x as iN] / [x as uN]: saturating, NaN to 0. *)
Definition float_to_int (f : format) (signed : bool) (w : Z) (a : Z) : Z :=
  let lo := if signed then - 2 ^ (w - 1) else 0 in
  let hi := if signed then 2 ^ (w - 1) - 1 else 2 ^ w - 1 in
  match float_decode f a with
  | S754_nan => 0
  | S754_infinity true => lo
  | S754_infinity false => hi
  | x => match SFtrunc x with
         | Some z => Z.max lo (Z.min hi z)
         | None => 0
         end
  end.

(** [f64::sqrt] is correctly rounded; [f64::ceil] is exact and keeps the sign of
    a zero result. *)
Definition float_sqrt (f : format) (a : Z) : Z :=
  float_encode f (SFsqrt (prec f) (emax f) (float_decode f a)).

Definition SFceil (f : format) (x : spec_float) : spec_float :=
  match x with
  | S754_finite s m e =>
      if 0 <=? e then x
      else
        let v := if s then Zneg m else Zpos m in
        binary_normalize (prec f) (emax f) (- (- v / 2 ^ (- e))) 0 s
  | _ => x
  end.
Definition float_ceil (f : format) (a : Z) : Z := float_encode f (SFceil f (float_decode f a)).

Definition f32_wf (a : Z) : bool := in_u 32 a.
Definition f64_wf (a : Z) : bool := in_u 64 a.

Definition f64_add := float_add binary64.
Definition f64_sub := float_sub binary64.
Definition f64_mul := float_mul binary64.
Definition f64_div := float_div binary64.
Definition f64_neg := float_neg binary64.
Definition f64_abs := float_abs binary64.
Definition f64_ltb := float_ltb binary64.
Definition f64_leb := float_leb binary64.
Definition f64_eqb := float_eqb binary64.
Definition f64_sqrt := float_sqrt binary64.
Definition f64_ceil := float_ceil binary64.
Definition f64_min := float_min binary64.
Definition f64_max := float_max binary64.
(** [x as u32] *)
Definition f64_to_u32 : Z → Z := float_to_int binary64 false 32.
Definition f64_of_Z := float_of_Z binary64.
Definition f64_lit := float_lit binary64.
Definition f32_zero : Z := 0.
Definition f64_zero : Z := 0.

Lemma float_pack_in f s e m : 0 ≤ width f → in_u (width f) (float_pack f s e m) = true.
Proof. intros. by apply wrap_u_in. Qed.

Lemma float_encode_in f x : 0 ≤ width f → in_u (width f) (float_encode f x) = true.
Proof.
  intros. destruct x; cbn; [by apply float_pack_in .. |].
  destruct (_ <? _); by apply float_pack_in.
Qed.

Lemma float_op_in op f a b : 0 ≤ width f → in_u (width f) (float_op op f a b) = true.
Proof. apply float_encode_in. Qed.

Lemma float_neg_in f a : 0 ≤ width f → in_u (width f) (float_neg f a) = true.
Proof. intros. by apply wrap_u_in. Qed.

Lemma float_to_int_in f signed w a :
  0 < w → in_int signed w (float_to_int f signed w a) = true.
Proof.
  intros Hw. unfold float_to_int.
  pose proof (pow2_half w Hw).
  assert (0 < 2 ^ (w - 1)) by (apply Z.pow_pos_nonneg; lia).
  destruct signed; cbn [in_int]; rewrite ?in_u_spec, ?in_s_spec;
    destruct (float_decode f a) as [ |[]| |]; cbn -[Z.pow Z.max Z.min]; lia.
Qed.

(** A NaN is not equal to anything, itself included. *)
Lemma float_eqb_nan f a b : float_decode f a = S754_nan → float_eqb f a b = false.
Proof. unfold float_eqb, float_cmp. intros ->. done. Qed.

#[export] Hint Resolve float_op_in float_neg_in float_to_int_in : hal.
