(* ===== verification/IntFloat.v ===== *)
(** * Integers in binary64

    The integers below [2 ^ 53] are binary64 numbers, and addition,
    subtraction, multiplication and comparison of such numbers are exact.  The
    loop counters of the motion profiles and the coordinates of the G-code
    lexer are such numbers. *)
From S2P Require Import Prelude Float.
From Stdlib Require Import Floats.SpecFloat.
Local Open Scope Z_scope.

Lemma digits2_pos_log2 p : Zpos (digits2_pos p) = Z.log2 (Zpos p) + 1.
Proof.
  induction p as [p IH|p IH|]; cbn [digits2_pos]; [| |done].
  - rewrite Pos2Z.inj_succ, IH, Pos2Z.inj_xI, Z.log2_succ_double by lia. lia.
  - rewrite Pos2Z.inj_succ, IH, Pos2Z.inj_xO, Z.log2_double by lia. lia.
Qed.

Lemma pos_iter_xO p d : Zpos (Pos.iter xO p d) = Zpos p * 2 ^ Zpos d.
Proof.
  induction d as [|d IH] using Pos.peano_ind; [cbn; lia|].
  rewrite Pos.iter_succ, Pos2Z.inj_xO, IH, Pos2Z.inj_succ, Z.pow_succ_r by lia. lia.
Qed.

Lemma iter_pos_comm {A} (f : A → A) n x : f (iter_pos f n x) = iter_pos f n (f x).
Proof. revert x. induction n as [n IH|n IH|]; intros x; cbn; by rewrite ?IH. Qed.

Lemma iter_pos_succ {A} (f : A → A) n x : iter_pos f (Pos.succ n) x = iter_pos f n (f x).
Proof.
  revert x. induction n as [n IH|n IH|]; intros x; [|done..].
  change (iter_pos f (Pos.succ n) (iter_pos f (Pos.succ n) x) =
          iter_pos f n (iter_pos f n (f (f x)))).
  by rewrite !IH, !iter_pos_comm.
Qed.

(** Shifting an exact multiple loses nothing. *)
Lemma shr_exact d m :
  0 ≤ m → iter_pos shr_1 d (Build_shr_record (m * 2 ^ Zpos d) false false) =
          Build_shr_record m false false.
Proof.
  intros Hm. induction d as [|d IH] using Pos.peano_ind.
  - change (2 ^ Zpos 1) with 2. rewrite Z.mul_comm. by destruct m; try lia.
  - rewrite iter_pos_succ. rewrite <- IH. f_equal.
    rewrite Pos2Z.inj_succ, Z.pow_succ_r by lia.
    replace (m * (2 * 2 ^ Zpos d)) with (2 * (m * 2 ^ Zpos d)) by lia.
    assert (0 ≤ m * 2 ^ Zpos d) by (apply Z.mul_nonneg_nonneg; [lia | apply Z.pow_nonneg; lia]).
    by destruct (m * 2 ^ Zpos d) eqn:E; try lia.
Qed.

Abbreviation dg n := (Z.log2 n + 1).

(** The normal form of a positive integer. *)
Definition sf_int (n : Z) : spec_float :=
  match n with
  | Zpos p => S754_finite false (Z.to_pos (n * 2 ^ (53 - dg n))) (dg n - 53)
  | _ => S754_zero false
  end.

Lemma log2_bounds n : 0 < n < 2 ^ 53 → 0 ≤ Z.log2 n < 53.
Proof. intros. split; [apply Z.log2_nonneg | apply Z.log2_lt_pow2; lia]. Qed.

Lemma mant_bounds n : 0 < n < 2 ^ 53 → 2 ^ 52 ≤ n * 2 ^ (53 - dg n) < 2 ^ 53.
Proof.
  intros Hn. pose proof (log2_bounds n Hn). pose proof (Z.log2_spec n (proj1 Hn)) as [Hl Hu].
  split.
  - replace (2 ^ 52) with (2 ^ Z.log2 n * 2 ^ (53 - dg n)); [nia|].
    rewrite <- Z.pow_add_r by lia. f_equal; lia.
  - replace (2 ^ 53) with (2 ^ Z.succ (Z.log2 n) * 2 ^ (53 - dg n)).
    + apply Z.mul_lt_mono_pos_r; [apply Z.pow_pos_nonneg; lia | done].
    + rewrite <- Z.pow_add_r by lia. f_equal; lia.
Qed.

Lemma round_aux_exact n k p :
  0 < n < 2 ^ 53 → 53 - dg n ≤ k → Zpos p = n * 2 ^ k →
  binary_round_aux 53 1024 false (Zpos p) (- k) loc_Exact = sf_int n.
Proof.
  intros Hn Hk Hp. pose proof (log2_bounds n Hn) as Hl. pose proof (mant_bounds n Hn) as Hm.
  set (m := n * 2 ^ (53 - dg n)) in *.
  assert (Hdm : Z.log2 m = 52).
  { apply Z.log2_unique; [lia|]. change (Z.succ 52) with 53. lia. }
  assert (Hfix : shr_fexp 53 1024 m (dg n - 53) loc_Exact =
                 (Build_shr_record m false false, dg n - 53)).
  { unfold shr_fexp. destruct m as [|q|q] eqn:Em; [lia| |lia].
    unfold Zdigits2. rewrite digits2_pos_log2, Hdm.
    unfold fexp, SpecFloat.emin.
    replace (Z.max _ _ - _) with 0 by lia. done. }
  assert (Hfirst : shr_fexp 53 1024 (Zpos p) (- k) loc_Exact =
                 (Build_shr_record m false false, dg n - 53)).
  { unfold shr_fexp, Zdigits2. rewrite digits2_pos_log2, Hp, Z.log2_mul_pow2 by lia.
    unfold fexp, SpecFloat.emin.
    replace (Z.max (k + Z.log2 n + 1 + - k - 53) (3 - 1024 - 53) - - k)
      with (k - (53 - dg n)) by lia.
    destruct (k - (53 - dg n)) as [|j|j] eqn:Ej; [| |lia].
    - cbn. f_equal; [|lia]. f_equal. unfold m. by replace k with (53 - dg n) by lia.
    - cbn. f_equal; [|lia]. rewrite <- (shr_exact j m) by lia. do 2 f_equal.
      unfold m. rewrite <- Z.mul_assoc, <- Z.pow_add_r by lia. do 2 f_equal. lia. }
  unfold binary_round_aux. rewrite Hfirst. cbn [shr_m loc_of_shr_record round_nearest_even].
  rewrite Hfix. cbn [shr_m]. destruct n as [|q|q]; [lia| |lia].
  unfold sf_int. fold m. destruct m as [|r|r] eqn:Em; [lia| |lia]. cbn [Z.to_pos].
  rewrite (proj2 (Z.leb_le _ _)) by lia. done.
Qed.

Lemma round_exact n k p :
  0 < n < 2 ^ 53 → 0 ≤ k → Zpos p = n * 2 ^ k →
  binary_round 53 1024 false p (- k) = sf_int n.
Proof.
  intros Hn Hk Hp. pose proof (log2_bounds n Hn) as Hl.
  unfold binary_round. rewrite digits2_pos_log2, Hp, Z.log2_mul_pow2 by lia.
  unfold fexp, SpecFloat.emin, shl_align.
  replace (Z.max (k + Z.log2 n + 1 + - k - 53) (3 - 1024 - 53)) with (dg n - 53) by lia.
  destruct (dg n - 53 - - k) as [|j|j] eqn:Ej; [by apply round_aux_exact; lia..|].
  replace (dg n - 53) with (- (53 - dg n)) by lia.
  apply round_aux_exact; [done | lia |].
  rewrite pos_iter_xO, Hp, <- Z.mul_assoc, <- Z.pow_add_r by lia. do 2 f_equal. lia.
Qed.

Lemma normalize_exact n k m :
  0 ≤ n < 2 ^ 53 → 0 ≤ k → m = n * 2 ^ k → binary_normalize 53 1024 m (- k) false = sf_int n.
Proof.
  intros Hn Hk ->. destruct (decide (n = 0)) as [->|]; [done|].
  destruct (n * 2 ^ k) as [|p|p] eqn:E.
  - assert (0 < n * 2 ^ k) by (apply Z.mul_pos_pos; [lia | apply Z.pow_pos_nonneg; lia]). lia.
  - cbn [binary_normalize]. by apply round_exact; [lia| |].
  - assert (0 < n * 2 ^ k) by (apply Z.mul_pos_pos; [lia | apply Z.pow_pos_nonneg; lia]). lia.
Qed.

(** ** The bit pattern *)
Lemma decode_sf_int n : 0 ≤ n < 2 ^ 53 → float_decode binary64 (float_encode binary64 (sf_int n)) = sf_int n.
Proof.
  intros Hn. destruct (decide (n = 0)) as [->|Hn0]; [done|].
  pose proof (log2_bounds n) as Hl. pose proof (mant_bounds n) as Hm.
  destruct n as [|p|p]; [lia| |lia]. unfold sf_int.
  remember (Zpos p * 2 ^ (53 - dg (Zpos p))) as m eqn:Em. 
  assert (Hmb : 2 ^ 52 ≤ m < 2 ^ 53) by (apply Hm; lia).
  set (e := dg (Zpos p)) in *. assert (1 ≤ e ≤ 53) by (unfold e; lia). clearbody e.
  clear Em Hm Hl.
  cbn [float_encode]. rewrite Z2Pos.id by lia.
  change (mant_w binary64) with 52. rewrite (proj2 (Z.ltb_ge _ _)) by lia.
  unfold float_pack, wrap_u. change (width binary64) with 64. change (mant_w binary64) with 52.
  change (Float.emin binary64) with (-1074).
  set (ex := e - 53 - -1074 + 1). set (mm := m - 2 ^ 52).
  assert (1022 ≤ ex ≤ 1075) by (unfold ex; lia). assert (0 ≤ mm < 2 ^ 52) by (unfold mm; lia).
  assert (Hb : 0 + ex * 2 ^ 52 + mm < 2 ^ 64) by lia.
  rewrite Z.mod_small by lia.
  unfold float_decode, float_exp, float_mant, float_sign.
  change (mant_w binary64) with 52. change (exp_w binary64) with 11.
  replace (0 + ex * 2 ^ 52 + mm) with (mm + ex * 2 ^ 52) in * by lia.
  rewrite Z.div_add, Z.div_small, Z.add_0_l by lia.
  rewrite Z.mod_add, (Z.mod_small mm) by lia. rewrite (Z.mod_small ex) by lia.
  rewrite (proj2 (Z.eqb_neq ex 0)) by lia. rewrite (proj2 (Z.eqb_neq ex (2 ^ 11 - 1))) by lia.
  assert (Z.testbit (mm + ex * 2 ^ 52) (52 + 11) = false) as ->.
  { apply Z.testbit_false; [lia|]. by rewrite Z.div_small by lia. }
  replace (mm + 2 ^ 52) with m by (unfold mm; lia).
  destruct m as [|q|q]; [lia| |lia]. cbn [Z.to_pos]. change (Float.emin binary64) with (-1074).
  f_equal; unfold ex; lia.
Qed.

Lemma of_Z_int n : 0 ≤ n < 2 ^ 53 → f64_of_Z n = float_encode binary64 (sf_int n).
Proof.
  intros Hn. unfold f64_of_Z, float_of_Z, float_of_dyadic.
  change (prec binary64) with 53. change (emax binary64) with 1024. f_equal.
  apply (normalize_exact n 0); [done..|]. by rewrite Z.mul_1_r.
Qed.

Lemma decode_of_Z n : 0 ≤ n < 2 ^ 53 → float_decode binary64 (f64_of_Z n) = sf_int n.
Proof. intros. rewrite of_Z_int by done. by apply decode_sf_int. Qed.

(** ** Exact arithmetic *)
Lemma sf_int_pos n :
  0 < n → sf_int n = S754_finite false (Z.to_pos (n * 2 ^ (53 - dg n))) (dg n - 53).
Proof. by destruct n. Qed.

Lemma align_int n ez :
  0 < n < 2 ^ 53 → ez ≤ dg n - 53 →
  Zpos (fst (shl_align (Z.to_pos (n * 2 ^ (53 - dg n))) (dg n - 53) ez)) = n * 2 ^ (- ez).
Proof.
  intros Hn Hez. pose proof (mant_bounds n Hn). pose proof (log2_bounds n Hn).
  unfold shl_align. destruct (ez - (dg n - 53)) as [|d|d] eqn:E; [| lia |].
  - cbn [fst]. rewrite Z2Pos.id by lia. do 2 f_equal. lia.
  - cbn [fst]. rewrite pos_iter_xO, Z2Pos.id by lia.
    rewrite <- Z.mul_assoc, <- Z.pow_add_r by lia. do 2 f_equal. lia.
Qed.

Lemma f64_add_int n m :
  0 ≤ n → 0 ≤ m → n + m < 2 ^ 53 → f64_add (f64_of_Z n) (f64_of_Z m) = f64_of_Z (n + m).
Proof.
  intros Hn Hm Hs. unfold f64_add, float_add, float_op.
  rewrite !decode_of_Z by lia. change (prec binary64) with 53. change (emax binary64) with 1024.
  rewrite of_Z_int by lia. f_equal.
  destruct (decide (n = 0)) as [->|]; [by destruct m; try lia|].
  destruct (decide (m = 0)) as [->|]; [rewrite Z.add_0_r; by destruct n; try lia|].
  rewrite (sf_int_pos n), (sf_int_pos m) by lia. cbn [SFadd cond_Zopp].
  pose proof (log2_bounds n). pose proof (log2_bounds m).
  set (ez := Z.min (dg n - 53) (dg m - 53)).
  rewrite !align_int by lia. rewrite <- Z.mul_add_distr_r.
  replace ez with (- - ez) at 2 by lia. apply normalize_exact; lia.
Qed.

Lemma f64_sub_int n m :
  0 ≤ m ≤ n → n < 2 ^ 53 → f64_sub (f64_of_Z n) (f64_of_Z m) = f64_of_Z (n - m).
Proof.
  intros Hm Hn. unfold f64_sub, float_sub, float_op.
  rewrite !decode_of_Z by lia. change (prec binary64) with 53. change (emax binary64) with 1024.
  rewrite of_Z_int by lia. f_equal.
  destruct (decide (m = 0)) as [->|]; [rewrite Z.sub_0_r; by destruct n; try lia|].
  rewrite (sf_int_pos n), (sf_int_pos m) by lia. cbn [SFsub cond_Zopp].
  pose proof (log2_bounds n). pose proof (log2_bounds m).
  set (ez := Z.min (dg n - 53) (dg m - 53)).
  rewrite !align_int by lia. rewrite <- Z.mul_sub_distr_r.
  replace ez with (- - ez) at 2 by lia. apply normalize_exact; lia.
Qed.

Lemma f64_mul_int n m :
  0 ≤ n < 2 ^ 53 → 0 ≤ m < 2 ^ 53 → n * m < 2 ^ 53 →
  f64_mul (f64_of_Z n) (f64_of_Z m) = f64_of_Z (n * m).
Proof.
  intros Hn Hm Hs. unfold f64_mul, float_mul, float_op.
  rewrite !decode_of_Z by lia. change (prec binary64) with 53. change (emax binary64) with 1024.
  rewrite of_Z_int by lia. f_equal.
  destruct (decide (n = 0)) as [->|]; [by destruct m; try lia|].
  destruct (decide (m = 0)) as [->|]; [rewrite Z.mul_0_r; by destruct n; try lia|].
  assert (0 < n * m) by nia.
  rewrite (sf_int_pos n), (sf_int_pos m) by lia. cbn [SFmul xorb].
  pose proof (log2_bounds n). pose proof (log2_bounds m). pose proof (log2_bounds (n * m)).
  pose proof (mant_bounds n). pose proof (mant_bounds m).
  replace (dg n - 53 + (dg m - 53)) with (- (106 - dg n - dg m)) by lia.
  pose proof (Z.log2_mul_below n m). pose proof (Z.log2_mul_above n m).
  apply round_aux_exact; [lia | lia |].
  rewrite Pos2Z.inj_mul, !Z2Pos.id by lia.
  replace (2 ^ (106 - dg n - dg m)) with (2 ^ (53 - dg n) * 2 ^ (53 - dg m)); [lia|].
  rewrite <- Z.pow_add_r by lia. f_equal. lia.
Qed.

(** ** Exact comparison *)
Lemma f64_cmp_int n m :
  0 ≤ n < 2 ^ 53 → 0 ≤ m < 2 ^ 53 →
  float_cmp binary64 (f64_of_Z n) (f64_of_Z m) = Some (n ?= m).
Proof.
  intros Hn Hm. unfold float_cmp. rewrite !decode_of_Z by lia.
  destruct (decide (n = 0)) as [->|]; [by destruct m; try lia|].
  destruct (decide (m = 0)) as [->|]; [by destruct n; try lia|].
  rewrite (sf_int_pos n), (sf_int_pos m) by lia. cbn [SFcompare]. f_equal.
  pose proof (log2_bounds n). pose proof (log2_bounds m).
  pose proof (mant_bounds n). pose proof (mant_bounds m).
  pose proof (Z.log2_spec n ltac:(lia)) as [Hn1 Hn2].
  pose proof (Z.log2_spec m ltac:(lia)) as [Hm1 Hm2].
  destruct (Z.compare_spec (dg n - 53) (dg m - 53)) as [E|E|E].
  - match goal with |- Pos.compare_cont Eq ?a ?b = _ => change ((Zpos a ?= Zpos b) = (n ?= m)) end.
    rewrite !Z2Pos.id by lia.
    replace (dg m) with (dg n) by lia.
    assert (0 < 2 ^ (53 - dg n)) by (apply Z.pow_pos_nonneg; lia).
    destruct (Z.compare_spec n m), (Z.compare_spec (n * 2 ^ (53 - dg n)) (m * 2 ^ (53 - dg n)));
      try done; nia.
  - symmetry. apply Z.compare_lt_iff.
    assert (2 ^ Z.succ (Z.log2 n) ≤ 2 ^ Z.log2 m) by (apply Z.pow_le_mono_r; lia). lia.
  - symmetry. apply Z.compare_gt_iff.
    assert (2 ^ Z.succ (Z.log2 m) ≤ 2 ^ Z.log2 n) by (apply Z.pow_le_mono_r; lia). lia.
Qed.

Lemma f64_ltb_int n m :
  0 ≤ n < 2 ^ 53 → 0 ≤ m < 2 ^ 53 → f64_ltb (f64_of_Z n) (f64_of_Z m) = (n <? m).
Proof.
  intros. unfold f64_ltb, float_ltb. rewrite f64_cmp_int by done. unfold Z.ltb.
  by destruct (n ?= m).
Qed.
