(* ===== verification/HalTypes.v ===== *)
(** * HAL primitive types ([audesys-hal-core/src/types.rs])

    The type discriminators, the stream configuration and the unified error
    type that every other component uses. *)
From S2P Require Import Prelude.
From stdpp Require Import pretty.
Local Open Scope Z_scope.

Inductive HalPinDirection := DirIn | DirOut | DirIO.

Inductive HalPinType :=
  | TBool | TS8 | TU8 | TS16 | TU16 | TS32 | TU32 | TS64 | TU64
  | TF32 | TF64 | TBlob | TString.

Inductive QueuePolicy := DropOldest | Backpressure | DropNewest.
Inductive ConsumerErrorPolicy := Block | Drop_ | Notify.
Inductive CircuitBreakerAction := CbNotify | CbPanic | CbIgnore.

Record CircuitBreakerConfig := {
  max_consecutive_failures : Z;
  cooldown_ms : Z;
  on_open : CircuitBreakerAction }.

Record StreamConfig := {
  queue_depth : Z;
  queue_policy : QueuePolicy;
  error_policy : ConsumerErrorPolicy;
  circuit_breaker : option CircuitBreakerConfig;
  shm_threshold_bytes : Z }.

Inductive HalError :=
  | NotFound (signal : string)
  | AlreadyExists (signal : string)
  | TransportClosed
  | RpcTimeout (method : string) (timeout_ms : Z)
  | Rejected (code : Z) (reason : string)
  | Execution (method reason : string)
  | TypeMismatch (expected actual : HalPinType)
  | InvalidUtf8
  | InvalidBlobLength (declared actual : Z)
  | UnknownHalType (type_id : Z)
  | MaxNestingExceeded (depth : Z)
  | Internal (msg : string).

Definition HalResult (A : Type) : Type := result A HalError.

#[export] Instance HalPinDirection_eq_dec : EqDecision HalPinDirection.
Proof. solve_decision. Defined.
#[export] Instance HalPinType_eq_dec : EqDecision HalPinType.
Proof. solve_decision. Defined.
#[export] Instance QueuePolicy_eq_dec : EqDecision QueuePolicy.
Proof. solve_decision. Defined.
#[export] Instance HalError_eq_dec : EqDecision HalError.
Proof. solve_decision. Defined.

(** [{:?}] of a [HalPinType]. *)
Definition pin_type_debug (t : HalPinType) : string :=
  match t with
  | TBool => "Bool" | TS8 => "S8" | TU8 => "U8" | TS16 => "S16" | TU16 => "U16"
  | TS32 => "S32" | TU32 => "U32" | TS64 => "S64" | TU64 => "U64"
  | TF32 => "F32" | TF64 => "F64" | TBlob => "Blob" | TString => "String"
  end.

(** [impl Display for HalError]. *)
Definition hal_error_fmt (e : HalError) : string :=
  match e with
  | NotFound s => "Signal not found: " +:+ s
  | AlreadyExists s => "Signal already exists: " +:+ s
  | TransportClosed => "Transport closed"
  | RpcTimeout m t => "RPC timeout: " +:+ m +:+ " (" +:+ pretty t +:+ "ms)"
  | Rejected c r => "RPC rejected: " +:+ pretty c +:+ " — " +:+ r
  | Execution m r => "RPC execution error: " +:+ m +:+ " — " +:+ r
  | TypeMismatch e a =>
      "Type mismatch: expected " +:+ pin_type_debug e +:+ ", got " +:+ pin_type_debug a
  | InvalidUtf8 => "Invalid UTF-8 string"
  | InvalidBlobLength d a =>
      "Invalid blob length: declared " +:+ pretty d +:+ ", actual " +:+ pretty a
  | UnknownHalType t => "Unknown HAL type ID: " +:+ pretty t
  | MaxNestingExceeded d => "Max array nesting exceeded: " +:+ pretty d
  | Internal msg => "Internal error: " +:+ msg
  end.
