(* ===== verification/HalValue.v ===== *)
(** * HAL values ([audesys-hal-core/src/value.rs])

    The 14-variant value, its byte image inside arrays, array indexing, and
    the arithmetic, bitwise and comparison operators the virtual machine uses.
    An operator that panics returns [None]. *)
From S2P Require Import Prelude Float HalTypes.
Local Open Scope Z_scope.

Inductive HalValue :=
  | VBool (b : bool)
  | VS8 (n : Z) | VU8 (n : Z) | VS16 (n : Z) | VU16 (n : Z)
  | VS32 (n : Z) | VU32 (n : Z) | VS64 (n : Z) | VU64 (n : Z)
  | VF32 (bits : Z) | VF64 (bits : Z)
  | VBlob (data : list Z)
  | VString (s : string)
  | VArray (element_type : HalPinType) (data : list Z).

#[export] Instance HalValue_eq_dec : EqDecision HalValue.
Proof. solve_decision. Defined.
#[export] Instance HalValue_inhabited : Inhabited HalValue := populate (VS32 0).

(** The values a Rust program can hold: each payload in its type's range. *)
Definition hal_wf (v : HalValue) : bool :=
  match v with
  | VBool _ => true
  | VS8 n => in_s 8 n | VU8 n => in_u 8 n
  | VS16 n => in_s 16 n | VU16 n => in_u 16 n
  | VS32 n => in_s 32 n | VU32 n => in_u 32 n
  | VS64 n => in_s 64 n | VU64 n => in_u 64 n
  | VF32 b => f32_wf b | VF64 b => f64_wf b
  | VBlob d => bytes_wf d
  | VString s => string_wf s
  | VArray _ d => bytes_wf d
  end.

Definition pin_type (v : HalValue) : HalPinType :=
  match v with
  | VBool _ => TBool
  | VS8 _ => TS8 | VU8 _ => TU8 | VS16 _ => TS16 | VU16 _ => TU16
  | VS32 _ => TS32 | VU32 _ => TU32 | VS64 _ => TS64 | VU64 _ => TU64
  | VF32 _ => TF32 | VF64 _ => TF64
  | VBlob _ => TBlob | VString _ => TString
  | VArray t _ => t
  end.

(** [#[derive(PartialEq)]]: floats compare as floats. *)
Definition hal_eqb (a b : HalValue) : bool :=
  match a, b with
  | VBool x, VBool y => eqb x y
  | VS8 x, VS8 y | VU8 x, VU8 y | VS16 x, VS16 y | VU16 x, VU16 y
  | VS32 x, VS32 y | VU32 x, VU32 y | VS64 x, VS64 y | VU64 x, VU64 y => x =? y
  | VF32 x, VF32 y => float_eqb binary32 x y
  | VF64 x, VF64 y => float_eqb binary64 x y
  | VBlob x, VBlob y => bool_decide (x = y)
  | VString x, VString y => bool_decide (x = y)
  | VArray t x, VArray u y => bool_decide (t = u) && bool_decide (x = y)
  | _, _ => false
  end.

(** ** Array storage *)
Definition byte_size (t : HalPinType) : nat :=
  match t with
  | TBool | TS8 | TU8 => 1
  | TS16 | TU16 => 2
  | TS32 | TU32 | TF32 => 4
  | TS64 | TU64 | TF64 => 8
  | TBlob | TString => 8
  end%nat.

Definition zero (t : HalPinType) : HalValue :=
  match t with
  | TBool => VBool false
  | TS8 => VS8 0 | TU8 => VU8 0 | TS16 => VS16 0 | TU16 => VU16 0
  | TS32 => VS32 0 | TU32 => VU32 0 | TS64 => VS64 0 | TU64 => VU64 0
  | TF32 => VF32 f32_zero | TF64 => VF64 f64_zero
  | TBlob => VBlob [] | TString => VString ""
  end.

Definition to_bytes (v : HalValue) : list Z :=
  match v with
  | VBool b => [Z.b2z b]
  | VS8 n | VU8 n => le_bytes 1 n
  | VS16 n | VU16 n => le_bytes 2 n
  | VS32 n | VU32 n | VF32 n => le_bytes 4 n
  | VS64 n | VU64 n | VF64 n => le_bytes 8 n
  | VBlob b => le_bytes 4 (Z.of_nat (length b)) ++ b
  | VString s => string_bytes s
  | VArray _ data => data
  end.

(** [from_bytes] indexes the slice byte by byte and panics when it is short. *)
Definition from_bytes (t : HalPinType) (bytes : list Z) : option HalValue :=
  let get n := if (n <=? length bytes)%nat then Some (of_le_bytes (take n bytes)) else None in
  match t with
  | TBool => b ← get 1%nat; Some (VBool (negb (b =? 0)))
  | TS8 => n ← get 1%nat; Some (VS8 (wrap_s 8 n))
  | TU8 => n ← get 1%nat; Some (VU8 n)
  | TS16 => n ← get 2%nat; Some (VS16 (wrap_s 16 n))
  | TU16 => n ← get 2%nat; Some (VU16 n)
  | TS32 => n ← get 4%nat; Some (VS32 (wrap_s 32 n))
  | TU32 => n ← get 4%nat; Some (VU32 n)
  | TS64 => n ← get 8%nat; Some (VS64 (wrap_s 64 n))
  | TU64 => n ← get 8%nat; Some (VU64 n)
  | TF32 => n ← get 4%nat; Some (VF32 n)
  | TF64 => n ← get 8%nat; Some (VF64 n)
  | TBlob | TString => Some (VS32 0)
  end.

Section profile.
Context `{BuildProfile}.

(** The byte range of element [idx]: [idx * size] and [idx * size + size] are
    [usize] computations. *)
Definition elem_range (t : HalPinType) (idx : Z) : option (Z * Z) :=
  offset ← arith false 64 (idx * Z.of_nat (byte_size t));
  stop ← arith false 64 (offset + Z.of_nat (byte_size t));
  Some (offset, stop).

(** [data[a..b]] for [usize] bounds. *)
Definition slice_z {A} (l : list A) (a b : Z) : option (list A) :=
  if (a <=? b) && (b <=? Z.of_nat (length l)) then slice l (Z.to_nat a) (Z.to_nat b)
  else None.

Definition index (self : HalValue) (idx : Z) : option HalValue :=
  match self with
  | VArray t data =>
      '(offset, stop) ← elem_range t idx;
      if stop >? Z.of_nat (length data) then Some (zero t)
      else bytes ← slice_z data offset stop; from_bytes t bytes
  | _ => Some (zero (pin_type self))
  end.

Definition set_index (self : HalValue) (idx : Z) (value : HalValue) : option HalValue :=
  match self with
  | VArray t data =>
      '(offset, stop) ← elem_range t idx;
      if stop >? Z.of_nat (length data) then Some self
      else
        _ ← slice_z data offset stop;
        bytes ← slice (to_bytes value) 0 (byte_size t);
        Some (VArray t (splice data (Z.to_nat offset) bytes))
  | _ => Some self
  end.

(** ** Operators

    [hal_binop!]: the same variant on both sides, otherwise [S32(0)]. *)
Definition hal_binop (iop : bool → Z → Z → Z → option Z)
    (fop : format → Z → Z → Z) (x y : HalValue) : option HalValue :=
  match x, y with
  | VS8 a, VS8 b => VS8 <$> iop true 8 a b
  | VU8 a, VU8 b => VU8 <$> iop false 8 a b
  | VS16 a, VS16 b => VS16 <$> iop true 16 a b
  | VU16 a, VU16 b => VU16 <$> iop false 16 a b
  | VS32 a, VS32 b => VS32 <$> iop true 32 a b
  | VU32 a, VU32 b => VU32 <$> iop false 32 a b
  | VS64 a, VS64 b => VS64 <$> iop true 64 a b
  | VU64 a, VU64 b => VU64 <$> iop false 64 a b
  | VF32 a, VF32 b => Some (VF32 (fop binary32 a b))
  | VF64 a, VF64 b => Some (VF64 (fop binary64 a b))
  | _, _ => Some (VS32 0)
  end.

Definition int_add s w a b : option Z := arith s w (a + b).
Definition int_sub s w a b : option Z := arith s w (a - b).
Definition int_mul s w a b : option Z := arith s w (a * b).

(** Integer [/] and [%] truncate; both panic on a zero divisor and on
    [MIN / -1], in every profile. *)
Definition div_panics (s : bool) (w a b : Z) : bool :=
  (b =? 0) || (s && (a =? - 2 ^ (w - 1)) && (b =? -1)).
Definition int_div s w a b : option Z :=
  if div_panics s w a b then None else Some (Z.quot a b).
Definition int_rem s w a b : option Z :=
  if div_panics s w a b then None else Some (Z.rem a b).

Definition hal_add := hal_binop int_add float_add.
Definition hal_sub := hal_binop int_sub float_sub.
Definition hal_mul := hal_binop int_mul float_mul.
Definition hal_div := hal_binop int_div float_div.
Definition hal_rem := hal_binop int_rem float_rem.

(** [hal_bitop!]: total; also on [Bool]. *)
Definition hal_bitop (bop : bool → bool → bool) (iop : Z → Z → Z)
    (x y : HalValue) : HalValue :=
  match x, y with
  | VBool a, VBool b => VBool (bop a b)
  | VS8 a, VS8 b => VS8 (iop a b)
  | VU8 a, VU8 b => VU8 (iop a b)
  | VS16 a, VS16 b => VS16 (iop a b)
  | VU16 a, VU16 b => VU16 (iop a b)
  | VS32 a, VS32 b => VS32 (iop a b)
  | VU32 a, VU32 b => VU32 (iop a b)
  | VS64 a, VS64 b => VS64 (iop a b)
  | VU64 a, VU64 b => VU64 (iop a b)
  | _, _ => VS32 0
  end.

Definition hal_and := hal_bitop andb Z.land.
Definition hal_or := hal_bitop orb Z.lor.
Definition hal_xor := hal_bitop xorb Z.lxor.

Definition hal_neg (x : HalValue) : option HalValue :=
  match x with
  | VS8 v => VS8 <$> arith true 8 (- v)
  | VS16 v => VS16 <$> arith true 16 (- v)
  | VS32 v => VS32 <$> arith true 32 (- v)
  | VS64 v => VS64 <$> arith true 64 (- v)
  | VF32 v => Some (VF32 (float_neg binary32 v))
  | VF64 v => Some (VF64 (float_neg binary64 v))
  | _ => Some (VS32 0)
  end.

Definition hal_not (x : HalValue) : HalValue :=
  match x with
  | VBool v => VBool (negb v)
  | VS8 v => VS8 (Z.lnot v)
  | VU8 v => VU8 (2 ^ 8 - 1 - v)
  | VS16 v => VS16 (Z.lnot v)
  | VU16 v => VU16 (2 ^ 16 - 1 - v)
  | VS32 v => VS32 (Z.lnot v)
  | VU32 v => VU32 (2 ^ 32 - 1 - v)
  | VS64 v => VS64 (Z.lnot v)
  | VU64 v => VU64 (2 ^ 64 - 1 - v)
  | _ => VS32 0
  end.

Definition hal_partial_cmp (x y : HalValue) : option comparison :=
  match x, y with
  | VS8 a, VS8 b | VU8 a, VU8 b | VS16 a, VS16 b | VU16 a, VU16 b
  | VS32 a, VS32 b | VU32 a, VU32 b | VS64 a, VS64 b | VU64 a, VU64 b =>
      Some (a ?= b)
  | VF32 a, VF32 b => float_cmp binary32 a b
  | VF64 a, VF64 b => float_cmp binary64 a b
  | _, _ => None
  end.

End profile.

(** ** Laws of the operators *)

(** Two values of the same numeric variant: the operands the macros accept. *)
Definition same_numeric (x y : HalValue) : bool :=
  match x, y with
  | VS8 _, VS8 _ | VU8 _, VU8 _ | VS16 _, VS16 _ | VU16 _, VU16 _
  | VS32 _, VS32 _ | VU32 _, VU32 _ | VS64 _, VS64 _ | VU64 _, VU64 _
  | VF32 _, VF32 _ | VF64 _, VF64 _ => true
  | _, _ => false
  end.

(** Two values of the same variant among those with bitwise operators. *)
Definition same_bits (x y : HalValue) : bool :=
  match x, y with
  | VBool _, VBool _
  | VS8 _, VS8 _ | VU8 _, VU8 _ | VS16 _, VS16 _ | VU16 _, VU16 _
  | VS32 _, VS32 _ | VU32 _, VU32 _ | VS64 _, VS64 _ | VU64 _, VU64 _ => true
  | _, _ => false
  end.

(** The variants of fixed width, storable in an array. *)
Definition is_scalar_type (t : HalPinType) : bool :=
  match t with TBlob | TString => false | _ => true end.
Definition is_scalar (v : HalValue) : bool :=
  match v with VBlob _ | VString _ | VArray _ _ => false | _ => true end.

Lemma int_quot_in s w a b :
  0 < w → in_int s w a = true → in_int s w b = true → div_panics s w a b = false →
  in_int s w (Z.quot a b) = true.
Proof.
  intros Hw Ha Hb Hp. unfold div_panics in Hp.
  apply orb_false_iff in Hp as [Hb0%Z.eqb_neq Hm].
  pose proof (Z.quot_abs a b Hb0) as Hq.
  assert (Hle : Z.abs (a ÷ b) ≤ Z.abs a).
  { rewrite <- Hq. destruct (Z.eq_dec (Z.abs b) 1) as [->|]; [rewrite Z.quot_1_r; lia|].
    destruct (Z.eq_dec a 0) as [->|]; [rewrite Z.quot_0_l; lia|].
    apply Z.lt_le_incl, Z.quot_lt; lia. }
  destruct s; cbn in Ha, Hb |- *.
  - apply in_s_spec in Ha, Hb. apply in_s_spec.
    assert (a ÷ b ≠ 2 ^ (w - 1)); [|lia]. intros E.
    assert (a = - 2 ^ (w - 1)) as -> by lia.
    cbn in Hm. rewrite Z.eqb_refl in Hm. cbn in Hm. apply Z.eqb_neq in Hm.
    assert (0 < 2 ^ (w - 1)) by (apply Z.pow_pos_nonneg; lia).
    destruct (Z.eq_dec b 1) as [->|]; [rewrite Z.quot_1_r in E; lia|].
    assert (Z.abs (- 2 ^ (w - 1)) ÷ Z.abs b < Z.abs (- 2 ^ (w - 1)));
      [apply Z.quot_lt; lia | lia].
  - apply in_u_spec in Ha, Hb. apply in_u_spec.
    assert (0 ≤ a ÷ b) by (apply Z.quot_pos; lia). lia.
Qed.

Lemma int_rem_in s w a b :
  0 < w → in_int s w a = true → in_int s w b = true → b ≠ 0 →
  in_int s w (Z.rem a b) = true.
Proof.
  intros Hw Ha Hb Hb0.
  pose proof (Z.rem_bound_abs a b Hb0).
  assert (Hle : Z.abs (Z.rem a b) ≤ Z.abs a).
  { rewrite <- Z.rem_abs by done. apply Z.rem_le; lia. }
  destruct s; cbn in Ha, Hb |- *.
  - apply in_s_spec in Ha, Hb. apply in_s_spec.
    pose proof (Z.rem_sign_mul a b Hb0). 
    destruct (Z.le_gt_cases 0 a).
    + assert (0 ≤ Z.rem a b) by (apply Z.rem_nonneg; lia). lia.
    + assert (Z.rem a b ≤ 0) by (apply Z.rem_nonpos; lia). lia.
  - apply in_u_spec in Ha, Hb. apply in_u_spec.
    assert (0 ≤ Z.rem a b) by (apply Z.rem_nonneg; lia). lia.
Qed.

Section laws.
Context `{BuildProfile}.

(** The integer operations of the macros stay in the range of their type. *)
Definition iop_closed (iop : bool → Z → Z → Z → option Z) : Prop :=
  ∀ s w a b r, 0 < w → in_int s w a = true → in_int s w b = true →
    iop s w a b = Some r → in_int s w r = true.

Lemma int_add_closed : iop_closed int_add.
Proof. intros s w a b r Hw _ _. unfold int_add. eauto with hal. Qed.
Lemma int_sub_closed : iop_closed int_sub.
Proof. intros s w a b r Hw _ _. unfold int_sub. eauto with hal. Qed.
Lemma int_mul_closed : iop_closed int_mul.
Proof. intros s w a b r Hw _ _. unfold int_mul. eauto with hal. Qed.
Lemma int_div_closed : iop_closed int_div.
Proof.
  intros s w a b r Hw Ha Hb. unfold int_div. destruct div_panics eqn:E; [done|].
  intros [= <-]. by apply int_quot_in.
Qed.
Lemma int_rem_closed : iop_closed int_rem.
Proof.
  intros s w a b r Hw Ha Hb. unfold int_rem. destruct div_panics eqn:E; [done|].
  intros [= <-]. apply int_rem_in; try done.
  apply orb_false_iff in E as [?%Z.eqb_neq _]. done.
Qed.

Lemma hal_binop_wf iop op x y r :
  iop_closed iop → hal_wf x = true → hal_wf y = true →
  hal_binop iop (fun f => float_op (op f) f) x y = Some r → hal_wf r = true.
Proof.
  intros Hi Hx Hy Hr.
  destruct x, y; cbn in Hr; simplify_eq; try done;
    try (apply fmap_Some in Hr as (z & Hz & ->);
         eapply Hi in Hz; [exact Hz | lia | exact Hx | exact Hy]).
  - by apply (float_op_in (op binary32) binary32).
  - by apply (float_op_in (op binary64) binary64).
Qed.

Lemma hal_binop_type iop fop x y r :
  hal_binop iop fop x y = Some r →
  if same_numeric x y then pin_type r = pin_type x else r = VS32 0.
Proof.
  destruct x, y; cbn; intros Hr; simplify_eq; try done;
    apply fmap_Some in Hr as (z & _ & ->); done.
Qed.

Definition hal_arith_ops : list (HalValue → HalValue → option HalValue) :=
  [hal_add; hal_sub; hal_mul; hal_div; hal_rem].

Lemma hal_arith_ops_wf op x y r :
  op ∈ hal_arith_ops → hal_wf x = true → hal_wf y = true → op x y = Some r →
  hal_wf r = true.
Proof.
  unfold hal_arith_ops. rewrite !elem_of_cons, elem_of_nil.
  intros [-> | [-> | [-> | [-> | [-> | []]]]]] Hx Hy;
    eapply hal_binop_wf; eauto using int_add_closed, int_sub_closed, int_mul_closed,
      int_div_closed, int_rem_closed.
Qed.

Definition int_bitop (iop : Z → Z → Z) : Prop :=
  (∀ a b n, Z.shiftr (iop a b) n = iop (Z.shiftr a n) (Z.shiftr b n)) ∧
  (iop 0 0 = 0) ∧ ∀ a b, In a [0; -1] → In b [0; -1] → In (iop a b) [0; -1].

Lemma in_s_shiftr w z : 0 < w → in_s w z = true ↔ In (Z.shiftr z (w - 1)) [0; -1].
Proof.
  intros Hw. rewrite in_s_spec, Z.shiftr_div_pow2 by lia.
  assert (0 < 2 ^ (w - 1)) by (apply Z.pow_pos_nonneg; lia).
  set (p := 2 ^ (w - 1)) in *. cbn. split.
  - intros Hz. destruct (Z.le_gt_cases 0 z).
    + left. symmetry. apply Z.div_small. lia.
    + right; left. apply Z.div_unique with (z + p); lia.
  - pose proof (Z.div_mod z p). pose proof (Z.mod_pos_bound z p).
    intros [E | [E | []]]; rewrite <- E in *; lia.
Qed.

Lemma in_u_shiftr w z : 0 < w → in_u w z = true ↔ Z.shiftr z w = 0.
Proof.
  intros Hw. rewrite in_u_spec, Z.shiftr_div_pow2 by lia.
  assert (0 < 2 ^ w) by (apply Z.pow_pos_nonneg; lia). split.
  - apply Z.div_small.
  - intros E. pose proof (Z.div_mod z (2 ^ w)). pose proof (Z.mod_pos_bound z (2 ^ w)).
    rewrite E in *. lia.
Qed.

Lemma int_bitop_in iop s w a b :
  int_bitop iop → 0 < w → in_int s w a = true → in_int s w b = true →
  in_int s w (iop a b) = true.
Proof.
  intros (Hs & H0 & Hc) Hw. destruct s; cbn [in_int].
  - rewrite !in_s_shiftr, Hs by done. auto.
  - rewrite !in_u_shiftr, Hs by done. intros -> ->. done.
Qed.

Lemma land_bitop : int_bitop Z.land.
Proof.
  split; [intros; apply Z.shiftr_land | split; [done|]].
  intros a b [<-|[<-|[]]] [<-|[<-|[]]]; cbn; auto.
Qed.
Lemma lor_bitop : int_bitop Z.lor.
Proof.
  split; [intros; apply Z.shiftr_lor | split; [done|]].
  intros a b [<-|[<-|[]]] [<-|[<-|[]]]; cbn; auto.
Qed.
Lemma lxor_bitop : int_bitop Z.lxor.
Proof.
  split; [intros; apply Z.shiftr_lxor | split; [done|]].
  intros a b [<-|[<-|[]]] [<-|[<-|[]]]; cbn; auto.
Qed.

Lemma hal_bitop_wf bop iop x y :
  int_bitop iop → hal_wf x = true → hal_wf y = true →
  hal_wf (hal_bitop bop iop x y) = true.
Proof.
  intros Hi Hx Hy.
  destruct x, y; try done; cbn in *;
    first [ by apply (int_bitop_in iop true) | by apply (int_bitop_in iop false) ].
Qed.

Lemma hal_and_wf x y :
  hal_wf x = true → hal_wf y = true → hal_wf (hal_and x y) = true.
Proof. apply hal_bitop_wf, land_bitop. Qed.
Lemma hal_or_wf x y :
  hal_wf x = true → hal_wf y = true → hal_wf (hal_or x y) = true.
Proof. apply hal_bitop_wf, lor_bitop. Qed.
Lemma hal_xor_wf x y :
  hal_wf x = true → hal_wf y = true → hal_wf (hal_xor x y) = true.
Proof. apply hal_bitop_wf, lxor_bitop. Qed.

Lemma hal_neg_wf x r : hal_neg x = Some r → hal_wf r = true.
Proof.
  destruct x; cbn; intros Hr; simplify_eq; try done;
    try (apply fmap_Some in Hr as (z & Hz & ->); cbn;
         eapply (arith_in true) in Hz; [exact Hz | lia]).
  - by apply (float_neg_in binary32).
  - by apply (float_neg_in binary64).
Qed.

Lemma in_s_lnot w z : in_s w z = true → in_s w (Z.lnot z) = true.
Proof. rewrite !in_s_spec. unfold Z.lnot. lia. Qed.

Lemma in_u_compl w z : in_u w z = true → in_u w (2 ^ w - 1 - z) = true.
Proof. rewrite !in_u_spec. lia. Qed.

Lemma hal_not_wf x : hal_wf x = true → hal_wf (hal_not x) = true.
Proof.
  destruct x; try done; cbn -[Z.pow];
    first [apply in_s_lnot | apply in_u_compl].
Qed.

Lemma hal_not_involutive x :
  same_bits x x = true → hal_not (hal_not x) = x.
Proof.
  destruct x; try done; intros _; unfold hal_not; f_equal;
    rewrite ?negb_involutive, ?Z.lnot_involutive; try done; lia.
Qed.

(** [partial_cmp] is antisymmetric on integers. *)
Lemma hal_partial_cmp_flip x y :
  match x with VF32 _ | VF64 _ => False | _ => True end →
  hal_partial_cmp y x = CompOpp <$> hal_partial_cmp x y.
Proof. destruct x, y; intros []; try done; cbn; by rewrite Z.compare_antisym. Qed.

(** ** Arrays *)
Lemma to_bytes_wf v : hal_wf v = true → bytes_wf (to_bytes v) = true.
Proof.
  destruct v; cbn -[le_bytes bytes_wf]; intros Hv; auto using le_bytes_wf, string_bytes_wf.
  - by destruct b.
  - apply bytes_wf_app. auto using le_bytes_wf.
Qed.

Lemma to_bytes_length v :
  is_scalar v = true → length (to_bytes v) = byte_size (pin_type v).
Proof. destruct v; try done; intros _; apply le_bytes_length. Qed.

Lemma of_le_bytes_app_length n z k :
  of_le_bytes (take n (le_bytes n z ++ k)) = z mod 2 ^ (8 * Z.of_nat n).
Proof.
  rewrite take_app_length' by (by rewrite le_bytes_length).
  apply of_le_bytes_le_bytes.
Qed.

(** Reading back the bytes of a scalar gives the scalar. *)
Lemma from_bytes_to_bytes v :
  hal_wf v = true → is_scalar v = true →
  from_bytes (pin_type v) (to_bytes v) = Some v.
Proof.
  destruct v; try done; intros Hv _; [by destruct b | ..];
    unfold from_bytes, to_bytes, pin_type; rewrite le_bytes_length;
    cbn [Nat.leb mbind option_bind];
    rewrite firstn_all2 by (by rewrite le_bytes_length);
    rewrite of_le_bytes_le_bytes; do 2 f_equal; cbn -[Z.pow] in *;
    first [ by apply in_u_spec in Hv; apply Z.mod_small
          | by rewrite wrap_s_mod, wrap_s_id ].
Qed.

Lemma of_le_bytes_in n l :
  bytes_wf l = true → length l = n → in_u (8 * Z.of_nat n) (of_le_bytes l) = true.
Proof. intros Hl <-. apply in_u_spec. by apply of_le_bytes_bound. Qed.

Lemma from_bytes_wf t l v :
  bytes_wf l = true → from_bytes t l = Some v → hal_wf v = true.
Proof.
  intros Hl. unfold from_bytes.
  assert (Hn : ∀ n, (n ≤ length l)%nat →
      in_u (8 * Z.of_nat n) (of_le_bytes (take n l)) = true).
  { intros n Hn. apply of_le_bytes_in; [auto with hal|]. rewrite length_take. lia. }
  destruct t; try (intros [= <-]; done);
    destruct (_ <=? length l)%nat eqn:E; try done; apply Nat.leb_le in E;
    intros [= <-]; cbn -[of_le_bytes wrap_s]; auto with hal;
    first [ apply (Hn 1%nat E) | apply (Hn 2%nat E) | apply (Hn 4%nat E) | apply (Hn 8%nat E)
          | done ].
Qed.

Lemma from_bytes_type t l v :
  is_scalar_type t = true → from_bytes t l = Some v → pin_type v = t ∧ is_scalar v = true.
Proof.
  unfold from_bytes. destruct t; try done; intros _;
    destruct (_ <=? length l)%nat; try done; intros [= <-]; done.
Qed.

Lemma zero_wf t : hal_wf (zero t) = true.
Proof. by destruct t. Qed.

(** Element [i] lies inside the data of an array of [t]. *)
Definition elem_inside (t : HalPinType) (data : list Z) (i : Z) : bool :=
  (0 <=? i) && ((i + 1) * Z.of_nat (byte_size t) <=? Z.of_nat (length data)).

(** No Rust allocation exceeds [isize::MAX] bytes. *)
Definition alloc_ok {A} (l : list A) : Prop := Z.of_nat (length l) < 2 ^ 63.

Lemma byte_size_bounds t : (1 ≤ byte_size t ≤ 8)%nat.
Proof. destruct t; cbn; lia. Qed.

Lemma elem_range_inside t data i :
  alloc_ok data → elem_inside t data i = true →
  elem_range t i = Some (i * Z.of_nat (byte_size t), (i + 1) * Z.of_nat (byte_size t)) ∧
  0 ≤ i * Z.of_nat (byte_size t) ∧
  (i + 1) * Z.of_nat (byte_size t) ≤ Z.of_nat (length data).
Proof.
  unfold alloc_ok, elem_inside, elem_range. intros Hd Hi. breflect.
  pose proof (byte_size_bounds t).
  assert (0 ≤ i * Z.of_nat (byte_size t)) by nia.
  rewrite (arith_exact false); cbn [mbind option_bind].
  - rewrite (arith_exact false); cbn [mbind option_bind].
    + split; [|lia]. do 3 f_equal. lia.
    + apply in_u_spec. lia.
  - apply in_u_spec. lia.
Qed.

Lemma index_inside t data i :
  alloc_ok data → elem_inside t data i = true →
  let n := byte_size t in
  index (VArray t data) i = from_bytes t (take n (drop (Z.to_nat i * n) data)) ∧
  (Z.to_nat i * n + n ≤ length data)%nat.
Proof.
  intros Hd Hi. destruct (elem_range_inside t data i Hd Hi) as (Hr & Hlo & Hhi).
  unfold elem_inside in Hi. breflect. cbn zeta.
  set (n := byte_size t) in *.
  assert (Hn : (Z.to_nat i * n + n ≤ length data)%nat) by nia.
  split; [|done]. cbn [index]. rewrite Hr. cbn [mbind option_bind].
  destruct (_ >? _) eqn:E; [apply Z.gtb_lt in E; lia|].
  unfold slice_z.
  replace (_ <=? _) with true by (symmetry; apply Z.leb_le; nia).
  replace (_ <=? _) with true by (symmetry; apply Z.leb_le; lia).
  cbn [andb].
  replace (Z.to_nat ((i + 1) * Z.of_nat n)) with (Z.to_nat (i * Z.of_nat n) + n)%nat by nia.
  rewrite slice_ok by nia. cbn [mbind option_bind]. do 3 f_equal. nia.
Qed.

Lemma set_index_inside t data i v :
  alloc_ok data → elem_inside t data i = true → (byte_size t ≤ length (to_bytes v))%nat →
  set_index (VArray t data) i v =
    Some (VArray t (splice data (Z.to_nat i * byte_size t) (take (byte_size t) (to_bytes v)))).
Proof.
  intros Hd Hi Hv. destruct (elem_range_inside t data i Hd Hi) as (Hr & Hlo & Hhi).
  unfold elem_inside in Hi. breflect.
  set (n := byte_size t) in *. cbn [set_index]. rewrite Hr. cbn [mbind option_bind].
  destruct (_ >? _) eqn:E; [apply Z.gtb_lt in E; lia|].
  unfold slice_z.
  replace (_ <=? _) with true by (symmetry; apply Z.leb_le; nia).
  replace (_ <=? _) with true by (symmetry; apply Z.leb_le; lia).
  cbn [andb].
  replace (Z.to_nat ((i + 1) * Z.of_nat n)) with (Z.to_nat (i * Z.of_nat n) + n)%nat by nia.
  rewrite slice_ok by nia. cbn [mbind option_bind].
  fold n. change (slice (to_bytes v) 0 n) with (slice (to_bytes v) 0 (0 + n)).
  rewrite slice_ok by done. cbn [mbind option_bind].
  rewrite drop_0. do 3 f_equal. nia.
Qed.
End laws.

(** ** Properties of values *)
Section properties.
Context `{BuildProfile}.

(** ** What the five operators compute *)
Inductive ArithOp := ArAdd | ArSub | ArMul | ArDiv | ArRem.
Definition hal_op (o : ArithOp) : HalValue → HalValue → option HalValue :=
  match o with ArAdd => hal_add | ArSub => hal_sub | ArMul => hal_mul | ArDiv => hal_div | ArRem => hal_rem end.

(** The integer of a value with its type, and back; sign and width of a type. *)
Definition int_view (v : HalValue) : option (HalPinType * Z) :=
  match v with
  | VS8 n => Some (TS8, n) | VU8 n => Some (TU8, n) | VS16 n => Some (TS16, n) | VU16 n => Some (TU16, n)
  | VS32 n => Some (TS32, n) | VU32 n => Some (TU32, n) | VS64 n => Some (TS64, n) | VU64 n => Some (TU64, n)
  | _ => None
  end.
Definition of_int (t : HalPinType) (n : Z) : HalValue :=
  match t with
  | TS8 => VS8 n | TU8 => VU8 n | TS16 => VS16 n | TU16 => VU16 n
  | TS32 => VS32 n | TU32 => VU32 n | TS64 => VS64 n | _ => VU64 n
  end.
Definition signed_type (t : HalPinType) : bool := match t with TS8 | TS16 | TS32 | TS64 => true | _ => false end.
Definition type_bits (t : HalPinType) : Z :=
  match t with TS8 | TU8 => 8 | TS16 | TU16 => 16 | TS32 | TU32 => 32 | _ => 64 end.

(** The exact result; quotients truncate, and the remainder goes with them. *)
Definition exact_op (o : ArithOp) (a b : Z) : Z :=
  match o with
  | ArAdd => a + b
  | ArSub => a - b
  | ArMul => a * b
  | ArDiv => Z.quot a b
  | ArRem => a - b * Z.quot a b
  end.
(** The divisions that panic in every build: by zero, and with a quotient that
    does not fit, the remainder too. *)
Definition bad_division (o : ArithOp) (t : HalPinType) (a b : Z) : Prop :=
  match o with
  | ArDiv | ArRem => b = 0 ∨ in_int (signed_type t) (type_bits t) (Z.quot a b) = false
  | _ => False
  end.
Definition int_outcome (o : ArithOp) (t : HalPinType) (a b : Z) (r : option Z) : Prop :=
  let fits := in_int (signed_type t) (type_bits t) in
  (bad_division o t a b ∧ r = None) ∨
  (¬ bad_division o t a b ∧ fits (exact_op o a b) = true ∧ r = Some (exact_op o a b)) ∨
  (¬ bad_division o t a b ∧ fits (exact_op o a b) = false ∧
     if overflow_checks then r = None
     else ∃ z, r = Some z ∧ fits z = true ∧ (2 ^ type_bits t | z - exact_op o a b)).

Definition sf_op (o : ArithOp) (f : format) : SpecFloat.spec_float → SpecFloat.spec_float → SpecFloat.spec_float :=
  match o with
  | ArAdd => SpecFloat.SFadd (prec f) (emax f) | ArSub => SpecFloat.SFsub (prec f) (emax f)
  | ArMul => SpecFloat.SFmul (prec f) (emax f) | ArDiv => SpecFloat.SFdiv (prec f) (emax f)
  | ArRem => SFrem f
  end.
Definition float_result (o : ArithOp) (f : format) (a b : Z) : Z :=
  float_encode f (sf_op o f (float_decode f a) (float_decode f b)).

Definition code_int (o : ArithOp) : bool → Z → Z → Z → option Z :=
  match o with ArAdd => int_add | ArSub => int_sub | ArMul => int_mul | ArDiv => int_div | ArRem => int_rem end.

Lemma wrap_congr s w z : 0 < w → (2 ^ w | wrap s w z - z).
Proof.
  intros Hw. assert (0 < 2 ^ w) by (apply Z.pow_pos_nonneg; lia).
  destruct s; cbn; [unfold wrap_s | unfold wrap_u].
  - set (y := z + 2 ^ (w - 1)). pose proof (Z.div_mod y (2 ^ w)). exists (- (y / 2 ^ w)). unfold y in *. lia.
  - pose proof (Z.div_mod z (2 ^ w)). exists (- (z / 2 ^ w)). lia.
Qed.

Lemma arith_outcome s w z :
  0 < w →
  (in_int s w z = true ∧ arith s w z = Some z) ∨
  (in_int s w z = false ∧
     if overflow_checks then arith s w z = None
     else ∃ z', arith s w z = Some z' ∧ in_int s w z' = true ∧ (2 ^ w | z' - z)).
Proof.
  intros Hw. unfold arith. destruct (in_int s w z) eqn:E; [by left|]. right. split; [done|].
  destruct overflow_checks; [done|]. exists (wrap s w z). split_and!; [done | by apply wrap_in | by apply wrap_congr].
Qed.

Lemma div_panics_spec s w a b :
  0 < w → in_int s w a = true → in_int s w b = true →
  div_panics s w a b = true ↔ b = 0 ∨ in_int s w (Z.quot a b) = false.
Proof.
  intros Hw Ha Hb. split.
  - unfold div_panics. rewrite orb_true_iff. intros [H0%Z.eqb_eq|H1]; [by left|]. right. breflect. subst.
    change (-1) with (- (1)). rewrite Z.quot_opp_r, Z.quot_1_r, Z.opp_involutive by lia.
    apply not_true_iff_false. cbn. rewrite in_s_spec. lia.
  - intros H0. apply not_false_iff_true. intros E. destruct H0 as [->|H0]; [done|].
    by rewrite int_quot_in in H0.
Qed.

Lemma code_int_outcome o t a b :
  in_int (signed_type t) (type_bits t) a = true → in_int (signed_type t) (type_bits t) b = true →
  int_outcome o t a b (code_int o (signed_type t) (type_bits t) a b).
Proof.
  intros Ha Hb. assert (0 < type_bits t) as Hw by (by destruct t). unfold int_outcome. cbn zeta.
  destruct o; cbn [code_int exact_op bad_division]; unfold int_add, int_sub, int_mul.
  1-3: right; match goal with |- context [arith ?s ?w ?z] => destruct (arith_outcome s w z Hw) as [[??]|[??]] end; tauto.
  all: pose proof (div_panics_spec (signed_type t) (type_bits t) a b Hw Ha Hb) as Hd; unfold int_div, int_rem;
    destruct (div_panics _ _ _ _) eqn:E; [left; by rewrite <- Hd|];
    right; left; assert (¬ (b = 0 ∨ in_int (signed_type t) (type_bits t) (Z.quot a b) = false)) as Hn
      by (by rewrite <- Hd); (split; [done|]).
  - split; [|done]. apply not_false_iff_true. tauto.
  - replace (a - b * Z.quot a b) with (Z.rem a b) by (pose proof (Z.quot_rem' a b); lia). split; [|done].
    apply int_rem_in; [done..|tauto].
Qed.

(** [C20] The five operators compute the exact result where it fits.  On two
    integers of one variant: a division by zero, and one whose quotient is out of
    range, with its remainder, panic; any other result is the exact sum,
    difference, product, truncated quotient or remainder if it is in the range of
    the type, and otherwise a panic with overflow checks and without them the
    number in range that agrees with it modulo 2^width.  On two floats of one
    width it is the IEEE 754 result.  On everything else - different variants, but
    also two Booleans, strings, blobs or arrays - it is [S32(0)].  A result of
    well-formed operands is well-formed. *)
Theorem hal_arith_exact o x y :
  hal_wf x = true → hal_wf y = true →
  (∀ r, hal_op o x y = Some r → hal_wf r = true) ∧
  match int_view x, int_view y with
  | Some (t, a), Some (u, b) =>
      if decide (t = u) then ∃ r, int_outcome o t a b r ∧ hal_op o x y = of_int t <$> r
      else hal_op o x y = Some (VS32 0)
  | _, _ =>
      match x, y with
      | VF32 a, VF32 b => hal_op o x y = Some (VF32 (float_result o binary32 a b))
      | VF64 a, VF64 b => hal_op o x y = Some (VF64 (float_result o binary64 a b))
      | _, _ => hal_op o x y = Some (VS32 0)
      end
  end.
Proof.
  intros Hx Hy. split.
  - intros r Hr. apply (hal_arith_ops_wf (hal_op o) x y); [|done..].
    destruct o; unfold hal_arith_ops; rewrite !elem_of_cons; cbn [hal_op]; tauto.
  - destruct x, y; cbn [int_view hal_wf] in *; try (destruct o; reflexivity);
      destruct (decide _) as [Ht|Ht]; try discriminate Ht; try (by exfalso; apply Ht); try (destruct o; reflexivity).
    all: match goal with |- ∃ r, int_outcome ?o ?t ?a ?b r ∧ _ => exists (code_int o (signed_type t) (type_bits t) a b) end;
      split; [by apply code_int_outcome | by match goal with o : ArithOp |- _ => destruct o end].
Qed.

(** Array element update: writing a scalar of the element type inside the
    data succeeds, keeps the data's length, is read back by [index] at the
    same position and leaves every other element as it was. *)
Theorem index_set_index t data i v :
  alloc_ok data → elem_inside t data i = true →
  hal_wf v = true → is_scalar v = true → pin_type v = t →
  ∃ data',
    set_index (VArray t data) i v = Some (VArray t data') ∧
    length data' = length data ∧
    index (VArray t data') i = Some v ∧
    ∀ j, elem_inside t data j = true → j ≠ i →
      index (VArray t data') j = index (VArray t data) j.
Proof.
  intros Hd Hi Hv Hs <-.
  pose proof (to_bytes_length v Hs) as Hlen.
  destruct (index_inside _ _ _ Hd Hi) as [_ Hin].
  eexists. split; [apply set_index_inside; auto; lia|].
  rewrite <- Hlen, firstn_all.
  assert (Hl : length (splice data (Z.to_nat i * length (to_bytes v)) (to_bytes v)) = length data).
  { apply splice_length. lia. }
  assert (Hd' : alloc_ok (splice data (Z.to_nat i * length (to_bytes v)) (to_bytes v))).
  { unfold alloc_ok. by rewrite Hl. }
  split; [done|]. split.
  - destruct (index_inside (pin_type v) _ i Hd') as [-> _];
      [unfold elem_inside; by rewrite Hl|].
    rewrite <- Hlen. rewrite splice_same by lia. by apply from_bytes_to_bytes.
  - intros j Hj Hne.
    destruct (index_inside _ _ _ Hd Hj) as [-> Hjn].
    destruct (index_inside (pin_type v) _ j Hd') as [-> _];
      [unfold elem_inside; by rewrite Hl|].
    rewrite <- Hlen in *. f_equal.
    unfold elem_inside in Hi, Hj. breflect.
    destruct (Z.lt_ge_cases j i).
    + apply splice_before; nia.
    + apply splice_after; nia.
Qed.

(** Reading an element whose bounds do not wrap never panics. *)
Definition read_elem (t : HalPinType) (data : list Z) (offset stop : Z) : option HalValue :=
  if stop >? Z.of_nat (length data) then Some (zero t)
  else bytes ← slice_z data offset stop; from_bytes t bytes.

Lemma read_elem_ok t data o :
  0 ≤ o → read_elem t data o (o + Z.of_nat (byte_size t)) ≠ None.
Proof.
  intros Ho. unfold read_elem, slice_z.
  destruct (_ >? _) eqn:E; [done|]. rewrite Z.gtb_ltb in E. breflect.
  replace (_ <=? _) with true by (symmetry; apply Z.leb_le; lia).
  replace (_ <=? _) with true by (symmetry; apply Z.leb_le; lia). cbn [andb].
  replace (Z.to_nat (o + Z.of_nat (byte_size t)))
    with (Z.to_nat o + byte_size t)%nat by lia.
  rewrite slice_ok by lia. cbn [mbind option_bind].
  assert (length (take (byte_size t) (drop (Z.to_nat o) data)) = byte_size t) as Hl
    by (rewrite length_take, length_drop; lia).
  unfold from_bytes. rewrite Hl. destruct t; cbn; done.
Qed.

(** Without overflow checks the wrapped bounds are either contiguous or end
    at 0, because the element size divides 2^64. *)
Lemma wrapped_bounds i t :
  let s := Z.of_nat (byte_size t) in
  let o := (i * s) mod 2 ^ 64 in
  (o + s < 2 ^ 64 ∧ (o + s) mod 2 ^ 64 = o + s ∧ ((i + 1) * s) mod 2 ^ 64 ≠ 0) ∨
  (o + s = 2 ^ 64 ∧ ((i + 1) * s) mod 2 ^ 64 = 0).
Proof.
  intros s o. assert (Hdiv : 2 ^ 64 = s * (2 ^ 64 / s) ∧ 1 ≤ s ∧ 0 < 2 ^ 64 / s).
  { subst s. destruct t; cbn -[Z.mul]; done. }
  destruct Hdiv as (HM & Hs & Hq). set (q := 2 ^ 64 / s) in *.
  assert (Ho : o = s * (i mod q)).
  { subst o. rewrite HM, (Z.mul_comm i). apply Z.mul_mod_distr_l; lia. }
  assert (Hstop : ((i + 1) * s) mod 2 ^ 64 = (o + s) mod 2 ^ 64).
  { subst o. rewrite Zplus_mod_idemp_l. f_equal. lia. }
  pose proof (Z.mod_pos_bound i q Hq). rewrite Hstop.
  destruct (Z.eq_dec (i mod q) (q - 1)) as [E|E].
  - right. assert (o + s = 2 ^ 64) as -> by (rewrite Ho, E, HM; lia).
    split; [done|]. by rewrite Z.mod_same by lia.
  - left. assert (0 <= o + s < 2 ^ 64) by (rewrite Ho, HM; nia).
    rewrite Z.mod_small by lia. nia.
Qed.

(** When [index] panics: [HalValue::index] on an array with a [usize]
    index panics exactly when the end of the element, [(idx + 1) * size],
    overflows [usize] (with overflow checks) or wraps to a multiple of 2^64
    (without); otherwise an index outside the data reads the type's zero. *)
Theorem index_panics_iff t data i :
  alloc_ok data → in_u 64 i = true →
  index (VArray t data) i = None ↔
    let stop := (i + 1) * Z.of_nat (byte_size t) in
    if overflow_checks then 2 ^ 64 ≤ stop else stop mod 2 ^ 64 = 0.
Proof.
  intros Hd Hi. apply in_u_spec in Hi. cbn zeta. unfold alloc_ok in Hd.
  pose proof (byte_size_bounds t) as Hs.
  change (index (VArray t data) i)
    with ('(o, e) ← elem_range t i; read_elem t data o e).
  pose proof (wrapped_bounds i t) as Hw. cbn zeta in Hw.
  unfold elem_range, arith, in_int. set (s := Z.of_nat (byte_size t)) in *.
  destruct (in_u 64 (i * s)) eqn:Eo; cbn [mbind option_bind].
  - apply in_u_spec in Eo. rewrite (Z.mod_small (i * s)) in Hw by done.
    destruct (in_u 64 (i * s + s)) eqn:Ee; cbn [mbind option_bind].
    + apply in_u_spec in Ee. split; [intros HN; exfalso; revert HN; apply read_elem_ok; lia|].
      destruct overflow_checks; lia.
    + assert (2 ^ 64 ≤ i * s + s).
      { destruct (Z.lt_ge_cases (i * s + s) (2 ^ 64)); [|done].
        rewrite (proj2 (in_u_spec 64 (i * s + s))) in Ee by lia. done. }
      destruct overflow_checks; cbn [mbind option_bind]; [split; [lia | done]|].
      destruct Hw as [? | [Hw1 Hw2]]; [lia|]. rewrite Hw1. split; [done|].
      intros _. unfold read_elem, wrap, wrap_u. rewrite Z.mod_same by done.
      destruct (_ >? _) eqn:E; [apply Z.gtb_lt in E; lia|].
      unfold slice_z. rewrite (proj2 (Z.leb_gt _ _)) by lia. done.
  - assert (2 ^ 64 ≤ i * s).
    { destruct (Z.lt_ge_cases (i * s) (2 ^ 64)); [|done].
      rewrite (proj2 (in_u_spec 64 (i * s))) in Eo by lia. done. }
    destruct overflow_checks; cbn [mbind option_bind]; [split; [lia | done]|].
    unfold wrap, wrap_u. set (o := (i * s) mod 2 ^ 64) in *.
    assert (0 ≤ o < 2 ^ 64) by (apply Z.mod_pos_bound; lia).
    destruct Hw as [(Hw1 & Hw2 & Hw3) | [Hw1 Hw2]].
    + rewrite (proj2 (in_u_spec 64 (o + s))) by lia. cbn [mbind option_bind].
      split; [intros HN; exfalso; revert HN; apply read_elem_ok; lia | done].
    + assert (in_u 64 (o + s) = false) as -> by (by rewrite Hw1).
      cbn [mbind option_bind]. rewrite Hw1, Z.mod_same by done. split; [done|].
      intros _. unfold read_elem.
      destruct (_ >? _) eqn:E; [apply Z.gtb_lt in E; lia|].
      unfold slice_z. rewrite (proj2 (Z.leb_gt _ _)) by lia. done.
Qed.
End properties.

(** ** Witnesses *)
Lemma hal_arith_exact_witness :
  (∃ r, int_outcome (H := debug_profile) ArRem TS8 (-128) (-1) r ∧
     hal_op (H := debug_profile) ArRem (VS8 (-128)) (VS8 (-1)) = of_int TS8 <$> r) ∧
  hal_op (H := debug_profile) ArAdd (VBool true) (VBool true) = Some (VS32 0).
Proof.
  split.
  - exact (proj2 (hal_arith_exact (H := debug_profile) ArRem (VS8 (-128)) (VS8 (-1)) eq_refl eq_refl)).
  - exact (proj2 (hal_arith_exact (H := debug_profile) ArAdd (VBool true) (VBool true) eq_refl eq_refl)).
Defined.

Lemma index_set_index_witness :
  ∃ data', set_index (H := release_profile) (VArray TU16 [1; 0; 2; 0]) 1 (VU16 258)
             = Some (VArray TU16 data') ∧
    index (H := release_profile) (VArray TU16 data') 1 = Some (VU16 258) ∧
    index (H := release_profile) (VArray TU16 data') 0 = Some (VU16 1).
Proof.
  destruct (index_set_index (H := release_profile) TU16 [1; 0; 2; 0] 1 (VU16 258))
    as (d & Hs & _ & Hi & Hj); [reflexivity .. |].
  exists d. split; [exact Hs|]. split; [exact Hi|]. rewrite Hj; [reflexivity | reflexivity | lia].
Defined.

Lemma index_panics_iff_witness :
  index (H := release_profile) (VArray TU8 [7]) (2 ^ 64 - 1) = None.
Proof.
  apply (index_panics_iff (H := release_profile) TU8 [7] (2 ^ 64 - 1)); reflexivity.
Defined.
