(* ===== verification/Encoding.v ===== *)
(** * Manual binary encoding of HAL values ([audesys-hal-core/src/encoding.rs])

    A type tag followed by the little-endian payload; containers carry a
    32-bit length. *)
From S2P Require Import Prelude Float HalTypes HalValue.
Local Open Scope Z_scope.

Definition TAG_BOOL : Z := 0.
Definition TAG_S8 : Z := 1.
Definition TAG_U8 : Z := 2.
Definition TAG_S16 : Z := 3.
Definition TAG_U16 : Z := 4.
Definition TAG_S32 : Z := 5.
Definition TAG_U32 : Z := 6.
Definition TAG_S64 : Z := 7.
Definition TAG_U64 : Z := 8.
Definition TAG_F32 : Z := 9.
Definition TAG_F64 : Z := 10.
Definition TAG_BLOB : Z := 11.
Definition TAG_STRING : Z := 12.
Definition TAG_ARRAY : Z := 13.

Definition pin_type_to_tag (t : HalPinType) : Z :=
  match t with
  | TBool => TAG_BOOL
  | TS8 => TAG_S8 | TU8 => TAG_U8 | TS16 => TAG_S16 | TU16 => TAG_U16
  | TS32 => TAG_S32 | TU32 => TAG_U32 | TS64 => TAG_S64 | TU64 => TAG_U64
  | TF32 => TAG_F32 | TF64 => TAG_F64
  | TBlob => TAG_BLOB | TString => TAG_STRING
  end.

Definition tag_to_pin_type (tag : Z) : option HalPinType :=
  if tag =? TAG_BOOL then Some TBool
  else if tag =? TAG_S8 then Some TS8
  else if tag =? TAG_U8 then Some TU8
  else if tag =? TAG_S16 then Some TS16
  else if tag =? TAG_U16 then Some TU16
  else if tag =? TAG_S32 then Some TS32
  else if tag =? TAG_U32 then Some TU32
  else if tag =? TAG_S64 then Some TS64
  else if tag =? TAG_U64 then Some TU64
  else if tag =? TAG_F32 then Some TF32
  else if tag =? TAG_F64 then Some TF64
  else if tag =? TAG_BLOB then Some TBlob
  else if tag =? TAG_STRING then Some TString
  else None.

(** [(data.len() as u32).to_le_bytes()]: [le_bytes 4] truncates like the cast. *)
Definition len_prefix {A} (data : list A) : list Z := le_bytes 4 (Z.of_nat (length data)).

Definition encode_halvalue (v : HalValue) : list Z :=
  match v with
  | VBool b => [TAG_BOOL; if b then 1 else 0]
  | VS8 n => TAG_S8 :: le_bytes 1 n
  | VU8 n => TAG_U8 :: le_bytes 1 n
  | VS16 n => TAG_S16 :: le_bytes 2 n
  | VU16 n => TAG_U16 :: le_bytes 2 n
  | VS32 n => TAG_S32 :: le_bytes 4 n
  | VU32 n => TAG_U32 :: le_bytes 4 n
  | VS64 n => TAG_S64 :: le_bytes 8 n
  | VU64 n => TAG_U64 :: le_bytes 8 n
  | VF32 n => TAG_F32 :: le_bytes 4 n
  | VF64 n => TAG_F64 :: le_bytes 8 n
  | VBlob data => TAG_BLOB :: len_prefix data ++ data
  | VString s => TAG_STRING :: len_prefix (string_bytes s) ++ string_bytes s
  | VArray t data => TAG_ARRAY :: pin_type_to_tag t :: len_prefix data ++ data
  end.

(** A payload of at least [n] bytes, read as an unsigned integer. *)
Definition read_le (n : nat) (payload : list Z) (msg : string) : HalResult Z :=
  if (length payload <? n)%nat then Err (Internal msg)
  else Ok (of_le_bytes (take n payload)).

Definition decode_blob (payload : list Z) : HalResult HalValue :=
  let? declared := read_le 4 payload "Blob: missing length prefix" in
  let actual := Z.of_nat (length payload) - 4 in
  if negb (declared =? actual) then Err (InvalidBlobLength declared (wrap_u 32 actual))
  else Ok (VBlob (drop 4 payload)).

Definition decode_string (payload : list Z) : HalResult HalValue :=
  let? len := read_le 4 payload "String: missing length prefix" in
  let actual := Z.of_nat (length payload) - 4 in
  if negb (len =? actual) then Err (Internal "String: length mismatch")
  else match from_utf8 (drop 4 payload) with
       | None => Err InvalidUtf8
       | Some s => Ok (VString s)
       end.

Definition decode_array (payload : list Z) : HalResult HalValue :=
  if (length payload <? 6)%nat then Err (Internal "Array: insufficient header")
  else
    let elem_tag := nth 0 payload 0 in
    let data_len := of_le_bytes (take 4 (drop 1 payload)) in
    if Z.of_nat (length payload) <? 5 + data_len then Err (Internal "Array: data truncated")
    else match tag_to_pin_type elem_tag with
         | None => Err (TypeMismatch TS32 TS32)
         | Some t => Ok (VArray t (take (Z.to_nat data_len) (drop 5 payload)))
         end.

Definition decode_halvalue (buf : list Z) : HalResult HalValue :=
  match buf with
  | [] => Err (Internal "empty buffer")
  | tag :: payload =>
      if tag =? TAG_BOOL then
        let? b := read_le 1 payload "bool: missing value byte" in Ok (VBool (negb (b =? 0)))
      else if tag =? TAG_S8 then
        let? n := read_le 1 payload "S8: insufficient bytes" in Ok (VS8 (wrap_s 8 n))
      else if tag =? TAG_U8 then
        let? n := read_le 1 payload "U8: insufficient bytes" in Ok (VU8 n)
      else if tag =? TAG_S16 then
        let? n := read_le 2 payload "S16: insufficient bytes" in Ok (VS16 (wrap_s 16 n))
      else if tag =? TAG_U16 then
        let? n := read_le 2 payload "U16: insufficient bytes" in Ok (VU16 n)
      else if tag =? TAG_S32 then
        let? n := read_le 4 payload "S32: insufficient bytes" in Ok (VS32 (wrap_s 32 n))
      else if tag =? TAG_U32 then
        let? n := read_le 4 payload "U32: insufficient bytes" in Ok (VU32 n)
      else if tag =? TAG_S64 then
        let? n := read_le 8 payload "S64: insufficient bytes" in Ok (VS64 (wrap_s 64 n))
      else if tag =? TAG_U64 then
        let? n := read_le 8 payload "U64: insufficient bytes" in Ok (VU64 n)
      else if tag =? TAG_F32 then
        let? n := read_le 4 payload "F32: insufficient bytes" in Ok (VF32 n)
      else if tag =? TAG_F64 then
        let? n := read_le 8 payload "F64: insufficient bytes" in Ok (VF64 n)
      else if tag =? TAG_BLOB then decode_blob payload
      else if tag =? TAG_STRING then decode_string payload
      else if tag =? TAG_ARRAY then decode_array payload
      else Err (UnknownHalType tag)
  end.

(** ** Lemmas *)

(** The length fields are 32 bits wide. *)
Definition len_fits {A} (l : list A) : bool := Z.of_nat (length l) <? 2 ^ 32.
Definition encodable (v : HalValue) : bool :=
  match v with
  | VBlob d => len_fits d
  | VString s => len_fits (string_bytes s)
  | VArray _ d => len_fits d
  | _ => true
  end.

Lemma read_le_app n z k msg :
  read_le n (le_bytes n z ++ k) msg = Ok (z mod 2 ^ (8 * Z.of_nat n)).
Proof.
  unfold read_le. rewrite length_app, le_bytes_length.
  destruct (_ <? n)%nat eqn:E; breflect; [lia|]. by rewrite of_le_bytes_app_length.
Qed.

Lemma read_le_exact n z msg :
  read_le n (le_bytes n z) msg = Ok (z mod 2 ^ (8 * Z.of_nat n)).
Proof. rewrite <- (app_nil_r (le_bytes n z)). apply read_le_app. Qed.

Lemma read_le_ok n l msg z :
  bytes_wf l = true → read_le n l msg = Ok z →
  in_u (8 * Z.of_nat n) z = true ∧ l = le_bytes n z ++ drop n l.
Proof.
  intros Hl. unfold read_le. destruct (_ <? n)%nat eqn:E; [done|]. breflect.
  intros [= <-].
  assert (Hlen : length (take n l) = n) by (rewrite length_take; lia).
  split; [apply of_le_bytes_in; auto with hal|].
  rewrite <- (take_drop n l) at 1. f_equal.
  rewrite <- Hlen at 2. symmetry. apply le_bytes_of_le_bytes. auto with hal.
Qed.

Lemma read_le_err n l msg e :
  read_le n l msg = Err e ↔ (length l < n)%nat ∧ e = Internal msg.
Proof.
  unfold read_le. destruct (_ <? n)%nat eqn:E; breflect; split;
    [by intros [= <-] | by intros [_ ->] | done | lia].
Qed.

Lemma tag_roundtrip t : tag_to_pin_type (pin_type_to_tag t) = Some t.
Proof. by destruct t. Qed.

Lemma tag_to_pin_type_inv tag t : tag_to_pin_type tag = Some t → pin_type_to_tag t = tag.
Proof.
  unfold tag_to_pin_type. intros Ht.
  repeat match type of Ht with
  | (if ?c then _ else _) = _ =>
      destruct c eqn:E; [apply Z.eqb_eq in E as ->; by injection Ht as <- | clear E]
  end.
  done.
Qed.

Lemma pin_type_to_tag_bound t : 0 ≤ pin_type_to_tag t ≤ 12.
Proof. by destruct t. Qed.

Lemma len_mod {A} (l : list A) :
  len_fits l = true → Z.of_nat (length l) mod 2 ^ (8 * Z.of_nat 4) = Z.of_nat (length l).
Proof. unfold len_fits. intros. breflect. apply Z.mod_small.
  change (2 ^ (8 * Z.of_nat 4)) with (2 ^ 32). lia. Qed.

Lemma encode_halvalue_wf v : hal_wf v = true → bytes_wf (encode_halvalue v) = true.
Proof.
  destruct v as [b| | | | | | | | | | | | |t]; intros Hv; unfold encode_halvalue, len_prefix.
  1: by destruct b.
  all: rewrite ?bytes_wf_cons, ?bytes_wf_app; repeat split;
    try (apply le_bytes_wf); try done; auto using string_bytes_wf.
  all: try (pose proof (pin_type_to_tag_bound t); lia).
Qed.

Lemma le_bytes_wrap_s n z : (0 < n)%nat → le_bytes n (wrap_s (8 * Z.of_nat n) z) = le_bytes n z.
Proof.
  intros Hn. rewrite <- (le_bytes_mod n), <- (le_bytes_mod n z). f_equal.
  unfold wrap_s. rewrite Zminus_mod_idemp_l. f_equal. lia.
Qed.

Lemma decode_tag t payload :
  decode_halvalue (pin_type_to_tag t :: payload) =
  match t with
  | TBlob => decode_blob payload
  | TString => decode_string payload
  | _ => decode_halvalue (pin_type_to_tag t :: payload)
  end.
Proof. by destruct t. Qed.

(** The array whose encoding has a five-byte payload. *)
Definition empty_array (v : HalValue) : bool :=
  match v with VArray _ [] => true | _ => false end.

Lemma decode_array_encoded t data :
  len_fits data = true → data ≠ [] →
  decode_array (pin_type_to_tag t :: len_prefix data ++ data) = Ok (VArray t data).
Proof.
  intros Hd Hne. unfold decode_array.
  assert (length data ≠ 0%nat) by (by destruct data).
  assert (Hlen : length (pin_type_to_tag t :: len_prefix data ++ data) = (5 + length data)%nat).
  { cbn [length]. unfold len_prefix. rewrite length_app, le_bytes_length. lia. }
  rewrite Hlen. rewrite (proj2 (Nat.ltb_ge _ _)) by lia. cbn [nth skipn]. rewrite drop_0.
  replace (of_le_bytes (take 4 (len_prefix data ++ data))) with (Z.of_nat (length data)).
  2: { unfold len_prefix. rewrite of_le_bytes_app_length. by rewrite len_mod. }
  rewrite (proj2 (Z.ltb_ge _ _)) by lia. rewrite tag_roundtrip. do 2 f_equal.
  rewrite drop_app_length' by (unfold len_prefix; by rewrite le_bytes_length).
  rewrite Nat2Z.id. apply firstn_all.
Qed.

Lemma decode_blob_encoded data :
  len_fits data = true → decode_blob (len_prefix data ++ data) = Ok (VBlob data).
Proof.
  intros Hd. unfold decode_blob, len_prefix. rewrite read_le_app, len_mod by done.
  cbn [result_bind]. rewrite length_app, le_bytes_length.
  rewrite (proj2 (Z.eqb_eq _ _)) by lia. cbn [negb].
  by rewrite drop_app_length' by (by rewrite le_bytes_length).
Qed.

Lemma decode_string_encoded s :
  len_fits (string_bytes s) = true → string_wf s = true →
  decode_string (len_prefix (string_bytes s) ++ string_bytes s) = Ok (VString s).
Proof.
  intros Hd Hs. unfold decode_string, len_prefix. rewrite read_le_app, len_mod by done.
  cbn [result_bind]. rewrite length_app, le_bytes_length.
  rewrite (proj2 (Z.eqb_eq _ _)) by lia. cbn [negb].
  rewrite drop_app_length' by (by rewrite le_bytes_length).
  by rewrite from_utf8_string_bytes.
Qed.

(** [buf] starts with an encoding of [v] (any non-zero byte encodes [true])
    and [rest] follows it. *)
Definition encodes (buf : list Z) (v : HalValue) (rest : list Z) : Prop :=
  match v with
  | VBool true => ∃ b, b ≠ 0 ∧ buf = TAG_BOOL :: b :: rest
  | _ => buf = encode_halvalue v ++ rest
  end.

(** What a successful decoding promises. *)
Definition decoded (buf : list Z) (v : HalValue) : Prop :=
  hal_wf v = true ∧ encodable v = true ∧
  ∃ rest, encodes buf v rest ∧
    match v with VBlob _ | VString _ => rest = [] | _ => True end.

Lemma decoded_bool payload msg v :
  bytes_wf payload = true →
  (let? b := read_le 1 payload msg in Ok (VBool (negb (b =? 0)))) = Ok v →
  decoded (TAG_BOOL :: payload) v.
Proof.
  intros Hp. destruct (read_le 1 payload msg) as [z|] eqn:E; [|done].
  apply read_le_ok in E as [Hz ->]; [|done]. intros [= <-].
  apply in_u_spec in Hz. change (8 * Z.of_nat 1) with 8 in Hz.
  split; [done|]. split; [done|].
  exists (drop 1 payload). split; [|done].
  cbn [le_bytes]. rewrite Z.mod_small by lia.
  destruct (z =? 0) eqn:Ez; breflect; cbn.
  - by subst.
  - by exists z.
Qed.

Lemma decoded_uint (n : nat) (c : Z → HalValue) tag payload msg v :
  bytes_wf payload = true →
  (∀ z, in_u (8 * Z.of_nat n) z = true → hal_wf (c z) = true) →
  (∀ z, encodable (c z) = true) →
  (∀ z, match c z with VBool _ | VBlob _ | VString _ => False | _ => True end) →
  (∀ z, encode_halvalue (c z) = tag :: le_bytes n z) →
  (let? z := read_le n payload msg in Ok (c z)) = Ok v →
  decoded (tag :: payload) v.
Proof.
  intros Hp Hwf Hen Hk Henc. destruct (read_le n payload msg) as [z|] eqn:E; [|done].
  apply read_le_ok in E as [Hz Hpay]; [|done]. intros [= <-].
  split; [auto|]. split; [auto|]. exists (drop n payload).
  assert (Hbuf : tag :: payload = encode_halvalue (c z) ++ drop n payload).
  { rewrite Henc. cbn [app]. by f_equal. }
  specialize (Hk z). unfold encodes. by destruct (c z).
Qed.

Lemma decoded_sint (n : nat) (c : Z → HalValue) tag payload msg v :
  (0 < n)%nat → bytes_wf payload = true →
  (∀ z, in_s (8 * Z.of_nat n) z = true → hal_wf (c z) = true) →
  (∀ z, encodable (c z) = true) →
  (∀ z, match c z with VBool _ | VBlob _ | VString _ => False | _ => True end) →
  (∀ z, encode_halvalue (c z) = tag :: le_bytes n z) →
  (let? z := read_le n payload msg in Ok (c (wrap_s (8 * Z.of_nat n) z))) = Ok v →
  decoded (tag :: payload) v.
Proof.
  intros Hn Hp Hwf Hen Hk Henc.
  apply (decoded_uint n (fun z => c (wrap_s (8 * Z.of_nat n) z))); auto.
  - intros z _. apply Hwf, wrap_s_in. lia.
  - intros z. apply (Hk (wrap_s _ z)).
  - intros z. rewrite Henc. by rewrite le_bytes_wrap_s.
Qed.

Lemma in_u_len_fits {A} (l : list A) z :
  in_u (8 * Z.of_nat 4) z = true → z = Z.of_nat (length l) → len_fits l = true.
Proof. intros Hz%in_u_spec ->. apply Z.ltb_lt. exact (proj2 Hz). Qed.

Lemma decoded_blob payload v :
  bytes_wf payload = true → decode_blob payload = Ok v →
  decoded (TAG_BLOB :: payload) v.
Proof.
  intros Hp. unfold decode_blob.
  destruct (read_le 4 payload _) as [z|] eqn:E; [|done]. cbn [result_bind].
  assert (4 ≤ length payload)%nat.
  { unfold read_le in E. destruct (_ <? _)%nat eqn:El; [done|]. by breflect. }
  apply read_le_ok in E as [Hz Hpay]; [|done].
  destruct (z =? _) eqn:Ez; [|done]. cbn [negb]. intros [= <-]. breflect.
  assert (z = Z.of_nat (length (drop 4 payload))) by (rewrite length_drop; lia).
  split; [by apply bytes_wf_drop|]. split; [by eapply in_u_len_fits|].
  exists []. split; [|done]. cbn [encodes encode_halvalue]. rewrite app_nil_r.
  f_equal. unfold len_prefix. congruence.
Qed.

Lemma decoded_string payload v :
  bytes_wf payload = true → decode_string payload = Ok v →
  decoded (TAG_STRING :: payload) v.
Proof.
  intros Hp. unfold decode_string.
  destruct (read_le 4 payload _) as [z|] eqn:E; [|done]. cbn [result_bind].
  assert (4 ≤ length payload)%nat.
  { unfold read_le in E. destruct (_ <? _)%nat eqn:El; [done|]. by breflect. }
  apply read_le_ok in E as [Hz Hpay]; [|done].
  destruct (z =? _) eqn:Ez; [|done]. cbn [negb]. breflect.
  destruct (from_utf8 _) as [s|] eqn:Es; [|done]. intros [= <-].
  apply from_utf8_wf in Es as [Hs Hb]; [|by apply bytes_wf_drop].
  assert (z = Z.of_nat (length (string_bytes s))) by (rewrite Hb, length_drop; lia).
  split; [done|]. split; [by eapply in_u_len_fits|].
  exists []. split; [|done]. cbn [encodes encode_halvalue]. rewrite app_nil_r.
  f_equal. unfold len_prefix. congruence.
Qed.

Lemma decoded_array payload v :
  bytes_wf payload = true → decode_array payload = Ok v →
  decoded (TAG_ARRAY :: payload) v.
Proof.
  intros Hp. unfold decode_array. destruct (_ <? 6)%nat eqn:El; [done|]. breflect.
  destruct payload as [|tag pl]; [done|]. cbn [nth length] in *.
  change (drop 1 (tag :: pl)) with pl. change (drop 5 (tag :: pl)) with (drop 4 pl).
  apply bytes_wf_cons in Hp as [_ Hpl].
  destruct (Z.ltb _ _) eqn:Et; [done|]. breflect.
  destruct (tag_to_pin_type tag) as [t|] eqn:Ett; [|done]. intros [= <-].
  apply tag_to_pin_type_inv in Ett as <-.
  assert (read_le 4 pl EmptyString = Ok (of_le_bytes (take 4 pl))) as Hr.
  { unfold read_le. by rewrite (proj2 (Nat.ltb_ge _ _)) by lia. }
  apply read_le_ok in Hr as [Hz Hpay]; [|done].
  set (z := of_le_bytes (take 4 pl)) in *. apply in_u_spec in Hz as Hz'.
  assert (z = Z.of_nat (length (take (Z.to_nat z) (drop 4 pl)))) as Hlen
    by (rewrite length_take, length_drop; lia).
  split; [by apply bytes_wf_take, bytes_wf_drop|]. split; [by eapply in_u_len_fits|].
  exists (drop (Z.to_nat z) (drop 4 pl)). split; [|done].
  cbn [encodes encode_halvalue app]. do 2 f_equal.
  unfold len_prefix. rewrite <- Hlen, <- (assoc_L (++)), take_drop. exact Hpay.
Qed.

(** ** Properties *)

(** [C18] Encode/decode round trip: decoding the encoding of a well-formed
    value whose containers fit the 32-bit length gives the value back, for
    every variant, except that an empty array (whose payload is the five
    header bytes) is rejected as an insufficient header. *)
Theorem encode_decode_roundtrip v :
  hal_wf v = true → encodable v = true →
  decode_halvalue (encode_halvalue v) =
    if empty_array v then Err (Internal "Array: insufficient header") else Ok v.
Proof.
  intros Hv He.
  destruct v as [b| | | | | | | | | | |d|s|t d]; cbn [empty_array].
  1: by destruct b.
  11: by apply decode_blob_encoded.
  11: by apply decode_string_encoded.
  11: { destruct d as [|x d]; [by destruct t|]. by apply decode_array_encoded. }
  all: cbn -[le_bytes read_le wrap_s Z.pow] in Hv |- *.
  all: rewrite read_le_exact; cbn [result_bind]; do 2 f_equal.
  all: first [ by apply Z.mod_small, in_u_spec
             | rewrite wrap_s_mod by done; by apply wrap_s_id ].
Qed.

(** [C19] Decoding is sound: a value that [decode_halvalue] accepts is
    well-formed (in particular a decoded string is UTF-8) and the buffer starts
    with that value's encoding; a blob or a string consumes the whole buffer,
    the other variants ignore trailing bytes. *)
Theorem decode_halvalue_sound buf v :
  bytes_wf buf = true → decode_halvalue buf = Ok v → decoded buf v.
Proof.
  destruct buf as [|tag payload]; [done|]. rewrite bytes_wf_cons. intros [_ Hp].
  unfold decode_halvalue.
  repeat match goal with
  | |- (if tag =? ?c then _ else _) = _ → _ =>
      destruct (tag =? c) eqn:E; [apply Z.eqb_eq in E as -> | clear E]
  end;
  first [ done | by apply decoded_bool | by apply decoded_blob | by apply decoded_string
        | by apply decoded_array
        | by apply (decoded_sint 1 VS8); try lia
        | by apply (decoded_sint 2 VS16); try lia
        | by apply (decoded_sint 4 VS32); try lia
        | by apply (decoded_sint 8 VS64); try lia
        | by apply (decoded_uint 1 VU8)
        | by apply (decoded_uint 2 VU16)
        | by apply (decoded_uint 4 VU32)
        | by apply (decoded_uint 8 VU64)
        | by apply (decoded_uint 4 VF32)
        | by apply (decoded_uint 8 VF64) ].
Qed.

(** The error branches: decoding fails with [UnknownHalType] exactly when
    the tag byte is not one of the fourteen tags. *)
Theorem decode_unknown_type_iff tag payload ty :
  bytes_wf (tag :: payload) = true →
  decode_halvalue (tag :: payload) = Err (UnknownHalType ty) ↔ 14 ≤ tag ∧ ty = tag.
Proof.
  rewrite bytes_wf_cons. intros [Ht _]. unfold decode_halvalue.
  repeat match goal with
  | |- (if tag =? ?c then _ else _) = _ ↔ _ =>
      let E := fresh "E" in
      destruct (tag =? c) eqn:E; [apply Z.eqb_eq in E as -> | apply Z.eqb_neq in E]
  end.
  1-11: split; [|unfold TAG_BOOL; intros [H _]; by cbn in H]; unfold read_le;
    destruct (_ <? _)%nat; done.
  - split; [|intros [H _]; by cbn in H]. unfold decode_blob, read_le.
    destruct (_ <? _)%nat; [done|]. cbn. by destruct (negb _).
  - split; [|intros [H _]; by cbn in H]. unfold decode_string, read_le.
    destruct (_ <? _)%nat; [done|]. cbn. destruct (negb _); [done|]. by destruct from_utf8.
  - split; [|intros [H _]; by cbn in H]. unfold decode_array.
    destruct (_ <? _)%nat; [done|]. destruct (_ <? _); [done|]. by destruct tag_to_pin_type.
  - unfold TAG_BOOL, TAG_S8, TAG_U8, TAG_S16, TAG_U16, TAG_S32, TAG_U32, TAG_S64, TAG_U64,
      TAG_F32, TAG_F64, TAG_BLOB, TAG_STRING, TAG_ARRAY in *.
    split; [intros [= <-]; lia | by intros [_ ->]].
Qed.

(** ** Witnesses *)
Lemma encode_decode_roundtrip_witness :
  decode_halvalue (encode_halvalue (VArray TU8 [1; 2])) = Ok (VArray TU8 [1; 2]) ∧
  decode_halvalue (encode_halvalue (VArray TU8 [])) = Err (Internal "Array: insufficient header").
Proof.
  split.
  - exact (encode_decode_roundtrip (VArray TU8 [1; 2]) eq_refl eq_refl).
  - exact (encode_decode_roundtrip (VArray TU8 []) eq_refl eq_refl).
Defined.

Lemma decode_halvalue_sound_witness :
  decoded [5; 254; 255; 255; 255; 9] (VS32 (-2)).
Proof. exact (decode_halvalue_sound [5; 254; 255; 255; 255; 9] (VS32 (-2)) eq_refl eq_refl). Defined.

Lemma decode_unknown_type_iff_witness :
  decode_halvalue [14; 0] = Err (UnknownHalType 14).
Proof. apply (decode_unknown_type_iff 14 [0] 14); [reflexivity | lia]. Defined.
