(* ===== verification/FlatBuffers.v ===== *)
(** * Values as FlatBuffers ([audesys-hal-flatbuffers/src/lib.rs])

    The conversions between values and the tables of the schema.  The tables
    are what the code that flatc generates builds and reads: a field equal to
    its default is not written, and read as the default.  Turning the tables
    into bytes and verifying bytes is the flatbuffers crate: a parameter, with
    the law that a finished buffer is read back as the tables it holds. *)
From stdpp Require Import countable strings list.
From S2P Require Import Prelude Float HalTypes HalValue.
From Stdlib Require Import Floats.SpecFloat.
Local Open Scope Z_scope.

(** ** Tables *)

(** The fields that are present in one of the tables [BoolVal] to [ArrayData]:
    [value] or [element_type], [data], and the [value] of [StringVal]. *)
Record FbTable := mkTable { t_number : option Z; t_bytes : option (list Z); t_text : option string }.
Record FbHalValue := mkFbValue { v_type : option Z; v_data_type : option Z; v_data : option FbTable }.
Record FbHalSignal := mkFbSignal {
  fs_name : option string; fs_value : option FbHalValue; fs_timestamp_ns : option Z }.

(** [push_slot(field, x, default)], by the equality of the field's type. *)
Definition push_slot (eqb : Z → Z → bool) (x default : Z) : option Z := if eqb x default then None else Some x.
Definition push_int (x : Z) : option Z := push_slot Z.eqb x 0.
Definition push_f32 (x : Z) : option Z := push_slot (float_eqb binary32) x 0.
Definition push_f64 (x : Z) : option Z := push_slot (float_eqb binary64) x 0.

Definition number_table (n : option Z) : FbTable := mkTable n None None.

(** The union's tags. *)
Definition data_tag (v : HalValue) : Z :=
  match v with
  | VBool _ => 1 | VS8 _ => 2 | VU8 _ => 3 | VS16 _ => 4 | VU16 _ => 5 | VS32 _ => 6 | VU32 _ => 7
  | VS64 _ => 8 | VU64 _ => 9 | VF32 _ => 10 | VF64 _ => 11 | VBlob _ => 12 | VString _ => 13 | VArray _ _ => 14
  end.

(** ** Type tags *)
Definition hal_type_to_pin_type (t : Z) : HalPinType :=
  match t with
  | 0 => TBool | 1 => TS8 | 2 => TU8 | 3 => TS16 | 4 => TU16 | 5 => TS32 | 6 => TU32 | 7 => TS64
  | 8 => TU64 | 9 => TF32 | 10 => TF64 | 11 => TBlob | 12 => TString | _ => TBlob
  end.
Definition pin_type_to_hal_type (p : HalPinType) : Z :=
  match p with
  | TBool => 0 | TS8 => 1 | TU8 => 2 | TS16 => 3 | TU16 => 4 | TS32 => 5 | TU32 => 6 | TS64 => 7
  | TU64 => 8 | TF32 => 9 | TF64 => 10 | TBlob => 11 | TString => 12
  end.

(** ** Building *)
Definition union_table (v : HalValue) : FbTable :=
  match v with
  | VBool b => number_table (push_int (Z.b2z b))
  | VS8 n | VU8 n | VS16 n | VU16 n | VS32 n | VU32 n | VS64 n | VU64 n => number_table (push_int n)
  | VF32 b => number_table (push_f32 b)
  | VF64 b => number_table (push_f64 b)
  | VBlob data => mkTable None (Some data) None
  | VString s => mkTable None None (Some s)
  | VArray t data => mkTable (push_int (pin_type_to_hal_type t)) (Some data) None
  end.
(** The type tag of an array is that of its elements. *)
Definition build_hal_value (v : HalValue) : FbHalValue :=
  mkFbValue (push_int (pin_type_to_hal_type (pin_type v))) (push_int (data_tag v)) (Some (union_table v)).

(** ** Reading *)
Definition number (t : FbTable) : Z := default 0 (t_number t).
(** [data_as_*] gives a table exactly when the tag is the one asked for. *)
Definition read_hal_value (f : FbHalValue) : option HalValue :=
  t ← v_data f;
  match default 0 (v_data_type f) with
  | 1 => Some (VBool (negb (number t =? 0)))
  | 2 => Some (VS8 (number t)) | 3 => Some (VU8 (number t))
  | 4 => Some (VS16 (number t)) | 5 => Some (VU16 (number t))
  | 6 => Some (VS32 (number t)) | 7 => Some (VU32 (number t))
  | 8 => Some (VS64 (number t)) | 9 => Some (VU64 (number t))
  | 10 => Some (VF32 (number t)) | 11 => Some (VF64 (number t))
  | 12 => Some (VBlob (default [] (t_bytes t)))
  | 13 => Some (VString (default "" (t_text t)))
  | 14 => Some (VArray (hal_type_to_pin_type (number t)) (default [] (t_bytes t)))
  | _ => None
  end.

(** ** Buffers *)
Inductive InvalidFlatbuffer := MissingRequiredField (required : string) | Malformed (what : string).
Class FlatBuffers := {
  finish_size_prefixed : FbHalSignal → list Z;
  size_prefixed_root : list Z → result FbHalSignal InvalidFlatbuffer }.

Section buffers.
Context {FB : FlatBuffers}.

Definition serialize_hal_value (name : string) (v : HalValue) : list Z :=
  finish_size_prefixed (mkFbSignal (Some name) (Some (build_hal_value v)) (push_int 0)).

Definition value_of (s : FbHalSignal) : result HalValue InvalidFlatbuffer :=
  match fs_value s with
  | None => Err (MissingRequiredField "value")
  | Some f => match read_hal_value f with None => Err (MissingRequiredField "data") | Some v => Ok v end
  end.
Definition deserialize_hal_value (buf : list Z) : result HalValue InvalidFlatbuffer :=
  let? signal := size_prefixed_root buf in value_of signal.
Definition deserialize_signal (buf : list Z) : result (string * HalValue) InvalidFlatbuffer :=
  let? signal := size_prefixed_root buf in
  let? v := value_of signal in Ok (default "" (fs_name signal), v).
End buffers.

(** ** Facts *)

(** What a value comes back as: both zeros of a float are its default. *)
Definition unsigned_zero (v : HalValue) : HalValue :=
  match v with
  | VF32 b => VF32 (if float_eqb binary32 b 0 then 0 else b)
  | VF64 b => VF64 (if float_eqb binary64 b 0 then 0 else b)
  | _ => v
  end.

Lemma default_push eqb x : default 0 (push_slot eqb x 0) = if eqb x 0 then 0 else x.
Proof. unfold push_slot. by destruct (eqb x 0). Qed.
Lemma default_push_int x : default 0 (push_int x) = x.
Proof. unfold push_int. rewrite default_push. destruct (Z.eqb_spec x 0); [done | done]. Qed.

Lemma pin_type_tag p : hal_type_to_pin_type (pin_type_to_hal_type p) = p.
Proof. by destruct p. Qed.

Lemma read_build v : read_hal_value (build_hal_value v) = Some (unsigned_zero v).
Proof.
  unfold read_hal_value, build_hal_value. cbn [v_data v_data_type mbind option_bind]. rewrite default_push_int.
  destruct v as [[]| | | | | | | | | | | | |t d]; cbn [data_tag union_table]; unfold number;
    cbn [number_table t_number t_bytes t_text]; rewrite ?default_push_int; try done.
  - by unfold push_f32; rewrite default_push.
  - by unfold push_f64; rewrite default_push.
  - by rewrite pin_type_tag.
Qed.

(** The patterns equal to zero. *)
Lemma zero_patterns f b : 0 < mant_w f → 0 < exp_w f → float_decode f 0 = S754_zero false →
  in_u (width f) b = true → float_eqb f b 0 = true → b = 0 ∨ b = 2 ^ (mant_w f + exp_w f).
Proof.
  intros Hm He Hz Hb%in_u_spec. unfold width in Hb. unfold float_eqb, float_cmp. rewrite Hz. unfold float_decode.
  pose proof (Z.pow_pos_nonneg 2 (mant_w f)). pose proof (Z.pow_pos_nonneg 2 (exp_w f)).
  pose proof (Z.div_mod b (2 ^ mant_w f) ltac:(lia)) as Hdiv. unfold float_exp, float_mant.
  pose proof (Z.mod_pos_bound b (2 ^ mant_w f) ltac:(lia)) as Hmb.
  destruct (Z.eqb_spec ((b / 2 ^ mant_w f) mod 2 ^ exp_w f) 0) as [Hq|Hq].
  - destruct (b mod 2 ^ mant_w f) as [|p|p] eqn:Em; [intros _|by destruct (float_sign f b)|lia].
    set (q := b / 2 ^ mant_w f) in *. pose proof (Z.div_mod q (2 ^ exp_w f) ltac:(lia)) as Hdq. rewrite Hq in Hdq.
    rewrite Z.pow_add_r by lia.
    assert (2 ^ (mant_w f + exp_w f + 1) = 2 ^ mant_w f * 2 ^ exp_w f * 2) as Hw by (rewrite !Z.pow_add_r by lia; lia).
    assert (q / 2 ^ exp_w f = 0 ∨ q / 2 ^ exp_w f = 1) as [E|E]; [|nia..].
    assert (0 ≤ q < 2 ^ exp_w f * 2) as Hqb by nia.
    pose proof (Z.div_pos q (2 ^ exp_w f)). pose proof (Z.div_lt_upper_bound q (2 ^ exp_w f) 2). lia.
  - destruct (_ =? _); [destruct (_ =? 0); by destruct (float_sign f b)|].
    destruct (b mod 2 ^ mant_w f + 2 ^ mant_w f); try done; by destruct (float_sign f b).
Qed.

(** [C37] A signal serialized as a FlatBuffer is read back with its name and its
    value, arrays included, whatever bytes the crate lays the tables out in -
    except that a float zero loses its sign: a field equal to its default is
    not written, and -0.0 equals 0.0. *)
Theorem flatbuffer_roundtrip `{FlatBuffers} name v :
  (∀ s, size_prefixed_root (finish_size_prefixed s) = Ok s) →
  deserialize_signal (serialize_hal_value name v) = Ok (name, unsigned_zero v) ∧
  deserialize_hal_value (serialize_hal_value name v) = Ok (unsigned_zero v) ∧
  (unsigned_zero v ≠ v → v = VF32 (2 ^ 31) ∨ v = VF64 (2 ^ 63) ∨ hal_wf v = false).
Proof.
  intros Hl. unfold deserialize_signal, deserialize_hal_value, serialize_hal_value. rewrite !Hl.
  cbn [result_bind]. unfold value_of. cbn [fs_value fs_name]. rewrite read_build. split_and!; [done | done |].
  destruct v; cbn [unsigned_zero hal_wf]; try done.
  - destruct (float_eqb binary32 bits 0) eqn:E; [|done]. intros Hne. destruct (f32_wf bits) eqn:Hw; [|by do 2 right].
    destruct (zero_patterns binary32 bits) as [E0|E0]; [done | done | done | exact Hw | exact E | by subst | subst bits; cbn; auto].
  - destruct (float_eqb binary64 bits 0) eqn:E; [|done]. intros Hne. destruct (f64_wf bits) eqn:Hw; [|by do 2 right].
    destruct (zero_patterns binary64 bits) as [E0|E0]; [done | done | done | exact Hw | exact E | by subst | subst bits; cbn; auto].
Qed.

(** What a reader makes of a foreign buffer: the union's tag alone decides
    the type of the value - the type tag next to it is never read - a union that
    is absent or has an unknown tag is reported as missing data, and an array of
    unknown elements is taken as an array of blobs. *)
Theorem flatbuffer_reader f f' :
  v_data f' = v_data f → v_data_type f' = v_data_type f →
  read_hal_value f' = read_hal_value f ∧
  (read_hal_value f = None ↔ v_data f = None ∨ ¬ (1 ≤ default 0 (v_data_type f) ≤ 14)) ∧
  (∀ t, v_data f = Some t → v_data_type f = Some 14 → ¬ (0 ≤ number t ≤ 12) →
     read_hal_value f = Some (VArray TBlob (default [] (t_bytes t)))).
Proof.
  intros E1 E2. unfold read_hal_value. rewrite E1, E2. split; [done|]. split.
  - destruct (v_data f) as [t|]; cbn; [|naive_solver]. destruct (default 0 (v_data_type f)) as [|p|p].
    + split; [intros _; right; lia | done].
    + do 4 (try destruct p as [p|p|]); cbn; split; try done; try (intros [|]; [done|lia]); intros _; right; lia.
    + split; [intros _; right; lia | done].
  - intros t -> -> Hn. cbn. do 2 f_equal. unfold hal_type_to_pin_type.
    destruct (number t) as [|p|p]; [lia| |done]. do 4 (try destruct p as [p|p|]); try done; lia.
Qed.

(** ** A layout of the tables *)
#[export] Instance FbTable_eq_dec : EqDecision FbTable.
Proof. solve_decision. Defined.
#[export] Instance FbTable_countable : Countable FbTable.
Proof.
  apply (inj_countable' (fun t => (t_number t, t_bytes t, t_text t)) (fun x => mkTable x.1.1 x.1.2 x.2)).
  by intros [].
Defined.
#[export] Instance FbHalValue_eq_dec : EqDecision FbHalValue.
Proof. solve_decision. Defined.
#[export] Instance FbHalValue_countable : Countable FbHalValue.
Proof.
  apply (inj_countable' (fun t => (v_type t, v_data_type t, v_data t)) (fun x => mkFbValue x.1.1 x.1.2 x.2)).
  by intros [].
Defined.
#[export] Instance FbHalSignal_eq_dec : EqDecision FbHalSignal.
Proof. solve_decision. Defined.
#[export] Instance FbHalSignal_countable : Countable FbHalSignal.
Proof.
  apply (inj_countable' (fun t => (fs_name t, fs_value t, fs_timestamp_ns t)) (fun x => mkFbSignal x.1.1 x.1.2 x.2)).
  by intros [].
Defined.
Definition numbered : FlatBuffers := {|
  finish_size_prefixed := fun s => [Zpos (encode s)];
  size_prefixed_root := fun b =>
    match b with [Zpos p] => match decode p with Some s => Ok s | None => Err (Malformed "root") end | _ => Err (Malformed "size") end |}.

Lemma flatbuffer_roundtrip_witness :
  deserialize_signal (FB := numbered) (serialize_hal_value (FB := numbered) "a" (VArray TS16 [1; 0])) =
    Ok ("a", VArray TS16 [1; 0]) ∧
  deserialize_hal_value (FB := numbered) (serialize_hal_value (FB := numbered) "a" (VF64 (2 ^ 63))) = Ok (VF64 0).
Proof.
  assert (∀ s, size_prefixed_root (FlatBuffers := numbered) (finish_size_prefixed (FlatBuffers := numbered) s) = Ok s) as Hl
    by (intros s; cbn; by rewrite decode_encode).
  split.
  - apply (flatbuffer_roundtrip (H := numbered) "a" (VArray TS16 [1; 0]) Hl).
  - apply (flatbuffer_roundtrip (H := numbered) "a" (VF64 (2 ^ 63)) Hl).
Defined.

Lemma flatbuffer_reader_witness :
  read_hal_value (mkFbValue (Some 3) (Some 14) (Some (mkTable (Some 99) (Some [7]) None))) = Some (VArray TBlob [7]).
Proof.
  apply (flatbuffer_reader (mkFbValue (Some 3) (Some 14) (Some (mkTable (Some 99) (Some [7]) None))) 
    (mkFbValue (Some 4) (Some 14) (Some (mkTable (Some 99) (Some [7]) None))) eq_refl eq_refl)
    with (t := mkTable (Some 99) (Some [7]) None); cbn; [done | done | lia].
Defined.
