(* ===== verification/HalIr.v ===== *)
(** * HAL IR programs ([audesys-hal-ir/src/{types,instruction,program}.rs]) *)
From S2P Require Import Prelude Float HalTypes HalValue.
Local Open Scope Z_scope.

Inductive Direction := Read | Write | ReadWrite.

Record SignalBinding := {
  hal_signal_name : string;
  program_var : string;
  direction : Direction;
  hal_pin_type : HalPinType }.

Record ChannelBinding := {
  channel_name : string;
  ch_direction : Direction }.

(** A register number is a [u8]. *)
Inductive Operand :=
  | Register (r : nat)
  | Immediate (v : HalValue)
  | SignalName (s : string).

Inductive Opcode :=
  | OpNop | OpLoad | OpStore
  | OpAdd | OpSub | OpMul | OpDiv | OpMod | OpNeg
  | OpEq | OpNeq | OpGt | OpLt | OpGte | OpLte
  | OpAnd | OpOr | OpXor | OpNot
  | OpJump | OpJumpIf | OpCall | OpRet
  | OpLoadIndex | OpStoreIndex
  | OpTimerRun | OpReadTimer
  | OpCounterRun | OpReadCounter
  | OpSrRun | OpReadSr
  | OpEdgeRun | OpReadEdge
  | OpHalt.

Record Instruction := mkInst { opcode : Opcode; operands : list Operand }.

#[export] Instance Direction_eq_dec : EqDecision Direction.
Proof. solve_decision. Defined.
#[export] Instance SignalBinding_eq_dec : EqDecision SignalBinding.
Proof. solve_decision. Defined.
#[export] Instance Operand_eq_dec : EqDecision Operand.
Proof. solve_decision. Defined.
#[export] Instance Opcode_eq_dec : EqDecision Opcode.
Proof. solve_decision. Defined.
#[export] Instance Instruction_eq_dec : EqDecision Instruction.
Proof. solve_decision. Defined.

(** An immediate [U32] built from a [u8] or [u32] argument. *)
Definition imm_u32 (z : Z) : Operand := Immediate (VU32 z).

(** ** Instruction constructors *)
Definition nop : Instruction := mkInst OpNop [].
Definition halt : Instruction := mkInst OpHalt [].
Definition load_imm (reg : nat) (val : HalValue) : Instruction :=
  mkInst OpLoad [Register reg; Immediate val].
Definition arith_inst (op : Opcode) (a b out : nat) : Instruction :=
  mkInst op [Register a; Register b; Register out].
Definition cmp_inst (op : Opcode) (a b : nat) : Instruction :=
  mkInst op [Register a; Register b].
Definition jump (target : Z) : Instruction := mkInst OpJump [imm_u32 target].
Definition jump_if (target : Z) : Instruction := mkInst OpJumpIf [imm_u32 target].
Definition call (target : Z) : Instruction := mkInst OpCall [imm_u32 target].
Definition ret (result_reg : option nat) : Instruction :=
  mkInst OpRet (match result_reg with Some r => [Register r] | None => [] end).
Definition load_index (dest array index : nat) : Instruction :=
  mkInst OpLoadIndex [Register dest; Register array; Register index].
Definition store_index (array index value : nat) : Instruction :=
  mkInst OpStoreIndex [Register array; Register index; Register value].
Definition timer_run (timer_idx : Z) (in_reg : nat) (pt_ms kind : Z) : Instruction :=
  mkInst OpTimerRun [imm_u32 timer_idx; Register in_reg; imm_u32 pt_ms; imm_u32 kind].
Definition read_timer (timer_idx : Z) (q_dest et_dest : nat) : Instruction :=
  mkInst OpReadTimer [imm_u32 timer_idx; Register q_dest; Register et_dest].
Definition counter_run (counter_idx : Z) (cu_reg cd_reg : nat) (pv kind : Z) : Instruction :=
  mkInst OpCounterRun
    [imm_u32 counter_idx; Register cu_reg; Register cd_reg; imm_u32 pv; imm_u32 kind].
Definition read_counter (counter_idx : Z) (q_dest cv_dest : nat) : Instruction :=
  mkInst OpReadCounter [imm_u32 counter_idx; Register q_dest; Register cv_dest].
Definition sr_run (idx : Z) (s1_reg r_reg : nat) (kind : Z) : Instruction :=
  mkInst OpSrRun [imm_u32 idx; Register s1_reg; Register r_reg; imm_u32 kind].
Definition read_sr (idx : Z) (q1_dest q2_dest : nat) : Instruction :=
  mkInst OpReadSr [imm_u32 idx; Register q1_dest; Register q2_dest].
Definition edge_run (idx : Z) (clk_reg : nat) (kind : Z) : Instruction :=
  mkInst OpEdgeRun [imm_u32 idx; Register clk_reg; imm_u32 kind].
Definition read_edge (idx : Z) (q_dest : nat) : Instruction :=
  mkInst OpReadEdge [imm_u32 idx; Register q_dest].

(** ** Programs *)
Record FunctionEntry := {
  fn_name : string;
  entry_point : Z;
  reg_count : Z }.

Record HalProgram := mkProgram {
  prog_name : string;
  prog_signals : list SignalBinding;
  prog_channels : list ChannelBinding;
  instructions : list Instruction;
  function_table : list FunctionEntry }.

Definition program_new (name : string) (insts : list Instruction) : HalProgram :=
  mkProgram name [] [] insts [].

Definition instruction_count (p : HalProgram) : nat := length (instructions p).

Definition is_well_formed (p : HalProgram) : bool :=
  existsb (fun i => bool_decide (opcode i = OpHalt)) (instructions p).

Definition add_function (p : HalProgram) (e : FunctionEntry) : HalProgram :=
  mkProgram (prog_name p) (prog_signals p) (prog_channels p) (instructions p)
    (function_table p ++ [e]).

(** ** Well-formedness: immediates are values a program can hold. *)
Definition operand_wf (o : Operand) : bool :=
  match o with
  | Immediate v => hal_wf v
  | SignalName s => string_wf s
  | Register r => (r <? 256)%nat
  end.
Definition inst_wf (i : Instruction) : bool := forallb operand_wf (operands i).
Definition program_wf (p : HalProgram) : bool := forallb inst_wf (instructions p).

(** [is_well_formed] only asks that some instruction is [Halt]. *)
Lemma is_well_formed_spec p :
  is_well_formed p = true ↔ ∃ i, i ∈ instructions p ∧ opcode i = OpHalt.
Proof.
  unfold is_well_formed. rewrite existsb_exists.
  split; intros (i & Hi & Ho); exists i; rewrite ?list_elem_of_In in *;
    rewrite ?bool_decide_eq_true in *; done.
Qed.

Lemma add_function_instructions p e :
  instructions (add_function p e) = instructions p ∧
  is_well_formed (add_function p e) = is_well_formed p.
Proof. done. Qed.
