(* ===== verification/FunctionBlocks.v ===== *)
(** * Function block states ([audesys-hal-ir/src/vm.rs], [executor.rs])

    The IEC 61131-3 timers, counters, flip-flops and edge detectors: their
    state records (vm.rs) and the state machines the executor runs once per
    scan cycle (the [match] of each [exec_*_run]). *)
From S2P Require Import Prelude.
Local Open Scope Z_scope.

Inductive TimerKind := Ton | Tof | Tp.
Inductive CounterKind := Ctu | Ctd | Ctud.
Inductive SrKind := Sr | Rs.

Record TimerState := mkTimer {
  t_kind : TimerKind;
  in_val : bool;
  elapsed_ms : Z;
  t_q : bool;
  preset_ms : Z }.

Record CounterState := mkCounter {
  c_kind : CounterKind;
  cu_val : bool;
  cd_val : bool;
  cv : Z;
  pv : Z;
  c_q : bool;
  qu : bool;
  qd : bool }.

Record SrState := mkSr { s_kind : SrKind; s1 : bool; r : bool; q1 : bool; q2 : bool }.
Record EdgeState := mkEdge { e_kind : Z; last_clk : bool; e_q : bool }.

#[export] Instance TimerKind_eq_dec : EqDecision TimerKind.
Proof. solve_decision. Defined.
#[export] Instance CounterKind_eq_dec : EqDecision CounterKind.
Proof. solve_decision. Defined.
#[export] Instance SrKind_eq_dec : EqDecision SrKind.
Proof. solve_decision. Defined.
#[export] Instance TimerState_eq_dec : EqDecision TimerState.
Proof. solve_decision. Defined.
#[export] Instance CounterState_eq_dec : EqDecision CounterState.
Proof. solve_decision. Defined.
#[export] Instance SrState_eq_dec : EqDecision SrState.
Proof. solve_decision. Defined.
#[export] Instance EdgeState_eq_dec : EqDecision EdgeState.
Proof. solve_decision. Defined.

Definition timer_new (kind : TimerKind) (preset : Z) : TimerState :=
  mkTimer kind false 0 false preset.
Definition counter_new (kind : CounterKind) (preset : Z) : CounterState :=
  mkCounter kind false false 0 preset false false false.
Definition sr_new (kind : SrKind) : SrState := mkSr kind false false false false.
Definition edge_new : EdgeState := mkEdge 0 false false.

(** [u64::saturating_add], [u32::saturating_sub]. *)
Definition saturating_add_u64 (a b : Z) : Z := Z.min (a + b) (2 ^ 64 - 1).
Definition saturating_sub_u32 (a b : Z) : Z := Z.max (a - b) 0.

Definition set_t_out (t : TimerState) (q : bool) (et : Z) : TimerState :=
  mkTimer (t_kind t) (in_val t) et q (preset_ms t).

(** Advance the elapsed time by one cycle; on reaching the preset the output
    becomes [q_done] and the elapsed time is clamped. *)
Definition timer_advance (t : TimerState) (cycle : Z) (q_done : bool) : TimerState :=
  let elapsed := saturating_add_u64 (elapsed_ms t) cycle in
  if preset_ms t <=? elapsed then set_t_out t q_done (preset_ms t)
  else set_t_out t (t_q t) elapsed.

Definition ton_tick (t : TimerState) (in_bool : bool) (cycle : Z) : TimerState :=
  if negb in_bool then set_t_out t false 0
  else if preset_ms t <=? elapsed_ms t then set_t_out t true (elapsed_ms t)
  else timer_advance t cycle true.

Definition tof_tick (t : TimerState) (in_bool : bool) (cycle : Z) : TimerState :=
  if in_bool then set_t_out t true 0
  else if t_q t then timer_advance t cycle false
  else t.

Definition tp_tick (t : TimerState) (in_bool : bool) (cycle : Z) : TimerState :=
  let t := if in_bool && negb (in_val t) then set_t_out t true 0 else t in
  if t_q t then
    let t := timer_advance t cycle false in
    if negb in_bool then set_t_out t false (elapsed_ms t) else t
  else t.

(** One run of a timer: preset and kind are reloaded, the state machine of
    the kind runs on the previous input, then the input is recorded. *)
Definition timer_tick (t : TimerState) (kind : TimerKind) (pt : Z) (in_bool : bool)
    (cycle : Z) : TimerState :=
  let t := mkTimer kind (in_val t) (elapsed_ms t) (t_q t) pt in
  let t := match kind with
           | Ton => ton_tick t in_bool cycle
           | Tof => tof_tick t in_bool cycle
           | Tp => tp_tick t in_bool cycle
           end in
  mkTimer (t_kind t) in_bool (elapsed_ms t) (t_q t) (preset_ms t).

Section profile.
Context `{BuildProfile}.

(** [(counter.cv + 1).min(counter.pv)] on a rising edge of CU. *)
Definition count_up (rising : bool) (v p : Z) : option Z :=
  if rising then v' ← arith false 32 (v + 1); Some (Z.min v' p) else Some v.
Definition count_down (rising : bool) (v : Z) : Z :=
  if rising then saturating_sub_u32 v 1 else v.

(** One run of a counter: preset, kind and inputs are stored first. *)
Definition counter_tick (c : CounterState) (kind : CounterKind) (p : Z)
    (cu cd : bool) : option CounterState :=
  let up := cu && negb (cu_val c) in
  let down := cd && negb (cd_val c) in
  match kind with
  | Ctu =>
      v ← count_up up (cv c) p;
      Some (mkCounter kind cu cd v p (p <=? v) (qu c) (qd c))
  | Ctd =>
      let v := count_down down (cv c) in
      Some (mkCounter kind cu cd v p (v <=? 0) (qu c) (qd c))
  | Ctud =>
      v ← count_up up (cv c) p;
      let v := count_down down v in
      Some (mkCounter kind cu cd v p (p <=? v) (p <=? v) (v <=? 0))
  end.
End profile.

Definition sr_tick (s : SrState) (kind : SrKind) (set reset : bool) : SrState :=
  let '(o1, o2) :=
    match kind with
    | Sr => if set then (true, false) else if reset then (false, true) else (q1 s, q2 s)
    | Rs => if reset then (false, true) else if set then (true, false) else (q1 s, q2 s)
    end in
  mkSr kind set reset o1 o2.

Definition edge_tick (e : EdgeState) (kind : Z) (clk : bool) : EdgeState :=
  let o := if kind =? 0 then clk && negb (last_clk e)
           else if kind =? 1 then negb clk && last_clk e
           else false in
  mkEdge kind clk o.

(** ** Lemmas *)

Lemma saturating_add_bound a b :
  0 ≤ a < 2 ^ 64 → 0 ≤ b → 0 ≤ saturating_add_u64 a b < 2 ^ 64.
Proof. unfold saturating_add_u64. lia. Qed.

(** A timer's output after [n] cycles with a constant input. *)
Fixpoint timer_run_n (n : nat) (t : TimerState) (kind : TimerKind) (pt : Z)
    (in_bool : bool) (cycle : Z) : TimerState :=
  match n with
  | O => t
  | S n => timer_run_n n (timer_tick t kind pt in_bool cycle) kind pt in_bool cycle
  end.

(** The ranges of the timer registers survive a tick, and the elapsed time
    never passes the preset once it was below it. *)
Lemma timer_tick_bounds t kind pt b cycle :
  0 ≤ elapsed_ms t < 2 ^ 64 → 0 ≤ pt < 2 ^ 64 → 0 ≤ cycle →
  let t' := timer_tick t kind pt b cycle in
  0 ≤ elapsed_ms t' < 2 ^ 64 ∧ preset_ms t' = pt ∧ t_kind t' = kind ∧ in_val t' = b ∧
  (elapsed_ms t ≤ pt → elapsed_ms t' ≤ pt).
Proof.
  intros He Hp Hc. cbn zeta.
  pose proof (saturating_add_bound (elapsed_ms t) cycle He Hc).
  pose proof (saturating_add_bound 0 cycle ltac:(lia) Hc).
  unfold timer_tick, ton_tick, tof_tick, tp_tick, timer_advance, set_t_out.
  destruct kind, b, (in_val t), (t_q t); cbn -[Z.pow saturating_add_u64];
    repeat (destruct (_ <=? _) eqn:?; breflect; cbn -[Z.pow saturating_add_u64]);
    repeat split; lia.
Qed.

(** The state of an on-delay timer that has been timing for [n] cycles. *)
Definition ton_state (n : Z) (pt cycle : Z) : TimerState :=
  mkTimer Ton true (Z.min (n * cycle) pt) (pt <=? n * cycle) pt.

Lemma ton_state_step n pt cycle :
  0 < pt < 2 ^ 63 → 0 ≤ cycle < 2 ^ 63 → 0 ≤ n →
  timer_tick (ton_state n pt cycle) Ton pt true cycle = ton_state (n + 1) pt cycle.
Proof.
  intros Hp Hc Hn. unfold timer_tick, ton_state, ton_tick, timer_advance, set_t_out,
    saturating_add_u64. cbn -[Z.pow Z.min].
  destruct (pt <=? Z.min (n * cycle) pt) eqn:E; breflect; cbn -[Z.pow Z.min].
  - rewrite (proj2 (Z.leb_le pt ((n + 1) * cycle))) by lia. f_equal. lia.
  - assert (n * cycle < pt) by lia.
    rewrite (Z.min_l (n * cycle) pt) by lia.
    rewrite (Z.min_l (n * cycle + cycle)) by lia.
    destruct (pt <=? n * cycle + cycle) eqn:E'; breflect; cbn -[Z.pow Z.min].
    + rewrite (proj2 (Z.leb_le pt ((n + 1) * cycle))) by lia. f_equal. lia.
    + rewrite (proj2 (Z.leb_gt pt ((n + 1) * cycle))) by lia. f_equal; [lia|].
      apply Z.leb_gt. lia.
Qed.

Lemma ton_state_run k n pt cycle :
  0 < pt < 2 ^ 63 → 0 ≤ cycle < 2 ^ 63 → 0 ≤ n →
  timer_run_n k (ton_state n pt cycle) Ton pt true cycle = ton_state (n + Z.of_nat k) pt cycle.
Proof.
  intros Hp Hc. revert n. induction k as [|k IH]; intros n Hn; cbn [timer_run_n].
  - f_equal. lia.
  - rewrite ton_state_step, IH by lia. f_equal. lia.
Qed.

(** An off-delay timer with the input low since [n] cycles, while the output
    is still high. *)
Definition tof_state (n : Z) (pt cycle : Z) : TimerState :=
  mkTimer Tof false (Z.min (n * cycle) pt) (n * cycle <? pt) pt.

Lemma tof_state_step n pt cycle :
  0 < pt < 2 ^ 63 → 0 ≤ cycle < 2 ^ 63 → 0 ≤ n →
  timer_tick (tof_state n pt cycle) Tof pt false cycle = tof_state (n + 1) pt cycle.
Proof.
  intros Hp Hc Hn. unfold timer_tick, tof_state, tof_tick, timer_advance, set_t_out,
    saturating_add_u64. cbn -[Z.pow Z.min].
  destruct (n * cycle <? pt) eqn:E; breflect; cbn -[Z.pow Z.min].
  - rewrite (Z.min_l (n * cycle) pt) by lia.
    rewrite (Z.min_l (n * cycle + cycle)) by lia.
    destruct (pt <=? n * cycle + cycle) eqn:E'; breflect; cbn -[Z.pow Z.min].
    + rewrite (proj2 (Z.ltb_ge ((n + 1) * cycle) pt)) by lia. f_equal. lia.
    + rewrite (proj2 (Z.ltb_lt ((n + 1) * cycle) pt)) by lia. f_equal; lia.
  - rewrite (proj2 (Z.ltb_ge ((n + 1) * cycle) pt)) by lia.
    f_equal. lia.
Qed.

Lemma tof_state_run k n pt cycle :
  0 < pt < 2 ^ 63 → 0 ≤ cycle < 2 ^ 63 → 0 ≤ n →
  timer_run_n k (tof_state n pt cycle) Tof pt false cycle = tof_state (n + Z.of_nat k) pt cycle.
Proof.
  intros Hp Hc. revert n. induction k as [|k IH]; intros n Hn; cbn [timer_run_n].
  - f_equal. lia.
  - rewrite tof_state_step, IH by lia. f_equal. lia.
Qed.

(** Rising edges of a boolean sequence, given the level before it. *)
Fixpoint rising_edges (prev : bool) (l : list bool) : nat :=
  match l with
  | [] => 0
  | b :: l => (if b && negb prev then 1 else 0) + rising_edges b l
  end%nat.

Section counters.
Context `{BuildProfile}.

(** A counter run over a sequence of (CU, CD) inputs. *)
Fixpoint counter_run_inputs (c : CounterState) (kind : CounterKind) (p : Z)
    (l : list (bool * bool)) : option CounterState :=
  match l with
  | [] => Some c
  | (cu, cd) :: l => c' ← counter_tick c kind p cu cd; counter_run_inputs c' kind p l
  end.

Lemma count_up_some rising v p :
  0 ≤ v ≤ p → p < 2 ^ 32 - 1 →
  count_up rising v p = Some (Z.min (v + if rising then 1 else 0) p).
Proof.
  intros Hv Hp. unfold count_up. destruct rising.
  - rewrite arith_exact by (apply in_u_spec; lia). done.
  - f_equal. lia.
Qed.

Lemma counter_tick_wf c kind p cu cd c' :
  in_u 32 (cv c) = true → in_u 32 p = true →
  counter_tick c kind p cu cd = Some c' → in_u 32 (cv c') = true ∧ pv c' = p.
Proof.
  intros Hc Hp. apply in_u_spec in Hc as Hc', Hp as Hp'.
  assert (Hup : ∀ rise v', count_up rise (cv c) p = Some v' → 0 ≤ v' < 2 ^ 32).
  { unfold count_up. intros rise v' Hv. destruct rise; [|simplify_eq; lia].
    inv_bind Hv. match goal with H : arith _ _ _ = Some ?x |- _ =>
      apply (arith_in false) in H; [|lia]; cbn in H; apply in_u_spec in H end.
    simplify_eq. lia. }
  assert (Hdn : ∀ rise v, 0 ≤ v < 2 ^ 32 → in_u 32 (count_down rise v) = true).
  { intros rise v Hv. unfold count_down, saturating_sub_u32. apply in_u_spec.
    destruct rise; lia. }
  destruct kind; cbn; intros Ht.
  - inv_bind Ht. simplify_eq. split; [|done]. cbn. apply in_u_spec. eauto.
  - simplify_eq. split; [|done]. cbn. auto.
  - inv_bind Ht. simplify_eq. split; [|done]. cbn. eauto.
Qed.
End counters.

(** ** Properties of the function blocks *)

(** TON on-delay: starting from a fresh timer with the input held high,
    after [n + 1] scan cycles the output is high exactly when the preset is
    reached ([(n + 1) * cycle >= PT]), the elapsed time is clamped at the
    preset, and a cycle with the input low clears both. *)
Theorem ton_on_delay n p0 pt cycle :
  0 ≤ pt < 2 ^ 63 → 0 ≤ cycle < 2 ^ 63 →
  let t := timer_run_n (S n) (timer_new Ton p0) Ton pt true cycle in
  t_q t = (pt <=? Z.of_nat (S n) * cycle) ∧
  elapsed_ms t = Z.min (Z.of_nat (S n) * cycle) pt ∧
  let t0 := timer_tick t Ton pt false cycle in t_q t0 = false ∧ elapsed_ms t0 = 0.
Proof.
  intros Hp Hc. cbn zeta.
  assert (Hrun : timer_run_n (S n) (timer_new Ton p0) Ton pt true cycle =
                 ton_state (Z.of_nat (S n)) pt cycle); [|by rewrite Hrun].
  destruct (Z.eq_dec pt 0) as [-> | Hne].
  - assert (Hfix : ∀ k t, timer_tick t Ton 0 true cycle = ton_state 0 0 cycle →
              timer_run_n (S k) t Ton 0 true cycle = ton_state 0 0 cycle).
    { induction k as [|k IH]; intros t Ht; cbn [timer_run_n]; rewrite Ht; [done|].
      apply IH. done. }
    rewrite Hfix by done. unfold ton_state. rewrite !Z.min_r by lia.
    rewrite (proj2 (Z.leb_le 0 (Z.of_nat (S n) * cycle))) by lia. done.
  - cbn [timer_run_n].
    replace (timer_tick (timer_new Ton p0) Ton pt true cycle) with (ton_state 1 pt cycle).
    + rewrite ton_state_run by lia. f_equal. lia.
    + rewrite <- (ton_state_step 0) by lia. unfold timer_tick, ton_state, timer_new.
      cbn -[Z.min]. rewrite Z.mul_0_l, (Z.min_l 0 pt) by lia.
      rewrite (proj2 (Z.leb_gt pt 0)) by lia.
      unfold timer_advance, set_t_out. cbn. by destruct (pt <=? _).
Qed.

(** A pulse timer whose input has been high for [n] cycles. *)
Definition tp_state (n : Z) (pt cycle : Z) : TimerState :=
  mkTimer Tp true (Z.min (n * cycle) pt) (n * cycle <? pt) pt.

Lemma tp_state_step n pt cycle :
  0 < pt < 2 ^ 63 → 0 ≤ cycle < 2 ^ 63 → 0 ≤ n →
  timer_tick (tp_state n pt cycle) Tp pt true cycle = tp_state (n + 1) pt cycle.
Proof.
  intros Hp Hc Hn. unfold timer_tick, tp_state, tp_tick, timer_advance, set_t_out,
    saturating_add_u64. cbn -[Z.pow Z.min].
  destruct (n * cycle <? pt) eqn:E; breflect; cbn -[Z.pow Z.min].
  - rewrite (Z.min_l (n * cycle) pt) by lia.
    rewrite (Z.min_l (n * cycle + cycle)) by lia.
    destruct (pt <=? n * cycle + cycle) eqn:E'; breflect; cbn -[Z.pow Z.min].
    + rewrite (proj2 (Z.ltb_ge ((n + 1) * cycle) pt)) by lia. f_equal. lia.
    + rewrite (proj2 (Z.ltb_lt ((n + 1) * cycle) pt)) by lia. f_equal; lia.
  - rewrite (proj2 (Z.ltb_ge ((n + 1) * cycle) pt)) by lia. f_equal. lia.
Qed.

Lemma tp_state_run k n pt cycle :
  0 < pt < 2 ^ 63 → 0 ≤ cycle < 2 ^ 63 → 0 ≤ n →
  timer_run_n k (tp_state n pt cycle) Tp pt true cycle = tp_state (n + Z.of_nat k) pt cycle.
Proof.
  intros Hp Hc. revert n. induction k as [|k IH]; intros n Hn; cbn [timer_run_n].
  - f_equal. lia.
  - rewrite tp_state_step, IH by lia. f_equal. lia.
Qed.

(** TP pulse: a rising edge starts a pulse that lasts while
    [n * cycle < PT] as long as the input stays high; but any cycle with the
    input low ends it at once, so the pulse has a fixed duration only if the
    input is held. *)
Theorem tp_pulse n t pt cycle :
  0 < pt < 2 ^ 63 → 0 ≤ cycle < 2 ^ 63 → in_val t = false →
  let t1 := timer_run_n (S n) t Tp pt true cycle in
  t_q t1 = (Z.of_nat (S n) * cycle <? pt) ∧
  t_q (timer_tick t1 Tp pt false cycle) = false.
Proof.
  intros Hp Hc Hin. cbn zeta. split.
  - cbn [timer_run_n].
    replace (timer_tick t Tp pt true cycle) with (tp_state 1 pt cycle).
    + rewrite tp_state_run by lia. cbn [t_q tp_state]. f_equal. lia.
    + rewrite <- (tp_state_step 0) by lia. unfold timer_tick, tp_state, tp_tick. rewrite Hin.
      cbn -[Z.min]. unfold set_t_out. cbn -[Z.min].
      rewrite Z.mul_0_l, (proj2 (Z.ltb_lt 0 pt)), Z.min_l by lia.
      unfold timer_advance, set_t_out. cbn. by destruct (pt <=? _).
  - generalize (timer_run_n (S n) t Tp pt true cycle). intros u.
    unfold timer_tick, tp_tick. cbn. destruct (t_q u) eqn:E; [done|]. cbn. done.
Qed.

Section counter_properties.
Context `{BuildProfile}.

Lemma ctu_run l c p :
  0 ≤ cv c ≤ p → p < 2 ^ 32 - 1 → l ≠ [] →
  ∃ c', counter_run_inputs c Ctu p l = Some c' ∧
    cv c' = Z.min (cv c + Z.of_nat (rising_edges (cu_val c) l.*1)) p ∧
    c_q c' = (p <=? cv c').
Proof.
  intros Hc Hp. revert c Hc. induction l as [|[cu cd] l IH]; intros c Hc Hne; [done|].
  cbn [counter_run_inputs counter_tick rising_edges fmap list_fmap fst].
  rewrite count_up_some by lia. cbn [mbind option_bind].
  set (v := Z.min _ p).
  assert (Hv : 0 ≤ v ≤ p ∧ v = Z.min (cv c + Z.of_nat (if cu && negb (cu_val c) then 1 else 0)) p)
    by (subst v; destruct (cu && negb (cu_val c)); lia).
  destruct l as [|x l].
  - eexists. split; [done|]. cbn. split; [|done]. rewrite (proj2 Hv). f_equal. lia.
  - destruct (IH (mkCounter Ctu cu cd v p (p <=? v) (qu c) (qd c))) as (c' & -> & Hcv & Hq);
      [cbn; lia | done |].
    exists c'. split; [done|]. split; [|done]. rewrite Hcv. cbn [cv cu_val].
    rewrite (proj2 Hv), Nat2Z.inj_add. 
    destruct (cu && negb (cu_val c)); cbn [Z.of_nat]; lia.
Qed.

(** CTU counts rising edges: from a fresh counter with a constant preset,
    running it over any non-empty sequence of inputs never panics, the count is
    the number of rising edges of CU clamped at the preset, and Q is high
    exactly when the preset has been reached. *)
Theorem ctu_counts_edges p0 p l :
  0 ≤ p < 2 ^ 32 - 1 → l ≠ [] →
  ∃ c, counter_run_inputs (counter_new Ctu p0) Ctu p l = Some c ∧
    cv c = Z.min (Z.of_nat (rising_edges false l.*1)) p ∧
    c_q c = (p <=? Z.of_nat (rising_edges false l.*1)).
Proof.
  intros Hp Hl. destruct (ctu_run l (counter_new Ctu p0) p) as (c & -> & Hcv & Hq);
    cbn in *; try lia; [done|].
  exists c. split; [done|]. split; [done|]. rewrite Hq, Hcv.
  destruct (p <=? Z.of_nat _) eqn:E; breflect; [apply Z.leb_le | apply Z.leb_gt]; lia.
Qed.

(** CTD never loads its preset: a fresh down-counter run over any inputs
    keeps CV at 0, and its output is high from the first scan on, whatever the
    preset is. *)
Theorem ctd_never_loads p0 p l :
  ∃ c, counter_run_inputs (counter_new Ctd p0) Ctd p l = Some c ∧
    cv c = 0 ∧ (l ≠ [] → c_q c = true).
Proof.
  assert (Hgen : ∀ c, cv c = 0 → ∃ c', counter_run_inputs c Ctd p l = Some c' ∧ cv c' = 0 ∧
            (l ≠ [] → c_q c' = true)).
  { induction l as [|[cu cd] l IH]; intros c Hc; [by exists c|].
    cbn [counter_run_inputs counter_tick mbind option_bind].
    assert (Hd : ∀ b, count_down b (cv c) = 0) by (intros []; rewrite Hc; done).
    rewrite Hd. destruct (IH (mkCounter Ctd cu cd 0 p true (qu c) (qd c))) as (c' & E & Hv & Hq);
      [done|].
    exists c'. split; [exact E|]. split; [done|]. intros _.
    destruct l; [|by apply Hq]. cbn in E. by simplify_eq. }
  by apply Hgen.
Qed.
End counter_properties.

(** SR/RS dominance: one tick implements the flip-flop equations, the set
    input winning for SR and the reset input for RS; the outputs are
    complementary after any tick with an active input, and stay so. *)
Theorem sr_tick_dominance s set reset :
  q1 (sr_tick s Sr set reset) = set || (q1 s && negb reset) ∧
  q1 (sr_tick s Rs set reset) = negb reset && (set || q1 s) ∧
  ∀ kind, (set || reset = true ∨ q2 s = negb (q1 s)) →
    q2 (sr_tick s kind set reset) = negb (q1 (sr_tick s kind set reset)).
Proof.
  unfold sr_tick. destruct s as [k a b o1 o2]; cbn.
  destruct set, reset; cbn; repeat split; try (by destruct o1);
    intros [] [Hx | Hx]; try done.
Qed.

(** Run an edge detector over a clock sequence, collecting its output. *)
Fixpoint edge_outputs (e : EdgeState) (kind : Z) (l : list bool) : list bool :=
  match l with
  | [] => []
  | b :: l => let e' := edge_tick e kind b in e_q e' :: edge_outputs e' kind l
  end.

(** R_TRIG is one-shot: over any clock sequence the number of cycles with
    a high output is the number of rising edges of the clock, and no two
    consecutive cycles have a high output. *)
Theorem r_trig_one_shot e l :
  length (List.filter (fun q => q) (edge_outputs e 0 l)) = rising_edges (last_clk e) l ∧
  ∀ i, edge_outputs e 0 l !! i = Some true → edge_outputs e 0 l !! S i ≠ Some true.
Proof.
  split.
  - revert e. induction l as [|b l IH]; intros e; [done|]. cbn.
    destruct (b && negb (last_clk e)); cbn; by rewrite IH.
  - revert e. induction l as [|b l IH]; intros e i; [done|].
    destruct i as [|i]; cbn; [|apply IH].
    destruct l as [|c l]; [done|]. cbn. intros [= Hb]. apply andb_true_iff in Hb as [-> _].
    by destruct c.
Qed.

(** ** Witnesses *)
Lemma ton_on_delay_witness :
  t_q (timer_run_n 4 (timer_new Ton 0) Ton 50 true 10) = false ∧
  t_q (timer_run_n 5 (timer_new Ton 0) Ton 50 true 10) = true.
Proof.
  split.
  - apply (ton_on_delay 3 0 50 10); lia.
  - apply (ton_on_delay 4 0 50 10); lia.
Defined.

Lemma tp_pulse_witness :
  t_q (timer_run_n 4 (timer_new Tp 0) Tp 50 true 10) = true ∧
  t_q (timer_tick (timer_run_n 4 (timer_new Tp 0) Tp 50 true 10) Tp 50 false 10) = false.
Proof. apply (tp_pulse 3 (timer_new Tp 0) 50 10); [lia | lia | reflexivity]. Defined.

Lemma ctu_counts_edges_witness :
  ∃ c, counter_run_inputs (H := debug_profile) (counter_new Ctu 0) Ctu 2
         [(true, false); (false, false); (true, false)] = Some c ∧ cv c = 2 ∧ c_q c = true.
Proof.
  apply (ctu_counts_edges (H := debug_profile) 0 2
    [(true, false); (false, false); (true, false)]); [lia | discriminate].
Defined.

Lemma ctd_never_loads_witness :
  ∃ c, counter_run_inputs (H := debug_profile) (counter_new Ctd 0) Ctd 9 [(false, false)] = Some c ∧
    cv c = 0 ∧ c_q c = true.
Proof.
  destruct (ctd_never_loads (H := debug_profile) 0 9 [(false, false)]) as (c & Hr & Hv & Hq).
  exists c. split; [exact Hr|]. split; [exact Hv|]. apply Hq. discriminate.
Defined.

Lemma sr_tick_dominance_witness :
  q1 (sr_tick (sr_new Sr) Sr true true) = true ∧ q2 (sr_tick (sr_new Rs) Rs true true) = true.
Proof.
  destruct (sr_tick_dominance (sr_new Sr) true true) as (H1 & _ & _).
  destruct (sr_tick_dominance (sr_new Rs) true true) as (_ & H2 & H3).
  split; [exact H1|]. rewrite (H3 Rs (or_introl eq_refl)), H2. reflexivity.
Defined.

Lemma r_trig_one_shot_witness :
  edge_outputs edge_new 0 [true; true; false; true] !! 1%nat ≠ Some true.
Proof. apply (r_trig_one_shot edge_new [true; true; false; true]). reflexivity. Defined.
