(* ===== verification/Vm.v ===== *)
(** * The register machine ([audesys-hal-ir/src/vm.rs])

    Sixteen registers, the comparison flag, the instruction pointer, the
    signal table, the call stack and the function block states.  The call
    stack is a list whose head is the top ([Vec::push]/[pop]). *)
From S2P Require Import Prelude Float HalTypes HalValue HalIr FunctionBlocks.
Local Open Scope Z_scope.

Definition REGISTER_COUNT : nat := 16.

Record Vm := mkVm {
  registers : list HalValue;
  flags_zero : bool;
  ip : nat;
  signals : gmap string HalValue;
  call_stack : list nat;
  timers : list TimerState;
  counters : list CounterState;
  srs : list SrState;
  edges : list EdgeState;
  cycle_time_ms : Z }.

Definition vm_new : Vm :=
  mkVm (replicate REGISTER_COUNT (VS32 0)) false 0 ∅ [] [] [] [] [] 0.

(** ** Field updates *)
Definition with_registers (m : Vm) (x : list HalValue) : Vm :=
  mkVm x (flags_zero m) (ip m) (signals m) (call_stack m) (timers m) (counters m)
    (srs m) (edges m) (cycle_time_ms m).
Definition set_flags_zero (m : Vm) (x : bool) : Vm :=
  mkVm (registers m) x (ip m) (signals m) (call_stack m) (timers m) (counters m)
    (srs m) (edges m) (cycle_time_ms m).
Definition set_ip (m : Vm) (x : nat) : Vm :=
  mkVm (registers m) (flags_zero m) x (signals m) (call_stack m) (timers m) (counters m)
    (srs m) (edges m) (cycle_time_ms m).
Definition with_signals (m : Vm) (x : gmap string HalValue) : Vm :=
  mkVm (registers m) (flags_zero m) (ip m) x (call_stack m) (timers m) (counters m)
    (srs m) (edges m) (cycle_time_ms m).
Definition with_call_stack (m : Vm) (x : list nat) : Vm :=
  mkVm (registers m) (flags_zero m) (ip m) (signals m) x (timers m) (counters m)
    (srs m) (edges m) (cycle_time_ms m).
Definition with_timers (m : Vm) (x : list TimerState) : Vm :=
  mkVm (registers m) (flags_zero m) (ip m) (signals m) (call_stack m) x (counters m)
    (srs m) (edges m) (cycle_time_ms m).
Definition with_counters (m : Vm) (x : list CounterState) : Vm :=
  mkVm (registers m) (flags_zero m) (ip m) (signals m) (call_stack m) (timers m) x
    (srs m) (edges m) (cycle_time_ms m).
Definition with_srs (m : Vm) (x : list SrState) : Vm :=
  mkVm (registers m) (flags_zero m) (ip m) (signals m) (call_stack m) (timers m)
    (counters m) x (edges m) (cycle_time_ms m).
Definition with_edges (m : Vm) (x : list EdgeState) : Vm :=
  mkVm (registers m) (flags_zero m) (ip m) (signals m) (call_stack m) (timers m)
    (counters m) (srs m) x (cycle_time_ms m).
Definition set_cycle_time (m : Vm) (x : Z) : Vm :=
  mkVm (registers m) (flags_zero m) (ip m) (signals m) (call_stack m) (timers m)
    (counters m) (srs m) (edges m) x.

(** ** Operations *)

(** The [assert!] panics on an index out of range. *)
Definition read_register (m : Vm) (idx : nat) : option HalValue :=
  if (idx <? REGISTER_COUNT)%nat then registers m !! idx else None.
Definition write_register (m : Vm) (idx : nat) (v : HalValue) : option Vm :=
  if (idx <? REGISTER_COUNT)%nat then Some (with_registers m (<[idx := v]> (registers m)))
  else None.

Definition advance_ip (m : Vm) : Vm := set_ip m (S (ip m)).
Definition reset_ip (m : Vm) : Vm := set_ip m 0.

(** [reset] keeps the function block states and the cycle time. *)
Definition reset (m : Vm) : Vm :=
  mkVm (replicate (length (registers m)) (VS32 0)) false 0 ∅ [] (timers m) (counters m)
    (srs m) (edges m) (cycle_time_ms m).

Definition push_call_ip (m : Vm) (return_ip : nat) : Vm :=
  with_call_stack m (return_ip :: call_stack m).
Definition pop_call_ip (m : Vm) : option (nat * Vm) :=
  match call_stack m with
  | [] => None
  | i :: k => Some (i, with_call_stack m k)
  end.
Definition call_depth (m : Vm) : nat := length (call_stack m).

Definition write_signal (m : Vm) (name : string) (v : HalValue) : Vm :=
  with_signals m (<[name := v]> (signals m)).
Definition read_signal (m : Vm) (name : string) : option HalValue := signals m !! name.
Definition signal_names (m : Vm) : list string := (map_to_list (signals m)).*1.

Definition add_timer (m : Vm) (kind : TimerKind) (preset : Z) : Vm :=
  with_timers m (timers m ++ [timer_new kind preset]).
Definition timer (m : Vm) (idx : nat) : option TimerState := timers m !! idx.
Definition set_timer (m : Vm) (idx : nat) (t : TimerState) : Vm :=
  with_timers m (<[idx := t]> (timers m)).
Definition timer_count (m : Vm) : nat := length (timers m).

Definition add_counter (m : Vm) (kind : CounterKind) (preset : Z) : Vm :=
  with_counters m (counters m ++ [counter_new kind preset]).
Definition counter (m : Vm) (idx : nat) : option CounterState := counters m !! idx.
Definition set_counter (m : Vm) (idx : nat) (c : CounterState) : Vm :=
  with_counters m (<[idx := c]> (counters m)).
Definition counter_count (m : Vm) : nat := length (counters m).

Definition add_sr (m : Vm) (kind : SrKind) : Vm :=
  with_srs m (srs m ++ [sr_new kind]).
Definition sr (m : Vm) (idx : nat) : option SrState := srs m !! idx.
Definition set_sr (m : Vm) (idx : nat) (s : SrState) : Vm :=
  with_srs m (<[idx := s]> (srs m)).
Definition sr_count (m : Vm) : nat := length (srs m).

Definition add_edge (m : Vm) : Vm := with_edges m (edges m ++ [edge_new]).
Definition edge (m : Vm) (idx : nat) : option EdgeState := edges m !! idx.
Definition set_edge (m : Vm) (idx : nat) (e : EdgeState) : Vm :=
  with_edges m (<[idx := e]> (edges m)).
Definition edge_count (m : Vm) : nat := length (edges m).

(** [while count(self) <= idx { add(self) }]: [S idx] rounds are enough
    because each adds one element ([grow_spec] below). *)
Fixpoint grow_loop (fuel : nat) (count : Vm → nat) (add : Vm → Vm) (idx : nat) (m : Vm) : Vm :=
  match fuel with
  | O => m
  | S fuel => if (count m <=? idx)%nat then grow_loop fuel count add idx (add m) else m
  end.
Definition grow (count : Vm → nat) (add : Vm → Vm) (idx : nat) (m : Vm) : Vm :=
  grow_loop (S idx) count add idx m.

(** ** Well-formedness: the ranges Rust's types enforce. *)
Definition timer_wf (t : TimerState) : bool := in_u 64 (elapsed_ms t) && in_u 64 (preset_ms t).
Definition counter_wf (c : CounterState) : bool := in_u 32 (cv c) && in_u 32 (pv c).

Record vm_wf (m : Vm) : Prop := {
  vm_wf_len : length (registers m) = REGISTER_COUNT;
  vm_wf_regs : Forall (fun v => hal_wf v = true) (registers m);
  vm_wf_signals : map_Forall (fun _ v => hal_wf v = true) (signals m);
  vm_wf_timers : Forall (fun t => timer_wf t = true) (timers m);
  vm_wf_counters : Forall (fun c => counter_wf c = true) (counters m);
  vm_wf_cycle : in_u 64 (cycle_time_ms m) = true }.

(** ** Lemmas *)
Lemma vm_new_wf : vm_wf vm_new.
Proof. split; cbn; auto; [by repeat constructor | apply map_Forall_empty]. Qed.

Lemma read_register_wf m i v : vm_wf m → read_register m i = Some v → hal_wf v = true.
Proof.
  intros Hm. unfold read_register. destruct (_ <? _)%nat; [|done]. intros Hv.
  exact (proj1 (Forall_lookup _ _) (vm_wf_regs m Hm) i v Hv).
Qed.

Lemma read_register_some m i :
  vm_wf m → (i < REGISTER_COUNT)%nat → ∃ v, read_register m i = Some v.
Proof.
  intros Hm Hi. unfold read_register. rewrite (proj2 (Nat.ltb_lt _ _)) by done.
  apply lookup_lt_is_Some. by rewrite (vm_wf_len m Hm).
Qed.

Lemma write_register_wf m i v m' :
  vm_wf m → hal_wf v = true → write_register m i v = Some m' → vm_wf m'.
Proof.
  intros [] Hv. unfold write_register. destruct (_ <? _)%nat; [|done]. intros [= <-].
  split; cbn; auto.
  - by rewrite length_insert.
  - by apply Forall_insert.
Qed.

Lemma write_register_some m i v :
  (i < REGISTER_COUNT)%nat → write_register m i v = Some (with_registers m (<[i := v]> (registers m))).
Proof. intros Hi. unfold write_register. by rewrite (proj2 (Nat.ltb_lt _ _)). Qed.

Lemma read_write_same m i v m' :
  length (registers m) = REGISTER_COUNT → write_register m i v = Some m' →
  read_register m' i = Some v.
Proof.
  intros Hlen. unfold write_register, read_register.
  destruct (_ <? _)%nat eqn:E; [|done]. breflect. intros [= <-]. cbn.
  apply list_lookup_insert_eq. lia.
Qed.

Lemma read_write_other m i j v m' :
  i ≠ j → write_register m i v = Some m' → read_register m' j = read_register m j.
Proof.
  intros Hij. unfold write_register, read_register.
  destruct (i <? _)%nat; [|done]. intros [= <-]. cbn.
  by rewrite list_lookup_insert_ne.
Qed.

Lemma write_register_frame m i v m' :
  write_register m i v = Some m' →
  ip m' = ip m ∧ flags_zero m' = flags_zero m ∧ signals m' = signals m ∧
  call_stack m' = call_stack m.
Proof. unfold write_register. destruct (_ <? _)%nat; [|done]. by intros [= <-]. Qed.

Lemma set_ip_wf m i : vm_wf m → vm_wf (set_ip m i).
Proof. by intros []. Qed.
Lemma set_flags_zero_wf m b : vm_wf m → vm_wf (set_flags_zero m b).
Proof. by intros []. Qed.
Lemma with_call_stack_wf m k : vm_wf m → vm_wf (with_call_stack m k).
Proof. by intros []. Qed.
Lemma advance_ip_wf m : vm_wf m → vm_wf (advance_ip m).
Proof. apply set_ip_wf. Qed.
Lemma write_signal_wf m n v : vm_wf m → hal_wf v = true → vm_wf (write_signal m n v).
Proof. intros [] Hv. split; cbn; auto. by apply map_Forall_insert_2. Qed.
Lemma reset_wf m : vm_wf m → vm_wf (reset m).
Proof.
  intros []. split; cbn; auto.
  - by rewrite length_replicate.
  - by apply Forall_replicate.
  - apply map_Forall_empty.
Qed.

Lemma set_timer_wf m i t : vm_wf m → timer_wf t = true → vm_wf (set_timer m i t).
Proof. intros [] Ht. split; cbn; auto. by apply Forall_insert. Qed.
Lemma set_counter_wf m i c : vm_wf m → counter_wf c = true → vm_wf (set_counter m i c).
Proof. intros [] Ht. split; cbn; auto. by apply Forall_insert. Qed.
Lemma set_sr_wf m i s : vm_wf m → vm_wf (set_sr m i s).
Proof. by intros []. Qed.
Lemma set_edge_wf m i e : vm_wf m → vm_wf (set_edge m i e).
Proof. by intros []. Qed.

Lemma grow_loop_wf fuel count add i m :
  (∀ m, vm_wf m → vm_wf (add m)) → vm_wf m → vm_wf (grow_loop fuel count add i m).
Proof.
  intros Hadd. revert m. induction fuel as [|n IH]; intros m Hm; [done|].
  cbn. destruct (_ <=? _)%nat; auto.
Qed.

Lemma add_timer_wf m k : vm_wf m → vm_wf (add_timer m k 0).
Proof. intros []. split; cbn; auto. apply Forall_app. by repeat constructor. Qed.
Lemma add_counter_wf m k : vm_wf m → vm_wf (add_counter m k 0).
Proof. intros []. split; cbn; auto. apply Forall_app. by repeat constructor. Qed.
Lemma add_sr_wf m k : vm_wf m → vm_wf (add_sr m k).
Proof. by intros []. Qed.
Lemma add_edge_wf m : vm_wf m → vm_wf (add_edge m).
Proof. by intros []. Qed.

(** The growth loop ends with [idx] allocated: the fuel is enough. *)
Lemma grow_loop_count fuel count add i m :
  (∀ m, count (add m) = S (count m)) → (i < count m + fuel)%nat →
  (i < count (grow_loop fuel count add i m))%nat.
Proof.
  intros Hadd. revert m. induction fuel as [|n IH]; intros m Hf; cbn; [lia|].
  destruct (_ <=? _)%nat eqn:E; breflect; [|lia]. apply IH. rewrite Hadd. lia.
Qed.

Lemma grow_count count add i m :
  (∀ m, count (add m) = S (count m)) → (i < count (grow count add i m))%nat.
Proof. intros Hadd. apply grow_loop_count; [done | lia]. Qed.

(** More fuel changes nothing once the element exists. *)
Lemma grow_loop_done fuel count add i m :
  (i < count m)%nat → grow_loop fuel count add i m = m.
Proof.
  intros Hi. destruct fuel; [done|]. cbn.
  by rewrite (proj2 (Nat.leb_gt _ _)) by lia.
Qed.

Lemma grow_done count add i m : (i < count m)%nat → grow count add i m = m.
Proof. apply grow_loop_done. Qed.

Lemma add_timer_count m k p : timer_count (add_timer m k p) = S (timer_count m).
Proof. unfold timer_count, add_timer. cbn. rewrite length_app. cbn. lia. Qed.
Lemma add_counter_count m k p : counter_count (add_counter m k p) = S (counter_count m).
Proof. unfold counter_count, add_counter. cbn. rewrite length_app. cbn. lia. Qed.
Lemma add_sr_count m k : sr_count (add_sr m k) = S (sr_count m).
Proof. unfold sr_count, add_sr. cbn. rewrite length_app. cbn. lia. Qed.
Lemma add_edge_count m : edge_count (add_edge m) = S (edge_count m).
Proof. unfold edge_count, add_edge. cbn. rewrite length_app. cbn. lia. Qed.

#[export] Hint Resolve vm_new_wf read_register_wf write_register_wf set_ip_wf
  set_flags_zero_wf with_call_stack_wf advance_ip_wf write_signal_wf reset_wf
  set_timer_wf set_counter_wf set_sr_wf set_edge_wf add_timer_wf add_counter_wf
  add_sr_wf add_edge_wf grow_loop_wf : hal.
