(* ===== verification/Executor.v ===== *)
(** * The instruction interpreter ([audesys-hal-ir/src/executor.rs])

    One definition per [exec_*] method.  A method runs on the machine and
    returns the new machine with an [ExecutorResult]; [None] is a panic.
    [step] is the debugger-aware single step and [run_to_halt] the unbounded
    loop, run with fuel. *)
From S2P Require Import Prelude Float HalTypes HalValue HalIr FunctionBlocks Vm.
Local Open Scope Z_scope.

Inductive ExecutorResult := Continue | Halted | Breaked.

#[export] Instance ExecutorResult_eq_dec : EqDecision ExecutorResult.
Proof. solve_decision. Defined.

Record TraceEntry := mkTrace { tr_ip : nat; tr_opcode : Opcode; tr_r0 : HalValue }.

Record DebugState := mkDebug {
  debug_mode : bool;
  breakpoints : gset nat;
  trace_buffer : list TraceEntry }.

Definition debug_new : DebugState := mkDebug false ∅ [].

Record Executor := mkExecutor {
  vm : Vm;
  program : HalProgram;
  debug_state : DebugState }.

Definition executor_new (p : HalProgram) : Executor := mkExecutor vm_new p debug_new.

Definition with_vm (e : Executor) (m : Vm) : Executor :=
  mkExecutor m (program e) (debug_state e).
Definition with_debug (e : Executor) (d : DebugState) : Executor :=
  mkExecutor (vm e) (program e) d.

Definition cont (m : Vm) : option (Vm * ExecutorResult) := Some (m, Continue).

Section profile.
Context `{BuildProfile}.

(** ** Operand access *)
Definition read_reg (m : Vm) (o : Operand) : option HalValue :=
  match o with Register r => read_register m r | _ => Some (VS32 0) end.
Definition dest_reg (o : Operand) : nat :=
  match o with Register r => r | _ => 0%nat end.

Definition read_u32_operand (o : option Operand) : Z :=
  match o with
  | Some (Immediate (VU32 v)) => v
  | Some (Immediate (VS32 v)) => wrap_u 32 v
  | _ => 0
  end.

Definition value_as_usize (v : HalValue) : Z :=
  match v with
  | VS32 n | VS16 n | VS8 n | VU32 n | VU16 n | VU8 n | VS64 n | VU64 n => wrap_u 64 n
  | _ => 0
  end.

(** ** Data movement *)
Definition load_value (m : Vm) (o : Operand) : option HalValue :=
  match o with
  | Immediate v => Some v
  | Register r => read_register m r
  | SignalName name => Some (default (VBool false) (read_signal m name))
  end.

Definition exec_load (m : Vm) (ops : list Operand) : option (Vm * ExecutorResult) :=
  match ops with
  | Register dest :: src :: _ =>
      v ← load_value m src; m' ← write_register m dest v; cont m'
  | _ => cont m
  end.

Definition exec_load_index (m : Vm) (ops : list Operand) : option (Vm * ExecutorResult) :=
  match ops with
  | Register dest :: Register array_reg :: Register idx_reg :: _ =>
      array ← read_register m array_reg;
      idx ← read_register m idx_reg;
      elem ← index array (value_as_usize idx);
      m' ← write_register m dest elem; cont m'
  | _ => cont m
  end.

Definition exec_store_index (m : Vm) (ops : list Operand) : option (Vm * ExecutorResult) :=
  match ops with
  | Register array_reg :: Register idx_reg :: Register value_reg :: _ =>
      array ← read_register m array_reg;
      idx ← read_register m idx_reg;
      value ← read_register m value_reg;
      updated ← set_index array (value_as_usize idx) value;
      m' ← write_register m array_reg updated; cont m'
  | _ => cont m
  end.

Definition exec_store (m : Vm) (ops : list Operand) : option (Vm * ExecutorResult) :=
  match ops with
  | SignalName name :: src :: _ => v ← read_reg m src; cont (write_signal m name v)
  | _ => cont m
  end.

(** ** Arithmetic, logic, comparison *)
Definition exec_arith_binop (m : Vm) (ops : list Operand)
    (f : HalValue → HalValue → option HalValue) : option (Vm * ExecutorResult) :=
  match ops with
  | oa :: ob :: oo :: _ =>
      a ← read_reg m oa; b ← read_reg m ob; v ← f a b;
      m' ← write_register m (dest_reg oo) v; cont m'
  | _ => cont m
  end.

Definition exec_unary (m : Vm) (ops : list Operand) (f : HalValue → option HalValue)
  : option (Vm * ExecutorResult) :=
  match ops with
  | oa :: oo :: _ =>
      a ← read_reg m oa; v ← f a; m' ← write_register m (dest_reg oo) v; cont m'
  | _ => cont m
  end.

Definition exec_compare (m : Vm) (ops : list Operand) (f : HalValue → HalValue → bool)
  : option (Vm * ExecutorResult) :=
  match ops with
  | oa :: ob :: _ =>
      a ← read_reg m oa; b ← read_reg m ob; cont (set_flags_zero m (f a b))
  | _ => cont m
  end.

Definition exec_bitwise_not (m : Vm) (ops : list Operand) : option (Vm * ExecutorResult) :=
  exec_unary m ops (fun a => Some (hal_not a)).

(** The zero test in front of [Div] and [Mod]: only [S32], [F32] and [F64]. *)
Definition is_guarded_zero (b : HalValue) : bool :=
  hal_eqb b (VS32 0) || hal_eqb b (VF32 f32_zero) || hal_eqb b (VF64 f64_zero).
Definition guarded_div (a b : HalValue) : option HalValue :=
  if is_guarded_zero b then Some (VS32 0) else hal_div a b.
Definition guarded_rem (a b : HalValue) : option HalValue :=
  if is_guarded_zero b then Some (VS32 0) else hal_rem a b.

Definition value_gt (a b : HalValue) : bool :=
  match hal_partial_cmp a b with Some Gt => true | _ => false end.
Definition value_lt (a b : HalValue) : bool :=
  match hal_partial_cmp a b with Some Lt => true | _ => false end.
Definition value_ge (a b : HalValue) : bool :=
  match hal_partial_cmp a b with Some (Gt | Eq) => true | _ => false end.
Definition value_le (a b : HalValue) : bool :=
  match hal_partial_cmp a b with Some (Lt | Eq) => true | _ => false end.

(** ** Control flow *)
Definition exec_jump (m : Vm) (ops : list Operand) : option (Vm * ExecutorResult) :=
  match ops with
  | Immediate (VU32 target) :: _ => cont (set_ip m (Z.to_nat target))
  | _ => cont m
  end.

Definition exec_jump_if (m : Vm) (ops : list Operand) : option (Vm * ExecutorResult) :=
  match flags_zero m, ops with
  | true, Immediate (VU32 target) :: _ => cont (set_ip m (Z.to_nat target))
  | _, _ => cont (advance_ip m)
  end.

Definition exec_call (m : Vm) (ops : list Operand) : option (Vm * ExecutorResult) :=
  let target := read_u32_operand (head ops) in
  let m' := push_call_ip m (S (ip m)) in
  cont (set_ip m' (Z.to_nat target)).

Definition exec_ret (m : Vm) (ops : list Operand) : option (Vm * ExecutorResult) :=
  match pop_call_ip m with
  | Some (return_ip, m) =>
      m ← match ops with
          | Register r :: _ => v ← read_register m r; write_register m 0 v
          | _ => Some m
          end;
      cont (set_ip m return_ip)
  | None => Some (m, Halted)
  end.

(** ** Function blocks *)
Definition timer_kind_of (ops : list Operand) : TimerKind :=
  match ops with
  | _ :: _ :: _ :: Immediate (VU32 k) :: _ =>
      if k =? 1 then Tof else if k =? 2 then Tp else Ton
  | _ => Ton
  end.

Definition grow_timers (k : TimerKind) : nat → Vm → Vm :=
  grow timer_count (fun m => add_timer m k 0).
Definition grow_counters : nat → Vm → Vm :=
  grow counter_count (fun m => add_counter m Ctu 0).
Definition grow_srs (k : SrKind) : nat → Vm → Vm := grow sr_count (fun m => add_sr m k).
Definition grow_edges : nat → Vm → Vm := grow edge_count add_edge.

Definition preset_operand (o : Operand) : option Z :=
  match o with
  | Immediate (VU32 p) => Some p
  | Immediate (VS32 p) => Some (wrap_u 64 p)
  | _ => None
  end.

Definition exec_timer_run (m : Vm) (ops : list Operand) : option (Vm * ExecutorResult) :=
  match ops with
  | Immediate (VU32 i) :: oin :: opt :: _ =>
      let idx := Z.to_nat i in
      let kind := timer_kind_of ops in
      let m := grow_timers kind idx m in
      match oin, preset_operand opt with
      | Register in_reg, Some pt =>
          v ← read_register m in_reg;
          let in_bool := hal_eqb v (VBool true) in
          t ← timer m idx;
          cont (set_timer m idx (timer_tick t kind pt in_bool (cycle_time_ms m)))
      | _, _ => cont m
      end
  | _ => cont m
  end.

Definition exec_read_timer (m : Vm) (ops : list Operand) : option (Vm * ExecutorResult) :=
  match ops with
  | Immediate (VU32 i) :: oq :: oet :: _ =>
      let idx := Z.to_nat i in
      let m := grow_timers Ton idx m in
      match oq, oet with
      | Register q_dest, Register et_dest =>
          t ← timer m idx;
          m ← write_register m q_dest (VBool (t_q t));
          m ← write_register m et_dest (VU32 (wrap_u 32 (elapsed_ms t)));
          cont m
      | _, _ => cont m
      end
  | _ => cont m
  end.

(** A boolean input: [false] for any other variant. *)
Definition as_bool (v : HalValue) : bool := match v with VBool b => b | _ => false end.

Definition exec_counter_run (m : Vm) (ops : list Operand) : option (Vm * ExecutorResult) :=
  match ops with
  | Immediate (VU32 i) :: ocu :: ocd :: opv :: okind :: _ =>
      let idx := Z.to_nat i in
      let m := grow_counters idx m in
      match ocu, ocd, opv with
      | Register cu_reg, Register cd_reg, Immediate (VU32 p) =>
          let kind_raw := match okind with Immediate (VU32 v) => v | _ => 0 end in
          cu ← read_register m cu_reg;
          cd ← read_register m cd_reg;
          c ← counter m idx;
          let kind := if kind_raw =? 0 then Ctu else if kind_raw =? 1 then Ctd else Ctud in
          c ← counter_tick c kind p (as_bool cu) (as_bool cd);
          cont (set_counter m idx c)
      | _, _, _ => cont m
      end
  | _ => cont m
  end.

Definition exec_read_counter (m : Vm) (ops : list Operand) : option (Vm * ExecutorResult) :=
  match ops with
  | Immediate (VU32 i) :: oq :: ocv :: _ =>
      let idx := Z.to_nat i in
      let m := grow_counters idx m in
      match oq, ocv with
      | Register q_dest, Register cv_dest =>
          c ← counter m idx;
          m ← write_register m q_dest (VBool (c_q c));
          m ← write_register m cv_dest (VU32 (cv c));
          cont m
      | _, _ => cont m
      end
  | _ => cont m
  end.

(** A register operand read as a boolean, [false] for another operand. *)
Definition bool_operand (m : Vm) (o : Operand) : option bool :=
  match o with
  | Register r => v ← read_register m r; Some (as_bool v)
  | _ => Some false
  end.

Definition exec_sr_run (m : Vm) (ops : list Operand) : option (Vm * ExecutorResult) :=
  match ops with
  | Immediate (VU32 i) :: os :: orr :: okind :: _ =>
      let idx := Z.to_nat i in
      set ← bool_operand m os;
      reset ← bool_operand m orr;
      let kind_raw := match okind with Immediate (VU32 k) => k | _ => 0 end in
      let kind := if kind_raw =? 1 then Rs else Sr in
      let m := grow_srs kind idx m in
      s ← sr m idx;
      cont (set_sr m idx (sr_tick s kind set reset))
  | _ => cont m
  end.

Definition exec_read_sr (m : Vm) (ops : list Operand) : option (Vm * ExecutorResult) :=
  match ops with
  | Immediate (VU32 i) :: o1 :: o2 :: _ =>
      let idx := Z.to_nat i in
      let m := grow_srs Sr idx m in
      match o1, o2 with
      | Register q1_dest, Register q2_dest =>
          s ← sr m idx;
          m ← write_register m q1_dest (VBool (q1 s));
          m ← write_register m q2_dest (VBool (q2 s));
          cont m
      | _, _ => cont m
      end
  | _ => cont m
  end.

Definition exec_edge_run (m : Vm) (ops : list Operand) : option (Vm * ExecutorResult) :=
  match ops with
  | Immediate (VU32 i) :: oclk :: okind :: _ =>
      let idx := Z.to_nat i in
      clk ← bool_operand m oclk;
      let kind := match okind with Immediate (VU32 k) => wrap_u 8 k | _ => 0 end in
      let m := grow_edges idx m in
      e ← edge m idx;
      cont (set_edge m idx (edge_tick e kind clk))
  | _ => cont m
  end.

Definition exec_read_edge (m : Vm) (ops : list Operand) : option (Vm * ExecutorResult) :=
  match ops with
  | Immediate (VU32 i) :: oq :: _ =>
      let idx := Z.to_nat i in
      let m := grow_edges idx m in
      match oq with
      | Register q_dest =>
          e ← edge m idx;
          m ← write_register m q_dest (VBool (e_q e));
          cont m
      | _ => cont m
      end
  | _ => cont m
  end.

(** ** Dispatch *)
Definition execute_instruction (m : Vm) (i : Instruction) : option (Vm * ExecutorResult) :=
  let ops := operands i in
  match opcode i with
  | OpNop => cont m
  | OpStore => exec_store m ops
  | OpLoadIndex => exec_load_index m ops
  | OpStoreIndex => exec_store_index m ops
  | OpLoad => exec_load m ops
  | OpAdd => exec_arith_binop m ops hal_add
  | OpSub => exec_arith_binop m ops hal_sub
  | OpMul => exec_arith_binop m ops hal_mul
  | OpDiv => exec_arith_binop m ops guarded_div
  | OpMod => exec_arith_binop m ops guarded_rem
  | OpNeg => exec_unary m ops hal_neg
  | OpEq => exec_compare m ops hal_eqb
  | OpNeq => exec_compare m ops (fun a b => negb (hal_eqb a b))
  | OpGt => exec_compare m ops value_gt
  | OpLt => exec_compare m ops value_lt
  | OpGte => exec_compare m ops value_ge
  | OpLte => exec_compare m ops value_le
  | OpAnd => exec_arith_binop m ops (fun a b => Some (hal_and a b))
  | OpOr => exec_arith_binop m ops (fun a b => Some (hal_or a b))
  | OpXor => exec_arith_binop m ops (fun a b => Some (hal_xor a b))
  | OpNot => exec_bitwise_not m ops
  | OpJump => exec_jump m ops
  | OpJumpIf => exec_jump_if m ops
  | OpCall => exec_call m ops
  | OpRet => exec_ret m ops
  | OpTimerRun => exec_timer_run m ops
  | OpReadTimer => exec_read_timer m ops
  | OpCounterRun => exec_counter_run m ops
  | OpReadCounter => exec_read_counter m ops
  | OpSrRun => exec_sr_run m ops
  | OpReadSr => exec_read_sr m ops
  | OpEdgeRun => exec_edge_run m ops
  | OpReadEdge => exec_read_edge m ops
  | OpHalt => Some (m, Halted)
  end.

(** The opcodes after which [step] leaves the instruction pointer alone. *)
Definition is_jump (op : Opcode) : bool :=
  match op with OpJump | OpJumpIf | OpCall => true | _ => false end.

(** ** Stepping *)
Definition at_breakpoint (e : Executor) : bool :=
  debug_mode (debug_state e) && bool_decide (ip (vm e) ∈ breakpoints (debug_state e)).

(** The part of [step] after the breakpoint check. *)
Definition step_instruction (e : Executor) (i : Instruction)
  : option (Executor * ExecutorResult) :=
  '(m, res) ← execute_instruction (vm e) i;
  d ← (if debug_mode (debug_state e) then
         r0 ← read_register m 0;
         Some (mkDebug true (breakpoints (debug_state e))
                 (trace_buffer (debug_state e) ++ [mkTrace (ip (vm e)) (opcode i) r0]))
       else Some (debug_state e));
  let m := if is_jump (opcode i) then m else advance_ip m in
  Some (mkExecutor m (program e) d, res).

Definition step (e : Executor) : option (Executor * ExecutorResult) :=
  i ← instructions (program e) !! ip (vm e);
  if at_breakpoint e then Some (e, Breaked) else step_instruction e i.

Definition executor_reset (e : Executor) : Executor := with_vm e (reset (vm e)).

Inductive outcome :=
  | Done (e : Executor) (steps : nat)
  | Panicked
  | OutOfFuel.

Fixpoint run_loop (fuel : nat) (e : Executor) (steps : nat) : outcome :=
  match fuel with
  | O => OutOfFuel
  | S fuel =>
      match step e with
      | None => Panicked
      | Some (e, Halted) => Done e (steps + 1)
      | Some (e, Continue) => run_loop fuel e (steps + 1)
      | Some (e, Breaked) => Done e (steps + 1)
      end
  end.

Definition run_to_halt (fuel : nat) (e : Executor) : outcome := run_loop fuel e 0.

(** ** Debugging *)
Definition set_debug_mode (e : Executor) (b : bool) : Executor :=
  with_debug e (mkDebug b (breakpoints (debug_state e)) (trace_buffer (debug_state e))).
Definition enable_debug (e : Executor) : Executor := set_debug_mode e true.
Definition disable_debug (e : Executor) : Executor := set_debug_mode e false.
Definition is_debug_enabled (e : Executor) : bool := debug_mode (debug_state e).

Definition with_breakpoints (e : Executor) (s : gset nat) : Executor :=
  with_debug e (mkDebug (debug_mode (debug_state e)) s (trace_buffer (debug_state e))).
Definition add_breakpoint (e : Executor) (i : nat) : Executor * bool :=
  (with_breakpoints e ({[ i ]} ∪ breakpoints (debug_state e)),
   negb (bool_decide (i ∈ breakpoints (debug_state e)))).
Definition remove_breakpoint (e : Executor) (i : nat) : Executor * bool :=
  (with_breakpoints e (breakpoints (debug_state e) ∖ {[ i ]}),
   bool_decide (i ∈ breakpoints (debug_state e))).
Definition list_breakpoints (e : Executor) : list nat :=
  merge_sort Nat.le (elements (breakpoints (debug_state e))).
Definition clear_breakpoints (e : Executor) : Executor := with_breakpoints e ∅.
Definition clear_trace (e : Executor) : Executor :=
  with_debug e (mkDebug (debug_mode (debug_state e)) (breakpoints (debug_state e)) []).

(** One step with the debugger off, then on again. *)
Definition resume (e : Executor) : option (Executor * ExecutorResult) :=
  '(e, res) ← step (disable_debug e); Some (enable_debug e, res).
End profile.
