(* ===== verification/ExecutorFacts.v ===== *)
(** * Properties of the interpreter

    Type preservation by every method of the machine, the executors the public
    API can build, and the runs of [run_to_halt]. *)
From S2P Require Import Prelude Float HalTypes HalValue HalIr FunctionBlocks Vm Executor.
Local Open Scope Z_scope.

Section facts.
Context `{BuildProfile}.

(** ** Preservation of machine well-formedness, one lemma per method *)

(** Take apart an [exec_*] run that ended in [Some]. *)
Ltac exec_inv H :=
  repeat first
    [ progress inv_bind H
    | progress simplify_option_eq
    | case_match_in H; simplify_eq; try done ].

Lemma read_reg_wf m o v : vm_wf m → read_reg m o = Some v → hal_wf v = true.
Proof. intros Hm. destruct o; cbn; intros Hv; simplify_eq; eauto with hal. Qed.

Lemma load_value_wf m o v :
  vm_wf m → operand_wf o = true → load_value m o = Some v → hal_wf v = true.
Proof.
  intros Hm Ho. destruct o; cbn in *; intros Hv; simplify_eq; eauto with hal.
  unfold read_signal. destruct (signals m !! s) eqn:E; [|done]. cbn.
  exact (map_Forall_lookup_1 _ _ _ _ (vm_wf_signals m Hm) E).
Qed.

Lemma grow_timers_wf k i m : vm_wf m → vm_wf (grow_timers k i m).
Proof. unfold grow_timers, grow. auto with hal. Qed.
Lemma grow_counters_wf i m : vm_wf m → vm_wf (grow_counters i m).
Proof. unfold grow_counters, grow. auto with hal. Qed.
Lemma grow_srs_wf k i m : vm_wf m → vm_wf (grow_srs k i m).
Proof. unfold grow_srs, grow. auto with hal. Qed.
Lemma grow_edges_wf i m : vm_wf m → vm_wf (grow_edges i m).
Proof. unfold grow_edges, grow. auto with hal. Qed.
Local Hint Resolve grow_timers_wf grow_counters_wf grow_srs_wf grow_edges_wf : hal.

Lemma timer_lookup_wf m i t : vm_wf m → timer m i = Some t → timer_wf t = true.
Proof. intros Hm Ht. exact (proj1 (Forall_lookup _ _) (vm_wf_timers m Hm) i t Ht). Qed.
Lemma counter_lookup_wf m i c : vm_wf m → counter m i = Some c → counter_wf c = true.
Proof. intros Hm Ht. exact (proj1 (Forall_lookup _ _) (vm_wf_counters m Hm) i c Ht). Qed.

Lemma timer_tick_wf t kind pt b cycle :
  timer_wf t = true → in_u 64 pt = true → in_u 64 cycle = true →
  timer_wf (timer_tick t kind pt b cycle) = true.
Proof.
  unfold timer_wf. rewrite !andb_true_iff, !in_u_spec. intros [He _] Hp Hc.
  destruct (timer_tick_bounds t kind pt b cycle) as (? & -> & _); [lia..|]. lia.
Qed.

Lemma hal_binop_ops_wf f :
  f ∈ hal_arith_ops → ∀ a b r, hal_wf a = true → hal_wf b = true → f a b = Some r →
  hal_wf r = true.
Proof. intros Hf a b r Ha Hb Hr. by eapply (hal_arith_ops_wf f a b). Qed.

Lemma guarded_div_wf a b r :
  hal_wf a = true → hal_wf b = true → guarded_div a b = Some r → hal_wf r = true.
Proof.
  unfold guarded_div. destruct (is_guarded_zero b); [by intros _ _ [= <-]|].
  apply hal_binop_ops_wf. unfold hal_arith_ops. set_solver.
Qed.
Lemma guarded_rem_wf a b r :
  hal_wf a = true → hal_wf b = true → guarded_rem a b = Some r → hal_wf r = true.
Proof.
  unfold guarded_rem. destruct (is_guarded_zero b); [by intros _ _ [= <-]|].
  apply hal_binop_ops_wf. unfold hal_arith_ops. set_solver.
Qed.

Lemma index_wf a i v : hal_wf a = true → index a i = Some v → hal_wf v = true.
Proof.
  destruct a; cbn; intros Ha Hv; simplify_eq; try done.
  exec_inv Hv; try apply zero_wf.
  eapply from_bytes_wf; [|exact Hv].
  unfold slice_z, slice in *. repeat case_match; simplify_eq. auto with hal.
Qed.

Lemma set_index_wf a i v r :
  hal_wf a = true → hal_wf v = true → set_index a i v = Some r → hal_wf r = true.
Proof.
  destruct a; cbn; intros Ha Hv Hr; simplify_eq; try done.
  exec_inv Hr; try done. cbn. unfold splice. rewrite !bytes_wf_app.
  pose proof (to_bytes_wf v Hv).
  unfold slice in *. repeat case_match; simplify_eq. auto 10 with hal.
Qed.

Lemma exec_arith_binop_wf m ops f m' res :
  (∀ a b r, hal_wf a = true → hal_wf b = true → f a b = Some r → hal_wf r = true) →
  vm_wf m → exec_arith_binop m ops f = Some (m', res) → vm_wf m'.
Proof.
  intros Hf Hm. unfold exec_arith_binop, cont. intros He. exec_inv He; try done.
  eapply write_register_wf; [done| |done]. eapply Hf; [| |done]; by eapply read_reg_wf.
Qed.

Lemma exec_unary_wf m ops f m' res :
  (∀ a r, hal_wf a = true → f a = Some r → hal_wf r = true) →
  vm_wf m → exec_unary m ops f = Some (m', res) → vm_wf m'.
Proof.
  intros Hf Hm. unfold exec_unary, cont. intros He. exec_inv He; try done.
  eapply write_register_wf; [done| |done]. eapply Hf; [|done]; by eapply read_reg_wf.
Qed.

Lemma exec_compare_wf m ops f m' res :
  vm_wf m → exec_compare m ops f = Some (m', res) → vm_wf m'.
Proof. intros Hm. unfold exec_compare, cont. intros He. exec_inv He; auto with hal. Qed.

Lemma exec_timer_run_wf m ops m' res :
  vm_wf m → forallb operand_wf ops = true →
  exec_timer_run m ops = Some (m', res) → vm_wf m'.
Proof.
  intros Hm Ho. unfold exec_timer_run, cont. intros He.
  destruct ops as [|[|[]|] [|oin [|opt rest]]]; simplify_eq; auto.
  set (m1 := grow_timers _ _ m) in *.
  assert (vm_wf m1) as Hm1 by by apply grow_timers_wf.
  assert (Hpt : ∀ pt, preset_operand opt = Some pt → in_u 64 pt = true).
  { cbn in Ho. breflect. intros pt. destruct opt as [|[]|]; cbn in *; intros [= <-];
      auto with hal. rewrite in_u_spec in *. lia. }
  exec_inv He; try done. apply set_timer_wf; [done|].
  apply timer_tick_wf; eauto using timer_lookup_wf. apply (vm_wf_cycle m1 Hm1).
Qed.

Lemma exec_counter_run_wf m ops m' res :
  vm_wf m → forallb operand_wf ops = true →
  exec_counter_run m ops = Some (m', res) → vm_wf m'.
Proof.
  intros Hm Ho. unfold exec_counter_run, cont. intros He.
  destruct ops as [|[|[]|] [|ocu [|ocd [|opv [|okind rest]]]]]; simplify_eq; auto.
  set (m1 := grow_counters _ m) in *.
  assert (vm_wf m1) as Hm1 by by apply grow_counters_wf.
  destruct ocu, ocd, opv as [|[]|]; simplify_eq; auto.
  inv_bind He. simplify_eq. apply set_counter_wf; [done|].
  match goal with Ht : counter_tick _ _ _ _ _ = Some _ |- _ =>
    apply counter_tick_wf in Ht as [Hcv Hpv] end.
  - unfold counter_wf. rewrite Hcv, Hpv. cbn in Ho. breflect. done.
  - eapply counter_lookup_wf in Hm1; [|done]. unfold counter_wf in Hm1. by breflect.
  - cbn in Ho. by breflect.
Qed.

(** Chain the preservation lemmas through the updates of a method. *)
Ltac wf_chain :=
  repeat first
    [ assumption
    | apply grow_timers_wf | apply grow_counters_wf | apply grow_srs_wf | apply grow_edges_wf
    | apply set_sr_wf | apply set_edge_wf | apply set_ip_wf | apply advance_ip_wf
    | apply with_call_stack_wf
    | eapply write_register_wf; [| |eassumption] ].
Ltac exec_wf := intros He; exec_inv He; wf_chain; try done.

Lemma exec_read_timer_wf m ops m' res :
  vm_wf m → exec_read_timer m ops = Some (m', res) → vm_wf m'.
Proof.
  intros Hm. unfold exec_read_timer, cont. exec_wf. cbn -[Z.pow]. by apply wrap_u_in.
Qed.

Lemma exec_read_counter_wf m ops m' res :
  vm_wf m → exec_read_counter m ops = Some (m', res) → vm_wf m'.
Proof.
  intros Hm. unfold exec_read_counter, cont. exec_wf.
  match goal with Hc : counter _ _ = Some _ |- _ => apply counter_lookup_wf in Hc end;
    [|by apply grow_counters_wf]. unfold counter_wf in *. by breflect.
Qed.

Lemma exec_read_sr_wf m ops m' res :
  vm_wf m → exec_read_sr m ops = Some (m', res) → vm_wf m'.
Proof. intros Hm. unfold exec_read_sr, cont. exec_wf. Qed.

Lemma exec_read_edge_wf m ops m' res :
  vm_wf m → exec_read_edge m ops = Some (m', res) → vm_wf m'.
Proof. intros Hm. unfold exec_read_edge, cont. exec_wf. Qed.

Lemma exec_sr_run_wf m ops m' res :
  vm_wf m → exec_sr_run m ops = Some (m', res) → vm_wf m'.
Proof. intros Hm. unfold exec_sr_run, cont. exec_wf. Qed.

Lemma exec_edge_run_wf m ops m' res :
  vm_wf m → exec_edge_run m ops = Some (m', res) → vm_wf m'.
Proof. intros Hm. unfold exec_edge_run, cont. exec_wf. Qed.

Lemma exec_load_wf m ops m' res :
  vm_wf m → forallb operand_wf ops = true → exec_load m ops = Some (m', res) → vm_wf m'.
Proof.
  intros Hm Ho. unfold exec_load, cont.
  destruct ops as [|[] [|src rest]]; try (by intros [= <- <-]).
  cbn in Ho. breflect. exec_wf. by eapply load_value_wf.
Qed.

Lemma exec_load_index_wf m ops m' res :
  vm_wf m → exec_load_index m ops = Some (m', res) → vm_wf m'.
Proof.
  intros Hm. unfold exec_load_index, cont. exec_wf.
  eapply index_wf; [|done]. by eapply read_register_wf.
Qed.

Lemma exec_store_index_wf m ops m' res :
  vm_wf m → exec_store_index m ops = Some (m', res) → vm_wf m'.
Proof.
  intros Hm. unfold exec_store_index, cont. exec_wf.
  eapply set_index_wf; [| |done]; by eapply read_register_wf.
Qed.

Lemma exec_store_wf m ops m' res :
  vm_wf m → exec_store m ops = Some (m', res) → vm_wf m'.
Proof.
  intros Hm. unfold exec_store, cont. exec_wf.
  apply write_signal_wf; [done|]. by eapply read_reg_wf.
Qed.

Lemma exec_ret_wf m ops m' res : vm_wf m → exec_ret m ops = Some (m', res) → vm_wf m'.
Proof.
  intros Hm. unfold exec_ret, pop_call_ip, cont. destruct (call_stack m); [by intros [= <- <-]|].
  set (m1 := with_call_stack m l). assert (vm_wf m1) as Hm1 by by apply with_call_stack_wf.
  intros He. apply bind_Some in He as (m2 & He & [= <- <-]). apply set_ip_wf.
  destruct ops as [|[] ops]; simplify_eq; auto.
  inv_bind He. eapply write_register_wf; [| |done]; [done|]. by eapply read_register_wf.
Qed.

Lemma execute_instruction_wf m i m' res :
  vm_wf m → inst_wf i = true → execute_instruction m i = Some (m', res) → vm_wf m'.
Proof.
  intros Hm Hi. unfold inst_wf in Hi. unfold execute_instruction.
  assert (Hops : ∀ f, f ∈ hal_arith_ops → exec_arith_binop m (operands i) f = Some (m', res) →
            vm_wf m').
  { intros f Hf. apply exec_arith_binop_wf; [|done]. by apply hal_binop_ops_wf. }
  unfold hal_arith_ops in Hops.
  destruct (opcode i); intros He;
    try (eapply Hops; [|exact He]; set_solver);
    try (injection He as <- <-; exact Hm).
  all: try solve [ eapply exec_compare_wf; [exact Hm | exact He] ].
  all: try solve [ unfold exec_jump, exec_jump_if, exec_call, push_call_ip, cont in He;
                   exec_inv He; wf_chain ].
  - by eapply exec_load_wf.
  - by eapply exec_store_wf.
  - eapply exec_arith_binop_wf; [apply guarded_div_wf | exact Hm | exact He].
  - eapply exec_arith_binop_wf; [apply guarded_rem_wf | exact Hm | exact He].
  - eapply exec_unary_wf; [|exact Hm|exact He]. intros a r _. apply hal_neg_wf.
  - eapply exec_arith_binop_wf; [|exact Hm|exact He].
    intros a b r ?? [= <-]. by apply hal_and_wf.
  - eapply exec_arith_binop_wf; [|exact Hm|exact He].
    intros a b r ?? [= <-]. by apply hal_or_wf.
  - eapply exec_arith_binop_wf; [|exact Hm|exact He].
    intros a b r ?? [= <-]. by apply hal_xor_wf.
  - eapply exec_unary_wf; [|exact Hm|exact He]. intros a r ? [= <-]. by apply hal_not_wf.
  - by eapply exec_ret_wf.
  - by eapply exec_load_index_wf.
  - by eapply exec_store_index_wf.
  - by eapply exec_timer_run_wf.
  - by eapply exec_read_timer_wf.
  - by eapply exec_counter_run_wf.
  - by eapply exec_read_counter_wf.
  - by eapply exec_sr_run_wf.
  - by eapply exec_read_sr_wf.
  - by eapply exec_edge_run_wf.
  - by eapply exec_read_edge_wf.
Qed.

(** ** Steps *)
Lemma step_inv e e' res :
  step e = Some (e', res) →
  ∃ i, instructions (program e) !! ip (vm e) = Some i ∧
    ((at_breakpoint e = true ∧ e' = e ∧ res = Breaked) ∨
     (at_breakpoint e = false ∧ step_instruction e i = Some (e', res))).
Proof.
  unfold step. intros Hs. apply bind_Some in Hs as (i & Hi & Hs). exists i.
  split; [done|]. destruct (at_breakpoint e); [left; by simplify_eq | by right].
Qed.

Lemma step_instruction_inv e i e' res :
  step_instruction e i = Some (e', res) →
  ∃ m d, execute_instruction (vm e) i = Some (m, res) ∧
    e' = mkExecutor (if is_jump (opcode i) then m else advance_ip m) (program e) d ∧
    (debug_mode (debug_state e) = false ∧ d = debug_state e ∨
     debug_mode (debug_state e) = true ∧ ∃ r0, read_register m 0 = Some r0 ∧
       d = mkDebug true (breakpoints (debug_state e))
             (trace_buffer (debug_state e) ++ [mkTrace (ip (vm e)) (opcode i) r0])).
Proof.
  unfold step_instruction. intros Hs. apply bind_Some in Hs as ([m r] & Hm & Hs).
  apply bind_Some in Hs as (d & Hd & Hs). simplify_eq. exists m, d.
  split; [done|]. split; [done|]. destruct (debug_mode (debug_state e)); [right | left; by simplify_eq].
  inv_bind Hd. simplify_eq. eauto.
Qed.

Lemma lookup_inst_wf p n i :
  program_wf p = true → instructions p !! n = Some i → inst_wf i = true.
Proof.
  unfold program_wf. rewrite forallb_forall. intros Hp Hi. apply Hp.
  apply list_elem_of_In. by eapply list_elem_of_lookup_2.
Qed.

Lemma step_wf e e' res :
  program_wf (program e) = true → vm_wf (vm e) → step e = Some (e', res) →
  vm_wf (vm e') ∧ program e' = program e.
Proof.
  intros Hp Hm Hs. apply step_inv in Hs as (i & Hi & [(_ & -> & ->) | (_ & Hs)]); [done|].
  apply step_instruction_inv in Hs as (m & d & He & -> & _). split; [|done]. cbn.
  apply execute_instruction_wf in He; [|done|by eapply lookup_inst_wf].
  destruct (is_jump _); [done | by apply advance_ip_wf].
Qed.

(** ** Reachable executors: what the public API can build *)

(** A call of a public method of [Vm] that changes it, as [Executor::vm_mut]
    hands it out; the [_mut] accessors give any state of the block's type. *)
Inductive vm_call (m : Vm) : Vm → Prop :=
  | call_write_register i v m' : hal_wf v = true → write_register m i v = Some m' → vm_call m m'
  | call_set_flags_zero b : vm_call m (set_flags_zero m b)
  | call_set_ip i : vm_call m (set_ip m i)
  | call_advance_ip : vm_call m (advance_ip m)
  | call_reset_ip : vm_call m (reset_ip m)
  | call_reset : vm_call m (reset m)
  | call_push i : vm_call m (push_call_ip m i)
  | call_pop i m' : pop_call_ip m = Some (i, m') → vm_call m m'
  | call_write_signal n v : hal_wf v = true → vm_call m (write_signal m n v)
  | call_set_cycle_time ms : in_u 64 ms = true → vm_call m (set_cycle_time m ms)
  | call_add_timer k p : in_u 64 p = true → vm_call m (add_timer m k p)
  | call_timer_mut i t : timer_wf t = true → vm_call m (set_timer m i t)
  | call_add_counter k p : in_u 32 p = true → vm_call m (add_counter m k p)
  | call_counter_mut i c : counter_wf c = true → vm_call m (set_counter m i c)
  | call_add_sr k : vm_call m (add_sr m k)
  | call_sr_mut i s : vm_call m (set_sr m i s)
  | call_add_edge : vm_call m (add_edge m)
  | call_edge_mut i e : vm_call m (set_edge m i e).

(** [vm_mut] also lets the caller replace the machine: by a new one, or by a
    clone of the machine of another executor. *)
Inductive reachable : HalProgram → Executor → Prop :=
  | reach_new p : reachable p (executor_new p)
  | reach_step p e e' res : reachable p e → step e = Some (e', res) → reachable p e'
  | reach_reset p e : reachable p e → reachable p (executor_reset e)
  | reach_debug p e b : reachable p e → reachable p (set_debug_mode e b)
  | reach_breakpoints p e s : reachable p e → reachable p (with_breakpoints e s)
  | reach_clear_trace p e : reachable p e → reachable p (clear_trace e)
  | reach_vm_mut p e m : reachable p e → vm_call (vm e) m → reachable p (with_vm e m)
  | reach_vm_replaced p e q e' : reachable p e → program_wf q = true → reachable q e' →
      reachable p (with_vm e (vm e')).

Lemma vm_call_wf m m' : vm_wf m → vm_call m m' → vm_wf m'.
Proof.
  intros Hm Hc. destruct Hc; eauto with hal; try (by destruct Hm).
  - unfold pop_call_ip in *. case_match; simplify_eq. by apply with_call_stack_wf.
  - destruct Hm. split; cbn; auto. apply Forall_app. split; [done|]. constructor; [|constructor].
    unfold timer_wf. cbn. by apply andb_true_iff.
  - destruct Hm. split; cbn; auto. apply Forall_app. split; [done|]. constructor; [|constructor].
    unfold counter_wf. cbn. by apply andb_true_iff.
Qed.

(** A trace entry names an instruction of the program. *)
Definition trace_ok (p : HalProgram) (t : TraceEntry) : Prop :=
  ∃ i, instructions p !! tr_ip t = Some i ∧ opcode i = tr_opcode t.

Lemma step_trace_ok e e' res :
  step e = Some (e', res) →
  Forall (trace_ok (program e)) (trace_buffer (debug_state e)) →
  Forall (trace_ok (program e')) (trace_buffer (debug_state e')).
Proof.
  intros Hs Ht. apply step_inv in Hs as (i & Hi & [(_ & -> & ->) | (_ & Hs)]); [done|].
  apply step_instruction_inv in Hs as (m & d & He & -> & [[_ ->] | (_ & r0 & _ & ->)]); cbn;
    [done|].
  apply Forall_app. split; [done|]. constructor; [|done]. by exists i.
Qed.

(** [C1] Machine invariant: whatever is built from [Executor::new] of a
    well-formed program through the public methods of the executor and, behind
    [vm_mut], of the machine - steps, resets, debugger calls, writes of
    registers, flag, instruction pointer, call stack, signals, cycle time and
    function blocks, replacement of the machine by another - has exactly 16
    registers, all registers, signals, timers and counters in the range of their
    Rust types, the program it was created with, and a trace whose entries name
    instructions of that program. *)
Theorem reachable_invariant p e :
  program_wf p = true → reachable p e →
  vm_wf (vm e) ∧ program e = p ∧ Forall (trace_ok p) (trace_buffer (debug_state e)).
Proof.
  intros Hp Hr. revert Hp. induction Hr as
    [p|p e e' res _ IH Hs|p e _ IH|p e b _ IH|p e s _ IH|p e _ IH|p e m _ IH Hc|p e q e' _ IH Hq _ IH']; intros Hp;
    try specialize (IH Hp); try (destruct IH as (Hm & He & Ht)); try tauto.
  - split; [apply vm_new_wf | by split].
  - pose proof (step_trace_ok e e' res Hs) as Htr.
    apply step_wf in Hs as [Hm' Hp']; [|by rewrite He|done].
    rewrite Hp', He in *. auto.
  - split; [by apply reset_wf | done].
  - split; [done|]. split; [done|]. constructor.
  - split; [by eapply vm_call_wf | done].
Qed.

(** ** The run loop *)

(** [n] consecutive [Continue] steps. *)
Inductive continues : nat → Executor → Executor → Prop :=
  | continues_O e : continues 0 e e
  | continues_S n e e1 e' :
      step e = Some (e1, Continue) → continues n e1 e' → continues (S n) e e'.

Lemma run_loop_sound fuel e k e' steps :
  run_loop fuel e k = Done e' steps →
  ∃ n e1 res, continues n e e1 ∧ step e1 = Some (e', res) ∧ res ≠ Continue ∧
    steps = (k + n + 1)%nat ∧ (n < fuel)%nat.
Proof.
  revert e k. induction fuel as [|fuel IH]; intros e k; cbn; [done|].
  destruct (step e) as [[e1 []]|] eqn:Es; [| | |done]; intros Hr.
  - apply IH in Hr as (n & e2 & res & Hc & Hs & Hne & -> & Hf).
    exists (S n), e2, res. split; [by econstructor|]. repeat split; auto; lia.
  - simplify_eq. exists 0%nat, e, Halted. split; [constructor|]. repeat split; auto; lia.
  - simplify_eq. exists 0%nat, e, Breaked. split; [constructor|]. repeat split; auto; lia.
Qed.

Lemma run_loop_complete n e e1 e' res k fuel :
  continues n e e1 → step e1 = Some (e', res) → res ≠ Continue → (n < fuel)%nat →
  run_loop fuel e k = Done e' (k + n + 1).
Proof.
  intros Hc. revert k fuel. induction Hc as [e | n e e2 e1 Hs Hc IH]; intros k fuel Hr Hne Hf;
    (destruct fuel as [|fuel]; [lia|]); cbn.
  - rewrite Hr. destruct res; [done|..]; f_equal; lia.
  - rewrite Hs. rewrite (IH (k + 1)%nat fuel); [f_equal; lia | done | done | lia].
Qed.

End facts.

(** ** Witnesses *)
Definition sample_program : HalProgram :=
  program_new "sample" [load_imm 0 (VU8 7); mkInst OpStore [SignalName "out"; Register 0]; halt].

(** A new executor whose register 3 and instruction pointer are then set from
    outside. *)
Definition poked_machine : Vm := with_registers vm_new (<[3%nat := VU8 7]> (registers vm_new)).
Definition poked_executor : Executor :=
  with_vm (with_vm (executor_new sample_program) poked_machine) (set_ip poked_machine 1).
Lemma poked_reachable : reachable (H := debug_profile) sample_program poked_executor.
Proof.
  apply reach_vm_mut; [|apply (call_set_ip poked_machine)]. apply reach_vm_mut; [apply reach_new|].
  by apply (call_write_register vm_new 3 (VU8 7)).
Defined.

Lemma reachable_invariant_witness :
  ip (vm poked_executor) = 1%nat ∧ read_register (vm poked_executor) 3 = Some (VU8 7) ∧
  vm_wf (vm poked_executor) ∧ program poked_executor = sample_program.
Proof.
  split; [reflexivity|]. split; [reflexivity|].
  exact (let H := reachable_invariant (H := debug_profile) sample_program poked_executor eq_refl poked_reachable
    in conj (proj1 H) (proj1 (proj2 H))).
Defined.
