(* ===== verification/ExecutorControl.v ===== *)
(** * Control flow, termination and debugging of the interpreter

    What instructions leave alone, halting, breakpoints and resuming, and whole
    debug sessions against the run without debugger. *)
From S2P Require Import Prelude Float HalTypes HalValue HalIr FunctionBlocks Vm.
From S2P Require Import Executor ExecutorFacts.
Local Open Scope Z_scope.

Section control.
Context `{BuildProfile}.

(** ** What an instruction leaves alone *)

Lemma grow_loop_frame {A} (f : Vm → A) fuel count add i m :
  (∀ m, f (add m) = f m) → f (grow_loop fuel count add i m) = f m.
Proof.
  intros Hadd. revert m. induction fuel as [|n IH]; intros m; [done|]. cbn.
  destruct (_ <=? _)%nat; [|done]. by rewrite IH.
Qed.

Lemma grow_frame {A} (f : Vm → A) count add i m :
  (∀ m, f (add m) = f m) → f (grow count add i m) = f m.
Proof. apply grow_loop_frame. Qed.

(** The observables no function block, load or arithmetic method touches. *)
Definition control_of (m : Vm) : nat * list nat * gmap string HalValue :=
  (ip m, call_stack m, signals m).

Lemma control_grow_timers k i m : control_of (grow_timers k i m) = control_of m.
Proof. by apply (grow_frame control_of). Qed.
Lemma control_grow_counters i m : control_of (grow_counters i m) = control_of m.
Proof. by apply (grow_frame control_of). Qed.
Lemma control_grow_srs k i m : control_of (grow_srs k i m) = control_of m.
Proof. by apply (grow_frame control_of). Qed.
Lemma control_grow_edges i m : control_of (grow_edges i m) = control_of m.
Proof. by apply (grow_frame control_of). Qed.

Lemma control_write m i v m' : write_register m i v = Some m' → control_of m' = control_of m.
Proof.
  intros Hw. apply write_register_frame in Hw as (Hi & _ & Hs & Hc).
  unfold control_of. congruence.
Qed.

(** The opcodes that write neither the instruction pointer, nor the call
    stack, nor a signal. *)
Definition is_data_op (op : Opcode) : bool :=
  match op with OpStore | OpJump | OpJumpIf | OpCall | OpRet => false | _ => true end.

Lemma control_timer_run m ops m' res :
  exec_timer_run m ops = Some (m', res) → control_of m' = control_of m.
Proof.
  unfold exec_timer_run, cont. intros He.
  destruct ops as [|[|[]|] [|oin [|opt rest]]]; simplify_eq; auto.
  set (m1 := grow_timers _ _ m) in *.
  transitivity (control_of m1); [|by apply control_grow_timers].
  destruct oin, (preset_operand opt); simplify_eq; auto.
  inv_bind He. by simplify_eq.
Qed.

Lemma control_counter_run m ops m' res :
  exec_counter_run m ops = Some (m', res) → control_of m' = control_of m.
Proof.
  unfold exec_counter_run, cont. intros He.
  destruct ops as [|[|[]|] [|ocu [|ocd [|opv [|okind rest]]]]]; simplify_eq; auto.
  set (m1 := grow_counters _ m) in *.
  transitivity (control_of m1); [|by apply control_grow_counters].
  destruct ocu, ocd, opv as [|[]|]; simplify_eq; auto.
  inv_bind He. by simplify_eq.
Qed.

Lemma control_sr_run m ops m' res :
  exec_sr_run m ops = Some (m', res) → control_of m' = control_of m.
Proof.
  unfold exec_sr_run, cont. intros He.
  destruct ops as [|[|[]|] [|os [|orr [|okind rest]]]]; simplify_eq; auto.
  inv_bind He. injection He as <- <-. 
  transitivity (control_of (grow_srs (if match okind with Immediate (VU32 k) => k | _ => 0 end =? 1
    then Rs else Sr) (Z.to_nat n) m)); [done | apply control_grow_srs].
Qed.

Lemma control_edge_run m ops m' res :
  exec_edge_run m ops = Some (m', res) → control_of m' = control_of m.
Proof.
  unfold exec_edge_run, cont. intros He.
  destruct ops as [|[|[]|] [|oclk [|okind rest]]]; simplify_eq; auto.
  inv_bind He. injection He as <- <-.
  transitivity (control_of (grow_edges (Z.to_nat n) m)); [done | apply control_grow_edges].
Qed.

(** A method made of register writes after a growth. *)
Ltac control_reads :=
  intros He;
  repeat first [ progress inv_bind He | case_match_in He; simplify_eq; try done ];
  simplify_eq;
  repeat match goal with Hw : write_register _ _ _ = Some _ |- _ => apply control_write in Hw end;
  rewrite ?control_grow_timers, ?control_grow_counters, ?control_grow_srs,
    ?control_grow_edges in *; first [ done | congruence ].

Lemma control_data_op m i m' res :
  is_data_op (opcode i) = true → execute_instruction m i = Some (m', res) →
  control_of m' = control_of m.
Proof.
  assert (Hbin : ∀ f, exec_arith_binop m (operands i) f = Some (m', res) →
            control_of m' = control_of m).
  { intros f. unfold exec_arith_binop, cont. control_reads. }
  assert (Hun : ∀ f, exec_unary m (operands i) f = Some (m', res) → control_of m' = control_of m).
  { intros f. unfold exec_unary, cont. control_reads. }
  assert (Hcmp : ∀ f, exec_compare m (operands i) f = Some (m', res) → control_of m' = control_of m).
  { intros f. unfold exec_compare, cont. control_reads. }
  unfold execute_instruction.
  destruct (opcode i); try done; intros _; try apply Hbin; try apply Hun; try apply Hcmp;
    try (by intros [= <- <-]).
  - unfold exec_load, cont. control_reads.
  - unfold exec_load_index, cont. control_reads.
  - unfold exec_store_index, cont. control_reads.
  - apply control_timer_run.
  - unfold exec_read_timer, cont. control_reads.
  - apply control_counter_run.
  - unfold exec_read_counter, cont. control_reads.
  - apply control_sr_run.
  - unfold exec_read_sr, cont. control_reads.
  - apply control_edge_run.
  - unfold exec_read_edge, cont. control_reads.
Qed.

(** ** Progress: the instructions that cannot panic *)
Definition operand_reg_ok (o : Operand) : bool :=
  match o with Register r => (r <? REGISTER_COUNT)%nat | _ => true end.

(** Arithmetic that overflows panics only with overflow checks; integer
    division and array access may panic in every profile. *)
Definition opcode_total (op : Opcode) : bool :=
  match op with
  | OpDiv | OpMod | OpLoadIndex | OpStoreIndex => false
  | OpAdd | OpSub | OpMul | OpNeg | OpCounterRun => negb overflow_checks
  | _ => true
  end.
Definition inst_total (i : Instruction) : bool :=
  opcode_total (opcode i) && forallb operand_reg_ok (operands i).

Lemma read_register_total m r :
  vm_wf m → (r <? REGISTER_COUNT)%nat = true → is_Some (read_register m r).
Proof. intros Hm Hr. apply Nat.ltb_lt in Hr. by apply read_register_some. Qed.

Lemma read_reg_total m o : vm_wf m → operand_reg_ok o = true → is_Some (read_reg m o).
Proof. intros Hm Ho. destruct o; cbn in *; eauto. by apply read_register_total. Qed.

Lemma write_dest_total m o v :
  operand_reg_ok o = true → is_Some (write_register m (dest_reg o) v).
Proof.
  intros Ho. unfold write_register.
  destruct o; cbn in Ho |- *; [rewrite Ho|..]; by eexists.
Qed.

Lemma write_register_total m r v :
  (r <? REGISTER_COUNT)%nat = true → is_Some (write_register m r v).
Proof. unfold write_register. intros ->. by eexists. Qed.

Lemma exec_arith_binop_total m ops f :
  (∀ a b, is_Some (f a b)) → vm_wf m → forallb operand_reg_ok ops = true →
  is_Some (exec_arith_binop m ops f).
Proof.
  intros Hf Hm Ho. unfold exec_arith_binop, cont.
  destruct ops as [|oa [|ob [|oo rest]]]; try by eexists.
  cbn in Ho. breflect.
  destruct (read_reg_total m oa) as [a ->]; [done..|]. cbn.
  destruct (read_reg_total m ob) as [b ->]; [done..|]. cbn.
  destruct (Hf a b) as [v ->]. cbn.
  destruct (write_dest_total m oo v) as [m' ->]; [done|]. by eexists.
Qed.

Lemma exec_unary_total m ops f :
  (∀ a, is_Some (f a)) → vm_wf m → forallb operand_reg_ok ops = true →
  is_Some (exec_unary m ops f).
Proof.
  intros Hf Hm Ho. unfold exec_unary, cont.
  destruct ops as [|oa [|oo rest]]; try by eexists.
  cbn in Ho. breflect.
  destruct (read_reg_total m oa) as [a ->]; [done..|]. cbn.
  destruct (Hf a) as [v ->]. cbn.
  destruct (write_dest_total m oo v) as [m' ->]; [done|]. by eexists.
Qed.

Lemma exec_compare_total m ops f :
  vm_wf m → forallb operand_reg_ok ops = true → is_Some (exec_compare m ops f).
Proof.
  intros Hm Ho. unfold exec_compare, cont.
  destruct ops as [|oa [|ob rest]]; try by eexists.
  cbn in Ho. breflect.
  destruct (read_reg_total m oa) as [a ->]; [done..|]. cbn.
  destruct (read_reg_total m ob) as [b ->]; [done..|]. by eexists.
Qed.

Lemma arith_release s w z : overflow_checks = false → is_Some (arith s w z).
Proof. intros Ho. unfold arith. rewrite Ho. destruct (in_int s w z); by eexists. Qed.

Lemma hal_binop_release iop fop x y :
  (∀ s w a b, is_Some (iop s w a b)) → is_Some (hal_binop iop fop x y).
Proof.
  intros Hi. destruct x, y; cbn; try (by eexists);
    match goal with |- is_Some (_ <$> iop ?s ?w ?a ?b) => destruct (Hi s w a b) as [? ->] end;
    by eexists.
Qed.

Lemma hal_neg_release x : overflow_checks = false → is_Some (hal_neg x).
Proof.
  intros Ho. destruct x; cbn; try (by eexists);
    match goal with |- is_Some (_ <$> arith ?s ?w ?a) =>
      destruct (arith_release s w a Ho) as [? ->] end; by eexists.
Qed.

Lemma timer_grown k i m : is_Some (timer (grow_timers k i m) i).
Proof. apply lookup_lt_is_Some. apply (grow_count timer_count). intros. apply add_timer_count. Qed.
Lemma counter_grown i m : is_Some (counter (grow_counters i m) i).
Proof. apply lookup_lt_is_Some. apply (grow_count counter_count). intros. apply add_counter_count. Qed.
Lemma sr_grown k i m : is_Some (sr (grow_srs k i m) i).
Proof. apply lookup_lt_is_Some. apply (grow_count sr_count). intros. apply add_sr_count. Qed.
Lemma edge_grown i m : is_Some (edge (grow_edges i m) i).
Proof. apply lookup_lt_is_Some. apply (grow_count edge_count). intros. apply add_edge_count. Qed.

Lemma counter_tick_release c k p cu cd :
  overflow_checks = false → is_Some (counter_tick c k p cu cd).
Proof.
  intros Ho.
  assert (Hup : ∀ b v, is_Some (count_up b v p)).
  { intros [] v; [|by eexists]. unfold count_up.
    destruct (arith_release false 32 (v + 1) Ho) as [? ->]. by eexists. }
  destruct k; cbn; [|by eexists|];
    destruct (Hup (cu && negb (cu_val c)) (cv c)) as [? ->]; by eexists.
Qed.

Lemma bool_operand_total m o :
  vm_wf m → operand_reg_ok o = true → is_Some (bool_operand m o).
Proof.
  intros Hm Ho. destruct o; cbn in *; try by eexists.
  destruct (read_register_total m r) as [? ->]; [done..|]. by eexists.
Qed.

(** Discharge a [is_Some] chain of reads and writes. *)
Ltac total_chain :=
  repeat first
    [ by eexists
    | match goal with
      | |- is_Some (read_register ?m ?r ≫= _) =>
          destruct (read_register_total m r) as [? ->];
            [auto using grow_timers_wf, grow_counters_wf | done | cbn [mbind option_bind]]
      | |- is_Some (bool_operand ?m ?o ≫= _) =>
          destruct (bool_operand_total m o) as [? ->]; [done | done | cbn [mbind option_bind]]
      | |- is_Some (write_register ?m ?r ?v ≫= _) =>
          destruct (write_register_total m r v) as [? ->]; [done | cbn [mbind option_bind]]
      | |- is_Some (timer (grow_timers ?k ?i ?m) _ ≫= _) =>
          destruct (timer_grown k i m) as [? ->]; cbn [mbind option_bind]
      | |- is_Some (counter (grow_counters ?i ?m) _ ≫= _) =>
          destruct (counter_grown i m) as [? ->]; cbn [mbind option_bind]
      | |- is_Some (sr (grow_srs ?k ?i ?m) _ ≫= _) =>
          destruct (sr_grown k i m) as [? ->]; cbn [mbind option_bind]
      | |- is_Some (edge (grow_edges ?i ?m) _ ≫= _) =>
          destruct (edge_grown i m) as [? ->]; cbn [mbind option_bind]
      end ].

Lemma exec_blocks_total m ops :
  vm_wf m → forallb operand_reg_ok ops = true →
  is_Some (exec_timer_run m ops) ∧ is_Some (exec_read_timer m ops) ∧
  is_Some (exec_read_counter m ops) ∧ is_Some (exec_sr_run m ops) ∧
  is_Some (exec_read_sr m ops) ∧ is_Some (exec_edge_run m ops) ∧
  is_Some (exec_read_edge m ops) ∧
  (overflow_checks = false → is_Some (exec_counter_run m ops)).
Proof.
  intros Hm Ho. unfold exec_timer_run, exec_read_timer, exec_read_counter, exec_sr_run,
    exec_read_sr, exec_edge_run, exec_read_edge, exec_counter_run, cont.
  destruct ops as [|[|[]|] [|o1 [|o2 rest]]];
    try (repeat split; intros; by eexists).
  - cbn in Ho. breflect. repeat split; intros; try by eexists.
    destruct o1; total_chain.
  - cbn in Ho. breflect.
    split; [destruct o1; total_chain; destruct (preset_operand o2); total_chain|].
    split; [destruct o1, o2; total_chain|].
    split; [destruct o1, o2; total_chain|].
    split; [destruct rest as [|o3 rest]; total_chain|].
    split; [destruct o1, o2; total_chain|].
    split; [total_chain|]. split; [destruct o1; total_chain|].
    intros Hov. destruct rest as [|o3 [|o4 rest]]; total_chain.
    destruct o1, o2, o3 as [|[]|]; total_chain.
    match goal with |- is_Some (counter_tick ?c ?k ?p ?cu ?cd ≫= _) =>
      destruct (counter_tick_release c k p cu cd Hov) as [? ->] end. by eexists.
Qed.

Lemma exec_ret_total m ops :
  vm_wf m → forallb operand_reg_ok ops = true → is_Some (exec_ret m ops).
Proof.
  intros Hm Ho. unfold exec_ret, pop_call_ip, cont.
  destruct (call_stack m) as [|n k]; [by eexists|].
  assert (vm_wf (with_call_stack m k)) by by apply with_call_stack_wf.
  destruct ops as [|[r| |] rest]; cbn [mbind option_bind]; try by eexists.
  apply andb_true_iff in Ho as [Hr _].
  destruct (read_register_total (with_call_stack m k) r) as [v ->]; [done..|].
  cbn [mbind option_bind].
  destruct (write_register_total (with_call_stack m k) 0 v) as [? ->]; [done|]. by eexists.
Qed.

Lemma execute_instruction_total m i :
  vm_wf m → inst_total i = true → is_Some (execute_instruction m i).
Proof.
  intros Hm Hi. unfold inst_total in Hi. apply andb_true_iff in Hi as [Hop Ho].
  destruct (exec_blocks_total m (operands i) Hm Ho) as (?&?&?&?&?&?&?&Hctr).
  unfold execute_instruction.
  assert (Hb : ∀ iop fop, (overflow_checks = false → ∀ s w a b, is_Some (iop s w a b)) →
            opcode_total (opcode i) = negb overflow_checks →
            is_Some (exec_arith_binop m (operands i) (hal_binop iop fop))).
  { intros iop fop Hr Hneg. rewrite Hneg in Hop. breflect.
    apply exec_arith_binop_total; [|done..]. intros. apply hal_binop_release. auto. }
  destruct (opcode i) eqn:Eop; cbn in Hop; try done;
    try apply exec_compare_total; try (apply Hb; [|done]; intros Hov ????; by apply arith_release);
    try (apply exec_arith_binop_total; [|done|done]; by eexists);
    try (by eexists); try done.
  - unfold exec_load, cont. destruct (operands i) as [|[] [|src rest]]; try by eexists.
    apply andb_true_iff in Ho as [Hr [Hs _]%andb_true_iff].
    assert (is_Some (load_value m src)) as [v ->].
    { destruct src; try by eexists. by apply read_register_total. }
    cbn [mbind option_bind]. total_chain.
  - unfold exec_store, cont. destruct (operands i) as [|[] [|src rest]]; try by eexists.
    cbn in Ho. breflect. destruct (read_reg_total m src) as [v ->]; [done..|]. by eexists.
  - apply exec_unary_total; [|done..]. breflect. intros a. by apply hal_neg_release.
  - apply exec_unary_total; [|done..]. intros a. by eexists.
  - unfold exec_jump, cont. repeat case_match; by eexists.
  - unfold exec_jump_if, cont. repeat case_match; by eexists.
  - by apply exec_ret_total.
  - breflect. auto.
Qed.

(** A store writes at most the one signal it names. *)
Lemma exec_store_frame m ops m' res :
  exec_store m ops = Some (m', res) →
  res = Continue ∧ ip m' = ip m ∧ call_stack m' = call_stack m ∧
  ∀ s, head ops ≠ Some (SignalName s) → signals m' !! s = signals m !! s.
Proof.
  unfold exec_store, cont. intros He.
  destruct ops as [|[| |name] [|src rest]]; simplify_eq; auto.
  inv_bind He. simplify_eq. cbn. repeat split; auto.
  intros s Hs. apply lookup_insert_ne. congruence.
Qed.

Lemma exec_store_sets m ops m' res s :
  exec_store m ops = Some (m', res) → head ops = Some (SignalName s) →
  is_Some (signals m' !! s) ∨ signals m' !! s = signals m !! s.
Proof.
  unfold exec_store, cont. intros He Hh.
  destruct ops as [|[| |name] [|src rest]]; simplify_eq; auto.
  cbn in Hh. simplify_eq. inv_bind He. simplify_eq. left. cbn. rewrite lookup_insert_eq. by eexists.
Qed.

(** ** Forward programs terminate *)

(** Instruction [i] at index [n] of a program of [len] instructions only moves
    forward, to an instruction of the program. *)
Definition forward_inst (len n : nat) (i : Instruction) : bool :=
  match opcode i with
  | OpJump =>
      match operands i with
      | Immediate (VU32 t) :: _ => (n <? Z.to_nat t)%nat && (Z.to_nat t <? len)%nat
      | _ => false
      end
  | OpJumpIf =>
      match operands i with
      | Immediate (VU32 t) :: _ => (n <? Z.to_nat t)%nat && (Z.to_nat t <? len)%nat
      | _ => true
      end
  | OpCall | OpRet => false
  | _ => true
  end.

Definition ends_with_halt (p : HalProgram) : bool :=
  match last (instructions p) with Some i => bool_decide (opcode i = OpHalt) | None => false end.

Definition forward_program (p : HalProgram) : bool :=
  ends_with_halt p &&
  forallb (fun b => b) (imap (forward_inst (length (instructions p))) (instructions p)).

Lemma forward_lookup p n i :
  forward_program p = true → instructions p !! n = Some i →
  forward_inst (length (instructions p)) n i = true ∧
  (opcode i = OpHalt ∨ (S n < length (instructions p))%nat).
Proof.
  unfold forward_program, ends_with_halt. intros [Hh Hf]%andb_true_iff Hi. split.
  - rewrite forallb_forall in Hf. apply Hf, list_elem_of_In, (list_elem_of_lookup_2 _ n).
    by rewrite list_lookup_imap, Hi.
  - destruct (decide (S n < length (instructions p))%nat) as [|Hn]; [by right|]. left.
    rewrite last_lookup in Hh.
    apply lookup_lt_Some in Hi as Hlt.
    replace (pred (length (instructions p))) with n in Hh by lia.
    rewrite Hi in Hh. by apply bool_decide_eq_true in Hh.
Qed.

(** One non-halting step of a forward program moves strictly forward and stays
    inside. *)
Lemma forward_step e e' res i :
  forward_program (program e) = true → instructions (program e) !! ip (vm e) = Some i →
  step_instruction e i = Some (e', res) →
  (opcode i = OpHalt ∧ res = Halted) ∨
  (opcode i ≠ OpHalt ∧ res = Continue ∧
   (ip (vm e) < ip (vm e') < length (instructions (program e)))%nat).
Proof.
  intros Hf Hi Hs. destruct (forward_lookup _ _ _ Hf Hi) as [Hfi Hlast].
  apply step_instruction_inv in Hs as (m & d & He & -> & _). cbn.
  destruct (decide (opcode i = OpHalt)) as [Hh | Hh].
  { left. split; [done|]. unfold execute_instruction in He. rewrite Hh in He. by simplify_eq. }
  right. split; [done|]. destruct Hlast as [|Hlast]; [done|].
  assert (Hres : is_data_op (opcode i) = true → res = Continue).
  { clear -He Hh. unfold execute_instruction, exec_load, exec_load_index, exec_store_index,
      exec_arith_binop, exec_bitwise_not, exec_unary, exec_compare, exec_timer_run, exec_read_timer,
      exec_counter_run, exec_read_counter, exec_sr_run, exec_read_sr, exec_edge_run,
      exec_read_edge, cont in He.
    intros Hd. destruct (opcode i); try done;
      repeat first [ progress inv_bind He | case_match_in He; simplify_eq; try done ];
      by simplify_eq. }
  assert (Hip : is_data_op (opcode i) = true → ip m = ip (vm e)).
  { intros Hd. apply control_data_op in He; [|done]. by injection He. }
  unfold forward_inst in Hfi. unfold execute_instruction in He.
  destruct (opcode i) eqn:Eop; try done; cbn [is_jump advance_ip set_ip ip];
    try (split; [by apply Hres|]; rewrite Hip by done; lia).
  - apply exec_store_frame in He as (-> & -> & _). auto.
  - unfold exec_jump, cont in He. repeat (case_match_in Hfi; try done).
    simplify_eq. breflect. cbn. by split.
  - unfold exec_jump_if, cont in He. destruct (flags_zero (vm e)).
    + repeat (case_match_in He; simplify_eq; cbn; auto). breflect. auto.
    + simplify_eq. cbn. auto.
Qed.

Definition all_total (p : HalProgram) : bool := forallb inst_total (instructions p).

Lemma step_instruction_total e i :
  vm_wf (vm e) → inst_wf i = true → inst_total i = true → is_Some (step_instruction e i).
Proof.
  intros Hm Hwf Ht. unfold step_instruction.
  destruct (execute_instruction_total (vm e) i Hm Ht) as [[m res] He]. rewrite He.
  apply execute_instruction_wf in He; [|done..]. cbn [mbind option_bind].
  destruct (debug_mode (debug_state e)); cbn [mbind option_bind]; [|by eexists].
  destruct (read_register_some m 0 He) as [v ->]; [unfold REGISTER_COUNT; lia|]. by eexists.
Qed.

Lemma forward_run fuel e k :
  forward_program (program e) = true → program_wf (program e) = true →
  all_total (program e) = true → vm_wf (vm e) → debug_mode (debug_state e) = false →
  (ip (vm e) < length (instructions (program e)))%nat →
  (length (instructions (program e)) - ip (vm e) ≤ fuel)%nat →
  ∃ e' n, run_loop fuel e k = Done e' (k + n) ∧
    (n ≤ length (instructions (program e)) - ip (vm e))%nat ∧
    vm_wf (vm e') ∧ program e' = program e ∧
    ∃ h, instructions (program e) !! pred (ip (vm e')) = Some h ∧ opcode h = OpHalt.
Proof.
  revert e k. induction fuel as [|fuel IH]; intros e k Hf Hp Ht Hm Hd Hip Hfuel; [lia|].
  destruct (lookup_lt_is_Some_2 _ _ Hip) as [i Hi].
  assert (Hti : inst_total i = true).
  { unfold all_total in Ht. rewrite forallb_forall in Ht.
    apply Ht, list_elem_of_In. by eapply list_elem_of_lookup_2. }
  assert (Hwi : inst_wf i = true) by by eapply lookup_inst_wf.
  destruct (step_instruction_total e i Hm Hwi Hti) as [[e1 res] Hs].
  assert (Hst : step e = Some (e1, res)).
  { unfold step. rewrite Hi. cbn. unfold at_breakpoint. by rewrite Hd. }
  destruct (step_wf e e1 res Hp Hm Hst) as [Hm1 Hp1].
  assert (Hd1 : debug_mode (debug_state e1) = false).
  { apply step_instruction_inv in Hs as (m & d & _ & -> & [[_ ->] | [Hd' _]]); [done|].
    by rewrite Hd in Hd'. }
  cbn [run_loop]. rewrite Hst.
  destruct (forward_step e e1 res i Hf Hi Hs) as [[Hh ->] | (_ & -> & Hlt)].
  - exists e1, 1%nat. split; [done|]. split; [lia|]. split; [done|]. split; [done|].
    exists i. split; [|done].
    apply step_instruction_inv in Hs as (m & d & He & -> & _). rewrite Hh. cbn.
    unfold execute_instruction in He. rewrite Hh in He. by simplify_eq.
  - destruct (IH e1 (k + 1)%nat) as (e' & n & Hr & Hn & Hm' & Hp' & Hh);
      rewrite ?Hp1; auto; try lia.
    exists e', (S n). rewrite Hp1 in *. rewrite Hr. split; [f_equal; lia|]. split; [lia|]. auto.
Qed.

(** [C21] Forward programs terminate: a well-formed program that ends with Halt,
    whose jumps only go forward inside the program, without calls, and whose
    instructions cannot panic, run from its first instruction with the debugger
    off, reaches a Halt within as many steps as it has instructions. *)
Theorem forward_program_halts p m :
  forward_program p = true → program_wf p = true → all_total p = true →
  vm_wf m → ip m = 0%nat →
  ∃ e steps,
    run_to_halt (length (instructions p)) (mkExecutor m p debug_new) = Done e steps ∧
    (steps ≤ length (instructions p))%nat ∧ vm_wf (vm e) ∧
    ∃ h, instructions p !! pred (ip (vm e)) = Some h ∧ opcode h = OpHalt.
Proof.
  intros Hf Hp Ht Hm Hip.
  assert (Hlen : (0 < length (instructions p))%nat).
  { unfold forward_program, ends_with_halt in Hf. destruct (instructions p); [done|]. cbn. lia. }
  destruct (forward_run (length (instructions p)) (mkExecutor m p debug_new) 0)
    as (e & n & Hr & Hn & Hm' & _ & Hh); cbn; rewrite ?Hip; auto; [lia|].
  exists e, n. split; [exact Hr|]. cbn in Hn. split; [lia|]. auto.
Qed.

(** ** Calls *)

Lemma step_no_debug e i :
  debug_mode (debug_state e) = false → instructions (program e) !! ip (vm e) = Some i →
  step e = step_instruction e i.
Proof. intros Hd Hi. unfold step, at_breakpoint. by rewrite Hi, Hd. Qed.

(** A call returns one instruction too far: with the debugger off, a
    [Call] at index [c] to a function whose first instruction is a [Ret]
    without result continues, after two steps, at [c + 2] (the return address
    [c + 1] is advanced once more because [Ret] is not treated as a jump),
    with the registers, the flag, the signals and the call stack unchanged. *)
Theorem call_ret_skips_next e t j :
  debug_mode (debug_state e) = false →
  instructions (program e) !! ip (vm e) = Some (call t) →
  instructions (program e) !! Z.to_nat t = Some (mkInst OpRet j) →
  (∀ r, head j ≠ Some (Register r)) →
  ∃ e', continues 2 e e' ∧ ip (vm e') = (ip (vm e) + 2)%nat ∧
    registers (vm e') = registers (vm e) ∧ flags_zero (vm e') = flags_zero (vm e) ∧
    signals (vm e') = signals (vm e) ∧ call_stack (vm e') = call_stack (vm e).
Proof.
  intros Hd Hc Hr Hj.
  set (m1 := set_ip (push_call_ip (vm e) (S (ip (vm e)))) (Z.to_nat t)).
  assert (H1 : step e = Some (with_vm e m1, Continue)).
  { rewrite (step_no_debug e _ Hd Hc). unfold step_instruction. cbn. by rewrite Hd. }
  assert (H2 : step (with_vm e m1) =
    Some (with_vm e (advance_ip (set_ip (vm e) (S (ip (vm e))))), Continue)).
  { rewrite (step_no_debug (with_vm e m1) (mkInst OpRet j)) by done.
    unfold step_instruction. cbn. rewrite Hd.
    destruct j as [|[x| |] j]; cbn; try (by destruct e as [[] ? ?]).
    by destruct (Hj x). }
  eexists. split; [econstructor; [exact H1 | econstructor; [exact H2 | constructor]]|].
  cbn. repeat split; auto. lia.
Qed.

(** A conditional jump whose first operand is a register never jumps: its
    step only advances the instruction pointer, whatever the flag and the
    second operand are. *)
Theorem jump_if_register_falls_through e r rest :
  debug_mode (debug_state e) = false →
  instructions (program e) !! ip (vm e) = Some (mkInst OpJumpIf (Register r :: rest)) →
  step e = Some (with_vm e (advance_ip (vm e)), Continue).
Proof.
  intros Hd Hi. rewrite (step_no_debug e _ Hd Hi). unfold step_instruction, execute_instruction.
  cbn. unfold exec_jump_if, cont. rewrite Hd. by destruct (flags_zero (vm e)).
Qed.

(** A step leaves every signal alone but the one a [Store] names, which it
    sets. *)
Lemma step_signal e e' res s :
  step e = Some (e', res) →
  signals (vm e') !! s = signals (vm e) !! s ∨
  is_Some (signals (vm e') !! s) ∧
  ∃ i, instructions (program e) !! ip (vm e) = Some i ∧ opcode i = OpStore ∧
    head (operands i) = Some (SignalName s).
Proof.
  intros Hs. apply step_inv in Hs as (i & Hi & [(_ & -> & _) | (_ & Hs)]); [by left|].
  apply step_instruction_inv in Hs as (m & d & He & -> & _).
  replace (signals (vm _)) with (signals m) by (cbn; by destruct (is_jump (opcode i))).
  destruct (is_data_op (opcode i)) eqn:Ed.
  { left. apply control_data_op in He; [|done]. unfold control_of in He. congruence. }
  unfold execute_instruction in He. destruct (opcode i) eqn:Eop; try done.
  - destruct (decide (head (operands i) = Some (SignalName s))) as [Hh|Hh].
    + destruct (exec_store_sets _ _ _ _ _ He Hh) as [Hset|Hset]; [right | by left]. split; [done|].
      by exists i.
    + left. apply exec_store_frame in He as (_ & _ & _ & Hfr). auto.
  - left. unfold exec_jump, cont in He. repeat (case_match_in He; simplify_eq; try done).
  - left. unfold exec_jump_if, cont in He. repeat (case_match_in He; simplify_eq; try done).
  - left. unfold exec_call, cont in He. by simplify_eq.
  - left. unfold exec_ret, pop_call_ip, cont in He.
    destruct (call_stack (vm e)); simplify_eq; try done.
    inv_bind He. simplify_eq. cbn.
    repeat (case_match; simplify_eq; try done).
    match goal with Hx : _ ≫= _ = Some _ |- _ => inv_bind Hx; simplify_eq;
      apply write_register_frame in Hx as (_ & _ & -> & _) end. done.
Qed.

Lemma step_program e e' res : step e = Some (e', res) → program e' = program e.
Proof.
  intros Hs. apply step_inv in Hs as (i & Hi & [(_ & -> & _) | (_ & Hs)]); [done|].
  by apply step_instruction_inv in Hs as (m & d & He & -> & _).
Qed.

(** What a whole run keeps: the program, and the names in the signal table. *)
Lemma run_loop_keeps fuel e k e' steps :
  run_loop fuel e k = Done e' steps →
  program e' = program e ∧ ∀ s, is_Some (signals (vm e) !! s) → is_Some (signals (vm e') !! s).
Proof.
  intros Hr. apply run_loop_sound in Hr as (n & e1 & res & Hc & Hs & _).
  assert (program e1 = program e ∧ ∀ s, is_Some (signals (vm e) !! s) → is_Some (signals (vm e1) !! s))
    as [Hp Hd].
  { clear Hs. induction Hc as [e|n e e2 e1 Hs Hc [IHp IHd]]; [done|]. split.
    - rewrite IHp. by eapply step_program.
    - intros s Hsome. apply IHd. destruct (step_signal e e2 Continue s Hs) as [->|[? _]]; done. }
  split.
  - rewrite (step_program _ _ _ Hs). done.
  - intros s Hsome. destruct (step_signal e1 e' res s Hs) as [->|[? _]]; auto.
Qed.

(** Only a Store changes the signal table: if a step changes the value of
    signal [s], the instruction it executed is a [Store] whose first operand
    names [s]. *)
Theorem signals_changed_by_store e e' res s :
  step e = Some (e', res) → signals (vm e') !! s ≠ signals (vm e) !! s →
  ∃ i, instructions (program e) !! ip (vm e) = Some i ∧ opcode i = OpStore ∧
    head (operands i) = Some (SignalName s).
Proof. intros Hs Hne. by destruct (step_signal e e' res s Hs) as [|[_ ?]]. Qed.

(** ** The debugger *)

Lemma step_set_debug e b i :
  instructions (program e) !! ip (vm e) = Some i →
  step_instruction (set_debug_mode e b) i =
    ('(m, res) ← execute_instruction (vm e) i;
     d ← (if b then
            r0 ← read_register m 0;
            Some (mkDebug true (breakpoints (debug_state e))
                    (trace_buffer (debug_state e) ++ [mkTrace (ip (vm e)) (opcode i) r0]))
          else Some (debug_state (set_debug_mode e false)));
     Some (mkExecutor (if is_jump (opcode i) then m else advance_ip m) (program e) d, res)).
Proof.
  intros Hi. unfold step_instruction. cbn.
  destruct (execute_instruction (vm e) i) as [[m res]|]; [|done]. by destruct b.
Qed.

(** Debugging is transparent: away from breakpoints, a step with the
    debugger on succeeds exactly when it does with the debugger off, with the
    same machine and result, and appends exactly one trace entry, for the
    instruction at the old pointer. *)
Theorem debug_transparent e :
  program_wf (program e) = true → vm_wf (vm e) →
  ip (vm e) ∉ breakpoints (debug_state e) →
  match step (disable_debug e), step (enable_debug e) with
  | Some (e1, r1), Some (e2, r2) =>
      vm e1 = vm e2 ∧ r1 = r2 ∧
      trace_buffer (debug_state e1) = trace_buffer (debug_state e) ∧
      ∃ t, trace_buffer (debug_state e2) = trace_buffer (debug_state e) ++ [t] ∧
        tr_ip t = ip (vm e)
  | None, None => True
  | _, _ => False
  end.
Proof.
  intros Hp Hm Hb. unfold step, enable_debug, disable_debug.
  change (ip (vm (set_debug_mode e true))) with (ip (vm e)).
  change (ip (vm (set_debug_mode e false))) with (ip (vm e)).
  change (program (set_debug_mode e true)) with (program e).
  change (program (set_debug_mode e false)) with (program e).
  destruct (instructions (program e) !! ip (vm e)) as [i|] eqn:Hi; [|done].
  cbn [mbind option_bind]. unfold at_breakpoint. cbn [set_debug_mode with_debug debug_state
    debug_mode breakpoints andb vm].
  rewrite bool_decide_eq_false_2 by done. rewrite !step_set_debug by done.
  destruct (execute_instruction (vm e) i) as [[m res]|] eqn:He; [|done].
  apply execute_instruction_wf in He; [|done|by eapply lookup_inst_wf].
  destruct (read_register_some m 0 He) as [v Hv]; [unfold REGISTER_COUNT; lia|].
  cbn -[read_register]. rewrite Hv. cbn. repeat split; auto. by eexists.
Qed.

(** A breakpoint blocks until [resume]: at a breakpoint with the debugger
    on, [step] and [run_to_halt] both return [Breaked] with the executor
    unchanged, however often they are called, while [resume] executes the
    instruction and leaves the debugger on. *)
Theorem breakpoint_blocks e i :
  instructions (program e) !! ip (vm e) = Some i → at_breakpoint e = true →
  step e = Some (e, Breaked) ∧
  (∀ fuel, run_to_halt (S fuel) e = Done e 1) ∧
  resume e = ('(m, res) ← execute_instruction (vm e) i;
              Some (mkExecutor (if is_jump (opcode i) then m else advance_ip m) (program e)
                      (debug_state e), res)).
Proof.
  intros Hi Hb.
  assert (Hs : step e = Some (e, Breaked)) by (unfold step; by rewrite Hi, Hb).
  split; [done|]. split; [intros fuel; unfold run_to_halt; cbn; by rewrite Hs|].
  unfold at_breakpoint in Hb. apply andb_true_iff in Hb as [Hd _].
  unfold resume. rewrite (step_no_debug (disable_debug e) i) by done.
  unfold disable_debug. rewrite step_set_debug by done.
  destruct (execute_instruction (vm e) i) as [[m res]|]; [|done]. cbn.
  unfold enable_debug, set_debug_mode, with_debug. cbn. do 4 f_equal.
  destruct (debug_state e); cbn in *. by subst.
Qed.

(** ** Debug sessions *)

(** The machine alone, without a debugger. *)
Definition machine_step (p : HalProgram) (m : Vm) : option Vm :=
  '(e, _) ← step (mkExecutor m p debug_new); Some (vm e).
Fixpoint machine_run (p : HalProgram) (n : nat) (m : Vm) : option Vm :=
  match n with O => Some m | S n => m ← machine_step p m; machine_run p n m end.

Lemma machine_run_app p n k m : machine_run p (n + k) m = (m' ← machine_run p n m; machine_run p k m').
Proof. induction n as [|n IH] in m |- *; [done|]. cbn. destruct (machine_step p m); [apply IH | done]. Qed.

(** The calls a debugger makes, in any order. *)
Inductive DebugCall :=
  | CallStep | CallResume | CallRun (fuel : nat) | CallEnable | CallDisable
  | CallAdd (i : nat) | CallRemove (i : nat) | CallClearBreakpoints | CallClearTrace.
Definition debug_call (e : Executor) (c : DebugCall) : option Executor :=
  match c with
  | CallStep => fst <$> step e
  | CallResume => fst <$> resume e
  | CallRun fuel => match run_to_halt fuel e with Done e _ => Some e | _ => None end
  | CallEnable => Some (enable_debug e)
  | CallDisable => Some (disable_debug e)
  | CallAdd i => Some (add_breakpoint e i).1
  | CallRemove i => Some (remove_breakpoint e i).1
  | CallClearBreakpoints => Some (clear_breakpoints e)
  | CallClearTrace => Some (clear_trace e)
  end.
Fixpoint debug_session (e : Executor) (cs : list DebugCall) : option Executor :=
  match cs with [] => Some e | c :: cs => e ← debug_call e c; debug_session e cs end.

(** An operator who steps, and resumes whenever a breakpoint stops the step. *)
Fixpoint operate (turns : nat) (e : Executor) : option Executor :=
  match turns with
  | O => None
  | S turns =>
      match step e with
      | Some (e, Continue) => operate turns e
      | Some (e, Halted) => Some e
      | Some (e, Breaked) =>
          match resume e with
          | Some (e, Continue) => operate turns e
          | Some (e, _) => Some e
          | None => None
          end
      | None => None
      end
  end.

Lemma step_machine e e' res :
  step e = Some (e', res) →
  program e' = program e ∧ (vm e' = vm e ∨ machine_step (program e) (vm e) = Some (vm e')).
Proof.
  intros Hs. split; [by eapply step_program|]. apply step_inv in Hs as (i & Hi & [(_ & -> & _)|(_ & Hs)]); [by left|].
  right. apply step_instruction_inv in Hs as (m & d & He & -> & _).
  unfold machine_step, step. cbn [program vm]. rewrite Hi. cbn. unfold step_instruction. cbn. by rewrite He.
Qed.

(** What the calls leave: the program, and a machine some steps further. *)
Definition further (e e' : Executor) : Prop :=
  program e' = program e ∧ ∃ n, machine_run (program e) n (vm e) = Some (vm e').
Lemma further_refl e e' : program e' = program e → vm e' = vm e → further e e'.
Proof. intros Hp Hm. split; [done|]. exists 0%nat. by rewrite Hm. Qed.
Lemma further_trans e1 e2 e3 : further e1 e2 → further e2 e3 → further e1 e3.
Proof.
  intros [P1 [n1 R1]] [P2 [n2 R2]]. split; [congruence|]. exists (n1 + n2)%nat.
  rewrite machine_run_app, R1. cbn. by rewrite <- P1.
Qed.
Lemma further_step e e' res : step e = Some (e', res) → further e e'.
Proof.
  intros Hs. apply step_machine in Hs as [Hp [Hm|Hm]]; [by apply further_refl|].
  split; [done|]. exists 1%nat. cbn. by rewrite Hm.
Qed.

Lemma further_run fuel e k e' steps : run_loop fuel e k = Done e' steps → further e e'.
Proof.
  intros Hr. apply run_loop_sound in Hr as (n & e1 & res & Hc & Hs & _).
  apply (further_trans e e1 e'); [|by eapply further_step]. clear Hs.
  induction Hc as [e|n e e2 e1 Hs Hc IH]; [by apply further_refl|]. apply (further_trans e e2 e1); [|done].
  by eapply further_step.
Qed.

Lemma debug_call_further e c e' : debug_call e c = Some e' → further e e'.
Proof.
  destruct c; cbn [debug_call]; try (intros [= <-]; by apply further_refl).
  - destruct (step e) as [[e1 r]|] eqn:Hs; [|done]. intros [= <-]. by eapply further_step.
  - unfold resume. destruct (step _) as [[e1 r]|] eqn:Hs; [|done]. intros [= <-]. apply further_step in Hs. exact Hs.
  - unfold run_to_halt. destruct (run_loop _ _ _) eqn:Hr; try done. intros [= <-]. by eapply further_run.
Qed.

Lemma step_mode e e' res : step e = Some (e', res) → debug_mode (debug_state e') = debug_mode (debug_state e).
Proof.
  intros Hs. apply step_inv in Hs as (i & _ & [(_ & -> & _)|(_ & Hs)]); [done|].
  apply step_instruction_inv in Hs as (m & d & _ & -> & [[_ ->]|(-> & r0 & _ & ->)]); done.
Qed.

Lemma execute_never_breaks m i m' res : execute_instruction m i = Some (m', res) → res ≠ Breaked.
Proof.
  intros He ->. unfold execute_instruction in He. destruct (opcode i);
    unfold exec_load, exec_load_index, exec_store_index, exec_store, exec_arith_binop, exec_unary, exec_compare,
      exec_bitwise_not, exec_jump, exec_jump_if, exec_call, exec_ret, exec_timer_run, exec_read_timer,
      exec_counter_run, exec_read_counter, exec_sr_run, exec_read_sr, exec_edge_run, exec_read_edge, exec_unary,
      cont in He; repeat (inv_bind He || case_match || simplify_eq || done).
Qed.

Lemma step_off_breaked e e' : debug_mode (debug_state e) = false → step e ≠ Some (e', Breaked).
Proof.
  intros Hd Hs. apply step_inv in Hs as (i & _ & [(Hb & _)|(_ & Hs)]).
  - unfold at_breakpoint in Hb. by rewrite Hd in Hb.
  - apply step_instruction_inv in Hs as (m & d & He & _). by apply execute_never_breaks in He.
Qed.

(** Without the debugger, the machine and the program decide. *)
Lemma step_off_same a b a' res :
  debug_mode (debug_state a) = false → debug_mode (debug_state b) = false →
  vm a = vm b → program a = program b → step a = Some (a', res) →
  ∃ b', step b = Some (b', res) ∧ vm b' = vm a' ∧ program b' = program a'.
Proof.
  intros Ha Hb Hv Hp Hs. apply step_inv in Hs as (i & Hi & [(Hbr & _)|(_ & Hs)]).
  { unfold at_breakpoint in Hbr. by rewrite Ha in Hbr. }
  apply step_instruction_inv in Hs as (m & d & He & -> & _). rewrite Hv in He. rewrite Hp, Hv in Hi.
  unfold step. rewrite Hi. cbn. unfold at_breakpoint. rewrite Hb. cbn [andb].
  unfold step_instruction. rewrite He. cbn. rewrite Hb. cbn. eexists. split_and!; [done | done | by cbn].
Qed.

(** With the debugger on, one turn of the operator is one step without it. *)
Lemma operate_turn n e a a' r :
  program_wf (program e) = true → vm_wf (vm e) → debug_mode (debug_state e) = true →
  debug_mode (debug_state a) = false → vm a = vm e → program a = program e → step a = Some (a', r) →
  ∃ e', vm e' = vm a' ∧ program e' = program a' ∧ debug_mode (debug_state e') = true ∧
    operate (S n) e = match r with Continue => operate n e' | _ => Some e' end.
Proof.
  intros Hp Hm Hd Ha Hva Hpa Hs.
  assert (r ≠ Breaked) as Hr by (intros ->; by eapply step_off_breaked).
  apply (step_off_same a (disable_debug e)) in Hs as (e1 & Hs & Hv1 & Hp1); [|done..].
  assert (enable_debug e = e) as Hen.
  { destruct e as [m p [b s t]]. unfold enable_debug, set_debug_mode, with_debug. cbn in *. by subst. }
  cbn [operate]. destruct (decide (ip (vm e) ∈ breakpoints (debug_state e))) as [Hb|Hb].
  - assert (step e = Some (e, Breaked)) as ->.
    { apply step_inv in Hs as (i & Hi & _). unfold step. change (program (disable_debug e)) with (program e) in Hi.
      change (vm (disable_debug e)) with (vm e) in Hi. rewrite Hi. cbn. unfold at_breakpoint.
      by rewrite Hd, bool_decide_eq_true_2. }
    exists (enable_debug e1). unfold resume. rewrite Hs. cbn. by destruct r.
  - pose proof (debug_transparent e Hp Hm Hb) as Ht. rewrite Hs, Hen in Ht.
    destruct (step e) as [[e2 r2]|] eqn:Es; [|done]. destruct Ht as (Hv & <- & _). exists e2.
    pose proof (step_program _ _ _ Es). pose proof (step_program _ _ _ Hs) as Hpe. cbn in Hpe.
    split_and!; [congruence | congruence | by rewrite (step_mode _ _ _ Es) |]. by destruct r.
Qed.

Lemma operate_halts n a b a' r : continues n a b → step b = Some (a', r) → r ≠ Continue →
  ∀ e, program_wf (program e) = true → vm_wf (vm e) → debug_mode (debug_state e) = true →
    debug_mode (debug_state a) = false → vm a = vm e → program a = program e →
    ∃ e', operate (n + 1) e = Some e' ∧ vm e' = vm a'.
Proof.
  induction 1 as [a|n a a1 b Hs Hc IH]; intros Hb Hr e Hp Hm Hd Ha Hv Hpa.
  - destruct (operate_turn 0 e a a' r) as (e' & H1 & _ & _ & H2); [done..|]. exists e'. split; [|done].
    change (0 + 1)%nat with 1%nat. rewrite H2. by destruct r.
  - destruct (operate_turn (n + 1) e a a1 Continue) as (e' & H1 & H2 & H3 & H4); [done..|].
    change (S n + 1)%nat with (S (n + 1)). rewrite H4.
    destruct (step_wf a a1 Continue) as [Hw1 Hp1]; [by rewrite Hpa | by rewrite Hv | done |].
    apply IH; try done; [by rewrite H2, Hp1, Hpa | by rewrite H1 | by rewrite (step_mode _ _ _ Hs)].
Qed.

(** [C3] Debugging does not change what a program computes.  Whatever calls a
    debugger makes, in any order - single steps, resumes, runs, breakpoints added
    and removed, debug mode switched, traces cleared - the machine is where a
    number of plain steps of the same program take it.  And if the program run
    without debugger halts, then with the debugger on and any set of breakpoints
    an operator who steps, and resumes whenever stopped, reaches the halt with the
    same machine, in no more turns than the run has steps. *)
Theorem debug_session_computes e :
  program_wf (program e) = true → vm_wf (vm e) →
  (∀ cs e', debug_session e cs = Some e' →
     program e' = program e ∧ ∃ n, machine_run (program e) n (vm e) = Some (vm e')) ∧
  (debug_mode (debug_state e) = true → ∀ fuel e1 steps, run_to_halt fuel (disable_debug e) = Done e1 steps →
     ∃ e2, operate steps e = Some e2 ∧ vm e2 = vm e1).
Proof.
  intros Hp Hm. split.
  - intros cs e' Hcs. change (further e e'). clear Hp Hm. revert e Hcs.
    induction cs as [|c cs IH]; intros e Hcs; [injection Hcs as <-; by apply further_refl|]. cbn in Hcs.
    destruct (debug_call e c) as [e1|] eqn:Hc; [|done]. apply (further_trans e e1 e'); [by eapply debug_call_further|].
    by apply IH.
  - intros Hd fuel e1 steps Hrun. unfold run_to_halt in Hrun.
    apply run_loop_sound in Hrun as (n & e0 & r & Hc & Hs & Hr & -> & _).
    by apply (operate_halts n (disable_debug e) e0 e1 r).
Qed.

(** The breakpoint list is the breakpoint set in increasing order: it is
    sorted without duplicates and contains exactly the addresses added and not
    removed since. *)
Theorem list_breakpoints_spec e :
  StronglySorted Nat.le (list_breakpoints e) ∧ NoDup (list_breakpoints e) ∧
  (∀ i, i ∈ list_breakpoints e ↔ i ∈ breakpoints (debug_state e)) ∧
  (∀ i j, j ∈ list_breakpoints (add_breakpoint e i).1 ↔ j = i ∨ j ∈ list_breakpoints e) ∧
  (∀ i j, j ∈ list_breakpoints (remove_breakpoint e i).1 ↔ j ≠ i ∧ j ∈ list_breakpoints e) ∧
  (∀ i, (add_breakpoint e i).2 = true ↔ i ∉ list_breakpoints e).
Proof.
  assert (Hin : ∀ e i, i ∈ list_breakpoints e ↔ i ∈ breakpoints (debug_state e)).
  { intros e' i. unfold list_breakpoints.
    rewrite (merge_sort_Permutation Nat.le), elem_of_elements. done. }
  split; [apply (StronglySorted_merge_sort _)|].
  split. { unfold list_breakpoints. rewrite (merge_sort_Permutation Nat.le). apply NoDup_elements. }
  split; [apply Hin|].
  split; [|split].
  - intros i j. rewrite !Hin. cbn. by rewrite elem_of_union, elem_of_singleton.
  - intros i j. rewrite !Hin. cbn. rewrite elem_of_difference, elem_of_singleton. tauto.
  - intros i. rewrite Hin. cbn. rewrite negb_true_iff, bool_decide_eq_false. done.
Qed.
End control.

(** ** Witnesses *)
Lemma forward_program_halts_witness :
  ∃ e steps,
    run_to_halt (H := release_profile) 3 (executor_new sample_program) = Done e steps ∧
    (steps ≤ 3)%nat.
Proof.
  destruct (forward_program_halts (H := release_profile) sample_program vm_new)
    as (e & n & Hr & Hn & _); [reflexivity | reflexivity | reflexivity | apply vm_new_wf
    | reflexivity |].
  exists e, n. split; [exact Hr | exact Hn].
Defined.

Definition call_program : HalProgram :=
  program_new "call" [call 3; load_imm 0 (VU8 1); halt; ret None].

Lemma call_ret_skips_next_witness :
  ∃ e', continues (H := debug_profile) 2 (executor_new call_program) e' ∧ ip (vm e') = 2%nat.
Proof.
  destruct (call_ret_skips_next (H := debug_profile) (executor_new call_program) 3 [])
    as (e' & Hc & Hi & _); [reflexivity | reflexivity | reflexivity | discriminate |].
  exists e'. split; [exact Hc | exact Hi].
Defined.

Definition branch_program : HalProgram :=
  program_new "branch" [mkInst OpJumpIf [Register 2; imm_u32 2]; halt; halt].

Lemma jump_if_register_falls_through_witness :
  step (H := debug_profile) (with_vm (executor_new branch_program) (set_flags_zero vm_new true)) =
  Some (with_vm (executor_new branch_program) (advance_ip (set_flags_zero vm_new true)), Continue).
Proof.
  exact (jump_if_register_falls_through (H := debug_profile)
    (with_vm (executor_new branch_program) (set_flags_zero vm_new true)) 2 [imm_u32 2]
    eq_refl eq_refl).
Defined.

Definition store_executor : Executor :=
  mkExecutor (set_ip vm_new 1) sample_program debug_new.

Lemma signals_changed_by_store_witness :
  ∃ e', step (H := debug_profile) store_executor = Some (e', Continue) ∧
  ∃ i, instructions sample_program !! 1%nat = Some i ∧ opcode i = OpStore ∧
    head (operands i) = Some (SignalName "out").
Proof.
  eexists. split; [reflexivity|].
  eapply (signals_changed_by_store (H := debug_profile) store_executor _ Continue);
    [reflexivity | vm_compute; discriminate].
Defined.

Lemma debug_transparent_witness :
  match step (H := debug_profile) (enable_debug store_executor) with
  | Some (e2, _) => ∃ t, trace_buffer (debug_state e2) = [t] ∧ tr_ip t = 1%nat
  | None => False
  end.
Proof.
  assert (Hwf : vm_wf (vm store_executor)) by apply (set_ip_wf _ 1 vm_new_wf).
  assert (Hb : ip (vm store_executor) ∉ breakpoints (debug_state store_executor))
    by (apply not_elem_of_empty).
  pose proof (debug_transparent (H := debug_profile) store_executor eq_refl Hwf Hb) as Ht.
  destruct (step (disable_debug store_executor)) as [[e1 r1]|] eqn:E1; [|discriminate E1].
  destruct (step (enable_debug store_executor)) as [[e2 r2]|] eqn:E2; [|discriminate E2].
  destruct Ht as (_ & _ & _ & Ht). exact Ht.
Defined.

Lemma breakpoint_blocks_witness :
  run_to_halt (H := debug_profile) 9 (enable_debug (with_breakpoints store_executor {[ 1%nat ]})) =
  Done (enable_debug (with_breakpoints store_executor {[ 1%nat ]})) 1.
Proof.
  apply (breakpoint_blocks (H := debug_profile)
    (enable_debug (with_breakpoints store_executor {[ 1%nat ]}))
    (mkInst OpStore [SignalName "out"; Register 0])); reflexivity.
Defined.

(** A program stopped at its second instruction by a breakpoint. *)
Definition stopped_executor : Executor :=
  enable_debug (add_breakpoint (executor_new sample_program) 1).1.

Lemma debug_session_computes_witness :
  (∃ e', debug_session (H := release_profile) stopped_executor [CallRun 5; CallResume; CallDisable; CallStep] = Some e' ∧
     ∃ n, machine_run (H := release_profile) sample_program n vm_new = Some (vm e')) ∧
  ∃ e2, operate (H := release_profile) 3 stopped_executor = Some e2 ∧ signals (vm e2) !! "out" = Some (VU8 7).
Proof.
  destruct (debug_session_computes (H := release_profile) stopped_executor eq_refl vm_new_wf) as [H1 H2]. split.
  - destruct (debug_session (H := release_profile) stopped_executor [CallRun 5; CallResume; CallDisable; CallStep])
      as [e'|] eqn:E; [|vm_compute in E; discriminate E].
    exists e'. split; [reflexivity|]. exact (proj2 (H1 _ e' E)).
  - destruct (run_to_halt (H := release_profile) 5 (disable_debug stopped_executor)) as [e1 n| |] eqn:E;
      [|vm_compute in E; discriminate E..].
    assert (n = 3%nat ∧ signals (vm e1) !! "out" = Some (VU8 7)) as [-> Hs]
      by (vm_compute in E; injection E as <- <-; split; vm_compute; reflexivity).
    destruct (H2 eq_refl 5%nat e1 3%nat E) as (e2 & Ho & Hv). exists e2. split; [exact Ho|]. by rewrite Hv.
Defined.
