(* ===== verification/Text.v ===== *)
(** * The string functions the compilers use

    [str::lines], [trim], [split_whitespace], [to_uppercase], [ends_with],
    executable on byte strings.  They agree with Rust's on ASCII text; the
    further Unicode white space and case mappings of Rust are outside the
    model. *)
From S2P Require Import Prelude.
Local Open Scope char_scope.

Definition newline : ascii := "010".
Definition carriage_return : ascii := "013".

(** ASCII white space: tab, LF, VT, FF, CR and space. *)
Definition is_whitespace (c : ascii) : bool :=
  let n := byte_of_ascii c in between 9 13 n || (n =? 32)%Z.

Definition to_upper_char (c : ascii) : ascii :=
  let n := byte_of_ascii c in if between 97 122 n then ascii_of_byte (n - 32) else c.

Fixpoint to_uppercase (s : string) : string :=
  match s with
  | EmptyString => EmptyString
  | String.String c s => String.String (to_upper_char c) (to_uppercase s)
  end.

Fixpoint chars (s : string) : list ascii :=
  match s with
  | EmptyString => []
  | String.String c s => c :: chars s
  end.
Fixpoint of_chars (l : list ascii) : string :=
  match l with
  | [] => EmptyString
  | c :: l => String.String c (of_chars l)
  end.

(** A finished line: drop the CR of a CRLF. *)
Definition strip_cr (acc : list ascii) : list ascii :=
  match acc with
  | c :: acc' => if bool_decide (c = carriage_return) then acc' else acc
  | [] => []
  end.

(** [acc] is the current line in reverse. *)
Fixpoint lines_aux (acc : list ascii) (l : list ascii) : list string :=
  match l with
  | [] => match acc with [] => [] | _ => [of_chars (rev acc)] end
  | c :: l =>
      if bool_decide (c = newline) then of_chars (rev (strip_cr acc)) :: lines_aux [] l
      else lines_aux (c :: acc) l
  end.
Definition lines (s : string) : list string := lines_aux [] (chars s).

Fixpoint trim_start (l : list ascii) : list ascii :=
  match l with
  | c :: l' => if is_whitespace c then trim_start l' else l
  | [] => []
  end.
Definition trim (s : string) : string :=
  of_chars (rev (trim_start (rev (trim_start (chars s))))).

(** [acc] is the current word in reverse. *)
Fixpoint words_aux (acc : list ascii) (l : list ascii) : list string :=
  match l with
  | [] => match acc with [] => [] | _ => [of_chars (rev acc)] end
  | c :: l =>
      if is_whitespace c then
        match acc with [] => words_aux [] l | _ => of_chars (rev acc) :: words_aux [] l end
      else words_aux (c :: acc) l
  end.
Definition split_whitespace (s : string) : list string := words_aux [] (chars s).

Definition ends_with_char (s : string) (c : ascii) : bool :=
  match rev (chars s) with d :: _ => bool_decide (d = c) | [] => false end.
(** [s[..s.len() - 1]] *)
Definition drop_last (s : string) : string :=
  of_chars (rev (match rev (chars s) with _ :: l => l | [] => [] end)).

(** ** Lemmas *)
Lemma of_chars_chars s : of_chars (chars s) = s.
Proof. induction s as [|c s IH]; [done|]. cbn. by rewrite IH. Qed.

Lemma chars_of_chars l : chars (of_chars l) = l.
Proof. induction l as [|c l IH]; [done|]. cbn. by rewrite IH. Qed.

Lemma chars_app s t : chars (s +:+ t) = chars s ++ chars t.
Proof. induction s as [|c s IH]; [done|]. cbn [chars app]. rewrite <- IH. done. Qed.

Lemma of_chars_app l k : of_chars (l ++ k) = of_chars l +:+ of_chars k.
Proof. induction l as [|c l IH]; [done|]. cbn [of_chars app]. by rewrite IH. Qed.

Definition no_space (s : string) : bool := forallb (fun c => negb (is_whitespace c)) (chars s).

Lemma no_space_app s t : no_space (s +:+ t) = no_space s && no_space t.
Proof. unfold no_space. by rewrite chars_app, forallb_app. Qed.

Lemma newline_space : is_whitespace newline = true.
Proof. done. Qed.

(** A word followed by a space is split off. *)
Lemma words_aux_word acc w l :
  forallb (fun c => negb (is_whitespace c)) w = true →
  words_aux acc (w ++ l) = words_aux (rev w ++ acc) l.
Proof.
  revert acc. induction w as [|c w IH]; intros acc Hw; [done|].
  cbn in Hw. breflect. cbn [app words_aux]. rewrite H. rewrite IH by done.
  cbn [rev]. by rewrite <- (assoc_L (++)).
Qed.

Lemma words_aux_all acc w :
  forallb (fun c => negb (is_whitespace c)) w = true → rev w ++ acc ≠ [] →
  words_aux acc w = [of_chars (rev (rev w ++ acc))].
Proof.
  intros Hw Hne. rewrite <- (app_nil_r w) at 1. rewrite words_aux_word by done.
  cbn. by destruct (rev w ++ acc).
Qed.

Lemma split_one w : no_space w = true → w ≠ EmptyString → split_whitespace w = [w].
Proof.
  intros Hw Hne. unfold split_whitespace. destruct w as [|c w]; [by destruct Hne|].
  rewrite words_aux_all; [|exact Hw|].
  - rewrite app_nil_r, rev_involutive. by rewrite of_chars_chars.
  - rewrite app_nil_r. cbn. by destruct (rev (chars w)).
Qed.

Lemma split_two w v :
  no_space w = true → w ≠ EmptyString → no_space v = true → v ≠ EmptyString →
  split_whitespace (w +:+ " " +:+ v) = [w; v].
Proof.
  intros Hw Hwn Hv Hvn. unfold split_whitespace. rewrite !chars_app.
  rewrite words_aux_word by exact Hw. rewrite app_nil_r. cbn.
  destruct (rev (chars w)) eqn:E.
  - destruct w; [by destruct Hwn|]. cbn in E. by destruct (rev (chars w)).
  - rewrite <- E, rev_involutive, of_chars_chars. f_equal.
    by apply (split_one v).
Qed.

Lemma trim_start_nonspace l : 
  (∀ c l', l = c :: l' → is_whitespace c = false) → trim_start l = l.
Proof. destruct l as [|c l]; [done|]. intros Hc. cbn. by rewrite (Hc c l). Qed.

(** Text without white space at either end is its own [trim]. *)
Lemma trim_id s :
  (∀ c l', chars s = c :: l' → is_whitespace c = false) →
  (∀ c l', rev (chars s) = c :: l' → is_whitespace c = false) → trim s = s.
Proof.
  intros H1 H2. unfold trim. rewrite (trim_start_nonspace (chars s)) by done.
  rewrite (trim_start_nonspace (rev (chars s))) by done. by rewrite rev_involutive, of_chars_chars.
Qed.

Lemma no_space_head s c l : no_space s = true → chars s = c :: l → is_whitespace c = false.
Proof. unfold no_space. intros Hs E. rewrite E in Hs. cbn in Hs. by breflect. Qed.
Lemma no_space_last s c l : no_space s = true → rev (chars s) = c :: l → is_whitespace c = false.
Proof.
  unfold no_space. intros Hs E. rewrite forallb_forall in Hs.
  specialize (Hs c). apply negb_true_iff, Hs. apply in_rev. rewrite E. by left.
Qed.

Definition no_newline (s : string) : bool := forallb (fun c => negb (bool_decide (c = newline))) (chars s).

Lemma lines_aux_line acc w l :
  forallb (fun c => negb (bool_decide (c = newline))) w = true →
  lines_aux acc (w ++ newline :: l) = of_chars (rev (strip_cr (rev w ++ acc))) :: lines_aux [] l.
Proof.
  revert acc. induction w as [|c w IH]; intros acc Hw; [done|].
  cbn in Hw. apply andb_true_iff in Hw as [Hc Hw]. apply negb_true_iff in Hc.
  cbn [app lines_aux]. rewrite Hc. rewrite IH by done.
  cbn [rev]. by rewrite <- (assoc_L (++)).
Qed.

(** ** Searching and case *)
Definition to_lower_char (c : ascii) : ascii :=
  let n := byte_of_ascii c in if between 65 90 n then ascii_of_byte (n + 32) else c.
Fixpoint to_lowercase (s : string) : string :=
  match s with
  | EmptyString => EmptyString
  | String.String c s => String.String (to_lower_char c) (to_lowercase s)
  end.

Fixpoint starts_with_chars (l p : list ascii) {struct p} : bool :=
  match p, l with
  | [], _ => true
  | d :: p, c :: l => Ascii.eqb c d && starts_with_chars l p
  | _, [] => false
  end.
Definition starts_with (s p : string) : bool := starts_with_chars (chars s) (chars p).

Fixpoint contains_chars (l p : list ascii) : bool :=
  starts_with_chars l p || match l with [] => false | _ :: l => contains_chars l p end.
Definition contains (s p : string) : bool := contains_chars (chars s) (chars p).

(** [find(p)]: the position of the first occurrence. *)
Fixpoint find_chars (l p : list ascii) : option nat :=
  if starts_with_chars l p then Some 0%nat
  else match l with [] => None | _ :: l => S <$> find_chars l p end.
Definition str_find (s p : string) : option nat := find_chars (chars s) (chars p).

(** [rfind(c)]: the position of the last occurrence. *)
Fixpoint rfind_chars (l : list ascii) (c : ascii) : option nat :=
  match l with
  | [] => None
  | d :: l =>
      match rfind_chars l c with
      | Some i => Some (S i)
      | None => if Ascii.eqb d c then Some 0%nat else None
      end
  end.

(** [&s[n..]] and [&s[..n]] for [n] at most the length. *)
Definition str_from (s : string) (n : nat) : string := of_chars (drop n (chars s)).
Definition str_to (s : string) (n : nat) : string := of_chars (take n (chars s)).

Definition is_digit (c : ascii) : bool := between 48 57 (byte_of_ascii c).
Definition is_alphabetic (c : ascii) : bool :=
  let n := byte_of_ascii c in between 65 90 n || between 97 122 n.
Definition is_alphanumeric (c : ascii) : bool := is_digit c || is_alphabetic c.

Definition eq_ignore_ascii_case (s t : string) : bool :=
  bool_decide (to_lowercase s = to_lowercase t).

(** [trim_end_matches(c)]. *)
Fixpoint drop_while_eq (c : ascii) (l : list ascii) : list ascii :=
  match l with
  | d :: l' => if Ascii.eqb d c then drop_while_eq c l' else l
  | [] => []
  end.
Definition trim_end_matches (s : string) (c : ascii) : string :=
  of_chars (rev (drop_while_eq c (rev (chars s)))).

(** [{:?}] of a string: quoted, with the escapes of the printable ASCII range
    and of tab, LF, CR and NUL. *)
Definition double_quote : ascii := "034".
Definition backslash : ascii := "092".
Definition escape_char (c : ascii) : list ascii :=
  if Ascii.eqb c double_quote || Ascii.eqb c backslash then [backslash; c]
  else if Ascii.eqb c "010" then [backslash; "n"]
  else if Ascii.eqb c "013" then [backslash; "r"]
  else if Ascii.eqb c "009" then [backslash; "t"]
  else if Ascii.eqb c "000" then [backslash; "0"]
  else [c].
Definition str_debug (s : string) : string :=
  of_chars ([double_quote] ++ concat (map escape_char (chars s)) ++ [double_quote]).

(** [s.replace(c, r)] for a character [c]. *)
Fixpoint replace_char (c : ascii) (r : string) (s : string) : string :=
  match s with
  | EmptyString => EmptyString
  | String.String d s =>
      if Ascii.eqb d c then r +:+ replace_char c r s else String.String d (replace_char c r s)
  end.

Lemma starts_with_chars_spec l p : starts_with_chars l p = true ↔ p `prefix_of` l.
Proof.
  revert l. induction p as [|d p IH]; intros l; cbn.
  - split; [intros _; apply prefix_nil | done].
  - destruct l as [|c l].
    { split; [discriminate|]. intros [k Hk]. discriminate. }
    rewrite andb_true_iff, IH, Ascii.eqb_eq. split.
    + intros [-> Hp]. by apply prefix_cons.
    + intros Hp. split; [by apply prefix_cons_inv_1 in Hp | by apply prefix_cons_inv_2 in Hp].
Qed.

Lemma drop_while_eq_repeat c l k :
  drop_while_eq c (repeat c k ++ l) = drop_while_eq c l.
Proof. induction k; [done|]. cbn. by rewrite Ascii.eqb_refl. Qed.
