(* ===== verification/TextFacts.v ===== *)
(** * Searching and splitting text

    Lemmas on [str_find], the slices and [trim] for text put together from
    parts, shared by the round trips of the text formats. *)
From stdpp Require Import pretty.
From S2P Require Import Prelude Text.

Lemma length_chars s : length (chars s) = String.length s.
Proof. induction s as [|c s IH]; [done|]. cbn. by rewrite IH. Qed.

Lemma chars_inj a b : chars a = chars b → a = b.
Proof. intros H. by rewrite <- (of_chars_chars a), H, of_chars_chars. Qed.

Lemma str_to_app a b : str_to (a +:+ b) (String.length a) = a.
Proof.
  unfold str_to. rewrite chars_app, <- length_chars, take_app_length. apply of_chars_chars.
Qed.

Lemma str_from_app a b : str_from (a +:+ b) (String.length a) = b.
Proof.
  unfold str_from. rewrite chars_app, <- length_chars, drop_app_length. apply of_chars_chars.
Qed.

Lemma append_assoc a b c : (a +:+ b) +:+ c = a +:+ b +:+ c.
Proof. apply chars_inj. by rewrite !chars_app, (assoc_L (++)). Qed.

Lemma append_length a b : String.length (a +:+ b) = (String.length a + String.length b)%nat.
Proof. by rewrite <- !length_chars, chars_app, length_app. Qed.

(** No character of [s] is [c]. *)
Definition free_of (c : ascii) (s : string) : bool := forallb (fun d => negb (Ascii.eqb d c)) (chars s).

Lemma free_of_app c a b : free_of c (a +:+ b) = free_of c a && free_of c b.
Proof. unfold free_of. by rewrite chars_app, forallb_app. Qed.

Lemma starts_with_chars_app p t : starts_with_chars (p ++ t) p = true.
Proof. apply starts_with_chars_spec. by apply prefix_app_r. Qed.

Lemma find_chars_skip c a p t :
  forallb (fun d => negb (Ascii.eqb d c)) a = true →
  find_chars (a ++ (c :: p) ++ t) (c :: p) = Some (length a).
Proof.
  induction a as [|d a IH]; intros Ha.
  - change ((c :: p) ++ t) with (c :: p ++ t). cbn. rewrite Ascii.eqb_refl.
    by rewrite starts_with_chars_app.
  - cbn in Ha. apply andb_true_iff in Ha as [Hd Ha]. apply negb_true_iff in Hd.
    cbn. rewrite Hd. cbn. specialize (IH Ha). cbn in IH. by rewrite IH.
Qed.

(** The first occurrence is the one put there, if its first character occurs
    nowhere before. *)
Lemma str_find_skip c p a b :
  free_of c a = true → str_find (a +:+ String.String c p +:+ b) (String.String c p) = Some (String.length a).
Proof.
  intros Ha. unfold str_find. rewrite !chars_app, <- length_chars. by apply find_chars_skip.
Qed.

Lemma find_chars_none c p l :
  forallb (fun d => negb (Ascii.eqb d c)) l = true → find_chars l (c :: p) = None.
Proof.
  induction l as [|d l IH]; intros Hl; [done|]. cbn in *. apply andb_true_iff in Hl as [Hd Hl].
  apply negb_true_iff in Hd. rewrite Hd. cbn. by rewrite IH.
Qed.

Lemma str_find_none c p a : free_of c a = true → str_find a (String.String c p) = None.
Proof. intros Ha. by apply find_chars_none. Qed.

(** A prefix that contains [c] before any [d], of text that contains [d] before
    any [c]. *)
Lemma prefix_stop {A} (c d : A) a t p q :
  c ≠ d → c ∉ a → d ∉ p → ¬ (p ++ c :: q) `prefix_of` (a ++ d :: t).
Proof.
  intros Hcd. revert p. induction a as [|x a IH]; intros [|y p] Ha Hp H; cbn in *.
  - apply prefix_cons_inv_1 in H. done.
  - apply prefix_cons_inv_1 in H as ->. apply Hp. left.
  - apply prefix_cons_inv_1 in H as ->. apply Ha. left.
  - apply prefix_cons_inv_2 in H. revert H. apply IH; set_solver.
Qed.

Lemma free_of_not_in c s : free_of c s = true → c ∉ chars s.
Proof.
  unfold free_of. rewrite forallb_forall. intros H Hin. apply list_elem_of_In, H in Hin.
  by rewrite Ascii.eqb_refl in Hin.
Qed.

Lemma starts_with_stop c d a t p q :
  c ≠ d → free_of c a = true → free_of d p = true →
  starts_with (a +:+ String.String d t) (p +:+ String.String c q) = false.
Proof.
  intros Hcd Ha Hp. apply not_true_iff_false. intros H. apply starts_with_chars_spec in H.
  rewrite !chars_app in H. cbn [chars] in H. revert H.
  apply prefix_stop; [done | by apply free_of_not_in..].
Qed.

(** ** Trimming *)
Lemma no_space_free s c : no_space s = true → is_whitespace c = true → free_of c s = true.
Proof.
  unfold no_space, free_of. intros Hs Hc. rewrite forallb_forall in *. intros d Hd.
  apply negb_true_iff, Ascii.eqb_neq. intros ->. apply Hs in Hd. by rewrite Hc in Hd.
Qed.

Lemma trim_no_space s : no_space s = true → trim s = s.
Proof.
  intros Hs. apply trim_id; intros; [by eapply no_space_head | by eapply no_space_last].
Qed.

Lemma trim_start_spaces l k : forallb is_whitespace l = true → trim_start (l ++ k) = trim_start k.
Proof.
  induction l as [|c l IH]; intros Hl; [done|]. cbn in *.
  apply andb_true_iff in Hl as [-> Hl]. by apply IH.
Qed.

(** Surrounding blanks are trimmed. *)
Lemma trim_blanks a s b :
  forallb is_whitespace (chars a) = true → forallb is_whitespace (chars b) = true →
  no_space s = true → s ≠ "" → trim (a +:+ s +:+ b) = s.
Proof.
  intros Ha Hb Hs Hne. unfold trim. rewrite !chars_app.
  rewrite trim_start_spaces by done.
  assert (E : trim_start (chars s ++ chars b) = chars s ++ chars b).
  { apply trim_start_nonspace. intros c l E. destruct s as [|d s]; [done|]. cbn in E.
    injection E as <- _. eapply (no_space_head (String.String d s)); [done | reflexivity]. }
  rewrite E, rev_app_distr, trim_start_spaces.
  - rewrite trim_start_nonspace by (intros c l Ec; by eapply no_space_last).
    by rewrite rev_involutive, of_chars_chars.
  - rewrite forallb_forall in *. intros c Hc. apply Hb. by apply in_rev.
Qed.

Lemma append_nil_r s : s +:+ "" = s.
Proof. apply chars_inj. by rewrite chars_app, app_nil_r. Qed.

Lemma trim_blank_r s : no_space s = true → s ≠ "" → trim (s +:+ " ") = s.
Proof. by apply (trim_blanks "" s " "). Qed.

Lemma trim_blank_l s : no_space s = true → s ≠ "" → trim (" " +:+ s) = s.
Proof. intros. rewrite <- (append_nil_r s) at 1. by apply (trim_blanks " " s ""). Qed.

(** The text before the first separator is determined. *)
Lemma first_sep_inj {A} (c : A) a b s t :
  c ∉ a → c ∉ b → a ++ c :: s = b ++ c :: t → a = b ∧ s = t.
Proof.
  revert b. induction a as [|x a IH]; intros [|y b] Ha Hb E; cbn in E.
  - by injection E as ->.
  - injection E as -> _. exfalso. apply Hb. left.
  - injection E as -> _. exfalso. apply Ha. left.
  - injection E as -> E. destruct (IH b) as [-> ->]; [set_solver..|]; done.
Qed.

(** ** Printing and parsing integers

    Rust's [str::parse] on the integer types, and that it reads back what the
    [Display] of an integer (stdpp's [pretty]) prints. *)
Local Open Scope Z_scope.
Definition digit_of (c : ascii) : Z := byte_of_ascii c - 48.
Definition digits_number (l : list ascii) : Z := fold_left (fun n c => 10 * n + digit_of c) l 0.

(** A non-empty run of digits. *)
Definition parse_digits (l : list ascii) : option Z :=
  match l with
  | [] => None
  | _ => if forallb is_digit l then Some (digits_number l) else None
  end.

(** [s.parse] at the unsigned or signed type of width [w]; every error is
    [None]. *)
Definition parse_number (signed : bool) (w : Z) (s : string) : option Z :=
  n ← match chars s with
      | c :: l =>
          if Ascii.eqb c "+" then parse_digits l
          else if signed && Ascii.eqb c "-" then Z.opp <$> parse_digits l
          else parse_digits (c :: l)
      | [] => None
      end;
  if in_int signed w n then Some n else None.

(** ** Printing *)
Lemma digits_number_app l k :
  digits_number (l ++ k) = fold_left (fun n c => 10 * n + digit_of c) k (digits_number l).
Proof. apply fold_left_app. Qed.

Lemma pretty_char_digit n :
  (n < 10)%N → is_digit (pretty_N_char n) = true ∧ digit_of (pretty_N_char n) = Z.of_N n.
Proof.
  intros Hn. assert (∃ k, (k < 10)%nat ∧ n = N.of_nat k) as (k & Hk & ->).
  { exists (N.to_nat n). lia. }
  do 10 (destruct k as [|k]; [split; reflexivity|]). lia.
Qed.

(** The digits printed for a positive number. *)
Lemma pretty_N_go_digits x s :
  (0 < x)%N →
  ∃ l, chars (pretty_N_go x s) = l ++ chars s ∧ l ≠ [] ∧ forallb is_digit l = true ∧
       digits_number l = Z.of_N x.
Proof.
  revert s. induction (N.lt_wf_0 x) as [x _ IH]. intros s Hx.
  rewrite pretty_N_go_step by done.
  destruct (pretty_char_digit (x `mod` 10)) as (Hd & Hv); [by apply N.mod_lt|].
  assert (Hdm := N.div_mod' x 10).
  destruct (decide (x `div` 10 = 0)%N) as [E|E].
  - rewrite E, pretty_N_go_0. exists [pretty_N_char (x `mod` 10)].
    split; [done|]. split; [done|]. split; [cbn; by rewrite Hd|].
    cbn. rewrite Hv. lia.
  - destruct (IH (x `div` 10)%N) with (s := String.String (pretty_N_char (x `mod` 10)) s)
      as (l & -> & Hl & Hall & Hn); [apply N.div_lt; lia | by apply N.neq_0_lt_0 |].
    exists (l ++ [pretty_N_char (x `mod` 10)]). rewrite <- app_assoc. split; [done|].
    split; [by destruct l|]. rewrite forallb_app, Hall. split; [cbn; by rewrite Hd|].
    rewrite digits_number_app, Hn. cbn. rewrite Hv. lia.
Qed.

Lemma pretty_N_digits n :
  ∃ l, chars (pretty n) = l ∧ l ≠ [] ∧ forallb is_digit l = true ∧ digits_number l = Z.of_N n.
Proof.
  destruct (decide (n = 0)%N) as [->|Hn]; [by exists ["0"%char]|].
  unfold pretty, pretty_N. rewrite decide_False by done.
  destruct (pretty_N_go_digits n "") as (l & -> & Hl); [lia|].
  exists l. by rewrite app_nil_r.
Qed.

Lemma parse_digits_pretty n : parse_digits (chars (pretty n)) = Some (Z.of_N n).
Proof.
  destruct (pretty_N_digits n) as (l & -> & Hl & Hall & Hn). unfold parse_digits.
  rewrite Hall, Hn. by destruct l.
Qed.

Lemma digit_not_sign c : is_digit c = true → Ascii.eqb c "+" = false ∧ Ascii.eqb c "-" = false.
Proof.
  intros Hc. split; apply Ascii.eqb_neq; intros ->; discriminate.
Qed.

(** Parsing inverts printing on the numbers of the type. *)
Lemma parse_number_pretty signed w n :
  in_int signed w n = true → parse_number signed w (pretty n) = Some n.
Proof.
  intros Hr. unfold parse_number.
  assert (∀ k, match chars (pretty (k : N)) with
          | c :: l => if Ascii.eqb c "+" then parse_digits l
                      else if signed && Ascii.eqb c "-" then Z.opp <$> parse_digits l
                      else parse_digits (c :: l)
          | [] => None end = Some (Z.of_N k)) as Hpos.
  { intros k. pose proof (parse_digits_pretty k) as Hk.
    destruct (pretty_N_digits k) as (l & E & Hl & Hall & _). rewrite E in *.
    destruct l as [|c l]; [done|]. cbn in Hall. apply andb_prop in Hall as [Hc _].
    destruct (digit_not_sign c Hc) as [-> ->]. by rewrite andb_false_r. }
  destruct n as [|p|p].
  - change (pretty 0) with (pretty 0%N). rewrite Hpos. cbn. by rewrite Hr.
  - change (pretty (Z.pos p)) with (pretty (N.pos p)). rewrite Hpos. cbn. by rewrite Hr.
  - change (pretty (Z.neg p)) with ("-" +:+ pretty (N.pos p)).
    destruct signed; [|exfalso; unfold in_int, in_u in Hr; cbn in Hr; lia].
    rewrite chars_app. change (chars "-") with ["-"%char]. cbn [app Ascii.eqb Bool.eqb andb].
    change (("-" =? "+")%char) with false. change (("-" =? "-")%char) with true. cbn [andb].
    rewrite parse_digits_pretty.
    change (Z.opp <$> Some (Z.of_N (N.pos p))) with (Some (Z.neg p)). cbn [mbind option_bind]. by rewrite Hr.
Qed.

(** What is parsed is in range. *)
Lemma parse_number_in signed w s n : parse_number signed w s = Some n → in_int signed w n = true.
Proof.
  unfold parse_number. intros H. apply bind_Some in H as (k & _ & H).
  by destruct (in_int signed w k) eqn:E; simplify_eq.
Qed.

Lemma digit_not_space c : is_digit c = true → is_whitespace c = false.
Proof.
  unfold is_digit, between, is_whitespace. intros Hc. apply andb_prop in Hc as [Hlo Hhi].
  revert Hlo Hhi. destruct c as [[] [] [] [] [] [] [] []]; vm_compute; congruence.
Qed.

(** The digits of a number that is not negative. *)
Lemma pretty_digits n :
  0 ≤ n → forallb is_digit (chars (pretty n)) = true ∧ pretty n ≠ "" ∧ parse_digits (chars (pretty n)) = Some n.
Proof.
  intros Hn. assert (pretty n = pretty (Z.to_N n)) as -> by (by destruct n).
  destruct (pretty_N_digits (Z.to_N n)) as (l & E & Hl & Hall & _).
  rewrite parse_digits_pretty, Z2N.id by done. rewrite <- E in Hl, Hall. split; [done|].
  split; [|done]. intros Hs. by rewrite Hs in Hl.
Qed.

Lemma pretty_no_space n : 0 ≤ n → no_space (pretty n) = true.
Proof.
  intros Hn. destruct (pretty_digits n Hn) as (Hall & _). unfold no_space.
  apply forallb_forall. intros c Hc. rewrite forallb_forall in Hall. by rewrite digit_not_space by auto.
Qed.
