(* ===== verification/IlSyntax.v ===== *)
(** * Instruction List: lexer and parser
    ([audesys-il-compiler/src/{lexer,parser}.rs]) *)
From S2P Require Import Prelude Text.

Inductive Token :=
  | TLd | TLdn | TSt | TAnd | TAndn | TOr | TOrn | TXor
  | TAdd | TSub | TMul | TDiv | TMod
  | TGt | TGe | TEq | TNe | TLe | TLt
  | TJmp | TJmpc | TJmpcn | TCal | TRet | TS | TR | TNot
  | TTon | TTof | TTp | TCtu | TCtd | TRTrig | TFTrig | TSr | TRs
  | TIdent (name : string)
  | TLabel (name : string).

#[export] Instance Token_eq_dec : EqDecision Token.
Proof. solve_decision. Defined.

(** [impl Display for Token]. *)
Definition token_fmt (t : Token) : string :=
  match t with
  | TLd => "LD" | TLdn => "LDN" | TSt => "ST" | TAnd => "AND" | TAndn => "ANDN"
  | TOr => "OR" | TOrn => "ORN" | TXor => "XOR"
  | TAdd => "ADD" | TSub => "SUB" | TMul => "MUL" | TDiv => "DIV" | TMod => "MOD"
  | TGt => "GT" | TGe => "GE" | TEq => "EQ" | TNe => "NE" | TLe => "LE" | TLt => "LT"
  | TJmp => "JMP" | TJmpc => "JMPC" | TJmpcn => "JMPCN" | TCal => "CAL" | TRet => "RET"
  | TS => "S" | TR => "R" | TNot => "NOT"
  | TTon => "TON" | TTof => "TOF" | TTp => "TP" | TCtu => "CTU" | TCtd => "CTD"
  | TRTrig => "R_TRIG" | TFTrig => "F_TRIG" | TSr => "SR" | TRs => "RS"
  | TIdent name => name
  | TLabel name => name +:+ ":"
  end.

(** The [in_comment] scanner, character by character. *)
Fixpoint remove_comments_aux (in_comment : bool) (l : list ascii) : list ascii :=
  match l with
  | [] => []
  | c :: l1 =>
      match c, l1 with
      | "("%char, "*"%char :: l2 => remove_comments_aux true l2
      | "*"%char, ")"%char :: l2 =>
          if in_comment then remove_comments_aux false l2
          else c :: remove_comments_aux in_comment l1
      | _, _ =>
          if in_comment then remove_comments_aux in_comment l1
          else c :: remove_comments_aux in_comment l1
      end
  end.
Definition remove_inline_comments (line : string) : string :=
  of_chars (remove_comments_aux false (chars line)).

Definition mnemonics : list (string * Token) :=
  [("LD", TLd); ("LDN", TLdn); ("ST", TSt); ("AND", TAnd); ("ANDN", TAndn);
   ("OR", TOr); ("ORN", TOrn); ("XOR", TXor); ("ADD", TAdd); ("SUB", TSub);
   ("MUL", TMul); ("DIV", TDiv); ("MOD", TMod); ("GT", TGt); ("GE", TGe);
   ("EQ", TEq); ("NE", TNe); ("LE", TLe); ("LT", TLt); ("JMP", TJmp);
   ("JMPC", TJmpc); ("JMPCN", TJmpcn); ("CAL", TCal); ("RET", TRet); ("S", TS);
   ("R", TR); ("NOT", TNot); ("TON", TTon); ("TOF", TTof); ("TP", TTp);
   ("CTU", TCtu); ("CTD", TCtd); ("R_TRIG", TRTrig); ("F_TRIG", TFTrig);
   ("SR", TSr); ("RS", TRs)].

Fixpoint assoc_string {A} (s : string) (l : list (string * A)) : option A :=
  match l with
  | [] => None
  | (k, v) :: l => if String.eqb s k then Some v else assoc_string s l
  end.
Definition parse_mnemonic (s : string) : option Token := assoc_string s mnemonics.

(** The tokens after a label on its line. *)
Definition word_token (part : string) : Token :=
  match parse_mnemonic (to_uppercase part) with Some t => t | None => TIdent part end.

Definition starts_comment (s : string) : bool :=
  match chars s with "("%char :: "*"%char :: _ => true | _ => false end.

Definition tokenize_line (line : string) : list Token :=
  let trimmed := trim line in
  if String.eqb trimmed EmptyString || starts_comment trimmed then []
  else
    match split_whitespace (remove_inline_comments trimmed) with
    | [] => []
    | p0 :: rest =>
        (if ends_with_char p0 ":" then TLabel (drop_last p0) :: map word_token rest else []) ++
        match parse_mnemonic (to_uppercase p0) with
        | None => []
        | Some tok => tok :: match rest with [] => [] | operand :: _ => [TIdent operand] end
        end
    end.

Definition tokenize (source : string) : list Token := concat (map tokenize_line (lines source)).

(** ** Parser *)
Inductive CompareOp := CmpEq | CmpNe | CmpGt | CmpGe | CmpLt | CmpLe.

Inductive ILStatement :=
  | ILoad (var : string) | ILoadNot (var : string) | IStore (var : string)
  | IAnd (var : string) | IAndNot (var : string) | IOr (var : string) | IOrNot (var : string)
  | IXor (var : string) | IAdd (var : string) | ISub (var : string) | IMul (var : string)
  | IDiv (var : string) | IMod (var : string)
  | ICmp (op : CompareOp) (var : string)
  | IJump (label : string) | IJumpIf (label : string) | IJumpIfNot (label : string)
  | ICall (fb : string) | IReturn
  | ISet (var : string) | IReset (var : string) | INot
  | ITon (var : string) | ITof (var : string) | ITp (var : string)
  | ICtu (var : string) | ICtd (var : string)
  | IRTrig (var : string) | IFTrig (var : string) | ISr (var : string) | IRs (var : string)
  | ILabel (name : string).

#[export] Instance CompareOp_eq_dec : EqDecision CompareOp.
Proof. solve_decision. Defined.
#[export] Instance ILStatement_eq_dec : EqDecision ILStatement.
Proof. solve_decision. Defined.

(** The statement an operand-taking token builds. *)
Definition operand_stmt (t : Token) : option (string → ILStatement) :=
  match t with
  | TLd => Some ILoad | TLdn => Some ILoadNot | TSt => Some IStore
  | TAnd => Some IAnd | TAndn => Some IAndNot | TOr => Some IOr | TOrn => Some IOrNot
  | TXor => Some IXor | TAdd => Some IAdd | TSub => Some ISub | TMul => Some IMul
  | TDiv => Some IDiv | TMod => Some IMod
  | TGt => Some (ICmp CmpGt) | TGe => Some (ICmp CmpGe) | TEq => Some (ICmp CmpEq)
  | TNe => Some (ICmp CmpNe) | TLe => Some (ICmp CmpLe) | TLt => Some (ICmp CmpLt)
  | TJmp => Some IJump | TJmpc => Some IJumpIf | TJmpcn => Some IJumpIfNot
  | TCal => Some ICall | TS => Some ISet | TR => Some IReset
  | TTon => Some ITon | TTof => Some ITof | TTp => Some ITp
  | TCtu => Some ICtu | TCtd => Some ICtd
  | TRTrig => Some IRTrig | TFTrig => Some IFTrig | TSr => Some ISr | TRs => Some IRs
  | TRet | TNot | TIdent _ | TLabel _ => None
  end.

(** [expect_ident]: the next identifier, or ["?"] without consuming. *)
Definition expect_ident (tokens : list Token) : string * list Token :=
  match tokens with
  | TIdent name :: rest => (name, rest)
  | _ => ("?", tokens)
  end.

Fixpoint parse (tokens : list Token) : list ILStatement :=
  match tokens with
  | [] => []
  | t :: rest =>
      match operand_stmt t with
      | Some c =>
          match rest with
          | TIdent name :: rest' => c name :: parse rest'
          | _ => c "?" :: parse rest
          end
      | None =>
          match t with
          | TRet => IReturn :: parse rest
          | TNot => INot :: parse rest
          | TLabel name => ILabel name :: parse rest
          | _ => parse rest
          end
      end
  end.

(** ** Lemmas *)

(** The parser in terms of [expect_ident], as the source writes it. *)
Lemma parse_operand t c rest :
  operand_stmt t = Some c →
  parse (t :: rest) = (let '(name, rest') := expect_ident rest in c name :: parse rest').
Proof. intros Ht. cbn. rewrite Ht. by destruct rest as [|[] rest]. Qed.

Definition is_mnemonic (t : Token) : bool :=
  match t with TIdent _ | TLabel _ => false | _ => true end.

Lemma parse_mnemonic_fmt t :
  is_mnemonic t = true → parse_mnemonic (to_uppercase (token_fmt t)) = Some t.
Proof. by destruct t. Qed.

Lemma token_fmt_no_space t :
  is_mnemonic t = true → no_space (token_fmt t) = true ∧ token_fmt t ≠ EmptyString.
Proof. by destruct t. Qed.

(** The token sequence of a statement, and back. *)
Definition stmt_tokens (s : ILStatement) : list Token :=
  match s with
  | ILoad v => [TLd; TIdent v] | ILoadNot v => [TLdn; TIdent v] | IStore v => [TSt; TIdent v]
  | IAnd v => [TAnd; TIdent v] | IAndNot v => [TAndn; TIdent v]
  | IOr v => [TOr; TIdent v] | IOrNot v => [TOrn; TIdent v] | IXor v => [TXor; TIdent v]
  | IAdd v => [TAdd; TIdent v] | ISub v => [TSub; TIdent v] | IMul v => [TMul; TIdent v]
  | IDiv v => [TDiv; TIdent v] | IMod v => [TMod; TIdent v]
  | ICmp CmpEq v => [TEq; TIdent v] | ICmp CmpNe v => [TNe; TIdent v]
  | ICmp CmpGt v => [TGt; TIdent v] | ICmp CmpGe v => [TGe; TIdent v]
  | ICmp CmpLt v => [TLt; TIdent v] | ICmp CmpLe v => [TLe; TIdent v]
  | IJump l => [TJmp; TIdent l] | IJumpIf l => [TJmpc; TIdent l]
  | IJumpIfNot l => [TJmpcn; TIdent l] | ICall l => [TCal; TIdent l]
  | IReturn => [TRet] | ISet v => [TS; TIdent v] | IReset v => [TR; TIdent v] | INot => [TNot]
  | ITon v => [TTon; TIdent v] | ITof v => [TTof; TIdent v] | ITp v => [TTp; TIdent v]
  | ICtu v => [TCtu; TIdent v] | ICtd v => [TCtd; TIdent v]
  | IRTrig v => [TRTrig; TIdent v] | IFTrig v => [TFTrig; TIdent v]
  | ISr v => [TSr; TIdent v] | IRs v => [TRs; TIdent v]
  | ILabel n => [TLabel n]
  end.

Lemma parse_stmt_tokens s rest : parse (stmt_tokens s ++ rest) = s :: parse rest.
Proof. by destruct s as [ | | | | | | | | | | | | |[] v | | | | | | | | | | | | | | | | | | ]. Qed.

Lemma parse_tokens_roundtrip stmts : parse (concat (map stmt_tokens stmts)) = stmts.
Proof.
  induction stmts as [|s stmts IH]; [done|]. cbn [map concat].
  by rewrite parse_stmt_tokens, IH.
Qed.

(** ** Printing a program as text *)
Definition render_tokens (ts : list Token) : string :=
  match ts with
  | [t] => token_fmt t
  | [t; v] => token_fmt t +:+ " " +:+ token_fmt v
  | _ => EmptyString
  end.
Definition render_stmt (s : ILStatement) : string := render_tokens (stmt_tokens s).
Fixpoint render (stmts : list ILStatement) : string :=
  match stmts with
  | [] => EmptyString
  | s :: stmts => render_stmt s +:+ String.String newline (render stmts)
  end.

(** A name the lexer reads back: non-empty, without white space or ["("]. *)
Definition name_char (c : ascii) : bool := negb (is_whitespace c) && negb (Ascii.eqb c "(").
Definition valid_name (s : string) : bool :=
  negb (String.eqb s EmptyString) && forallb name_char (chars s).

(** The name a statement mentions. *)
Definition stmt_name (s : ILStatement) : option string :=
  match stmt_tokens s with
  | [_; TIdent v] => Some v
  | [TLabel n] => Some n
  | _ => None
  end.
Definition stmt_valid (s : ILStatement) : bool :=
  match stmt_name s with Some n => valid_name n | None => true end.

Lemma remove_comments_id l :
  forallb (fun c => negb (Ascii.eqb c "(")) l = true → remove_comments_aux false l = l.
Proof.
  induction l as [|c l IH]; [done|]. cbn [forallb]. intros [Hc Hl]%andb_true_iff.
  cbn [remove_comments_aux]. rewrite IH by done.
  destruct c as [[] [] [] [] [] [] [] []]; try done; destruct l as [|d l]; try done;
    by destruct d as [[] [] [] [] [] [] [] []].
Qed.

Definition line_char (c : ascii) : bool := negb (Ascii.eqb c "(").

(** A line that starts and ends with a name character and has no ["("] is
    tokenized by its words. *)
Lemma tokenize_line_words s :
  forallb line_char (chars s) = true →
  (∀ c l, chars s = c :: l → is_whitespace c = false) →
  (∀ c l, rev (chars s) = c :: l → is_whitespace c = false) →
  s ≠ EmptyString →
  tokenize_line s =
    match split_whitespace s with
    | [] => []
    | p0 :: rest =>
        (if ends_with_char p0 ":" then TLabel (drop_last p0) :: map word_token rest else []) ++
        match parse_mnemonic (to_uppercase p0) with
        | None => []
        | Some tok => tok :: match rest with [] => [] | operand :: _ => [TIdent operand] end
        end
    end.
Proof.
  intros Hc Hh Hl Hne. unfold tokenize_line. rewrite trim_id by done.
  destruct (String.eqb_spec s EmptyString) as [|_]; [done|]. cbn [orb].
  assert (starts_comment s = false) as ->.
  { unfold starts_comment. destruct (chars s) as [|c l]; [done|].
    cbn [forallb] in Hc. apply andb_true_iff in Hc as [Hc _].
    by destruct c as [[] [] [] [] [] [] [] []]. }
  unfold remove_inline_comments. by rewrite remove_comments_id, of_chars_chars.
Qed.

Lemma valid_name_inv n :
  valid_name n = true →
  n ≠ EmptyString ∧ no_space n = true ∧ forallb line_char (chars n) = true.
Proof.
  unfold valid_name. intros [Hne Hn]%andb_true_iff.
  apply negb_true_iff, String.eqb_neq in Hne. split; [done|].
  rewrite forallb_forall in Hn. unfold no_space. rewrite !forallb_forall.
  split; intros c Hc; specialize (Hn c Hc); by apply andb_true_iff in Hn as [? ?].
Qed.

Lemma chars_nonempty s : s ≠ EmptyString → chars s ≠ [].
Proof. by destruct s. Qed.

Lemma rev_app_head {A} (l k : list A) c t :
  k ≠ [] → rev (l ++ k) = c :: t → ∃ t', rev k = c :: t'.
Proof.
  intros Hk. rewrite rev_app_distr. destruct (rev k) as [|d r] eqn:E.
  - destruct k; [done|]. cbn in E. by destruct (rev k).
  - intros [= -> _]. eauto.
Qed.

(** Both ends of [w ++ sep ++ v] are those of [w] and [v]. *)
Lemma ends_no_space w sep v :
  w ≠ EmptyString → v ≠ EmptyString → no_space w = true → no_space v = true →
  let s := w +:+ sep +:+ v in
  (∀ c l, chars s = c :: l → is_whitespace c = false) ∧
  (∀ c l, rev (chars s) = c :: l → is_whitespace c = false).
Proof.
  intros Hw Hv Hsw Hsv. cbn zeta. rewrite !chars_app. split.
  - intros c l E. destruct w as [|c0 w]; [done|]. injection E as <- _.
    by apply (no_space_head (String c0 w) c0 (chars w)).
  - intros c l E. rewrite (assoc_L (++)) in E.
    apply rev_app_head in E as (t & E); [|by apply chars_nonempty].
    by apply (no_space_last v c t).
Qed.

Lemma tokenize_line_operand t v :
  is_mnemonic t = true → valid_name v = true →
  tokenize_line (token_fmt t +:+ " " +:+ v) = [t; TIdent v].
Proof.
  intros Ht Hv. destruct (token_fmt_no_space t Ht) as [Hs Hne].
  destruct (valid_name_inv v Hv) as (Hvne & Hvs & Hvc).
  destruct (ends_no_space (token_fmt t) " " v Hne Hvne Hs Hvs) as [Hh Hl].
  rewrite tokenize_line_words; [|..|done|done|].
  - rewrite split_two by done. rewrite parse_mnemonic_fmt by done. by destruct t.
  - rewrite !chars_app, !forallb_app, Hvc. by destruct t.
  - by destruct t.
Qed.

Lemma tokenize_line_single t :
  is_mnemonic t = true → tokenize_line (token_fmt t) = [t].
Proof. by destruct t. Qed.

Lemma ends_with_colon n : ends_with_char (n +:+ ":") ":" = true.
Proof. unfold ends_with_char. by rewrite chars_app, rev_app_distr. Qed.

Lemma drop_last_colon n : drop_last (n +:+ ":") = n.
Proof.
  unfold drop_last. rewrite chars_app, rev_app_distr. cbn.
  by rewrite rev_involutive, of_chars_chars.
Qed.

Lemma to_uppercase_app s t : to_uppercase (s +:+ t) = to_uppercase s +:+ to_uppercase t.
Proof.
  induction s as [|c s IH]; [done|].
  change (to_uppercase (String c s +:+ t)) with (String (to_upper_char c) (to_uppercase (s +:+ t))).
  by rewrite IH.
Qed.

Lemma assoc_string_in {A} s (l : list (string * A)) v :
  assoc_string s l = Some v → In s (map fst l).
Proof.
  induction l as [|[k w] l IH]; [done|]. cbn.
  destruct (String.eqb_spec s k) as [->|]; auto.
Qed.

(** No mnemonic ends with a colon. *)
Lemma mnemonic_no_colon n : parse_mnemonic (n +:+ ":") = None.
Proof.
  destruct (parse_mnemonic (n +:+ ":")) eqn:E; [|done].
  apply assoc_string_in in E.
  assert (Hall : forallb (fun s => negb (ends_with_char s ":")) (map fst mnemonics) = true)
    by reflexivity.
  rewrite forallb_forall in Hall. specialize (Hall _ E). by rewrite ends_with_colon in Hall.
Qed.

Lemma tokenize_line_label n :
  valid_name n = true → tokenize_line (n +:+ ":") = [TLabel n].
Proof.
  intros Hn. destruct (valid_name_inv n Hn) as (Hne & Hs & Hc).
  destruct (ends_no_space n EmptyString ":" Hne ltac:(done) Hs ltac:(done)) as [Hh Hl].
  cbn [String.append] in Hh, Hl.
  assert (n +:+ ":" ≠ EmptyString) by by destruct n.
  rewrite tokenize_line_words; [|by rewrite chars_app, forallb_app, Hc|exact Hh|exact Hl|done].
  rewrite split_one; [|by rewrite no_space_app, Hs|done].
  rewrite ends_with_colon, drop_last_colon, to_uppercase_app.
  change (to_uppercase ":") with ":". by rewrite mnemonic_no_colon.
Qed.

Lemma tokenize_stmt s : stmt_valid s = true → tokenize_line (render_stmt s) = stmt_tokens s.
Proof.
  unfold stmt_valid, stmt_name, render_stmt.
  destruct s as [ | | | | | | | | | | | | |[] v | | | | | | | | | | | | | | | | | | ];
    cbn [stmt_tokens render_tokens]; intros Hv; try done;
    try (by apply tokenize_line_operand).
  by apply tokenize_line_label.
Qed.

Lemma stmt_line_no_newline s :
  stmt_valid s = true →
  forallb (fun c => negb (bool_decide (c = newline))) (chars (render_stmt s)) = true.
Proof.
  assert (Hname : ∀ n, valid_name n = true →
            forallb (fun c => negb (bool_decide (c = newline))) (chars n) = true).
  { intros n Hn. destruct (valid_name_inv n Hn) as (_ & Hs & _). unfold no_space in Hs.
    rewrite forallb_forall in Hs |- *. intros c Hc. specialize (Hs c Hc).
    apply negb_true_iff, bool_decide_eq_false. intros ->. done. }
  unfold stmt_valid, stmt_name, render_stmt.
  destruct s as [ | | | | | | | | | | | | |[] v | | | | | | | | | | | | | | | | | | ];
    cbn [stmt_tokens render_tokens token_fmt]; intros Hv; try done;
    rewrite !chars_app, !forallb_app, (Hname _ Hv); done.
Qed.

(** The last character of a statement's line is not a carriage return. *)
Lemma stmt_line_no_cr s :
  stmt_valid s = true → strip_cr (rev (chars (render_stmt s))) = rev (chars (render_stmt s)).
Proof.
  assert (Hend : ∀ w n, no_space n = true → n ≠ EmptyString →
    strip_cr (rev (chars (w +:+ n))) = rev (chars (w +:+ n))).
  { intros w n Hs Hn. destruct (rev (chars (w +:+ n))) as [|c t] eqn:E; [done|].
    rewrite chars_app in E. apply rev_app_head in E as (t' & E); [|by apply chars_nonempty].
    cbn. apply no_space_last in E; [|done].
    destruct (bool_decide_reflect (c = carriage_return)) as [->|]; done. }
  unfold stmt_valid, stmt_name, render_stmt.
  destruct s as [ | | | | | | | | | | | | |[] v | | | | | | | | | | | | | | | | | | ];
    cbn [stmt_tokens render_tokens token_fmt]; intros Hv; try done;
    try (by apply (Hend EmptyString));
    try (by apply Hend);
    try (destruct (valid_name_inv _ Hv) as (? & ? & _);
         match goal with |- context [?a +:+ ?b +:+ ?c] =>
           change (a +:+ b +:+ c) with ((a +:+ b) +:+ c) end; by apply Hend).
Qed.

Lemma lines_render s stmts :
  stmt_valid s = true → lines (render (s :: stmts)) = render_stmt s :: lines (render stmts).
Proof.
  intros Hs. unfold lines. cbn [render]. rewrite chars_app. cbn [chars].
  rewrite lines_aux_line by (by apply stmt_line_no_newline).
  rewrite app_nil_r, stmt_line_no_cr by done. by rewrite rev_involutive, of_chars_chars.
Qed.

(** [C27] Print/parse round trip of Instruction List: printing any list of
    statements whose names are non-empty and contain no white space and no
    opening parenthesis, one statement per line with the mnemonics of
    [Display for Token], and lexing and parsing the text gives the same
    statements back. *)
Theorem il_text_roundtrip stmts :
  forallb stmt_valid stmts = true → parse (tokenize (render stmts)) = stmts.
Proof.
  intros Hv. transitivity (parse (concat (map stmt_tokens stmts))); [f_equal|apply parse_tokens_roundtrip].
  unfold tokenize. induction stmts as [|s stmts IH]; [done|].
  cbn [forallb] in Hv. apply andb_true_iff in Hv as [Hs Hv].
  rewrite lines_render by done. cbn [map concat]. by rewrite tokenize_stmt, IH.
Qed.

Lemma il_text_roundtrip_witness :
  parse (tokenize (render [ILoad "a"; IAndNot "b"; ILabel "end"; IStore "q"])) =
  [ILoad "a"; IAndNot "b"; ILabel "end"; IStore "q"].
Proof.
  exact (il_text_roundtrip [ILoad "a"; IAndNot "b"; ILabel "end"; IStore "q"] eq_refl).
Defined.
