(* ===== verification/IlCodegen.v ===== *)
(** * Instruction List: code generation
    ([audesys-il-compiler/src/{codegen,lib}.rs])

    [compile_ast] returns [None] where [get_var_reg] panics (an eleventh
    variable). *)
From S2P Require Import Prelude HalTypes HalValue HalIr Text IlSyntax.
Local Open Scope Z_scope.

Definition USER_REG_START : nat := 0.
Definition USER_REG_MAX : nat := 9.
Definition TEMP1_REG : nat := 12.
Definition CR_REG : nat := 14.
Definition TRUE_REG : nat := 15.

Record Codegen := mkCodegen {
  cg_instructions : list Instruction;
  var_map : gmap string nat;
  next_reg : nat;
  labels : gmap string nat;
  label_refs : list (nat * string) }.

Definition codegen_new : Codegen := mkCodegen [] ∅ USER_REG_START ∅ [].

Definition emit (g : Codegen) (i : Instruction) : Codegen :=
  mkCodegen (cg_instructions g ++ [i]) (var_map g) (next_reg g) (labels g) (label_refs g).

Definition current_ip (g : Codegen) : nat := length (cg_instructions g).

Definition get_var_reg (g : Codegen) (name : string) : option (nat * Codegen) :=
  match var_map g !! name with
  | Some r => Some (r, g)
  | None =>
      let r := next_reg g in
      if (USER_REG_MAX <? r)%nat then None
      else Some (r, mkCodegen (cg_instructions g) (<[name := r]> (var_map g)) (S r) (labels g)
                      (label_refs g))
  end.

Definition emit_load_reg (g : Codegen) (dest src : nat) : Codegen :=
  emit g (mkInst OpLoad [Register dest; Register src]).
Definition emit_load_imm (g : Codegen) (dest : nat) (v : HalValue) : Codegen :=
  emit g (mkInst OpLoad [Register dest; Immediate v]).
Definition emit_load_signal (g : Codegen) (dest : nat) (var : string) : Codegen :=
  emit g (mkInst OpLoad [Register dest; SignalName var]).
Definition emit_not (g : Codegen) (src dest : nat) : Codegen :=
  emit g (mkInst OpNot [Register src; Register dest]).
Definition emit_arith (g : Codegen) (op : Opcode) (a b out : nat) : Codegen :=
  emit g (mkInst op [Register a; Register b; Register out]).
Definition emit_cmp (g : Codegen) (op : Opcode) (a b : nat) : Codegen :=
  emit g (mkInst op [Register a; Register b]).
Definition emit_jump (g : Codegen) (target : Z) : Codegen := emit g (jump target).
Definition emit_jump_if (g : Codegen) (target : Z) : Codegen := emit g (jump_if target).

Definition push_label_ref (g : Codegen) (idx : nat) (label : string) : Codegen :=
  mkCodegen (cg_instructions g) (var_map g) (next_reg g) (labels g)
    (label_refs g ++ [(idx, label)]).
Definition set_label (g : Codegen) (name : string) : Codegen :=
  mkCodegen (cg_instructions g) (var_map g) (next_reg g)
    (<[name := current_ip g]> (labels g)) (label_refs g).

(** [n as u32]. *)
Definition ip_u32 (n : nat) : Z := wrap_u 32 (Z.of_nat n).

Definition materialize_cr_from_flags (g : Codegen) : Codegen :=
  let true_ip := ip_u32 (current_ip g + 3) in
  let done_ip := ip_u32 (current_ip g + 5) in
  let g := emit_jump_if g true_ip in
  let g := emit_load_imm g CR_REG (VBool false) in
  let g := emit_jump g done_ip in
  emit_load_imm g CR_REG (VBool true).

Definition emit_bool_test_and_jump (g : Codegen) (label : string) (negate : bool) : Codegen :=
  let g := emit_cmp g (if negate then OpNeq else OpEq) CR_REG TRUE_REG in
  let idx := current_ip g in
  push_label_ref (emit_jump_if g 0) idx label.

Definition cmp_opcode (op : CompareOp) : Opcode :=
  match op with
  | CmpEq => OpEq | CmpNe => OpNeq | CmpGt => OpGt | CmpGe => OpGte
  | CmpLt => OpLt | CmpLe => OpLte
  end.

(** CR := CR op register of [var]. *)
Definition compile_arith (g : Codegen) (op : Opcode) (var : string) : option Codegen :=
  '(r, g) ← get_var_reg g var; Some (emit_arith g op CR_REG r CR_REG).

(** A function block call with the single operand [r]. *)
Definition compile_block (g : Codegen) (op : Opcode) (var : string) : option Codegen :=
  '(r, g) ← get_var_reg g var; Some (emit g (mkInst op [Register r])).

Definition compile_stmt (g : Codegen) (s : ILStatement) : option Codegen :=
  match s with
  | ILabel name => Some (set_label g name)
  | ILoad var =>
      '(r, g) ← get_var_reg g var;
      Some (emit_load_reg (emit_load_signal g r var) CR_REG r)
  | ILoadNot var =>
      '(r, g) ← get_var_reg g var;
      Some (emit_not (emit_load_reg (emit_load_signal g r var) CR_REG r) CR_REG CR_REG)
  | IStore var => Some (emit g (mkInst OpStore [SignalName var; Register CR_REG]))
  | IAnd var =>
      '(r, g) ← get_var_reg g var;
      Some (emit_arith (emit_load_signal g r var) OpAnd CR_REG r CR_REG)
  | IAndNot var =>
      '(r, g) ← get_var_reg g var;
      let g := emit_load_signal g r var in
      let g := emit_load_reg g TEMP1_REG r in
      let g := emit_not g TEMP1_REG TEMP1_REG in
      Some (emit_arith g OpAnd CR_REG TEMP1_REG CR_REG)
  | IOr var => compile_arith g OpOr var
  | IOrNot var =>
      '(r, g) ← get_var_reg g var;
      let g := emit_load_reg g TEMP1_REG r in
      let g := emit_not g TEMP1_REG TEMP1_REG in
      Some (emit_arith g OpOr CR_REG TEMP1_REG CR_REG)
  | IXor var => compile_arith g OpXor var
  | IAdd var => compile_arith g OpAdd var
  | ISub var => compile_arith g OpSub var
  | IMul var => compile_arith g OpMul var
  | IDiv var => compile_arith g OpDiv var
  | IMod var => compile_arith g OpMod var
  | ICmp op var =>
      '(r, g) ← get_var_reg g var;
      Some (materialize_cr_from_flags (emit_cmp g (cmp_opcode op) CR_REG r))
  | IJump label => Some (push_label_ref (emit_jump g 0) (current_ip g) label)
  | IJumpIf label => Some (emit_bool_test_and_jump g label false)
  | IJumpIfNot label => Some (emit_bool_test_and_jump g label true)
  | ICall fb => Some (push_label_ref (emit g (call 0)) (current_ip g) fb)
  | IReturn => Some (emit g (ret None))
  | ISet var => '(r, g) ← get_var_reg g var; Some (emit_load_imm g r (VBool true))
  | IReset var => '(r, g) ← get_var_reg g var; Some (emit_load_imm g r (VBool false))
  | INot => Some (emit_not g CR_REG CR_REG)
  | ITon var | ITof var | ITp var => compile_block g OpTimerRun var
  | ICtu var | ICtd var => compile_block g OpCounterRun var
  | IRTrig var | IFTrig var => compile_block g OpEdgeRun var
  | ISr var | IRs var => compile_block g OpSrRun var
  end.

Fixpoint compile_stmts (g : Codegen) (stmts : list ILStatement) : option Codegen :=
  match stmts with
  | [] => Some g
  | s :: stmts => g ← compile_stmt g s; compile_stmts g stmts
  end.

(** One backpatch; [result[*idx]] panics outside the program. *)
Definition patch_inst (i : Instruction) (target : Z) : Instruction :=
  match operands i with
  | [] => i
  | _ => match opcode i with
         | OpJump => jump target
         | OpJumpIf => jump_if target
         | OpCall => call target
         | _ => i
         end
  end.

Definition backpatch (lbls : gmap string nat) (halt_ip : Z) (result : list Instruction)
    (ref : nat * string) : option (list Instruction) :=
  let '(idx, name) := ref in
  let target := match lbls !! name with Some n => ip_u32 n | None => halt_ip end in
  i ← result !! idx; Some (<[idx := patch_inst i target]> result).

Fixpoint backpatch_all (lbls : gmap string nat) (halt_ip : Z) (result : list Instruction)
    (refs : list (nat * string)) : option (list Instruction) :=
  match refs with
  | [] => Some result
  | r :: refs => result ← backpatch lbls halt_ip result r; backpatch_all lbls halt_ip result refs
  end.

Definition compile (g : Codegen) (stmts : list ILStatement) : option (list Instruction) :=
  g ← compile_stmts (emit_load_imm g TRUE_REG (VBool true)) stmts;
  let g := emit g halt in
  let result := cg_instructions g in
  let halt_ip := ip_u32 (length result - 1) in
  backpatch_all (labels g) halt_ip result (label_refs g).

Definition compile_ast (stmts : list ILStatement) : option (list Instruction) :=
  compile codegen_new stmts.

(** ** [il_compile] *)

(** The signal bindings of the Store instructions, first occurrences only. *)
Fixpoint store_bindings (seen : gset string) (insts : list Instruction) : list SignalBinding :=
  match insts with
  | [] => []
  | i :: insts =>
      match opcode i, operands i with
      | OpStore, SignalName name :: _ =>
          if bool_decide (name ∈ seen) then store_bindings seen insts
          else Build_SignalBinding name name Write TS32
                 :: store_bindings ({[ name ]} ∪ seen) insts
      | _, _ => store_bindings seen insts
      end
  end.

Definition il_compile (source : string) : option (result HalProgram string) :=
  instructions ← compile_ast (parse (tokenize source));
  Some (Ok (mkProgram "il_program" (store_bindings ∅ instructions) [] instructions [])).
