(* ===== verification/StraightLine.v ===== *)
(** * Straight-line execution

    The step from instruction sequences to the interpreter: code that contains
    no jump runs by executing its instructions in turn.  The compilers'
    correctness theorems use it. *)
From S2P Require Import Prelude Float HalTypes HalValue HalIr FunctionBlocks Vm.
From S2P Require Import Executor ExecutorFacts ExecutorControl.
Local Open Scope Z_scope.

(** [code] is the program text from index [pc] on. *)
Definition code_at (p : HalProgram) (pc : nat) (code : list Instruction) : Prop :=
  ∃ pre post, instructions p = pre ++ code ++ post ∧ length pre = pc.

Lemma code_at_cons p pc i code :
  code_at p pc (i :: code) → instructions p !! pc = Some i ∧ code_at p (S pc) code.
Proof.
  intros (pre & post & Hp & <-). rewrite Hp. split.
  - rewrite lookup_app_r, Nat.sub_diag by lia. done.
  - exists (pre ++ [i]), post. rewrite length_app. cbn. split; [|lia].
    by rewrite Hp, <- (assoc_L (++)).
Qed.

Lemma code_at_app p pc c1 c2 :
  code_at p pc (c1 ++ c2) → code_at p pc c1 ∧ code_at p (pc + length c1) c2.
Proof.
  intros (pre & post & Hp & <-). split.
  - exists pre, (c2 ++ post). by rewrite Hp, !(assoc_L (++)).
  - exists (pre ++ c1), post. rewrite length_app. by rewrite Hp, !(assoc_L (++)).
Qed.

(** ** Signal writes, in order *)
Abbreviation Writes := (list (string * HalValue)) (only parsing).

Definition write_all (s : gmap string HalValue) (w : Writes) : gmap string HalValue :=
  foldl (fun s '(x, v) => <[x := v]> s) s w.

Lemma write_all_app s w1 w2 : write_all s (w1 ++ w2) = write_all (write_all s w1) w2.
Proof. apply foldl_app. Qed.

Section profile.
Context `{BuildProfile}.

(** Run the instructions of [code] one after the other. *)
Fixpoint exec_seq (m : Vm) (code : list Instruction) : option Vm :=
  match code with
  | [] => Some m
  | i :: code =>
      if is_jump (opcode i) then None
      else match execute_instruction m i with
           | Some (m', Continue) => exec_seq (advance_ip m') code
           | _ => None
           end
  end.

Lemma exec_seq_app m c1 c2 :
  exec_seq m (c1 ++ c2) = m' ← exec_seq m c1; exec_seq m' c2.
Proof.
  revert m. induction c1 as [|i c1 IH]; intros m; [done|]. cbn.
  destruct (is_jump (opcode i)); [done|].
  destruct (execute_instruction m i) as [[m' []]|]; [apply IH | done..].
Qed.

Lemma continues_app n k e e1 e2 :
  continues n e e1 → continues k e1 e2 → continues (n + k) e e2.
Proof. induction 1; intros; cbn; [done|]. econstructor; eauto. Qed.

Lemma step_jump m p d t :
  debug_mode d = false → instructions p !! ip m = Some (jump t) →
  continues 1 (mkExecutor m p d) (mkExecutor (set_ip m (Z.to_nat t)) p d).
Proof.
  intros Hd Hi. econstructor; [|constructor].
  rewrite (step_no_debug (mkExecutor m p d) _ Hd Hi). unfold step_instruction.
  cbn. by rewrite Hd.
Qed.

(** Each instruction of a straight-line sequence must only touch the pointer
    through [step]. *)
Lemma continues_seq code m p d m' :
  debug_mode d = false → forallb (fun i => is_data_op (opcode i) || bool_decide (opcode i = OpStore)) code = true →
  code_at p (ip m) code → exec_seq m code = Some m' →
  continues (length code) (mkExecutor m p d) (mkExecutor m' p d) ∧
  ip m' = (ip m + length code)%nat.
Proof.
  intros Hd. revert m. induction code as [|i code IH]; intros m Hops Hc Hr; cbn in Hr.
  - simplify_eq. split; [constructor | cbn; lia].
  - apply code_at_cons in Hc as [Hi Hc].
    cbn [forallb] in Hops. apply andb_true_iff in Hops as [Hop Hops].
    destruct (is_jump (opcode i)) eqn:Hj; [done|].
    destruct (execute_instruction m i) as [[m1 []]|] eqn:He; try done.
    assert (Hip : ip m1 = ip m).
    { apply orb_true_iff in Hop as [Hop | Hop].
      - apply control_data_op in He; [|done]. by injection He.
      - apply bool_decide_eq_true in Hop. unfold execute_instruction in He. rewrite Hop in He.
        by apply exec_store_frame in He as (_ & -> & _). }
    destruct (IH (advance_ip m1)) as [Hcont Hlen]; [done| |done|].
    { cbn. by rewrite Hip. }
    split; [|rewrite Hlen; cbn; lia].
    cbn [length]. econstructor; [|exact Hcont].
    rewrite (step_no_debug (mkExecutor m p d) i) by done.
    unfold step_instruction. cbn [vm debug_state program]. rewrite He. cbn [mbind option_bind].
    rewrite Hd. cbn [mbind option_bind]. by rewrite Hj.
Qed.

(** A straight-line program that ends with Halt runs to that Halt. *)
Lemma run_straight code m d m' name sigs chans fns :
  debug_mode d = false → ip m = 0%nat →
  forallb (fun i => is_data_op (opcode i) || bool_decide (opcode i = OpStore)) code = true →
  exec_seq m code = Some m' →
  ∃ e, run_to_halt (S (length code)) (mkExecutor m (mkProgram name sigs chans (code ++ [halt]) fns) d)
         = Done e (S (length code)) ∧
    vm e = advance_ip m'.
Proof.
  intros Hd Hip Hops Hr. set (p := mkProgram name sigs chans (code ++ [halt]) fns).
  destruct (continues_seq code m p d m' Hd Hops) as [Hc Hip'].
  { rewrite Hip. exists [], [halt]. done. }
  { done. }
  exists (mkExecutor (advance_ip m') p d). split; [|done].
  unfold run_to_halt.
  rewrite (run_loop_complete (length code) _ (mkExecutor m' p d) (mkExecutor (advance_ip m') p d)
             Halted 0); [f_equal; lia | exact Hc | | done | lia].
  rewrite (step_no_debug (mkExecutor m' p d) halt); [|done|].
  - unfold step_instruction. cbn. by rewrite Hd.
  - cbn. rewrite Hip', Hip. apply list_lookup_middle. lia.
Qed.

(** ** Runs that do not end *)
(** No fuel is enough. *)
Definition diverges (e : Executor) : Prop := ∀ fuel k, run_loop fuel e k = OutOfFuel.

Lemma diverges_after n e e' : continues n e e' → diverges e' → diverges e.
Proof.
  induction 1 as [|n e e1 e2 Hs Hc IH]; [done|]. intros Hd [|fuel] k; [done|].
  cbn. rewrite Hs. by apply IH.
Qed.

(** A state that returns to its own kind after at least one step. *)
Lemma diverges_cycle (Inv : Executor → Prop) e :
  (∀ e, Inv e → ∃ n e', continues (S n) e e' ∧ Inv e') → Inv e → diverges e.
Proof.
  intros Hstep Hi fuel. revert e Hi. induction fuel as [fuel IH] using lt_wf_ind.
  intros e Hi k. destruct (Hstep e Hi) as (n & e' & Hc & Hi'). clear Hi.
  assert (Hgo : ∀ n e fuel' k, continues n e e' → (fuel' ≤ fuel)%nat → (0 < n ∨ fuel' < fuel)%nat →
    run_loop fuel' e k = OutOfFuel).
  { clear Hc n e k. intros n e fuel' k Hc. revert fuel' k.
    induction Hc as [e'|n e e1 e' Hs Hc IHc]; intros fuel' k Hle Hor.
    - apply IH; [lia | done].
    - destruct fuel' as [|fuel']; [done|]. cbn. rewrite Hs. apply IHc; [done | lia | lia]. }
  apply (Hgo (S n) e fuel k Hc); lia.
Qed.

(** Deterministic steps, counted. *)
Fixpoint steps (n : nat) (e : Executor) : option Executor :=
  match n with
  | O => Some e
  | S n => match step e with Some (e', Continue) => steps n e' | _ => None end
  end.

Lemma steps_continues n e e' : steps n e = Some e' → continues n e e'.
Proof.
  revert e. induction n as [|n IH]; intros e; cbn; [intros [= ->]; constructor|].
  destruct (step e) as [[e1 []]|] eqn:E; try done. intros Hs. econstructor; eauto.
Qed.
(** ** Instructions as register-file updates *)
Definition set_reg (m : Vm) (i : nat) (v : HalValue) : Vm :=
  with_registers m (<[i := v]> (registers m)).

Lemma exec_load_signal m d x :
  (d < REGISTER_COUNT)%nat →
  execute_instruction m (mkInst OpLoad [Register d; SignalName x]) =
  cont (set_reg m d (default (VBool false) (signals m !! x))).
Proof. intros Hd. cbn. by rewrite write_register_some. Qed.

Lemma exec_load_imm m d v :
  (d < REGISTER_COUNT)%nat →
  execute_instruction m (mkInst OpLoad [Register d; Immediate v]) = cont (set_reg m d v).
Proof. intros Hd. cbn. by rewrite write_register_some. Qed.

Lemma exec_load_reg m d s v :
  (d < REGISTER_COUNT)%nat → read_register m s = Some v →
  execute_instruction m (mkInst OpLoad [Register d; Register s]) = cont (set_reg m d v).
Proof. intros Hd Hs. cbn -[read_register]. rewrite Hs. cbn. by rewrite write_register_some. Qed.

Lemma exec_not_reg m s d v :
  (d < REGISTER_COUNT)%nat → read_register m s = Some v →
  execute_instruction m (mkInst OpNot [Register s; Register d]) = cont (set_reg m d (hal_not v)).
Proof.
  intros Hd Hs. cbn -[read_register write_register]. rewrite Hs. cbn -[write_register].
  by rewrite write_register_some.
Qed.

Lemma exec_binop_reg m op f a b d va vb v :
  (∀ ops, execute_instruction m (mkInst op ops) = exec_arith_binop m ops f) →
  (d < REGISTER_COUNT)%nat → read_register m a = Some va → read_register m b = Some vb →
  f va vb = Some v →
  execute_instruction m (mkInst op [Register a; Register b; Register d]) = cont (set_reg m d v).
Proof.
  intros Hop Hd Ha Hb Hf. rewrite Hop. cbn -[read_register write_register].
  rewrite Ha. cbn -[read_register write_register]. rewrite Hb. cbn -[write_register]. rewrite Hf.
  cbn -[write_register]. by rewrite write_register_some.
Qed.

Lemma exec_store_reg m x s v :
  read_register m s = Some v →
  execute_instruction m (mkInst OpStore [SignalName x; Register s]) = cont (write_signal m x v).
Proof. intros Hs. cbn -[read_register]. rewrite Hs. done. Qed.

Lemma read_set_same m i v :
  length (registers m) = REGISTER_COUNT → (i < REGISTER_COUNT)%nat →
  read_register (set_reg m i v) i = Some v.
Proof.
  intros Hl Hi. unfold read_register, set_reg. rewrite (proj2 (Nat.ltb_lt _ _)) by done. cbn.
  apply list_lookup_insert_eq. by rewrite Hl.
Qed.

Lemma read_set_other m i j v :
  i ≠ j → read_register (set_reg m i v) j = read_register m j.
Proof.
  intros Hij. unfold read_register, set_reg. cbn. by rewrite list_lookup_insert_ne.
Qed.

Lemma read_advance m i : read_register (advance_ip m) i = read_register m i.
Proof. done. Qed.

Lemma set_reg_length m i v : length (registers (set_reg m i v)) = length (registers m).
Proof. cbn. apply length_insert. Qed.
End profile.
