(* ===== verification/IlFacts.v ===== *)
(** * Properties of the Instruction List compiler *)
From S2P Require Import Prelude Float HalTypes HalValue HalIr FunctionBlocks Vm.
From S2P Require Import Executor ExecutorFacts ExecutorControl StraightLine.
From S2P Require Import Text IlSyntax IlCodegen.
Local Open Scope Z_scope.

(** ** The code generator's invariant *)
Definition inst_regs_ok (i : Instruction) : bool := forallb operand_reg_ok (operands i).

(** The target of a control transfer is at most [n]. *)
Definition target_le (n : nat) (i : Instruction) : bool :=
  match opcode i, operands i with
  | (OpJump | OpJumpIf | OpCall), [Immediate (VU32 t)] => t <=? Z.of_nat n
  | (OpJump | OpJumpIf | OpCall), _ => false
  | _, _ => true
  end.

Record cg_inv (g : Codegen) : Prop := {
  ci_next : next_reg g = size (var_map g);
  ci_max : (next_reg g ≤ S USER_REG_MAX)%nat;
  ci_vars : map_Forall (fun _ r => (r < next_reg g)%nat) (var_map g);
  ci_insts : Forall (fun i => inst_regs_ok i = true) (cg_instructions g);
  ci_targets : Forall (fun i => target_le (S (current_ip g)) i = true) (cg_instructions g);
  ci_refs : Forall (fun r : nat * string => (r.1 < current_ip g)%nat) (label_refs g);
  ci_labels : map_Forall (fun _ n => (n ≤ current_ip g)%nat) (labels g) }.

Lemma target_le_mono n k i : (n ≤ k)%nat → target_le n i = true → target_le k i = true.
Proof.
  intros Hnk. unfold target_le. repeat case_match; try done; intros; breflect; apply Z.leb_le; lia.
Qed.

Lemma ip_u32_le n : 0 ≤ ip_u32 n ≤ Z.of_nat n.
Proof.
  unfold ip_u32, wrap_u. split; [apply Z.mod_pos_bound; done|]. apply Z.mod_le; [lia|done].
Qed.

Lemma codegen_new_inv : cg_inv codegen_new.
Proof.
  split; cbn; auto; [unfold USER_REG_START, USER_REG_MAX; lia | ..]; apply map_Forall_empty.
Qed.

Lemma emit_current_ip g i : current_ip (emit g i) = S (current_ip g).
Proof. unfold current_ip. cbn. rewrite length_app. cbn. lia. Qed.

Definition emit_all (g : Codegen) (l : list Instruction) : Codegen := foldl emit g l.

Lemma emit_all_fields g l :
  emit_all g l = mkCodegen (cg_instructions g ++ l) (var_map g) (next_reg g) (labels g) (label_refs g).
Proof.
  revert g. induction l as [|i l IH]; intros g; cbn.
  - rewrite app_nil_r. by destruct g.
  - unfold emit_all in IH. rewrite IH. cbn. by rewrite <- (assoc_L (++)).
Qed.

Lemma emit_all_inv g l :
  cg_inv g → Forall (fun i => inst_regs_ok i = true) l →
  Forall (fun i => target_le (S (current_ip g + length l)) i = true) l → cg_inv (emit_all g l).
Proof.
  intros [] Hi Ht. rewrite emit_all_fields.
  assert (Hl : ∀ a b c d, current_ip (mkCodegen (cg_instructions g ++ l) a b c d) =
            (current_ip g + length l)%nat) by (intros; unfold current_ip; cbn; apply length_app).
  split; rewrite ?Hl; cbn; auto.
  - apply Forall_app. auto.
  - apply Forall_app. split; [|done].
    eapply Forall_impl; [done|]. intros x. apply target_le_mono. lia.
  - eapply Forall_impl; [done|]. cbn. lia.
  - eapply map_Forall_impl; [done|]. cbn. lia.
Qed.

Lemma emit_inv g i :
  cg_inv g → inst_regs_ok i = true → target_le (S (S (current_ip g))) i = true →
  cg_inv (emit g i).
Proof.
  intros Hg Hi Ht. apply (emit_all_inv g [i]); [done | by constructor|].
  constructor; [|done]. eapply target_le_mono; [|done]. cbn. lia.
Qed.

Lemma emit_data_inv g op ops :
  cg_inv g → forallb operand_reg_ok ops = true →
  match op with OpJump | OpJumpIf | OpCall => false | _ => true end = true →
  cg_inv (emit g (mkInst op ops)).
Proof.
  intros Hg Ho Hop. apply emit_inv; [done|done|]. unfold target_le. by destruct op.
Qed.

Lemma set_label_inv g n : cg_inv g → cg_inv (set_label g n).
Proof. intros []. split; cbn; auto. by apply map_Forall_insert_2. Qed.

Lemma push_ref_inv g idx l : cg_inv g → (idx < current_ip g)%nat → cg_inv (push_label_ref g idx l).
Proof. intros [] Hi. split; cbn; auto. apply Forall_app. auto. Qed.

Lemma get_var_reg_inv g x r g' :
  cg_inv g → get_var_reg g x = Some (r, g') →
  cg_inv g' ∧ (r ≤ USER_REG_MAX)%nat ∧ cg_instructions g' = cg_instructions g ∧
  label_refs g' = label_refs g ∧ labels g' = labels g ∧
  var_map g' !! x = Some r ∧ (∀ y, y ≠ x → var_map g' !! y = var_map g !! y) ∧
  dom (var_map g') = dom (var_map g) ∪ {[ x ]}.
Proof.
  intros Hg. unfold get_var_reg. destruct (var_map g !! x) as [r0|] eqn:E.
  - intros [= <- <-]. pose proof (ci_vars g Hg x r0 E) as Hr. pose proof (ci_max g Hg).
    cbn in Hr. split_and!; auto; [lia|].
    assert (x ∈ dom (var_map g)) by by apply elem_of_dom_2 in E.
    rewrite (comm_L (∪)). symmetry. by apply subseteq_union_1_L, singleton_subseteq_l.
  - destruct (_ <? _)%nat eqn:Em; [done|]. breflect. intros [= <- <-]. destruct Hg.
    split_and!; cbn; auto.
    + split; cbn; auto.
      * rewrite map_size_insert_None by done. lia.
      * lia.
      * apply map_Forall_insert_2; [lia|]. eapply map_Forall_impl; [done|]. cbn. lia.
    + apply lookup_insert_eq.
    + intros y Hy. by rewrite lookup_insert_ne.
    + rewrite dom_insert_L. by rewrite (comm_L (∪)).
Qed.

Lemma user_reg_ok r : (r ≤ USER_REG_MAX)%nat → operand_reg_ok (Register r) = true.
Proof. unfold USER_REG_MAX. intros. apply Nat.ltb_lt. unfold REGISTER_COUNT. lia. Qed.

Lemma materialize_inv g : cg_inv g → cg_inv (materialize_cr_from_flags g).
Proof.
  intros Hg. pose proof (ip_u32_le (current_ip g + 3)). pose proof (ip_u32_le (current_ip g + 5)).
  unfold materialize_cr_from_flags.
  match goal with |- cg_inv (emit_load_imm (emit_jump (emit_load_imm (emit_jump_if _ ?t) _ ?v) ?d) _ ?w) =>
    apply (emit_all_inv g [jump_if t; mkInst OpLoad [Register CR_REG; Immediate v]; jump d;
                           mkInst OpLoad [Register CR_REG; Immediate w]]) end;
    [done | by repeat constructor | ].
  repeat (constructor; [first [done | unfold target_le; cbn -[Z.of_nat]; apply Z.leb_le; lia]|]).
  constructor.
Qed.

(** The variable a statement allocates a register for. *)
Definition stmt_var (s : ILStatement) : option string :=
  match s with
  | ILoad v | ILoadNot v | IAnd v | IAndNot v | IOr v | IOrNot v | IXor v | IAdd v | ISub v
  | IMul v | IDiv v | IMod v | ICmp _ v | ISet v | IReset v | ITon v | ITof v | ITp v
  | ICtu v | ICtd v | IRTrig v | IFTrig v | ISr v | IRs v => Some v
  | IStore _ | IJump _ | IJumpIf _ | IJumpIfNot _ | ICall _ | IReturn | INot | ILabel _ => None
  end.

(** A control transfer emitted with target 0 and a reference to patch. *)
Lemma jump_ref_inv g i l :
  cg_inv g → inst_regs_ok i = true → target_le 0 i = true →
  cg_inv (push_label_ref (emit g i) (current_ip g) l).
Proof.
  intros Hg Hi Ht. apply push_ref_inv; [|rewrite emit_current_ip; lia].
  apply emit_inv; [done|done|]. eapply target_le_mono; [|exact Ht]. lia.
Qed.

Definition stmt_vars (s : ILStatement) : gset string :=
  match stmt_var s with Some v => {[ v ]} | None => ∅ end.
Definition program_vars (stmts : list ILStatement) : gset string :=
  ⋃ (map stmt_vars stmts).

(** Emitting data instructions over valid registers, in any number. *)
Ltac emit_chain :=
  try apply materialize_inv;
  unfold compile_arith, emit_load_reg, emit_load_imm, emit_load_signal, emit_not, emit_arith,
    emit_cmp in *;
  repeat (apply emit_data_inv; [|cbn [forallb];
      try match goal with Hr : (_ ≤ USER_REG_MAX)%nat |- _ => rewrite ?(user_reg_ok _ Hr) end;
      reflexivity
    | first [done | match goal with |- context [cmp_opcode ?o] => by destruct o end] ]).

Lemma compile_stmt_inv g s g' :
  cg_inv g → compile_stmt g s = Some g' →
  cg_inv g' ∧ dom (var_map g') = dom (var_map g) ∪ stmt_vars s.
Proof.
  intros Hg Hc. unfold stmt_vars.
  destruct s; cbn [compile_stmt stmt_var] in *;
    unfold compile_arith, compile_block in *;
    try (apply bind_Some in Hc as ([r1 g1] & Hr & Hc);
         apply get_var_reg_inv in Hr as (Hg1 & Hr1 & _ & _ & _ & _ & _ & Hdom); [|done];
         injection Hc as <-; split; [|rewrite <- Hdom; done]; emit_chain; try done).
  all: try (injection Hc as <-; split; [|cbn; by rewrite (right_id_L ∅ (∪))]).
  - emit_chain. done.
  all: unfold emit_bool_test_and_jump, emit_jump, emit_jump_if, emit_cmp.
  - by apply jump_ref_inv.
  - apply jump_ref_inv; [by apply emit_data_inv | done..].
  - apply jump_ref_inv; [by apply emit_data_inv | done..].
  - by apply jump_ref_inv.
  - by apply emit_data_inv.
  - by apply emit_data_inv.
  - by apply set_label_inv.
Qed.

(** A statement fails to compile exactly when it needs an eleventh register. *)
Lemma compile_stmt_none g s :
  cg_inv g →
  (compile_stmt g s = None) ↔
    (∃ x, stmt_var s = Some x ∧ x ∉ dom (var_map g) ∧ next_reg g = S USER_REG_MAX).
Proof.
  intros Hg. pose proof (ci_max g Hg) as Hmax.
  assert (Hvar : ∀ x, (get_var_reg g x = None) ↔ x ∉ dom (var_map g) ∧ next_reg g = S USER_REG_MAX).
  { intros x. unfold get_var_reg. rewrite not_elem_of_dom.
    destruct (var_map g !! x); [split; [done | by intros [? _]]|].
    destruct (_ <? _)%nat eqn:E; breflect; split; try done.
    - intros _. split; [done|]. lia.
    - intros [_ ?]. lia. }
  assert (Hbind : ∀ A x (f : nat * Codegen → option A),
    (∀ p, f p ≠ None) → ((get_var_reg g x ≫= f = None) ↔
      (∃ y, Some x = Some y ∧ y ∉ dom (var_map g) ∧ next_reg g = S USER_REG_MAX))).
  { intros A x f Hf. destruct (get_var_reg g x) as [p|] eqn:E; cbn.
    - split; [by intros ?%Hf|]. intros (y & [= <-] & Hy). apply Hvar in Hy. congruence.
    - split; [|done]. intros _. exists x. split; [done|]. by apply Hvar. }
  assert (Hno : ∀ (o : option Codegen) (P : string → Prop), o ≠ None →
    ((o = None) ↔ (∃ y, @None string = Some y ∧ P y))).
  { intros o P Ho. split; [done|]. by intros (? & ? & _). }
  destruct s; cbn [compile_stmt stmt_var]; unfold compile_arith, compile_block;
    try (apply Hbind; by intros [r0 g0]); by apply Hno.
Qed.

Lemma compile_stmts_none g stmts :
  cg_inv g →
  (compile_stmts g stmts = None) ↔
    (S USER_REG_MAX < size (dom (var_map g) ∪ program_vars stmts))%nat.
Proof.
  revert g. induction stmts as [|s stmts IH]; intros g Hg; cbn [compile_stmts].
  - unfold program_vars. cbn. rewrite (right_id_L ∅ (∪)), size_dom, <- (ci_next g Hg).
    pose proof (ci_max g Hg). split; [done|lia].
  - unfold program_vars. cbn [map union_list]. fold (program_vars stmts).
    destruct (compile_stmt g s) as [g'|] eqn:E; cbn.
    + apply compile_stmt_inv in E as [Hg' Hd]; [|done]. rewrite IH by done.
      by rewrite Hd, (assoc_L (∪)).
    + split; [intros _|done]. apply (compile_stmt_none g s Hg) in E as (x & Hx & Hn & Hnext).
      assert (Hsub : {[ x ]} ∪ dom (var_map g) ⊆
                     dom (var_map g) ∪ (stmt_vars s ∪ program_vars stmts)).
      { unfold stmt_vars. rewrite Hx. set_solver. }
      apply subseteq_size in Hsub. rewrite size_union in Hsub by set_solver.
      rewrite size_singleton, size_dom, <- (ci_next g Hg), Hnext in Hsub.
      cbn [Nat.add] in Hsub. exact Hsub.
Qed.

Lemma compile_stmts_inv g stmts g' :
  cg_inv g → compile_stmts g stmts = Some g' → cg_inv g'.
Proof.
  revert g. induction stmts as [|s stmts IH]; intros g Hg; cbn; [by intros [= <-]|].
  intros (g1 & H1 & H2)%bind_Some. apply compile_stmt_inv in H1 as [Hg1 _]; [|done]. eauto.
Qed.

(** ** Backpatching *)
Lemma patch_inst_ok i t n :
  inst_regs_ok i = true → 0 ≤ t ≤ Z.of_nat n → target_le n i = true →
  inst_regs_ok (patch_inst i t) = true ∧ target_le n (patch_inst i t) = true.
Proof.
  intros Hi [H0 Ht] Hn. unfold patch_inst.
  destruct (operands i) eqn:Eo; [done|].
  destruct (opcode i) eqn:Eop; try done; (split; [done|]);
    unfold target_le; cbn -[Z.of_nat]; by apply Z.leb_le.
Qed.

Lemma backpatch_all_ok lbls h refs result n :
  Forall (fun r : nat * string => (r.1 < length result)%nat) refs →
  map_Forall (fun _ k => (k ≤ n)%nat) lbls → 0 ≤ h ≤ Z.of_nat n →
  Forall (fun i => inst_regs_ok i = true ∧ target_le n i = true) result →
  ∃ result', backpatch_all lbls h result refs = Some result' ∧
    length result' = length result ∧
    Forall (fun i => inst_regs_ok i = true ∧ target_le n i = true) result' ∧
    (∀ k i, result !! k = Some i → is_jump (opcode i) = false → result' !! k = Some i).
Proof.
  intros Hrefs Hl Hh. revert result Hrefs.
  induction refs as [|[idx name] refs IH]; intros result Hrefs Hr; cbn; [by eauto|].
  apply Forall_cons in Hrefs as [Hidx Hrefs]. cbn in Hidx.
  destruct (lookup_lt_is_Some_2 _ _ Hidx) as [i Hi]. rewrite Hi. cbn.
  set (t := match lbls !! name with Some k => ip_u32 k | None => h end).
  assert (Htb : 0 ≤ t ≤ Z.of_nat n).
  { subst t. destruct (lbls !! name) as [k|] eqn:E; [|lia].
    pose proof (ip_u32_le k). specialize (Hl name k E). cbn in Hl. lia. }
  destruct (proj1 (Forall_lookup _ _) Hr idx i Hi) as [Hi1 Hi2].
  destruct (IH (<[idx := patch_inst i t]> result)) as (res & Hres & Hlen & Hall & Hkeep).
  - by rewrite length_insert.
  - apply Forall_insert; [done|]. by apply patch_inst_ok.
  - exists res. split; [exact Hres|]. rewrite length_insert in Hlen. split; [done|].
    split; [done|]. intros k j Hk Hj. apply Hkeep; [|done].
    destruct (decide (k = idx)) as [->|]; [|by rewrite list_lookup_insert_ne].
    rewrite Hi in Hk. injection Hk as <-.
    rewrite list_lookup_insert_eq by done. f_equal.
    unfold patch_inst. destruct (operands i); [done|]. by destruct (opcode i).
Qed.

Lemma compile_ast_spec stmts g :
  compile_stmts (emit_load_imm codegen_new TRUE_REG (VBool true)) stmts = Some g →
  cg_inv g ∧ ∃ insts, compile_ast stmts = Some insts ∧ length insts = S (current_ip g) ∧
    Forall (fun i => inst_regs_ok i = true ∧ target_le (length insts) i = true) insts ∧
    (∀ k i, (cg_instructions g ++ [halt]) !! k = Some i → is_jump (opcode i) = false →
       insts !! k = Some i).
Proof.
  intros Hg. assert (Hinv : cg_inv g).
  { eapply compile_stmts_inv; [|exact Hg]. apply emit_data_inv; [apply codegen_new_inv|done..]. }
  split; [done|]. unfold compile_ast, compile. rewrite Hg. cbn [mbind option_bind].
  assert (Hh : cg_inv (emit g halt)) by by apply emit_data_inv.
  set (res := cg_instructions (emit g halt)).
  assert (Hlen : length res = S (current_ip g)).
  { subst res. unfold current_ip. cbn. rewrite length_app. cbn. lia. }
  destruct (backpatch_all_ok (labels (emit g halt)) (ip_u32 (length res - 1))
    (label_refs (emit g halt)) res (length res)) as (insts & Hb & Hl & Hall & Hkeep).
  - apply (ci_refs _ Hh).
  - eapply map_Forall_impl; [apply (ci_labels _ Hh)|]. intros x k Hk. exact Hk.
  - pose proof (ip_u32_le (length res - 1)). lia.
  - destruct Hinv as [_ _ _ Hi Ht _ _]. subst res. cbn [emit cg_instructions].
    apply Forall_app. split.
    + rewrite Forall_forall in Hi, Ht |- *. intros i Hin. split; [by apply Hi|].
      eapply target_le_mono; [|by apply Ht]. unfold current_ip. rewrite length_app. cbn. lia.
    + repeat constructor.
  - exists insts. rewrite Hl. split; [exact Hb|]. auto.
Qed.

Lemma compile_ast_none_size stmts :
  (compile_ast stmts = None) ↔ (10 < size (program_vars stmts))%nat.
Proof.
  assert (H0 : cg_inv (emit_load_imm codegen_new TRUE_REG (VBool true))).
  { apply emit_data_inv; [apply codegen_new_inv|done..]. }
  pose proof (compile_stmts_none _ stmts H0) as Hn. cbn [emit_load_imm emit var_map] in Hn.
  change (var_map codegen_new) with (∅ : gmap string nat) in Hn.
  rewrite dom_empty_L, (left_id_L ∅ (∪)) in Hn. change (S USER_REG_MAX) with 10%nat in Hn.
  destruct (compile_stmts (emit_load_imm codegen_new TRUE_REG (VBool true)) stmts) as [g|] eqn:E.
  - apply compile_ast_spec in E as [_ (insts & -> & _)].
    split; [done|]. intros Hs. by apply Hn in Hs.
  - unfold compile_ast, compile. rewrite E. cbn. tauto.
Qed.

(** Instruction List compiles exactly when it uses at most ten register
    variables: [compile_ast] panics if and only if more than ten distinct names
    need a register; backpatching never fails. *)
Theorem compile_ast_panics_iff stmts :
  (compile_ast stmts = None) ↔ (10 < size (program_vars stmts))%nat.
Proof. apply compile_ast_none_size. Qed.

(** [C22] Compiled code is well formed: every register operand is one of the
    sixteen registers, the code ends with Halt, every jump and call target is
    at most the length of the code, and every instruction that is not a jump
    is as the code generator emitted it. *)
Theorem compile_ast_wf stmts insts :
  compile_ast stmts = Some insts →
  Forall (fun i => inst_regs_ok i = true ∧ target_le (length insts) i = true) insts ∧
  last insts = Some halt ∧ head insts = Some (load_imm TRUE_REG (VBool true)).
Proof.
  intros Hc.
  destruct (compile_stmts (emit_load_imm codegen_new TRUE_REG (VBool true)) stmts) as [g|] eqn:E.
  2: { unfold compile_ast, compile in Hc. by rewrite E in Hc. }
  assert (Hpre : ∃ k, cg_instructions g = load_imm TRUE_REG (VBool true) :: k).
  { clear Hc.
    assert (Hgen : ∀ sts a b, compile_stmts a sts = Some b →
              (∃ k, cg_instructions a = load_imm TRUE_REG (VBool true) :: k) →
              ∃ k, cg_instructions b = load_imm TRUE_REG (VBool true) :: k).
    { induction sts as [|s sts IH]; intros a b Hab Ha; cbn in Hab; [by simplify_eq|].
      apply bind_Some in Hab as (a1 & H1 & Hab). eapply IH; [exact Hab|].
      destruct Ha as [k Hk]. assert (∃ l, cg_instructions a1 = cg_instructions a ++ l) as [l ->].
      { clear -H1.
        assert (Hr : ∀ x r g', get_var_reg a x = Some (r, g') → cg_instructions g' = cg_instructions a).
        { intros x r g'. unfold get_var_reg. repeat case_match; try done; by intros [= _ <-]. }
        destruct s; cbn [compile_stmt] in H1; unfold compile_arith, compile_block in H1;
          try (apply bind_Some in H1 as ([r g1] & Hv & H1); apply Hr in Hv; rewrite <- Hv);
          injection H1 as <-; cbn; rewrite <- ?(assoc_L (++)); eauto.
        exists []. by rewrite app_nil_r. }
      rewrite Hk. by eexists. }
    eapply Hgen; [exact E|]. by eexists. }
  apply compile_ast_spec in E as [_ (insts' & Hc' & Hlen & Hall & Hkeep)].
  rewrite Hc in Hc'. injection Hc' as <-. split; [done|]. split.
  - rewrite last_lookup, Hlen. cbn [pred]. apply Hkeep; [|done].
    apply list_lookup_middle. done.
  - destruct Hpre as [k Hk].
    assert (insts !! 0%nat = Some (load_imm TRUE_REG (VBool true))) as H0.
    { apply Hkeep; [by rewrite Hk | done]. }
    by destruct insts.
Qed.

(** ** Witnesses *)
Lemma compile_ast_panics_iff_witness :
  compile_ast (map (fun n => ILoad n)
    ["a"; "b"; "c"; "d"; "e"; "f"; "g"; "h"; "i"; "j"; "k"]) = None.
Proof. apply compile_ast_panics_iff. vm_compute. lia. Defined.

Lemma compile_ast_wf_witness :
  ∃ insts, compile_ast [ILoad "a"; IJumpIf "end"; ILabel "end"] = Some insts ∧
    last insts = Some halt.
Proof.
  eexists. split; [reflexivity|].
  apply (compile_ast_wf [ILoad "a"; IJumpIf "end"; ILabel "end"] _ eq_refl).
Defined.
