(* ===== verification/IlCorrect.v ===== *)
(** * Correctness of compiled Instruction List

    The boolean accumulator fragment (LD, LDN, ST, AND, ANDN, NOT) is compiled
    correctly: the code computes the accumulator semantics below.  The
    comparison and OR instructions are not, as the last theorems show. *)
From S2P Require Import Prelude Float HalTypes HalValue HalIr FunctionBlocks Vm.
From S2P Require Import Executor ExecutorFacts ExecutorControl StraightLine.
From S2P Require Import Text IlSyntax IlCodegen IlFacts.
Local Open Scope Z_scope.

(** ** The accumulator semantics *)
Definition il_env : Type := gmap string HalValue.
Definition env_value (env : il_env) (x : string) : HalValue := default (VBool false) (env !! x).

Definition bool_stmt (s : ILStatement) : bool :=
  match s with ILoad _ | ILoadNot _ | IStore _ | IAnd _ | IAndNot _ | INot => true | _ => false end.

(** The current result and the signals after one statement. *)
Definition il_eval (st : HalValue * il_env) (s : ILStatement) : HalValue * il_env :=
  let '(cr, env) := st in
  match s with
  | ILoad x => (env_value env x, env)
  | ILoadNot x => (hal_not (env_value env x), env)
  | IStore x => (cr, <[x := cr]> env)
  | IAnd x => (hal_and cr (env_value env x), env)
  | IAndNot x => (hal_and cr (hal_not (env_value env x)), env)
  | INot => (hal_not cr, env)
  | _ => st
  end.

(** The code of a fragment statement whose variable lives in register [r]. *)
Definition bool_code (s : ILStatement) (r : nat) : list Instruction :=
  match s with
  | ILoad x => [mkInst OpLoad [Register r; SignalName x]; mkInst OpLoad [Register CR_REG; Register r]]
  | ILoadNot x => [mkInst OpLoad [Register r; SignalName x];
                   mkInst OpLoad [Register CR_REG; Register r];
                   mkInst OpNot [Register CR_REG; Register CR_REG]]
  | IStore x => [mkInst OpStore [SignalName x; Register CR_REG]]
  | IAnd x => [mkInst OpLoad [Register r; SignalName x];
               mkInst OpAnd [Register CR_REG; Register r; Register CR_REG]]
  | IAndNot x => [mkInst OpLoad [Register r; SignalName x];
                  mkInst OpLoad [Register TEMP1_REG; Register r];
                  mkInst OpNot [Register TEMP1_REG; Register TEMP1_REG];
                  mkInst OpAnd [Register CR_REG; Register TEMP1_REG; Register CR_REG]]
  | INot => [mkInst OpNot [Register CR_REG; Register CR_REG]]
  | _ => []
  end.

Lemma compile_stmt_bool g s g' :
  bool_stmt s = true → cg_inv g → compile_stmt g s = Some g' →
  ∃ r, (r ≤ USER_REG_MAX)%nat ∧ cg_instructions g' = cg_instructions g ++ bool_code s r ∧
    label_refs g' = label_refs g.
Proof.
  intros Hs Hg Hc. destruct s; try done; cbn [compile_stmt] in Hc;
    try (apply bind_Some in Hc as ([r1 g1] & Hr & Hc);
         apply get_var_reg_inv in Hr as (_ & Hr1 & Hi & Hrefs & _); [|done];
         injection Hc as <-; exists r1; split; [done|];
         cbn; rewrite Hi, Hrefs, <- ?(assoc_L (++)); done);
    injection Hc as <-; exists 0%nat; (split; [unfold USER_REG_MAX; lia|]); done.
Qed.

Section profile.
Context `{BuildProfile}.

(** The machine holds the accumulator in r14 and the signals in its table. *)
Definition il_state (m : Vm) (st : HalValue * il_env) : Prop :=
  length (registers m) = REGISTER_COUNT ∧
  read_register m CR_REG = Some st.1 ∧ signals m = st.2.

Lemma user_reg_lt r : (r ≤ USER_REG_MAX)%nat → (r < REGISTER_COUNT)%nat.
Proof. unfold USER_REG_MAX, REGISTER_COUNT. lia. Qed.
Lemma user_reg_ne r :
  (r ≤ USER_REG_MAX)%nat → r ≠ CR_REG ∧ r ≠ TEMP1_REG ∧ TEMP1_REG ≠ CR_REG.
Proof. unfold USER_REG_MAX, CR_REG, TEMP1_REG. lia. Qed.
Lemma cr_lt : (CR_REG < REGISTER_COUNT)%nat.
Proof. unfold CR_REG, REGISTER_COUNT. lia. Qed.
Lemma temp_lt : (TEMP1_REG < REGISTER_COUNT)%nat.
Proof. unfold TEMP1_REG, REGISTER_COUNT. lia. Qed.

(** Solve a register read through a chain of updates. *)
Ltac read_chain :=
  rewrite ?read_advance;
  first [ eassumption
        | rewrite read_set_same; [reflexivity | cbn; rewrite ?length_insert; done
                                 | eauto using user_reg_lt, cr_lt, temp_lt]
        | rewrite read_set_other; [read_chain | by auto] ].

Lemma exec_and_code m a b d va vb :
  (d < REGISTER_COUNT)%nat → read_register m a = Some va → read_register m b = Some vb →
  execute_instruction m (mkInst OpAnd [Register a; Register b; Register d]) =
  cont (set_reg m d (hal_and va vb)).
Proof. intros. by eapply (exec_binop_reg m OpAnd (fun a b => Some (hal_and a b))). Qed.

Lemma exec_bool_code m st s r :
  bool_stmt s = true → (r ≤ USER_REG_MAX)%nat → il_state m st →
  ∃ m', exec_seq m (bool_code s r) = Some m' ∧ il_state m' (il_eval st s).
Proof.
  intros Hs Hr. destruct st as [cr env]. intros (Hlen & Hcr & Hsig). cbn in Hcr, Hsig.
  pose proof (user_reg_lt r Hr) as Hrl. destruct (user_reg_ne r Hr) as (Hn1 & Hn2 & Hn3).
  pose proof cr_lt. pose proof temp_lt.
  assert (Hv : ∀ x, default (VBool false) (signals m !! x) = env_value env x)
    by (intros x; by rewrite Hsig).
  destruct s; try done; cbn [bool_code exec_seq is_jump opcode il_eval].
  - rewrite exec_load_signal by done. cbn [cont]. rewrite Hv.
    erewrite exec_load_reg; [cbn [cont] | done | read_chain].
    eexists. split; [done|]. split; [cbn; by rewrite !length_insert|]. split; [|done].
    cbn [fst]. read_chain.
  - rewrite exec_load_signal by done. cbn [cont]. rewrite Hv.
    erewrite exec_load_reg; [cbn [cont] | done | read_chain].
    erewrite exec_not_reg; [cbn [cont] | done | read_chain].
    eexists. split; [done|]. split; [cbn; by rewrite !length_insert|]. split; [|done].
    cbn [fst]. read_chain.
  - erewrite exec_store_reg by exact Hcr. cbn [cont].
    eexists. split; [done|]. split; [done|]. split; [exact Hcr|]. cbn. by rewrite Hsig.
  - rewrite exec_load_signal by done. cbn [cont]. rewrite Hv.
    erewrite exec_and_code; [cbn [cont] | done | read_chain | read_chain].
    eexists. split; [done|]. split; [cbn; by rewrite !length_insert|]. split; [|done].
    cbn [fst]. read_chain.
  - rewrite exec_load_signal by done. cbn [cont]. rewrite Hv.
    erewrite exec_load_reg; [cbn [cont] | done | read_chain].
    erewrite exec_not_reg; [cbn [cont] | done | read_chain].
    erewrite exec_and_code; [cbn [cont] | done | read_chain | read_chain].
    eexists. split; [done|]. split; [cbn; by rewrite !length_insert|]. split; [|done].
    cbn [fst]. read_chain.
  - erewrite exec_not_reg; [cbn [cont] | done | exact Hcr].
    eexists. split; [done|]. split; [cbn; by rewrite !length_insert|]. split; [|done].
    cbn [fst]. read_chain.
Qed.

Definition is_seq_op (i : Instruction) : bool :=
  is_data_op (opcode i) || bool_decide (opcode i = OpStore).

Lemma bool_code_seq s r : bool_stmt s = true → forallb is_seq_op (bool_code s r) = true.
Proof. by destruct s. Qed.

Lemma compile_stmts_bool g stmts g' st m :
  forallb bool_stmt stmts = true → cg_inv g → compile_stmts g stmts = Some g' → il_state m st →
  ∃ code m', cg_instructions g' = cg_instructions g ++ code ∧ label_refs g' = label_refs g ∧
    forallb is_seq_op code = true ∧
    exec_seq m code = Some m' ∧ il_state m' (fold_left il_eval stmts st).
Proof.
  revert g st m. induction stmts as [|s stmts IH]; intros g st m Hs Hg Hc Hm; cbn in *.
  - simplify_eq. exists [], m. rewrite app_nil_r. auto.
  - apply andb_true_iff in Hs as [Hs Hss]. apply bind_Some in Hc as (g1 & H1 & Hc).
    destruct (compile_stmt_bool g s g1 Hs Hg H1) as (r & Hr & Hi & Href).
    apply compile_stmt_inv in H1 as [Hg1 _]; [|done].
    destruct (exec_bool_code m st s r Hs Hr Hm) as (m1 & He & Hm1).
    destruct (IH g1 _ m1 Hss Hg1 Hc Hm1) as (code & m' & Hi' & Href' & Hops & He' & Hm').
    exists (bool_code s r ++ code), m'.
    rewrite Hi', Hi, <- (assoc_L (++)), Href', Href. split; [done|]. split; [done|].
    split; [by rewrite forallb_app, bool_code_seq|]. split; [|done].
    by rewrite exec_seq_app, He.
Qed.

Lemma il_boolean_run stmts insts env name sigs d :
  forallb bool_stmt stmts = true → compile_ast stmts = Some insts → debug_mode d = false →
  ∃ e, run_to_halt (length insts)
         (mkExecutor (with_signals vm_new env) (mkProgram name sigs [] insts []) d)
       = Done e (length insts) ∧
    signals (vm e) = (fold_left il_eval stmts (VS32 0, env)).2.
Proof.
  intros Hs Hc Hd. set (m0 := with_signals vm_new env).
  set (g0 := emit_load_imm codegen_new TRUE_REG (VBool true)).
  assert (Hg0 : cg_inv g0) by (apply emit_data_inv; [apply codegen_new_inv|done..]).
  destruct (compile_stmts g0 stmts) as [g|] eqn:E.
  2: { unfold compile_ast, compile in Hc. fold g0 in Hc. by rewrite E in Hc. }
  set (m1 := advance_ip (set_reg m0 TRUE_REG (VBool true))).
  assert (Hm1 : il_state m1 (VS32 0, env)) by done.
  destruct (compile_stmts_bool g0 stmts g _ m1 Hs Hg0 E Hm1)
    as (code & m' & Hi & Href & Hops & He & Hm').
  assert (Hinsts : insts = (load_imm TRUE_REG (VBool true) :: code) ++ [halt]).
  { unfold compile_ast, compile in Hc. fold g0 in Hc. rewrite E in Hc.
    cbn [mbind option_bind emit label_refs cg_instructions labels] in Hc.
    rewrite Href, Hi in Hc. cbn in Hc. by injection Hc as <-. }
  rewrite Hinsts.
  destruct (run_straight (load_imm TRUE_REG (VBool true) :: code) m0 d m' name sigs [] [])
    as (e & Hr & Hv); [done | done | cbn; exact Hops | |].
  { cbn [exec_seq]. unfold load_imm. cbn [is_jump opcode].
    rewrite exec_load_imm by (unfold TRUE_REG, REGISTER_COUNT; lia). exact He. }
  exists e. rewrite length_app. cbn [length] in Hr |- *. rewrite Nat.add_comm. cbn [Nat.add].
  split; [exact Hr|]. rewrite Hv. cbn. apply Hm'.
Qed.

(** [C5] Correct compilation of boolean Instruction List: for any program made
    of LD, LDN, ST, AND, ANDN and NOT that compiles, running the compiled code
    from a fresh machine with any signal table reaches Halt after exactly as
    many steps as there are instructions, and the signal table is the one the
    accumulator semantics computes, statement by statement. *)
Theorem il_boolean_correct stmts insts env name d :
  forallb bool_stmt stmts = true → compile_ast stmts = Some insts → debug_mode d = false →
  ∃ e, run_to_halt (length insts)
         (mkExecutor (with_signals vm_new env) (program_new name insts) d)
       = Done e (length insts) ∧
    signals (vm e) = (fold_left il_eval stmts (VS32 0, env)).2.
Proof. apply il_boolean_run. Qed.

(** ** Comparisons skip the next instruction when they are false *)

Definition cmp_holds (op : CompareOp) (a b : HalValue) : bool :=
  match op with
  | CmpEq => hal_eqb a b
  | CmpNe => negb (hal_eqb a b)
  | CmpGt => value_gt a b
  | CmpGe => value_ge a b
  | CmpLt => value_lt a b
  | CmpLe => value_le a b
  end.

Lemma exec_cmp_code m op a b va vb :
  read_register m a = Some va → read_register m b = Some vb →
  execute_instruction m (mkInst (cmp_opcode op) [Register a; Register b]) =
  cont (set_flags_zero m (cmp_holds op va vb)).
Proof.
  intros Ha Hb. unfold execute_instruction. cbn [operands].
  destruct op; cbn [opcode cmp_opcode]; unfold exec_compare; cbn [read_reg]; by rewrite Ha, Hb.
Qed.

(** The code a comparison emits at index [pc] for register [r]. *)
Definition cmp_code (pc : nat) (op : CompareOp) (r : nat) : list Instruction :=
  [mkInst (cmp_opcode op) [Register CR_REG; Register r];
   jump_if (ip_u32 (pc + 4)); load_imm CR_REG (VBool false); jump (ip_u32 (pc + 6));
   load_imm CR_REG (VBool true)].

Lemma compile_cmp_code g op x g' :
  cg_inv g → compile_stmt g (ICmp op x) = Some g' →
  ∃ r, (r ≤ USER_REG_MAX)%nat ∧ var_map g' !! x = Some r ∧
    cg_instructions g' = cg_instructions g ++ cmp_code (current_ip g) op r.
Proof.
  intros Hg Hc. cbn [compile_stmt] in Hc. apply bind_Some in Hc as ([r g1] & Hr & Hc).
  apply get_var_reg_inv in Hr as (_ & Hr & Hi & _ & _ & Hv & _); [|done].
  injection Hc as <-. exists r. split; [done|]. split; [exact Hv|].
  unfold cmp_code, materialize_cr_from_flags, emit_jump_if, emit_jump, emit_load_imm, emit_cmp.
  rewrite !emit_current_ip. unfold current_ip. rewrite Hi.
  cbn [emit cg_instructions]. rewrite Hi, <- !(assoc_L (++)). cbn [app].
  replace (S (length (cg_instructions g)) + 3)%nat with (length (cg_instructions g) + 4)%nat by lia.
  replace (S (length (cg_instructions g)) + 5)%nat with (length (cg_instructions g) + 6)%nat by lia.
  done.
Qed.

Lemma ip_u32_small n : (Z.of_nat n < 2 ^ 32)%Z → Z.to_nat (ip_u32 n) = n.
Proof. intros Hn. unfold ip_u32, wrap_u. rewrite Z.mod_small by lia. lia. Qed.

(** One step of an executor whose debugger is off. *)
Lemma step_exec p dbg m i m' :
  debug_mode dbg = false → instructions p !! ip m = Some i → execute_instruction m i = cont m' →
  step (mkExecutor m p dbg) =
  Some (mkExecutor (if is_jump (opcode i) then m' else advance_ip m') p dbg, Continue).
Proof.
  intros Hd Hlk Hex. rewrite (step_no_debug (mkExecutor m p dbg) i Hd Hlk).
  unfold step_instruction. cbn [vm debug_state program]. rewrite Hex.
  cbn [cont mbind option_bind]. by rewrite Hd.
Qed.

(** The code of a comparison after the compare instruction, by its outcome. *)
Lemma cmp_tail_run p dbg m pc op r t :
  debug_mode dbg = false → code_at p pc (cmp_code pc op r) → Z.of_nat (pc + 6) < 2 ^ 32 →
  length (registers m) = REGISTER_COUNT → ip m = S pc → flags_zero m = t →
  ∃ n m', continues n (mkExecutor m p dbg) (mkExecutor m' p dbg) ∧
    read_register m' CR_REG = Some (VBool t) ∧ signals m' = signals m ∧
    ip m' = (pc + 5 + if t then 0 else 1)%nat.
Proof.
  intros Hd Hcode Hsz Hlen Hip Ht. unfold cmp_code in Hcode.
  apply code_at_cons in Hcode as [_ Hcode]. apply code_at_cons in Hcode as [H1 Hcode].
  apply code_at_cons in Hcode as [H2 Hcode]. apply code_at_cons in Hcode as [H3 Hcode].
  apply code_at_cons in Hcode as [H4 _].
  assert (Himm : ∀ m2 v, execute_instruction m2 (load_imm CR_REG v) = cont (set_reg m2 CR_REG v))
    by (intros; apply exec_load_imm, cr_lt).
  destruct t.
  - set (m2 := set_ip m (pc + 4)).
    assert (S1 := step_exec p dbg m (jump_if (ip_u32 (pc + 4))) m2 Hd).
    assert (S2 := step_exec p dbg m2 (load_imm CR_REG (VBool true)) (set_reg m2 CR_REG (VBool true)) Hd).
    exists 2%nat, (advance_ip (set_reg m2 CR_REG (VBool true))). split.
    { econstructor; [apply S1; [by rewrite Hip | cbn; unfold exec_jump_if; rewrite Ht; cbn; by rewrite ip_u32_small by lia]|].
      econstructor; [apply S2; [cbn; rewrite <- H4; f_equal; lia | apply Himm] | constructor]. }
    split; [rewrite read_advance; apply read_set_same; [done | apply cr_lt]|].
    split; [done|]. cbn. lia.
  - set (m2 := advance_ip m). set (m3 := advance_ip (set_reg m2 CR_REG (VBool false))).
    set (m4 := set_ip m3 (pc + 6)).
    assert (S1 := step_exec p dbg m (jump_if (ip_u32 (pc + 4))) m2 Hd).
    assert (S2 := step_exec p dbg m2 (load_imm CR_REG (VBool false)) (set_reg m2 CR_REG (VBool false)) Hd).
    assert (S3 := step_exec p dbg m3 (jump (ip_u32 (pc + 6))) m4 Hd).
    exists 3%nat, m4. split.
    { econstructor; [apply S1; [by rewrite Hip | cbn; unfold exec_jump_if; by rewrite Ht]|].
      econstructor; [apply S2; [cbn; rewrite Hip; exact H2 | apply Himm]|].
      econstructor; [apply S3; [cbn; rewrite Hip; exact H3 | cbn; by rewrite ip_u32_small by lia]
                    | constructor]. }
    split; [apply (read_set_same m2); [done | apply cr_lt]|]. split; [done|]. cbn. lia.
Qed.

(** A false comparison skips the next instruction: running the code that a
    comparison statement compiles to leaves its truth value in the accumulator,
    but continues at the next statement's code only when the comparison holds;
    when it is false execution continues one instruction further. *)
Theorem il_compare_false_skips g op x g' e a b :
  cg_inv g → compile_stmt g (ICmp op x) = Some g' →
  Z.of_nat (current_ip g + 6) < 2 ^ 32 →
  code_at (program e) 0 (cg_instructions g') →
  debug_mode (debug_state e) = false → length (registers (vm e)) = REGISTER_COUNT →
  ip (vm e) = current_ip g → read_register (vm e) CR_REG = Some a →
  (∀ r, var_map g' !! x = Some r → read_register (vm e) r = Some b) →
  ∃ n e', continues n e e' ∧
    read_register (vm e') CR_REG = Some (VBool (cmp_holds op a b)) ∧
    signals (vm e') = signals (vm e) ∧
    ip (vm e') = (current_ip g' + if cmp_holds op a b then 0 else 1)%nat.
Proof.
  intros Hg Hc Hsz Hcode Hd Hlen Hip Ha Hb.
  destruct (compile_cmp_code g op x g' Hg Hc) as (r & Hr & Hv & Hi). specialize (Hb r Hv).
  assert (Hip' : current_ip g' = (current_ip g + 5)%nat).
  { unfold current_ip. rewrite Hi, length_app. done. }
  rewrite Hi in Hcode. apply code_at_app in Hcode as [_ Hcode].
  fold (current_ip g) in Hcode. cbn [Nat.add] in Hcode.
  pose proof Hcode as Hcode0. apply code_at_cons in Hcode0 as [H0 _].
  destruct e as [m p dbg]. cbn [vm program debug_state] in *.
  set (m1 := advance_ip (set_flags_zero m (cmp_holds op a b))).
  destruct (cmp_tail_run p dbg m1 (current_ip g) op r (cmp_holds op a b) Hd Hcode Hsz Hlen)
    as (n & m' & Hn & Hcr & Hs & Hi'); [cbn; by rewrite Hip | done |].
  exists (S n), (mkExecutor m' p dbg). rewrite Hip'. split_and!; [|done..].
  econstructor; [|exact Hn].
  rewrite (step_exec p dbg m (mkInst (cmp_opcode op) [Register CR_REG; Register r])
             (set_flags_zero m (cmp_holds op a b)));
    [by destruct op | done | by rewrite Hip | by apply exec_cmp_code].
Qed.

(** ** OR never reads its signal *)

(** OR ignores its operand: the program LD a; OR b; ST q (with a and b
    different) writes to q the value of a combined with the [S32(0)] a fresh
    register holds, whatever the value of b is; for a boolean a this is
    [S32(0)]. *)
Theorem il_or_ignores_signal x y z env d :
  x ≠ y → debug_mode d = false →
  ∃ insts e, compile_ast [ILoad x; IOr y; IStore z] = Some insts ∧
    run_to_halt (length insts) (mkExecutor (with_signals vm_new env) (program_new "p" insts) d)
      = Done e (length insts) ∧
    signals (vm e) !! z = Some (hal_or (env_value env x) (VS32 0)) ∧
    (∀ b, env_value env x = VBool b → signals (vm e) !! z = Some (VS32 0)).
Proof.
  intros Hxy Hd.
  set (code := [load_imm TRUE_REG (VBool true);
                mkInst OpLoad [Register 0; SignalName x]; mkInst OpLoad [Register CR_REG; Register 0];
                mkInst OpOr [Register CR_REG; Register 1; Register CR_REG];
                mkInst OpStore [SignalName z; Register CR_REG]]).
  assert (Hc : compile_ast [ILoad x; IOr y; IStore z] = Some (code ++ [halt])).
  { unfold compile_ast, compile. cbn [compile_stmts compile_stmt]. unfold compile_arith, get_var_reg.
    cbn [emit_load_imm emit codegen_new var_map]. rewrite lookup_empty. cbn [mbind option_bind].
    cbn [next_reg codegen_new emit_load_imm emit Nat.ltb Nat.leb USER_REG_MAX USER_REG_START].
    cbn [mbind option_bind emit_load_signal emit_load_reg emit var_map].
    rewrite lookup_insert_ne by done. rewrite lookup_empty. reflexivity. }
  set (m0 := with_signals vm_new env).
  set (m1 := advance_ip (set_reg m0 TRUE_REG (VBool true))).
  set (m2 := advance_ip (set_reg m1 0 (env_value env x))).
  set (m3 := advance_ip (set_reg m2 CR_REG (env_value env x))).
  set (m4 := advance_ip (set_reg m3 CR_REG (hal_or (env_value env x) (VS32 0)))).
  set (m5 := advance_ip (write_signal m4 z (hal_or (env_value env x) (VS32 0)))).
  assert (Hr : exec_seq m0 code = Some m5).
  { subst code. cbn [exec_seq]. unfold load_imm. cbn [is_jump opcode].
    rewrite exec_load_imm by (unfold TRUE_REG, REGISTER_COUNT; lia). cbn [cont].
    rewrite exec_load_signal by (unfold REGISTER_COUNT; lia). cbn [cont].
    erewrite exec_load_reg; [cbn [cont] | apply cr_lt | reflexivity].
    erewrite (exec_binop_reg _ OpOr (fun a b => Some (hal_or a b)));
      [cbn [cont] | done | apply cr_lt | reflexivity | reflexivity | reflexivity].
    erewrite exec_store_reg; [cbn [cont]|reflexivity]. reflexivity. }
  exists (code ++ [halt]).
  destruct (run_straight code m0 d m5 "p" [] [] [] Hd) as (e & He & Hv); [done | done | done |].
  exists e. split; [done|]. split; [exact He|]. rewrite Hv.
  assert (Hz : signals (advance_ip m5) !! z = Some (hal_or (env_value env x) (VS32 0)))
    by apply lookup_insert_eq.
  split; [exact Hz|]. intros b Hb. rewrite Hz, Hb. done.
Qed.
End profile.

(** ** Witnesses *)
Lemma il_boolean_correct_witness :
  ∃ insts e, compile_ast [ILoad "a"; IAndNot "b"; IStore "q"] = Some insts ∧
    run_to_halt (H := debug_profile) (length insts)
      (mkExecutor (with_signals vm_new {[ "a" := VBool true ]}) (program_new "p" insts) debug_new)
      = Done e (length insts) ∧
    signals (vm e) !! "q" = Some (VBool true).
Proof.
  eexists.
  destruct (il_boolean_correct (H := debug_profile) [ILoad "a"; IAndNot "b"; IStore "q"] _
    {[ "a" := VBool true ]} "p" debug_new eq_refl eq_refl eq_refl) as (e & Hr & Hs).
  exists e. split; [reflexivity|]. split; [exact Hr|]. rewrite Hs. reflexivity.
Defined.

Definition compare_start : Codegen := emit_load_imm codegen_new TRUE_REG (VBool true).
Definition compare_codegen : Codegen :=
  default codegen_new (compile_stmt compare_start (ICmp CmpEq "b")).
Definition compare_executor : Executor :=
  mkExecutor (set_ip (with_registers vm_new (<[ 0%nat := VS32 5 ]> (registers vm_new))) 1)
    (program_new "p" (cg_instructions compare_codegen ++ [halt])) debug_new.

Lemma il_compare_false_skips_witness :
  ∃ n e', continues (H := debug_profile) n compare_executor e' ∧
    ip (vm e') = (current_ip compare_codegen + 1)%nat.
Proof.
  destruct (il_compare_false_skips (H := debug_profile) compare_start CmpEq "b" compare_codegen
    compare_executor (VS32 0) (VS32 5)) as (n & e' & Hc & _ & _ & Hip).
  - apply emit_data_inv; [apply codegen_new_inv | reflexivity | reflexivity].
  - reflexivity.
  - cbn. lia.
  - exists [], [halt]. split; reflexivity.
  - reflexivity.
  - reflexivity.
  - reflexivity.
  - reflexivity.
  - intros r Hr. injection Hr as <-. reflexivity.
  - exists n, e'. split; [exact Hc | exact Hip].
Defined.

Lemma il_or_ignores_signal_witness :
  ∃ insts e, compile_ast [ILoad "a"; IOr "b"; IStore "q"] = Some insts ∧
    run_to_halt (H := debug_profile) (length insts)
      (mkExecutor (with_signals vm_new {[ "b" := VBool true ]}) (program_new "p" insts) debug_new)
      = Done e (length insts) ∧
    signals (vm e) !! "q" = Some (VS32 0).
Proof.
  destruct (il_or_ignores_signal (H := debug_profile) "a" "b" "q" {[ "b" := VBool true ]} debug_new)
    as (insts & e & Hc & Hr & _ & Hz); [discriminate | reflexivity |].
  exists insts, e. split; [exact Hc|]. split; [exact Hr|]. apply (Hz false). reflexivity.
Defined.
