(* ===== verification/LdCompiler.v ===== *)
(** * Ladder Diagram to Instruction List
    ([audesys-ld-compiler/src/{lexer,codegen,lib}.rs])

    The lexer, the grouping into networks and the IL text generator, with the
    end-to-end theorem: a series ladder runs as its rungs say. *)
From S2P Require Import Prelude Float HalTypes HalValue HalIr FunctionBlocks Vm.
From S2P Require Import Executor ExecutorFacts ExecutorControl StraightLine.
From S2P Require Import Text IlSyntax IlCodegen IlFacts IlCorrect.

Inductive LdToken :=
  | LdNetwork
  | LdNo (var : string) | LdNc (var : string)
  | LdP (var : string) | LdN (var : string)
  | LdOut (var : string) | LdSet (var : string) | LdReset (var : string)
  | LdParallel (spec : string).

Definition starts_with_bar (s : string) : bool :=
  match chars s with "|"%char :: _ => true | _ => false end.
(** [line[1..]]. *)
Definition drop_first (s : string) : string := of_chars (tail (chars s)).

Definition parse_line (line : string) : LdToken :=
  match split_whitespace (to_uppercase line) with
  | ["NETWORK"] => LdNetwork
  | ["NO"; var] => LdNo var
  | ["NC"; var] => LdNc var
  | ["P"; var] => LdP var
  | ["N"; var] => LdN var
  | ["OUT"; var] => LdOut var
  | ["SET"; var] => LdSet var
  | ["RESET"; var] => LdReset var
  | _ =>
      if starts_with_bar line then
        match split_whitespace (to_uppercase (trim (drop_first line))) with
        | ["NO"; var] => LdParallel ("NO " +:+ var)
        | ["NC"; var] => LdParallel ("NC " +:+ var)
        | ["P"; var] => LdParallel ("P " +:+ var)
        | ["N"; var] => LdParallel ("N " +:+ var)
        | _ => LdNetwork
        end
      else LdNetwork
  end.

Definition ld_tokenize (source : string) : list LdToken :=
  concat (map (fun line =>
    let trimmed := trim line in
    if String.eqb trimmed EmptyString then [] else [parse_line trimmed]) (lines source)).

Inductive CoilKind := CoilOut | CoilSet | CoilReset.

Inductive LdElement :=
  | Contact (normally_open : bool) (var : string)
  | ParallelContact (normally_open : bool) (var : string)
  | EdgeContact (rising : bool) (var : string)
  | Coil (kind : CoilKind) (var : string).

(** The element of a token, [None] for a network boundary or an unreadable
    parallel branch. *)
Definition token_element (t : LdToken) : option LdElement :=
  match t with
  | LdNetwork => None
  | LdNo var => Some (Contact true var)
  | LdNc var => Some (Contact false var)
  | LdOut var => Some (Coil CoilOut var)
  | LdSet var => Some (Coil CoilSet var)
  | LdReset var => Some (Coil CoilReset var)
  | LdP var => Some (EdgeContact true var)
  | LdN var => Some (EdgeContact false var)
  | LdParallel spec =>
      match split_whitespace spec with
      | ["NO"; var] => Some (ParallelContact true var)
      | ["NC"; var] => Some (ParallelContact false var)
      | ["P"; var] => Some (EdgeContact true var)
      | ["N"; var] => Some (EdgeContact false var)
      | _ => None
      end
  end.

(** [current] is the open network. *)
Fixpoint parse_networks_aux (current : list LdElement) (tokens : list LdToken)
  : list (list LdElement) :=
  match tokens with
  | [] => match current with [] => [] | _ => [current] end
  | LdNetwork :: tokens =>
      match current with
      | [] => parse_networks_aux [] tokens
      | _ => current :: parse_networks_aux [] tokens
      end
  | t :: tokens =>
      match token_element t with
      | Some e => parse_networks_aux (current ++ [e]) tokens
      | None => parse_networks_aux current tokens
      end
  end.
Definition parse_networks : list LdToken → list (list LdElement) := parse_networks_aux [].

(** The lines of one element and the new [first_contact]. *)
Definition element_il (first : bool) (e : LdElement) : list string * bool :=
  match e with
  | Contact no var =>
      if first then ([(if no then "LD " else "LDN ") +:+ var], false)
      else ([(if no then "AND " else "ANDN ") +:+ var], false)
  | ParallelContact no var => ([(if no then "OR " else "ORN ") +:+ var], first)
  | EdgeContact rising var =>
      ([(if first then "LD " else "AND ") +:+ var;
        (if rising then "R_TRIG " else "F_TRIG ") +:+ var], false)
  | Coil CoilOut var => (["ST " +:+ var], first)
  | Coil CoilSet var => (["S " +:+ var], first)
  | Coil CoilReset var => (["R " +:+ var], first)
  end.

Fixpoint network_il (first : bool) (net : list LdElement) : list string :=
  match net with
  | [] => []
  | e :: net => let '(ls, first) := element_il first e in ls ++ network_il first net
  end.

(** [lines.join("\n")]. *)
Fixpoint join_lines (ls : list string) : string :=
  match ls with
  | [] => EmptyString
  | [l] => l
  | l :: ls => l +:+ String.String newline (join_lines ls)
  end.

Definition generate_il (networks : list (list LdElement)) : string :=
  join_lines (concat (map (network_il true) networks)).

Definition ld_compile (source : string) : result string string :=
  let tokens := ld_tokenize source in
  match tokens with
  | [] => Err "empty LD source"
  | _ => Ok (generate_il (parse_networks tokens))
  end.

(** ** The generated text is the printed form of IL statements *)
Definition element_stmts (first : bool) (e : LdElement) : list ILStatement * bool :=
  match e with
  | Contact no var =>
      if first then ([if no then ILoad var else ILoadNot var], false)
      else ([if no then IAnd var else IAndNot var], false)
  | ParallelContact no var => ([if no then IOr var else IOrNot var], first)
  | EdgeContact rising var =>
      ([if first then ILoad var else IAnd var; if rising then IRTrig var else IFTrig var], false)
  | Coil CoilOut var => ([IStore var], first)
  | Coil CoilSet var => ([ISet var], first)
  | Coil CoilReset var => ([IReset var], first)
  end.
Fixpoint network_stmts (first : bool) (net : list LdElement) : list ILStatement :=
  match net with
  | [] => []
  | e :: net => let '(ls, first) := element_stmts first e in ls ++ network_stmts first net
  end.
Definition ld_stmts (networks : list (list LdElement)) : list ILStatement :=
  concat (map (network_stmts true) networks).

Definition element_var (e : LdElement) : string :=
  match e with
  | Contact _ v | ParallelContact _ v | EdgeContact _ v | Coil _ v => v
  end.
Definition networks_valid (nets : list (list LdElement)) : bool :=
  forallb (forallb (fun e => valid_name (element_var e))) nets.

Lemma network_il_render first net : network_il first net = map render_stmt (network_stmts first net).
Proof.
  revert first. induction net as [|e net IH]; intros first; [done|]. cbn.
  destruct e as [[] v|[] v|[] v|[] v], first; cbn; rewrite ?IH; done.
Qed.

Lemma network_stmts_valid first net :
  forallb (fun e => valid_name (element_var e)) net = true →
  forallb stmt_valid (network_stmts first net) = true.
Proof.
  revert first. induction net as [|e net IH]; intros first; [done|]. cbn [forallb].
  intros [He Hn]%andb_true_iff.
  destruct e as [[] v|[] v|[] v|[] v], first; cbn [network_stmts element_stmts element_var] in *;
    rewrite forallb_app, IH by done; rewrite andb_true_r; cbn [forallb];
    unfold stmt_valid, stmt_name; cbn [stmt_tokens]; by rewrite He.
Qed.

Lemma ld_stmts_valid nets : networks_valid nets = true → forallb stmt_valid (ld_stmts nets) = true.
Proof.
  unfold networks_valid, ld_stmts. induction nets as [|n nets IH]; [done|]. cbn.
  intros [Hn Hns]%andb_true_iff. by rewrite forallb_app, network_stmts_valid, IH.
Qed.

Lemma lines_aux_last acc w :
  forallb (fun c => negb (bool_decide (c = newline))) w = true → rev w ++ acc ≠ [] →
  lines_aux acc w = [of_chars (rev (rev w ++ acc))].
Proof.
  revert acc. induction w as [|c w IH]; intros acc Hw Hne; cbn.
  - by destruct acc.
  - cbn [forallb] in Hw. apply andb_true_iff in Hw as [Hc Hw]. apply negb_true_iff in Hc.
    rewrite Hc. rewrite IH; [|done|].
    + cbn. by rewrite <- (assoc_L (++)).
    + cbn in Hne. by rewrite <- (assoc_L (++)) in Hne.
Qed.

Lemma stmt_line_nonempty s : stmt_valid s = true → render_stmt s ≠ EmptyString.
Proof.
  unfold stmt_valid, stmt_name, render_stmt.
  destruct s as [ | | | | | | | | | | | | |[] v | | | | | | | | | | | | | | | | | | ];
    cbn [stmt_tokens render_tokens token_fmt]; intros Hv; try done.
  by destruct name.
Qed.

(** The joined text has the same lines as the printed program. *)
Lemma lines_join stmts :
  forallb stmt_valid stmts = true →
  lines (join_lines (map render_stmt stmts)) = map render_stmt stmts.
Proof.
  induction stmts as [|s stmts IH]; [done|]. cbn [forallb]. intros [Hs Hss]%andb_true_iff.
  destruct stmts as [|s2 stmts].
  - cbn [map join_lines]. unfold lines.
    pose proof (stmt_line_nonempty s Hs) as Hne. pose proof (chars_nonempty _ Hne) as Hcn.
    rewrite lines_aux_last.
    + by rewrite app_nil_r, rev_involutive, of_chars_chars.
    + by apply stmt_line_no_newline.
    + rewrite app_nil_r. intros E. apply Hcn. rewrite <- (rev_involutive (chars _)), E. done.
  - change (join_lines (map render_stmt (s :: s2 :: stmts))) with
      (render_stmt s +:+ String.String newline (join_lines (map render_stmt (s2 :: stmts)))).
    unfold lines. rewrite chars_app. cbn [chars].
    rewrite lines_aux_line by (by apply stmt_line_no_newline).
    rewrite app_nil_r, stmt_line_no_cr, rev_involutive, of_chars_chars by done.
    cbn [map]. f_equal. by apply IH.
Qed.

Lemma tokenize_lines ls : ∀ source, lines source = ls → tokenize source = concat (map tokenize_line ls).
Proof. unfold tokenize. by intros source ->. Qed.

Lemma parse_generated nets :
  networks_valid nets = true → parse (tokenize (generate_il nets)) = ld_stmts nets.
Proof.
  intros Hv. apply ld_stmts_valid in Hv as Hs.
  assert (Hgen : generate_il nets = join_lines (map render_stmt (ld_stmts nets))).
  { unfold generate_il, ld_stmts. f_equal. clear. induction nets as [|n nets IH]; [done|].
    cbn. rewrite map_app, network_il_render. by f_equal. }
  rewrite Hgen, (tokenize_lines _ _ (lines_join _ Hs)).
  rewrite <- (parse_tokens_roundtrip (ld_stmts nets)) at 2. f_equal.
  rewrite map_map. clear Hgen Hv. induction (ld_stmts nets) as [|s l IH]; [done|].
  cbn [forallb] in Hs. apply andb_true_iff in Hs as [Hs1 Hs2].
  cbn. by rewrite tokenize_stmt, IH.
Qed.

(** ** Power flow: the meaning of a series ladder *)

(** The boolean a contact reads; an unset signal reads false. *)
Definition contact_value (env : il_env) (x : string) : bool := as_bool (env_value env x).

Definition rung_step (st : bool * il_env) (e : LdElement) : bool * il_env :=
  let '(power, env) := st in
  match e with
  | Contact no x => (power && (if no then contact_value env x else negb (contact_value env x)), env)
  | Coil CoilOut x => (power, <[x := VBool power]> env)
  | _ => st
  end.

(** A rung starts with power on the left rail. *)
Definition rung_eval (env : il_env) (net : list LdElement) : il_env :=
  (fold_left rung_step net (true, env)).2.

Definition series_element (e : LdElement) : bool :=
  match e with Contact _ _ | Coil CoilOut _ => true | _ => false end.
(** Contacts and output coils, starting with a contact. *)
Definition series_network (net : list LdElement) : bool :=
  match net with Contact _ _ :: _ => forallb series_element net | _ => false end.

Definition bool_env (env : il_env) : Prop := map_Forall (fun _ v => ∃ b, v = VBool b) env.

Lemma env_value_bool env x : bool_env env → env_value env x = VBool (contact_value env x).
Proof.
  intros He. unfold contact_value, env_value. destruct (env !! x) as [v|] eqn:E; [|done].
  destruct (He x v E) as [b ->]. done.
Qed.

Lemma series_rest net power env :
  forallb series_element net = true → bool_env env →
  let '(power', env') := fold_left rung_step net (power, env) in
  fold_left il_eval (network_stmts false net) (VBool power, env) = (VBool power', env') ∧
  bool_env env' ∧ forallb bool_stmt (network_stmts false net) = true.
Proof.
  revert power env. induction net as [|e net IH]; intros power env Hs He; [done|].
  cbn [forallb] in Hs. apply andb_true_iff in Hs as [Hse Hs].
  destruct e as [[] x| | |[] x]; try done;
    cbn [network_stmts element_stmts fold_left rung_step app il_eval forallb bool_stmt andb];
    rewrite ?(env_value_bool _ _ He).
  - exact (IH (power && contact_value env x) env Hs He).
  - exact (IH (power && negb (contact_value env x)) env Hs He).
  - apply IH; [done|]. apply map_Forall_insert_2; [by eexists | done].
Qed.

Lemma series_network_eval net cr env :
  series_network net = true → bool_env env →
  ∃ cr', fold_left il_eval (network_stmts true net) (cr, env) = (cr', rung_eval env net) ∧
    bool_env (rung_eval env net) ∧ forallb bool_stmt (network_stmts true net) = true.
Proof.
  unfold series_network. intros Hs He. destruct net as [|[no x| | |] net]; try done.
  cbn [forallb] in Hs. apply andb_true_iff in Hs as [_ Hs].
  unfold rung_eval. cbn [fold_left rung_step network_stmts element_stmts andb].
  destruct no; cbn [app fold_left il_eval forallb bool_stmt andb]; rewrite (env_value_bool _ _ He).
  - pose proof (series_rest net (contact_value env x) env Hs He) as Hr.
    destruct (fold_left rung_step net (contact_value env x, env)) as [p env'].
    exists (VBool p). exact Hr.
  - pose proof (series_rest net (negb (contact_value env x)) env Hs He) as Hr.
    destruct (fold_left rung_step net (negb (contact_value env x), env)) as [p env'].
    exists (VBool p). exact Hr.
Qed.

Lemma series_ladder_eval nets cr env :
  forallb series_network nets = true → bool_env env →
  (fold_left il_eval (ld_stmts nets) (cr, env)).2 = fold_left rung_eval nets env ∧
  forallb bool_stmt (ld_stmts nets) = true.
Proof.
  unfold ld_stmts. revert cr env. induction nets as [|n nets IH]; intros cr env Hs He; [done|].
  cbn [forallb] in Hs. apply andb_true_iff in Hs as [Hn Hs].
  destruct (series_network_eval n cr env Hn He) as (cr' & Hf & Hb & Hops).
  cbn [map concat fold_left]. rewrite fold_left_app, Hf, forallb_app, Hops. by apply IH.
Qed.

Section profile.
Context `{BuildProfile}.

(** [C6] A series ladder runs as drawn: for networks of normally open and
    normally closed contacts and output coils, each starting with a contact,
    with readable names and at most ten distinct contact names, the IL text
    [generate_il] produces compiles, and the compiled program, run on a machine
    whose signals are booleans, halts with the signals that power flow through
    the rungs, one after the other, computes. *)
Theorem ld_series_correct nets env d :
  networks_valid nets = true → forallb series_network nets = true → bool_env env →
  (size (program_vars (ld_stmts nets)) ≤ 10)%nat → debug_mode d = false →
  ∃ p e, il_compile (generate_il nets) = Some (Ok p) ∧
    run_to_halt (length (instructions p)) (mkExecutor (with_signals vm_new env) p d)
      = Done e (length (instructions p)) ∧
    signals (vm e) = fold_left rung_eval nets env.
Proof.
  intros Hv Hs He Hsz Hd.
  destruct (series_ladder_eval nets (VS32 0) env Hs He) as [Hev Hops].
  destruct (compile_ast (ld_stmts nets)) as [insts|] eqn:Hc.
  2: { apply compile_ast_none_size in Hc. lia. }
  destruct (il_boolean_run (ld_stmts nets) insts env
    "il_program" (store_bindings ∅ insts) d Hops Hc Hd) as (e & Hr & Hsig).
  exists (mkProgram "il_program" (store_bindings ∅ insts) [] insts []), e.
  unfold il_compile. rewrite parse_generated, Hc by done. split; [done|].
  split; [exact Hr|]. exact (eq_trans Hsig Hev).
Qed.
End profile.

Lemma ld_series_correct_witness :
  ∃ p e, il_compile (generate_il [[Contact true "X1"; Contact false "X2"; Coil CoilOut "Y1"];
                                  [Contact true "Y1"; Coil CoilOut "Y2"]]) = Some (Ok p) ∧
    run_to_halt (H := debug_profile) (length (instructions p))
      (mkExecutor (with_signals vm_new {[ "X1" := VBool true ]}) p debug_new)
      = Done e (length (instructions p)) ∧
    signals (vm e) !! "Y2" = Some (VBool true).
Proof.
  destruct (ld_series_correct (H := debug_profile)
    [[Contact true "X1"; Contact false "X2"; Coil CoilOut "Y1"]; [Contact true "Y1"; Coil CoilOut "Y2"]]
    {[ "X1" := VBool true ]} debug_new) as (p & e & Hc & Hr & Hs);
    [reflexivity | reflexivity | | vm_compute; lia | reflexivity |].
  - intros k v Hk. apply lookup_singleton_Some in Hk as [_ <-]. eexists. reflexivity.
  - exists p, e. split; [exact Hc|]. split; [exact Hr|]. rewrite Hs. reflexivity.
Defined.
