(* ===== verification/Transport.v ===== *)
(** * Signal transport
    ([audesys-hal-core/src/transport.rs], [audesys-amw-inproc/src/transport.rs])

    The interface [HalTransport] with its laws, and the in-process transport
    that implements it.  Callbacks are identifiers: publishing returns the
    list of callbacks it invokes, in order.  The thread that runs an RPC
    handler is an argument of [rpc_call]: what [recv_timeout] returned. *)
From S2P Require Import Prelude HalTypes HalValue Text.
Local Open Scope Z_scope.

Record Timestamp := mkTs { secs : Z; micros : Z }.
#[export] Instance Timestamp_eq_dec : EqDecision Timestamp.
Proof. solve_decision. Defined.

(** A subscriber's closure, identified by a token. *)
Definition SignalCallback : Type := nat.
(** An invocation of a callback. *)
Definition Delivery : Type := SignalCallback * HalValue * Timestamp.

Definition RpcHandler : Type := list Z → HalResult (list Z).

(** What [rx.recv_timeout] reports about the handler thread. *)
Inductive Recv := RecvReply | RecvTimedOut | RecvDisconnected.

(** ** The interface

    What a component may assume of a transport it is given. *)
Class HalTransport (T : Type) := {
  publish_signal : T → string → HalValue → Timestamp → T * list Delivery;
  read_signal : T → string → T * option (HalValue * Timestamp);
  subscribe_signal : T → string → SignalCallback → T;
  snapshot_signals : T → string → list (string * HalValue * Timestamp);
  rpc_call : T → string → list Z → Z → Recv → T * HalResult (list Z);
  register_rpc_handler : T → string → RpcHandler → T;
  shutdown : T → T }.

(** The signal part of the contract: latest value, one writer's publish does
    not disturb other signals, and reading changes no value. *)
Class HalTransportLaws (T : Type) `{HalTransport T} := {
  read_publish_same : ∀ t n v ts,
    (read_signal (publish_signal t n v ts).1 n).2 = Some (v, ts);
  read_publish_other : ∀ t n m v ts, n ≠ m →
    (read_signal (publish_signal t n v ts).1 m).2 = (read_signal t m).2;
  read_read : ∀ t n m, (read_signal (read_signal t n).1 m).2 = (read_signal t m).2;
  read_shutdown : ∀ t n, (read_signal (shutdown t) n).2 = None }.

(** ** The in-process transport *)
Record InprocTransport := mkTransport {
  signals : gmap string (HalValue * Timestamp);
  callbacks : gmap string (list (Z * SignalCallback));
  rpc_handlers : gmap string RpcHandler;
  signals_published : Z;
  signals_read : Z;
  rpc_calls : Z;
  rpc_timeouts : Z;
  rpc_rejected : Z;
  next_sub_id : Z }.

Definition transport_new : InprocTransport := mkTransport ∅ ∅ ∅ 0 0 0 0 0 1.

(** [AtomicU64::fetch_add] wraps. *)
Definition fetch_add (z : Z) : Z := wrap_u 64 (z + 1).

Definition callbacks_of (t : InprocTransport) (name : string) : list (Z * SignalCallback) :=
  default [] (callbacks t !! name).

Definition unsubscribe_signal (t : InprocTransport) (name : string) (sub_id : Z) : InprocTransport :=
  mkTransport (signals t)
    (match callbacks t !! name with
     | Some subs => <[name := List.filter (fun s : Z * SignalCallback => negb (s.1 =? sub_id)) subs]> (callbacks t)
     | None => callbacks t
     end)
    (rpc_handlers t) (signals_published t) (signals_read t) (rpc_calls t) (rpc_timeouts t)
    (rpc_rejected t) (next_sub_id t).

Definition matches_pattern (name pattern : string) : bool :=
  starts_with name (trim_end_matches pattern "*").

Definition inproc_publish (t : InprocTransport) (name : string) (v : HalValue) (ts : Timestamp)
  : InprocTransport * list Delivery :=
  (mkTransport (<[name := (v, ts)]> (signals t)) (callbacks t) (rpc_handlers t)
     (fetch_add (signals_published t)) (signals_read t) (rpc_calls t) (rpc_timeouts t)
     (rpc_rejected t) (next_sub_id t),
   map (fun s => (s.2, v, ts)) (callbacks_of t name)).

Definition inproc_read (t : InprocTransport) (name : string)
  : InprocTransport * option (HalValue * Timestamp) :=
  (mkTransport (signals t) (callbacks t) (rpc_handlers t) (signals_published t)
     (fetch_add (signals_read t)) (rpc_calls t) (rpc_timeouts t) (rpc_rejected t) (next_sub_id t),
   signals t !! name).

Definition inproc_subscribe (t : InprocTransport) (name : string) (cb : SignalCallback)
  : InprocTransport :=
  mkTransport (signals t) (<[name := callbacks_of t name ++ [(next_sub_id t, cb)]]> (callbacks t))
    (rpc_handlers t) (signals_published t) (signals_read t) (rpc_calls t) (rpc_timeouts t)
    (rpc_rejected t) (fetch_add (next_sub_id t)).

(** The order of a [HashMap] iteration is unspecified; the properties below
    only use membership. *)
Definition inproc_snapshot (t : InprocTransport) (pattern : string)
  : list (string * HalValue * Timestamp) :=
  map (fun '(n, (v, ts)) => (n, v, ts))
    (List.filter (fun '(n, _) => matches_pattern n pattern) (map_to_list (signals t))).

Definition with_rpc_counters (t : InprocTransport) (calls timeouts rejected : Z) : InprocTransport :=
  mkTransport (signals t) (callbacks t) (rpc_handlers t) (signals_published t) (signals_read t)
    calls timeouts rejected (next_sub_id t).

Definition inproc_rpc_call (t : InprocTransport) (method : string) (params : list Z)
    (timeout_ms : Z) (recv : Recv) : InprocTransport * HalResult (list Z) :=
  let calls := fetch_add (rpc_calls t) in
  match rpc_handlers t !! method with
  | None =>
      (with_rpc_counters t calls (rpc_timeouts t) (fetch_add (rpc_rejected t)),
       Err (NotFound method))
  | Some handler =>
      match recv with
      | RecvReply => (with_rpc_counters t calls (rpc_timeouts t) (rpc_rejected t), handler params)
      | RecvTimedOut =>
          (with_rpc_counters t calls (fetch_add (rpc_timeouts t)) (rpc_rejected t),
           Err (RpcTimeout method timeout_ms))
      | RecvDisconnected =>
          (with_rpc_counters t calls (rpc_timeouts t) (fetch_add (rpc_rejected t)),
           Err (Execution method "RPC handler thread disconnected"))
      end
  end.

Definition inproc_register_rpc (t : InprocTransport) (method : string) (h : RpcHandler)
  : InprocTransport :=
  mkTransport (signals t) (callbacks t) (<[method := h]> (rpc_handlers t)) (signals_published t)
    (signals_read t) (rpc_calls t) (rpc_timeouts t) (rpc_rejected t) (next_sub_id t).

Definition inproc_shutdown (t : InprocTransport) : InprocTransport :=
  mkTransport ∅ ∅ ∅ (signals_published t) (signals_read t) (rpc_calls t) (rpc_timeouts t)
    (rpc_rejected t) (next_sub_id t).

#[export] Instance InprocTransport_transport : HalTransport InprocTransport := {
  publish_signal := inproc_publish;
  read_signal := inproc_read;
  subscribe_signal := inproc_subscribe;
  snapshot_signals := inproc_snapshot;
  rpc_call := inproc_rpc_call;
  register_rpc_handler := inproc_register_rpc;
  shutdown := inproc_shutdown }.

#[export] Instance InprocTransport_laws : HalTransportLaws InprocTransport.
Proof.
  split; intros; cbn.
  - apply lookup_insert_eq.
  - by apply lookup_insert_ne.
  - done.
  - apply lookup_empty.
Qed.

(** ** Clients of the interface *)
Section client.
Context {T : Type} `{HalTransport T, !HalTransportLaws T}.

(** Publish a sequence of values. *)
Definition publish_all (t : T) (l : list (string * HalValue * Timestamp)) : T :=
  fold_left (fun t '(n, v, ts) => (publish_signal t n v ts).1) l t.

(** The last value of a sequence for a name. *)
Fixpoint latest (l : list (string * HalValue * Timestamp)) (n : string)
  : option (HalValue * Timestamp) :=
  match l with
  | [] => None
  | (m, v, ts) :: l =>
      match latest l n with
      | Some x => Some x
      | None => if String.eqb m n then Some (v, ts) else None
      end
  end.

(** Latest-value semantics of signals, for any transport that satisfies
    the interface: after any sequence of publications a read returns the last
    value published under the name, and what was there before if there is
    none. *)
Theorem read_latest t l n :
  (read_signal (publish_all t l) n).2 =
  match latest l n with Some x => Some x | None => (read_signal t n).2 end.
Proof.
  unfold publish_all. revert t. induction l as [|[[m v] ts] l IH]; intros t; [done|].
  cbn [fold_left latest]. rewrite IH. destruct (latest l n); [done|].
  destruct (String.eqb_spec m n) as [->|Hne].
  - apply read_publish_same.
  - by apply read_publish_other.
Qed.
End client.

(** ** Properties of the in-process transport *)
Lemma rev_repeat {A} (c : A) k : rev (repeat c k) = repeat c k.
Proof.
  induction k as [|k IH]; [done|]. cbn [repeat rev]. rewrite IH.
  clear. induction k as [|k IH]; [done|]. cbn. by rewrite IH.
Qed.

Lemma trim_star p k : trim_end_matches (p +:+ of_chars (repeat "*"%char k)) "*" = trim_end_matches p "*".
Proof.
  unfold trim_end_matches. do 2 f_equal.
  by rewrite chars_app, chars_of_chars, rev_app_distr, rev_repeat, drop_while_eq_repeat.
Qed.

Lemma elem_of_inproc_snapshot t pattern n v ts :
  (n, v, ts) ∈ inproc_snapshot t pattern ↔
  signals t !! n = Some (v, ts) ∧ matches_pattern n pattern = true.
Proof.
  unfold inproc_snapshot. rewrite list_elem_of_In, in_map_iff. split.
  - intros ([m [w us]] & [= -> -> ->] & Hin). apply filter_In in Hin as [Hin Hm].
    by apply list_elem_of_In, elem_of_map_to_list in Hin.
  - intros [Hs Hp]. exists (n, (v, ts)). split; [done|]. apply filter_In.
    by rewrite <- list_elem_of_In, elem_of_map_to_list.
Qed.

(** A snapshot lists exactly the signals whose name starts with the
    pattern without its trailing stars, each with its latest value: a star
    elsewhere in the pattern is an ordinary character. *)
Theorem snapshot_spec t pattern n v ts :
  (n, v, ts) ∈ inproc_snapshot t pattern ↔
  signals t !! n = Some (v, ts) ∧ chars (trim_end_matches pattern "*") `prefix_of` chars n.
Proof. rewrite elem_of_inproc_snapshot. unfold matches_pattern, starts_with. by rewrite starts_with_chars_spec. Qed.

(** Callback delivery: publishing invokes exactly the callbacks
    subscribed to that name and not unsubscribed, in subscription order, each
    with the published value; a subscription is effective from the next
    publication on and unsubscribing one identifier removes only it. *)
Theorem publish_deliveries t n v ts cb :
  (inproc_publish t n v ts).2 = map (fun s => (s.2, v, ts)) (callbacks_of t n) ∧
  (∀ m, (inproc_publish (inproc_subscribe t n cb) m v ts).2 =
     (inproc_publish t m v ts).2 ++ if String.eqb n m then [(cb, v, ts)] else []) ∧
  (∀ i m, (inproc_publish (unsubscribe_signal t n i) m v ts).2 =
     map (fun s => (s.2, v, ts))
       (if String.eqb n m
        then List.filter (fun s : Z * SignalCallback => negb (s.1 =? i)) (callbacks_of t m)
        else callbacks_of t m)).
Proof.
  split; [done|]. split.
  - intros m. unfold inproc_publish. cbn [snd]. unfold callbacks_of at 1. cbn [inproc_subscribe callbacks].
    destruct (String.eqb_spec n m) as [->|Hne].
    + rewrite lookup_insert_eq. cbn. by rewrite map_app.
    + rewrite lookup_insert_ne by done. by rewrite app_nil_r.
  - intros i m. unfold inproc_publish. cbn [snd]. f_equal.
    unfold callbacks_of. cbn [unsubscribe_signal callbacks].
    destruct (String.eqb_spec n m) as [->|Hne].
    + destruct (callbacks t !! m) as [l|] eqn:E; [by rewrite lookup_insert_eq | by rewrite E].
    + destruct (callbacks t !! n); [|done]. by rewrite lookup_insert_ne.
Qed.

Lemma read_latest_witness :
  (read_signal (publish_all transport_new [("a", VBool true, mkTs 1 0); ("b", VBool false, mkTs 2 0);
                                           ("a", VBool false, mkTs 3 0)]) "a").2
  = Some (VBool false, mkTs 3 0).
Proof. apply (read_latest transport_new). Defined.
