(* ===== verification/Qos.v ===== *)
(** * Lock levels and the config barrier
    ([audesys-hal-core/src/qos.rs], [audesys-amw-inproc/src/qos.rs])

    The six lock levels, the table that says which configuration command may
    be queued at which level, and the in-process controller: level, command
    queue, liveliness and security domains. *)
From S2P Require Import Prelude HalTypes Text.
Local Open Scope Z_scope.

Inductive LockLevel := LkNone | LkLoad | LkConfig | LkParams | LkRun | LkAll.
#[export] Instance LockLevel_eq_dec : EqDecision LockLevel.
Proof. solve_decision. Defined.

(** [level as u8]; the derived [Ord] compares these. *)
Definition lock_u8 (l : LockLevel) : Z :=
  match l with LkNone => 0 | LkLoad => 1 | LkConfig => 2 | LkParams => 3 | LkRun => 4 | LkAll => 5 end.
Definition level_lt (a b : LockLevel) : bool := lock_u8 a <? lock_u8 b.
Definition level_ge (a b : LockLevel) : bool := lock_u8 b <=? lock_u8 a.

(** [{:?}]. *)
Definition lock_debug (l : LockLevel) : string :=
  match l with
  | LkNone => "None" | LkLoad => "Load" | LkConfig => "Config"
  | LkParams => "Params" | LkRun => "Run" | LkAll => "All"
  end.

Inductive ConfigStatus :=
  | Queued
  | Applied
  | CfgRejected (reason : string)
  | CfgFailed (reason : string).
#[export] Instance ConfigStatus_eq_dec : EqDecision ConfigStatus.
Proof. solve_decision. Defined.

(** [queued_at] is an instant of the monotonic clock. *)
Record ConfigCommand := mkCmd {
  cmd_id : Z;
  cmd_method : string;
  cmd_params : list Z;
  queued_at : Z }.

Inductive LivelinessStatus := Alive | Missing | Unknown.

Definition required_lock_level (method : string) : LockLevel :=
  let lower := to_lowercase method in
  if contains lower "load" || contains lower "unload" || contains lower "component" then LkLoad
  else if contains lower "param" then LkParams
  else LkConfig.

Definition can_queue (current required : LockLevel) : bool :=
  match current with
  | LkNone | LkLoad => true
  | LkConfig => level_ge required LkConfig
  | LkParams => level_ge required LkParams
  | LkRun | LkAll => false
  end.

(** ** The in-process controller *)
Record InprocQoS := mkQoS {
  qos_lock_level : Z;
  config_queue : list ConfigCommand;
  liveliness : gmap string LivelinessStatus;
  security_domains : gmap string string }.

Definition qos_new : InprocQoS := mkQoS (lock_u8 LkNone) [] ∅ ∅.

Definition load_level (q : InprocQoS) : LockLevel :=
  let raw := qos_lock_level q in
  if raw =? 0 then LkNone
  else if raw =? 1 then LkLoad
  else if raw =? 2 then LkConfig
  else if raw =? 3 then LkParams
  else if raw =? 4 then LkRun
  else if raw =? 5 then LkAll
  else LkAll.

Definition set_lock_level (q : InprocQoS) (level : LockLevel) : InprocQoS * ConfigStatus :=
  let current := load_level q in
  if level_lt level current then
    (q, CfgRejected ("Cannot decrease lock level: " +:+ lock_debug current +:+ " → "
                     +:+ lock_debug level +:+ " (monotonic-increasing constraint)"))
  else (mkQoS (lock_u8 level) (config_queue q) (liveliness q) (security_domains q), Applied).

Definition queue_config (q : InprocQoS) (cmd : ConfigCommand) : InprocQoS * ConfigStatus :=
  let current := load_level q in
  let required := required_lock_level (cmd_method cmd) in
  if negb (can_queue current required) then
    (q, CfgRejected ("LockLevel " +:+ lock_debug current +:+ " prohibits command "
                     +:+ str_debug (cmd_method cmd) +:+ " (requires " +:+ lock_debug required +:+ ")"))
  else (mkQoS (qos_lock_level q) (config_queue q ++ [cmd]) (liveliness q) (security_domains q), Queued).

Definition apply_queued (q : InprocQoS) : InprocQoS * list ConfigStatus :=
  (mkQoS (qos_lock_level q) [] (liveliness q) (security_domains q),
   map (fun _ => Applied) (config_queue q)).

Definition register_entity (q : InprocQoS) (entity_id : string) : InprocQoS :=
  mkQoS (qos_lock_level q) (config_queue q) (<[entity_id := Alive]> (liveliness q)) (security_domains q).

Definition check_liveliness (q : InprocQoS) (entity_id : string) : LivelinessStatus :=
  default Unknown (liveliness q !! entity_id).

Definition tag_security_domain (q : InprocQoS) (name domain : string) : InprocQoS :=
  mkQoS (qos_lock_level q) (config_queue q) (liveliness q) (<[name := domain]> (security_domains q)).

Definition get_security_domain (q : InprocQoS) (name : string) : option string :=
  security_domains q !! name.

(** ** Sequences of operations *)
Inductive QosOp :=
  | QSetLevel (l : LockLevel)
  | QQueue (c : ConfigCommand)
  | QApply
  | QRegister (e : string)
  | QTag (n d : string).

Definition qos_step (q : InprocQoS) (op : QosOp) : InprocQoS :=
  match op with
  | QSetLevel l => (set_lock_level q l).1
  | QQueue c => (queue_config q c).1
  | QApply => (apply_queued q).1
  | QRegister e => register_entity q e
  | QTag n d => tag_security_domain q n d
  end.

Definition qos_run (q : InprocQoS) (ops : list QosOp) : InprocQoS := fold_left qos_step ops q.

(** The stored byte is always the code of a level. *)
Definition qos_wf (q : InprocQoS) : Prop := lock_u8 (load_level q) = qos_lock_level q.

(** The documented order of the levels. *)
Definition level_le (a b : LockLevel) : Prop := level_ge b a = true.
#[export] Instance level_le_preorder : PreOrder level_le.
Proof.
  split; [intros a | intros a b c]; unfold level_le, level_ge; rewrite ?Z.leb_le; lia.
Qed.

Lemma load_level_u8 l q d s : load_level (mkQoS (lock_u8 l) q d s) = l.
Proof. by destruct l. Qed.

Lemma set_level_result q l :
  load_level (set_lock_level q l).1 = if level_lt l (load_level q) then load_level q else l.
Proof. unfold set_lock_level. destruct level_lt; [done|]. apply load_level_u8. Qed.

Lemma level_lt_ge a b : level_lt a b = negb (level_ge a b).
Proof. unfold level_lt, level_ge. rewrite <- Z.ltb_antisym. done. Qed.

Lemma qos_step_wf q op : qos_wf q → qos_wf (qos_step q op).
Proof.
  intros Hq. destruct op; cbn; try done.
  - unfold qos_wf, set_lock_level. destruct level_lt; [done|]. cbn [fst]. by rewrite load_level_u8.
  - unfold queue_config. by destruct (negb _).
Qed.

Lemma qos_step_monotone q op : level_le (load_level q) (load_level (qos_step q op)).
Proof.
  destruct op; cbn; try reflexivity.
  - rewrite set_level_result, level_lt_ge. unfold level_le.
    destruct (level_ge l (load_level q)) eqn:E; cbn; [done | apply Z.leb_refl].
  - unfold queue_config. destruct (negb _); reflexivity.
Qed.

Lemma qos_run_cons q op ops : qos_run q (op :: ops) = qos_run (qos_step q op) ops.
Proof. done. Qed.

Lemma qos_run_monotone ops q : level_le (load_level q) (load_level (qos_run q ops)).
Proof.
  revert q. induction ops as [|op ops IH]; intros q; [reflexivity|].
  rewrite qos_run_cons. etransitivity; [apply qos_step_monotone | apply IH].
Qed.

(** Lock levels only rise: along any sequence of operations on the
    controller the level never decreases and stays the code of a level, and a
    request succeeds exactly when it does not ask for a lower level. *)
Theorem lock_level_monotone q ops l :
  qos_wf q →
  level_le (load_level q) (load_level (qos_run q ops)) ∧
  qos_wf (qos_run q ops) ∧
  ((set_lock_level (qos_run q ops) l).2 = Applied ↔ level_le (load_level (qos_run q ops)) l) ∧
  (load_level (set_lock_level (qos_run q ops) l).1 = l ↔ level_le (load_level (qos_run q ops)) l).
Proof.
  intros Hq. split; [apply qos_run_monotone|]. split.
  { revert q Hq. induction ops as [|op ops IH]; intros q Hq; [done|].
    rewrite qos_run_cons. by apply IH, qos_step_wf. }
  generalize (qos_run q ops). clear. intros q. split.
  - unfold set_lock_level. rewrite level_lt_ge. unfold level_le.
    by destruct (level_ge l (load_level q)).
  - rewrite set_level_result, level_lt_ge. unfold level_le.
    destruct (level_ge l (load_level q)) eqn:E; cbn; [done|].
    split; [|discriminate]. intros Hl. rewrite <- Hl in E. unfold level_ge in E.
    by rewrite Z.leb_refl in E.
Qed.

Lemma lock_level_monotone_witness :
  qos_wf qos_new ∧
  level_le (load_level qos_new) (load_level (qos_run qos_new [QSetLevel LkRun; QSetLevel LkLoad])).
Proof.
  split; [reflexivity|].
  exact (proj1 (lock_level_monotone qos_new [QSetLevel LkRun; QSetLevel LkLoad] LkAll eq_refl)).
Defined.

(** ** The config barrier *)

(** The commands accepted by a sequence of requests at a fixed level. *)
Definition accepted (q : InprocQoS) (cmds : list ConfigCommand) : list ConfigCommand :=
  List.filter (fun c => can_queue (load_level q) (required_lock_level (cmd_method c))) cmds.

Lemma queue_config_accept q c :
  (queue_config q c).1 =
  mkQoS (qos_lock_level q) (config_queue q ++ accepted q [c]) (liveliness q) (security_domains q).
Proof.
  unfold queue_config, accepted. cbn. destruct can_queue; cbn; [done|].
  rewrite app_nil_r. by destruct q.
Qed.

Lemma queue_run q cmds :
  qos_run q (map QQueue cmds) =
  mkQoS (qos_lock_level q) (config_queue q ++ accepted q cmds) (liveliness q) (security_domains q).
Proof.
  revert q. induction cmds as [|c cmds IH]; intros q; cbn [map].
  - cbn. rewrite app_nil_r. by destruct q.
  - rewrite qos_run_cons. cbn [qos_step]. rewrite queue_config_accept, IH. cbn. f_equal.
    rewrite <- app_assoc. f_equal. unfold accepted. cbn.
    change (load_level (mkQoS _ _ _ _)) with (load_level q). by destruct can_queue.
Qed.

(** The config barrier is a FIFO queue filtered by the lock level: after
    any requests at a level, [apply_queued] reports one [Applied] for each
    command that was pending or accepted, a command is accepted exactly when
    the table allows it, nothing is accepted at [Run] or [All], and a second
    [apply_queued] reports nothing. *)
Theorem config_barrier_fifo q cmds :
  let q' := qos_run q (map QQueue cmds) in
  config_queue q' = config_queue q ++ accepted q cmds ∧
  (apply_queued q').2 = replicate (length (config_queue q) + length (accepted q cmds)) Applied ∧
  (apply_queued (apply_queued q').1).2 = [] ∧
  (∀ c, (queue_config q c).2 = Queued ↔
        can_queue (load_level q) (required_lock_level (cmd_method c)) = true) ∧
  (level_le LkRun (load_level q) → accepted q cmds = []).
Proof.
  cbn zeta. rewrite queue_run. split_and!; [done | | done | | ].
  - cbn. rewrite <- length_app. generalize (config_queue q ++ accepted q cmds).
    intros l. induction l as [|c l IH]; [done|]. cbn. by rewrite IH.
  - intros c. unfold queue_config. by destruct can_queue.
  - intros Hr. unfold accepted. induction cmds as [|c cmds IH]; [done|]. cbn.
    by destruct (load_level q).
Qed.

Lemma config_barrier_fifo_witness :
  level_le LkRun LkAll ∧
  accepted (mkQoS 5 [] ∅ ∅) [mkCmd 1 "linkPin" [] 0] = [].
Proof.
  split; [reflexivity|].
  destruct (config_barrier_fifo (mkQoS 5 [] ∅ ∅) [mkCmd 1 "linkPin" [] 0]) as (_ & _ & _ & _ & H).
  by apply H.
Defined.

(** The documented command [configureComponent] needs level [Load]: its
    name contains [component], so at level [Config], and at [Params] for its
    parameter part, it is rejected like every command whose name mentions a
    component or a load, while any other command is admitted at [Config]. *)
Theorem configure_component_rejected q c :
  load_level q = LkConfig →
  ((queue_config q c).2 = Queued ↔
   let lower := to_lowercase (cmd_method c) in
   contains lower "load" = false ∧ contains lower "unload" = false ∧ contains lower "component" = false) ∧
  (cmd_method c = "configureComponent" → ∃ reason,
     (queue_config q c) = (q, CfgRejected reason)).
Proof.
  intros Hl. split.
  - unfold queue_config. rewrite Hl. unfold required_lock_level. cbn zeta.
    destruct (contains _ "load"), (contains _ "unload"), (contains _ "component"), (contains _ "param");
      cbn; intuition discriminate.
  - intros Hc. unfold queue_config. rewrite Hl, Hc. cbn. by eexists.
Qed.

Lemma configure_component_rejected_witness :
  load_level (mkQoS 2 [] ∅ ∅) = LkConfig ∧
  ∃ reason, queue_config (mkQoS 2 [] ∅ ∅) (mkCmd 1 "configureComponent" [] 0)
            = (mkQoS 2 [] ∅ ∅, CfgRejected reason).
Proof.
  split; [reflexivity|].
  by apply (proj2 (configure_component_rejected (mkQoS 2 [] ∅ ∅) (mkCmd 1 "configureComponent" [] 0) eq_refl)).
Defined.
