(* ===== verification/Stream.v ===== *)
(** * Stream channels
    ([audesys-hal-core/src/stream.rs], [audesys-amw-inproc/src/stream.rs])

    The bounded queue shared by every writer and reader of a channel, its
    three overflow policies and push delivery to subscribers.  An operation
    holds the channel's mutex from its first to its last line, so it is one
    step on the shared state; the retries of the backpressure policy run
    inside the step. *)
From S2P Require Import Prelude HalTypes HalValue Transport.
Local Open Scope Z_scope.

Definition BACKPRESSURE_MAX_RETRIES : nat := 10.

Definition Message : Type := HalValue * Timestamp.

Record StreamChannelInner := mkStream {
  queue : list Message;
  subscribers : list SignalCallback;
  config : StreamConfig }.

Definition stream_new (c : StreamConfig) : StreamChannelInner := mkStream [] [] c.

Definition set_queue (s : StreamChannelInner) (q : list Message) : StreamChannelInner :=
  mkStream q (subscribers s) (config s).

Definition queue_len (s : StreamChannelInner) : Z := Z.of_nat (length (queue s)).

(** The bounded retry loop: sleep, then look at the queue again. *)
Fixpoint backpressure_loop (retries : nat) (s : StreamChannelInner) (m : Message)
  : StreamChannelInner * HalResult unit :=
  match retries with
  | O => (s, Err (Internal "stream backpressure timeout"))
  | S retries =>
      if queue_len s <? queue_depth (config s) then (set_queue s (queue s ++ [m]), Ok tt)
      else backpressure_loop retries s m
  end.

Definition push (s : StreamChannelInner) (m : Message) : StreamChannelInner * HalResult unit :=
  if queue_depth (config s) <=? queue_len s then
    match queue_policy (config s) with
    | DropOldest => (set_queue s (tail (queue s) ++ [m]), Ok tt)
    | DropNewest => (s, Ok tt)
    | Backpressure => backpressure_loop BACKPRESSURE_MAX_RETRIES s m
    end
  else (set_queue s (queue s ++ [m]), Ok tt).

Definition pop (s : StreamChannelInner) : StreamChannelInner * option Message :=
  match queue s with
  | [] => (s, None)
  | m :: q => (set_queue s q, Some m)
  end.

Definition notify_subscribers (s : StreamChannelInner) (m : Message) : list Delivery :=
  map (fun cb => (cb, m.1, m.2)) (subscribers s).

(** [StreamWriter::write]: the new state, the result and the callbacks invoked. *)
Definition stream_write (s : StreamChannelInner) (m : Message)
  : StreamChannelInner * HalResult unit * list Delivery :=
  match push s m with
  | (s, Err e) => (s, Err e, [])
  | (s, Ok _) => (s, Ok tt, notify_subscribers s m)
  end.

Definition stream_flush (s : StreamChannelInner) : StreamChannelInner * HalResult unit := (s, Ok tt).
Definition stream_read (s : StreamChannelInner) : StreamChannelInner * option Message := pop s.
Definition stream_subscribe (s : StreamChannelInner) (cb : SignalCallback) : StreamChannelInner :=
  mkStream (queue s) (subscribers s ++ [cb]) (config s).
(** [Drop for InprocStreamReader]: dropping any reader. *)
Definition drop_reader (s : StreamChannelInner) : StreamChannelInner :=
  mkStream (queue s) [] (config s).

(** ** Runs of a channel

    A run is a sequence of operations by any of the handles of the channel,
    in the order in which they take the mutex. *)
Inductive StreamOp := SWrite (m : Message) | SRead | SSubscribe (cb : SignalCallback) | SDropReader.

(** What a run did: the messages offered to it, the messages its reads
    returned, and the callbacks invoked. *)
Record StreamLog := mkLog {
  offered : list Message;
  taken : list Message;
  delivered : list Delivery }.

Definition stream_step (x : StreamChannelInner * StreamLog) (op : StreamOp)
  : StreamChannelInner * StreamLog :=
  let '(s, l) := x in
  match op with
  | SWrite m =>
      let '(s', _, ds) := stream_write s m in
      (s', mkLog (offered l ++ [m]) (taken l) (delivered l ++ ds))
  | SRead =>
      let '(s', o) := stream_read s in
      (s', mkLog (offered l) (taken l ++ match o with Some m => [m] | None => [] end) (delivered l))
  | SSubscribe cb => (stream_subscribe s cb, l)
  | SDropReader => (drop_reader s, l)
  end.

Definition stream_run (c : StreamConfig) (ops : list StreamOp) : StreamChannelInner * StreamLog :=
  fold_left stream_step ops (stream_new c, mkLog [] [] []).

(** ** Lemmas *)
Lemma backpressure_full n s m :
  queue_depth (config s) <= queue_len s →
  backpressure_loop n s m = (s, Err (Internal "stream backpressure timeout")).
Proof.
  intros Hd. induction n as [|n IH]; [done|]. cbn.
  rewrite (proj2 (Z.ltb_ge _ _)) by done. apply IH.
Qed.

(** The outcome of a push, the retry loop unfolded. *)
Definition push_result (s : StreamChannelInner) (m : Message) : list Message * bool :=
  if queue_depth (config s) <=? queue_len s then
    match queue_policy (config s) with
    | DropOldest => (tail (queue s) ++ [m], true)
    | DropNewest => (queue s, true)
    | Backpressure => (queue s, false)
    end
  else (queue s ++ [m], true).

Lemma push_spec s m :
  push s m = (set_queue s (push_result s m).1,
              if (push_result s m).2 then Ok tt else Err (Internal "stream backpressure timeout")).
Proof.
  unfold push, push_result. destruct (Z.leb_spec (queue_depth (config s)) (queue_len s)); [|done].
  destruct queue_policy; [done | | by destruct s].
  rewrite backpressure_full by done. by destruct s.
Qed.

Lemma push_sublist s m : (push_result s m).1 `sublist_of` queue s ++ [m].
Proof.
  unfold push_result. destruct (_ <=? _); [|done].
  destruct queue_policy; cbn; [|apply sublist_inserts_r; done..].
  apply sublist_app; [|done]. destruct (queue s); cbn; [done|]. by apply sublist_cons.
Qed.

Definition depth_bound (c : StreamConfig) : Z := Z.max 1 (queue_depth c).

Lemma push_bounded s m :
  queue_len s <= depth_bound (config s) →
  Z.of_nat (length (push_result s m).1) <= depth_bound (config s).
Proof.
  unfold push_result, depth_bound, queue_len. intros Hb.
  destruct (Z.leb_spec (queue_depth (config s)) (Z.of_nat (length (queue s)))); cbn;
    [destruct queue_policy; cbn|]; rewrite ?length_app; cbn; try lia.
  destruct (queue s); cbn in *; lia.
Qed.

(** The invariant of a run. *)
Definition run_inv (c : StreamConfig) (x : StreamChannelInner * StreamLog) : Prop :=
  config x.1 = c ∧ taken x.2 ++ queue x.1 `sublist_of` offered x.2 ∧ queue_len x.1 <= depth_bound c.

Lemma stream_step_inv c x op : run_inv c x → run_inv c (stream_step x op).
Proof.
  destruct x as [s l]. intros (Hc & Hs & Hb). cbn in Hc, Hs, Hb. destruct op as [m| |cb|]; cbn.
  - unfold stream_write. rewrite push_spec.
    assert (run_inv c (set_queue s (push_result s m).1,
                       mkLog (offered l ++ [m]) (taken l) (delivered l))) as (H1 & H2 & H3).
    { split_and!; cbn; [done | | ].
      - transitivity ((taken l ++ queue s) ++ [m]); [|by apply sublist_app].
        rewrite <- (assoc_L (++)). apply sublist_app; [done|]. apply push_sublist.
      - rewrite <- Hc. apply push_bounded. by rewrite Hc. }
    by destruct (push_result s m).2; split_and!.
  - unfold stream_read, pop. destruct (queue s) as [|m q] eqn:Hq; cbn.
    + rewrite app_nil_r. split_and!; cbn; [done | by rewrite Hq | done].
    + split_and!; cbn; [done | by rewrite <- (assoc_L (++)) | ].
      unfold queue_len in *. rewrite Hq in Hb. cbn in *. lia.
  - done.
  - done.
Qed.

Lemma stream_fold_inv c ops x : run_inv c x → run_inv c (fold_left stream_step ops x).
Proof.
  revert x. induction ops as [|op ops IH]; intros x Hx; [done|]. by apply IH, stream_step_inv.
Qed.

Lemma stream_run_inv c ops : run_inv c (stream_run c ops).
Proof.
  apply stream_fold_inv. split_and!; cbn; [done..|]. unfold depth_bound, queue_len. cbn. lia.
Qed.

Definition op_message (op : StreamOp) : option Message :=
  match op with SWrite m => Some m | _ => None end.

Lemma stream_fold_offered ops x :
  offered (fold_left stream_step ops x).2 = offered x.2 ++ omap op_message ops.
Proof.
  revert x. induction ops as [|op ops IH]; intros x; cbn; [by rewrite app_nil_r|].
  rewrite IH. destruct x as [s l], op as [m| |cb|]; cbn; try done.
  - destruct (stream_write s m) as [[??]?]. cbn. by rewrite <- (assoc_L (++)).
  - by destruct (stream_read s).
Qed.

(** [C29] Order and bounds of a stream, for every interleaving of writers and
    readers: what has been read followed by what is still queued is a
    subsequence of what was written (messages are never reordered, duplicated
    or invented, and each is read at most once, by one reader), and the queue
    holds at most [queue_depth] messages, one if the depth is zero. *)
Theorem stream_order_and_bound c ops :
  taken (stream_run c ops).2 ++ queue (stream_run c ops).1 `sublist_of` omap op_message ops ∧
  queue_len (stream_run c ops).1 <= Z.max 1 (queue_depth c).
Proof.
  destruct (stream_run_inv c ops) as (_ & Hs & Hb). split; [|done].
  unfold stream_run in *. by rewrite stream_fold_offered in Hs.
Qed.

(** ** Overflow *)

(** A burst of writes with no read in between: the channel, the results and
    the deliveries. *)
Fixpoint write_all (s : StreamChannelInner) (ms : list Message)
  : StreamChannelInner * list (HalResult unit) * list Delivery :=
  match ms with
  | [] => (s, [], [])
  | m :: ms =>
      let '(s, r, ds) := stream_write s m in
      let '(s, rs, ds') := write_all s ms in
      (s, r :: rs, ds ++ ds')
  end.

(** What the policy keeps of a burst. *)
Definition kept (p : QueuePolicy) (d : nat) (ms : list Message) : list Message :=
  match p with
  | DropOldest => drop (length ms - d) ms
  | DropNewest | Backpressure => take d ms
  end.

(** The messages whose write succeeds, hence are pushed to subscribers. *)
Definition written (p : QueuePolicy) (d : nat) (ms : list Message) : list Message :=
  match p with Backpressure => take d ms | _ => ms end.

Definition write_results (p : QueuePolicy) (d n : nat) : list (HalResult unit) :=
  match p with
  | Backpressure => replicate (min n d) (Ok tt)
                    ++ replicate (n - d) (Err (Internal "stream backpressure timeout"))
  | _ => replicate n (Ok tt)
  end.

Lemma stream_write_spec s m :
  stream_write s m =
  (set_queue s (push_result s m).1,
   (if (push_result s m).2 then Ok tt else Err (Internal "stream backpressure timeout")),
   if (push_result s m).2 then notify_subscribers s m else []).
Proof. unfold stream_write. rewrite push_spec. by destruct (push_result s m).2. Qed.

Lemma write_all_snoc s ms m :
  write_all s (ms ++ [m]) =
  let '(s1, rs, ds) := write_all s ms in
  let '(s2, r, d) := stream_write s1 m in (s2, rs ++ [r], ds ++ d).
Proof.
  revert s. induction ms as [|m' ms IH]; intros s; cbn.
  - destruct (stream_write s m) as [[??]?]. cbn. by rewrite app_nil_r.
  - destruct (stream_write s m') as [[s' r] d]. rewrite IH.
    destruct (write_all s' ms) as [[s1 rs] ds]. destruct (stream_write s1 m) as [[??]?].
    by rewrite (assoc_L (++)).
Qed.

Lemma tail_drop {A} k (l : list A) : tail (drop k l) = drop (S k) l.
Proof. revert l. induction k as [|k IH]; intros [|a l]; cbn; done. Qed.

Lemma replicate_snoc {A} n (a : A) : replicate n a ++ [a] = replicate (S n) a.
Proof. induction n as [|n IH]; [done|]. cbn. by rewrite IH. Qed.

Lemma kept_length p d ms : length (kept p d ms) = min (length ms) d.
Proof. destruct p; cbn; rewrite ?length_drop, ?length_take; lia. Qed.

Lemma kept_small p d ms : (length ms <= d)%nat → kept p d ms = ms.
Proof.
  intros Hd. destruct p; cbn; [|by apply take_ge..]. by replace (length ms - d)%nat with 0%nat by lia.
Qed.

(** One more write of a burst. *)
Lemma push_kept s p d ms m :
  queue_policy (config s) = p → queue_depth (config s) = Z.of_nat d → (1 <= d)%nat →
  push_result (set_queue s (kept p d ms)) m =
  (kept p d (ms ++ [m]),
   match p with Backpressure => bool_decide (length ms < d)%nat | _ => true end).
Proof.
  intros Hp Hd Hd1. unfold push_result, queue_len. cbn [config queue set_queue].
  rewrite Hp, Hd, kept_length. destruct (decide (length ms < d)%nat) as [Hlt|Hge].
  - rewrite (proj2 (Z.leb_gt _ _)) by lia.
    rewrite !kept_small by (rewrite ?length_app; cbn; lia).
    destruct p; try done. by rewrite bool_decide_true.
  - rewrite (proj2 (Z.leb_le _ _)) by lia. destruct p; cbn.
    + f_equal. rewrite tail_drop, length_app. cbn.
      replace (length ms + 1 - d)%nat with (S (length ms - d)) by lia.
      by rewrite drop_app_le by lia.
    + rewrite bool_decide_false by done. by rewrite take_app_le by lia.
    + by rewrite take_app_le by lia.
Qed.

Lemma write_results_S p d n :
  write_results p d (S n) =
  write_results p d n ++
    [if match p with Backpressure => bool_decide (n < d)%nat | _ => true end
     then Ok tt else Err (Internal "stream backpressure timeout")].
Proof.
  destruct p; cbn -[min Nat.sub]; try by rewrite replicate_snoc.
  destruct (decide (n < d)%nat) as [H|H].
  - rewrite bool_decide_true by done. replace (S n - d)%nat with 0%nat by lia.
    replace (n - d)%nat with 0%nat by lia. cbn -[min]. rewrite !app_nil_r, replicate_snoc.
    f_equal. lia.
  - rewrite bool_decide_false by done. replace (S n - d)%nat with (S (n - d)) by lia.
    rewrite <- (assoc_L (++)), replicate_snoc. do 2 f_equal. lia.
Qed.

Lemma written_snoc p d ms m :
  written p d (ms ++ [m]) =
  written p d ms ++
    if match p with Backpressure => bool_decide (length ms < d)%nat | _ => true end then [m] else [].
Proof.
  destruct p; cbn; [done| |done]. destruct (decide (length ms < d)%nat).
  - rewrite bool_decide_true by done. rewrite !take_ge by (rewrite ?length_app; cbn; lia). done.
  - rewrite bool_decide_false by done. by rewrite take_app_le, app_nil_r by lia.
Qed.

(** Overflow policies, for a burst written to an empty channel of depth
    [d >= 1]: [DropOldest] keeps the last [d] messages and [DropNewest] the
    first [d], and both report success and notify the subscribers of every
    message, the discarded ones included; [Backpressure] keeps the first [d]
    and every later write fails with a timeout whatever the retries, because
    no reader can take the mutex while it waits. *)
Theorem stream_overflow s d ms :
  queue s = [] → queue_depth (config s) = Z.of_nat d → (1 <= d)%nat →
  write_all s ms =
  (set_queue s (kept (queue_policy (config s)) d ms),
   write_results (queue_policy (config s)) d (length ms),
   concat (map (notify_subscribers s) (written (queue_policy (config s)) d ms))).
Proof.
  intros Hq Hd Hd1. induction ms as [|m ms IH] using rev_ind.
  - destruct s as [q subs c]. cbn in Hq. subst q. cbn. destruct queue_policy; cbn; try done;
      by rewrite ?take_nil, ?drop_nil.
  - rewrite write_all_snoc, IH, stream_write_spec, (push_kept s _ d) by done.
    rewrite length_app, Nat.add_1_r, write_results_S, written_snoc, map_app, concat_app.
    cbn [fst snd]. by destruct (match queue_policy _ with Backpressure => _ | _ => true end);
      cbn; rewrite ?app_nil_r.
Qed.

Definition demo_config (p : QueuePolicy) : StreamConfig :=
  {| queue_depth := 2; queue_policy := p; error_policy := Drop_; circuit_breaker := None;
     shm_threshold_bytes := 4096 |}.
Definition demo_message (n : Z) : Message := (VS32 n, mkTs n 0).

Lemma stream_overflow_witness :
  queue (stream_new (demo_config DropNewest)) = [] ∧
  (write_all (stream_new (demo_config DropOldest)) (map demo_message [1; 2; 3])).1.1
  = mkStream (map demo_message [2; 3]) [] (demo_config DropOldest).
Proof.
  split; [reflexivity|].
  rewrite (stream_overflow (stream_new (demo_config DropOldest)) 2 (map demo_message [1; 2; 3]));
    [reflexivity..|lia].
Defined.
