(* ===== verification/Middleware.v ===== *)
(** * Middleware
    ([audesys-hal-core/src/{middleware,discovery}.rs],
    [audesys-amw-inproc/src/{discovery,middleware}.rs])

    Discovery over the transport's signal registry, the audit log, and the
    middleware that bundles transport, discovery and lock levels behind one
    interface.  The registry is shared: discovery holds a second handle to
    the transport's signal map, so every discovery operation takes the
    transport's current map. *)
From S2P Require Import Prelude HalTypes HalValue Text.
From S2P Require Import Transport Qos.
Local Open Scope Z_scope.

(** ** Discovery *)
Record Metadata := { entries : list (string * string) }.
Definition metadata_default : Metadata := {| entries := [] |}.

Record DiscoveryEntry := mkEntry {
  de_name : string;
  de_description : string;
  de_metadata : Metadata;
  de_created_at : Timestamp }.

Inductive DiscoveryEvent :=
  | EvAdded (e : DiscoveryEntry)
  | EvRemoved (name : string)
  | EvModified (e : DiscoveryEntry).

Definition WatchCallback : Type := nat.

Record StaticDiscovery := mkDiscovery {
  watchers : gmap Z WatchCallback;
  next_watch_id : Z }.

Definition discovery_new : StaticDiscovery := mkDiscovery ∅ 1.

Abbreviation registry := (gmap string (HalValue * Timestamp)) (only parsing).

Definition signal_to_entry (name : string) (ts : Timestamp) : DiscoveryEntry :=
  mkEntry name "" metadata_default ts.

Definition list_all (sigs : registry) : list DiscoveryEntry :=
  map (fun '(n, (_, ts)) => signal_to_entry n ts) (map_to_list sigs).

Definition find_by_name (sigs : registry) (name : string) : option DiscoveryEntry :=
  match sigs !! name with
  | Some (_, ts) => Some (signal_to_entry name ts)
  | None => None
  end.

Definition find_by_pattern (sigs : registry) (pattern : string) : list DiscoveryEntry :=
  map (fun '(n, (_, ts)) => signal_to_entry n ts)
    (List.filter (fun '(n, _) => matches_pattern n pattern) (map_to_list sigs)).

Definition watch (d : StaticDiscovery) (cb : WatchCallback) : StaticDiscovery :=
  mkDiscovery (<[next_watch_id d := cb]> (watchers d)) (fetch_add (next_watch_id d)).

Definition unwatch (d : StaticDiscovery) (watch_id : Z) : StaticDiscovery :=
  mkDiscovery (delete watch_id (watchers d)) (next_watch_id d).

(** Every watcher gets a copy of the event, in an unspecified order. *)
Definition notify_watchers (d : StaticDiscovery) (ev : DiscoveryEvent)
  : list (WatchCallback * DiscoveryEvent) :=
  map (fun cb => (cb, ev)) (map_to_list (watchers d)).*2.

(** ** Audit log *)
Inductive AuditResult := AuditSuccess | AuditDenied | AuditFailed.
Record AuditEvent := mkAudit {
  au_timestamp : Z;
  au_user_id : string;
  au_action : string;
  au_target : string;
  au_result : AuditResult;
  au_detail : option string }.
Definition InprocAuditLog : Type := list AuditEvent.
Definition audit_new : InprocAuditLog := [].
Definition audit_log (l : InprocAuditLog) (e : AuditEvent) : InprocAuditLog := l ++ [e].
Definition audit_query (l : InprocAuditLog) (since : Z) : list AuditEvent :=
  List.filter (fun e => since <=? au_timestamp e) l.

(** ** The middleware *)
Record AmwConfig := mkAmwConfig {
  backend : string;
  audit_enabled : bool;
  security_domain_enabled : bool }.
Definition amw_config_default : AmwConfig := mkAmwConfig "amw_inproc" true false.

Record AmwMetrics := mkAmwMetrics {
  am_signals_published : Z;
  am_signals_read : Z;
  am_stream_messages_written : Z;
  am_stream_messages_dropped : Z;
  am_rpc_calls : Z;
  am_rpc_timeouts : Z;
  am_rpc_rejected : Z;
  am_uptime_secs : Z }.

Record InprocMiddleware := mkMiddleware {
  mw_transport : InprocTransport;
  mw_discovery : StaticDiscovery;
  mw_qos : InprocQoS;
  mw_audit : InprocAuditLog;
  start_time : Z }.

Definition with_transport (m : InprocMiddleware) (t : InprocTransport) : InprocMiddleware :=
  mkMiddleware t (mw_discovery m) (mw_qos m) (mw_audit m) (start_time m).
Definition with_qos (m : InprocMiddleware) (q : InprocQoS) : InprocMiddleware :=
  mkMiddleware (mw_transport m) (mw_discovery m) q (mw_audit m) (start_time m).

(** What the engine uses of the QoS side of a middleware. *)
Class HalQoS (M : Type) := {
  amw_queue_config : M → ConfigCommand → M * HalResult ConfigStatus;
  amw_apply_queued : M → M * HalResult (list ConfigStatus) }.

#[export] Instance InprocMiddleware_transport : HalTransport InprocMiddleware := {
  publish_signal := fun m n v ts =>
    let '(t, ds) := publish_signal (mw_transport m) n v ts in (with_transport m t, ds);
  read_signal := fun m n =>
    let '(t, v) := read_signal (mw_transport m) n in (with_transport m t, v);
  subscribe_signal := fun m n cb => with_transport m (subscribe_signal (mw_transport m) n cb);
  snapshot_signals := fun m p => snapshot_signals (mw_transport m) p;
  rpc_call := fun m n ps tmo recv =>
    let '(t, x) := rpc_call (mw_transport m) n ps tmo recv in (with_transport m t, x);
  register_rpc_handler := fun m n h => with_transport m (register_rpc_handler (mw_transport m) n h);
  shutdown := fun m => with_transport m (shutdown (mw_transport m)) }.

#[export] Instance InprocMiddleware_qos : HalQoS InprocMiddleware := {
  amw_queue_config := fun m c =>
    let '(q, st) := queue_config (mw_qos m) c in (with_qos m q, Ok st);
  amw_apply_queued := fun m =>
    let '(q, sts) := apply_queued (mw_qos m) in (with_qos m q, Ok sts) }.

(** The contract of a middleware: a lawful transport whose signals the
    configuration side does not touch. *)
Class AmwMiddlewareLaws (M : Type) `{HalTransport M, HalQoS M} := {
  amw_transport_laws :: HalTransportLaws M;
  amw_queue_frame : ∀ m c n,
    (read_signal (amw_queue_config m c).1 n).2 = (read_signal m n).2;
  amw_apply_frame : ∀ m n,
    (read_signal (amw_apply_queued m).1 n).2 = (read_signal m n).2 }.

#[export] Instance InprocMiddleware_transport_laws : HalTransportLaws InprocMiddleware.
Proof.
  split; intros; cbn.
  - apply lookup_insert_eq.
  - by apply lookup_insert_ne.
  - done.
  - apply lookup_empty.
Qed.

#[export] Instance InprocMiddleware_laws : AmwMiddlewareLaws InprocMiddleware.
Proof.
  split; [apply _ | |]; intros; cbn [amw_queue_config amw_apply_queued InprocMiddleware_qos].
  - by destruct (queue_config (mw_qos m) c).
  - done.
Qed.

Definition backend_name (m : InprocMiddleware) : string := "audesys-amw-inproc".

(** [now] is what the monotonic clock reads, in seconds. *)
Definition metrics (m : InprocMiddleware) (now : Z) : AmwMetrics :=
  let t := mw_transport m in
  mkAmwMetrics (signals_published t) (signals_read t) 0 0 (rpc_calls t) (rpc_timeouts t)
    (rpc_rejected t) (now - start_time m).

(** The delegated discovery operations read the transport's registry. *)
Definition mw_list_all (m : InprocMiddleware) : list DiscoveryEntry :=
  list_all (signals (mw_transport m)).
Definition mw_find_by_name (m : InprocMiddleware) (name : string) : option DiscoveryEntry :=
  find_by_name (signals (mw_transport m)) name.
Definition mw_find_by_pattern (m : InprocMiddleware) (pattern : string) : list DiscoveryEntry :=
  find_by_pattern (signals (mw_transport m)) pattern.

(** [InprocFactory::create]. *)
Definition create (config : AmwConfig) (now : Z) : HalResult InprocMiddleware :=
  if negb (String.eqb (backend config) "amw_inproc") then
    Err (Rejected 400 ("InprocFactory only supports backend 'amw_inproc', got '"
                       +:+ backend config +:+ "'"))
  else Ok (mkMiddleware transport_new discovery_new qos_new audit_new now).

(** ** Properties *)
Lemma elem_of_entries sigs (P : string → bool) e :
  e ∈ map (fun '(n, (_, ts)) => signal_to_entry n ts)
        (List.filter (fun '(n, _) => P n) (map_to_list (sigs : registry))) ↔
  ∃ n v ts, sigs !! n = Some (v, ts) ∧ P n = true ∧ e = signal_to_entry n ts.
Proof.
  rewrite list_elem_of_In, in_map_iff. split.
  - intros ([n [v ts]] & He & Hin). apply filter_In in Hin as [Hin HP].
    apply list_elem_of_In, elem_of_map_to_list in Hin. by exists n, v, ts.
  - intros (n & v & ts & Hn & HP & ->). exists (n, (v, ts)). split; [done|].
    apply filter_In. by rewrite <- list_elem_of_In, elem_of_map_to_list.
Qed.

(** Discovery and transport agree: a publication is visible to discovery
    at once, under its name and with the publication's time stamp; a pattern
    search returns exactly the entries of the snapshot for the same pattern,
    and the full list those of the registry. *)
Theorem discovery_sees_transport m name v ts :
  mw_find_by_name (publish_signal m name v ts).1 name = Some (signal_to_entry name ts) ∧
  (∀ pattern e, e ∈ mw_find_by_pattern m pattern ↔
     ∃ n v ts, (n, v, ts) ∈ snapshot_signals m pattern ∧ e = signal_to_entry n ts) ∧
  (∀ e, e ∈ mw_list_all m ↔ ∃ n v ts, (read_signal m n).2 = Some (v, ts) ∧ e = signal_to_entry n ts).
Proof.
  split_and!.
  - unfold mw_find_by_name, find_by_name. cbn. by rewrite lookup_insert_eq.
  - intros p e. unfold mw_find_by_pattern, find_by_pattern.
    rewrite (elem_of_entries _ (fun n => matches_pattern n p)).
    split; intros (n & w & us & Hn); exists n, w, us; cbn in *.
    + destruct Hn as (Hn & Hm & ->). split; [|done]. by apply elem_of_inproc_snapshot.
    + destruct Hn as (Hn & ->). by apply elem_of_inproc_snapshot in Hn as [? ?].
  - intros e. unfold mw_list_all, list_all.
    replace (map_to_list _) with
      (List.filter (fun '(n, _) => (fun _ : string => true) n) (map_to_list (signals (mw_transport m)))).
    + rewrite (elem_of_entries _ (fun _ => true)). cbn.
      split; intros (n & w & us & Hn); exists n, w, us; naive_solver.
    + generalize (map_to_list (signals (mw_transport m))). intros l.
      induction l as [|[??] l IH]; [done|]. cbn. by rewrite IH.
Qed.

(** The factory accepts exactly the backend [amw_inproc] and builds an
    empty stack: no signal can be read, nothing is queued, the level is
    [None], and the counters are zero. *)
Theorem create_spec config now :
  match create config now with
  | Ok m => backend config = "amw_inproc" ∧ (∀ n, (read_signal m n).2 = None) ∧
            mw_list_all m = [] ∧ load_level (mw_qos m) = LkNone ∧ (apply_queued (mw_qos m)).2 = [] ∧
            metrics m now = mkAmwMetrics 0 0 0 0 0 0 0 0
  | Err e => backend config ≠ "amw_inproc" ∧ ∃ msg, e = Rejected 400 msg
  end.
Proof.
  unfold create. destruct (String.eqb_spec (backend config) "amw_inproc") as [E|E]; cbn.
  - split_and!; [done | done | done | done | done | ]. unfold metrics. cbn. by rewrite Z.sub_diag.
  - split; [done|]. by eexists.
Qed.
