(* ===== verification/Zenoh.v ===== *)
(** * The network middleware ([audesys-amw-zenoh/src/{transport,discovery}.rs])

    A skeleton for the second phase: storage in memory behind the interface of
    [Transport].  It is compared with the in-process transport, whose clients
    it is meant to serve.  A failed lock needs a panic of its holder, which no
    operation has, and is left out. *)
From S2P Require Import Prelude HalTypes HalValue Text TextFacts Transport Qos Middleware.
Local Open Scope Z_scope.

(** ** Transport *)
Record ZenohTransport := mkZenoh {
  z_signals : gmap string (HalValue * Timestamp);
  z_rpc_handlers : gmap string RpcHandler;
  namespace : string;
  z_signals_published : Z;
  z_signals_read : Z;
  z_rpc_calls : Z;
  z_next_sub_id : Z }.

Definition zenoh_new (ns : string) : ZenohTransport := mkZenoh ∅ ∅ ns 0 0 0 1.
Definition signal_key (t : ZenohTransport) (name : string) : string :=
  "audeys/" +:+ namespace t +:+ "/signal/" +:+ name.

(** [trim_matches(c)] *)
Definition trim_matches (s : string) (c : ascii) : string :=
  trim_end_matches (of_chars (drop_while_eq c (chars s))) c.
Definition match_pattern (name pattern : string) : bool :=
  String.eqb pattern "*" || contains name (trim_matches pattern "*").

Definition zenoh_publish (t : ZenohTransport) (name : string) (v : HalValue) (ts : Timestamp)
  : ZenohTransport * list Delivery :=
  (mkZenoh (<[name := (v, ts)]> (z_signals t)) (z_rpc_handlers t) (namespace t) (fetch_add (z_signals_published t))
     (z_signals_read t) (z_rpc_calls t) (z_next_sub_id t), []).
Definition zenoh_read (t : ZenohTransport) (name : string) : ZenohTransport * option (HalValue * Timestamp) :=
  (mkZenoh (z_signals t) (z_rpc_handlers t) (namespace t) (z_signals_published t)
     (fetch_add (z_signals_read t)) (z_rpc_calls t) (z_next_sub_id t), z_signals t !! name).
Definition zenoh_subscribe (t : ZenohTransport) (name : string) (cb : SignalCallback) : ZenohTransport :=
  mkZenoh (z_signals t) (z_rpc_handlers t) (namespace t) (z_signals_published t)
    (z_signals_read t) (z_rpc_calls t) (fetch_add (z_next_sub_id t)).
Definition zenoh_snapshot (t : ZenohTransport) (pattern : string) : list (string * HalValue * Timestamp) :=
  map (fun '(n, (v, ts)) => (n, v, ts))
    (List.filter (fun '(n, _) => match_pattern n pattern) (map_to_list (z_signals t))).
Definition no_handler (method : string) : HalError := Rejected 404 ("no handler for method " +:+ method).
(** The handler runs on the caller's thread: no timeout. *)
Definition zenoh_rpc_call (t : ZenohTransport) (method : string) (params : list Z) (timeout_ms : Z) (recv : Recv)
  : ZenohTransport * HalResult (list Z) :=
  (mkZenoh (z_signals t) (z_rpc_handlers t) (namespace t) (z_signals_published t)
     (z_signals_read t) (fetch_add (z_rpc_calls t)) (z_next_sub_id t),
   match z_rpc_handlers t !! method with
   | None => Err (no_handler method)
   | Some handler => handler params
   end).
Definition zenoh_register_rpc (t : ZenohTransport) (method : string) (h : RpcHandler) : ZenohTransport :=
  mkZenoh (z_signals t) (<[method := h]> (z_rpc_handlers t)) (namespace t) (z_signals_published t)
    (z_signals_read t) (z_rpc_calls t) (z_next_sub_id t).
Definition zenoh_shutdown (t : ZenohTransport) : ZenohTransport := t.

#[export] Instance ZenohTransport_transport : HalTransport ZenohTransport := {
  publish_signal := zenoh_publish;
  read_signal := zenoh_read;
  subscribe_signal := zenoh_subscribe;
  snapshot_signals := zenoh_snapshot;
  rpc_call := zenoh_rpc_call;
  register_rpc_handler := zenoh_register_rpc;
  shutdown := zenoh_shutdown }.

(** ** Discovery: a list of its own, in the order of registration *)
Record ZenohDiscovery := mkZDiscovery { z_entries : list DiscoveryEntry; z_watchers : list WatchCallback }.
Definition zenoh_discovery_new : ZenohDiscovery := mkZDiscovery [] [].
Definition zenoh_entry (name description : string) : DiscoveryEntry :=
  mkEntry name description metadata_default (mkTs 0 0).
Definition zenoh_register (d : ZenohDiscovery) (name description : string)
  : ZenohDiscovery * list (WatchCallback * DiscoveryEvent) :=
  let entry := zenoh_entry name description in
  (mkZDiscovery (z_entries d ++ [entry]) (z_watchers d), map (fun cb => (cb, EvAdded entry)) (z_watchers d)).
Definition zenoh_list_all (d : ZenohDiscovery) : list DiscoveryEntry := z_entries d.
Definition zenoh_find_by_name (d : ZenohDiscovery) (name : string) : option DiscoveryEntry :=
  List.find (fun e => String.eqb (de_name e) name) (z_entries d).
Definition zenoh_find_by_pattern (d : ZenohDiscovery) (pattern : string) : list DiscoveryEntry :=
  List.filter (fun e => match_pattern (de_name e) pattern) (z_entries d).
Definition zenoh_watch (d : ZenohDiscovery) (cb : WatchCallback) : ZenohDiscovery :=
  mkZDiscovery (z_entries d) (z_watchers d ++ [cb]).


Section run.
Context {T : Type} `{HalTransport T}.
End run.

(** ** Against the in-process transport

    The name contains the pattern without the stars at its ends. *)
Definition pattern_inside (n pattern : string) : Prop :=
  ∃ a b, chars n = a ++ chars (trim_matches pattern "*") ++ b.


(** ** Patterns *)
Lemma contains_chars_spec l p : contains_chars l p = true ↔ ∃ a b, l = a ++ p ++ b.
Proof.
  induction l as [|c l IH]; cbn [contains_chars]; rewrite orb_true_iff, starts_with_chars_spec.
  - split; [intros [[b Hb]|]; [by exists [], b | done] | intros ([|] & b & Hab); [left; by exists b | done]].
  - rewrite IH. split.
    + intros [[b Hb]|(a & b & ->)]; [by exists [], b | by exists (c :: a), b].
    + intros ([|d a] & b & Hab); [left; by exists b|]. injection Hab as -> ->. right. by exists a, b.
Qed.

Lemma match_pattern_spec name pattern :
  match_pattern name pattern = true ↔ ∃ a b, chars name = a ++ chars (trim_matches pattern "*") ++ b.
Proof.
  unfold match_pattern, contains. rewrite orb_true_iff, contains_chars_spec. split; [|by right].
  intros [E%String.eqb_eq|]; [subst|done]. by exists [], (chars name).
Qed.

(** The two transports read a pattern differently.  Here the stars are
    removed at both ends and what is left may occur anywhere in the name, in the
    in-process transport it is a prefix: with the same signals, a snapshot of
    this one has everything the other has for a pattern that does not start
    with a star. *)
Lemma snapshot_covers t z pattern :
  z_signals z = signals t →
  (∀ n v ts, (n, v, ts) ∈ zenoh_snapshot z pattern ↔ signals t !! n = Some (v, ts) ∧ pattern_inside n pattern) ∧
  (head (chars pattern) ≠ Some "*"%char → ∀ x, x ∈ inproc_snapshot t pattern → x ∈ zenoh_snapshot z pattern).
Proof.
  intros Hz.
  assert (∀ n v ts, (n, v, ts) ∈ zenoh_snapshot z pattern ↔
     signals t !! n = Some (v, ts) ∧ pattern_inside n pattern) as Hs.
  { intros n v ts. unfold pattern_inside. rewrite <- match_pattern_spec, <- Hz. unfold zenoh_snapshot. rewrite list_elem_of_In, in_map_iff. split.
    - intros ([m [w us]] & [= -> -> ->] & Hin). apply filter_In in Hin as [Hin Hm].
      by apply list_elem_of_In, elem_of_map_to_list in Hin.
    - intros [Hl Hp]. exists (n, (v, ts)). split; [done|]. apply filter_In.
      by rewrite <- list_elem_of_In, elem_of_map_to_list. }
  split; [exact Hs|].
  intros Hh [[n v] ts] Hin. apply elem_of_inproc_snapshot in Hin as [Hl Hm]. apply Hs. split; [done|].
  unfold matches_pattern, starts_with in Hm. apply starts_with_chars_spec in Hm as [b Hb]. exists [], b. rewrite Hb.
  cbn. f_equal. unfold trim_matches. do 2 f_equal.
  assert (drop_while_eq "*" (chars pattern) = chars pattern) as ->.
  { destruct (chars pattern) as [|c l]; [done|]. cbn in *. destruct (Ascii.eqb_spec c "*"); [subst; done | done]. }
  by rewrite of_chars_chars.
Qed.




(** With the same signals the two transports give different snapshots: what is
    left of the pattern without its stars may occur anywhere in the name here,
    and is a prefix in the in-process transport - "axis" also finds "my.axis.0". *)
Theorem zenoh_pattern_infix t z v ts :
  z_signals z = signals t → signals t !! "my.axis.0" = Some (v, ts) →
  ("my.axis.0", v, ts) ∈ zenoh_snapshot z "axis" ∧ ("my.axis.0", v, ts) ∉ inproc_snapshot t "axis".
Proof.
  intros Hz Hl. split.
  - apply (proj1 (snapshot_covers t z "axis" Hz)). split; [done|]. by exists (chars "my."), (chars ".0").
  - intros [_ Hm]%elem_of_inproc_snapshot. discriminate Hm.
Qed.

(** It does not keep the whole contract of a transport: after a shutdown
    signals can still be read. *)
Theorem zenoh_survives_shutdown t n v ts :
  (read_signal (shutdown (publish_signal t n v ts).1) n).2 = Some (v, ts) ∧ ¬ HalTransportLaws ZenohTransport.
Proof.
  assert (∀ t, (read_signal (shutdown (publish_signal (T := ZenohTransport) t n v ts).1) n).2 = Some (v, ts)) as H
    by (intros; cbn; by rewrite lookup_insert_eq).
  split; [apply H|]. intros L. specialize (H t). by rewrite read_shutdown in H.
Qed.

(** Registering a name again is recorded and announced and never found: the
    list holds every registration in order, each watcher is told of each one as
    an addition, and a search by name gives the first. *)
Theorem zenoh_register_again d l :
  let d' := fold_left (fun d '(n, s) => (zenoh_register d n s).1) l d in
  zenoh_list_all d' = zenoh_list_all d ++ map (fun '(n, s) => zenoh_entry n s) l ∧
  (∀ n s cb, (zenoh_register (zenoh_watch d' cb) n s).2 =
     map (fun w => (w, EvAdded (zenoh_entry n s))) (z_watchers d ++ [cb])) ∧
  (∀ n s, zenoh_find_by_name (zenoh_register d' n s).1 n =
     match zenoh_find_by_name d' n with Some e => Some e | None => Some (zenoh_entry n s) end).
Proof.
  cbv zeta. set (d' := fold_left _ l d).
  assert (z_entries d' = z_entries d ++ map (fun '(n, s) => zenoh_entry n s) l ∧ z_watchers d' = z_watchers d) as [E1 E2].
  { unfold d'. clear d'. induction l as [|[n s] l IH] in d |- *; [by rewrite app_nil_r|]. cbn [fold_left map].
    destruct (IH (zenoh_register d n s).1) as [-> ->]. cbn. by rewrite <- (assoc_L (++)). }
  split; [exact E1|]. split.
  - intros n s cb. unfold zenoh_register, zenoh_watch. cbn [snd z_watchers]. by rewrite E2.
  - intros n s. unfold zenoh_find_by_name, zenoh_register. cbn [fst z_entries].
    generalize (z_entries d'). intros es. induction es as [|e es IH]; cbn; [by rewrite String.eqb_refl|].
    by destruct (String.eqb (de_name e) n).
Qed.

Lemma zenoh_pattern_infix_witness :
  ("my.axis.0", VBool true, mkTs 0 0) ∈
    zenoh_snapshot (zenoh_publish (zenoh_new "a") "my.axis.0" (VBool true) (mkTs 0 0)).1 "axis" ∧
  ("my.axis.0", VBool true, mkTs 0 0) ∉
    inproc_snapshot (inproc_publish transport_new "my.axis.0" (VBool true) (mkTs 0 0)).1 "axis".
Proof. apply zenoh_pattern_infix; reflexivity. Defined.
