(* ===== verification/Signals.v ===== *)
(** * Signal registry and metrics ([audesys-runtime/src/{signals,metrics}.rs])

    The controller's signals: definition, write strategy and current value.
    A compute closure is an identifier interpreted by an environment [calls],
    which the engine's cycle receives; cloning a closure does not copy it.
    Then the counters and the ring buffer of cycle durations. *)
From stdpp Require Import pretty.
From S2P Require Import Prelude HalTypes HalValue Transport.
Local Open Scope Z_scope.

(** [ZeroFn] is the closure [|| HalValue::F32(0.0)] that [clone] builds. *)
Inductive ComputeFn := UserFn (id : nat) | ZeroFn.
Definition compute_clone (f : ComputeFn) : ComputeFn := ZeroFn.
Definition compute_call (calls : nat → HalValue) (f : ComputeFn) : HalValue :=
  match f with UserFn id => calls id | ZeroFn => VF32 0 end.

Inductive WriteStrategy := SOwn | SMonitored | SComputed (f : ComputeFn).
Definition strategy_clone (s : WriteStrategy) : WriteStrategy :=
  match s with SComputed f => SComputed (compute_clone f) | _ => s end.

Record SignalDef := mkDef {
  sd_name : string;
  sd_pin_type : HalPinType;
  sd_value : HalValue;
  sd_strategy : WriteStrategy }.
Definition def_clone (d : SignalDef) : SignalDef :=
  mkDef (sd_name d) (sd_pin_type d) (sd_value d) (strategy_clone (sd_strategy d)).

Record SignalSnapshot := mkSnapshot {
  sn_name : string;
  sn_pin_type : HalPinType;
  sn_value : HalValue;
  sn_strategy : WriteStrategy }.

Inductive StrategyFilter := FOwn | FMonitored | FComputed | FAll.

Abbreviation SignalRegistry := (gmap string SignalDef) (only parsing).
Definition registry_new : SignalRegistry := ∅.

Definition is_computed (d : SignalDef) : bool :=
  match sd_strategy d with SComputed _ => true | _ => false end.

Definition filter_matches (f : StrategyFilter) (d : SignalDef) : bool :=
  match f, sd_strategy d with
  | FAll, _ | FOwn, SOwn | FMonitored, SMonitored | FComputed, SComputed _ => true
  | _, _ => false
  end.

Definition same_strategy (a b : WriteStrategy) : bool :=
  match a, b with
  | SOwn, SOwn | SMonitored, SMonitored | SComputed _, SComputed _ => true
  | _, _ => false
  end.

(** ** Operations

    The iteration order of the map is unspecified; [values] fixes one. *)
Definition values (r : SignalRegistry) : list SignalDef := (map_to_list r).*2.

Definition register (r : SignalRegistry) (def : SignalDef) : SignalRegistry * result unit string :=
  match r !! sd_name def with
  | Some _ => (r, Err ("already registered: " +:+ sd_name def))
  | None => (<[sd_name def := def]> r, Ok tt)
  end.

Definition get (r : SignalRegistry) (name : string) : option SignalDef :=
  match r !! name with Some d => Some (def_clone d) | None => None end.

Definition list_defs (r : SignalRegistry) : list SignalDef := map def_clone (values r).

Definition set_value (d : SignalDef) (v : HalValue) : SignalDef :=
  mkDef (sd_name d) (sd_pin_type d) v (sd_strategy d).

Definition update_value (r : SignalRegistry) (name : string) (v : HalValue)
  : SignalRegistry * result unit string :=
  match r !! name with
  | Some def => (<[name := set_value def v]> r, Ok tt)
  | None => (r, Err ("not found: " +:+ name))
  end.

Definition filter_by_strategy (r : SignalRegistry) (s : WriteStrategy) : list SignalDef :=
  map def_clone (List.filter (fun d => same_strategy (sd_strategy d) s) (values r)).

Definition computed_signal_names (r : SignalRegistry) : list string :=
  map sd_name (List.filter is_computed (values r)).

Definition registry_len (r : SignalRegistry) : nat := size r.
Definition registry_is_empty (r : SignalRegistry) : bool := (registry_len r =? 0)%nat.

Definition snapshot_of (d : SignalDef) : SignalSnapshot :=
  mkSnapshot (sd_name d) (sd_pin_type d) (sd_value d) (strategy_clone (sd_strategy d)).

Definition snapshots_by_strategy (r : SignalRegistry) (f : StrategyFilter) : list SignalSnapshot :=
  map snapshot_of (List.filter (filter_matches f) (values r)).

Definition list_names (r : SignalRegistry) : list string := (map_to_list r).*1.

Definition compute_signal (calls : nat → HalValue) (r : SignalRegistry) (name : string)
  : result HalValue string :=
  match r !! name with
  | None => Err ("not found: " +:+ name)
  | Some def =>
      match sd_strategy def with
      | SComputed f => Ok (compute_call calls f)
      | _ => Ok (sd_value def)
      end
  end.

Definition list_snapshots (r : SignalRegistry) : list SignalSnapshot := snapshots_by_strategy r FAll.

(** ** Invariant: every definition is stored under its own name. *)
Definition registry_wf (r : SignalRegistry) : Prop :=
  map_Forall (fun n d => sd_name d = n) r.

Lemma registry_new_wf : registry_wf registry_new.
Proof. apply map_Forall_empty. Qed.

Lemma register_wf r d : registry_wf r → registry_wf (register r d).1.
Proof.
  intros Hr. unfold register. destruct (r !! sd_name d); [done|]. by apply map_Forall_insert_2.
Qed.

Lemma update_value_wf r n v : registry_wf r → registry_wf (update_value r n v).1.
Proof.
  intros Hr. unfold update_value. destruct (r !! n) as [d|] eqn:E; [|done].
  apply map_Forall_insert_2; [|done]. cbn. by apply Hr.
Qed.

(** What an update changes: the value of one registered signal. *)
Lemma update_value_lookup r n v m :
  (update_value r n v).1 !! m =
  if String.eqb n m then (fun d => set_value d v) <$> r !! m else r !! m.
Proof.
  unfold update_value. destruct (String.eqb_spec n m) as [->|Hne].
  - destruct (r !! m) as [d|] eqn:E; simpl; [by rewrite lookup_insert_eq | by rewrite E].
  - destruct (r !! n); [|done]. by apply lookup_insert_ne.
Qed.

Lemma elem_of_values r d : registry_wf r → d ∈ values r ↔ r !! sd_name d = Some d.
Proof.
  intros Hr. unfold values. rewrite list_elem_of_fmap. split.
  - intros ([n d'] & -> & Hin). apply elem_of_map_to_list in Hin. cbn.
    by rewrite (Hr _ _ Hin).
  - intros Hd. exists (sd_name d, d). split; [done|]. by apply elem_of_map_to_list.
Qed.

Lemma names_NoDup r : registry_wf r → NoDup (map sd_name (values r)).
Proof.
  intros Hr. unfold values. change (map sd_name) with (fmap (M := list) sd_name).
  rewrite <- list_fmap_compose.
  assert ((fun x : string * SignalDef => sd_name x.2) <$> map_to_list r = (map_to_list r).*1) as E.
  { apply list_fmap_ext. intros i [n d] Hi. cbn. apply list_elem_of_lookup_2, elem_of_map_to_list in Hi.
    by apply Hr in Hi. }
  unfold compose. rewrite E. apply NoDup_fst_map_to_list.
Qed.

Lemma NoDup_map_filter {A B} (f : A → B) (P : A → bool) l :
  NoDup (map f l) → NoDup (map f (List.filter P l)).
Proof.
  induction l as [|a l IH]; cbn; [done|]. rewrite NoDup_cons. intros [Ha Hl].
  destruct (P a); cbn; [|by apply IH]. apply NoDup_cons. split; [|by apply IH].
  intros Hin. apply Ha. rewrite list_elem_of_In in Hin |- *.
  apply in_map_iff in Hin as (b & <- & Hb). apply filter_In in Hb as [Hb _]. by apply in_map.
Qed.

Lemma elem_of_snapshots r f s :
  registry_wf r →
  s ∈ snapshots_by_strategy r f ↔
  ∃ d, r !! sn_name s = Some d ∧ filter_matches f d = true ∧ s = snapshot_of d.
Proof.
  intros Hr. unfold snapshots_by_strategy. rewrite list_elem_of_In, in_map_iff. split.
  - intros (d & <- & Hin). apply filter_In in Hin as [Hin Hm].
    exists d. split; [|done]. by apply elem_of_values; [|apply list_elem_of_In].
  - intros (d & Hd & Hm & ->). exists d. split; [done|]. apply filter_In. split; [|done].
    by apply list_elem_of_In, elem_of_values.
Qed.

(** Along any sequence of registrations and updates. *)
Inductive RegOp := RRegister (d : SignalDef) | RUpdate (n : string) (v : HalValue).
Definition reg_step (r : SignalRegistry) (op : RegOp) : SignalRegistry :=
  match op with RRegister d => (register r d).1 | RUpdate n v => (update_value r n v).1 end.

Lemma reg_run_wf ops r : registry_wf r → registry_wf (fold_left reg_step ops r).
Proof.
  revert r. induction ops as [|op ops IH]; intros r Hr; [done|]. apply IH.
  destruct op; [by apply register_wf | by apply update_value_wf].
Qed.

(** A registry stays well formed and stable: along any registrations and
    updates every definition is found under its own name, the first
    registration of a name fixes its pin type and strategy for good, only
    updates change its value, and [snapshots_by_strategy] lists each signal
    of the strategy exactly once. *)
Theorem registry_stable ops r n d :
  registry_wf r → r !! n = Some d →
  let r' := fold_left reg_step ops r in
  registry_wf r' ∧
  (∃ v, r' !! n = Some (set_value d v) ∧
        ((∀ w, RUpdate n w ∉ ops) → v = sd_value d)) ∧
  (∀ f, NoDup (map sn_name (snapshots_by_strategy r' f))).
Proof.
  cbn zeta. intros Hr Hd. split_and!; [by apply reg_run_wf | | ].
  - clear Hr. revert r d Hd. induction ops as [|op ops IH]; intros r d Hd; cbn.
    + exists (sd_value d). split; [|done]. rewrite Hd. by destruct d.
    + assert (∃ v, reg_step r op !! n = Some (set_value d v) ∧ ((∀ w, RUpdate n w ≠ op) → v = sd_value d))
        as (v & Hv & Hop).
      { destruct op as [e|m w]; cbn.
        - exists (sd_value d). split; [|done]. unfold register.
          destruct (r !! sd_name e) eqn:E; cbn; [|rewrite lookup_insert_ne by congruence];
            rewrite Hd; by destruct d.
        - rewrite update_value_lookup. destruct (String.eqb_spec m n) as [->|Hne].
          + rewrite Hd. exists w. split; [done|]. intros Hw. by destruct (Hw w).
          + exists (sd_value d). rewrite Hd. split; [by destruct d | done]. }
      destruct (IH _ _ Hv) as (v' & Hv' & Hops). exists v'. split; [by rewrite Hv'|].
      intros Hno. rewrite Hops.
      * apply Hop. intros w Hw. apply (Hno w). rewrite Hw. left.
      * intros w Hw. apply (Hno w). by right.
  - intros f. unfold snapshots_by_strategy. rewrite map_map. cbn.
    apply NoDup_map_filter, names_NoDup. by apply reg_run_wf.
Qed.

Definition demo_def : SignalDef := mkDef "motor.speed" TS32 (VS32 0) SOwn.

Lemma registry_stable_witness :
  registry_wf ({["motor.speed" := demo_def]} : SignalRegistry) ∧
  ∃ v, (fold_left reg_step [RUpdate "motor.speed" (VS32 5)] {["motor.speed" := demo_def]}) !! "motor.speed"
       = Some (set_value demo_def v).
Proof.
  assert (registry_wf ({["motor.speed" := demo_def]} : SignalRegistry)) as Hw
    by (by apply map_Forall_singleton).
  split; [exact Hw|].
  destruct (registry_stable [RUpdate "motor.speed" (VS32 5)] {["motor.speed" := demo_def]}
              "motor.speed" demo_def Hw (lookup_singleton_eq _ _)) as (_ & (v & Hv & _) & _).
  by exists v.
Defined.

(** A clone of a definition computes zero whatever its closure computes. *)
Lemma get_loses_closure calls r n d f :
  r !! n = Some d → sd_strategy d = SComputed f →
  compute_signal calls r n = Ok (compute_call calls f) ∧
  ∃ d', get r n = Some d' ∧ sd_strategy d' = SComputed ZeroFn.
Proof.
  intros Hd Hf. unfold compute_signal, get. rewrite Hd, Hf. split; [done|].
  eexists. split; [done|]. cbn. by rewrite Hf.
Qed.

(** ** Ring buffer

    [RingBuffer<N>] with [N = n]: an array of [n] cells and a wrapping
    [usize] cursor.  [None] is the division by zero of [N = 0]. *)
Record RingBuffer := mkRing { buf : list Z; cursor : Z }.

Definition ring_new (n : nat) : RingBuffer := mkRing (replicate n 0) 0.

Definition ring_push (n : nat) (b : RingBuffer) (v : Z) : option RingBuffer :=
  if (n =? 0)%nat then None
  else
    let idx := Z.to_nat (cursor b mod Z.of_nat n) in
    Some (mkRing (<[idx := v]> (buf b)) (fetch_add (cursor b))).

Definition ring_read (n : nat) (b : RingBuffer) : option (list Z) :=
  if (n =? 0)%nat then None
  else
    let start := if cursor b <? Z.of_nat n then 0 else cursor b mod Z.of_nat n in
    Some (map (fun i => default 0 (buf b !! Z.to_nat ((start + Z.of_nat i) mod Z.of_nat n))) (seq 0 n)).

Definition ring_reset (b : RingBuffer) : RingBuffer := mkRing (map (fun _ => 0) (buf b)) 0.

Fixpoint ring_push_all (n : nat) (b : RingBuffer) (vs : list Z) : option RingBuffer :=
  match vs with
  | [] => Some b
  | v :: vs => match ring_push n b v with Some b => ring_push_all n b vs | None => None end
  end.

(** ** Counters *)
Definition JITTER_CELLS : nat := 1024.

Record RuntimeMetrics := mkMetrics {
  cycles_completed : Z;
  m_signals_published : Z;
  config_changes_applied : Z;
  child_restarts : Z;
  health_check_failures : Z;
  cycle_jitter_us : RingBuffer }.

Definition metrics_new : RuntimeMetrics := mkMetrics 0 0 0 0 0 (ring_new JITTER_CELLS).

Definition record_cycle (m : RuntimeMetrics) : RuntimeMetrics :=
  mkMetrics (fetch_add (cycles_completed m)) (m_signals_published m) (config_changes_applied m)
    (child_restarts m) (health_check_failures m) (cycle_jitter_us m).
Definition record_signal_published (m : RuntimeMetrics) : RuntimeMetrics :=
  mkMetrics (cycles_completed m) (fetch_add (m_signals_published m)) (config_changes_applied m)
    (child_restarts m) (health_check_failures m) (cycle_jitter_us m).
Definition record_config_applied (m : RuntimeMetrics) : RuntimeMetrics :=
  mkMetrics (cycles_completed m) (m_signals_published m) (fetch_add (config_changes_applied m))
    (child_restarts m) (health_check_failures m) (cycle_jitter_us m).
Definition record_child_restart (m : RuntimeMetrics) : RuntimeMetrics :=
  mkMetrics (cycles_completed m) (m_signals_published m) (config_changes_applied m)
    (fetch_add (child_restarts m)) (health_check_failures m) (cycle_jitter_us m).
Definition record_health_failure (m : RuntimeMetrics) : RuntimeMetrics :=
  mkMetrics (cycles_completed m) (m_signals_published m) (config_changes_applied m)
    (child_restarts m) (fetch_add (health_check_failures m)) (cycle_jitter_us m).
(** The buffer has 1024 cells, so the push cannot panic. *)
Definition record_cycle_jitter (m : RuntimeMetrics) (elapsed_us : Z) : RuntimeMetrics :=
  mkMetrics (cycles_completed m) (m_signals_published m) (config_changes_applied m)
    (child_restarts m) (health_check_failures m)
    (default (cycle_jitter_us m) (ring_push JITTER_CELLS (cycle_jitter_us m) elapsed_us)).
Definition metrics_reset (m : RuntimeMetrics) : RuntimeMetrics :=
  mkMetrics 0 0 0 0 0 (ring_reset (cycle_jitter_us m)).

Definition line_feed : string := String.String "010"%char EmptyString.
Definition export_prometheus (m : RuntimeMetrics) : string :=
  "audesys_runtime_cycles_completed_total " +:+ pretty (cycles_completed m) +:+ line_feed +:+
  "audesys_runtime_signals_published_total " +:+ pretty (m_signals_published m) +:+ line_feed +:+
  "audesys_runtime_config_changes_total " +:+ pretty (config_changes_applied m) +:+ line_feed +:+
  "audesys_runtime_child_restarts_total " +:+ pretty (child_restarts m) +:+ line_feed +:+
  "audesys_runtime_health_failures_total " +:+ pretty (health_check_failures m) +:+ line_feed.

(** ** The ring buffer is a sliding window *)

(** The cells after the pushes [vs]. *)
Record ring_ok (n : nat) (vs : list Z) (b : RingBuffer) : Prop := {
  ro_length : length (buf b) = n;
  ro_cursor : cursor b = Z.of_nat (length vs);
  ro_recent : ∀ i, (length vs - n <= i < length vs)%nat → buf b !! (i mod n)%nat = vs !! i;
  ro_zero : ∀ j, (length vs <= j < n)%nat → buf b !! j = Some 0 }.

Lemma ring_new_ok n : ring_ok n [] (ring_new n).
Proof.
  split; cbn; [apply length_replicate | done | lia | ]. intros j Hj. apply lookup_replicate_2. lia.
Qed.

Lemma z_idx a n : Z.to_nat (Z.of_nat a mod Z.of_nat n) = (a mod n)%nat.
Proof. by rewrite <- Nat2Z.inj_mod, Nat2Z.id. Qed.

Lemma mod_neq i k n : (i < k)%nat → (k - i < n)%nat → (i mod n ≠ k mod n)%nat.
Proof.
  intros Hik Hn E. pose proof (Nat.div_mod_eq i n) as Hi. pose proof (Nat.div_mod_eq k n) as Hk.
  rewrite E in Hi. assert (k - i = n * (k / n - i / n))%nat as Hd by nia.
  destruct (k / n - i / n)%nat; [lia|]. nia.
Qed.

Lemma ring_push_ok n vs v b :
  (0 < n)%nat → Z.of_nat (S (length vs)) < 2 ^ 64 → ring_ok n vs b →
  ∃ b', ring_push n b v = Some b' ∧ ring_ok n (vs ++ [v]) b'.
Proof.
  intros Hn Hw [Hl Hc Hr Hz]. unfold ring_push.
  rewrite (proj2 (Nat.eqb_neq n 0)) by lia. eexists. split; [done|].
  rewrite Hc, z_idx.
  assert (length vs mod n < n)%nat as Hidx by (apply Nat.mod_upper_bound; lia).
  split; cbn [buf cursor].
  - by rewrite length_insert.
  - unfold fetch_add. rewrite wrap_u_id, length_app; cbn; [lia|]. apply in_u_spec. lia.
  - intros i Hi. rewrite length_app in Hi. cbn in Hi. destruct (decide (i = length vs)) as [->|Hne].
    + rewrite list_lookup_insert_eq by lia. by rewrite list_lookup_middle.
    + rewrite list_lookup_insert_ne by (apply not_eq_sym, mod_neq; lia).
      rewrite lookup_app_l by lia. apply Hr. lia.
  - intros j Hj. rewrite length_app in Hj. cbn in Hj.
    rewrite list_lookup_insert_ne; [apply Hz; lia|]. rewrite Nat.mod_small; lia.
Qed.

Lemma ring_push_all_ok n vs ws b :
  (0 < n)%nat → Z.of_nat (length (vs ++ ws)) < 2 ^ 64 → ring_ok n vs b →
  ∃ b', ring_push_all n b ws = Some b' ∧ ring_ok n (vs ++ ws) b'.
Proof.
  intros Hn. revert vs b. induction ws as [|w ws IH]; intros vs b Hw Hb.
  - exists b. split; [done|]. by rewrite app_nil_r.
  - rewrite length_app in Hw. cbn in Hw.
    destruct (ring_push_ok n vs w b) as (b' & Hp & Hb'); [done | lia | done |].
    destruct (IH (vs ++ [w]) b') as (b'' & Hp' & Hb''); [rewrite !length_app; cbn; lia | done |].
    exists b''. cbn [ring_push_all]. rewrite Hp. split; [done|]. by rewrite <- (assoc_L (++)) in Hb''.
Qed.

Definition window (n : nat) (vs : list Z) : list Z :=
  if (length vs <? n)%nat then vs ++ replicate (n - length vs) 0 else drop (length vs - n) vs.

Lemma ring_read_ok n vs b :
  (0 < n)%nat → ring_ok n vs b → ring_read n b = Some (window n vs).
Proof.
  intros Hn [Hl Hc Hr Hz]. unfold ring_read. rewrite (proj2 (Nat.eqb_neq n 0)) by lia.
  f_equal. rewrite Hc. apply list_eq. intros i.
  change (map ?f (seq 0 n)) with (f <$> seq 0 n). rewrite list_lookup_fmap.
  destruct (decide (i < n)%nat) as [Hi|Hi].
  2:{ rewrite (lookup_ge_None_2 (seq _ _)) by (rewrite length_seq; lia). cbn. symmetry.
      apply lookup_ge_None_2. unfold window. destruct (Nat.ltb_spec (length vs) n);
        rewrite ?length_app, ?length_replicate, ?length_drop; lia. }
  rewrite lookup_seq_lt by done. cbn [fmap option_fmap option_map]. rewrite Nat.add_0_l.
  unfold window. destruct (Nat.ltb_spec (length vs) n) as [Hlt|Hge].
  - rewrite (proj2 (Z.ltb_lt _ _)) by lia. rewrite Z.add_0_l, z_idx, Nat.mod_small by lia.
    destruct (decide (i < length vs)%nat) as [Hv|Hv].
    + rewrite lookup_app_l by lia. rewrite <- (Hr i) by lia. rewrite Nat.mod_small by lia.
      destruct (lookup_lt_is_Some_2 (buf b) i) as [x Hx]; [lia|]. cbn. by rewrite Hx.
    + rewrite (Hz i) by lia. rewrite lookup_app_r by lia. by rewrite lookup_replicate_2 by lia.
  - rewrite (proj2 (Z.ltb_ge _ _)) by lia. rewrite lookup_drop.
    rewrite <- Nat2Z.inj_mod, <- Nat2Z.inj_add, z_idx, Nat.Div0.add_mod_idemp_l.
    replace ((length vs + i) mod n)%nat with ((length vs - n + i) mod n)%nat.
    2:{ replace (length vs + i)%nat with (length vs - n + i + 1 * n)%nat by lia.
        by rewrite Nat.Div0.mod_add. }
    rewrite (Hr (length vs - n + i)%nat) by lia.
    destruct (lookup_lt_is_Some_2 vs (length vs - n + i)) as [x Hx]; [lia|]. by rewrite Hx.
Qed.

(** The ring buffer is a sliding window: after fewer than [2^64] pushes
    to a buffer of [n >= 1] cells a read returns the last [n] values pushed,
    oldest first, padded with zeros at the end while the buffer is not full;
    no push panics, and a reset buffer reads as a fresh one. *)
Theorem ring_buffer_window n vs :
  (0 < n)%nat → Z.of_nat (length vs) < 2 ^ 64 →
  ∃ b, ring_push_all n (ring_new n) vs = Some b ∧
       ring_read n b = Some (window n vs) ∧
       ring_reset b = ring_new n.
Proof.
  intros Hn Hw. destruct (ring_push_all_ok n [] vs (ring_new n)) as (b & Hp & Hb);
    [done | done | apply ring_new_ok |].
  exists b. split_and!; [done | by apply ring_read_ok |].
  destruct Hb as [Hl _ _ _]. unfold ring_reset, ring_new. f_equal. rewrite <- Hl. clear.
  induction (buf b) as [|x l IH]; [done|]. cbn. by rewrite IH.
Qed.

Lemma ring_buffer_window_witness :
  (0 < 3)%nat ∧ ∃ b, ring_push_all 3 (ring_new 3) [1; 2; 3; 4; 5] = Some b ∧ ring_read 3 b = Some [3; 4; 5].
Proof.
  split; [lia|].
  destruct (ring_buffer_window 3 [1; 2; 3; 4; 5]) as (b & Hp & Hr & _); [lia | reflexivity |].
  exists b. split; [exact Hp | exact Hr].
Defined.
