(* ===== verification/Lifecycle.v ===== *)
(** * Child process supervision ([audesys-runtime/src/lifecycle.rs])

    Spawning, health checks with restart, and shutdown.  The operating system
    is the environment: what [try_wait] reports, what a spawn returns and what
    the clock reads are arguments.  Instants are in nanoseconds. *)
From S2P Require Import Prelude.
From stdpp Require Import pretty.
Local Open Scope Z_scope.

Definition from_millis (ms : Z) : Z := ms * 1000000.
Definition MAX_RETRIES : Z := 3.
Definition BACKOFF_BASE_MS : Z := 1000.
Definition RESTART_WINDOW_MS : Z := 30000.

(** [Instant::duration_since] saturates at zero. *)
Definition duration_since (now earlier : Z) : Z := Z.max 0 (now - earlier).

Inductive ProcessState :=
  | Running
  | Exited (exit_code : option Z)
  | Restarting (attempt next_at : Z)
  | Failed (exit_code : option Z) (reason : string)
  | Stopped.

Record ChildHealth := mkHealth {
  h_name : string;
  h_state : ProcessState;
  h_exit_code : option Z;
  h_restart_count : Z }.

(** A process handle is its pid. *)
Record ManagedChild := mkChild {
  c_name : string;
  process : Z;
  restart_count : Z;
  last_start : Z;
  exit_code : option Z;
  c_program : string;
  c_args : list string }.

(** [Child::try_wait]. *)
Inductive Wait := WExited (code : option Z) | WRunning | WError.
(** [Command::spawn]: the pid, or the error's text. *)
Definition Spawn : Type := result Z string.

Abbreviation LifecycleManager := (list ManagedChild) (only parsing).
Definition lifecycle_new : LifecycleManager := [].

Definition spawn (cs : LifecycleManager) (name prog : string) (args : list string) (os : Spawn) (now : Z)
  : LifecycleManager * result Z string :=
  match os with
  | Err e => (cs, Err ("Failed to spawn " +:+ name +:+ ": " +:+ e))
  | Ok pid => (cs ++ [mkChild name pid 0 now None prog args], Ok pid)
  end.

(** ** Health check *)
Definition with_exit (c : ManagedChild) (code : option Z) (count : Z) : ManagedChild :=
  mkChild (c_name c) (process c) count (last_start c) code (c_program c) (c_args c).

(** One iteration of the loop of [health_check]. *)
Definition check_child (now : Z) (w : Wait) (os : Spawn) (c : ManagedChild)
  : ManagedChild * ChildHealth :=
  match w with
  | WExited code =>
      let count := if from_millis RESTART_WINDOW_MS <=? duration_since now (last_start c)
                   then 0 else restart_count c in
      let c := with_exit c code count in
      if restart_count c <? MAX_RETRIES then
        let attempt := restart_count c + 1 in
        match os with
        | Ok pid =>
            (mkChild (c_name c) pid attempt now None (c_program c) (c_args c),
             mkHealth (c_name c)
               (Restarting attempt (now + from_millis (BACKOFF_BASE_MS * Z.shiftl 1 (attempt - 1))))
               code attempt)
        | Err e =>
            (c, mkHealth (c_name c) (Failed code ("Restart spawn failed: " +:+ e)) code (restart_count c))
        end
      else
        (c, mkHealth (c_name c) (Failed code ("Exceeded max retries (" +:+ pretty MAX_RETRIES +:+ ")"))
              code (restart_count c))
  | WRunning => (c, mkHealth (c_name c) Running None (restart_count c))
  | WError => (c, mkHealth (c_name c) (Failed None "try_wait() returned an error") None (restart_count c))
  end.

(** [os i] is what the system says about the child at index [i]. *)
Fixpoint health_loop (now : Z) (os : nat → Wait * Spawn) (i : nat) (cs : list ManagedChild)
  : list ManagedChild * list ChildHealth :=
  match cs with
  | [] => ([], [])
  | c :: cs =>
      let '(c', h) := check_child now (os i).1 (os i).2 c in
      let '(cs', hs) := health_loop now os (S i) cs in
      (c' :: cs', h :: hs)
  end.

Definition health_check (cs : LifecycleManager) (now : Z) (os : nat → Wait * Spawn)
  : LifecycleManager * list ChildHealth := health_loop now os 0 cs.

Definition child_count (cs : LifecycleManager) : nat := length cs.

(** ** Shutdown

    The loop polls the first child; [readings k] is what the [k]-th
    [try_wait] reports together with the clock read after it. *)
Fixpoint shutdown_loop (fuel : nat) (deadline : Z) (readings : nat → Wait * Z) (k : nat)
    (cs : list ManagedChild) (failed : list string) : option (list ManagedChild * list string) :=
  match cs with
  | [] => Some ([], failed)
  | c :: cs' =>
      match fuel with
      | O => None
      | S fuel =>
          match (readings k).1 with
          | WExited _ => shutdown_loop fuel deadline readings (S k) cs' failed
          | WRunning =>
              if deadline <=? (readings k).2
              then shutdown_loop fuel deadline readings (S k) cs' (failed ++ [c_name c])
              else shutdown_loop fuel deadline readings (S k) cs failed
          | WError => shutdown_loop fuel deadline readings (S k) cs' (failed ++ [c_name c])
          end
      end
  end.

Definition shutdown_all (fuel : nat) (cs : LifecycleManager) (now timeout_ms : Z)
    (readings : nat → Wait * Z) : option (LifecycleManager * list string) :=
  shutdown_loop fuel (now + from_millis timeout_ms) readings 0 cs [].

(** ** Invariant *)
Definition child_wf (c : ManagedChild) : Prop := 0 <= restart_count c <= MAX_RETRIES.

Lemma check_child_wf now w os c : child_wf c → child_wf (check_child now w os c).1.
Proof.
  unfold child_wf, check_child, MAX_RETRIES. intros Hc. destruct w as [code| |]; [|done..].
  cbn [restart_count with_exit]. destruct (_ <=? duration_since _ _);
    destruct (Z.ltb_spec 0 3); destruct (Z.ltb_spec (restart_count c) 3); destruct os;
    cbn [restart_count with_exit fst]; lia.
Qed.

Definition restarted (h : ChildHealth) : bool :=
  match h_state h with Restarting _ _ => true | _ => false end.

(** The restarts of one child over a sequence of checks. *)
Fixpoint child_run (c : ManagedChild) (checks : list (Z * Wait * Spawn)) : ManagedChild * nat :=
  match checks with
  | [] => (c, 0%nat)
  | (now, w, os) :: checks =>
      let '(c', h) := check_child now w os c in
      let '(c'', k) := child_run c' checks in
      (c'', ((if restarted h then 1 else 0) + k)%nat)
  end.

(** What a check does to the supervision state. *)
Lemma check_child_cases now w os c :
  let '(c', h) := check_child now w os c in
  if restarted h
  then last_start c' = now ∧ ∃ n, (n = restart_count c ∨ (n = 0 ∧
         from_millis RESTART_WINDOW_MS <= duration_since now (last_start c))) ∧
         n < MAX_RETRIES ∧ restart_count c' = n + 1
  else last_start c' = last_start c ∧
       (restart_count c' = restart_count c ∨ (restart_count c' = 0 ∧
         from_millis RESTART_WINDOW_MS <= duration_since now (last_start c))).
Proof.
  unfold check_child. destruct w as [code| |]; [|cbn; auto..].
  cbn [restart_count with_exit last_start].
  destruct (Z.leb_spec (from_millis RESTART_WINDOW_MS) (duration_since now (last_start c)));
    destruct (Z.ltb_spec (if true then 0 else 0) MAX_RETRIES) as [H0|H0]; try done;
    [destruct (Z.ltb_spec 0 MAX_RETRIES) | destruct (Z.ltb_spec (restart_count c) MAX_RETRIES)];
    destruct os; cbn; eauto 10.
Qed.

Definition recent (t : Z) (c : ManagedChild) : Prop := t <= last_start c.

Lemma child_run_bound t checks c :
  child_wf c →
  Forall (fun x => t <= x.1.1 < t + from_millis RESTART_WINDOW_MS) checks →
  (recent t c → Z.of_nat (child_run c checks).2 <= MAX_RETRIES - restart_count c) ∧
  Z.of_nat (child_run c checks).2 <= MAX_RETRIES.
Proof.
  revert c. induction checks as [|[[now w] os] checks IH]; intros c Hc Ht.
  { cbn. unfold child_wf, MAX_RETRIES in *. lia. }
  apply Forall_cons in Ht as [Hnow Ht]. cbn in Hnow. cbn [child_run].
  pose proof (check_child_cases now w os c) as Hcase.
  pose proof (check_child_wf now w os c Hc) as Hc'.
  destruct (check_child now w os c) as [c' h]. cbn [fst] in Hc'.
  destruct (IH c' Hc' Ht) as [IHr IHa]. destruct (child_run c' checks) as [c'' k]. cbn [snd] in *.
  unfold recent, child_wf, duration_since in *.
  destruct (restarted h); cbn [Nat.add].
  - destruct Hcase as (Hl & n & Hn & Hlt & Hk). specialize (IHr ltac:(lia)). lia.
  - destruct Hcase as (Hl & Hk). rewrite Hl in IHr. split; [|done]. intros Hr.
    specialize (IHr Hr). lia.
Qed.

(** [C30] Restart budget: whatever the children do and whenever the checks
    run, a child is restarted at most three times within any thirty seconds,
    and its counter stays between zero and three. *)
Theorem restart_budget t checks c :
  child_wf c →
  Forall (fun x => t <= x.1.1 < t + from_millis RESTART_WINDOW_MS) checks →
  Z.of_nat (child_run c checks).2 <= 3 ∧ child_wf (child_run c checks).1.
Proof.
  intros Hc Ht. split; [by apply (child_run_bound t checks c Hc)|].
  clear Ht. revert c Hc. induction checks as [|[[now w] os] checks IH]; intros c Hc; [done|].
  cbn. pose proof (check_child_wf now w os c Hc) as Hc'. destruct (check_child now w os c) as [c' h].
  specialize (IH c' Hc'). by destruct (child_run c' checks).
Qed.

Definition demo_child : ManagedChild := mkChild "hmi" 42 0 0 None "audesys-hmi" [].
Definition crash (now : Z) : Z * Wait * Spawn := (now, WExited (Some 1), Ok 43).

Lemma restart_budget_witness :
  child_wf demo_child ∧
  (child_run demo_child (map crash [1; 2; 3; 4; 5])).2 = 3%nat ∧
  Z.of_nat (child_run demo_child (map crash [1; 2; 3; 4; 5])).2 <= 3.
Proof.
  assert (child_wf demo_child) as Hw by (unfold child_wf, MAX_RETRIES; cbn; lia).
  split_and!; [exact Hw | reflexivity |].
  apply (restart_budget 0 (map crash [1; 2; 3; 4; 5]) demo_child Hw).
  unfold from_millis, RESTART_WINDOW_MS. repeat (apply Forall_cons; split; [cbn; lia|]). constructor.
Defined.

(** ** Health check results *)
Lemma health_loop_lookup now os i cs k :
  (health_loop now os i cs).1 !! k = (fun c => (check_child now (os (i + k)%nat).1 (os (i + k)%nat).2 c).1) <$> cs !! k ∧
  (health_loop now os i cs).2 !! k = (fun c => (check_child now (os (i + k)%nat).1 (os (i + k)%nat).2 c).2) <$> cs !! k.
Proof.
  revert i k. induction cs as [|c cs IH]; intros i k; [done|]. cbn [health_loop].
  destruct (check_child now (os i).1 (os i).2 c) as [c' h] eqn:E.
  destruct (health_loop now os (S i) cs) as [cs' hs] eqn:El. destruct k as [|k]; cbn.
  - rewrite Nat.add_0_r, E. done.
  - specialize (IH (S i) k). rewrite El in IH. cbn in IH. by rewrite Nat.add_succ_r.
Qed.

Lemma health_loop_length now os i cs :
  length (health_loop now os i cs).1 = length cs ∧ length (health_loop now os i cs).2 = length cs.
Proof.
  revert i. induction cs as [|c cs IH]; intros i; [done|]. cbn.
  destruct (check_child now (os i).1 (os i).2 c). specialize (IH (S i)).
  destruct (health_loop now os (S i) cs). cbn in *. lia.
Qed.

(** The restarts a child has used up when it is found dead. *)
Definition used_restarts (now : Z) (c : ManagedChild) : Z :=
  if from_millis RESTART_WINDOW_MS <=? duration_since now (last_start c) then 0 else restart_count c.

(** Health check: it reports on every child, in order, and loses none.  A
    running child is untouched.  An exited child with restarts left whose
    spawn succeeds is restarted within the same call: the new process is in
    place at once although the report announces a restart one, two or four
    seconds later.  A child without restarts left, or whose spawn fails, keeps
    its dead process and is reported as failed. *)
Theorem health_check_spec cs now os k c :
  cs !! k = Some c → child_wf c →
  let r := health_check cs now os in
  length r.1 = length cs ∧ length r.2 = length cs ∧
  ∃ c' h, r.1 !! k = Some c' ∧ r.2 !! k = Some h ∧ c_name c' = c_name c ∧ h_name h = c_name c ∧
  match os k with
  | (WRunning, _) => c' = c ∧ h_state h = Running
  | (WError, _) => c' = c ∧ ∃ msg, h_state h = Failed None msg
  | (WExited code, Ok pid) =>
      let n := used_restarts now c in
      if n <? 3
      then c' = mkChild (c_name c) pid (n + 1) now None (c_program c) (c_args c) ∧
           h_state h = Restarting (n + 1) (now + from_millis (1000 * 2 ^ n))
      else process c' = process c ∧ last_start c' = last_start c ∧ ∃ msg, h_state h = Failed code msg
  | (WExited code, Err _) =>
      process c' = process c ∧ last_start c' = last_start c ∧ ∃ msg, h_state h = Failed code msg
  end.
Proof.
  intros Hc Hwf. cbn zeta. unfold health_check.
  destruct (health_loop_length now os 0 cs) as [H1 H2].
  destruct (health_loop_lookup now os 0 cs k) as [L1 L2]. rewrite Hc in L1, L2. cbn [fmap option_fmap option_map Nat.add] in L1, L2.
  split_and!; [done..|]. do 2 eexists. split; [exact L1|]. split; [exact L2|].
  unfold check_child, used_restarts, MAX_RETRIES, child_wf in *.
  destruct (os k) as [[code| |] sp]; cbn [fst snd]; [|by split_and!; [..|eexists]..].
  cbn [restart_count with_exit last_start].
  set (n := if _ <=? _ then 0 else _).
  assert (0 <= n) by (subst n; destruct (_ <=? _); lia).
  destruct (Z.ltb_spec n 3), sp as [pid|e]; cbn [fst snd c_name h_name with_exit process last_start h_state];
    split_and!; try done; try by eexists.
  do 3 f_equal. unfold BACKOFF_BASE_MS. f_equal. rewrite Z.shiftl_mul_pow2 by lia.
  by replace (n + 1 - 1) with n by lia; rewrite Z.mul_1_l.
Qed.

Lemma health_check_spec_witness :
  child_wf demo_child ∧
  (health_check [demo_child] 7 (fun _ => (WExited (Some 1), Ok 43))).1 !! 0%nat
  = Some (mkChild "hmi" 43 1 7 None "audesys-hmi" []).
Proof.
  assert (child_wf demo_child) as Hw by (unfold child_wf, MAX_RETRIES; cbn; lia).
  split; [exact Hw|].
  destruct (health_check_spec [demo_child] 7 (fun _ => (WExited (Some 1), Ok 43)) 0 demo_child eq_refl Hw)
    as (_ & _ & c' & h & Hc & _ & _ & _ & -> & _). exact Hc.
Defined.

(** ** Shutdown *)
Lemma shutdown_loop_total deadline readings cs failed k fuel K :
  (∀ j, (K <= j)%nat → deadline <= (readings j).2) →
  (K - k + length cs <= fuel)%nat →
  ∃ names, shutdown_loop fuel deadline readings k cs failed = Some ([], failed ++ names) ∧
           names `sublist_of` map c_name cs.
Proof.
  intros HK. revert k cs failed. induction fuel as [|fuel IH]; intros k cs failed Hf.
  - destruct cs; [|cbn in Hf; lia]. exists []. cbn. by rewrite app_nil_r.
  - destruct cs as [|c cs]; [exists []; cbn; by rewrite app_nil_r|]. cbn in Hf. cbn [shutdown_loop].
    assert (∀ fl, ∃ names, shutdown_loop fuel deadline readings (S k) cs fl = Some ([], fl ++ names) ∧
              names `sublist_of` map c_name cs) as Hnext by (intros fl; apply IH; lia).
    assert (∃ names, shutdown_loop fuel deadline readings (S k) cs (failed ++ [c_name c])
              = Some ([], failed ++ names) ∧ names `sublist_of` map c_name (c :: cs)) as Hfail.
    { destruct (Hnext (failed ++ [c_name c])) as (names & Hn & Hs). exists (c_name c :: names).
      split; [by rewrite Hn, <- (assoc_L (++)) | by apply sublist_skip]. }
    destruct (readings k).1 eqn:Hw; [|destruct (Z.leb_spec deadline (readings k).2)|]; try done.
    + destruct (Hnext failed) as (names & Hn & Hs). exists names. split; [done|]. by apply sublist_cons.
    + apply (IH (S k) (c :: cs) failed). assert (k < K)%nat; [|cbn; lia].
      destruct (Nat.lt_ge_cases k K) as [|Hge]; [done|]. specialize (HK k Hge). lia.
Qed.

Lemma shutdown_loop_mono fuel fuel' deadline readings k cs failed r :
  (fuel <= fuel')%nat →
  shutdown_loop fuel deadline readings k cs failed = Some r →
  shutdown_loop fuel' deadline readings k cs failed = Some r.
Proof.
  revert fuel' k cs failed. induction fuel as [|fuel IH]; intros fuel' k cs failed Hle H.
  - destruct cs; [by destruct fuel' | done].
  - destruct fuel' as [|fuel']; [lia|]. destruct cs as [|c cs]; [done|]. cbn [shutdown_loop] in *.
    destruct (readings k).1; [|destruct (deadline <=? (readings k).2)|]; apply IH; done || lia.
Qed.

(** Shutdown terminates: once the clock has passed the deadline the loop
    ends, whatever the children do, every child is removed from the
    supervisor, and the names returned are a subsequence of the children's. *)
Theorem shutdown_terminates cs now timeout_ms readings K :
  (∀ j, (K <= j)%nat → now + from_millis timeout_ms <= (readings j).2) →
  ∃ names, (∀ fuel, (K + length cs <= fuel)%nat →
              shutdown_all fuel cs now timeout_ms readings = Some ([], names)) ∧
           names `sublist_of` map c_name cs.
Proof.
  intros HK.
  destruct (shutdown_loop_total _ readings cs [] 0 (K + length cs) K HK) as (names & Hn & Hs); [lia|].
  exists names. split; [|done]. intros fuel Hf. by eapply shutdown_loop_mono.
Qed.

Lemma shutdown_terminates_witness :
  (∀ j : nat, (5 <= j)%nat → 0 + from_millis 0 <= Z.of_nat j) ∧
  shutdown_all 6 [demo_child] 0 0 (fun j => (WRunning, Z.of_nat j)) = Some ([], ["hmi"]).
Proof.
  assert (∀ j : nat, (5 <= j)%nat → 0 + from_millis 0 <= Z.of_nat j) as Hj
    by (intros j _; unfold from_millis; lia).
  split; [exact Hj|].
  destruct (shutdown_terminates [demo_child] 0 0 (fun j => (WRunning, Z.of_nat j)) 5 Hj) as (names & Hn & _).
  rewrite (Hn 6%nat) by (cbn; lia). pose proof (Hn 6%nat ltac:(cbn; lia)) as H.
  vm_compute in H. by injection H as <-.
Defined.
