(* ===== verification/Engine.v ===== *)
(** * The execution engine ([audesys-runtime/src/engine.rs])

    The scan cycle of the controller: config barrier, hot swap, read barrier,
    compute phase, program execution, write barrier, supervision.  The engine
    is a client of a middleware: everything below is proved for any
    implementation of the interface of [Middleware].

    The environment of a cycle (which closures compute what, whether the
    layout file could be written, what the operating system says about the
    child processes, how long the cycle took) is a record.  The bincode and
    YAML decoders are parameters. *)
From S2P Require Import Prelude Float HalTypes HalValue HalIr FunctionBlocks Vm Executor.
From S2P Require Import ExecutorFacts ExecutorControl.
From S2P Require Import Text Qos Transport Middleware.
From S2P Require Import Signals Lifecycle.
Local Open Scope Z_scope.

(** The decoders of the engine's inputs, which are third-party code. *)
Class Decoders := {
  bincode_deserialize : list Z → result HalProgram string;
  utf8_error_text : list Z → string;
  yaml_parse : string → result unit string }.

Section engine.
Context {HB : BuildProfile} {HD : Decoders}.
Context {M : Type} {HT : HalTransport M} {HQ : HalQoS M}.

Record Engine := mkEngine {
  middleware : M;
  running : bool;
  lock_level : LockLevel;
  e_config_queue : list ConfigCommand;
  cycle_count : Z;
  e_signals : SignalRegistry;
  e_metrics : RuntimeMetrics;
  lifecycle : LifecycleManager;
  paused : bool;
  step_requested : bool;
  hal_program : option HalProgram;
  hal_executor : option Executor;
  pending_swap : option HalProgram;
  swap_committed : bool;
  pending_hmi_layout : option (list Z * Z);
  hmi_layout_generation : Z;
  hmi_layout : option (list Z * Z) }.

Definition engine_new (mw : M) (lc : LifecycleManager) : Engine :=
  mkEngine mw false LkNone [] 0 registry_new metrics_new lc false false None None None false None 0 None.

(** ** Field updates *)
Definition set_middleware (e : Engine) (mw : M) : Engine :=
  mkEngine mw (running e) (lock_level e) (e_config_queue e) (cycle_count e) (e_signals e) (e_metrics e)
    (lifecycle e) (paused e) (step_requested e) (hal_program e) (hal_executor e) (pending_swap e)
    (swap_committed e) (pending_hmi_layout e) (hmi_layout_generation e) (hmi_layout e).
Definition set_run (e : Engine) (run ps st : bool) : Engine :=
  mkEngine (middleware e) run (lock_level e) (e_config_queue e) (cycle_count e) (e_signals e) (e_metrics e)
    (lifecycle e) ps st (hal_program e) (hal_executor e) (pending_swap e)
    (swap_committed e) (pending_hmi_layout e) (hmi_layout_generation e) (hmi_layout e).
Definition set_config (e : Engine) (mw : M) (l : LockLevel) (q : list ConfigCommand) : Engine :=
  mkEngine mw (running e) l q (cycle_count e) (e_signals e) (e_metrics e)
    (lifecycle e) (paused e) (step_requested e) (hal_program e) (hal_executor e) (pending_swap e)
    (swap_committed e) (pending_hmi_layout e) (hmi_layout_generation e) (hmi_layout e).
Definition set_signals (e : Engine) (rg : SignalRegistry) : Engine :=
  mkEngine (middleware e) (running e) (lock_level e) (e_config_queue e) (cycle_count e) rg (e_metrics e)
    (lifecycle e) (paused e) (step_requested e) (hal_program e) (hal_executor e) (pending_swap e)
    (swap_committed e) (pending_hmi_layout e) (hmi_layout_generation e) (hmi_layout e).
Definition set_stats (e : Engine) (count : Z) (mt : RuntimeMetrics) (lc : LifecycleManager) : Engine :=
  mkEngine (middleware e) (running e) (lock_level e) (e_config_queue e) count (e_signals e) mt
    lc (paused e) (step_requested e) (hal_program e) (hal_executor e) (pending_swap e)
    (swap_committed e) (pending_hmi_layout e) (hmi_layout_generation e) (hmi_layout e).
Definition set_program (e : Engine) (p : option HalProgram) (x : option Executor) : Engine :=
  mkEngine (middleware e) (running e) (lock_level e) (e_config_queue e) (cycle_count e) (e_signals e)
    (e_metrics e) (lifecycle e) (paused e) (step_requested e) p x (pending_swap e)
    (swap_committed e) (pending_hmi_layout e) (hmi_layout_generation e) (hmi_layout e).
Definition set_swap (e : Engine) (p : option HalProgram) (c : bool) : Engine :=
  mkEngine (middleware e) (running e) (lock_level e) (e_config_queue e) (cycle_count e) (e_signals e)
    (e_metrics e) (lifecycle e) (paused e) (step_requested e) (hal_program e) (hal_executor e) p
    c (pending_hmi_layout e) (hmi_layout_generation e) (hmi_layout e).
Definition set_hmi (e : Engine) (pending : option (list Z * Z)) (g : Z) (active : option (list Z * Z)) : Engine :=
  mkEngine (middleware e) (running e) (lock_level e) (e_config_queue e) (cycle_count e) (e_signals e)
    (e_metrics e) (lifecycle e) (paused e) (step_requested e) (hal_program e) (hal_executor e)
    (pending_swap e) (swap_committed e) pending g active.

(** ** Control *)
Definition stop (e : Engine) : Engine := set_run e false (paused e) (step_requested e).
Definition pause (e : Engine) : Engine := set_run e (running e) true (step_requested e).
Definition resume (e : Engine) : Engine := set_run e (running e) false (step_requested e).
Definition step_cycle (e : Engine) : Engine := set_run e (running e) true true.
Definition is_running (e : Engine) : bool := running e.
Definition is_paused (e : Engine) : bool := paused e.

(** ** Configuration *)
Definition engine_set_lock_level (e : Engine) (l : LockLevel) : Engine * result unit string :=
  if level_lt l (lock_level e) then
    (e, Err ("Cannot decrease lock level from " +:+ lock_debug (lock_level e) +:+ " to " +:+ lock_debug l))
  else (set_config e (middleware e) l (e_config_queue e), Ok tt).

Definition engine_queue_config (e : Engine) (c : ConfigCommand) : Engine * result unit string :=
  if level_ge (lock_level e) LkRun then
    (e, Err ("Configuration locked: engine is at " +:+ lock_debug (lock_level e) +:+ " level"))
  else (set_config e (middleware e) (lock_level e) (e_config_queue e ++ [c]), Ok tt).

(** Hand the commands to the middleware in order. *)
Fixpoint queue_all (mw : M) (cs : list ConfigCommand) : M * list ConfigStatus :=
  match cs with
  | [] => (mw, [])
  | c :: cs =>
      let '(mw, st) := amw_queue_config mw c in
      let st := match st with Ok s => s | Err e => CfgRejected (hal_error_fmt e) end in
      let '(mw, sts) := queue_all mw cs in (mw, st :: sts)
  end.

Definition apply_config_now (e : Engine) : Engine * list ConfigStatus :=
  match e_config_queue e with
  | [] => (e, [])
  | q =>
      let '(mw, sts) := queue_all (middleware e) q in
      (set_config e (amw_apply_queued mw).1 (lock_level e) [], sts)
  end.

(** ** Programs *)
Definition writes_signal (b : SignalBinding) : bool :=
  bool_decide (direction b = Write) || bool_decide (direction b = ReadWrite).

(** Output bindings become [Own] signals with value [S32(0)]; a name already
    registered is left alone. *)
Definition register_bindings (rg : SignalRegistry) (bs : list SignalBinding) : SignalRegistry :=
  fold_left (fun rg b =>
    if writes_signal b
    then (register rg (mkDef (hal_signal_name b) (hal_pin_type b) (VS32 0) SOwn)).1
    else rg) bs rg.

Definition install_program (e : Engine) (p : HalProgram) : Engine :=
  set_program (set_signals e (register_bindings (e_signals e) (prog_signals p)))
    (Some p) (Some (executor_new p)).

Definition load_hal_program (e : Engine) (bytes : list Z) : Engine * result unit string :=
  match bincode_deserialize bytes with
  | Err msg => (e, Err ("Failed to deserialize HAL program: " +:+ msg))
  | Ok p =>
      if negb (is_well_formed p) then (e, Err "Program is not well-formed")
      else (install_program e p, Ok tt)
  end.

Definition prepare_swap (e : Engine) (bytes : list Z) : Engine * result unit string :=
  match bincode_deserialize bytes with
  | Err msg => (e, Err ("deserialize: " +:+ msg))
  | Ok p =>
      if negb (is_well_formed p) then (e, Err "Program is not well-formed")
      else (set_swap e (Some p) (swap_committed e), Ok tt)
  end.

Definition commit_swap (e : Engine) : Engine * result unit string :=
  match pending_swap e with
  | None => (e, Err "No pending swap prepared")
  | Some _ => (set_swap e (pending_swap e) true, Ok tt)
  end.

Definition rollback_swap (e : Engine) : Engine * result unit string := (set_swap e None false, Ok tt).
Definition has_pending_swap (e : Engine) : bool := bool_decide (is_Some (pending_swap e)).

Definition register_signal (e : Engine) (d : SignalDef) : Engine * result unit string :=
  let '(rg, res) := register (e_signals e) d in (set_signals e rg, res).

Definition signal_snapshot (e : Engine) : list (string * HalValue) :=
  map (fun s => (sn_name s, sn_value s)) (list_snapshots (e_signals e)).

(** ** HMI layout *)
(** [None] is the overflow of [fetch_add(1) + 1] in a checked build. *)
Definition deploy_hmi_layout (e : Engine) (yaml_bytes : list Z) : option (Engine * result Z string) :=
  match from_utf8 yaml_bytes with
  | None => Some (e, Err ("invalid UTF-8: " +:+ utf8_error_text yaml_bytes))
  | Some s =>
      match yaml_parse s with
      | Err msg => Some (e, Err ("invalid YAML: " +:+ msg))
      | Ok _ =>
          g ← arith false 64 (hmi_layout_generation e + 1);
          Some (set_hmi e (Some (yaml_bytes, g)) (fetch_add (hmi_layout_generation e)) (hmi_layout e), Ok g)
      end
  end.
Definition get_hmi_layout (e : Engine) : option (list Z * Z) := hmi_layout e.

(** ** The cycle

    [subscriptions] are the push targets of the IPC server: sessions by
    signal name. *)
Record CycleEnv := mkEnv {
  calls : nat → HalValue;
  layout_written : bool;
  os : nat → Wait * Spawn;
  now : Z;
  elapsed_us : Z;
  cycle_interval_ms : Z;
  subscriptions : option (gmap string (list Z));
  vm_fuel : nat }.

(** What a cycle sends out: the callbacks of the middleware, and the push
    frames. *)
Record Outputs := mkOutputs {
  callbacks_run : list Delivery;
  pushed : list (Z * string * HalValue) }.

Definition now_ts : Timestamp := mkTs 0 0.

(** 1. Config barrier. *)
Definition config_barrier (e : Engine) : Engine := (apply_config_now e).1.

(** 1.5 Hot swap. *)
Definition swap_barrier (e : Engine) : Engine :=
  if swap_committed e then
    match pending_swap e with
    | Some p => set_swap (install_program e p) None false
    | None => set_swap e None false
    end
  else e.

(** 1.6 HMI layout: the pending layout is dropped if it cannot be written. *)
Definition hmi_barrier (env : CycleEnv) (e : Engine) : Engine :=
  match pending_hmi_layout e with
  | Some (bytes, g) =>
      set_hmi e None (hmi_layout_generation e) (if layout_written env then Some (bytes, g) else hmi_layout e)
  | None => e
  end.

(** 2. Read barrier. *)
Fixpoint read_all (mw : M) (rg : SignalRegistry) (snaps : list SignalSnapshot) : M * SignalRegistry :=
  match snaps with
  | [] => (mw, rg)
  | s :: snaps =>
      let '(mw, v) := read_signal mw (sn_name s) in
      let rg := match v with Some (v, _) => (update_value rg (sn_name s) v).1 | None => rg end in
      read_all mw rg snaps
  end.
Definition read_barrier (e : Engine) : Engine :=
  let '(mw, rg) := read_all (middleware e) (e_signals e) (snapshots_by_strategy (e_signals e) FMonitored) in
  set_signals (set_middleware e mw) rg.

(** 3. Compute phase.  The guard of [signals.read()] in the condition of the
    [if let] lives to the end of its body, where the same thread asks for
    [signals.write()]: a closure that yields a value blocks the thread for ever
    ([None]). *)
Fixpoint compute_all (calls : nat → HalValue) (rg : SignalRegistry) (names : list string) : option SignalRegistry :=
  match names with
  | [] => Some rg
  | n :: names =>
      match compute_signal calls rg n with
      | Ok _ => None
      | Err _ => compute_all calls rg names
      end
  end.
Definition compute_phase (env : CycleEnv) (e : Engine) : option Engine :=
  rg ← compute_all (calls env) (e_signals e) (computed_signal_names (e_signals e)); Some (set_signals e rg).

(** 3.5 Program execution. *)
Definition sync_in (rg : SignalRegistry) (m : Vm) : Vm :=
  fold_left (fun m s => write_signal m (sn_name s) (sn_value s)) (list_snapshots rg) m.

Definition sync_out (m : Vm) (rg : SignalRegistry) : SignalRegistry :=
  fold_left (fun rg n =>
    match Vm.read_signal m n with Some v => (update_value rg n v).1 | None => rg end)
    (signal_names m) rg.

Definition scan_input (env : CycleEnv) (rg : SignalRegistry) (x : Executor) : Executor :=
  let x := executor_reset x in
  with_vm x (sync_in rg (set_cycle_time (vm x) (cycle_interval_ms env))).

(** [CycleBlocked]: the thread waits for its own lock. *)
Inductive CycleResult :=
  | CycleDone (e : Engine) (o : Outputs)
  | CycleBlocked
  | CyclePanicked
  | CycleOutOfFuel.

(** [None] is the program panicking, [Some None] a program that does not
    reach a halt within the fuel. *)
Definition execute_phase (env : CycleEnv) (e : Engine) : option (option Engine) :=
  match hal_executor e with
  | None => Some (Some e)
  | Some x =>
      match run_to_halt (vm_fuel env) (scan_input env (e_signals e) x) with
      | Panicked => None
      | OutOfFuel => Some None
      | Done x' _ =>
          Some (Some (set_program (set_signals e (sync_out (vm x') (e_signals e)))
                        (hal_program e) (Some (executor_reset x'))))
      end
  end.

(** 4. Write barrier. *)
Fixpoint publish_own (mw : M) (mt : RuntimeMetrics) (snaps : list SignalSnapshot)
  : M * RuntimeMetrics * list Delivery :=
  match snaps with
  | [] => (mw, mt, [])
  | s :: snaps =>
      let '(mw, ds) := publish_signal mw (sn_name s) (sn_value s) now_ts in
      let '(mw, mt, ds') := publish_own mw (record_signal_published mt) snaps in
      (mw, mt, ds ++ ds')
  end.
Definition write_barrier (e : Engine) : Engine * list Delivery :=
  let '(mw, mt, ds) :=
    publish_own (middleware e) (e_metrics e) (snapshots_by_strategy (e_signals e) FOwn) in
  (set_stats (set_middleware e mw) (fetch_add (cycle_count e)) (record_cycle mt) (lifecycle e), ds).

(** 4.5 Push to IPC subscribers. *)
Definition push_phase (env : CycleEnv) (e : Engine) : list (Z * string * HalValue) :=
  match subscriptions env with
  | None => []
  | Some subs =>
      flat_map (fun '(n, sessions) =>
        match e_signals e !! n with
        | Some d => map (fun sid => (sid, n, sd_value d)) sessions
        | None => []
        end) (map_to_list subs)
  end.

(** Supervision: one restart is recorded for every entry of the report. *)
Definition supervise (env : CycleEnv) (e : Engine) : Engine :=
  let mt := record_cycle_jitter (e_metrics e) (elapsed_us env) in
  let '(lc, dead) := health_check (lifecycle e) (now env) (os env) in
  let mt := fold_left (fun mt _ => record_child_restart mt) dead mt in
  let mt := match dead with [] => mt | _ => record_health_failure mt end in
  set_stats e (cycle_count e) mt lc.

(** Phases 1 and 2, which cannot fail. *)
Definition prologue (env : CycleEnv) (e : Engine) : Engine :=
  read_barrier (hmi_barrier env (swap_barrier (config_barrier e))).

Definition cycle (env : CycleEnv) (e : Engine) : CycleResult :=
  match compute_phase env (prologue env e) with
  | None => CycleBlocked
  | Some e =>
      match execute_phase env e with
      | None => CyclePanicked
      | Some None => CycleOutOfFuel
      | Some (Some e) =>
          let '(e, ds) := write_barrier e in
          let ps := push_phase env e in
          CycleDone (supervise env e) (mkOutputs ds ps)
      end
  end.

(** ** The engine thread

    One turn of the loop of [start_with_cycle]. *)
Inductive LoopResult := LoopStop | LoopWait | LoopCycle (c : CycleResult).
Definition loop_turn (env : CycleEnv) (e : Engine) : LoopResult :=
  if negb (running e) then LoopStop
  else if paused e && negb (step_requested e) then LoopWait
  else LoopCycle (cycle env (set_run e (running e) (paused e) false)).

(** ** Lemmas: sequences of updates *)

(** Every name of the list gets the value [g] gives it, if any. *)
Definition update_names (g : string → option HalValue) (rg : SignalRegistry) (names : list string)
  : SignalRegistry :=
  fold_left (fun rg n => match g n with Some v => (update_value rg n v).1 | None => rg end) names rg.

Lemma update_names_lookup g rg names n :
  update_names g rg names !! n =
  match g n with
  | Some v => if bool_decide (n ∈ names) then (fun d => set_value d v) <$> rg !! n else rg !! n
  | None => rg !! n
  end.
Proof.
  revert rg. induction names as [|m names IH]; intros rg; cbn [update_names fold_left].
  - rewrite bool_decide_false by apply not_elem_of_nil. by destruct (g n).
  - change (fold_left _ names ?x) with (update_names g x names). rewrite IH.
    destruct (decide (n = m)) as [->|Hne].
    + destruct (g m) as [v|]; [|done]. rewrite (bool_decide_true (m ∈ m :: names)) by left.
      rewrite update_value_lookup, String.eqb_refl.
      by destruct (bool_decide (m ∈ names)), (rg !! m).
    + assert (((match g m with Some v => (update_value rg m v).1 | None => rg end) : SignalRegistry) !! n
              = rg !! n) as ->.
      { destruct (g m); [|done]. rewrite update_value_lookup.
        by rewrite (proj2 (String.eqb_neq m n)) by congruence. }
      destruct (g n); [|done].
      rewrite (bool_decide_ext (n ∈ m :: names) (n ∈ names)); [done|]. set_solver.
Qed.

Lemma update_names_wf g rg names : registry_wf rg → registry_wf (update_names g rg names).
Proof.
  revert rg. induction names as [|m names IH]; intros rg Hr; [done|]. cbn.
  apply IH. destruct (g m); [by apply update_value_wf | done].
Qed.

Lemma elem_of_snapshot_names rg f n :
  registry_wf rg →
  n ∈ map sn_name (snapshots_by_strategy rg f) ↔
  ∃ d, rg !! n = Some d ∧ filter_matches f d = true.
Proof.
  intros Hr. change (map sn_name) with (fmap (M := list) sn_name). rewrite list_elem_of_fmap. split.
  - intros (s & -> & Hs). apply elem_of_snapshots in Hs as (d & Hd & Hm & ->); [|done]. by exists d.
  - intros (d & Hd & Hm). exists (snapshot_of d). cbn. pose proof (Hr _ _ Hd) as Hn. cbn in Hn.
    split; [done|]. apply elem_of_snapshots; [done|]. exists d. cbn. by rewrite Hn.
Qed.

(** A fold of insertions all of whose entries agree with [f]. *)
Lemma fold_write_signal f snaps m n :
  (∀ s, s ∈ snaps → f (sn_name s) = Some (sn_value s)) →
  Vm.signals (fold_left (fun m s => write_signal m (sn_name s) (sn_value s)) snaps m) !! n =
  if bool_decide (n ∈ map sn_name snaps) then f n else Vm.signals m !! n.
Proof.
  revert m. induction snaps as [|s snaps IH]; intros m Hf; cbn [fold_left map].
  - rewrite bool_decide_false by apply not_elem_of_nil. done.
  - rewrite IH by (intros; apply Hf; by right).
    destruct (decide (n = sn_name s)) as [->|Hne].
    + rewrite (bool_decide_true (_ ∈ sn_name s :: _)) by left.
      destruct (bool_decide _); [done|]. cbn. rewrite lookup_insert_eq. symmetry. apply Hf. left.
    + cbn [write_signal with_signals Vm.signals]. rewrite lookup_insert_ne by done.
      rewrite (bool_decide_ext (n ∈ sn_name s :: map sn_name snaps) (n ∈ map sn_name snaps)); [done|].
      set_solver.
Qed.

Lemma snapshots_agree rg f s :
  registry_wf rg → s ∈ snapshots_by_strategy rg f → (sd_value <$> rg !! sn_name s) = Some (sn_value s).
Proof. intros Hr Hs. apply elem_of_snapshots in Hs as (d & Hd & _ & ->); [|done]. by rewrite Hd. Qed.

Lemma sync_in_lookup rg m n :
  registry_wf rg →
  Vm.signals (sync_in rg m) !! n =
  match rg !! n with Some d => Some (sd_value d) | None => Vm.signals m !! n end.
Proof.
  intros Hr. unfold sync_in. rewrite (fold_write_signal (fun n => sd_value <$> rg !! n)).
  - destruct (rg !! n) as [d|] eqn:E; cbn.
    + rewrite bool_decide_true; [done|]. apply elem_of_snapshot_names; [done|]. by exists d.
    + rewrite bool_decide_false; [done|]. intros Hn.
      apply elem_of_snapshot_names in Hn as (d & Hd & _); [congruence|done].
  - intros s Hs. by apply (snapshots_agree rg FAll).
Qed.

Lemma signal_names_spec m n : n ∈ signal_names m ↔ is_Some (Vm.signals m !! n).
Proof.
  unfold signal_names. rewrite list_elem_of_fmap. split.
  - intros ([k v] & -> & Hin). apply elem_of_map_to_list in Hin. by exists v.
  - intros [v Hv]. exists (n, v). split; [done|]. by apply elem_of_map_to_list.
Qed.

Lemma sync_out_lookup m rg n :
  sync_out m rg !! n =
  match Vm.signals m !! n with Some v => (fun d => set_value d v) <$> rg !! n | None => rg !! n end.
Proof.
  unfold sync_out. change (fold_left _ _ _) with (update_names (Vm.read_signal m) rg (signal_names m)).
  rewrite update_names_lookup. unfold Vm.read_signal. destruct (Vm.signals m !! n) eqn:E; [|done].
  rewrite bool_decide_true; [done|]. apply signal_names_spec. by rewrite E.
Qed.

(** ** Lemmas: the middleware side *)
Context {HL : AmwMiddlewareLaws M}.

Lemma queue_all_frame mw cs n :
  (read_signal (queue_all mw cs).1 n).2 = (read_signal mw n).2.
Proof.
  revert mw. induction cs as [|c cs IH]; intros mw; [done|]. cbn.
  destruct (amw_queue_config mw c) as [mw' st] eqn:E. specialize (IH mw').
  destruct (queue_all mw' cs) as [mw'' sts]. cbn in *. rewrite IH.
  by rewrite <- (amw_queue_frame mw c n), E.
Qed.

Lemma read_all_spec mw rg snaps :
  (read_all mw rg snaps).2 =
    update_names (fun n => fst <$> (read_signal mw n).2) rg (map sn_name snaps) ∧
  ∀ n, (read_signal (read_all mw rg snaps).1 n).2 = (read_signal mw n).2.
Proof.
  revert mw rg. induction snaps as [|s snaps IH]; intros mw rg; [done|]. cbn [read_all map].
  destruct (read_signal mw (sn_name s)) as [mw' v] eqn:E.
  assert (∀ n, (read_signal mw' n).2 = (read_signal mw n).2) as Hsame.
  { intros n. by rewrite <- (read_read mw (sn_name s) n), E. }
  destruct (IH mw' (match v with Some (v, _) => (update_value rg (sn_name s) v).1 | None => rg end)) as [IH1 IH2].
  split.
  - rewrite IH1. unfold update_names. cbn [fold_left]. rewrite E. cbn [snd].
    assert (∀ a b, a = b →
      fold_left (fun rg n => match fst <$> (read_signal mw' n).2 with Some v => (update_value rg n v).1 | None => rg end)
        (map sn_name snaps) a =
      fold_left (fun rg n => match fst <$> (read_signal mw n).2 with Some v => (update_value rg n v).1 | None => rg end)
        (map sn_name snaps) b) as Hfold.
    { clear IH IH1 IH2. induction (map sn_name snaps) as [|n l IHl]; intros a b ->; [done|]. cbn.
      rewrite Hsame. by apply IHl. }
    apply Hfold. by destruct v as [[??]|].
  - intros n. by rewrite IH2.
Qed.

Lemma publish_own_spec f snaps mw mt n :
  (∀ s, s ∈ snaps → f (sn_name s) = Some (sn_value s)) →
  (read_signal (publish_own mw mt snaps).1.1 n).2 =
  if bool_decide (n ∈ map sn_name snaps) then (fun v => (v, now_ts)) <$> f n else (read_signal mw n).2.
Proof.
  revert mw mt. induction snaps as [|s snaps IH]; intros mw mt Hf; cbn [publish_own map].
  - rewrite bool_decide_false by apply not_elem_of_nil. done.
  - destruct (publish_signal mw (sn_name s) (sn_value s) now_ts) as [mw' ds] eqn:E.
    specialize (IH mw' (record_signal_published mt)).
    destruct (publish_own mw' _ snaps) as [[mw'' mt'] ds']. cbn [fst] in *.
    rewrite IH by (intros; apply Hf; by right).
    replace mw' with (publish_signal mw (sn_name s) (sn_value s) now_ts).1 by (by rewrite E).
    destruct (decide (n = sn_name s)) as [->|Hne].
    + rewrite (bool_decide_true (_ ∈ sn_name s :: _)) by left.
      destruct (bool_decide _); [done|]. rewrite read_publish_same, Hf by left. done.
    + rewrite read_publish_other by congruence.
      rewrite (bool_decide_ext (n ∈ sn_name s :: map sn_name snaps) (n ∈ map sn_name snaps)); [done|].
      set_solver.
Qed.

(** ** Lemmas: the phases *)
Lemma register_bindings_wf rg bs : registry_wf rg → registry_wf (register_bindings rg bs).
Proof.
  revert rg. induction bs as [|b bs IH]; intros rg Hr; [done|]. cbn. apply IH.
  destruct (writes_signal b); [by apply register_wf | done].
Qed.

Lemma computed_names_eq rg :
  computed_signal_names rg = map sn_name (snapshots_by_strategy rg FComputed).
Proof.
  unfold computed_signal_names, snapshots_by_strategy. by rewrite map_map.
Qed.

(** A registry with a computed signal. *)
Definition has_computed (rg : SignalRegistry) : Prop :=
  ∃ n d f, rg !! n = Some d ∧ sd_strategy d = SComputed f.

Lemma no_computed rg :
  map_Forall (fun _ d => match sd_strategy d with SComputed _ => false | _ => true end = true) rg → ¬ has_computed rg.
Proof. intros Hall (n & d & f & Hd & Hf). specialize (Hall n d Hd). cbn in Hall. by rewrite Hf in Hall. Qed.

Lemma compute_phase_spec env e :
  registry_wf (e_signals e) →
  (has_computed (e_signals e) ∧ compute_phase env e = None) ∨
  (¬ has_computed (e_signals e) ∧ compute_phase env e = Some e).
Proof.
  intros Hr. unfold compute_phase. rewrite computed_names_eq.
  destruct (map sn_name (snapshots_by_strategy (e_signals e) FComputed)) as [|n names] eqn:E.
  - right. split; [|by destruct e]. intros (n & d & f & Hd & Hs).
    assert (n ∈ map sn_name (snapshots_by_strategy (e_signals e) FComputed)) as Hn.
    { apply elem_of_snapshot_names; [done|]. exists d. split; [done|]. unfold filter_matches. by rewrite Hs. }
    rewrite E in Hn. by apply not_elem_of_nil in Hn.
  - left. assert (n ∈ map sn_name (snapshots_by_strategy (e_signals e) FComputed)) as Hn by (rewrite E; left).
    apply elem_of_snapshot_names in Hn as (d & Hd & Hf); [|done]. unfold filter_matches in Hf.
    destruct (sd_strategy d) as [| |f] eqn:Es; try done. split; [by exists n, d, f|].
    cbn [compute_all]. unfold compute_signal. by rewrite Hd, Es.
Qed.

Lemma read_barrier_lookup e n :
  registry_wf (e_signals e) →
  e_signals (read_barrier e) !! n =
  match e_signals e !! n, (read_signal (middleware e) n).2 with
  | Some d, Some (v, _) => Some (match sd_strategy d with SMonitored => set_value d v | _ => d end)
  | x, _ => x
  end.
Proof.
  intros Hr. unfold read_barrier.
  pose proof (read_all_spec (middleware e) (e_signals e) (snapshots_by_strategy (e_signals e) FMonitored)) as [H1 _].
  destruct (read_all _ _ _) as [mw rg]. cbn in *. subst rg. rewrite update_names_lookup.
  destruct (read_signal (middleware e) n).2 as [[v ts]|]; cbn; [|by destruct (e_signals e !! n)].
  destruct (bool_decide_reflect (n ∈ map sn_name (snapshots_by_strategy (e_signals e) FMonitored))) as [Hn|Hn].
  - apply elem_of_snapshot_names in Hn as (d & Hd & Hf); [|done]. rewrite Hd. cbn.
    unfold filter_matches in Hf. by destruct (sd_strategy d).
  - destruct (e_signals e !! n) as [d|] eqn:E; [|done]. destruct (sd_strategy d) eqn:Es; try done.
    destruct Hn. apply elem_of_snapshot_names; [done|]. exists d. split; [done|].
    unfold filter_matches. by rewrite Es.
Qed.

Lemma read_barrier_frame e n :
  (read_signal (middleware (read_barrier e)) n).2 = (read_signal (middleware e) n).2.
Proof.
  unfold read_barrier.
  pose proof (read_all_spec (middleware e) (e_signals e) (snapshots_by_strategy (e_signals e) FMonitored)) as [_ H2].
  destruct (read_all _ _ _) as [mw rg]. apply H2.
Qed.

Lemma config_barrier_frame e n :
  e_signals (config_barrier e) = e_signals e ∧
  (read_signal (middleware (config_barrier e)) n).2 = (read_signal (middleware e) n).2.
Proof.
  unfold config_barrier, apply_config_now. destruct (e_config_queue e) as [|c q]; [done|].
  pose proof (queue_all_frame (middleware e) (c :: q) n) as Hq.
  destruct (queue_all (middleware e) (c :: q)) as [mw sts]. split; [done|]. cbn [fst set_config middleware].
  by rewrite amw_apply_frame.
Qed.

Lemma swap_barrier_frame e :
  middleware (swap_barrier e) = middleware e ∧
  (registry_wf (e_signals e) → registry_wf (e_signals (swap_barrier e))).
Proof.
  unfold swap_barrier. destruct (swap_committed e); [|done]. destruct (pending_swap e); [|done].
  split; [done|]. cbn. apply register_bindings_wf.
Qed.

Lemma hmi_barrier_frame env e :
  middleware (hmi_barrier env e) = middleware e ∧ e_signals (hmi_barrier env e) = e_signals e ∧
  hal_executor (hmi_barrier env e) = hal_executor e ∧ hal_program (hmi_barrier env e) = hal_program e.
Proof. unfold hmi_barrier. by destruct (pending_hmi_layout e) as [[??]|]. Qed.

(** The engine after the config barrier. *)
Definition configured (e : Engine) : Engine := swap_barrier (config_barrier e).

(** The value a registered signal has after the read barrier: fresh from the
    middleware, or what it was. *)
Definition input_value (mw : M) (n : string) (d : SignalDef) : HalValue :=
  match sd_strategy d with
  | SMonitored => match (read_signal mw n).2 with Some (v, _) => v | None => sd_value d end
  | SOwn | SComputed _ => sd_value d
  end.

Lemma configured_frame e n :
  registry_wf (e_signals e) →
  registry_wf (e_signals (configured e)) ∧
  (read_signal (middleware (configured e)) n).2 = (read_signal (middleware e) n).2.
Proof.
  intros Hr. unfold configured. destruct (swap_barrier_frame (config_barrier e)) as [-> Hw].
  destruct (config_barrier_frame e n) as [Hs ->]. split; [|done]. apply Hw. by rewrite Hs.
Qed.

Lemma read_barrier_wf e : registry_wf (e_signals e) → registry_wf (e_signals (read_barrier e)).
Proof.
  intros Hr. unfold read_barrier.
  pose proof (read_all_spec (middleware e) (e_signals e) (snapshots_by_strategy (e_signals e) FMonitored)) as [H1 _].
  destruct (read_all _ _ _) as [mw rg]. cbn in *. subst rg. by apply update_names_wf.
Qed.

Lemma prologue_signals env e n :
  registry_wf (e_signals e) →
  e_signals (prologue env e) !! n =
  (fun d => set_value d (input_value (middleware e) n d)) <$> e_signals (configured e) !! n.
Proof.
  intros Hr. destruct (configured_frame e n Hr) as [Hc Hm]. unfold prologue.
  change (swap_barrier (config_barrier e)) with (configured e).
  destruct (hmi_barrier_frame env (configured e)) as (Hmw & Hsig & _ & _).
  set (e1 := hmi_barrier env (configured e)) in *. rewrite <- Hsig in *. clear Hsig.
  rewrite read_barrier_lookup by done. rewrite Hmw, Hm.
  destruct (e_signals e1 !! n) as [d|]; [|by destruct (read_signal _ n).2 as [[]|]].
  unfold input_value. cbn.
  destruct d as [nm ty v []], (read_signal (middleware e) n).2 as [[]|]; done.
Qed.

Lemma prologue_wf env e : registry_wf (e_signals e) → registry_wf (e_signals (prologue env e)).
Proof.
  intros Hr. apply read_barrier_wf.
  destruct (hmi_barrier_frame env (configured e)) as (_ & Hs & _ & _). unfold configured in Hs. rewrite Hs.
  by apply (configured_frame e "").
Qed.

Lemma prologue_read env e n :
  registry_wf (e_signals e) →
  (read_signal (middleware (prologue env e)) n).2 = (read_signal (middleware e) n).2.
Proof.
  intros Hr. change (middleware (prologue env e)) with
    (middleware (read_barrier (hmi_barrier env (configured e)))). rewrite read_barrier_frame.
  destruct (hmi_barrier_frame env (configured e)) as (-> & _). by apply configured_frame.
Qed.

(** The strategies of the signals are settled once the configuration is. *)
Lemma prologue_computed env e :
  registry_wf (e_signals e) → has_computed (e_signals (prologue env e)) ↔ has_computed (e_signals (configured e)).
Proof.
  intros Hr. unfold has_computed. split; intros (n & d & f & Hd & Hs).
  - rewrite prologue_signals in Hd by done. apply fmap_Some in Hd as (d' & Hd & ->). by exists n, d', f.
  - exists n, (set_value d (input_value (middleware e) n d)), f. rewrite prologue_signals, Hd by done. done.
Qed.

(** [C11] What the program sees: at the start of execution every registered
    signal holds its input value (the middleware's latest value if it is
    monitored and published, its last value otherwise), and the machine's signal
    table is exactly the registry, whatever earlier cycles left in it, with the
    registers cleared and the timers kept.  No execution starts once a computed
    signal is registered: the compute phase, which would give it its closure's
    value, blocks the thread for ever, whatever value that is and whether or not a
    program is loaded. *)
Theorem cycle_inputs env e :
  registry_wf (e_signals e) →
  (has_computed (e_signals (configured e)) → compute_phase env (prologue env e) = None ∧ cycle env e = CycleBlocked) ∧
  (¬ has_computed (e_signals (configured e)) → ∃ e1, compute_phase env (prologue env e) = Some e1 ∧
     ∀ n x,
     e_signals e1 !! n = (fun d => set_value d (input_value (middleware e) n d)) <$> e_signals (configured e) !! n ∧
     Vm.signals (vm (scan_input env (e_signals e1) x)) !! n = sd_value <$> e_signals e1 !! n ∧
     registers (vm (scan_input env (e_signals e1) x)) = replicate (length (registers (vm x))) (VS32 0) ∧
     timers (vm (scan_input env (e_signals e1) x)) = timers (vm x)).
Proof.
  intros Hr. rewrite <- (prologue_computed env e Hr).
  destruct (compute_phase_spec env (prologue env e)) as [[Hc Hp]|[Hc Hp]]; [by apply prologue_wf|..]; split; try done.
  - intros _. unfold cycle. by rewrite Hp.
  - intros _. exists (prologue env e). split; [exact Hp|]. intros n x. split; [by apply prologue_signals|].
    assert (∀ rg m, registers (sync_in rg m) = registers m ∧ timers (sync_in rg m) = timers m) as Hfr.
    { intros rg m. unfold sync_in. generalize (list_snapshots rg). intros l. revert m.
      induction l as [|s l IH]; intros m; [done|]. cbn. by destruct (IH (write_signal m (sn_name s) (sn_value s))). }
    unfold scan_input. cbn [with_vm vm]. rewrite sync_in_lookup by (by apply prologue_wf).
    destruct (Hfr (e_signals (prologue env e))
       (set_cycle_time (vm (executor_reset x)) (cycle_interval_ms env))) as [-> ->].
    split_and!; [|done..]. destruct (e_signals (prologue env e) !! n); [done|]. cbn. apply lookup_empty.
Qed.

(** ** Outputs *)

(** The value of a registered signal after the program ran. *)
Definition output_value (env : CycleEnv) (e : Engine) (n : string) (d : SignalDef) (v : HalValue) : Prop :=
  match hal_executor e with
  | None => v = sd_value d
  | Some x => ∃ x' k, run_to_halt (vm_fuel env) (scan_input env (e_signals e) x) = Done x' k ∧
                      Vm.signals (vm x') !! n = Some v
  end.

Lemma execute_phase_spec env e e' n :
  registry_wf (e_signals e) → execute_phase env e = Some (Some e') →
  middleware e' = middleware e ∧
  match e_signals e !! n with
  | Some d => ∃ v, e_signals e' !! n = Some (set_value d v) ∧ output_value env e n d v
  | None => e_signals e' !! n = None
  end.
Proof.
  intros Hr. unfold execute_phase, output_value. destruct (hal_executor e) as [x|].
  2:{ intros [= <-]. split; [done|]. destruct (e_signals e !! n) as [d|] eqn:E; [|done].
      exists (sd_value d). split; [|done]. by destruct d. }
  destruct (run_to_halt _ _) as [x' k| |] eqn:Hrun; intros Hd; simplify_eq. split; [done|].
  cbn [set_program set_signals e_signals]. rewrite sync_out_lookup.
  destruct (e_signals e !! n) as [d|] eqn:E; [|by destruct (Vm.signals (vm x') !! n)].
  destruct (run_loop_keeps _ _ _ _ _ Hrun) as [_ Hk]. destruct (Hk n) as [v Hv].
  { unfold scan_input. cbn [with_vm vm]. rewrite sync_in_lookup, E by done. by eexists. }
  rewrite Hv. exists v. split; [done|]. by exists x', k.
Qed.

Lemma execute_phase_wf env e e' :
  registry_wf (e_signals e) → execute_phase env e = Some (Some e') → registry_wf (e_signals e').
Proof.
  intros Hr. unfold execute_phase. destruct (hal_executor e) as [x|]; [|by intros [= <-]].
  destruct (run_to_halt _ _) as [x' k| |]; intros Hd; simplify_eq.
  by apply (update_names_wf (Vm.read_signal (vm x'))).
Qed.

Lemma write_barrier_spec e n :
  registry_wf (e_signals e) →
  e_signals (write_barrier e).1 = e_signals e ∧
  (read_signal (middleware (write_barrier e).1) n).2 =
  match e_signals e !! n with
  | Some d => match sd_strategy d with SOwn => Some (sd_value d, now_ts) | _ => (read_signal (middleware e) n).2 end
  | None => (read_signal (middleware e) n).2
  end.
Proof.
  intros Hr. unfold write_barrier.
  pose proof (publish_own_spec (fun n => sd_value <$> e_signals e !! n)
    (snapshots_by_strategy (e_signals e) FOwn) (middleware e) (e_metrics e) n) as Hp.
  destruct (publish_own _ _ _) as [[mw mt] ds]. cbn [fst set_stats set_middleware middleware e_signals] in *.
  split; [done|]. rewrite Hp by (intros; by apply (snapshots_agree (e_signals e) FOwn)).
  destruct (bool_decide_reflect (n ∈ map sn_name (snapshots_by_strategy (e_signals e) FOwn))) as [Hn|Hn].
  - apply elem_of_snapshot_names in Hn as (d & Hd & Hf); [|done]. rewrite Hd. cbn.
    unfold filter_matches in Hf. by destruct (sd_strategy d).
  - destruct (e_signals e !! n) as [d|] eqn:E; [|done]. destruct (sd_strategy d) eqn:Es; try done.
    destruct Hn. apply elem_of_snapshot_names; [done|]. exists d. split; [done|].
    unfold filter_matches. by rewrite Es.
Qed.

(** The sessions subscribed to a name. *)
Definition subscribed (env : CycleEnv) (n : string) (sid : Z) : Prop :=
  ∃ subs l, subscriptions env = Some subs ∧ subs !! n = Some l ∧ sid ∈ l.

Lemma push_phase_spec env e sid n w :
  (sid, n, w) ∈ push_phase env e ↔
  subscribed env n sid ∧ ∃ d, e_signals e !! n = Some d ∧ w = sd_value d.
Proof.
  unfold push_phase, subscribed. destruct (subscriptions env) as [subs|].
  2: { split; [by intros ?%not_elem_of_nil | naive_solver]. }
  rewrite list_elem_of_In, in_flat_map. split.
  - intros ([m l] & Hm & Hin). destruct (e_signals e !! m) as [d|] eqn:E; [|done].
    apply in_map_iff in Hin as (sid' & [= -> -> <-] & Hsid). split; [|by exists d].
    exists subs, l. split; [done|]. by rewrite <- elem_of_map_to_list, !list_elem_of_In.
  - intros ((subs' & l & [= <-] & Hl & Hsid) & d & Hd & ->). exists (n, l).
    rewrite <- list_elem_of_In, elem_of_map_to_list. split; [done|]. rewrite Hd. apply in_map_iff.
    exists sid. by rewrite <- list_elem_of_In.
Qed.

(** A completed cycle passed the compute phase, which leaves nothing behind. *)
Lemma compute_phase_same env e e' : compute_phase env e = Some e' → e' = e.
Proof.
  unfold compute_phase. intros (rg & Hrg & [= <-])%bind_Some.
  assert (rg = e_signals e) as ->; [|by destruct e].
  induction (computed_signal_names (e_signals e)) as [|n l IH]; [by injection Hrg|].
  cbn in Hrg. destruct (compute_signal _ _ _); [done|]. by apply IH.
Qed.

Lemma cycle_inv env e e' o :
  cycle env e = CycleDone e' o →
  ∃ e1, execute_phase env (prologue env e) = Some (Some e1) ∧
    e' = supervise env (write_barrier e1).1 ∧
    o = mkOutputs (write_barrier e1).2 (push_phase env (write_barrier e1).1).
Proof.
  unfold cycle. destruct (compute_phase env (prologue env e)) as [e0|] eqn:Ec; [|done].
  apply compute_phase_same in Ec as ->.
  destruct (execute_phase _ _) as [[e1|]|]; [|done..].
  destruct (write_barrier e1) as [e2 ds] eqn:E. intros [= <- <-]. exists e1. by rewrite E.
Qed.

Lemma supervise_frame env e :
  e_signals (supervise env e) = e_signals e ∧ middleware (supervise env e) = middleware e ∧
  hal_program (supervise env e) = hal_program e ∧ hal_executor (supervise env e) = hal_executor e ∧
  pending_swap (supervise env e) = pending_swap e ∧ swap_committed (supervise env e) = swap_committed e ∧
  (running (supervise env e), paused (supervise env e), step_requested (supervise env e)) =
  (running e, paused e, step_requested e).
Proof. unfold supervise. by destruct (health_check _ _ _). Qed.

(** [C12] What a cycle puts out: if the cycle completes, every registered signal
    holds the value the program's run left in the machine's table (its input
    value if no program is loaded); an owned signal has exactly that value in
    the middleware afterwards and every other name is as it was there; and the
    pushes are exactly the registered signals somebody is subscribed to, to each
    of its sessions, with that value. *)
Theorem cycle_outputs env e e' o n :
  registry_wf (e_signals e) → cycle env e = CycleDone e' o →
  match e_signals (prologue env e) !! n with
  | Some d => ∃ v, e_signals e' !! n = Some (set_value d v) ∧ output_value env (prologue env e) n d v ∧
      (read_signal (middleware e') n).2 =
        match sd_strategy d with SOwn => Some (v, now_ts) | _ => (read_signal (middleware e) n).2 end ∧
      ∀ sid w, (sid, n, w) ∈ pushed o ↔ subscribed env n sid ∧ w = v
  | None => e_signals e' !! n = None ∧ (read_signal (middleware e') n).2 = (read_signal (middleware e) n).2 ∧
      ∀ sid w, (sid, n, w) ∉ pushed o
  end.
Proof.
  intros Hr Hcy. apply cycle_inv in Hcy as (e1 & Hex & -> & ->).
  destruct (supervise_frame env (write_barrier e1).1) as (-> & -> & _).
  assert (registry_wf (e_signals e1)) as Hr1 by (eapply execute_phase_wf; [|done]; by apply prologue_wf).
  destruct (write_barrier_spec e1 n Hr1) as [Hs Hm]. rewrite Hs, Hm.
  destruct (execute_phase_spec env (prologue env e) e1 n (prologue_wf env e Hr) Hex) as [Hmw Hv].
  rewrite Hmw, prologue_read by done.
  destruct (e_signals (prologue env e) !! n) as [d|].
  - destruct Hv as (v & Hv & Hout). exists v. rewrite Hv. split_and!; [done..|]. intros sid w. cbn [pushed].
    rewrite push_phase_spec, Hs, Hv. split; [|intros [? ->]; eauto]. intros (Hsub & d' & [= <-] & ->). done.
  - rewrite Hv. split_and!; [done..|]. intros sid w. cbn [pushed].
    rewrite push_phase_spec, Hs, Hv. naive_solver.
Qed.

(** ** Hot swap *)

(** What the swap protocol is about: the loaded program, the executor's, the
    pending one and the commit flag. *)
Definition swap_view (e : Engine) : option HalProgram * option HalProgram * option HalProgram * bool :=
  (hal_program e, program <$> hal_executor e, pending_swap e, swap_committed e).

Lemma config_barrier_view e : swap_view (config_barrier e) = swap_view e.
Proof.
  unfold config_barrier, apply_config_now. destruct (e_config_queue e); [done|].
  by destruct (queue_all _ _).
Qed.

Lemma read_barrier_view e : swap_view (read_barrier e) = swap_view e.
Proof. unfold read_barrier. by destruct (read_all _ _ _). Qed.

Lemma hmi_barrier_view env e : swap_view (hmi_barrier env e) = swap_view e.
Proof. unfold hmi_barrier. by destruct (pending_hmi_layout e) as [[??]|]. Qed.

Lemma execute_phase_view env e e' :
  execute_phase env e = Some (Some e') → swap_view e' = swap_view e.
Proof.
  unfold execute_phase. destruct (hal_executor e) as [x|] eqn:E; [|by intros [= <-]].
  destruct (run_to_halt _ _) as [x' k| |] eqn:Hr; intros Hd; simplify_eq.
  apply run_loop_keeps in Hr as [Hp _]. unfold swap_view. cbn. by rewrite E, Hp.
Qed.

Lemma write_barrier_view e : swap_view (write_barrier e).1 = swap_view e.
Proof. unfold write_barrier. by destruct (publish_own _ _ _) as [[??]?]. Qed.

Lemma supervise_view env e : swap_view (supervise env e) = swap_view e.
Proof. destruct (supervise_frame env e) as (_ & _ & H1 & H2 & H3 & H4 & _). unfold swap_view. congruence. Qed.

Lemma prologue_view env e : swap_view (prologue env e) = swap_view (swap_barrier (config_barrier e)).
Proof.
  unfold prologue. by rewrite read_barrier_view, hmi_barrier_view.
Qed.

(** The swap state after a cycle. *)
Lemma cycle_view env e e' o :
  cycle env e = CycleDone e' o →
  swap_view e' =
  match swap_committed e, pending_swap e with
  | true, Some p => (Some p, Some p, None, false)
  | true, None => (hal_program e, program <$> hal_executor e, None, false)
  | false, _ => swap_view e
  end.
Proof.
  intros Hc. apply cycle_inv in Hc as (e1 & Hex & -> & _).
  rewrite supervise_view, write_barrier_view, (execute_phase_view _ _ _ Hex), prologue_view.
  pose proof (config_barrier_view e) as Hv. unfold swap_barrier, swap_view in *.
  injection Hv as H1 H2 H3 H4. rewrite H4. destruct (swap_committed e).
  - rewrite H3. destruct (pending_swap e); cbn; congruence.
  - congruence.
Qed.

(** [C10] Hot swap: preparing a well-formed program changes nothing that runs;
    an uncommitted program stays pending across cycles; a commit makes the
    next completed cycle run it, from a fresh executor, and clears the
    protocol state; a rollback keeps the old program.  The commit flag is not
    tied to the program it was given for: a program prepared after a commit
    is swapped in without a commit of its own. *)
Theorem hot_swap env e bytes p e' o :
  bincode_deserialize bytes = Ok p → is_well_formed p = true →
  let prep := (prepare_swap e bytes).1 in
  (hal_program prep = hal_program e ∧ hal_executor prep = hal_executor e ∧ e_signals prep = e_signals e) ∧
  (swap_committed e = false → cycle env prep = CycleDone e' o →
     hal_program e' = hal_program e ∧ pending_swap e' = Some p) ∧
  (cycle env (commit_swap prep).1 = CycleDone e' o →
     hal_program e' = Some p ∧ program <$> hal_executor e' = Some p ∧
     pending_swap e' = None ∧ swap_committed e' = false) ∧
  (cycle env (rollback_swap prep).1 = CycleDone e' o → hal_program e' = hal_program e) ∧
  (swap_committed e = true → cycle env prep = CycleDone e' o → hal_program e' = Some p).
Proof.
  intros Hb Hp. cbn zeta. unfold prepare_swap. rewrite Hb, Hp. cbn [negb fst].
  split_and!; [done..| | | |].
  - intros Hc Hd. apply cycle_view in Hd. cbn in Hd. rewrite Hc in Hd. by injection Hd.
  - intros Hd. apply cycle_view in Hd. cbn in Hd. by injection Hd.
  - intros Hd. apply cycle_view in Hd. by injection Hd.
  - intros Hc Hd. apply cycle_view in Hd. cbn in Hd. rewrite Hc in Hd. by injection Hd.
Qed.

(** ** Invariant of the engine *)
Inductive EngineOp :=
  | OpStop | OpPause | OpResume | OpStepCycle
  | OpSetLevel (l : LockLevel) | OpQueueConfig (c : ConfigCommand) | OpApplyNow
  | OpLoad (b : list Z) | OpPrepare (b : list Z) | OpCommit | OpRollback
  | OpRegister (d : SignalDef) | OpCycle (env : CycleEnv).

(** [None]: the cycle does not complete. *)
Definition engine_op (e : Engine) (op : EngineOp) : option Engine :=
  match op with
  | OpStop => Some (stop e) | OpPause => Some (pause e) | OpResume => Some (resume e)
  | OpStepCycle => Some (step_cycle e)
  | OpSetLevel l => Some (engine_set_lock_level e l).1
  | OpQueueConfig c => Some (engine_queue_config e c).1
  | OpApplyNow => Some (apply_config_now e).1
  | OpLoad b => Some (load_hal_program e b).1
  | OpPrepare b => Some (prepare_swap e b).1
  | OpCommit => Some (commit_swap e).1
  | OpRollback => Some (rollback_swap e).1
  | OpRegister d => Some (register_signal e d).1
  | OpCycle env => match cycle env e with CycleDone e' _ => Some e' | _ => None end
  end.

Fixpoint engine_run (e : Engine) (ops : list EngineOp) : option Engine :=
  match ops with
  | [] => Some e
  | op :: ops => e' ← engine_op e op; engine_run e' ops
  end.

Definition good_program (o : option HalProgram) : Prop :=
  match o with Some p => is_well_formed p = true | None => True end.

Definition engine_ok (e : Engine) : Prop :=
  registry_wf (e_signals e) ∧
  (program <$> hal_executor e) = hal_program e ∧
  good_program (hal_program e) ∧ good_program (pending_swap e) ∧
  (swap_committed e = true → is_Some (pending_swap e)).

Lemma engine_ok_view e e' :
  registry_wf (e_signals e') → swap_view e' = swap_view e → engine_ok e → engine_ok e'.
Proof.
  intros Hr Hv (_ & H1 & H2 & H3 & H4). unfold swap_view in Hv. injection Hv as V1 V2 V3 V4.
  unfold engine_ok. rewrite V1, V2, V3, V4. done.
Qed.

Lemma cycle_wf env e e' o :
  registry_wf (e_signals e) → cycle env e = CycleDone e' o → registry_wf (e_signals e').
Proof.
  intros Hr Hc. apply cycle_inv in Hc as (e1 & Hex & -> & _).
  destruct (supervise_frame env (write_barrier e1).1) as (-> & _).
  assert (registry_wf (e_signals e1)) as Hr1 by (eapply execute_phase_wf; [|done]; by apply prologue_wf).
  by destruct (write_barrier_spec e1 "" Hr1) as [-> _].
Qed.

Lemma engine_op_ok e op e' : engine_ok e → engine_op e op = Some e' → engine_ok e'.
Proof.
  intros Hok Hop. pose proof Hok as (Hr & H1 & H2 & H3 & H4).
  destruct op as [| | | |l|c| |b|b| | |d|env]; cbn in Hop; try (injection Hop as <-; done).
  - injection Hop as <-. unfold engine_set_lock_level. by destruct (level_lt _ _).
  - injection Hop as <-. unfold engine_queue_config. by destruct (level_ge _ _).
  - injection Hop as <-. apply (engine_ok_view e); [|apply config_barrier_view|done].
    destruct (config_barrier_frame e "") as [Hs _]. unfold config_barrier in Hs. by rewrite Hs.
  - injection Hop as <-. unfold load_hal_program. destruct (bincode_deserialize b) as [p|]; [|done].
    destruct (is_well_formed p) eqn:Hp; [|done]. split_and!; cbn; auto using register_bindings_wf.
  - injection Hop as <-. unfold prepare_swap. destruct (bincode_deserialize b) as [p|]; [|done].
    destruct (is_well_formed p) eqn:Hp; [|done]. split_and!; cbn; auto.
  - injection Hop as <-. unfold commit_swap. destruct (pending_swap e) as [p|] eqn:E; [|done].
    split_and!; cbn; rewrite ?E; auto.
  - injection Hop as <-. unfold register_signal.
    pose proof (register_wf (e_signals e) d Hr) as Hw. by destruct (register (e_signals e) d).
  - destruct (cycle env e) as [e1 o| | |] eqn:Hc; simplify_eq. split; [by eapply cycle_wf|].
    apply cycle_view in Hc. unfold swap_view in Hc.
    destruct (swap_committed e) eqn:Ec, (pending_swap e) as [p|] eqn:Ep; injection Hc as V1 V2 V3 V4;
      rewrite V1, V2, V3, V4; split_and!; done.
Qed.

(** [C9] Engine invariant: along any API calls and completed cycles the
    registry is well formed, the executor always runs the loaded program, the
    loaded and the pending program are well formed, and a committed swap has
    a program to swap in. *)
Theorem engine_invariant mw lc ops e :
  engine_run (engine_new mw lc) ops = Some e → engine_ok e.
Proof.
  assert (engine_ok (engine_new mw lc)) as Hok by (split_and!; cbn; auto using registry_new_wf; done).
  revert Hok. generalize (engine_new mw lc). induction ops as [|op ops IH]; intros e0 Hok Hrun.
  - by injection Hrun as <-.
  - cbn in Hrun. apply bind_Some in Hrun as (e1 & Hop & Hrun).
    eapply IH; [|done]. by eapply engine_op_ok.
Qed.

(** ** Supervision and single stepping *)
Lemma publish_own_metrics mw mt snaps :
  child_restarts (publish_own mw mt snaps).1.2 = child_restarts mt ∧
  health_check_failures (publish_own mw mt snaps).1.2 = health_check_failures mt ∧
  cycles_completed (publish_own mw mt snaps).1.2 = cycles_completed mt.
Proof.
  revert mw mt. induction snaps as [|s snaps IH]; intros mw mt; [done|]. cbn.
  destruct (publish_signal mw (sn_name s) (sn_value s) now_ts) as [mw' ds].
  specialize (IH mw' (record_signal_published mt)). by destruct (publish_own mw' _ snaps) as [[??]?].
Qed.

Lemma record_restarts {A} (l : list A) mt :
  in_u 64 (child_restarts mt) = true →
  let mt' := fold_left (fun mt _ => record_child_restart mt) l mt in
  child_restarts mt' = wrap_u 64 (child_restarts mt + Z.of_nat (length l)) ∧
  health_check_failures mt' = health_check_failures mt ∧ cycles_completed mt' = cycles_completed mt.
Proof.
  cbn zeta. revert mt. induction l as [|a l IH]; intros mt Hin; cbn [fold_left length].
  - rewrite Z.add_0_r. by rewrite wrap_u_id.
  - destruct (IH (record_child_restart mt)) as (-> & -> & ->); [by apply wrap_u_in|].
    split; [|done]. cbn. unfold fetch_add, wrap_u. rewrite Z.add_mod_idemp_l by lia. f_equal. lia.
Qed.

(** The supervision and statistics a cycle does not touch before its end. *)
Definition stats_view (e : Engine) : Z * RuntimeMetrics * LifecycleManager * (bool * bool * bool) :=
  (cycle_count e, e_metrics e, lifecycle e, (running e, paused e, step_requested e)).

Lemma before_write_stats env e e1 :
  execute_phase env (prologue env e) = Some (Some e1) → stats_view e1 = stats_view e.
Proof.
  intros Hex. transitivity (stats_view (prologue env e)).
  - unfold execute_phase in Hex. destruct (hal_executor _); [|by injection Hex as <-].
    by destruct (run_to_halt _ _); simplify_eq.
  - unfold prologue. transitivity (stats_view (config_barrier e)).
    + assert (∀ x, stats_view (read_barrier x) = stats_view x) as ->
        by (intros x; unfold read_barrier; by destruct (read_all _ _ _)).
      assert (∀ x, stats_view (hmi_barrier env x) = stats_view x) as ->
        by (intros x; unfold hmi_barrier; by destruct (pending_hmi_layout x) as [[??]|]).
      unfold swap_barrier. destruct (swap_committed _); [|done]. by destruct (pending_swap _).
    + unfold config_barrier, apply_config_now. destruct (e_config_queue e); [done|].
      by destruct (queue_all _ _).
Qed.

(** Supervision metrics: every completed cycle adds the number of children
    to the restart counter and, if there are any, one to the failure counter,
    whatever the operating system reports, so also when all of them are
    running; the cycle counters advance by one. *)
Theorem cycle_counts_children env e e' o :
  in_u 64 (child_restarts (e_metrics e)) = true → cycle env e = CycleDone e' o →
  child_restarts (e_metrics e') = wrap_u 64 (child_restarts (e_metrics e) + Z.of_nat (length (lifecycle e))) ∧
  health_check_failures (e_metrics e') =
    (match lifecycle e with [] => health_check_failures (e_metrics e)
     | _ => fetch_add (health_check_failures (e_metrics e)) end) ∧
  cycle_count e' = fetch_add (cycle_count e) ∧
  cycles_completed (e_metrics e') = fetch_add (cycles_completed (e_metrics e)) ∧
  length (lifecycle e') = length (lifecycle e).
Proof.
  intros Hin Hc. apply cycle_inv in Hc as (e1 & Hex & -> & _).
  apply before_write_stats in Hex. injection Hex as E1 E2 E3 _ _ _.
  unfold write_barrier.
  pose proof (publish_own_metrics (middleware e1) (e_metrics e1) (snapshots_by_strategy (e_signals e1) FOwn))
    as (P1 & P2 & P3).
  destruct (publish_own _ _ _) as [[mw mt] ds]. cbn [fst snd] in *. rewrite E2 in *.
  unfold supervise. cbn [set_stats set_middleware lifecycle e_metrics cycle_count fst].
  destruct (health_loop_length (now env) (os env) 0 (lifecycle e1)) as [L1 L2].
  unfold health_check. destruct (health_loop (now env) (os env) 0 (lifecycle e1)) as [lc dead].
  cbn [fst snd] in *. rewrite E3 in *.
  pose proof (record_restarts dead (record_cycle_jitter (record_cycle mt) (elapsed_us env))) as Hrec.
  destruct Hrec as (R1 & R2 & R3); [cbn; by rewrite P1|]. cbn [record_cycle_jitter record_cycle child_restarts
    health_check_failures cycles_completed] in R1, R2, R3.
  rewrite P1, L2 in R1. rewrite P2 in R2. rewrite P3 in R3.
  destruct dead as [|h dead], (lifecycle e) as [|c cs]; try done;
    cbn [set_stats e_metrics cycle_count lifecycle record_health_failure child_restarts health_check_failures
      cycles_completed]; rewrite ?R1, ?R2, ?R3, ?E1; done.
Qed.

(** Single stepping: a running engine told to step completes exactly one
    cycle; afterwards its thread waits whatever the environment does, until
    it is resumed, stepped again or stopped. *)
Theorem single_step env env' e e' o :
  running e = true →
  (loop_turn env (step_cycle e) = LoopCycle (CycleDone e' o) →
   loop_turn env' e' = LoopWait ∧
   (∃ c, loop_turn env' (resume e') = LoopCycle c) ∧
   (∃ c, loop_turn env' (step_cycle e') = LoopCycle c) ∧
   loop_turn env' (stop e') = LoopStop) ∧
  (∃ c, loop_turn env (step_cycle e) = LoopCycle c) ∧
  loop_turn env (pause (set_run e true false false)) = LoopWait.
Proof.
  intros Hrun. split_and!; [|unfold loop_turn; cbn; rewrite Hrun; by eexists | done].
  unfold loop_turn at 1. cbn. rewrite Hrun. cbn. intros [= Hc].
  apply cycle_inv in Hc as (e1 & Hex & -> & _). apply before_write_stats in Hex.
  injection Hex as _ _ _ H1 H2 H3. cbn in H1, H2, H3.
  destruct (supervise_frame env (write_barrier e1).1) as (_ & _ & _ & _ & _ & _ & Hf).
  assert ((running (write_barrier e1).1, paused (write_barrier e1).1, step_requested (write_barrier e1).1)
          = (true, true, false)) as Hw.
  { unfold write_barrier. destruct (publish_own _ _ _) as [[??]?]. cbn. by rewrite H1, H2, H3. }
  rewrite Hw in Hf. injection Hf as F1 F2 F3. unfold loop_turn.
  cbn [resume step_cycle stop set_run running paused step_requested].
  rewrite F1, F2, F3. cbn. split_and!; eauto.
Qed.
End engine.

(** ** Witnesses *)
Definition demo_program : HalProgram :=
  mkProgram "demo"
    [{| hal_signal_name := "out"; program_var := "out"; direction := Write; hal_pin_type := TU8 |}] []
    [load_imm 0 (VU8 7); mkInst OpStore [SignalName "out"; Register 0]; halt] [].

Definition demo_decoders : Decoders :=
  {| bincode_deserialize := fun b => match b with [] => Err "empty" | _ => Ok demo_program end;
     utf8_error_text := fun _ => "utf-8"; yaml_parse := fun _ => Ok tt |}.

Definition demo_env : CycleEnv :=
  mkEnv (fun _ => VBool true) true (fun _ => (WRunning, Err "")) 0 10 5 None 100.

Definition demo_mw : InprocMiddleware := mkMiddleware transport_new discovery_new qos_new audit_new 0.
Definition demo_engine : Engine := engine_new demo_mw [mkChild "hmi" 42 0 0 None "audesys-hmi" []].
Definition loaded_engine : Engine :=
  (load_hal_program (HD := demo_decoders) demo_engine [1]).1.

Definition computing_engine : Engine :=
  (register_signal loaded_engine (mkDef "sum" TF64 (VF64 0) (SComputed (UserFn 0)))).1.

Lemma cycle_inputs_witness :
  (∃ e1, compute_phase demo_env (prologue demo_env loaded_engine) = Some e1 ∧
     Vm.signals (vm (scan_input demo_env (e_signals e1) (executor_new demo_program))) !! "out" = Some (VS32 0)) ∧
  cycle (HB := release_profile) demo_env computing_engine = CycleBlocked.
Proof.
  assert (registry_wf (e_signals loaded_engine)) as Hw
    by (apply register_bindings_wf, registry_new_wf).
  split.
  - destruct (proj2 (cycle_inputs (HB := release_profile) demo_env loaded_engine Hw)) as (e1 & He & Hs).
    { apply no_computed, (bool_decide_unpack _). vm_compute. reflexivity. }
    exists e1. split; [exact He|]. destruct (Hs "out" (executor_new demo_program)) as (H1 & H2 & _). rewrite H2, H1.
    vm_compute. reflexivity.
  - apply (cycle_inputs (HB := release_profile) demo_env computing_engine).
    + exact (register_wf (e_signals loaded_engine) (mkDef "sum" TF64 (VF64 0) (SComputed (UserFn 0))) Hw).
    + exists "sum", (mkDef "sum" TF64 (VF64 0) (SComputed (UserFn 0))), (UserFn 0). split; [vm_compute|]; reflexivity.
Defined.

Definition subscribed_env : CycleEnv :=
  mkEnv (calls demo_env) true (os demo_env) 0 10 5 (Some {[ "out" := [4; 9] ]}) 100.
Lemma cycle_outputs_witness :
  ∃ e' o, cycle (HB := release_profile) subscribed_env loaded_engine = CycleDone e' o ∧
    (read_signal (middleware e') "out").2 = Some (VU8 7, now_ts) ∧ (9, "out", VU8 7) ∈ pushed o.
Proof.
  assert (registry_wf (e_signals loaded_engine)) as Hw
    by (apply register_bindings_wf, registry_new_wf).
  destruct (cycle (HB := release_profile) subscribed_env loaded_engine) as [e' o| | |] eqn:Hc;
    [|vm_compute in Hc; discriminate Hc..].
  exists e', o. split; [reflexivity|].
  pose proof (cycle_outputs subscribed_env loaded_engine e' o "out" Hw Hc) as Ho.
  assert (e_signals (prologue subscribed_env loaded_engine) !! "out" = Some (mkDef "out" TU8 (VS32 0) SOwn)) as E
    by (vm_compute; reflexivity).
  rewrite E in Ho. destruct Ho as (v & Hv & _ & Hr & Hp).
  assert (v = VU8 7) as ->.
  { assert (match cycle (HB := release_profile) subscribed_env loaded_engine with
            | CycleDone e' _ => sd_value <$> e_signals e' !! "out" | _ => None end = Some (VU8 7)) as Hval
      by (vm_compute; reflexivity).
    rewrite Hc, Hv in Hval. by injection Hval. }
  split; [exact Hr|]. apply Hp. split; [|reflexivity]. exists {[ "out" := [4; 9] ]}, [4; 9].
  split; [reflexivity|]. split; [vm_compute; reflexivity|]. right. left.
Defined.

Lemma hot_swap_witness :
  is_well_formed demo_program = true ∧
  hal_program (prepare_swap (HD := demo_decoders) demo_engine [1]).1 = None.
Proof.
  split; [reflexivity|].
  destruct (hot_swap (HB := release_profile) (HD := demo_decoders) demo_env demo_engine [1] demo_program
              demo_engine (mkOutputs [] []) eq_refl eq_refl) as ((-> & _) & _). reflexivity.
Defined.

Lemma engine_invariant_witness :
  ∃ e, engine_run (HB := release_profile) (HD := demo_decoders) demo_engine
         [OpLoad [1]; OpCycle demo_env; OpPrepare [1]; OpCommit; OpCycle demo_env] = Some e ∧ engine_ok e.
Proof.
  destruct (engine_run (HB := release_profile) (HD := demo_decoders) demo_engine
         [OpLoad [1]; OpCycle demo_env; OpPrepare [1]; OpCommit; OpCycle demo_env]) as [e|] eqn:Hr;
    [|vm_compute in Hr; discriminate Hr].
  exists e. split; [reflexivity|].
  exact (engine_invariant (HB := release_profile) (HD := demo_decoders) demo_mw _ _ e Hr).
Defined.

Lemma cycle_counts_children_witness :
  ∃ e' o, cycle (HB := release_profile) demo_env loaded_engine = CycleDone e' o ∧
    child_restarts (e_metrics e') = 1.
Proof.
  destruct (cycle (HB := release_profile) demo_env loaded_engine) as [e' o| | |] eqn:Hc;
    [|vm_compute in Hc; discriminate Hc..].
  exists e', o. split; [reflexivity|].
  by destruct (cycle_counts_children (HB := release_profile) demo_env loaded_engine e' o eq_refl Hc) as (-> & _).
Defined.

Lemma single_step_witness :
  running (set_run loaded_engine true false false) = true ∧
  ∃ c, loop_turn (HB := release_profile) demo_env (step_cycle (set_run loaded_engine true false false)) = LoopCycle c.
Proof.
  split; [reflexivity|].
  by apply (single_step (HB := release_profile) demo_env demo_env (set_run loaded_engine true false false)
              loaded_engine (mkOutputs [] []) eq_refl).
Defined.
