(* ===== verification/Configuration.v ===== *)
(** * Runtime configuration ([audesys-runtime/src/config.rs])

    Loading, validating and comparing configurations, and the watcher that
    polls the file and sends the differences to the engine's config barrier.
    The YAML parser is third-party code: it is a parameter that yields the
    fields present in the document; the defaults of the absent ones are the
    source's. *)
From S2P Require Import Prelude Text Qos Middleware Engine.
Local Open Scope Z_scope.

Record ChildConfig := mkChildConfig { cc_name : string; cc_program : string; cc_args : list string }.

Record RuntimeConfig := mkRuntimeConfig {
  hal_config_path : string;
  health_port : Z;
  rc_cycle_interval_ms : Z;
  children : list ChildConfig;
  startup_lock_level : string;
  shutdown_timeout_ms : Z }.

Definition default_startup_lock_level : string := "none".
Definition default_shutdown_timeout : Z := 5000.
Definition default_cycle_interval : Z := 10.

(** [impl Default]. *)
Definition runtime_config_default : RuntimeConfig :=
  mkRuntimeConfig "config/hal.yaml" 9100 10 [] "none" 5000.

(** The fields present in a document. *)
Record RawChild := mkRawChild { rch_name : string; rch_program : string; rch_args : option (list string) }.
Record RawConfig := mkRaw {
  raw_hal_config_path : option string;
  raw_health_port : option Z;
  raw_cycle_interval_ms : option Z;
  raw_children : option (list RawChild);
  raw_startup_lock_level : option string;
  raw_shutdown_timeout_ms : option Z }.

(** The [serde(default)] attributes. *)
Definition child_of_raw (c : RawChild) : ChildConfig :=
  mkChildConfig (rch_name c) (rch_program c) (default [] (rch_args c)).
Definition config_of_raw (r : RawConfig) : RuntimeConfig :=
  mkRuntimeConfig (default "" (raw_hal_config_path r)) (default 0 (raw_health_port r))
    (default default_cycle_interval (raw_cycle_interval_ms r))
    (map child_of_raw (default [] (raw_children r)))
    (default default_startup_lock_level (raw_startup_lock_level r))
    (default default_shutdown_timeout (raw_shutdown_timeout_ms r)).

Class ConfigYaml := yaml_config : string → result RawConfig string.

(** [content] is what reading the file yields. *)
Definition load `{ConfigYaml} (path : string) (content : result string string)
  : result RuntimeConfig string :=
  match content with
  | Err e => Err ("Failed to read config " +:+ path +:+ ": " +:+ e)
  | Ok text =>
      match yaml_config text with
      | Err e => Err ("Failed to parse config " +:+ path +:+ ": " +:+ e)
      | Ok r => Ok (config_of_raw r)
      end
  end.
Definition reload `{ConfigYaml} := load.

Definition valid_levels : list string := ["none"; "load"; "config"; "params"; "run"; "all"].
Definition validate_config (c : RuntimeConfig) : result unit string :=
  if rc_cycle_interval_ms c =? 0 then Err "cycle_interval_ms must be positive"
  else if negb (existsb (String.eqb (startup_lock_level c)) valid_levels) then
    Err ("Invalid startup_lock_level '" +:+ startup_lock_level c +:+ "'. Must be one of: ["
         +:+ String.concat ", " (map str_debug valid_levels) +:+ "]")
  else if shutdown_timeout_ms c =? 0 then Err "shutdown_timeout_ms must be positive"
  else Ok tt.

Definition diff_commands (c previous : RuntimeConfig) (now : Z) : list ConfigCommand :=
  let path_changed := negb (String.eqb (hal_config_path c) (hal_config_path previous)) in
  let next_id := if path_changed then 2 else 1 in
  (if path_changed
   then [mkCmd 1 "loadComponent" (string_bytes (hal_config_path c)) now] else []) ++
  (if negb (rc_cycle_interval_ms c =? rc_cycle_interval_ms previous)
   then [mkCmd next_id "setCycleInterval" (le_bytes 8 (rc_cycle_interval_ms c)) now] else []).

(** ** The watcher *)
Record ConfigWatcher := mkWatcher {
  cw_path : string;
  last_mtime : option Z;
  last_config : RuntimeConfig }.
Definition watcher_start (path : string) : ConfigWatcher := mkWatcher path None runtime_config_default.

(** What one poll observes of the file system. *)
Inductive FileObs :=
  | NoMetadata
  | NoMtime
  | Seen (mtime : Z) (content : result string string).

(** What a poll sends, and whether the thread goes on: it ends when the
    receiver is gone.  [room] is the number of sends the receiver lives for,
    [None] if it outlives the poll. *)
Definition send_all (room : option nat) (cmds : list ConfigCommand) : list ConfigCommand * bool :=
  match room with
  | None => (cmds, true)
  | Some k => (take k cmds, (length cmds <=? k)%nat)
  end.

Definition poll `{ConfigYaml} (w : ConfigWatcher) (o : FileObs) (now : Z) (room : option nat)
  : ConfigWatcher * list ConfigCommand * bool :=
  match o with
  | NoMetadata | NoMtime => (w, [], true)
  | Seen mtime content =>
      let changed := match last_mtime w with None => true | Some prev => negb (mtime =? prev) end in
      if negb changed then (w, [], true)
      else match load (cw_path w) content with
           | Ok new_cfg =>
               let '(sent, alive) := send_all room (diff_commands new_cfg (last_config w) now) in
               (mkWatcher (cw_path w) (Some mtime) new_cfg, sent, alive)
           | Err _ => (mkWatcher (cw_path w) (Some mtime) (last_config w), [], true)
           end
  end.

(** The thread's loop over the polls it makes before it is stopped. *)
Fixpoint watch_loop `{ConfigYaml} (w : ConfigWatcher) (polls : list (FileObs * Z * option nat))
  : ConfigWatcher * list ConfigCommand :=
  match polls with
  | [] => (w, [])
  | (o, now, room) :: polls =>
      let '(w, sent, alive) := poll w o now room in
      if alive then let '(w, sent') := watch_loop w polls in (w, sent ++ sent')
      else (w, sent)
  end.

(** What the YAML crate guarantees: an integer field fits its type. *)
Class ConfigYamlLaws `{ConfigYaml} :=
  yaml_interval_range : ∀ text r ms,
    yaml_config text = Ok r → raw_cycle_interval_ms r = Some ms → in_u 64 ms = true.

(** ** The receiver's side *)

(** What a command sets in the receiver's settings. *)
Definition apply_command (v : RuntimeConfig) (c : ConfigCommand) : RuntimeConfig :=
  if String.eqb (cmd_method c) "loadComponent" then
    mkRuntimeConfig (bytes_string (cmd_params c)) (health_port v) (rc_cycle_interval_ms v) (children v)
      (startup_lock_level v) (shutdown_timeout_ms v)
  else if String.eqb (cmd_method c) "setCycleInterval" then
    mkRuntimeConfig (hal_config_path v) (health_port v) (of_le_bytes (cmd_params c)) (children v)
      (startup_lock_level v) (shutdown_timeout_ms v)
  else v.
Definition follow (v : RuntimeConfig) (cmds : list ConfigCommand) : RuntimeConfig := fold_left apply_command cmds v.

(** [v] with the two settings of [c] that have a command. *)
Definition carried (c v : RuntimeConfig) : RuntimeConfig :=
  mkRuntimeConfig (hal_config_path c) (health_port v) (rc_cycle_interval_ms c) (children v)
    (startup_lock_level v) (shutdown_timeout_ms v).

(** The usage loop of the watcher's documentation: queue until an error. *)
Fixpoint drain {M} (e : Engine (M := M)) (cmds : list ConfigCommand) : Engine (M := M) * result unit string :=
  match cmds with
  | [] => (e, Ok tt)
  | c :: cmds =>
      match engine_queue_config e c with
      | (e, Ok _) => drain e cmds
      | (e, Err msg) => (e, Err msg)
      end
  end.

(** ** Facts *)
Lemma interval_bytes ms : in_u 64 ms = true → of_le_bytes (le_bytes 8 ms) = ms.
Proof. intros H. rewrite of_le_bytes_le_bytes. apply in_u_spec in H. by apply Z.mod_small. Qed.

Lemma follow_diff c p v now :
  in_u 64 (rc_cycle_interval_ms c) = true → follow (carried p v) (diff_commands c p now) = carried c v.
Proof.
  intros Hr. unfold diff_commands, carried, follow.
  destruct (String.eqb_spec (hal_config_path c) (hal_config_path p)) as [->|];
    destruct (Z.eqb_spec (rc_cycle_interval_ms c) (rc_cycle_interval_ms p)) as [->|];
    cbn -[le_bytes of_le_bytes]; by rewrite ?bytes_string_bytes, ?interval_bytes.
Qed.

Lemma diff_none c p now : diff_commands c p now = [] ↔ carried c p = p.
Proof.
  unfold diff_commands, carried. destruct p as [pp ph pi pc pl pt]. cbn.
  destruct (String.eqb_spec (hal_config_path c) pp) as [->|];
    destruct (Z.eqb_spec (rc_cycle_interval_ms c) pi) as [->|]; cbn; naive_solver.
Qed.

Lemma poll_changed `{ConfigYaml} w t text r now : last_mtime w ≠ Some t → yaml_config text = Ok r →
  poll w (Seen t (Ok text)) now None =
  (mkWatcher (cw_path w) (Some t) (config_of_raw r), diff_commands (config_of_raw r) (last_config w) now, true).
Proof.
  intros Ht Hy. unfold poll.
  assert (match last_mtime w with None => true | Some prev => negb (t =? prev) end = true) as ->.
  { destruct (last_mtime w) as [prev|]; [|done]. apply negb_true_iff, Z.eqb_neq. congruence. }
  cbn [negb load]. by rewrite Hy.
Qed.

Section watcher.
Context `{HY : ConfigYaml}.

Lemma load_range `{HL : !ConfigYamlLaws} path content c :
  load path content = Ok c → in_u 64 (rc_cycle_interval_ms c) = true.
Proof.
  unfold load. destruct content as [text|]; [|done].
  destruct (yaml_config text) as [r|] eqn:E; intros [= <-]. cbn.
  destruct (raw_cycle_interval_ms r) eqn:Er; [by eapply yaml_interval_range | done].
Qed.

(** With a receiver that stays, a poll takes the receiver from the old view to
    the new one. *)
Lemma poll_follows `{HL : !ConfigYamlLaws} w o now w' sent alive :
  poll w o now None = (w', sent, alive) →
  alive = true ∧ cw_path w' = cw_path w ∧
  ∀ v, follow (carried (last_config w) v) sent = carried (last_config w') v.
Proof.
  unfold poll. destruct o as [| |t content]; [by intros; simplify_eq..|].
  destruct (negb _); cbn; [by intros; simplify_eq|].
  destruct (load (cw_path w) content) as [c|] eqn:E; intros; simplify_eq; [|done].
  split; [done|]. split; [done|]. intros v. apply follow_diff. by eapply load_range.
Qed.

Definition patient (polls : list (FileObs * Z * option nat)) : Prop := Forall (fun p => p.2 = None) polls.

Lemma watch_loop_follows `{HL : !ConfigYamlLaws} w polls :
  patient polls →
  (∀ v, follow (carried (last_config w) v) (watch_loop w polls).2 = carried (last_config (watch_loop w polls).1) v)
  ∧ cw_path (watch_loop w polls).1 = cw_path w.
Proof.
  intros Hp. induction Hp as [|[[o now] room] polls Hroom _ IH] in w |- *; [done|].
  cbn in Hroom. subst room. cbn.
  destruct (poll w o now None) as [[w' sent] alive] eqn:E.
  apply poll_follows in E as (-> & Hpath & Hv).
  specialize (IH w'). destruct (watch_loop w' polls) as [w'' sent'] eqn:E'. cbn in *.
  destruct IH as [Hf ->]. split; [|done]. intros v. unfold follow in *. by rewrite fold_left_app, Hv, Hf.
Qed.

Lemma watch_loop_snoc w polls o now :
  patient polls →
  watch_loop w (polls ++ [(o, now, None)]) =
  let '(w', sent) := watch_loop w polls in
  let '(w'', sent', _) := poll w' o now None in (w'', sent ++ sent').
Proof.
  intros Hp. induction Hp as [|[[o' now'] room] polls Hroom _ IH] in w |- *; cbn.
  - destruct (poll w o now None) as [[w' sent] []]; by rewrite ?app_nil_r.
  - cbn in Hroom. subst room.
    assert ((poll w o' now' None).2 = true) as Ha.
    { unfold poll. destruct o'; [done..|]. destruct (negb _); [done|]. cbn. by destruct (load _ _). }
    destruct (poll w o' now' None) as [[w' sent] alive]. cbn in Ha. subst alive.
    rewrite IH. destruct (watch_loop w' polls) as [w'' sent'].
    destruct (poll w'' o now None) as [[w3 sent3] ?]. by rewrite app_assoc.
Qed.
End watcher.

(** [C34] The watcher brings its receiver up to date on two of the six settings.
    When a poll finds the file changed and readable - whatever earlier polls saw:
    a missing file, a file that does not parse, the same or another content -
    then a receiver that applies all the commands sent since the start to the
    default settings holds the file's component path and cycle interval, and
    still the default port, children, lock level and shutdown timeout, whatever
    the file says of these.  The watcher has nevertheless taken the whole file
    for its current configuration: a later change of the file sends a command
    exactly when it changes the path or the interval. *)
Theorem watcher_tracks_file `{ConfigYaml, !ConfigYamlLaws} path polls t text r now :
  patient polls →
  last_mtime (watch_loop (watcher_start path) polls).1 ≠ Some t →
  yaml_config text = Ok r →
  let '(w, sent) := watch_loop (watcher_start path) (polls ++ [(Seen t (Ok text), now, None)]) in
  follow runtime_config_default sent = carried (config_of_raw r) runtime_config_default ∧
  last_config w = config_of_raw r ∧
  ∀ t' text' r' now', t' ≠ t → yaml_config text' = Ok r' →
    (poll w (Seen t' (Ok text')) now' None).1.2 = [] ↔
    hal_config_path (config_of_raw r') = hal_config_path (config_of_raw r) ∧
    rc_cycle_interval_ms (config_of_raw r') = rc_cycle_interval_ms (config_of_raw r).
Proof.
  intros Hp Ht Hy.
  assert (patient (polls ++ [(Seen t (Ok text), now, None)])) as Hp'.
  { apply Forall_app. split; [done|]. by constructor. }
  pose proof (watch_loop_follows (watcher_start path) _ Hp') as [Hf _].
  specialize (Hf runtime_config_default). revert Hf. rewrite watch_loop_snoc by done.
  destruct (watch_loop (watcher_start path) polls) as [w sent]. cbn [fst] in Ht.
  rewrite (poll_changed w t text r) by done. cbn [fst snd last_config]. intros Hf.
  split_and!; [exact Hf | done |]. intros t' text' r' now' Hne Hy'.
  rewrite (poll_changed _ t' text' r') by (try done; cbn; congruence). cbn [fst snd last_config].
  rewrite diff_none. unfold carried. destruct (config_of_raw r). cbn. naive_solver.
Qed.

(** A content that could not be loaded is not looked at again: the poll
    has recorded the modification time, so that a later poll which finds the
    file readable under the same time sends nothing. *)
Theorem failed_load_not_retried `{ConfigYaml} w t content err content' now now' room room' :
  load (cw_path w) content = Err err →
  last_mtime w ≠ Some t →
  let '(w', sent, _) := poll w (Seen t content) now room in
  sent = [] ∧ last_config w' = last_config w ∧
  poll w' (Seen t content') now' room' = (w', [], true).
Proof.
  intros Hl Ht. unfold poll at 1.
  assert (match last_mtime w with None => true | Some prev => negb (t =? prev) end = true) as ->.
  { destruct (last_mtime w) as [prev|]; [|done]. apply negb_true_iff, Z.eqb_neq. congruence. }
  cbn [negb]. rewrite Hl. split; [done|]. split; [done|]. cbn. by rewrite Z.eqb_refl.
Qed.

(** The first comparison is with the built-in default and not with the
    configuration the process was started with: the first poll sends nothing
    exactly when the file's path and interval are the default ones. *)
Theorem first_poll_compares_with_default `{ConfigYaml} path t text r now :
  yaml_config text = Ok r →
  (poll (watcher_start path) (Seen t (Ok text)) now None).1.2 = [] ↔
  carried (config_of_raw r) runtime_config_default = runtime_config_default.
Proof. intros Hy. rewrite (poll_changed _ t text r) by done. apply diff_none. Qed.

(** Validation accepts exactly the configurations with a positive cycle
    interval, a known lock level and a positive shutdown timeout. *)
Theorem validate_spec c :
  validate_config c = Ok tt ↔
  rc_cycle_interval_ms c ≠ 0 ∧ startup_lock_level c ∈ valid_levels ∧ shutdown_timeout_ms c ≠ 0.
Proof.
  unfold validate_config.
  assert (existsb (String.eqb (startup_lock_level c)) valid_levels = true ↔
          startup_lock_level c ∈ valid_levels) as Hex.
  { rewrite existsb_exists. setoid_rewrite String.eqb_eq. setoid_rewrite <- list_elem_of_In. naive_solver. }
  destruct (Z.eqb_spec (rc_cycle_interval_ms c) 0), (existsb _ _),
    (Z.eqb_spec (shutdown_timeout_ms c) 0); cbn; naive_solver.
Qed.

Section engine.
Context `{BuildProfile, Decoders}.
Context {M : Type} `{HalTransport M, HalQoS M}.

Lemma drain_queue (e : Engine (M := M)) cmds :
  level_ge (lock_level e) LkRun = false →
  drain e cmds = (set_config e (middleware e) (lock_level e) (e_config_queue e ++ cmds), Ok tt).
Proof.
  intros Hl. induction cmds as [|c cmds IH] in e, Hl |- *; cbn.
  - rewrite app_nil_r. by destruct e.
  - unfold engine_queue_config. rewrite Hl. rewrite IH by done. cbn. by rewrite <- app_assoc.
Qed.

(** A change made while the engine is locked is lost: every command is
    refused and the engine is unchanged, while the watcher has taken the new
    configuration for the current one and the next poll of the same file sends
    nothing. *)
Theorem locked_change_is_lost `{ConfigYaml} (e : Engine (M := M)) w t text r now :
  level_ge (lock_level e) LkRun = true →
  last_mtime w ≠ Some t →
  yaml_config text = Ok r →
  carried (config_of_raw r) (last_config w) ≠ last_config w →
  let '(w', sent, _) := poll w (Seen t (Ok text)) now None in
  sent ≠ [] ∧
  (∃ msg, drain e sent = (e, Err msg)) ∧
  ∀ now', poll w' (Seen t (Ok text)) now' None = (w', [], true).
Proof.
  intros Hl Ht Hy Hv. rewrite (poll_changed w t text r) by done. rewrite <- (diff_none _ _ now) in Hv.
  split; [done|]. split.
  - destruct (diff_commands _ _ _) as [|c cmds]; [done|]. cbn. unfold engine_queue_config. rewrite Hl. eauto.
  - intros now'. cbn. by rewrite Z.eqb_refl.
Qed.

(** Below the lock every command the watcher sends reaches the middleware
    at the next config barrier, and that is all it does: the barrier empties
    the engine's queue and leaves its program, its signals, its control flags
    and its cycle counter as they were, so a new interval or component path
    has no effect on the running engine. *)
Theorem config_commands_only_queued (e : Engine (M := M)) cmds :
  level_ge (lock_level e) LkRun = false → e_config_queue e = [] →
  let e' := config_barrier (drain e cmds).1 in
  (drain e cmds).2 = Ok tt ∧
  e' = set_config e (match cmds with [] => middleware e
                     | _ => (amw_apply_queued (queue_all (middleware e) cmds).1).1 end)
         (lock_level e) [].
Proof.
  intros Hl Hq e'. subst e'. rewrite drain_queue by done. split; [done|]. cbn [fst].
  rewrite Hq. cbn [app]. unfold config_barrier, apply_config_now. cbn [e_config_queue set_config].
  destruct cmds as [|c cmds]; [by destruct e; cbn in *; subst|].
  cbn [set_config middleware]. destruct (queue_all (middleware e) (c :: cmds)) as [mw sts]. done.
Qed.
End engine.

(** ** Witnesses *)
Definition demo_yaml : ConfigYaml := fun text =>
  if String.eqb text "bad" then Err "expected a mapping"
  else Ok (mkRaw (Some text) None (Some 20) None None None).
Lemma demo_yaml_laws : ConfigYamlLaws (H := demo_yaml).
Proof.
  intros text r ms. unfold yaml_config, demo_yaml.
  destruct (String.eqb text "bad"); [done|]. intros [= <-] [= <-]. reflexivity.
Qed.

Lemma watcher_tracks_file_witness :
  let '(w, sent) := watch_loop (H := demo_yaml) (watcher_start "c.yaml")
    [(NoMetadata, 0, None); (Seen 5 (Ok "bad"), 1, None); (Seen 7 (Ok "line.yaml"), 2, None)] in
  follow runtime_config_default sent = mkRuntimeConfig "line.yaml" 9100 20 [] "none" 5000 ∧
  health_port (last_config w) = 0 ∧ (poll (H := demo_yaml) w (Seen 8 (Ok "cell.yaml")) 3 None).1.2 ≠ [].
Proof.
  pose proof (watcher_tracks_file (H := demo_yaml) (H0 := demo_yaml_laws) "c.yaml"
    [(NoMetadata, 0, None); (Seen 5 (Ok "bad"), 1, None)] 7 "line.yaml" _ 2
    ltac:(repeat constructor) ltac:(vm_compute; discriminate) eq_refl) as H.
  cbn [app] in H. destruct (watch_loop _ _) as [w sent]. destruct H as (H1 & H2 & H3).
  split_and!; [exact H1 | by rewrite H2 |]. intros [Hp _]%(H3 8 "cell.yaml" _ 3 ltac:(done) eq_refl). discriminate Hp.
Defined.

Lemma failed_load_not_retried_witness :
  let '(w, sent, _) := poll (H := demo_yaml) (watcher_start "c.yaml") (Seen 5 (Ok "bad")) 0 None in
  sent = [] ∧ last_config w = runtime_config_default ∧
  poll (H := demo_yaml) w (Seen 5 (Ok "line.yaml")) 1 None = (w, [], true).
Proof.
  refine (failed_load_not_retried (H := demo_yaml) (watcher_start "c.yaml") 5 (Ok "bad") _ (Ok "line.yaml") 0 1
            None None eq_refl _).
  discriminate.
Defined.

Lemma first_poll_compares_with_default_witness :
  (poll (H := demo_yaml) (watcher_start "c.yaml") (Seen 5 (Ok "line.yaml")) 0 None).1.2 ≠ [].
Proof.
  intros H.
  apply (first_poll_compares_with_default (H := demo_yaml) "c.yaml" 5 "line.yaml" _ 0 eq_refl) in H.
  discriminate H.
Defined.

Lemma locked_change_is_lost_witness :
  let '(w, sent, _) := poll (H := demo_yaml) (watcher_start "c.yaml") (Seen 5 (Ok "line.yaml")) 0 None in
  sent ≠ [] ∧
  (∃ msg, drain (set_config demo_engine demo_mw LkRun []) sent
          = (set_config demo_engine demo_mw LkRun [], Err msg)) ∧
  ∀ now, poll (H := demo_yaml) w (Seen 5 (Ok "line.yaml")) now None = (w, [], true).
Proof.
  refine (locked_change_is_lost (H2 := demo_yaml) (set_config demo_engine demo_mw LkRun [])
            (watcher_start "c.yaml") 5 "line.yaml" _ 0 eq_refl _ eq_refl _); discriminate.
Defined.

Lemma config_commands_only_queued_witness :
  let e := (drain loaded_engine [mkCmd 1 "setCycleInterval" (le_bytes 8 20) 0]).1 in
  length (e_config_queue e) = 1%nat ∧ hal_program (config_barrier e) = hal_program loaded_engine.
Proof.
  destruct (config_commands_only_queued loaded_engine [mkCmd 1 "setCycleInterval" (le_bytes 8 20) 0]
              eq_refl eq_refl) as [_ E].
  cbn zeta. split; [reflexivity|]. rewrite E. reflexivity.
Defined.
