(* ===== verification/Modbus.v ===== *)
(** * The virtual Modbus TCP device ([audesys-runtime/src/virtual_modbus.rs])

    The register maps, the request handlers of the device the listener thread
    runs ([ThreadDevice]), the response frames, and the framing loop of a
    connection.  The transport is shared with the rest of the controller and
    threaded through every handler.  An MBAP header is the seven bytes
    [handle_client] reads. *)
From S2P Require Import Prelude Float HalTypes HalValue.
From S2P Require Import Transport Text.
Local Open Scope Z_scope.

Definition MBAP_HEADER_LEN : nat := 7.
Definition MODBUS_TCP_PORT : string := "1502".
Definition ILLEGAL_FUNCTION : Z := 1.
Definition ILLEGAL_DATA_ADDRESS : Z := 2.
Definition ILLEGAL_DATA_VALUE : Z := 3.

(** [u16::from_be_bytes]. *)
Definition be16 (hi lo : Z) : Z := hi * 256 + lo.
Definition byte_at (l : list Z) (i : nat) : Z := nth i l 0.

(** ** The device *)
Record VirtualModbusTcpDevice := mkDevice {
  md_addr : string;
  md_bound : bool;
  coils : gmap Z string;
  holding_regs : gmap Z string;
  input_regs : gmap Z string;
  discrete_inputs : gmap Z string;
  md_running : bool }.

Definition device_new (addr : string) : VirtualModbusTcpDevice :=
  mkDevice (if contains addr ":" then addr else addr +:+ ":" +:+ MODBUS_TCP_PORT)
    false ∅ ∅ ∅ ∅ false.
Definition bind_transport (d : VirtualModbusTcpDevice) : VirtualModbusTcpDevice :=
  mkDevice (md_addr d) true (coils d) (holding_regs d) (input_regs d) (discrete_inputs d) (md_running d).
Definition map_coil (d : VirtualModbusTcpDevice) (a : Z) (s : string) : VirtualModbusTcpDevice :=
  mkDevice (md_addr d) (md_bound d) (<[a := s]> (coils d)) (holding_regs d) (input_regs d)
    (discrete_inputs d) (md_running d).
Definition map_holding_register (d : VirtualModbusTcpDevice) (a : Z) (s : string) : VirtualModbusTcpDevice :=
  mkDevice (md_addr d) (md_bound d) (coils d) (<[a := s]> (holding_regs d)) (input_regs d)
    (discrete_inputs d) (md_running d).
Definition map_input_register (d : VirtualModbusTcpDevice) (a : Z) (s : string) : VirtualModbusTcpDevice :=
  mkDevice (md_addr d) (md_bound d) (coils d) (holding_regs d) (<[a := s]> (input_regs d))
    (discrete_inputs d) (md_running d).
Definition map_discrete_input (d : VirtualModbusTcpDevice) (a : Z) (s : string) : VirtualModbusTcpDevice :=
  mkDevice (md_addr d) (md_bound d) (coils d) (holding_regs d) (input_regs d)
    (<[a := s]> (discrete_inputs d)) (md_running d).

(** The copy of the maps the listener thread owns. *)
Record ThreadDevice := mkThread {
  td_coils : gmap Z string;
  td_holding_regs : gmap Z string;
  td_input_regs : gmap Z string;
  td_discrete_inputs : gmap Z string }.

(** [start]: it panics if no transport is bound. *)
Definition start_device (d : VirtualModbusTcpDevice) : option (VirtualModbusTcpDevice * ThreadDevice) :=
  if md_bound d then
    Some (mkDevice (md_addr d) true (coils d) (holding_regs d) (input_regs d) (discrete_inputs d) true,
          mkThread (coils d) (holding_regs d) (input_regs d) (discrete_inputs d))
  else None.

(** ** Response frames *)
Definition exception_response (mbap : list Z) (fc exc : Z) : list Z :=
  take 2 mbap ++ [0; 0; 0; 3] ++ [byte_at mbap 6; Z.lor fc 128; exc].

Definition read_response (mbap : list Z) (fc : Z) (data : list Z) : list Z :=
  let pdu_len := 2 + Z.of_nat (length data) in
  let total_len := pdu_len + 1 in
  take 2 mbap ++ [0; 0] ++ [wrap_u 8 (Z.shiftr total_len 8); Z.land total_len 255] ++
  [byte_at mbap 6; fc; wrap_u 8 (Z.of_nat (length data))] ++ data.

Definition echo_response (mbap : list Z) (fc : Z) (data : list Z) : list Z :=
  let pdu_len := 1 + Z.of_nat (length data) in
  let total_len := pdu_len + 1 in
  take 2 mbap ++ [0; 0] ++ [wrap_u 8 (Z.shiftr total_len 8); Z.land total_len 255] ++
  [byte_at mbap 6; fc] ++ data.

Section device.
Context {HB : BuildProfile} {T : Type} {HT : HalTransport T}.

Definition zero_ts : Timestamp := mkTs 0 0.

(** ** Signals behind coils and registers *)
Definition coil_of_value (v : HalValue) : bool :=
  match v with
  | VBool b => b
  | VU16 n | VU32 n => negb (n =? 0)
  | _ => false
  end.

Definition register_of_value (v : HalValue) : Z :=
  match v with
  | VU16 n => n
  | VU32 n | VS32 n => wrap_u 16 n
  | VF32 bits => float_to_int binary32 false 16 bits
  | VBool b => if b then 1 else 0
  | _ => 0
  end.

Definition read_coil_signal (d : ThreadDevice) (t : T) (a : Z) : T * result bool Z :=
  match td_coils d !! a with
  | None => (t, Err ILLEGAL_DATA_ADDRESS)
  | Some name =>
      let '(t, v) := read_signal t name in
      (t, Ok (coil_of_value (match v with Some (v, _) => v | None => VBool false end)))
  end.

Definition write_coil_signal (d : ThreadDevice) (t : T) (a : Z) (value : bool)
  : T * list Delivery * result unit Z :=
  match td_coils d !! a with
  | None => (t, [], Err ILLEGAL_DATA_ADDRESS)
  | Some name => let '(t, ds) := publish_signal t name (VBool value) zero_ts in (t, ds, Ok tt)
  end.

Definition read_register_signal (t : T) (m : gmap Z string) (a : Z) : T * result Z Z :=
  match m !! a with
  | None => (t, Err ILLEGAL_DATA_ADDRESS)
  | Some name =>
      let '(t, v) := read_signal t name in
      (t, Ok (register_of_value (match v with Some (v, _) => v | None => VU16 0 end)))
  end.

Definition write_register_signal (t : T) (m : gmap Z string) (a value : Z)
  : T * list Delivery * result unit Z :=
  match m !! a with
  | None => (t, [], Err ILLEGAL_DATA_ADDRESS)
  | Some name => let '(t, ds) := publish_signal t name (VU16 value) zero_ts in (t, ds, Ok tt)
  end.

(** ** Handlers

    A handler returns the transport, the callbacks run and the response;
    [None] is the overflow of [start + i] in a checked build. *)
Definition Handled : Type := option (T * list Delivery * list Z).

Definition set_bit (result : list Z) (i : Z) : list Z :=
  alter (fun b => Z.lor b (Z.shiftl 1 (i mod 8))) (Z.to_nat (i / 8)) result.

Fixpoint read_coils_loop (d : ThreadDevice) (n : nat) (start i : Z) (t : T) (res : list Z)
  : option (T * result (list Z) Z) :=
  match n with
  | O => Some (t, Ok res)
  | S n =>
      a ← arith false 16 (start + i);
      let '(t, b) := read_coil_signal d t a in
      match b with
      | Ok true => read_coils_loop d n start (i + 1) t (set_bit res i)
      | Ok false => read_coils_loop d n start (i + 1) t res
      | Err exc => Some (t, Err exc)
      end
  end.

Definition handle_read_coils (d : ThreadDevice) (t : T) (mbap data : list Z) : Handled :=
  if (length data <? 4)%nat then Some (t, [], exception_response mbap 1 ILLEGAL_DATA_VALUE)
  else
    let start := be16 (byte_at data 0) (byte_at data 1) in
    let count := be16 (byte_at data 2) (byte_at data 3) in
    if (count =? 0) || (count >? 2000) then Some (t, [], exception_response mbap 1 ILLEGAL_DATA_VALUE)
    else
      let byte_count := Z.to_nat ((count + 7) / 8) in
      '(t, res) ← read_coils_loop d (Z.to_nat count) start 0 t (replicate byte_count 0);
      Some (t, [], match res with
                   | Ok bytes => read_response mbap 1 bytes
                   | Err exc => exception_response mbap 1 exc
                   end).

(** An unmapped input reads as false. *)
Fixpoint read_inputs_loop (d : ThreadDevice) (n : nat) (start i : Z) (t : T) (res : list Z)
  : option (T * list Z) :=
  match n with
  | O => Some (t, res)
  | S n =>
      a ← arith false 16 (start + i);
      match td_discrete_inputs d !! a with
      | None => read_inputs_loop d n start (i + 1) t res
      | Some name =>
          let '(t, v) := read_signal t name in
          read_inputs_loop d n start (i + 1) t
            (match v with Some (VBool true, _) => set_bit res i | _ => res end)
      end
  end.

Definition handle_read_discrete_inputs (d : ThreadDevice) (t : T) (mbap data : list Z) : Handled :=
  if (length data <? 4)%nat then Some (t, [], exception_response mbap 2 ILLEGAL_DATA_VALUE)
  else
    let start := be16 (byte_at data 0) (byte_at data 1) in
    let count := be16 (byte_at data 2) (byte_at data 3) in
    if (count =? 0) || (count >? 2000) then Some (t, [], exception_response mbap 2 ILLEGAL_DATA_VALUE)
    else
      let byte_count := Z.to_nat ((count + 7) / 8) in
      '(t, bytes) ← read_inputs_loop d (Z.to_nat count) start 0 t (replicate byte_count 0);
      Some (t, [], read_response mbap 2 bytes).

Definition set_word (res : list Z) (i val : Z) : list Z :=
  let idx := Z.to_nat (i * 2) in
  <[S idx := Z.land val 255]> (<[idx := wrap_u 8 (Z.shiftr val 8)]> res).

Fixpoint read_registers_loop (m : gmap Z string) (n : nat) (start i : Z) (t : T) (res : list Z)
  : option (T * result (list Z) Z) :=
  match n with
  | O => Some (t, Ok res)
  | S n =>
      a ← arith false 16 (start + i);
      let '(t, v) := read_register_signal t m a in
      match v with
      | Ok val => read_registers_loop m n start (i + 1) t (set_word res i val)
      | Err exc => Some (t, Err exc)
      end
  end.

Definition handle_read_registers (t : T) (mbap : list Z) (fc : Z) (data : list Z) (m : gmap Z string) : Handled :=
  if (length data <? 4)%nat then Some (t, [], exception_response mbap fc ILLEGAL_DATA_VALUE)
  else
    let start := be16 (byte_at data 0) (byte_at data 1) in
    let count := be16 (byte_at data 2) (byte_at data 3) in
    if (count =? 0) || (count >? 125) then Some (t, [], exception_response mbap fc ILLEGAL_DATA_VALUE)
    else
      let byte_count := Z.to_nat (count * 2) in
      '(t, res) ← read_registers_loop m (Z.to_nat count) start 0 t (replicate byte_count 0);
      Some (t, [], match res with
                   | Ok bytes => read_response mbap fc bytes
                   | Err exc => exception_response mbap fc exc
                   end).

Definition respond_write (mbap : list Z) (fc : Z) (echo : list Z) (x : T * list Delivery * result unit Z) : Handled :=
  let '(t, ds, res) := x in
  Some (t, ds, match res with
               | Ok _ => echo_response mbap fc echo
               | Err exc => exception_response mbap fc exc
               end).

Definition handle_write_single_coil (d : ThreadDevice) (t : T) (mbap data : list Z) : Handled :=
  if (length data <? 4)%nat then Some (t, [], exception_response mbap 5 ILLEGAL_DATA_VALUE)
  else
    let a := be16 (byte_at data 0) (byte_at data 1) in
    let w := be16 (byte_at data 2) (byte_at data 3) in
    if w =? 65280 then respond_write mbap 5 data (write_coil_signal d t a true)
    else if w =? 0 then respond_write mbap 5 data (write_coil_signal d t a false)
    else Some (t, [], exception_response mbap 5 ILLEGAL_DATA_VALUE).

Definition handle_write_single_register (d : ThreadDevice) (t : T) (mbap data : list Z) : Handled :=
  if (length data <? 4)%nat then Some (t, [], exception_response mbap 6 ILLEGAL_DATA_VALUE)
  else
    let a := be16 (byte_at data 0) (byte_at data 1) in
    let value := be16 (byte_at data 2) (byte_at data 3) in
    respond_write mbap 6 data (write_register_signal t (td_holding_regs d) a value).

Definition handle_write_multiple_coils (d : ThreadDevice) (t : T) (mbap data : list Z) : Handled :=
  if (length data <? 6)%nat then Some (t, [], exception_response mbap 15 ILLEGAL_DATA_VALUE)
  else
    let a := be16 (byte_at data 0) (byte_at data 1) in
    let value := Z.land (byte_at data 5) 1 in
    respond_write mbap 15 (take 4 data) (write_coil_signal d t a (negb (value =? 0))).

Definition handle_write_multiple_registers (d : ThreadDevice) (t : T) (mbap data : list Z) : Handled :=
  if (length data <? 8)%nat then Some (t, [], exception_response mbap 16 ILLEGAL_DATA_VALUE)
  else
    let a := be16 (byte_at data 0) (byte_at data 1) in
    let value := be16 (byte_at data 5) (byte_at data 6) in
    respond_write mbap 16 (take 4 data) (write_register_signal t (td_holding_regs d) a value).

Definition handle_request (d : ThreadDevice) (t : T) (mbap pdu : list Z) : Handled :=
  match pdu with
  | [] => Some (t, [], exception_response mbap 0 ILLEGAL_FUNCTION)
  | fc :: data =>
      if fc =? 1 then handle_read_coils d t mbap data
      else if fc =? 2 then handle_read_discrete_inputs d t mbap data
      else if fc =? 3 then handle_read_registers t mbap 3 data (td_holding_regs d)
      else if fc =? 4 then handle_read_registers t mbap 4 data (td_input_regs d)
      else if fc =? 5 then handle_write_single_coil d t mbap data
      else if fc =? 6 then handle_write_single_register d t mbap data
      else if fc =? 15 then handle_write_multiple_coils d t mbap data
      else if fc =? 16 then handle_write_multiple_registers d t mbap data
      else Some (t, [], exception_response mbap fc ILLEGAL_FUNCTION)
  end.

(** ** A connection

    [handle_client] on the bytes the client sends before it closes or goes
    quiet: the responses written, in order. *)
Fixpoint handle_client (fuel : nat) (d : ThreadDevice) (t : T) (input : list Z)
  : option (T * list Delivery * list (list Z)) :=
  match fuel with
  | O => Some (t, [], [])
  | S fuel =>
      if (length input <? MBAP_HEADER_LEN)%nat then Some (t, [], [])
      else
        let mbap := take MBAP_HEADER_LEN input in
        let input := drop MBAP_HEADER_LEN input in
        let pdu_len := be16 (byte_at mbap 4) (byte_at mbap 5) in
        if pdu_len <? 2 then Some (t, [], [])
        else
          let pdu_size := Z.to_nat (pdu_len - 1) in
          if (length input <? pdu_size)%nat then Some (t, [], [])
          else
            '(t, ds, resp) ← handle_request d t mbap (take pdu_size input);
            '(t, ds', resps) ← handle_client fuel d t (drop pdu_size input);
            Some (t, ds ++ ds', resp :: resps)
  end.

(** ** Frames *)

(** A response to a request with function code [fc]: transaction and unit
    identifiers of the request, protocol zero, a length field that counts the
    bytes after it, and the function code, with its top bit set for an
    exception. *)
Definition framed (mbap : list Z) (fc : Z) (resp : list Z) : Prop :=
  ∃ code b body, let len := 3 + Z.of_nat (length body) in
    resp = take 2 mbap ++ [0; 0; len / 256; len mod 256; byte_at mbap 6; code] ++ b :: body ∧
    len < 65536 ∧ (code = fc ∨ code = Z.lor fc 128).

Lemma length_field n : 0 <= n < 65536 →
  wrap_u 8 (Z.shiftr n 8) = n / 256 ∧ Z.land n 255 = n mod 256.
Proof.
  intros Hn. split.
  - rewrite Z.shiftr_div_pow2 by lia. change (2 ^ 8) with 256. unfold wrap_u. change (2 ^ 8) with 256.
    apply Z.mod_small. split; [apply Z.div_pos; lia | apply Z.div_lt_upper_bound; lia].
  - change 255 with (Z.ones 8). by rewrite Z.land_ones by lia.
Qed.

Lemma exception_framed mbap fc exc : framed mbap fc (exception_response mbap fc exc).
Proof. exists (Z.lor fc 128), exc, []. cbn. split_and!; [done | lia | by right]. Qed.

Lemma read_framed mbap fc data :
  Z.of_nat (length data) < 65533 → framed mbap fc (read_response mbap fc data).
Proof.
  intros Hl. exists fc, (wrap_u 8 (Z.of_nat (length data))), data. cbn zeta. split_and!; [|lia|by left].
  unfold read_response. destruct (length_field (2 + Z.of_nat (length data) + 1)) as [-> ->]; [lia|].
  by replace (2 + Z.of_nat (length data) + 1) with (3 + Z.of_nat (length data)) by lia.
Qed.

Lemma echo_framed mbap fc data :
  (0 < length data)%nat → Z.of_nat (length data) < 65534 → framed mbap fc (echo_response mbap fc data).
Proof.
  intros Hne Hl. destruct data as [|b body]; [cbn in Hne; lia|]. exists fc, b, body. cbn zeta.
  cbn [length] in Hl. split_and!; [|lia|by left]. unfold echo_response. cbn [length].
  destruct (length_field (1 + Z.of_nat (S (length body)) + 1)) as [-> ->]; [lia|].
  by replace (1 + Z.of_nat (S (length body)) + 1) with (3 + Z.of_nat (length body)) by lia.
Qed.

Lemma read_coils_length d n start i t res t' bytes :
  read_coils_loop d n start i t res = Some (t', Ok bytes) → length bytes = length res.
Proof.
  revert i t res. induction n as [|n IH]; intros i t res; cbn; [by intros [= <- <-]|].
  intros Hl. apply bind_Some in Hl as (a & _ & Hl). destruct (read_coil_signal d t a) as [t1 [[|]|]]; [..|done].
  - apply IH in Hl. rewrite Hl. apply length_alter.
  - by apply IH in Hl.
Qed.

Lemma read_inputs_length d n start i t res t' bytes :
  read_inputs_loop d n start i t res = Some (t', bytes) → length bytes = length res.
Proof.
  revert i t res. induction n as [|n IH]; intros i t res; cbn; [by intros [= <- <-]|].
  intros Hl. apply bind_Some in Hl as (a & _ & Hl). destruct (td_discrete_inputs d !! a); [|by apply IH in Hl].
  destruct (read_signal t s) as [t1 v]. apply IH in Hl. rewrite Hl.
  destruct v as [[[[]| | | | | | | | | | | | |] ?]|]; try done. apply length_alter.
Qed.

Lemma read_registers_length m n start i t res t' bytes :
  read_registers_loop m n start i t res = Some (t', Ok bytes) → length bytes = length res.
Proof.
  revert i t res. induction n as [|n IH]; intros i t res; cbn; [by intros [= <- <-]|].
  intros Hl. apply bind_Some in Hl as (a & _ & Hl). destruct (read_register_signal t m a) as [t1 [v|]]; [|done].
  apply IH in Hl. rewrite Hl. unfold set_word. by rewrite !length_insert.
Qed.

Lemma respond_write_framed mbap fc echo x t' ds resp :
  (0 < length echo)%nat → Z.of_nat (length echo) < 65534 →
  respond_write mbap fc echo x = Some (t', ds, resp) → framed mbap fc resp.
Proof.
  unfold respond_write. destruct x as [[? ?] [u|exc]]; intros H1 H2 [= <- <- <-];
    [by apply echo_framed | apply exception_framed].
Qed.

Lemma read_coils_framed d t mbap data t' ds resp :
  handle_read_coils d t mbap data = Some (t', ds, resp) → framed mbap 1 resp.
Proof.
  unfold handle_read_coils. destruct (_ <? 4)%nat; [intros [= <- <- <-]; apply exception_framed|].
  set (count := be16 _ (byte_at data 3)).
  destruct (Z.eqb_spec count 0), (Z.gtb_spec count 2000); cbn [orb];
    try (intros [= <- <- <-]; apply exception_framed).
  intros Hh. apply bind_Some in Hh as ([t1 res] & Hl & [= <- <- <-]).
  destruct res as [bytes|exc]; [|apply exception_framed]. apply read_framed.
  apply read_coils_length in Hl. rewrite Hl, length_replicate.
  assert ((count + 7) / 8 <= 250); [|lia]. transitivity (2007 / 8); [apply Z.div_le_mono; lia | done].
Qed.

Lemma read_inputs_framed d t mbap data t' ds resp :
  handle_read_discrete_inputs d t mbap data = Some (t', ds, resp) → framed mbap 2 resp.
Proof.
  unfold handle_read_discrete_inputs. destruct (_ <? 4)%nat; [intros [= <- <- <-]; apply exception_framed|].
  set (count := be16 _ (byte_at data 3)).
  destruct (Z.eqb_spec count 0), (Z.gtb_spec count 2000); cbn [orb];
    try (intros [= <- <- <-]; apply exception_framed).
  intros Hh. apply bind_Some in Hh as ([t1 bytes] & Hl & [= <- <- <-]). apply read_framed.
  apply read_inputs_length in Hl. rewrite Hl, length_replicate.
  assert ((count + 7) / 8 <= 250); [|lia]. transitivity (2007 / 8); [apply Z.div_le_mono; lia | done].
Qed.

Lemma read_registers_framed t mbap fc data m t' ds resp :
  handle_read_registers t mbap fc data m = Some (t', ds, resp) → framed mbap fc resp.
Proof.
  unfold handle_read_registers. destruct (_ <? 4)%nat; [intros [= <- <- <-]; apply exception_framed|].
  set (count := be16 _ (byte_at data 3)).
  destruct (Z.eqb_spec count 0), (Z.gtb_spec count 125); cbn [orb];
    try (intros [= <- <- <-]; apply exception_framed).
  intros Hh. apply bind_Some in Hh as ([t1 res] & Hl & [= <- <- <-]).
  destruct res as [bytes|exc]; [|apply exception_framed]. apply read_framed.
  apply read_registers_length in Hl. rewrite Hl, length_replicate. lia.
Qed.

Lemma write_framed d t mbap data t' ds resp :
  Z.of_nat (length data) < 65534 →
  (handle_write_single_coil d t mbap data = Some (t', ds, resp) → framed mbap 5 resp) ∧
  (handle_write_single_register d t mbap data = Some (t', ds, resp) → framed mbap 6 resp) ∧
  (handle_write_multiple_coils d t mbap data = Some (t', ds, resp) → framed mbap 15 resp) ∧
  (handle_write_multiple_registers d t mbap data = Some (t', ds, resp) → framed mbap 16 resp).
Proof.
  intros Hl. unfold handle_write_single_coil, handle_write_single_register,
    handle_write_multiple_coils, handle_write_multiple_registers. split_and!.
  - destruct (Nat.ltb_spec (length data) 4); [|destruct (_ =? 65280); [|destruct (_ =? 0)]];
      try (intros [= <- <- <-]; apply exception_framed);
      intros Hr; refine (respond_write_framed _ _ _ _ _ _ _ _ _ Hr); lia.
  - destruct (Nat.ltb_spec (length data) 4); [intros [= <- <- <-]; apply exception_framed|].
    intros Hr; refine (respond_write_framed _ _ _ _ _ _ _ _ _ Hr); lia.
  - destruct (Nat.ltb_spec (length data) 6); [intros [= <- <- <-]; apply exception_framed|].
    intros Hr; refine (respond_write_framed _ _ _ _ _ _ _ _ _ Hr); rewrite length_take; lia.
  - destruct (Nat.ltb_spec (length data) 8); [intros [= <- <- <-]; apply exception_framed|].
    intros Hr; refine (respond_write_framed _ _ _ _ _ _ _ _ _ Hr); rewrite length_take; lia.
Qed.

(** Every response is a Modbus frame: whatever the request and the state of
    the signals, the response carries the request's transaction and unit
    identifiers, protocol zero, a length field equal to the number of bytes
    that follow it, the request's function code (with its top bit set for an
    exception), and at least one byte of data. *)
Theorem modbus_response_framed d t mbap fc data t' ds resp :
  Z.of_nat (length data) < 65534 →
  handle_request d t mbap (fc :: data) = Some (t', ds, resp) → framed mbap fc resp.
Proof.
  intros Hl. destruct (write_framed d t mbap data t' ds resp Hl) as (W5 & W6 & W15 & W16).
  unfold handle_request.
  destruct (Z.eqb_spec fc 1) as [->|]; [apply read_coils_framed|].
  destruct (Z.eqb_spec fc 2) as [->|]; [apply read_inputs_framed|].
  destruct (Z.eqb_spec fc 3) as [->|]; [apply read_registers_framed|].
  destruct (Z.eqb_spec fc 4) as [->|]; [apply read_registers_framed|].
  destruct (Z.eqb_spec fc 5) as [->|]; [exact W5|].
  destruct (Z.eqb_spec fc 6) as [->|]; [exact W6|].
  destruct (Z.eqb_spec fc 15) as [->|]; [exact W15|].
  destruct (Z.eqb_spec fc 16) as [->|]; [exact W16|].
  intros [= <- <- <-]. apply exception_framed.
Qed.

(** ** Reading and writing registers *)
Context {HL : HalTransportLaws T}.

Definition register_value (t : T) (name : string) : Z :=
  register_of_value (match (read_signal t name).2 with Some (v, _) => v | None => VU16 0 end).
Definition word_bytes (v : Z) : list Z := [wrap_u 8 (Z.shiftr v 8); Z.land v 255].

Lemma set_word_spec done zs v i :
  length done = Z.to_nat (i * 2) →
  set_word (done ++ 0 :: 0 :: zs) i v = done ++ word_bytes v ++ zs.
Proof.
  intros Hl. unfold set_word. rewrite <- Hl.
  rewrite insert_app_r_alt by lia. rewrite Nat.sub_diag. cbn [insert list_insert].
  rewrite insert_app_r_alt by lia. by replace (S (length done) - length done)%nat with 1%nat by lia.
Qed.

Lemma arith_small a : 0 <= a < 65536 → arith false 16 a = Some a.
Proof. intros Ha. apply arith_exact, in_u_spec. cbn. lia. Qed.

Lemma read_registers_mapped m names start i t done :
  0 <= start → 0 <= i → start + i + Z.of_nat (length names) <= 65536 →
  length done = Z.to_nat (i * 2) →
  (∀ k name, names !! k = Some name → m !! (start + i + Z.of_nat k) = Some name) →
  ∃ t', read_registers_loop m (length names) start i t (done ++ replicate (2 * length names) 0) =
          Some (t', Ok (done ++ concat (map (fun n => word_bytes (register_value t n)) names))) ∧
        ∀ n, (read_signal t' n).2 = (read_signal t n).2.
Proof.
  intros Hs. revert i t done. induction names as [|name names IH]; intros i t done Hi Hb Hl Hm.
  { cbn. by exists t. }
  cbn [length] in Hb |- *. cbn [read_registers_loop].
  rewrite arith_small by lia. cbn [mbind option_bind].
  assert (m !! (start + i) = Some name) as Hn.
  { rewrite <- (Hm 0%nat name eq_refl). f_equal. lia. }
  unfold read_register_signal. rewrite Hn. destruct (read_signal t name) as [t1 v] eqn:E.
  assert (∀ n, (read_signal t1 n).2 = (read_signal t n).2) as Hsame.
  { intros n. by rewrite <- (read_read t name n), E. }
  replace (2 * S (length names))%nat with (S (S (2 * length names))) by lia. cbn [replicate].
  rewrite set_word_spec by done. rewrite (assoc_L (++)).
  destruct (IH (i + 1) t1 (done ++ word_bytes (register_of_value
              (match v with Some (v, _) => v | None => VU16 0 end)))) as (t2 & Hr & Ht2); try lia.
  - rewrite length_app. cbn [length word_bytes]. lia.
  - intros k n' Hk. rewrite <- (Hm (S k) n' Hk). f_equal. lia.
  - exists t2. split; [|by intros n; rewrite Ht2].
    rewrite Hr. do 3 f_equal. rewrite <- (assoc_L (++)). f_equal. cbn [map concat]. f_equal.
    + unfold register_value. by rewrite E.
    + f_equal. apply map_ext. intros n. unfold register_value. by rewrite Hsame.
Qed.

Lemma be16_bytes a : be16 (a / 256) (a mod 256) = a.
Proof. unfold be16. pose proof (Z.div_mod a 256). lia. Qed.

(** A read request's data. *)
Definition read_data (start count : Z) : list Z := [start / 256; start mod 256; count / 256; count mod 256].

Lemma handle_read_registers_run t mbap fc start count m :
  0 < count <= 125 →
  handle_read_registers t mbap fc (read_data start count) m =
  ('(t, res) ← read_registers_loop m (Z.to_nat count) start 0 t (replicate (Z.to_nat (count * 2)) 0);
   Some (t, [], match res with
                | Ok bytes => read_response mbap fc bytes
                | Err exc => exception_response mbap fc exc
                end)).
Proof.
  intros Hc. unfold handle_read_registers, read_data, byte_at. cbn [length nth Nat.ltb Nat.leb].
  rewrite !be16_bytes. destruct (Z.eqb_spec count 0), (Z.gtb_spec count 125); lia || done.
Qed.

Lemma read_registers_none m n start i t res :
  read_registers_loop m n start i t res = None → 0 <= start → 0 <= i →
  overflow_checks = true ∧ 65536 < start + i + Z.of_nat n.
Proof.
  revert i t res. induction n as [|n IH]; intros i t res; cbn; [done|]. intros Hl Hs Hi.
  destruct (arith false 16 (start + i)) as [a|] eqn:Ea.
  - cbn in Hl. destruct (read_register_signal t m a) as [t1 [v|]]; [|done].
    destruct (IH _ _ _ Hl) as [Ho Hlt]; [lia..|]. split; [done | lia].
  - unfold arith in Ea. destruct (in_int false 16 (start + i)) eqn:E; [done|].
    destruct overflow_checks; [|done]. split; [done|].
    destruct (Z.lt_ge_cases (start + i) 65536) as [Hlt|]; [|lia].
    assert (in_int false 16 (start + i) = true) as Ht by (apply in_u_spec; cbn; lia). congruence.
Qed.

(** Reading registers: if every register of the range is mapped and the
    range stays within the address space, the response carries the values of
    the mapped signals, in address order and big-endian, and no signal changes;
    the handler panics only on a range that runs past the last address, in a
    build with overflow checks. *)
Theorem read_registers_spec t mbap fc start count m names :
  0 <= start → 0 < count <= 125 → length names = Z.to_nat count →
  (start + count <= 65536 →
   (∀ k name, names !! k = Some name → m !! (start + Z.of_nat k) = Some name) →
   ∃ t', handle_read_registers t mbap fc (read_data start count) m =
           Some (t', [], read_response mbap fc
                           (concat (map (fun n => word_bytes (register_value t n)) names))) ∧
         ∀ n, (read_signal t' n).2 = (read_signal t n).2) ∧
  (handle_read_registers t mbap fc (read_data start count) m = None →
   overflow_checks = true ∧ 65536 < start + count).
Proof.
  intros Hs Hc Hn. rewrite handle_read_registers_run by done. split.
  - intros Hb Hm. destruct (read_registers_mapped m names start 0 t []) as (t' & Hr & Ht'); try done; try lia.
    { intros k name Hk. rewrite <- (Hm k name Hk). f_equal. lia. }
    cbn [app] in Hr. rewrite Hn in Hr. replace (2 * Z.to_nat count)%nat with (Z.to_nat (count * 2)) in Hr by lia.
    rewrite Hr. by exists t'.
  - destruct (read_registers_loop _ _ _ _ _ _) as [[t1 res]|] eqn:E; [done|]. intros _.
    apply read_registers_none in E as [Ho Hlt]; [|lia..]. split; [done | lia].
Qed.

Lemma read_data_start a n : be16 (byte_at (read_data a n) 0) (byte_at (read_data a n) 1) = a.
Proof. apply be16_bytes. Qed.
Lemma read_data_count a n : be16 (byte_at (read_data a n) 2) (byte_at (read_data a n) 3) = n.
Proof. apply be16_bytes. Qed.

Lemma register_roundtrip d t mbap a v reg :
  0 <= a < 65536 → 0 <= v < 65536 → td_holding_regs d !! a = Some reg →
  ∃ t1 ds t2,
    handle_write_single_register d t mbap (read_data a v) = Some (t1, ds, echo_response mbap 6 (read_data a v)) ∧
    handle_read_registers t1 mbap 3 (read_data a 1) (td_holding_regs d)
      = Some (t2, [], read_response mbap 3 [v / 256; v mod 256]).
Proof.
  intros Ha Hv Hreg. unfold handle_write_single_register.
  rewrite read_data_start, read_data_count. cbn [length read_data Nat.ltb Nat.leb].
  unfold write_register_signal. rewrite Hreg.
  destruct (publish_signal t reg (VU16 v) zero_ts) as [t1 ds] eqn:Ep.
  assert ((read_signal t1 reg).2 = Some (VU16 v, zero_ts)) as Hr
    by (by rewrite <- (read_publish_same t reg (VU16 v) zero_ts), Ep).
  destruct (read_registers_mapped (td_holding_regs d) [reg] a 0 t1 []) as (t2 & Hl & _);
    [lia | lia | cbn; lia | done | |].
  { intros [|k] name Hk; [|done]. injection Hk as <-. rewrite <- Hreg. f_equal. lia. }
  exists t1, ds, t2. split; [done|]. rewrite handle_read_registers_run by lia.
  cbn [app length] in Hl.
  change (Z.to_nat 1) with 1%nat. change (Z.to_nat (1 * 2)) with (2 * 1)%nat. rewrite Hl. cbn.
  unfold register_value. rewrite Hr. cbn [register_of_value].
  by destruct (length_field v Hv) as [-> ->].
Qed.

Lemma coil_roundtrip d t mbap a b coil :
  0 <= a < 65536 → td_coils d !! a = Some coil →
  let w := if b : bool then 65280 else 0 in
  ∃ t1 ds t2,
    handle_write_single_coil d t mbap (read_data a w) = Some (t1, ds, echo_response mbap 5 (read_data a w)) ∧
    handle_read_coils d t1 mbap (read_data a 1) = Some (t2, [], read_response mbap 1 [if b then 1 else 0]).
Proof.
  intros Ha Hcoil. cbn zeta.
  destruct (publish_signal t coil (VBool b) zero_ts) as [t1 ds] eqn:Ep.
  assert ((read_signal t1 coil).2 = Some (VBool b, zero_ts)) as Hr
    by (by rewrite <- (read_publish_same t coil (VBool b) zero_ts), Ep).
  destruct (read_signal t1 coil) as [t2 v'] eqn:Er. cbn [snd] in Hr. subst v'.
  exists t1, ds, t2. split.
  - unfold handle_write_single_coil. rewrite read_data_start, read_data_count.
    cbn [length read_data Nat.ltb Nat.leb]. unfold write_coil_signal. rewrite Hcoil.
    destruct b; cbn [Z.eqb Pos.eqb]; by rewrite Ep.
  - unfold handle_read_coils. rewrite read_data_start, read_data_count.
    cbn [length read_data Nat.ltb Nat.leb Z.eqb Z.gtb Z.compare orb].
    change (Z.to_nat 1) with 1%nat. cbn [read_coils_loop].
    rewrite Z.add_0_r, arith_small by done. cbn [mbind option_bind].
    unfold read_coil_signal. rewrite Hcoil, Er. cbn. by destruct b.
Qed.

(** A register written over Modbus is read back over Modbus: for a mapped
    holding register, function 6 answers with an echo of the request and
    function 3 then returns the value; likewise functions 5 and 1 for a mapped
    coil. *)
Theorem write_read_roundtrip d t mbap a v b reg coil :
  0 <= a < 65536 → 0 <= v < 65536 →
  td_holding_regs d !! a = Some reg → td_coils d !! a = Some coil →
  (∃ t1 ds t2,
    handle_request d t mbap (6 :: read_data a v) = Some (t1, ds, echo_response mbap 6 (read_data a v)) ∧
    handle_request d t1 mbap (3 :: read_data a 1) = Some (t2, [], read_response mbap 3 [v / 256; v mod 256])) ∧
  (∃ t1 ds t2, let w := if b : bool then 65280 else 0 in
    handle_request d t mbap (5 :: read_data a w) = Some (t1, ds, echo_response mbap 5 (read_data a w)) ∧
    handle_request d t1 mbap (1 :: read_data a 1) = Some (t2, [], read_response mbap 1 [if b then 1 else 0])).
Proof.
  intros Ha Hv Hreg Hcoil. split; [by eapply register_roundtrip | by eapply coil_roundtrip].
Qed.

(** ** Connections *)

(** A request frame: transaction and unit identifiers and a PDU. *)
Record Request := mkRequest { rq_tid : Z; rq_unit : Z; rq_pdu : list Z }.
Definition request_mbap (r : Request) : list Z :=
  let len := 1 + Z.of_nat (length (rq_pdu r)) in
  [rq_tid r / 256; rq_tid r mod 256; 0; 0; len / 256; len mod 256; rq_unit r].
Definition request_frame (r : Request) : list Z := request_mbap r ++ rq_pdu r.
Definition request_ok (r : Request) : Prop := (1 <= length (rq_pdu r))%nat ∧ Z.of_nat (length (rq_pdu r)) < 65535.

(** Requests handled one after the other. *)
Fixpoint serve (d : ThreadDevice) (t : T) (rs : list Request) : option (T * list Delivery * list (list Z)) :=
  match rs with
  | [] => Some (t, [], [])
  | r :: rs =>
      '(t, ds, resp) ← handle_request d t (request_mbap r) (rq_pdu r);
      '(t, ds', resps) ← serve d t rs;
      Some (t, ds ++ ds', resp :: resps)
  end.

(** Framing: on a byte stream that is a sequence of request frames followed
    by fewer than seven further bytes, the connection loop splits it into
    exactly those requests and handles them in order, one response each, and
    the incomplete rest is dropped. *)
Theorem client_serves_frames d t rs rest fuel :
  Forall request_ok rs → (length rest < 7)%nat → (length rs < fuel)%nat →
  handle_client fuel d t (concat (map request_frame rs) ++ rest) = serve d t rs.
Proof.
  intros Hrs Hrest. revert t fuel. induction Hrs as [|r rs [H1 H2] Hrs IH]; intros t fuel Hf;
    (destruct fuel as [|fuel]; [cbn in Hf; lia|]).
  - cbn [map concat handle_client serve app]. by rewrite (proj2 (Nat.ltb_lt _ MBAP_HEADER_LEN)) by done.
  - cbn [length] in Hf. cbn [map concat handle_client serve].
    set (tl := concat (map request_frame rs) ++ rest). rewrite <- !(assoc_L (++)). fold tl.
    rewrite (proj2 (Nat.ltb_ge (length _) _))
      by (unfold MBAP_HEADER_LEN, request_frame; rewrite !length_app; unfold request_mbap; cbn [length]; lia).
    change (take MBAP_HEADER_LEN (request_frame r ++ tl)) with (request_mbap r).
    change (drop MBAP_HEADER_LEN (request_frame r ++ tl)) with (rq_pdu r ++ tl).
    change (byte_at (request_mbap r) 4) with ((1 + Z.of_nat (length (rq_pdu r))) / 256).
    change (byte_at (request_mbap r) 5) with ((1 + Z.of_nat (length (rq_pdu r))) mod 256).
    rewrite be16_bytes, (proj2 (Z.ltb_ge _ _)) by lia.
    replace (Z.to_nat (1 + Z.of_nat (length (rq_pdu r)) - 1)) with (length (rq_pdu r)) by lia.
    rewrite (proj2 (Nat.ltb_ge (length _) _)) by (rewrite length_app; lia).
    rewrite take_app_length, drop_app_length.
    destruct (handle_request d t (request_mbap r) (rq_pdu r)) as [[[t1 ds] resp]|]; [|done].
    cbn [mbind option_bind]. rewrite IH by lia. done.
Qed.
End device.

(** ** Witnesses *)
Definition demo_device : ThreadDevice :=
  mkThread {[7 := "pump.on"]} {[7 := "pump.speed"]} {[9 := "tank.level"]} ∅.
Definition demo_mbap : list Z := [0; 1; 0; 0; 0; 6; 17].

Lemma modbus_response_framed_witness :
  ∃ t' ds resp, handle_request (HB := debug_profile) demo_device transport_new demo_mbap [3; 0; 7; 0; 1]
    = Some (t', ds, resp) ∧ framed demo_mbap 3 resp.
Proof.
  destruct (handle_request (HB := debug_profile) demo_device transport_new demo_mbap [3; 0; 7; 0; 1])
    as [[[t' ds] resp]|] eqn:E; [|vm_compute in E; discriminate E].
  exists t', ds, resp. split; [reflexivity|].
  apply (modbus_response_framed (HB := debug_profile) demo_device transport_new demo_mbap 3 [0; 7; 0; 1] t' ds);
    [reflexivity | exact E].
Defined.

Lemma read_registers_spec_witness :
  ∃ t', handle_read_registers (HB := debug_profile) transport_new demo_mbap 3 (read_data 7 1)
          (td_holding_regs demo_device) = Some (t', [], read_response demo_mbap 3 [0; 0]).
Proof.
  destruct (read_registers_spec (HB := debug_profile) transport_new demo_mbap 3 7 1
              (td_holding_regs demo_device) ["pump.speed"]) as [H _]; [lia | lia | reflexivity |].
  destruct H as (t' & Ht & _); [lia | | exists t'; exact Ht].
  intros [|k] name Hk; [|discriminate Hk]. injection Hk as <-. reflexivity.
Defined.

Lemma write_read_roundtrip_witness :
  ∃ t1 ds, handle_request (HB := debug_profile) demo_device transport_new demo_mbap (6 :: read_data 7 500)
    = Some (t1, ds, echo_response demo_mbap 6 (read_data 7 500)).
Proof.
  destruct (write_read_roundtrip (HB := debug_profile) demo_device transport_new demo_mbap 7 500 true
              "pump.speed" "pump.on") as [(t1 & ds & t2 & H & _) _]; [lia | lia | reflexivity | reflexivity |].
  exists t1, ds. exact H.
Defined.

Lemma client_serves_frames_witness :
  handle_client (HB := debug_profile) 3 demo_device transport_new
    (concat (map request_frame [mkRequest 1 17 [3; 0; 7; 0; 1]; mkRequest 2 17 [6; 0; 7; 1; 244]]) ++ [0; 3])
  = serve (HB := debug_profile) demo_device transport_new
      [mkRequest 1 17 [3; 0; 7; 0; 1]; mkRequest 2 17 [6; 0; 7; 1; 244]].
Proof.
  apply client_serves_frames; [|cbn; lia|cbn; lia].
  repeat (apply Forall_cons; split; [split; cbn; lia|]). constructor.
Defined.
