(* ===== verification/ModbusDevice.v ===== *)
(** * The handlers on the virtual Modbus device itself ([audesys-runtime/src/virtual_modbus.rs])

    [VirtualModbusTcpDevice] has handlers of its own, next to those of
    [ThreadDevice] that the listener thread runs.  They use the device's
    optional transport: [None] is a panic, of a handler of an unbound device or
    of [start + i].  The two copies agree except on one request. *)
From S2P Require Import Prelude Float HalTypes HalValue.
From S2P Require Import Transport Text Modbus.
Local Open Scope Z_scope.

Section device.
Context {HB : BuildProfile} {T : Type} {HT : HalTransport T}.

(** The device and the transport it is bound to, if any. *)
Local Abbreviation Device := VirtualModbusTcpDevice (only parsing).

(** [self.transport.as_ref().expect("transport not bound")] *)
Definition bound_transport (d : Device) (t : T) : option T := if md_bound d then Some t else None.

Definition device_read_coil_signal (d : Device) (t : T) (a : Z) : option (T * result bool Z) :=
  match coils d !! a with
  | None => Some (t, Err ILLEGAL_DATA_ADDRESS)
  | Some name =>
      t ← bound_transport d t;
      let '(t, v) := read_signal t name in
      let v := match v with Some (v, _) => v | None => VBool false end in
      Some (t, Ok (match v with
                   | VBool b => b
                   | VU16 n => negb (n =? 0)
                   | VU32 n => negb (n =? 0)
                   | _ => false
                   end))
  end.

Definition device_write_coil_signal (d : Device) (t : T) (a : Z) (value : bool)
  : option (T * list Delivery * result unit Z) :=
  match coils d !! a with
  | None => Some (t, [], Err ILLEGAL_DATA_ADDRESS)
  | Some name =>
      t ← bound_transport d t;
      let '(t, ds) := publish_signal t name (VBool value) zero_ts in Some (t, ds, Ok tt)
  end.

Definition device_read_register_signal (d : Device) (t : T) (m : gmap Z string) (a : Z)
  : option (T * result Z Z) :=
  match m !! a with
  | None => Some (t, Err ILLEGAL_DATA_ADDRESS)
  | Some name =>
      t ← bound_transport d t;
      let '(t, v) := read_signal t name in
      let v := match v with Some (v, _) => v | None => VU16 0 end in
      Some (t, Ok (match v with
                   | VU16 n => n
                   | VU32 n => wrap_u 16 n
                   | VS32 n => wrap_u 16 n
                   | VF32 bits => float_to_int binary32 false 16 bits
                   | VBool b => if b then 1 else 0
                   | _ => 0
                   end))
  end.

Definition device_write_register_signal (d : Device) (t : T) (m : gmap Z string) (a value : Z)
  : option (T * list Delivery * result unit Z) :=
  match m !! a with
  | None => Some (t, [], Err ILLEGAL_DATA_ADDRESS)
  | Some name =>
      t ← bound_transport d t;
      let '(t, ds) := publish_signal t name (VU16 value) zero_ts in Some (t, ds, Ok tt)
  end.

(** ** Handlers *)
Fixpoint device_coils_loop (d : Device) (n : nat) (start i : Z) (t : T) (res : list Z)
  : option (T * result (list Z) Z) :=
  match n with
  | O => Some (t, Ok res)
  | S n =>
      a ← arith false 16 (start + i);
      '(t, b) ← device_read_coil_signal d t a;
      match b with
      | Ok true => device_coils_loop d n start (i + 1) t (set_bit res i)
      | Ok false => device_coils_loop d n start (i + 1) t res
      | Err exc => Some (t, Err exc)
      end
  end.

Definition device_read_coils (d : Device) (t : T) (mbap data : list Z) : Handled :=
  if (length data <? 4)%nat then Some (t, [], exception_response mbap 1 ILLEGAL_DATA_VALUE)
  else
    let start := be16 (byte_at data 0) (byte_at data 1) in
    let count := be16 (byte_at data 2) (byte_at data 3) in
    if (count =? 0) || (count >? 2000) then Some (t, [], exception_response mbap 1 ILLEGAL_DATA_VALUE)
    else
      let byte_count := Z.to_nat ((count + 7) / 8) in
      '(t, res) ← device_coils_loop d (Z.to_nat count) start 0 t (replicate byte_count 0);
      Some (t, [], match res with
                   | Ok result => read_response mbap 1 result
                   | Err exc => exception_response mbap 1 exc
                   end).

(** An unmapped input reads as false, and so does every input of an unbound
    device. *)
Fixpoint device_inputs_loop (d : Device) (n : nat) (start i : Z) (t : T) (res : list Z)
  : option (T * list Z) :=
  match n with
  | O => Some (t, res)
  | S n =>
      a ← arith false 16 (start + i);
      match discrete_inputs d !! a, bound_transport d t with
      | None, _ | _, None => device_inputs_loop d n start (i + 1) t res
      | Some name, Some t =>
          let '(t, v) := read_signal t name in
          device_inputs_loop d n start (i + 1) t
            (match v with Some (VBool true, _) => set_bit res i | _ => res end)
      end
  end.

Definition device_read_discrete_inputs (d : Device) (t : T) (mbap data : list Z) : Handled :=
  if (length data <? 4)%nat then Some (t, [], exception_response mbap 2 ILLEGAL_DATA_VALUE)
  else
    let start := be16 (byte_at data 0) (byte_at data 1) in
    let count := be16 (byte_at data 2) (byte_at data 3) in
    if (count =? 0) || (count >? 2000) then Some (t, [], exception_response mbap 2 ILLEGAL_DATA_VALUE)
    else
      let byte_count := Z.to_nat ((count + 7) / 8) in
      '(t, result) ← device_inputs_loop d (Z.to_nat count) start 0 t (replicate byte_count 0);
      Some (t, [], read_response mbap 2 result).

Fixpoint device_registers_loop (d : Device) (m : gmap Z string) (n : nat) (start i : Z) (t : T) (res : list Z)
  : option (T * result (list Z) Z) :=
  match n with
  | O => Some (t, Ok res)
  | S n =>
      a ← arith false 16 (start + i);
      '(t, v) ← device_read_register_signal d t m a;
      match v with
      | Ok val => device_registers_loop d m n start (i + 1) t (set_word res i val)
      | Err exc => Some (t, Err exc)
      end
  end.

Definition device_read_registers (d : Device) (t : T) (mbap : list Z) (func_code : Z) (data : list Z)
    (m : gmap Z string) : Handled :=
  if (length data <? 4)%nat then Some (t, [], exception_response mbap func_code ILLEGAL_DATA_VALUE)
  else
    let start := be16 (byte_at data 0) (byte_at data 1) in
    let count := be16 (byte_at data 2) (byte_at data 3) in
    if (count =? 0) || (count >? 125) then Some (t, [], exception_response mbap func_code ILLEGAL_DATA_VALUE)
    else
      let byte_count := Z.to_nat (count * 2) in
      '(t, res) ← device_registers_loop d m (Z.to_nat count) start 0 t (replicate byte_count 0);
      Some (t, [], match res with
                   | Ok result => read_response mbap func_code result
                   | Err exc => exception_response mbap func_code exc
                   end).
Definition device_read_holding_registers (d : Device) (t : T) (mbap data : list Z) : Handled :=
  device_read_registers d t mbap 3 data (holding_regs d).
Definition device_read_input_registers (d : Device) (t : T) (mbap data : list Z) : Handled :=
  device_read_registers d t mbap 4 data (input_regs d).

Definition device_respond (mbap : list Z) (func_code : Z) (echo : list Z)
    (x : option (T * list Delivery * result unit Z)) : Handled :=
  '(t, ds, res) ← x;
  Some (t, ds, match res with
               | Ok _ => echo_response mbap func_code echo
               | Err exc => exception_response mbap func_code exc
               end).

Definition device_write_single_coil (d : Device) (t : T) (mbap data : list Z) : Handled :=
  if (length data <? 4)%nat then Some (t, [], exception_response mbap 5 ILLEGAL_DATA_VALUE)
  else
    let a := be16 (byte_at data 0) (byte_at data 1) in
    let w := be16 (byte_at data 2) (byte_at data 3) in
    if w =? 65280 then device_respond mbap 5 data (device_write_coil_signal d t a true)
    else if w =? 0 then device_respond mbap 5 data (device_write_coil_signal d t a false)
    else Some (t, [], exception_response mbap 5 ILLEGAL_DATA_VALUE).

Definition device_write_single_register (d : Device) (t : T) (mbap data : list Z) : Handled :=
  if (length data <? 4)%nat then Some (t, [], exception_response mbap 6 ILLEGAL_DATA_VALUE)
  else
    let a := be16 (byte_at data 0) (byte_at data 1) in
    let value := be16 (byte_at data 2) (byte_at data 3) in
    device_respond mbap 6 data (device_write_register_signal d t (holding_regs d) a value).

Definition device_write_multiple_coils (d : Device) (t : T) (mbap data : list Z) : Handled :=
  if (length data <? 5)%nat then Some (t, [], exception_response mbap 15 ILLEGAL_DATA_VALUE)
  else
    let a := be16 (byte_at data 0) (byte_at data 1) in
    if (length data <? 6)%nat then Some (t, [], exception_response mbap 15 ILLEGAL_DATA_VALUE)
    else
      let value := Z.land (byte_at data 5) 1 in
      device_respond mbap 15 (take 4 data) (device_write_coil_signal d t a (negb (value =? 0))).

Definition device_write_multiple_registers (d : Device) (t : T) (mbap data : list Z) : Handled :=
  if (length data <? 7)%nat then Some (t, [], exception_response mbap 16 ILLEGAL_DATA_VALUE)
  else
    let a := be16 (byte_at data 0) (byte_at data 1) in
    let value := be16 (byte_at data 5) (byte_at data 6) in
    device_respond mbap 16 (take 4 data) (device_write_register_signal d t (holding_regs d) a value).

Definition device_handle_request (d : Device) (t : T) (mbap pdu : list Z) : Handled :=
  match pdu with
  | [] => Some (t, [], exception_response mbap 0 ILLEGAL_FUNCTION)
  | func_code :: data =>
      if func_code =? 1 then device_read_coils d t mbap data
      else if func_code =? 2 then device_read_discrete_inputs d t mbap data
      else if func_code =? 3 then device_read_holding_registers d t mbap data
      else if func_code =? 4 then device_read_input_registers d t mbap data
      else if func_code =? 5 then device_write_single_coil d t mbap data
      else if func_code =? 6 then device_write_single_register d t mbap data
      else if func_code =? 15 then device_write_multiple_coils d t mbap data
      else if func_code =? 16 then device_write_multiple_registers d t mbap data
      else Some (t, [], exception_response mbap func_code ILLEGAL_FUNCTION)
  end.

(** A connection, on the bytes the client sends before it closes or goes quiet. *)
Fixpoint device_handle_client (fuel : nat) (d : Device) (t : T) (input : list Z)
  : option (T * list Delivery * list (list Z)) :=
  match fuel with
  | O => Some (t, [], [])
  | S fuel =>
      if negb (md_running d) then Some (t, [], [])
      else if (length input <? MBAP_HEADER_LEN)%nat then Some (t, [], [])
      else
        let mbap := take MBAP_HEADER_LEN input in
        let input := drop MBAP_HEADER_LEN input in
        let pdu_len := be16 (byte_at mbap 4) (byte_at mbap 5) in
        if pdu_len <? 2 then Some (t, [], [])
        else
          let pdu_size := Z.to_nat (pdu_len - 1) in
          if (length input <? pdu_size)%nat then Some (t, [], [])
          else
            '(t, ds, resp) ← device_handle_request d t mbap (take pdu_size input);
            '(t, ds', resps) ← device_handle_client fuel d t (drop pdu_size input);
            Some (t, ds ++ ds', resp :: resps)
  end.

(** [stop], which [drop] calls too. *)
Definition stop_device (d : Device) : Device :=
  mkDevice (md_addr d) (md_bound d) (coils d) (holding_regs d) (input_regs d) (discrete_inputs d) false.
Definition device_default : Device := device_new "127.0.0.1:1502".

(** ** The two copies

    The maps [start] hands to the listener thread. *)
Definition thread_of (d : Device) : ThreadDevice :=
  mkThread (coils d) (holding_regs d) (input_regs d) (discrete_inputs d).

Context (d : Device) (Hbound : md_bound d = true).

Lemma bound_some t : bound_transport d t = Some t.
Proof. unfold bound_transport. by rewrite Hbound. Qed.
Lemma read_coil_agree t a : device_read_coil_signal d t a = Some (read_coil_signal (thread_of d) t a).
Proof.
  unfold device_read_coil_signal, read_coil_signal. cbn [td_coils thread_of]. destruct (coils d !! a); [|done].
  rewrite bound_some. cbn. by destruct (read_signal _ _) as [t' [[[] ?]|]].
Qed.
Lemma read_register_agree t m a : device_read_register_signal d t m a = Some (read_register_signal t m a).
Proof.
  unfold device_read_register_signal, read_register_signal. destruct (m !! a); [|done].
  rewrite bound_some. cbn. by destruct (read_signal _ _) as [t' [[[] ?]|]].
Qed.
Lemma write_coil_agree t a b : device_write_coil_signal d t a b = Some (write_coil_signal (thread_of d) t a b).
Proof.
  unfold device_write_coil_signal, write_coil_signal. cbn [td_coils thread_of]. destruct (coils d !! a); [|done].
  rewrite bound_some. cbn. by destruct (publish_signal _ _ _).
Qed.
Lemma write_register_agree t m a v : device_write_register_signal d t m a v = Some (write_register_signal t m a v).
Proof.
  unfold device_write_register_signal, write_register_signal. destruct (m !! a); [|done].
  rewrite bound_some. cbn. by destruct (publish_signal _ _ _).
Qed.
Lemma respond_agree mbap fc echo x : device_respond mbap fc echo (Some x) = respond_write mbap fc echo x.
Proof. by destruct x as [[t ds] r]. Qed.

Lemma coils_loop_agree n : ∀ start i t res,
  device_coils_loop d n start i t res = read_coils_loop (thread_of d) n start i t res.
Proof.
  induction n as [|n IH]; intros; cbn; [done|]. destruct (arith _ _ _) as [a|]; cbn; [|done].
  rewrite read_coil_agree. cbn. destruct (read_coil_signal _ _ _) as [t' [[]|]]; auto.
Qed.
Lemma inputs_loop_agree n : ∀ start i t res,
  device_inputs_loop d n start i t res = read_inputs_loop (thread_of d) n start i t res.
Proof.
  induction n as [|n IH]; intros; cbn; [done|]. destruct (arith _ _ _) as [a|]; cbn; [|done].
  rewrite bound_some. destruct (discrete_inputs d !! a); [|done]. by destruct (read_signal _ _).
Qed.
Lemma registers_loop_agree m n : ∀ start i t res,
  device_registers_loop d m n start i t res = read_registers_loop m n start i t res.
Proof.
  induction n as [|n IH]; intros; cbn; [done|]. destruct (arith _ _ _) as [a|]; cbn; [|done].
  rewrite read_register_agree. cbn. destruct (read_register_signal _ _ _) as [t' []]; auto.
Qed.
Lemma read_registers_agree t mbap fc data m :
  device_read_registers d t mbap fc data m = handle_read_registers t mbap fc data m.
Proof. unfold device_read_registers, handle_read_registers. cbv zeta. by rewrite registers_loop_agree. Qed.

Lemma write_agree t mbap data :
  device_write_single_coil d t mbap data = handle_write_single_coil (thread_of d) t mbap data
  ∧ device_write_single_register d t mbap data = handle_write_single_register (thread_of d) t mbap data
  ∧ device_write_multiple_coils d t mbap data = handle_write_multiple_coils (thread_of d) t mbap data
  ∧ (length data ≠ 7%nat →
     device_write_multiple_registers d t mbap data = handle_write_multiple_registers (thread_of d) t mbap data).
Proof.
  unfold device_write_single_coil, device_write_single_register, device_write_multiple_coils,
    device_write_multiple_registers, handle_write_single_coil, handle_write_single_register,
    handle_write_multiple_coils, handle_write_multiple_registers. cbv zeta.
  rewrite !write_coil_agree, !write_register_agree, !respond_agree. split_and!; [done..| |].
  - destruct (Nat.ltb_spec (length data) 5), (Nat.ltb_spec (length data) 6); (done || lia).
  - intros. destruct (Nat.ltb_spec (length data) 7), (Nat.ltb_spec (length data) 8); (done || lia).
Qed.

(** The device's own handlers and those the listener thread runs give the
    same transport, callbacks and response to every request, except to a Write
    Multiple Registers request with exactly seven data bytes, the length of a
    request for one register: the device's handler writes the register and
    echoes the request, the serving one answers ILLEGAL DATA VALUE and writes
    nothing. *)
Theorem handler_copies_agree t mbap pdu :
  (∀ data, pdu = 16 :: data → length data ≠ 7%nat) →
  device_handle_request d t mbap pdu = handle_request (thread_of d) t mbap pdu.
Proof.
  intros H7. destruct pdu as [|fc data]; [done|]. cbn [device_handle_request handle_request].
  destruct (write_agree t mbap data) as (E1 & E2 & E3 & E4).
  rewrite E1, E2, E3. unfold device_read_holding_registers, device_read_input_registers.
  rewrite !read_registers_agree.
  unfold device_read_coils, device_read_discrete_inputs, handle_read_coils, handle_read_discrete_inputs. cbv zeta.
  rewrite coils_loop_agree, inputs_loop_agree.
  destruct (Z.eqb_spec fc 16) as [->|]; [|done]. cbn. by rewrite E4 by (by apply H7).
Qed.

(** The request they disagree on. *)
Lemma one_register_request t mbap data : length data = 7%nat →
  handle_request (thread_of d) t mbap (16 :: data) = Some (t, [], exception_response mbap 16 ILLEGAL_DATA_VALUE)
  ∧ (∀ name, holding_regs d !! be16 (byte_at data 0) (byte_at data 1) = Some name →
     let '(t', ds) := publish_signal t name (VU16 (be16 (byte_at data 5) (byte_at data 6))) zero_ts in
     device_handle_request d t mbap (16 :: data) = Some (t', ds, echo_response mbap 16 (take 4 data))).
Proof.
  intros Hl. cbn. unfold handle_write_multiple_registers, device_write_multiple_registers. rewrite Hl. cbn.
  split; [done|]. intros name Hn. rewrite write_register_agree. unfold write_register_signal. rewrite Hn.
  by destruct (publish_signal _ _ _).
Qed.
End device.

Lemma handler_copies_agree_witness :
  let d := map_holding_register (bind_transport (device_new "host")) 3 "level" in
  device_handle_request (HB := debug_profile) d transport_new [0; 1; 0; 0; 0; 6; 1] [6; 0; 3; 1; 2]
  = handle_request (HB := debug_profile) (thread_of d) transport_new [0; 1; 0; 0; 0; 6; 1] [6; 0; 3; 1; 2].
Proof. apply handler_copies_agree; [reflexivity|]. intros data [=]. Defined.
