(* ===== verification/VirtualHart.v ===== *)
(** * The simulated HART transmitter ([audesys-runtime/src/virtual_hart.rs])

    Commands 0 to 3 over a transport: the identifier, the primary variable,
    its loop current and percentage, and the dynamic variables.  Values are
    binary32 patterns, sent most significant byte first. *)
From S2P Require Import Prelude Float HalTypes HalValue Transport.
Local Open Scope Z_scope.

Definition HART_STATUS_OK : list Z := [0; 0].
Definition HART_STATUS_ERR : list Z := [64; 0].
Definition DEFAULT_PV_RANGE : Z := float_of_Z binary32 100.

Record VirtualHARTDevice := mkHart {
  device_id : Z;
  long_tag : string;
  slots : gmap Z string;
  bound : bool }.

Definition hart_new (id : Z) (tag : string) : VirtualHARTDevice := mkHart id tag ∅ false.
Definition hart_default : VirtualHARTDevice := hart_new 1 "AUDESYS-VIRTUAL-HART".
Definition bind (d : VirtualHARTDevice) : VirtualHARTDevice :=
  mkHart (device_id d) (long_tag d) (slots d) true.
Definition map_slot (d : VirtualHARTDevice) (slot : Z) (signal : string) : VirtualHARTDevice :=
  mkHart (device_id d) (long_tag d) (<[slot := signal]> (slots d)) (bound d).

(** The number a value is reported as. *)
Definition value_f32 (v : HalValue) : Z :=
  match v with
  | VF32 b => b
  | VF64 b => float_convert binary64 binary32 b
  | VS32 n | VU32 n | VS16 n | VU16 n | VS8 n | VU8 n => float_of_Z binary32 n
  | VBool b => float_of_Z binary32 (if b then 1 else 0)
  | _ => 0
  end.

(** [f32::clamp]: a NaN is neither below nor above. *)
Definition clamp32 (lo hi x : Z) : Z :=
  let x := if float_ltb binary32 x lo then lo else x in
  if float_ltb binary32 hi x then hi else x.

Definition f32_bytes (b : Z) : list Z := be_bytes 4 b.

Section device.
Context {T : Type} {HT : HalTransport T}.

(** [None] is the error of an unmapped slot or an unbound device; a signal that
    was never published counts as 0.0. *)
Definition read_slot_f32 (t : T) (d : VirtualHARTDevice) (slot : Z) : T * option Z :=
  match slots d !! slot with
  | None => (t, None)
  | Some name =>
      if negb (bound d) then (t, None)
      else let '(t, v) := read_signal t name in
           (t, Some (value_f32 (match v with Some (v, _) => v | None => VF32 0 end)))
  end.

Definition handle_cmd0_identifier (d : VirtualHARTDevice) : list Z :=
  HART_STATUS_OK ++ [254; device_id d; 5; 221; 1] ++ string_bytes "AUDESYS".

Definition handle_cmd1_read_pv (t : T) (d : VirtualHARTDevice) : T * list Z :=
  let '(t, v) := read_slot_f32 t d 0 in
  (t, match v with Some v => HART_STATUS_OK ++ f32_bytes v | None => HART_STATUS_ERR end).

Definition loop_fraction (pv : Z) : Z :=
  float_div binary32 (clamp32 0 DEFAULT_PV_RANGE pv) DEFAULT_PV_RANGE.
Definition current_ma (pv : Z) : Z :=
  float_add binary32 (float_of_Z binary32 4) (float_mul binary32 (loop_fraction pv) (float_of_Z binary32 16)).
Definition percent (pv : Z) : Z := float_mul binary32 (loop_fraction pv) (float_of_Z binary32 100).

Definition handle_cmd2_read_pv_current (t : T) (d : VirtualHARTDevice) : T * list Z :=
  let '(t, v) := read_slot_f32 t d 0 in
  (t, match v with
      | Some pv => HART_STATUS_OK ++ f32_bytes pv ++ f32_bytes (current_ma pv) ++ f32_bytes (percent pv)
      | None => HART_STATUS_ERR
      end).

(** The mapped slots in increasing order. *)
Definition sorted_slots (d : VirtualHARTDevice) : list Z := merge_sort Z.le (map_to_list (slots d)).*1.

Fixpoint read_slots (t : T) (d : VirtualHARTDevice) (ss : list Z) : T * list Z :=
  match ss with
  | [] => (t, [])
  | s :: ss =>
      let '(t, v) := read_slot_f32 t d s in
      let '(t, vs) := read_slots t d ss in
      (t, match v with Some v => v :: vs | None => vs end)
  end.

Definition handle_cmd3_read_dynamic (t : T) (d : VirtualHARTDevice) : T * list Z :=
  let '(t, vs) := read_slots t d (sorted_slots d) in
  (t, HART_STATUS_OK ++ [wrap_u 8 (Z.of_nat (length vs))] ++ concat (map f32_bytes vs)).

Definition handle_command (t : T) (d : VirtualHARTDevice) (cmd : Z) (data : list Z) : T * list Z :=
  if cmd =? 0 then (t, handle_cmd0_identifier d)
  else if cmd =? 1 then handle_cmd1_read_pv t d
  else if cmd =? 2 then handle_cmd2_read_pv_current t d
  else if cmd =? 3 then handle_cmd3_read_dynamic t d
  else (t, HART_STATUS_ERR).
End device.

(** ** A master reading the dynamic variables *)
Fixpoint groups4 (n : nat) (l : list Z) : option (list Z) :=
  match n with
  | O => match l with [] => Some [] | _ => None end
  | S n => if (length l <? 4)%nat then None else cons (of_be_bytes (take 4 l)) <$> groups4 n (drop 4 l)
  end.
Definition parse_dynamic (resp : list Z) : option (list Z) :=
  match resp with
  | 0 :: 0 :: n :: rest => groups4 (Z.to_nat n) rest
  | _ => None
  end.

Section facts.
Context {T : Type} {HT : HalTransport T} {HL : HalTransportLaws T}.

(** What slot [s] holds. *)
Definition slot_value (t : T) (d : VirtualHARTDevice) (s : Z) : option Z :=
  name ← slots d !! s;
  if bound d then Some (value_f32 (match (read_signal t name).2 with Some (v, _) => v | None => VF32 0 end))
  else None.
Definition same_signals (t t' : T) : Prop := ∀ n, (read_signal t' n).2 = (read_signal t n).2.

#[local] Instance same_signals_trans : Transitive same_signals.
Proof. intros t1 t2 t3 H1 H2 n. by rewrite (H2 n). Qed.

Lemma read_slot_spec t d s :
  (read_slot_f32 t d s).2 = slot_value t d s ∧ same_signals t (read_slot_f32 t d s).1.
Proof.
  unfold read_slot_f32, slot_value. destruct (slots d !! s) as [name|]; cbn; [|done].
  destruct (bound d); cbn; [|done].
  destruct (read_signal t name) as [t' v] eqn:E. cbn. split; [done|].
  intros n. pose proof (read_read t name n) as H. by rewrite E in H.
Qed.

Lemma slot_value_same t t' d s : same_signals t t' → slot_value t' d s = slot_value t d s.
Proof. intros H. unfold slot_value. destruct (slots d !! s) as [name|]; cbn; [|done]. by rewrite H. Qed.

Lemma read_slots_spec t d ss :
  (read_slots t d ss).2 = omap (slot_value t d) ss ∧ same_signals t (read_slots t d ss).1.
Proof.
  induction ss as [|s ss IH] in t |- *; [done|]. cbn [read_slots omap list_omap].
  destruct (read_slot_spec t d s) as [Hv Hs]. destruct (read_slot_f32 t d s) as [t1 v]. cbn in Hv, Hs. subst v.
  destruct (IH t1) as [IHv IHs]. destruct (read_slots t1 d ss) as [t2 vs]. cbn in IHv, IHs |- *. subst vs.
  rewrite (list_omap_ext (slot_value t1 d) (slot_value t d) ss ss).
  2:{ apply Forall_Forall2_diag, Forall_forall. intros s' _. by apply slot_value_same. }
  split; [by destruct (slot_value t d s)|]. by transitivity t1.
Qed.

Lemma groups4_concat vs :
  Forall (fun v => in_u 32 v = true) vs → groups4 (length vs) (concat (map f32_bytes vs)) = Some vs.
Proof.
  induction 1 as [|v vs Hv Hvs IH]; [done|]. cbn [length map concat groups4].
  assert (length (f32_bytes v) = 4%nat) as Hl by apply be_bytes_length.
  rewrite length_app, Hl. cbn [Nat.add Nat.ltb Nat.leb]. rewrite take_app_length', drop_app_length' by done.
  assert (of_be_bytes (f32_bytes v) = v) as ->.
  { unfold f32_bytes. rewrite of_be_bytes_be_bytes. apply in_u_spec in Hv. by apply Z.mod_small. }
  by rewrite IH.
Qed.

Lemma sorted_slots_spec d :
  Sorted Z.le (sorted_slots d) ∧ ∀ s, s ∈ sorted_slots d ↔ is_Some (slots d !! s).
Proof.
  unfold sorted_slots. split; [apply Sorted_merge_sort; intros ??; lia|]. intros s.
  rewrite merge_sort_Permutation, list_elem_of_fmap. split.
  - intros ([k v] & -> & H). apply elem_of_map_to_list in H. by exists v.
  - intros [v H]. exists (s, v). by rewrite elem_of_map_to_list.
Qed.

(** A master that parses the dynamic variables gets the values of the
    mapped slots in the order of the slot numbers, and reading them changes no
    signal.  The count is one byte, so it is right up to 255 variables. *)
Theorem dynamic_variables_read t d t' resp :
  handle_command t d 3 [] = (t', resp) → bound d = true →
  Forall (fun v => in_u 32 v = true) (omap (slot_value t d) (sorted_slots d)) →
  (length (sorted_slots d) < 256)%nat →
  parse_dynamic resp = Some (omap (slot_value t d) (sorted_slots d)) ∧
  length (omap (slot_value t d) (sorted_slots d)) = length (sorted_slots d) ∧
  (∀ n, (read_signal t' n).2 = (read_signal t n).2).
Proof.
  intros H Hb Hr Hl. cbn in H. unfold handle_cmd3_read_dynamic in H.
  destruct (read_slots_spec t d (sorted_slots d)) as [Hv Hs].
  destruct (read_slots t d (sorted_slots d)) as [t1 vs]. cbn in Hv, Hs. subst vs. simplify_eq.
  assert (length (omap (slot_value t d) (sorted_slots d)) = length (sorted_slots d)) as Hlen.
  { assert (∀ s, s ∈ sorted_slots d → is_Some (slot_value t d s)) as Hall.
    { intros s Hin. apply sorted_slots_spec in Hin as [name Hn]. unfold slot_value.
      rewrite Hn. cbn. rewrite Hb. by eexists. }
    clear -Hall. induction (sorted_slots d) as [|s ss IH]; [done|]. cbn.
    destruct (Hall s) as [v ->]; [by left|]. cbn. rewrite IH; [done|]. intros s' Hs'. apply Hall. by right. }
  split; [|split; [done|exact Hs]].
  cbn [HART_STATUS_OK app parse_dynamic]. rewrite wrap_u_id by (apply in_u_spec; lia). rewrite Nat2Z.id.
  by apply groups4_concat.
Qed.
End facts.

(** The loop current saturates: a variable below the range is reported
    with 4 mA and 0 percent, one above it with 20 mA and 100 percent, while the
    variable itself is sent unclamped. *)
Theorem loop_current_saturates {T} `{HalTransport T} (t : T) d t1 pv t' resp :
  read_slot_f32 t d 0 = (t1, Some pv) → handle_command t d 2 [] = (t', resp) →
  (float_ltb binary32 pv 0 = true →
     resp = HART_STATUS_OK ++ f32_bytes pv ++ f32_bytes (float_of_Z binary32 4) ++ f32_bytes 0) ∧
  (float_ltb binary32 DEFAULT_PV_RANGE pv = true → float_ltb binary32 pv 0 = false →
     resp = HART_STATUS_OK ++ f32_bytes pv ++ f32_bytes (float_of_Z binary32 20) ++ f32_bytes DEFAULT_PV_RANGE).
Proof.
  intros Hr H1. cbn in H1. unfold handle_cmd2_read_pv_current in H1. rewrite Hr in H1.
  injection H1 as <- <-. unfold current_ma, percent, loop_fraction, clamp32. split.
  - intros ->. do 2 f_equal. 
  - intros Hhi ->. rewrite Hhi. done.
Qed.

(** Errors: an unmapped slot 0 or an unbound device answers commands 1 and
    2, and every command above 3, with the bare error status, but an unbound
    device answers command 3 with an OK status and no variables. *)
Theorem hart_errors {T} `{HalTransport T} (t : T) d cmd data :
  (slots d !! 0 = None ∨ bound d = false → cmd = 1 ∨ cmd = 2 → handle_command t d cmd data = (t, HART_STATUS_ERR)) ∧
  (cmd < 0 ∨ 3 < cmd → handle_command t d cmd data = (t, HART_STATUS_ERR)) ∧
  (bound d = false → handle_command t d 3 data = (t, HART_STATUS_OK ++ [0])).
Proof.
  split; [|split].
  - intros Hd Hc. assert (read_slot_f32 t d 0 = (t, None)) as Hr.
    { unfold read_slot_f32. destruct Hd as [->| ->]; [done|]. by destruct (slots d !! 0). }
    destruct Hc as [->| ->]; cbn; unfold handle_cmd1_read_pv, handle_cmd2_read_pv_current; by rewrite Hr.
  - intros Hc. unfold handle_command.
    rewrite !(proj2 (Z.eqb_neq cmd _)) by lia. done.
  - intros Hb. cbn. unfold handle_cmd3_read_dynamic.
    assert (∀ ss, read_slots t d ss = (t, [])) as ->; [|done].
    induction ss as [|s ss IH]; [done|]. cbn. unfold read_slot_f32. rewrite Hb.
    destruct (slots d !! s); cbn; by rewrite IH.
Qed.

(** With all 256 slots mapped the count byte wraps to zero. *)
Lemma dynamic_count_wraps {T} `{HalTransport T} (t t' : T) d vs :
  read_slots t d (sorted_slots d) = (t', vs) → length vs = 256%nat →
  handle_command t d 3 [] = (t', HART_STATUS_OK ++ [0] ++ concat (map f32_bytes vs)).
Proof. intros Hr Hl. cbn. unfold handle_cmd3_read_dynamic. by rewrite Hr, Hl. Qed.

(** ** Witnesses *)
Definition demo_hart : VirtualHARTDevice := bind (map_slot (map_slot hart_default 3 "temp") 0 "level").
Definition demo_hart_transport : InprocTransport :=
  (publish_signal transport_new "level" (VU16 150) (mkTs 0 0)).1.

Lemma dynamic_variables_read_witness :
  parse_dynamic (handle_command demo_hart_transport demo_hart 3 []).2 = Some [float_of_Z binary32 150; 0].
Proof.
  destruct (handle_command demo_hart_transport demo_hart 3 []) as [t' resp] eqn:E.
  destruct (dynamic_variables_read demo_hart_transport demo_hart t' resp E eq_refl) as (H & _ & _).
  - assert (omap (slot_value demo_hart_transport demo_hart) (sorted_slots demo_hart) = [float_of_Z binary32 150; 0])
      as -> by (vm_compute; reflexivity).
    repeat constructor.
  - vm_compute. lia.
  - exact H.
Defined.

Lemma loop_current_saturates_witness :
  (handle_command demo_hart_transport demo_hart 2 []).2 =
  HART_STATUS_OK ++ f32_bytes (float_of_Z binary32 150) ++ f32_bytes (float_of_Z binary32 20) ++ f32_bytes DEFAULT_PV_RANGE.
Proof.
  destruct (read_slot_f32 demo_hart_transport demo_hart 0) as [t1 v] eqn:Er.
  destruct (handle_command demo_hart_transport demo_hart 2 []) as [t' resp] eqn:E.
  assert (v = Some (float_of_Z binary32 150)) as -> by (injection Er; intros <- _; vm_compute; reflexivity).
  apply (loop_current_saturates demo_hart_transport demo_hart t1 (float_of_Z binary32 150) t' resp Er E);
    vm_compute; reflexivity.
Defined.

Lemma hart_errors_witness :
  (handle_command transport_new hart_default 1 []).2 = HART_STATUS_ERR ∧
  (handle_command transport_new hart_default 3 []).2 = [0; 0; 0].
Proof.
  split.
  - rewrite (proj1 (hart_errors transport_new hart_default 1 [])); [reflexivity | by left | by left].
  - rewrite (proj2 (proj2 (hart_errors transport_new hart_default 3 [])) eq_refl). reflexivity.
Defined.
