(* ===== verification/ModbusAdapter.v ===== *)
(** * The Modbus adapter ([audesys-modbus/src])

    Conversion between register words and values, the client over libmodbus,
    and the poll loop that bridges registers and signals.  libmodbus is a C
    library: a class gives its calls, a class of laws what its documentation
    promises about the holding registers. *)
From stdpp Require Import pretty.
From S2P Require Import Prelude Float HalTypes HalValue Transport.
Local Open Scope Z_scope.
Ltac Zify.zify_post_hook ::= Z.to_euclidean_division_equations.

(** ** Errors ([error.rs]) *)
Inductive ModbusError :=
  | MbConnection (msg : string) | MbIo (msg : string) | MbProtocol (msg : string) | MbTimeout (msg : string)
  | MbInvalidAddress (addr : Z) | MbInvalidData (msg : string) | MbNotConnected
  | MbUnsupported (msg : string) | MbInternal (msg : string).

Definition hal_of_modbus_error (e : ModbusError) : HalError :=
  match e with
  | MbTimeout msg => Internal ("Modbus timeout: " +:+ msg)
  | MbConnection msg => Execution "modbus_connect" msg
  | MbIo msg => Execution "modbus_io" msg
  | MbProtocol msg => Execution "modbus_protocol" msg
  | MbInvalidAddress addr => Execution "modbus_address" (pretty addr)
  | MbInvalidData msg => Execution "modbus_data" msg
  | MbNotConnected => Execution "modbus_op" "not connected"
  | MbUnsupported msg => Execution "modbus_unsupported" msg
  | MbInternal msg => Execution "modbus_internal" msg
  end.

(** [#[error(..)]]. *)
Definition modbus_error_display (e : ModbusError) : string :=
  match e with
  | MbConnection s => "Modbus connection error: " +:+ s
  | MbIo s => "Modbus I/O error: " +:+ s
  | MbProtocol s => "Modbus protocol error: " +:+ s
  | MbTimeout s => "Modbus timeout: " +:+ s
  | MbInvalidAddress a => "Modbus invalid address: " +:+ pretty a
  | MbInvalidData s => "Modbus invalid data: " +:+ s
  | MbNotConnected => "Modbus not connected"
  | MbUnsupported s => "Modbus unsupported: " +:+ s
  | MbInternal s => "Modbus internal error: " +:+ s
  end.

Abbreviation MbResult A := (result A ModbusError) (only parsing).

(** ** Configuration ([config.rs]) *)
Inductive RegisterMappingType := MapCoil | MapDiscreteInput | MapHoldingRegister | MapInputRegister.
Inductive SignalDirection := DirRead | DirWrite.
Record RegisterMapping := mkMapping {
  rm_signal_name : string;
  rm_register_type : RegisterMappingType;
  rm_address : Z;
  rm_count : Z;
  rm_direction : SignalDirection }.
#[export] Instance RegisterMappingType_eq_dec : EqDecision RegisterMappingType.
Proof. solve_decision. Defined.
#[export] Instance SignalDirection_eq_dec : EqDecision SignalDirection.
Proof. solve_decision. Defined.
#[export] Instance RegisterMapping_eq_dec : EqDecision RegisterMapping.
Proof. solve_decision. Defined.
Definition signal_direction (m : RegisterMapping) : HalPinDirection :=
  match rm_direction m with DirRead => DirIn | DirWrite => DirOut end.

Inductive ConnectionConfig :=
  | Tcp (host : string) (port : Z)
  | Rtu (device : string) (baud : Z) (parity : Z) (data_bits stop_bits slave_id : Z).
Definition default_poll_interval_ms : Z := 100.
Definition default_slave_id : Z := 1.
Record ModbusConfig := mkModbusConfig {
  connection : ConnectionConfig; mappings : list RegisterMapping; poll_interval_ms : Z }.

(** [from_yaml]: reading the file and the YAML parser are arguments. *)
Definition from_yaml (read_to_string : string → result string string)
    (from_str : string → result ModbusConfig string) (path : string) : MbResult ModbusConfig :=
  match read_to_string path with
  | Err e => Err (MbIo ("Failed to read config " +:+ path +:+ ": " +:+ e))
  | Ok content =>
      match from_str content with
      | Err e => Err (MbInvalidData ("YAML parse error: " +:+ e)) | Ok c => Ok c end
  end.

(** ** Registers and values ([mapping.rs]) *)
Inductive RegisterType := RtU16 | RtS16 | RtU32 | RtS32 | RtF32 | RtF64 | RtCoil | RtArrayU16.

Definition coils_to_halvalue (coils : list Z) : HalValue :=
  match coils with
  | [] => VBool false
  | [c] => VBool (negb (c =? 0))
  | _ => VArray TBool coils
  end.

Definition regs_bytes (regs : list Z) : list Z := concat (map (le_bytes 2) regs).

(** [(r0 as u32) << 16 | r1 as u32], the high word first. *)
Definition word32 (r0 r1 : Z) : Z := Z.lor (Z.shiftl r0 16) r1.
Definition word64 (r0 r1 r2 r3 : Z) : Z :=
  Z.lor (Z.lor (Z.lor (Z.shiftl r0 48) (Z.shiftl r1 32)) (Z.shiftl r2 16)) r3.

Definition need_registers (n : string) (t : string) (regs : list Z) : ModbusError :=
  MbInvalidData ("need " +:+ n +:+ " registers for " +:+ t +:+ ", got " +:+ pretty (Z.of_nat (length regs))).

Definition registers_to_halvalue (regs : list Z) (t : RegisterType) : MbResult HalValue :=
  match t with
  | RtU16 => match regs with
             | r :: _ => Ok (VU16 r) | [] => Err (MbInvalidData "empty register slice for U16") end
  | RtS16 => match regs with
             | r :: _ => Ok (VS16 (wrap_s 16 r)) | [] => Err (MbInvalidData "empty register slice for S16") end
  | RtU32 => match regs with r0 :: r1 :: _ => Ok (VU32 (word32 r0 r1)) | _ => Err (need_registers "2" "U32" regs) end
  | RtS32 => match regs with
             | r0 :: r1 :: _ => Ok (VS32 (wrap_s 32 (word32 r0 r1))) | _ => Err (need_registers "2" "S32" regs) end
  | RtF32 => match regs with r0 :: r1 :: _ => Ok (VF32 (word32 r0 r1)) | _ => Err (need_registers "2" "F32" regs) end
  | RtF64 => match regs with
             | r0 :: r1 :: r2 :: r3 :: _ => Ok (VF64 (word64 r0 r1 r2 r3)) | _ => Err (need_registers "4" "F64" regs) end
  | RtCoil => Ok (coils_to_halvalue (regs_bytes regs))
  | RtArrayU16 => Ok (VArray TU16 (regs_bytes regs))
  end.

Definition split32 (bits : Z) : list Z := [wrap_u 16 (Z.shiftr bits 16); wrap_u 16 bits].
Definition split64 (bits : Z) : list Z :=
  [wrap_u 16 (Z.shiftr bits 48); wrap_u 16 (Z.shiftr bits 32); wrap_u 16 (Z.shiftr bits 16); wrap_u 16 bits].

(** [chunks(2)] of an even number of bytes. *)
Fixpoint pair_bytes (l : list Z) : list Z :=
  match l with a :: b :: l => of_le_bytes [a; b] :: pair_bytes l | _ => [] end.
Definition bytes_to_regs (what : string) (l : list Z) (tail : string) : MbResult (list Z * RegisterType) :=
  if Nat.odd (length l)
  then Err (MbInvalidData (what +:+ " length " +:+ pretty (Z.of_nat (length l)) +:+ " not a multiple of 2" +:+ tail))
  else Ok (pair_bytes l, RtArrayU16).

Definition halvalue_to_registers (v : HalValue) : MbResult (list Z * RegisterType) :=
  match v with
  | VBool b => Ok ([if b then 1 else 0], RtCoil)
  | VS8 n | VS16 n => Ok ([wrap_u 16 n], RtS16)
  | VU8 n | VU16 n => Ok ([n], RtU16)
  | VS32 n => Ok (split32 (wrap_u 32 n), RtS32)
  | VU32 n => Ok (split32 n, RtU32)
  | VS64 n => Ok (split64 (wrap_u 64 n), RtF64)
  | VU64 n => Ok (split64 n, RtF64)
  | VF32 b => Ok (split32 b, RtF32)
  | VF64 b => Ok (split64 b, RtF64)
  | VBlob d => bytes_to_regs "Blob" d " (u16)"
  | VArray t d =>
      if negb (bool_decide (t = TU16))
      then Err (MbUnsupported ("Array element type " +:+ pin_type_debug t +:+ " not supported for Modbus"))
      else bytes_to_regs "Array data" d ""
  | VString s => bytes_to_regs "String" (string_bytes s) ""
  end.

(** ** libmodbus

    The calls of the C library on a context [D]: the new context, the return
    code, and the words it stored in the caller's buffer. *)
Class Libmodbus (D : Type) := {
  mb_new_tcp : string → Z → option D;
  mb_new_rtu : string → Z → Z → Z → Z → option D;
  mb_set_slave : D → Z → D * Z;
  mb_connect : D → D * Z;
  mb_set_response_timeout : D → Z → Z → D;
  mb_close : D → D;
  mb_read_registers : D → Z → Z → D * Z * list Z;
  mb_read_input_registers : D → Z → Z → D * Z * list Z;
  mb_read_bits : D → Z → Z → D * Z * list Z;
  mb_read_input_bits : D → Z → Z → D * Z * list Z;
  mb_write_bit : D → Z → Z → D * Z;
  mb_write_register : D → Z → Z → D * Z;
  mb_write_registers : D → Z → list Z → D * Z;
  mb_strerror : D → string }.

(** What the library's documentation says of a device whose holding registers
    no one else writes: a read changes nothing and delivers the words asked
    for; a write that succeeds stores its words and touches nothing else, one
    that fails touches at most the registers it addresses. *)
Definition in_block (addr : Z) (n : nat) (a : Z) : bool := (addr <=? a) && (a <? addr + Z.of_nat n).
Definition keeps {D} (holding : D → Z → Z) (d d' : D) : Prop := ∀ a, holding d' a = holding d a.
Definition stored {D} (holding : D → Z → Z) (d : D) (addr : Z) (regs : list Z) : Prop :=
  ∀ i w, regs !! i = Some w → holding d (addr + Z.of_nat i) = w.

Class LibmodbusLaws (D : Type) `{Libmodbus D} := {
  holding : D → Z → Z;
  read_holding_law : ∀ d addr n,
    let '(d', ret, ws) := mb_read_registers d addr n in
    keeps holding d d' ∧
    (0 ≤ ret → ret = n ∧ length ws = Z.to_nat n ∧ stored holding d addr ws);
  read_input_law : ∀ d addr n, keeps holding d (mb_read_input_registers d addr n).1.1;
  read_bits_law : ∀ d addr n, keeps holding d (mb_read_bits d addr n).1.1;
  read_input_bits_law : ∀ d addr n, keeps holding d (mb_read_input_bits d addr n).1.1;
  write_register_law : ∀ d addr w,
    (∀ a, in_block addr 1 a = false → holding (mb_write_register d addr w).1 a = holding d a) ∧
    (0 ≤ (mb_write_register d addr w).2 → stored holding (mb_write_register d addr w).1 addr [w]);
  write_registers_law : ∀ d addr ws,
    (∀ a, in_block addr (length ws) a = false → holding (mb_write_registers d addr ws).1 a = holding d a) ∧
    (0 ≤ (mb_write_registers d addr ws).2 → stored holding (mb_write_registers d addr ws).1 addr ws) }.

Definition MODBUS_MAX_READ_REGISTERS : Z := 125.
Definition MODBUS_MAX_WRITE_REGISTERS : Z := 123.

(** [CString::new]. *)
Fixpoint nul_position (l : list Z) (i : Z) : option Z :=
  match l with [] => None | b :: l => if b =? 0 then Some i else nul_position l (i + 1) end.
Definition c_string (s : string) : MbResult string :=
  match nul_position (string_bytes s) 0 with
  | Some i => Err (MbConnection ("nul byte found in provided data at position: " +:+ pretty i))
  | None => Ok s
  end.

Section client.
Context {D : Type} `{Libmodbus D}.

(** ** The client ([client.rs]) *)
Record ModbusClient := mkClient { ctx : D; connected : bool }.

Definition new_tcp (host : string) (port : Z) : MbResult ModbusClient :=
  let? h := c_string host in
  match mb_new_tcp h port with
  | Some d => Ok (mkClient d false) | None => Err (MbConnection "failed to create TCP context") end.
Definition new_rtu (device : string) (baud parity data_bits stop_bits : Z) : MbResult ModbusClient :=
  let? d := c_string device in
  match mb_new_rtu d (wrap_s 32 baud) (wrap_s 8 parity) data_bits stop_bits with
  | Some d => Ok (mkClient d false) | None => Err (MbConnection "failed to create RTU context") end.

Definition connect (c : ModbusClient) : ModbusClient * MbResult unit :=
  let '(d, ret) := mb_connect (ctx c) in
  if ret =? 0 then (mkClient (mb_set_response_timeout d 1 0) true, Ok tt)
  else (mkClient d (connected c), Err (MbConnection (mb_strerror d))).
Definition disconnect (c : ModbusClient) : ModbusClient :=
  if connected c then mkClient (mb_close (ctx c)) false else c.
Definition set_slave (c : ModbusClient) (id : Z) : ModbusClient * MbResult unit :=
  let '(d, ret) := mb_set_slave (ctx c) id in
  (mkClient d (connected c), if ret =? 0 then Ok tt else Err (MbProtocol (mb_strerror d))).

(** The buffer [vec![0; count]] after the call, truncated to what was read. *)
Definition filled_buffer (count ret : Z) (ws : list Z) : list Z :=
  take (Z.to_nat ret) (take (Z.to_nat count) (ws ++ repeat 0 (Z.to_nat count))).
Definition fetch (call : D → Z → Z → D * Z * list Z) (c : ModbusClient) (addr count : Z)
  : ModbusClient * MbResult (list Z) :=
  let '(d, ret, ws) := call (ctx c) addr count in
  (mkClient d (connected c),
   if ret <? 0 then Err (MbIo (mb_strerror d)) else Ok (filled_buffer count ret ws)).
Definition count_error (n max : Z) : ModbusError :=
  MbInvalidData ("count " +:+ pretty n +:+ " not in 1..=" +:+ pretty max).

Definition read_registers (call : D → Z → Z → D * Z * list Z) (c : ModbusClient) (addr count : Z)
  : ModbusClient * MbResult (list Z) :=
  if negb (connected c) then (c, Err MbNotConnected)
  else if (count =? 0) || (MODBUS_MAX_READ_REGISTERS <? count)
       then (c, Err (count_error count MODBUS_MAX_READ_REGISTERS))
       else fetch call c addr count.
Definition read_holding_registers := read_registers mb_read_registers.
Definition read_input_registers := read_registers mb_read_input_registers.

Definition read_flags (call : D → Z → Z → D * Z * list Z) (c : ModbusClient) (addr count : Z)
  : ModbusClient * MbResult (list bool) :=
  if negb (connected c) then (c, Err MbNotConnected)
  else if count =? 0 then (c, Err (MbInvalidData "count must be > 0"))
  else let '(c, r) := fetch call c addr count in
       (c, let? ws := r in Ok (map (fun b => negb (b =? 0)) ws)).
Definition read_coils := read_flags mb_read_bits.
Definition read_discrete_inputs := read_flags mb_read_input_bits.

Definition issue (c : ModbusClient) (r : D * Z) : ModbusClient * MbResult unit :=
  (mkClient r.1 (connected c), if r.2 <? 0 then Err (MbIo (mb_strerror r.1)) else Ok tt).
Definition write_single_coil (c : ModbusClient) (addr : Z) (value : bool) : ModbusClient * MbResult unit :=
  if negb (connected c) then (c, Err MbNotConnected)
  else issue c (mb_write_bit (ctx c) addr (Z.b2z value)).
Definition write_single_register (c : ModbusClient) (addr value : Z) : ModbusClient * MbResult unit :=
  if negb (connected c) then (c, Err MbNotConnected)
  else issue c (mb_write_register (ctx c) addr value).
Definition write_multiple_registers (c : ModbusClient) (addr : Z) (values : list Z)
  : ModbusClient * MbResult unit :=
  if negb (connected c) then (c, Err MbNotConnected)
  else let nb := Z.of_nat (length values) in
       if (nb =? 0) || (MODBUS_MAX_WRITE_REGISTERS <? nb)
       then (c, Err (count_error nb MODBUS_MAX_WRITE_REGISTERS))
       else issue c (mb_write_registers (ctx c) addr values).
End client.
Arguments ModbusClient D : clear implicits.
Arguments mkClient {D} ctx connected.

(** ** The adapter ([adapter.rs]) *)
Section adapter.
Context {D : Type} `{Libmodbus D} {T : Type} `{HalTransport T}.

(** What the poll thread works on: the client, the transport it shares with
    other threads, and the cache of the last value of every signal. *)
Record PollState := mkPoll {
  client : ModbusClient D; transport : T; signal_cache : gmap string (HalValue * Timestamp) }.

Definition now_timestamp (now_ns : Z) : Timestamp :=
  mkTs (now_ns / 1000000000) (wrap_u 32 (now_ns / 1000 mod 1000000)).

(** [ModbusAdapter::new]. *)
Definition adapter_client (config : ModbusConfig) : MbResult (ModbusClient D) :=
  match connection config with
  | Tcp host port =>
      let? c := new_tcp host port in let '(c, r) := connect c in let? _ := r in Ok c
  | Rtu device baud parity data_bits stop_bits slave_id =>
      let? c := new_rtu device baud parity data_bits stop_bits in
      let '(c, r) := set_slave c slave_id in let? _ := r in
      let '(c, r) := connect c in let? _ := r in Ok c
  end.
Definition adapter_new (config : ModbusConfig) (transport : T) : MbResult PollState :=
  let? c := adapter_client config in Ok (mkPoll c transport ∅).

Definition flags_value (r : MbResult (list bool)) : MbResult HalValue :=
  let? bits := r in Ok (coils_to_halvalue (map Z.b2z bits)).
Definition words_value (r : MbResult (list Z)) : MbResult HalValue :=
  let? regs := r in registers_to_halvalue regs RtU16.

Definition read_mapped (c : ModbusClient D) (m : RegisterMapping) : ModbusClient D * MbResult HalValue :=
  match rm_register_type m with
  | MapCoil => let '(c, r) := read_coils c (rm_address m) (rm_count m) in (c, flags_value r)
  | MapDiscreteInput => let '(c, r) := read_discrete_inputs c (rm_address m) (rm_count m) in (c, flags_value r)
  | MapHoldingRegister => let '(c, r) := read_holding_registers c (rm_address m) (rm_count m) in (c, words_value r)
  | MapInputRegister => let '(c, r) := read_input_registers c (rm_address m) (rm_count m) in (c, words_value r)
  end.

Definition poll_read (st : PollState) (m : RegisterMapping) (ts : Timestamp)
  : PollState * list Delivery * MbResult unit :=
  let '(c, r) := read_mapped (client st) m in
  match r with
  | Err e => (mkPoll c (transport st) (signal_cache st), [], Err e)
  | Ok v =>
      let '(t, ds) := publish_signal (transport st) (rm_signal_name m) v ts in
      (mkPoll c t (<[rm_signal_name m := (v, ts)]> (signal_cache st)), ds, Ok tt)
  end.

(** [cached_val == value]. *)
Definition unchanged (cache : gmap string (HalValue * Timestamp)) (name : string) (v : HalValue) : bool :=
  match cache !! name with Some (w, _) => hal_eqb w v | None => false end.

Definition send_registers (c : ModbusClient D) (addr : Z) (regs : list Z) : ModbusClient D * MbResult unit :=
  match regs with
  | [r] => write_single_register c addr r
  | _ => write_multiple_registers c addr regs
  end.

Definition poll_write (st : PollState) (m : RegisterMapping) : PollState * MbResult unit :=
  let '(t, current) := read_signal (transport st) (rm_signal_name m) in
  let st := mkPoll (client st) t (signal_cache st) in
  match current with
  | None => (st, Ok tt)
  | Some (v, signal_ts) =>
      if unchanged (signal_cache st) (rm_signal_name m) v then (st, Ok tt)
      else match halvalue_to_registers v with
           | Err e => (st, Err e)
           | Ok (regs, _) =>
               let '(c, r) := send_registers (client st) (rm_address m) regs in
               (mkPoll c t (match r with
                            | Ok _ => <[rm_signal_name m := (v, signal_ts)]> (signal_cache st)
                            | Err _ => signal_cache st end), r)
           end
  end.

Definition poll_one (ts : Timestamp) (m : RegisterMapping) (st : PollState)
  : PollState * list Delivery * MbResult unit :=
  match rm_direction m with
  | DirRead => poll_read st m ts
  | DirWrite => let '(st, r) := poll_write st m in (st, [], r)
  end.

(** [eprintln!]. *)
Definition error_line (m : RegisterMapping) (e : ModbusError) : string :=
  "ModbusAdapter: " +:+ match rm_direction m with DirRead => "read" | DirWrite => "write" end
  +:+ " error on " +:+ rm_signal_name m +:+ ": " +:+ modbus_error_display e.
Definition reported (m : RegisterMapping) (r : MbResult unit) : list string :=
  match r with Ok _ => [] | Err e => [error_line m e] end.

(** One turn of the poll loop: the state, the callbacks invoked, the lines
    on standard error. *)
Fixpoint poll_mappings (ts : Timestamp) (ms : list RegisterMapping) (st : PollState)
  : PollState * list Delivery * list string :=
  match ms with
  | [] => (st, [], [])
  | m :: ms =>
      let '(st, ds, r) := poll_one ts m st in
      let '(st, ds', log) := poll_mappings ts ms st in
      (st, ds ++ ds', reported m r ++ log)
  end.

(** The loop.  An element is one evaluation of the condition: whether
    [shutdown] is seen, the clock, and what the other threads did to the
    transport since the last turn. *)
Record Interval := mkInterval { stop_seen : bool; clock_ns : Z; others : T → T }.
Fixpoint poll_loop (ms : list RegisterMapping) (script : list Interval) (st : PollState)
  : PollState * list string :=
  match script with
  | [] => (st, [])
  | i :: script =>
      let st := mkPoll (client st) (others i (transport st)) (signal_cache st) in
      if stop_seen i then (st, [])
      else let '(st, _, log) := poll_mappings (now_timestamp (clock_ns i)) ms st in
           let '(st, log') := poll_loop ms script st in (st, log ++ log')
  end.
End adapter.
Arguments PollState D T : clear implicits.
Arguments Interval T : clear implicits.

(** ** Registers and values *)

(** What comes back when the registers of a value are converted with the type
    that was inferred for them. *)
Definition read_back (v : HalValue) : HalValue :=
  match v with
  | VBool b => VArray TBool [Z.b2z b; 0]
  | VS8 n => VS16 n | VU8 n => VU16 n
  | VS64 n => VF64 (wrap_u 64 n) | VU64 n => VF64 n
  | VBlob d => VArray TU16 d
  | VString s => VArray TU16 (string_bytes s)
  | v => v
  end.
(** The values that fit registers. *)
Definition convertible (v : HalValue) : bool :=
  match v with
  | VBlob d => Nat.even (length d)
  | VString s => Nat.even (length (string_bytes s))
  | VArray t d => bool_decide (t = TU16) && Nat.even (length d)
  | _ => true
  end.
Definition register_count (v : HalValue) : nat :=
  match v with
  | VBool _ | VS8 _ | VU8 _ | VS16 _ | VU16 _ => 1
  | VS32 _ | VU32 _ | VF32 _ => 2
  | VS64 _ | VU64 _ | VF64 _ => 4
  | VBlob d | VArray _ d => Nat.div2 (length d)
  | VString s => Nat.div2 (length (string_bytes s))
  end%nat.
Definition words_wf (l : list Z) : bool := forallb (in_u 16) l.

Lemma lor_shift a b k : 0 ≤ k → in_u k b = true → Z.lor (Z.shiftl a k) b = a * 2 ^ k + b.
Proof.
  intros Hk Hb%in_u_spec. rewrite <- Z.shiftl_mul_pow2, <- Z.add_lor_land by done.
  replace (Z.land _ b) with 0; [by rewrite Z.add_0_r|].
  symmetry. apply Z.bits_inj'. intros i Hi. rewrite Z.land_spec, Z.bits_0.
  destruct (decide (i < k)); [by rewrite Z.shiftl_spec_low|].
  rewrite <- (Z.mod_small b (2 ^ k)), Z.mod_pow2_bits_high by lia. apply andb_false_r.
Qed.

Lemma word32_split n : in_u 32 n = true → word32 (wrap_u 16 (Z.shiftr n 16)) (wrap_u 16 n) = n.
Proof.
  intros Hn%in_u_spec. unfold word32.
  rewrite lor_shift by first [done | by apply wrap_u_in].
  rewrite Z.shiftr_div_pow2 by done. unfold wrap_u. change (2 ^ 16) with 65536. change (2 ^ 32) with 4294967296 in Hn.
  lia.
Qed.

Lemma in_u_join k a b : 0 ≤ k → in_u 16 a = true → in_u k b = true → in_u (16 + k) (a * 2 ^ k + b) = true.
Proof. rewrite !in_u_spec. intros Hk Ha Hb. rewrite Z.pow_add_r by lia. nia. Qed.

Lemma word64_sum a b c d :
  in_u 16 a = true → in_u 16 b = true → in_u 16 c = true → in_u 16 d = true →
  word64 a b c d = a * 2 ^ 48 + (b * 2 ^ 32 + (c * 2 ^ 16 + d)).
Proof.
  intros Ha Hb Hc Hd. unfold word64. rewrite <- !Z.lor_assoc.
  pose proof (in_u_join 16 c d ltac:(done) Hc Hd) as Hcd.
  pose proof (in_u_join 32 b _ ltac:(done) Hb Hcd) as Hbcd.
  rewrite (lor_shift c d 16), (lor_shift b _ 32), (lor_shift a _ 48); [done|done|done|done|exact Hcd|done|exact Hd].
Qed.

Lemma word64_split n : in_u 64 n = true →
  word64 (wrap_u 16 (Z.shiftr n 48)) (wrap_u 16 (Z.shiftr n 32)) (wrap_u 16 (Z.shiftr n 16)) (wrap_u 16 n) = n.
Proof.
  intros Hn%in_u_spec. rewrite word64_sum by (by apply wrap_u_in).
  rewrite !Z.shiftr_div_pow2 by done. unfold wrap_u.
  change (2 ^ 64) with 18446744073709551616 in Hn. change (2 ^ 48) with 281474976710656.
  change (2 ^ 32) with 4294967296. change (2 ^ 16) with 65536. lia.
Qed.

Lemma pair_bytes_length l : length (pair_bytes l) = Nat.div2 (length l).
Proof.
  remember (length l) as n eqn:Hn. revert l Hn. induction (lt_wf n) as [n _ IH].
  intros [|a [|b l]] ->; [done..|]. cbn. by rewrite (IH (length l)) by (cbn; lia).
Qed.

Lemma pair_bytes_spec l : Nat.Even (length l) → bytes_wf l = true →
  regs_bytes (pair_bytes l) = l ∧ words_wf (pair_bytes l) = true.
Proof.
  remember (length l) as n eqn:Hn. revert l Hn.
  induction (lt_wf n) as [n _ IH]. intros [|a [|b l]] -> Hev Hwf; [done | by destruct Hev as [k Hk]; cbn in Hk; lia |].
  assert (Hev' : Nat.Even (length l)) by (destruct Hev as [k Hk]; exists (k - 1)%nat; cbn in Hk; lia).
  apply bytes_wf_cons in Hwf as [Ha Hwf]. apply bytes_wf_cons in Hwf as [Hb Hwf].
  destruct (IH (length l) ltac:(cbn; lia) l eq_refl Hev' Hwf) as [H1 H2].
  assert (Hab : bytes_wf [a; b] = true) by (by rewrite !bytes_wf_cons).
  cbn [pair_bytes]. split.
  - change (regs_bytes (of_le_bytes [a; b] :: pair_bytes l))
      with (le_bytes 2 (of_le_bytes [a; b]) ++ regs_bytes (pair_bytes l)).
    rewrite H1. by rewrite (le_bytes_of_le_bytes [a; b] Hab : le_bytes 2 (of_le_bytes [a; b]) = [a; b]).
  - cbn [words_wf forallb]. fold (words_wf (pair_bytes l)). rewrite H2, andb_true_r.
    by apply (of_le_bytes_in 2).
Qed.

Lemma even_odd n : Nat.odd n = negb (Nat.even n).
Proof. by rewrite <- Nat.negb_even. Qed.

Lemma bytes_to_regs_spec what l tail : bytes_wf l = true →
  if Nat.even (length l)
  then ∃ regs, bytes_to_regs what l tail = Ok (regs, RtArrayU16) ∧ regs_bytes regs = l ∧
         words_wf regs = true
  else ∃ e, bytes_to_regs what l tail = Err e.
Proof.
  intros Hl. unfold bytes_to_regs. rewrite even_odd.
  destruct (Nat.even (length l)) eqn:E; cbn [negb]; [|by eexists].
  apply Nat.even_spec in E. eexists. split; [done|]. by apply pair_bytes_spec.
Qed.

Lemma registers_length v regs t : halvalue_to_registers v = Ok (regs, t) → length regs = register_count v.
Proof.
  assert (Hb : ∀ what l tail, bytes_to_regs what l tail = Ok (regs, t) → length regs = Nat.div2 (length l)).
  { intros what l tail. unfold bytes_to_regs. destruct (Nat.odd _); [done|]. intros [= <- <-]. apply pair_bytes_length. }
  destruct v; cbn [halvalue_to_registers]; try (by intros [= <- <-]); try apply Hb.
  destruct (negb _); [done|]. apply Hb.
Qed.

(** Registers round trip: every value a signal can hold, except byte
    sequences of odd length and arrays of other elements than U16, is
    converted to 16-bit words, as many as its width asks for, and converting
    them back with the type the conversion reports gives the value again -
    widened for 8-bit integers, as the double with the same bits for 64-bit
    integers, as an array of U16 for blobs and strings, and for a Boolean as
    an array of two bytes; the excepted values are refused. *)
Theorem register_words_roundtrip v : hal_wf v = true →
  if convertible v
  then ∃ regs t, halvalue_to_registers v = Ok (regs, t) ∧ words_wf regs = true ∧
         length regs = register_count v ∧ registers_to_halvalue regs t = Ok (read_back v)
  else ∃ e, halvalue_to_registers v = Err e.
Proof.
  intros Hwf.
  assert (Hbytes : ∀ what l tail, bytes_wf l = true →
    if Nat.even (length l)
    then ∃ regs t, bytes_to_regs what l tail = Ok (regs, t) ∧ words_wf regs = true ∧
           length regs = Nat.div2 (length l) ∧ registers_to_halvalue regs t = Ok (VArray TU16 l)
    else ∃ e, bytes_to_regs what l tail = Err e).
  { intros what l tail Hl. pose proof (bytes_to_regs_spec what l tail Hl) as H.
    destruct (Nat.even (length l)); [|done]. destruct H as (regs & E & Hr & Hw).
    exists regs, RtArrayU16. split_and!; [done..| |]; cbn; [|by rewrite Hr].
    unfold bytes_to_regs in E. destruct (Nat.odd _); [done|]. injection E as <-. apply pair_bytes_length. }
  assert (H16 : ∀ n, in_u 16 (wrap_u 16 n) = true) by (intros n; by apply wrap_u_in).
  assert (Hsext : ∀ w n, 0 < w → in_s w n = true → wrap_s w (wrap_u w n) = n)
    by (intros w n Hw Hn; unfold wrap_u; by rewrite wrap_s_mod, wrap_s_id).
  assert (H8 : ∀ n, in_u 8 n = true → in_u 16 n = true) by (intros n; rewrite !in_u_spec; lia).
  assert (S8 : ∀ n, in_s 8 n = true → in_s 16 n = true) by (intros n; rewrite !in_s_spec; lia).
  destruct v as [[]|n|n|n|n|n|n|n|n|n|n|d|str|t d]; cbn [hal_wf] in Hwf;
    cbn [convertible halvalue_to_registers register_count read_back];
    try (eexists _, _; split_and!; [done | | done |]; cbn [words_wf forallb split32 split64 registers_to_halvalue];
         rewrite ?H16, ?word32_split, ?word64_split by first [done | by apply wrap_u_in];
         rewrite ?Hsext by first [lia | done | by apply S8]; rewrite ?H8, ?Hwf by done; done).
  - by apply Hbytes.
  - apply Hbytes, string_bytes_wf.
  - destruct (bool_decide_reflect (t = TU16)) as [->|]; cbn [negb andb]; [by apply Hbytes | by eexists].
Qed.


(** ** The poll loop keeps the device in step with the signals *)
Section sync.
Context {D : Type} `{LibmodbusLaws D} {T : Type} `{HalTransport T, !HalTransportLaws T}.
(** The number of registers set aside for each signal. *)
Variable width : string → nat.

Definition is_write (m : RegisterMapping) : Prop := rm_direction m = DirWrite.
(** Every signal is mapped once, and the registers set aside do not overlap. *)
Definition wired (ms : list RegisterMapping) : Prop :=
  NoDup (map rm_signal_name ms) ∧
  ∀ m n, m ∈ ms → n ∈ ms → is_write m → is_write n → m ≠ n →
    rm_address m + Z.of_nat (width (rm_signal_name m)) ≤ rm_address n ∨
    rm_address n + Z.of_nat (width (rm_signal_name n)) ≤ rm_address m.
(** The signals to write hold values of a program, no wider than set aside. *)
Definition fits (ms : list RegisterMapping) (t : T) : Prop :=
  ∀ m v ts, m ∈ ms → is_write m → (read_signal t (rm_signal_name m)).2 = Some (v, ts) →
    hal_wf v = true ∧ (register_count v ≤ width (rm_signal_name m))%nat.
(** The device holds the registers of the cached value. *)
Definition mirrored (st : PollState D T) (m : RegisterMapping) : Prop :=
  ∀ v ts, signal_cache st !! rm_signal_name m = Some (v, ts) →
    ∃ regs t, halvalue_to_registers v = Ok (regs, t) ∧
      (length regs ≤ width (rm_signal_name m))%nat ∧
      stored holding (ctx (client st)) (rm_address m) regs.
(** The cached value is the value [v], as the adapter compares values. *)
Definition cached (st : PollState D T) (m : RegisterMapping) (v : HalValue) : Prop :=
  ∃ w ts, signal_cache st !! rm_signal_name m = Some (w, ts) ∧ (w = v ∨ hal_eqb w v = true).

Lemma wired_names ms m n : NoDup (map rm_signal_name ms) → m ∈ ms → n ∈ ms →
  rm_signal_name m = rm_signal_name n → m = n.
Proof.
  intros Hnd Hm Hn Heq. apply list_elem_of_lookup in Hm as [i Hi], Hn as [j Hj].
  assert (i = j) as ->; [|by simplify_eq].
  apply (NoDup_lookup (map rm_signal_name ms) i j (rm_signal_name m) Hnd);
    rewrite list_lookup_fmap, ?Hi, ?Hj; cbn; by rewrite ?Heq.
Qed.

Lemma fetch_keeps call c addr n :
  keeps holding (ctx c) (call (ctx c) addr n).1.1 → keeps holding (ctx c) (ctx (fetch call c addr n).1).
Proof. unfold fetch. by destruct (call _ _ _) as [[]]. Qed.

Lemma read_mapped_keeps c m : keeps holding (ctx c) (ctx (read_mapped c m).1).
Proof.
  assert (Hr : ∀ call, (∀ d addr n, keeps holding d (call d addr n).1.1) →
    ∀ addr n, keeps holding (ctx c) (ctx (read_registers call c addr n).1)).
  { intros call Hc addr n. unfold read_registers.
    destruct (negb _); [done|]. destruct (_ || _); [done|]. by apply fetch_keeps. }
  assert (Hf : ∀ call, (∀ d addr n, keeps holding d (call d addr n).1.1) →
    ∀ addr n, keeps holding (ctx c) (ctx (read_flags call c addr n).1)).
  { intros call Hc addr n. unfold read_flags. destruct (negb _); [done|]. destruct (_ =? 0); [done|].
    pose proof (fetch_keeps call c addr n (Hc _ _ _)). by destruct (fetch _ _ _ _). }
  assert (Hh : ∀ d addr n, keeps holding d (mb_read_registers d addr n).1.1).
  { intros d addr n. pose proof (read_holding_law d addr n) as Hl.
    destruct (mb_read_registers d addr n) as [[]]. apply Hl. }
  unfold read_mapped, read_coils, read_discrete_inputs, read_holding_registers, read_input_registers.
  destruct (rm_register_type m);
    [ pose proof (Hf _ read_bits_law (rm_address m) (rm_count m))
    | pose proof (Hf _ read_input_bits_law (rm_address m) (rm_count m))
    | pose proof (Hr _ Hh (rm_address m) (rm_count m))
    | pose proof (Hr _ read_input_law (rm_address m) (rm_count m)) ];
    first [by destruct (read_flags _ _ _ _) | by destruct (read_registers _ _ _ _)].
Qed.

(** Sending registers: what it does not address it leaves alone, and accepted
    words are stored.  Words whose sending fails may be stored or not. *)
Lemma send_registers_spec c addr regs :
  let '(c', r) := send_registers c addr regs in
  (∀ a, in_block addr (length regs) a = false → holding (ctx c') a = holding (ctx c) a) ∧
  (is_ok r = true → stored holding (ctx c') addr regs).
Proof.
  assert (Hone : ∀ w, let '(c', r) := write_single_register c addr w in
    (∀ a, in_block addr 1 a = false → holding (ctx c') a = holding (ctx c) a) ∧
    (is_ok r = true → stored holding (ctx c') addr [w])).
  { intros w. unfold write_single_register, issue. destruct (negb _); [done|].
    destruct (write_register_law (ctx c) addr w) as [Hout Hin].
    split; cbn [ctx]; [done|]. destruct (Z.ltb_spec (mb_write_register (ctx c) addr w).2 0); [done|].
    intros _. by apply Hin. }
  assert (Hmany : let '(c', r) := write_multiple_registers c addr regs in
    (∀ a, in_block addr (length regs) a = false → holding (ctx c') a = holding (ctx c) a) ∧
    (is_ok r = true → stored holding (ctx c') addr regs)).
  { unfold write_multiple_registers, issue. destruct (negb _); [done|]. destruct (_ || _); [done|].
    destruct (write_registers_law (ctx c) addr regs) as [Hout Hin].
    split; cbn [ctx]; [done|]. destruct (Z.ltb_spec (mb_write_registers (ctx c) addr regs).2 0); [done|].
    intros _. by apply Hin. }
  unfold send_registers. destruct regs as [|w [|]]; [apply Hmany | apply Hone | apply Hmany].
Qed.

Lemma stored_keeps d d' addr regs : keeps holding d d' → stored holding d addr regs → stored holding d' addr regs.
Proof. intros Hk Hs i w Hi. rewrite Hk. by apply Hs. Qed.

(** A write inside the registers set aside for [m] does not reach those of [n]. *)
Lemma stored_apart ms m n d d' regs regs' :
  wired ms → m ∈ ms → n ∈ ms → is_write m → is_write n → m ≠ n →
  (length (A:=Z) regs ≤ width (rm_signal_name m))%nat → (length (A:=Z) regs' ≤ width (rm_signal_name n))%nat →
  (∀ a, in_block (rm_address m) (length regs) a = false → holding d' a = holding d a) →
  stored holding d (rm_address n) regs' → stored holding d' (rm_address n) regs'.
Proof.
  intros [_ Hw] Hm Hn Wm Wn Hne Hlm Hln Hout Hs i w Hi. rewrite Hout; [by apply Hs|].
  pose proof (lookup_lt_Some _ _ _ Hi). destruct (Hw m n Hm Hn Wm Wn Hne);
    unfold in_block; apply andb_false_iff; rewrite Z.leb_gt, Z.ltb_ge; lia.
Qed.

(** What one mapping does to the others. *)
Definition undisturbed (m : RegisterMapping) (st st' : PollState D T) : Prop :=
  (∀ name, name ≠ rm_signal_name m → signal_cache st' !! name = signal_cache st !! name) ∧
  (∀ name, name ≠ rm_signal_name m ∨ is_write m →
     (read_signal (transport st') name).2 = (read_signal (transport st) name).2).

(** One write signal [m0], and what the polls of all the signals do to it. *)
Context (ms : list RegisterMapping) (Hw : wired ms).
Context (m0 : RegisterMapping) (Hm0 : m0 ∈ ms) (W0 : is_write m0).

Lemma other_name m : m ∈ ms → m ≠ m0 → rm_signal_name m0 ≠ rm_signal_name m.
Proof. intros Hm Hne Heq. by apply Hne, (wired_names ms m m0 (proj1 Hw)). Qed.

Lemma mirrored_same st st' :
  signal_cache st' !! rm_signal_name m0 = signal_cache st !! rm_signal_name m0 →
  keeps holding (ctx (client st)) (ctx (client st')) → mirrored st m0 → mirrored st' m0.
Proof.
  intros Hc Hk Hmir v ts. rewrite Hc. intros (regs & ty & ? & ? & ?)%Hmir. exists regs, ty.
  split_and!; [done..|]. by eapply stored_keeps.
Qed.

(** What one mapping does to the others. *)
Lemma poll_one_undisturbed ts m st : let '(st', _, _) := poll_one ts m st in undisturbed m st st'.
Proof.
  unfold poll_one. destruct (rm_direction m) eqn:Edir.
  - unfold poll_read. destruct (read_mapped (client st) m) as [c [v|e]]; [|done].
    destruct (publish_signal (transport st) (rm_signal_name m) v ts) as [t ds] eqn:Ep.
    split; intros name; cbn [signal_cache transport].
    + intros Hn. by apply lookup_insert_ne.
    + intros [Hn|Wm]; [|unfold is_write in Wm; congruence].
      replace t with (publish_signal (transport st) (rm_signal_name m) v ts).1 by (by rewrite Ep).
      by apply read_publish_other.
  - unfold poll_write. pose proof (read_read (transport st) (rm_signal_name m)) as Hrr.
    destruct (read_signal (transport st) (rm_signal_name m)) as [t [[v us]|]]; cbn [fst] in Hrr;
      [|split; intros; cbn; auto].
    destruct (unchanged _ _ v); [split; intros; cbn; auto|]. cbn [client signal_cache].
    destruct (halvalue_to_registers v) as [[regs ty]|e]; [|split; intros; cbn; auto].
    destruct (send_registers _ _ _) as [c r]. split; intros name; cbn [signal_cache transport]; [|auto].
    intros Hne. destruct r; [by apply lookup_insert_ne | done].
Qed.

Lemma poll_read_step ts m st : m ∈ ms → ¬ is_write m → mirrored st m0 → mirrored (poll_read st m ts).1.1 m0.
Proof.
  intros Hm Hr Hmir. assert (m ≠ m0) as Hne by (by intros ->). pose proof (other_name m Hm Hne) as Hname.
  unfold poll_read. pose proof (read_mapped_keeps (client st) m) as Hk.
  destruct (read_mapped (client st) m) as [c [v|e]]; cbn in Hk;
    [destruct (publish_signal (transport st) (rm_signal_name m) v ts) as [t ds]|];
    (eapply mirrored_same; [|exact Hk|exact Hmir]); [by apply lookup_insert_ne | done].
Qed.

(** A write of another signal may fail and be carried out in part. *)
Lemma poll_write_step m st : m ∈ ms → is_write m → fits ms (transport st) → mirrored st m0 →
  let '(st', r) := poll_write st m in
  (m ≠ m0 ∨ r = Ok tt → mirrored st' m0) ∧
  (r = Ok tt → ∀ v ts, (read_signal (transport st) (rm_signal_name m)).2 = Some (v, ts) → cached st' m v).
Proof.
  intros Hm Wm Hfit Hmir. unfold poll_write. pose proof (λ v ts, Hfit m v ts Hm Wm) as Hf.
  destruct (read_signal (transport st) (rm_signal_name m)) as [t [[v us]|]] eqn:Er; cbn [fst snd] in *;
    [|by split; [intros _; exact Hmir|]].
  destruct (unchanged _ _ v) eqn:Eu; cbn [client signal_cache].
  { split; [intros _; exact Hmir|]. intros _ v' ts' [= <- <-]. revert Eu. unfold unchanged, cached.
    cbn [signal_cache]. destruct (signal_cache st !! _) as [[w ws]|]; [|done]. intros. exists w, ws. auto. }
  destruct (Hf v us eq_refl) as [_ Hlen].
  destruct (halvalue_to_registers v) as [[regs ty]|e] eqn:Ev; [|by split; [intros _; exact Hmir|]].
  pose proof (send_registers_spec (client st) (rm_address m) regs) as Hsend.
  destruct (send_registers _ _ _) as [c r]. destruct Hsend as (Hout & Hok).
  rewrite <- (registers_length v regs ty Ev) in Hlen. split.
  - intros Hgood w ws Hc. cbn [signal_cache client] in *. destruct (decide (m = m0)) as [->|Hne].
    + destruct Hgood as [?| ->]; [done|]. rewrite lookup_insert_eq in Hc. simplify_eq. exists regs, ty. by auto.
    + assert (Hc' : signal_cache st !! rm_signal_name m0 = Some (w, ws)).
      { destruct r; [|done]. rewrite lookup_insert_ne in Hc; [done|]. by apply not_eq_sym, other_name. }
      destruct (Hmir w ws Hc') as (regs' & ty' & ? & ? & ?). exists regs', ty'.
      split_and!; [done..|]. by apply (stored_apart ms m m0 (ctx (client st)) (ctx c) regs regs').
  - intros -> v' ts' [= <- <-]. exists v, us. cbn [signal_cache]. rewrite lookup_insert_eq. auto.
Qed.

(** No failed write of [m0] is reported. *)
Definition quiet (log : list string) : Prop := ∀ e, error_line m0 e ∉ log.

Lemma quiet_app l l' : quiet (l ++ l') ↔ quiet l ∧ quiet l'.
Proof. unfold quiet. setoid_rewrite elem_of_app. naive_solver. Qed.

Lemma quiet_reported m r : quiet (reported m r) → m ≠ m0 ∨ r = Ok tt.
Proof.
  intros Hq. destruct r as [[]|e]; [by right|]. left. intros ->. apply (Hq e). left.
Qed.

Lemma poll_one_step ts m st : m ∈ ms → fits ms (transport st) → mirrored st m0 →
  let '(st', _, r) := poll_one ts m st in
  quiet (reported m r) →
  mirrored st' m0 ∧
  (m = m0 → ∀ v us, (read_signal (transport st) (rm_signal_name m0)).2 = Some (v, us) → cached st' m0 v).
Proof.
  intros Hm Hfit Hmir. unfold poll_one. destruct (rm_direction m) eqn:Edir.
  - assert (Hr : ¬ is_write m) by (unfold is_write; by rewrite Edir).
    pose proof (poll_read_step ts m st Hm Hr Hmir) as Hs. destruct (poll_read st m ts) as [[st' ds] r].
    intros _. split; [exact Hs|]. by intros ->.
  - pose proof (poll_write_step m st Hm Edir Hfit Hmir) as Hs. destruct (poll_write st m) as [st' r].
    destruct Hs as [Hs Hdone]. intros Hq%quiet_reported. split; [by apply Hs|]. intros ->. apply Hdone. by destruct Hq.
Qed.

Lemma fits_ext t t' :
  (∀ m, m ∈ ms → is_write m → (read_signal t' (rm_signal_name m)).2 = (read_signal t (rm_signal_name m)).2) →
  fits ms t → fits ms t'.
Proof. intros He Hf m v ts Hm Wm Hv. rewrite He in Hv by done. by eapply Hf. Qed.

(** A write signal keeps its value while the mappings are polled. *)
Lemma poll_one_reads ts m st n : m ∈ ms → n ∈ ms → is_write n →
  (read_signal (transport (poll_one ts m st).1.1) (rm_signal_name n)).2 = (read_signal (transport st) (rm_signal_name n)).2.
Proof.
  intros Hm Hn Wn. pose proof (poll_one_undisturbed ts m st) as Hu. destruct (poll_one ts m st) as [[st' ds] r].
  apply Hu. destruct (decide (n = m)) as [->|Hne]; [by right|left].
  intros Heq. by apply Hne, (wired_names ms n m (proj1 Hw)).
Qed.

Lemma poll_mappings_frame ts rest st : rest ⊆ ms →
  let '(st', _, _) := poll_mappings ts rest st in
  (∀ n, n ∈ ms → is_write n →
     (read_signal (transport st') (rm_signal_name n)).2 = (read_signal (transport st) (rm_signal_name n)).2) ∧
  (∀ name, name ∉ map rm_signal_name rest → signal_cache st' !! name = signal_cache st !! name).
Proof.
  revert st. induction rest as [|m rest IH]; intros st Hsub; cbn [poll_mappings map] in *; [done|].
  assert (Hm : m ∈ ms) by set_solver. pose proof (poll_one_undisturbed ts m st) as Hc.
  pose proof (λ n, poll_one_reads ts m st n Hm) as Hr.
  destruct (poll_one ts m st) as [[st1 ds] r]. destruct Hc as [Hc _]. specialize (IH st1 ltac:(set_solver)).
  destruct (poll_mappings ts rest st1) as [[st2 ds2] log]. destruct IH as [IH1 IH2]. split.
  - intros n Hn Wn. rewrite IH1 by done. by apply Hr.
  - intros name Hname. rewrite IH2 by set_solver. apply Hc. set_solver.
Qed.

Lemma poll_mappings_step ts rest st : rest ⊆ ms → NoDup (map rm_signal_name rest) →
  fits ms (transport st) → mirrored st m0 →
  let '(st', _, log) := poll_mappings ts rest st in
  quiet log → mirrored st' m0 ∧
  (m0 ∈ rest → ∀ v us, (read_signal (transport st) (rm_signal_name m0)).2 = Some (v, us) → cached st' m0 v).
Proof.
  revert st. induction rest as [|m rest IH]; intros st Hsub Hnd Hfit Hmir; cbn [poll_mappings map] in *.
  { intros _. split; [done|]. intros Hm. by apply not_elem_of_nil in Hm. }
  assert (Hm : m ∈ ms) by set_solver. apply NoDup_cons in Hnd as [Hnot Hnd].
  pose proof (poll_one_step ts m st Hm Hfit Hmir) as Hone. pose proof (λ n, poll_one_reads ts m st n Hm) as Hr.
  destruct (poll_one ts m st) as [[st1 ds] r]. specialize (IH st1 ltac:(set_solver) Hnd (fits_ext _ _ Hr Hfit)).
  pose proof (poll_mappings_frame ts rest st1 ltac:(set_solver)) as Hf.
  destruct (poll_mappings ts rest st1) as [[st2 ds2] log]. destruct Hf as [_ Hc2].
  intros [Hq1 Hq2]%quiet_app. destruct (Hone Hq1) as [Hmir1 Hdone]. destruct (IH Hmir1 Hq2) as [Hmir2 Hdone2].
  split; [done|]. intros Hin v us Hv. apply elem_of_cons in Hin as [->|Hin].
  - destruct (Hdone eq_refl v us Hv) as (w & ws & Hcw & ?). exists w, ws. by rewrite Hc2.
  - apply (Hdone2 Hin v us). by rewrite Hr.
Qed.

Lemma poll_loop_mirrors script st :
  Forall (λ i, ∀ t, fits ms (others i t)) script → mirrored st m0 →
  let '(st', log) := poll_loop ms script st in quiet log → mirrored st' m0.
Proof.
  intros Hs. revert st. induction Hs as [|i script Hi Hs IH]; intros st Hmir; [intros _; exact Hmir|]. cbn [poll_loop].
  set (st0 := mkPoll _ _ _). assert (Hmir0 : mirrored st0 m0) by exact Hmir.
  destruct (stop_seen i); [done|].
  pose proof (poll_mappings_step (now_timestamp (clock_ns i)) ms st0 ltac:(done) (proj1 Hw) (Hi _) Hmir0) as Ht.
  destruct (poll_mappings _ ms st0) as [[st1 ds] log]. specialize (IH st1).
  destruct (poll_loop ms script st1) as [st2 log2]. intros [Hq1 Hq2]%quiet_app. destruct (Ht Hq1) as [Hmir1 _].
  exact (IH Hmir1 Hq2).
Qed.

(** [C31] Signals reach the device.  Let every signal be mapped once, and the
    registers set aside for the signals to write not overlap.  After any run of
    the poll loop, whatever the other threads published in between, that reported
    no failed write of signal [m0] - other signals may have failed, and their
    writes been carried out or not - a turn that reports none either leaves the
    device's holding registers at [m0]'s address equal to the words of the
    signal's value, up to the adapter's own comparison of values. *)
Theorem poll_synchronises script c t st log0 ts st' ds log v us :
  Forall (λ i, ∀ t, fits ms (others i t)) script →
  poll_loop ms script (mkPoll c t ∅) = (st, log0) → fits ms (transport st) → quiet log0 →
  poll_mappings ts ms st = (st', ds, log) → quiet log →
  (read_signal (transport st') (rm_signal_name m0)).2 = Some (v, us) →
  ∃ w regs ty, (w = v ∨ hal_eqb w v = true) ∧ halvalue_to_registers w = Ok (regs, ty) ∧
    stored holding (ctx (client st')) (rm_address m0) regs.
Proof.
  intros Hs Hloop Hfit Hq0 Hturn Hq Hv.
  assert (Hmir : mirrored st m0).
  { pose proof (poll_loop_mirrors script (mkPoll c t ∅) Hs) as Hl. rewrite Hloop in Hl. apply Hl; [|done].
    intros w ws Hk. cbn [signal_cache] in Hk. by rewrite lookup_empty in Hk. }
  pose proof (poll_mappings_step ts ms st (λ x H, H) (proj1 Hw) Hfit Hmir) as Ht.
  pose proof (poll_mappings_frame ts ms st (λ x H, H)) as Hf.
  rewrite Hturn in Ht, Hf. destruct (Ht Hq) as [Hmir' Hdone]. destruct Hf as [Hread _].
  rewrite Hread in Hv by done. destruct (Hdone Hm0 v us Hv) as (w & ws & Hcw & Heq).
  destruct (Hmir' w ws Hcw) as (regs & ty & Hr & _ & Hst). by exists w, regs, ty.
Qed.
End sync.

(** ** Further behaviour of the polls *)
Section polls.
Context {D : Type} `{Libmodbus D} {T : Type} `{HalTransport T, !HalTransportLaws T}.

(** A poll that fails - not connected, a count out of range, a request
    the device refuses, a value that does not fit registers - publishes
    nothing, leaves every signal as it was and the cache too, so that the same
    transfer is tried again in the next turn. *)
Theorem failed_poll_changes_nothing ts m (st st' : PollState D T) ds e :
  poll_one ts m st = (st', ds, Err e) →
  ds = [] ∧ signal_cache st' = signal_cache st ∧
  ∀ name, (read_signal (transport st') name).2 = (read_signal (transport st) name).2.
Proof.
  unfold poll_one, poll_read, poll_write. destruct (rm_direction m).
  - destruct (read_mapped _ _) as [c [v|e']]; [by destruct (publish_signal _ _ _ _)|]. by intros [= <- <- _].
  - pose proof (read_read (transport st) (rm_signal_name m)) as Hrr.
    destruct (read_signal (transport st) (rm_signal_name m)) as [t [[v us]|]]; [|done].
    cbn [signal_cache client fst] in *. destruct (unchanged _ _ _); [done|].
    destruct (halvalue_to_registers v) as [[regs ty]|e'].
    + destruct (send_registers _ _ _) as [c [[]|e']]; [done|]. by intros [= <- <- _].
    + by intros [= <- <- _].
Qed.

Lemma read_mapped_reflexive (c c' : ModbusClient D) m v :
  read_mapped c m = (c', Ok v) → hal_eqb v v = true.
Proof.
  assert (Hflags : ∀ r, flags_value r = Ok v → hal_eqb v v = true).
  { intros [bits|]; cbn; [|done]. intros [= <-]. destruct bits as [|b [|b' bits]]; cbn; [done|by destruct b|].
    by rewrite !bool_decide_eq_true_2. }
  assert (Hwords : ∀ r, words_value r = Ok v → hal_eqb v v = true).
  { intros [[|w ws]|]; cbn; [done| |done]. intros [= <-]. cbn. apply Z.eqb_refl. }
  unfold read_mapped. destruct (rm_register_type m);
    first [destruct (read_coils _ _ _) | destruct (read_discrete_inputs _ _ _)
          | destruct (read_holding_registers _ _ _) | destruct (read_input_registers _ _ _)];
    intros [= _ Hv]; eauto.
Qed.

(** No gateway through one signal: when a signal is mapped for reading
    and, later in the list, for writing, a turn in which the read succeeds
    never writes: the read puts the value into the cache that the write
    compares with. *)
Theorem read_signal_never_forwarded ts r w (st : PollState D T) st1 ds :
  rm_direction r = DirRead → rm_direction w = DirWrite → rm_signal_name w = rm_signal_name r →
  poll_read st r ts = (st1, ds, Ok tt) →
  let '(st2, _, log) := poll_mappings ts [r; w] st in client st2 = client st1 ∧ log = [].
Proof.
  intros Hr Hw Hname Hread. cbn [poll_mappings]. unfold poll_one. rewrite Hr, Hw, Hread.
  unfold poll_read in Hread. destruct (read_mapped (client st) r) as [c [v|]] eqn:Em; [|done].
  destruct (publish_signal (transport st) (rm_signal_name r) v ts) as [t ds'] eqn:Ep.
  injection Hread as <- _. unfold poll_write. cbn [transport client signal_cache].
  pose proof (read_publish_same (transport st) (rm_signal_name r) v ts) as Hv. rewrite Ep in Hv. cbn [fst] in Hv.
  rewrite Hname. destruct (read_signal t (rm_signal_name r)) as [t' cur]. cbn [snd] in Hv. subst cur.
  unfold unchanged. rewrite lookup_insert_eq, (read_mapped_reflexive _ _ _ _ Em). done.
Qed.

(** A mapping for writing ignores its register type and its count: the words
    of the value decide. *)
Lemma write_ignores_type (st : PollState D T) name ty ty' addr n n' :
  poll_write st (mkMapping name ty addr n DirWrite) = poll_write st (mkMapping name ty' addr n' DirWrite).
Proof. reflexivity. Qed.
End polls.

Section reads.
Context {D : Type} `{LibmodbusLaws D} {T : Type} `{HalTransport T, !HalTransportLaws T}.

Lemma filled_all n ws : length ws = Z.to_nat n → filled_buffer n n ws = ws.
Proof. intros Hl. unfold filled_buffer. by rewrite <- Hl, take_app_length, firstn_all. Qed.

(** Reading registers: a successful read of holding registers, however
    many are asked for, publishes the first of them as an unsigned 16-bit
    value and drops the others; a count outside 1..125 never reaches the
    device. *)
Theorem read_publishes_first_register ts m (st : PollState D T) :
  rm_register_type m = MapHoldingRegister → in_u 16 (rm_count m) = true →
  let '(st', _, r) := poll_read st m ts in
  (r = Ok tt → 1 ≤ rm_count m ≤ 125 ∧
     (read_signal (transport st') (rm_signal_name m)).2 =
       Some (VU16 (holding (ctx (client st)) (rm_address m)), ts)) ∧
  (¬ (1 ≤ rm_count m ≤ 125) → is_ok r = false ∧ client st' = client st).
Proof.
  intros Hty Hn%in_u_spec. unfold poll_read, read_mapped. rewrite Hty. unfold read_holding_registers, read_registers.
  destruct (connected (client st)); cbn [negb]; [|by split].
  destruct (Z.eqb_spec (rm_count m) 0); [by split|].
  unfold MODBUS_MAX_READ_REGISTERS. destruct (Z.ltb_spec 125 (rm_count m)); [by split|]. cbn [orb].
  unfold fetch. pose proof (read_holding_law (ctx (client st)) (rm_address m) (rm_count m)) as Hlaw.
  destruct (mb_read_registers _ _ _) as [[d ret] ws]. destruct Hlaw as [Hk Hok].
  destruct (Z.ltb_spec ret 0) as [|Hret]; [split; [done|intros; lia]|].
  destruct (Hok Hret) as (-> & Hlen & Hst). rewrite filled_all by done.
  destruct ws as [|w ws]; [cbn in Hlen; lia|]. cbn [words_value result_bind registers_to_halvalue].
  pose proof (read_publish_same (transport st) (rm_signal_name m) (VU16 w) ts) as Hv.
  destruct (publish_signal _ _ _ _) as [t ds]. split; [|lia]. intros _. split; [lia|].
  cbn [transport fst] in *. rewrite Hv. do 3 f_equal. specialize (Hst 0%nat w eq_refl). by rewrite Z.add_0_r in Hst.
Qed.
End reads.

(** ** A device in memory

    Its replies follow a script; a request it does not answer is carried out
    all the same when [lossy]. *)
Record MemDevice (lossy : bool) := mkMem { mem : gmap Z Z; replies : list bool }.
Arguments mkMem {lossy}.
Arguments mem {lossy}.
Arguments replies {lossy}.

Fixpoint mem_write (addr : Z) (ws : list Z) (s : gmap Z Z) : gmap Z Z :=
  match ws with [] => s | w :: ws => <[addr := w]> (mem_write (addr + 1) ws s) end.
Definition reg (s : gmap Z Z) (a : Z) : Z := default 0 (s !! a).

Section device.
Context {lossy : bool}.
Definition answers (d : MemDevice lossy) : bool := match replies d with b :: _ => b | [] => true end.
Definition mem_respond (d : MemDevice lossy) (s : gmap Z Z) (ok : Z) : MemDevice lossy * Z :=
  if answers d then (mkMem s (tail (replies d)), ok)
  else (mkMem (if lossy then s else mem d) (tail (replies d)), -1).
Definition mem_read (d : MemDevice lossy) (addr n : Z) : MemDevice lossy * Z * list Z :=
  (mem_respond d (mem d) n, map (fun i => reg (mem d) (addr + i)) (seqZ 0 n)).

#[export] Instance MemDevice_libmodbus : Libmodbus (MemDevice lossy) := {
  mb_new_tcp _ _ := Some (mkMem ∅ []);
  mb_new_rtu _ _ _ _ _ := Some (mkMem ∅ []);
  mb_set_slave d _ := (d, 0);
  mb_connect d := (d, 0);
  mb_set_response_timeout d _ _ := d;
  mb_close d := d;
  mb_read_registers := mem_read;
  mb_read_input_registers d _ n := (mem_respond d (mem d) n, repeat 0 (Z.to_nat n));
  mb_read_bits d _ n := (mem_respond d (mem d) n, repeat 0 (Z.to_nat n));
  mb_read_input_bits d _ n := (mem_respond d (mem d) n, repeat 0 (Z.to_nat n));
  mb_write_bit d _ _ := mem_respond d (mem d) 1;
  mb_write_register d addr w := mem_respond d (mem_write addr [w] (mem d)) 1;
  mb_write_registers d addr ws := mem_respond d (mem_write addr ws (mem d)) (Z.of_nat (length ws));
  mb_strerror _ := "Connection timed out" }.

Lemma reg_mem_write addr ws s a :
  reg (mem_write addr ws s) a =
  if in_block addr (length ws) a then nth (Z.to_nat (a - addr)) ws 0 else reg s a.
Proof.
  revert addr. induction ws as [|w ws IH]; intros addr; cbn [mem_write length].
  - unfold in_block. destruct (Z.leb_spec addr a), (Z.ltb_spec a (addr + Z.of_nat 0)); try done; lia.
  - destruct (decide (a = addr)) as [->|Hne].
    + unfold reg. rewrite lookup_insert_eq, Z.sub_diag. unfold in_block.
      destruct (Z.leb_spec addr addr), (Z.ltb_spec addr (addr + Z.of_nat (S (length ws)))); try lia. done.
    + unfold reg in *. rewrite lookup_insert_ne by done. rewrite IH. unfold in_block.
      destruct (Z.leb_spec (addr + 1) a), (Z.ltb_spec a (addr + 1 + Z.of_nat (length ws))),
        (Z.leb_spec addr a), (Z.ltb_spec a (addr + Z.of_nat (S (length ws)))); try done; try lia.
      cbn [andb]. by replace (Z.to_nat (a - addr)) with (S (Z.to_nat (a - (addr + 1)))) by lia.
Qed.

Lemma mem_respond_keeps d ok : keeps (fun d => reg (mem d)) d (mem_respond d (mem d) ok).1.
Proof. intros a. unfold mem_respond. by destruct (answers d), lossy. Qed.

Lemma respond_write d addr ws ok :
  let r := mem_respond d (mem_write addr ws (mem d)) ok in
  (∀ a, in_block addr (length ws) a = false → reg (mem r.1) a = reg (mem d) a) ∧
  (0 ≤ r.2 → stored (fun d => reg (mem d)) r.1 addr ws).
Proof.
  unfold mem_respond. destruct (answers d); cbn; split.
  - intros a Ha. by rewrite reg_mem_write, Ha.
  - intros _ i w Hi. cbn. rewrite reg_mem_write. pose proof (lookup_lt_Some _ _ _ Hi). unfold in_block.
    destruct (Z.leb_spec addr (addr + Z.of_nat i)),
      (Z.ltb_spec (addr + Z.of_nat i) (addr + Z.of_nat (length ws))); try lia. cbn.
    replace (Z.to_nat (addr + Z.of_nat i - addr)) with i by lia. by apply nth_lookup_Some.
  - intros a Ha. destruct lossy; [by rewrite reg_mem_write, Ha | done].
  - lia.
Qed.

#[export] Instance MemDevice_laws : LibmodbusLaws (MemDevice lossy).
Proof.
  refine {| holding := fun d => reg (mem d) |}.
  - intros d addr n. cbn. unfold mem_read. pose proof (mem_respond_keeps d n) as Hk.
    assert (Hret : 0 ≤ (mem_respond d (mem d) n).2 → (mem_respond d (mem d) n).2 = n)
      by (unfold mem_respond; destruct (answers d); cbn; [done|lia]).
    destruct (mem_respond d (mem d) n) as [d' ret]. split; [done|]. intros Hpos. split_and!; [by apply Hret | |].
    + by rewrite length_map, length_seqZ.
    + intros i w Hi. rewrite list_lookup_fmap in Hi. destruct (seqZ 0 n !! i) as [k|] eqn:Ek; [|done].
      apply lookup_seqZ in Ek as [-> _]. cbn in Hi. by simplify_eq.
  - intros d addr n. apply mem_respond_keeps.
  - intros d addr n. apply mem_respond_keeps.
  - intros d addr n. apply mem_respond_keeps.
  - intros d addr w. apply (respond_write d addr [w]).
  - intros d addr ws. apply (respond_write d addr ws).
Defined.
End device.

(** ** Runs *)
Definition setpoint : RegisterMapping := mkMapping "setpoint" MapHoldingRegister 10 1 DirWrite.
Definition level : RegisterMapping := mkMapping "level" MapHoldingRegister 40 2 DirRead.
Definition publish (n : Z) (t : InprocTransport) : InprocTransport :=
  (publish_signal t "setpoint" (VU32 n) (mkTs 0 0)).1.
Definition at_setpoint (lossy : bool) (replies : list bool) (script : list Z) :
    PollState (MemDevice lossy) InprocTransport * list string :=
  poll_loop [setpoint; level] (map (fun n => mkInterval false 0 (publish n)) script)
    (mkPoll (mkClient (mkMem ∅ replies) true) transport_new ∅).
Definition device_words {lossy : bool} (st : PollState (MemDevice lossy) InprocTransport) (addr : Z) : Z * Z :=
  let s := mem (ctx (client st)) in (reg s addr, reg s (addr + 1)).

(** A write whose answer is lost stays: the device carries out the write
    of a new value but its answer does not arrive, so the cache keeps the old
    value; when the signal returns to that old value the adapter takes it for
    already written, and device and signal differ from then on, with no
    further error. *)
Theorem lost_answer_sticks :
  let '(st, log) := at_setpoint true [true; true; false; true; true; true; true; true] [65537; 131074; 65537; 65537] in
  (read_signal (transport st) "setpoint").2 = Some (VU32 65537, mkTs 0 0) ∧
  halvalue_to_registers (VU32 65537) = Ok ([1; 1], RtU32) ∧
  device_words st 10 = (2, 2) ∧ length log = 1%nat.
Proof. vm_compute. done. Qed.

Lemma register_words_roundtrip_witness : hal_wf (VS64 (-1)) = true ∧
  ∃ regs t, halvalue_to_registers (VS64 (-1)) = Ok (regs, t) ∧ words_wf regs = true ∧
    length regs = 4%nat ∧ registers_to_halvalue regs t = Ok (VF64 (2 ^ 64 - 1)).
Proof. split; [done | apply (register_words_roundtrip (VS64 (-1)) eq_refl)]. Defined.

Lemma failed_poll_changes_nothing_witness :
  let st := (at_setpoint false [false] [7]).1 in
  let r := poll_one (mkTs 1 0) (mkMapping "setpoint" MapCoil 10 0 DirRead) st in
  signal_cache r.1.1 = signal_cache st.
Proof.
  intros st r.
  apply (failed_poll_changes_nothing (mkTs 1 0) (mkMapping "setpoint" MapCoil 10 0 DirRead) st r.1.1 r.1.2
           (MbInvalidData "count must be > 0")). reflexivity.
Defined.

Definition echo : RegisterMapping := mkMapping "level" MapHoldingRegister 80 1 DirWrite.
Lemma read_signal_never_forwarded_witness :
  let st := mkPoll (mkClient (@mkMem false {[ 40 := 9 ]} []) true) transport_new ∅ in
  let '(st2, _, log) := poll_mappings (mkTs 1 0) [level; echo] st in device_words st2 80 = (0, 0) ∧ log = [].
Proof.
  cbv zeta.
  pose proof (read_signal_never_forwarded (mkTs 1 0) level echo
    (mkPoll (mkClient (@mkMem false {[ 40 := 9 ]} []) true) transport_new ∅) _ _ eq_refl eq_refl eq_refl eq_refl) as Hf.
  vm_compute in Hf. split; [vm_compute; reflexivity | exact (proj2 Hf)].
Defined.

Lemma read_publishes_first_register_witness :
  let st := mkPoll (mkClient (@mkMem false {[ 40 := 9; 41 := 5 ]} []) true) transport_new ∅ in
  (read_signal (transport (poll_read st level (mkTs 1 0)).1.1) "level").2 = Some (VU16 9, mkTs 1 0).
Proof.
  pose proof (read_publishes_first_register (mkTs 1 0) level
    (mkPoll (mkClient (@mkMem false {[ 40 := 9; 41 := 5 ]} []) true) transport_new ∅) eq_refl eq_refl) as Hf.
  apply Hf. reflexivity.
Defined.

(** A device that carries out requests it does not answer; it does not answer the
    read of the first turn. *)
Lemma poll_synchronises_witness :
  let width := fun name => if String.eqb name "setpoint" then 2%nat else 1%nat in
  let '(st, log) := at_setpoint true [true; false; true; true] [65537; 131074] in
  log ≠ [] ∧
  ∃ w regs ty, (w = VU32 131074 ∨ hal_eqb w (VU32 131074) = true) ∧ halvalue_to_registers w = Ok (regs, ty) ∧
    stored holding (ctx (client (poll_mappings (mkTs 3 0) [setpoint; level] st).1.1)) 10 regs.
Proof.
  intros width. destruct (at_setpoint true _ _) as [st log] eqn:E.
  assert (Hst : st = (at_setpoint true [true; false; true; true] [65537; 131074]).1) by (by rewrite E).
  assert (Hlog : log = (at_setpoint true [true; false; true; true] [65537; 131074]).2) by (by rewrite E).
  assert (Hfit : ∀ n, (0 <= n < 2 ^ 32) → ∀ t, fits width [setpoint; level] (publish n t)).
  { intros n Hn t m v ts Hm Wm Hv. apply elem_of_cons in Hm as [->|Hm%list_elem_of_singleton]; [|subst m; discriminate Wm].
    unfold publish in Hv. cbn [rm_signal_name setpoint] in Hv. rewrite read_publish_same in Hv. injection Hv as <- <-.
    cbn. rewrite in_u_spec. split; [done|lia]. }
  split; [rewrite Hlog; vm_compute; done|].
  assert (Hwired : wired width [setpoint; level]).
  { split; [by apply (bool_decide_unpack _); vm_compute|].
    intros m n Hm Hn Wm Wn Hne. apply elem_of_cons in Hm as [->|Hm%list_elem_of_singleton]; [|subst; discriminate Wm].
    apply elem_of_cons in Hn as [->|Hn%list_elem_of_singleton]; [by destruct Hne|subst; discriminate Wn]. }
  eapply (poll_synchronises width [setpoint; level] Hwired setpoint ltac:(left) eq_refl
            (map (fun n => mkInterval false 0 (publish n)) [65537; 131074]) (mkClient (mkMem ∅ [true; false; true; true]) true)
            transport_new st log (mkTs 3 0) _ _ _ (VU32 131074) (mkTs 0 0)).
  - apply Forall_cons; split; [exact (Hfit 65537 ltac:(lia))|].
    apply Forall_cons; split; [exact (Hfit 131074 ltac:(lia))|constructor].
  - exact E.
  - subst st. clear. intros m v ts Hm Wm. apply elem_of_cons in Hm as [->|Hm%list_elem_of_singleton]; [|subst m; discriminate Wm].
    intros Hv. assert (Hs : (read_signal (transport (at_setpoint true [true; false; true; true] [65537; 131074]).1)
      "setpoint").2 = Some (VU32 131074, mkTs 0 0)) by (vm_compute; reflexivity).
    cbn [rm_signal_name setpoint] in Hv. rewrite Hs in Hv. injection Hv as <- <-. by split.
  - subst log. intros e Hin. vm_compute in Hin. apply list_elem_of_singleton in Hin. discriminate Hin.
  - subst st. vm_compute. reflexivity.
  - intros e Hin. apply not_elem_of_nil in Hin. exact Hin.
  - subst st. vm_compute. reflexivity.
Defined.
