(* ===== verification/HartAdapter.v ===== *)
(** * The HART adapter ([audesys-hart/src])

    Conversion of HART variables, the client over a serial port and the
    [hart_protocol] codec (classes: both are third-party code), and the poll
    loop that publishes variables as signals.  A loop over the port takes fuel;
    [None] is a loop still running. *)
From stdpp Require Import pretty.
From S2P Require Import Prelude Float HalTypes HalValue Transport VirtualHart ModbusAdapter.
Local Open Scope Z_scope.
Ltac Zify.zify_post_hook ::= Z.to_euclidean_division_equations.

(** ** Errors ([error.rs]) *)
Inductive HartError :=
  | HaConnection (msg : string) | HaIo (msg : string) | HaProtocol (msg : string) | HaTimeout (msg : string)
  | HaInvalidAddress (addr : Z) | HaInvalidData (msg : string) | HaNotConnected
  | HaUnsupported (msg : string) | HaInternal (msg : string).

Definition hart_error_display (e : HartError) : string :=
  match e with
  | HaConnection s => "connection failed: " +:+ s
  | HaIo s => "I/O error: " +:+ s
  | HaProtocol s => "protocol error: " +:+ s
  | HaTimeout s => "timeout: " +:+ s
  | HaInvalidAddress a => "invalid polling address: " +:+ pretty a
  | HaInvalidData s => "invalid data: " +:+ s
  | HaNotConnected => "device not connected"
  | HaUnsupported s => "unsupported operation: " +:+ s
  | HaInternal s => "internal error: " +:+ s
  end.

Definition hal_of_hart_error (e : HartError) : HalError :=
  match e with
  | HaConnection msg => Execution "hart_connect" msg
  | HaIo msg => Execution "hart_io" msg
  | HaProtocol msg => Execution "hart_protocol" msg
  | HaTimeout msg => Execution "hart_timeout" msg
  | HaInvalidAddress addr => Execution "hart_set_address" ("invalid polling address: " +:+ pretty addr)
  | HaInvalidData msg => Execution "hart_data" msg
  | HaNotConnected => Execution "hart_operation" "device not connected"
  | HaUnsupported msg => Execution "hart_unsupported" msg
  | HaInternal msg => Internal msg
  end.

Abbreviation HaResult A := (result A HartError) (only parsing).

(** ** Configuration ([config.rs]) *)
Inductive HartConnection := Serial (device : string).
Inductive HartDirection := HartRead | HartWrite.
Inductive VariableMappingType := Pv | Sv | Tv | Qv | Status.
Record VariableMapping := mkVariable {
  vm_signal_name : string; vm_type : VariableMappingType; vm_direction : HartDirection }.
Record HartConfig := mkHartConfig {
  hart_connection : HartConnection; hart_mappings : list VariableMapping; hart_poll_interval_ms : Z }.
Definition hart_default_poll_interval_ms : Z := 500.

(** ** Variables and values ([mapping.rs]) *)
Inductive VariableType := VtFloat | VtU8 | VtU16 | VtU24 | VtStatus.
Definition to_pin_type (t : VariableType) : HalPinType :=
  match t with VtFloat => TF32 | VtU8 => TU8 | VtU16 => TU16 | VtU24 => TU32 | VtStatus => TU16 end.

Definition decode_u24_be (b0 b1 b2 : Z) : Z := Z.lor (Z.lor (Z.shiftl b0 16) (Z.shiftl b1 8)) b2.

Definition variables_to_halvalue (data : list Z) (t : VariableType) : HaResult HalValue :=
  match t with
  | VtFloat => if (length data <? 4)%nat then Err (HaInvalidData "float requires 4 bytes")
               else Ok (VF32 (of_be_bytes (take 4 data)))
  | VtU8 => match data with b :: _ => Ok (VU8 b) | [] => Err (HaInvalidData "u8 requires 1 byte") end
  | VtU16 => if (length data <? 2)%nat then Err (HaInvalidData "u16 requires 2 bytes")
             else Ok (VU16 (of_be_bytes (take 2 data)))
  | VtU24 => match data with
             | b0 :: b1 :: b2 :: _ => Ok (VU32 (decode_u24_be b0 b1 b2))
             | _ => Err (HaInvalidData "u24 requires 3 bytes") end
  | VtStatus => if (length data <? 2)%nat then Err (HaInvalidData "status requires 2 bytes")
                else Ok (VU16 (of_be_bytes (take 2 data)))
  end.

(** [debug] renders a value with [{:?}]. *)
Definition halvalue_to_variables (debug : HalValue → string) (v : HalValue)
  : HaResult (list Z * VariableType) :=
  match v with
  | VF32 b => Ok (be_bytes 4 b, VtFloat)
  | VU8 n => Ok ([n], VtU8)
  | VU16 n => Ok (be_bytes 2 n, VtU16)
  | VU32 n => Ok (drop 1 (be_bytes 4 n), VtU24)
  | other => Err (HaUnsupported ("HalValue variant " +:+ debug other +:+ " has no HART wire equivalent"))
  end.

(** ** The serial port and the codec

    [port_read p n] gives at most [n] bytes. *)
Class SerialPort (P : Type) := {
  port_open : string → result P string;
  port_read : P → nat → P * result (list Z) string;
  port_write_all : P → list Z → P * result unit string;
  port_flush : P → P * result unit string }.

Record RawFrame := mkFrame { is_response : bool; frame_type_debug : string; frame_data : list Z }.
(** [Address::Short { master: Primary, burst: false, poll_address }]. *)
Definition Address : Type := Z.
Class HartCodec (C : Type) := {
  encode_frame : Address → Z → list Z → result (list Z) string;
  decoder_new : C;
  feed : C → Z → C * result (option RawFrame) string }.

Definition READ_DEVICE_ID : Z := 0.
Definition READ_PRIMARY_VARIABLE : Z := 1.
Definition READ_LOOP_CURRENT_PERCENT : Z := 2.
Definition READ_DYNAMIC_VARS : Z := 3.

(** ** The client ([client.rs]) *)
Record HartResponse := mkResponse { status_byte0 : Z; status_byte1 : Z; resp_data : list Z }.

Definition parse_response (f : RawFrame) : HaResult HartResponse :=
  if negb (is_response f)
  then Err (HaProtocol ("expected response frame, got " +:+ frame_type_debug f))
  else match frame_data f with
       | s0 :: s1 :: data => Ok (mkResponse s0 s1 data)
       | _ => Err (HaProtocol "response too short for status bytes")
       end.

Section client.
Context {P : Type} `{SerialPort P} {C : Type} `{HartCodec C}.

Record HartClient := mkHartClient { port : P; address : Address }.
Definition hart_client_new (device : string) (poll_address : Z) : HaResult HartClient :=
  match port_open device with
  | Err e => Err (HaConnection ("failed to open " +:+ device +:+ ": " +:+ e))
  | Ok p => Ok (mkHartClient p poll_address)
  end.
Definition set_address (c : HartClient) (poll_address : Z) : HartClient := mkHartClient (port c) poll_address.

(** Read until the port reports an empty read; its error is an error. *)
Fixpoint drain_rx (fuel : nat) (p : P) : option (P * result unit string) :=
  match fuel with
  | O => None
  | S fuel =>
      match port_read p 64 with
      | (p, Err e) => Some (p, Err e)
      | (p, Ok []) => Some (p, Ok tt)
      | (p, Ok _) => drain_rx fuel p
      end
  end.

(** One byte at a time through the decoder. *)
Fixpoint receive (fuel : nat) (p : P) (d : C) : option (P * HaResult HartResponse) :=
  match fuel with
  | O => None
  | S fuel =>
      match port_read p 1 with
      | (p, Err e) => Some (p, Err (HaIo ("read failed: " +:+ e)))
      | (p, Ok []) => Some (p, Err (HaTimeout "no response from device"))
      | (p, Ok (b :: _)) =>
          match feed d b with
          | (_, Err e) => Some (p, Err (HaProtocol ("decode error: " +:+ e)))
          | (_, Ok (Some frame)) => Some (p, parse_response frame)
          | (d, Ok None) => receive fuel p d
          end
      end
  end.

Definition send_command (fuel : nat) (c : HartClient) (command : Z) (data : list Z)
  : option (HartClient * HaResult HartResponse) :=
  let back p r := Some (mkHartClient p (address c), r) in
  match encode_frame (address c) command data with
  | Err e => back (port c) (Err (HaProtocol ("frame encode failed: " +:+ e)))
  | Ok tx =>
      '(p, drained) ← drain_rx fuel (port c);
      match drained with
      | Err e => back p (Err (HaIo ("drain failed: " +:+ e)))
      | Ok _ =>
          match port_write_all p tx with
          | (p, Err e) => back p (Err (HaIo ("write failed: " +:+ e)))
          | (p, Ok _) =>
              match port_flush p with
              | (p, Err e) => back p (Err (HaIo ("flush failed: " +:+ e)))
              | (p, Ok _) => '(p, r) ← receive fuel p decoder_new; back p r
              end
          end
      end
  end.

Definition read_device_id fuel c := send_command fuel c READ_DEVICE_ID [].
Definition read_pv fuel c := send_command fuel c READ_PRIMARY_VARIABLE [].
Definition read_loop_current fuel c := send_command fuel c READ_LOOP_CURRENT_PERCENT [].
Definition read_dynamic_vars fuel c := send_command fuel c READ_DYNAMIC_VARS [].
End client.
Arguments HartClient P : clear implicits.
Arguments mkHartClient {P} port address.

(** ** The adapter ([adapter.rs]) *)
Section adapter.
Context {P : Type} `{SerialPort P} {C : Type} `{HartCodec C} {T : Type} `{HalTransport T}.
Variable debug : HalValue → string.

Record HartState := mkHartState {
  hart_client : HartClient P; hart_transport : T; hart_cache : gmap string (HalValue * Timestamp) }.
Definition hart_adapter_new (config : HartConfig) (transport : T) : HaResult HartState :=
  match hart_connection config with
  | Serial device => let? c := hart_client_new device 0 in Ok (mkHartState c transport ∅)
  end.

Definition variable_offset (t : VariableMappingType) : nat :=
  match t with Pv => 1 | Sv => 6 | Tv => 11 | Qv => 16 | Status => 0 end%nat.
Definition dynamic_value (t : VariableMappingType) (data : list Z) : HaResult HalValue :=
  let offset := variable_offset t in
  if (length data <? offset + 4)%nat
  then Err (HaInvalidData ("dynamic var response too short: " +:+ pretty (Z.of_nat (length data))
              +:+ " bytes, need " +:+ pretty (Z.of_nat (offset + 4))))
  else variables_to_halvalue (drop offset data) VtFloat.

Definition response_value (t : VariableMappingType) (r : HaResult HartResponse) : HaResult HalValue :=
  let? resp := r in
  match t with
  | Status => Ok (VU16 (of_be_bytes [status_byte0 resp; status_byte1 resp]))
  | _ => dynamic_value t (resp_data resp)
  end.
Definition mapped_command (t : VariableMappingType) : Z :=
  match t with Status => READ_DEVICE_ID | _ => READ_DYNAMIC_VARS end.

Definition hart_poll_read (fuel : nat) (st : HartState) (m : VariableMapping) (ts : Timestamp)
  : option (HartState * HaResult unit) :=
  '(c, r) ← send_command (C:=C) fuel (hart_client st) (mapped_command (vm_type m)) [];
  match response_value (vm_type m) r with
  | Err e => Some (mkHartState c (hart_transport st) (hart_cache st), Err e)
  | Ok v =>
      let t := (publish_signal (hart_transport st) (vm_signal_name m) v ts).1 in
      Some (mkHartState c t (<[vm_signal_name m := (v, ts)]> (hart_cache st)), Ok tt)
  end.

Definition hart_poll_write (st : HartState) (m : VariableMapping) (ts : Timestamp) : HartState * HaResult unit :=
  let '(t, current) := read_signal (hart_transport st) (vm_signal_name m) in
  let st := mkHartState (hart_client st) t (hart_cache st) in
  match current with
  | None => (st, Ok tt)
  | Some (v, _) =>
      if unchanged (hart_cache st) (vm_signal_name m) v then (st, Ok tt)
      else match halvalue_to_variables debug v with
           | Err e => (st, Err e)
           | Ok _ => (mkHartState (hart_client st) t (<[vm_signal_name m := (v, ts)]> (hart_cache st)), Ok tt)
           end
  end.

Definition hart_poll_one (fuel : nat) (st : HartState) (m : VariableMapping) (ts : Timestamp)
  : option (HartState * HaResult unit) :=
  match vm_direction m with
  | HartRead => hart_poll_read fuel st m ts
  | HartWrite => Some (hart_poll_write st m ts)
  end.

Definition hart_line (m : VariableMapping) (r : HaResult unit) : list string :=
  match r with
  | Ok _ => []
  | Err e => ["HART poll error [" +:+ vm_signal_name m +:+ "]: " +:+ hart_error_display e]
  end.

(** One turn; [clock] is the time each mapping reads. *)
Fixpoint hart_turn (fuel : nat) (clock : nat → Z) (ms : list VariableMapping) (st : HartState)
  : option (HartState * list string) :=
  match ms with
  | [] => Some (st, [])
  | m :: ms =>
      '(st, r) ← hart_poll_one fuel st m (now_timestamp (clock 0%nat));
      '(st, log) ← hart_turn fuel (λ i, clock (S i)) ms st;
      Some (st, hart_line m r ++ log)
  end.

(** The pause between turns: [interval - elapsed], if positive. *)
Definition hart_sleep (interval elapsed : Z) : Z := if elapsed <? interval then interval - elapsed else 0.

Record HartInterval := mkHartInterval { hart_stop_seen : bool; hart_clock : nat → Z; hart_others : T → T }.
Fixpoint hart_loop (fuel : nat) (ms : list VariableMapping) (script : list HartInterval) (st : HartState)
  : option (HartState * list string) :=
  match script with
  | [] => Some (st, [])
  | i :: script =>
      let st := mkHartState (hart_client st) (hart_others i (hart_transport st)) (hart_cache st) in
      if hart_stop_seen i then Some (st, [])
      else '(st, log) ← hart_turn fuel (hart_clock i) ms st;
           '(st, log') ← hart_loop fuel ms script st; Some (st, log ++ log')
  end.
End adapter.
Arguments HartState P T : clear implicits.
Arguments HartInterval T : clear implicits.

(** ** Variables and values *)

Lemma decode_u24_sum b0 b1 b2 : is_byte b1 = true → is_byte b2 = true →
  decode_u24_be b0 b1 b2 = b0 * 65536 + b1 * 256 + b2.
Proof.
  intros H1 H2. unfold decode_u24_be. rewrite <- Z.lor_assoc, (lor_shift b1 b2 8) by done.
  rewrite lor_shift; [lia|done|]. apply is_byte_spec in H1, H2. apply in_u_spec. lia.
Qed.

(** Variable round trip: floats and 8- and 16-bit unsigned integers come
    back from their wire bytes as they were, a 32-bit unsigned integer loses
    its top byte, and every other value is refused. *)
Theorem variable_roundtrip debug v : hal_wf v = true →
  match v with
  | VF32 _ | VU8 _ | VU16 _ =>
      ∃ data t, halvalue_to_variables debug v = Ok (data, t) ∧ pin_type v = to_pin_type t ∧
        variables_to_halvalue data t = Ok v
  | VU32 n =>
      ∃ data, halvalue_to_variables debug v = Ok (data, VtU24) ∧ length data = 3%nat ∧
        variables_to_halvalue data VtU24 = Ok (VU32 (n mod 2 ^ 24))
  | _ => ∃ e, halvalue_to_variables debug v = Err e
  end.
Proof.
  assert (Hbe : ∀ k n, in_u (8 * Z.of_nat k) n = true → of_be_bytes (take k (be_bytes k n)) = n).
  { intros k n Hn%in_u_spec. rewrite firstn_all2 by (rewrite be_bytes_length; lia).
    rewrite of_be_bytes_be_bytes. by apply Z.mod_small. }
  destruct v; intros Hwf; cbn [hal_wf] in Hwf; try (by eexists).
  - by exists [n], VtU8.
  - exists (be_bytes 2 n), VtU16. split_and!; [done..|]. cbn [variables_to_halvalue].
    rewrite be_bytes_length. cbn [Nat.ltb Nat.leb]. by rewrite (Hbe 2%nat).
  - exists (drop 1 (be_bytes 4 n)). split_and!; [done..|]. apply in_u_spec in Hwf.
    change (drop 1 (be_bytes 4 n)) with [n / 256 / 256 mod 256; n / 256 mod 256; n mod 256].
    cbn [variables_to_halvalue]. rewrite decode_u24_sum by (apply is_byte_spec, Z.mod_pos_bound; lia).
    do 2 f_equal. change (2 ^ 24) with 16777216. lia.
  - exists (be_bytes 4 bits), VtFloat. split_and!; [done..|]. cbn [variables_to_halvalue].
    rewrite be_bytes_length. cbn [Nat.ltb Nat.leb]. by rewrite (Hbe 4%nat).
Qed.

(** ** A command that is answered *)

(** The bytes a port delivers one after the other, and the bytes after which
    the decoder reports a frame. *)
Fixpoint delivers {P} `{SerialPort P} (p : P) (bs : list Z) (p' : P) : Prop :=
  match bs with
  | [] => p' = p
  | b :: bs => ∃ p1, port_read p 1 = (p1, Ok [b]) ∧ delivers p1 bs p'
  end.
Fixpoint decodes {C} `{HartCodec C} (d : C) (bs : list Z) (f : RawFrame) : Prop :=
  match bs with
  | [] => False
  | b :: bs =>
      match feed d b with
      | (d', Ok None) => decodes d' bs f
      | (_, Ok (Some f')) => bs = [] ∧ f' = f
      | _ => False
      end
  end.

Definition unit_and_value (u v : Z) : list Z := u :: be_bytes 4 v.
(** The payload of command 3 as the adapter reads it. *)
Definition dynamic_payload (u1 pv u2 sv u3 tv u4 qv : Z) : list Z :=
  unit_and_value u1 pv ++ unit_and_value u2 sv ++ unit_and_value u3 tv ++ unit_and_value u4 qv.

Section facts.
Context {P : Type} `{SerialPort P} {C : Type} `{HartCodec C} {T : Type} `{HalTransport T, !HalTransportLaws T}.
Variable debug : HalValue → string.

Lemma receive_answer fuel p (d : C) bs p' f : delivers p bs p' → decodes d bs f → (length bs ≤ fuel)%nat →
  receive fuel p d = Some (p', parse_response f).
Proof.
  revert fuel p d. induction bs as [|b bs IH]; intros fuel p d; [done|].
  intros (p1 & Hr & Hd) Hdec Hf. destruct fuel as [|fuel]; [cbn in Hf; lia|]. cbn [receive]. rewrite Hr.
  cbn [decodes] in Hdec. destruct (feed d b) as [d' [[f'|]|]]; [| |done].
  - destruct Hdec as [-> ->]. cbn in Hd. by subst.
  - apply IH; [done..|]. cbn in Hf. lia.
Qed.

Lemma send_command_answer fuel (c : HartClient P) cmd data tx p0 p1 p2 p3 bs f :
  encode_frame (address c) cmd data = Ok tx → drain_rx fuel (port c) = Some (p0, Ok tt) →
  port_write_all p0 tx = (p1, Ok tt) → port_flush p1 = (p2, Ok tt) →
  delivers p2 bs p3 → decodes decoder_new bs f → (length bs ≤ fuel)%nat →
  send_command (C:=C) fuel c cmd data = Some (mkHartClient p3 (address c), parse_response f).
Proof.
  intros Henc Hdr Hw Hfl Hdel Hdec Hlen. unfold send_command. rewrite Henc, Hdr. cbn [mbind option_bind].
  by rewrite Hw, Hfl, (receive_answer fuel p2 decoder_new bs p3 f).
Qed.

Lemma value_at_offset pre v post : in_u 32 v = true →
  variables_to_halvalue (drop (length pre) (pre ++ be_bytes 4 v ++ post)) VtFloat = Ok (VF32 v).
Proof.
  intros Hv%in_u_spec. cbn [variables_to_halvalue]. rewrite drop_app_length, length_app, be_bytes_length.
  destruct (Nat.ltb_spec (4 + length post) 4); [lia|]. rewrite take_app_length' by (by rewrite be_bytes_length).
  rewrite of_be_bytes_be_bytes. by rewrite Z.mod_small.
Qed.

Lemma dynamic_payload_length u1 pv u2 sv u3 tv u4 qv : length (dynamic_payload u1 pv u2 sv u3 tv u4 qv) = 20%nat.
Proof. done. Qed.

Lemma dynamic_payload_value u1 pv u2 sv u3 tv u4 qv t :
  in_u 32 pv = true → in_u 32 sv = true → in_u 32 tv = true → in_u 32 qv = true → t ≠ Status →
  dynamic_value t (dynamic_payload u1 pv u2 sv u3 tv u4 qv) =
  Ok (VF32 match t with Pv => pv | Sv => sv | Tv => tv | _ => qv end).
Proof.
  intros Hp Hs Ht Hq Hne. unfold dynamic_value. rewrite dynamic_payload_length.
  destruct t; [| | | |done]; cbn [variable_offset Nat.add Nat.ltb Nat.leb].
  - exact (value_at_offset [u1] pv _ Hp).
  - exact (value_at_offset (unit_and_value u1 pv ++ [u2]) sv _ Hs).
  - exact (value_at_offset (unit_and_value u1 pv ++ unit_and_value u2 sv ++ [u3]) tv _ Ht).
  - exact (value_at_offset (unit_and_value u1 pv ++ unit_and_value u2 sv ++ unit_and_value u3 tv ++ [u4]) qv [] Hq).
Qed.

(** A variable reaches its signal: when the line is clear, the request is
    accepted and the device answers with bytes the codec decodes to a command-3
    response - two status bytes, then a unit code and a float for each of the
    four variables - the poll of a primary, secondary, tertiary or quaternary
    variable publishes that float, bit for bit, and remembers it. *)
Theorem variable_published fuel (st : HartState P T) m ts tx p0 p1 p2 p3 bs f s0 s1 u1 pv u2 sv u3 tv u4 qv :
  vm_type m ≠ Status →
  encode_frame (address (hart_client st)) READ_DYNAMIC_VARS [] = Ok tx →
  drain_rx fuel (port (hart_client st)) = Some (p0, Ok tt) →
  port_write_all p0 tx = (p1, Ok tt) → port_flush p1 = (p2, Ok tt) →
  delivers p2 bs p3 → decodes (C:=C) decoder_new bs f → (length bs ≤ fuel)%nat →
  is_response f = true → frame_data f = s0 :: s1 :: dynamic_payload u1 pv u2 sv u3 tv u4 qv →
  in_u 32 pv = true → in_u 32 sv = true → in_u 32 tv = true → in_u 32 qv = true →
  let v := VF32 match vm_type m with Pv => pv | Sv => sv | Tv => tv | _ => qv end in
  ∃ st', hart_poll_read (C:=C) fuel st m ts = Some (st', Ok tt) ∧
    (read_signal (hart_transport st') (vm_signal_name m)).2 = Some (v, ts) ∧
    hart_cache st' !! vm_signal_name m = Some (v, ts).
Proof.
  intros Hty Henc Hdr Hw Hfl Hdel Hdec Hlen Hresp Hdata Hp Hs Ht Hq v. unfold hart_poll_read.
  replace (mapped_command (vm_type m)) with READ_DYNAMIC_VARS by (by destruct (vm_type m)).
  rewrite (send_command_answer fuel (hart_client st) READ_DYNAMIC_VARS [] tx p0 p1 p2 p3 bs f) by done.
  cbn [mbind option_bind]. unfold parse_response. rewrite Hresp, Hdata. cbn [negb].
  replace (response_value (vm_type m) _) with (dynamic_value (vm_type m) (dynamic_payload u1 pv u2 sv u3 tv u4 qv))
    by (by destruct (vm_type m)).
  rewrite dynamic_payload_value by done. eexists. split; [done|]. cbn [hart_transport hart_cache].
  split; [apply read_publish_same | apply lookup_insert_eq].
Qed.

(** ** A port that reports an idle line as an error *)

(** Only reads happened between two states of a port. *)
Inductive only_read : P → P → Prop :=
  | only_read_refl p : only_read p p
  | only_read_step p n q : only_read (port_read p n).1 q → only_read p q.

Lemma drain_never_ok fuel p p' r : (∀ p n, (0 < n)%nat → (port_read p n).2 ≠ Ok []) →
  drain_rx fuel p = Some (p', r) → only_read p p' ∧ ∃ e, r = Err e.
Proof.
  intros Hidle. revert p. induction fuel as [|fuel IH]; intros p; [done|]. cbn [drain_rx].
  pose proof (Hidle p 64%nat ltac:(lia)) as Hi. destruct (port_read p 64) as [p1 [[|b bs]|e]] eqn:Er; [done| |].
  - intros [Hp He]%IH. split; [|done]. apply (only_read_step p 64). by rewrite Er.
  - intros [= <- <-]. split; [|by eexists]. apply (only_read_step p 64). rewrite Er. constructor.
Qed.

Lemma send_never_ok fuel (c c' : HartClient P) cmd data r : (∀ p n, (0 < n)%nat → (port_read p n).2 ≠ Ok []) →
  send_command (C:=C) fuel c cmd data = Some (c', r) → only_read (port c) (port c') ∧ ∃ e, r = Err e.
Proof.
  intros Hidle. unfold send_command. destruct (encode_frame _ _ _) as [tx|e];
    [|intros [= <- <-]; split; [constructor | by eexists]].
  destruct (drain_rx fuel (port c)) as [[p d]|] eqn:Ed; [|done]. cbn [mbind option_bind].
  destruct (drain_never_ok _ _ _ _ Hidle Ed) as [Hp [e ->]]. intros [= <- <-]. split; [done|by eexists].
Qed.

Lemma only_read_trans p q r : only_read p q → only_read q r → only_read p r.
Proof. induction 1; [done|]. intros. by econstructor; eauto. Qed.

(** An idle line blocks the adapter: on a port whose read never returns
    zero bytes without an error - one that reports the expiry of its timeout as
    an error - no turn of the poll loop ever writes to the port and none ever
    publishes: every signal is as before, whatever the mappings. *)
Theorem idle_error_blocks_all fuel clock ms (st st' : HartState P T) log :
  (∀ p n, (0 < n)%nat → (port_read p n).2 ≠ Ok []) →
  hart_turn (C:=C) debug fuel clock ms st = Some (st', log) →
  only_read (port (hart_client st)) (port (hart_client st')) ∧
  (∀ name, (read_signal (hart_transport st') name).2 = (read_signal (hart_transport st) name).2) ∧
  (Forall (λ m, vm_direction m = HartRead) ms → length log = length ms).
Proof.
  intros Hidle. revert clock st log. induction ms as [|m ms IH]; intros clock st log; cbn [hart_turn].
  { intros [= <- <-]. split_and!; [constructor | done | done]. }
  destruct (hart_poll_one _ fuel st m _) as [[st1 r]|] eqn:Eo; [|done]. cbn [mbind option_bind].
  destruct (hart_turn _ fuel _ ms st1) as [[st2 log2]|] eqn:Et; [|done]. cbn [mbind option_bind].
  intros [= <- <-]. destruct (IH _ _ _ Et) as (Hp2 & Hs2 & Hl2).
  assert (only_read (port (hart_client st)) (port (hart_client st1)) ∧
    (∀ name, (read_signal (hart_transport st1) name).2 = (read_signal (hart_transport st) name).2) ∧
    (vm_direction m = HartRead → length (hart_line m r) = 1%nat)) as (Hp1 & Hs1 & Hl1).
  { revert Eo. unfold hart_poll_one. destruct (vm_direction m).
    - unfold hart_poll_read. destruct (send_command fuel _ _ _) as [[c rr]|] eqn:Es; [|done]. cbn [mbind option_bind].
      destruct (send_never_ok _ _ _ _ _ _ Hidle Es) as [Hp [e ->]]. cbn [response_value result_bind].
      intros [= <- <-]. by split_and!.
    - unfold hart_poll_write. pose proof (read_read (hart_transport st) (vm_signal_name m)) as Hrr.
      destruct (read_signal (hart_transport st) (vm_signal_name m)) as [t [[v us]|]]; cbn [fst] in Hrr;
        [|intros [= <- <-]; split_and!; [constructor|done|done]].
      destruct (unchanged _ _ _); [|destruct (halvalue_to_variables debug v)];
        intros [= <- <-]; split_and!; try done; constructor. }
  split_and!.
  - by eapply only_read_trans.
  - intros name. by rewrite Hs2, Hs1.
  - intros [Hm Hms]%Forall_cons. rewrite length_app, Hl1, Hl2; done.
Qed.
End facts.

(** ** Every turn ends

    A port that runs dry: reading bytes uses up what is pending. *)
Section termination.
Context {P : Type} `{SerialPort P} {C : Type} `{HartCodec C} {T : Type} `{HalTransport T}.
Variable debug : HalValue → string.

Lemma drain_mono fuel fuel' p r : drain_rx fuel p = Some r → (fuel ≤ fuel')%nat → drain_rx fuel' p = Some r.
Proof.
  revert fuel' p. induction fuel as [|fuel IH]; intros fuel' p; [done|]. intros Hr Hle.
  destruct fuel' as [|fuel']; [lia|]. cbn [drain_rx] in *. destruct (port_read p 64) as [p1 [[|b bs]|e]]; [done| |done].
  apply IH; [done|lia].
Qed.

Lemma receive_mono fuel fuel' p (d : C) r : receive fuel p d = Some r → (fuel ≤ fuel')%nat → receive fuel' p d = Some r.
Proof.
  revert fuel' p d. induction fuel as [|fuel IH]; intros fuel' p d; [done|]. intros Hr Hle.
  destruct fuel' as [|fuel']; [lia|]. cbn [receive] in *. destruct (port_read p 1) as [p1 [[|b bs]|e]]; [done| |done].
  destruct (feed d b) as [d' [[f|]|e]]; [done| |done]. apply IH; [done|lia].
Qed.

Lemma send_mono fuel fuel' (c : HartClient P) cmd data r :
  send_command (C:=C) fuel c cmd data = Some r → (fuel ≤ fuel')%nat → send_command (C:=C) fuel' c cmd data = Some r.
Proof.
  intros Hs Hle. unfold send_command in *. destruct (encode_frame _ _ _) as [tx|]; [|done].
  destruct (drain_rx fuel (port c)) as [[p d]|] eqn:Ed; [|done]. rewrite (drain_mono _ _ _ _ Ed Hle).
  cbn [mbind option_bind] in *. destruct d as [[]|]; [|done].
  destruct (port_write_all p tx) as [p1 [[]|]]; [|done]. destruct (port_flush p1) as [p2 [[]|]]; [|done].
  destruct (receive fuel p2 decoder_new) as [pr|] eqn:Er; [|done]. by rewrite (receive_mono _ _ _ _ _ Er Hle).
Qed.

Lemma poll_one_mono fuel fuel' (st : HartState P T) m ts r :
  hart_poll_one (C:=C) debug fuel st m ts = Some r → (fuel ≤ fuel')%nat →
  hart_poll_one (C:=C) debug fuel' st m ts = Some r.
Proof.
  unfold hart_poll_one, hart_poll_read. destruct (vm_direction m); [|done]. intros Hs Hle.
  destruct (send_command fuel _ _ _) as [cr|] eqn:Es; [|done]. by rewrite (send_mono _ _ _ _ _ _ Es Hle).
Qed.

Lemma turn_mono fuel fuel' clock ms (st : HartState P T) r :
  hart_turn (C:=C) debug fuel clock ms st = Some r → (fuel ≤ fuel')%nat →
  hart_turn (C:=C) debug fuel' clock ms st = Some r.
Proof.
  intros Ht Hle. revert clock st r Ht. induction ms as [|m ms IH]; intros clock st r; [done|]. cbn [hart_turn].
  destruct (hart_poll_one _ fuel st m _) as [[st1 x]|] eqn:Eo; [|done].
  rewrite (poll_one_mono _ _ _ _ _ _ Eo Hle). cbn [mbind option_bind].
  destruct (hart_turn _ fuel _ ms st1) as [y|] eqn:Et; [|done]. by rewrite (IH _ _ _ Et).
Qed.

Lemma loop_mono fuel fuel' ms script (st : HartState P T) r :
  hart_loop (C:=C) debug fuel ms script st = Some r → (fuel ≤ fuel')%nat →
  hart_loop (C:=C) debug fuel' ms script st = Some r.
Proof.
  intros Hl Hle. revert st r Hl. induction script as [|i ivs IH]; intros st r; [done|]. cbn [hart_loop].
  destruct (hart_stop_seen i); [done|]. destruct (hart_turn _ fuel _ ms _) as [[st1 log]|] eqn:Et; [|done].
  rewrite (turn_mono _ _ _ _ _ _ Et Hle). cbn [mbind option_bind].
  destruct (hart_loop _ fuel ms ivs st1) as [y|] eqn:El; [|done]. by rewrite (IH _ _ El).
Qed.

Variable pending : P → nat.
Hypothesis read_consumes : ∀ p n p' b bs, port_read p n = (p', Ok (b :: bs)) → (pending p' < pending p)%nat.

Lemma drain_total fuel p : (pending p < fuel)%nat → is_Some (drain_rx fuel p).
Proof.
  revert p. induction fuel as [|fuel IH]; intros p Hp; [lia|]. cbn [drain_rx].
  destruct (port_read p 64) as [p1 [[|b bs]|e]] eqn:Er; [done| |done].
  apply IH. pose proof (read_consumes _ _ _ _ _ Er). lia.
Qed.

Lemma receive_total fuel p (d : C) : (pending p < fuel)%nat → is_Some (receive fuel p d).
Proof.
  revert p d. induction fuel as [|fuel IH]; intros p d Hp; [lia|]. cbn [receive].
  destruct (port_read p 1) as [p1 [[|b bs]|e]] eqn:Er; [done| |done].
  destruct (feed d b) as [d' [[f|]|e]]; [done| |done].
  apply IH. pose proof (read_consumes _ _ _ _ _ Er). lia.
Qed.

Lemma send_total (c : HartClient P) cmd data : ∃ fuel, is_Some (send_command (C:=C) fuel c cmd data).
Proof.
  unfold send_command. destruct (encode_frame _ _ _) as [tx|]; [|by exists 0%nat].
  destruct (drain_total (S (pending (port c))) (port c) ltac:(lia)) as [[p d] Hd].
  destruct d as [[]|e]; [|exists (S (pending (port c))); by rewrite Hd].
  destruct (port_write_all p tx) as [p1 [[]|e]] eqn:Ew; [|exists (S (pending (port c))); rewrite Hd; cbn; by rewrite Ew].
  destruct (port_flush p1) as [p2 [[]|e]] eqn:Ef;
    [|exists (S (pending (port c))); rewrite Hd; cbn; by rewrite Ew, Ef].
  exists (S (pending (port c) + pending p2)).
  rewrite (drain_mono _ _ _ _ Hd) by lia. cbn [mbind option_bind]. rewrite Ew, Ef.
  destruct (receive_total (S (pending (port c) + pending p2)) p2 decoder_new ltac:(lia)) as [[p3 r] ->]. by eexists.
Qed.

Lemma turn_total clock ms (st : HartState P T) : ∃ fuel, is_Some (hart_turn (C:=C) debug fuel clock ms st).
Proof.
  revert clock st. induction ms as [|m ms IH]; intros clock st; [by exists 0%nat|].
  assert (∃ fuel, is_Some (hart_poll_one (C:=C) debug fuel st m (now_timestamp (clock 0%nat)))) as (f1 & [st1 r] & Ho).
  { unfold hart_poll_one, hart_poll_read. destruct (vm_direction m); [|by exists 0%nat].
    destruct (send_total (hart_client st) (mapped_command (vm_type m)) []) as (f & [c r] & Hs). exists f. rewrite Hs.
    cbn. by destruct (response_value _ _). }
  destruct (IH (λ i, clock (S i)) st1) as (f2 & [st2 log] & Ht).
  exists (f1 + f2)%nat. cbn [hart_turn]. rewrite (poll_one_mono _ _ _ _ _ _ Ho) by lia. cbn [mbind option_bind].
  rewrite (turn_mono _ (f1 + f2) _ _ _ _ Ht) by lia. by eexists.
Qed.

(** Every run of the poll loop gets through all its turns on a port that
    runs dry - one on which reading bytes uses up what is pending; neither
    draining the line nor waiting for an answer goes on for ever. *)
Theorem hart_loop_terminates ms script (st : HartState P T) :
  ∃ fuel, is_Some (hart_loop (C:=C) debug fuel ms script st).
Proof.
  revert st. induction script as [|i ivs IH]; intros st; [by exists 0%nat|]. cbn [hart_loop].
  destruct (hart_stop_seen i); [by exists 0%nat|].
  set (st0 := mkHartState _ _ _). destruct (turn_total (hart_clock i) ms st0) as (f1 & [st1 log] & Ht).
  destruct (IH st1) as (f2 & [st2 log2] & Hl). exists (f1 + f2)%nat.
  rewrite (turn_mono _ (f1 + f2) _ _ _ _ Ht) by lia. cbn [mbind option_bind].
  rewrite (loop_mono _ (f1 + f2) _ _ _ _ Hl) by lia. by eexists.
Qed.
End termination.

(** ** Against the simulated transmitter *)

(** The adapter and the repository's own simulated transmitter disagree on
    the layout of command 3: the adapter reads the first variable right, but
    the second one fails when the transmitter has at most two variables, and
    with three or more it is made of the low three bytes of the second and the
    top byte of the third variable. *)
Theorem virtual_device_misread {T} `{HalTransport T, !HalTransportLaws T} (t t' : T) d resp v0 vs dbg :
  handle_command t d 3 [] = (t', resp) →
  omap (slot_value t d) (sorted_slots d) = v0 :: vs → Forall (λ v, in_u 32 v = true) (v0 :: vs) →
  ∃ data, parse_response (mkFrame true dbg resp) = Ok (mkResponse 0 0 data) ∧
    dynamic_value Pv data = Ok (VF32 v0) ∧
    match vs with
    | v1 :: v2 :: _ => dynamic_value Sv data = Ok (VF32 (v1 mod 2 ^ 24 * 256 + v2 / 2 ^ 24))
    | _ => is_ok (dynamic_value Sv data) = false
    end.
Proof.
  intros Hcmd Hvs Hwf. cbn in Hcmd. unfold handle_cmd3_read_dynamic in Hcmd.
  destruct (read_slots_spec t d (sorted_slots d)) as [Hv _].
  destruct (read_slots t d (sorted_slots d)) as [t1 us]. cbn in Hv. subst us. rewrite Hvs in Hcmd.
  injection Hcmd as <- <-. eexists. split; [done|].
  apply Forall_cons in Hwf as [H0 Hwf]. split.
  - unfold dynamic_value. cbn [variable_offset map concat].
    cbn [length app Nat.add Nat.ltb Nat.leb].
    exact (value_at_offset [_] v0 _ H0).
  - destruct vs as [|v1 [|v2 vs]]; [done|done|].
    apply Forall_cons in Hwf as [H1%in_u_spec Hwf]. apply Forall_cons in Hwf as [H2%in_u_spec _].
    assert (Hb : ∀ v, f32_bytes v = [v / 256 / 256 / 256 mod 256; v / 256 / 256 mod 256; v / 256 mod 256; v mod 256]) by done.
    unfold dynamic_value. cbn [variable_offset map concat]. rewrite !Hb. cbn [app length Nat.add Nat.ltb Nat.leb drop].
    cbn [variables_to_halvalue length Nat.ltb Nat.leb take]. do 2 f_equal.
    cbn [of_be_bytes rev app of_le_bytes]. change (2 ^ 24) with 16777216. change (2 ^ 32) with 4294967296 in *.
    cbn. lia.
Qed.

(** ** Runs

    A line whose answers are prepared, and a codec with a length byte. *)
Record Line (timeout_is_error : bool) := mkLine { inbox : list Z; answers_ahead : list (list Z) }.
Arguments mkLine {timeout_is_error}.
Arguments inbox {timeout_is_error}.
Arguments answers_ahead {timeout_is_error}.
#[export] Instance Line_port {b} : SerialPort (Line b) := {
  port_open _ := Ok (mkLine [] []);
  port_read p n :=
    match inbox p with
    | [] => (p, if b then Err "Operation timed out" else Ok [])
    | l => (mkLine (drop n l) (answers_ahead p), Ok (take n l))
    end;
  port_write_all p _ := (mkLine (inbox p ++ hd [] (answers_ahead p)) (tail (answers_ahead p)), Ok tt);
  port_flush p := (p, Ok tt) }.
#[export] Instance length_codec : HartCodec (list Z) := {
  encode_frame addr cmd data := Ok (addr :: cmd :: data);
  decoder_new := [];
  feed d b :=
    let d' := d ++ [b] in
    (d', Ok (match d' with
             | n :: data => if bool_decide (Z.of_nat (length data) = n)
                            then Some (mkFrame true "Response" data) else None
             | [] => None end)) }.

Definition sample_payload : list Z := dynamic_payload 57 1078530011 57 1073741824 57 0 57 3212836864.
Definition sample_answer : list Z := 22 :: 0 :: 0 :: sample_payload.
Definition sample_line (b : bool) : HartState (Line b) InprocTransport :=
  mkHartState (mkHartClient (mkLine [1; 2; 3] [sample_answer]) 0) transport_new ∅.
Definition temp : VariableMapping := mkVariable "temp" Sv HartRead.

Lemma variable_roundtrip_witness : ∃ data, halvalue_to_variables (λ _, "") (VU32 305419896) = Ok (data, VtU24) ∧
  length data = 3%nat ∧ variables_to_halvalue data VtU24 = Ok (VU32 3430008).
Proof. apply (variable_roundtrip (λ _, "") (VU32 305419896)). reflexivity. Defined.

Lemma variable_published_witness : ∃ st',
  hart_poll_read (C:=list Z) 30 (sample_line false) temp (mkTs 5 0) = Some (st', Ok tt) ∧
  (read_signal (hart_transport st') "temp").2 = Some (VF32 1073741824, mkTs 5 0) ∧
  hart_cache st' !! "temp" = Some (VF32 1073741824, mkTs 5 0).
Proof.
  apply (variable_published (C:=list Z) 30 (sample_line false) temp (mkTs 5 0) [0; 3] (mkLine [] [sample_answer])
    (mkLine sample_answer []) (mkLine sample_answer []) (mkLine [] []) sample_answer
    (mkFrame true "Response" (0 :: 0 :: sample_payload)) 0 0 57 1078530011 57 1073741824 57 0 57 3212836864);
    try done; try (vm_compute; reflexivity).
  - unfold sample_answer. cbn [delivers]. repeat (eexists; split; [reflexivity|]). reflexivity.
  - apply Nat.leb_le. reflexivity.
Defined.

Definition stuck_line : HartState (Line true) InprocTransport :=
  mkHartState (mkHartClient (mkLine [] [sample_answer]) 0) transport_new ∅.
Lemma idle_error_blocks_all_witness :
  ∃ st' log, hart_turn (C:=list Z) (λ _, "") 9 (λ _, 0) [temp; temp] stuck_line = Some (st', log) ∧
    length log = 2%nat ∧ (read_signal (hart_transport st') "temp").2 = None.
Proof.
  eexists _, _. split; [vm_compute; reflexivity|].
  pose proof (λ st' log, idle_error_blocks_all (C:=list Z) (λ _, "") 9 (λ _, 0) [temp; temp] stuck_line st' log) as Hb.
  edestruct Hb as (_ & Hs & Hl).
  - intros [l a] n Hn. cbn. destruct l as [|x l]; [done|]. destruct n; [lia|]. done.
  - vm_compute. reflexivity.
  - split; [apply Hl; repeat constructor|]. exact (Hs "temp").
Defined.

Lemma hart_loop_terminates_witness :
  ∃ fuel, is_Some (hart_loop (C:=list Z) (λ _, "") fuel [temp]
    [mkHartInterval false (λ _, 0) (λ t, t); mkHartInterval false (λ _, 0) (λ t, t)] (sample_line false)).
Proof.
  apply (hart_loop_terminates (C:=list Z) (λ _, "") (λ p : Line false, length (inbox p))).
  intros [l a] n p' b bs. cbn. destruct l as [|x l]; [done|]. destruct n; [done|].
  intros [= <- _ _]. cbn. rewrite length_drop. lia.
Defined.

Lemma virtual_device_misread_witness :
  let t := (publish_signal (publish_signal transport_new "p" (VF32 1078530011) (mkTs 0 0)).1 "s" (VF32 1073741824) (mkTs 0 0)).1 in
  let d := map_slot (map_slot (bind hart_default) 0 "p") 1 "s" in
  ∃ data, parse_response (mkFrame true "Response" (handle_command t d 3 []).2) = Ok (mkResponse 0 0 data) ∧
    dynamic_value Pv data = Ok (VF32 1078530011) ∧ is_ok (dynamic_value Sv data) = false.
Proof.
  intros t d.
  apply (virtual_device_misread t (handle_command t d 3 []).1 d (handle_command t d 3 []).2 1078530011 [1073741824] "Response").
  - apply surjective_pairing.
  - vm_compute. reflexivity.
  - repeat constructor.
Defined.
