(* ===== verification/AdapterManager.v ===== *)
(** * The adapter manager ([audesys-runtime/src/adapter_manager.rs])

    Registration, start and stop of the Modbus and HART adapters.  A poll
    thread is an entry of a table: the adapter whose flag it watches, and
    whether it has been joined.  Joining a thread whose flag is not set would
    block for ever: [None]. *)
From S2P Require Import Prelude HalTypes HalValue Transport ModbusAdapter HartAdapter.

Record Managed (A : Type) := mkManaged {
  mg_name : string; mg_adapter : A; mg_shutdown : bool; mg_handle : option nat }.
Arguments mkManaged {A}.
Arguments mg_name {A}.
Arguments mg_adapter {A}.
Arguments mg_shutdown {A}.
Arguments mg_handle {A}.

(** The adapter a thread belongs to: its kind ([true]: HART) and position. *)
Record PollThread := mkPollThread { watches : bool * nat; joined : bool }.

Section manager.
Context {D : Type} `{Libmodbus D} {P : Type} `{SerialPort P} {T : Type}.

Record AdapterManager := mkManager {
  modbus_adapters : list (Managed (PollState D T));
  hart_adapters : list (Managed (HartState P T)) }.

Definition manager_new : AdapterManager := mkManager [] [].

Definition register_modbus (g : AdapterManager) (name : string) (config : ModbusConfig) (t : T)
  : result AdapterManager ModbusError :=
  let? a := adapter_new config t in
  Ok (mkManager (modbus_adapters g ++ [mkManaged name a false None]) (hart_adapters g)).
Definition register_hart (g : AdapterManager) (name : string) (config : HartConfig) (t : T)
  : result AdapterManager HartError :=
  let? a := hart_adapter_new config t in
  Ok (mkManager (modbus_adapters g) (hart_adapters g ++ [mkManaged name a false None])).

(** Spawn a thread per adapter; the handle that was there is dropped. *)
Fixpoint start_from {A} (kind : bool) (i : nat) (ms : list (Managed A)) (ths : list PollThread)
  : list (Managed A) * list PollThread :=
  match ms with
  | [] => ([], ths)
  | m :: ms =>
      let '(ms, ths') := start_from kind (S i) ms (ths ++ [mkPollThread (kind, i) false]) in
      (mkManaged (mg_name m) (mg_adapter m) (mg_shutdown m) (Some (length ths)) :: ms, ths')
  end.
Definition start_all (g : AdapterManager) (ths : list PollThread) : AdapterManager * list PollThread :=
  let '(mb, ths) := start_from false 0 (modbus_adapters g) ths in
  let '(ha, ths) := start_from true 0 (hart_adapters g) ths in
  (mkManager mb ha, ths).

Definition adapter_stop {A} (m : Managed A) : Managed A :=
  mkManaged (mg_name m) (mg_adapter m) true (mg_handle m).

(** The flag a thread watches. *)
Definition flag_set (g : AdapterManager) (th : PollThread) : bool :=
  let '(kind, i) := watches th in
  if kind then from_option mg_shutdown false (hart_adapters g !! i)
  else from_option mg_shutdown false (modbus_adapters g !! i).

Definition join (g : AdapterManager) (ths : list PollThread) (id : nat) : option (list PollThread) :=
  th ← ths !! id;
  if flag_set g th then Some (<[id := mkPollThread (watches th) true]> ths) else None.
Fixpoint join_from {A} (g : AdapterManager) (ms : list (Managed A)) (ths : list PollThread)
  : option (list (Managed A) * list PollThread) :=
  match ms with
  | [] => Some ([], ths)
  | m :: ms =>
      ths ← match mg_handle m with Some id => join g ths id | None => Some ths end;
      '(ms, ths) ← join_from g ms ths;
      Some (mkManaged (mg_name m) (mg_adapter m) (mg_shutdown m) None :: ms, ths)
  end.
Definition stop_all (g : AdapterManager) (ths : list PollThread) : option (AdapterManager * list PollThread) :=
  let g := mkManager (map adapter_stop (modbus_adapters g)) (map adapter_stop (hart_adapters g)) in
  '(mb, ths) ← join_from g (modbus_adapters g) ths;
  '(ha, ths) ← join_from g (hart_adapters g) ths;
  Some (mkManager mb ha, ths).

(** What a thread does when it evaluates the condition of its loop. *)
Inductive NextMove := Polls | Leaves.
Definition next_move (g : AdapterManager) (th : PollThread) : NextMove :=
  if flag_set g th then Leaves else Polls.

(** A state in which every thread watches an adapter of the manager and every
    handle is a thread of its own adapter. *)
Definition handles_ok {A} (kind : bool) (ms : list (Managed A)) (ths : list PollThread) : Prop :=
  ∀ i m id, ms !! i = Some m → mg_handle m = Some id → ∃ b, ths !! id = Some (mkPollThread (kind, i) b).
Definition manager_ok (g : AdapterManager) (ths : list PollThread) : Prop :=
  handles_ok false (modbus_adapters g) ths ∧ handles_ok true (hart_adapters g) ths ∧
  Forall (λ th, if (watches th).1 then ((watches th).2 < length (hart_adapters g))%nat
                else ((watches th).2 < length (modbus_adapters g))%nat) ths.
End manager.
Arguments AdapterManager D P T : clear implicits.

Section facts.
Context {D : Type} `{Libmodbus D} {P : Type} `{SerialPort P} {T : Type}.
Implicit Types (g : AdapterManager D P T) (ths : list PollThread).

Lemma start_from_spec {A} kind i (ms : list (Managed A)) ths :
  (start_from kind i ms ths).2 = ths ++ imap (λ j _, mkPollThread (kind, i + j)%nat false) ms ∧
  (start_from kind i ms ths).1 =
    imap (λ j m, mkManaged (mg_name m) (mg_adapter m) (mg_shutdown m) (Some (length ths + j)%nat)) ms.
Proof.
  revert i ths. induction ms as [|m ms IH]; intros i ths; [by rewrite app_nil_r|]. cbn [start_from].
  destruct (IH (S i) (ths ++ [mkPollThread (kind, i) false])) as [IH2 IH1].
  destruct (start_from kind (S i) ms _) as [ms' ths']. cbn [fst snd] in *. subst. split.
  - rewrite <- app_assoc. cbn [app imap]. rewrite Nat.add_0_r. do 2 f_equal.
    apply imap_ext. intros j x _. cbn. do 2 f_equal. lia.
  - cbn [imap]. rewrite Nat.add_0_r. f_equal. apply imap_ext. intros j x _. cbn. rewrite length_app. cbn. do 2 f_equal. lia.
Qed.

Lemma flag_set_stopped g th :
  (if (watches th).1 then ((watches th).2 < length (hart_adapters g))%nat
   else ((watches th).2 < length (modbus_adapters g))%nat) →
  Forall (λ m, mg_shutdown m = true) (modbus_adapters g) → Forall (λ m, mg_shutdown m = true) (hart_adapters g) →
  flag_set g th = true.
Proof.
  unfold flag_set. destruct (watches th) as [[] i]; cbn; intros Hi Hm Hh.
  - apply lookup_lt_is_Some_2 in Hi as [m Hl]. rewrite Hl. cbn. by eapply Forall_lookup in Hh.
  - apply lookup_lt_is_Some_2 in Hi as [m Hl]. rewrite Hl. cbn. by eapply Forall_lookup in Hm.
Qed.

Definition clear_handle {A} (m : Managed A) : Managed A := mkManaged (mg_name m) (mg_adapter m) (mg_shutdown m) None.
Definition mark_joined (ids : list (option nat)) (id : nat) (th : PollThread) : PollThread :=
  mkPollThread (watches th) (joined th || bool_decide (Some id ∈ ids)).

Lemma flag_set_watches g th th' : watches th' = watches th → flag_set g th' = flag_set g th.
Proof. unfold flag_set. by intros ->. Qed.

(** Joining when every thread is told to stop. *)
Lemma join_from_spec {A} g (ms : list (Managed A)) ths :
  Forall (λ th, flag_set g th = true) ths →
  Forall (λ m, ∀ id, mg_handle m = Some id → (id < length ths)%nat) ms →
  join_from g ms ths = Some (map clear_handle ms, imap (mark_joined (map mg_handle ms)) ths).
Proof.
  revert ths. induction ms as [|m ms IH]; intros ths Hf Hb; cbn [join_from map].
  { do 2 f_equal. apply list_eq. intros i. rewrite list_lookup_imap. destruct (ths !! i) as [[w j]|]; [|done].
    cbn. unfold mark_joined. cbn. rewrite bool_decide_eq_false_2 by set_solver. by rewrite orb_false_r. }
  apply Forall_cons in Hb as [Hm Hb].
  destruct (mg_handle m) as [id|] eqn:Em; cbn [mbind option_bind].
  - destruct (lookup_lt_is_Some_2 ths id (Hm id eq_refl)) as [th Hth]. unfold join. rewrite Hth.
    cbn [mbind option_bind]. rewrite (Forall_lookup_1 _ _ _ _ Hf Hth). cbn [mbind option_bind]. rewrite IH.
    + cbn [mbind option_bind]. do 2 f_equal. apply list_eq. intros i. rewrite !list_lookup_imap.
      destruct (decide (i = id)) as [->|Hne].
      * rewrite list_lookup_insert_eq by (by eapply lookup_lt_Some). rewrite Hth. cbn. f_equal. unfold mark_joined. cbn.
        rewrite (bool_decide_eq_true_2 (Some id ∈ Some id :: _)) by set_solver. by rewrite orb_true_r.
      * rewrite list_lookup_insert_ne by done. destruct (ths !! i) as [th'|]; [|done]. cbn. f_equal.
        unfold mark_joined. f_equal. f_equal. apply bool_decide_ext. set_solver.
    + apply Forall_insert; [done|]. cbn. rewrite <- (Forall_lookup_1 _ _ _ _ Hf Hth). by apply flag_set_watches.
    + eapply Forall_impl; [exact Hb|]. cbn. intros m' Hm' id' Hid. rewrite length_insert. by apply Hm'.
  - rewrite IH by done. cbn [mbind option_bind]. do 2 f_equal. apply imap_ext. intros i th _. cbn.
    unfold mark_joined. f_equal. f_equal. apply bool_decide_ext. set_solver.
Qed.

Definition stopped g : AdapterManager D P T :=
  mkManager (map adapter_stop (modbus_adapters g)) (map adapter_stop (hart_adapters g)).
Definition handle_ids g : list (option nat) := map mg_handle (modbus_adapters g) ++ map mg_handle (hart_adapters g).
Definition cleared g : AdapterManager D P T :=
  mkManager (map clear_handle (modbus_adapters (stopped g))) (map clear_handle (hart_adapters (stopped g))).

Lemma all_stopped {A} (ms : list (Managed A)) : Forall (λ m, mg_shutdown m = true) (map adapter_stop ms).
Proof. by apply Forall_map, Forall_true. Qed.
Lemma all_stopped_cleared {A} (ms : list (Managed A)) :
  Forall (λ m, mg_shutdown m = true) ms → Forall (λ m, mg_shutdown m = true) (map clear_handle ms).
Proof. intros. by apply Forall_map. Qed.

Lemma handles_bound {A} kind (ms : list (Managed A)) ths : handles_ok kind ms ths →
  Forall (λ m, ∀ id, mg_handle m = Some id → (id < length ths)%nat) (map adapter_stop ms).
Proof.
  intros Hok. apply Forall_map, Forall_lookup. intros i m Hm id Hid. cbn in Hid.
  destruct (Hok i m id Hm Hid) as [b Hth]. by eapply lookup_lt_Some.
Qed.

Lemma stopped_handles g : handle_ids (stopped g) = handle_ids g.
Proof. unfold handle_ids, stopped. cbn. by rewrite !map_map. Qed.

Lemma mark_twice l1 l2 ths : imap (mark_joined l2) (imap (mark_joined l1) ths) = imap (mark_joined (l1 ++ l2)) ths.
Proof.
  apply list_eq. intros i. rewrite !list_lookup_imap. destruct (ths !! i) as [th|]; [|done]. cbn.
  unfold mark_joined. cbn. do 2 f_equal. rewrite <- orb_assoc. f_equal.
  destruct (bool_decide_reflect (Some i ∈ l1)), (bool_decide_reflect (Some i ∈ l2));
    cbn; symmetry; first [apply bool_decide_eq_true_2; set_solver | apply bool_decide_eq_false_2; set_solver].
Qed.

Lemma stop_all_eq g ths : manager_ok g ths →
  stop_all g ths = Some (cleared g, imap (mark_joined (handle_ids g)) ths).
Proof.
  intros (Hm & Hh & Hw).
  assert (Hf : ∀ l, Forall (λ th, flag_set (stopped g) th = true) (imap (mark_joined l) ths)).
  { intros l. apply Forall_lookup. intros i th. rewrite list_lookup_imap. destruct (ths !! i) as [th0|] eqn:E; [|done].
    intros [= <-]. apply flag_set_stopped; [|apply all_stopped..]. cbn. rewrite !length_map.
    by eapply Forall_lookup in Hw. }
  assert (Hf0 : Forall (λ th, flag_set (stopped g) th = true) ths).
  { eapply Forall_lookup. intros i th Hi. rewrite <- (flag_set_watches _ _ (mark_joined [] i th)) by done.
    eapply (Forall_lookup_1 _ _ i _ (Hf [])). by rewrite list_lookup_imap, Hi. }
  unfold stop_all. fold (stopped g). rewrite join_from_spec; [|done|by eapply handles_bound].
  cbn [mbind option_bind]. rewrite join_from_spec; [|done|].
  - cbn [mbind option_bind]. rewrite mark_twice. by rewrite <- stopped_handles.
  - eapply Forall_impl; [by eapply handles_bound|]. cbn. intros m Hb id Hid. rewrite length_imap. by apply Hb.
Qed.

Lemma cleared_ok g ths : manager_ok g ths → manager_ok (cleared g) (imap (mark_joined (handle_ids g)) ths).
Proof.
  intros (_ & _ & Hw).
  assert (Hnone : ∀ A kind (ms : list (Managed A)) l, handles_ok kind (map clear_handle ms) l).
  { intros A kind ms l i m id Hi. apply list_lookup_fmap_Some in Hi as (m0 & -> & _). done. }
  split_and!; [apply Hnone | apply Hnone |].
  apply Forall_lookup. intros i th. rewrite list_lookup_imap. destruct (ths !! i) as [th0|] eqn:E; [|done].
  intros [= <-]. cbn. rewrite !length_map. by eapply Forall_lookup in Hw.
Qed.

(** Stopping the adapters always comes to an end: every flag is set
    before the first thread is joined, so no join waits for a thread that goes
    on polling; afterwards exactly the threads the manager had a handle of are
    joined, no handle is left, and every thread leaves its loop the next time
    it looks. *)
Theorem stop_all_joins g ths : manager_ok g ths →
  ∃ g' ths', stop_all g ths = Some (g', ths') ∧ manager_ok g' ths' ∧ Forall (eq None) (handle_ids g') ∧
    Forall (λ th, next_move g' th = Leaves) ths' ∧
    ∀ id th, ths !! id = Some th → ∃ th', ths' !! id = Some th' ∧ watches th' = watches th ∧
      (joined th' = true ↔ joined th = true ∨ Some id ∈ handle_ids g).
Proof.
  intros Hok. eexists _, _. split; [by apply stop_all_eq|]. pose proof (cleared_ok g ths Hok) as Hok'. split_and!.
  - done.
  - unfold handle_ids, cleared. cbn. rewrite !map_map. apply Forall_app; split; by apply Forall_map, Forall_true.
  - eapply Forall_impl; [apply Hok'|]. intros th Hth. unfold next_move.
    by rewrite flag_set_stopped by first [done | apply all_stopped_cleared, all_stopped].
  - intros id th Hid. eexists. rewrite list_lookup_imap, Hid. split_and!; [done..|].
    unfold mark_joined. cbn. by rewrite orb_true_iff, bool_decide_eq_true.
Qed.

(** ** Starting *)
Definition with_handle {A} (base j : nat) (m : Managed A) : Managed A :=
  mkManaged (mg_name m) (mg_adapter m) (mg_shutdown m) (Some (base + j)%nat).
Definition adapter_count g : nat := (length (modbus_adapters g) + length (hart_adapters g))%nat.
Definition started g (base : nat) : AdapterManager D P T :=
  mkManager (imap (with_handle base) (modbus_adapters g))
    (imap (with_handle (base + length (modbus_adapters g))) (hart_adapters g)).
Definition new_threads g : list PollThread :=
  imap (λ j _, mkPollThread (false, j) false) (modbus_adapters g) ++
  imap (λ j _, mkPollThread (true, j) false) (hart_adapters g).

Lemma start_all_eq g ths : start_all g ths = (started g (length ths), ths ++ new_threads g).
Proof.
  unfold start_all. destruct (start_from_spec false 0 (modbus_adapters g) ths) as [H2 H1].
  destruct (start_from false 0 _ ths) as [mb t1]. cbn [fst snd] in *. subst.
  destruct (start_from_spec true 0 (hart_adapters g) (ths ++ imap (λ j _, mkPollThread (false, 0 + j)%nat false) (modbus_adapters g))) as [H2 H1].
  destruct (start_from true 0 _ _) as [ha t2]. cbn [fst snd] in *. subst.
  rewrite length_app, length_imap. unfold started, new_threads. by rewrite <- app_assoc.
Qed.

Lemma new_threads_length g : length (new_threads g) = adapter_count g.
Proof. unfold new_threads, adapter_count. by rewrite length_app, !length_imap. Qed.

Lemma started_ok g ths : manager_ok g ths → manager_ok (started g (length ths)) (ths ++ new_threads g).
Proof.
  intros (_ & _ & Hw). unfold started, new_threads. split_and!.
  - intros i m id Hi Hid. cbn in Hi. rewrite list_lookup_imap in Hi.
    destruct (modbus_adapters g !! i) as [m0|] eqn:E; [|done]. cbn in Hi. simplify_eq. cbn in Hid. simplify_eq.
    exists false. rewrite lookup_app_r by lia. replace (length ths + i - length ths)%nat with i by lia.
    rewrite lookup_app_l by (rewrite length_imap; by eapply lookup_lt_Some). by rewrite list_lookup_imap, E.
  - intros i m id Hi Hid. cbn in Hi. rewrite list_lookup_imap in Hi.
    destruct (hart_adapters g !! i) as [m0|] eqn:E; [|done]. cbn in Hi. simplify_eq. cbn in Hid. simplify_eq.
    exists false. rewrite lookup_app_r, lookup_app_r by (rewrite ?length_imap; lia). rewrite length_imap.
    replace (_ - _ - _)%nat with i by lia. by rewrite list_lookup_imap, E.
  - cbn. rewrite !length_imap. apply Forall_app. split; [done|]. apply Forall_app.
    split; apply Forall_lookup; intros i th Hi; rewrite list_lookup_imap in Hi;
      [destruct (modbus_adapters g !! i) eqn:E | destruct (hart_adapters g !! i) eqn:E]; try done;
      cbn in Hi; simplify_eq; cbn; by eapply lookup_lt_Some.
Qed.

(** Adapters cannot be started again: the flag that stops them is never
    cleared, so the threads a start spawns after a stop - one for each adapter -
    all leave their loop before the first poll. *)
Theorem no_restart g ths g1 ths1 g2 ths2 : manager_ok g ths →
  stop_all g ths = Some (g1, ths1) → start_all g1 ths1 = (g2, ths2) →
  length ths2 = (length ths1 + adapter_count g)%nat ∧ Forall (λ th, next_move g2 th = Leaves) ths2.
Proof.
  intros Hok Hstop Hstart.
  pose proof (cleared_ok g ths Hok) as Hok1. rewrite stop_all_eq in Hstop by done. rewrite start_all_eq in Hstart. simplify_eq. split.
  - rewrite length_app, new_threads_length. unfold adapter_count, cleared, stopped. cbn. by rewrite !length_map.
  - destruct (started_ok _ _ Hok1) as (_ & _ & Hw). eapply Forall_impl; [exact Hw|]. intros th Hth. unfold next_move.
    assert (Himap : ∀ A base (ms : list (Managed A)), Forall (λ m, mg_shutdown m = true) ms →
      Forall (λ m, mg_shutdown m = true) (imap (with_handle base) ms)).
    { intros A base ms Hms. apply Forall_lookup. intros i m. rewrite list_lookup_imap.
      destruct (ms !! i) as [m0|] eqn:E; [|done]. intros [= <-]. cbn. by eapply Forall_lookup in Hms. }
    rewrite flag_set_stopped; [done|exact Hth | |]; apply Himap, all_stopped_cleared, all_stopped.
Qed.

Lemma handle_ids_started g base id :
  Some id ∈ handle_ids (started g base) ↔ (base ≤ id < base + adapter_count g)%nat.
Proof.
  assert (Himap : ∀ A b (ms : list (Managed A)), Some id ∈ map mg_handle (imap (with_handle b) ms) ↔
    (b ≤ id < b + length ms)%nat).
  { intros A b ms. rewrite list_elem_of_lookup. split.
    - intros [i Hi]. rewrite list_lookup_fmap, list_lookup_imap in Hi. destruct (ms !! i) eqn:E; [|done].
      cbn in Hi. simplify_eq. apply lookup_lt_Some in E. lia.
    - intros Hid. exists (id - b)%nat. rewrite list_lookup_fmap, list_lookup_imap.
      destruct (lookup_lt_is_Some_2 ms (id - b)%nat ltac:(lia)) as [m ->]. cbn. do 2 f_equal. lia. }
  unfold handle_ids, started, adapter_count. cbn. rewrite elem_of_app, !Himap. lia.
Qed.

(** A second start without a stop detaches the first threads: each
    adapter is then polled by two threads, and a stop joins only the second. *)
Theorem second_start_detaches g g1 ths1 g2 ths2 : manager_ok g [] →
  start_all g [] = (g1, ths1) → start_all g1 ths1 = (g2, ths2) →
  ths2 = ths1 ++ ths1 ∧
  ∃ g3 ths3, stop_all g2 ths2 = Some (g3, ths3) ∧ length ths3 = (2 * adapter_count g)%nat ∧
    ∀ id th, ths3 !! id = Some th → (joined th = true ↔ (adapter_count g ≤ id)%nat).
Proof.
  intros Hok Hs1 Hs2. rewrite start_all_eq in Hs1. injection Hs1 as <- <-.
  rewrite start_all_eq in Hs2. injection Hs2 as <- <-. cbn [length app].
  set (h := started g 0).
  assert (Hnt : new_threads h = new_threads g).
  { unfold new_threads, h, started. cbn. f_equal; apply list_eq; intros i; rewrite !list_lookup_imap.
    - by destruct (modbus_adapters g !! i).
    - by destruct (hart_adapters g !! i). }
  assert (Hcount : adapter_count h = adapter_count g) by (unfold adapter_count; cbn; by rewrite !length_imap).
  rewrite Hnt. split; [done|]. eexists _, _. split.
  { apply stop_all_eq. rewrite <- Hnt at 3. apply started_ok. exact (started_ok g [] Hok). }
  rewrite length_imap, length_app, new_threads_length. split; [lia|].
  intros id th. rewrite list_lookup_imap. destruct ((new_threads g ++ new_threads g) !! id) as [th0|] eqn:E; [|done].
  intros [= <-]. unfold mark_joined. cbn [joined]. rewrite orb_true_iff, bool_decide_eq_true, handle_ids_started.
  rewrite Hcount. pose proof (lookup_lt_Some _ _ _ E) as Hlt.
  rewrite length_app, new_threads_length in Hlt.
  assert (Hj : joined th0 = false).
  { apply list_elem_of_lookup_2 in E. rewrite elem_of_app in E. unfold new_threads in E.
    assert (Hf : ∀ A (k : bool) (ms : list A), th0 ∈ imap (λ j _, mkPollThread (k, j) false) ms → joined th0 = false).
    { intros A k ms (i & x & -> & _)%elem_of_lookup_imap_1. done. }
    destruct E as [E|E]; apply elem_of_app in E as [E|E]; by eapply Hf. }
  rewrite Hj. split; [intros [|]; [done|lia] | intros; right; lia].
Qed.
End facts.

(** ** Runs: one adapter of each kind *)
Definition plant : AdapterManager (MemDevice false) (Line false) InprocTransport :=
  mkManager
    [mkManaged "pump" (mkPoll (mkClient (mkMem ∅ []) true) transport_new ∅) false None]
    [mkManaged "sensor" (mkHartState (mkHartClient (mkLine [] []) 0) transport_new ∅) false None].
Lemma plant_ok : manager_ok plant [].
Proof. split_and!; [intros [|[]]; cbn; intros; by simplify_eq .. | constructor]. Qed.
Lemma plant_registered :
  (let? g := register_modbus (P:=Line false) manager_new "pump" (mkModbusConfig (Tcp "localhost" 502) [] 100) transport_new in
   Ok (modbus_adapters g)) = Ok (modbus_adapters plant).
Proof. reflexivity. Qed.

Definition plant_running : AdapterManager (MemDevice false) (Line false) InprocTransport * list PollThread :=
  start_all plant [].
Lemma plant_running_ok : manager_ok plant_running.1 plant_running.2.
Proof. exact (started_ok plant [] plant_ok). Qed.

Lemma stop_all_joins_witness : ∃ g' ths', stop_all plant_running.1 plant_running.2 = Some (g', ths') ∧
  Forall (λ th, next_move g' th = Leaves) ths' ∧ length ths' = 2%nat.
Proof.
  destruct (stop_all_joins plant_running.1 plant_running.2 plant_running_ok) as (g' & ths' & Hs & _ & _ & Hl & _).
  exists g', ths'. split_and!; [done..|]. vm_compute in Hs. by simplify_eq.
Defined.

Lemma no_restart_witness : ∃ g1 ths1, stop_all plant_running.1 plant_running.2 = Some (g1, ths1) ∧
  length (start_all g1 ths1).2 = (length ths1 + adapter_count plant_running.1)%nat ∧
  Forall (λ th, next_move (start_all g1 ths1).1 th = Leaves) (start_all g1 ths1).2.
Proof.
  pose proof (stop_all_eq plant_running.1 plant_running.2 plant_running_ok) as Hs.
  eexists _, _. split; [exact Hs|].
  exact (no_restart plant_running.1 plant_running.2 _ _ _ _ plant_running_ok Hs (surjective_pairing _)).
Defined.

Lemma second_start_detaches_witness :
  let again := start_all plant_running.1 plant_running.2 in
  ∃ g3 ths3, stop_all again.1 again.2 = Some (g3, ths3) ∧ map joined ths3 = [false; false; true; true].
Proof.
  intros again.
  destruct (second_start_detaches plant plant_running.1 plant_running.2 again.1 again.2 plant_ok) as (_ & g3 & ths3 & Hs & _);
    [apply surjective_pairing..|].
  exists g3, ths3. split; [done|]. vm_compute in Hs. by simplify_eq.
Defined.
