(* ===== verification/GcodeParser.v ===== *)
(** * G-code: tokens, tokenizer and parser
    ([audesys-gcode-compiler/src/token.rs], [parser.rs])

    The source is its bytes.  [lex_step] is one round of the [while] loop,
    [tokenize] the loop; [None] is a panic, the line counter or the comment
    depth overflowing in a checked build. *)
From S2P Require Import Prelude Float IntFloat.
Local Open Scope Z_scope.
Local Open Scope hal_scope.

Inductive Token :=
  | TkG (n : Z) | TkM (n : Z)
  | TkX (v : Z) | TkY (v : Z) | TkZ (v : Z)
  | TkI (v : Z) | TkJ (v : Z) | TkK (v : Z)
  | TkR (v : Z) | TkF (v : Z) | TkS (v : Z)
  | TkT (n : Z)
  | TkP (v : Z)
  | TkLineNum (n : Z)
  | TkStar | TkPercent | TkSlash
  | TkEOL | TkEOF.

#[export] Instance Token_eq_dec : EqDecision Token.
Proof. solve_decision. Defined.

Record LexedToken := mkLexed { token : Token; tok_line : Z }.

#[export] Instance LexedToken_eq_dec : EqDecision LexedToken.
Proof. solve_decision. Defined.

Definition is_ascii_digit (b : Z) : bool := between 48 57 b.

Definition saturating_u32 (z : Z) : Z := Z.min (2 ^ 32 - 1) z.

(** The digit loop of [parse_u32]: value, [has_digits] and what is left. *)
Fixpoint u32_digits (val : Z) (has_digits : bool) (bytes : list Z) : Z * bool * list Z :=
  match bytes with
  | b :: rest =>
      if is_ascii_digit b then
        u32_digits (saturating_u32 (saturating_u32 (val * 10) + (b - 48))) true rest
      else (val, has_digits, bytes)
  | [] => (val, has_digits, [])
  end.

Fixpoint skip_digits (bytes : list Z) : list Z :=
  match bytes with
  | b :: rest => if is_ascii_digit b then skip_digits rest else bytes
  | [] => []
  end.

Definition parse_u32 (bytes : list Z) : Z * list Z :=
  let '(val, has_digits, rest) := u32_digits 0 false bytes in
  let rest := match rest with
              | b :: rest' => if b =? 46 then skip_digits rest' else rest
              | [] => []
              end in
  (if has_digits then val else 0, rest).

(** The two digit loops of [parse_f64], in binary64. *)
Fixpoint f64_int_digits (int_part : Z) (has_digits : bool) (bytes : list Z) : Z * bool * list Z :=
  match bytes with
  | b :: rest =>
      if is_ascii_digit b then
        f64_int_digits (f64_add (f64_mul int_part (f64_of_Z 10)) (f64_of_Z (b - 48))) true rest
      else (int_part, has_digits, bytes)
  | [] => (int_part, has_digits, [])
  end.

Fixpoint f64_frac_digits (frac_part divisor : Z) (has_digits : bool) (bytes : list Z)
  : Z * bool * list Z :=
  match bytes with
  | b :: rest =>
      if is_ascii_digit b then
        f64_frac_digits (f64_add frac_part (f64_div (f64_of_Z (b - 48)) divisor))
          (f64_mul divisor (f64_of_Z 10)) true rest
      else (frac_part, has_digits, bytes)
  | [] => (frac_part, has_digits, [])
  end.

Definition parse_f64 (bytes : list Z) : Z * list Z :=
  let '(neg, bytes) := match bytes with
                       | b :: rest => if b =? 45 then (true, rest)
                                      else if b =? 43 then (false, rest) else (false, bytes)
                       | [] => (false, [])
                       end in
  let '(int_part, has_digits, bytes) := f64_int_digits f64_zero false bytes in
  let '(frac_part, has_digits, bytes) :=
    match bytes with
    | b :: rest => if b =? 46 then f64_frac_digits f64_zero (f64_of_Z 10) has_digits rest
                   else (f64_zero, has_digits, bytes)
    | [] => (f64_zero, has_digits, [])
    end in
  if has_digits then
    let val := f64_add int_part frac_part in
    (if neg then f64_neg val else val, bytes)
  else (f64_zero, bytes).

(** [b'N' | b'n']: the upper-case code and the one 32 above it. *)
Definition letter (c : Z) (b : Z) : bool := (b =? c) || (b =? c + 32).

(** A letter with its number: [None] for the letters whose number is read and
    dropped. *)
Definition lex_word (b : Z) (bytes : list Z) : option Token * list Z :=
  let int tok := let '(n, rest) := parse_u32 bytes in (Some (tok n), rest) in
  let float tok := let '(v, rest) := parse_f64 bytes in (Some (tok v), rest) in
  if letter 78 b then int TkLineNum
  else if letter 71 b then int TkG
  else if letter 77 b then int TkM
  else if letter 88 b then float TkX
  else if letter 89 b then float TkY
  else if letter 90 b then float TkZ
  else if letter 73 b then float TkI
  else if letter 74 b then float TkJ
  else if letter 75 b then float TkK
  else if letter 82 b then float TkR
  else if letter 70 b then float TkF
  else if letter 83 b then float TkS
  else if letter 84 b then int TkT
  else if letter 80 b then float TkP
  else if existsb (fun c => letter c b) [65; 66; 67; 68; 69; 72; 76; 81; 85; 86; 87] then
    (None, (parse_f64 bytes).2)
  else (None, bytes).

Section profile.
Context `{BuildProfile}.

(** Inside a parenthesized comment at depth [depth]. *)
Fixpoint skip_comment (depth line : Z) (bytes : list Z) : option (list Z * Z) :=
  match bytes with
  | [] => Some ([], line)
  | b :: rest =>
      if depth =? 0 then Some (bytes, line)
      else if b =? 40 then depth ← arith false 32 (depth + 1); skip_comment depth line rest
      else if b =? 41 then skip_comment (depth - 1) line rest
      else if b =? 10 then line ← arith false 32 (line + 1); skip_comment depth line rest
      else skip_comment depth line rest
  end.

Fixpoint skip_to_newline (bytes : list Z) : list Z :=
  match bytes with
  | b :: rest => if b =? 10 then bytes else skip_to_newline rest
  | [] => []
  end.

(** One round on a non-empty input: the tokens pushed, the input left and the
    line counter. *)
Definition lex_step (b : Z) (bytes : list Z) (line : Z) : option (list LexedToken * list Z * Z) :=
  if (b =? 32) || (b =? 9) || (b =? 13) then Some ([], bytes, line)
  else if b =? 10 then
    line' ← arith false 32 (line + 1); Some ([mkLexed TkEOL line], bytes, line')
  else if b =? 37 then Some ([mkLexed TkPercent line], bytes, line)
  else if b =? 42 then Some ([mkLexed TkStar line], bytes, line)
  else if b =? 47 then Some ([mkLexed TkSlash line], bytes, line)
  else if b =? 40 then '(rest, line) ← skip_comment 1 line bytes; Some ([], rest, line)
  else if b =? 59 then Some ([], skip_to_newline bytes, line)
  else let '(tok, rest) := lex_word b bytes in
       Some (match tok with Some t => [mkLexed t line] | None => [] end, rest, line).

(** Every round consumes a byte, so [length bytes] rounds are enough
    ([lex_loop_total]). *)
Fixpoint lex_loop (fuel : nat) (bytes : list Z) (line : Z) : option (list LexedToken) :=
  match bytes, fuel with
  | [], _ => Some [mkLexed TkEOF line]
  | _ :: _, O => None
  | b :: bytes, S fuel =>
      '(toks, rest, line) ← lex_step b bytes line;
      more ← lex_loop fuel rest line;
      Some (toks ++ more)
  end.

Definition tokenize (source : list Z) : option (list LexedToken) :=
  lex_loop (length source) source 1.
End profile.

(** ** What the tokenizer does *)

(** The number of newline bytes. *)
Definition newlines (bytes : list Z) : Z := Z.of_nat (length (filter (fun b => b = 10) bytes)).

Lemma newlines_app l k : newlines (l ++ k) = newlines l + newlines k.
Proof. unfold newlines. rewrite filter_app, length_app. lia. Qed.
Lemma newlines_nil : newlines [] = 0.
Proof. done. Qed.
Lemma newlines_cons b l : newlines (b :: l) = (if b =? 10 then 1 else 0) + newlines l.
Proof.
  unfold newlines. destruct (Z.eqb_spec b 10).
  - rewrite filter_cons_True by done. cbn [length]. lia.
  - rewrite filter_cons_False by done. lia.
Qed.
Lemma newlines_bound l : 0 ≤ newlines l ≤ Z.of_nat (length l).
Proof. unfold newlines. pose proof (length_filter (fun b => b = 10) l). lia. Qed.

(** [rest] is what is left of [bytes] after a part without a newline. *)
Definition eats (bytes rest : list Z) : Prop := ∃ c, bytes = c ++ rest ∧ newlines c = 0.

Lemma eats_refl l : eats l l.
Proof. by exists []. Qed.
Lemma eats_trans a b c : eats a b → eats b c → eats a c.
Proof.
  intros (x & -> & Hx) (y & -> & Hy). exists (x ++ y).
  rewrite newlines_app. split; [by rewrite (assoc_L (++)) | lia].
Qed.
Lemma eats_cons b l rest : b ≠ 10 → eats l rest → eats (b :: l) rest.
Proof.
  intros Hb (x & -> & Hx). exists (b :: x). rewrite newlines_cons.
  rewrite (proj2 (Z.eqb_neq _ _)) by done. split; [done | lia].
Qed.
Lemma eats_length a b : eats a b → (length b ≤ length a)%nat.
Proof. intros (x & -> & _). rewrite length_app. lia. Qed.
Lemma digit_not_newline b : is_ascii_digit b = true → b ≠ 10.
Proof. unfold is_ascii_digit, between. rewrite andb_true_iff, !Z.leb_le. lia. Qed.

Create HintDb lex discriminated.
#[local] Hint Resolve eats_refl eats_cons digit_not_newline : lex.

Lemma u32_digits_eats l v h : eats l (u32_digits v h l).2.
Proof. revert v h. induction l as [|b l IH]; intros v h; cbn; [|case_match]; auto with lex. Qed.
Lemma skip_digits_eats l : eats l (skip_digits l).
Proof. induction l as [|b l IH]; cbn; [|case_match]; auto with lex. Qed.
Lemma f64_int_digits_eats l v h : eats l (f64_int_digits v h l).2.
Proof. revert v h. induction l as [|b l IH]; intros v h; cbn -[f64_add f64_mul f64_of_Z]; [|case_match]; auto with lex. Qed.
Lemma f64_frac_digits_eats l v d h : eats l (f64_frac_digits v d h l).2.
Proof. revert v d h. induction l as [|b l IH]; intros v d h; cbn -[f64_add f64_mul f64_div f64_of_Z]; [|case_match]; auto with lex. Qed.

Lemma parse_u32_eats l : eats l (parse_u32 l).2.
Proof.
  unfold parse_u32. pose proof (u32_digits_eats l 0 false) as Hd.
  destruct (u32_digits 0 false l) as [[v h] rest]. cbn [snd] in *. eapply eats_trans; [exact Hd|].
  destruct rest as [|b rest]; [apply eats_refl|]. destruct (Z.eqb_spec b 46); [|apply eats_refl].
  apply eats_cons; [lia | apply skip_digits_eats].
Qed.

Lemma parse_f64_eats l : eats l (parse_f64 l).2.
Proof.
  unfold parse_f64.
  destruct (match l with [] => _ | _ :: _ => _ end) as [neg l1] eqn:E.
  assert (H1 : eats l l1).
  { destruct l as [|b l]; simplify_eq; auto with lex.
    destruct (Z.eqb_spec b 45); [simplify_eq; apply eats_cons; [lia|auto with lex]|].
    destruct (Z.eqb_spec b 43); simplify_eq; [apply eats_cons; [lia|]|]; auto with lex. }
  clear E. eapply eats_trans; [exact H1|]. clear H1.
  pose proof (f64_int_digits_eats l1 f64_zero false) as Hd.
  destruct (f64_int_digits f64_zero false l1) as [[ip h] l2]. cbn [snd] in Hd.
  eapply eats_trans; [exact Hd|]. clear Hd.
  destruct (match l2 with [] => _ | _ :: _ => _ end) as [[fp h'] l3] eqn:E.
  assert (H2 : eats l2 l3).
  { destruct l2 as [|b l2]; simplify_eq; auto with lex.
    destruct (Z.eqb_spec b 46); [|simplify_eq; auto with lex].
    pose proof (f64_frac_digits_eats l2 f64_zero (f64_of_Z 10) h) as Hf. rewrite E in Hf.
    apply eats_cons; [lia | exact Hf]. }
  by destruct h'.
Qed.

Lemma lex_word_eats b l : eats l (lex_word b l).2.
Proof.
  unfold lex_word. pose proof (parse_u32_eats l) as Hu. pose proof (parse_f64_eats l) as Hf.
  destruct (parse_u32 l) as [n r], (parse_f64 l) as [v q]. cbn [snd] in *.
  repeat case_match; auto with lex.
Qed.

Lemma lex_word_token b l t : (lex_word b l).1 = Some t → t ≠ TkEOF.
Proof.
  unfold lex_word. destruct (parse_u32 l) as [n r], (parse_f64 l) as [v q].
  repeat case_match; cbn; congruence.
Qed.

Lemma skip_to_newline_eats l : eats l (skip_to_newline l).
Proof.
  induction l as [|b l IH]; cbn; [auto with lex|].
  destruct (Z.eqb_spec b 10); [auto with lex | by apply eats_cons].
Qed.

Section profile.
Context `{BuildProfile}.

Lemma skip_comment_spec l depth line :
  0 ≤ line → 0 ≤ depth →
  line + Z.of_nat (length l) < 2 ^ 32 → depth + Z.of_nat (length l) < 2 ^ 32 →
  ∃ c rest, skip_comment depth line l = Some (rest, line + newlines c) ∧ l = c ++ rest.
Proof.
  revert depth line. induction l as [|b l IH]; intros depth line Hl0 Hd0 Hl Hd.
  { exists [], []. split; [|done]. cbn. by rewrite newlines_nil, Z.add_0_r. }
  cbn [length] in Hl, Hd. cbn [skip_comment].
  destruct (Z.eqb_spec depth 0).
  { exists [], (b :: l). by rewrite newlines_nil, Z.add_0_r. }
  assert (Hgo : ∀ d ln, d ≤ depth + 1 → 0 ≤ d → ln = line + (if b =? 10 then 1 else 0) →
    ∃ c rest, skip_comment d ln l = Some (rest, line + newlines c) ∧ b :: l = c ++ rest).
  { intros d ln Hd1 Hd2 ->.
    destruct (IH d (line + (if b =? 10 then 1 else 0))) as (c & rest & -> & ->);
      [destruct (b =? 10); lia | done | destruct (b =? 10); lia | lia |].
    exists (b :: c), rest. rewrite newlines_cons. split; [do 2 f_equal; lia | done]. }
  destruct (Z.eqb_spec b 40) as [->|].
  { rewrite arith_exact by (apply in_u_spec; lia). apply Hgo; [lia..|cbn; lia]. }
  destruct (Z.eqb_spec b 41) as [->|]; [apply Hgo; [lia..|cbn; lia]|].
  destruct (Z.eqb_spec b 10) as [->|].
  - rewrite arith_exact by (apply in_u_spec; lia). apply Hgo; [lia..|cbn; lia].
  - apply Hgo; lia.
Qed.

(** One round consumes a non-empty part, counts its newlines, and pushes at
    most one token, at the current line. *)
Lemma lex_step_spec b l line :
  0 ≤ line → line + Z.of_nat (length l) + 1 < 2 ^ 32 →
  ∃ toks c rest, lex_step b l line = Some (toks, rest, line + newlines (b :: c)) ∧
    l = c ++ rest ∧ Forall (fun t => tok_line t = line ∧ token t ≠ TkEOF) toks.
Proof.
  intros H0 Hl. unfold lex_step.
  assert (Hnl : ∀ toks rest, eats l rest → b ≠ 10 →
    Forall (fun t => tok_line t = line ∧ token t ≠ TkEOF) toks →
    ∃ toks' c rest', Some (toks, rest, line) = Some (toks', rest', line + newlines (b :: c)) ∧
      l = c ++ rest' ∧ Forall (fun t => tok_line t = line ∧ token t ≠ TkEOF) toks').
  { intros toks rest (c & -> & Hc) Hb Ht. exists toks, c, rest.
    rewrite newlines_cons, (proj2 (Z.eqb_neq _ _)), Hc by done.
    split; [do 2 f_equal; lia | done]. }
  destruct ((b =? 32) || (b =? 9) || (b =? 13)) eqn:E1.
  { apply Hnl; [apply eats_refl | breflect; lia | constructor]. }
  destruct (Z.eqb_spec b 10) as [->|Hb].
  { rewrite arith_exact by (apply in_u_spec; lia). cbn [mbind option_bind].
    exists [mkLexed TkEOL line], [], l. split; [done|]. split; [done|]. by repeat constructor. }
  destruct (Z.eqb_spec b 37); [apply Hnl; [apply eats_refl | done | by repeat constructor]|].
  destruct (Z.eqb_spec b 42); [apply Hnl; [apply eats_refl | done | by repeat constructor]|].
  destruct (Z.eqb_spec b 47); [apply Hnl; [apply eats_refl | done | by repeat constructor]|].
  destruct (Z.eqb_spec b 40) as [->|].
  { destruct (skip_comment_spec l 1 line) as (c & rest & -> & ->); [lia..|].
    cbn [mbind option_bind]. exists [], c, rest. rewrite newlines_cons. cbn [Z.eqb Pos.eqb].
    split; [do 2 f_equal; lia|]. split; [done | constructor]. }
  destruct (Z.eqb_spec b 59); [apply Hnl; [apply skip_to_newline_eats | done | constructor]|].
  pose proof (lex_word_eats b l) as Hw. pose proof (lex_word_token b l) as Ht.
  destruct (lex_word b l) as [tok rest]. cbn [fst snd] in *.
  apply Hnl; [done..|]. destruct tok as [t|]; [|constructor].
  constructor; [|constructor]. split; [done | by apply Ht].
Qed.

(** Tokens at non-decreasing lines, all from [lo] to [hi]. *)
Definition lines_between (lo hi : Z) (toks : list LexedToken) : Prop :=
  Sorted Z.le (lo :: map tok_line toks ++ [hi]).

Lemma lex_loop_total fuel bytes line :
  (length bytes ≤ fuel)%nat → 0 ≤ line → line + Z.of_nat (length bytes) < 2 ^ 32 →
  ∃ body, lex_loop fuel bytes line = Some (body ++ [mkLexed TkEOF (line + newlines bytes)]) ∧
    Forall (fun t => token t ≠ TkEOF) body ∧ lines_between line (line + newlines bytes) body.
Proof.
  revert bytes line. induction fuel as [|fuel IH]; intros bytes line Hf H0 Hl.
  { destruct bytes; [|cbn in Hf; lia]. exists []. rewrite newlines_nil, Z.add_0_r.
    split; [done|]. split; [constructor|]. unfold lines_between. cbn.
    repeat constructor. lia. }
  destruct bytes as [|b bytes].
  { exists []. rewrite newlines_nil, Z.add_0_r. split; [done|]. split; [constructor|].
    unfold lines_between. repeat constructor. lia. }
  cbn [length] in Hf, Hl. cbn [lex_loop].
  destruct (lex_step_spec b bytes line) as (toks & c & rest & -> & Hsplit & Ht); [lia..|].
  rewrite Hsplit in Hf, Hl. rewrite length_app in Hf, Hl.
  pose proof (newlines_bound (b :: c)) as Hc. cbn [length] in Hc.
  cbn [mbind option_bind].
  destruct (IH rest (line + newlines (b :: c))) as (body & -> & Hb & Hlines); [lia..|].
  cbn [mbind option_bind]. exists (toks ++ body).
  assert (newlines (b :: bytes) = newlines (b :: c) + newlines rest) as ->.
  { rewrite Hsplit, !newlines_cons, newlines_app. lia. }
  rewrite Z.add_assoc.
  split; [by rewrite <- (assoc_L (++))|].
  split. { apply Forall_app. split; [|done]. eapply Forall_impl; [exact Ht|]. by intros ? []. }
  clear -Ht Hlines Hc. unfold lines_between in *. rewrite map_app, <- (assoc_L (++)).
  induction Ht as [|t toks [Htl _] _ IHt]; cbn [map app].
  - inversion Hlines as [|? ? Hs Hh]; subst. constructor; [done|].
    inversion Hh; subst; constructor; lia.
  - rewrite Htl. constructor; [exact IHt | constructor; lia].
Qed.
End profile.

Section profile.
Context `{BuildProfile}.

(** The tokenizer is total and counts lines: on a source of fewer than
    [2 ^ 32 - 1] bytes it never panics, whatever the bytes, and ends with exactly
    one [EOF] token, whose line is one more than the number of newline bytes,
    those inside comments included; the lines of the tokens never decrease and
    stay between 1 and that line. *)
Theorem tokenize_total source :
  Z.of_nat (length source) < 2 ^ 32 - 1 →
  ∃ body, tokenize source = Some (body ++ [mkLexed TkEOF (1 + newlines source)]) ∧
    Forall (fun t => token t ≠ TkEOF) body ∧ lines_between 1 (1 + newlines source) body.
Proof. intros Hl. apply lex_loop_total; lia. Qed.
End profile.

Lemma tokenize_total_witness :
  ∃ body, tokenize (H := debug_profile) (string_bytes "G1 (a
b) X1") = Some (body ++ [mkLexed TkEOF 2]).
Proof.
  destruct (tokenize_total (H := debug_profile) (string_bytes "G1 (a
b) X1")) as (body & Hb & _); [vm_compute; reflexivity|]. exists body. exact Hb.
Defined.

(** ** Case *)

(** [u8::to_ascii_uppercase] *)
Definition upper_byte (b : Z) : Z := if between 97 122 b then b - 32 else b.

Lemma upper_other b c : c < 65 → (upper_byte b =? c) = (b =? c).
Proof.
  intros Hc. unfold upper_byte, between. destruct (_ && _) eqn:E; [|done].
  breflect. rewrite !(proj2 (Z.eqb_neq _ _)); lia.
Qed.
Lemma upper_letter b c : 65 ≤ c ≤ 90 → letter c (upper_byte b) = letter c b.
Proof.
  intros Hc. unfold letter, upper_byte, between.
  destruct ((97 <=? b) && (b <=? 122)) eqn:E; [|done]. breflect.
  destruct (Z.eqb_spec (b - 32) c), (Z.eqb_spec (b - 32) (c + 32)), (Z.eqb_spec b c),
    (Z.eqb_spec b (c + 32)); lia || done.
Qed.
Lemma upper_digit b : is_ascii_digit (upper_byte b) = is_ascii_digit b.
Proof.
  unfold is_ascii_digit, upper_byte, between.
  destruct ((97 <=? b) && (b <=? 122)) eqn:E; [|done]. breflect.
  destruct (Z.leb_spec 48 (b - 32)), (Z.leb_spec (b - 32) 57), (Z.leb_spec 48 b),
    (Z.leb_spec b 57); lia || done.
Qed.
Lemma upper_digit_id b : is_ascii_digit b = true → upper_byte b = b.
Proof.
  unfold is_ascii_digit, upper_byte, between. intros Hd. breflect.
  by rewrite (proj2 (Z.leb_gt _ _)) by lia.
Qed.

Abbreviation up := (map upper_byte).

Lemma u32_digits_upper l v h :
  u32_digits v h (up l) = let '(v, h, r) := u32_digits v h l in (v, h, up r).
Proof.
  revert v h. induction l as [|b l IH]; intros v h; [done|]. cbn. rewrite upper_digit.
  destruct (is_ascii_digit b) eqn:E; [|done]. by rewrite IH, upper_digit_id.
Qed.
Lemma skip_digits_upper l : skip_digits (up l) = up (skip_digits l).
Proof.
  induction l as [|b l IH]; [done|]. cbn. rewrite upper_digit. by destruct (is_ascii_digit b).
Qed.
Lemma f64_int_digits_upper l v h :
  f64_int_digits v h (up l) = let '(v, h, r) := f64_int_digits v h l in (v, h, up r).
Proof.
  revert v h. induction l as [|b l IH]; intros v h; [done|]. cbn -[f64_add f64_mul f64_of_Z].
  rewrite upper_digit.
  destruct (is_ascii_digit b) eqn:E; [|done]. by rewrite IH, upper_digit_id.
Qed.
Lemma f64_frac_digits_upper l v d h :
  f64_frac_digits v d h (up l) = let '(v, h, r) := f64_frac_digits v d h l in (v, h, up r).
Proof.
  revert v d h. induction l as [|b l IH]; intros v d h; [done|].
  cbn -[f64_add f64_mul f64_div f64_of_Z]. rewrite upper_digit.
  destruct (is_ascii_digit b) eqn:E; [|done]. by rewrite IH, upper_digit_id.
Qed.

Lemma parse_u32_upper l : parse_u32 (up l) = let '(n, r) := parse_u32 l in (n, up r).
Proof.
  unfold parse_u32. rewrite u32_digits_upper. destruct (u32_digits 0 false l) as [[v h] r].
  destruct r as [|b r]; [done|]. cbn [map]. rewrite upper_other by lia.
  destruct (b =? 46); [|done]. by rewrite skip_digits_upper.
Qed.

Lemma parse_f64_upper l : parse_f64 (up l) = let '(v, r) := parse_f64 l in (v, up r).
Proof.
  unfold parse_f64.
  set (f := fun bytes : list Z => match bytes with
    | [] => (false, []) | b :: rest => if b =? 45 then (true, rest)
      else if b =? 43 then (false, rest) else (false, bytes) end).
  change (match up l with [] => _ | _ :: _ => _ end) with (f (up l)).
  change (match l with [] => _ | _ :: _ => _ end) with (f l).
  assert (f (up l) = let '(n, r) := f l in (n, up r)) as ->.
  { destruct l as [|b l]; [done|]. cbn. rewrite !upper_other by lia.
    by destruct (b =? 45), (b =? 43). }
  clear. destruct (f l) as [n r]. rewrite f64_int_digits_upper.
  destruct (f64_int_digits f64_zero false r) as [[v h] q].
  destruct q as [|b q]; [by destruct h|]. cbn [map]. rewrite upper_other by lia.
  destruct (b =? 46); [|by destruct h]. rewrite f64_frac_digits_upper.
  destruct (f64_frac_digits _ _ h q) as [[v' h'] q']. by destruct h'.
Qed.

Lemma lex_word_upper b l :
  lex_word (upper_byte b) (up l) = let '(t, r) := lex_word b l in (t, up r).
Proof.
  unfold lex_word. rewrite parse_u32_upper, parse_f64_upper.
  cbn [existsb]. rewrite !upper_letter by lia.
  destruct (parse_u32 l) as [n r], (parse_f64 l) as [v q]. cbn [snd].
  repeat case_match; congruence.
Qed.

Lemma skip_to_newline_upper l : skip_to_newline (up l) = up (skip_to_newline l).
Proof.
  induction l as [|b l IH]; [done|]. cbn. rewrite upper_other by lia. by destruct (b =? 10).
Qed.

Section profile.
Context `{BuildProfile}.

Lemma skip_comment_upper l d n :
  skip_comment d n (up l) = '(r, n) ← skip_comment d n l; Some (up r, n).
Proof.
  revert d n. induction l as [|b l IH]; intros d n; [done|]. cbn.
  rewrite !upper_other by lia. destruct (d =? 0); [done|].
  destruct (b =? 40); [destruct (arith _ _ _); [apply IH | done]|].
  destruct (b =? 41); [apply IH|].
  destruct (b =? 10); [destruct (arith _ _ _); [apply IH | done]|]. apply IH.
Qed.

Lemma lex_step_upper b l n :
  lex_step (upper_byte b) (up l) n =
  '(t, r, n) ← lex_step b l n; Some (t, up r, n).
Proof.
  unfold lex_step. rewrite !upper_other by lia.
  destruct ((b =? 32) || (b =? 9) || (b =? 13)); [done|].
  destruct (b =? 10); [by destruct (arith _ _ _)|].
  destruct (b =? 37); [done|]. destruct (b =? 42); [done|]. destruct (b =? 47); [done|].
  destruct (b =? 40). { rewrite skip_comment_upper. by destruct (skip_comment 1 n l) as [[]|]. }
  destruct (b =? 59); [by rewrite skip_to_newline_upper|].
  rewrite lex_word_upper. by destruct (lex_word b l).
Qed.

(** Case does not matter: a source and its upper-case form have the same
    tokens, and one panics exactly when the other does. *)
Theorem tokenize_case_insensitive source : tokenize (up source) = tokenize source.
Proof.
  unfold tokenize. rewrite length_map.
  generalize (length source) as fuel, 1 as line. intros fuel. revert source.
  induction fuel as [|fuel IH]; intros [|b l] line; try done.
  change (up (b :: l)) with (upper_byte b :: up l). cbn [lex_loop]. rewrite lex_step_upper.
  destruct (lex_step b l line) as [[[t r] n]|]; [|done]. cbn [mbind option_bind].
  by rewrite IH.
Qed.
End profile.

(** ** One command per line ([parser.rs]) *)

Inductive CommandKind := Motion | Spindle | Modal | ProgramControl | Unknown.

#[export] Instance CommandKind_eq_dec : EqDecision CommandKind.
Proof. solve_decision. Defined.

Record GCodeCommand := mkCommand {
  kind : CommandKind;
  g_code : option Z;
  m_code : option Z;
  cx : option Z; cy : option Z; cz : option Z;
  ci : option Z; cj : option Z; ck : option Z;
  cr : option Z; cf : option Z; cs : option Z; cp : option Z; ct : option Z;
  cmd_line : Z }.

Definition command_new (line : Z) : GCodeCommand :=
  mkCommand Unknown None None None None None None None None None None None None None line.

Definition is_one_of (l : list Z) (z : Z) : bool := existsb (Z.eqb z) l.
Definition some_of (l : list Z) (o : option Z) : bool :=
  match o with Some z => is_one_of l z | None => false end.

Definition classify_kind (g m : option Z) : CommandKind :=
  if some_of [0; 1; 2; 3] g then Motion
  else if some_of [3; 4; 5] m then Spindle
  else if some_of [17; 18; 19; 20; 21; 80; 90; 91] g then Modal
  else if some_of [2; 30] m then ProgramControl
  else Unknown.

Definition with_kind (c : GCodeCommand) (k : CommandKind) : GCodeCommand :=
  mkCommand k (g_code c) (m_code c) (cx c) (cy c) (cz c) (ci c) (cj c) (ck c) (cr c) (cf c)
    (cs c) (cp c) (ct c) (cmd_line c).
Definition classify (c : GCodeCommand) : GCodeCommand :=
  with_kind c (classify_kind (g_code c) (m_code c)).

(** The arm of the [match] for one token: the command and [has_content]. *)
Definition set_word (c : GCodeCommand) (t : Token) : GCodeCommand :=
  let '(mkCommand kd g m x y z i j k r f s p n line) := c in
  match t with
  | TkG v => mkCommand kd (Some v) m x y z i j k r f s p n line
  | TkM v => mkCommand kd g (Some v) x y z i j k r f s p n line
  | TkX v => mkCommand kd g m (Some v) y z i j k r f s p n line
  | TkY v => mkCommand kd g m x (Some v) z i j k r f s p n line
  | TkZ v => mkCommand kd g m x y (Some v) i j k r f s p n line
  | TkI v => mkCommand kd g m x y z (Some v) j k r f s p n line
  | TkJ v => mkCommand kd g m x y z i (Some v) k r f s p n line
  | TkK v => mkCommand kd g m x y z i j (Some v) r f s p n line
  | TkR v => mkCommand kd g m x y z i j k (Some v) f s p n line
  | TkF v => mkCommand kd g m x y z i j k r (Some v) s p n line
  | TkS v => mkCommand kd g m x y z i j k r f (Some v) p n line
  | TkP v => mkCommand kd g m x y z i j k r f s (Some v) n line
  | TkT v => mkCommand kd g m x y z i j k r f s p (Some v) line
  | TkLineNum _ | TkStar | TkSlash | TkPercent | TkEOL | TkEOF => c
  end.

Definition is_word (t : Token) : bool :=
  match t with
  | TkLineNum _ | TkStar | TkSlash | TkPercent | TkEOL | TkEOF => false
  | _ => true
  end.

(** [parse_line] has no error path; its [Result] is always [Ok]. *)
Definition parse_line (tokens : list LexedToken) : GCodeCommand :=
  match tokens with
  | [] => command_new 0
  | t0 :: _ =>
      let cmd := foldl (fun c t => set_word c (token t)) (command_new (tok_line t0)) tokens in
      if existsb (fun t => is_word (token t)) tokens then classify cmd
      else with_kind cmd Unknown
  end.

Definition is_line_end (t : Token) : bool :=
  match t with TkEOL | TkEOF => true | _ => false end.

(** [line] is the current line's tokens in reverse. *)
Fixpoint parse_lines (line : list LexedToken) (tokens : list LexedToken) : list GCodeCommand :=
  match tokens with
  | [] => []
  | tok :: tokens =>
      if is_line_end (token tok) then
        let line_tokens := rev line in
        let has_words := existsb (fun t => is_word (token t)) line_tokens in
        let rest := if bool_decide (token tok = TkEOF) then [] else parse_lines [] tokens in
        if has_words then parse_line line_tokens :: rest else rest
      else parse_lines (tok :: line) tokens
  end.
Definition parse_all (tokens : list LexedToken) : list GCodeCommand := parse_lines [] tokens.

(** ** What a line becomes *)

(** The value of the last token [sel] accepts. *)
Definition last_of (sel : Token → option Z) (toks : list Token) : option Z :=
  foldl (fun acc t => match sel t with Some v => Some v | None => acc end) None toks.

Lemma foldl_set_word (proj : GCodeCommand → option Z) (sel : Token → option Z) toks c :
  (∀ c t, proj (set_word c t) = match sel t with Some v => Some v | None => proj c end) →
  proj (foldl (fun c t => set_word c (token t)) c toks) =
  foldl (fun acc t => match sel t with Some v => Some v | None => acc end) (proj c)
    (map token toks).
Proof.
  intros Hsel. revert c. induction toks as [|t toks IH]; intros c; [done|]. cbn.
  by rewrite IH, Hsel.
Qed.

Lemma foldl_set_line toks c :
  cmd_line (foldl (fun c t => set_word c (token t)) c toks) = cmd_line c ∧
  kind (foldl (fun c t => set_word c (token t)) c toks) = kind c.
Proof.
  revert c. induction toks as [|t toks IH]; intros c; [done|]. cbn.
  destruct (IH (set_word c (token t))) as [-> ->]. by destruct c, (token t).
Qed.

Definition sel_g t := match t with TkG v => Some v | _ => None end.
Definition sel_m t := match t with TkM v => Some v | _ => None end.
Definition sel_x t := match t with TkX v => Some v | _ => None end.
Definition sel_y t := match t with TkY v => Some v | _ => None end.
Definition sel_z t := match t with TkZ v => Some v | _ => None end.
Definition sel_f t := match t with TkF v => Some v | _ => None end.
Definition sel_s t := match t with TkS v => Some v | _ => None end.

(** On a line every letter counts once and the last one wins: the G code,
    M code, coordinates, feed rate and speed of the parsed command are those of
    the last word of that letter on the line, absent when there is none; its
    line is the first token's and its kind follows from the G and M codes alone.
    An earlier G code on the same line is lost (in [G91 G0 X5] the [G91]). *)
Theorem gcode_last_word_wins t0 toks :
  let line := t0 :: toks in
  let cmd := parse_line line in
  let words := map token line in
  g_code cmd = last_of sel_g words ∧ m_code cmd = last_of sel_m words ∧
  cx cmd = last_of sel_x words ∧ cy cmd = last_of sel_y words ∧ cz cmd = last_of sel_z words ∧
  cf cmd = last_of sel_f words ∧ cs cmd = last_of sel_s words ∧
  cmd_line cmd = tok_line t0 ∧
  kind cmd = if existsb is_word words then classify_kind (g_code cmd) (m_code cmd) else Unknown.
Proof.
  cbv zeta. unfold parse_line.
  set (cmd := foldl _ (command_new (tok_line t0)) (t0 :: toks)).
  assert (Hp : ∀ proj sel, proj (command_new (tok_line t0)) = None →
    (∀ c t, proj (set_word c t) = match sel t with Some v => Some v | None => proj c end) →
    proj cmd = last_of sel (map token (t0 :: toks))).
  { intros proj sel Hn Hs. unfold cmd, last_of. rewrite (foldl_set_word proj sel) by done.
    by rewrite Hn. }
  assert (He : existsb is_word (map token (t0 :: toks)) =
               existsb (fun t => is_word (token t)) (t0 :: toks)).
  { generalize (t0 :: toks). intros l. induction l as [|t l IH]; [done|]. cbn. by rewrite IH. }
  rewrite He. pose proof (foldl_set_line (t0 :: toks) (command_new (tok_line t0))) as [Hl _].
  fold cmd in Hl.
  destruct (existsb _ (t0 :: toks)); unfold classify, with_kind; cbn [g_code m_code cx cy cz cf cs
    cmd_line kind]; (split_and!; [apply (Hp g_code) | apply (Hp m_code) | apply (Hp cx) |
    apply (Hp cy) | apply (Hp cz) | apply (Hp cf) | apply (Hp cs) | exact Hl | done]); try done;
    intros c t; by destruct c, t.
Qed.
