(* ===== verification/GcodeText.v ===== *)
(** * G-code: reading back a written program

    A program of integer-valued words, one line per command, printed in the
    usual notation, is tokenized and parsed to exactly those commands. *)
From S2P Require Import Prelude Float IntFloat GcodeParser.
Local Open Scope Z_scope.
Local Open Scope hal_scope.

(** ** The tokenizer without its fuel *)
Section profile.
Context `{BuildProfile}.

Lemma skip_comment_length l d n r n' :
  skip_comment d n l = Some (r, n') → (length r ≤ length l)%nat.
Proof.
  revert d n. induction l as [|b l IH]; intros d n; cbn; [by intros [= <- <-]|].
  destruct (d =? 0); [intros [= <- <-]; done|].
  destruct (b =? 40); [destruct (arith _ _ _); [intros ?%IH; lia | done]|].
  destruct (b =? 41); [intros ?%IH; lia|].
  destruct (b =? 10); [destruct (arith _ _ _); [intros ?%IH; lia | done]|].
  intros ?%IH. lia.
Qed.

Lemma lex_step_length b l n t r n' :
  lex_step b l n = Some (t, r, n') → (length r ≤ length l)%nat.
Proof.
  unfold lex_step. intros Hs.
  repeat (case_match_in Hs; simplify_eq; try done).
  - destruct (arith _ _ _); [|done]. cbn in Hs. by simplify_eq.
  - destruct (skip_comment 1 n l) as [[r' n'']|] eqn:Esk; [|done]. cbn in Hs. simplify_eq.
    by eapply skip_comment_length.
  - apply eats_length, skip_to_newline_eats.
  - pose proof (lex_word_eats b l) as Hw.
    match goal with E : lex_word b l = _ |- _ => rewrite E in Hw end. by apply eats_length.
Qed.

Lemma lex_loop_fuel f1 f2 l n :
  (length l ≤ f1)%nat → (length l ≤ f2)%nat → lex_loop f1 l n = lex_loop f2 l n.
Proof.
  revert f2 l n. induction f1 as [|f1 IH]; intros f2 [|b l] n H1 H2;
    [by destruct f2 | cbn in H1; lia | by destruct f2 |].
  destruct f2 as [|f2]; [cbn in H2; lia|]. cbn in H1, H2. cbn [lex_loop].
  destruct (lex_step b l n) as [[[t r] n']|] eqn:E; [|done]. apply lex_step_length in E.
  cbn [mbind option_bind]. by rewrite (IH f2) by lia.
Qed.

Definition lex_from (l : list Z) (n : Z) : option (list LexedToken) := lex_loop (length l) l n.

Lemma lex_from_cons b l n :
  lex_from (b :: l) n =
  '(t, r, n') ← lex_step b l n; more ← lex_from r n'; Some (t ++ more).
Proof.
  unfold lex_from. cbn [length lex_loop].
  destruct (lex_step b l n) as [[[t r] n']|] eqn:E; [|done]. apply lex_step_length in E.
  cbn [mbind option_bind]. by rewrite (lex_loop_fuel (length l) (length r)) by lia.
Qed.
End profile.

(** ** Printing *)
Inductive int_letter := LN | LG | LM | LT.
Inductive coord_letter := LX | LY | LZ | LI | LJ | LK | LR | LF | LS | LP.

Inductive Word :=
  | IntWord (k : int_letter) (n : Z)
  | CoordWord (k : coord_letter) (v : Z).

Definition int_code (k : int_letter) : Z :=
  match k with LN => 78 | LG => 71 | LM => 77 | LT => 84 end.
Definition coord_code (k : coord_letter) : Z :=
  match k with
  | LX => 88 | LY => 89 | LZ => 90 | LI => 73 | LJ => 74 | LK => 75 | LR => 82 | LF => 70
  | LS => 83 | LP => 80
  end.

Definition int_token (k : int_letter) : Z → Token :=
  match k with LN => TkLineNum | LG => TkG | LM => TkM | LT => TkT end.
Definition coord_token (k : coord_letter) : Z → Token :=
  match k with
  | LX => TkX | LY => TkY | LZ => TkZ | LI => TkI | LJ => TkJ | LK => TkK | LR => TkR | LF => TkF
  | LS => TkS | LP => TkP
  end.

(** The binary64 number of an integer. *)
Definition f64_of_int (v : Z) : Z := if v <? 0 then f64_neg (f64_of_Z (- v)) else f64_of_Z v.

Definition word_token (w : Word) : Token :=
  match w with
  | IntWord k n => int_token k n
  | CoordWord k v => coord_token k (f64_of_int v)
  end.

Fixpoint decimal_aux (fuel : nat) (n : Z) : list Z :=
  match fuel with
  | O => []
  | S fuel => if n <? 10 then [48 + n] else decimal_aux fuel (n / 10) ++ [48 + n mod 10]
  end.
(** Twenty digits are enough for a 64-bit integer. *)
Definition decimal (n : Z) : list Z := decimal_aux 20 n.

Definition print_word (w : Word) : list Z :=
  match w with
  | IntWord k n => int_code k :: decimal n
  | CoordWord k v => coord_code k :: (if v <? 0 then 45 :: decimal (- v) else decimal v)
  end ++ [32].

Definition print_line (ws : list Word) : list Z := concat (map print_word ws) ++ [10].
Definition print_program (ls : list (list Word)) : list Z := concat (map print_line ls).

Definition word_ok (w : Word) : bool :=
  match w with
  | IntWord _ n => in_u 32 n
  | CoordWord _ v => (- 2 ^ 53 <? v) && (v <? 2 ^ 53)
  end.

(** ** Numbers are read back *)
Lemma div10_bound n p : 0 ≤ n < 10 * p → 0 ≤ n / 10 < p.
Proof. intros Hn. split; [apply Z.div_pos; lia | apply Z.div_lt_upper_bound; lia]. Qed.

Lemma decimal_aux_spec fuel n :
  0 ≤ n < 10 ^ Z.of_nat fuel → (0 < fuel)%nat →
  Forall (fun b => is_ascii_digit b = true) (decimal_aux fuel n) ∧ decimal_aux fuel n ≠ [].
Proof.
  revert n. induction fuel as [|fuel IH]; intros n Hn Hf; [lia|]. cbn [decimal_aux].
  assert (Hd : ∀ d, 0 ≤ d < 10 → is_ascii_digit (48 + d) = true).
  { intros d Hd. unfold is_ascii_digit, between. apply andb_true_iff.
    rewrite !Z.leb_le. lia. }
  rewrite Nat2Z.inj_succ, Z.pow_succ_r in Hn by lia.
  destruct (Z.ltb_spec n 10).
  - split; [|done]. repeat constructor. apply Hd. lia.
  - split; [|by destruct (decimal_aux fuel (n / 10))].
    apply Forall_app. split.
    + assert (0 ≤ n / 10 < 10 ^ Z.of_nat fuel) by (by apply div10_bound).
      destruct fuel as [|fuel]; [cbn in Hn; lia|]. apply IH; [done | lia].
    + repeat constructor. apply Hd, Z.mod_pos_bound. lia.
Qed.

(** A fold that appends digits computes the number. *)
Lemma decimal_aux_fold {A} (step : A → Z → A) (val : Z → A) bound fuel n a0 :
  (∀ d, 0 ≤ d < 10 → d < bound → step a0 (48 + d) = val d) →
  (∀ m d, 0 < m → 0 ≤ d < 10 → m * 10 + d < bound → step (val m) (48 + d) = val (m * 10 + d)) →
  0 ≤ n < 10 ^ Z.of_nat fuel → n < bound → (0 < fuel)%nat →
  foldl step a0 (decimal_aux fuel n) = val n.
Proof.
  intros H0 Hs. revert n. induction fuel as [|fuel IH]; intros n Hn Hb Hf; [lia|].
  cbn [decimal_aux]. rewrite Nat2Z.inj_succ, Z.pow_succ_r in Hn by lia.
  destruct (Z.ltb_spec n 10); [cbn; apply H0; lia|].
  rewrite foldl_app. cbn [foldl]. assert (0 ≤ n / 10 < 10 ^ Z.of_nat fuel) by (by apply div10_bound).
  destruct fuel as [|fuel]; [cbn in Hn; lia|].
  pose proof (Z.mod_pos_bound n 10 ltac:(lia)). pose proof (Z.div_mod n 10 ltac:(lia)).
  rewrite IH by (done || lia). rewrite Hs; [f_equal; lia | | done | lia].
  assert (n / 10 ≠ 0) by lia. lia.
Qed.

Definition u32_step (v b : Z) : Z := saturating_u32 (saturating_u32 (v * 10) + (b - 48)).
Definition f64_step (v b : Z) : Z :=
  f64_add (f64_mul v (f64_of_Z 10)) (f64_of_Z (b - 48)).

Definition starts_plain (l : list Z) : Prop :=
  match l with b :: _ => is_ascii_digit b = false ∧ b ≠ 46 | [] => True end.

Lemma u32_digits_app l rest v h :
  Forall (fun b => is_ascii_digit b = true) l → starts_plain rest →
  u32_digits v h (l ++ rest) = (foldl u32_step v l, h || negb (bool_decide (l = [])), rest).
Proof.
  intros Hl Hr. revert v h. induction Hl as [|b l Hb _ IH]; intros v h; cbn.
  - rewrite orb_false_r. destruct rest as [|b rest]; [done|]. cbn. by destruct Hr as [-> _].
  - rewrite Hb, IH, orb_true_r. done.
Qed.

Lemma f64_int_digits_app l rest v h :
  Forall (fun b => is_ascii_digit b = true) l → starts_plain rest →
  f64_int_digits v h (l ++ rest) = (foldl f64_step v l, h || negb (bool_decide (l = [])), rest).
Proof.
  intros Hl Hr. revert v h. induction Hl as [|b l Hb _ IH]; intros v h;
    cbn -[f64_add f64_mul f64_of_Z].
  - rewrite orb_false_r. destruct rest as [|b rest]; [done|]. cbn. by destruct Hr as [-> _].
  - rewrite Hb, IH, orb_true_r. done.
Qed.

Lemma pow10_20 : 2 ^ 53 < 10 ^ Z.of_nat 20.
Proof. done. Qed.

Lemma parse_u32_decimal n rest :
  in_u 32 n = true → starts_plain rest → parse_u32 (decimal n ++ rest) = (n, rest).
Proof.
  intros Hn%in_u_spec Hr. unfold parse_u32, decimal. pose proof pow10_20.
  destruct (decimal_aux_spec 20 n) as [Hd Hne]; [lia..|].
  rewrite u32_digits_app by done. rewrite (bool_decide_eq_false_2 _ Hne). cbn [negb orb].
  rewrite (decimal_aux_fold u32_step id (2 ^ 32)) by
    first [ lia | intros; unfold u32_step, saturating_u32, id; lia ].
  destruct rest as [|b rest]; [done|]. destruct Hr as [_ Hb].
  by rewrite (proj2 (Z.eqb_neq _ _) Hb).
Qed.

Lemma decimal_f64 n : 0 ≤ n < 2 ^ 53 → foldl f64_step f64_zero (decimal n) = f64_of_Z n.
Proof.
  intros Hn. pose proof pow10_20. unfold decimal.
  apply (decimal_aux_fold f64_step f64_of_Z (2 ^ 53)); [..|lia|lia|lia].
  - intros d Hd _. unfold f64_step. change f64_zero with (f64_of_Z 0).
    rewrite f64_mul_int by lia. replace (48 + d - 48) with d by lia.
    by rewrite f64_add_int by lia.
  - intros m d Hm Hd Hb. unfold f64_step. rewrite f64_mul_int by lia.
    replace (48 + d - 48) with d by lia. by rewrite f64_add_int by lia.
Qed.

Lemma parse_f64_unsigned n rest :
  0 ≤ n < 2 ^ 53 → starts_plain rest →
  f64_int_digits f64_zero false (decimal n ++ rest) = (f64_of_Z n, true, rest).
Proof.
  intros Hn Hr. pose proof pow10_20.
  destruct (decimal_aux_spec 20 n) as [Hd Hne]; [lia..|]. fold (decimal n) in *.
  rewrite f64_int_digits_app, decimal_f64 by done. by rewrite (bool_decide_eq_false_2 _ Hne).
Qed.

(** What follows a number's integer part when no fraction does. *)
Lemma parse_f64_tail (neg : bool) n rest :
  0 ≤ n < 2 ^ 53 → starts_plain rest →
  (let '(ip, h, bytes) := f64_int_digits f64_zero false (decimal n ++ rest) in
   let '(fp, h, bytes) :=
     match bytes with
     | b :: rest => if b =? 46 then f64_frac_digits f64_zero (f64_of_Z 10) h rest
                    else (f64_zero, h, bytes)
     | [] => (f64_zero, h, [])
     end in
   if h then let val := f64_add ip fp in (if neg then f64_neg val else val, bytes)
   else (f64_zero, bytes)) = (if neg then f64_neg (f64_of_Z n) else f64_of_Z n, rest).
Proof.
  intros Hn Hr. rewrite parse_f64_unsigned by done.
  assert (f64_add (f64_of_Z n) f64_zero = f64_of_Z n) as Ha.
  { change f64_zero with (f64_of_Z 0). rewrite f64_add_int by lia. f_equal. lia. }
  destruct rest as [|b rest]; [by rewrite Ha|]. destruct Hr as [_ Hb].
  by rewrite (proj2 (Z.eqb_neq _ _) Hb), Ha.
Qed.

Lemma parse_f64_printed v rest :
  - 2 ^ 53 < v < 2 ^ 53 → starts_plain rest →
  parse_f64 ((if v <? 0 then 45 :: decimal (- v) else decimal v) ++ rest) = (f64_of_int v, rest).
Proof.
  intros Hv Hr. unfold parse_f64, f64_of_int. destruct (Z.ltb_spec v 0).
  - cbn [app Z.eqb Pos.eqb]. apply (parse_f64_tail true (- v) rest); [lia | done].
  - pose proof pow10_20. destruct (decimal_aux_spec 20 v) as [Hd Hne]; [lia..|].
    fold (decimal v) in *. pose proof (parse_f64_tail false v rest) as Ht.
    destruct (decimal v) as [|b l]; [by destruct Hne|]. clear Hne.
    inversion Hd as [|? ? Hb _]; subst. cbn [app] in *.
    assert (48 ≤ b) by (unfold is_ascii_digit, between in Hb; breflect; lia).
    rewrite !(proj2 (Z.eqb_neq b _)) by lia. apply Ht; [lia | done].
Qed.

(** ** Words, lines and programs are read back *)
Section profile.
Context `{BuildProfile}.

Lemma plain_space rest : starts_plain (32 :: rest).
Proof. done. Qed.

Lemma lex_word_int k n rest :
  in_u 32 n = true →
  lex_word (int_code k) (decimal n ++ 32 :: rest) = (Some (int_token k n), 32 :: rest).
Proof.
  intros Hn. pose proof (parse_u32_decimal n (32 :: rest) Hn (plain_space rest)) as Hp.
  revert Hp. generalize (decimal n ++ 32 :: rest). intros l Hp.
  destruct k; unfold lex_word; cbn [int_code letter]; by rewrite Hp.
Qed.

Lemma lex_word_coord k v rest :
  - 2 ^ 53 < v < 2 ^ 53 →
  lex_word (coord_code k) ((if v <? 0 then 45 :: decimal (- v) else decimal v) ++ 32 :: rest) =
  (Some (coord_token k (f64_of_int v)), 32 :: rest).
Proof.
  intros Hv. pose proof (parse_f64_printed v (32 :: rest) Hv (plain_space rest)) as Hp.
  revert Hp. generalize ((if v <? 0 then 45 :: decimal (- v) else decimal v) ++ 32 :: rest).
  intros l Hp. destruct k; unfold lex_word; cbn [coord_code letter]; by rewrite Hp.
Qed.

(** The letters are none of the other characters [lex_step] knows. *)
Lemma lex_step_word b l line :
  65 ≤ b →
  lex_step b l line =
  let '(tok, rest) := lex_word b l in
  Some (match tok with Some t => [mkLexed t line] | None => [] end, rest, line).
Proof.
  intros Hb. unfold lex_step. by rewrite !(proj2 (Z.eqb_neq b _)) by lia.
Qed.

Lemma lex_from_space rest line : lex_from (32 :: rest) line = lex_from rest line.
Proof.
  rewrite lex_from_cons. cbn [lex_step Z.eqb Pos.eqb orb mbind option_bind].
  change (lex_step 32 rest line) with (Some (@nil LexedToken, rest, line)).
  cbn [mbind option_bind]. by destruct (lex_from rest line).
Qed.

Lemma lex_print_word w rest line :
  word_ok w = true →
  lex_from (print_word w ++ rest) line =
  more ← lex_from rest line; Some (mkLexed (word_token w) line :: more).
Proof.
  intros Hw. destruct w as [k n|k v]; unfold print_word; rewrite <- (assoc_L (++));
    cbn [app]; rewrite lex_from_cons.
  - rewrite lex_step_word by (destruct k; done).
    rewrite lex_word_int by done. cbn [mbind option_bind]. by rewrite lex_from_space.
  - cbn [word_ok] in Hw. breflect.
    rewrite lex_step_word by (destruct k; done).
    rewrite lex_word_coord by lia. cbn [mbind option_bind]. by rewrite lex_from_space.
Qed.

Lemma lex_print_words ws rest line :
  forallb word_ok ws = true →
  lex_from (concat (map print_word ws) ++ rest) line =
  more ← lex_from rest line; Some (map (fun w => mkLexed (word_token w) line) ws ++ more).
Proof.
  induction ws as [|w ws IH]; intros Hw; cbn [map concat app].
  - by destruct (lex_from rest line).
  - cbn [forallb] in Hw. apply andb_true_iff in Hw as [Hw Hws].
    rewrite <- (assoc_L (++)), lex_print_word, IH by done.
    by destruct (lex_from rest line).
Qed.

Lemma lex_newline rest line :
  in_u 32 (line + 1) = true →
  lex_from (10 :: rest) line = more ← lex_from rest (line + 1); Some (mkLexed TkEOL line :: more).
Proof.
  intros Hl. rewrite lex_from_cons. unfold lex_step. cbn [Z.eqb Pos.eqb orb].
  by rewrite arith_exact by done.
Qed.

(** The tokens of a program whose first line has number [line]. *)
Fixpoint program_tokens (line : Z) (ls : list (list Word)) : list LexedToken :=
  match ls with
  | [] => [mkLexed TkEOF line]
  | ws :: ls =>
      map (fun w => mkLexed (word_token w) line) ws ++ mkLexed TkEOL line ::
      program_tokens (line + 1) ls
  end.

Lemma lex_print_program ls line :
  forallb (forallb word_ok) ls = true → 0 ≤ line → line + Z.of_nat (length ls) < 2 ^ 32 →
  lex_from (print_program ls) line = Some (program_tokens line ls).
Proof.
  revert line. induction ls as [|ws ls IH]; intros line Hw H0 Hl; [done|].
  cbn [forallb] in Hw. apply andb_true_iff in Hw as [Hws Hls]. cbn [length] in Hl.
  unfold print_program. cbn [map concat]. unfold print_line at 1. rewrite <- (assoc_L (++)).
  rewrite lex_print_words by done. cbn [app]. rewrite lex_newline by (apply in_u_spec; lia).
  fold (print_program ls). rewrite IH by (done || lia). done.
Qed.
End profile.

(** ** Commands *)
Definition has_word (ws : list Word) : bool := existsb (fun w => is_word (word_token w)) ws.

(** The command of one line: every word sets its field, then the line is
    classified. *)
Definition line_command (line : Z) (ws : list Word) : GCodeCommand :=
  classify (foldl (fun c w => set_word c (word_token w)) (command_new line) ws).

Fixpoint program_commands (line : Z) (ls : list (list Word)) : list GCodeCommand :=
  match ls with
  | [] => []
  | ws :: ls =>
      (if has_word ws then [line_command line ws] else []) ++ program_commands (line + 1) ls
  end.

Lemma word_not_end w : is_line_end (word_token w) = false.
Proof. destruct w as [[]|[]]; done. Qed.

Lemma parse_lines_words acc ws line rest :
  parse_lines acc (map (fun w => mkLexed (word_token w) line) ws ++ rest) =
  parse_lines (rev (map (fun w => mkLexed (word_token w) line) ws) ++ acc) rest.
Proof.
  revert acc. induction ws as [|w ws IH]; intros acc; [done|].
  cbn [map app parse_lines token]. rewrite word_not_end, IH. cbn [rev].
  by rewrite <- (assoc_L (++)).
Qed.

Lemma parse_line_words line ws :
  has_word ws = true →
  parse_line (map (fun w => mkLexed (word_token w) line) ws) = line_command line ws.
Proof.
  intros Hw. unfold parse_line. destruct ws as [|w ws]; [done|].
  set (l := w :: ws) in *. change (map _ l) with
    (mkLexed (word_token w) line :: map (fun w => mkLexed (word_token w) line) ws) at 1.
  cbv iota. cbn [tok_line].
  assert (∀ l, existsb (fun t => is_word (token t))
            (map (fun w => mkLexed (word_token w) line) l) = has_word l) as ->.
  { clear. intros l. induction l as [|w l IH]; [done|]. cbn. by rewrite IH. }
  rewrite Hw. unfold line_command. f_equal. generalize (command_new line). clearbody l. clear.
  induction l as [|w l IH]; intros c; [done|]. cbn. apply IH.
Qed.

Lemma parse_program_tokens ls line :
  parse_lines [] (program_tokens line ls) = program_commands line ls.
Proof.
  revert line. induction ls as [|ws ls IH]; intros line; [done|].
  cbn [program_tokens program_commands]. rewrite parse_lines_words. cbn [parse_lines token is_line_end].
  rewrite app_nil_r, rev_involutive, bool_decide_eq_false_2, IH by done.
  assert (existsb (fun t => is_word (token t))
            (map (fun w => mkLexed (word_token w) line) ws) = has_word ws) as ->.
  { clear. induction ws as [|w l IH]; [done|]. cbn. by rewrite IH. }
  destruct (has_word ws) eqn:E; [|done]. by rewrite parse_line_words.
Qed.

(** G-code text round trip: a program of lines of words, with 32-bit
    integers and integer coordinates below [2 ^ 53] in magnitude, written in the
    usual notation, is tokenized without a panic and parsed to exactly one
    command per line that has a word, at its line number, each word setting the
    field of its letter; coordinates come back exactly, as binary64 numbers. *)
Theorem gcode_text_roundtrip `{BuildProfile} ls :
  forallb (forallb word_ok) ls = true → 1 + Z.of_nat (length ls) < 2 ^ 32 →
  ∃ toks, tokenize (print_program ls) = Some toks ∧ parse_all toks = program_commands 1 ls.
Proof.
  intros Hw Hl. exists (program_tokens 1 ls). split.
  - by apply (lex_print_program ls 1).
  - apply parse_program_tokens.
Qed.

Definition sample_gcode : list (list Word) :=
  [[IntWord LN 10; IntWord LG 0; CoordWord LX 10; CoordWord LY (-20)]; [IntWord LM 30]].

Lemma gcode_text_roundtrip_witness :
  ∃ toks, tokenize (H := debug_profile) (print_program sample_gcode) = Some toks ∧
    parse_all toks = program_commands 1 sample_gcode.
Proof.
  exact (gcode_text_roundtrip (H := debug_profile) sample_gcode eq_refl eq_refl).
Defined.
