(* ===== verification/CncMotion.v ===== *)
(** * Trapezoidal motion profiles ([audesys-cnc-motion/src/profile.rs])

    A profile is compiled to counted loops on the register machine.  Numbers
    are binary64 patterns; [None] is a panic ([u32] overflow in a checked
    build). *)
From S2P Require Import Prelude Float IntFloat HalTypes HalValue HalIr.
Local Open Scope Z_scope.
Local Open Scope hal_scope.

Definition REG_COUNTER : nat := 0.
Definition REG_POS_X : nat := 1.
Definition REG_POS_Y : nat := 2.
Definition REG_POS_Z : nat := 3.
Definition REG_ZERO : nat := 4.
Definition REG_ONE : nat := 5.
Definition REG_VEL : nat := 6.
Definition REG_VSTEP : nat := 7.
Definition REG_TSTEP : nat := 8.
Definition REG_RATIO : nat := 9.
Definition REG_AXIS_STEP : nat := 10.
Definition REG_DT : nat := 11.

Record TrapezoidalProfile := mkProfile {
  dx : Z; dy : Z; dz : Z;
  feedrate : Z;
  acceleration : Z;
  dt : Z;
  start_x : Z; start_y : Z; start_z : Z }.

Definition f64_one : Z := f64_of_Z 1.
(** [1e-9] *)
Definition f64_1e9 : Z := f64_lit 1 9.
Definition u32_as_f64 (n : Z) : Z := f64_of_Z n.
(** [instructions.len() as u32] *)
Definition len_u32 {A} (l : list A) : Z := wrap_u 32 (Z.of_nat (length l)).

Definition store_reg (signal : string) (reg : nat) : Instruction :=
  mkInst OpStore [SignalName signal; Register reg].

Definition distance (p : TrapezoidalProfile) : Z :=
  f64_sqrt (f64_add (f64_add (f64_mul (dx p) (dx p)) (f64_mul (dy p) (dy p)))
                    (f64_mul (dz p) (dz p))).

(** [delta.abs() > 1e-9] *)
Definition moves (delta : Z) : bool := f64_ltb f64_1e9 (f64_abs delta).

Definition emit_axis_step (ratio : Z) (pos_reg : nat) (signal : string) : list Instruction :=
  [load_imm REG_RATIO (VF64 ratio);
   arith_inst OpMul REG_TSTEP REG_RATIO REG_AXIS_STEP;
   arith_inst OpAdd pos_reg REG_AXIS_STEP pos_reg;
   store_reg signal pos_reg].

(** The X step, and the Y and Z steps of the axes that move. *)
Definition axis_steps (p : TrapezoidalProfile) : list Instruction :=
  emit_axis_step (f64_div (dx p) (distance p)) REG_POS_X "axis.0.pos" ++
  (if moves (dy p) then emit_axis_step (f64_div (dy p) (distance p)) REG_POS_Y "axis.1.pos"
   else []) ++
  (if moves (dz p) then emit_axis_step (f64_div (dz p) (distance p)) REG_POS_Z "axis.2.pos"
   else []).

Definition loop_control (loop_start : Z) : list Instruction :=
  [arith_inst OpSub REG_COUNTER REG_ONE REG_COUNTER;
   cmp_inst OpGt REG_COUNTER REG_ZERO;
   jump_if loop_start].

Definition emit_profile_phase (instructions : list Instruction) (p : TrapezoidalProfile)
    (phase_cycles v_target a : Z) (is_accel is_decel : bool) : list Instruction :=
  if phase_cycles =? 0 then instructions
  else
    let dv := f64_mul a (dt p) in
    let v_start := if is_accel then f64_zero else v_target in
    let instructions := instructions ++
      [load_imm REG_VSTEP (VF64 dv);
       load_imm REG_VEL (VF64 v_start);
       load_imm REG_COUNTER (VF64 (u32_as_f64 phase_cycles))] in
    let loop_start := len_u32 instructions in
    instructions ++
      [arith_inst OpMul REG_VEL REG_DT REG_TSTEP] ++
      axis_steps p ++
      (if is_accel then [arith_inst OpAdd REG_VEL REG_VSTEP REG_VEL]
       else if is_decel then [arith_inst OpSub REG_VEL REG_VSTEP REG_VEL] else []) ++
      loop_control loop_start.

(** The position registers of the axes that move. *)
Definition load_start_yz (p : TrapezoidalProfile) : list Instruction :=
  (if moves (dy p) then [load_imm REG_POS_Y (VF64 (start_y p))] else []) ++
  (if moves (dz p) then [load_imm REG_POS_Z (VF64 (start_z p))] else []).

Section profile.
Context `{HB : BuildProfile}.

Definition emit_triangular_motion (p : TrapezoidalProfile) (cycles_half : Z)
    (instructions : list Instruction) : option (list Instruction) :=
  let instructions := instructions ++ load_start_yz p in
  total ← arith false 32 (cycles_half * 2);
  let instructions := instructions ++
    [load_imm REG_COUNTER (VF64 (u32_as_f64 total));
     load_imm REG_RATIO (VF64 (u32_as_f64 cycles_half))] in
  let loop_start := len_u32 instructions in
  let instructions := instructions ++
    [arith_inst OpMul REG_VEL REG_DT REG_TSTEP] ++
    axis_steps p ++
    [cmp_inst OpGt REG_COUNTER REG_RATIO] in
  let jif_idx := length instructions in
  let instructions := instructions ++ [nop; arith_inst OpAdd REG_VEL REG_VSTEP REG_VEL] in
  let jump_idx := length instructions in
  let instructions := instructions ++ [nop] in
  let decel_start := len_u32 instructions in
  let instructions := instructions ++ [arith_inst OpSub REG_VEL REG_VSTEP REG_VEL] in
  after ← arith false 32 (decel_start + 1);
  let instructions := <[jump_idx := jump after]> (<[jif_idx := jump_if decel_start]> instructions) in
  Some (instructions ++ loop_control loop_start).

Definition emit_g1 (p : TrapezoidalProfile) (instructions : list Instruction)
  : option (list Instruction) :=
  let distance := distance p in
  if f64_ltb distance f64_1e9 then Some instructions
  else
    let feedrate := if f64_ltb f64_zero (feedrate p) then feedrate p else f64_of_Z 100 in
    let v_target := f64_div feedrate (f64_of_Z 60) in
    let a := acceleration p in
    let dt := dt p in
    let t_accel := f64_div v_target a in
    let cycles_accel := f64_to_u32 (f64_ceil (f64_div t_accel dt)) in
    let dist_accel := f64_mul (f64_mul (f64_mul (f64_lit 5 1) a) t_accel) t_accel in
    let dist_cruise := f64_sub distance (f64_mul (f64_of_Z 2) dist_accel) in
    if f64_ltb f64_zero dist_cruise then
      let cycles_cruise := f64_to_u32 (f64_ceil (f64_div (f64_div dist_cruise v_target) dt)) in
      let cycles_decel := cycles_accel in
      let instructions := instructions ++
        [load_imm REG_POS_X (VF64 (start_x p))] ++ load_start_yz p in
      let instructions := emit_profile_phase instructions p cycles_accel v_target a true false in
      let instructions := emit_profile_phase instructions p cycles_cruise v_target a false false in
      Some (emit_profile_phase instructions p cycles_decel v_target a false true)
    else
      let v_peak := f64_sqrt (f64_mul distance a) in
      let t_peak := f64_div v_peak a in
      let cycles_half := f64_to_u32 (f64_max (f64_ceil (f64_div t_peak dt)) f64_one) in
      let dv_adj := f64_div v_peak (u32_as_f64 cycles_half) in
      emit_triangular_motion p cycles_half
        (instructions ++
         [load_imm REG_VEL (VF64 f64_zero);
          load_imm REG_VSTEP (VF64 dv_adj);
          load_imm REG_POS_X (VF64 (start_x p))]).

Definition signal_binding (name signal : string) : SignalBinding :=
  {| hal_signal_name := signal; program_var := name; direction := Write; hal_pin_type := TF64 |}.

Definition generate_trapezoidal_program (p : TrapezoidalProfile) : option HalProgram :=
  instructions ← emit_g1 p
    [load_imm REG_DT (VF64 (dt p));
     load_imm REG_ZERO (VF64 f64_zero);
     load_imm REG_ONE (VF64 f64_one)];
  Some (mkProgram "trapezoidal_motion"
    [signal_binding "axis.0.pos" "axis.0.pos"; signal_binding "axis.1.pos" "axis.1.pos";
     signal_binding "axis.2.pos" "axis.2.pos"] [] instructions []).
End profile.
