(* ===== verification/MotionFacts.v ===== *)
(** * What a motion profile does on the machine

    The loops of a profile compute the kinematic recurrence of its phase and
    always end. *)
From S2P Require Import Prelude Float IntFloat HalTypes HalValue HalIr FunctionBlocks Vm.
From S2P Require Import Executor ExecutorFacts ExecutorControl StraightLine CncMotion.
Local Open Scope Z_scope.

(** ** Frames *)

(** [m'] has the registers of [m], but for those in [rs]. *)
Definition listed (rs : list nat) (j : nat) : bool := existsb (Nat.eqb j) rs.

Definition same_but (rs : list nat) (m m' : Vm) : Prop :=
  length (registers m') = length (registers m) ∧
  ∀ j, listed rs j = false → read_register m' j = read_register m j.

Lemma listed_sub rs rs' j :
  forallb (listed rs') rs = true → listed rs' j = false → listed rs j = false.
Proof.
  intros Hsub Hj. destruct (listed rs j) eqn:E; [|done].
  apply existsb_exists in E as (i & Hi & ->%Nat.eqb_eq).
  rewrite forallb_forall in Hsub. by rewrite (Hsub i Hi) in Hj.
Qed.

Lemma same_but_refl rs m : same_but rs m m.
Proof. done. Qed.
Lemma same_but_trans rs m1 m2 m3 : same_but rs m1 m2 → same_but rs m2 m3 → same_but rs m1 m3.
Proof. intros [L1 H1] [L2 H2]. split; [congruence|]. intros j Hj. by rewrite H2, H1. Qed.
Lemma same_but_weaken rs rs' m m' :
  same_but rs m m' → forallb (listed rs') rs = true → same_but rs' m m'.
Proof. intros [L Hs] Hsub. split; [done|]. intros j Hj. eapply Hs, listed_sub; eauto. Qed.
Lemma same_but_read rs m m' j v :
  same_but rs m m' → listed rs j = false → read_register m j = Some v →
  read_register m' j = Some v.
Proof. intros [_ Hs] Hj Hr. by rewrite Hs. Qed.

(** Read a register through a frame that does not name it. *)
Ltac through S := apply (same_but_read _ _ _ _ _ S); [reflexivity |].
Ltac keep_reg S := through S; auto.

Lemma read_write_signal m s v j : read_register (write_signal m s v) j = read_register m j.
Proof. done. Qed.
Lemma length_advance_set m i v :
  length (registers (advance_ip (set_reg m i v))) = length (registers m).
Proof. apply set_reg_length. Qed.

Lemma same_but_set m i v : same_but [i] m (advance_ip (set_reg m i v)).
Proof.
  split; [apply set_reg_length|]. intros j Hj. cbn [listed existsb] in Hj.
  rewrite orb_false_iff, Nat.eqb_neq in Hj. apply read_set_other. by destruct Hj.
Qed.

(** Read a register through updates. *)
Ltac read_regs :=
  rewrite ?read_advance, ?read_write_signal;
  repeat first [ rewrite read_set_same by (rewrite ?length_advance_set; first [done | cbv; lia])
               | rewrite read_set_other by first [done | congruence]
               | rewrite read_advance | rewrite read_write_signal ]; try done.

(** The same when only loads were executed. *)
Ltac read_sets :=
  repeat first [ rewrite read_advance
               | rewrite read_set_same; [reflexivity | rewrite ?length_advance_set; assumption | cbv; lia]
               | rewrite read_set_other by discriminate ].

Section profile.
Context `{HB : BuildProfile}.

Lemma exec_seq_cons m i code m1 :
  is_jump (opcode i) = false → execute_instruction m i = cont m1 →
  exec_seq m (i :: code) = exec_seq (advance_ip m1) code.
Proof. intros Hj He. cbn. by rewrite Hj, He. Qed.

Lemma exec_arith_f64 m op f a b d x y :
  (∀ ops, execute_instruction m (mkInst op ops) = exec_arith_binop m ops (hal_binop f.1 f.2)) →
  (d < REGISTER_COUNT)%nat →
  read_register m a = Some (VF64 x) → read_register m b = Some (VF64 y) →
  execute_instruction m (arith_inst op a b d) = cont (set_reg m d (VF64 (f.2 binary64 x y))).
Proof. intros Hop Hd Ha Hb. by eapply exec_binop_reg. Qed.

(** One axis: [pos += tstep * ratio], stored to its signal. *)
Lemma exec_axis_step m ratio pos sig ts x :
  length (registers m) = REGISTER_COUNT → (pos < REGISTER_COUNT)%nat →
  pos ≠ REG_RATIO → pos ≠ REG_AXIS_STEP →
  read_register m REG_TSTEP = Some (VF64 ts) → read_register m pos = Some (VF64 x) →
  ∃ m', exec_seq m (emit_axis_step ratio pos sig) = Some m' ∧
    same_but [REG_RATIO; REG_AXIS_STEP; pos] m m' ∧
    read_register m' pos = Some (VF64 (f64_add x (f64_mul ts ratio))) ∧
    read_register m' REG_RATIO = Some (VF64 ratio) ∧
    signals m' = <[sig := VF64 (f64_add x (f64_mul ts ratio))]> (signals m).
Proof.
  intros Hlen Hpos Hn1 Hn2 Hts Hx. unfold emit_axis_step.
  set (v := VF64 (float_mul binary64 ts ratio)).
  set (w := VF64 (float_add binary64 x (float_mul binary64 ts ratio))).
  assert (HR : (REG_RATIO < REGISTER_COUNT)%nat) by (cbv; lia).
  assert (HA : (REG_AXIS_STEP < REGISTER_COUNT)%nat) by (cbv; lia).
  erewrite exec_seq_cons; [|done|by apply exec_load_imm].
  erewrite exec_seq_cons; [|done|apply (exec_arith_f64 _ OpMul (int_mul, float_mul) _ _ _ ts ratio)];
    [|done..|by read_regs|by read_regs].
  erewrite exec_seq_cons; [|done|apply (exec_arith_f64 _ OpAdd (int_add, float_add) _ _ _ x
    (float_mul binary64 ts ratio))]; [|done..|by read_regs|by read_regs].
  erewrite exec_seq_cons; [|done|apply (exec_store_reg _ _ _ w); by read_regs].
  eexists. split; [done|]. split; [|split; [|split]]; [|by read_regs..|done].
  split; [cbn; by rewrite !length_insert|]. intros j Hj.
  cbn [listed existsb] in Hj. rewrite !orb_false_iff, !Nat.eqb_neq in Hj.
  destruct Hj as (? & ? & ? & _).
  by read_regs.
Qed.

#[local] Opaque f64_add f64_sub f64_mul f64_div f64_one f64_zero f64_of_Z.

(** ** The kinematic recurrence *)

(** Velocity and position, in binary64. *)
Record Kin := mkKin { k_vel : Z; k_x : Z; k_y : Z; k_z : Z }.

Definition ratio_x (P : TrapezoidalProfile) : Z := f64_div (dx P) (distance P).
Definition ratio_y (P : TrapezoidalProfile) : Z := f64_div (dy P) (distance P).
Definition ratio_z (P : TrapezoidalProfile) : Z := f64_div (dz P) (distance P).

(** One cycle: every axis that moves advances by its share of [vel * dt]. *)
Definition advance_axes (P : TrapezoidalProfile) (k : Kin) : Kin :=
  let ts := f64_mul (k_vel k) (dt P) in
  mkKin (k_vel k)
    (f64_add (k_x k) (f64_mul ts (ratio_x P)))
    (if moves (dy P) then f64_add (k_y k) (f64_mul ts (ratio_y P)) else k_y k)
    (if moves (dz P) then f64_add (k_z k) (f64_mul ts (ratio_z P)) else k_z k).

Definition with_vel (k : Kin) (v : Z) : Kin := mkKin v (k_x k) (k_y k) (k_z k).

(** The registers a loop body reads besides the loop counter. *)
Record kin_regs (P : TrapezoidalProfile) (dv : Z) (k : Kin) (m : Vm) : Prop := {
  kr_len : length (registers m) = REGISTER_COUNT;
  kr_dt : read_register m REG_DT = Some (VF64 (dt P));
  kr_zero : read_register m REG_ZERO = Some (VF64 f64_zero);
  kr_one : read_register m REG_ONE = Some (VF64 f64_one);
  kr_vstep : read_register m REG_VSTEP = Some (VF64 dv);
  kr_vel : read_register m REG_VEL = Some (VF64 (k_vel k));
  kr_x : read_register m REG_POS_X = Some (VF64 (k_x k));
  kr_y : moves (dy P) = true → read_register m REG_POS_Y = Some (VF64 (k_y k));
  kr_z : moves (dz P) = true → read_register m REG_POS_Z = Some (VF64 (k_z k)) }.

(** The positions are the values of the position signals. *)
Definition published (P : TrapezoidalProfile) (k : Kin) (m : Vm) : Prop :=
  signals m !! "axis.0.pos" = Some (VF64 (k_x k)) ∧
  (moves (dy P) = true → signals m !! "axis.1.pos" = Some (VF64 (k_y k))) ∧
  (moves (dz P) = true → signals m !! "axis.2.pos" = Some (VF64 (k_z k))).

(** The ratio register keeps the share of the last axis that moves. *)
Definition last_ratio (P : TrapezoidalProfile) : Z :=
  if moves (dz P) then ratio_z P else if moves (dy P) then ratio_y P else ratio_x P.

Definition axis_regs : list nat := [REG_RATIO; REG_AXIS_STEP; REG_POS_X; REG_POS_Y; REG_POS_Z].

(** A step of one axis, present only when the axis moves. *)
Lemma exec_optional_step m (b : bool) ratio pos sig ts x r0 :
  length (registers m) = REGISTER_COUNT → (pos < REGISTER_COUNT)%nat →
  pos ≠ REG_RATIO → pos ≠ REG_AXIS_STEP →
  read_register m REG_TSTEP = Some (VF64 ts) → read_register m REG_RATIO = Some (VF64 r0) →
  (b = true → read_register m pos = Some (VF64 x)) →
  let x' := f64_add x (f64_mul ts ratio) in
  ∃ m', exec_seq m (if b then emit_axis_step ratio pos sig else []) = Some m' ∧
    same_but [REG_RATIO; REG_AXIS_STEP; pos] m m' ∧
    (b = true → read_register m' pos = Some (VF64 x')) ∧
    read_register m' REG_RATIO = Some (VF64 (if b then ratio else r0)) ∧
    signals m' = if b then <[sig := VF64 x']> (signals m) else signals m.
Proof.
  intros Hlen Hpos Hn1 Hn2 Hts Hr Hx x'. destruct b; [|by exists m].
  destruct (exec_axis_step m ratio pos sig ts x) as (m' & He & Hs & Hp & Hra & Hsig); auto.
  by exists m'.
Qed.

Lemma lookup_published (by_ bz : bool) x y y0 z z0 (s : gmap string HalValue) :
  let s1 := <["axis.0.pos" := VF64 x]> s in
  let s2 := if by_ then <["axis.1.pos" := VF64 y]> s1 else s1 in
  let s3 := if bz then <["axis.2.pos" := VF64 z]> s2 else s2 in
  s3 !! "axis.0.pos" = Some (VF64 x) ∧
  (by_ = true → s3 !! "axis.1.pos" = Some (VF64 (if by_ then y else y0))) ∧
  (bz = true → s3 !! "axis.2.pos" = Some (VF64 (if bz then z else z0))).
Proof. cbv zeta. split_and!; intros; destruct by_, bz; try done; by simplify_map_eq. Qed.

Lemma exec_axis_steps P dv k m :
  kin_regs P dv k m → read_register m REG_TSTEP = Some (VF64 (f64_mul (k_vel k) (dt P))) →
  ∃ m', exec_seq m (axis_steps P) = Some m' ∧ same_but axis_regs m m' ∧
    kin_regs P dv (advance_axes P k) m' ∧ published P (advance_axes P k) m' ∧
    read_register m' REG_RATIO = Some (VF64 (last_ratio P)).
Proof.
  intros [] Hts. unfold axis_steps. rewrite exec_seq_app.
  destruct (exec_axis_step m (ratio_x P) REG_POS_X "axis.0.pos" (f64_mul (k_vel k) (dt P)) (k_x k))
    as (m1 & E1 & S1 & X1 & R1 & G1); [done|cbv; lia|done..|].
  unfold ratio_x in E1. rewrite E1. cbn [mbind option_bind]. rewrite exec_seq_app.
  destruct (exec_optional_step m1 (moves (dy P)) (ratio_y P) REG_POS_Y "axis.1.pos"
    (f64_mul (k_vel k) (dt P)) (k_y k) (ratio_x P)) as (m2 & E2 & S2 & Y2 & R2 & G2);
    [by destruct S1 as [-> _] | cbv; lia | done | done
    | keep_reg S1 | done | intros Hy; keep_reg S1 |].
  unfold ratio_y in E2. rewrite E2. cbn [mbind option_bind].
  assert (S12 : same_but [REG_RATIO; REG_AXIS_STEP; REG_POS_X; REG_POS_Y] m m2).
  { apply (same_but_trans _ m m1 m2); [apply (same_but_weaken _ _ _ _ S1)
      | apply (same_but_weaken _ _ _ _ S2)]; reflexivity. }
  destruct (exec_optional_step m2 (moves (dz P)) (ratio_z P) REG_POS_Z "axis.2.pos"
    (f64_mul (k_vel k) (dt P)) (k_z k) (if moves (dy P) then ratio_y P else ratio_x P))
    as (m3 & E3 & S3 & Z3 & R3 & G3);
    [by destruct S12 as [-> _] | cbv; lia | done | done
    | keep_reg S12 | done | intros Hz; keep_reg S12 |].
  assert (S13 : same_but axis_regs m m3).
  { apply (same_but_trans _ m m2 m3); [apply (same_but_weaken _ _ _ _ S12)
      | apply (same_but_weaken _ _ _ _ S3)]; reflexivity. }
  exists m3. split; [exact E3|]. split; [done|].
  split; [|split; [|exact R3]].
  - split; try (keep_reg S13).
    + by destruct S13 as [-> _].
    + through S3. through S2. exact X1.
    + intros Hy. cbn [advance_axes k_y]. rewrite Hy. through S3. exact (Y2 Hy).
    + intros Hz. cbn [advance_axes k_z]. rewrite Hz. by apply Z3.
  - unfold published, advance_axes. cbn [k_x k_y k_z]. rewrite G3, G2, G1. apply lookup_published.
Qed.

(** ** A counted loop *)
Definition vel_update (is_accel is_decel : bool) (dv v : Z) : Z :=
  if is_accel then f64_add v dv else if is_decel then f64_sub v dv else v.

(** One cycle of a phase. *)
Definition phase_step (P : TrapezoidalProfile) (dv : Z) (is_accel is_decel : bool) (k : Kin) : Kin :=
  with_vel (advance_axes P k) (vel_update is_accel is_decel dv (k_vel k)).

Definition vel_code (is_accel is_decel : bool) : list Instruction :=
  if is_accel then [arith_inst OpAdd REG_VEL REG_VSTEP REG_VEL]
  else if is_decel then [arith_inst OpSub REG_VEL REG_VSTEP REG_VEL] else [].

Definition count_code : list Instruction :=
  [arith_inst OpSub REG_COUNTER REG_ONE REG_COUNTER; cmp_inst OpGt REG_COUNTER REG_ZERO].

Lemma exec_tstep P dv k m :
  kin_regs P dv k m →
  exec_seq m [arith_inst OpMul REG_VEL REG_DT REG_TSTEP] =
  Some (advance_ip (set_reg m REG_TSTEP (VF64 (f64_mul (k_vel k) (dt P))))).
Proof.
  intros []. erewrite exec_seq_cons; [|done|
    apply (exec_arith_f64 m OpMul (int_mul, float_mul) _ _ _ (k_vel k) (dt P))];
    [done|done|cbv; lia|done|done].
Qed.

(** A write outside the registers of [kin_regs]. *)
Lemma kin_regs_same P dv k rs m m' :
  kin_regs P dv k m → same_but rs m m' →
  forallb (fun r => negb (listed rs r))
    [REG_DT; REG_ZERO; REG_ONE; REG_VSTEP; REG_VEL; REG_POS_X; REG_POS_Y; REG_POS_Z] = true →
  kin_regs P dv k m'.
Proof.
  intros [] S Hf. cbn [forallb] in Hf. rewrite !andb_true_iff, !negb_true_iff in Hf.
  destruct Hf as (? & ? & ? & ? & ? & ? & ? & ? & _).
  split; [by destruct S as [-> _]|..]; intros; eapply same_but_read; eauto.
Qed.

Lemma kin_regs_ext P dv k m m' :
  registers m' = registers m → kin_regs P dv k m → kin_regs P dv k m'.
Proof.
  intros E Hk. apply (kin_regs_same P dv k [] m); [exact Hk | | reflexivity].
  split; [by rewrite E|]. intros j _. unfold read_register. by rewrite E.
Qed.

Ltac same_regs K := refine (kin_regs_ext _ _ _ _ _ _ K); reflexivity.

Lemma kin_regs_vel P dv k m v :
  kin_regs P dv k m → kin_regs P dv (with_vel k v) (advance_ip (set_reg m REG_VEL (VF64 v))).
Proof.
  intros [L D Z O S V X Y W]. pose proof (same_but_set m REG_VEL (VF64 v)) as F.
  split; cbn [with_vel k_vel k_x k_y k_z]; intros.
  - by rewrite length_advance_set.
  - through F. exact D.
  - through F. exact Z.
  - through F. exact O.
  - through F. exact S.
  - by read_regs.
  - through F. exact X.
  - through F. auto.
  - through F. auto.
Qed.

Lemma exec_vel_code P dv k m a d :
  kin_regs P dv k m →
  ∃ m', exec_seq m (vel_code a d) = Some m' ∧
    kin_regs P dv (with_vel k (vel_update a d dv (k_vel k))) m' ∧
    signals m' = signals m ∧ read_register m' REG_COUNTER = read_register m REG_COUNTER.
Proof.
  intros Hk. pose proof Hk as []. unfold vel_code, vel_update.
  destruct a; [|destruct d].
  - erewrite exec_seq_cons; [|done|
      apply (exec_arith_f64 m OpAdd (int_add, float_add) _ _ _ (k_vel k) dv)];
      [|done|cbv; lia|done|done].
    eexists. split; [done|]. split; [by apply kin_regs_vel|]. split; [done|]. by read_regs.
  - erewrite exec_seq_cons; [|done|
      apply (exec_arith_f64 m OpSub (int_sub, float_sub) _ _ _ (k_vel k) dv)];
      [|done|cbv; lia|done|done].
    eexists. split; [done|]. split; [by apply kin_regs_vel|]. split; [done|]. by read_regs.
  - exists m. split; [done|]. split; [by destruct k|done].
Qed.

Lemma exec_count_code P dv k m n :
  kin_regs P dv k m → read_register m REG_COUNTER = Some (VF64 (f64_of_Z n)) → 1 ≤ n < 2 ^ 53 →
  ∃ m', exec_seq m count_code = Some m' ∧ kin_regs P dv k m' ∧ signals m' = signals m ∧
    read_register m' REG_COUNTER = Some (VF64 (f64_of_Z (n - 1))) ∧
    flags_zero m' = (0 <? n - 1).
Proof.
  intros Hk Hc Hn. pose proof Hk as []. unfold count_code.
  erewrite exec_seq_cons; [|done|
    apply (exec_arith_f64 m OpSub (int_sub, float_sub) _ _ _ (f64_of_Z n) f64_one)];
    [|done|cbv; lia|done|done].
  change ((int_sub, float_sub).2 binary64 (f64_of_Z n) f64_one) with (f64_sub (f64_of_Z n) (f64_of_Z 1)).
  rewrite f64_sub_int by lia.
  set (m1 := advance_ip _).
  assert (C1 : read_register m1 REG_COUNTER = Some (VF64 (f64_of_Z (n - 1)))) by (unfold m1; by read_regs).
  assert (Z1 : read_register m1 REG_ZERO = Some (VF64 f64_zero)) by (unfold m1; by read_regs).
  assert (K1 : kin_regs P dv k m1).
  { apply (kin_regs_same P dv k [REG_COUNTER] m); [done|apply same_but_set|done]. }
  assert (G1 : signals m1 = signals m) by done. clearbody m1.
  erewrite (exec_seq_cons m1 _ _ (set_flags_zero m1 (0 <? n - 1))); [|done|].
  2: { cbn -[read_register value_gt]. rewrite C1. cbn -[read_register value_gt]. rewrite Z1. 
       cbn -[value_gt]. unfold value_gt, hal_partial_cmp. change f64_zero with (f64_of_Z 0).
       rewrite f64_cmp_int by lia. unfold cont. do 3 f_equal.
       destruct (Z.compare_spec (n - 1) 0), (Z.ltb_spec 0 (n - 1)); lia || done. }
  eexists. split; [done|]. split_and!; [same_regs K1 | exact G1 | exact C1 | done].
Qed.

(** ** The loop *)
Definition data_code (code : list Instruction) : bool :=
  forallb (fun i => is_data_op (opcode i) || bool_decide (opcode i = OpStore)) code.

Lemma data_code_app c1 c2 : data_code (c1 ++ c2) = data_code c1 && data_code c2.
Proof. apply forallb_app. Qed.

Lemma data_axis_steps P : data_code (axis_steps P) = true.
Proof. unfold axis_steps. by destruct (moves (dy P)), (moves (dz P)). Qed.

Lemma step_jump_if m p d t :
  debug_mode d = false → instructions p !! ip m = Some (jump_if t) →
  continues 1 (mkExecutor m p d)
    (mkExecutor (if flags_zero m then set_ip m (Z.to_nat t) else advance_ip m) p d).
Proof.
  intros Hd Hi. econstructor; [|constructor].
  rewrite (step_no_debug (mkExecutor m p d) _ Hd Hi). unfold step_instruction.
  cbn. unfold exec_jump_if. rewrite Hd. by destruct (flags_zero m).
Qed.

Definition phase_body (P : TrapezoidalProfile) (a d : bool) : list Instruction :=
  [arith_inst OpMul REG_VEL REG_DT REG_TSTEP] ++ axis_steps P ++ vel_code a d.

Lemma exec_phase_cycle P dv k m a d n :
  kin_regs P dv k m → read_register m REG_COUNTER = Some (VF64 (f64_of_Z n)) → 1 ≤ n < 2 ^ 53 →
  ∃ m', exec_seq m (phase_body P a d ++ count_code) = Some m' ∧
    kin_regs P dv (phase_step P dv a d k) m' ∧ published P (phase_step P dv a d k) m' ∧
    read_register m' REG_COUNTER = Some (VF64 (f64_of_Z (n - 1))) ∧
    flags_zero m' = (0 <? n - 1).
Proof.
  intros Hk Hc Hn. unfold phase_body. rewrite <- !(assoc_L (++)), exec_seq_app.
  rewrite (exec_tstep P dv k m Hk). cbn [mbind option_bind].
  set (m1 := advance_ip _). pose proof (same_but_set m REG_TSTEP
    (VF64 (f64_mul (k_vel k) (dt P)))) as F1. fold m1 in F1.
  assert (K1 : kin_regs P dv k m1) by (eapply kin_regs_same; [exact Hk | exact F1 | done]).
  rewrite exec_seq_app.
  destruct (exec_axis_steps P dv k m1 K1) as (m2 & E2 & F2 & K2 & G2 & _).
  { unfold m1. destruct Hk. by read_regs. }
  rewrite E2. cbn [mbind option_bind]. rewrite exec_seq_app.
  destruct (exec_vel_code P dv _ m2 a d K2) as (m3 & E3 & K3 & G3 & C3).
  rewrite E3. cbn [mbind option_bind].
  destruct (exec_count_code P dv _ m3 n K3) as (m4 & E4 & K4 & G4 & C4 & Z4); [|done|].
  { rewrite C3. through F2. through F1. exact Hc. }
  exists m4. split_and!; [exact E4 | exact K4 | | exact C4 | exact Z4].
  unfold published. rewrite G4, G3. exact G2.
Qed.

Lemma phase_loop P dv a d p dbg start n m k :
  debug_mode dbg = false → ip m = start → Z.of_nat start < 2 ^ 32 →
  code_at p start (phase_body P a d ++ loop_control (Z.of_nat start)) →
  kin_regs P dv k m → (0 < n)%nat → Z.of_nat n < 2 ^ 53 →
  read_register m REG_COUNTER = Some (VF64 (f64_of_Z (Z.of_nat n))) →
  let len := (length (phase_body P a d) + 3)%nat in
  ∃ m', continues (n * len) (mkExecutor m p dbg) (mkExecutor m' p dbg) ∧
    ip m' = (start + len)%nat ∧
    kin_regs P dv (Nat.iter n (phase_step P dv a d) k) m' ∧
    published P (Nat.iter n (phase_step P dv a d) k) m'.
Proof.
  intros Hd Hip Hst Hcode. cbv zeta. set (len := (length (phase_body P a d) + 3)%nat).
  revert m k Hip. induction n as [|n IH]; intros m k Hip Hk Hpos Hn Hc; [lia|].
  destruct (exec_phase_cycle P dv k m a d (Z.of_nat (S n))) as (m1 & E1 & K1 & G1 & C1 & Z1);
    [done|done|lia|].
  assert (loop_control (Z.of_nat start) = count_code ++ [jump_if (Z.of_nat start)]) as Hlc by done.
  rewrite Hlc, (assoc_L (++)) in Hcode. pose proof Hcode as [Hc1 Hc2]%code_at_app.
  destruct (continues_seq (phase_body P a d ++ count_code) m p dbg m1) as [Hrun Hip1];
    [exact Hd | | rewrite Hip; exact Hc1 | exact E1 |].
  { rewrite forallb_app. apply andb_true_iff. split; [|done]. unfold phase_body.
    rewrite !forallb_app. fold (data_code (axis_steps P)). rewrite data_axis_steps.
    by destruct a, d. }
  clear E1. rewrite length_app in Hip1, Hrun, Hc2. cbn [length count_code] in Hip1, Hrun, Hc2.
  apply code_at_cons in Hc2 as [Hj _]. rewrite Hip in Hip1. rewrite <- Hip1 in Hj.
  pose proof (step_jump_if m1 p dbg (Z.of_nat start) Hd Hj) as Hjump. rewrite Z1 in Hjump.
  pose proof (continues_app _ _ _ _ _ Hrun Hjump) as Hone.
  replace (length (phase_body P a d) + 2 + 1)%nat with len in Hone by (unfold len; lia).
  destruct (decide (n = 0%nat)) as [->|Hn0].
  - change (0 <? Z.of_nat 1 - 1) with false in Hone. exists (advance_ip m1). split_and!; [|cbn [ip advance_ip set_ip]; unfold len; lia|same_regs K1|exact G1].
    by replace (1 * len)%nat with len by lia.
  - rewrite (proj2 (Z.ltb_lt _ _)) in Hone by lia. rewrite Nat2Z.id in Hone.
    destruct (IH (set_ip m1 start) (phase_step P dv a d k)) as (m' & Hrest & Hi' & Hk' & Hp');
      [done | same_regs K1 | lia | lia | |].
    { replace (Z.of_nat n) with (Z.of_nat (S n) - 1) by lia. exact C1. }
    rewrite <- Nat.iter_succ_r in Hk', Hp'.
    exists m'. split_and!; [|exact Hi'|exact Hk'|exact Hp']. exact (continues_app _ _ _ _ _ Hone Hrest).
Qed.

(** ** A phase *)

(** What a phase needs before its own three loads. *)
Record pos_regs (P : TrapezoidalProfile) (k : Kin) (m : Vm) : Prop := {
  pr_len : length (registers m) = REGISTER_COUNT;
  pr_dt : read_register m REG_DT = Some (VF64 (dt P));
  pr_zero : read_register m REG_ZERO = Some (VF64 f64_zero);
  pr_one : read_register m REG_ONE = Some (VF64 f64_one);
  pr_x : read_register m REG_POS_X = Some (VF64 (k_x k));
  pr_y : moves (dy P) = true → read_register m REG_POS_Y = Some (VF64 (k_y k));
  pr_z : moves (dz P) = true → read_register m REG_POS_Z = Some (VF64 (k_z k)) }.

Lemma kin_pos_regs P dv k m : kin_regs P dv k m → pos_regs P k m.
Proof. by intros []. Qed.

Lemma exec_load_seq m r v code :
  (r < REGISTER_COUNT)%nat →
  exec_seq m (load_imm r v :: code) = exec_seq (advance_ip (set_reg m r v)) code.
Proof. intros Hr. erewrite exec_seq_cons; [done|done|by apply exec_load_imm]. Qed.

Lemma same_but_loads m r1 v1 r2 v2 r3 v3 :
  same_but [r1; r2; r3] m
    (advance_ip (set_reg (advance_ip (set_reg (advance_ip (set_reg m r1 v1)) r2 v2)) r3 v3)).
Proof.
  eapply same_but_trans; [|eapply same_but_trans]; (eapply same_but_weaken; [apply same_but_set|]);
    unfold listed; cbn [forallb existsb]; by rewrite Nat.eqb_refl, ?orb_true_r.
Qed.

Definition phase_init (dv v n : Z) : list Instruction :=
  [load_imm REG_VSTEP (VF64 dv); load_imm REG_VEL (VF64 v); load_imm REG_COUNTER (VF64 (f64_of_Z n))].

Lemma exec_phase_init P k m dv v n :
  pos_regs P k m →
  ∃ m', exec_seq m (phase_init dv v n) = Some m' ∧ kin_regs P dv (with_vel k v) m' ∧
    read_register m' REG_COUNTER = Some (VF64 (f64_of_Z n)).
Proof.
  intros [L D Z O X Y W]. unfold phase_init.
  rewrite !exec_load_seq by (cbv; lia). eexists. split; [done|].
  pose proof (same_but_loads m REG_VSTEP (VF64 dv) REG_VEL (VF64 v) REG_COUNTER
    (VF64 (f64_of_Z n))) as F.
  split; [|by read_regs].
  split; cbn [with_vel k_vel k_x k_y k_z]; intros.
  - by rewrite !length_advance_set.
  - through F. exact D.
  - through F. exact Z.
  - through F. exact O.
  - by read_regs.
  - by read_regs.
  - through F. exact X.
  - through F. auto.
  - through F. auto.
Qed.

(** The recurrence a whole phase computes. *)
Definition phase_kin (P : TrapezoidalProfile) (n v acc : Z) (a d : bool) (k : Kin) : Kin :=
  if n =? 0 then k
  else Nat.iter (Z.to_nat n) (phase_step P (f64_mul acc (dt P)) a d)
         (with_vel k (if a then f64_zero else v)).

Lemma axis_steps_length P : (4 ≤ length (axis_steps P) ≤ 12)%nat.
Proof. unfold axis_steps. destruct (moves (dy P)), (moves (dz P)); cbn; lia. Qed.

Lemma emit_profile_phase_code l P n v acc a d :
  n ≠ 0 →
  emit_profile_phase l P n v acc a d =
  l ++ phase_init (f64_mul acc (dt P)) (if a then f64_zero else v) n ++
  phase_body P a d ++ loop_control (wrap_u 32 (Z.of_nat (length l + 3))).
Proof.
  intros Hn. unfold emit_profile_phase, len_u32, u32_as_f64. rewrite (proj2 (Z.eqb_neq _ _)) by done.
  unfold phase_init, phase_body, vel_code. rewrite length_app. cbn [length].
  by rewrite <- !(assoc_L (++)).
Qed.

Lemma emit_profile_phase_prefix l P n v acc a d :
  ∃ k, emit_profile_phase l P n v acc a d = l ++ k ∧ (length k ≤ 20)%nat.
Proof.
  destruct (decide (n = 0)) as [->|Hn].
  - exists []. rewrite app_nil_r. split; [done | cbn; lia].
  - rewrite emit_profile_phase_code by done. eexists. split; [done|].
    pose proof (axis_steps_length P).
    rewrite !length_app. unfold phase_body. rewrite !length_app.
    destruct a, d; cbn [length phase_init vel_code loop_control]; lia.
Qed.

Lemma run_phase P k m p dbg l n v acc a d :
  debug_mode dbg = false → ip m = length l → Z.of_nat (length l) + 3 < 2 ^ 32 →
  0 ≤ n < 2 ^ 32 → pos_regs P k m →
  code_at p 0 (emit_profile_phase l P n v acc a d) →
  ∃ steps m', continues steps (mkExecutor m p dbg) (mkExecutor m' p dbg) ∧
    ip m' = length (emit_profile_phase l P n v acc a d) ∧
    pos_regs P (phase_kin P n v acc a d k) m' ∧
    (n ≠ 0 → published P (phase_kin P n v acc a d k) m') ∧
    (n = 0 → m' = m).
Proof.
  intros Hd Hip Hl Hn Hk Hcode. unfold phase_kin. destruct (Z.eqb_spec n 0) as [->|Hn0].
  { exists 0%nat, m. split_and!; [constructor | exact Hip | exact Hk | done | done]. }
  rewrite emit_profile_phase_code in Hcode |- * by done.
  rewrite wrap_u_id in Hcode |- * by (apply in_u_spec; lia).
  apply code_at_app in Hcode as [_ Hcode]. cbn [Nat.add] in Hcode.
  apply code_at_app in Hcode as [Hinit Hloop].
  destruct (exec_phase_init P k m (f64_mul acc (dt P)) (if a then f64_zero else v) n Hk)
    as (m1 & E1 & K1 & C1).
  destruct (continues_seq _ m p dbg m1 Hd (eq_refl : data_code (phase_init _ _ _) = true)
    ltac:(rewrite Hip; exact Hinit) E1) as [Hrun1 Hip1].
  cbn [length phase_init] in Hip1, Hrun1, Hloop. rewrite Hip in Hip1.
  destruct (phase_loop P (f64_mul acc (dt P)) a d p dbg (length l + 3) (Z.to_nat n) m1
    (with_vel k (if a then f64_zero else v))) as (m2 & Hrun2 & Hip2 & K2 & G2);
    [exact Hd | exact Hip1 | lia | exact Hloop | exact K1 | lia | lia
    | rewrite Z2Nat.id by lia; exact C1 |].
  exists (3 + Z.to_nat n * (length (phase_body P a d) + 3))%nat, m2.
  split_and!; [exact (continues_app _ _ _ _ _ Hrun1 Hrun2) | | | intros _; exact G2 | done].
  - rewrite Hip2, !length_app. cbn [length phase_init loop_control]. lia.
  - by eapply kin_pos_regs.
Qed.

(** ** The whole profile *)
Definition target_velocity (P : TrapezoidalProfile) : Z :=
  f64_div (if f64_ltb f64_zero (feedrate P) then feedrate P else f64_of_Z 100) (f64_of_Z 60).
Definition accel_time (P : TrapezoidalProfile) : Z := f64_div (target_velocity P) (acceleration P).
Definition accel_cycles (P : TrapezoidalProfile) : Z :=
  f64_to_u32 (f64_ceil (f64_div (accel_time P) (dt P))).
Definition cruise_distance (P : TrapezoidalProfile) : Z :=
  f64_sub (distance P)
    (f64_mul (f64_of_Z 2)
       (f64_mul (f64_mul (f64_mul (f64_lit 5 1) (acceleration P)) (accel_time P)) (accel_time P))).
Definition cruise_cycles (P : TrapezoidalProfile) : Z :=
  f64_to_u32 (f64_ceil (f64_div (f64_div (cruise_distance P) (target_velocity P)) (dt P))).

Definition start_kin (P : TrapezoidalProfile) : Kin :=
  mkKin f64_zero (start_x P) (start_y P) (start_z P).

(** The recurrence of the three phases. *)
Definition trapezoid_kin (P : TrapezoidalProfile) : Kin :=
  let v := target_velocity P in
  let a := acceleration P in
  phase_kin P (accel_cycles P) v a false true
    (phase_kin P (cruise_cycles P) v a false false
       (phase_kin P (accel_cycles P) v a true false (start_kin P))).

Definition motion_prologue (P : TrapezoidalProfile) : list Instruction :=
  [load_imm REG_DT (VF64 (dt P)); load_imm REG_ZERO (VF64 f64_zero);
   load_imm REG_ONE (VF64 f64_one)].

Lemma exec_prologue P m :
  length (registers m) = REGISTER_COUNT →
  ∃ m', exec_seq m (motion_prologue P ++ [load_imm REG_POS_X (VF64 (start_x P))] ++ load_start_yz P)
        = Some m' ∧ pos_regs P (start_kin P) m'.
Proof.
  intros L. unfold motion_prologue, load_start_yz. cbn [app].
  destruct (moves (dy P)) eqn:Hy, (moves (dz P)) eqn:Hz; cbn [app];
    rewrite !exec_load_seq by (cbv; lia); (eexists; split; [reflexivity|]);
    (split; cbn [start_kin k_x k_y k_z]; rewrite ?Hy, ?Hz; intros Hx || idtac);
    first [ by rewrite !length_advance_set | discriminate Hx | by read_sets ].
Qed.

Lemma emit_g1_trapezoid P l :
  f64_ltb (distance P) f64_1e9 = false → f64_ltb f64_zero (cruise_distance P) = true →
  emit_g1 P l =
  let v := target_velocity P in
  let a := acceleration P in
  let l := l ++ [load_imm REG_POS_X (VF64 (start_x P))] ++ load_start_yz P in
  let l := emit_profile_phase l P (accel_cycles P) v a true false in
  let l := emit_profile_phase l P (cruise_cycles P) v a false false in
  Some (emit_profile_phase l P (accel_cycles P) v a false true).
Proof.
  intros Hd Hc. unfold emit_g1. rewrite Hd.
  change (f64_sub (distance P) _) with (cruise_distance P). by rewrite Hc.
Qed.

Lemma f64_to_u32_range z : 0 ≤ f64_to_u32 z < 2 ^ 32.
Proof. apply in_u_spec. apply (float_to_int_in binary64 false 32). done. Qed.

Lemma accel_cycles_range P : 0 ≤ accel_cycles P < 2 ^ 32.
Proof. apply f64_to_u32_range. Qed.
Lemma cruise_cycles_range P : 0 ≤ cruise_cycles P < 2 ^ 32.
Proof. apply f64_to_u32_range. Qed.

Lemma load_start_length P : (length (load_start_yz P) ≤ 2)%nat.
Proof. unfold load_start_yz. destruct (moves (dy P)), (moves (dz P)); cbn; lia. Qed.

Lemma data_load_start P : data_code (load_start_yz P) = true.
Proof. unfold load_start_yz. by destruct (moves (dy P)), (moves (dz P)). Qed.

Lemma code_at_prefix p l k : code_at p 0 (l ++ k) → code_at p 0 l.
Proof. intros Hc. by apply code_at_app in Hc as [? _]. Qed.

Lemma code_at_before_phase p l P n v acc a d :
  code_at p 0 (emit_profile_phase l P n v acc a d) → code_at p 0 l.
Proof.
  destruct (emit_profile_phase_prefix l P n v acc a d) as (x & -> & _). apply code_at_prefix.
Qed.

(** The three phases, run one after the other from a prefix [l]. *)
Lemma run_phases P k m p dbg l v a :
  debug_mode dbg = false → ip m = length l → (length l ≤ 100)%nat → pos_regs P k m →
  let l1 := emit_profile_phase l P (accel_cycles P) v a true false in
  let l2 := emit_profile_phase l1 P (cruise_cycles P) v a false false in
  let l3 := emit_profile_phase l2 P (accel_cycles P) v a false true in
  let k1 := phase_kin P (accel_cycles P) v a true false k in
  let k2 := phase_kin P (cruise_cycles P) v a false false k1 in
  let k3 := phase_kin P (accel_cycles P) v a false true k2 in
  code_at p 0 l3 →
  ∃ steps m', continues steps (mkExecutor m p dbg) (mkExecutor m' p dbg) ∧
    ip m' = length l3 ∧ pos_regs P k3 m' ∧ (accel_cycles P ≠ 0 → published P k3 m').
Proof.
  intros Hd Hip Hl Hk. cbv zeta. intros Hcode.
  pose proof (accel_cycles_range P) as Ha. pose proof (cruise_cycles_range P) as Hc.
  destruct (emit_profile_phase_prefix l P (accel_cycles P) v a true false) as (x1 & X1 & L1).
  set (l1 := emit_profile_phase l P (accel_cycles P) v a true false) in *.
  destruct (emit_profile_phase_prefix l1 P (cruise_cycles P) v a false false) as (x2 & X2 & L2).
  set (l2 := emit_profile_phase l1 P (cruise_cycles P) v a false false) in *.
  destruct (emit_profile_phase_prefix l2 P (accel_cycles P) v a false true) as (x3 & X3 & L3).
  assert (C2 : code_at p 0 l2) by (rewrite X3 in Hcode; by eapply code_at_prefix).
  assert (C1 : code_at p 0 l1) by (rewrite X2 in C2; by eapply code_at_prefix).
  assert (N1 : (length l1 ≤ 120)%nat) by (rewrite X1, length_app; lia).
  assert (N2 : (length l2 ≤ 140)%nat) by (rewrite X2, length_app; lia).
  destruct (run_phase P k m p dbg l (accel_cycles P) v a true false)
    as (s1 & m1 & R1 & I1 & K1 & _); [done|done|lia|done|done|done|].
  set (k1 := phase_kin P (accel_cycles P) v a true false k) in *.
  destruct (run_phase P k1 m1 p dbg l1 (cruise_cycles P) v a false false Hd I1)
    as (s2 & m2 & R2 & I2 & K2 & _); [lia|done|exact K1|exact C2|].
  set (k2 := phase_kin P (cruise_cycles P) v a false false k1) in *.
  destruct (run_phase P k2 m2 p dbg l2 (accel_cycles P) v a false true Hd I2)
    as (s3 & m3 & R3 & I3 & K3 & G3 & _); [lia|done|exact K2|exact Hcode|].
  exists (s1 + (s2 + s3))%nat, m3.
  split_and!; [|exact I3|exact K3|exact G3].
  exact (continues_app _ _ _ _ _ R1 (continues_app _ _ _ _ _ R2 R3)).
Qed.

(** [C25] A trapezoidal move runs to the end of its program: whatever the target,
    feed rate and acceleration, if the move is not empty and has a cruise phase,
    the generated program, placed at the start of any program, always leaves its
    three loops; it ends at the instruction after its last, and the position
    registers, and the position signals of the axes that move when there is an
    acceleration phase, hold exactly the binary64 values of the kinematic
    recurrence: [accel_cycles] cycles with growing velocity, [cruise_cycles] at
    the target velocity and [accel_cycles] with falling velocity. *)
Theorem trapezoid_runs P prog p dbg m :
  generate_trapezoidal_program P = Some prog →
  f64_ltb (distance P) f64_1e9 = false → f64_ltb f64_zero (cruise_distance P) = true →
  code_at p 0 (instructions prog) → debug_mode dbg = false →
  ip m = 0%nat → length (registers m) = REGISTER_COUNT →
  ∃ steps m', continues steps (mkExecutor m p dbg) (mkExecutor m' p dbg) ∧
    ip m' = length (instructions prog) ∧ pos_regs P (trapezoid_kin P) m' ∧
    (accel_cycles P ≠ 0 → published P (trapezoid_kin P) m').
Proof.
  unfold generate_trapezoidal_program. fold (motion_prologue P). intros Hgen Hdist Hcr Hcode Hd Hip Hlen.
  rewrite (emit_g1_trapezoid P _ Hdist Hcr) in Hgen. cbn [mbind option_bind] in Hgen.
  injection Hgen as <-. cbn [HalIr.instructions] in Hcode |- *.
  destruct (exec_prologue P m Hlen) as (m0 & E0 & K0).
  set (l0 := motion_prologue P ++ [load_imm REG_POS_X (VF64 (start_x P))] ++ load_start_yz P) in *.
  assert (L0 : (length l0 ≤ 100)%nat).
  { unfold l0. rewrite !length_app. pose proof (load_start_length P). cbn [length motion_prologue]. lia. }
  assert (C0 : code_at p (ip m) l0).
  { rewrite Hip. by do 3 apply code_at_before_phase in Hcode. }
  destruct (continues_seq l0 m p dbg m0 Hd) as [R0 I0]; [|exact C0|exact E0|].
  { unfold l0. fold (data_code (motion_prologue P ++ [load_imm REG_POS_X (VF64 (start_x P))] ++
      load_start_yz P)). rewrite !data_code_app, data_load_start. done. }
  rewrite Hip in I0.
  destruct (run_phases P (start_kin P) m0 p dbg l0 (target_velocity P) (acceleration P) Hd I0 L0
    K0 Hcode) as (s & m' & R & I & K & G).
  exists (length l0 + s)%nat, m'. split_and!; [|exact I|exact K|exact G].
  exact (continues_app _ _ _ _ _ R0 R).
Qed.

(** ** The triangular profile *)

(** [counter > ratio register]; the register holds the last axis's share by
    then. *)
Definition tri_brakes (P : TrapezoidalProfile) (n : Z) : bool :=
  match float_cmp binary64 (f64_of_Z n) (last_ratio P) with Some Gt => true | _ => false end.

(** One cycle with [n] cycles to go. *)
Definition tri_step (P : TrapezoidalProfile) (dv n : Z) (k : Kin) : Kin :=
  with_vel (advance_axes P k)
    (if tri_brakes P n then f64_sub (k_vel k) dv else f64_add (k_vel k) dv).

Fixpoint tri_kin (P : TrapezoidalProfile) (dv : Z) (n : nat) (k : Kin) : Kin :=
  match n with
  | O => k
  | S n' => tri_kin P dv n' (tri_step P dv (Z.of_nat n) k)
  end.

Definition tri_head (P : TrapezoidalProfile) : list Instruction :=
  [arith_inst OpMul REG_VEL REG_DT REG_TSTEP] ++ axis_steps P ++ [cmp_inst OpGt REG_COUNTER REG_RATIO].

(** The index of the braking branch in the loop. *)
Definition tri_brake_at (P : TrapezoidalProfile) : nat := (length (axis_steps P) + 5)%nat.

Definition tri_loop (P : TrapezoidalProfile) (start : nat) : list Instruction :=
  tri_head P ++
  [jump_if (Z.of_nat (start + tri_brake_at P));
   arith_inst OpAdd REG_VEL REG_VSTEP REG_VEL;
   jump (Z.of_nat (start + tri_brake_at P) + 1);
   arith_inst OpSub REG_VEL REG_VSTEP REG_VEL] ++
  loop_control (Z.of_nat start).

Lemma exec_tri_head P dv k m n :
  kin_regs P dv k m → read_register m REG_COUNTER = Some (VF64 (f64_of_Z n)) →
  ∃ m', exec_seq m (tri_head P) = Some m' ∧
    kin_regs P dv (advance_axes P k) m' ∧ published P (advance_axes P k) m' ∧
    read_register m' REG_COUNTER = Some (VF64 (f64_of_Z n)) ∧
    flags_zero m' = tri_brakes P n.
Proof.
  intros Hk Hc. unfold tri_head. rewrite exec_seq_app, (exec_tstep P dv k m Hk).
  cbn [mbind option_bind].
  pose proof (same_but_set m REG_TSTEP (VF64 (f64_mul (k_vel k) (dt P)))) as F1.
  set (m1 := advance_ip _) in *.
  assert (K1 : kin_regs P dv k m1) by (eapply kin_regs_same; [exact Hk | exact F1 | reflexivity]).
  assert (T1 : read_register m1 REG_TSTEP = Some (VF64 (f64_mul (k_vel k) (dt P)))).
  { unfold m1. destruct Hk. by read_sets. }
  rewrite exec_seq_app. destruct (exec_axis_steps P dv k m1 K1 T1) as (m2 & E2 & F2 & K2 & G2 & R2).
  rewrite E2. cbn [mbind option_bind].
  assert (C2 : read_register m2 REG_COUNTER = Some (VF64 (f64_of_Z n))).
  { through F2. through F1. exact Hc. }
  exists (advance_ip (set_flags_zero m2 (tri_brakes P n))).
  split_and!; [| same_regs K2 | exact G2 | exact C2 | reflexivity].
  erewrite exec_seq_cons; [reflexivity | reflexivity |].
  cbn -[read_register value_gt tri_brakes]. rewrite C2. cbn -[read_register value_gt tri_brakes].
  rewrite R2. reflexivity.
Qed.

(** The velocity branch, from the [JumpIf] to the counter. *)
Lemma tri_branch P dv k m p dbg start n :
  debug_mode dbg = false →
  code_at p start (tri_loop P start) → ip m = (start + length (tri_head P))%nat →
  kin_regs P dv k m → flags_zero m = tri_brakes P n →
  ∃ s m', continues s (mkExecutor m p dbg) (mkExecutor m' p dbg) ∧
    ip m' = (start + tri_brake_at P + 1)%nat ∧
    kin_regs P dv (with_vel k (if tri_brakes P n then f64_sub (k_vel k) dv else f64_add (k_vel k) dv)) m' ∧
    signals m' = signals m ∧ read_register m' REG_COUNTER = read_register m REG_COUNTER.
Proof.
  intros Hd Hcode Hip Hk Hz. unfold tri_loop in Hcode. apply code_at_app in Hcode as [_ Hcode].
  assert (Hlen : length (tri_head P) = (tri_brake_at P - 3)%nat ∧ (9 ≤ tri_brake_at P)%nat).
  { unfold tri_head, tri_brake_at. rewrite !length_app. cbn [length].
    pose proof (axis_steps_length P). lia. }
  destruct Hlen as [Hlen Hge].
  cbn [app] in Hcode. rewrite <- Hip in Hcode.
  apply code_at_cons in Hcode as [Hi0 Hcode]. pose proof Hcode as Hadd.
  apply code_at_cons in Hcode as [Hi1 Hcode].
  apply code_at_cons in Hcode as [Hi2 Hcode]. pose proof Hcode as Hsub.
  pose proof (step_jump_if m p dbg _ Hd Hi0) as Hj. rewrite Hz, Nat2Z.id in Hj.
  destruct (tri_brakes P n).
  - set (m1 := set_ip m (start + tri_brake_at P)) in *.
    assert (K1 : kin_regs P dv k m1) by (apply (kin_regs_ext P dv k m); [reflexivity | exact Hk]).
    destruct (exec_vel_code P dv k m1 false true K1) as (m2 & E2 & K2 & S2 & C2).
    assert (Hat : code_at p (ip m1) (vel_code false true)).
    { replace (ip m1) with (S (S (S (ip m)))) by (unfold m1; cbn [ip set_ip]; lia).
      exact (proj1 (code_at_app _ _ (vel_code false true) _ Hsub)). }
    destruct (continues_seq (vel_code false true) m1 p dbg m2 Hd eq_refl Hat E2) as [R2 I2].
    exists (1 + 1)%nat, m2. split_and!; [exact (continues_app _ _ _ _ _ Hj R2) | | exact K2
      | exact S2 | exact C2]. rewrite I2. cbn. lia.
  - assert (K1 : kin_regs P dv k (advance_ip m)) by (apply (kin_regs_ext P dv k m); [reflexivity | exact Hk]).
    destruct (exec_vel_code P dv k _ true false K1) as (m2 & E2 & K2 & S2 & C2).
    assert (Hat : code_at p (ip (advance_ip m)) (vel_code true false)).
    { exact (proj1 (code_at_app _ _ (vel_code true false) _ Hadd)). }
    destruct (continues_seq (vel_code true false) _ p dbg m2 Hd eq_refl Hat E2) as [R2 I2].
    assert (Hi2' : instructions p !! ip m2 = Some (jump (Z.of_nat (start + tri_brake_at P) + 1))).
    { rewrite I2. cbn. by rewrite Nat.add_1_r. }
    pose proof (step_jump m2 p dbg _ Hd Hi2') as R3.
    exists (1 + (1 + 1))%nat, (set_ip m2 (Z.to_nat (Z.of_nat (start + tri_brake_at P) + 1))).
    split_and!; [exact (continues_app _ _ _ _ _ Hj (continues_app _ _ _ _ _ R2 R3)) | cbn; lia
      | same_regs K2 | exact S2 | exact C2].
Qed.

Lemma data_tri_head P : data_code (tri_head P) = true.
Proof. unfold tri_head. by rewrite !data_code_app, data_axis_steps. Qed.

Lemma tri_loop_runs P dv p dbg start n m k :
  debug_mode dbg = false → ip m = start → code_at p start (tri_loop P start) →
  kin_regs P dv k m → (0 < n)%nat → Z.of_nat n < 2 ^ 53 →
  read_register m REG_COUNTER = Some (VF64 (f64_of_Z (Z.of_nat n))) →
  ∃ s m', continues s (mkExecutor m p dbg) (mkExecutor m' p dbg) ∧
    ip m' = (start + length (tri_loop P start))%nat ∧
    kin_regs P dv (tri_kin P dv n k) m' ∧ published P (tri_kin P dv n k) m'.
Proof.
  intros Hd Hip Hcode. revert m k Hip.
  induction n as [|n IH]; intros m k Hip Hk Hpos Hn Hc; [lia|].
  destruct (exec_tri_head P dv k m _ Hk Hc) as (m1 & E1 & K1 & G1 & C1 & Z1).
  assert (Hhead : code_at p (ip m) (tri_head P)) by (rewrite Hip; by apply code_at_app in Hcode as [? _]).
  destruct (continues_seq (tri_head P) m p dbg m1 Hd (data_tri_head P) Hhead E1) as [R1 I1].
  rewrite Hip in I1.
  destruct (tri_branch P dv _ m1 p dbg start (Z.of_nat (S n)) Hd Hcode I1 K1 Z1)
    as (s2 & m2 & R2 & I2 & K2 & S2 & C2).
  fold (tri_step P dv (Z.of_nat (S n)) k) in K2. rewrite C1 in C2.
  destruct (exec_count_code P dv _ m2 _ K2 C2) as (m3 & E3 & K3 & S3 & C3 & Z3); [lia|].
  assert (Hlen : length (tri_head P) = (tri_brake_at P - 3)%nat ∧ (9 ≤ tri_brake_at P)%nat).
  { unfold tri_head, tri_brake_at. rewrite !length_app. cbn [length].
    pose proof (axis_steps_length P). lia. }
  assert (Htail : code_at p (ip m2) (loop_control (Z.of_nat start))).
  { unfold tri_loop in Hcode. apply code_at_app in Hcode as [_ Hcode].
    apply code_at_app in Hcode as [_ Hcode]. rewrite I2. cbn [length] in Hcode.
    replace (start + tri_brake_at P + 1)%nat with (start + length (tri_head P) + 4)%nat by lia.
    exact Hcode. }
  change (loop_control (Z.of_nat start)) with (count_code ++ [jump_if (Z.of_nat start)]) in Htail.
  apply code_at_app in Htail as [Hcount [Hj _]%code_at_cons].
  destruct (continues_seq count_code m2 p dbg m3 Hd eq_refl Hcount E3) as [R3 I3].
  rewrite <- I3 in Hj. pose proof (step_jump_if m3 p dbg _ Hd Hj) as R4. rewrite Z3 in R4.
  pose proof (continues_app _ _ _ _ _ R1 (continues_app _ _ _ _ _ R2
    (continues_app _ _ _ _ _ R3 R4))) as Hone. clear R1 R2 R3 R4 E1 E3.
  assert (G3 : published P (tri_step P dv (Z.of_nat (S n)) k) m3).
  { unfold published. rewrite S3, S2. exact G1. }
  assert (I4 : S (ip m3) = (start + length (tri_loop P start))%nat).
  { rewrite I3, I2. unfold tri_loop. rewrite !length_app. cbn [length loop_control count_code]. lia. }
  destruct (decide (n = 0%nat)) as [->|Hn0].
  - change (0 <? Z.of_nat 1 - 1) with false in Hone.
    eexists. exists (advance_ip m3). split_and!; [exact Hone | exact I4 | same_regs K3 | exact G3].
  - rewrite (proj2 (Z.ltb_lt _ _)) in Hone by lia. rewrite Nat2Z.id in Hone.
    destruct (IH (set_ip m3 start) (tri_step P dv (Z.of_nat (S n)) k))
      as (s' & m' & Hrest & Hi' & Hk' & Hp'); [done | same_regs K3 | lia | lia | |].
    { replace (Z.of_nat n) with (Z.of_nat (S n) - 1) by lia. exact C3. }
    eexists. exists m'. split_and!; [exact (continues_app _ _ _ _ _ Hone Hrest)|exact Hi'|exact Hk'|exact Hp'].
Qed.

Definition peak_velocity (P : TrapezoidalProfile) : Z :=
  f64_sqrt (f64_mul (distance P) (acceleration P)).
Definition tri_half (P : TrapezoidalProfile) : Z :=
  f64_to_u32 (f64_max (f64_ceil (f64_div (f64_div (peak_velocity P) (acceleration P)) (dt P))) f64_one).
Definition tri_dv (P : TrapezoidalProfile) : Z := f64_div (peak_velocity P) (f64_of_Z (tri_half P)).

Lemma insert_mid {A} (l k : list A) x y : <[length l := x]> (l ++ y :: k) = l ++ x :: k.
Proof. rewrite insert_app_r_alt by done. by rewrite Nat.sub_diag. Qed.

Lemma emit_triangular_code P half l :
  0 ≤ half < 2 ^ 31 → (length l ≤ 100)%nat →
  let pre := l ++ load_start_yz P ++
    [load_imm REG_COUNTER (VF64 (f64_of_Z (half * 2))); load_imm REG_RATIO (VF64 (f64_of_Z half))] in
  emit_triangular_motion P half l = Some (pre ++ tri_loop P (length pre)).
Proof.
  intros Hh Hl. cbv zeta. unfold emit_triangular_motion.
  rewrite arith_exact by (apply in_u_spec; lia). cbn [mbind option_bind].
  unfold u32_as_f64. rewrite <- (assoc_L (++) l).
  set (pre := l ++ load_start_yz P ++ _).
  assert (Hp : (length pre ≤ 104)%nat).
  { unfold pre. rewrite !length_app. pose proof (load_start_length P). cbn [length]. lia. }
  set (q := pre ++ [arith_inst OpMul REG_VEL REG_DT REG_TSTEP] ++ axis_steps P ++
            [cmp_inst OpGt REG_COUNTER REG_RATIO]).
  assert (Hq : q = pre ++ tri_head P) by done.
  assert (Hlq : (length q + 3)%nat = (length pre + tri_brake_at P)%nat).
  { rewrite Hq, length_app. unfold tri_head, tri_brake_at. rewrite !length_app. cbn [length]. lia. }
  pose proof (axis_steps_length P) as Ha. unfold tri_brake_at in Hlq.
  unfold len_u32. rewrite !length_app. cbn [length].
  rewrite !wrap_u_id by (apply in_u_spec; lia).
  rewrite arith_exact by (apply in_u_spec; lia). cbn [mbind option_bind].
  replace (length q + 2 + 1)%nat with (length pre + tri_brake_at P)%nat by (unfold tri_brake_at; lia).
  f_equal.
  rewrite <- !(assoc_L (++) q). cbn [app]. rewrite insert_mid.
  set (jif := jump_if _). set (add := arith_inst OpAdd _ _ _). set (sub := arith_inst OpSub REG_VEL _ _).
  replace (q ++ jif :: [add; nop; sub]) with ((q ++ [jif; add]) ++ nop :: [sub])
    by (by rewrite <- (assoc_L (++))).
  replace (length q + 2)%nat with (length (q ++ [jif; add])) by (rewrite length_app; cbn; lia).
  rewrite insert_mid, Hq. unfold tri_loop. by rewrite <- !(assoc_L (++)).
Qed.

Lemma emit_g1_triangle P l :
  f64_ltb (distance P) f64_1e9 = false → f64_ltb f64_zero (cruise_distance P) = false →
  emit_g1 P l = emit_triangular_motion P (tri_half P)
    (l ++ [load_imm REG_VEL (VF64 f64_zero); load_imm REG_VSTEP (VF64 (tri_dv P));
           load_imm REG_POS_X (VF64 (start_x P))]).
Proof.
  intros Hd Hc. unfold emit_g1. rewrite Hd.
  change (f64_sub (distance P) _) with (cruise_distance P). rewrite Hc.
  unfold tri_dv, tri_half, peak_velocity, u32_as_f64. reflexivity.
Qed.

Definition tri_init (P : TrapezoidalProfile) : list Instruction :=
  ((motion_prologue P ++ [load_imm REG_VEL (VF64 f64_zero); load_imm REG_VSTEP (VF64 (tri_dv P));
     load_imm REG_POS_X (VF64 (start_x P))]) ++ load_start_yz P ++
   [load_imm REG_COUNTER (VF64 (f64_of_Z (tri_half P * 2)));
    load_imm REG_RATIO (VF64 (f64_of_Z (tri_half P)))]).

Lemma exec_tri_init P m :
  length (registers m) = REGISTER_COUNT →
  ∃ m', exec_seq m (tri_init P) = Some m' ∧ kin_regs P (tri_dv P) (start_kin P) m' ∧
    read_register m' REG_COUNTER = Some (VF64 (f64_of_Z (tri_half P * 2))).
Proof.
  intros L. unfold tri_init, motion_prologue, load_start_yz. cbn [app].
  generalize (tri_dv P) as dv, (tri_half P) as half. intros dv half.
  destruct (moves (dy P)) eqn:Hy, (moves (dz P)) eqn:Hz; cbn [app];
    rewrite !exec_load_seq by (cbv; lia);
    (eexists; split; [reflexivity|]; split; [|by read_sets]);
    (split; cbn [start_kin k_vel k_x k_y k_z]; rewrite ?Hy, ?Hz; intros Hx || idtac);
    first [ by rewrite !length_advance_set | discriminate Hx | by read_sets ].
Qed.

Lemma data_tri_init P : data_code (tri_init P) = true.
Proof. unfold tri_init. by rewrite !data_code_app, data_load_start. Qed.

Lemma tri_init_length P : (length (tri_init P) ≤ 10)%nat.
Proof.
  unfold tri_init. rewrite !length_app. pose proof (load_start_length P).
  cbn [length motion_prologue]. lia.
Qed.

(** A short move, without a cruise phase, also runs to the end of its
    program: it makes twice [tri_half] cycles and its registers and position
    signals hold the values of its recurrence [tri_kin].  That recurrence
    subtracts the velocity step while more cycles remain than the share of the
    last moving axis, and adds it afterwards, so the move starts by braking
    from rest: the branch of the source is inverted, and its half-way marker is
    overwritten by the axis steps. *)
Theorem triangle_runs P prog p dbg m :
  generate_trapezoidal_program P = Some prog →
  f64_ltb (distance P) f64_1e9 = false → f64_ltb f64_zero (cruise_distance P) = false →
  1 ≤ tri_half P < 2 ^ 31 →
  code_at p 0 (instructions prog) → debug_mode dbg = false →
  ip m = 0%nat → length (registers m) = REGISTER_COUNT →
  let final := tri_kin P (tri_dv P) (Z.to_nat (tri_half P * 2)) (start_kin P) in
  ∃ steps m', continues steps (mkExecutor m p dbg) (mkExecutor m' p dbg) ∧
    ip m' = length (instructions prog) ∧ pos_regs P final m' ∧ published P final m'.
Proof.
  unfold generate_trapezoidal_program. fold (motion_prologue P).
  intros Hgen Hdist Hcr Hhalf Hcode Hd Hip Hlen. cbv zeta.
  rewrite (emit_g1_triangle P _ Hdist Hcr), emit_triangular_code in Hgen by (cbn; lia).
  fold (tri_init P) in Hgen. cbn [mbind option_bind] in Hgen.
  apply (f_equal (fun o => match o with Some q => instructions q | None => [] end)) in Hgen.
  cbn [HalIr.instructions] in Hgen. rewrite <- Hgen in Hcode |- *. clear Hgen.
  destruct (exec_tri_init P m Hlen) as (m0 & E0 & K0 & C0).
  apply code_at_app in Hcode as [Hinit Hloop]. rewrite <- Hip in Hinit.
  destruct (continues_seq (tri_init P) m p dbg m0 Hd (data_tri_init P) Hinit E0) as [R0 I0].
  rewrite Hip in I0. cbn [Nat.add] in I0, Hloop.
  destruct (tri_loop_runs P (tri_dv P) p dbg (length (tri_init P)) (Z.to_nat (tri_half P * 2)) m0
    (start_kin P)) as (s & m' & R & I & K & G);
    [exact Hd | exact I0 | exact Hloop | exact K0 | lia | lia
    | rewrite Z2Nat.id by lia; exact C0 |].
  exists (length (tri_init P) + s)%nat, m'. split_and!.
  - exact (continues_app _ _ _ _ _ R0 R).
  - by rewrite length_app.
  - by eapply kin_pos_regs.
  - exact G.
Qed.
End profile.

(** ** Witnesses *)
#[local] Transparent f64_add f64_sub f64_mul f64_div f64_one f64_zero f64_of_Z.

Definition profile_x (x f : Z) : TrapezoidalProfile :=
  mkProfile (f64_of_Z x) 0 0 (f64_of_Z f) (f64_of_Z 500) (f64_lit 1 2) 0 0 0.

Definition motion_of (P : TrapezoidalProfile) : HalProgram :=
  default (program_new "" []) (generate_trapezoidal_program (HB := debug_profile) P).

Lemma code_at_self p : code_at p 0 (instructions p).
Proof. exists [], []. by rewrite app_nil_r. Qed.

(** A millimetre at 100 mm/min: 62 cycles. *)
Lemma trapezoid_runs_witness :
  ∃ steps m', continues (H := debug_profile) steps (executor_new (motion_of (profile_x 1 100)))
      (mkExecutor m' (motion_of (profile_x 1 100)) debug_new) ∧
    signals m' !! "axis.0.pos" = Some (VF64 (k_x (trapezoid_kin (profile_x 1 100)))).
Proof.
  destruct (trapezoid_runs (HB := debug_profile) (profile_x 1 100) (motion_of (profile_x 1 100))
    (motion_of (profile_x 1 100)) debug_new vm_new) as (s & m' & R & _ & _ & G);
    [vm_compute; reflexivity | vm_compute; reflexivity | vm_compute; reflexivity
    | apply code_at_self | reflexivity | reflexivity | reflexivity |].
  exists s, m'. split; [exact R|]. apply (proj1 (G ltac:(vm_compute; discriminate))).
Defined.

(** A millimetre at 5000 mm/min, from 0 towards 1: the axis ends at a negative
    position. *)
Lemma triangle_runs_witness :
  ∃ steps m' x, continues (H := debug_profile) steps (executor_new (motion_of (profile_x 1 5000)))
      (mkExecutor m' (motion_of (profile_x 1 5000)) debug_new) ∧
    signals m' !! "axis.0.pos" = Some (VF64 x) ∧ f64_ltb x f64_zero = true.
Proof.
  destruct (triangle_runs (HB := debug_profile) (profile_x 1 5000) (motion_of (profile_x 1 5000))
    (motion_of (profile_x 1 5000)) debug_new vm_new) as (s & m' & R & _ & _ & G & _);
    [vm_compute; reflexivity | vm_compute; reflexivity | vm_compute; reflexivity
    | vm_compute; split; [discriminate | reflexivity]
    | apply code_at_self | reflexivity | reflexivity | reflexivity |].
  exists s, m'. eexists. split; [exact R|]. split; [exact G|]. vm_compute. reflexivity.
Defined.
