(* ===== verification/GcodeCompiler.v ===== *)
(** * G-code: modal state and code generation
    ([audesys-gcode-compiler/src/{compiler,lib}.rs])

    Numbers are binary64 patterns.  The transcendental functions and the
    decimal rendering of a number in one error text are parameters
    ([FloatFunctions]): Rust leaves their last digits to the platform. *)
From S2P Require Import Prelude Float IntFloat HalTypes HalValue HalIr CncMotion.
From S2P Require Import GcodeParser.
From stdpp Require Import pretty.
Local Open Scope Z_scope.
Local Open Scope hal_scope.

Class FloatFunctions := {
  f64_sin : Z → Z;
  f64_cos : Z → Z;
  f64_acos : Z → Z;
  f64_atan2 : Z → Z → Z;
  f64_hypot : Z → Z → Z;
  f64_display : Z → string }.

Inductive GCodeError :=
  | ParseError (line : Z) (msg : string)
  | UnsupportedCommand (line : Z) (code : string)
  | MissingParameter (line : Z) (param : string).

Record ModalState := mkModal {
  motion_mode : Z;
  coord_mode : Z;
  unit_mode : Z;
  plane : Z;
  ms_feedrate : Z;
  spindle_rpm : Z;
  ms_acceleration : Z;
  current_x : Z; current_y : Z; current_z : Z;
  line_number : Z }.

Definition modal_new : ModalState :=
  mkModal 0 90 21 17 f64_zero f64_zero (f64_of_Z 500) f64_zero f64_zero f64_zero 0.

Definition with_position (s : ModalState) (x y z : Z) : ModalState :=
  mkModal (motion_mode s) (coord_mode s) (unit_mode s) (plane s) (ms_feedrate s) (spindle_rpm s)
    (ms_acceleration s) x y z (line_number s).
Definition with_modes (s : ModalState) (mm cm um pl : Z) : ModalState :=
  mkModal mm cm um pl (ms_feedrate s) (spindle_rpm s) (ms_acceleration s) (current_x s)
    (current_y s) (current_z s) (line_number s).
Definition with_rates (s : ModalState) (f rpm : Z) : ModalState :=
  mkModal (motion_mode s) (coord_mode s) (unit_mode s) (plane s) f rpm (ms_acceleration s)
    (current_x s) (current_y s) (current_z s) (line_number s).
Definition with_line (s : ModalState) (line : Z) : ModalState :=
  mkModal (motion_mode s) (coord_mode s) (unit_mode s) (plane s) (ms_feedrate s) (spindle_rpm s)
    (ms_acceleration s) (current_x s) (current_y s) (current_z s) line.

Definition update_position (s : ModalState) (c : GCodeCommand) : ModalState :=
  if coord_mode s =? 90 then
    with_position s (default (current_x s) (cx c)) (default (current_y s) (cy c))
      (default (current_z s) (cz c))
  else
    let move cur o := match o with Some d => f64_add cur d | None => cur end in
    with_position s (move (current_x s) (cx c)) (move (current_y s) (cy c))
      (move (current_z s) (cz c)).

Definition advance (s : ModalState) (c : GCodeCommand) : ModalState :=
  let next := with_line s (cmd_line c) in
  match kind c with
  | Motion =>
      let next := match g_code c with
                  | Some g => if Prelude.between 0 3 g
                              then with_modes next g (coord_mode s) (unit_mode s) (plane s)
                              else next
                  | None => next
                  end in
      let next := update_position next c in
      match cf c with
      | Some f => with_rates next f (spindle_rpm s)
      | None => next
      end
  | Spindle =>
      match cs c with
      | Some v => with_rates next (ms_feedrate s) v
      | None => next
      end
  | Modal =>
      match g_code c with
      | Some g =>
          if is_one_of [17; 18; 19] g then
            with_modes next (motion_mode s) (coord_mode s) (unit_mode s) g
          else if is_one_of [20; 21] g then
            with_modes next (motion_mode s) (coord_mode s) g (plane s)
          else if is_one_of [90; 91] g then
            with_modes next (motion_mode s) g (unit_mode s) (plane s)
          else if g =? 80 then with_modes next 0 (coord_mode s) (unit_mode s) (plane s)
          else next
      | None => next
      end
  | ProgramControl => next
  | Unknown => next
  end.

(** The compiler's registers. *)
Definition GREG_STEP : nat := 0.
Definition GREG_POS_X : nat := 2.
Definition GREG_POS_Y : nat := 3.
Definition GREG_POS_Z : nat := 4.
Definition GREG_ZERO : nat := 5.
Definition GREG_ONE : nat := 6.

Definition CHORD_TOLERANCE : Z := f64_lit 5 3.
(** [std::f64::consts::PI.to_bits()] *)
Definition F64_PI : Z := 4614256656552045848.
Definition MAX_ANGULAR_STEP : Z := f64_div F64_PI (f64_of_Z 6).

(** Load a value and store it to a signal. *)
Definition set_signal (reg : nat) (signal : string) (v : HalValue) : list Instruction :=
  [load_imm reg v; store_reg signal reg].

(** ** G0 *)
Definition emit_g0 (s : ModalState) : list Instruction :=
  set_signal GREG_POS_X "axis.0.pos" (VF64 (current_x s)) ++
  set_signal GREG_STEP "axis.0.enable" (VBool true) ++
  (if negb (f64_eqb (current_y s) f64_zero) then
     set_signal GREG_POS_Y "axis.1.pos" (VF64 (current_y s)) ++
     set_signal GREG_STEP "axis.1.enable" (VBool true)
   else []) ++
  (if negb (f64_eqb (current_z s) f64_zero) then
     set_signal GREG_POS_Z "axis.2.pos" (VF64 (current_z s)) ++
     set_signal GREG_STEP "axis.2.enable" (VBool true)
   else []).

(** ** M3, M4, M5 *)
Definition emit_spindle (c : GCodeCommand) : list Instruction :=
  (match cs c with
   | Some s => set_signal GREG_STEP "spindle.rpm" (VF64 s)
   | None => []
   end) ++
  (match m_code c with
   | Some 3 => set_signal GREG_STEP "spindle.cw" (VBool true)
   | Some 4 => set_signal GREG_STEP "spindle.ccw" (VBool true)
   | Some 5 =>
       set_signal GREG_STEP "spindle.cw" (VBool false) ++
       [store_reg "spindle.ccw" GREG_STEP] ++
       set_signal GREG_STEP "spindle.rpm" (VF64 f64_zero)
   | _ => []
   end).

(** ** M2, M30 *)
Definition emit_program_control (c : GCodeCommand) : list Instruction :=
  (if bool_decide (m_code c = Some 30) then
     set_signal GREG_STEP "spindle.cw" (VBool false) ++ [store_reg "spindle.ccw" GREG_STEP]
   else []) ++
  (if bool_decide (m_code c = Some 2) || bool_decide (m_code c = Some 30) then [halt] else []).

(** ** Arcs *)
Section arcs.
Context `{FF : FloatFunctions}.

(** [x.powi(2)] *)
Definition f64_sq (x : Z) : Z := f64_mul x x.
Definition two_pi : Z := f64_mul (f64_of_Z 2) F64_PI.

Definition calculate_arc_center (start_a start_b end_a end_b : Z) (i j k r : option Z)
    (plane line : Z) : result (Z * Z) GCodeError :=
  if bool_decide (is_Some i) || bool_decide (is_Some j) || bool_decide (is_Some k) then
    let get o := default f64_zero o in
    let? (io, jo) :=
      (if plane =? 17 then Ok (get i, get j)
       else if plane =? 18 then Ok (get k, get i)
       else if plane =? 19 then Ok (get j, get k)
       else Err (UnsupportedCommand line ("plane G" +:+ pretty plane))) in
    Ok (f64_add start_a io, f64_add start_b jo)
  else
    match r with
    | Some radius =>
        let dx := f64_sub end_a start_a in
        let dy := f64_sub end_b start_b in
        let chord_len := f64_sqrt (f64_add (f64_mul dx dx) (f64_mul dy dy)) in
        if f64_ltb chord_len f64_1e9 then Err (UnsupportedCommand line "zero-length arc with R")
        else
          let r_abs := f64_abs radius in
          let half_chord := f64_div chord_len (f64_of_Z 2) in
          if f64_ltb r_abs (f64_sub half_chord f64_1e9) then
            Err (UnsupportedCommand line
                   ("radius " +:+ f64_display r_abs +:+ " too small for chord length " +:+
                    f64_display chord_len))
          else
            let center_offset :=
              f64_sqrt (f64_max (f64_sub (f64_mul r_abs r_abs) (f64_mul half_chord half_chord))
                          f64_zero) in
            let mid_a := f64_div (f64_add start_a end_a) (f64_of_Z 2) in
            let mid_b := f64_div (f64_add start_b end_b) (f64_of_Z 2) in
            let perp_a := f64_div (f64_neg dy) chord_len in
            let perp_b := f64_div dx chord_len in
            let sign := if f64_ltb f64_zero radius then f64_one else f64_neg f64_one in
            Ok (f64_add mid_a (f64_mul (f64_mul sign perp_a) center_offset),
                f64_add mid_b (f64_mul (f64_mul sign perp_b) center_offset))
    | None => Err (UnsupportedCommand line "arc missing I/J/K or R")
    end.

(** What a plane selects: the signal prefix, the start and the end of the two
    arc axes and of the linear axis. *)
Record ArcAxis := mkAxis { ax_name : string; ax_start : Z; ax_end : Z }.
Definition arc_axes (pl : Z) (prev next : ModalState) : option (ArcAxis * ArcAxis * ArcAxis) :=
  let x := mkAxis "axis.0" (current_x prev) (current_x next) in
  let y := mkAxis "axis.1" (current_y prev) (current_y next) in
  let z := mkAxis "axis.2" (current_z prev) (current_z next) in
  if pl =? 17 then Some (x, y, z)
  else if pl =? 18 then Some (z, x, y)
  else if pl =? 19 then Some (y, z, x)
  else None.

(** Position and enable of one axis; the enable value is in [GREG_STEP]. *)
Definition store_axis (a : ArcAxis) (v : Z) : list Instruction :=
  [load_imm GREG_POS_X (VF64 v);
   store_reg (ax_name a +:+ ".pos") GREG_POS_X;
   store_reg (ax_name a +:+ ".enable") GREG_STEP].

Definition arc_sweep (g : Z) (full_circle : bool) (start_angle end_angle : Z) : Z :=
  if full_circle then
    (if g =? 2 then f64_mul (f64_neg (f64_of_Z 2)) F64_PI else two_pi)
  else
    let s := f64_sub end_angle start_angle in
    if g =? 2 then (if f64_ltb f64_zero s then f64_sub s two_pi else s)
    else (if f64_ltb s f64_zero then f64_add s two_pi else s).

Definition arc_segments (radius sweep : Z) : Z :=
  let angular_step :=
    if f64_ltb CHORD_TOLERANCE radius then
      f64_min (f64_mul (f64_of_Z 2)
                 (f64_acos (f64_sub f64_one (f64_div CHORD_TOLERANCE radius))))
        MAX_ANGULAR_STEP
    else MAX_ANGULAR_STEP in
  Z.max 1 (f64_to_u32 (f64_ceil (f64_div (f64_abs sweep) angular_step))).

(** The stores of the [i]th chord. *)
Definition arc_chord (a b l : ArcAxis) (center_a center_b radius start_angle per_segment
    linear_per_segment : Z) (i : Z) : list Instruction :=
  let angle := f64_add start_angle (f64_mul (f64_of_Z i) per_segment) in
  store_axis a (f64_add center_a (f64_mul radius (f64_cos angle))) ++
  store_axis b (f64_add center_b (f64_mul radius (f64_sin angle))) ++
  store_axis l (f64_add (ax_start l) (f64_mul (f64_of_Z i) linear_per_segment)).

Definition emit_arc (g : Z) (prev next : ModalState) (c : GCodeCommand)
  : result (list Instruction) GCodeError :=
  match arc_axes (plane prev) prev next with
  | None => Err (UnsupportedCommand (cmd_line c) ("G" +:+ pretty g))
  | Some (a, b, l) =>
      let? (center_a, center_b) :=
        calculate_arc_center (ax_start a) (ax_start b) (ax_end a) (ax_end b) (ci c) (cj c) (ck c)
          (cr c) (plane prev) (cmd_line c) in
      let radius := f64_sqrt (f64_add (f64_sq (f64_sub (ax_start a) center_a))
                                      (f64_sq (f64_sub (ax_start b) center_b))) in
      if f64_ltb radius f64_1e9 then Err (UnsupportedCommand (cmd_line c) "zero-radius arc")
      else
        let start_angle := f64_atan2 (f64_sub (ax_start b) center_b) (f64_sub (ax_start a) center_a) in
        let end_angle := f64_atan2 (f64_sub (ax_end b) center_b) (f64_sub (ax_end a) center_a) in
        let is_full_circle :=
          f64_ltb (f64_hypot (f64_sub (ax_end a) (ax_start a)) (f64_sub (ax_end b) (ax_start b)))
            (f64_lit 1 6) in
        let sweep := arc_sweep g is_full_circle start_angle end_angle in
        if f64_ltb (f64_abs sweep) f64_1e9 then Ok []
        else
          let n := arc_segments radius sweep in
          let per_segment := f64_div sweep (f64_of_Z n) in
          let linear_delta := f64_sub (ax_end l) (ax_start l) in
          let linear_per_segment := f64_div linear_delta (f64_of_Z n) in
          Ok (load_imm GREG_STEP (VBool true) ::
              concat (map (fun i => arc_chord a b l center_a center_b radius start_angle
                                      per_segment linear_per_segment (Z.of_nat i))
                        (seq 1 (Z.to_nat n))))
  end.
End arcs.

(** ** Commands *)
Definition gcode_binding (name : string) (var : string) (ty : HalPinType) : SignalBinding :=
  {| hal_signal_name := name; program_var := var; direction := Write; hal_pin_type := ty |}.

(** [ensure_axis_signals] on the empty vector: every declaration is new. *)
Definition ensure_signal (sigs : list SignalBinding) (b : SignalBinding) : list SignalBinding :=
  if existsb (fun s => bool_decide (hal_signal_name s = hal_signal_name b)) sigs then sigs
  else sigs ++ [b].
Definition ensure_axis_signals (sigs : list SignalBinding) : list SignalBinding :=
  foldl ensure_signal sigs
    [gcode_binding "axis.0.pos" "axis_0_pos" TF64; gcode_binding "axis.0.enable" "axis_0_enable" TBool;
     gcode_binding "axis.1.pos" "axis_1_pos" TF64; gcode_binding "axis.1.enable" "axis_1_enable" TBool;
     gcode_binding "axis.2.pos" "axis_2_pos" TF64; gcode_binding "axis.2.enable" "axis_2_enable" TBool;
     gcode_binding "spindle.rpm" "spindle_rpm" TF64; gcode_binding "spindle.cw" "spindle_cw" TBool;
     gcode_binding "spindle.ccw" "spindle_ccw" TBool].

Section profile.
Context `{HB : BuildProfile} `{FF : FloatFunctions}.

(** The instructions and signals a motion adds; [None] is a panic. *)
Definition emit_motion (c : GCodeCommand) (s : ModalState)
  : option (result (list Instruction * list SignalBinding) GCodeError) :=
  let prev := s in
  let next := advance s c in
  let g := default (motion_mode s) (g_code c) in
  if g =? 0 then Some (Ok (emit_g0 next, []))
  else if g =? 1 then
    let dx := f64_sub (current_x next) (current_x prev) in
    let dy := f64_sub (current_y next) (current_y prev) in
    let dz := f64_sub (current_z next) (current_z prev) in
    let distance := f64_sqrt (f64_add (f64_add (f64_mul dx dx) (f64_mul dy dy)) (f64_mul dz dz)) in
    if f64_leb f64_1e9 distance then
      program ← generate_trapezoidal_program
        (mkProfile dx dy dz (ms_feedrate next) (ms_acceleration next) (f64_lit 1 2)
           (current_x prev) (current_y prev) (current_z prev));
      Some (Ok (instructions program, prog_signals program))
    else Some (Ok ([], []))
  else if (g =? 2) || (g =? 3) then
    g_code ← g_code c;
    Some (let? code := emit_arc g_code prev next c in Ok (code, []))
  else
    g_code ← g_code c;
    Some (Err (UnsupportedCommand (cmd_line c) ("G" +:+ pretty g_code))).

(** What one command adds to the program. *)
Definition emit_command (c : GCodeCommand) (s : ModalState)
  : option (result (list Instruction * list SignalBinding) GCodeError) :=
  match kind c with
  | Motion => emit_motion c s
  | Spindle => Some (Ok (emit_spindle c, []))
  | Modal => Some (Ok ([], []))
  | ProgramControl => Some (Ok (emit_program_control c, []))
  | Unknown =>
      match g_code c, m_code c with
      | Some g, _ => Some (Err (UnsupportedCommand (cmd_line c) ("G" +:+ pretty g)))
      | None, Some m => Some (Err (UnsupportedCommand (cmd_line c) ("M" +:+ pretty m)))
      | None, None => Some (Ok ([], []))
      end
  end.

(** The loop over the commands. *)
Fixpoint emit_commands (cmds : list GCodeCommand) (s : ModalState)
  : option (result (list Instruction * list SignalBinding) GCodeError) :=
  match cmds with
  | [] => Some (Ok ([], []))
  | c :: cmds =>
      let?? (code, sigs) := emit_command c s in
      let?? (code', sigs') := emit_commands cmds (advance s c) in
      Some (Ok (code ++ code', sigs ++ sigs'))
  end.

Definition compile_commands (cmds : list GCodeCommand) (initial_modal : ModalState)
  : option (result HalProgram GCodeError) :=
  let?? (code, sigs) := emit_commands cmds initial_modal in
  Some (Ok (mkProgram "gcode_program" (ensure_axis_signals [] ++ sigs) []
              ([load_imm GREG_ZERO (VF64 f64_zero); load_imm GREG_ONE (VF64 f64_one)] ++ code) [])).

Definition gcode_compile (source : list Z) : option (result HalProgram GCodeError) :=
  tokens ← tokenize source;
  compile_commands (parse_all tokens) modal_new.
End profile.
