(* ===== verification/GcodeFacts.v ===== *)
(** * What compiled G-code does when it runs *)
From S2P Require Import Prelude Float IntFloat HalTypes HalValue HalIr FunctionBlocks Vm.
From S2P Require Import Executor ExecutorFacts ExecutorControl StraightLine CncMotion MotionFacts.
From S2P Require Import GcodeParser GcodeCompiler.
Local Open Scope Z_scope.
Local Open Scope hal_scope.

Section profile.
Context `{HB : BuildProfile}.

(** [code] performs the writes [w], from any machine. *)
Definition performs (code : list Instruction) (w : Writes) : Prop :=
  data_code code = true ∧
  ∀ m, length (registers m) = REGISTER_COUNT →
    ∃ m', exec_seq m code = Some m' ∧ length (registers m') = REGISTER_COUNT ∧
      signals m' = write_all (signals m) w.

Lemma performs_nil : performs [] [].
Proof. split; [done|]. intros m Hm. by exists m. Qed.

Lemma performs_app c1 w1 c2 w2 :
  performs c1 w1 → performs c2 w2 → performs (c1 ++ c2) (w1 ++ w2).
Proof.
  intros [D1 P1] [D2 P2]. split; [by rewrite data_code_app, D1, D2|].
  intros m Hm. destruct (P1 m Hm) as (m1 & E1 & L1 & S1). destruct (P2 m1 L1) as (m2 & E2 & L2 & S2).
  exists m2. rewrite exec_seq_app, E1. cbn [mbind option_bind].
  split_and!; [done | done | by rewrite write_all_app, <- S1].
Qed.

Lemma performs_if (b : bool) c w :
  performs c w → performs (if b then c else []) (if b then w else []).
Proof. destruct b; [done | intros; apply performs_nil]. Qed.

(** Load a register, store it to each of the signals. *)
Lemma performs_stores r v xs :
  (r < REGISTER_COUNT)%nat →
  performs (load_imm r v :: map (fun x => store_reg x r) xs) (map (fun x => (x, v)) xs).
Proof.
  intros Hr. split.
  { cbn. by induction xs. }
  intros m Hm. rewrite exec_load_seq by done.
  assert (Hv : read_register (advance_ip (set_reg m r v)) r = Some v) by by read_regs.
  assert (Hl : length (registers (advance_ip (set_reg m r v))) = REGISTER_COUNT)
    by by rewrite length_advance_set.
  change (signals m) with (signals (advance_ip (set_reg m r v))).
  revert Hv Hl. generalize (advance_ip (set_reg m r v)) as m1. clear m Hm.
  induction xs as [|x xs IH]; intros m1 Hv Hl; [by exists m1|]. cbn [map].
  erewrite exec_seq_cons; [|done|by apply (exec_store_reg _ _ _ v)].
  destruct (IH (advance_ip (write_signal m1 x v)) Hv Hl) as (m' & E & L & S).
  exists m'. by rewrite E.
Qed.

Lemma performs_set r x v : (r < REGISTER_COUNT)%nat → performs (set_signal r x v) [(x, v)].
Proof. intros Hr. by apply (performs_stores r v [x]). Qed.

(** ** The writes of a command *)
Definition g0_writes (s : ModalState) : Writes :=
  [("axis.0.pos", VF64 (current_x s)); ("axis.0.enable", VBool true)] ++
  (if negb (f64_eqb (current_y s) f64_zero)
   then [("axis.1.pos", VF64 (current_y s)); ("axis.1.enable", VBool true)] else []) ++
  (if negb (f64_eqb (current_z s) f64_zero)
   then [("axis.2.pos", VF64 (current_z s)); ("axis.2.enable", VBool true)] else []).

Definition spindle_writes (c : GCodeCommand) : Writes :=
  (match cs c with Some s => [("spindle.rpm", VF64 s)] | None => [] end) ++
  (match m_code c with
   | Some 3 => [("spindle.cw", VBool true)]
   | Some 4 => [("spindle.ccw", VBool true)]
   | Some 5 => [("spindle.cw", VBool false); ("spindle.ccw", VBool false);
                ("spindle.rpm", VF64 f64_zero)]
   | _ => []
   end).

(** M30 stops the spindle direction outputs, M2 does not. *)
Definition control_writes (c : GCodeCommand) : Writes :=
  if bool_decide (m_code c = Some 30) then [("spindle.cw", VBool false); ("spindle.ccw", VBool false)]
  else [].

Lemma emit_g0_performs s : performs (emit_g0 s) (g0_writes s).
Proof.
  unfold emit_g0, g0_writes.
  change [("axis.0.pos", VF64 (current_x s)); ("axis.0.enable", VBool true)] with
    ([("axis.0.pos", VF64 (current_x s))] ++ [("axis.0.enable", VBool true)]).
  rewrite <- (assoc_L (++)).
  apply performs_app; [apply performs_set; cbv; lia|].
  apply performs_app; [apply performs_set; cbv; lia|].
  apply performs_app; apply performs_if;
    (apply (performs_app _ [_] _ [_]); apply performs_set; cbv; lia).
Qed.

Lemma emit_spindle_performs c : performs (emit_spindle c) (spindle_writes c).
Proof.
  assert (Hset : ∀ x v, performs (set_signal GREG_STEP x v) [(x, v)])
    by (intros; apply performs_set; cbv; lia).
  unfold emit_spindle, spindle_writes. apply performs_app.
  { destruct (cs c); [apply Hset | apply performs_nil]. }
  assert (H5 : performs (set_signal GREG_STEP "spindle.cw" (VBool false) ++
      [store_reg "spindle.ccw" GREG_STEP] ++ set_signal GREG_STEP "spindle.rpm" (VF64 f64_zero))
    ([("spindle.cw", VBool false); ("spindle.ccw", VBool false)] ++ [("spindle.rpm", VF64 f64_zero)])).
  { rewrite (assoc_L (++)). apply performs_app; [|apply Hset].
    apply (performs_stores GREG_STEP (VBool false) ["spindle.cw"; "spindle.ccw"]). cbv; lia. }
  destruct (m_code c) as [n|]; [|apply performs_nil].
  destruct n as [|p|p]; [apply performs_nil| |apply performs_nil].
  do 3 (destruct p as [p|p|]; try (apply performs_nil || apply Hset || exact H5)).
Qed.

Definition spindle_off (c : GCodeCommand) : list Instruction :=
  if bool_decide (m_code c = Some 30) then
    set_signal GREG_STEP "spindle.cw" (VBool false) ++ [store_reg "spindle.ccw" GREG_STEP]
  else [].

Lemma spindle_off_performs c : performs (spindle_off c) (control_writes c).
Proof.
  unfold spindle_off, control_writes. destruct (bool_decide _); [|apply performs_nil].
  apply (performs_stores GREG_STEP (VBool false) ["spindle.cw"; "spindle.ccw"]). cbv; lia.
Qed.

(** ** Programs of rapid moves *)

(** The commands that emit straight-line code: everything but G1, the arcs and
    the ends of the program. *)
Definition simple (c : GCodeCommand) : bool :=
  match kind c with
  | Motion => bool_decide (g_code c = Some 0)
  | Spindle | Modal => true
  | ProgramControl => false
  | Unknown => bool_decide (g_code c = None) && bool_decide (m_code c = None)
  end.

Definition command_writes (c : GCodeCommand) (s : ModalState) : Writes :=
  match kind c with
  | Motion => g0_writes (advance s c)
  | Spindle => spindle_writes c
  | _ => []
  end.

(** The writes of a program, along its modal states. *)
Fixpoint program_writes (cmds : list GCodeCommand) (s : ModalState) : Writes :=
  match cmds with
  | [] => []
  | c :: cmds => command_writes c s ++ program_writes cmds (advance s c)
  end.

Context `{FF : FloatFunctions}.

Lemma emit_simple c s :
  simple c = true →
  ∃ code, emit_command c s = Some (Ok (code, [])) ∧ performs code (command_writes c s).
Proof.
  unfold simple, emit_command, command_writes. destruct (kind c); intros Hs; try done.
  - apply bool_decide_eq_true in Hs. unfold emit_motion. rewrite Hs.
    eexists. split; [done | apply emit_g0_performs].
  - eexists. split; [done | apply emit_spindle_performs].
  - eexists. split; [done | apply performs_nil].
  - apply andb_true_iff in Hs as [Hg%bool_decide_eq_true Hm%bool_decide_eq_true].
    rewrite Hg, Hm. eexists. split; [done | apply performs_nil].
Qed.

Lemma emit_commands_cons c cmds s code sigs :
  emit_command c s = Some (Ok (code, sigs)) →
  emit_commands (c :: cmds) s =
  (let?? (code', sigs') := emit_commands cmds (advance s c) in
   Some (Ok (code ++ code', sigs ++ sigs'))).
Proof. intros He. cbn. by rewrite He. Qed.

(** The code of a program is the code of its simple prefix, and the rest. *)
Lemma emit_commands_prefix cmds rest s code sigs :
  forallb simple cmds = true → emit_commands (cmds ++ rest) s = Some (Ok (code, sigs)) →
  ∃ c1 c2, code = c1 ++ c2 ∧ performs c1 (program_writes cmds s) ∧
    emit_commands rest (foldl advance s cmds) = Some (Ok (c2, sigs)).
Proof.
  revert s code sigs. induction cmds as [|c cmds IH]; intros s code sigs Hs He.
  { exists [], code. split_and!; [done | apply performs_nil | done]. }
  cbn [forallb] in Hs. apply andb_true_iff in Hs as [Hc Hs].
  destruct (emit_simple c s Hc) as (k & Ek & Pk). cbn [app] in He.
  rewrite (emit_commands_cons _ _ _ _ _ Ek) in He. cbn [app] in He.
  destruct (emit_commands (cmds ++ rest) (advance s c)) as [[[code' sigs']|]|] eqn:E; try done.
  cbn in He. simplify_eq. destruct (IH _ _ _ Hs E) as (c1 & c2 & -> & P1 & E2).
  exists (k ++ c1), c2. split_and!; [by rewrite (assoc_L (++)) | by apply performs_app | done].
Qed.

Definition gcode_prologue : list Instruction :=
  [load_imm GREG_ZERO (VF64 f64_zero); load_imm GREG_ONE (VF64 f64_one)].

Lemma compile_commands_inv cmds s p :
  compile_commands cmds s = Some (Ok p) →
  ∃ code sigs, emit_commands cmds s = Some (Ok (code, sigs)) ∧
    instructions p = gcode_prologue ++ code.
Proof.
  unfold compile_commands. destruct (emit_commands cmds s) as [[[code sigs]|]|]; [|discriminate..].
  cbn. intros [= <-]. by exists code, sigs.
Qed.

Lemma emit_commands_inv c cmds s k ksigs code sigs :
  emit_command c s = Some (Ok (k, ksigs)) → emit_commands (c :: cmds) s = Some (Ok (code, sigs)) →
  ∃ code', code = k ++ code'.
Proof.
  intros Hk. rewrite (emit_commands_cons _ _ _ _ _ Hk).
  destruct (emit_commands cmds _) as [[[code' sigs']|]|]; [|discriminate..].
  cbn. intros [= <- _]. by exists code'.
Qed.

Lemma emit_control_code c :
  kind c = ProgramControl → m_code c = Some 2 ∨ m_code c = Some 30 →
  emit_program_control c = spindle_off c ++ [halt].
Proof.
  intros _ [E|E]; unfold emit_program_control, spindle_off; by rewrite E.
Qed.

(** ** The moves as the G-code says them

    Where the axes are and whether coordinates are relative.  G90 and G91 switch
    between absolute and relative coordinates, a G0 moves each axis it names, and
    no other command of a rapid program does either. *)
Record RapidState := mkRapid { relative : bool; at_x : Z; at_y : Z; at_z : Z }.
Definition rapid_of (s : ModalState) : RapidState :=
  mkRapid (negb (coord_mode s =? 90)) (current_x s) (current_y s) (current_z s).
Definition moved (rel : bool) (here : Z) (word : option Z) : Z :=
  match word with
  | None => here
  | Some v => if rel then f64_add here v else v
  end.
Definition rapid_step (t : RapidState) (c : GCodeCommand) : RapidState :=
  match kind c, g_code c with
  | Motion, _ => mkRapid (relative t) (moved (relative t) (at_x t) (cx c)) (moved (relative t) (at_y t) (cy c))
                   (moved (relative t) (at_z t) (cz c))
  | Modal, Some 90 => mkRapid false (at_x t) (at_y t) (at_z t)
  | Modal, Some 91 => mkRapid true (at_x t) (at_y t) (at_z t)
  | _, _ => t
  end.

(** A G0 writes the new position of X, and those of Y and Z that are not zero. *)
Definition move_axis (i : string) (position : Z) : Writes :=
  [("axis." +:+ i +:+ ".pos", VF64 position); ("axis." +:+ i +:+ ".enable", VBool true)].
Definition move_writes (t : RapidState) : Writes :=
  move_axis "0" (at_x t) ++
  (if f64_eqb (at_y t) f64_zero then [] else move_axis "1" (at_y t)) ++
  (if f64_eqb (at_z t) f64_zero then [] else move_axis "2" (at_z t)).
Fixpoint rapid_writes (cmds : list GCodeCommand) (t : RapidState) : Writes :=
  match cmds with
  | [] => []
  | c :: cmds =>
      (match kind c with
       | Motion => move_writes (rapid_step t c)
       | Spindle => spindle_writes c
       | _ => []
       end) ++ rapid_writes cmds (rapid_step t c)
  end.

Lemma modal_coords g s : rapid_of (with_modes s (motion_mode s) g (unit_mode s) (plane s)) =
  mkRapid (negb (g =? 90)) (current_x s) (current_y s) (current_z s).
Proof. done. Qed.

Lemma rapid_of_advance s c : simple c = true → rapid_of (advance s c) = rapid_step (rapid_of s) c.
Proof.
  unfold simple, advance, rapid_step. destruct (kind c); intros Hs; try done.
  - apply bool_decide_eq_true in Hs. rewrite Hs. cbn [Prelude.between Z.leb Z.compare andb].
    unfold update_position, rapid_of, moved. cbn [relative at_x at_y at_z].
    change (coord_mode (with_modes (with_line s (cmd_line c)) 0 (coord_mode s) (unit_mode s) (plane s)))
      with (coord_mode s).
    destruct (coord_mode s =? 90) eqn:E; destruct (cf c); cbn; rewrite E; by destruct (cx c), (cy c), (cz c).
  - by destruct (cs c).
  - destruct (g_code c) as [g|]; [|done]. unfold is_one_of, existsb.
    destruct (decide (g = 90)) as [->|H90]; [done|]. destruct (decide (g = 91)) as [->|H91]; [done|].
    transitivity (rapid_of s).
    + destruct (_ || _); [done|]. destruct (_ || _); [done|].
      rewrite (proj2 (Z.eqb_neq g 90)), (proj2 (Z.eqb_neq g 91)) by done. cbn [orb]. by destruct (g =? 80).
    + destruct g as [|g|g]; [done| |done]. do 7 (destruct g as [g|g|]; try done).
Qed.

Lemma g0_writes_rapid s : g0_writes s = move_writes (rapid_of s).
Proof.
  unfold g0_writes, move_writes, rapid_of. cbn [at_x at_y at_z].
  by destruct (f64_eqb (current_y s) f64_zero), (f64_eqb (current_z s) f64_zero).
Qed.

Lemma program_writes_rapid cmds s :
  forallb simple cmds = true → program_writes cmds s = rapid_writes cmds (rapid_of s).
Proof.
  induction cmds as [|c cmds IH] in s |- *; [done|]. cbn [forallb program_writes rapid_writes].
  intros [Hc Hs]%andb_true_iff. rewrite IH, (rapid_of_advance s c Hc) by done. f_equal.
  unfold command_writes. destruct (kind c) eqn:Hk; try done. by rewrite g0_writes_rapid, rapid_of_advance.
Qed.

(** [C23] A G-code program of rapid moves, spindle commands and mode changes
    that reaches M2 or M30 runs to that command and halts there, whatever
    follows: the signals it leaves are exactly the writes its commands call for,
    in order.  Each G0 moves every axis it names, to the coordinate in absolute
    mode and by it in relative mode, as the last G90 or G91 says, and writes the
    position of X, those of Y and Z only when they are not zero, with the axis
    enables; M3, M4 and M5 write the spindle outputs, and M30 clears the spindle
    direction outputs. *)
Theorem gcode_rapid_program cmds c rest s p :
  forallb simple cmds = true → kind c = ProgramControl →
  m_code c = Some 2 ∨ m_code c = Some 30 →
  compile_commands (cmds ++ c :: rest) s = Some (Ok p) →
  ∃ e n, (∀ fuel, (n ≤ fuel)%nat → run_to_halt fuel (executor_new p) = Done e n) ∧
    signals (vm e) = write_all ∅ (rapid_writes cmds (rapid_of s) ++ control_writes c).
Proof.
  intros Hs Hk Hm Hc. rewrite <- program_writes_rapid by done. destruct (compile_commands_inv _ _ _ Hc) as (code & sigs & E & Hp).
  destruct (emit_commands_prefix _ _ _ _ _ Hs E) as (c1 & c2 & -> & P1 & E2).
  assert (Ec : emit_command c (foldl advance s cmds) = Some (Ok (spindle_off c ++ [halt], [])))
    by (unfold emit_command; rewrite Hk; by rewrite emit_control_code).
  destruct (emit_commands_inv _ _ _ _ _ _ _ Ec E2) as (code' & ->).
  assert (P0 : performs gcode_prologue []).
  { apply (performs_app [load_imm GREG_ZERO (VF64 f64_zero)] []
      [load_imm GREG_ONE (VF64 f64_one)] []); apply (performs_stores _ _ []); cbv; lia. }
  destruct (performs_app _ _ _ _ P0 (performs_app _ _ _ _ P1 (spindle_off_performs c)))
    as [D P]. cbn [app] in P.
  set (body := gcode_prologue ++ c1 ++ spindle_off c) in *.
  destruct (P vm_new eq_refl) as (m' & Em & _ & Sm).
  assert (Hcode : code_at p 0 (body ++ halt :: code')).
  { exists [], []. split; [|done]. cbn [app]. rewrite app_nil_r, Hp. unfold body.
    by rewrite <- !(assoc_L (++)). }
  apply code_at_app in Hcode as [Hbody [Hhalt _]%code_at_cons].
  destruct (continues_seq body vm_new p debug_new m' eq_refl D Hbody Em) as [R I].
  exists (mkExecutor (advance_ip m') p debug_new), (S (length body)). split; [|exact Sm].
  intros fuel Hf. unfold run_to_halt, executor_new.
  rewrite (run_loop_complete _ _ _ (mkExecutor (advance_ip m') p debug_new) Halted 0 fuel R);
    [f_equal; lia | | done | lia].
  change (ip vm_new) with 0%nat in I. rewrite <- I in Hhalt.
  rewrite (step_no_debug (mkExecutor m' p debug_new) halt) by done. done.
Qed.

#[local] Opaque f64_add f64_sub f64_mul f64_div f64_one f64_zero f64_of_Z.

(** ** Linear moves do not end *)

(** The loop of a phase whose jump goes to the load of the velocity. *)
Definition moved_phase (P : TrapezoidalProfile) (dv v n : Z) (a d : bool) (pc : nat) : list Instruction :=
  phase_init dv v n ++ phase_body P a d ++ loop_control (Z.of_nat (pc + 1)).

(** One round: from the loop's counter load to its jump. *)
Lemma moved_round P p dbg pc m k dv v n a d :
  debug_mode dbg = false → code_at p pc (moved_phase P dv v n a d pc) →
  ip m = (pc + 1)%nat → pos_regs P k m → read_register m REG_VSTEP = Some (VF64 dv) →
  1 ≤ n < 2 ^ 53 →
  ∃ s m' k', continues (S s) (mkExecutor m p dbg) (mkExecutor m' p dbg) ∧
    ip m' = (if (0 <? n - 1)%Z then pc + 1 else pc + length (moved_phase P dv v n a d pc))%nat ∧
    kin_regs P dv k' m'.
Proof.
  intros Hd Hcode Hip Hk Hv Hn. unfold moved_phase, phase_init in Hcode. cbn [app] in Hcode.
  change (loop_control (Z.of_nat (pc + 1))) with (count_code ++ [jump_if (Z.of_nat (pc + 1))]) in Hcode.
  apply code_at_cons in Hcode as [_ Hcode].
  replace (S pc) with (ip m) in Hcode by lia.
  set (body := [load_imm REG_VEL (VF64 v); load_imm REG_COUNTER (VF64 (f64_of_Z n))] ++
               phase_body P a d ++ count_code).
  assert (Hc2 : code_at p (ip m) (body ++ [jump_if (Z.of_nat (pc + 1))])).
  { unfold body. rewrite <- !(assoc_L (++)). exact Hcode. }
  apply code_at_app in Hc2 as [Hbody [Hj _]%code_at_cons].
  set (m1 := advance_ip (set_reg (advance_ip (set_reg m REG_VEL (VF64 v))) REG_COUNTER
    (VF64 (f64_of_Z n)))).
  assert (K1 : kin_regs P dv (with_vel k v) m1).
  { pose proof Hk as [L D Z O X Y W].
    pose proof (same_but_loads m REG_VEL (VF64 v) REG_VEL (VF64 v) REG_COUNTER (VF64 (f64_of_Z n))) as F.
    assert (K0 : kin_regs P dv (with_vel k v) (advance_ip (set_reg m REG_VEL (VF64 v)))).
    { pose proof (same_but_set m REG_VEL (VF64 v)) as F1.
      split; cbn [with_vel k_vel k_x k_y k_z]; intros;
        [by rewrite length_advance_set | through F1; exact D | through F1; exact Z
        | through F1; exact O | through F1; exact Hv | by read_sets | through F1; exact X
        | through F1; auto | through F1; auto]. }
    eapply kin_regs_same; [exact K0 | apply same_but_set | reflexivity]. }
  assert (C1 : read_register m1 REG_COUNTER = Some (VF64 (f64_of_Z n)))
    by (unfold m1; destruct Hk; by read_sets).
  destruct (exec_phase_cycle P dv _ m1 a d n K1 C1 Hn) as (m2 & E2 & K2 & _ & _ & Z2).
  assert (Eb : exec_seq m body = Some m2).
  { unfold body. cbn [app]. rewrite !exec_load_seq by (cbv; lia). exact E2. }
  assert (Db : data_code body = true).
  { unfold body, phase_body. rewrite !data_code_app, data_axis_steps. by destruct a, d. }
  destruct (continues_seq body m p dbg m2 Hd Db Hbody Eb) as [R I]. rewrite <- I in Hj.
  pose proof (step_jump_if m2 p dbg _ Hd Hj) as RJ. rewrite Z2, Nat2Z.id in RJ.
  pose proof (continues_app _ _ _ _ _ R RJ) as Hrun.
  replace (length body + 1)%nat with (S (length body)) in Hrun by lia.
  eexists _, _, _. split; [exact Hrun|]. split.
  - destruct (0 <? n - 1); [done|]. cbn [ip advance_ip set_ip]. rewrite I, Hip.
    unfold moved_phase, body. rewrite !length_app. cbn [length phase_init loop_control count_code]. lia.
  - destruct (0 <? n - 1); (refine (kin_regs_ext _ _ _ _ _ _ K2); reflexivity).
Qed.

(** With two cycles or more the counter is loaded again in every round. *)
Lemma moved_phase_diverges P p dbg pc m k dv v n a d :
  debug_mode dbg = false → code_at p pc (moved_phase P dv v n a d pc) →
  ip m = pc → pos_regs P k m → 2 ≤ n < 2 ^ 53 → diverges (mkExecutor m p dbg).
Proof.
  intros Hd Hcode Hip Hk Hn.
  set (Inv := fun e => ∃ m' k', e = mkExecutor m' p dbg ∧ ip m' = (pc + 1)%nat ∧ pos_regs P k' m' ∧
                      read_register m' REG_VSTEP = Some (VF64 dv)).
  pose proof Hcode as Hc2. unfold moved_phase, phase_init in Hc2. rewrite <- Hip in Hc2.
  cbn [app] in Hc2. assert (Hc1 : code_at p (ip m) [load_imm REG_VSTEP (VF64 dv)]).
  { by apply (code_at_app p _ [_]) in Hc2 as [? _]. }
  assert (E1 : exec_seq m [load_imm REG_VSTEP (VF64 dv)] =
               Some (advance_ip (set_reg m REG_VSTEP (VF64 dv))))
    by (rewrite exec_load_seq by (cbv; lia); done).
  destruct (continues_seq [load_imm REG_VSTEP (VF64 dv)] m p dbg _ Hd eq_refl Hc1 E1) as [R I].
  eapply diverges_after; [exact R|]. apply (diverges_cycle Inv).
  - intros e (m' & k' & -> & Hip' & Hk' & Hv').
    destruct (moved_round P p dbg pc m' k' dv v n a d Hd Hcode Hip' Hk' Hv') as (s & m2 & k2 & R2 & I2 & K2);
      [lia|].
    rewrite (proj2 (Z.ltb_lt _ _)) in I2 by lia.
    exists s, (mkExecutor m2 p dbg). split; [exact R2|]. exists m2, k2.
    split_and!; [done | exact I2 | by eapply kin_pos_regs | by destruct K2].
  - pose proof (same_but_set m REG_VSTEP (VF64 dv)) as F. pose proof Hk as [L D Z O X Y W].
    eexists _, k. split; [done|]. split_and!; [rewrite I; cbn; lia | | by read_sets].
    split; intros; [by rewrite length_advance_set | through F; exact D | through F; exact Z
      | through F; exact O | through F; exact X | through F; auto | through F; auto].
Qed.

(** A phase of one cycle is left at its end. *)
Lemma moved_phase_once P p dbg pc m k dv v a d :
  debug_mode dbg = false → code_at p pc (moved_phase P dv v 1 a d pc) → ip m = pc →
  pos_regs P k m →
  ∃ s m' k', continues s (mkExecutor m p dbg) (mkExecutor m' p dbg) ∧
    ip m' = (pc + length (moved_phase P dv v 1 a d pc))%nat ∧ pos_regs P k' m'.
Proof.
  intros Hd Hcode Hip Hk.
  pose proof Hcode as Hc2. unfold moved_phase, phase_init in Hc2. rewrite <- Hip in Hc2.
  cbn [app] in Hc2. assert (Hc1 : code_at p (ip m) [load_imm REG_VSTEP (VF64 dv)]).
  { by apply (code_at_app p _ [_]) in Hc2 as [? _]. }
  assert (E1 : exec_seq m [load_imm REG_VSTEP (VF64 dv)] =
               Some (advance_ip (set_reg m REG_VSTEP (VF64 dv))))
    by (rewrite exec_load_seq by (cbv; lia); done).
  destruct (continues_seq [load_imm REG_VSTEP (VF64 dv)] m p dbg _ Hd eq_refl Hc1 E1) as [R I].
  pose proof (same_but_set m REG_VSTEP (VF64 dv)) as F. pose proof Hk as [L D Z O X Y W].
  destruct (moved_round P p dbg pc (advance_ip (set_reg m REG_VSTEP (VF64 dv))) k dv v 1 a d Hd Hcode)
    as (s & m' & k' & R2 & I2 & K2); [rewrite I; cbn; lia | | by read_sets | lia |].
  { split; intros; [by rewrite length_advance_set | through F; exact D | through F; exact Z
      | through F; exact O | through F; exact X | through F; auto | through F; auto]. }
  exists (1 + S s)%nat, m', k'. split_and!; [exact (continues_app _ _ _ _ _ R R2) | exact I2
    | by eapply kin_pos_regs].
Qed.

(** A phase appended two places after the position it was generated for. *)
Lemma moved_code l P n v acc a d :
  n ≠ 0 → (length l ≤ 200)%nat →
  emit_profile_phase l P n v acc a d =
  l ++ moved_phase P (f64_mul acc (dt P)) (if a then f64_zero else v) n a d (length l + 2).
Proof.
  intros Hn Hl. rewrite emit_profile_phase_code by done. unfold moved_phase.
  rewrite wrap_u_id by (apply in_u_spec; lia). do 5 f_equal. lia.
Qed.

Lemma two_phases_diverge P p m k l v acc pro :
  (length l ≤ 100)%nat → length pro = 2%nat →
  2 ≤ accel_cycles P ∨ 2 ≤ cruise_cycles P →
  let l1 := emit_profile_phase l P (accel_cycles P) v acc true false in
  let l2 := emit_profile_phase l1 P (cruise_cycles P) v acc false false in
  code_at p 0 (pro ++ l2) → ip m = (length l + 2)%nat → pos_regs P k m →
  diverges (mkExecutor m p debug_new).
Proof.
  intros Hl Hpro Hcyc. cbv zeta. intros Hcode Hip Hk.
  pose proof (accel_cycles_range P) as Ha. pose proof (cruise_cycles_range P) as Hc.
  destruct (emit_profile_phase_prefix l P (accel_cycles P) v acc true false) as (x1 & X1 & L1).
  set (l1 := emit_profile_phase l P (accel_cycles P) v acc true false) in *.
  assert (Hphase2 : ∀ m k, 2 ≤ cruise_cycles P → ip m = (length l1 + 2)%nat → pos_regs P k m →
    diverges (mkExecutor m p debug_new)).
  { intros m' k' Hn Hip' Hk'. rewrite moved_code in Hcode by (rewrite ?X1, ?length_app; lia).
    rewrite (assoc_L (++)) in Hcode. apply code_at_app in Hcode as [_ Hcode].
    rewrite length_app, Hpro in Hcode.
    replace (0 + (2 + length l1))%nat with (length l1 + 2)%nat in Hcode by lia.
    eapply moved_phase_diverges; [done | exact Hcode | exact Hip' | exact Hk' | lia]. }
  assert (Hl1 : code_at p 0 (pro ++ l1)).
  { destruct (emit_profile_phase_prefix l1 P (cruise_cycles P) v acc false false) as (x2 & X2 & _).
    rewrite X2, (assoc_L (++)) in Hcode. by apply code_at_prefix in Hcode. }
  destruct (decide (accel_cycles P = 0)) as [Hz|Hnz].
  { eapply Hphase2; [lia | | exact Hk]. rewrite Hip. unfold l1, emit_profile_phase.
    by rewrite Hz. }
  unfold l1 in Hl1. rewrite moved_code in Hl1 by lia. rewrite (assoc_L (++)) in Hl1.
  apply code_at_app in Hl1 as [_ Hl1]. rewrite length_app, Hpro in Hl1.
  replace (0 + (2 + length l))%nat with (length l + 2)%nat in Hl1 by lia.
  destruct (decide (2 ≤ accel_cycles P)) as [Hge|Hlt].
  { eapply moved_phase_diverges; [done | exact Hl1 | exact Hip | exact Hk | lia]. }
  assert (accel_cycles P = 1) as E1 by lia. rewrite E1 in Hl1.
  destruct (moved_phase_once P p debug_new _ m k _ _ true false eq_refl Hl1 Hip Hk)
    as (s & m' & k' & R & I & K).
  eapply diverges_after; [exact R|]. eapply Hphase2; [lia | | exact K].
  rewrite I. unfold l1. rewrite moved_code by lia. rewrite length_app, E1. lia.
Qed.

Definition motion_profile (c : GCodeCommand) (s : ModalState) : TrapezoidalProfile :=
  let next := advance s c in
  mkProfile (f64_sub (current_x next) (current_x s)) (f64_sub (current_y next) (current_y s))
    (f64_sub (current_z next) (current_z s)) (ms_feedrate next) (ms_acceleration next) (f64_lit 1 2)
    (current_x s) (current_y s) (current_z s).

(** The first two phases of a move with a cruise phase, and the code before them. *)
Definition move_start (P : TrapezoidalProfile) : list Instruction :=
  motion_prologue P ++ [load_imm REG_POS_X (VF64 (start_x P))] ++ load_start_yz P.
Definition two_phases (P : TrapezoidalProfile) : list Instruction :=
  emit_profile_phase (emit_profile_phase (move_start P) P (accel_cycles P) (target_velocity P)
    (acceleration P) true false) P (cruise_cycles P) (target_velocity P) (acceleration P)
    false false.

(** Where a program that starts with such a move has them. *)
Lemma linear_code c rest s p :
  let P := motion_profile c s in
  kind c = Motion → g_code c = Some 1 →
  f64_leb f64_1e9 (distance P) = true → f64_ltb (distance P) f64_1e9 = false →
  f64_ltb f64_zero (cruise_distance P) = true →
  compile_commands (c :: rest) s = Some (Ok p) →
  code_at p 0 (gcode_prologue ++ two_phases P) ∧ code_at p 0 (gcode_prologue ++ move_start P).
Proof.
  cbv zeta. set (P := motion_profile c s). intros Hk Hg Hd1 Hd2 Hcr Hc.
  destruct (compile_commands_inv _ _ _ Hc) as (code & sigs & E & Hp).
  assert (Ec : emit_command c s =
    (program ← generate_trapezoidal_program P; Some (Ok (instructions program, prog_signals program)))).
  { unfold emit_command. rewrite Hk. unfold emit_motion. rewrite Hg. cbn [default Z.eqb Pos.eqb].
    unfold distance in Hd1. change (f64_leb f64_1e9 _) with (f64_leb f64_1e9 (distance P)).
    fold (distance P) in Hd1. by rewrite Hd1. }
  unfold generate_trapezoidal_program in Ec. fold (motion_prologue P) in Ec.
  rewrite (emit_g1_trapezoid P _ Hd2 Hcr) in Ec. cbn [mbind option_bind] in Ec.
  destruct (emit_commands_inv _ _ _ _ _ _ _ Ec E) as (code' & ->). clear E Ec Hc.
  cbn [HalIr.instructions] in Hp. fold (move_start P) (two_phases P) in Hp.
  assert (code_at p 0 (gcode_prologue ++ two_phases P)) as Hall.
  { destruct (emit_profile_phase_prefix (two_phases P) P (accel_cycles P) (target_velocity P)
      (acceleration P) false true) as (x & X & _).
    exists [], (x ++ code'). split; [|done]. rewrite Hp, X. cbn [app].
    by rewrite <- !(assoc_L (++)). }
  split; [exact Hall|]. unfold two_phases in Hall.
  destruct (emit_profile_phase_prefix (move_start P) P (accel_cycles P) (target_velocity P) (acceleration P)
    true false) as (x1 & X1 & _).
  destruct (emit_profile_phase_prefix (emit_profile_phase (move_start P) P (accel_cycles P) (target_velocity P)
    (acceleration P) true false) P (cruise_cycles P) (target_velocity P) (acceleration P)
    false false) as (x2 & X2 & _).
  rewrite X2, X1, <- !(assoc_L (++)), (assoc_L (++)) in Hall. by apply code_at_prefix in Hall.
Qed.

(** [C24] A program that starts with a linear move never ends: if the first
    command is a G1 with a cruise phase and its acceleration or its cruise takes
    two cycles or more, the compiled program runs for ever whatever follows, M2
    and M30 included.  The jump targets of the motion code are positions in the
    motion program; the compiler appends that code after its own two loads
    without relocating them, so the loop jumps back to before the load of its
    counter. *)
Theorem gcode_linear_diverges c rest s p :
  let P := motion_profile c s in
  kind c = Motion → g_code c = Some 1 →
  f64_leb f64_1e9 (distance P) = true → f64_ltb (distance P) f64_1e9 = false →
  f64_ltb f64_zero (cruise_distance P) = true →
  2 ≤ accel_cycles P ∨ 2 ≤ cruise_cycles P →
  compile_commands (c :: rest) s = Some (Ok p) →
  ∀ fuel, run_to_halt fuel (executor_new p) = OutOfFuel.
Proof.
  cbv zeta. set (P := motion_profile c s). intros Hk Hg Hd1 Hd2 Hcr Hcyc Hc.
  destruct (linear_code c rest s p Hk Hg Hd1 Hd2 Hcr Hc) as [Hall Cpre]. fold P in Hall, Cpre.
  intros fuel. change (run_to_halt fuel (executor_new p)) with
    (run_loop fuel (mkExecutor vm_new p debug_new) 0).
  generalize 0%nat as k. revert fuel. change (diverges (mkExecutor vm_new p debug_new)).
  destruct (exec_prologue P (advance_ip (set_reg (advance_ip (set_reg vm_new GREG_ZERO
    (VF64 f64_zero))) GREG_ONE (VF64 f64_one))) eq_refl) as (m0 & E0 & K0).
  fold (move_start P) in E0.
  assert (Epre : exec_seq vm_new (gcode_prologue ++ move_start P) = Some m0).
  { rewrite exec_seq_app. unfold gcode_prologue. rewrite !exec_load_seq by (cbv; lia). exact E0. }
  assert (Dpre : data_code (gcode_prologue ++ move_start P) = true).
  { unfold move_start. by rewrite !data_code_app, data_load_start. }
  destruct (continues_seq (gcode_prologue ++ move_start P) vm_new p debug_new m0 eq_refl Dpre Cpre Epre)
    as [R I].
  eapply diverges_after; [exact R|].
  eapply (two_phases_diverge P p m0 _ (move_start P) (target_velocity P) (acceleration P) gcode_prologue);
    [| reflexivity | exact Hcyc | exact Hall | | exact K0].
  - unfold move_start. rewrite !length_app. pose proof (load_start_length P). cbn [length motion_prologue]. lia.
  - rewrite I, length_app. cbn [length gcode_prologue ip vm_new]. lia.
Qed.

(** ** What the compiler ignores *)

(** Modal states that differ at most in the unit mode and the line. *)
Definition same_motion (s t : ModalState) : Prop :=
  motion_mode s = motion_mode t ∧ coord_mode s = coord_mode t ∧ plane s = plane t ∧
  ms_feedrate s = ms_feedrate t ∧ ms_acceleration s = ms_acceleration t ∧
  current_x s = current_x t ∧ current_y s = current_y t ∧ current_z s = current_z t.

Lemma advance_same_motion s t c : same_motion s t → same_motion (advance s c) (advance t c).
Proof.
  destruct s, t. unfold same_motion. cbn. intros (-> & -> & -> & -> & -> & -> & -> & ->).
  destruct c as [kd g m x y z i j k r f sp p n line]. unfold advance. cbn [kind].
  destruct kd; cbn [g_code cs]; try done.
  - unfold update_position.
    destruct g as [g|]; [destruct (Prelude.between 0 3 g)|]; cbn; destruct (_ =? 90), f; done.
  - by destruct sp.
  - destruct g as [g|]; [|done].
    destruct (is_one_of [17; 18; 19] g); [done|].
    destruct (is_one_of [20; 21] g); [done|].
    destruct (is_one_of [90; 91] g); [done|]. by destruct (g =? 80).
Qed.

Lemma emit_same_motion c s t : same_motion s t → emit_command c s = emit_command c t.
Proof.
  intros Hst. pose proof (advance_same_motion s t c Hst) as Hn.
  unfold emit_command, emit_motion, emit_g0, emit_arc, arc_axes.
  revert Hst Hn. generalize (advance s c) as s', (advance t c) as t'. intros s' t' Hst Hn.
  destruct s, t, s', t'. unfold same_motion in *. cbn in Hst, Hn |- *.
  destruct Hst as (-> & -> & -> & -> & -> & -> & -> & ->).
  destruct Hn as (-> & -> & -> & -> & -> & -> & -> & ->). done.
Qed.

Lemma emit_commands_same_motion cmds s t :
  same_motion s t → emit_commands cmds s = emit_commands cmds t.
Proof.
  revert s t. induction cmds as [|c cmds IH]; intros s t Hst; [done|]. cbn [emit_commands].
  rewrite (emit_same_motion c s t Hst).
  by rewrite (IH (advance s c) (advance t c)) by by apply advance_same_motion.
Qed.

(** Units are never converted: a program compiles to the same program in
    inch and in millimetre mode, and removing a line whose only code is G20 or
    G21 changes nothing: [G20 / G0 X1] moves one millimetre. *)
Theorem units_ignored c cmds s :
  kind c = Modal → (g_code c = Some 20 ∨ g_code c = Some 21) →
  emit_commands (c :: cmds) s = emit_commands cmds s.
Proof.
  intros Hk Hg. cbn [emit_commands]. unfold emit_command. rewrite Hk. cbn [presult_bind].
  rewrite (emit_commands_same_motion cmds (advance s c) s).
  - by destruct (emit_commands cmds s) as [[[code sigs]|]|].
  - unfold advance. rewrite Hk. by destruct Hg as [-> | ->], s.
Qed.

Lemma skip_codeless pre c cmds s :
  g_code c = None → m_code c = None → kind c = Unknown →
  emit_commands (pre ++ c :: cmds) s = emit_commands (pre ++ cmds) s.
Proof.
  intros Hg Hm Hk. revert s. induction pre as [|d pre IH]; intros s.
  - cbn [app emit_commands]. unfold emit_command at 1. rewrite Hk, Hg, Hm. cbn [presult_bind].
    rewrite (emit_commands_same_motion cmds (advance s c) s).
    + by destruct (emit_commands cmds s) as [[[code sigs]|]|].
    + unfold advance. by rewrite Hk; destruct s.
  - cbn [app emit_commands]. by rewrite IH.
Qed.

(** A line without a G or M code is ignored: coordinates alone do not move
    the axes, although the motion mode is modal state; the program is the one
    without the line. *)
Theorem codeless_line_ignored pre c cmds s :
  g_code c = None → m_code c = None → kind c = Unknown →
  compile_commands (pre ++ c :: cmds) s = compile_commands (pre ++ cmds) s.
Proof. intros. unfold compile_commands. by rewrite skip_codeless. Qed.

(** Unsupported codes are rejected: when every command before it compiles,
    a command of unknown kind with a G code makes the compiler return
    [UnsupportedCommand] with its line and that code, whatever follows; one with
    only an M code returns that code. *)
Theorem unsupported_rejected pre c rest s code sigs :
  emit_commands pre s = Some (Ok (code, sigs)) → kind c = Unknown →
  compile_commands (pre ++ c :: rest) s =
  match g_code c, m_code c with
  | Some g, _ => Some (Err (UnsupportedCommand (cmd_line c) ("G" +:+ pretty.pretty g)))
  | None, Some m => Some (Err (UnsupportedCommand (cmd_line c) ("M" +:+ pretty.pretty m)))
  | None, None => compile_commands (pre ++ rest) s
  end.
Proof.
  intros Hpre Hk.
  assert (Hgen : ∀ e, (∀ s, emit_command c s = Some (Err e)) →
    compile_commands (pre ++ c :: rest) s = Some (Err e)).
  { intros e He. unfold compile_commands.
    enough (emit_commands (pre ++ c :: rest) s = Some (Err e)) as -> by done.
    revert s code sigs Hpre. induction pre as [|d pre IH]; intros s code sigs Hpre.
    - cbn [app emit_commands]. by rewrite He.
    - cbn [app emit_commands] in *.
      destruct (emit_command d s) as [[[k1 s1]|]|]; [|discriminate..]. cbn [presult_bind] in *.
      destruct (emit_commands pre (advance s d)) as [[[k2 s2]|]|] eqn:E; [|discriminate..].
      by rewrite (IH _ _ _ E). }
  destruct (g_code c) as [g|] eqn:Hg; [|destruct (m_code c) as [m|] eqn:Hm].
  - apply Hgen. intros s'. unfold emit_command. by rewrite Hk, Hg.
  - apply Hgen. intros s'. unfold emit_command. by rewrite Hk, Hg, Hm.
  - unfold compile_commands. by rewrite skip_codeless.
Qed.

(** ** Arcs *)
Definition axis_writes (a : ArcAxis) (v : Z) : Writes :=
  [(ax_name a +:+ ".pos", VF64 v); (ax_name a +:+ ".enable", VBool true)].

(** The point of the [i]th chord. *)
Definition arc_point (center_a center_b radius start_angle per_segment l0 per_linear : Z) (i : Z)
  : Z * Z * Z :=
  let angle := f64_add start_angle (f64_mul (f64_of_Z i) per_segment) in
  (f64_add center_a (f64_mul radius (f64_cos angle)),
   f64_add center_b (f64_mul radius (f64_sin angle)),
   f64_add l0 (f64_mul (f64_of_Z i) per_linear)).

Definition point_writes (a b l : ArcAxis) (pt : Z * Z * Z) : Writes :=
  axis_writes a pt.1.1 ++ axis_writes b pt.1.2 ++ axis_writes l pt.2.

(** [performs] for code that runs with the enable value in its register. *)
Definition performs_enabled (code : list Instruction) (w : Writes) : Prop :=
  data_code code = true ∧
  ∀ m, length (registers m) = REGISTER_COUNT → read_register m GREG_STEP = Some (VBool true) →
    ∃ m', exec_seq m code = Some m' ∧ length (registers m') = REGISTER_COUNT ∧
      read_register m' GREG_STEP = Some (VBool true) ∧ signals m' = write_all (signals m) w.

Lemma performs_enabled_app c1 w1 c2 w2 :
  performs_enabled c1 w1 → performs_enabled c2 w2 → performs_enabled (c1 ++ c2) (w1 ++ w2).
Proof.
  intros [D1 P1] [D2 P2]. split; [by rewrite data_code_app, D1, D2|].
  intros m Hm He. destruct (P1 m Hm He) as (m1 & E1 & L1 & R1 & S1).
  destruct (P2 m1 L1 R1) as (m2 & E2 & L2 & R2 & S2).
  exists m2. rewrite exec_seq_app, E1. cbn [mbind option_bind].
  split_and!; [done | done | done | by rewrite write_all_app, <- S1].
Qed.

Lemma store_axis_performs a v : performs_enabled (store_axis a v) (axis_writes a v).
Proof.
  split; [done|]. intros m Hm He. unfold store_axis. rewrite exec_load_seq by (cbv; lia).
  erewrite exec_seq_cons; [|done|apply (exec_store_reg _ _ _ (VF64 v)); by read_sets].
  erewrite exec_seq_cons; [|done|apply (exec_store_reg _ _ _ (VBool true))].
  2: { rewrite read_advance, read_write_signal, read_advance, read_set_other by discriminate. exact He. }
  eexists. split; [reflexivity|]. split_and!; [by cbn; rewrite length_insert | | reflexivity].
  rewrite read_advance, read_write_signal, read_advance, read_write_signal, read_advance,
    read_set_other by discriminate. exact He.
Qed.

Lemma chord_performs a b l ca cb radius start per lin i :
  performs_enabled (arc_chord a b l ca cb radius start per lin i)
    (point_writes a b l (arc_point ca cb radius start per (ax_start l) lin i)).
Proof.
  unfold arc_chord, point_writes, arc_point. cbv zeta. cbn [fst snd].
  repeat apply performs_enabled_app; apply store_axis_performs.
Qed.

Lemma chords_perform a b l ca cb radius start per lin ns :
  performs_enabled
    (concat (map (fun i => arc_chord a b l ca cb radius start per lin (Z.of_nat i)) ns))
    (concat (map (fun i => point_writes a b l
       (arc_point ca cb radius start per (ax_start l) lin (Z.of_nat i))) ns)).
Proof.
  induction ns as [|i ns IH]; cbn [map concat].
  - split; [done|]. intros m Hm He. by exists m.
  - apply performs_enabled_app; [apply chord_performs | exact IH].
Qed.

Lemma arc_code_performs a b l ca cb radius start per lin ns :
  performs
    (load_imm GREG_STEP (VBool true) ::
     concat (map (fun i => arc_chord a b l ca cb radius start per lin (Z.of_nat i)) ns))
    (concat (map (fun i => point_writes a b l
       (arc_point ca cb radius start per (ax_start l) lin (Z.of_nat i))) ns)).
Proof.
  destruct (chords_perform a b l ca cb radius start per lin ns) as [D P].
  split; [exact D|]. intros m Hm. rewrite exec_load_seq by (cbv; lia).
  destruct (P (advance_ip (set_reg m GREG_STEP (VBool true)))) as (m' & E & L & _ & S);
    [by rewrite length_advance_set | by read_sets |].
  exists m'. split_and!; [exact E | exact L | exact S].
Qed.

Lemma arc_segments_range radius sweep : 1 ≤ arc_segments radius sweep < 2 ^ 32.
Proof.
  unfold arc_segments. match goal with |- context [f64_to_u32 ?z] =>
    pose proof (f64_to_u32_range z) end. lia.
Qed.

(** An arc is a sequence of chords: when the compiler accepts a G2 or G3,
    the plane selects two arc axes and a linear axis, the center is that of the
    I, J, K or R words, and the code is empty or, run from any machine, writes
    between 1 and [2 ^ 32 - 1] points in order; point [i] lies at the start angle
    plus [i] equal steps on the circle around the center through the start, and at
    [i] equal steps along the linear axis; at every point all three axes are
    written and enabled. *)
Theorem arc_is_chords g prev next c code :
  emit_arc g prev next c = Ok code →
  ∃ a b l ca cb, arc_axes (plane prev) prev next = Some (a, b, l) ∧
    calculate_arc_center (ax_start a) (ax_start b) (ax_end a) (ax_end b) (ci c) (cj c) (ck c) (cr c)
      (plane prev) (cmd_line c) = Ok (ca, cb) ∧
    (code = [] ∨
     let radius := f64_sqrt (f64_add (f64_sq (f64_sub (ax_start a) ca)) (f64_sq (f64_sub (ax_start b) cb))) in
     let start := f64_atan2 (f64_sub (ax_start b) cb) (f64_sub (ax_start a) ca) in
     f64_ltb radius f64_1e9 = false ∧
     ∃ sweep n, 1 ≤ n < 2 ^ 32 ∧
       performs code
         (concat (map (fun i => point_writes a b l
            (arc_point ca cb radius start (f64_div sweep (f64_of_Z n)) (ax_start l)
               (f64_div (f64_sub (ax_end l) (ax_start l)) (f64_of_Z n)) (Z.of_nat i)))
          (seq 1 (Z.to_nat n))))).
Proof.
  unfold emit_arc. destruct (arc_axes (plane prev) prev next) as [[[a b] l]|]; [|discriminate].
  destruct (calculate_arc_center _ _ _ _ _ _ _ _ _ _) as [[ca cb]|e] eqn:Ec; [|discriminate].
  cbn [result_bind]. intros He. exists a, b, l, ca, cb. split; [done|]. split; [exact Ec|]. clear Ec.
  match type of He with (if f64_ltb ?r _ then _ else _) = _ => remember r as radius eqn:Hr in He end.
  destruct (f64_ltb radius f64_1e9) eqn:Er; [discriminate|].
  match type of He with (if f64_ltb (f64_abs ?s) _ then _ else _) = _ =>
    generalize dependent s end.
  intros sweep He. destruct (f64_ltb (f64_abs sweep) f64_1e9); [left; by injection He as <-|right].
  cbv zeta. rewrite <- Hr. split; [exact Er|]. exists sweep, (arc_segments radius sweep).
  split; [apply arc_segments_range|]. injection He as <-. apply arc_code_performs.
Qed.
End profile.

(** ** Witnesses *)
#[local] Transparent f64_add f64_sub f64_mul f64_div f64_one f64_zero f64_of_Z.

#[local] Instance no_trig : FloatFunctions :=
  {| f64_sin := id; f64_cos := id; f64_acos := id; f64_atan2 := fun _ y => y;
     f64_hypot := fun x _ => x; f64_display := fun _ => "" |}.

Definition sample_commands (src : string) : list GCodeCommand :=
  match tokenize (H := debug_profile) (string_bytes src) with
  | Some toks => parse_all toks
  | None => []
  end.

Definition nth_command (l : list GCodeCommand) (i : nat) : GCodeCommand :=
  default (command_new 0) (l !! i).

Definition compiled (src : string) : HalProgram :=
  match compile_commands (HB := debug_profile) (sample_commands src) modal_new with
  | Some (Ok p) => p
  | _ => program_new "" []
  end.

Definition rapid_source : string := "G91
G0 X10 Y5
G0 X5 Y-5
M3 S1000
M30".

(** The Y axis is left at 5: the second move's target 0 is not written. *)
Lemma gcode_rapid_program_witness :
  ∃ e n, run_to_halt (H := debug_profile) n (executor_new (compiled rapid_source)) = Done e n ∧
    signals (vm e) !! "axis.0.pos" = Some (VF64 (f64_of_Z 15)) ∧
    signals (vm e) !! "axis.1.pos" = Some (VF64 (f64_of_Z 5)) ∧
    signals (vm e) !! "spindle.rpm" = Some (VF64 (f64_of_Z 1000)).
Proof.
  destruct (gcode_rapid_program (HB := debug_profile) (take 4 (sample_commands rapid_source))
    (nth_command (sample_commands rapid_source) 4) [] modal_new
    (compiled rapid_source)) as (e & n & R & S);
    [vm_compute; reflexivity | vm_compute; reflexivity | right; vm_compute; reflexivity
    | vm_compute; reflexivity |].
  exists e, n. split; [apply R; lia|]. rewrite S. split_and!; vm_compute; reflexivity.
Defined.

Definition linear_source : string := "G1 X100 F300
M30".

Lemma gcode_linear_diverges_witness :
  run_to_halt (H := debug_profile) 1000 (executor_new (compiled linear_source)) = OutOfFuel.
Proof.
  apply (gcode_linear_diverges (HB := debug_profile)
    (nth_command (sample_commands linear_source) 0)
    (drop 1 (sample_commands linear_source)) modal_new (compiled linear_source));
    [vm_compute; reflexivity | vm_compute; reflexivity | vm_compute; reflexivity
    | vm_compute; reflexivity | vm_compute; reflexivity | right; vm_compute; discriminate
    | vm_compute; reflexivity].
Defined.

Lemma units_ignored_witness :
  emit_commands (HB := debug_profile) (sample_commands "G20
G0 X1") modal_new = emit_commands (HB := debug_profile) (sample_commands "G0 X1") modal_new.
Proof.
  exact (units_ignored (HB := debug_profile)
    (default (command_new 0) (sample_commands "G20" !! 0%nat)) (sample_commands "G0 X1") modal_new
    eq_refl (or_introl eq_refl)).
Defined.

Definition codeless_commands : list GCodeCommand := sample_commands "G0 X1
Y2
M30".

(** The line [Y2] alone does not move the axis. *)
Lemma codeless_line_ignored_witness :
  compile_commands (HB := debug_profile)
    ([nth_command codeless_commands 0] ++ nth_command codeless_commands 1 ::
     [nth_command codeless_commands 2]) modal_new =
  compile_commands (HB := debug_profile)
    ([nth_command codeless_commands 0] ++ [nth_command codeless_commands 2]) modal_new.
Proof.
  exact (codeless_line_ignored (HB := debug_profile) [nth_command codeless_commands 0]
    (nth_command codeless_commands 1) [nth_command codeless_commands 2] modal_new
    eq_refl eq_refl eq_refl).
Defined.

Lemma unsupported_rejected_witness :
  compile_commands (HB := debug_profile) (sample_commands "G0 X1
G99 X10
M30") modal_new = Some (Err (UnsupportedCommand 2 "G99")).
Proof.
  exact (unsupported_rejected (HB := debug_profile) (take 1 (sample_commands "G0 X1
G99 X10
M30")) (default (command_new 0) (sample_commands "G0 X1
G99 X10
M30" !! 1%nat)) (drop 2 (sample_commands "G0 X1
G99 X10
M30")) modal_new _ _ eq_refl eq_refl).
Defined.

Definition arc_command : GCodeCommand := nth_command (sample_commands "G2 X10 Y10 I10 J0") 0.
Definition arc_code : list Instruction :=
  match emit_arc 2 modal_new (advance modal_new arc_command) arc_command with
  | Ok code => code
  | Err _ => []
  end.

Lemma arc_is_chords_witness :
  ∃ a b l ca cb,
    arc_axes (plane modal_new) modal_new (advance modal_new arc_command) = Some (a, b, l) ∧
    calculate_arc_center (ax_start a) (ax_start b) (ax_end a) (ax_end b) (ci arc_command)
      (cj arc_command) (ck arc_command) (cr arc_command) (plane modal_new) (cmd_line arc_command) =
    Ok (ca, cb).
Proof.
  assert (He : emit_arc 2 modal_new (advance modal_new arc_command) arc_command = Ok arc_code)
    by (vm_compute; reflexivity).
  destruct (arc_is_chords (HB := debug_profile) 2 modal_new (advance modal_new arc_command)
    arc_command arc_code He) as (a & b & l & ca & cb & Ha & Hc & _).
  exists a, b, l, ca, cb. split; [exact Ha | exact Hc].
Defined.
