(* ===== verification/Flow.v ===== *)
(** * Symbolic execution of code that falls through

    A [JumpIf] whose first operand is a register never jumps, so code whose
    only jumps are of that kind runs from its first to its last instruction.
    [sym_code] executes such code symbolically: it knows what a register holds
    as an expression over the signals at the start, or not at all, and collects
    the signal writes.  [sym_code_sound] relates it to the machine; the facts
    about the axis-group programs are computed with it. *)
From S2P Require Import Prelude Float HalTypes HalValue HalIr FunctionBlocks Vm.
From S2P Require Import Executor ExecutorFacts ExecutorControl StraightLine.
Local Open Scope Z_scope.

Inductive BinOp := BAdd | BSub | BMul.

(** A value over the initial signals. *)
Inductive SymVal :=
  | SConst (v : HalValue)
  | SSig (x : string)
  | SOp (op : BinOp) (a b : SymVal).

Definition bin_float (op : BinOp) : Z → Z → Z :=
  match op with
  | BAdd => float_add binary64
  | BSub => float_sub binary64
  | BMul => float_mul binary64
  end.

(** Arithmetic with at least one binary64 operand. *)
Definition f64_binop (f : Z → Z → Z) (x y : HalValue) : HalValue :=
  match x, y with VF64 a, VF64 b => VF64 (f a b) | _, _ => VS32 0 end.

Fixpoint denote (a : SymVal) (s : gmap string HalValue) : HalValue :=
  match a with
  | SConst v => v
  | SSig x => default (VBool false) (s !! x)
  | SOp op a b => f64_binop (bin_float op) (denote a s) (denote b s)
  end.

Fixpoint is_f64 (a : SymVal) : bool :=
  match a with
  | SConst (VF64 _) => true
  | SOp _ a b => is_f64 a && is_f64 b
  | _ => false
  end.
Definition known_f64 (o : option SymVal) : bool :=
  match o with Some a => is_f64 a | None => false end.

Record SymState := mkSym {
  sym_regs : list (option SymVal);
  sym_writes : list (string * SymVal) }.

Definition sym_start : SymState := mkSym (replicate REGISTER_COUNT None) [].

Definition sym_set (st : SymState) (d : nat) (o : option SymVal) : SymState :=
  mkSym (<[d := o]> (sym_regs st)) (sym_writes st).

Definition reg_ok (r : nat) : bool := (r <? REGISTER_COUNT)%nat.

Definition sym_binop (st : SymState) (op : BinOp) (a b d : nat) : option SymState :=
  match sym_regs st !! a, sym_regs st !! b with
  | Some va, Some vb =>
      if reg_ok d && (known_f64 va || known_f64 vb) then
        Some (sym_set st d (match va, vb with Some x, Some y => Some (SOp op x y) | _, _ => None end))
      else None
  | _, _ => None
  end.

Definition is_compare (op : Opcode) : bool :=
  match op with OpEq | OpNeq | OpGt | OpLt | OpGte | OpLte => true | _ => false end.

Definition sym_inst (st : SymState) (i : Instruction) : option SymState :=
  match opcode i, operands i with
  | OpLoad, [Register d; Immediate v] =>
      if reg_ok d then Some (sym_set st d (Some (SConst v))) else None
  | OpLoad, [Register d; SignalName x] =>
      if reg_ok d then
        Some (sym_set st d (match sym_writes st with [] => Some (SSig x) | _ => None end))
      else None
  | OpAdd, [Register a; Register b; Register d] => sym_binop st BAdd a b d
  | OpSub, [Register a; Register b; Register d] => sym_binop st BSub a b d
  | OpMul, [Register a; Register b; Register d] => sym_binop st BMul a b d
  | OpStore, [SignalName x; Register r] =>
      match sym_regs st !! r with
      | Some (Some a) => Some (mkSym (sym_regs st) (sym_writes st ++ [(x, a)]))
      | _ => None
      end
  | OpJumpIf, Register _ :: _ => Some st
  | op, [Register a; Register b] =>
      if is_compare op && reg_ok a && reg_ok b then Some st else None
  | _, _ => None
  end.

Fixpoint sym_code (st : SymState) (code : list Instruction) : option SymState :=
  match code with
  | [] => Some st
  | i :: code => st ← sym_inst st i; sym_code st code
  end.

Definition writes_of (s : gmap string HalValue) (st : SymState) : list (string * HalValue) :=
  map (fun '(x, a) => (x, denote a s)) (sym_writes st).

(** The machine is in the symbolic state, for the initial signals [s]. *)
Record models (s : gmap string HalValue) (st : SymState) (m : Vm) : Prop := {
  mo_len : length (registers m) = REGISTER_COUNT;
  mo_sym : length (sym_regs st) = REGISTER_COUNT;
  mo_regs : ∀ i a, sym_regs st !! i = Some (Some a) → read_register m i = Some (denote a s);
  mo_signals : signals m = write_all s (writes_of s st) }.

Lemma models_start m : length (registers m) = REGISTER_COUNT → models (signals m) sym_start m.
Proof.
  intros Hl. split; [done | done | | done]. intros i a Hi. unfold sym_start in Hi. cbn [sym_regs] in Hi.
  by apply lookup_replicate in Hi as [? _].
Qed.

(** A machine in a state is in the same state without its writes, for its
    current signals, if the known values do not mention signals. *)
Lemma models_advance s st m : models s st m → models s st (advance_ip m).
Proof. by intros [? ? ? ?]. Qed.

Lemma models_flags s st m b : models s st m → models s st (set_flags_zero m b).
Proof. by intros [? ? ? ?]. Qed.

Lemma models_set s st m d o v :
  models s st m → reg_ok d = true → (∀ a, o = Some a → v = denote a s) →
  models s (sym_set st d o) (set_reg m d v).
Proof.
  intros [L1 L2 R S] Hd%Nat.ltb_lt Ho. split; cbn [sym_set sym_regs].
  - by rewrite set_reg_length.
  - by rewrite length_insert.
  - intros i a Hi. destruct (decide (i = d)) as [->|Hne].
    + rewrite list_lookup_insert_eq in Hi by lia. injection Hi as ->.
      rewrite read_set_same by (done || lia). by rewrite (Ho a).
    + rewrite list_lookup_insert_ne in Hi by done. rewrite read_set_other by done. by apply R.
  - exact S.
Qed.

(** Known or not, a register can be read. *)
Lemma models_read s st m i o :
  models s st m → sym_regs st !! i = Some o →
  ∃ v, read_register m i = Some v ∧ (∀ a, o = Some a → v = denote a s).
Proof.
  intros [L1 L2 R _] Hi. pose proof (lookup_lt_Some _ _ _ Hi) as Hlt. rewrite L2 in Hlt.
  unfold read_register in *. rewrite (proj2 (Nat.ltb_lt _ _)) in * by done.
  destruct (registers m !! i) as [v|] eqn:E.
  - exists v. split; [done|]. intros a ->. specialize (R i a Hi).
    rewrite (proj2 (Nat.ltb_lt _ _) Hlt), E in R. by injection R.
  - apply lookup_ge_None in E. lia.
Qed.

Lemma models_read_ok s st m i :
  models s st m → reg_ok i = true → ∃ v, read_register m i = Some v.
Proof.
  intros [L1 _ _ _] Hi. unfold reg_ok in Hi. unfold read_register. rewrite Hi.
  apply Nat.ltb_lt in Hi. apply lookup_lt_is_Some. lia.
Qed.

Section profile.
Context `{HB : BuildProfile}.

Lemma hal_binop_f64 iop f x y :
  (∃ b, y = VF64 b) ∨ (∃ a, x = VF64 a) →
  hal_binop iop f x y = Some (f64_binop (f binary64) x y).
Proof. intros [[b ->]|[a ->]]; [by destruct x | by destruct y]. Qed.

Lemma is_f64_denote a s : is_f64 a = true → ∃ b, denote a s = VF64 b.
Proof.
  induction a as [v| |op a IHa b IHb]; cbn; intros Hf; [|done|].
  - destruct v; try done. by eexists.
  - apply andb_true_iff in Hf as [[x ->]%IHa [y ->]%IHb]. by eexists.
Qed.

Lemma known_f64_denote o v s :
  known_f64 o = true → (∀ a, o = Some a → v = denote a s) → ∃ b, v = VF64 b.
Proof.
  intros Hk Hv. destruct o as [a|]; [|done]. rewrite (Hv a eq_refl). by apply is_f64_denote.
Qed.

Definition bin_opcode (op : BinOp) : Opcode :=
  match op with BAdd => OpAdd | BSub => OpSub | BMul => OpMul end.

Lemma sym_binop_sound s st m op a b d st' :
  models s st m → sym_binop st op a b d = Some st' →
  ∃ m', execute_instruction m (mkInst (bin_opcode op) [Register a; Register b; Register d]) = cont m' ∧
    models s st' m'.
Proof.
  intros Hm. unfold sym_binop.
  destruct (sym_regs st !! a) as [va|] eqn:Ea; [|done].
  destruct (sym_regs st !! b) as [vb|] eqn:Eb; [|done].
  destruct (reg_ok d) eqn:Hd; [|done]. destruct (known_f64 va || known_f64 vb) eqn:Hk; [|done].
  cbn [andb]. intros [= <-].
  destruct (models_read s st m a va Hm Ea) as (x & Hx & Dx).
  destruct (models_read s st m b vb Hm Eb) as (y & Hy & Dy).
  assert (Hf : (∃ c, y = VF64 c) ∨ (∃ c, x = VF64 c)).
  { apply orb_true_iff in Hk as [Hk|Hk]; [right | left]; eapply known_f64_denote; eauto. }
  exists (set_reg m d (f64_binop (bin_float op) x y)). split.
  - pose proof (proj1 (Nat.ltb_lt _ _) Hd) as Hlt.
    destruct op; (eapply exec_binop_reg; [reflexivity | exact Hlt | exact Hx | exact Hy |];
      by apply hal_binop_f64).
  - apply models_set; [done | done |]. intros c Hc. destruct va as [u|], vb as [w|]; try done.
    injection Hc as <-. cbn [denote]. by rewrite (Dx u), (Dy w).
Qed.

Lemma exec_compare_regs m op a b x y :
  is_compare op = true → read_register m a = Some x → read_register m b = Some y →
  ∃ f, execute_instruction m (mkInst op [Register a; Register b]) = cont (set_flags_zero m f).
Proof.
  intros Hop Hx Hy. destruct op; try done;
    (eexists; unfold execute_instruction; cbn [opcode operands];
     unfold exec_compare, read_reg; rewrite Hx; cbn [mbind option_bind]; rewrite Hy;
     cbn [mbind option_bind]; reflexivity).
Qed.

(** A step the symbolic state follows. *)
Definition followed (s : gmap string HalValue) (st' : SymState) (m : Vm) (p : HalProgram) (d : DebugState) : Prop :=
  ∃ m', step (mkExecutor m p d) = Some (mkExecutor (advance_ip m') p d, Continue) ∧
    models s st' m' ∧ ip m' = ip m.

Lemma data_step m m' p d i :
  debug_mode d = false → instructions p !! ip m = Some i → is_jump (opcode i) = false →
  execute_instruction m i = cont m' →
  step (mkExecutor m p d) = Some (mkExecutor (advance_ip m') p d, Continue).
Proof.
  intros Hd Hi Hj He. rewrite (step_no_debug (mkExecutor m p d) i Hd Hi).
  unfold step_instruction. cbn [vm debug_state program]. rewrite He. cbn [mbind option_bind].
  rewrite Hd. cbn [mbind option_bind]. by rewrite Hj.
Qed.

Lemma binop_followed s st st' m p d op a b dd :
  debug_mode d = false → models s st m →
  instructions p !! ip m = Some (mkInst (bin_opcode op) [Register a; Register b; Register dd]) →
  sym_binop st op a b dd = Some st' → followed s st' m p d.
Proof.
  intros Hd Hm Hi Hb. destruct (sym_binop_sound s st m op a b dd st' Hm Hb) as (m' & He & Hm').
  exists m'. split; [eapply data_step; [exact Hd | exact Hi | by destruct op | exact He]|]. split; [exact Hm'|].
  apply control_data_op in He; [by injection He | by destruct op].
Qed.

Lemma compare_followed s st st' m p d op a b :
  debug_mode d = false → models s st m →
  instructions p !! ip m = Some (mkInst op [Register a; Register b]) →
  (if is_compare op && reg_ok a && reg_ok b then Some st else None) = Some st' → followed s st' m p d.
Proof.
  intros Hd Hm Hi Hc. destruct (is_compare op && reg_ok a && reg_ok b) eqn:E; [|done].
  injection Hc as <-. breflect.
  destruct (models_read_ok s st m a Hm) as [x Hx]; [done|].
  destruct (models_read_ok s st m b Hm) as [y Hy]; [done|].
  destruct (exec_compare_regs m op a b x y) as [f Hf]; [done..|].
  exists (set_flags_zero m f). split; [eapply data_step; [exact Hd | exact Hi | by destruct op | exact Hf]|].
  split; [by apply models_flags | done].
Qed.

Lemma flow_step s st m p d i st' :
  debug_mode d = false → models s st m → sym_inst st i = Some st' →
  instructions p !! ip m = Some i → followed s st' m p d.
Proof.
  intros Hd Hm Hs Hi.
  pose proof (fun m' => data_step m m' p d i Hd Hi) as Hstep.
  pose proof (fun op a b dd (E : i = mkInst (bin_opcode op) [Register a; Register b; Register dd]) =>
    binop_followed s st st' m p d op a b dd Hd Hm (eq_trans Hi (f_equal Some E))) as Hbin.
  pose proof (fun op a b (E : i = mkInst op [Register a; Register b]) =>
    compare_followed s st st' m p d op a b Hd Hm (eq_trans Hi (f_equal Some E))) as Hcmp.
  destruct i as [op ops]. cbn [opcode operands] in *. unfold sym_inst in Hs. cbn [opcode operands] in Hs.
  destruct op; destruct ops as [|[r0|v0|x0] [|[r1|v1|x1] [|[r2|v2|x2] [|? ?]]]]; try discriminate Hs;
    try (by apply (Hcmp _ _ _ eq_refl Hs)); try (by apply (Hbin BAdd _ _ _ eq_refl Hs));
    try (by apply (Hbin BSub _ _ _ eq_refl Hs)); try (by apply (Hbin BMul _ _ _ eq_refl Hs));
    try (injection Hs as <-; exists m;
         split; [|by split];
         rewrite (step_no_debug (mkExecutor m p d) _ Hd Hi); unfold step_instruction;
         cbn [opcode execute_instruction operands vm debug_state program];
         unfold exec_jump_if; destruct (flags_zero m); cbn [mbind option_bind cont];
         rewrite Hd; reflexivity).
  - (* Load immediate *)
    destruct (reg_ok r0) eqn:E; [|done]. injection Hs as <-.
    exists (set_reg m r0 v1). split.
    + apply Hstep; [done|]. apply exec_load_imm. by apply Nat.ltb_lt.
    + split; [|done]. apply models_set; [done | done |]. by intros a [= <-].
  - (* Load signal *)
    destruct (reg_ok r0) eqn:E; [|done]. injection Hs as <-.
    exists (set_reg m r0 (default (VBool false) (signals m !! x1))). split.
    + apply Hstep; [done|]. apply exec_load_signal. by apply Nat.ltb_lt.
    + split; [|done]. apply models_set; [done | done |]. intros a Ha.
      destruct (sym_writes st) eqn:Ew; [|done]. injection Ha as <-. cbn [denote].
      pose proof (mo_signals _ _ _ Hm) as Hsig. unfold writes_of in Hsig. rewrite Ew in Hsig.
      cbn in Hsig. by rewrite Hsig.
  - (* Store *)
    destruct (sym_regs st !! r1) as [[a|]|] eqn:E; try done. injection Hs as <-.
    exists (write_signal m x0 (denote a s)). split.
    + apply Hstep; [done|]. apply exec_store_reg. by apply (mo_regs _ _ _ Hm).
    + split; [|done]. destruct Hm as [L1 L2 R S]. split; [done | done | exact R |].
      cbn [write_signal with_signals signals]. rewrite S. unfold writes_of. cbn [sym_writes].
      rewrite map_app, write_all_app. done.
Qed.

(** Code that [sym_code] accepts runs from its first to its last instruction. *)
Lemma sym_code_sound code s st m p d st' :
  debug_mode d = false → models s st m → sym_code st code = Some st' → code_at p (ip m) code →
  ∃ m', continues (length code) (mkExecutor m p d) (mkExecutor m' p d) ∧
    ip m' = (ip m + length code)%nat ∧ models s st' m'.
Proof.
  intros Hd. revert st m. induction code as [|i code IH]; intros st m Hm Hs Hc; cbn in Hs.
  - injection Hs as <-. exists m. split; [constructor|]. split; [cbn; lia | done].
  - destruct (sym_inst st i) as [st1|] eqn:E; [|done]. cbn in Hs.
    apply code_at_cons in Hc as [Hi Hc].
    destruct (flow_step s st m p d i st1 Hd Hm E Hi) as (m1 & Hstep & Hm1 & Hip).
    destruct (IH st1 (advance_ip m1)) as (m' & Hrun & Hip' & Hm'); [by apply models_advance | done | |].
    { cbn [ip advance_ip set_ip]. by rewrite Hip. }
    exists m'. split; [by econstructor|]. split; [|done]. rewrite Hip'. cbn. lia.
Qed.

Definition no_halt (code : list Instruction) : bool :=
  forallb (fun i => negb (bool_decide (opcode i = OpHalt))) code.

Lemma sym_code_no_halt code st st' : sym_code st code = Some st' → no_halt code = true.
Proof.
  revert st. induction code as [|i code IH]; intros st; [done|]. cbn.
  destruct (sym_inst st i) as [st1|] eqn:E; [|done]. cbn. intros H. specialize (IH _ H).
  unfold no_halt in IH. rewrite IH, andb_true_r.
  destruct i as [op ops]. destruct op; try done.
  unfold sym_inst in E. cbn [opcode operands] in E.
  destruct ops as [|[r0|v0|x0] [|[r1|v1|x1] [|[r2|v2|x2] [|? ?]]]]; discriminate E.
Qed.

Lemma sym_code_app st c1 c2 :
  sym_code st (c1 ++ c2) = st' ← sym_code st c1; sym_code st' c2.
Proof.
  revert st. induction c1 as [|i c1 IH]; intros st; [done|]. cbn.
  destruct (sym_inst st i); [apply IH | done].
Qed.

(** ** Blocks between which only some registers are known

    Between two blocks only the constants [cs] of the registers matter. *)
Fixpoint base (cs : list (nat * Z)) : SymState :=
  match cs with
  | [] => sym_start
  | (r, c) :: cs => sym_set (base cs) r (Some (SConst (VF64 c)))
  end.

Definition consts (cs : list (nat * Z)) (m : Vm) : Prop :=
  length (registers m) = REGISTER_COUNT ∧
  Forall (λ '(r, c), (r < REGISTER_COUNT)%nat ∧ read_register m r = Some (VF64 c)) cs.

Definition sym_consts (cs : list (nat * Z)) (st : SymState) : Prop :=
  Forall (λ '(r, c), (r < REGISTER_COUNT)%nat ∧
                     sym_regs st !! r = Some (Some (SConst (VF64 c)))) cs.

Lemma models_base cs m : consts cs m → models (signals m) (base cs) m.
Proof.
  intros [Hl Hc]. induction Hc as [|[r c] cs [Hr Hv] _ IH]; [by apply models_start|].
  destruct IH as [L1 L2 R S]. split; cbn [base sym_set sym_regs].
  - done.
  - by rewrite length_insert.
  - intros i a Hi. destruct (decide (i = r)) as [->|Hne].
    + rewrite list_lookup_insert_eq in Hi by lia. by injection Hi as <-.
    + rewrite list_lookup_insert_ne in Hi by done. by apply R.
  - rewrite S. clear. induction cs as [|[]]; [done|]. unfold writes_of in *. by cbn.
Qed.

Lemma sym_consts_models cs s st m : sym_consts cs st → models s st m → consts cs m.
Proof.
  intros Hc [L _ R _]. split; [done|]. eapply Forall_impl; [exact Hc|].
  intros [r c] [Hr E]. split; [done|]. by rewrite (R _ _ E).
Qed.

(** Code that runs wherever it is placed, from registers with [cs] to
    registers with [cs'], and writes [w]. *)
Definition runs (code : list Instruction) (pc : nat) (cs cs' : list (nat * Z))
    (w : gmap string HalValue → gmap string HalValue) : Prop :=
  ∀ p m d, debug_mode d = false → consts cs m → ip m = pc → code_at p pc code →
    ∃ n m', continues n (mkExecutor m p d) (mkExecutor m' p d) ∧
      ip m' = (pc + length code)%nat ∧ consts cs' m' ∧ signals m' = w (signals m).

Lemma runs_sym code pc cs cs' st :
  sym_code (base cs) code = Some st → sym_consts cs' st →
  runs code pc cs cs' (λ s, write_all s (writes_of s st)).
Proof.
  intros Hs Hc p m d Hd Hm Hip Hcode. subst pc.
  destruct (sym_code_sound code (signals m) (base cs) m p d st Hd) as (m' & R & I & M);
    [by apply models_base | done | done |].
  exists (length code), m'. split_and!; [done | done | | by destruct M].
  eapply sym_consts_models; eauto.
Qed.

Lemma runs_app c1 c2 pc cs1 cs2 cs3 w1 w2 :
  runs c1 pc cs1 cs2 w1 → runs c2 (pc + length c1) cs2 cs3 w2 →
  runs (c1 ++ c2) pc cs1 cs3 (λ s, w2 (w1 s)).
Proof.
  intros H1 H2 p m d Hd Hm Hip Hcode. apply code_at_app in Hcode as [Hc1 Hc2].
  destruct (H1 p m d Hd Hm Hip Hc1) as (n1 & m1 & R1 & I1 & C1 & S1).
  destruct (H2 p m1 d Hd C1 I1 Hc2) as (n2 & m2 & R2 & I2 & C2 & S2).
  exists (n1 + n2)%nat, m2. split_and!; [by eapply continues_app | | done | by rewrite S2, S1].
  rewrite I2, length_app. lia.
Qed.

(** Code in which a jump skips [c2]. *)
Lemma runs_skip c1 c2 c3 pc cs cs' st :
  sym_code (base cs) (c1 ++ c3) = Some st → sym_consts cs' st →
  runs (c1 ++ jump (Z.of_nat (pc + length c1 + S (length c2))) :: c2 ++ c3) pc cs cs'
    (λ s, write_all s (writes_of s st)).
Proof.
  intros Hs Hc p m d Hd Hm Hip Hcode. rewrite sym_code_app in Hs.
  destruct (sym_code (base cs) c1) as [st1|] eqn:E1; [|done]. cbn in Hs.
  apply code_at_app in Hcode as [Hc1 [Hj Hc3]%code_at_cons]. apply code_at_app in Hc3 as [_ Hc3].
  subst pc.
  destruct (sym_code_sound c1 (signals m) (base cs) m p d st1 Hd) as (m1 & R1 & I1 & M1);
    [by apply models_base | done | done |].
  set (t := (ip m + length c1 + S (length c2))%nat) in *.
  assert (M2 : models (signals m) st1 (set_ip m1 t)) by (destruct M1; by split).
  destruct (sym_code_sound c3 (signals m) st1 (set_ip m1 t) p d st Hd M2 Hs) as (m2 & R2 & I2 & M3).
  { replace (ip (set_ip m1 t)) with (S (ip m + length c1) + length c2)%nat by (cbn; unfold t; lia).
    exact Hc3. }
  exists (length c1 + (1 + length c3))%nat, m2. split_and!.
  - eapply continues_app; [exact R1|]. eapply continues_app; [|exact R2].
    replace t with (Z.to_nat (Z.of_nat t)) by lia. apply step_jump; [done|]. by rewrite I1.
  - rewrite I2. cbn [ip set_ip]. unfold t. rewrite !length_app. cbn. rewrite length_app. lia.
  - eapply sym_consts_models; eauto.
  - by destruct M3.
Qed.

(** A program of such code that ends with Halt. *)
Lemma runs_program code w m d name sigs chans fns cs cs' :
  runs code 0 cs cs' w → debug_mode d = false → consts cs m → ip m = 0%nat →
  let p := mkProgram name sigs chans (code ++ [halt]) fns in
  ∃ e n, (∀ fuel, (n ≤ fuel)%nat → run_to_halt fuel (mkExecutor m p d) = Done e n) ∧
    signals (vm e) = w (signals m).
Proof.
  intros Hr Hd Hm Hip p.
  destruct (Hr p m d Hd Hm Hip) as (n & m' & R & I & _ & Sg); [by exists [], [halt]|].
  exists (mkExecutor (advance_ip m') p d), (S n). split; [|done]. intros fuel Hf. unfold run_to_halt.
  rewrite (run_loop_complete n _ (mkExecutor m' p d) (mkExecutor (advance_ip m') p d) Halted 0);
    [f_equal; lia | exact R | | done | lia].
  rewrite (step_no_debug (mkExecutor m' p d) halt); [|done|].
  - unfold step_instruction. cbn. by rewrite Hd.
  - cbn. rewrite I. apply list_lookup_middle. lia.
Qed.
End profile.
