(* ===== verification/AxisConfig.v ===== *)
(** * CNC axis groups: configuration and emission helpers
    ([audesys-cnc-axis-group/src/config.rs])

    The generators push instructions and patch the target of a jump already
    pushed; [patch_jump] is that patch.  The helpers of the same name in the
    four generators differ only in the register they borrow, an argument
    here. *)
From S2P Require Import Prelude Float HalTypes HalValue HalIr Text.
From stdpp Require Import pretty.
Local Open Scope Z_scope.

Inductive AxisType := Linear | Rotary.
Inductive HomeDirection := Positive | Negative.
Inductive Plane := G17 | G18 | G19.

Definition f64_1 : Z := f64_of_Z 1.

Definition multiplier (d : HomeDirection) : Z :=
  match d with Positive => f64_1 | Negative => f64_neg f64_1 end.

Record AxisConfig := mkAxisConfig {
  ax_index : Z;
  ax_label : string;
  axis_type : AxisType;
  soft_limit_min : Z;
  soft_limit_max : Z;
  soft_limit_enable : bool;
  backlash_distance : Z;
  backlash_enable : bool;
  home_search_vel : Z;
  home_latch_vel : Z;
  home_backoff_dist : Z;
  home_offset : Z;
  home_max_dist : Z;
  home_latch_max_dist : Z;
  home_direction : HomeDirection }.

Definition axis_default : AxisConfig :=
  mkAxisConfig 0 "" Linear f64_zero (f64_of_Z 1000) true f64_zero false (f64_of_Z 50)
    (f64_of_Z 5) (f64_of_Z 2) f64_zero (f64_of_Z 2000) (f64_of_Z 50) Negative.

Definition with_axis (c : AxisConfig) (index : Z) (label : string) (t : AxisType) : AxisConfig :=
  mkAxisConfig index label t (soft_limit_min c) (soft_limit_max c) (soft_limit_enable c)
    (backlash_distance c) (backlash_enable c) (home_search_vel c) (home_latch_vel c)
    (home_backoff_dist c) (home_offset c) (home_max_dist c) (home_latch_max_dist c)
    (home_direction c).

Definition axis_linear (index : Z) (label : string) : AxisConfig :=
  with_axis axis_default index label Linear.
Definition axis_rotary (index : Z) (label : string) : AxisConfig :=
  with_axis axis_default index label Rotary.

Record AxisGroupConfig := mkGroup {
  group_name : string;
  group_label : string;
  axes : list AxisConfig;
  kinematics : string;
  default_plane : Plane }.

Definition group_new (name : string) (axes : list AxisConfig) : AxisGroupConfig :=
  mkGroup name "" axes "trivial" G17.

Definition default_xyz : AxisGroupConfig :=
  mkGroup "group.0" "XYZ Group" [axis_linear 0 "X"; axis_linear 1 "Y"; axis_linear 2 "Z"]
    "trivial" G17.

Definition axis_count (c : AxisGroupConfig) : nat := length (axes c).
Definition axis (c : AxisGroupConfig) (index : Z) : option AxisConfig :=
  axes c !! Z.to_nat index.

Definition signal_prefix (c : AxisGroupConfig) (index : Z) : string :=
  "group." +:+ group_name c +:+ ".axis." +:+ pretty index.

(** [s.replace('.', "_")] *)
Definition replace_dots (s : string) : string :=
  of_chars (map (fun c => if bool_decide (c = "."%char) then "_"%char else c) (chars s)).

(** ** Emission *)
Definition load_signal (reg : nat) (x : string) : Instruction :=
  mkInst OpLoad [Register reg; SignalName x].
Definition store_signal (x : string) (reg : nat) : Instruction :=
  mkInst OpStore [SignalName x; Register reg].

Definition binding (x var : string) (d : Direction) (t : HalPinType) : SignalBinding :=
  {| hal_signal_name := x; program_var := var; direction := d; hal_pin_type := t |}.
(** The binding [pfx.suffix] of an axis. *)
Definition axis_binding (pfx suffix : string) (d : Direction) (t : HalPinType) : SignalBinding :=
  binding (pfx +:+ "." +:+ suffix) (replace_dots pfx +:+ "_" +:+ suffix) d t.

Definition copy_reg (src dst zero_reg : nat) : Instruction := arith_inst OpAdd src zero_reg dst.

(** [temp := imm; reg == temp] *)
Definition cmp_eq_imm (temp reg : nat) (imm : Z) : list Instruction :=
  [load_imm temp (VF64 imm); cmp_inst OpEq reg temp].

(** [dst := reg + 0; dst <op> b] *)
Definition cmp_copy (op : Opcode) (zero_reg a b dst : nat) : list Instruction :=
  [copy_reg a dst zero_reg; cmp_inst op dst b].

(** [temp := imm; dst := reg + 0; dst != temp] *)
Definition cmp_ne_imm (temp zero_reg reg : nat) (imm : Z) (dst : nat) : list Instruction :=
  [load_imm temp (VF64 imm); copy_reg reg dst zero_reg; cmp_inst OpNeq dst temp].

(** The conditional jump, pushed with target 0; its index is returned. *)
Definition jump_if_reg (cond_reg : nat) : Instruction :=
  mkInst OpJumpIf [Register cond_reg; imm_u32 0].
Definition emit_jump_if_not (temp cond_reg : nat) (insts : list Instruction) : list Instruction * nat :=
  let insts := insts ++ cmp_eq_imm temp cond_reg f64_zero in
  (insts ++ [jump_if_reg cond_reg], length insts).

Definition patch_inst (target : Z) (i : Instruction) : Instruction :=
  match opcode i, operands i with
  | OpJumpIf, o0 :: _ :: ops => mkInst OpJumpIf (o0 :: imm_u32 (wrap_u 32 target) :: ops)
  | _, _ => i
  end.
(** The patch of the backlash generator, which also knows [Jump]. *)
Definition patch_any_inst (target : Z) (i : Instruction) : Instruction :=
  match opcode i, operands i with
  | OpJump, _ :: ops => mkInst OpJump (imm_u32 (wrap_u 32 target) :: ops)
  | _, _ => patch_inst target i
  end.

(** [patch_jump(instructions, jump_idx, instructions.len())] *)
Definition patch_jump (insts : list Instruction) (jump_idx target : nat) : list Instruction :=
  alter (patch_inst (Z.of_nat target)) jump_idx insts.
Definition patch_any (insts : list Instruction) (jump_idx target : nat) : list Instruction :=
  alter (patch_any_inst (Z.of_nat target)) jump_idx insts.
