(* ===== verification/SoftLimits.v ===== *)
(** * Soft limits ([audesys-cnc-axis-group/src/limits.rs]) *)
From S2P Require Import Prelude Float HalTypes HalValue HalIr AxisConfig.
Local Open Scope Z_scope.

Definition R_POS : nat := 0.
Definition R_HOMED : nat := 1.
Definition R_MIN : nat := 2.
Definition R_MAX : nat := 3.
Definition R_FAULT : nat := 4.
Definition R_SCRATCH : nat := 5.
Definition R_ZERO : nat := 6.
Definition R_ONE : nat := 7.

Definition limits_bindings (pfx : string) : list SignalBinding :=
  [axis_binding pfx "pos_cmd" ReadWrite TF64; axis_binding pfx "homed" Read TBool;
   axis_binding pfx "pos_fault" Write TBool].

(** The body of the loop over the axes. *)
Definition limits_axis (cfg : AxisGroupConfig) (insts : list Instruction) (ax : AxisConfig)
  : list Instruction :=
  if soft_limit_enable ax then
    let pfx := signal_prefix cfg (ax_index ax) in
    let insts := insts ++ [load_signal R_POS (pfx +:+ ".pos_cmd");
                           load_signal R_HOMED (pfx +:+ ".homed")] in
    let insts := insts ++ [copy_reg R_HOMED R_SCRATCH R_ZERO] ++ cmp_eq_imm R_MAX R_SCRATCH f64_1 in
    let '(insts, skip_idx) := emit_jump_if_not R_MAX R_SCRATCH insts in
    let insts := insts ++ [load_imm R_FAULT (VF64 f64_zero);
                           load_imm R_MIN (VF64 (soft_limit_min ax))] in
    let insts := insts ++ cmp_copy OpLt R_ZERO R_POS R_MIN R_SCRATCH in
    let '(insts, no_lower_fault) := emit_jump_if_not R_MAX R_SCRATCH insts in
    let insts := insts ++ [copy_reg R_MIN R_POS R_ZERO; load_imm R_FAULT (VF64 f64_1)] in
    let insts := patch_jump insts no_lower_fault (length insts) in
    let insts := insts ++ [load_imm R_MAX (VF64 (soft_limit_max ax))] in
    let insts := insts ++ cmp_copy OpGt R_ZERO R_POS R_MAX R_SCRATCH in
    let '(insts, no_upper_fault) := emit_jump_if_not R_MAX R_SCRATCH insts in
    let insts := insts ++ [copy_reg R_MAX R_POS R_ZERO; load_imm R_FAULT (VF64 f64_1)] in
    let insts := patch_jump insts no_upper_fault (length insts) in
    let insts := insts ++ [store_signal (pfx +:+ ".pos_fault") R_FAULT;
                           store_signal (pfx +:+ ".pos_cmd") R_POS] in
    patch_jump insts skip_idx (length insts)
  else insts.

Definition generate_soft_limits_program (cfg : AxisGroupConfig) : HalProgram :=
  mkProgram ("soft_limits_" +:+ group_name cfg)
    (concat (map (fun ax => if soft_limit_enable ax
                            then limits_bindings (signal_prefix cfg (ax_index ax)) else []) (axes cfg)))
    []
    (foldl (limits_axis cfg) [load_imm R_ZERO (VF64 f64_zero); load_imm R_ONE (VF64 f64_1)]
       (axes cfg) ++ [halt])
    [].
