(* ===== verification/Homing.v ===== *)
(** * Homing ([audesys-cnc-axis-group/src/homing.rs]) *)
From S2P Require Import Prelude Float HalTypes HalValue HalIr AxisConfig.
Local Open Scope Z_scope.

Definition R_IDX : nat := 0.
Definition R_STATE : nat := 1.
Definition R_LIMIT : nat := 2.
Definition R_VEL : nat := 3.
Definition R_DIR : nat := 4.
Definition R_SCRATCH : nat := 5.
Definition R_ZERO : nat := 6.
Definition R_ONE : nat := 7.

Definition ST_IDLE : Z := 0.
Definition ST_SEEK : Z := 1.
Definition ST_LATCH : Z := 2.
Definition ST_BACKOFF : Z := 3.
Definition ST_DONE : Z := 4.

Definition add_signal_bindings (pfx : string) : list SignalBinding :=
  [axis_binding pfx "homing_state" ReadWrite TU8; axis_binding pfx "pos_cmd" Write TF64;
   axis_binding pfx "vel_cmd" Write TF64; axis_binding pfx "enable" Write TBool;
   axis_binding pfx "limit_pos" Read TBool; axis_binding pfx "limit_neg" Read TBool;
   axis_binding pfx "homed" Write TBool].

Definition limit_signal_name (pfx : string) (d : HomeDirection) : string :=
  match d with
  | Positive => pfx +:+ ".limit_pos"
  | Negative => pfx +:+ ".limit_neg"
  end.

Definition emit_set_state (pfx : string) (state : Z) : list Instruction :=
  [load_imm R_SCRATCH (VU8 state); store_signal (pfx +:+ ".homing_state") R_SCRATCH].
Definition emit_write_vel (pfx : string) (vel_reg : nat) : list Instruction :=
  [arith_inst OpMul vel_reg R_DIR R_SCRATCH; store_signal (pfx +:+ ".vel_cmd") R_SCRATCH].

(** [emit_jump_if_not] of this generator: it loads its register twice. *)
Definition homing_jump_if_not (cond_reg : nat) (insts : list Instruction) : list Instruction * nat :=
  emit_jump_if_not R_DIR cond_reg (insts ++ [load_imm R_DIR (VF64 f64_1)]).

(** The copy and comparison that start a state block. *)
Definition check_state (insts : list Instruction) (st : Z) : list Instruction * nat :=
  homing_jump_if_not R_SCRATCH
    (insts ++ [copy_reg R_STATE R_SCRATCH R_ZERO] ++ cmp_eq_imm R_VEL R_SCRATCH (f64_of_Z st)).

(** The four state blocks of the loop body; each starts by comparing the
    state and skips itself when it is not the current one. *)
Definition idle_block (pfx : string) (ax : AxisConfig) (insts : list Instruction) : list Instruction :=
  let '(insts, skip_idle) := check_state insts ST_IDLE in
  let insts := insts ++ [load_imm R_DIR (VF64 (multiplier (home_direction ax)));
                         load_imm R_VEL (VF64 (home_search_vel ax))] ++
    emit_set_state pfx ST_SEEK ++ emit_write_vel pfx R_VEL ++
    [store_signal (pfx +:+ ".enable") R_ONE; store_signal (pfx +:+ ".pos_cmd") R_ZERO] in
  patch_jump insts skip_idle (length insts).

Definition seek_block (pfx : string) (ax : AxisConfig) (insts : list Instruction) : list Instruction :=
  let '(insts, skip_seek) := check_state insts ST_SEEK in
  let insts := insts ++ [load_signal R_LIMIT (limit_signal_name pfx (home_direction ax))] ++
    cmp_eq_imm R_VEL R_LIMIT f64_1 in
  let '(insts, keep_seeking) := homing_jump_if_not R_LIMIT insts in
  let insts := insts ++ emit_set_state pfx ST_LATCH ++
    [load_imm R_DIR (VF64 (f64_neg (multiplier (home_direction ax))));
     load_imm R_VEL (VF64 (home_latch_vel ax))] ++
    emit_write_vel pfx R_VEL in
  let insts := patch_jump insts keep_seeking (length insts) in
  patch_jump insts skip_seek (length insts).

Definition latch_block (pfx : string) (ax : AxisConfig) (insts : list Instruction) : list Instruction :=
  let '(insts, skip_latch) := check_state insts ST_LATCH in
  let insts := insts ++ [load_signal R_LIMIT (limit_signal_name pfx (home_direction ax))] ++
    cmp_eq_imm R_VEL R_LIMIT f64_zero in
  let '(insts, keep_latching) := homing_jump_if_not R_LIMIT insts in
  let insts := insts ++ emit_set_state pfx ST_BACKOFF ++
    [load_imm R_SCRATCH (VF64 (home_offset ax)); store_signal (pfx +:+ ".pos_cmd") R_SCRATCH;
     store_signal (pfx +:+ ".vel_cmd") R_ZERO] in
  let insts := patch_jump insts keep_latching (length insts) in
  patch_jump insts skip_latch (length insts).

Definition backoff_block (pfx : string) (insts : list Instruction) : list Instruction :=
  let '(insts, skip_backoff) := check_state insts ST_BACKOFF in
  let insts := insts ++ emit_set_state pfx ST_DONE ++
    [store_signal (pfx +:+ ".homed") R_ONE; store_signal (pfx +:+ ".enable") R_ZERO] in
  patch_jump insts skip_backoff (length insts).

(** The body of the loop over the axes. *)
Definition homing_axis (cfg : AxisGroupConfig) (insts : list Instruction) (ax : AxisConfig)
  : list Instruction :=
  let pfx := signal_prefix cfg (ax_index ax) in
  let insts := insts ++ [load_imm R_IDX (VU32 (ax_index ax));
                         load_signal R_STATE (pfx +:+ ".homing_state")] in
  backoff_block pfx (latch_block pfx ax (seek_block pfx ax (idle_block pfx ax insts))).

Definition generate_homing_program (cfg : AxisGroupConfig) : HalProgram :=
  mkProgram ("homing_" +:+ group_name cfg)
    (concat (map (fun ax => add_signal_bindings (signal_prefix cfg (ax_index ax))) (axes cfg)))
    []
    (foldl (homing_axis cfg) [load_imm R_ZERO (VF64 f64_zero); load_imm R_ONE (VF64 f64_1)]
       (axes cfg) ++ [halt])
    [].
