(* ===== verification/Backlash.v ===== *)
(** * Backlash compensation ([audesys-cnc-axis-group/src/backlash.rs]) *)
From S2P Require Import Prelude Float HalTypes HalValue HalIr AxisConfig.
Local Open Scope Z_scope.

Definition R_POS : nat := 0.
Definition R_VEL : nat := 1.
Definition R_LAST_DIR : nat := 2.
Definition R_NEW_DIR : nat := 3.
Definition R_BACKLASH : nat := 4.
Definition R_COMP : nat := 5.
Definition R_SCRATCH : nat := 6.
Definition R_ZERO : nat := 7.
Definition R_ONE : nat := 8.

(** [!axis.backlash_enable || axis.backlash_distance == 0.0] is not the case. *)
Definition compensates (ax : AxisConfig) : bool :=
  negb (negb (backlash_enable ax) || f64_eqb (backlash_distance ax) f64_zero).

Definition backlash_bindings (pfx : string) : list SignalBinding :=
  [axis_binding pfx "pos_cmd" ReadWrite TF64; axis_binding pfx "vel_cmd" Read TF64;
   axis_binding pfx "last_dir" ReadWrite TF64].

(** The unconditional jump, pushed with target 0; its index is returned. *)
Definition emit_jump (insts : list Instruction) : list Instruction * nat :=
  (insts ++ [jump 0], length insts).

(** The body of the loop over the axes. *)
Definition backlash_axis (cfg : AxisGroupConfig) (insts : list Instruction) (ax : AxisConfig)
  : list Instruction :=
  if compensates ax then
    let pfx := signal_prefix cfg (ax_index ax) in
    let insts := insts ++ [load_signal R_POS (pfx +:+ ".pos_cmd");
                           load_signal R_VEL (pfx +:+ ".vel_cmd");
                           load_signal R_LAST_DIR (pfx +:+ ".last_dir")] in
    (* the sign of the velocity *)
    let insts := insts ++ [load_imm R_NEW_DIR (VF64 f64_zero)] ++
      cmp_copy OpGt R_ZERO R_VEL R_ZERO R_SCRATCH in
    let '(insts, not_pos) := emit_jump_if_not R_BACKLASH R_SCRATCH insts in
    let insts := insts ++ [load_imm R_NEW_DIR (VF64 f64_1)] in
    let '(insts, done_sign) := emit_jump insts in
    let insts := patch_any insts not_pos (length insts) in
    let insts := insts ++ cmp_copy OpLt R_ZERO R_VEL R_ZERO R_SCRATCH in
    let '(insts, not_neg) := emit_jump_if_not R_BACKLASH R_SCRATCH insts in
    let insts := insts ++ [load_imm R_NEW_DIR (VF64 (f64_neg f64_1))] in
    let after_neg := length insts in
    let insts := patch_any insts not_neg after_neg in
    let insts := patch_any insts done_sign after_neg in
    (* the reversal *)
    let insts := insts ++ cmp_ne_imm R_BACKLASH R_ZERO R_NEW_DIR f64_zero R_SCRATCH in
    let '(insts, no_reversal) := emit_jump_if_not R_BACKLASH R_SCRATCH insts in
    let insts := insts ++ [copy_reg R_NEW_DIR R_SCRATCH R_ZERO; cmp_inst OpNeq R_SCRATCH R_LAST_DIR] in
    let '(insts, no_reversal2) := emit_jump_if_not R_BACKLASH R_SCRATCH insts in
    (* the compensation *)
    let insts := insts ++ [load_imm R_BACKLASH (VF64 (backlash_distance ax));
                           arith_inst OpMul R_BACKLASH R_NEW_DIR R_COMP;
                           arith_inst OpAdd R_POS R_COMP R_POS] in
    let after_comp := length insts in
    let insts := patch_any insts no_reversal2 after_comp in
    let insts := patch_any insts no_reversal after_comp in
    insts ++ [store_signal (pfx +:+ ".last_dir") R_NEW_DIR; store_signal (pfx +:+ ".pos_cmd") R_POS]
  else insts.

Definition generate_backlash_program (cfg : AxisGroupConfig) : HalProgram :=
  mkProgram ("backlash_" +:+ group_name cfg)
    (concat (map (fun ax => if compensates ax
                            then backlash_bindings (signal_prefix cfg (ax_index ax)) else []) (axes cfg)))
    []
    (foldl (backlash_axis cfg) [load_imm R_ZERO (VF64 f64_zero); load_imm R_ONE (VF64 f64_1)]
       (axes cfg) ++ [halt])
    [].
