(* ===== verification/Alarm.v ===== *)
(** * Alarm aggregation ([audesys-cnc-axis-group/src/alarm.rs]) *)
From S2P Require Import Prelude Float HalTypes HalValue HalIr AxisConfig.
Local Open Scope Z_scope.

Definition ALARM_NORMAL : Z := 0.
Definition ALARM_WARNING : Z := 1.
Definition ALARM_ALARM : Z := 2.
Definition ALARM_ESTOP : Z := 3.

Definition R_ANY_FAULT : nat := 0.
Definition R_STATE : nat := 1.
Definition R_NEW_STATE : nat := 2.
Definition R_SCRATCH : nat := 3.
Definition R_ZERO : nat := 4.
Definition R_ONE : nat := 5.

(** One fault signal: load it, compare it, set the accumulator. *)
Definition check_fault (insts : list Instruction) (signal : string) : list Instruction :=
  let insts := insts ++ [load_signal R_SCRATCH signal] ++
    cmp_ne_imm R_SCRATCH R_ZERO R_SCRATCH f64_zero R_SCRATCH in
  let '(insts, skip) := emit_jump_if_not R_STATE R_SCRATCH insts in
  let insts := insts ++ [load_imm R_ANY_FAULT (VF64 f64_1)] in
  patch_jump insts skip (length insts).

(** The body of the loop over the axes. *)
Definition alarm_axis (cfg : AxisGroupConfig) (insts : list Instruction) (ax : AxisConfig)
  : list Instruction :=
  let pfx := signal_prefix cfg (ax_index ax) in
  check_fault (check_fault insts (pfx +:+ ".pos_fault")) (pfx +:+ ".vel_fault").

Definition alarm_bindings (cfg : AxisGroupConfig) : list SignalBinding :=
  [binding (group_name cfg +:+ ".alarm_state") "alarm_state" ReadWrite TU8;
   binding (group_name cfg +:+ ".any_fault") "any_fault" Write TBool] ++
  concat (map (fun ax =>
    let pfx := signal_prefix cfg (ax_index ax) in
    [axis_binding pfx "pos_fault" Read TBool; axis_binding pfx "vel_fault" Read TBool]) (axes cfg)).

Definition alarm_end (cfg : AxisGroupConfig) : list Instruction :=
  [store_signal (group_name cfg +:+ ".any_fault") R_ANY_FAULT;
   load_signal R_STATE (group_name cfg +:+ ".alarm_state");
   copy_reg R_ANY_FAULT R_NEW_STATE R_ZERO;
   store_signal (group_name cfg +:+ ".alarm_state") R_NEW_STATE].

Definition generate_alarm_program (cfg : AxisGroupConfig) : HalProgram :=
  mkProgram ("alarm_" +:+ group_name cfg) (alarm_bindings cfg) []
    (foldl (alarm_axis cfg)
       [load_imm R_ZERO (VF64 f64_zero); load_imm R_ONE (VF64 f64_1);
        load_imm R_ANY_FAULT (VF64 f64_zero)] (axes cfg) ++ alarm_end cfg ++ [halt])
    [].
