(* ===== verification/AxisGroup.v ===== *)
(** * The combined axis-group program ([audesys-cnc-axis-group/src/lib.rs]) *)
From S2P Require Import Prelude Float HalTypes HalValue HalIr FunctionBlocks Vm Executor ExecutorFacts.
From S2P Require Import ExecutorControl Text TextFacts StraightLine Flow AxisConfig.
From S2P Require SoftLimits Homing Backlash Alarm.
Local Open Scope Z_scope.

Definition without_halts (p : HalProgram) : list Instruction :=
  List.filter (fun i => negb (bool_decide (opcode i = OpHalt))) (instructions p).

(** Bindings of [p] that are not declared yet. *)
Definition merge_signals (sigs : list SignalBinding) (p : HalProgram) : list SignalBinding :=
  foldl (fun sigs s =>
    if existsb (fun e => bool_decide (hal_signal_name e = hal_signal_name s)) sigs then sigs
    else sigs ++ [s]) sigs (prog_signals p).

Definition generate_combined_program (cfg : AxisGroupConfig) : HalProgram :=
  let homing := Homing.generate_homing_program cfg in
  let limits := SoftLimits.generate_soft_limits_program cfg in
  let backlash := Backlash.generate_backlash_program cfg in
  let alarm := Alarm.generate_alarm_program cfg in
  mkProgram ("axis_group_" +:+ group_name cfg)
    (foldl merge_signals (prog_signals homing) [limits; backlash; alarm])
    []
    (concat (map without_halts [homing; limits; backlash; alarm]) ++ [halt])
    [].

(** ** Facts

    The generated code compares and then branches with a [JumpIf] on a
    register, which never jumps, so each program runs every block of every
    axis in each cycle.  [emits] gives the text an axis generator adds and
    [Flow] what that text does. *)

(** ** From the axis generators to their text *)

(** What an axis generator appends falls through and writes [W]. *)
Definition sym_emits (cs cs' : list (nat * Z)) (W : list (string * SymVal))
    (insts out : list Instruction) : Prop :=
  ∃ code st, out = insts ++ code ∧ sym_code (base cs) code = Some st ∧ sym_consts cs' st ∧
    sym_writes st = W.

Section profile.
Context `{HB : BuildProfile}.

(** What an axis generator appends runs with effect [w] and contains no Halt:
    at its place, or wherever it is copied to if [fl] is set. *)
Definition emits (fl : bool) (cs cs' : list (nat * Z))
    (w : gmap string HalValue → gmap string HalValue) (insts out : list Instruction) : Prop :=
  ∃ code, out = insts ++ code ∧ no_halt code = true ∧
    ∀ pc, fl = true ∨ pc = length insts → runs code pc cs cs' w.

Lemma emits_refl fl cs insts : emits fl cs cs (λ s, s) insts insts.
Proof.
  exists []. rewrite app_nil_r. split_and!; [done..|]. intros pc _ p m d Hd Hm Hip _.
  exists 0%nat, m. split_and!; [constructor | cbn; lia | done | done].
Qed.

Lemma emits_trans fl cs1 cs2 cs3 w1 w2 a b c :
  emits fl cs1 cs2 w1 a b → emits fl cs2 cs3 w2 b c → emits fl cs1 cs3 (λ s, w2 (w1 s)) a c.
Proof.
  intros (c1 & -> & N1 & R1) (c2 & -> & N2 & R2). rewrite length_app in R2. exists (c1 ++ c2).
  rewrite (assoc_L (++)). unfold no_halt in *. rewrite forallb_app, N1, N2. split_and!; [done..|].
  intros pc Hpc. eapply runs_app; [by apply R1|]. apply R2. destruct Hpc as [?| ->]; auto.
Qed.

Lemma emits_ext fl cs cs' w w' a b :
  emits fl cs cs' w a b → (∀ s, w s = w' s) → emits fl cs cs' w' a b.
Proof.
  intros (c & -> & N & R) E. exists c. split_and!; [done..|]. intros pc Hpc p m d Hd Hm Hip Hc.
  destruct (R pc Hpc p m d Hd Hm Hip Hc) as (n & m' & ? & ? & ? & Hs). exists n, m'. by rewrite Hs, E.
Qed.

(** The same for constant writes. *)
Lemma emits_writes fl cs1 cs2 cs3 W1 W2 a b c :
  emits fl cs1 cs2 (λ s, write_all s W1) a b → emits fl cs2 cs3 (λ s, write_all s W2) b c →
  emits fl cs1 cs3 (λ s, write_all s (W1 ++ W2)) a c.
Proof.
  intros H1 H2. eapply emits_ext; [by eapply emits_trans|]. intros s. by rewrite write_all_app.
Qed.

Lemma emits_foldl {A} fl (f : list Instruction → A → list Instruction) cs w l :
  (∀ insts ax, emits fl cs cs (w ax) insts (f insts ax)) →
  ∀ insts, emits fl cs cs (λ s, foldl (λ s ax, w ax s) s l) insts (foldl f insts l).
Proof.
  intros Hf. induction l as [|ax l IH]; intros insts; [apply emits_refl|].
  apply (emits_trans fl cs cs cs (w ax) (λ s, foldl (λ s ax, w ax s) s l) _ (f insts ax));
    [apply Hf | apply IH].
Qed.

Lemma emits_sym fl cs cs' W insts out :
  sym_emits cs cs' W insts out →
  emits fl cs cs' (λ s, write_all s (map (λ '(x, a), (x, denote a s)) W)) insts out.
Proof.
  intros (code & st & -> & Hs & Hc & <-). exists code.
  split_and!; [done | by eapply sym_code_no_halt |]. intros pc _. by eapply runs_sym.
Qed.

(** A generated program of such text runs to its Halt, within a number of
    steps that does not depend on the fuel. *)
Lemma emits_program fl cs w name sigs chans fns code m d :
  emits fl [] cs w [] code → debug_mode d = false → ip m = 0%nat →
  length (registers m) = REGISTER_COUNT →
  let p := mkProgram name sigs chans (code ++ [halt]) fns in
  ∃ e n, (∀ fuel, (n ≤ fuel)%nat → run_to_halt fuel (mkExecutor m p d) = Done e n) ∧
    signals (vm e) = w (signals m).
Proof.
  intros (code' & -> & _ & R) Hd Hip Hl.
  eapply runs_program; [apply R; by right | done | by split | done].
Qed.

Lemma length_patch_jump l i t : length (patch_jump l i t) = length l.
Proof. apply length_alter. Qed.

Lemma length_patch_any l i t : length (patch_any l i t) = length l.
Proof. apply length_alter. Qed.

Lemma patch_jump_app insts b k t :
  patch_jump (insts ++ b) (length insts + k) t = insts ++ alter (patch_inst (Z.of_nat t)) k b.
Proof. apply alter_app_r. Qed.

Lemma patch_any_app insts b k t :
  patch_any (insts ++ b) (length insts + k) t = insts ++ alter (patch_any_inst (Z.of_nat t)) k b.
Proof. apply alter_app_r. Qed.

Lemma emit_app t c insts b :
  emit_jump_if_not t c (insts ++ b) =
    (insts ++ (b ++ cmp_eq_imm t c f64_zero ++ [jump_if_reg c]), (length insts + (length b + 2))%nat).
Proof. unfold emit_jump_if_not. rewrite !length_app, <- !(assoc_L (++)). cbn. f_equal. lia. Qed.
End profile.


(** Compute a generator to a text appended to [insts]. *)
Ltac gen_step insts :=
  rewrite <- ?(assoc_L (++) insts);
  rewrite ?length_patch_jump, ?length_patch_any, ?emit_app, ?length_app, <- ?Nat.add_assoc;
  cbn [app length cmp_eq_imm cmp_copy cmp_ne_imm Nat.add];
  rewrite ?patch_jump_app, ?patch_any_app;
  cbn [app alter list_alter patch_inst opcode operands length Nat.add
       load_imm load_signal store_signal copy_reg jump_if_reg arith_inst cmp_inst].
Ltac gen_text insts := cbv zeta; repeat progress gen_step insts.
Ltac gen_sym :=
  eexists _, _; split; [reflexivity|]; cbn; split; [reflexivity|];
  split; [repeat constructor|]; cbn; reflexivity.

(** ** Soft limits *)
Abbreviation limits_consts :=
  [(SoftLimits.R_ZERO, f64_zero); (SoftLimits.R_ONE, f64_1)] (only parsing).

Lemma limits_axis_emits cfg ax insts :
  soft_limit_enable ax = true →
  let pfx := signal_prefix cfg (ax_index ax) in
  sym_emits limits_consts limits_consts
    [(pfx +:+ ".pos_fault", SConst (VF64 f64_1));
     (pfx +:+ ".pos_cmd", SOp BAdd (SConst (VF64 f64_zero)) (SConst (VF64 f64_zero)))]
    insts (SoftLimits.limits_axis cfg insts ax).
Proof.
  intros He. unfold SoftLimits.limits_axis. rewrite He.
  generalize (signal_prefix cfg (ax_index ax)) as pfx. intros pfx. gen_text insts.
  generalize f64_1 f64_zero. intros. gen_sym.
Qed.

(** ** Homing *)
Abbreviation homing_consts :=
  [(Homing.R_ZERO, f64_zero); (Homing.R_ONE, f64_1)] (only parsing).

Lemma idle_block_emits pfx ax insts :
  sym_emits homing_consts homing_consts
    [(pfx +:+ ".homing_state", SConst (VU8 Homing.ST_SEEK));
     (pfx +:+ ".vel_cmd", SOp BMul (SConst (VF64 (home_search_vel ax)))
                            (SConst (VF64 (multiplier (home_direction ax)))));
     (pfx +:+ ".enable", SConst (VF64 f64_1)); (pfx +:+ ".pos_cmd", SConst (VF64 f64_zero))]
    insts (Homing.idle_block pfx ax insts).
Proof.
  unfold Homing.idle_block, Homing.check_state, Homing.homing_jump_if_not, Homing.emit_set_state,
    Homing.emit_write_vel. gen_text insts. generalize f64_1 f64_zero. intros. gen_sym.
Qed.

Lemma seek_block_emits pfx ax insts :
  sym_emits homing_consts homing_consts
    [(pfx +:+ ".homing_state", SConst (VU8 Homing.ST_LATCH));
     (pfx +:+ ".vel_cmd", SOp BMul (SConst (VF64 (home_latch_vel ax)))
                            (SConst (VF64 (f64_neg (multiplier (home_direction ax))))))]
    insts (Homing.seek_block pfx ax insts).
Proof.
  unfold Homing.seek_block, Homing.check_state, Homing.homing_jump_if_not, Homing.emit_set_state,
    Homing.emit_write_vel. gen_text insts. generalize f64_1 f64_zero. intros. gen_sym.
Qed.

Lemma latch_block_emits pfx ax insts :
  sym_emits homing_consts homing_consts
    [(pfx +:+ ".homing_state", SConst (VU8 Homing.ST_BACKOFF));
     (pfx +:+ ".pos_cmd", SConst (VF64 (home_offset ax)));
     (pfx +:+ ".vel_cmd", SConst (VF64 f64_zero))]
    insts (Homing.latch_block pfx ax insts).
Proof.
  unfold Homing.latch_block, Homing.check_state, Homing.homing_jump_if_not, Homing.emit_set_state.
  gen_text insts. generalize f64_1 f64_zero. intros. gen_sym.
Qed.

Lemma backoff_block_emits pfx insts :
  sym_emits homing_consts homing_consts
    [(pfx +:+ ".homing_state", SConst (VU8 Homing.ST_DONE));
     (pfx +:+ ".homed", SConst (VF64 f64_1)); (pfx +:+ ".enable", SConst (VF64 f64_zero))]
    insts (Homing.backoff_block pfx insts).
Proof.
  unfold Homing.backoff_block, Homing.check_state, Homing.homing_jump_if_not, Homing.emit_set_state.
  gen_text insts. generalize f64_1 f64_zero. intros. gen_sym.
Qed.

(** ** Alarm *)
Abbreviation alarm_consts any :=
  [(Alarm.R_ZERO, f64_zero); (Alarm.R_ANY_FAULT, any)] (only parsing).

Lemma alarm_axis_emits cfg any ax insts :
  sym_emits (alarm_consts any) (alarm_consts f64_1) [] insts (Alarm.alarm_axis cfg insts ax).
Proof.
  unfold Alarm.alarm_axis, Alarm.check_fault.
  generalize (signal_prefix cfg (ax_index ax)) as pfx. intros pfx. gen_text insts.
  generalize f64_1 f64_zero. intros. gen_sym.
Qed.

Lemma alarm_end_emits cfg any insts :
  sym_emits (alarm_consts any) []
    [(group_name cfg +:+ ".any_fault", SConst (VF64 any));
     (group_name cfg +:+ ".alarm_state", SOp BAdd (SConst (VF64 any)) (SConst (VF64 f64_zero)))]
    insts (insts ++ Alarm.alarm_end cfg).
Proof. unfold Alarm.alarm_end. generalize f64_zero. intros. gen_sym. Qed.

(** ** Backlash *)
Abbreviation backlash_consts :=
  [(Backlash.R_ZERO, f64_zero); (Backlash.R_ONE, f64_1)] (only parsing).

Section profile.
Context `{HB : BuildProfile}.

(** The sign test sets the direction to 1.0 and jumps over the test for a
    negative velocity, so the direction is 1.0 for every velocity. *)
Definition backlash_sym (pfx : string) (ax : AxisConfig) : list (string * SymVal) :=
  [(pfx +:+ ".last_dir", SConst (VF64 f64_1));
   (pfx +:+ ".pos_cmd", SOp BAdd (SSig (pfx +:+ ".pos_cmd"))
      (SOp BMul (SConst (VF64 (backlash_distance ax))) (SConst (VF64 f64_1))))].

Lemma backlash_axis_emits cfg ax insts :
  Backlash.compensates ax = true → Z.of_nat (length insts + 33) < 2 ^ 32 →
  emits false backlash_consts backlash_consts
    (λ s, write_all s (map (λ '(x, a), (x, denote a s))
                         (backlash_sym (signal_prefix cfg (ax_index ax)) ax)))
    insts (Backlash.backlash_axis cfg insts ax) ∧
  (length (Backlash.backlash_axis cfg insts ax) = length insts + 33)%nat.
Proof.
  intros He Hl. unfold Backlash.backlash_axis. rewrite He.
  generalize (signal_prefix cfg (ax_index ax)) as pfx. intros pfx. unfold Backlash.emit_jump.
  gen_text insts. split; [|done].
  match goal with |- emits _ _ _ _ _ (_ ++ ?c) => set (L := c) end.
  exists L. split_and!; [done | by vm_compute |]. intros pc [?| ->]; [done|].
  assert (HL : L = take 10 L ++ jump (Z.of_nat (length insts + length (take 10 L) +
                     S (length (take 6 (drop 11 L))))) :: take 6 (drop 11 L) ++ drop 17 L).
  { unfold L. cbn [take drop length]. cbn [app]. repeat (f_equal; [reflexivity..|]).
    unfold patch_any_inst, jump. cbn [opcode operands]. rewrite wrap_u_id by (apply in_u_spec; lia).
    by rewrite <- Nat.add_assoc. }
  rewrite HL. clear HL.
  assert (Hs : ∃ st, sym_code (base backlash_consts) (take 10 L ++ drop 17 L) = Some st ∧
                 sym_consts backlash_consts st ∧ sym_writes st = backlash_sym pfx ax).
  { subst L. unfold backlash_sym. generalize f64_1 f64_zero. intros.
    eexists. split; [cbn; reflexivity|]. split; [repeat constructor | reflexivity]. }
  destruct Hs as (st & Hs & Hc & <-). by eapply runs_skip.
Qed.

(** Blocks of one length, for the targets that must fit in 32 bits. *)
Lemma emits_foldl_bounded {A} fl (f : list Instruction → A → list Instruction) cs w k N l :
  (∀ insts ax, Z.of_nat (length insts + k) < N →
     emits fl cs cs (w ax) insts (f insts ax) ∧ (length (f insts ax) ≤ length insts + k)%nat) →
  ∀ insts, Z.of_nat (length insts + k * length l) < N →
    emits fl cs cs (λ s, foldl (λ s ax, w ax s) s l) insts (foldl f insts l).
Proof.
  intros Hf. induction l as [|ax l IH]; intros insts Hl; [apply emits_refl|]. cbn in Hl.
  destruct (Hf insts ax) as [He Hle]; [nia|].
  apply (emits_trans fl cs cs cs (w ax) (λ s, foldl (λ s ax, w ax s) s l) _ (f insts ax));
    [exact He | apply IH; nia].
Qed.
End profile.

(** ** The effect of one cycle *)
Definition homing_writes (cfg : AxisGroupConfig) (ax : AxisConfig) : Writes :=
  let pfx := signal_prefix cfg (ax_index ax) in
  let dir := multiplier (home_direction ax) in
  [(pfx +:+ ".homing_state", VU8 Homing.ST_SEEK);
   (pfx +:+ ".vel_cmd", VF64 (float_mul binary64 (home_search_vel ax) dir));
   (pfx +:+ ".enable", VF64 f64_1); (pfx +:+ ".pos_cmd", VF64 f64_zero);
   (pfx +:+ ".homing_state", VU8 Homing.ST_LATCH);
   (pfx +:+ ".vel_cmd", VF64 (float_mul binary64 (home_latch_vel ax) (f64_neg dir)));
   (pfx +:+ ".homing_state", VU8 Homing.ST_BACKOFF);
   (pfx +:+ ".pos_cmd", VF64 (home_offset ax)); (pfx +:+ ".vel_cmd", VF64 f64_zero);
   (pfx +:+ ".homing_state", VU8 Homing.ST_DONE);
   (pfx +:+ ".homed", VF64 f64_1); (pfx +:+ ".enable", VF64 f64_zero)].

Definition limits_writes (cfg : AxisGroupConfig) (ax : AxisConfig) : Writes :=
  let pfx := signal_prefix cfg (ax_index ax) in
  if soft_limit_enable ax
  then [(pfx +:+ ".pos_fault", VF64 f64_1); (pfx +:+ ".pos_cmd", VF64 f64_zero)] else [].

Definition backlash_effect (cfg : AxisGroupConfig) (ax : AxisConfig) (s : gmap string HalValue)
  : gmap string HalValue :=
  let pos := signal_prefix cfg (ax_index ax) +:+ ".pos_cmd" in
  let comp := VF64 (float_mul binary64 (backlash_distance ax) f64_1) in
  if Backlash.compensates ax then
    write_all s [(signal_prefix cfg (ax_index ax) +:+ ".last_dir", VF64 f64_1);
                 (pos, f64_binop (float_add binary64) (default (VBool false) (s !! pos)) comp)]
  else s.

Lemma foldl_write_all {A} (w : A → Writes) l s :
  foldl (λ s ax, write_all s (w ax)) s l = write_all s (concat (map w l)).
Proof. revert s. induction l as [|a l IH]; intros s; [done|]. cbn. by rewrite IH, write_all_app. Qed.

Section effects.
Context `{HB : BuildProfile}.

Lemma homing_axis_emits fl cfg ax insts :
  emits fl homing_consts homing_consts (λ s, write_all s (homing_writes cfg ax))
    insts (Homing.homing_axis cfg insts ax).
Proof.
  unfold Homing.homing_axis, homing_writes.
  generalize (signal_prefix cfg (ax_index ax)) as pfx. intros pfx.
  assert (E0 : emits fl homing_consts homing_consts (λ s, write_all s []) insts
                 (insts ++ [load_imm Homing.R_IDX (VU32 (ax_index ax));
                            load_signal Homing.R_STATE (pfx +:+ ".homing_state")])).
  { apply (emits_sym fl homing_consts homing_consts []).
    unfold f64_1. generalize f64_zero (f64_of_Z 1). intros. gen_sym. }
  eapply emits_ext.
  - eapply emits_trans; [exact E0|]. eapply emits_trans; [|eapply emits_trans; [|eapply emits_trans]].
    + eapply emits_sym, idle_block_emits.
    + eapply emits_sym, seek_block_emits.
    + eapply emits_sym, latch_block_emits.
    + eapply emits_sym, backoff_block_emits.
  - intros s. cbn beta. by rewrite <- !write_all_app.
Qed.

Lemma limits_axis_effect fl cfg ax insts :
  emits fl limits_consts limits_consts (λ s, write_all s (limits_writes cfg ax))
    insts (SoftLimits.limits_axis cfg insts ax).
Proof.
  unfold limits_writes. destruct (soft_limit_enable ax) eqn:He.
  - eapply emits_ext; [by eapply emits_sym, limits_axis_emits|]. intros s. cbn -[f64_1].
    assert (float_add binary64 f64_zero f64_zero = f64_zero) as -> by (vm_compute; reflexivity).
    reflexivity.
  - unfold SoftLimits.limits_axis. rewrite He. apply emits_refl.
Qed.

Lemma backlash_axis_effect cfg ax insts :
  Z.of_nat (length insts + 33) < 2 ^ 32 →
  emits false backlash_consts backlash_consts (backlash_effect cfg ax)
    insts (Backlash.backlash_axis cfg insts ax) ∧
  (length (Backlash.backlash_axis cfg insts ax) <= length insts + 33)%nat.
Proof.
  intros Hl. unfold backlash_effect. destruct (Backlash.compensates ax) eqn:He.
  - destruct (backlash_axis_emits cfg ax insts He) as [E L]; [lia|]. split; [|lia].
    eapply emits_ext; [exact E|]. reflexivity.
  - unfold Backlash.backlash_axis. rewrite He. split; [apply emits_refl | lia].
Qed.

(** The prologues of the generators. *)
Lemma homing_prologue fl :
  emits fl [] homing_consts (λ s, s) [] [load_imm Homing.R_ZERO (VF64 f64_zero);
                                      load_imm Homing.R_ONE (VF64 f64_1)].
Proof. apply (emits_sym fl [] homing_consts [] []). generalize f64_1 f64_zero. intros. gen_sym. Qed.

Lemma backlash_prologue fl :
  emits fl [] backlash_consts (λ s, s) [] [load_imm Backlash.R_ZERO (VF64 f64_zero);
                                        load_imm Backlash.R_ONE (VF64 f64_1)].
Proof. apply (emits_sym fl [] backlash_consts [] []). generalize f64_1 f64_zero. intros. gen_sym. Qed.

Lemma alarm_prologue fl :
  emits fl [] (alarm_consts f64_zero) (λ s, s) []
    [load_imm Alarm.R_ZERO (VF64 f64_zero); load_imm Alarm.R_ONE (VF64 f64_1);
     load_imm Alarm.R_ANY_FAULT (VF64 f64_zero)].
Proof.
  apply (emits_sym fl [] (alarm_consts f64_zero) [] []). generalize f64_1 f64_zero. intros. gen_sym.
Qed.

(** A cycle of a program that only has constant writes. *)
Lemma axes_cycle fl (f : list Instruction → AxisConfig → list Instruction) cs W cfg pro m d name sigs :
  emits fl [] cs (λ s, s) [] pro →
  (∀ insts ax, emits fl cs cs (λ s, write_all s (W ax)) insts (f insts ax)) →
  debug_mode d = false → ip m = 0%nat → length (registers m) = REGISTER_COUNT →
  let p := mkProgram name sigs [] (foldl f pro (axes cfg) ++ [halt]) [] in
  ∃ e n, (∀ fuel, (n ≤ fuel)%nat → run_to_halt fuel (mkExecutor m p d) = Done e n) ∧
    signals (vm e) = write_all (signals m) (concat (map W (axes cfg))).
Proof.
  intros Hp Hf Hd Hip Hl p.
  edestruct (emits_program fl cs) as (e & n & Hr & Hs); [| exact Hd | exact Hip | exact Hl |].
  { eapply emits_trans; [exact Hp | apply (emits_foldl fl f cs (λ ax s, write_all s (W ax))), Hf]. }
  exists e, n. split; [exact Hr|]. rewrite Hs. apply foldl_write_all.
Qed.
End effects.

(** ** Names of axis signals *)
Lemma app_sep_inj {A} (c : A) a b s t :
  c ∉ s → c ∉ t → a ++ c :: s = b ++ c :: t → a = b ∧ s = t.
Proof.
  intros Hs Ht E. revert b E. induction a as [|x a IH]; intros [|y b] E; cbn in E.
  - by injection E as ->.
  - injection E as -> ->. exfalso. apply Hs. set_solver.
  - injection E as -> <-. exfalso. apply Ht. set_solver.
  - injection E as -> E. by destruct (IH b E) as [-> ->].
Qed.

(** A signal name is its prefix and what follows the last dot. *)
Lemma axis_name_inj a b s t :
  forallb (fun c => negb (bool_decide (c = "."%char))) (chars s) = true →
  forallb (fun c => negb (bool_decide (c = "."%char))) (chars t) = true →
  a +:+ String.String "." s = b +:+ String.String "." t → a = b ∧ s = t.
Proof.
  intros Hs Ht E. apply (f_equal chars) in E. rewrite !chars_app in E. cbn [chars] in E.
  assert (Hno : ∀ u, forallb (fun c => negb (bool_decide (c = "."%char))) (chars u) = true →
                "."%char ∉ chars u).
  { intros u Hu Hin. rewrite forallb_forall in Hu. apply list_elem_of_In, Hu in Hin.
    by rewrite bool_decide_true in Hin. }
  apply app_sep_inj in E as [E1 E2]; [|by apply Hno..]. by apply chars_inj in E1, E2.
Qed.

(** Resolve a lookup of one axis signal among writes to others. *)
Ltac axis_lookup :=
  repeat first
    [ rewrite lookup_insert_eq
    | rewrite lookup_insert_ne by
        (let H := fresh in intros H; apply axis_name_inj in H as [H ?]; [|reflexivity..];
         congruence) ].

Lemma concat_lookup {A} (W : A → Writes) (P : A → Prop) x v l s :
  (∀ a s, P a → write_all s (W a) !! x = Some v) →
  (∀ a s, ¬ P a → write_all s (W a) !! x = s !! x) →
  (∀ a, Decision (P a)) →
  s !! x = Some v ∨ Exists P l → write_all s (concat (map W l)) !! x = Some v.
Proof.
  intros H1 H2 Hdec. revert s. induction l as [|a l IH]; intros s Hs; cbn.
  - destruct Hs as [Hs|Hs]; [done | by apply Exists_nil in Hs].
  - rewrite write_all_app. apply IH. destruct (Hdec a) as [Ha|Ha]; [left; by apply H1|].
    rewrite H2 by done. destruct Hs as [Hs|Hs]; [by left|]. apply Exists_cons in Hs. tauto.
Qed.

Definition homing_final (pfx : string) : Writes :=
  [(pfx +:+ ".homing_state", VU8 Homing.ST_DONE); (pfx +:+ ".homed", VF64 f64_1);
   (pfx +:+ ".enable", VF64 f64_zero); (pfx +:+ ".vel_cmd", VF64 f64_zero)].

Lemma homing_writes_final cfg axes ax s x v :
  ax ∈ axes → (x, v) ∈ homing_final (signal_prefix cfg (ax_index ax)) →
  write_all s (concat (map (homing_writes cfg) axes)) !! x = Some v.
Proof.
  intros Hin Hx.
  apply (concat_lookup _ (λ a, signal_prefix cfg (ax_index a) = signal_prefix cfg (ax_index ax))).
  - intros a s' Ea. unfold homing_writes. rewrite Ea.
    unfold homing_final in Hx. generalize (multiplier (home_direction a)). intros.
    repeat (apply elem_of_cons in Hx as [[= -> ->]|Hx]); [cbn; axis_lookup; reflexivity..|].
    by apply elem_of_nil in Hx.
  - intros a s' Ea. unfold homing_writes. unfold homing_final in Hx.
    repeat (apply elem_of_cons in Hx as [[= -> ->]|Hx]); [cbn; axis_lookup; reflexivity..|].
    by apply elem_of_nil in Hx.
  - intros a. apply _.
  - right. apply Exists_exists. eauto.
Qed.

(** ** The programs *)
Section programs.
Context `{HB : BuildProfile}.

(** A machine between two cycles, with the debugger off. *)
Definition ready (m : Vm) (d : DebugState) : Prop :=
  debug_mode d = false ∧ ip m = 0%nat ∧ length (registers m) = REGISTER_COUNT.

(** The program halts, after a number of steps that depends on the program
    only through its text, and leaves these signals. *)
Definition cycle_leaves (m : Vm) (d : DebugState) (p : HalProgram) (s : gmap string HalValue) : Prop :=
  ∃ e n, (∀ fuel, (n ≤ fuel)%nat → run_to_halt fuel (mkExecutor m p d) = Done e n) ∧
    signals (vm e) = s.

Definition homed_signals (cfg : AxisGroupConfig) (s : gmap string HalValue) : gmap string HalValue :=
  write_all s (concat (map (homing_writes cfg) (axes cfg))).
Definition limited_signals (cfg : AxisGroupConfig) (s : gmap string HalValue) : gmap string HalValue :=
  write_all s (concat (map (limits_writes cfg) (axes cfg))).
Definition any_fault_value (cfg : AxisGroupConfig) : Z :=
  match axes cfg with [] => f64_zero | _ => f64_1 end.
Definition alarmed_signals (cfg : AxisGroupConfig) (s : gmap string HalValue) : gmap string HalValue :=
  write_all s [(group_name cfg +:+ ".any_fault", VF64 (any_fault_value cfg));
               (group_name cfg +:+ ".alarm_state", VF64 (any_fault_value cfg))].

Lemma homing_emits fl cfg :
  emits fl [] homing_consts (homed_signals cfg) []
    (foldl (Homing.homing_axis cfg) [load_imm Homing.R_ZERO (VF64 f64_zero);
                                     load_imm Homing.R_ONE (VF64 f64_1)] (axes cfg)).
Proof.
  eapply emits_ext; [eapply emits_trans; [apply homing_prologue|]|].
  - apply (emits_foldl fl _ _ (λ ax s, write_all s (homing_writes cfg ax))).
    intros. apply homing_axis_emits.
  - intros s. apply foldl_write_all.
Qed.

Lemma limits_emits fl cfg :
  emits fl [] limits_consts (limited_signals cfg) []
    (foldl (SoftLimits.limits_axis cfg) [load_imm SoftLimits.R_ZERO (VF64 f64_zero);
                                         load_imm SoftLimits.R_ONE (VF64 f64_1)] (axes cfg)).
Proof.
  eapply emits_ext; [eapply emits_trans; [apply homing_prologue|]|].
  - apply (emits_foldl fl _ _ (λ ax s, write_all s (limits_writes cfg ax))).
    intros. apply limits_axis_effect.
  - intros s. apply foldl_write_all.
Qed.

Lemma alarm_axes_emits fl cfg l any insts :
  emits fl (alarm_consts any) (alarm_consts (match l with [] => any | _ => f64_1 end)) (λ s, s)
    insts (foldl (Alarm.alarm_axis cfg) insts l).
Proof.
  revert any insts. induction l as [|ax l IH]; intros any insts; [apply emits_refl|]. cbn [foldl].
  eapply emits_ext; [eapply emits_trans; [eapply emits_sym, alarm_axis_emits|]|].
  - specialize (IH f64_1 (Alarm.alarm_axis cfg insts ax)). by destruct l.
  - done.
Qed.

Lemma alarm_emits fl cfg :
  emits fl [] [] (alarmed_signals cfg) []
    (foldl (Alarm.alarm_axis cfg)
       [load_imm Alarm.R_ZERO (VF64 f64_zero); load_imm Alarm.R_ONE (VF64 f64_1);
        load_imm Alarm.R_ANY_FAULT (VF64 f64_zero)] (axes cfg) ++ Alarm.alarm_end cfg).
Proof.
  eapply emits_ext.
  - eapply emits_trans; [apply alarm_prologue|]. eapply emits_trans; [apply alarm_axes_emits|].
    eapply emits_sym, alarm_end_emits.
  - intros s. cbn [map denote f64_binop bin_float]. unfold alarmed_signals, any_fault_value.
    by destruct (axes cfg); repeat f_equal; vm_compute.
Qed.

(** Homing takes one cycle and no motion.  In one cycle, from any state
    and whatever the limit switches read, the homing program halts having run
    the search, latch, back-off and done blocks of every axis: each axis is left
    done and homed, disabled and with zero commanded velocity.  All the writes
    of the cycle are [homing_writes], axis by axis. *)
Theorem homing_one_cycle cfg m d :
  ready m d →
  cycle_leaves m d (Homing.generate_homing_program cfg) (homed_signals cfg (signals m)) ∧
  ∀ ax x v, ax ∈ axes cfg → (x, v) ∈ homing_final (signal_prefix cfg (ax_index ax)) →
    homed_signals cfg (signals m) !! x = Some v.
Proof.
  intros (Hd & Hip & Hl). split.
  - eapply emits_program; [apply (homing_emits false) | done..].
  - intros ax x v Hin Hx. eapply homing_writes_final; eauto.
Qed.

(** The soft-limit program faults unconditionally.  In one cycle, whatever
    the positions, the homed flags and the limits, it halts having set the
    position fault of every axis with limits enabled to 1.0 and its position
    command to 0.0, and changes no other signal. *)
Theorem limits_always_fault cfg m d :
  ready m d →
  cycle_leaves m d (SoftLimits.generate_soft_limits_program cfg) (limited_signals cfg (signals m)) ∧
  ∀ ax, ax ∈ axes cfg → soft_limit_enable ax = true →
    limited_signals cfg (signals m) !! (signal_prefix cfg (ax_index ax) +:+ ".pos_fault") =
      Some (VF64 f64_1) ∧
    limited_signals cfg (signals m) !! (signal_prefix cfg (ax_index ax) +:+ ".pos_cmd") =
      Some (VF64 f64_zero).
Proof.
  intros (Hd & Hip & Hl). split.
  - eapply emits_program; [apply (limits_emits false) | done..].
  - intros ax Hin He. split;
      (apply (concat_lookup _ (λ a, signal_prefix cfg (ax_index a) =
           signal_prefix cfg (ax_index ax) ∧ soft_limit_enable a = true));
       [ intros a s [Ea Hb]; unfold limits_writes; rewrite Ea, Hb; cbn; axis_lookup; reflexivity
       | intros a s Ea; unfold limits_writes; destruct (soft_limit_enable a); [|done];
         assert (signal_prefix cfg (ax_index a) ≠ signal_prefix cfg (ax_index ax)) by tauto;
         cbn; axis_lookup; reflexivity
       | intros a; apply _
       | right; apply Exists_exists; eauto ]).
Qed.

(** The alarm program never reports a normal state for a group with axes:
    in one cycle, whatever the fault signals, it halts with the any-fault
    signal and the alarm state both 1.0 (both 0.0 for a group without axes),
    and changes no other signal. *)
Theorem alarm_always_warns cfg m d :
  ready m d →
  cycle_leaves m d (Alarm.generate_alarm_program cfg) (alarmed_signals cfg (signals m)).
Proof.
  intros (Hd & Hip & Hl). unfold Alarm.generate_alarm_program. rewrite (assoc_L (++)).
  eapply emits_program; [apply (alarm_emits false) | done..].
Qed.

(** The backlash program adds the distance in every cycle.  In one cycle it
    halts having added the backlash distance to the commanded position of every
    compensated axis and recorded a positive direction, whatever the velocity
    and the last direction, and changes no other signal; provided the generated
    text is shorter than 2^32 instructions. *)
Theorem backlash_every_cycle cfg m d :
  ready m d → Z.of_nat (2 + 33 * length (axes cfg)) < 2 ^ 32 →
  cycle_leaves m d (Backlash.generate_backlash_program cfg)
    (foldl (λ s ax, backlash_effect cfg ax s) (signals m) (axes cfg)).
Proof.
  intros (Hd & Hip & Hl) Hb.
  eapply (emits_program false backlash_consts
            (λ s, foldl (λ s ax, backlash_effect cfg ax s) s (axes cfg))); [|done..].
  apply (emits_trans _ _ backlash_consts _ (λ s, s) (λ s, foldl (λ s ax, backlash_effect cfg ax s) s (axes cfg))
           _ [load_imm Backlash.R_ZERO (VF64 f64_zero); load_imm Backlash.R_ONE (VF64 f64_1)]).
  - apply backlash_prologue.
  - apply (emits_foldl_bounded false (Backlash.backlash_axis cfg) _ (backlash_effect cfg) 33 (2 ^ 32));
      [|exact Hb]. intros. by apply backlash_axis_effect.
Qed.

(** ** The combined program *)
(** A program whose text runs wherever it is copied to. *)
Definition part (w : gmap string HalValue → gmap string HalValue) (p : HalProgram) : Prop :=
  ∃ cs code, instructions p = code ++ [halt] ∧ emits true [] cs w [] code.

Lemma without_halts_code p code :
  no_halt code = true → instructions p = code ++ [halt] → AxisGroup.without_halts p = code.
Proof.
  intros Hn Hp. unfold AxisGroup.without_halts. rewrite Hp, List.filter_app. cbn.
  rewrite app_nil_r. clear Hp. induction code as [|i code IH]; [done|].
  cbn in *. apply andb_true_iff in Hn as [-> Hn]. by rewrite IH.
Qed.

Lemma part_emits w p insts :
  part w p → emits true [] [] w insts (insts ++ AxisGroup.without_halts p).
Proof.
  intros (cs & code & Hp & c & E & N & R). cbn in E. subst c.
  rewrite (without_halts_code p code N Hp). exists code. split_and!; [done..|].
  intros pc _ q m d Hd Hm Hip Hc.
  destruct (R pc (or_introl eq_refl) q m d Hd Hm Hip Hc) as (n & m' & Hr & Hi & [Hl _] & Hs).
  exists n, m'. by split_and!.
Qed.

Lemma parts_emit ws ps insts :
  Forall2 part ws ps →
  emits true [] [] (λ s, foldl (λ s w, w s) s ws) insts
    (insts ++ concat (map AxisGroup.without_halts ps)).
Proof.
  intros H. revert insts. induction H as [|w p ws ps Hp _ IH]; intros insts.
  - rewrite app_nil_r. apply emits_refl.
  - cbn. rewrite (assoc_L (++)).
    apply (emits_trans true [] [] [] w (λ s, foldl (λ s w, w s) s ws) _
             (insts ++ AxisGroup.without_halts p)); [by apply part_emits | apply IH].
Qed.

(** [C26] The combined axis-group program of a group without compensated axes
    halts in every cycle and has the effect of the homing, limit and alarm
    programs one after the other: the jumps of the three parts keep the targets
    they had in their own program, and are never taken. *)
Theorem combined_cycle cfg m d :
  ready m d → forallb (fun ax => negb (Backlash.compensates ax)) (axes cfg) = true →
  cycle_leaves m d (AxisGroup.generate_combined_program cfg)
    (alarmed_signals cfg (limited_signals cfg (homed_signals cfg (signals m)))).
Proof.
  intros (Hd & Hip & Hl) Hb.
  eapply (emits_program true [] (λ s, foldl (λ s w, w s) s
    [homed_signals cfg; limited_signals cfg; (λ s, s); alarmed_signals cfg])); [|done..].
  apply (parts_emit _ _ []). repeat constructor.
  - exists homing_consts. eexists. split; [reflexivity | apply homing_emits].
  - exists limits_consts. eexists. split; [reflexivity | apply limits_emits].
  - exists backlash_consts. eexists. split; [reflexivity|].
    assert (E : ∀ l insts, forallb (fun ax => negb (Backlash.compensates ax)) l = true →
                foldl (Backlash.backlash_axis cfg) insts l = insts).
    { induction l as [|ax l IH]; intros insts Hl'; [done|].
      cbn in *. apply andb_true_iff in Hl' as [Ha Hl']. rewrite IH by done.
      unfold Backlash.backlash_axis. by apply negb_true_iff in Ha as ->. }
    rewrite (E _ _ Hb). apply backlash_prologue.
  - exists []. eexists. split; [|apply alarm_emits]. apply (assoc_L (++)).
Qed.
End programs.

(** A group of one compensated axis: the jump of the backlash part keeps the
    target it had in its own program, which lies in the homing part. *)
Definition compensated_axis : AxisConfig :=
  let a := axis_linear 0 "X" in
  mkAxisConfig (ax_index a) (ax_label a) (axis_type a) (soft_limit_min a) (soft_limit_max a)
    (soft_limit_enable a) f64_1 true (home_search_vel a) (home_latch_vel a)
    (home_backoff_dist a) (home_offset a) (home_max_dist a) (home_latch_max_dist a)
    (home_direction a).
Definition compensated_group : AxisGroupConfig := group_new "g" [compensated_axis].
Definition compensated_start : Executor :=
  executor_new (AxisGroup.generate_combined_program compensated_group).

Lemma compensated_cycles :
  ∃ e, steps (H := debug_profile) 203 compensated_start = Some e ∧
       steps (H := debug_profile) 92 e = Some e.
Proof.
  destruct (steps (H := debug_profile) 203 compensated_start) as [e|] eqn:E;
    [|vm_compute in E; discriminate E].
  exists e. split; [done|]. vm_compute in E. injection E as <-. vm_compute. reflexivity.
Qed.

(** The combined program of a compensated axis never halts. *)
Lemma combined_compensated_diverges fuel :
  run_to_halt (H := debug_profile) fuel compensated_start = OutOfFuel.
Proof.
  destruct compensated_cycles as (e & H1 & H2). apply steps_continues in H1, H2.
  unfold run_to_halt. generalize 0%nat as k. revert fuel.
  eapply diverges_after; [exact H1|]. apply (diverges_cycle (λ x, x = e)); [|done].
  intros x ->. by exists 91%nat, e.
Qed.

(** ** Witnesses *)
Lemma ready_new : ready vm_new debug_new.
Proof. by split_and!. Qed.

Lemma homing_one_cycle_witness :
  ready vm_new debug_new ∧
  homed_signals default_xyz (signals vm_new) !! "group.group.0.axis.1.homed" = Some (VF64 f64_1).
Proof.
  split; [apply ready_new|].
  apply (homing_one_cycle (HB := debug_profile) default_xyz vm_new debug_new ready_new)
    with (ax := axis_linear 1 "Y").
  - apply list_elem_of_lookup. by exists 1%nat.
  - apply list_elem_of_lookup. by exists 1%nat.
Defined.

Lemma limits_always_fault_witness :
  ready vm_new debug_new ∧
  limited_signals default_xyz (signals vm_new) !! "group.group.0.axis.2.pos_fault" =
    Some (VF64 f64_1).
Proof.
  split; [apply ready_new|].
  apply (limits_always_fault (HB := debug_profile) default_xyz vm_new debug_new ready_new)
    with (ax := axis_linear 2 "Z").
  - apply list_elem_of_lookup. by exists 2%nat.
  - reflexivity.
Defined.

Lemma alarm_always_warns_witness :
  ready vm_new debug_new ∧
  cycle_leaves (HB := debug_profile) vm_new debug_new (Alarm.generate_alarm_program default_xyz)
    (alarmed_signals default_xyz ∅).
Proof. split; [apply ready_new | apply alarm_always_warns, ready_new]. Defined.

Lemma backlash_every_cycle_witness :
  ready vm_new debug_new ∧ Backlash.compensates compensated_axis = true ∧
  cycle_leaves (HB := debug_profile) vm_new debug_new
    (Backlash.generate_backlash_program compensated_group)
    (backlash_effect compensated_group compensated_axis ∅).
Proof.
  split_and!; [apply ready_new | by vm_compute |].
  apply (backlash_every_cycle compensated_group); [apply ready_new | by vm_compute].
Defined.

Lemma combined_cycle_witness :
  ready vm_new debug_new ∧
  forallb (fun ax => negb (Backlash.compensates ax)) (axes default_xyz) = true ∧
  cycle_leaves (HB := debug_profile) vm_new debug_new
    (AxisGroup.generate_combined_program default_xyz)
    (alarmed_signals default_xyz (limited_signals default_xyz (homed_signals default_xyz ∅))).
Proof.
  split_and!; [apply ready_new | by vm_compute |].
  apply combined_cycle; [apply ready_new | by vm_compute].
Defined.
