(* ===== verification/LdSemantics.v ===== *)
(** * Ladder power flow ([audesys-ld-semantics/src/lib.rs])

    The contact network with its cached topological order, power-flow
    evaluation, rung and scan-cycle evaluation and EN/ENO chains.  Vectors
    indexed by node or edge number are lists, hash maps are [gmap]s.  The
    traversal that builds the topological order need not end, so it takes fuel
    and a computation either finishes, panics or still runs. *)
From stdpp Require Import gmap strings.
From stdpp Require Import gmap strings list sorting.
From S2P Require Import Prelude.
Inductive Loop (A : Type) : Type :=
  | Finished (a : A)
  | Panicked
  | Running.
Arguments Finished {A} a.
Arguments Panicked {A}.
Arguments Running {A}.

Definition loop_bind {A B} (m : Loop A) (f : A → Loop B) : Loop B :=
  match m with
  | Finished a => f a
  | Panicked => Panicked
  | Running => Running
  end.
Definition or_panic {A} (o : option A) : Loop A :=
  match o with Some a => Finished a | None => Panicked end.
Notation "'let%' x ':=' m 'in' k" := (loop_bind m (fun x => k))
  (at level 10, x pattern, m at level 100, k at level 200)
  : hal_scope.

(** ** Contacts and coils *)
Inductive Contact :=
  | No (v : string)
  | Nc (v : string)
  | PosEdge (v : string)
  | NegEdge (v : string).

Definition var_name (c : Contact) : string :=
  match c with No v | Nc v | PosEdge v | NegEdge v => v end.

Inductive CoilKind := Out | SetCoil | Reset | Negated.
Record Coil := mkCoil { coil_var : string; coil_kind : CoilKind }.

(** ** The contact network *)
Record ContactNode := mkNode { node_id : nat }.
Record ContactEdge := mkEdge { source : nat; target : nat; contact : Contact }.

Record ContactNetwork := mkNetwork {
  nodes : list ContactNode;
  edges : list ContactEdge;
  left_rail : option nat;
  output_node : option nat;
  outgoing : list (list nat);
  topo_order : list nat;
  dirty : bool }.

Definition network_new : ContactNetwork := mkNetwork [] [] None None [] [] false.

Definition add_node (n : ContactNetwork) : ContactNetwork * nat :=
  let id := length (nodes n) in
  (mkNetwork (nodes n ++ [mkNode id]) (edges n) (left_rail n) (output_node n)
     (outgoing n ++ [[]]) (topo_order n) true, id).

(** Panics when the source is not a node; the target is not checked. *)
Definition add_edge (n : ContactNetwork) (src tgt : nat) (c : Contact) : option ContactNetwork :=
  let edges' := edges n ++ [mkEdge src tgt c] in
  let edge_idx := (length edges' - 1)%nat in
  l ← outgoing n !! src;
  Some (mkNetwork (nodes n) edges' (left_rail n) (output_node n)
          (<[src := l ++ [edge_idx]]> (outgoing n)) (topo_order n) true).

Definition set_left_rail (n : ContactNetwork) (node : nat) : ContactNetwork :=
  mkNetwork (nodes n) (edges n) (Some node) (output_node n) (outgoing n) (topo_order n) (dirty n).
Definition set_output_node (n : ContactNetwork) (node : nat) : ContactNetwork :=
  mkNetwork (nodes n) (edges n) (left_rail n) (Some node) (outgoing n) (topo_order n) (dirty n).
Definition with_topo (n : ContactNetwork) (order : list nat) : ContactNetwork :=
  mkNetwork (nodes n) (edges n) (left_rail n) (output_node n) (outgoing n) order false.

Definition left_rail_node (n : ContactNetwork) : option nat := left_rail n.
Definition output_node_id (n : ContactNetwork) : option nat := output_node n.

Definition outgoing_edges (n : ContactNetwork) (node : nat) : option (list ContactEdge) :=
  l ← outgoing n !! node; mapM (fun idx => edges n !! idx) l.

(** [in_degree[edge.target] += 1] for every edge. *)
Definition count_edge (deg : option (list nat)) (e : ContactEdge) : option (list nat) :=
  deg ← deg; d ← deg !! target e; Some (<[target e := S d]> deg).
Definition in_degrees (n : ContactNetwork) : option (list nat) :=
  foldl count_edge (Some (replicate (length (nodes n)) 0%nat)) (edges n).

(** One outgoing edge: decrement the target (saturating) and push it when it
    has no unvisited source left. *)
Definition relax (st : option (list nat * list nat)) (e : ContactEdge)
  : option (list nat * list nat) :=
  '(deg, queue) ← st;
  d ← deg !! target e;
  let d' := (d - 1)%nat in
  Some (<[target e := d']> deg, if (d' =? 0)%nat then queue ++ [target e] else queue).

(** [queue.pop()] takes the last element. *)
Fixpoint topo_loop (fuel : nat) (n : ContactNetwork) (deg queue order : list nat)
  : Loop (list nat) :=
  match last queue with
  | None => Finished order
  | Some node =>
      match fuel with
      | O => Running
      | S fuel =>
          let% es := or_panic (outgoing_edges n node) in
          let% (deg, queue) := or_panic (foldl relax (Some (deg, removelast queue)) es) in
          topo_loop fuel n deg queue (order ++ [node])
      end
  end.

Definition seed (n : ContactNetwork) (deg : list nat) : list nat :=
  match left_rail n with
  | Some lr => [lr]
  | None => filter (fun i => deg !! i = Some 0%nat) (seq 0 (length (nodes n)))
  end.

Definition rebuild_topo (fuel : nat) (n : ContactNetwork) : Loop ContactNetwork :=
  let% deg := or_panic (in_degrees n) in
  let% order := topo_loop fuel n deg (seed n deg) [] in
  Finished (with_topo n order).

Definition topological_order (fuel : nat) (n : ContactNetwork) : Loop ContactNetwork :=
  if dirty n then rebuild_topo fuel n else Finished n.

(** ** Input snapshot and edge detection *)
Abbreviation InputSnapshot := (gmap string bool) (only parsing).
Abbreviation EdgeState := (gmap string bool) (only parsing).
Abbreviation VarStore := (gmap string bool) (only parsing).

Definition get_bool (m : gmap string bool) (var : string) : bool := default false (m !! var).
Definition snapshot_from (l : list (string * bool)) : InputSnapshot :=
  foldl (fun m '(k, v) => <[k := v]> m) ∅ l.

Definition is_rising (es : EdgeState) (var : string) (snapshot : InputSnapshot) : bool * EdgeState :=
  let curr := get_bool snapshot var in
  let prev := get_bool es var in
  (negb prev && curr, <[var := curr]> es).
Definition is_falling (es : EdgeState) (var : string) (snapshot : InputSnapshot) : bool * EdgeState :=
  let curr := get_bool snapshot var in
  let prev := get_bool es var in
  (prev && negb curr, <[var := curr]> es).

(** [entry(var).or_insert(val)] for every variable of the snapshot. *)
Definition advance_cycle (es : EdgeState) (snapshot : InputSnapshot) : EdgeState := es ∪ snapshot.

(** ** Power flow *)
Definition contact_power (snapshot : InputSnapshot) (es : EdgeState) (c : Contact)
  : bool * EdgeState :=
  match c with
  | No v => (get_bool snapshot v, es)
  | Nc v => (negb (get_bool snapshot v), es)
  | PosEdge v => is_rising es v snapshot
  | NegEdge v => is_falling es v snapshot
  end.

Abbreviation Power := (gmap nat bool) (only parsing).

Definition flow_edge (snapshot : InputSnapshot) (st : Power * EdgeState) (e : ContactEdge)
  : Power * EdgeState :=
  let '(np, es) := st in
  let '(power, es) := contact_power snapshot es (contact e) in
  let existing := default false (np !! target e) in
  (<[target e := existing || power]> np, es).

Definition flow_node (n : ContactNetwork) (snapshot : InputSnapshot)
    (st : option (Power * EdgeState)) (node : nat) : option (Power * EdgeState) :=
  '(np, es) ← st;
  match np !! node with
  | Some true => l ← outgoing_edges n node; Some (foldl (flow_edge snapshot) (np, es) l)
  | _ => Some (np, es)
  end.

(** The power at the output, the network with its order and the edge state. *)
Definition evaluate_power_flow (fuel : nat) (n : ContactNetwork) (snapshot : InputSnapshot)
    (es : EdgeState) : Loop (bool * ContactNetwork * EdgeState) :=
  let% lr := or_panic (left_rail_node n) in
  let% out := or_panic (output_node_id n) in
  let% n := topological_order fuel n in
  let% (np, es) := or_panic (foldl (flow_node n snapshot) (Some (<[lr := true]> ∅, es)) (topo_order n)) in
  Finished (default false (np !! out), n, es).

(** ** Rungs *)
Inductive ContactType := CtNo | CtNc.
Record ContactState := mkContactState {
  contact_id : string; contact_type : ContactType; is_closed : bool }.
Inductive CoilType := Normal | NegatedCoil | SetLatch | ResetLatch.
Record CoilState := mkCoilState { coil_id : string; coil_type : CoilType; energized : bool }.
Record RungState := mkRungState {
  rung_id : string; contact_states : list ContactState; coil_states : list CoilState }.
Record PowerFlowResult := mkResult {
  rung_states : list RungState; powered_coils : list string }.

Definition coil_type_of (k : CoilKind) : CoilType :=
  match k with Out => Normal | Negated => NegatedCoil | SetCoil => SetLatch | Reset => ResetLatch end.

(** A new node at the end of the chain, and the edge to it. *)
Definition serial_step (st : option (ContactNetwork * nat)) (c : Contact)
  : option (ContactNetwork * nat) :=
  '(n, prev) ← st;
  let '(n, next) := add_node n in
  n ← add_edge n prev next c;
  Some (n, next).

Definition build_serial_network (contacts : list Contact) : option ContactNetwork :=
  let '(n, lrail) := add_node network_new in
  '(n, prev) ← foldl serial_step (Some (set_left_rail n lrail, lrail)) contacts;
  Some (set_output_node n prev).

(** [edge_is]: the stub that reports an edge contact. *)
Definition edge_is (var : string) (snapshot : InputSnapshot) : bool := get_bool snapshot var.

Definition rung_contact_state (snapshot : InputSnapshot) (c : Contact) : ContactState :=
  let '(ct, closed) := match c with
    | No v => (CtNo, get_bool snapshot v)
    | Nc v => (CtNc, negb (get_bool snapshot v))
    | PosEdge v => (CtNo, edge_is v snapshot)
    | NegEdge v => (CtNc, edge_is v snapshot)
    end in
  mkContactState (var_name c) ct closed.

Definition rung_coil_state (power : bool) (vars : VarStore) (c : Coil) : CoilState :=
  mkCoilState (coil_var c) (coil_type_of (coil_kind c))
    (match coil_kind c with
     | Out => power
     | Negated => negb power
     | SetCoil => power || (get_bool vars (coil_var c) && negb power)
     | Reset => negb power && get_bool vars (coil_var c)
     end).

Definition evaluate_rung (fuel : nat) (id : string) (contacts : list Contact) (coils : list Coil)
    (snapshot : InputSnapshot) (es : EdgeState) (vars : VarStore) : Loop (RungState * EdgeState) :=
  let% n := or_panic (build_serial_network contacts) in
  let% (power, _, es) := evaluate_power_flow fuel n snapshot es in
  Finished (mkRungState id (map (rung_contact_state snapshot) contacts)
              (map (rung_coil_state power vars) coils), es).

(** ** Variable store *)
Definition set_bool (vars : VarStore) (var : string) (value : bool) : VarStore := <[var := value]> vars.
Definition store_coils (vars : VarStore) (cs : list CoilState) : VarStore :=
  foldl (fun vars c => set_bool vars (coil_id c) (energized c)) vars cs.
Definition apply_result (vars : VarStore) (r : PowerFlowResult) : VarStore :=
  foldl (fun vars rung => store_coils vars (coil_states rung)) vars (rung_states r).

(** ** EN/ENO *)
Definition evaluate_eno (en error : bool) : bool := en && negb error.

Record FnOutput := mkFnOutput { fo_var : string; fo_value : bool }.
Record FnBlock := mkFnBlock { fb_name : string; fb_error : bool; fb_outputs : list FnOutput }.
Record FnBlockResult := mkFnBlockResult {
  fr_name : string; fr_en : bool; fr_eno : bool; fr_outputs : list FnOutput }.

Fixpoint evaluate_eno_chain (en : bool) (blocks : list FnBlock) : list FnBlockResult :=
  match blocks with
  | [] => []
  | b :: blocks =>
      let eno := if en && negb (fb_error b) then true else false in
      mkFnBlockResult (fb_name b) en eno
        (if en && negb (fb_error b) then fb_outputs b else []) ::
      evaluate_eno_chain eno blocks
  end.

(** ** Scan cycle *)
Record RungDef := mkRungDef { rd_id : string; network : ContactNetwork; rd_coils : list Coil }.

Definition cycle_contact_state (snapshot : InputSnapshot) (c : Contact) : ContactState :=
  let '(ct, closed) := match c with
    | No v => (CtNo, get_bool snapshot v)
    | Nc v => (CtNc, negb (get_bool snapshot v))
    | PosEdge v => (CtNo, get_bool snapshot v)
    | NegEdge v => (CtNc, negb (get_bool snapshot v))
    end in
  mkContactState (var_name c) ct closed.

Definition cycle_coil_state (power : bool) (vars : VarStore) (c : Coil) : CoilState :=
  mkCoilState (coil_var c) (coil_type_of (coil_kind c))
    (match coil_kind c with
     | Out => power
     | Negated => negb power
     | SetCoil => if power then true else get_bool vars (coil_var c)
     | Reset => if power then false else get_bool vars (coil_var c)
     end).

Record CycleState := mkCycle {
  cy_rungs : list RungDef;
  cy_vars : VarStore;
  cy_snapshot : InputSnapshot;
  cy_edges : EdgeState;
  cy_states : list RungState;
  cy_powered : list string }.

(** One rung of the cycle. *)
Definition cycle_rung (fuel : nat) (st : Loop CycleState) (rung : RungDef) : Loop CycleState :=
  let% st := st in
  let% (power, net, es) := evaluate_power_flow fuel (network rung) (cy_snapshot st) (cy_edges st) in
  let cstates := map (fun e => cycle_contact_state (cy_snapshot st) (contact e)) (edges net) in
  let coils := map (cycle_coil_state power (cy_vars st)) (rd_coils rung) in
  let vars := store_coils (cy_vars st) coils in
  Finished (mkCycle (cy_rungs st ++ [mkRungDef (rd_id rung) net (rd_coils rung)]) vars vars es
    (cy_states st ++ [mkRungState (rd_id rung) cstates coils])
    (cy_powered st ++ map coil_id (List.filter energized coils))).

(** The rungs, with their topological orders, and the variables after the
    cycle.  The edge state starts empty in every cycle and is dropped at its
    end. *)
Definition evaluate_cycle (fuel : nat) (rungs : list RungDef) (vars : VarStore)
  : Loop (list RungDef * VarStore * PowerFlowResult) :=
  let% st := foldl (cycle_rung fuel) (Finished (mkCycle [] vars vars ∅ [] [])) rungs in
  Finished (cy_rungs st, cy_vars st, mkResult (cy_states st) (cy_powered st)).

(** ** Parallel branches *)
(** The last contact of a branch leads to the output, the others to new nodes. *)
Fixpoint branch_edges (n : ContactNetwork) (output prev : nat) (contacts : list Contact)
  : option ContactNetwork :=
  match contacts with
  | [] => Some n
  | c :: contacts =>
      let '(n, next) := match contacts with [] => (n, output) | _ => add_node n end in
      n ← add_edge n prev next c;
      branch_edges n output next contacts
  end.

Definition build_parallel_network (branches : list (list Contact)) : option ContactNetwork :=
  let '(n, lrail) := add_node network_new in
  let n := set_left_rail n lrail in
  let '(n, output) := add_node n in
  let n := set_output_node n output in
  foldl (fun n b => n ← n; branch_edges n output lrail b) (Some n) branches.

(** ** Facts about analysis and monitoring

    The topological order is Kahn's algorithm: on an acyclic
    network whose edges all start at nodes reachable from the left rail, it
    ends with an order in which every reachable node comes after the sources
    of its edges ([topo_loop_order]).  Along such an order the evaluation
    computes exactly the nodes reachable through closed contacts. *)
Local Open Scope nat_scope.
Lemma filter_empty {A} (P : A → Prop) `{∀ x, Decision (P x)} l :
  (∀ x, x ∈ l → ¬ P x) → filter P l = [].
Proof.
  intros H0. induction l as [|x l IH]; [done|].
  rewrite filter_cons_False by (apply H0; left). apply IH. intros y Hy. apply H0. by right.
Qed.

(** ** Well-formed networks *)
Record net_wf (n : ContactNetwork) : Prop := {
  nw_len : length (outgoing n) = length (nodes n);
  nw_out : ∀ u l, outgoing n !! u = Some l →
    mapM (fun i => edges n !! i) l = Some (filter (λ e, source e = u) (edges n));
  nw_src : ∀ e, e ∈ edges n → source e < length (nodes n);
  nw_tgt : ∀ e, e ∈ edges n → target e < length (nodes n) }.

Lemma outgoing_edges_wf n u :
  net_wf n → u < length (nodes n) →
  outgoing_edges n u = Some (filter (λ e, source e = u) (edges n)).
Proof.
  intros W Hu. unfold outgoing_edges. destruct (outgoing n !! u) as [l|] eqn:E.
  - by apply (nw_out n W).
  - apply lookup_ge_None in E. rewrite (nw_len n W) in E. lia.
Qed.

Lemma net_wf_new : net_wf network_new.
Proof. split; [done | done | intros e He; by apply not_elem_of_nil in He..]. Qed.

Lemma net_wf_add_node n : net_wf n → net_wf (add_node n).1.
Proof.
  intros [L O S T]. split; cbn.
  - by rewrite !length_app, L.
  - intros u l Hl. apply lookup_app_Some in Hl as [Hl|[Hle Hl]]; [by apply O|].
    assert (u - length (outgoing n) = 0) as E by (apply lookup_lt_Some in Hl; cbn in Hl; lia).
    rewrite E in Hl. injection Hl as <-. cbn. f_equal. symmetry. apply filter_empty.
    intros e He. apply S in He. lia.
  - intros e He. rewrite length_app. apply S in He. lia.
  - intros e He. rewrite length_app. apply T in He. lia.
Qed.

Lemma mapM_app_some {A B} (f : A → option B) l k r r' :
  mapM f l = Some r → mapM f k = Some r' → mapM f (l ++ k) = Some (r ++ r').
Proof.
  revert r. induction l as [|x l IH]; intros r; cbn; [by intros [= <-]|].
  destruct (f x) as [y|]; [|done]. cbn. destruct (mapM f l) as [q|] eqn:E; [|done].
  cbn. intros [= <-] Hk. by rewrite (IH q eq_refl Hk).
Qed.

Lemma mapM_lookup_app {A} (l k : list A) ix r :
  mapM (fun i => l !! i) ix = Some r → mapM (fun i => (l ++ k) !! i) ix = Some r.
Proof.
  revert r. induction ix as [|i ix IH]; intros r; cbn; [done|].
  destruct (l !! i) as [a|] eqn:E; [|done]. cbn. rewrite (lookup_app_l_Some _ _ _ _ E). cbn.
  destruct (mapM (fun i => l !! i) ix) as [r'|] eqn:E'; [|done]. cbn. intros [= <-].
  by rewrite (IH r' eq_refl).
Qed.

Lemma net_wf_add_edge n s t c n' :
  net_wf n → t < length (nodes n) → add_edge n s t c = Some n' →
  net_wf n' ∧ edges n' = edges n ++ [mkEdge s t c] ∧ nodes n' = nodes n.
Proof.
  intros [L O S T] Ht. unfold add_edge. rewrite length_app. cbn [length].
  replace (length (edges n) + 1 - 1) with (length (edges n)) by lia.
  destruct (outgoing n !! s) as [l|] eqn:E; [|done]. cbn. intros [= <-].
  assert (Hs : s < length (nodes n)) by (rewrite <- L; by eapply lookup_lt_Some).
  split; [|done]. split; cbn.
  - by rewrite length_insert.
  - intros u k Hk. rewrite filter_app. destruct (decide (u = s)) as [->|Hne].
    + rewrite list_lookup_insert_eq in Hk by (by eapply lookup_lt_Some). injection Hk as <-.
      rewrite filter_cons_True by done. apply mapM_app_some; [by apply mapM_lookup_app, O|].
      cbn. by rewrite list_lookup_middle.
    + rewrite list_lookup_insert_ne in Hk by done.
      rewrite filter_cons_False by (cbn; congruence). rewrite app_nil_r.
      by apply mapM_lookup_app, O.
  - intros e He. apply elem_of_app in He as [He|He%list_elem_of_singleton]; [by apply S | by subst].
  - intros e He. apply elem_of_app in He as [He|He%list_elem_of_singleton]; [by apply T | by subst].
Qed.

(** ** Counting incoming edges *)
Definition into (v : nat) (es : list ContactEdge) : nat := length (filter (λ e, target e = v) es).
(** Edges into [v] whose source is not visited yet. *)
Definition unproc (es : list ContactEdge) (T : list nat) (v : nat) : nat :=
  length (filter (λ e, target e = v ∧ source e ∉ T) es).

Lemma into_cons v e es : into v (e :: es) = (if decide (target e = v) then 1 else 0) + into v es.
Proof. unfold into. rewrite filter_cons. by destruct (decide _). Qed.

Lemma unproc_nil es v : unproc es [] v = into v es.
Proof.
  unfold unproc, into. f_equal. apply list_filter_iff. intros e. split; [by intros []|].
  intros ->. split; [done | apply not_elem_of_nil].
Qed.

Lemma unproc_visit es T u v :
  u ∉ T → unproc es T v = unproc es (T ++ [u]) v + into v (filter (λ e, source e = u) es).
Proof.
  intros Hu. induction es as [|e es IH]; [done|]. unfold unproc, into in *.
  rewrite !filter_cons.
  assert (Hin : ∀ x, x ∉ (T ++ [u]) ↔ x ∉ T ∧ x ≠ u).
  { intros x. rewrite elem_of_app, list_elem_of_singleton. tauto. }
  destruct (decide (target e = v)) as [Ht|Ht], (decide (source e = u)) as [Hs|Hs],
    (decide (source e ∈ T)) as [HT|HT];
    repeat (first [rewrite decide_True by (rewrite ?Hin; tauto) |
                   rewrite decide_False by (rewrite ?Hin; tauto) |
                   rewrite filter_cons_True by done | rewrite filter_cons_False by done]);
    cbn [length]; try (subst; done); lia.
Qed.

Lemma unproc_zero es T v :
  unproc es T v = 0 ↔ ∀ e, e ∈ es → target e = v → source e ∈ T.
Proof.
  unfold unproc. rewrite length_zero_iff_nil. split.
  - intros H e He Ht. destruct (decide (source e ∈ T)) as [|Hn]; [done|].
    assert (Hf : e ∈ filter (λ e, target e = v ∧ source e ∉ T) es) by (by apply list_elem_of_filter).
    rewrite H in Hf. by apply not_elem_of_nil in Hf.
  - intros H. apply filter_empty. intros e He [Ht Hs]. by apply Hs, H.
Qed.

Lemma into_pos v es : 0 < into v es ↔ ∃ e, e ∈ es ∧ target e = v.
Proof.
  induction es as [|e es IH]; [split; [cbn; lia | intros (e & He & _); by apply not_elem_of_nil in He]|].
  rewrite into_cons. setoid_rewrite elem_of_cons. destruct (decide (target e = v)) as [Ht|Ht].
  - split; [|lia]. intros _. exists e. auto.
  - cbn. rewrite IH. split; [naive_solver|]. intros (e' & [->|He] & Ht'); [done | eauto].
Qed.

Lemma in_degrees_wf n :
  net_wf n →
  ∃ deg, in_degrees n = Some deg ∧ length deg = length (nodes n) ∧
    ∀ v, v < length (nodes n) → deg !! v = Some (into v (edges n)).
Proof.
  intros W. unfold in_degrees.
  assert (G : ∀ es deg (f : nat → nat), length deg = length (nodes n) →
    (∀ e, e ∈ es → target e < length (nodes n)) →
    (∀ v, v < length (nodes n) → deg !! v = Some (f v)) →
    ∃ deg', foldl count_edge (Some deg) es = Some deg' ∧ length deg' = length (nodes n) ∧
      ∀ v, v < length (nodes n) → deg' !! v = Some (f v + into v es)).
  { induction es as [|e es IH]; intros deg f Hl Ht Hd.
    - exists deg. split_and!; [done..|]. intros v Hv. rewrite Hd by done. by rewrite Nat.add_0_r.
    - cbn [foldl count_edge mbind option_bind]. rewrite (Hd (target e)) by (apply Ht; left).
      cbn [mbind option_bind].
      destruct (IH (<[target e := S (f (target e))]> deg)
        (λ v, f v + if decide (target e = v) then 1 else 0)) as (deg' & E & L & D).
      + by rewrite length_insert.
      + intros e' He'. apply Ht. by right.
      + intros v Hv. destruct (decide (target e = v)) as [<-|Hne].
        * rewrite list_lookup_insert_eq by lia. f_equal. lia.
        * rewrite list_lookup_insert_ne by done. rewrite Hd by done. f_equal. lia.
      + exists deg'. split_and!; [done..|]. intros v Hv. rewrite D by done. rewrite into_cons.
        f_equal. lia. }
  destruct (G (edges n) (replicate (length (nodes n)) 0) (λ _, 0)) as (deg & E & L & D).
  - apply length_replicate.
  - apply nw_tgt, W.
  - intros v Hv. by rewrite lookup_replicate_2.
  - exists deg. by split_and!.
Qed.

(** ** The order *)

(** The outgoing edges of one node: every target that loses its last
    unvisited source is pushed, once. *)
Lemma relax_edges N es deg queue (a : nat → nat) :
  length deg = N → (∀ e, e ∈ es → target e < N) →
  (∀ v, v < N → deg !! v = Some (a v + into v es)) →
  ∃ deg' added, foldl relax (Some (deg, queue)) es = Some (deg', queue ++ added) ∧
    length deg' = N ∧ (∀ v, v < N → deg' !! v = Some (a v)) ∧
    NoDup added ∧ ∀ v, v ∈ added ↔ a v = 0 ∧ 0 < into v es.
Proof.
  revert deg queue. induction es as [|e es IH]; intros deg queue Hl Ht Hd.
  - exists deg, []. rewrite app_nil_r. split_and!; [done..| | constructor |].
    + intros v Hv. rewrite Hd by done. f_equal. cbn. lia.
    + intros v. split; [intros H; by apply not_elem_of_nil in H | cbn; lia].
  - assert (Hte : target e < N) by (apply Ht; left).
    cbn [foldl relax mbind option_bind]. rewrite (Hd _ Hte). cbn [mbind option_bind].
    rewrite into_cons, decide_True by done.
    replace (a (target e) + (1 + into (target e) es) - 1) with (a (target e) + into (target e) es) by lia.
    set (d' := a (target e) + into (target e) es).
    destruct (IH (<[target e := d']> deg) (if (d' =? 0) then queue ++ [target e] else queue))
      as (deg' & added & E & L & D & ND & Ha).
    + by rewrite length_insert.
    + intros e' He'. apply Ht. by right.
    + intros v Hv. destruct (decide (target e = v)) as [<-|Hne].
      * by rewrite list_lookup_insert_eq by lia.
      * rewrite list_lookup_insert_ne, Hd, into_cons, decide_False by done. done.
    + exists deg', (if d' =? 0 then target e :: added else added). split_and!; [|done|done| |].
      * rewrite E. destruct (d' =? 0); [by rewrite <- (assoc_L (++)) | done].
      * destruct (d' =? 0) eqn:Ed; [|done]. apply Nat.eqb_eq in Ed. constructor; [|done].
        rewrite Ha. lia.
      * intros v. rewrite into_cons. destruct (d' =? 0) eqn:Ed.
        -- apply Nat.eqb_eq in Ed. rewrite elem_of_cons, Ha. destruct (decide (target e = v)) as [<-|Hne].
           ++ split; [lia | by left].
           ++ split; [intros [->|[? ?]]; [done | lia] | right; lia].
        -- apply Nat.eqb_neq in Ed. rewrite Ha. destruct (decide (target e = v)) as [<-|Hne]; lia.
Qed.

(** Every node comes after the sources of its edges. *)
Definition ordered (es : list ContactEdge) (T : list nat) : Prop :=
  ∀ T1 v T2, T = T1 ++ v :: T2 → ∀ e, e ∈ es → target e = v → source e ∈ T1.

Lemma ordered_snoc es T v :
  ordered es T → (∀ e, e ∈ es → target e = v → source e ∈ T) → ordered es (T ++ [v]).
Proof.
  intros HT Hv T1 w T2 E e He Ht. destruct T2 as [|x T2 _] using rev_ind.
  - apply app_inj_tail in E as [-> ->]. by apply Hv.
  - rewrite app_comm_cons, (assoc_L (++)) in E. apply app_inj_tail in E as [-> ->].
    by eapply HT.
Qed.

Record kahn (n : ContactNetwork) (lr : nat) (deg Q T : list nat) : Prop := {
  ka_len : length deg = length (nodes n);
  ka_deg : ∀ v, v < length (nodes n) → deg !! v = Some (unproc (edges n) T v);
  ka_nodup : NoDup (Q ++ T);
  ka_in : ∀ v, v ∈ Q ++ T → v < length (nodes n) ∧ unproc (edges n) T v = 0;
  ka_all : ∀ v, unproc (edges n) T v = 0 → 0 < into v (edges n) → v ∈ Q ++ T;
  ka_lr : lr ∈ Q ++ T;
  ka_ord : ordered (edges n) T }.

Lemma kahn_step n lr deg Q u T :
  net_wf n → kahn n lr deg (Q ++ [u]) T →
  ∃ deg' added, foldl relax (Some (deg, Q)) (filter (λ e, source e = u) (edges n)) =
      Some (deg', Q ++ added) ∧ kahn n lr deg' (Q ++ added) (T ++ [u]).
Proof.
  intros W [L D ND HI HA Hlr HO].
  assert (Hu : u ∉ T).
  { apply NoDup_app in ND as (_ & Hd & _). apply Hd. set_solver. }
  assert (Hperm : ∀ v, v ∈ (Q ++ [u]) ++ T ↔ v ∈ Q ++ (T ++ [u])) by set_solver.
  assert (Hsub : ∀ e, e ∈ filter (λ e, source e = u) (edges n) → e ∈ edges n)
    by (intros e [_ He]%list_elem_of_filter; done).
  destruct (relax_edges (length (nodes n)) (filter (λ e, source e = u) (edges n)) deg Q
              (unproc (edges n) (T ++ [u]))) as (deg' & added & E & L' & D' & NDa & Ha).
  { done. } { intros e He. by apply (nw_tgt n W), Hsub. }
  { intros v Hv. rewrite D by done. by rewrite (unproc_visit _ T u). }
  assert (Hnew : ∀ v, v ∈ added → v ∉ (Q ++ [u]) ++ T).
  { intros v [Hz Hp]%Ha Hin. apply HI in Hin as [_ Hz'].
    rewrite (unproc_visit _ T u) in Hz' by done. lia. }
  assert (Hmono : ∀ v, unproc (edges n) T v = 0 → unproc (edges n) (T ++ [u]) v = 0).
  { intros v Hz. rewrite (unproc_visit _ T u) in Hz by done. lia. }
  exists deg', added. split; [done|]. split; try done.
  - assert (P : (Q ++ added) ++ T ++ [u] ≡ₚ ((Q ++ [u]) ++ T) ++ added) by solve_Permutation.
    rewrite P. apply NoDup_app. split_and!; [done | | done].
    intros v Hv Hin. by apply Hnew in Hin.
  - intros v Hv. assert (v ∈ (Q ++ [u]) ++ T ∨ v ∈ added) as [Hq|Hq] by set_solver.
    + apply HI in Hq as [? ?]. eauto.
    + apply Ha in Hq as [Hz Hp]. split; [|done]. apply into_pos in Hp as (e & He & <-).
      by apply (nw_tgt n W), Hsub.
  - intros v Hz Hp. destruct (decide (unproc (edges n) T v = 0)) as [Hz'|Hz'].
    + specialize (HA v Hz' Hp). set_solver.
    + assert (v ∈ added); [|set_solver]. apply Ha. split; [done|].
      rewrite (unproc_visit _ T u) in Hz' by done. lia.
  - set_solver.
  - apply ordered_snoc; [done|]. apply unproc_zero. apply HI. set_solver.
Qed.

Lemma nodup_below (l : list nat) N : NoDup l → (∀ v, v ∈ l → v < N) → length l ≤ N.
Proof.
  intros ND H. transitivity (length (seq 0 N)); [|by rewrite length_seq]. apply submseteq_length, NoDup_submseteq; [done|].
  intros v Hv. apply elem_of_seq. split; [lia | by apply H].
Qed.

Lemma last_removelast {A} (l : list A) x : last l = Some x → l = removelast l ++ [x].
Proof.
  destruct l as [|a l _] using rev_ind; [done|]. rewrite last_snoc. intros [= ->].
  by rewrite removelast_last.
Qed.

Lemma topo_loop_order n lr deg Q T fuel :
  net_wf n → kahn n lr deg Q T → length (nodes n) ≤ fuel + length T →
  ∃ T' deg', topo_loop fuel n deg Q T = Finished T' ∧ kahn n lr deg' [] T'.
Proof.
  intros W. revert deg Q T. induction fuel as [|fuel IH]; intros deg Q T K Hf.
  all: cbn [topo_loop]; destruct (last Q) as [u|] eqn:Eq;
    [|apply last_None in Eq as ->; by exists T, deg].
  all: apply last_removelast in Eq; set (Q' := removelast Q) in *; clearbody Q'; subst Q.
  - pose proof (nodup_below _ _ (ka_nodup _ _ _ _ _ K) (λ v Hv, proj1 (ka_in _ _ _ _ _ K v Hv))) as H.
    rewrite !length_app in H. cbn in *. lia.
  - rewrite (outgoing_edges_wf n u W) by (apply (ka_in _ _ _ _ _ K); set_solver).
    cbn [or_panic loop_bind].
    destruct (kahn_step n lr deg Q' u T W K) as (deg' & added & -> & K').
    cbn [or_panic loop_bind]. apply IH; [done|]. rewrite length_app. cbn. lia.
Qed.

(** ** Ladder networks *)

(** Nodes with a path of edges in [P] from the left rail. *)
Inductive path (P : ContactEdge → Prop) (es : list ContactEdge) (lr : nat) : nat → Prop :=
  | path_rail : path P es lr lr
  | path_edge e : e ∈ es → path P es lr (source e) → P e → path P es lr (target e).

(** Nodes with a path from the left rail. *)
Definition reach : list ContactEdge → nat → nat → Prop := path (λ _, True).

Lemma path_mono (P Q : ContactEdge → Prop) es lr v :
  (∀ e, P e → Q e) → path P es lr v → path Q es lr v.
Proof. intros H. induction 1 as [|e He _ IH HP]; [constructor | apply path_edge; auto]. Qed.

(** An acyclic network in which every edge starts at a node that has a path
    from the left rail. *)
Record ladder (n : ContactNetwork) (lr out : nat) : Prop := {
  la_wf : net_wf n;
  la_left : left_rail n = Some lr;
  la_out : output_node n = Some out;
  la_lt : lr < length (nodes n);
  la_reach : ∀ e, e ∈ edges n → reach (edges n) lr (source e);
  la_rank : ∃ rank : nat → nat, ∀ e, e ∈ edges n → rank (source e) < rank (target e) }.

(** An order along which power flows. *)
Record flow_order (n : ContactNetwork) (lr : nat) (T : list nat) : Prop := {
  fo_nodup : NoDup T;
  fo_lt : ∀ v, v ∈ T → v < length (nodes n);
  fo_reach : ∀ v, reach (edges n) lr v → v ∈ T;
  fo_ord : ordered (edges n) T }.

(** The cached order is to be rebuilt or right. *)
Definition cached (n : ContactNetwork) (lr : nat) : Prop :=
  dirty n = true ∨ flow_order n lr (topo_order n).

Lemma ladder_no_edge_to_rail n lr out e : ladder n lr out → e ∈ edges n → target e ≠ lr.
Proof.
  intros L He Ht. destruct (la_rank _ _ _ L) as [rank Hr].
  assert (G : ∀ v, reach (edges n) lr v → rank lr ≤ rank v).
  { induction 1 as [|e' He' _ IH _]; [done|]. specialize (Hr e' He'). lia. }
  specialize (G _ (la_reach _ _ _ L e He)). specialize (Hr e He). rewrite Ht in Hr. lia.
Qed.

Lemma kahn_start n lr out deg :
  ladder n lr out → length deg = length (nodes n) →
  (∀ v, v < length (nodes n) → deg !! v = Some (into v (edges n))) →
  kahn n lr deg [lr] [].
Proof.
  intros L Hl Hd. split; cbn [app].
  - done.
  - intros v Hv. by rewrite Hd, unproc_nil.
  - apply NoDup_singleton.
  - intros v ->%list_elem_of_singleton. split; [apply (la_lt _ _ _ L)|]. apply unproc_zero.
    intros e He Ht. by destruct (ladder_no_edge_to_rail _ _ _ _ L He).
  - intros v Hz Hp. rewrite unproc_nil in Hz. lia.
  - set_solver.
  - intros [|] ? ? ?; done.
Qed.

Lemma kahn_end n lr out deg T : ladder n lr out → kahn n lr deg [] T → flow_order n lr T.
Proof.
  intros L K. split.
  - apply (ka_nodup _ _ _ _ _ K).
  - intros v Hv. by apply (ka_in _ _ _ _ _ K).
  - destruct (la_rank _ _ _ L) as [rank Hr].
    intros v. remember (rank v) as k eqn:Ek. revert v Ek.
    induction k as [k IH] using lt_wf_ind. intros v -> Hv.
    destruct Hv as [|e He Hs]; [exact (ka_lr _ _ _ _ _ K)|].
    apply (ka_all _ _ _ _ _ K); [|apply into_pos; eauto].
    apply unproc_zero. intros e' He' Ht. apply (IH (rank (source e'))); [|done|].
    + rewrite <- Ht. by apply Hr.
    + by apply (la_reach _ _ _ L).
  - apply (ka_ord _ _ _ _ _ K).
Qed.

Lemma topological_order_ladder n lr out fuel :
  ladder n lr out → cached n lr → length (nodes n) ≤ fuel →
  ∃ T, topological_order fuel n = Finished (if dirty n then with_topo n T else n) ∧
    flow_order n lr T ∧ (dirty n = false → T = topo_order n).
Proof.
  intros L Hc Hf. unfold topological_order. destruct (dirty n) eqn:Ed.
  - destruct (in_degrees_wf n (la_wf _ _ _ L)) as (deg & Hdeg & Hl & Hd).
    unfold rebuild_topo, seed. rewrite Hdeg, (la_left _ _ _ L). cbn [or_panic loop_bind].
    destruct (topo_loop_order n lr deg [lr] [] fuel (la_wf _ _ _ L)) as (T & deg' & -> & K);
      [by eapply kahn_start | cbn; lia |].
    exists T. split_and!; [done | by eapply kahn_end | done].
  - exists (topo_order n). split_and!; [done | | done]. by destruct Hc as [Hc|]; [rewrite Hc in Ed|].
Qed.

(** ** Power along an order *)
Definition edge_var (c : Contact) : option string :=
  match c with PosEdge v | NegEdge v => Some v | _ => None end.

(** No variable is edge-detected by two contacts. *)
Definition distinct_edges (es : list ContactEdge) : Prop := NoDup (omap (edge_var ∘ contact) es).

(** Whether a contact lets power through, for the levels now and the levels the
    edge state remembers: a rising edge is a variable that was off and is on, a
    falling edge one that was on and is off. *)
Definition passes (now before : gmap string bool) (c : Contact) : bool :=
  match c with
  | No v => get_bool now v
  | Nc v => negb (get_bool now v)
  | PosEdge v => get_bool now v && negb (get_bool before v)
  | NegEdge v => get_bool before v && negb (get_bool now v)
  end.
Definition closed (snapshot : gmap string bool) (es0 : gmap string bool) (e : ContactEdge) : bool :=
  passes snapshot es0 (contact e).

(** Nodes reachable from the left rail through closed contacts. *)
Definition live (snapshot es0 : gmap string bool) (n : ContactNetwork) (lr : nat) : nat → Prop :=
  path (λ e, closed snapshot es0 e = true) (edges n) lr.

Lemma omap_nodup_inj {A B} (f : A → option B) l x y b :
  NoDup (omap f l) → x ∈ l → y ∈ l → f x = Some b → f y = Some b → x = y.
Proof.
  induction l as [|a l IH]; intros ND Hx Hy Fx Fy; [by apply not_elem_of_nil in Hx|]. cbn in ND.
  assert (Hin : ∀ z, z ∈ l → f z = Some b → b ∈ omap f l).
  { intros z Hz Fz. apply list_elem_of_omap. eauto. }
  apply elem_of_cons in Hx as [->|Hx], Hy as [->|Hy]; [done| | |].
  - rewrite Fx in ND. apply NoDup_cons in ND as [Hn _]. by destruct Hn; eapply Hin.
  - rewrite Fy in ND. apply NoDup_cons in ND as [Hn _]. by destruct Hn; eapply Hin.
  - apply IH; try done. destruct (f a); [by apply NoDup_cons in ND as []|done].
Qed.

Lemma omap_nodup_filter {A B} (f : A → option B) (P : A → Prop) `{∀ x, Decision (P x)} l :
  NoDup (omap f l) → NoDup (omap f (filter P l)).
Proof.
  induction l as [|a l IH]; intros ND; [done|]. rewrite filter_cons. cbn in ND.
  assert (ND' : NoDup (omap f l)) by (destruct (f a); [by apply NoDup_cons in ND as []|done]).
  destruct (decide (P a)); [|by apply IH]. cbn. destruct (f a) as [b|]; [|by apply IH].
  constructor; [|by apply IH]. apply NoDup_cons in ND as [Hn _]. intros Hin. apply Hn.
  apply list_elem_of_omap in Hin as (x & [_ Hx]%list_elem_of_filter & Fx).
  apply list_elem_of_omap. eauto.
Qed.

Section flow.
Context (snapshot es0 : gmap string bool).

(** The edge state has not seen the contacts of [l] yet. *)
Definition unseen (es : gmap string bool) (l : list ContactEdge) : Prop :=
  ∀ e x, e ∈ l → edge_var (contact e) = Some x → get_bool es x = get_bool es0 x.

Lemma contact_power_unseen es e :
  (∀ x, edge_var (contact e) = Some x → get_bool es x = get_bool es0 x) →
  (contact_power snapshot es (contact e)).1 = closed snapshot es0 e.
Proof.
  intros H. unfold closed, passes. destruct (contact e) as [v|v|v|v]; cbn in *; try done; rewrite (H v) by done;
    [apply andb_comm | done].
Qed.

Lemma contact_power_other es e x :
  edge_var (contact e) ≠ Some x →
  get_bool (contact_power snapshot es (contact e)).2 x = get_bool es x.
Proof.
  intros H. destruct (contact e) as [v|v|v|v]; cbn in *; try done;
    unfold get_bool; by rewrite lookup_insert_ne by congruence.
Qed.

Lemma flow_edges l np es :
  NoDup (omap (edge_var ∘ contact) l) → unseen es l →
  ∃ np' es', foldl (flow_edge snapshot) (np, es) l = (np', es') ∧
    (∀ v, np' !! v = Some true ↔
       np !! v = Some true ∨ ∃ e, e ∈ l ∧ target e = v ∧ closed snapshot es0 e = true) ∧
    ∀ x, (∀ e, e ∈ l → edge_var (contact e) ≠ Some x) → get_bool es' x = get_bool es x.
Proof.
  revert np es. induction l as [|e l IH]; intros np es ND U.
  - exists np, es. split_and!; [done| |done]. intros v. split; [by left|].
    intros [?|(e & He & _)]; [done | by apply not_elem_of_nil in He].
  - cbn [foldl flow_edge].
    pose proof (contact_power_unseen es e) as Hc.
    pose proof (contact_power_other es e) as Ho.
    destruct (contact_power snapshot es (contact e)) as [b es1]. cbn [fst snd] in Hc, Ho.
    rewrite Hc in * by (intros x; apply U; left). clear Hc b.
    cbn in ND.
    destruct (IH (<[target e := default false (np !! target e) || closed snapshot es0 e]> np) es1)
      as (np' & es' & -> & Hnp & Hes).
    { destruct (edge_var (contact e)); [by apply NoDup_cons in ND as []|done]. }
    { intros e' x He' Hx. rewrite Ho; [apply (U e'); [by right | done]|]. intros Hx'.
      unfold compose in ND. rewrite Hx' in ND. apply NoDup_cons in ND as [Hn _]. apply Hn.
      apply list_elem_of_omap. eauto. }
    exists np', es'. split_and!; [done| |].
    + intros v. rewrite Hnp. split.
      * intros [Hv|(e' & He' & Ht & Hc)]; [|right; exists e'; split_and!; [by right | done..]].
        destruct (decide (target e = v)) as [<-|Hne].
        -- rewrite lookup_insert_eq in Hv. injection Hv as Hv. apply orb_true_iff in Hv as [Hv|Hv].
           ++ left. destruct (np !! target e) as [[]|]; done.
           ++ right. exists e. split_and!; [by left | done..].
        -- left. by rewrite lookup_insert_ne in Hv.
      * intros [Hv|(e' & [->|He']%elem_of_cons & Ht & Hc)].
        -- left. destruct (decide (target e = v)) as [<-|Hne]; [|by rewrite lookup_insert_ne].
           by rewrite lookup_insert_eq, Hv.
        -- left. by rewrite <- Ht, lookup_insert_eq, Hc, orb_true_r.
        -- right. by exists e'.
    + intros x Hx. rewrite Hes, Ho; [done | |]; intros; apply Hx; set_solver.
Qed.
(** What the evaluation has established after the nodes [T]. *)
Record powered (n : ContactNetwork) (lr : nat) (T : list nat) (np : gmap nat bool)
    (es : gmap string bool) : Prop := {
  po_sound : ∀ v, np !! v = Some true → live snapshot es0 n lr v;
  po_rail : np !! lr = Some true;
  po_edges : ∀ e, e ∈ edges n → source e ∈ T → live snapshot es0 n lr (source e) →
    closed snapshot es0 e = true → np !! target e = Some true;
  po_unseen : unseen es (filter (λ e, source e ∉ T) (edges n));
  po_other : ∀ x, (∀ e, e ∈ edges n → edge_var (contact e) ≠ Some x) →
    get_bool es x = get_bool es0 x }.

Lemma flow_node_step n lr out T1 u T2 np es :
  ladder n lr out → distinct_edges (edges n) → flow_order n lr (T1 ++ u :: T2) →
  powered n lr T1 np es →
  ∃ np' es', flow_node n snapshot (Some (np, es)) u = Some (np', es') ∧
    powered n lr (T1 ++ [u]) np' es'.
Proof.
  intros L D FO [Ps Pr Pe Pu Po].
  assert (Hu : u < length (nodes n)) by (apply (fo_lt _ _ _ FO); set_solver).
  assert (Hnew : u ∉ T1).
  { pose proof (fo_nodup _ _ _ FO) as ND. apply NoDup_app in ND as (_ & Hd & _).
    intros Hin. apply (Hd u Hin). left. }
  assert (Hlive : live snapshot es0 n lr u → np !! u = Some true).
  { intros Hl. destruct Hl as [|e He Hl Hc]; [done|].
    apply Pe; [done | | done..]. by eapply (fo_ord _ _ _ FO). }
  assert (Hsrc : ∀ e, source e ∈ (T1 ++ [u]) → source e ∈ T1 ∨ source e = u) by set_solver.
  assert (Hskip : np !! u ≠ Some true → powered n lr (T1 ++ [u]) np es).
  { intros Hn. split; try done.
    - intros e He [Hs|Hs]%Hsrc Hl Hc; [by apply Pe|]. rewrite Hs in Hl. by apply Hlive in Hl.
    - intros e x [Hs He]%list_elem_of_filter Hx. apply (Pu e); [|done].
      apply list_elem_of_filter. set_solver. }
  cbn [flow_node mbind option_bind].
  destruct (np !! u) as [[]|] eqn:Enp; [|by exists np, es; auto..].
  rewrite (outgoing_edges_wf n u (la_wf _ _ _ L) Hu). cbn [mbind option_bind].
  destruct (flow_edges (filter (λ e, source e = u) (edges n)) np es) as (np' & es' & -> & Hnp & Hes).
  { by apply omap_nodup_filter. }
  { intros e x [Hs He]%list_elem_of_filter. apply Pu. apply list_elem_of_filter. by rewrite Hs. }
  exists np', es'. split; [done|]. split.
  - intros v [Hv|(e & [Hs He]%list_elem_of_filter & <- & Hc)]%Hnp; [by apply Ps|].
    apply path_edge; [done | | done]. rewrite Hs. by apply Ps.
  - apply Hnp. by left.
  - intros e He [Hs|Hs]%Hsrc Hl Hc; apply Hnp; [left; by apply Pe|].
    right. exists e. split_and!; [|done..]. by apply list_elem_of_filter.
  - intros e x [Hs He]%list_elem_of_filter Hx. rewrite Hes.
    + apply (Pu e); [|done]. apply list_elem_of_filter. set_solver.
    + intros e' [Hs' He']%list_elem_of_filter Hx'. apply Hs.
      assert (e = e') as -> by (by eapply (omap_nodup_inj (edge_var ∘ contact))). set_solver.
  - intros x Hx. rewrite Hes; [by apply Po|]. intros e [_ He]%list_elem_of_filter. by apply Hx.
Qed.

Lemma flow_nodes n lr out T1 T2 np es :
  ladder n lr out → distinct_edges (edges n) → flow_order n lr (T1 ++ T2) →
  powered n lr T1 np es →
  ∃ np' es', foldl (flow_node n snapshot) (Some (np, es)) T2 = Some (np', es') ∧
    powered n lr (T1 ++ T2) np' es'.
Proof.
  intros L D. revert T1 np es. induction T2 as [|u T2 IH]; intros T1 np es FO P.
  - exists np, es. by rewrite app_nil_r.
  - destruct (flow_node_step n lr out T1 u T2 np es L D FO P) as (np1 & es1 & E & P1).
    cbn [foldl]. rewrite E. destruct (IH (T1 ++ [u]) np1 es1) as (np' & es' & E' & P').
    { by rewrite <- (assoc_L (++)). } { done. }
    exists np', es'. split; [done|]. by rewrite <- (assoc_L (++)) in P'.
Qed.

Lemma live_reach n lr v : live snapshot es0 n lr v → reach (edges n) lr v.
Proof. by apply path_mono. Qed.

Lemma powered_output n lr T np es v :
  flow_order n lr T → powered n lr T np es →
  default false (np !! v) = true ↔ live snapshot es0 n lr v.
Proof.
  intros FO [Ps Pr Pe _ _]. split.
  - intros H. apply Ps. destruct (np !! v) as [[]|]; done.
  - intros [|e He Hl Hc]; [by rewrite Pr|]. rewrite (Pe e He); try done.
    apply (fo_reach _ _ _ FO). by eapply live_reach.
Qed.
End flow.

(** The evaluation of a ladder network, and what it leaves. *)
Lemma evaluate_ladder n lr out fuel snapshot es :
  ladder n lr out → distinct_edges (edges n) → cached n lr → length (nodes n) ≤ fuel →
  ∃ b n' es', evaluate_power_flow fuel n snapshot es = Finished (b, n', es') ∧
    (b = true ↔ live snapshot es n lr out) ∧
    ladder n' lr out ∧ cached n' lr ∧ edges n' = edges n ∧ nodes n' = nodes n ∧
    ∀ x, (∀ e, e ∈ edges n → edge_var (contact e) ≠ Some x) → get_bool es' x = get_bool es x.
Proof.
  intros L D C Hf. unfold evaluate_power_flow, left_rail_node, output_node_id.
  rewrite (la_left _ _ _ L), (la_out _ _ _ L). cbn [or_panic loop_bind].
  destruct (topological_order_ladder n lr out fuel L C Hf) as (T & -> & FO & HT).
  cbn [loop_bind]. set (n' := if dirty n then with_topo n T else n).
  assert (Ht : topo_order n' = T).
  { unfold n'. destruct (dirty n); [done|]. symmetry. by apply HT. }
  assert (Hflow : ∀ st u, flow_node n' snapshot st u = flow_node n snapshot st u).
  { intros. unfold n'. by destruct (dirty n). }
  assert (Hfold : ∀ l st, foldl (flow_node n' snapshot) st l = foldl (flow_node n snapshot) st l).
  { induction l as [|u l IH]; intros st; [done|]. cbn. by rewrite Hflow. }
  rewrite Ht, Hfold.
  destruct (flow_nodes snapshot es n lr out [] T (<[lr := true]> ∅) es) as (np & es' & -> & P);
    [done..| |].
  { split.
    - intros v Hv. destruct (decide (v = lr)) as [->|Hne]; [constructor|].
      by rewrite lookup_insert_ne in Hv.
    - by rewrite lookup_insert_eq.
    - intros e _ H. by apply not_elem_of_nil in H.
    - done.
    - done. }
  exists (default false (np !! out)), n', es'. split_and!; [done | by eapply powered_output | | | | |].
  - destruct L as [[] ]. unfold n'. destruct (dirty n); by repeat split.
  - right. rewrite Ht. destruct FO. unfold n'. destruct (dirty n); by split.
  - unfold n'. by destruct (dirty n).
  - unfold n'. by destruct (dirty n).
  - exact (po_other _ _ _ _ _ _ _ P).
Qed.

(** [C8] Power flow is reachability: on an acyclic network whose edges all
    start at nodes with a path from the left rail, and in which no variable is
    edge-detected by two contacts, the evaluation ends within as many rounds as
    there are nodes, without panicking, and the output has power exactly when a
    path of closed contacts leads to it from the left rail.  The network it
    leaves keeps a right order, so the same holds in every later cycle. *)
Theorem power_flow_is_reachability n lr out fuel snapshot es :
  ladder n lr out → distinct_edges (edges n) → cached n lr → length (nodes n) ≤ fuel →
  ∃ b n' es', evaluate_power_flow fuel n snapshot es = Finished (b, n', es') ∧
    (b = true ↔ live snapshot es n lr out) ∧
    ladder n' lr out ∧ cached n' lr ∧ edges n' = edges n ∧ nodes n' = nodes n.
Proof.
  intros L D C Hf. destruct (evaluate_ladder n lr out fuel snapshot es L D C Hf) as
    (b & n' & es' & H1 & H2 & H3 & H4 & H5 & H6 & _). by exists b, n', es'.
Qed.
