(* ===== verification/LdCycle.v ===== *)
(** * Serial and parallel ladder networks

    The builders of [LdSemantics] give ladder networks; power in
    a serial network is the conjunction of its contacts and in a parallel one
    the disjunction of its branches; scans of such rungs compute an independent
    reading of the ladder. *)
From stdpp Require Import gmap strings list.
From S2P Require Import Prelude LdSemantics.
Local Open Scope nat_scope.

(** ** Serial *)
Fixpoint chain (prev : nat) (cs : list Contact) : list ContactEdge :=
  match cs with
  | [] => []
  | c :: cs => mkEdge prev (S prev) c :: chain (S prev) cs
  end.

Lemma chain_elem prev cs e :
  e ∈ chain prev cs ↔ ∃ i c, cs !! i = Some c ∧ e = mkEdge (prev + i) (S (prev + i)) c.
Proof.
  revert prev. induction cs as [|c cs IH]; intros prev; cbn.
  - split; [intros H; by apply not_elem_of_nil in H | by intros (i & c & H & _)].
  - rewrite elem_of_cons, IH. split.
    + intros [->|(i & c' & Hc & ->)].
      * exists 0, c. by rewrite Nat.add_0_r.
      * exists (S i), c'. by rewrite Nat.add_succ_r.
    + intros ([|i] & c' & Hc & ->).
      * left. injection Hc as ->. by rewrite Nat.add_0_r.
      * right. exists i, c'. by rewrite Nat.add_succ_r.
Qed.

Lemma net_wf_rail n v : net_wf n → net_wf (set_left_rail n v).
Proof. by intros []. Qed.

Lemma net_wf_output n v : net_wf n → net_wf (set_output_node n v).
Proof. by intros []. Qed.

Lemma add_node_wf n : net_wf n →
  net_wf (add_node n).1 ∧ (add_node n).2 = length (nodes n) ∧
  length (nodes (add_node n).1) = S (length (nodes n)) ∧ edges (add_node n).1 = edges n ∧
  left_rail (add_node n).1 = left_rail n ∧ output_node (add_node n).1 = output_node n ∧
  dirty (add_node n).1 = true.
Proof.
  intros W. split_and!; try done; [by apply net_wf_add_node|]. cbn. rewrite length_app. cbn. lia.
Qed.

Lemma net_wf_new_edge n s t c :
  net_wf n → s < length (nodes n) → t < length (nodes n) →
  ∃ n', add_edge n s t c = Some n' ∧ net_wf n' ∧ edges n' = edges n ++ [mkEdge s t c] ∧
    nodes n' = nodes n ∧ left_rail n' = left_rail n ∧ output_node n' = output_node n ∧
    dirty n' = true.
Proof.
  intros W Hs Ht. destruct (add_edge n s t c) as [n'|] eqn:E.
  - destruct (net_wf_add_edge n s t c n' W Ht E) as (W' & He & Hn). exists n'.
    unfold add_edge in E. destruct (outgoing n !! s); [|done]. cbn in E.
    split_and!; try done; by injection E as <-.
  - unfold add_edge in E. destruct (outgoing n !! s) eqn:El; [done|].
    apply lookup_ge_None in El. rewrite (nw_len _ W) in El. lia.
Qed.

Lemma serial_steps cs n prev :
  net_wf n → length (nodes n) = S prev →
  ∃ n', foldl serial_step (Some (n, prev)) cs = Some (n', prev + length cs) ∧ net_wf n' ∧
    edges n' = edges n ++ chain prev cs ∧ length (nodes n') = S (prev + length cs) ∧
    left_rail n' = left_rail n ∧ (dirty n = true → dirty n' = true).
Proof.
  revert n prev. induction cs as [|c cs IH]; intros n prev W Hn.
  - exists n. rewrite app_nil_r, Nat.add_0_r. by split_and!.
  - cbn [foldl]. unfold serial_step at 2. cbn [mbind option_bind].
    pose proof (add_node_wf n W) as A. destruct (add_node n) as [n1 next] in A |- *.
    destruct A as (W1 & I1 & N1 & E1 & L1 & _ & D1). cbn [fst snd] in *. rewrite Hn in I1. subst next.
    destruct (net_wf_new_edge n1 prev (S prev) c W1) as (n2 & -> & W2 & E2 & N2 & L2 & _ & D2); [lia..|].
    cbn [mbind option_bind].
    destruct (IH n2 (S prev) W2) as (n' & -> & W' & E' & N' & L' & D'); [rewrite N2; lia|].
    exists n'. rewrite E', E2, E1, L', L2, L1, N', <- (assoc_L (++)). cbn [chain length app].
    rewrite Nat.add_succ_r. split_and!; try done. intros _. by apply D'.
Qed.

Lemma build_serial cs :
  ∃ n, build_serial_network cs = Some n ∧ ladder n 0 (length cs) ∧ dirty n = true ∧
    edges n = chain 0 cs ∧ length (nodes n) = S (length cs).
Proof.
  unfold build_serial_network. cbn [add_node].
  set (n0 := set_left_rail _ _).
  assert (W0 : net_wf n0) by apply net_wf_rail, (net_wf_add_node network_new), net_wf_new.
  destruct (serial_steps cs n0 0 W0) as (n' & E & W & Ed & N & L & D); [done|].
  change (length (nodes network_new)) with 0 in *. rewrite E. cbn [mbind option_bind].
  exists (set_output_node n' (0 + length cs)). split; [done|]. split; [|by split_and!; [apply D|..]].
  split; cbn; try done; [by apply net_wf_output | | |].
  - lia.
  - rewrite Ed. cbn. intros e He. apply chain_elem in He as (i & c & Hc & ->). cbn.
    apply lookup_lt_Some in Hc. induction i as [|i IH]; [constructor|].
    destruct (lookup_lt_is_Some_2 cs i) as [c' Hc']; [lia|].
    apply (path_edge _ (chain 0 cs) 0 (mkEdge i (S i) c')); [|apply IH; lia | done].
    apply chain_elem. by exists i, c'.
  - exists (λ v, v). rewrite Ed. cbn. intros e (i & c & Hc & ->)%chain_elem. cbn. lia.
Qed.

Lemma live_chain snapshot es n cs k :
  edges n = chain 0 cs → k ≤ length cs →
  live snapshot es n 0 k ↔ ∀ i c, i < k → cs !! i = Some c → passes snapshot es c = true.
Proof.
  intros He Hk. split.
  - intros H. induction H as [|e Hin _ IH Hc]; [intros; lia|].
    rewrite He in Hin. apply chain_elem in Hin as (j & c & Hj & ->). cbn in *.
    intros i c' Hi Hc'. destruct (decide (i = j)) as [->|]; [|apply (IH ltac:(lia) i c'); [lia | done]].
    by simplify_eq.
  - induction k as [|k IH]; intros H; [constructor|].
    destruct (lookup_lt_is_Some_2 cs k) as [c Hc]; [lia|].
    apply (path_edge _ _ 0 (mkEdge k (S k) c)).
    + rewrite He. apply chain_elem. by exists k, c.
    + apply IH; [lia|]. intros i c' Hi. apply H. lia.
    + apply (H k c); [lia | done].
Qed.

Lemma forallb_lookup {A} (f : A → bool) l :
  forallb f l = true ↔ ∀ i x, l !! i = Some x → f x = true.
Proof.
  rewrite forallb_forall. split.
  - intros H i x Hx. apply H, list_elem_of_In. by eapply list_elem_of_lookup_2.
  - intros H x Hx. apply list_elem_of_In, list_elem_of_lookup in Hx as [i Hi]. eauto.
Qed.

Lemma live_serial snapshot es n cs :
  edges n = chain 0 cs →
  live snapshot es n 0 (length cs) ↔ forallb (passes snapshot es) cs = true.
Proof.
  intros He. rewrite (live_chain snapshot es n cs) by done. rewrite forallb_lookup.
  split; intros H i c; [|intros _; apply H]. intros Hc. apply (H i c); [|done].
  by eapply lookup_lt_Some.
Qed.

(** ** Parallel *)
Fixpoint bchain (output next prev : nat) (cs : list Contact) : list ContactEdge :=
  match cs with
  | [] => []
  | c :: cs =>
      match cs with
      | [] => [mkEdge prev output c]
      | _ => mkEdge prev next c :: bchain output (S next) next cs
      end
  end.

(** The [i]-th edge of a branch of length [len] whose new nodes start at
    [next]. *)
Definition branch_edge (output next prev len i : nat) (c : Contact) : ContactEdge :=
  mkEdge (if i =? 0 then prev else next + (i - 1)) (if S i =? len then output else next + i) c.

Ltac branch_cases :=
  unfold branch_edge; cbn [length]; f_equal; repeat case_match;
  rewrite ?Nat.eqb_eq, ?Nat.eqb_neq in *; lia.

Lemma bchain_elem output next prev cs e :
  e ∈ bchain output next prev cs ↔
  ∃ i c, cs !! i = Some c ∧ e = branch_edge output next prev (length cs) i c.
Proof.
  revert next prev. induction cs as [|c cs IH]; intros next prev; cbn [bchain].
  { split; [intros H; by apply not_elem_of_nil in H | by intros (i & c & H & _)]. }
  destruct cs as [|c2 cs].
  { rewrite list_elem_of_singleton. split.
    - intros ->. by exists 0, c.
    - intros ([|i] & c' & Hc & ->); [by injection Hc as -> | done]. }
  rewrite elem_of_cons, IH. split.
  - intros [->|(i & c' & Hc & ->)].
    + exists 0, c. split; [done|]. unfold branch_edge. cbn. by rewrite Nat.add_0_r.
    + exists (S i), c'. split; [done|]. branch_cases.
  - intros ([|i] & c' & Hc & ->).
    + left. injection Hc as ->. unfold branch_edge. cbn. by rewrite Nat.add_0_r.
    + right. exists i, c'. split; [done|]. branch_cases.
Qed.

Lemma branch_edges_wf output cs n prev :
  net_wf n → prev < length (nodes n) → output < length (nodes n) →
  ∃ n', branch_edges n output prev cs = Some n' ∧ net_wf n' ∧
    edges n' = edges n ++ bchain output (length (nodes n)) prev cs ∧
    length (nodes n') = length (nodes n) + (length cs - 1) ∧
    left_rail n' = left_rail n ∧ output_node n' = output_node n ∧ (dirty n = true → dirty n' = true).
Proof.
  revert n prev. induction cs as [|c cs IH]; intros n prev W Hp Ho.
  { exists n. rewrite app_nil_r, Nat.add_0_r. by split_and!. }
  cbn [branch_edges bchain length]. destruct cs as [|c2 cs].
  - destruct (net_wf_new_edge n prev output c W Hp Ho) as (n' & -> & W' & E' & N' & L' & O' & D').
    exists n'. cbn. rewrite N', Nat.add_0_r. by split_and!.
  - pose proof (add_node_wf n W) as A. destruct (add_node n) as [n1 next] in A |- *.
    destruct A as (W1 & I1 & N1 & E1 & L1 & O1 & D1). cbn [fst snd] in *. subst next.
    destruct (net_wf_new_edge n1 prev (length (nodes n)) c W1) as (n2 & -> & W2 & E2 & N2 & L2 & O2 & D2);
      [lia..|].
    cbn [mbind option_bind].
    destruct (IH n2 (length (nodes n)) W2) as (n' & -> & W' & E' & N' & L' & O' & D'); [rewrite N2; lia..|].
    exists n'. rewrite E', E2, E1, L', L2, L1, O', O2, O1, N', N2, N1, <- (assoc_L (++)).
    split_and!; try done; [cbn; lia | by intros _; apply D'].
Qed.

Fixpoint par_edges (next : nat) (bs : list (list Contact)) : list ContactEdge :=
  match bs with
  | [] => []
  | b :: bs => bchain 1 next 0 b ++ par_edges (next + (length b - 1)) bs
  end.

(** Where the new nodes of branch [k] start. *)
Fixpoint offset (next : nat) (bs : list (list Contact)) (k : nat) : nat :=
  match k, bs with
  | S k, b :: bs => offset (next + (length b - 1)) bs k
  | _, _ => next
  end.

Lemma par_edges_elem next bs e :
  e ∈ par_edges next bs ↔
  ∃ k b i c, bs !! k = Some b ∧ b !! i = Some c ∧
    e = branch_edge 1 (offset next bs k) 0 (length b) i c.
Proof.
  revert next. induction bs as [|b bs IH]; intros next; cbn [par_edges].
  { split; [intros H; by apply not_elem_of_nil in H | by intros (k & b & i & c & H & _)]. }
  rewrite elem_of_app, bchain_elem, IH. split.
  - intros [(i & c & Hc & ->)|(k & b' & i & c & Hb & Hc & ->)].
    + by exists 0, b, i, c.
    + by exists (S k), b', i, c.
  - intros ([|k] & b' & i & c & Hb & Hc & ->).
    + injection Hb as <-. left. by exists i, c.
    + right. by exists k, b', i, c.
Qed.

Lemma offset_ge next bs k : next ≤ offset next bs k.
Proof.
  revert next bs. induction k as [|k IH]; intros next [|b bs]; cbn; try lia.
  specialize (IH (next + (length b - 1)) bs). lia.
Qed.

Lemma offset_lt next bs k k' b :
  bs !! k = Some b → k < k' → offset next bs k + (length b - 1) ≤ offset next bs k'.
Proof.
  revert next bs k'. induction k as [|k IH]; intros next [|b' bs] [|k'] Hb Hlt; try done; try lia; cbn.
  - injection Hb as ->. apply offset_ge.
  - apply IH; [done | lia].
Qed.

Lemma offset_inj next bs k k' b b' i i' :
  bs !! k = Some b → bs !! k' = Some b' → S i < length b → S i' < length b' →
  offset next bs k + i = offset next bs k' + i' → k = k' ∧ i = i'.
Proof.
  intros Hb Hb' Hi Hi' E. destruct (lt_eq_lt_dec k k') as [[Hlt|Heq]|Hlt].
  - pose proof (offset_lt next bs k k' b Hb Hlt). lia.
  - subst k'. split; [done | lia].
  - pose proof (offset_lt next bs k' k b' Hb' Hlt). lia.
Qed.

Lemma build_parallel bs :
  ∃ n, build_parallel_network bs = Some n ∧ net_wf n ∧ edges n = par_edges 2 bs ∧
    left_rail n = Some 0 ∧ output_node n = Some 1 ∧ dirty n = true ∧
    2 ≤ length (nodes n) ∧ (∀ k b i, bs !! k = Some b → S i < length b → offset 2 bs k + i < length (nodes n)).
Proof.
  unfold build_parallel_network. cbn [add_node network_new].
  set (n0 := set_output_node _ _). change (length []) with 0.
  assert (W0 : net_wf n0).
  { apply net_wf_output. apply (net_wf_add_node (set_left_rail (add_node network_new).1 0)).
    apply net_wf_rail, net_wf_add_node, net_wf_new. }
  assert (G : ∀ bs n, net_wf n → 2 ≤ length (nodes n) → dirty n = true →
    ∃ n', foldl (fun n b => n ← n; branch_edges n 1 0 b) (Some n) bs = Some n' ∧ net_wf n' ∧
      edges n' = edges n ++ par_edges (length (nodes n)) bs ∧ left_rail n' = left_rail n ∧
      output_node n' = output_node n ∧ dirty n' = true ∧ length (nodes n) ≤ length (nodes n') ∧
      (∀ k b i, bs !! k = Some b → S i < length b →
         offset (length (nodes n)) bs k + i < length (nodes n'))).
  { clear. induction bs as [|b bs IH]; intros n W Hn Hd.
    - exists n. rewrite app_nil_r. by split_and!.
    - cbn [foldl mbind option_bind].
      destruct (branch_edges_wf 1 b n 0 W) as (n1 & -> & W1 & E1 & N1 & L1 & O1 & D1); [lia..|].
      destruct (IH n1 W1) as (n' & -> & W' & E' & L' & O' & D' & N' & B'); [lia | auto |].
      exists n'. rewrite E', E1, L', L1, O', O1, <- (assoc_L (++)), N1 in *. cbn [par_edges].
      split_and!; try done; [lia|]. intros [|k] b' i Hb Hi; [|by eapply B'].
      injection Hb as ->. cbn. lia. }
  destruct (G bs n0 W0) as (n & E & W & Ed & L & O & D & N & B); [done..|].
  exists n. split_and!; try done.
Qed.

Lemma branch_source output next prev len i c :
  source (branch_edge output next prev len (S i) c) = next + i.
Proof. unfold branch_edge. cbn. lia. Qed.

Lemma branch_target output next prev len i c :
  S i < len → target (branch_edge output next prev len i c) = next + i.
Proof. intros H. unfold branch_edge. cbn [target]. by rewrite (proj2 (Nat.eqb_neq _ _)) by lia. Qed.

Lemma branch_target_last output next prev len i c :
  S i = len → target (branch_edge output next prev len i c) = output.
Proof. intros H. unfold branch_edge. cbn [target]. by rewrite (proj2 (Nat.eqb_eq _ _)). Qed.

(** Along a branch, up to the target of its [i]-th edge. *)
Lemma par_path P bs k b i c :
  bs !! k = Some b → b !! i = Some c →
  (∀ j d, j ≤ i → b !! j = Some d → P (branch_edge 1 (offset 2 bs k) 0 (length b) j d)) →
  path P (par_edges 2 bs) 0 (target (branch_edge 1 (offset 2 bs k) 0 (length b) i c)).
Proof.
  intros Hb. revert c. induction i as [|i IH]; intros c Hc HP.
  all: apply path_edge; [apply par_edges_elem; eauto 10 | | by apply (HP _ c)].
  - constructor.
  - pose proof (lookup_lt_Some _ _ _ Hc) as Hlt.
    destruct (lookup_lt_is_Some_2 b i) as [c' Hc']; [lia|].
    rewrite branch_source, <- (branch_target 1 _ 0 (length b) i c') by lia.
    apply IH; [done|]. intros; apply HP; [lia | done].
Qed.

Lemma parallel_ladder bs n :
  net_wf n → edges n = par_edges 2 bs → left_rail n = Some 0 → output_node n = Some 1 →
  2 ≤ length (nodes n) →
  (∀ k b i, bs !! k = Some b → S i < length b → offset 2 bs k + i < length (nodes n)) →
  ladder n 0 1.
Proof.
  intros W E L O N B. split; try done; [lia | |].
  - rewrite E. intros e (k & b & i & c & Hb & Hc & ->)%par_edges_elem.
    destruct i as [|i]; [constructor|]. pose proof (lookup_lt_Some _ _ _ Hc) as Hlt.
    destruct (lookup_lt_is_Some_2 b i) as [c' Hc']; [lia|].
    pose proof (par_path (λ _, True) bs k b i c' Hb Hc' ltac:(done)) as H.
    by rewrite branch_target in H by lia; rewrite branch_source.
  - exists (λ v, if v =? 0 then 0 else if v =? 1 then length (nodes n) else v).
    rewrite E. intros e (k & b & i & c & Hb & Hc & ->)%par_edges_elem.
    pose proof (lookup_lt_Some _ _ _ Hc) as Hlt. pose proof (offset_ge 2 bs k).
    assert (i = 0 ∨ ∃ j, i = S j ∧ offset 2 bs k + j < length (nodes n)) as [->|(j & -> & Hj)].
    { destruct i as [|j]; [by left | right; exists j; split; [done | by eapply B]]. }
    all: unfold branch_edge; cbn [source target Nat.eqb]; repeat case_match;
      rewrite ?Nat.eqb_eq, ?Nat.eqb_neq in *; lia.
Qed.

(** A branch without contacts is not a wire: it adds no edge. *)
Definition branch_passes (snapshot es : gmap string bool) (b : list Contact) : bool :=
  match b with [] => false | _ => forallb (passes snapshot es) b end.

(** What is live in a parallel network: the rail, the output if a branch
    passes, and the nodes of a branch up to its first contact that does not. *)
Lemma live_parallel_sound snapshot es n bs v :
  edges n = par_edges 2 bs → live snapshot es n 0 v →
  v = 0 ∨ (v = 1 ∧ existsb (branch_passes snapshot es) bs = true) ∨
  ∃ k b i, bs !! k = Some b ∧ S i < length b ∧ v = offset 2 bs k + i ∧
    ∀ j c, j ≤ i → b !! j = Some c → passes snapshot es c = true.
Proof.
  intros E.
  induction 1 as [|e He _ IH Hc]; [by left|]. right.
    rewrite E in He. apply par_edges_elem in He as (k & b & i & c & Hb & Hi & ->).
    assert (Hpre : ∀ j d, j ≤ i → b !! j = Some d → passes snapshot es d = true).
    { intros j d Hj Hd. destruct (decide (j = i)) as [->|Hne]; [simplify_eq; exact Hc|].
      destruct i as [|i]; [lia|]. pose proof (offset_ge 2 bs k).
      pose proof (lookup_lt_Some _ _ _ Hi).
      rewrite branch_source in IH.
      destruct IH as [IH|[[IH _]|(k' & b' & i' & Hb' & Hi' & IH & Hall)]]; [lia..|].
      destruct (offset_inj 2 bs k k' b b' i i') as [<- <-]; [done|done|lia|done|done|].
      simplify_eq. apply (Hall j d); [lia | done]. }
    pose proof (lookup_lt_Some _ _ _ Hi) as Hlt.
    destruct (decide (S i = length b)) as [Hlen|Hlen].
    - left. split; [by apply branch_target_last|].
      apply existsb_exists. exists b. split; [apply list_elem_of_In; by eapply list_elem_of_lookup_2|].
      destruct b as [|c0 b0]; [cbn in Hlt; lia|]. cbn [branch_passes]. apply forallb_lookup.
      intros j d Hd. apply (Hpre j d); [|done]. apply lookup_lt_Some in Hd. lia.
    - right. exists k, b, i. split_and!; [done | lia | | done]. apply branch_target. lia.
Qed.

Lemma live_parallel snapshot es n bs :
  edges n = par_edges 2 bs →
  live snapshot es n 0 1 ↔ existsb (branch_passes snapshot es) bs = true.
Proof.
  intros E. split.
  - intros H. destruct (live_parallel_sound snapshot es n bs 1 E H) as [?|[[_ ?]|(k & b & i & _ & _ & Hv & _)]]; [done | done|].
    pose proof (offset_ge 2 bs k). lia.
  - rewrite existsb_exists. intros (b & Hin & Hb). apply list_elem_of_In, list_elem_of_lookup in Hin as [k Hk].
    destruct b as [|c0 b0]; [done|]. set (b := c0 :: b0) in *. cbn [branch_passes] in Hb.
    assert (Hpass : forallb (passes snapshot es) b = true) by exact Hb. rewrite forallb_lookup in Hpass.
    destruct (lookup_lt_is_Some_2 b (length b - 1)) as [c Hc]; [cbn; lia|].
    unfold live. rewrite E.
    assert (Ht : target (branch_edge 1 (offset 2 bs k) 0 (length b) (length b - 1) c) = 1).
    { apply branch_target_last. cbn. lia. }
    rewrite <- Ht at 2. apply par_path; [done..|]. intros j d _ Hd. by apply (Hpass j d).
Qed.

(** ** Scan cycles

    An abstract ladder program is a list of rungs, each a series of contacts or
    parallel branches of them, with its coils; [scan] is what one scan does to
    the variables.  The scan cycle of [LdSemantics] on the networks built for
    such a program refines it, cycle after cycle. *)

(** ** The abstract program *)
Inductive RungShape :=
  | Serial (cs : list Contact)
  | Parallel (bs : list (list Contact)).

Record LdRung := mkRung { r_id : string; r_shape : RungShape; r_coils : list Coil }.

Definition shape_contacts (sh : RungShape) : list Contact :=
  match sh with Serial cs => cs | Parallel bs => concat bs end.

Definition shape_power (snapshot es : gmap string bool) (sh : RungShape) : bool :=
  match sh with
  | Serial cs => forallb (passes snapshot es) cs
  | Parallel bs => existsb (branch_passes snapshot es) bs
  end.

(** One rung: power from the variables so far, then its coils.  The edge state
    is empty: a rising-edge contact reads its variable and a falling-edge
    contact never closes. *)
Definition rung_coils (vars : gmap string bool) (r : LdRung) : list CoilState :=
  map (cycle_coil_state (shape_power vars ∅ (r_shape r)) vars) (r_coils r).
Definition scan_rung (vars : gmap string bool) (r : LdRung) : gmap string bool :=
  store_coils vars (rung_coils vars r).
Definition scan (rs : list LdRung) (vars : gmap string bool) : gmap string bool :=
  foldl scan_rung vars rs.

(** The coils reported as powered, in order. *)
Fixpoint scan_powered (rs : list LdRung) (vars : gmap string bool) : list string :=
  match rs with
  | [] => []
  | r :: rs => map coil_id (List.filter energized (rung_coils vars r)) ++
               scan_powered rs (scan_rung vars r)
  end.

Definition rung_edge_vars (r : LdRung) : list string := omap edge_var (shape_contacts (r_shape r)).
(** No variable is edge-detected twice in the program. *)
Definition edges_once (rs : list LdRung) : Prop := NoDup (concat (map rung_edge_vars rs)).

(** ** The networks of a program *)
Definition build_shape (sh : RungShape) : option ContactNetwork :=
  match sh with Serial cs => build_serial_network cs | Parallel bs => build_parallel_network bs end.
Definition build_rung (r : LdRung) : option RungDef :=
  n ← build_shape (r_shape r); Some (mkRungDef (r_id r) n (r_coils r)).

Definition shape_edges (sh : RungShape) : list ContactEdge :=
  match sh with Serial cs => chain 0 cs | Parallel bs => par_edges 2 bs end.
Definition shape_output (sh : RungShape) : nat :=
  match sh with Serial cs => length cs | Parallel _ => 1 end.

(** The network is the one built for the rung, possibly with its order. *)
Record represents (fuel : nat) (d : RungDef) (r : LdRung) : Prop := {
  re_id : rd_id d = r_id r;
  re_coils : rd_coils d = r_coils r;
  re_edges : edges (network d) = shape_edges (r_shape r);
  re_ladder : ladder (network d) 0 (shape_output (r_shape r));
  re_cached : cached (network d) 0;
  re_fuel : length (nodes (network d)) ≤ fuel }.

Lemma build_rung_represents r :
  ∃ d, build_rung r = Some d ∧ ∀ fuel, length (nodes (network d)) ≤ fuel → represents fuel d r.
Proof.
  destruct r as [id [cs|bs] coils]; unfold build_rung, build_shape; cbn [r_shape].
  - destruct (build_serial cs) as (n & -> & L & D & E & N). eexists. split; [done|].
    intros fuel Hf. split; try done. by left.
  - destruct (build_parallel bs) as (n & -> & W & E & Hl & Ho & D & N & B). eexists. split; [done|].
    intros fuel Hf. split; try done; [by eapply parallel_ladder | by left].
Qed.

Lemma chain_contacts prev cs : map contact (chain prev cs) = cs.
Proof. revert prev. induction cs as [|c cs IH]; intros prev; [done|]. cbn. by rewrite IH. Qed.

Lemma bchain_contacts output next prev cs : map contact (bchain output next prev cs) = cs.
Proof.
  revert next prev. induction cs as [|c cs IH]; intros next prev; [done|].
  destruct cs as [|c2 cs]; [done|]. change (c :: map contact (bchain output (S next) next (c2 :: cs)) = c :: c2 :: cs).
  by rewrite IH.
Qed.

Lemma shape_edges_contacts sh : map contact (shape_edges sh) = shape_contacts sh.
Proof.
  destruct sh as [cs|bs]; [apply chain_contacts|]. cbn. generalize 2 as next.
  induction bs as [|b bs IH]; intros next; [done|]. cbn. by rewrite map_app, bchain_contacts, IH.
Qed.

Lemma omap_contacts es : omap (edge_var ∘ contact) es = omap edge_var (map contact es).
Proof. induction es as [|e es IH]; [done|]. cbn. by rewrite IH. Qed.

(** ** Contacts that have not been sampled *)
Lemma passes_unsampled snapshot es c :
  (∀ x, edge_var c = Some x → get_bool es x = false) →
  passes snapshot es c = passes snapshot ∅ c.
Proof.
  intros H. unfold passes. destruct c as [v|v|v|v]; cbn in *; try done; by rewrite (H v).
Qed.

Lemma shape_power_unsampled snapshot es sh :
  (∀ x, x ∈ omap edge_var (shape_contacts sh) → get_bool es x = false) →
  shape_power snapshot es sh = shape_power snapshot ∅ sh.
Proof.
  intros H.
  assert (Hc : ∀ c, c ∈ shape_contacts sh → passes snapshot es c = passes snapshot ∅ c).
  { intros c Hc. apply passes_unsampled. intros x Hx. apply H, list_elem_of_omap. eauto. }
  assert (G : ∀ cs, (∀ c, c ∈ cs → passes snapshot es c = passes snapshot ∅ c) →
            forallb (passes snapshot es) cs = forallb (passes snapshot ∅) cs).
  { induction cs as [|c cs IH]; intros Hcs; [done|]. cbn. rewrite (Hcs c) by left.
    rewrite IH; [done|]. intros d Hd. apply Hcs. by right. }
  destruct sh as [cs|bs]; cbn in *; [by apply G|].
  induction bs as [|b bs IH]; [done|]. cbn in *.
  assert (Hb : branch_passes snapshot es b = branch_passes snapshot ∅ b).
  { destruct b as [|c b]; [done|]. apply G. intros d Hd. apply Hc, elem_of_app. by left. }
  rewrite Hb, IH; [done | |]; intros; [apply H | apply Hc; set_solver].
  rewrite omap_app. set_solver.
Qed.

Lemma represents_power fuel d r snapshot es :
  represents fuel d r → NoDup (rung_edge_vars r) →
  ∃ n' es', evaluate_power_flow fuel (network d) snapshot es =
      Finished (shape_power snapshot es (r_shape r), n', es') ∧
    represents fuel (mkRungDef (rd_id d) n' (rd_coils d)) r ∧
    ∀ x, x ∉ rung_edge_vars r → get_bool es' x = get_bool es x.
Proof.
  intros R ND. pose proof (shape_edges_contacts (r_shape r)) as Hc.
  rewrite <- (re_edges _ _ _ R) in Hc.
  destruct (evaluate_ladder (network d) 0 (shape_output (r_shape r)) fuel snapshot es)
    as (b & n' & es' & E & Hb & L & C & Ed & N & O).
  { apply (re_ladder _ _ _ R). }
  { unfold distinct_edges. by rewrite omap_contacts, Hc. }
  { apply (re_cached _ _ _ R). } { apply (re_fuel _ _ _ R). }
  assert (Hpow : live snapshot es (network d) 0 (shape_output (r_shape r)) ↔
                 shape_power snapshot es (r_shape r) = true).
  { pose proof (re_edges _ _ _ R) as He. destruct (r_shape r) as [cs|bs]; cbn in *;
      [by apply live_serial | by apply live_parallel]. }
  exists n', es'. split_and!.
  - rewrite E. do 3 f_equal. rewrite Hpow in Hb.
    destruct b, (shape_power snapshot es (r_shape r)); naive_solver.
  - destruct R. split; cbn; try done; [by rewrite Ed | by rewrite N].
  - intros x Hx. apply O. intros e He Hv. apply Hx. unfold rung_edge_vars. rewrite <- Hc, <- omap_contacts.
    apply list_elem_of_omap. eauto.
Qed.

(** ** One cycle *)
Lemma cycle_rungs fuel ds rs st :
  Forall2 (represents fuel) ds rs → edges_once rs → cy_snapshot st = cy_vars st →
  (∀ x, x ∈ concat (map rung_edge_vars rs) → get_bool (cy_edges st) x = false) →
  ∃ st' ds', foldl (cycle_rung fuel) (Finished st) ds = Finished st' ∧
    cy_rungs st' = cy_rungs st ++ ds' ∧ Forall2 (represents fuel) ds' rs ∧
    cy_vars st' = scan rs (cy_vars st) ∧
    cy_powered st' = cy_powered st ++ scan_powered rs (cy_vars st).
Proof.
  intros H. revert st. induction H as [|d r ds rs Hd Hds IH]; intros st ND Hs He.
  - exists st, []. rewrite !app_nil_r. by split_and!.
  - unfold edges_once in ND. cbn [map concat] in ND, He. apply NoDup_app in ND as (NDr & Hdis & NDrs).
    destruct (represents_power fuel d r (cy_snapshot st) (cy_edges st) Hd NDr)
      as (n' & es' & E & R & O).
    rewrite shape_power_unsampled in E by (intros x Hx; apply He, elem_of_app; by left).
    cbn [foldl cycle_rung loop_bind]. rewrite E. cbn [loop_bind].
    edestruct IH as (st' & ds' & -> & Hr & HF & Hv & Hp); [exact NDrs | reflexivity | |].
    { intros x Hx. cbn [cy_edges]. rewrite O; [apply He, elem_of_app; by right|].
      intros Hx'. by destruct (Hdis x Hx'). }
    exists st', (mkRungDef (rd_id d) n' (rd_coils d) :: ds'). cbn [cy_rungs cy_vars cy_powered] in *.
    rewrite Hs, (re_coils _ _ _ Hd) in Hv, Hp. split_and!.
    + done.
    + rewrite Hr, <- (assoc_L (++)). done.
    + by constructor.
    + exact Hv.
    + rewrite Hp, <- (assoc_L (++)). done.
Qed.

Lemma cycle_scan fuel ds rs vars :
  Forall2 (represents fuel) ds rs → edges_once rs →
  ∃ ds' res, evaluate_cycle fuel ds vars = Finished (ds', scan rs vars, res) ∧
    Forall2 (represents fuel) ds' rs ∧ powered_coils res = scan_powered rs vars.
Proof.
  intros H ND.
  destruct (cycle_rungs fuel ds rs (mkCycle [] vars vars ∅ [] []) H ND eq_refl) as
    (st & ds' & E & Hr & HF & Hv & Hp); [done|].
  unfold evaluate_cycle. rewrite E. cbn [loop_bind]. cbn in Hr, Hv, Hp. subst ds'. rewrite Hv.
  by exists (cy_rungs st), (mkResult (cy_states st) (cy_powered st)).
Qed.

(** ** The ladder program as its rungs say

    Levels are a function of the variable.  Since the edge state is new in every
    cycle, every edge contact compares with a variable that was off: a rising edge
    is the level and a falling edge never closes. *)
Definition contact_on (level : string → bool) (c : Contact) : bool :=
  match c with
  | No v => level v
  | Nc v => negb (level v)
  | PosEdge v => level v
  | NegEdge _ => false
  end.
Definition rung_on (level : string → bool) (sh : RungShape) : bool :=
  match sh with
  | Serial cs => forallb (contact_on level) cs
  | Parallel bs => existsb (λ b, negb (bool_decide (b = [])) && forallb (contact_on level) b) bs
  end.
(** The last coil of the rung on a variable decides. *)
Fixpoint last_coil (x : string) (cs : list Coil) : option CoilKind :=
  match cs with
  | [] => None
  | c :: cs =>
      match last_coil x cs with
      | Some k => Some k
      | None => if String.eqb (coil_var c) x then Some (coil_kind c) else None
      end
  end.
Definition coil_level (power old : bool) (k : CoilKind) : bool :=
  match k with Out => power | Negated => negb power | SetCoil => power || old | Reset => old && negb power end.
Definition rung_levels (r : LdRung) (level : string → bool) (x : string) : bool :=
  match last_coil x (r_coils r) with
  | Some k => coil_level (rung_on level (r_shape r)) (level x) k
  | None => level x
  end.
Fixpoint program_levels (rs : list LdRung) (level : string → bool) : string → bool :=
  match rs with [] => level | r :: rs => program_levels rs (rung_levels r level) end.

Lemma contact_on_passes vars c : passes vars ∅ c = contact_on (get_bool vars) c.
Proof.
  assert (∀ v, get_bool ∅ v = false) as He by (intros v; unfold get_bool; by rewrite lookup_empty).
  destruct c as [v|v|v|v]; cbn; rewrite ?He; [done..|apply andb_true_r|done].
Qed.

Lemma forallb_pointwise {A} (f g : A → bool) l : (∀ x, f x = g x) → forallb f l = forallb g l.
Proof. intros H. induction l as [|x l IH]; [done|]. cbn. by rewrite H, IH. Qed.
Lemma existsb_pointwise {A} (f g : A → bool) l : (∀ x, f x = g x) → existsb f l = existsb g l.
Proof. intros H. induction l as [|x l IH]; [done|]. cbn. by rewrite H, IH. Qed.

Lemma rung_on_power vars sh : shape_power vars ∅ sh = rung_on (get_bool vars) sh.
Proof.
  destruct sh as [cs|bs]; cbn; [apply forallb_pointwise, contact_on_passes|].
  apply existsb_pointwise. intros [|c b]; [done|]. cbn -[passes]. by rewrite contact_on_passes,
    (forallb_pointwise _ _ b (contact_on_passes vars)).
Qed.

Lemma store_coils_level power old cs vars x :
  get_bool (store_coils vars (map (cycle_coil_state power old) cs)) x =
  match last_coil x cs with
  | Some k => coil_level power (get_bool old x) k
  | None => get_bool vars x
  end.
Proof.
  unfold store_coils. induction cs as [|c cs IH] in vars |- *; [done|]. cbn [map foldl last_coil]. rewrite IH.
  destruct (last_coil x cs); [done|]. unfold set_bool, get_bool at 1. cbn [coil_id cycle_coil_state energized].
  destruct (String.eqb_spec (coil_var c) x) as [<-|Hne]; [|by rewrite lookup_insert_ne].
  rewrite lookup_insert_eq. cbn. destruct (coil_kind c), power; cbn; try done; by rewrite ?andb_true_r, ?andb_false_r.
Qed.

Lemma scan_rung_level vars r x : get_bool (scan_rung vars r) x = rung_levels r (get_bool vars) x.
Proof. unfold scan_rung, rung_coils, rung_levels. by rewrite store_coils_level, rung_on_power. Qed.

Lemma rung_levels_ext r f g : (∀ x, f x = g x) → ∀ x, rung_levels r f x = rung_levels r g x.
Proof.
  intros H x. assert (rung_on f (r_shape r) = rung_on g (r_shape r)) as E.
  { assert (∀ c, contact_on f c = contact_on g c) as Hc by (intros []; cbn; by rewrite ?H).
    destruct (r_shape r) as [cs|bs]; cbn; [by apply forallb_pointwise|]. apply existsb_pointwise. intros b.
    by rewrite (forallb_pointwise _ _ b Hc). }
  unfold rung_levels. by rewrite E, H.
Qed.

Lemma program_levels_ext rs f g : (∀ x, f x = g x) → ∀ x, program_levels rs f x = program_levels rs g x.
Proof. revert f g. induction rs as [|r rs IH]; intros f g H; [done|]. cbn. by apply IH, rung_levels_ext. Qed.

Lemma scan_levels rs vars x : get_bool (scan rs vars) x = program_levels rs (get_bool vars) x.
Proof.
  unfold scan. revert vars x. induction rs as [|r rs IH]; intros vars x; [done|]. cbn. rewrite IH.
  apply program_levels_ext. intros y. apply scan_rung_level.
Qed.

Lemma iter_scan_levels k rs vars x :
  get_bool (Nat.iter k (scan rs) vars) x = Nat.iter k (program_levels rs) (get_bool vars) x.
Proof.
  revert x. induction k as [|k IH]; intros x; [done|]. rewrite !Nat.iter_succ, scan_levels. by apply program_levels_ext.
Qed.

(** Scan cycles one after the other, on the same rungs and variables. *)
Fixpoint run_cycles (fuel k : nat) (ds : list RungDef) (vars : gmap string bool)
  : Loop (list RungDef * gmap string bool) :=
  match k with
  | O => Finished (ds, vars)
  | S k =>
      let% (ds, vars, _) := evaluate_cycle fuel ds vars in
      run_cycles fuel k ds vars
  end.

(** [C7] The scan cycle computes the ladder program: for the networks built for
    rungs in which no variable is edge-detected twice, any number of cycles
    finishes, whatever the fuel above the size of the networks, and leaves each
    variable at the level that many readings of the program give it.  One reading
    goes through the rungs from top to bottom, each seeing the coils of the rungs
    above it: a rung has power when all its serial contacts, or all the contacts of
    one of its parallel branches that has any, are closed; the last coil of the
    rung on a variable then sets it to the power, to its negation, latches it on or
    latches it off.  A normally open contact is its variable, a normally closed one
    its negation.  The edge state being new in every cycle, edges are not detected:
    a rising-edge contact is its variable's level, for as long as it is on, and a
    falling-edge contact never closes. *)
Theorem ladder_scan fuel k rs ds vars :
  mapM build_rung rs = Some ds → edges_once rs →
  Forall (λ d, length (nodes (network d)) ≤ fuel) ds →
  ∃ ds' vars', run_cycles fuel k ds vars = Finished (ds', vars') ∧
    ∀ x, get_bool vars' x = Nat.iter k (program_levels rs) (get_bool vars) x.
Proof.
  intros Hb ND Hf.
  assert (H : Forall2 (represents fuel) ds rs).
  { apply mapM_Some in Hb. induction Hb as [|r d rs ds Hd _ IH]; [constructor|].
    apply Forall_cons in Hf as [Hfd Hf]. destruct (build_rung_represents r) as (d' & Hd' & HR).
    rewrite Hd in Hd'. injection Hd' as <-.
    unfold edges_once in ND. cbn in ND. apply NoDup_app in ND as (_ & _ & ND).
    constructor; [by apply HR | by apply IH]. }
  clear Hb Hf.
  assert (∃ ds', run_cycles fuel k ds vars = Finished (ds', Nat.iter k (scan rs) vars)) as [ds' ->].
  { revert ds vars H. induction k as [|k IH]; intros ds vars H; [by exists ds|].
    cbn [run_cycles]. destruct (cycle_scan fuel ds rs vars H ND) as (ds1 & res & -> & H1 & _).
    cbn [loop_bind]. destruct (IH ds1 (scan rs vars) H1) as (ds' & ->). exists ds'.
    by rewrite Nat.iter_succ_r. }
  exists ds', (Nat.iter k (scan rs) vars). split; [done|]. intros x. apply iter_scan_levels.
Qed.

(** ** Behaviours of the networks and of the cycle *)

(** A contact from a node without a path from the left rail keeps its target
    out of the order: what is behind that target is never powered, although a
    path of closed contacts leads there. *)
Definition dangling_network : option ContactNetwork :=
  let '(n, n0) := add_node network_new in
  let '(n, n1) := add_node n in
  let '(n, n2) := add_node n in
  let '(n, n3) := add_node n in
  n ← add_edge n n0 n1 (No "a");
  n ← add_edge n n2 n1 (No "a");
  n ← add_edge n n1 n3 (No "a");
  Some (set_output_node (set_left_rail n n0) n3).

Lemma dangling_branch_blocks :
  ∃ n, dangling_network = Some n ∧ live {["a" := true]} ∅ n 0 3 ∧
    ∀ fuel, ∃ n' es, evaluate_power_flow (4 + fuel) n {["a" := true]} ∅ = Finished (false, n', es).
Proof.
  set (n := ltac:(let x := eval vm_compute in dangling_network in
                  match x with Some ?d => exact d end)).
  exists n. split; [vm_compute; reflexivity|]. split.
  - apply (path_edge _ _ 0 (mkEdge 1 3 (No "a"))); [do 2 right; left | | vm_compute; reflexivity].
    apply (path_edge _ _ 0 (mkEdge 0 1 (No "a"))); [left | constructor | vm_compute; reflexivity].
  - intros fuel. eexists _, _. cbn [Nat.add]. vm_compute. reflexivity.
Qed.

(** A network with a contact back to the left rail is never ordered: the
    saturating counts push the rail and the node after it again and again. *)
Definition feedback_network : option ContactNetwork :=
  let '(n, n0) := add_node network_new in
  let '(n, n1) := add_node n in
  n ← add_edge n n0 n1 (No "a");
  n ← add_edge n n1 n0 (No "b");
  Some (set_output_node (set_left_rail n n0) n1).

Lemma feedback_runs_forever fuel snapshot es :
  ∃ n, feedback_network = Some n ∧ evaluate_power_flow fuel n snapshot es = Running.
Proof.
  eexists. split; [reflexivity|].
  unfold evaluate_power_flow, topological_order, rebuild_topo. cbn -[topo_loop].
  match goal with |- context [topo_loop fuel ?n ?d ?q ?o] => set (net := n) end.
  assert (G : ∀ f deg u o, deg = [1; 1] ∧ u = 0 ∨ deg = [1; 0] ∧ u = 1 ∨ deg = [0; 0] →
            (u = 0 ∨ u = 1) → topo_loop f net deg [u] o = Running).
  { induction f as [|f IH]; intros deg u o Hd Hu; [by destruct Hu as [-> | ->]|].
    destruct Hd as [[-> ->]|[[-> ->]| ->]]; [| |destruct Hu as [-> | ->]]; cbn;
      apply IH; auto. }
  by rewrite (G fuel [1; 1] 0 []) by auto.
Qed.

(** A falling-edge contact never energizes a coil: the cycle starts with an
    empty edge state, so over any number of cycles of a rung with such a
    contact in series the coil keeps its off state. *)
Theorem falling_edge_never fuel k x y cs vars d :
  build_rung (mkRung "r" (Serial (NegEdge x :: cs)) [mkCoil y Out]) = Some d →
  edges_once [mkRung "r" (Serial (NegEdge x :: cs)) [mkCoil y Out]] →
  length (nodes (network d)) ≤ fuel → 0 < k →
  ∃ ds' vars', run_cycles fuel k [d] vars = Finished (ds', vars') ∧ get_bool vars' y = false.
Proof.
  set (r := mkRung _ _ _). intros Hb ND Hf Hk.
  destruct (build_rung_represents r) as (d' & Hd' & HR). rewrite Hb in Hd'. injection Hd' as <-.
  assert (Hoff : ∀ vars, get_bool (scan [r] vars) y = false).
  { intros v. unfold scan, scan_rung, rung_coils, store_coils, set_bool, get_bool. cbn.
    by rewrite lookup_insert_eq. }
  assert (H : Forall2 (represents fuel) [d] [r]) by (constructor; [by apply HR | constructor]).
  clear Hb HR Hf. revert H Hk. generalize [d]. revert vars.
  induction k as [|k IH]; intros vars ds H Hk; [lia|].
  cbn [run_cycles]. destruct (cycle_scan fuel ds [r] vars H ND) as (ds1 & res & -> & H1 & _).
  cbn [loop_bind]. destruct (decide (k = 0)) as [->|Hne].
  - exists ds1, (scan [r] vars). split; [done | apply Hoff].
  - apply IH; [done | lia].
Qed.

(** ** Witnesses *)
Lemma power_flow_is_reachability_witness :
  ∃ n, build_serial_network [No "a"; PosEdge "b"] = Some n ∧ ladder n 0 2 ∧
    distinct_edges (edges n) ∧ cached n 0 ∧
    ∃ b n' es', evaluate_power_flow 3 n {["a" := true; "b" := true]} ∅ = Finished (b, n', es') ∧
      (b = true ↔ live {["a" := true; "b" := true]} ∅ n 0 2).
Proof.
  destruct (build_serial [No "a"; PosEdge "b"]) as (n & E & L & D & Ed & N).
  assert (HD : distinct_edges (edges n)) by (rewrite Ed; apply (bool_decide_unpack _); vm_compute; exact I).
  exists n. split_and!; [exact E | exact L | exact HD | by left |].
  destruct (power_flow_is_reachability n 0 2 3 {["a" := true; "b" := true]} ∅ L HD)
    as (b & n' & es' & H1 & H2 & _); [by left | by rewrite N |].
  by exists b, n', es'.
Defined.

Definition sample_rungs : list LdRung :=
  [mkRung "start" (Parallel [[No "go"; Nc "stop"]; [No "run"; Nc "stop"]]) [mkCoil "run" Out];
   mkRung "lamp" (Serial [No "run"; PosEdge "tick"]) [mkCoil "lamp" SetCoil]].

Lemma ladder_scan_witness :
  ∃ ds, mapM build_rung sample_rungs = Some ds ∧ edges_once sample_rungs ∧
    ∃ ds' vars', run_cycles 5 3 ds {["go" := true; "tick" := true]} = Finished (ds', vars') ∧
      get_bool vars' "lamp" = true ∧ get_bool vars' "stop" = false.
Proof.
  set (ds := ltac:(let x := eval vm_compute in (default [] (mapM build_rung sample_rungs)) in exact x)).
  assert (E : mapM build_rung sample_rungs = Some ds) by (vm_compute; reflexivity).
  assert (O : edges_once sample_rungs) by (apply (bool_decide_unpack _); vm_compute; exact I).
  exists ds. split; [exact E|]. split; [exact O|].
  destruct (ladder_scan 5 3 sample_rungs ds {["go" := true; "tick" := true]} E O) as (ds' & vars' & H & Hx).
  - repeat constructor.
  - exists ds', vars'. split; [exact H|]. rewrite !Hx. split; vm_compute; reflexivity.
Defined.

Lemma falling_edge_never_witness :
  ∃ d, build_rung (mkRung "r" (Serial [NegEdge "x"; No "a"]) [mkCoil "y" Out]) = Some d ∧
    ∃ ds' vars', run_cycles 3 2 [d] {["x" := true; "y" := true]} = Finished (ds', vars') ∧
      get_bool vars' "y" = false.
Proof.
  set (d := ltac:(let x := eval vm_compute in
    (build_rung (mkRung "r" (Serial [NegEdge "x"; No "a"]) [mkCoil "y" Out])) in
    match x with Some ?d => exact d end)).
  assert (E : build_rung (mkRung "r" (Serial [NegEdge "x"; No "a"]) [mkCoil "y" Out]) = Some d)
    by (vm_compute; reflexivity).
  exists d. split; [exact E|].
  apply (falling_edge_never 3 2 "x" "y" [No "a"] {["x" := true; "y" := true]} d E);
    [apply (bool_decide_unpack _); vm_compute; exact I | cbn; lia | lia].
Defined.
