(* ===== verification/Sfc.v ===== *)
(** * Sequential function charts ([audesys-sfc-compiler/src/lib.rs])

    The line tokenizer, the parser of steps and transitions, the mapping of
    action bodies and conditions to IL text and the generator.  Positions in
    text are in ASCII characters, as everywhere in this development. *)
From S2P Require Import Prelude HalTypes HalValue HalIr FunctionBlocks Vm Executor ExecutorFacts ExecutorControl.
From S2P Require Import Text StraightLine.
From S2P Require IlSyntax IlCodegen.

Record Action := mkAction { qualifier : ascii; body : string }.
Record Transition := mkTransition { tr_from : string; tr_to : string; condition : string }.
Record Step := mkStep {
  step_name : string; step_actions : list Action; transition : option Transition }.

(** ** Tokenizer *)
Inductive Token :=
  | StepName (name : string)
  | TAction (qualifier : ascii) (body : string)
  | EndStep
  | TTransition (from to_ condition : string)
  | EndTransition.

(** [ACTION q: body] *)
Definition action_token (line : string) : list Token :=
  let rest := trim (str_from line 7) in
  match str_find rest ":" with
  | Some colon_idx =>
      let qualifier := trim (str_to rest colon_idx) in
      let body := trim (str_from rest (colon_idx + 1)) in
      match chars qualifier with
      | q :: _ => [TAction q body]
      | [] => []
      end
  | None => []
  end.

(** [TRANSITION FROM a TO b : condition] *)
Definition transition_token (line : string) : list Token :=
  let rest := trim (str_from line 11) in
  match str_find (to_uppercase rest) "FROM " with
  | Some from_start =>
      let after_from := str_from rest (from_start + 5) in
      match str_find (to_uppercase after_from) " TO " with
      | Some to_pos =>
          let from := trim (str_to after_from to_pos) in
          let after_to := str_from after_from (to_pos + 4) in
          match str_find after_to ":" with
          | Some colon_pos =>
              [TTransition from (trim (str_to after_to colon_pos))
                 (trim (str_from after_to (colon_pos + 1)))]
          | None => []
          end
      | None => []
      end
  | None => []
  end.

Definition line_tokens (raw : string) : list Token :=
  let line := trim raw in
  let upper := to_uppercase line in
  if starts_with upper "END_STEP" then [EndStep]
  else if starts_with upper "END_TRANSITION" then [EndTransition]
  else if starts_with upper "STEP " then
    let name := trim (str_from line 5) in
    if bool_decide (name = "") then [] else [StepName name]
  else if starts_with upper "ACTION " then action_token line
  else if starts_with upper "TRANSITION " then transition_token line
  else [].

Definition tokenize (source : string) : list Token := concat (map line_tokens (lines source)).

(** ** Parser *)
Definition parse_token (st : list Step * option Step) (t : Token) : list Step * option Step :=
  let '(steps, current) := st in
  match t with
  | StepName name => (steps ++ option_list current, Some (mkStep name [] None))
  | TAction q b =>
      (steps, (fun s => mkStep (step_name s) (step_actions s ++ [mkAction q b]) (transition s)) <$> current)
  | EndStep => (steps ++ option_list current, None)
  | TTransition _ _ _ | EndTransition => st
  end.

Definition parse_steps (tokens : list Token) : result (list Step) string :=
  let '(steps, current) := foldl parse_token ([], None) tokens in
  let steps := steps ++ option_list current in
  match steps with [] => Err "no SFC steps found" | _ => Ok steps end.

Definition parse_transitions (tokens : list Token) : list Transition :=
  concat (map (fun t => match t with
    | TTransition f t c => [mkTransition f t c]
    | _ => []
    end) tokens).

(** [steps[idx].transition = Some(tr)] unless it has one. *)
Definition set_transition (tr : Transition) (s : Step) : Step :=
  match transition s with
  | Some _ => s
  | None => mkStep (step_name s) (step_actions s) (Some tr)
  end.

Fixpoint position {A} (p : A → bool) (l : list A) : option nat :=
  match l with
  | [] => None
  | x :: l => if p x then Some 0%nat else S <$> position p l
  end.

Definition has_name (name : string) (s : Step) : bool := bool_decide (step_name s = name).

Fixpoint link_transitions (steps : list Step) (trs : list Transition) : result (list Step) string :=
  match trs with
  | [] => Ok steps
  | tr :: trs =>
      match position (has_name (tr_from tr)) steps with
      | None => Err ("step '" +:+ tr_from tr +:+ "' not found for transition FROM")
      | Some idx =>
          if existsb (has_name (tr_to tr)) steps
          then link_transitions (alter (set_transition tr) idx steps) trs
          else Err ("step '" +:+ tr_to tr +:+ "' not found for transition TO")
      end
  end.

(** ** Expressions *)
Definition nl : string := String.String newline "".

Definition is_identifier (s : string) : bool :=
  match chars (trim s) with
  | [] => false
  | c :: l =>
      (is_alphabetic c || Ascii.eqb c "_") &&
      forallb (fun c => is_alphanumeric c || Ascii.eqb c "_") (c :: l)
  end.

(** [strip_prefix("NOT ")] *)
Definition strip_not (e : string) : option string :=
  if starts_with e "NOT " then Some (str_from e 4) else None.

Definition il_op_for (op : string) : option string :=
  if bool_decide (op = "+") then Some "ADD"
  else if bool_decide (op = "-") then Some "SUB"
  else if bool_decide (op = "*") then Some "MUL"
  else if bool_decide (op = "/") then Some "DIV"
  else if bool_decide (op = "=") then Some "EQ"
  else if bool_decide (op = "<>") then Some "NE"
  else if bool_decide (op = "<") then Some "LT"
  else if bool_decide (op = "<=") then Some "LE"
  else if bool_decide (op = ">") then Some "GT"
  else if bool_decide (op = ">=") then Some "GE"
  else None.

(** Split around [op] at its first occurrence. *)
Definition split_at (expr op : string) : option (string * string * string) :=
  match str_find expr op with
  | Some idx => Some (trim (str_to expr idx), op, trim (str_from expr (idx + String.length op)))
  | None => None
  end.

(** The case of ['=']: first with spaces around, then the last one, unless it
    belongs to [:=] or [==]. *)
Definition split_equal (expr : string) : option (string * string * string) :=
  match str_find expr " = " with
  | Some idx => Some (trim (str_to expr idx), "=", trim (str_from expr (idx + 3)))
  | None =>
      match rfind_chars (chars expr) "=" with
      | Some idx =>
          if (0 <? idx)%nat && bool_decide (chars expr !! (idx - 1)%nat = Some ":"%char) then None
          else if (idx + 1 <? String.length expr)%nat &&
                  bool_decide (chars expr !! (idx + 1)%nat = Some "="%char) then None
          else Some (trim (str_to expr idx), "=", trim (str_from expr (idx + 1)))
      | None => None
      end
  end.

Fixpoint first_some {A B} (f : A → option B) (l : list A) : option B :=
  match l with
  | [] => None
  | x :: l => match f x with Some y => Some y | None => first_some f l end
  end.

Definition split_binary_expression (expr : string) : option (string * string * string) :=
  match first_some (split_at expr) [">="; "<="; "<>"] with
  | Some r => Some r
  | None =>
      match split_equal expr with
      | Some r => Some r
      | None => first_some (split_at expr) ["<"; ">"; "+"; "-"; "*"; "/"]
      end
  end.

(** The text [" → ST "], with the UTF-8 bytes of the arrow. *)
Definition arrow_st : string :=
  of_chars [" "%char; "226"%char; "134"%char; "146"%char; " "%char; "S"%char; "T"%char; " "%char].

Definition expr_to_il (expr target_var : string) : string :=
  let e := trim expr in
  let st := nl +:+ "ST " +:+ target_var in
  if eq_ignore_ascii_case e "TRUE" then "LD 1" +:+ st
  else if eq_ignore_ascii_case e "FALSE" then "LD 0" +:+ st
  else if forallb is_digit (chars e) then "LD " +:+ e +:+ st
  else match strip_not e with
  | Some inner => "LD " +:+ trim inner +:+ nl +:+ "NOT" +:+ st
  | None =>
      if is_identifier e then "LD " +:+ e +:+ st
      else match split_binary_expression e with
      | Some (l, op, r) =>
          match il_op_for op with
          | Some il_op => "LD " +:+ l +:+ nl +:+ il_op +:+ " " +:+ trim r +:+ st
          | None => "; unparsed binary: " +:+ expr +:+ arrow_st +:+ target_var
          end
      | None => "; unparsed expr: " +:+ expr +:+ arrow_st +:+ target_var
      end
  end.

Definition il_opcodes : list string :=
  ["LD "; "LDN "; "ST "; "S "; "R "; "AND "; "ANDN "; "OR "; "ORN "; "XOR "; "XORN "; "ADD ";
   "SUB "; "MUL "; "DIV "; "GT "; "GE "; "EQ "; "NE "; "LT "; "LE "; "JMP "; "JMPC ";
   "JMPCN "; "CAL "; "RET "; "NOT "; "NOP "].

Definition action_body_to_il (body : string) : string :=
  let b := trim_end_matches (trim body) ";" in
  if existsb (starts_with (to_uppercase b)) il_opcodes then b
  else match str_find b ":=" with
  | Some assign_idx => expr_to_il (trim (str_from b (assign_idx + 2))) (trim (str_to b assign_idx))
  | None => "; unparsed action: " +:+ b
  end.

Definition transition_condition_to_il (condition : string) : string :=
  let c := trim condition in
  if eq_ignore_ascii_case c "TRUE" then "LD 1"
  else if eq_ignore_ascii_case c "FALSE" then "LD 0"
  else if forallb is_digit (chars c) then "LD " +:+ c
  else if is_identifier c then "LD " +:+ c +:+ nl +:+ "NE 0"
  else match strip_not c with
  | Some inner => "LD " +:+ trim inner +:+ nl +:+ "NOT"
  | None =>
      match split_binary_expression c with
      | Some (l, op, r) =>
          match il_op_for op with
          | Some il_op => "LD " +:+ l +:+ nl +:+ il_op +:+ " " +:+ r
          | None => "; unparsed condition: " +:+ c
          end
      | None => "; unparsed condition: " +:+ c
      end
  end.

(** ** Generator *)
Fixpoint concat_str (l : list string) : string :=
  match l with [] => "" | s :: l => s +:+ concat_str l end.
(** Each line of an IL text, indented. *)
Definition indent (il : string) : string :=
  concat_str (map (fun l => "  " +:+ l +:+ nl) (lines il)).

Definition step_il (last : bool) (s : Step) : result string string :=
  let label := to_uppercase (step_name s) in
  let head := label +:+ ":" +:+ nl +:+
    concat_str (map (fun a => indent (action_body_to_il (body a))) (step_actions s)) in
  match transition s with
  | Some tr =>
      Ok (head +:+ indent (transition_condition_to_il (condition tr)) +:+
          "  JMPC " +:+ to_uppercase (tr_to tr) +:+ nl +:+ "  JMP " +:+ label +:+ nl +:+ nl)
  | None =>
      if last then Ok (head +:+ "  HALT" +:+ nl +:+ nl)
      else Err ("step '" +:+ step_name s +:+
                "' has no transition (only the final step may lack a transition)")
  end.

Fixpoint steps_il (steps : list Step) : result string string :=
  match steps with
  | [] => Ok ""
  | s :: steps =>
      let? il := step_il (match steps with [] => true | _ => false end) s in
      let? rest := steps_il steps in
      Ok (il +:+ rest)
  end.

Definition generate_il (steps : list Step) : result string string :=
  match steps with
  | [] => Err "no steps to generate IL from"
  | s :: _ =>
      let? rest := steps_il steps in
      Ok ("; SFC compiled to IL" +:+ nl +:+ "JMP " +:+ to_uppercase (step_name s) +:+ nl +:+ nl +:+ rest)
  end.

Definition sfc_compile (source : string) : result string string :=
  let tokens := tokenize source in
  let? steps := parse_steps tokens in
  let? steps := link_transitions steps (parse_transitions tokens) in
  generate_il steps.

(** ** Facts

    Linking is first-match on both sides, compilation keeps one block per
    step, and what the compiled text means to the IL compiler. *)

(** ** Linking *)
Definition names (steps : list Step) : list string := map step_name steps.

Lemma position_names name steps steps' :
  names steps = names steps' → position (has_name name) steps = position (has_name name) steps'.
Proof.
  revert steps'. induction steps as [|s steps IH]; intros [|s' steps'] H; try done.
  injection H as Hs H. cbn. unfold has_name at 1 3. rewrite Hs. case_bool_decide; [done|].
  by rewrite (IH steps').
Qed.

Lemma existsb_names name steps steps' :
  names steps = names steps' → existsb (has_name name) steps = existsb (has_name name) steps'.
Proof.
  revert steps'. induction steps as [|s steps IH]; intros [|s' steps'] H; try done.
  injection H as Hs H. cbn. unfold has_name at 1 3. by rewrite Hs, (IH steps').
Qed.

Lemma position_lt {A} (p : A → bool) l i : position p l = Some i → ∃ x, l !! i = Some x ∧ p x = true.
Proof.
  revert i. induction l as [|x l IH]; intros i; cbn; [done|]. destruct (p x) eqn:E.
  - intros [= <-]. by exists x.
  - destruct (position p l) as [j|]; [|done]. intros [= <-]. by apply IH.
Qed.

Lemma position_None_existsb {A} (p : A → bool) l : position p l = None ↔ existsb p l = false.
Proof.
  induction l as [|x l IH]; [done|]. cbn. destruct (p x); [done|]. rewrite fmap_None, IH. done.
Qed.

Lemma set_transition_names tr i steps : names (alter (set_transition tr) i steps) = names steps.
Proof.
  revert i. induction steps as [|s steps IH]; intros [|i]; try done.
  - cbn. f_equal. unfold set_transition. by destruct (transition s).
  - change (step_name s :: names (alter (set_transition tr) i steps) = step_name s :: names steps).
    by rewrite IH.
Qed.

(** The transition a step gets: its own, or the first one in the list from its
    name, if it is the first step of that name. *)
Definition linked (all : list Step) (trs : list Transition) (i : nat) (s : Step) : Step :=
  match transition s with
  | Some _ => s
  | None =>
      if bool_decide (position (has_name (step_name s)) all = Some i) then
        mkStep (step_name s) (step_actions s)
          (List.find (fun tr => bool_decide (tr_from tr = step_name s)) trs)
      else s
  end.

(** The first transition that names a missing step, with its error. *)
Definition link_error (steps : list Step) (tr : Transition) : option string :=
  if existsb (has_name (tr_from tr)) steps then
    if existsb (has_name (tr_to tr)) steps then None
    else Some ("step '" +:+ tr_to tr +:+ "' not found for transition TO")
  else Some ("step '" +:+ tr_from tr +:+ "' not found for transition FROM").

Lemma link_error_names steps steps' tr :
  names steps = names steps' → link_error steps tr = link_error steps' tr.
Proof. intros H. unfold link_error. by rewrite !(existsb_names _ steps steps'). Qed.

Lemma linked_nil all i s : linked all [] i s = s.
Proof. unfold linked. destruct s as [n a [t|]]; [done|]. cbn. by case_bool_decide. Qed.

Lemma linked_cons all tr trs idx i s :
  position (has_name (tr_from tr)) all = Some idx → (∀ x, all !! i = Some x → step_name x = step_name s) →
  is_Some (all !! i) →
  linked all trs i (if bool_decide (i = idx) then set_transition tr s else s) =
  linked all (tr :: trs) i s.
Proof.
  intros Hp Hn [x Hx]. unfold linked, set_transition.
  destruct s as [n a [t|]]; cbn; [by case_bool_decide|].
  destruct (position_lt _ _ _ Hp) as (y & Hy & Hyn). apply bool_decide_eq_true in Hyn.
  case_bool_decide as Hi; cbn.
  - subst idx. rewrite Hx in Hy. injection Hy as <-.
    specialize (Hn x Hx). cbn in Hn. rewrite Hn in Hyn. rewrite <- Hyn in Hp.
    rewrite bool_decide_true by (rewrite <- Hp; by f_equal). by rewrite (bool_decide_true (_ = n)).
  - destruct (decide (position (has_name n) all = Some i)) as [Hpi|Hpi].
    + rewrite bool_decide_true by done. rewrite (bool_decide_false (_ = n)); [done|].
      intros E. rewrite E in Hp. congruence.
    + by rewrite bool_decide_false.
Qed.

(** Linking is a first-match function: it fails with the error of the first
    transition that names a missing step, and otherwise leaves every step as it
    was except that a step without a transition gets the first transition of
    the list that starts from its name, if no earlier step has that name; the
    transitions from a duplicate step and the later ones from a step are
    dropped. *)
Theorem link_first_match steps trs :
  link_transitions steps trs =
  match omap (link_error steps) trs with
  | e :: _ => Err e
  | [] => Ok (imap (linked steps trs) steps)
  end.
Proof.
  revert steps. induction trs as [|tr trs IH]; intros steps.
  - cbn. f_equal. symmetry. apply list_eq. intros i. rewrite list_lookup_imap.
    destruct (steps !! i) as [s|]; cbn; [by rewrite linked_nil | done].
  - cbn [link_transitions omap list_omap]. unfold link_error at 1.
    destruct (position (has_name (tr_from tr)) steps) as [idx|] eqn:Ep.
    2: { by rewrite (proj1 (position_None_existsb _ _) Ep). }
    assert (existsb (has_name (tr_from tr)) steps = true) as ->.
    { apply not_false_iff_true. intros H. apply position_None_existsb in H. congruence. }
    destruct (existsb (has_name (tr_to tr)) steps); [|done].
    rewrite IH. pose proof (set_transition_names tr idx steps) as Hnames.
    set (steps' := alter (set_transition tr) idx steps) in *.
    assert (omap (link_error steps') trs = omap (link_error steps) trs) as ->.
    { clear -Hnames. induction trs as [|t trs IHt]; [done|]. cbn [omap list_omap].
      by rewrite (link_error_names steps' steps), IHt. }
    destruct (omap (link_error steps) trs); [|done]. f_equal. apply list_eq. intros i.
    rewrite !list_lookup_imap. unfold steps' at 2.
    destruct (decide (i = idx)) as [->|Hne].
    + rewrite list_lookup_alter_eq. destruct (steps !! idx) as [s|] eqn:Es; cbn; [|done]. f_equal.
      rewrite <- (linked_cons steps tr trs idx idx s Ep) by (rewrite Es; intros; by simplify_eq || by eexists).
      rewrite bool_decide_true by done. unfold linked. by rewrite !(position_names _ steps' steps).
    + rewrite list_lookup_alter_ne by done. destruct (steps !! i) as [s|] eqn:Es; cbn; [|done].
      f_equal. rewrite <- (linked_cons steps tr trs idx i s Ep) by (rewrite Es; intros; by simplify_eq || by eexists).
      rewrite bool_decide_false by done. unfold linked. by rewrite !(position_names _ steps' steps).
Qed.

(** ** What a compiled chart does *)
Definition text (l : list string) : string := concat_str (map (fun s => s +:+ nl) l).

(** The two-step chart of the crate's first test. *)
Definition two_steps : string :=
  text ["STEP Init"; "  ACTION N: x := 0;"; "END_STEP";
        "TRANSITION FROM Init TO Run : start = TRUE"; "END_TRANSITION";
        "STEP Run"; "  ACTION P1: x := x + 1;"; "END_STEP"].

Definition two_steps_program : HalProgram :=
  match sfc_compile two_steps with
  | Ok il => match IlCodegen.il_compile il with
             | Some (Ok p) => p
             | _ => mkProgram "" [] [] [] []
             end
  | Err _ => mkProgram "" [] [] [] []
  end.

(** Literals and keywords of the chart are variables for the IL compiler. *)
Lemma two_steps_il :
  (let? il := sfc_compile two_steps in Ok (IlSyntax.parse (IlSyntax.tokenize il))) =
  Ok (E := string) [IlSyntax.IJump "INIT"; IlSyntax.ILabel "INIT"; IlSyntax.ILoad "0"; IlSyntax.IStore "x";
      IlSyntax.ILoad "start"; IlSyntax.ICmp IlSyntax.CmpEq "TRUE"; IlSyntax.IJumpIf "RUN";
      IlSyntax.IJump "INIT"; IlSyntax.ILabel "RUN"; IlSyntax.ILoad "x"; IlSyntax.IAdd "1";
      IlSyntax.IStore "x"].
Proof. vm_compute. reflexivity. Qed.

(** An action on a variable named like an opcode is taken for raw IL. *)
Lemma action_on_s : action_body_to_il "s := 1;" = "s := 1" ∧
  IlSyntax.parse (IlSyntax.tokenize (action_body_to_il "s := 1;")) = [IlSyntax.ISet ":="].
Proof. split; vm_compute; reflexivity. Qed.

Definition waiting_start (b : bool) : Executor :=
  mkExecutor (with_signals vm_new {["start" := VBool b]}) two_steps_program debug_new.

Lemma waiting_cycles `{HB : BuildProfile} b :
  ∃ e, steps 12 (waiting_start b) = Some e ∧ steps 11 e = Some e.
Proof.
  destruct b.
  all: match goal with |- ∃ e, ?s = _ ∧ _ =>
    let x := eval vm_compute in s in
    match x with Some ?e => exists e; split; vm_compute; reflexivity end end.
Qed.

(** A step waits inside the scan: whatever Boolean the start signal holds,
    the program compiled from the two-step chart of the crate's own test never
    halts, because a step whose condition does not hold jumps back to itself
    within the same run, where the inputs cannot change (and the condition
    compares with a variable named TRUE that is never loaded). *)
Theorem chart_never_halts `{HB : BuildProfile} b fuel :
  run_to_halt fuel (waiting_start b) = OutOfFuel.
Proof.
  destruct (waiting_cycles b) as (e & H1 & H2). apply steps_continues in H1, H2.
  unfold run_to_halt. generalize 0%nat as k. revert fuel.
  eapply diverges_after; [exact H1|]. apply (diverges_cycle (λ x, x = e)); [|done].
  intros x ->. by exists 10%nat, e.
Qed.
