(* ===== verification/Fbd.v ===== *)
(** * Function block diagrams ([audesys-fbd-compiler/src/lib.rs])

    The line filter, the parser of blocks and wiring and the IL generator.  A
    [BTreeMap] of strings is a list sorted by key. *)
From Stdlib Require OrderedTypeEx.
From S2P Require Import Prelude HalTypes HalValue HalIr FunctionBlocks Vm Executor ExecutorFacts ExecutorControl.
From S2P Require Import Text TextFacts StraightLine.
From S2P Require IlSyntax IlCodegen.

Inductive FbKind := Ton | Tof | Tp | Ctu | Ctd | Ctud | Sr | Rs | RTrig | FTrig.

Definition fb_kinds : list (string * FbKind) :=
  [("TON", Ton); ("TOF", Tof); ("TP", Tp); ("CTU", Ctu); ("CTD", Ctd); ("CTUD", Ctud);
   ("SR", Sr); ("RS", Rs); ("R_TRIG", RTrig); ("F_TRIG", FTrig)].

Definition kind_from_str (s : string) : option FbKind :=
  snd <$> List.find (fun '(k, _) => bool_decide (k = s)) fb_kinds.
Definition il_name (k : FbKind) : string :=
  match k with
  | Ton => "TON" | Tof => "TOF" | Tp => "TP" | Ctu => "CTU" | Ctd => "CTD" | Ctud => "CTUD"
  | Sr => "SR" | Rs => "RS" | RTrig => "R_TRIG" | FTrig => "F_TRIG"
  end.

(** ** [BTreeMap<String, String>] *)
Abbreviation StringMap := (list (string * string)) (only parsing).

Fixpoint bt_insert (k v : string) (m : StringMap) : StringMap :=
  match m with
  | [] => [(k, v)]
  | (k', v') :: m' =>
      match String.compare k k' with
      | Lt => (k, v) :: m
      | Eq => (k, v) :: m'
      | Gt => (k', v') :: bt_insert k v m'
      end
  end.

Record FbBlock := mkBlock {
  fb_name : string; fb_kind : FbKind; inputs : StringMap; outputs : StringMap }.

Definition with_input (pin val : string) (b : FbBlock) : FbBlock :=
  mkBlock (fb_name b) (fb_kind b) (bt_insert pin val (inputs b)) (outputs b).
Definition with_output (target pin : string) (b : FbBlock) : FbBlock :=
  mkBlock (fb_name b) (fb_kind b) (inputs b) (bt_insert target pin (outputs b)).

(** ** Parser *)
Definition keep_line (l : string) : bool :=
  negb (bool_decide (l = "")) && negb (starts_with l ";") && negb (starts_with l "//").
Definition tokenize (source : string) : list string := List.filter keep_line (map trim (lines source)).

(** [split_once(p)] *)
Definition split_once (s p : string) : option (string * string) :=
  match str_find s p with
  | Some i => Some (str_to s i, str_from s (i + String.length p))
  | None => None
  end.

Definition parse_assignment (line : string) : option (string * string) :=
  '(l, r) ← split_once line ":="; Some (trim l, trim r).
Definition split_dot (s : string) : option (string * string) := split_once s ".".

Definition trim_end (s : string) : string := of_chars (rev (trim_start (rev (chars s)))).

Definition is_block (name : string) (b : FbBlock) : bool := bool_decide (fb_name b = name).

(** [blocks.iter_mut().find(..)]: update the first block of that name. *)
Fixpoint update_block (name : string) (f : FbBlock → FbBlock) (blocks : list FbBlock)
  : option (list FbBlock) :=
  match blocks with
  | [] => None
  | b :: blocks =>
      if is_block name b then Some (f b :: blocks)
      else blocks ← update_block name f blocks; Some (b :: blocks)
  end.

Abbreviation Parsed := (list FbBlock * list (string * string))%type (only parsing).

Definition parse_block_line (blocks : list FbBlock) (line rest : string) : result (list FbBlock) string :=
  match split_whitespace rest with
  | name :: kind_str :: _ =>
      match kind_from_str kind_str with
      | None => Err ("unknown block kind: " +:+ kind_str)
      | Some kind =>
          if existsb (is_block name) blocks then Err ("duplicate block name: " +:+ name)
          else Ok (blocks ++ [mkBlock name kind [] []])
      end
  | _ => Err ("malformed BLOCK statement: " +:+ line)
  end.

Definition parse_wiring (st : Parsed) (lhs rhs : string) : result Parsed string :=
  let '(blocks, outs) := st in
  match split_dot lhs with
  | Some (block_name, pin) =>
      match update_block block_name (with_input pin rhs) blocks with
      | Some blocks => Ok (blocks, outs)
      | None => Err ("unknown block in wiring: " +:+ block_name)
      end
  | None =>
      match split_dot rhs with
      | Some (src_block, src_pin) =>
          if existsb (is_block lhs) blocks then
            Err ("invalid wiring: lhs '" +:+ lhs +:+ "' is a block name, expected output variable")
          else if existsb (is_block src_block) blocks then
            Ok (blocks, outs ++ [(lhs, src_block +:+ "." +:+ src_pin)])
          else Err ("unknown block in output wiring: " +:+ src_block)
      | None => Ok (blocks, outs ++ [(lhs, rhs)])
      end
  end.

Definition parse_line (st : Parsed) (line : string) : result Parsed string :=
  let line := trim_end line in
  if bool_decide (line = "") then Ok st
  else if starts_with line "BLOCK " then
    let? blocks := parse_block_line (fst st) line (str_from line 6) in
    Ok (blocks, snd st)
  else match parse_assignment line with
  | Some (lhs, rhs) => parse_wiring st (trim lhs) (trim rhs)
  | None => Err ("unrecognized statement: " +:+ line)
  end.

Fixpoint parse_lines (st : Parsed) (ls : list string) : result Parsed string :=
  match ls with
  | [] => Ok st
  | l :: ls => let? st := parse_line st l in parse_lines st ls
  end.

(** Store one output on its source block; a source that is not [block.pin] is
    dropped. *)
Definition store_output (blocks : list FbBlock) (out : string * string) : list FbBlock :=
  let '(target, src_expr) := out in
  match split_dot src_expr with
  | Some (src_block, src_pin) =>
      default blocks (update_block src_block (with_output target src_pin) blocks)
  | None => blocks
  end.

Definition parse_blocks (ls : list string) : result (list FbBlock) string :=
  let? (blocks, outs) := parse_lines ([], []) ls in
  let blocks := foldl store_output blocks outs in
  match blocks with [] => Err "no function blocks found" | _ => Ok blocks end.

(** ** Generator *)
Definition nl : string := String.String newline "".
Definition append_all (l : list string) : string := foldl String.append "" l.

Definition block_il (il : string) (b : FbBlock) : string :=
  (if bool_decide (il = "") then il else il +:+ nl) +:+
  "; BLOCK " +:+ fb_name b +:+ " " +:+ il_name (fb_kind b) +:+ nl +:+
  append_all (map (fun '(pin, val) =>
    "LD " +:+ val +:+ nl +:+ "ST " +:+ fb_name b +:+ "." +:+ pin +:+ nl) (inputs b)) +:+
  "CAL " +:+ fb_name b +:+ nl.

Definition output_il (b : FbBlock) : string :=
  append_all (map (fun '(target, pin) =>
    nl +:+ "; Output " +:+ target +:+ nl +:+
    "LD " +:+ fb_name b +:+ "." +:+ pin +:+ nl +:+ "ST " +:+ target +:+ nl) (outputs b)).

Definition generate_il (blocks : list FbBlock) : string :=
  trim_end (foldl block_il "" blocks +:+ append_all (map output_il blocks)).

Definition fbd_compile (source : string) : result string string :=
  match tokenize source with
  | [] => Err "empty FBD source"
  | ls => let? blocks := parse_blocks ls in Ok (generate_il blocks)
  end.

(** ** Facts

    The lines of a diagram parse back to its blocks, and what a compiled
    diagram does. *)

(** ** Writing a diagram *)
Definition block_line (b : FbBlock) : string := "BLOCK " +:+ fb_name b +:+ " " +:+ il_name (fb_kind b).
Definition input_line (b : FbBlock) (io : string * string) : string :=
  fb_name b +:+ "." +:+ fst io +:+ " := " +:+ snd io.
Definition output_line (b : FbBlock) (io : string * string) : string :=
  fst io +:+ " := " +:+ fb_name b +:+ "." +:+ snd io.

Definition diagram_lines (bs : list FbBlock) : list string :=
  concat (map (fun b => block_line b :: map (input_line b) (inputs b)) bs) ++
  concat (map (fun b => map (output_line b) (outputs b)) bs).

(** ** Valid diagrams *)
Definition word (s : string) : bool := no_space s && negb (bool_decide (s = "")) && free_of ":" s.
Definition ident (s : string) : bool := word s && free_of "." s.

(** Keys in increasing order. *)
Fixpoint sorted (m : list (string * string)) : bool :=
  match m with
  | (k, _) :: ((k', _) :: _) as m' => bool_decide (String.compare k k' = Lt) && sorted m'
  | _ => true
  end.

Definition valid_block (b : FbBlock) : bool :=
  ident (fb_name b) && sorted (inputs b) && sorted (outputs b) &&
  forallb (fun '(pin, val) => word pin && word val) (inputs b) &&
  forallb (fun '(target, pin) => ident target && negb (bool_decide (target = "BLOCK")) && word pin)
    (outputs b).

Definition valid_diagram (bs : list FbBlock) : bool :=
  negb (bool_decide (length bs = 0%nat)) && bool_decide (NoDup (map fb_name bs)) &&
  forallb valid_block bs &&
  forallb (fun b => forallb (fun '(target, _) => negb (existsb (is_block target) bs)) (outputs b)) bs.

(** ** Sorted maps *)
Lemma str_lt_trans a b c :
  String.compare a b = Lt → String.compare b c = Lt → String.compare a c = Lt.
Proof.
  intros H1 H2. apply OrderedTypeEx.String_as_OT.cmp_lt.
  apply OrderedTypeEx.String_as_OT.cmp_lt in H1, H2.
  eapply OrderedTypeEx.String_as_OT.lt_trans; eauto.
Qed.

Lemma sorted_snoc m k v :
  sorted (m ++ [(k, v)]) = true →
  sorted m = true ∧ Forall (λ '(k', _), String.compare k' k = Lt) m.
Proof.
  induction m as [|[k1 v1] m IH]; [done|]. intros H. destruct m as [|[k2 v2] m].
  - cbn in H. apply andb_true_iff in H as [H _]. apply bool_decide_eq_true in H.
    split; [done|]. by constructor.
  - cbn in H. apply andb_true_iff in H as [H12 H]. destruct IH as [S F]; [exact H|].
    split; [cbn in *; by rewrite H12, S|]. apply bool_decide_eq_true in H12.
    constructor; [|done]. inversion F as [|? ? H2 _]; subst. by eapply str_lt_trans.
Qed.

Lemma bt_insert_snoc m k v :
  Forall (λ '(k', _), String.compare k' k = Lt) m → bt_insert k v m = m ++ [(k, v)].
Proof.
  induction m as [|[k1 v1] m IH]; intros H; [done|]. inversion H as [|? ? H1 H2]; subst.
  cbn. rewrite String.compare_antisym, H1. cbn. by rewrite IH.
Qed.

(** ** Lines *)
Lemma word_inv s : word s = true → no_space s = true ∧ s ≠ "" ∧ free_of ":" s = true.
Proof.
  unfold word. intros [[H1 H2%negb_true_iff]%andb_true_iff H3]%andb_true_iff.
  by apply bool_decide_eq_false in H2.
Qed.

Lemma ident_inv s : ident s = true → word s = true ∧ free_of "." s = true.
Proof. unfold ident. intros H. by apply andb_true_iff in H. Qed.

Lemma split_once_skip c p a b :
  free_of c a = true →
  split_once (a +:+ String.String c p +:+ b) (String.String c p) = Some (a, b).
Proof.
  intros Ha. unfold split_once. rewrite str_find_skip by done. f_equal. f_equal.
  - apply str_to_app.
  - rewrite <- append_assoc, <- append_length. apply str_from_app.
Qed.

Lemma split_dot_app a b : free_of "." a = true → split_dot (a +:+ "." +:+ b) = Some (a, b).
Proof. apply (split_once_skip "." ""). Qed.

Lemma parse_assignment_app a b :
  free_of ":" a = true → no_space a = true → a ≠ "" → no_space b = true → b ≠ "" →
  parse_assignment (a +:+ " := " +:+ b) = Some (a, b).
Proof.
  intros Ca Sa Na Sb Nb. unfold parse_assignment.
  change (" := " +:+ b) with (" " +:+ String.String ":" "=" +:+ " " +:+ b).
  rewrite <- append_assoc, split_once_skip by (by rewrite free_of_app, Ca).
  cbn [mbind option_bind].
  by rewrite trim_blank_r, trim_blank_l.
Qed.

Lemma trim_end_id s : (∀ c l, rev (chars s) = c :: l → is_whitespace c = false) → trim_end s = s.
Proof.
  intros H. unfold trim_end. rewrite trim_start_nonspace by done.
  by rewrite rev_involutive, of_chars_chars.
Qed.

(** A line that ends in a word is its own [trim_end] and not empty. *)
Lemma trim_end_word a b : no_space b = true → b ≠ "" → trim_end (a +:+ b) = a +:+ b ∧ a +:+ b ≠ "".
Proof.
  intros Hs Hb. destruct b as [|c b]; [done|]. split.
  - apply trim_end_id. intros d l E. rewrite chars_app, rev_app_distr in E.
    destruct (rev (chars (String.String c b))) as [|d' l'] eqn:Er.
    + cbn in Er. by destruct (rev (chars b)).
    + cbn in E. injection E as <- _. by eapply no_space_last.
  - by destruct a.
Qed.

Lemma il_name_word k : no_space (il_name k) = true ∧ il_name k ≠ "".
Proof. by destruct k. Qed.

Lemma kind_il_name k : kind_from_str (il_name k) = Some k.
Proof. by destruct k. Qed.

Lemma is_block_fresh name pre : name ∉ map fb_name pre → existsb (is_block name) pre = false.
Proof.
  intros H. apply not_true_iff_false. rewrite existsb_exists. intros (b & Hb & Hn). apply H.
  apply bool_decide_eq_true in Hn as <-. apply list_elem_of_In, in_map. done.
Qed.

Lemma update_block_mid name f pre b post :
  fb_name b = name → name ∉ map fb_name pre →
  update_block name f (pre ++ b :: post) = Some (pre ++ f b :: post).
Proof.
  intros Hb. induction pre as [|a pre IH]; intros Hp; cbn.
  - unfold is_block. by rewrite bool_decide_true.
  - unfold is_block at 1. rewrite bool_decide_false by (intros E; apply Hp; rewrite <- E; left).
    rewrite IH; [done|]. intros Hin. apply Hp. by right.
Qed.

Lemma parse_block_line_ok blocks b :
  ident (fb_name b) = true → fb_name b ∉ map fb_name blocks →
  parse_line (blocks, []) (block_line b) = Ok (blocks ++ [mkBlock (fb_name b) (fb_kind b) [] []], []).
Proof.
  intros [(Hs & Hn & _)%word_inv _]%ident_inv Hf. destruct (il_name_word (fb_kind b)) as [Hk Hk'].
  unfold parse_line, block_line.
  destruct (trim_end_word ("BLOCK " +:+ fb_name b +:+ " ") (il_name (fb_kind b)) Hk Hk') as [E Ne].
  rewrite !append_assoc in E, Ne. rewrite E, bool_decide_false by done.
  set (rest := fb_name b +:+ " " +:+ il_name (fb_kind b)).
  assert (starts_with ("BLOCK " +:+ rest) "BLOCK " = true) as ->.
  { unfold starts_with. rewrite chars_app. apply starts_with_chars_app. }
  change 6%nat with (String.length "BLOCK "). rewrite str_from_app. unfold parse_block_line. cbn [fst snd].
  unfold rest at 1. rewrite split_two by done. rewrite kind_il_name.
  by rewrite is_block_fresh.
Qed.

Lemma not_block_line a t : no_space a = true → a ≠ "BLOCK" →
  starts_with (a +:+ " " +:+ t) "BLOCK " = false.
Proof.
  intros Ha Hne. apply not_true_iff_false. intros H. apply starts_with_chars_spec in H.
  destruct H as [k E]. rewrite !chars_app in E.
  assert (Hn : free_of " " a = true) by (by apply no_space_free). apply free_of_not_in in Hn.
  change (chars a ++ " "%char :: chars t = chars "BLOCK" ++ " "%char :: k) in E.
  apply first_sep_inj in E as [E _]; [by apply chars_inj in E | done |].
  by apply free_of_not_in.
Qed.

(** A line with a dotted word before its first blank is not a BLOCK line. *)
Lemma not_block_dotted a b : no_space a = true → starts_with (a +:+ "." +:+ b) "BLOCK " = false.
Proof.
  intros Ha. apply (starts_with_stop " " "." a b "BLOCK" ""); [done | | done].
  by apply no_space_free.
Qed.

Lemma parse_input_ok pre b ins pin val :
  ident (fb_name b) = true → fb_name b ∉ map fb_name pre → word pin = true → word val = true →
  sorted (ins ++ [(pin, val)]) = true →
  parse_line (pre ++ [mkBlock (fb_name b) (fb_kind b) ins []], []) (input_line b (pin, val)) =
  Ok (pre ++ [mkBlock (fb_name b) (fb_kind b) (ins ++ [(pin, val)]) []], []).
Proof.
  intros [(Hs & Hn & Hc)%word_inv Hd]%ident_inv Hf (Ps & Pn & Pc)%word_inv (Vs & Vn & _)%word_inv Hso.
  unfold parse_line, input_line. cbn [fst snd].
  destruct (trim_end_word (fb_name b +:+ "." +:+ pin +:+ " := ") val Vs Vn) as [E Ne].
  rewrite !append_assoc in E, Ne. rewrite E, bool_decide_false by done.
  rewrite not_block_dotted by done.
  rewrite <- (append_assoc "." pin), <- (append_assoc (fb_name b)).
  set (lhs := fb_name b +:+ "." +:+ pin).
  assert (Ls : no_space lhs = true) by (unfold lhs; by rewrite !no_space_app, Hs, Ps).
  assert (Ln : lhs ≠ "") by (unfold lhs; by destruct (fb_name b)).
  rewrite parse_assignment_app by (try done; unfold lhs; by rewrite !free_of_app, Hc, Pc).
  rewrite (trim_no_space lhs), (trim_no_space val) by done. unfold parse_wiring.
  unfold lhs. rewrite split_dot_app by done.
  rewrite update_block_mid by done. unfold with_input. cbn [fb_name fb_kind inputs outputs].
  apply sorted_snoc in Hso as [_ Hso]. by rewrite bt_insert_snoc.
Qed.

Lemma parse_output_ok blocks outs b target pin :
  ident target = true → target ≠ "BLOCK" → target ∉ map fb_name blocks →
  ident (fb_name b) = true → fb_name b ∈ map fb_name blocks → word pin = true →
  parse_line (blocks, outs) (output_line b (target, pin)) =
  Ok (blocks, outs ++ [(target, fb_name b +:+ "." +:+ pin)]).
Proof.
  intros [(Ts & Tn & Tc)%word_inv Td]%ident_inv Hb Hf [(Hs & Hn & Hc)%word_inv Hd]%ident_inv Hin
    (Ps & Pn & _)%word_inv.
  unfold parse_line, output_line. cbn [fst snd].
  destruct (trim_end_word (target +:+ " := " +:+ fb_name b +:+ ".") pin Ps Pn) as [E Ne].
  rewrite !append_assoc in E, Ne. rewrite E, bool_decide_false by done.
  change (" := " +:+ fb_name b +:+ "." +:+ pin) with (" " +:+ (":= " +:+ fb_name b +:+ "." +:+ pin)).
  rewrite not_block_line by done.
  change (" " +:+ (":= " +:+ fb_name b +:+ "." +:+ pin)) with (" := " +:+ (fb_name b +:+ "." +:+ pin)).
  set (rhs := fb_name b +:+ "." +:+ pin).
  assert (Rs : no_space rhs = true) by (unfold rhs; by rewrite !no_space_app, Hs, Ps).
  assert (Rn : rhs ≠ "") by (unfold rhs; by destruct (fb_name b)).
  rewrite parse_assignment_app by done.
  rewrite (trim_no_space rhs), (trim_no_space target) by done. unfold parse_wiring.
  assert (split_dot target = None) as ->.
  { unfold split_dot, split_once. by rewrite str_find_none. }
  unfold rhs. rewrite split_dot_app by done. rewrite is_block_fresh by done.
  assert (existsb (is_block (fb_name b)) blocks = true) as ->; [|done].
  apply existsb_exists. apply list_elem_of_In, in_map_iff in Hin as (b' & Hn' & Hin).
  exists b'. split; [done|]. unfold is_block. by apply bool_decide_eq_true.
Qed.

(** ** All the lines *)
Lemma parse_lines_app st l1 l2 :
  parse_lines st (l1 ++ l2) = let? st' := parse_lines st l1 in parse_lines st' l2.
Proof.
  induction l1 as [|l l1 IH] in st |- *; [done|]. cbn. destruct (parse_line st l); cbn; auto.
Qed.

Lemma valid_block_inv b : valid_block b = true →
  ident (fb_name b) = true ∧ sorted (inputs b) = true ∧ sorted (outputs b) = true ∧
  Forall (λ io, word (fst io) = true ∧ word (snd io) = true) (inputs b) ∧
  Forall (λ io, ident (fst io) = true ∧ fst io ≠ "BLOCK" ∧ word (snd io) = true) (outputs b).
Proof.
  unfold valid_block. rewrite !andb_true_iff, !forallb_forall. intros [[[[H1 H2] H3] H4] H5].
  split_and!; try done; apply Forall_forall; intros [x y] Hin%list_elem_of_In.
  - apply H4 in Hin. by apply andb_true_iff in Hin.
  - apply H5 in Hin. cbn. rewrite !andb_true_iff, negb_true_iff, bool_decide_eq_false in Hin. tauto.
Qed.

Lemma sorted_prefix m1 m2 : sorted (m1 ++ m2) = true → sorted m1 = true.
Proof.
  induction m1 as [|[k v] [|[k' v'] m1] IH]; [done..|]. intros H. cbn in H |- *.
  apply andb_true_iff in H as [-> H]. by apply IH.
Qed.

Definition without_outputs (b : FbBlock) : FbBlock := mkBlock (fb_name b) (fb_kind b) (inputs b) [].

Lemma parse_inputs_ok pre b done_ins ins :
  ident (fb_name b) = true → fb_name b ∉ map fb_name pre → sorted (done_ins ++ ins) = true →
  Forall (λ io, word (fst io) = true ∧ word (snd io) = true) ins →
  parse_lines (pre ++ [mkBlock (fb_name b) (fb_kind b) done_ins []], []) (map (input_line b) ins) =
  Ok (pre ++ [mkBlock (fb_name b) (fb_kind b) (done_ins ++ ins) []], []).
Proof.
  intros Hi Hf. induction ins as [|[pin val] ins IH] in done_ins |- *; intros Hs Hw.
  - by rewrite app_nil_r.
  - inversion Hw as [|? ? [Wp Wv] Hw']; subst. cbn [map parse_lines].
    replace (done_ins ++ (pin, val) :: ins) with ((done_ins ++ [(pin, val)]) ++ ins) in *
      by (by rewrite <- app_assoc).
    rewrite parse_input_ok by (try done; by eapply sorted_prefix). by apply IH.
Qed.

Lemma parse_block_ok pre b :
  valid_block b = true → fb_name b ∉ map fb_name pre →
  parse_lines (pre, []) (block_line b :: map (input_line b) (inputs b)) =
  Ok (pre ++ [without_outputs b], []).
Proof.
  intros (Hi & Hs & _ & Hw & _)%valid_block_inv Hf. cbn [parse_lines].
  rewrite parse_block_line_ok by done. by apply (parse_inputs_ok pre b []).
Qed.

Lemma parse_all_blocks pre bs :
  Forall (λ b, valid_block b = true) bs → NoDup (map fb_name (pre ++ bs)) →
  parse_lines (pre, []) (concat (map (λ b, block_line b :: map (input_line b) (inputs b)) bs)) =
  Ok (pre ++ map without_outputs bs, []).
Proof.
  induction bs as [|b bs IH] in pre |- *; intros Hv Hn; [cbn; by rewrite app_nil_r|].
  inversion Hv as [|? ? Hb Hv']; subst. cbn [map concat]. rewrite parse_lines_app.
  rewrite parse_block_ok; [|done|].
  2: { rewrite map_app in Hn. apply NoDup_app in Hn as (_ & Hd & _).
       intros Hin. apply (Hd _ Hin). left. }
  cbn [mbind result_bind]. rewrite IH; [by rewrite <- app_assoc | done |].
  rewrite !map_app in *. cbn in *. by rewrite <- app_assoc.
Qed.

Definition out_expr (b : FbBlock) (io : string * string) : string * string :=
  (fst io, fb_name b +:+ "." +:+ snd io).

Lemma parse_outputs_ok blocks outs b l :
  ident (fb_name b) = true → fb_name b ∈ map fb_name blocks →
  Forall (λ io, ident (fst io) = true ∧ fst io ≠ "BLOCK" ∧ word (snd io) = true) l →
  Forall (λ io, fst io ∉ map fb_name blocks) l →
  parse_lines (blocks, outs) (map (output_line b) l) = Ok (blocks, outs ++ map (out_expr b) l).
Proof.
  intros Hi Hin. induction l as [|[t p] l IH] in outs |- *; intros H1 H2; [by rewrite app_nil_r|].
  inversion H1 as [|? ? (? & ? & ?) H1']; inversion H2 as [|? ? ? H2']; subst.
  cbn [map parse_lines fst snd] in *. rewrite parse_output_ok by done. cbn [mbind result_bind].
  rewrite IH by done. by rewrite <- app_assoc.
Qed.

Lemma parse_all_outputs blocks outs bs :
  Forall (λ b, valid_block b = true) bs → Forall (λ b, fb_name b ∈ map fb_name blocks) bs →
  Forall (λ b, Forall (λ io, fst io ∉ map fb_name blocks) (outputs b)) bs →
  parse_lines (blocks, outs) (concat (map (λ b, map (output_line b) (outputs b)) bs)) =
  Ok (blocks, outs ++ concat (map (λ b, map (out_expr b) (outputs b)) bs)).
Proof.
  induction bs as [|b bs IH] in outs |- *; intros Hv Hin Hf; [cbn; by rewrite app_nil_r|].
  inversion Hv as [|? ? (Hi & _ & _ & _ & Ho)%valid_block_inv Hv']; subst.
  inversion Hin; inversion Hf; subst. cbn [map concat]. rewrite parse_lines_app.
  rewrite parse_outputs_ok by done. cbn [mbind result_bind]. rewrite IH by done.
  by rewrite <- app_assoc.
Qed.

(** ** Storing the outputs *)
Lemma store_outputs_ok pre b outs l post :
  ident (fb_name b) = true → fb_name b ∉ map fb_name pre → sorted (outs ++ l) = true →
  foldl store_output (pre ++ mkBlock (fb_name b) (fb_kind b) (inputs b) outs :: post)
    (map (out_expr b) l) =
  pre ++ mkBlock (fb_name b) (fb_kind b) (inputs b) (outs ++ l) :: post.
Proof.
  intros Hi Hf. induction l as [|[t p] l IH] in outs |- *; intros Hs; [by rewrite app_nil_r|].
  replace (outs ++ (t, p) :: l) with ((outs ++ [(t, p)]) ++ l) in * by (by rewrite <- app_assoc).
  cbn [map foldl]. unfold store_output at 2. cbn [out_expr fst snd].
  rewrite split_dot_app by (by apply ident_inv in Hi as [_ ?]).
  rewrite update_block_mid by done. unfold with_output. cbn [default fb_name fb_kind inputs outputs].
  pose proof (sorted_snoc _ _ _ (sorted_prefix _ _ Hs)) as [_ Hlt]. rewrite bt_insert_snoc by done.
  by apply IH.
Qed.

Lemma store_all_outputs pre bs :
  Forall (λ b, valid_block b = true) bs → NoDup (map fb_name (pre ++ bs)) →
  foldl store_output (pre ++ map without_outputs bs)
    (concat (map (λ b, map (out_expr b) (outputs b)) bs)) = pre ++ bs.
Proof.
  induction bs as [|b bs IH] in pre |- *; intros Hv Hn; [done|].
  inversion Hv as [|? ? (Hi & _ & Hs & _ & _)%valid_block_inv Hv']; subst.
  cbn [map concat]. rewrite foldl_app. unfold without_outputs at 1.
  rewrite store_outputs_ok; [|done| |done].
  2: { rewrite map_app in Hn. apply NoDup_app in Hn as (_ & Hd & _).
       intros Hin. apply (Hd _ Hin). left. }
  cbn [app]. replace (mkBlock _ _ _ _) with b by (by destruct b).
  specialize (IH (pre ++ [b])). rewrite <- !app_assoc in IH. by apply IH.
Qed.

(** ** Round trip *)
Lemma valid_diagram_inv bs : valid_diagram bs = true →
  length bs ≠ 0%nat ∧ NoDup (map fb_name bs) ∧ Forall (λ b, valid_block b = true) bs ∧
  Forall (λ b, Forall (λ io, fst io ∉ map fb_name bs) (outputs b)) bs.
Proof.
  unfold valid_diagram. rewrite !andb_true_iff, !forallb_forall, negb_true_iff, bool_decide_eq_false.
  intros [[[H1 H2%bool_decide_eq_true] H3] H4]. split_and!; try done; apply Forall_forall.
  - intros b Hb%list_elem_of_In. by apply H3.
  - intros b Hb%list_elem_of_In. apply H4 in Hb. rewrite forallb_forall in Hb.
    apply Forall_forall. intros [t p] Hin%list_elem_of_In. apply Hb, negb_true_iff in Hin. cbn.
    intros (b' & <- & Hb')%list_elem_of_In%in_map_iff. apply not_true_iff_false in Hin. apply Hin.
    apply existsb_exists. exists b'. split; [done|]. by apply bool_decide_eq_true.
Qed.

Lemma without_outputs_names bs : map fb_name (map without_outputs bs) = map fb_name bs.
Proof. by rewrite map_map. Qed.

(** A diagram survives being written out: for blocks with distinct names,
    words for names, pins and operands, and output variables that are neither
    block names nor the keyword, the lines that declare each block with its
    input wires, followed by the output wires, parse to exactly those blocks in
    the same order, with the wires of each block. *)
Theorem diagram_roundtrip bs :
  valid_diagram bs = true → parse_blocks (diagram_lines bs) = Ok bs.
Proof.
  intros (Hne & Hnd & Hv & Hf)%valid_diagram_inv. unfold parse_blocks, diagram_lines.
  rewrite parse_lines_app, (parse_all_blocks []) by done. cbn [mbind result_bind app].
  rewrite parse_all_outputs; [|done| |by rewrite without_outputs_names].
  2: { rewrite without_outputs_names. apply Forall_forall. intros b Hb%list_elem_of_In.
       apply list_elem_of_In. by apply in_map. }
  cbn [mbind result_bind app].
  pose proof (store_all_outputs [] bs Hv Hnd) as Hs. cbn [app] in Hs. rewrite Hs. by destruct bs.
Qed.

(** The diagram of the crate's test of the IL of an on-delay timer. *)
Definition ton_diagram : list FbBlock :=
  [mkBlock "ton1" Ton [("IN", "x"); ("PT", "500")] [("result", "Q")]].

Lemma diagram_roundtrip_witness :
  valid_diagram ton_diagram = true ∧ parse_blocks (diagram_lines ton_diagram) = Ok ton_diagram.
Proof.
  assert (H : valid_diagram ton_diagram = true) by (vm_compute; reflexivity).
  split; [exact H | apply (diagram_roundtrip ton_diagram H)].
Defined.

(** ** What a compiled diagram does *)
Definition ton_program : HalProgram :=
  match IlCodegen.il_compile (generate_il ton_diagram) with
  | Some (Ok p) => p
  | _ => mkProgram "" [] [] [] []
  end.

(** The block is a [CAL] of a label that does not exist; 500 is a signal. *)
Lemma ton_il : IlSyntax.parse (IlSyntax.tokenize (generate_il ton_diagram)) =
  [IlSyntax.ILoad "x"; IlSyntax.IStore "ton1.IN"; IlSyntax.ILoad "500"; IlSyntax.IStore "ton1.PT";
   IlSyntax.ICall "ton1"; IlSyntax.ILoad "ton1.Q"; IlSyntax.IStore "result"].
Proof. vm_compute. reflexivity. Qed.

(** A compiled block is never evaluated: the program of a diagram with an
    on-delay timer, run with either value of its input, stops at the [CAL] of the
    block (whose name is not a label): the input pin has been written, the output
    variable has not, and no timer instance exists. *)
Theorem diagram_output_never_written `{HB : BuildProfile} b :
  match run_to_halt 20 (mkExecutor (with_signals vm_new {["x" := VBool b]}) ton_program debug_new) with
  | Done e _ => signals (vm e) !! "result" = None ∧ signals (vm e) !! "ton1.IN" = Some (VBool b) ∧
      timers (vm e) = []
  | _ => False
  end.
Proof. destruct b; vm_compute; auto. Qed.
