(* ===== verification/CommonTypes.v ===== *)
(** * Runtime common types ([audesys-runtime-common/src/types.rs])

    Roles, session tokens, health checks and audit records shared by the
    processes of the runtime. *)
From S2P Require Import Prelude.
Local Open Scope Z_scope.

Inductive Role := Operator | Engineer | Supervisor | Auditor | Hmi | System.
#[export] Instance Role_eq_dec : EqDecision Role.
Proof. solve_decision. Defined.
#[export] Instance Role_finite : finite.Finite Role.
Proof.
  refine {| finite.enum := [Operator; Engineer; Supervisor; Auditor; Hmi; System] |}.
  - by apply (bool_decide_unpack _); vm_compute.
  - intros []; apply (bool_decide_unpack _); by vm_compute.
Defined.

Record SourceId := mkSource { process_name : string; pid : Z }.
#[export] Instance SourceId_eq_dec : EqDecision SourceId.
Proof. solve_decision. Defined.

Record SessionToken := mkToken {
  token_id : string; t_role : Role; source : SourceId; issued_at : Z; expires_at : Z }.

Inductive AuthResult := Valid | Expired | Revoked | InvalidSource | RateLimited.

Record Authorizer := mkAuthorizer { a_role : Role; allowed_actions : list string }.
Definition can (a : Authorizer) (action : string) : bool :=
  existsb (fun x => bool_decide (x = action)) (allowed_actions a).

Inductive IpcMessage :=
  | MsgAuthRequest (pid : Z)
  | MsgConfigCommand (cmd_data : list Z)
  | MsgReadSignal (signal_name : string)
  | MsgWriteSignal (signal_name : string) (value_data : list Z)
  | MsgHealthQuery
  | MsgSignalSnapshot (pattern : string).

(** ** Health checks *)
Inductive HealthStatus :=
  | Healthy | Degraded (reason : string) | Unhealthy (reason : string) | Starting | Stopping.
#[export] Instance HealthStatus_eq_dec : EqDecision HealthStatus.
Proof. solve_decision. Defined.

(** A check with the status it reports when it is run. *)
Record HealthCheck := mkCheck { hc_name : string; hc_check : HealthStatus; interval_ms : Z }.
Definition HealthCheckRegistry : Type := list HealthCheck.

Definition register (r : HealthCheckRegistry) (c : HealthCheck) : HealthCheckRegistry := r ++ [c].
Definition run_all (r : HealthCheckRegistry) : list (string * HealthStatus) :=
  map (fun c => (hc_name c, hc_check c)) r.

(** The loop of [aggregate]: [None] is the early return of an unhealthy check. *)
Fixpoint aggregate_loop (starting stopping : bool) (degraded : option string) (r : HealthCheckRegistry)
  : HealthStatus :=
  match r with
  | [] =>
      match degraded with
      | Some reason => Degraded reason
      | None => if starting then Starting else if stopping then Stopping else Healthy
      end
  | c :: r =>
      match hc_check c with
      | Unhealthy reason => Unhealthy reason
      | Degraded reason => aggregate_loop starting stopping (Some reason) r
      | Starting => aggregate_loop true stopping degraded r
      | Stopping => aggregate_loop starting true degraded r
      | Healthy => aggregate_loop starting stopping degraded r
      end
  end.
Definition aggregate (r : HealthCheckRegistry) : HealthStatus := aggregate_loop false false None r.

(** ** Audit log *)
Inductive AuditResult := Allowed | Denied (reason : string) | Failed (reason : string).
Record AuditEvent := mkEvent {
  ev_timestamp : Z; actor : SourceId; action : string; target : string; ev_result : AuditResult }.

Definition InMemoryAuditLog : Type := list AuditEvent.
Definition log (l : InMemoryAuditLog) (e : AuditEvent) : InMemoryAuditLog := l ++ [e].
Definition query (l : InMemoryAuditLog) (s : SourceId) (limit : nat) : list AuditEvent :=
  take limit (List.filter (fun e => bool_decide (actor e = s)) (rev l)).
Definition query_all (l : InMemoryAuditLog) (limit : nat) : list AuditEvent := take limit (rev l).

(** ** Facts *)

(** How bad a status is. *)
Definition severity (s : HealthStatus) : nat :=
  match s with Healthy => 0 | Stopping => 1 | Starting => 2 | Degraded _ => 3 | Unhealthy _ => 4 end.
Definition worst (l : list HealthStatus) : nat := foldr max 0%nat (map severity l).

Lemma aggregate_loop_severity st sp dg r :
  severity (aggregate_loop st sp dg r) =
  max (worst (map hc_check r))
    (match dg with Some _ => 3 | None => if st then 2 else if sp then 1 else 0 end)%nat.
Proof.
  induction r as [|c r IH] in st, sp, dg |- *; [by destruct dg, st, sp|].
  cbn [map aggregate_loop]. change (worst (?x :: ?l)) with (severity x `max` worst l)%nat.
  assert (worst (map hc_check r) <= 4)%nat.
  { clear. induction r as [|c r IH]; [cbn; lia|]. cbn. fold (worst (map hc_check r)).
    destruct (hc_check c); cbn in *; lia. }
  destruct (hc_check c); rewrite ?IH; cbn; destruct dg, st, sp; lia.
Qed.

(** The aggregate status is as bad as the worst check, in the order
    healthy, stopping, starting, degraded, unhealthy. *)
Theorem aggregate_is_worst r :
  severity (aggregate r) = worst (map hc_check r).
Proof. unfold aggregate. rewrite aggregate_loop_severity. lia. Qed.
