(* ===== verification/EngineThread.v ===== *)
(** * The engine's thread and handle ([audesys-runtime/src/engine.rs])

    What [Engine] leaves out of the engine: the two loops at the head of the
    thread that wait while the engine is paused, load by load, interleaved with
    the stores of the control operations, and the cycle as something that may or
    may not be over by a step; the deadlines of the cycles; and the
    parts of the engine that do not take part in the cycle (health registry,
    identity, start time, push targets). *)
From S2P Require Import Prelude HalTypes HalValue Vm Executor Transport Qos Middleware Signals Engine CommonTypes Lifecycle.
Local Open Scope Z_scope.

(** ** The pause gate

    The thread's position: [AtG1*] are the three loads of the first waiting
    loop, [AtCheck] the test of [running] after it, [AtG2*] the two loads of the
    second loop, [AtClear] the store to [step_requested], [AtCycle] the cycle
    and the sleep after it, in which the thread may stay for any number of steps.
    Sleeps of a millisecond are not steps. *)
Inductive GatePc := AtTop | AtG1Running | AtG1Paused | AtG1Step | AtCheck | AtG2Paused | AtG2Step
  | AtClear | AtCycle | AtEnd.
#[export] Instance GatePc_eq_dec : EqDecision GatePc.
Proof. solve_decision. Defined.

(** The shared flags. *)
Record Flags := mkFlags { fl_running : bool; fl_paused : bool; fl_step : bool }.
Record Thread := mkThread { pc : GatePc; flags : Flags }.

(** What a step finds of the cycle it is in: still at it, over, or the thread
    unwinding from a panic. *)
Inductive Progress := StillRunning | CycleOver | CyclePanic.

(** One load or store of the thread, or a step inside a cycle; the flag tells
    that a cycle is over. *)
Definition thread_step (c : Progress) (t : Thread) : Thread * bool :=
  let f := flags t in
  let goto p := (mkThread p f, false) in
  match pc t with
  | AtTop => goto (if fl_running f then AtG1Running else AtEnd)
  | AtG1Running => goto (if fl_running f then AtG1Paused else AtCheck)
  | AtG1Paused => goto (if fl_paused f then AtG1Step else AtCheck)
  | AtG1Step => goto (if fl_step f then AtCheck else AtG1Running)
  | AtCheck => goto (if fl_running f then AtG2Paused else AtEnd)
  | AtG2Paused => goto (if fl_paused f then AtG2Step else AtClear)
  | AtG2Step => goto (if fl_step f then AtClear else AtG2Paused)
  | AtClear => (mkThread AtCycle (mkFlags (fl_running f) (fl_paused f) false), false)
  | AtCycle =>
      match c with
      | StillRunning => (t, false)
      | CycleOver => (mkThread AtTop f, true)
      | CyclePanic => goto AtEnd
      end
  | AtEnd => (t, false)
  end.

(** The stores of the control operations; [step_cycle] makes two. *)
Inductive Store := StStop | StPause | StResume | StStep.
Definition store (s : Store) (f : Flags) : Flags :=
  match s with
  | StStop => mkFlags false (fl_paused f) (fl_step f)
  | StPause => mkFlags (fl_running f) true (fl_step f)
  | StResume => mkFlags (fl_running f) false (fl_step f)
  | StStep => mkFlags (fl_running f) (fl_paused f) true
  end.

Inductive GateStep : Thread → Thread → Prop :=
  | gate_thread t c : GateStep t (thread_step c t).1
  | gate_store t s : GateStep t (mkThread (pc t) (store s (flags t))).
Definition started : Thread := mkThread AtTop (mkFlags true false false).
Definition gate_reachable : Thread → Prop := rtc GateStep started.

(** The thread alone: its state after [n] steps, and the cycles it completed. *)
Fixpoint thread_run (prog : nat → Progress) (n : nat) (t : Thread) : Thread * nat :=
  match n with
  | O => (t, O)
  | S n =>
      let '(t, c) := thread_step (prog 0%nat) t in
      let '(t, k) := thread_run (fun i => prog (S i)) n t in (t, (if c then S k else k))
  end.
(** Cycles that take a single step. *)
Definition prompt : nat → Progress := fun _ => CycleOver.

Lemma thread_run_app prog n k t :
  thread_run prog (n + k) t =
  let '(t', c) := thread_run prog n t in
  let '(t'', c') := thread_run (fun i => prog (n + i)%nat) k t' in (t'', (c + c')%nat).
Proof.
  induction n as [|n IH] in prog, t |- *; cbn; [by destruct (thread_run _ k t)|].
  destruct (thread_step _ t) as [t1 b]. rewrite IH. destruct (thread_run _ n t1) as [t2 c2].
  cbn. destruct (thread_run _ k t2) as [t3 c3]. by destruct b.
Qed.


(** The second loop with the flags as given. *)
Definition in_second_loop (t : Thread) : Prop := pc t = AtG2Paused ∨ pc t = AtG2Step.
Definition stuck (t : Thread) : Prop :=
  in_second_loop t ∧ fl_paused (flags t) = true ∧ fl_step (flags t) = false.

Lemma stuck_step c t :
  stuck t → stuck (thread_step c t).1 ∧ (thread_step c t).2 = false ∧ flags (thread_step c t).1 = flags t.
Proof.
  destruct t as [p [r pa st]]. intros ([Hp|Hp] & Hpa & Hst); cbn in *; subst; cbn;
    (split; [split; [|by cbn]; unfold in_second_loop; cbn; tauto|done]).
Qed.

Lemma stuck_run prog n t :
  stuck t → stuck (thread_run prog n t).1 ∧ (thread_run prog n t).2 = 0%nat ∧ flags (thread_run prog n t).1 = flags t.
Proof.
  induction n as [|n IH] in prog, t |- *; intros Ht; [done|]. cbn.
  destruct (stuck_step (prog 0%nat) t Ht) as (Ht' & Hc & Hf). destruct (thread_step _ t) as [t' c]. cbn in *. subst c.
  specialize (IH (fun i => prog (S i)) t' Ht'). destruct (thread_run _ n t') as [t'' k]. cbn in *. intuition congruence.
Qed.

Lemma stuck_never_ends prog n t : stuck t → pc (thread_run prog n t).1 ≠ AtEnd.
Proof. intros Ht. destruct (stuck_run prog n t Ht) as (([Hp|Hp] & _) & _); by rewrite Hp. Qed.

(** ** Stopping *)






(** The state in which stopping fails can be reached: a pause, a resume, a
    pause that falls between the two loops and a stop leave the thread waiting
    for ever. *)
Theorem stop_can_hang :
  ∃ t, gate_reachable t ∧ fl_running (flags t) = false ∧ ∀ prog n, pc (thread_run prog n t).1 ≠ AtEnd.
Proof.
  exists (mkThread AtG2Paused (mkFlags false true false)). split; [|split; [done|]].
  - unfold gate_reachable, started.
    do 4 (eapply rtc_l; [apply (gate_thread _ CycleOver)|]; cbn).
    eapply rtc_l; [apply (gate_store _ StPause)|]. cbn.
    eapply rtc_l; [apply (gate_store _ StStop)|]. cbn. reflexivity.
  - intros prog n. apply stuck_never_ends. split; [by left | done].
Qed.

(** The first loop with the flags as given. *)
Lemma paused_loop n :
  let t := thread_run prompt n (mkThread AtG1Running (mkFlags true true false)) in
  t.2 = 0%nat ∧ flags t.1 = mkFlags true true false ∧ (pc t.1 = AtG1Running ∨ pc t.1 = AtG1Paused ∨ pc t.1 = AtG1Step).
Proof.
  cbn zeta. induction n as [|n (IH1 & IH2 & IH3)]; [cbn; auto|].
  replace (S n) with (n + 1)%nat by lia. rewrite thread_run_app.
  destruct (thread_run prompt n _) as [[p f] c]. cbn in *. subst c f.
  destruct IH3 as [-> | [-> | ->]]; cbn; auto.
Qed.

(** Without interference the gate does what the engine's loop turn says:
    from the top of the loop, if cycles end, a stopped engine ends, a paused one without a
    request comes back to the first loop without a cycle and without touching
    the flags, and any other runs one cycle, with the request cleared. *)
Theorem gate_refines_turn f :
  if negb (fl_running f) then thread_run prompt 1 (mkThread AtTop f) = (mkThread AtEnd f, 0%nat)
  else if fl_paused f && negb (fl_step f) then
    ∀ n, (thread_run prompt n (mkThread AtG1Running f)).2 = 0%nat ∧ flags (thread_run prompt n (mkThread AtG1Running f)).1 = f
  else ∃ n, thread_run prompt n (mkThread AtTop f) = (mkThread AtTop (mkFlags true (fl_paused f) false), 1%nat).
Proof.
  destruct f as [[] [] []]; cbn; try reflexivity; try (by exists 9%nat); try (by exists 8%nat); try (by exists 7%nat).
  intros n. by destruct (paused_loop n) as (? & ? & _).
Qed.

(** A step request on a paused engine runs exactly one cycle: the thread,
    waiting in the first loop, runs it and is back in that loop for good. *)
Theorem step_runs_one_cycle (n : nat) :
  let t := mkThread AtG1Running (store StStep (store StPause (mkFlags true true false))) in
  (9 <= n)%nat → (thread_run prompt n t).2 = 1%nat ∧ flags (thread_run prompt n t).1 = mkFlags true true false.
Proof.
  intros t Hn. replace n with (9 + (n - 9))%nat by lia. rewrite thread_run_app.
  assert (thread_run prompt 9 t = (mkThread AtG1Running (mkFlags true true false), 1%nat)) as -> by reflexivity.
  destruct (paused_loop (n - 9)%nat) as (H1 & H2 & _).
  change (fun i => prompt (9 + i)%nat) with prompt. destruct (thread_run prompt (n - 9)%nat _) as [t' c]. cbn in *. by subst.
Qed.

(** ** Deadlines

    Times are in nanoseconds.  An iteration of the loop reads the clock before
    it sleeps, after it has moved the deadline, and once more if it has fallen
    behind. *)
Record Readings := mkReadings { before_sleep : Z; after_sleep : Z; on_reset : Z }.

(** The time slept and the next deadline. *)
Definition pace (interval next : Z) (r : Readings) : Z * Z :=
  let slept := if before_sleep r <? next then next - before_sleep r else 0 in
  let next := next + interval in
  (slept, if next <=? after_sleep r then on_reset r + interval else next).

Fixpoint pace_run (interval next : Z) (rs : list Readings) : list Z * Z :=
  match rs with
  | [] => ([], next)
  | r :: rs =>
      let '(slept, next) := pace interval next r in
      let '(sleeps, next) := pace_run interval next rs in (slept :: sleeps, next)
  end.

(** The thread of [start], which only keeps time: the sleeps it makes while
    [running] is read as true. *)
Fixpoint start_loop (interval next : Z) (turns : list (bool * Readings)) : list Z :=
  match turns with
  | [] => []
  | (running, r) :: turns =>
      if negb running then []
      else let '(slept, next) := pace interval next r in slept :: start_loop interval next turns
  end.

(** A clock that does not go back from [t]. *)
Fixpoint clock_from (t : Z) (rs : list Readings) : Prop :=
  match rs with
  | [] => True
  | r :: rs => t <= before_sleep r <= after_sleep r ∧ after_sleep r <= on_reset r ∧ clock_from (on_reset r) rs
  end.

(** The [k]-th turn is in time if it is over before the deadline after it. *)
Definition in_time (interval t0 : Z) (rs : list Readings) : Prop :=
  ∀ k r, rs !! k = Some r → after_sleep r < t0 + Z.of_nat (S k) * interval.

(** Cycles do not drift: as long as every turn is in time, the deadline
    after [k] turns is the start plus [k] intervals, however long the turns
    took.  The first turn does not sleep, so the second cycle follows the first
    at once. *)
Theorem deadlines_exact interval t0 rs :
  clock_from t0 rs → in_time interval t0 rs →
  (pace_run interval t0 rs).2 = t0 + Z.of_nat (length rs) * interval ∧
  (∀ s, head (pace_run interval t0 rs).1 = Some s → s = 0).
Proof.
  intros Hc Ht. split.
  - clear Hc. induction rs as [|r rs IH] in t0, Ht |- *; [cbn; lia|].
    cbn [pace_run pace]. pose proof (Ht 0%nat r eq_refl) as H0. cbn in H0.
    destruct (Z.leb_spec (t0 + interval) (after_sleep r)); [lia|].
    assert (in_time interval (t0 + interval) rs) as Ht'.
    { intros k r' Hk. specialize (Ht (S k) r' Hk). lia. }
    specialize (IH _ Ht'). destruct (pace_run interval (t0 + interval) rs) as [ss n]. cbn in *. lia.
  - destruct rs as [|r rs]; [done|]. cbn in Hc. destruct Hc as [Hc _]. cbn [pace_run pace].
    destruct (Z.ltb_spec (before_sleep r) t0); [lia|].
    destruct (pace_run interval _ rs) as [ss n]. cbn. congruence.
Qed.

(** With an interval of zero, which nothing rejects, the thread never
    sleeps. *)
Theorem zero_interval_never_sleeps t0 rs :
  clock_from t0 rs → Forall (fun s => s = 0) (pace_run 0 t0 rs).1.
Proof.
  enough (∀ next, next <= t0 → clock_from t0 rs → Forall (fun s => s = 0) (pace_run 0 next rs).1) as H
    by (apply H; lia).
  induction rs as [|r rs IH] in t0 |- *; intros next Hn Hc; [by constructor|].
  cbn in Hc. destruct Hc as (H1 & H2 & Hc). cbn [pace_run pace].
  destruct (Z.ltb_spec (before_sleep r) next); [lia|].
  destruct (Z.leb_spec (next + 0) (after_sleep r)); [|lia].
  specialize (IH (on_reset r) (on_reset r + 0) ltac:(lia) Hc).
  destruct (pace_run 0 (on_reset r + 0) rs) as [ss n]. cbn in *. by constructor.
Qed.

(** A turn that is late starts over: the next deadline is an interval away, and
    no turn is made up for. *)
Lemma late_turn_skips interval next r :
  next + interval <= after_sleep r → (pace interval next r).2 = on_reset r + interval.
Proof. intros H. cbn. by rewrite (proj2 (Z.leb_le _ _)). Qed.

(** ** The handle *)
Section handle.
Context {M : Type}.

(** The table of the push targets belongs to the IPC server; the engine holds
    a reference to it. *)
Record EngineHandle := mkHandle {
  eh_engine : Engine (M := M);
  started_at : Z;
  health : HealthCheckRegistry;
  source_id : SourceId;
  signal_push_targets : option nat }.

Definition handle_new (mw : M) (lc : LifecycleManager) (now pid : Z) : EngineHandle :=
  mkHandle (engine_new mw lc) now [] (mkSource "audesys-runtime" pid) None.
Definition register_health_check (h : EngineHandle) (c : HealthCheck) : EngineHandle :=
  mkHandle (eh_engine h) (started_at h) (register (health h) c) (source_id h) (signal_push_targets h).
Definition health_status (h : EngineHandle) : HealthStatus := aggregate (health h).
Definition set_signal_push_targets (h : EngineHandle) (table : nat) : EngineHandle :=
  mkHandle (eh_engine h) (started_at h) (health h) (source_id h) (Some table).
(** [as_millis() as u64] of the time since the start. *)
Definition uptime_ms (h : EngineHandle) (now : Z) : Z :=
  wrap_u 64 (duration_since now (started_at h) / 1000000).
Definition get_cycle_count (h : EngineHandle) : Z := cycle_count (eh_engine h).
Definition get_lock_level (h : EngineHandle) : Qos.LockLevel := lock_level (eh_engine h).
Definition is_swap_committed (h : EngineHandle) : bool := swap_committed (eh_engine h).

(** Starting sets [running] and hands the thread the reference of that moment. *)
Definition start_with_cycle (h : EngineHandle) : EngineHandle * option nat :=
  (mkHandle (set_run (eh_engine h) true (paused (eh_engine h)) (step_requested (eh_engine h)))
     (started_at h) (health h) (source_id h) (signal_push_targets h), signal_push_targets h).

(** What a cycle of that thread finds in the tables. *)
Definition thread_subscriptions (table : option nat) (tables : gmap nat (gmap string (list Z)))
  : option (gmap string (list Z)) := n ← table; tables !! n.
Definition with_subscriptions (env : CycleEnv) (s : option (gmap string (list Z))) : CycleEnv :=
  mkEnv (calls env) (layout_written env) (os env) (now env) (elapsed_us env) (cycle_interval_ms env) s (vm_fuel env).

(** ** Cycles that never end

    The cycle of an engine, looked at after [n] steps of its program. *)
Definition with_fuel (env : CycleEnv) (n : nat) : CycleEnv :=
  mkEnv (calls env) (layout_written env) (os env) (now env) (elapsed_us env) (cycle_interval_ms env)
    (Engine.subscriptions env) n.
Definition cycle_progress `{HT : HalTransport M, HQ : HalQoS M, HB : BuildProfile} (env : CycleEnv) (e : Engine (M := M))
    (n : nat) : Progress :=
  match cycle (with_fuel env n) e with
  | CycleDone _ _ => CycleOver
  | CyclePanicked => CyclePanic
  | CycleBlocked | CycleOutOfFuel => StillRunning
  end.

(** A stop does not reach into a cycle: if a computed signal is registered, or
    the loaded program never halts, the thread that has entered the cycle never
    leaves it, whatever the flags are. *)
Theorem endless_cycle_survives_stop `{HT : HalTransport M, HQ : HalQoS M, HL : !AmwMiddlewareLaws M, HB : BuildProfile}
    env (e : Engine (M := M)) f :
  registry_wf (e_signals e) →
  has_computed (e_signals (configured e)) ∨
  (∃ x, hal_executor (prologue env e) = Some x ∧
        ∀ fuel, run_to_halt fuel (scan_input env (e_signals (prologue env e)) x) = OutOfFuel) →
  ∀ n, thread_run (cycle_progress env e) n (mkThread AtCycle f) = (mkThread AtCycle f, 0%nat).
Proof.
  intros Hr Hend.
  assert (∀ n, cycle_progress env e n = StillRunning) as Hp.
  { intros n. unfold cycle_progress, cycle. change (prologue (with_fuel env n) e) with (prologue env e).
    destruct (compute_phase_spec (with_fuel env n) (prologue env e)) as [[_ ->]|[Hc ->]]; [by apply prologue_wf | done |].
    destruct Hend as [Hc'|(x & Hx & Hf)]; [by apply (prologue_computed env e Hr) in Hc'|].
    unfold execute_phase. rewrite Hx. change (scan_input (with_fuel env n)) with (scan_input env).
    cbn [vm_fuel with_fuel]. by rewrite Hf. }
  intros n. revert Hp. generalize (cycle_progress env e). induction n as [|n IH]; intros prog Hp; [done|].
  cbn. rewrite Hp. cbn. by rewrite IH.
Qed.

(** Push targets count only if they are set before the thread is started:
    after a start without them every cycle pushes nothing, whatever is set or
    entered later. *)
Theorem late_targets_ignored `{HT : HalTransport M, HQ : HalQoS M, BuildProfile} h h' table tables env e e' out captured :
  signal_push_targets h = None →
  start_with_cycle h = (h', captured) →
  cycle (with_subscriptions env (thread_subscriptions captured tables)) e = CycleDone e' out →
  pushed out = [] ∧ signal_push_targets (set_signal_push_targets h' table) = Some table.
Proof.
  intros Hn [= <- <-] Hc. split; [|done]. rewrite Hn in Hc. unfold cycle in Hc. destruct (compute_phase _ _); [|done].
  destruct (execute_phase _ _) as [[e1|]|]; [|done..].
  destruct (write_barrier e1) as [e2 ds]. by injection Hc as <- <-.
Qed.
End handle.


Lemma step_runs_one_cycle_witness :
  (thread_run prompt 20 (mkThread AtG1Running (mkFlags true true true))).2 = 1%nat.
Proof. apply (step_runs_one_cycle 20). lia. Defined.

Lemma deadlines_exact_witness :
  (pace_run 10 0 [mkReadings 3 3 3; mkReadings 6 10 10; mkReadings 19 20 20]).2 = 30.
Proof.
  apply (deadlines_exact 10 0).
  - cbn. lia.
  - intros [|[|[|[]]]] r; cbn; intros [= <-]; cbn; lia.
Defined.

Lemma zero_interval_never_sleeps_witness :
  Forall (fun s => s = 0) (pace_run 0 5 [mkReadings 5 6 6; mkReadings 7 7 8]).1.
Proof. apply zero_interval_never_sleeps. cbn. lia. Defined.

Lemma late_targets_ignored_witness :
  ∃ e' out, cycle (HB := release_profile)
    (with_subscriptions demo_env (thread_subscriptions None {[ 0%nat := {[ "out" := [1] ]} ]})) loaded_engine
    = CycleDone e' out ∧ pushed out = [].
Proof.
  destruct (cycle (HB := release_profile)
    (with_subscriptions demo_env (thread_subscriptions None {[ 0%nat := {[ "out" := [1] ]} ]})) loaded_engine)
    as [e' o| | |] eqn:Hc; [|vm_compute in Hc; discriminate Hc..].
  exists e', o. split; [reflexivity|].
  exact (proj1 (late_targets_ignored (H := release_profile) (handle_new demo_mw lifecycle_new 0 1) _ 0%nat
           {[ 0%nat := {[ "out" := [1] ]} ]} demo_env loaded_engine e' o None eq_refl eq_refl Hc)).
Defined.

Lemma endless_cycle_survives_stop_witness :
  thread_run (cycle_progress (HB := release_profile) demo_env computing_engine) 1000 (mkThread AtCycle (mkFlags false false false))
  = (mkThread AtCycle (mkFlags false false false), 0%nat).
Proof.
  apply (endless_cycle_survives_stop (HB := release_profile) demo_env computing_engine).
  - exact (register_wf (e_signals loaded_engine) (mkDef "sum" TF64 (VF64 0) (SComputed (UserFn 0)))
      (register_bindings_wf _ _ registry_new_wf)).
  - left. exists "sum", (mkDef "sum" TF64 (VF64 0) (SComputed (UserFn 0))), (UserFn 0). split; [vm_compute|]; reflexivity.
Defined.
