(* ===== verification/HealthServer.v ===== *)
(** * The health endpoint ([audesys-runtime/src/health.rs])

    The texts the endpoint answers with, the routing of a request, and the
    accept loop as a function of what the listener reports.  A client that
    reads the header of a response and then as many bytes as it announces, and
    a client that scrapes the metrics, get back what the server put in. *)
From stdpp Require Import pretty.
From S2P Require Import Prelude Text TextFacts Signals CommonTypes.
Local Open Scope Z_scope.

Definition crlf : string := String.String carriage_return (String.String newline "").
Definition dquote : string := String.String double_quote "".

(** ** The texts *)
Definition counter_line (name : string) (v : Z) : string := name +:+ " " +:+ pretty v +:+ line_feed.
Definition jitter_name (i : nat) : string :=
  "audesys_cycle_jitter_us{offset=" +:+ dquote +:+ pretty (Z.of_nat i) +:+ dquote +:+ "}".

(** The buffer has 1024 cells, so the read cannot panic. *)
Definition jitter_values (m : RuntimeMetrics) : list Z :=
  default [] (ring_read JITTER_CELLS (cycle_jitter_us m)).
Definition jitter_text (jitter : list Z) : string :=
  String.concat "" (imap (fun i v => if v >? 0 then counter_line (jitter_name i) v else "") jitter).

Definition prometheus_text (m : RuntimeMetrics) : string :=
  counter_line "audesys_cycles_completed" (cycles_completed m) +:+
  counter_line "audesys_signals_published" (m_signals_published m) +:+
  counter_line "audesys_config_changes_applied" (config_changes_applied m) +:+
  counter_line "audesys_child_restarts" (child_restarts m) +:+
  counter_line "audesys_health_check_failures" (health_check_failures m) +:+
  jitter_text (jitter_values m).

Definition health_status_str (s : HealthStatus) : string :=
  match s with
  | Healthy => "healthy" | Degraded _ => "degraded" | Unhealthy _ => "unhealthy"
  | Starting => "starting" | Stopping => "stopping"
  end.
Definition health_json (s : HealthStatus) : string :=
  "{" +:+ dquote +:+ "status" +:+ dquote +:+ ":" +:+ dquote +:+ health_status_str s +:+ dquote +:+ ","
  +:+ dquote +:+ "module" +:+ dquote +:+ ":" +:+ dquote +:+ "audesys-runtime" +:+ dquote +:+ "}".

Definition ok_response (content_type body : string) : string :=
  "HTTP/1.1 200 OK" +:+ crlf +:+
  "Content-Type: " +:+ content_type +:+ crlf +:+
  "Connection: close" +:+ crlf +:+
  "Content-Length: " +:+ pretty (Z.of_nat (String.length body)) +:+ crlf +:+
  crlf +:+ body.
Definition not_found : string := "HTTP/1.1 404 Not Found" +:+ crlf +:+ crlf.

(** ** Serving one connection *)
Record HealthServer := mkHealthServer {
  health_registry : HealthCheckRegistry;
  hs_metrics : option RuntimeMetrics }.

(** [line] is what reading the request line yields: [None] for an error, the
    empty string at the end of the stream. *)
Definition request_path (line : option string) : string :=
  match line with
  | Some l => if (String.length l =? 0)%nat then "/" else default "/" (split_whitespace l !! 1%nat)
  | None => "/"
  end.

Definition respond (h : HealthServer) (line : option string) : string :=
  if String.eqb (request_path line) "/metrics" then
    match hs_metrics h with
    | Some m => ok_response "text/plain; version=0.0.4" (prometheus_text m)
    | None => not_found
    end
  else ok_response "application/json" (health_json (aggregate (health_registry h))).

(** ** The accept loop: one entry per turn, with the registry and the metrics
    as they are at that time. *)
Inductive Accept := Connection (line : option string) | WouldBlock | AcceptError.
Fixpoint accept_loop (turns : list (bool * HealthServer * Accept)) : list string :=
  match turns with
  | [] => []
  | (running, h, a) :: turns =>
      if negb running then []
      else match a with
           | Connection line => respond h line :: accept_loop turns
           | WouldBlock => accept_loop turns
           | AcceptError => []
           end
  end.

(** ** A client *)

(** The header lines, up to the empty one, and what follows. *)
Fixpoint read_head (acc : list ascii) (hs : list string) (l : list ascii) : option (list string * list ascii) :=
  match l with
  | c :: r =>
      match r with
      | d :: r' =>
          if Ascii.eqb c carriage_return && Ascii.eqb d newline
          then match acc with
               | [] => Some (rev hs, r')
               | _ => read_head [] (of_chars (rev acc) :: hs) r'
               end
          else read_head (c :: acc) hs r
      | [] => None
      end
  | [] => None
  end.
Definition header_value (name h : string) : option string :=
  if starts_with h (name +:+ ": ") then Some (str_from h (String.length (name +:+ ": "))) else None.
Definition find_header (name : string) (hs : list string) : option string := head (omap (header_value name) hs).

(** The status line, the content type and as many bytes of the body as are
    announced; a short body is an error. *)
Definition client_read (response : string) : option (string * string * string) :=
  '(hs, rest) ← read_head [] [] (chars response);
  status ← head hs;
  ty ← find_header "Content-Type" hs;
  n ← find_header "Content-Length" hs;
  n ← parse_digits (chars n);
  if (length rest <? Z.to_nat n)%nat then None
  else Some (status, ty, of_chars (take (Z.to_nat n) rest)).

Definition scrape_line (l : string) : option (string * Z) :=
  match split_whitespace l with
  | [name; v] => (fun n => (name, n)) <$> parse_number false 64 v
  | _ => None
  end.
Definition scrape (text : string) : option (list (string * Z)) := mapM scrape_line (lines text).

(** The samples a scrape should find. *)
Definition jitter_samples (jitter : list Z) : list (string * Z) :=
  omap (fun '(i, v) => if v >? 0 then Some (jitter_name i, v) else None) (imap (fun i v => (i, v)) jitter).
Definition samples (m : RuntimeMetrics) (jitter : list Z) : list (string * Z) :=
  [("audesys_cycles_completed", cycles_completed m); ("audesys_signals_published", m_signals_published m);
   ("audesys_config_changes_applied", config_changes_applied m); ("audesys_child_restarts", child_restarts m);
   ("audesys_health_check_failures", health_check_failures m)] ++ jitter_samples jitter.

(** ** Facts *)
Lemma read_head_line acc hs w l :
  forallb (fun d => negb (Ascii.eqb d carriage_return)) w = true → rev w ++ acc ≠ [] →
  read_head acc hs (w ++ carriage_return :: newline :: l) = read_head [] (of_chars (rev (rev w ++ acc)) :: hs) l.
Proof.
  revert acc. induction w as [|c w IH]; intros acc Hw Hne.
  - cbn in Hne |- *. by destruct acc.
  - cbn [forallb] in Hw. apply andb_prop in Hw as [Hc Hw]. apply negb_true_iff in Hc.
    assert (∃ d r, w ++ carriage_return :: newline :: l = d :: r) as (d & r & E)
      by (destruct w; eauto).
    change ((c :: w) ++ ?k) with (c :: (w ++ k)). cbn [read_head]. rewrite Hc. rewrite E. cbn [andb].
    rewrite <- E. cbn [rev] in Hne |- *. rewrite <- (assoc_L (++)) in Hne |- *.
    by apply IH.
Qed.

Lemma read_head_string hs w l :
  free_of carriage_return w = true → w ≠ "" →
  read_head [] hs (chars (w +:+ crlf) ++ l) = read_head [] (w :: hs) l.
Proof.
  intros Hw Hne. rewrite chars_app. change (chars crlf) with [carriage_return; newline].
  rewrite <- (assoc_L (++)). cbn [app]. rewrite read_head_line; [|exact Hw|].
  - by rewrite app_nil_r, rev_involutive, of_chars_chars.
  - rewrite app_nil_r. intros E. apply Hne. rewrite <- (of_chars_chars w), <- (rev_involutive (chars w)), E.
    done.
Qed.

Lemma header_value_hit name v : header_value name ((name +:+ ": ") +:+ v) = Some v.
Proof.
  unfold header_value. assert (starts_with ((name +:+ ": ") +:+ v) (name +:+ ": ") = true) as ->.
  { unfold starts_with. rewrite chars_app. apply starts_with_chars_app. }
  by rewrite str_from_app.
Qed.

(** The header that [client_read] sees. *)
Lemma read_head_ok ty body :
  free_of carriage_return ty = true →
  read_head [] [] (chars (ok_response ty body)) =
  Some (["HTTP/1.1 200 OK"; "Content-Type: " +:+ ty; "Connection: close";
         "Content-Length: " +:+ pretty (Z.of_nat (String.length body))], chars body).
Proof.
  intros Hty. set (n := pretty (Z.of_nat (String.length body))).
  assert (free_of carriage_return n = true) as Hn
    by (apply no_space_free; [apply pretty_no_space; lia | done]).
  assert (chars (ok_response ty body) =
          chars ("HTTP/1.1 200 OK" +:+ crlf) ++ chars (("Content-Type: " +:+ ty) +:+ crlf) ++
          chars ("Connection: close" +:+ crlf) ++ chars (("Content-Length: " +:+ n) +:+ crlf) ++
          chars crlf ++ chars body) as ->.
  { unfold ok_response. fold n. rewrite !chars_app, <- !(assoc_L (++)). done. }
  rewrite read_head_string by done.
  rewrite read_head_string; [|by rewrite free_of_app, Hty | done].
  rewrite read_head_string by done.
  rewrite read_head_string; [|by rewrite free_of_app, Hn | done].
  done.
Qed.

Lemma client_read_ok ty body :
  free_of carriage_return ty = true → client_read (ok_response ty body) = Some ("HTTP/1.1 200 OK", ty, body).
Proof.
  intros Hty. unfold client_read. rewrite read_head_ok by done. cbn [mbind option_bind head].
  set (n := pretty (Z.of_nat (String.length body))).
  assert (find_header "Content-Type" ["HTTP/1.1 200 OK"; "Content-Type: " +:+ ty; "Connection: close";
            "Content-Length: " +:+ n] = Some ty) as ->.
  { unfold find_header. cbn [omap list_omap].
    change (header_value "Content-Type" "HTTP/1.1 200 OK") with (@None string). cbn.
    change ("Content-Type: " +:+ ty) with (("Content-Type" +:+ ": ") +:+ ty). by rewrite header_value_hit. }
  assert (find_header "Content-Length" ["HTTP/1.1 200 OK"; "Content-Type: " +:+ ty; "Connection: close";
            "Content-Length: " +:+ n] = Some n) as ->.
  { unfold find_header. cbn [omap list_omap].
    change (header_value "Content-Length" "HTTP/1.1 200 OK") with (@None string).
    change (header_value "Content-Length" ("Content-Type: " +:+ ty)) with (@None string).
    change (header_value "Content-Length" "Connection: close") with (@None string). cbn.
    change ("Content-Length: " +:+ n) with (("Content-Length" +:+ ": ") +:+ n). by rewrite header_value_hit. }
  cbn [mbind option_bind]. destruct (pretty_digits (Z.of_nat (String.length body))) as (_ & _ & Hp); [lia|].
  unfold n. rewrite Hp. cbn [mbind option_bind]. rewrite Nat2Z.id, length_chars, Nat.ltb_irrefl.
  rewrite <- length_chars, take_ge by done. by rewrite of_chars_chars.
Qed.

(** A line of the metrics text is read back by the scraper. *)
Lemma no_space_no_newline s : no_space s = true → no_newline s = true.
Proof.
  unfold no_space, no_newline. rewrite !forallb_forall. intros Hs c Hc. specialize (Hs c Hc).
  apply negb_true_iff in Hs. apply negb_true_iff, bool_decide_eq_false. intros ->. discriminate Hs.
Qed.

Lemma jitter_name_no_space i : no_space (jitter_name i) = true.
Proof.
  unfold jitter_name. rewrite !no_space_app, pretty_no_space by lia. done.
Qed.

Lemma scrape_counter_line name v text :
  no_space name = true → name ≠ "" → in_u 64 v = true →
  scrape (counter_line name v +:+ text) = ((name, v) ::.) <$> scrape text.
Proof.
  intros Hname Hne Hv. apply in_u_spec in Hv as Hv'. unfold scrape, lines, counter_line.
  destruct (pretty_digits v) as (Hd & Hpne & _); [lia|]. pose proof (pretty_no_space v ltac:(lia)) as Hs.
  rewrite !chars_app, <- !(assoc_L (++)). change (chars line_feed) with [newline]. cbn [app].
  rewrite !(assoc_L (++)), lines_aux_line.
  2:{ rewrite !forallb_app. change (forallb _ (chars " ")) with true.
      change (forallb _ (chars name)) with (no_newline name).
      change (forallb _ (chars (pretty v))) with (no_newline (pretty v)).
      by rewrite !no_space_no_newline. }
  assert (of_chars (rev (strip_cr (rev ((chars name ++ chars " ") ++ chars (pretty v)) ++ [])))
          = name +:+ " " +:+ pretty v) as ->.
  { rewrite app_nil_r, rev_app_distr. destruct (rev (chars (pretty v))) as [|c l] eqn:E.
    - destruct (pretty v) eqn:Ep; [done|]. cbn in E. by destruct (rev (chars _)).
    - assert (is_digit c = true) as Hc.
      { rewrite forallb_forall in Hd. apply Hd, in_rev. rewrite E. by left. }
      cbn [app strip_cr]. rewrite bool_decide_false by (by intros ->).
      change (c :: (l ++ ?k)) with ((c :: l) ++ k). rewrite <- E, <- rev_app_distr, rev_involutive.
      by rewrite <- !chars_app, of_chars_chars, append_assoc. }
  assert (scrape_line (name +:+ " " +:+ pretty v) = Some (name, v)) as E
    by (unfold scrape_line; rewrite split_two, parse_number_pretty by done; done).
  cbn -[scrape_line]. rewrite E. cbn. by destruct (mapM scrape_line _).
Qed.

Lemma scrape_jitter k jitter :
  Forall (fun v => in_u 64 v = true) jitter →
  scrape (String.concat "" (imap (fun i v => if v >? 0 then counter_line (jitter_name (k + i)) v else "") jitter)) =
  Some (omap (fun '(i, v) => if v >? 0 then Some (jitter_name i, v) else None)
          (imap (fun i v => ((k + i)%nat, v)) jitter)).
Proof.
  intros Hj. induction Hj as [|v jitter Hv Hj IH] in k |- *; [done|].
  rewrite !imap_cons, Nat.add_0_r.
  assert (∀ a l, String.concat "" (a :: l) = a +:+ String.concat "" l) as ->.
  { intros a [|b l]; [by rewrite append_nil_r | done]. }
  rewrite (imap_ext (_ ∘ S) (fun i v => if v >? 0 then counter_line (jitter_name (S k + i)) v else ""));
    [|by intros; cbn; rewrite Nat.add_succ_r].
  rewrite (imap_ext ((fun i v => ((k + i)%nat, v)) ∘ S) (fun i v => ((S k + i)%nat, v)));
    [|by intros; cbn; rewrite Nat.add_succ_r].
  cbn [omap list_omap]. destruct (v >? 0).
  - rewrite scrape_counter_line by (done || apply jitter_name_no_space). by rewrite (IH (S k)).
  - exact (IH (S k)).
Qed.

(** The counters are 64-bit words and the buffer holds what was recorded. *)
Definition metrics_ok (vs : list Z) (m : RuntimeMetrics) : Prop :=
  in_u 64 (cycles_completed m) = true ∧ in_u 64 (m_signals_published m) = true ∧
  in_u 64 (config_changes_applied m) = true ∧ in_u 64 (child_restarts m) = true ∧
  in_u 64 (health_check_failures m) = true ∧
  Forall (fun v => in_u 64 v = true) vs ∧ ring_ok JITTER_CELLS vs (cycle_jitter_us m).

Lemma window_range n vs :
  Forall (fun v => in_u 64 v = true) vs → Forall (fun v => in_u 64 v = true) (window n vs).
Proof.
  intros Hvs. unfold window. destruct (_ <? _)%nat; [|by apply Forall_drop].
  apply Forall_app. split; [done|]. by apply Forall_replicate.
Qed.

Lemma scrape_prometheus vs m :
  metrics_ok vs m → scrape (prometheus_text m) = Some (samples m (window JITTER_CELLS vs)).
Proof.
  intros (H1 & H2 & H3 & H4 & H5 & Hvs & Hr). unfold prometheus_text.
  rewrite !scrape_counter_line by done.
  unfold jitter_values. rewrite (ring_read_ok JITTER_CELLS vs) by (done || (unfold JITTER_CELLS; lia)).
  change (default [] (Some ?w)) with w. unfold jitter_text. pose proof (scrape_jitter 0 (window JITTER_CELLS vs)) as Hj.
  cbn [Nat.add] in Hj. rewrite Hj by (by apply window_range). done.
Qed.

(** Every answer of the endpoint is framed so that a client gets exactly
    what was meant: any request but one for [/metrics] yields a 200 with the
    JSON of the aggregated status, a request for [/metrics] the metrics text,
    from which a scraper reads back the five counters and the non-zero cycle
    times among the last 1024 with their positions. *)
Theorem health_answers h line vs :
  (request_path line ≠ "/metrics" →
     client_read (respond h line) =
     Some ("HTTP/1.1 200 OK", "application/json", health_json (aggregate (health_registry h)))) ∧
  (request_path line = "/metrics" → ∀ m, hs_metrics h = Some m → metrics_ok vs m →
     ∃ text, client_read (respond h line) = Some ("HTTP/1.1 200 OK", "text/plain; version=0.0.4", text) ∧
       scrape text = Some (samples m (window JITTER_CELLS vs))).
Proof.
  unfold respond. split.
  - intros Hp. rewrite (proj2 (String.eqb_neq _ _)) by done. by apply client_read_ok.
  - intros -> m Hm Hok. rewrite String.eqb_refl, Hm. exists (prometheus_text m).
    split; [by apply client_read_ok | by apply scrape_prometheus].
Qed.

(** The status in the answer is the worst one reported: "unhealthy"
    exactly when some check is unhealthy, "degraded" exactly when none is and
    some check is degraded, "healthy" exactly when every check is healthy. *)
Theorem health_status_reported (r : HealthCheckRegistry) :
  (health_status_str (aggregate r) = "unhealthy" ↔ ∃ c reason, c ∈ r ∧ hc_check c = Unhealthy reason) ∧
  (health_status_str (aggregate r) = "healthy" ↔ ∀ c, c ∈ r → hc_check c = Healthy).
Proof.
  assert (∀ s, (health_status_str s = "unhealthy" ↔ severity s = 4%nat) ∧
               (health_status_str s = "healthy" ↔ severity s = 0%nat)) as Hs by (intros []; cbn; naive_solver).
  destruct (Hs (aggregate r)) as [-> ->]. clear Hs.
  unfold aggregate. rewrite aggregate_loop_severity, Nat.max_0_r.
  induction r as [|c r [IH1 IH2]]; cbn.
  - split; [split; [done|] | split; [|done]]; [intros (c & reason & Hc & _)|intros _ c Hc]; by apply not_elem_of_nil in Hc.
  - fold (worst (map hc_check r)). split.
    + assert (severity (hc_check c) `max` worst (map hc_check r) = 4 ↔
              severity (hc_check c) = 4 ∨ worst (map hc_check r) = 4)%nat as ->.
      { assert (worst (map hc_check r) ≤ 4)%nat.
        { clear. induction r as [|c r IH]; [cbn; lia|]. cbn. fold (worst (map hc_check r)).
          destruct (hc_check c); cbn in *; lia. }
        destruct (hc_check c); cbn; lia. }
      rewrite IH1. setoid_rewrite elem_of_cons. split.
      * intros [H|(c' & reason & Hc & H)]; [|by eauto 6].
        destruct (hc_check c) as [|?|reason| |] eqn:E; try discriminate. eauto 6.
      * intros (c' & reason & [->|Hc] & H); [left; by rewrite H | right; eauto].
    + assert (severity (hc_check c) `max` worst (map hc_check r) = 0 ↔
              severity (hc_check c) = 0 ∧ worst (map hc_check r) = 0)%nat as -> by lia.
      rewrite IH2. setoid_rewrite elem_of_cons. split.
      * intros [H Hr] c' [->|Hc]; [|by apply Hr]. by destruct (hc_check c).
      * intros H. split; [by rewrite (H c) by (by left)|]. intros c' Hc. apply H. by right.
Qed.

(** ** Witnesses *)
Definition demo_metrics : RuntimeMetrics := record_cycle_jitter (record_cycle metrics_new) 120.
Lemma demo_metrics_ok : metrics_ok [120] demo_metrics.
Proof.
  split_and!; [reflexivity..| by repeat constructor|].
  destruct (ring_push_ok JITTER_CELLS [] 120 (ring_new JITTER_CELLS)) as (b & Hb & Hok);
    [unfold JITTER_CELLS; lia | reflexivity | apply ring_new_ok |].
  unfold demo_metrics, record_cycle_jitter, record_cycle, metrics_new. cbn [cycle_jitter_us].
  rewrite Hb. exact Hok.
Defined.

Lemma health_answers_witness :
  client_read (respond (mkHealthServer [] (Some demo_metrics)) (Some "GET /healthz HTTP/1.1")) =
    Some ("HTTP/1.1 200 OK", "application/json", health_json Healthy) ∧
  ∃ text, client_read (respond (mkHealthServer [] (Some demo_metrics)) (Some "GET /metrics HTTP/1.1")) =
      Some ("HTTP/1.1 200 OK", "text/plain; version=0.0.4", text) ∧
    scrape text = Some (samples demo_metrics (window JITTER_CELLS [120])).
Proof.
  split.
  - apply (health_answers (mkHealthServer [] (Some demo_metrics)) (Some "GET /healthz HTTP/1.1") [120]).
    discriminate.
  - by apply (health_answers (mkHealthServer [] (Some demo_metrics)) (Some "GET /metrics HTTP/1.1") [120]);
      [| |apply demo_metrics_ok].
Defined.
