(* ===== verification/Process.v ===== *)
(** * Logging and the controller process ([audesys-runtime/src/{logging,main}.rs])

    The level filter and the JSON line of a record.  A JSON reader for objects
    of string members, which follows the grammar of RFC 8259 (without the
    [\u] escapes, which the logger never writes), reads back what was logged
    whenever the texts hold no control character besides line feed and tab.  Then
    the command line and the life of the process. *)
From stdpp Require Import pretty.
From S2P Require Import Prelude HalTypes HalValue HalIr FunctionBlocks Vm Executor Text TextFacts.
From S2P Require Import Transport Qos Middleware Signals Lifecycle Engine CommonTypes EngineThread.
From S2P Require Import HealthServer.
Local Open Scope Z_scope.

Inductive LogLevel := LogError | LogWarn | LogInfo | LogDebug.
#[export] Instance LogLevel_eq_dec : EqDecision LogLevel.
Proof. solve_decision. Defined.

Definition log_u8 (l : LogLevel) : Z :=
  match l with LogError => 0 | LogWarn => 1 | LogInfo => 2 | LogDebug => 3 end.

Definition level_from_str (s : string) : LogLevel :=
  let l := to_lowercase s in
  if String.eqb l "error" then LogError
  else if String.eqb l "warn" || String.eqb l "warning" then LogWarn
  else if String.eqb l "info" then LogInfo
  else if String.eqb l "debug" || String.eqb l "trace" then LogDebug
  else LogInfo.

(** The stored level: [init] with the environment variable, if it is set. *)
Definition initial_level : Z := log_u8 LogInfo.
Definition set_level (l : LogLevel) : Z := log_u8 l.
Definition init (var : option string) : Z := set_level (level_from_str (default "info" var)).

Definition level_str (l : LogLevel) : string :=
  match l with LogError => "ERROR" | LogWarn => "WARN" | LogInfo => "INFO" | LogDebug => "DEBUG" end.

Definition escaped (c : ascii) : string := String.String backslash (String.String c "").
(** The four replacements, in the source's order. *)
Definition escape (s : string) : string :=
  replace_char "009" (escaped "t")
    (replace_char newline (escaped "n")
      (replace_char double_quote (escaped double_quote)
        (replace_char backslash (escaped backslash) s))).

(** [{secs}.{millis:03}]; [secs] and [millis] are the clock's. *)
Definition pad3 (s : string) : string := of_chars (replicate (3 - String.length s) "0"%char) +:+ s.
Definition timestamp (secs millis : Z) : string := pretty secs +:+ "." +:+ pad3 (pretty millis).

Definition str_member (k v : string) : string :=
  let dq := String.String double_quote "" in dq +:+ k +:+ dq +:+ ":" +:+ dq +:+ v +:+ dq.

(** The line [emit] writes; a field is a key and its displayed value. *)
Definition emit (ts : string) (l : LogLevel) (module msg : string) (fields : list (string * string)) : string :=
  "{" +:+ str_member "ts" ts +:+ "," +:+ str_member "level" (level_str l) +:+ ","
  +:+ str_member "module" (escape module) +:+ "," +:+ str_member "msg" (escape msg)
  +:+ String.concat "" (map (fun '(k, v) => "," +:+ str_member (escape k) (escape v)) fields)
  +:+ "}" +:+ String.String newline "".

(** What [log] writes at the stored level. *)
Definition log_message (stored : Z) (ts : string) (l : LogLevel) (module msg : string)
    (fields : list (string * string)) : option string :=
  if log_u8 l >? stored then None else Some (emit ts l module msg fields).

(** ** A reader *)
Definition unescape (c : ascii) : option ascii :=
  if Ascii.eqb c double_quote || Ascii.eqb c backslash || Ascii.eqb c "/" then Some c
  else if Ascii.eqb c "n" then Some newline
  else if Ascii.eqb c "t" then Some "009"%char
  else if Ascii.eqb c "r" then Some "013"%char
  else if Ascii.eqb c "b" then Some "008"%char
  else if Ascii.eqb c "f" then Some "012"%char
  else None.
Definition is_control (c : ascii) : bool := byte_of_ascii c <? 32.

(** After the opening quote, up to the closing one. *)
Fixpoint read_string (l : list ascii) : option (list ascii * list ascii) :=
  match l with
  | [] => None
  | c :: r =>
      if Ascii.eqb c double_quote then Some ([], r)
      else if Ascii.eqb c backslash then
        match r with
        | d :: r' => x ← unescape d; '(s, k) ← read_string r'; Some (x :: s, k)
        | [] => None
        end
      else if is_control c then None
      else '(s, k) ← read_string r; Some (c :: s, k)
  end.

Definition expect_char (c : ascii) (l : list ascii) : option (list ascii) :=
  match l with d :: r => if Ascii.eqb d c then Some r else None | [] => None end.

Definition read_member (l : list ascii) : option (string * string * list ascii) :=
  l ← expect_char double_quote l; '(k, l) ← read_string l;
  l ← expect_char ":" l; l ← expect_char double_quote l; '(v, l) ← read_string l;
  Some (of_chars k, of_chars v, l).

Fixpoint read_members (fuel : nat) (l : list ascii) : option (list (string * string)) :=
  match fuel with
  | O => None
  | S fuel =>
      '(m, l) ← read_member l;
      match l with
      | c :: l =>
          if Ascii.eqb c "," then cons m <$> read_members fuel l
          else if Ascii.eqb c "}" && bool_decide (l = [newline]) then Some [m]
          else None
      | [] => None
      end
  end.
Definition read_record (line : string) : option (list (string * string)) :=
  l ← expect_char "{" (chars line); read_members (length l) l.

(** ** Escaping is one pass over the characters *)
Definition escape1 (c : ascii) : list ascii :=
  if Ascii.eqb c backslash || Ascii.eqb c double_quote then [backslash; c]
  else if Ascii.eqb c newline then [backslash; "n"%char]
  else if Ascii.eqb c "009" then [backslash; "t"%char]
  else [c].

Lemma chars_replace_char c r s :
  chars (replace_char c r s) = concat (map (fun d => if Ascii.eqb d c then chars r else [d]) (chars s)).
Proof.
  induction s as [|d s IH]; [done|]. cbn. destruct (Ascii.eqb d c); cbn; [|by rewrite IH].
  by rewrite chars_app, IH.
Qed.

Lemma concat_map_concat {A B C} (f : A → list B) (g : B → list C) l :
  concat (map g (concat (map f l))) = concat (map (fun a => concat (map g (f a))) l).
Proof. induction l as [|a l IH]; [done|]. cbn. by rewrite map_app, concat_app, IH. Qed.

Lemma chars_escape s : chars (escape s) = concat (map escape1 (chars s)).
Proof.
  unfold escape. rewrite !chars_replace_char, !concat_map_concat. f_equal. apply map_ext. intros c.
  unfold escape1. destruct (Ascii.eqb_spec c backslash) as [->|]; [done|].
  destruct (Ascii.eqb_spec c double_quote) as [->|]; [done|]. cbn -[Ascii.eqb].
  rewrite (proj2 (Ascii.eqb_neq c double_quote)) by done. cbn -[Ascii.eqb].
  destruct (Ascii.eqb_spec c newline) as [->|]; [done|]. cbn -[Ascii.eqb].
  rewrite !app_nil_r. by destruct (Ascii.eqb c "009").
Qed.

(** The control characters JSON forbids and the logger does not escape. *)
Definition loggable (s : string) : bool :=
  forallb (fun c => negb (is_control c) || Ascii.eqb c newline || Ascii.eqb c "009") (chars s).

Lemma read_escaped l k :
  forallb (fun c => negb (is_control c) || Ascii.eqb c newline || Ascii.eqb c "009") l = true →
  read_string (concat (map escape1 l) ++ double_quote :: k) = Some (l, k).
Proof.
  induction l as [|c l IH]; intros Hl; [done|].
  cbn [forallb] in Hl. apply andb_prop in Hl as [Hc Hl]. specialize (IH Hl).
  cbn [map concat]. rewrite <- (assoc_L (++)). unfold escape1 at 1.
  destruct (Ascii.eqb_spec c backslash) as [->|Hb]; [cbn; by rewrite IH|].
  destruct (Ascii.eqb_spec c double_quote) as [->|Hq]; [cbn; by rewrite IH|]. cbn [orb].
  destruct (Ascii.eqb_spec c newline) as [->|Hn]; [cbn; by rewrite IH|].
  destruct (Ascii.eqb_spec c "009"%char) as [->|Ht]; [cbn; by rewrite IH|].
  rewrite !orb_false_r in Hc. apply negb_true_iff in Hc.
  cbn [app read_string]. rewrite (proj2 (Ascii.eqb_neq c double_quote)), (proj2 (Ascii.eqb_neq c backslash)), Hc
    by done. by rewrite IH.
Qed.

(** A forbidden character makes the text unreadable. *)
Lemma read_unescaped l k :
  forallb (fun c => negb (is_control c) || Ascii.eqb c newline || Ascii.eqb c "009") l = false →
  read_string (concat (map escape1 l) ++ double_quote :: k) = None.
Proof.
  induction l as [|c l IH]; intros Hl; [done|].
  cbn [forallb] in Hl. cbn [map concat]. rewrite <- (assoc_L (++)). unfold escape1 at 1.
  destruct (Ascii.eqb_spec c backslash) as [->|Hb]; [cbn; by rewrite IH|].
  destruct (Ascii.eqb_spec c double_quote) as [->|Hq]; [cbn; by rewrite IH|]. cbn [orb].
  destruct (Ascii.eqb_spec c newline) as [->|Hn]; [cbn; by rewrite IH|].
  destruct (Ascii.eqb_spec c "009"%char) as [->|Ht]; [cbn; by rewrite IH|].
  cbn [app read_string]. rewrite (proj2 (Ascii.eqb_neq c double_quote)), (proj2 (Ascii.eqb_neq c backslash)) by done.
  rewrite !orb_false_r in Hl. destruct (is_control c); [done|]. cbn in Hl. by rewrite IH.
Qed.

Lemma read_escaped_iff l k :
  read_string (concat (map escape1 l) ++ double_quote :: k) =
  if forallb (fun c => negb (is_control c) || Ascii.eqb c newline || Ascii.eqb c "009") l
  then Some (l, k) else None.
Proof. destruct (forallb _ l) eqn:E; [by apply read_escaped | by apply read_unescaped]. Qed.

(** A member is read back when both texts can be, and refused otherwise. *)
Lemma read_member_escaped k v rest :
  read_member (chars (str_member (escape k) (escape v)) ++ rest) =
  if loggable k && loggable v then Some (k, v, rest) else None.
Proof.
  assert (chars (str_member (escape k) (escape v)) ++ rest =
          double_quote :: concat (map escape1 (chars k)) ++ double_quote :: ":"%char :: double_quote
            :: concat (map escape1 (chars v)) ++ double_quote :: rest) as ->.
  { unfold str_member. rewrite !chars_app, !chars_escape, <- !(assoc_L (++)). done. }
  unfold read_member. cbn [expect_char]. rewrite Ascii.eqb_refl. cbn [mbind option_bind].
  rewrite read_escaped_iff. change (forallb _ (chars k)) with (loggable k).
  destruct (loggable k); [|done]. cbn [mbind option_bind expect_char andb]. rewrite !Ascii.eqb_refl.
  cbn [mbind option_bind expect_char]. rewrite Ascii.eqb_refl. cbn [mbind option_bind].
  rewrite read_escaped_iff. change (forallb _ (chars v)) with (loggable v).
  destruct (loggable v); [|done]. cbn [mbind option_bind]. by rewrite !of_chars_chars.
Qed.

Definition member_text (m : string * string) : string := str_member (escape m.1) (escape m.2).
Definition member_loggable (m : string * string) : bool := loggable m.1 && loggable m.2.
Definition more_members (ms : list (string * string)) : string :=
  String.concat "" (map (fun m => "," +:+ member_text m) ms).

Lemma more_members_cons m ms : more_members (m :: ms) = "," +:+ member_text m +:+ more_members ms.
Proof.
  unfold more_members. cbn [map]. destruct ms; cbn -[member_text]; by rewrite ?append_nil_r.
Qed.

Lemma read_members_text fuel m ms :
  (length ms < fuel)%nat →
  read_members fuel (chars (member_text m) ++ chars (more_members ms) ++ ["}"%char; newline]) =
  if forallb member_loggable (m :: ms) then Some (m :: ms) else None.
Proof.
  intros Hf. induction ms as [|m' ms IH] in fuel, m, Hf |- *; destruct fuel as [|fuel]; cbn in Hf; try lia;
    cbn [read_members]; unfold member_text at 1; rewrite read_member_escaped; cbn [forallb];
    change (loggable m.1 && loggable m.2) with (member_loggable m); destruct (member_loggable m); try done.
  - cbn. by destruct m.
  - cbn [mbind option_bind]. rewrite more_members_cons, !chars_app. cbn [chars app].
    change (("," =? ",")%char) with true. cbn iota. rewrite <- (assoc_L (++)), IH by lia.
    rewrite <- surjective_pairing. cbn [forallb andb]. by destruct (member_loggable m' && _).
Qed.

Lemma length_member_text m : (0 < length (chars (member_text m)))%nat.
Proof. unfold member_text, str_member. rewrite chars_app, length_app. cbn. lia. Qed.

Lemma length_more_members ms : (length ms <= length (chars (more_members ms)))%nat.
Proof.
  induction ms as [|m ms IH]; [cbn; lia|]. rewrite more_members_cons, !chars_app, !length_app. cbn [length chars]. lia.
Qed.

(** Texts without quotes, backslashes and control characters are their own
    escapes. *)
Definition plain_text (s : string) : bool :=
  forallb (fun c => negb (is_control c) && negb (Ascii.eqb c backslash) && negb (Ascii.eqb c double_quote)) (chars s).

Lemma escape_plain s : plain_text s = true → escape s = s.
Proof.
  intros Hs. apply chars_inj. rewrite chars_escape. unfold plain_text in Hs.
  induction (chars s) as [|c l IH]; [done|]. cbn [forallb map concat] in *. breflect.
  rewrite IH by done. unfold escape1.
  destruct (Ascii.eqb_spec c backslash); [done|]. destruct (Ascii.eqb_spec c double_quote); [done|].
  destruct (Ascii.eqb_spec c newline) as [->|]; [done|].
  by destruct (Ascii.eqb_spec c "009") as [->|].
Qed.

Lemma plain_loggable s : plain_text s = true → loggable s = true.
Proof.
  unfold plain_text, loggable. rewrite !forallb_forall. intros Hs c Hc. specialize (Hs c Hc).
  apply andb_prop in Hs as [Hs _]. apply andb_prop in Hs as [-> _]. done.
Qed.

Lemma digits_plain l : forallb is_digit l = true → plain_text (of_chars l) = true.
Proof.
  unfold plain_text. rewrite chars_of_chars, !forallb_forall. intros Hl c Hc. specialize (Hl c Hc). revert Hl.
  clear. destruct c as [[] [] [] [] [] [] [] []]; vm_compute; congruence.
Qed.

Lemma plain_app a b : plain_text (a +:+ b) = plain_text a && plain_text b.
Proof. unfold plain_text. by rewrite chars_app, forallb_app. Qed.

Lemma pretty_plain n : 0 ≤ n → plain_text (pretty n) = true.
Proof.
  intros Hn. destruct (pretty_digits n Hn) as (Hd & _). rewrite <- (of_chars_chars (pretty n)).
  by apply digits_plain.
Qed.

Lemma timestamp_plain secs millis : 0 ≤ secs → 0 ≤ millis → plain_text (timestamp secs millis) = true.
Proof.
  intros Hs Hm. unfold timestamp, pad3. rewrite !plain_app, !pretty_plain by done.
  rewrite digits_plain; [done|]. apply forallb_forall. intros c Hc.
  apply repeat_spec in Hc || (apply list_elem_of_In, elem_of_replicate in Hc as [-> _]). done.
Qed.

(** A log line is one JSON object on one line that gives back what was
    logged: reading it yields the time stamp, the level, the module, the message
    and the fields in order, with their texts unescaped.  This holds exactly
    when the texts contain no control character but line feed and tab; any other
    one (a carriage return, say) is written raw and makes the line invalid JSON. *)
Theorem log_line_roundtrip secs millis l module msg fields :
  0 ≤ secs → 0 ≤ millis →
  read_record (emit (timestamp secs millis) l module msg fields) =
  if loggable module && loggable msg && forallb member_loggable fields
  then Some ([("ts", timestamp secs millis); ("level", level_str l); ("module", module); ("msg", msg)] ++ fields)
  else None.
Proof.
  intros Hs Hm. pose proof (timestamp_plain secs millis Hs Hm) as Hts.
  set (ts := timestamp secs millis) in *. unfold read_record.
  set (ms := [("level", level_str l); ("module", module); ("msg", msg)] ++ fields).
  assert (chars (emit ts l module msg fields) =
          "{"%char :: chars (member_text ("ts", ts)) ++ chars (more_members ms) ++ ["}"%char; newline]) as ->.
  { unfold ms. cbn [app]. rewrite !more_members_cons. unfold member_text. cbn [fst snd].
    rewrite !(escape_plain _ Hts), (escape_plain (level_str l)) by (by destruct l).
    rewrite !(escape_plain "ts"), !(escape_plain "level"), !(escape_plain "module"), !(escape_plain "msg") by done.
    unfold emit. change (String.concat "" (map _ fields)) with (String.concat "" (map (fun '(k, v) =>
      "," +:+ str_member (escape k) (escape v)) fields)).
    rewrite (map_ext (fun '(k, v) => "," +:+ str_member (escape k) (escape v))
      (fun m => "," +:+ member_text m)) by (by intros []).
    fold (more_members fields). rewrite !chars_app, <- !(assoc_L (++)). done. }
  cbn [expect_char]. rewrite Ascii.eqb_refl. cbn [mbind option_bind].
  rewrite read_members_text.
  2:{ rewrite !length_app. pose proof (length_member_text ("ts", ts)). pose proof (length_more_members ms). lia. }
  unfold ms. cbn [app forallb]. unfold member_loggable at 1 2 3 4. cbn [fst snd].
  rewrite (plain_loggable ts Hts), (plain_loggable (level_str l)) by (by destruct l).
  change (loggable "ts") with true. change (loggable "level") with true.
  change (loggable "module") with true. change (loggable "msg") with true. cbn [andb].
  by rewrite andb_assoc.
Qed.

(** ** Witnesses *)
Lemma log_line_roundtrip_witness :
  read_record (emit (timestamp 1721298600 5) LogWarn "main" (String.String newline "a") [("n", "\")]) =
  Some [("ts", "1721298600.005"); ("level", "WARN"); ("module", "main"); ("msg", String.String newline "a"); ("n", "\")]
  ∧ read_record (emit (timestamp 1 2) LogWarn "main" (String.String carriage_return "") []) = None.
Proof.
  split; rewrite log_line_roundtrip by lia; reflexivity.
Defined.

(** A record is written exactly when its level is at most the stored one,
    so every level enables the ones before it; the environment variable is read
    without regard to case and anything unknown counts as "info". *)
Theorem log_filter_monotone var ts l l' module msg fields :
  log_u8 l ≤ log_u8 l' →
  is_Some (log_message (init var) ts l' module msg fields) →
  log_message (init var) ts l module msg fields = Some (emit ts l module msg fields) ∧
  log_message (init var) ts LogError module msg fields = Some (emit ts LogError module msg fields).
Proof.
  unfold log_message. intros Hl. destruct (Z.gtb_spec (log_u8 l') (init var)); [by intros [? ?]|]. intros _.
  destruct (Z.gtb_spec (log_u8 l) (init var)); [lia|]. split; [done|].
  destruct (Z.gtb_spec (log_u8 LogError) (init var)) as [H1|H1]; [|done].
  unfold init, set_level in H1. by destruct (level_from_str _).
Qed.

Lemma log_filter_monotone_witness :
  log_message (init (Some "WARNING")) "0.000" LogInfo "m" "x" [] = None ∧
  is_Some (log_message (init (Some "WARNING")) "0.000" LogError "m" "x" []).
Proof.
  split; [reflexivity|].
  destruct (log_filter_monotone (Some "WARNING") "0.000" LogError LogWarn "m" "x" []) as [-> _];
    [cbn; lia | by eexists | by eexists].
Defined.

(** ** The controller process ([audesys-runtime/src/main.rs])

    The command line, and the order in which the services are started and
    stopped on every path.  The process never spawns a child and its health
    endpoint reads a registry whose only check is always healthy. *)
Definition DEFAULT_SOCKET_PATH : string := "/tmp/audesys-runtime.sock".
Definition DEFAULT_HEALTH_PORT : Z := 9000.
Definition DEFAULT_CYCLE_INTERVAL_MS : Z := 1000.

Definition AliveCheck : HealthCheck := mkCheck "controller-alive" Healthy 1000.

Record Args := mkArgs { a_cycle_interval_ms : Z; a_health_port : Z; a_socket_path : string }.
Definition default_args : Args := mkArgs DEFAULT_CYCLE_INTERVAL_MS DEFAULT_HEALTH_PORT DEFAULT_SOCKET_PATH.

(** The loop over the arguments after the program's name.  A value that does
    not parse is replaced by the default; an option without a value and an
    unknown word are skipped. *)
Fixpoint main_args (a : Args) (l : list string) : Args :=
  match l with
  | [] => a
  | o :: l =>
      if String.eqb o "--cycle-interval" then
        match l with
        | v :: l =>
            main_args (mkArgs (default DEFAULT_CYCLE_INTERVAL_MS (parse_number false 64 v))
                          (a_health_port a) (a_socket_path a)) l
        | [] => a
        end
      else if String.eqb o "--health-port" then
        match l with
        | v :: l =>
            main_args (mkArgs (a_cycle_interval_ms a)
                          (default DEFAULT_HEALTH_PORT (parse_number false 16 v)) (a_socket_path a)) l
        | [] => a
        end
      else if String.eqb o "--socket-path" then
        match l with
        | v :: l => main_args (mkArgs (a_cycle_interval_ms a) (a_health_port a) v) l
        | [] => a
        end
      else main_args a l
  end.

(** ** Starting and stopping *)
Inductive Service := SvEngine | SvHealth | SvIpc.
#[export] Instance Service_eq_dec : EqDecision Service.
Proof. solve_decision. Defined.

Inductive ProcessEvent :=
  | Started (s : Service)
  | WaitForInput
  | StopAndJoin (s : Service)
  | ShutdownChildren (timeout_ms : Z)
  | LogFailure (what : string)
  | Exit (code : Z).

(** [health] and [ipc] are the outcomes of binding the two endpoints. *)
Definition main_events (now : Z) (health ipc : result unit string) : list ProcessEvent :=
  match create amw_config_default now with
  | Err _ => [LogFailure "Failed to create middleware"; Exit 1]
  | Ok _ =>
      Started SvEngine ::
      match health with
      | Err _ => [LogFailure "Failed to start health server"; StopAndJoin SvEngine; Exit 1]
      | Ok _ =>
          Started SvHealth ::
          match ipc with
          | Err _ => [LogFailure "Failed to start IPC server"; StopAndJoin SvHealth; StopAndJoin SvEngine; Exit 1]
          | Ok _ => [Started SvIpc; WaitForInput; StopAndJoin SvIpc; StopAndJoin SvHealth; StopAndJoin SvEngine;
                     ShutdownChildren 5000]
          end
      end
  end.

(** The engine's handle and the health server as [main] sets them up. *)
Definition main_handle (mw : InprocMiddleware) (now pid : Z) : EngineHandle (M := InprocMiddleware) :=
  register_health_check (handle_new mw lifecycle_new now pid) AliveCheck.
Definition main_health (m : RuntimeMetrics) : HealthServer := mkHealthServer (register [] AliveCheck) (Some m).

(** ** Services nest *)
Fixpoint replay (running : list Service) (es : list ProcessEvent) : option (list Service) :=
  match es with
  | [] => Some running
  | Started s :: es => if bool_decide (s ∈ running) then None else replay (s :: running) es
  | StopAndJoin s :: es =>
      match running with
      | s' :: running => if bool_decide (s = s') then replay running es else None
      | [] => None
      end
  | _ :: es => replay running es
  end.

(** On every path the services that were started are stopped and joined in
    the reverse order, and none is left running; the creation of the middleware
    does not fail, and the children are shut down exactly on the path without an
    error. *)
Theorem main_stops_services now health ipc :
  replay [] (main_events now health ipc) = Some [] ∧
  LogFailure "Failed to create middleware" ∉ main_events now health ipc ∧
  (ShutdownChildren 5000 ∈ main_events now health ipc ↔ health = Ok tt ∧ ipc = Ok tt) ∧
  (Exit 1 ∈ main_events now health ipc ↔ ¬ (health = Ok tt ∧ ipc = Ok tt)).
Proof.
  destruct health as [[]|], ipc as [[]|]; cbn; (split; [done|]); rewrite ?elem_of_cons, ?elem_of_nil; intuition congruence.
Qed.

(** ** No children *)
Section children.
Context {HB : BuildProfile} {HD : Decoders}.
Context {M : Type} {HT : HalTransport M} {HQ : HalQoS M}.

Lemma read_barrier_lifecycle (e : Engine (M := M)) : lifecycle (read_barrier e) = lifecycle e.
Proof. unfold read_barrier. by destruct (read_all _ _ _). Qed.

Lemma prologue_lifecycle env (e : Engine (M := M)) : lifecycle (prologue env e) = lifecycle e.
Proof.
  unfold prologue. rewrite read_barrier_lifecycle.
  unfold hmi_barrier, swap_barrier, config_barrier, apply_config_now.
  destruct (e_config_queue e); [|destruct (queue_all _ _)]; cbn;
    repeat (case_match; cbn; try done).
Qed.

Lemma cycle_without_children env (e e' : Engine (M := M)) o :
  lifecycle e = [] → cycle env e = CycleDone e' o → lifecycle e' = [].
Proof.
  intros He Hc. apply cycle_inv in Hc as (e1 & Ex & -> & _).
  assert (lifecycle (prologue env e) = []) as Hp by by rewrite prologue_lifecycle.
  assert (lifecycle e1 = []) as H1.
  { unfold execute_phase in Ex. destruct (hal_executor _); [|by simplify_eq].
    destruct (run_to_halt _ _); simplify_eq; done. }
  unfold write_barrier. destruct (publish_own _ _ _) as [[mw mt] ds].
  cbn [fst]. unfold supervise. cbn. by rewrite H1.
Qed.

(** The controller supervises nothing: it starts the engine with no child
    and none of the engine's operations and cycles adds one, so that the
    supervision code never runs in the shipped process. *)
Theorem no_children_ever mw ops e :
  engine_run (engine_new mw lifecycle_new) ops = Some e → lifecycle e = [].
Proof.
  enough (∀ e0 : Engine (M := M), lifecycle e0 = [] → engine_run e0 ops = Some e → lifecycle e = []) as H
    by (by apply H).
  induction ops as [|op ops IH]; intros e0 He; cbn; [by intros [= <-]|].
  intros H. apply bind_Some in H as (e1 & H1 & H). refine (IH e1 _ H). clear IH H.
  destruct op; cbn in H1; simplify_eq; try done.
  - unfold engine_set_lock_level. by destruct (level_lt _ _).
  - unfold engine_queue_config. by destruct (level_ge _ _).
  - unfold apply_config_now. destruct (e_config_queue e0); [done|]. by destruct (queue_all _ _).
  - unfold load_hal_program. destruct (bincode_deserialize b); [|done]. by destruct (negb _).
  - unfold prepare_swap. destruct (bincode_deserialize b); [|done]. by destruct (negb _).
  - unfold commit_swap. by destruct (pending_swap e0).
  - unfold register_signal. by destruct (Signals.register _ _).
  - destruct (cycle env e0) eqn:Hc; simplify_eq. by eapply cycle_without_children.
Qed.
End children.

(** The endpoint of the controller always reports "healthy": its registry
    holds one check, which is always healthy, whatever the engine, the children
    or the engine's own registry say. *)
Theorem controller_always_healthy m line :
  request_path line ≠ "/metrics" →
  client_read (respond (main_health m) line) =
  Some ("HTTP/1.1 200 OK", "application/json", health_json Healthy).
Proof.
  intros Hp. unfold respond. rewrite (proj2 (String.eqb_neq _ _)) by done. by apply client_read_ok.
Qed.

(** Printing the arguments. *)
Definition print_args (a : Args) : list string :=
  ["--cycle-interval"; pretty (a_cycle_interval_ms a); "--health-port"; pretty (a_health_port a);
   "--socket-path"; a_socket_path a].

(** Arguments in range are taken as given, whatever came before them and
    whatever unknown words surround them. *)
Theorem args_roundtrip a a0 words :
  in_u 64 (a_cycle_interval_ms a) = true → in_u 16 (a_health_port a) = true →
  Forall (fun w => w ∉ ["--cycle-interval"; "--health-port"; "--socket-path"]) words →
  main_args a0 (print_args a ++ words) = a.
Proof.
  intros Hc Hp Hw. unfold print_args. cbn [app main_args]. cbn -[parse_number pretty].
  rewrite !parse_number_pretty by done. cbn. destruct a as [c p s]. cbn.
  generalize (mkArgs c p s) as a. intros a. induction Hw as [|w words Hw _ IH]; [done|].
  cbn. rewrite !(proj2 (String.eqb_neq w _)) by (intros ->; set_solver). done.
Qed.

(** ** Witnesses *)
Lemma no_children_ever_witness :
  ∃ e, engine_run (HB := release_profile) (HD := demo_decoders) (engine_new demo_mw lifecycle_new)
         [OpLoad [1]; OpCycle demo_env] = Some e ∧ lifecycle e = [].
Proof.
  destruct (engine_run (HB := release_profile) (HD := demo_decoders) (engine_new demo_mw lifecycle_new)
         [OpLoad [1]; OpCycle demo_env]) as [e|] eqn:Hr; [|vm_compute in Hr; discriminate Hr].
  exists e. split; [reflexivity|].
  exact (no_children_ever (HB := release_profile) (HD := demo_decoders) demo_mw _ e Hr).
Defined.

Lemma controller_always_healthy_witness :
  request_path (Some "GET /healthz HTTP/1.1") = "/healthz" ∧
  client_read (respond (main_health metrics_new) (Some "GET /healthz HTTP/1.1")) =
  Some ("HTTP/1.1 200 OK", "application/json", health_json Healthy).
Proof.
  split; [reflexivity|]. apply (controller_always_healthy metrics_new (Some "GET /healthz HTTP/1.1")).
  discriminate.
Defined.

Lemma args_roundtrip_witness :
  main_args default_args (print_args (mkArgs 5 9100 "/tmp/x.sock") ++ ["--verbose"]) = mkArgs 5 9100 "/tmp/x.sock".
Proof.
  apply (args_roundtrip (mkArgs 5 9100 "/tmp/x.sock") default_args ["--verbose"]); [reflexivity..|].
  repeat constructor. intros H. repeat (apply elem_of_cons in H as [H|H]; [discriminate H|]).
  by apply not_elem_of_nil in H.
Defined.
