(* ===== verification/IpcWire.v ===== *)
(** * The wire format of the controller's socket
    ([audesys-runtime/src/ipc.rs], framing, tokens and values)

    Requests and responses are length-prefixed frames.  A socket is read as a
    list of events, so that a read timeout in the middle of a frame is an
    event like any other.  HMAC-SHA256 is third-party code and a parameter;
    so is the formatting of floats. *)
From stdpp Require Import pretty.
From S2P Require Import Prelude Float HalTypes HalValue Encoding Text CommonTypes.
Local Open Scope Z_scope.

Definition TOKEN_WIRE_SIZE : nat := 64.
Definition HEADER_SIZE : Z := 69.
Definition DEFAULT_TOKEN_TTL_MS : Z := 3600000.
Definition AGENT_TOKEN_TTL_MS : Z := 86400000.

Definition METHOD_AUTH_REQUEST : Z := 1.
Definition METHOD_CONFIG_COMMAND : Z := 2.
Definition METHOD_READ_SIGNAL : Z := 3.
Definition METHOD_WRITE_SIGNAL : Z := 4.
Definition METHOD_HEALTH_QUERY : Z := 5.
Definition METHOD_SIGNAL_SNAPSHOT : Z := 6.
Definition METHOD_LOAD_PROGRAM : Z := 7.
Definition METHOD_LOAD_HAL_CONFIG : Z := 8.
Definition METHOD_PAUSE : Z := 9.
Definition METHOD_RESUME : Z := 10.
Definition METHOD_STEP_CYCLE : Z := 11.
Definition METHOD_SET_BREAKPOINT : Z := 12.
Definition METHOD_CLEAR_BREAKPOINT : Z := 13.
Definition METHOD_LIST_BREAKPOINTS : Z := 14.
Definition METHOD_READ_REGISTERS : Z := 15.
Definition METHOD_DEBUG_STATE : Z := 16.
Definition METHOD_PREPARE_SWAP : Z := 17.
Definition METHOD_COMMIT_SWAP : Z := 18.
Definition METHOD_ROLLBACK_SWAP : Z := 19.
Definition METHOD_SUBSCRIBE_SIGNAL : Z := 20.
Definition METHOD_UNSUBSCRIBE_SIGNAL : Z := 21.
Definition METHOD_SIGNAL_PUSH : Z := 22.
Definition METHOD_DEPLOY_HMI_LAYOUT : Z := 23.
Definition METHOD_GET_HMI_LAYOUT : Z := 24.
Definition STATUS_OK : Z := 0.
Definition STATUS_ERROR : Z := 1.

(** ** UTF-8 decoding that reports or repairs errors

    The first item of a non-empty byte list: a character of [n] bytes, [n]
    bytes that no character starts with, or a character cut off by the end. *)
Inductive Utf8Item := Utf8Char (n : nat) | Utf8Bad (n : nat) | Utf8Cut (n : nat).

Definition utf8_item (b0 : Z) (l : list Z) : Utf8Item :=
  if between 0 127 b0 then Utf8Char 1
  else if between 194 223 b0 then
    match l with
    | [] => Utf8Cut 1
    | b1 :: _ => if utf8_cont b1 then Utf8Char 2 else Utf8Bad 1
    end
  else if between 224 239 b0 then
    match l with
    | [] => Utf8Cut 1
    | b1 :: l =>
        if negb (utf8_snd b0 b1) then Utf8Bad 1
        else match l with
             | [] => Utf8Cut 2
             | b2 :: _ => if utf8_cont b2 then Utf8Char 3 else Utf8Bad 2
             end
    end
  else if between 240 244 b0 then
    match l with
    | [] => Utf8Cut 1
    | b1 :: l =>
        if negb (utf8_snd b0 b1) then Utf8Bad 1
        else match l with
             | [] => Utf8Cut 2
             | b2 :: l =>
                 if negb (utf8_cont b2) then Utf8Bad 2
                 else match l with
                      | [] => Utf8Cut 3
                      | b3 :: _ => if utf8_cont b3 then Utf8Char 4 else Utf8Bad 3
                      end
             end
    end
  else Utf8Bad 1.

Definition REPLACEMENT : list Z := [239; 191; 189].

(** [from_utf8_lossy]; each round consumes at least one byte. *)
Fixpoint lossy_loop (fuel : nat) (l : list Z) : list Z :=
  match fuel, l with
  | S fuel, b0 :: l' =>
      match utf8_item b0 l' with
      | Utf8Char n => take n l ++ lossy_loop fuel (drop n l)
      | Utf8Bad n | Utf8Cut n => REPLACEMENT ++ lossy_loop fuel (drop n l)
      end
  | _, _ => []
  end.
Definition from_utf8_lossy (l : list Z) : string := bytes_string (lossy_loop (length l) l).

(** [Utf8Error]: [valid_up_to] and [error_len], [None] when [l] is valid. *)
Fixpoint utf8_error (fuel : nat) (l : list Z) (pos : nat) : option (nat * option nat) :=
  match fuel, l with
  | S fuel, b0 :: l' =>
      match utf8_item b0 l' with
      | Utf8Char n => utf8_error fuel (drop n l) (pos + n)
      | Utf8Bad n => Some (pos, Some n)
      | Utf8Cut _ => Some (pos, None)
      end
  | _, _ => None
  end.
(** [impl Display for Utf8Error]. *)
Definition utf8_error_display (l : list Z) : string :=
  match utf8_error (length l) l 0 with
  | Some (pos, Some n) =>
      "invalid utf-8 sequence of " +:+ pretty n +:+ " bytes from index " +:+ pretty pos
  | Some (pos, None) => "incomplete utf-8 byte sequence from index " +:+ pretty pos
  | None => ""
  end.

(** ** Values *)
Definition pin_type_discriminant (t : HalPinType) : Z :=
  match t with
  | TBool => 0 | TS8 => 1 | TU8 => 2 | TS16 => 3 | TU16 => 4 | TS32 => 5 | TU32 => 6
  | TS64 => 7 | TU64 => 8 | TF32 => 9 | TF64 => 10 | TBlob => 11 | TString => 12
  end.

Definition pin_type_from_disc (d : Z) : result HalPinType string :=
  match d with
  | 0 => Ok TBool | 1 => Ok TS8 | 2 => Ok TU8 | 3 => Ok TS16 | 4 => Ok TU16
  | 5 => Ok TS32 | 6 => Ok TU32 | 7 => Ok TS64 | 8 => Ok TU64
  | 9 => Ok TF32 | 10 => Ok TF64 | 11 => Ok TBlob | 12 => Ok TString
  | _ => Err ("unknown pin type disc: " +:+ pretty d)
  end.

Definition ARRAY_MARKER : Z := 254.
Definition len32 {A} (l : list A) : list Z := le_bytes 4 (Z.of_nat (length l)).

Definition encode_hal_value (v : HalValue) : list Z :=
  match v with
  | VArray t data => ARRAY_MARKER :: len32 data ++ pin_type_discriminant t :: data
  | _ =>
      pin_type_discriminant (pin_type v) ::
      match v with
      | VBool b => [if b then 1 else 0]
      | VS8 n | VU8 n => le_bytes 1 n
      | VS16 n | VU16 n => le_bytes 2 n
      | VS32 n | VU32 n | VF32 n => le_bytes 4 n
      | VS64 n | VU64 n | VF64 n => le_bytes 8 n
      | VBlob data => len32 data ++ data
      | VString s => len32 (string_bytes s) ++ string_bytes s
      | VArray _ _ => []
      end
  end.

Definition need (data : list Z) (n : nat) : result unit string :=
  if (length data <? n)%nat
  then Err ("need " +:+ pretty n +:+ " bytes, have " +:+ pretty (length data))
  else Ok tt.

(** [read4], [read8] and the two-byte reads: the first [n] bytes. *)
Definition read_n (n : nat) (data : list Z) : result (list Z) string :=
  let? _ := need data n in Ok (take n data).

Definition decode_hal_value (data : list Z) : result (HalValue * nat) string :=
  match data with
  | [] => Err "empty value data"
  | type_disc :: rest =>
      let unsigned n (c : Z → HalValue) : result (HalValue * nat) string :=
        let? arr := read_n n rest in Ok (c (of_le_bytes arr), (1 + n)%nat) in
      let signed n (c : Z → HalValue) : result (HalValue * nat) string :=
        let? arr := read_n n rest in
        Ok (c (wrap_s (8 * Z.of_nat n) (of_le_bytes arr)), (1 + n)%nat) in
      match type_disc with
      | 0 => Ok (VBool (negb (nth 0 rest 0 =? 0)), 2%nat)
      | 1 => signed 1%nat VS8
      | 2 => unsigned 1%nat VU8
      | 3 => signed 2%nat VS16
      | 4 => unsigned 2%nat VU16
      | 5 => signed 4%nat VS32
      | 6 => unsigned 4%nat VU32
      | 7 => signed 8%nat VS64
      | 8 => unsigned 8%nat VU64
      | 9 => unsigned 4%nat VF32
      | 10 => unsigned 8%nat VF64
      | 11 =>
          let? arr := read_n 4 rest in
          let len := Z.to_nat (of_le_bytes arr) in
          let? _ := need rest (4 + len) in
          Ok (VBlob (take len (drop 4 rest)), (5 + len)%nat)
      | 12 =>
          let? arr := read_n 4 rest in
          let len := Z.to_nat (of_le_bytes arr) in
          let? _ := need rest (4 + len) in
          match from_utf8 (take len (drop 4 rest)) with
          | Some s => Ok (VString s, (5 + len)%nat)
          | None => Err ("utf8: " +:+ utf8_error_display (take len (drop 4 rest)))
          end
      | 254 =>
          let? arr := read_n 4 rest in
          let len := Z.to_nat (of_le_bytes arr) in
          let? _ := need rest (4 + 1 + len) in
          let? elem := pin_type_from_disc (nth 4 rest 0) in
          Ok (VArray elem (take len (drop 5 rest)), (6 + len)%nat)
      | _ => Err ("unknown pin type discriminant: " +:+ pretty type_disc)
      end
  end.

(** The snapshot of [METHOD_SIGNAL_SNAPSHOT]; counts and lengths are cut to 16
    bits. *)
Definition encode_snapshot_entry (name : string) (v : HalValue) : list Z :=
  le_bytes 2 (Z.of_nat (String.length name)) ++ string_bytes name ++ encode_hal_value v.
Definition encode_snapshot (signals : list (string * HalValue)) : list Z :=
  le_bytes 2 (Z.of_nat (length signals)) ++
  concat (map (fun '(n, v) => encode_snapshot_entry n v) signals).

(** ** JSON of a pushed value *)
Class FloatFormat := { exp32 : Z → string; exp64 : Z → string; debug32 : Z → string; debug64 : Z → string }.

Definition hex_digit (d : Z) : ascii :=
  if d <? 10 then ascii_of_byte (48 + d) else ascii_of_byte (87 + d).
Definition hex_byte (b : Z) : string :=
  String.String (hex_digit (b / 16)) (String.String (hex_digit (b mod 16)) "").
Definition hex (data : list Z) : string := foldr (fun b s => hex_byte b +:+ s) "" data.

Definition quoted (s : string) : string :=
  String.String double_quote s +:+ String.String double_quote "".

(** [replace('\\', "\\\\")] followed by the replacement of the quotes. *)
Definition json_escape (s : string) : string :=
  let escaped (c : ascii) := String.String backslash (String.String c "") in
  replace_char double_quote (escaped double_quote) (replace_char backslash (escaped backslash) s).

Section format.
Context `{FloatFormat}.

Definition hal_value_to_json (v : HalValue) : string :=
  match v with
  | VBool b => if b then "true" else "false"
  | VS8 n | VU8 n | VS16 n | VU16 n | VS32 n | VU32 n | VS64 n | VU64 n => pretty n
  | VF32 b => exp32 b
  | VF64 b => exp64 b
  | VBlob data => quoted (hex data)
  | VString s => quoted (json_escape s)
  | VArray t data =>
      "{" +:+ quoted "type" +:+ ":" +:+ quoted (pin_type_debug t) +:+ "," +:+
      quoted "data" +:+ ":" +:+ quoted (hex data) +:+ "}"
  end.

(** [{:?}] of a value. *)
Definition comma_list (l : list string) : string := String.concat ", " l.
Definition hal_value_debug (v : HalValue) : string :=
  match v with
  | VBool b => "Bool(" +:+ (if b then "true" else "false") +:+ ")"
  | VS8 n => "S8(" +:+ pretty n +:+ ")" | VU8 n => "U8(" +:+ pretty n +:+ ")"
  | VS16 n => "S16(" +:+ pretty n +:+ ")" | VU16 n => "U16(" +:+ pretty n +:+ ")"
  | VS32 n => "S32(" +:+ pretty n +:+ ")" | VU32 n => "U32(" +:+ pretty n +:+ ")"
  | VS64 n => "S64(" +:+ pretty n +:+ ")" | VU64 n => "U64(" +:+ pretty n +:+ ")"
  | VF32 b => "F32(" +:+ debug32 b +:+ ")"
  | VF64 b => "F64(" +:+ debug64 b +:+ ")"
  | VBlob data => "Blob([" +:+ comma_list (map pretty data) +:+ "])"
  | VString s => "String(" +:+ str_debug s +:+ ")"
  | VArray t data =>
      "Array { element_type: " +:+ pin_type_debug t +:+ ", data: [" +:+
      comma_list (map pretty data) +:+ "] }"
  end.
End format.

(** ** Frames *)
Record Reply := mkReply { r_method : Z; r_status : Z; r_payload : list Z }.
Definition error_reply (method : Z) (msg : string) : Reply :=
  mkReply method STATUS_ERROR (string_bytes msg).
Definition ok_reply (method : Z) (payload : list Z) : Reply := mkReply method STATUS_OK payload.

Section profile.
Context `{HB : BuildProfile} `{FloatFormat}.

(** [6u32 + payload.len() as u32] may overflow. *)
Definition build_response (r : Reply) : option (list Z) :=
  total ← arith false 32 (6 + wrap_u 32 (Z.of_nat (length (r_payload r))));
  Some (le_bytes 4 total ++ r_method r :: r_status r :: r_payload r).
Definition build_error_response (method : Z) (msg : string) : option (list Z) :=
  build_response (error_reply method msg).
Definition build_ok_response (method : Z) (payload : list Z) : option (list Z) :=
  build_response (ok_reply method payload).

Definition build_push_frame (signal_name : string) (v : HalValue) : option (list Z) :=
  let json := "{" +:+ quoted "signal" +:+ ":" +:+ quoted signal_name +:+ "," +:+
              quoted "value" +:+ ":" +:+ hal_value_to_json v +:+ "}" in
  build_response (mkReply METHOD_SIGNAL_PUSH 0 (string_bytes json)).
End profile.

(** What a read of the socket meets next; the end of the list is the end of
    the stream. *)
Inductive RxEvent := RxByte (b : Z) | RxTimeout | RxFailed.
Abbreviation Stream := (list RxEvent) (only parsing).
Inductive IoError := WouldBlock | UnexpectedEof | InvalidData | IoOther.

Definition Rx (A : Type) : Type := Stream → Stream * result A IoError.
#[export] Instance rx_ret : MRet Rx := fun A a s => (s, Ok a).
#[export] Instance rx_bind : MBind Rx := fun A B f m s =>
  match m s with (s, Ok a) => f a s | (s, Err e) => (s, Err e) end.

(** [Read::read_exact]: bytes read before an error are lost. *)
Fixpoint read_exact (n : nat) : Rx (list Z) :=
  match n with
  | O => mret []
  | S n => fun s =>
      match s with
      | [] => ([], Err UnexpectedEof)
      | RxTimeout :: s => (s, Err WouldBlock)
      | RxFailed :: s => (s, Err IoOther)
      | RxByte b :: s => (l ← read_exact n; mret (b :: l)) s
      end
  end.

Definition fail {A} (e : IoError) : Rx A := fun s => (s, Err e).

Record Frame := mkFrame { f_token : list Z; f_method : Z; f_payload : list Z }.

Definition read_frame : Rx Frame :=
  len_bytes ← read_exact 4;
  let frame_len := of_le_bytes len_bytes in
  if frame_len <? HEADER_SIZE then fail InvalidData
  else
    token ← read_exact TOKEN_WIRE_SIZE;
    method ← read_exact 1;
    payload ← read_exact (Z.to_nat (frame_len - HEADER_SIZE));
    mret (mkFrame token (nth 0 method 0) payload).

(** ** Roles *)
Definition role_to_u8 (r : Role) : Z :=
  match r with
  | Operator => 0 | Engineer => 1 | Supervisor => 2 | Auditor => 3 | Hmi => 5 | System => 4
  end.
Definition role_from_u8 (b : Z) : option Role :=
  match b with
  | 0 => Some Operator | 1 => Some Engineer | 2 => Some Supervisor | 3 => Some Auditor
  | 4 => Some System | _ => None
  end.
Definition role_debug (r : Role) : string :=
  match r with
  | Operator => "Operator" | Engineer => "Engineer" | Supervisor => "Supervisor"
  | Auditor => "Auditor" | Hmi => "Hmi" | System => "System"
  end.

Abbreviation Whitelist := (list (Role * list Z)) (only parsing).
Definition default_whitelist : Whitelist :=
  [(Supervisor, [0; 1000]); (Engineer, [1000]); (Operator, [1000; 1001]); (Auditor, [1000]); (System, [0])].
Definition is_uid_allowed (wl : Whitelist) (role : Role) (uid : Z) : bool :=
  match List.find (fun e => bool_decide (fst e = role)) wl with
  | Some (_, uids) => existsb (fun u => u =? uid) uids
  | None => false
  end.

Definition can_config (role : option Role) : bool :=
  match role with Some Engineer | Some Supervisor | Some System => true | _ => false end.
Definition can_read (role : option Role) : bool := bool_decide (is_Some role).
Definition can_write (role : option Role) : bool :=
  match role with Some Engineer | Some Supervisor | Some System | Some Hmi => true | _ => false end.

(** ** Session tokens *)
Class Hmac := hmac_sha256 : list Z → list Z → list Z.
(** A SHA-256 digest is 32 bytes. *)
Class HmacLaws `{Hmac} := hmac_length : ∀ k m, length (hmac_sha256 k m) = 32%nat.

Section token.
Context `{Hmac}.

(** The three [update]s of the MAC. *)
Definition token_message (session_id role expires_at_ms : Z) : list Z :=
  le_bytes 8 session_id ++ [role] ++ le_bytes 8 expires_at_ms.

Definition build_wire_token (secret : list Z) (session_id role expires_at_ms : Z) : list Z :=
  token_message session_id role expires_at_ms ++
  hmac_sha256 secret (token_message session_id role expires_at_ms) ++ replicate 15 0.

(** [now] is what [now_ms] reads. *)
Definition verify_wire_token (now : Z) (secret token : list Z) : result Z string :=
  if (length token <? TOKEN_WIRE_SIZE)%nat then Err "token too short"
  else
    let session_id := of_le_bytes (take 8 token) in
    let role := nth 8 token 0 in
    let expires_at_ms := of_le_bytes (take 8 (drop 9 token)) in
    if now >? expires_at_ms then Err "token expired"
    else if bool_decide (take 32 (drop 17 token) =
                         hmac_sha256 secret (token_message session_id role expires_at_ms))
    then Ok role
    else Err "invalid token signature".
End token.

(** ** Facts

    Values, tokens, frames and snapshots survive the trip; what a decoder
    accepts. *)

(** ** UTF-8 repair *)
Lemma utf8_item_valid b0 l :
  utf8_valid (b0 :: l) = true →
  ∃ n, utf8_item b0 l = Utf8Char (S n) ∧ utf8_valid (drop n l) = true ∧ (n ≤ length l)%nat.
Proof.
  cbn [utf8_valid]. unfold utf8_item. destruct (between 0 127 b0) eqn:E0.
  { intros H. exists 0%nat. split_and!; [done | by rewrite drop_0 | lia]. }
  destruct l as [|b1 l]; [done|]. destruct (between 194 223 b0) eqn:E1.
  { intros [-> H]%andb_true_iff. exists 1%nat. cbn. split_and!; [done | by rewrite drop_0 | lia]. }
  destruct l as [|b2 l]; [done|]. destruct (between 224 239 b0) eqn:E2.
  { intros [[-> ->]%andb_true_iff H]%andb_true_iff. exists 2%nat. cbn. split_and!; [done | by rewrite drop_0 | lia]. }
  destruct l as [|b3 l]; [done|]. rewrite !andb_true_iff. intros [[[[-> ->] ->] ->] H].
  exists 3%nat. cbn. split_and!; [done | by rewrite drop_0 | lia].
Qed.

Lemma lossy_loop_valid fuel l : (length l ≤ fuel)%nat → utf8_valid l = true → lossy_loop fuel l = l.
Proof.
  induction fuel as [|fuel IH] in l |- *; intros Hl Hv; [by destruct l; cbn in Hl; [|lia]|].
  destruct l as [|b0 l]; [done|]. cbn [lossy_loop].
  destruct (utf8_item_valid b0 l Hv) as (n & -> & Hd & Hn). cbn [firstn skipn app].
  rewrite IH; [by rewrite take_drop | | done]. cbn in Hl. rewrite length_drop. lia.
Qed.

Lemma lossy_string s : string_wf s = true → from_utf8_lossy (string_bytes s) = s.
Proof.
  intros H. unfold from_utf8_lossy. rewrite lossy_loop_valid by done. apply bytes_string_bytes.
Qed.

(** ** Values *)
Lemma read_n_app n l k : length l = n → read_n n (l ++ k) = Ok l.
Proof.
  intros H. unfold read_n, need. rewrite length_app, (proj2 (Nat.ltb_ge _ _)) by lia.
  cbn [result_bind]. by rewrite take_app_length'.
Qed.

Lemma need_ok data n : (n ≤ length data)%nat → need data n = Ok tt.
Proof. intros H. unfold need. by rewrite (proj2 (Nat.ltb_ge _ _)). Qed.

Lemma wrap_s_bytes n z : (0 < n)%nat → in_s (8 * Z.of_nat n) z = true →
  wrap_s (8 * Z.of_nat n) (of_le_bytes (le_bytes n z)) = z.
Proof.
  intros Hn Hz. rewrite of_le_bytes_le_bytes. unfold wrap_s. apply in_s_spec in Hz.
  rewrite Zplus_mod_idemp_l, Z.mod_small; [lia|].
  replace (2 ^ (8 * Z.of_nat n)) with (2 * 2 ^ (8 * Z.of_nat n - 1)); [lia|].
  rewrite <- Z.pow_succ_r by lia. f_equal. lia.
Qed.

Lemma of_bytes_u n z : in_u (8 * Z.of_nat n) z = true → of_le_bytes (le_bytes n z) = z.
Proof. intros Hz%in_u_spec. rewrite of_le_bytes_le_bytes. by apply Z.mod_small. Qed.

Lemma read_len32 {A} (l : list A) k :
  len_fits l = true →
  read_n 4 (len32 l ++ k) = Ok (len32 l) ∧ Z.to_nat (of_le_bytes (len32 l)) = length l.
Proof.
  intros H. unfold len32. rewrite read_n_app by apply le_bytes_length. split; [done|].
  rewrite of_le_bytes_le_bytes, len_mod by done. lia.
Qed.

Lemma take_drop_len32 {A} (l : list A) (d k : list Z) :
  take (length d) (drop 4 (len32 l ++ d ++ k)) = d.
Proof. unfold len32. rewrite drop_app_length' by (by rewrite le_bytes_length). apply take_app_length. Qed.

Lemma length_len32 {A} (l : list A) (k : list Z) : length (len32 l ++ k) = (4 + length k)%nat.
Proof. rewrite length_app. unfold len32. by rewrite le_bytes_length. Qed.

Lemma disc_roundtrip t : pin_type_from_disc (pin_type_discriminant t) = Ok t.
Proof. by destruct t. Qed.

Lemma decode_array_app t data k : len_fits data = true →
  decode_hal_value (encode_hal_value (VArray t data) ++ k) =
  Ok (VArray t data, length (encode_hal_value (VArray t data))).
Proof.
  intros Hd. cbn [encode_hal_value app]. cbn [decode_hal_value ARRAY_MARKER].
  rewrite <- app_assoc. destruct (read_len32 data (pin_type_discriminant t :: data ++ k) Hd) as [Hr Hn].
  cbn [app]. rewrite Hr. cbn [result_bind]. rewrite Hn.
  rewrite need_ok by (rewrite length_len32; cbn; rewrite length_app; lia). cbn [result_bind].
  unfold len32 at 1. rewrite app_nth2 by (rewrite le_bytes_length; lia). rewrite le_bytes_length.
  cbn [Nat.sub nth]. rewrite disc_roundtrip. cbn [result_bind]. f_equal. f_equal.
  f_equal. change 5%nat with (4 + 1)%nat. rewrite <- drop_drop. unfold len32.
  rewrite drop_app_length' by (by rewrite le_bytes_length). cbn [skipn]. apply take_app_length.
Qed.

Ltac scalar_value :=
  cbn [decode_hal_value encode_hal_value pin_type pin_type_discriminant app];
  rewrite read_n_app by apply le_bytes_length; cbn [result_bind];
  first [rewrite of_bytes_u by done | rewrite wrap_s_bytes by (done || lia)];
  cbn [length]; rewrite le_bytes_length; reflexivity.

Lemma decode_encode v k :
  hal_wf v = true → encodable v = true →
  decode_hal_value (encode_hal_value v ++ k) = Ok (v, length (encode_hal_value v)).
Proof.
  intros Hw He. destruct v as [b|n|n|n|n|n|n|n|n|n|n|data|s|t data].
  1: by destruct b.
  1-10: scalar_value.
  - cbn [decode_hal_value encode_hal_value pin_type pin_type_discriminant app].
    rewrite <- app_assoc. destruct (read_len32 data (data ++ k) He) as [-> Hn].
    cbn [result_bind]. rewrite Hn.
    rewrite need_ok by (rewrite length_len32, length_app; lia). cbn [result_bind].
    rewrite take_drop_len32. cbn [length]. by rewrite length_len32.
  - cbn [decode_hal_value encode_hal_value pin_type pin_type_discriminant app].
    rewrite <- app_assoc. destruct (read_len32 (string_bytes s) (string_bytes s ++ k) He) as [-> Hn].
    cbn [result_bind]. rewrite Hn.
    rewrite need_ok by (rewrite length_len32, length_app; lia). cbn [result_bind].
    rewrite take_drop_len32, from_utf8_string_bytes by done. cbn [length]. by rewrite length_len32.
  - by apply decode_array_app.
Qed.

(** A value written by the wire encoder is read back by the decoder,
    whatever follows it, and the decoder reports exactly its length: for every
    value a Rust program can hold whose blob, string or array is shorter than
    4 GiB. *)
Theorem wire_value_roundtrip v k :
  hal_wf v = true → encodable v = true →
  decode_hal_value (encode_hal_value v ++ k) = Ok (v, length (encode_hal_value v)).
Proof. apply decode_encode. Qed.

Lemma wire_value_roundtrip_witness :
  decode_hal_value (encode_hal_value (VArray TU16 [1; 0; 2; 0]) ++ [7]) =
  Ok (VArray TU16 [1; 0; 2; 0], 10%nat).
Proof. apply (wire_value_roundtrip (VArray TU16 [1; 0; 2; 0]) [7]); reflexivity. Defined.

(** A truncated Boolean is accepted, and its length overstated. *)
Lemma truncated_bool : decode_hal_value [0] = Ok (VBool false, 2%nat).
Proof. reflexivity. Qed.

(** ** Tokens *)
Section token.
Context `{HmacLaws}.

Lemma token_message_length sid role e : length (token_message sid role e) = 17%nat.
Proof. unfold token_message. by rewrite !length_app, !le_bytes_length. Qed.

Lemma build_wire_token_length secret sid role e :
  length (build_wire_token secret sid role e) = TOKEN_WIRE_SIZE.
Proof.
  unfold build_wire_token. rewrite !length_app, token_message_length, hmac_length, length_replicate. done.
Qed.

Lemma token_fields sid role e k :
  in_u 64 sid = true → in_u 64 e = true →
  let token := token_message sid role e ++ k in
  of_le_bytes (take 8 token) = sid ∧ nth 8 token 0 = role ∧ of_le_bytes (take 8 (drop 9 token)) = e.
Proof.
  intros Hs He token. unfold token, token_message. rewrite <- !app_assoc. split_and!.
  - rewrite take_app_length' by (by rewrite le_bytes_length). by apply (of_bytes_u 8).
  - rewrite app_nth2 by (rewrite le_bytes_length; lia). by rewrite le_bytes_length.
  - change 9%nat with (8 + 1)%nat. rewrite <- drop_drop, drop_app_length' by (by rewrite le_bytes_length).
    change (drop 1 ([role] ++ ?l)) with l. rewrite take_app_length' by (by rewrite le_bytes_length).
    by apply (of_bytes_u 8).
Qed.

(** Any token that starts with a signed message passes until it expires. *)
Lemma verify_signed now secret token sid role e :
  in_u 64 sid = true → in_u 64 e = true → (TOKEN_WIRE_SIZE ≤ length token)%nat →
  take 49 token = take 49 (build_wire_token secret sid role e) →
  verify_wire_token now secret token = if now >? e then Err "token expired" else Ok role.
Proof.
  intros Hs He Hl Ht. unfold verify_wire_token. replace (_ <? _)%nat with false by (symmetry; by apply Nat.ltb_ge).
  assert (token = token_message sid role e ++ hmac_sha256 secret (token_message sid role e) ++ drop 49 token) as E.
  { rewrite <- (take_drop 49 token) at 1. rewrite Ht, app_assoc. f_equal. unfold build_wire_token.
    rewrite app_assoc, take_app_length'; [done|]. by rewrite length_app, token_message_length, hmac_length. }
  rewrite E. set (k := drop 49 token). destruct (token_fields sid role e
    (hmac_sha256 secret (token_message sid role e) ++ k) Hs He) as (-> & -> & ->).
  destruct (now >? e); [done|].
  rewrite drop_app_length' by (by rewrite token_message_length).
  rewrite take_app_length' by (by rewrite hmac_length). by rewrite bool_decide_true.
Qed.

Lemma verify_build now secret sid role e :
  in_u 64 sid = true → in_u 64 e = true →
  verify_wire_token now secret (build_wire_token secret sid role e) =
  if now >? e then Err "token expired" else Ok role.
Proof. intros Hs He. apply (verify_signed _ _ _ sid); [done..| |done]. by rewrite build_wire_token_length. Qed.

Lemma le_take n (l : list Z) : bytes_wf l = true → (n ≤ length l)%nat →
  le_bytes n (of_le_bytes (take n l)) = take n l.
Proof.
  intros Hb Hl. assert (length (take n l) = n) as Hn by (rewrite length_take; lia).
  rewrite <- Hn at 1. apply le_bytes_of_le_bytes. auto with hal.
Qed.

(** The first 17 bytes of a token are its signed message. *)
Lemma token_message_take token : bytes_wf token = true → (17 ≤ length token)%nat →
  token_message (of_le_bytes (take 8 token)) (nth 8 token 0) (of_le_bytes (take 8 (drop 9 token))) =
  take 17 token.
Proof.
  intros Hb Hl. unfold token_message. rewrite le_take by (done || lia).
  rewrite le_take by (auto with hal || rewrite length_drop; lia).
  rewrite <- (take_drop 8 (take 17 token)), take_take. change (8 `min` 17)%nat with 8%nat. f_equal.
  rewrite skipn_firstn_comm. change (17 - 8)%nat with (1 + 8)%nat.
  destruct (drop 8 token) as [|x l] eqn:Ed; [apply (f_equal length) in Ed; rewrite length_drop in Ed; cbn in Ed; lia|].
  change 9%nat with (8 + 1)%nat. rewrite <- drop_drop, Ed. cbn [firstn skipn Nat.add app]. f_equal.
  rewrite <- (take_drop 8 token), app_nth2 by (rewrite length_take; lia).
  rewrite length_take, Nat.min_l by lia. by rewrite Ed.
Qed.

(** What a token that passes the check is: the first 49 bytes of a token the
    server would have built, not expired. *)
Lemma verify_sound now secret token role :
  bytes_wf token = true → verify_wire_token now secret token = Ok role →
  (TOKEN_WIRE_SIZE ≤ length token)%nat ∧ ∃ sid e, in_u 64 sid = true ∧ in_u 64 e = true ∧ now ≤ e ∧
    take 49 token = take 49 (build_wire_token secret sid role e).
Proof.
  intros Hb. unfold verify_wire_token. destruct (_ <? _)%nat eqn:El; [done|]. breflect.
  unfold TOKEN_WIRE_SIZE in El.
  destruct (now >? _) eqn:En; [done|]. case_bool_decide as Hm; [|done]. intros [= <-]. split; [done|].
  exists (of_le_bytes (take 8 token)), (of_le_bytes (take 8 (drop 9 token))). split_and!.
  - apply (of_le_bytes_in 8); [auto with hal | rewrite length_take; lia].
  - apply (of_le_bytes_in 8); [auto with hal | rewrite length_take, length_drop; lia].
  - rewrite Z.gtb_ltb in En. by apply Z.ltb_ge in En.
  - unfold build_wire_token. rewrite <- Hm, token_message_take by (done || lia).
    rewrite app_assoc, take_app_length' by (rewrite length_app, !length_take, length_drop; lia).
    rewrite <- (take_drop 17 (take 49 token)), take_take, skipn_firstn_comm. done.
Qed.
End token.

(** ** Reading a socket *)
Lemma read_exact_bytes l k : read_exact (length l) (map RxByte l ++ k) = (k, Ok l).
Proof.
  induction l as [|b l IH]; [done|]. cbn [length read_exact map app].
  unfold mbind, rx_bind. by rewrite IH.
Qed.

Lemma read_exact_n n l k : length l = n → read_exact n (map RxByte l ++ k) = (k, Ok l).
Proof. intros <-. apply read_exact_bytes. Qed.

(** Bytes read before a timeout are lost. *)
Lemma read_exact_timeout n l k : (length l < n)%nat →
  read_exact n (map RxByte l ++ RxTimeout :: k) = (k, Err WouldBlock).
Proof.
  intros H. induction l as [|b l IH] in n, H |- *; (destruct n as [|n]; [cbn in H; lia|]); [done|].
  cbn [read_exact map app]. unfold mbind, rx_bind. rewrite IH; [done|]. cbn in H. lia.
Qed.

Lemma rx_bind_ok {A B} (m : Rx A) (f : A → Rx B) s s' a :
  m s = (s', Ok a) → (m ≫= f) s = f a s'.
Proof. intros H. unfold mbind, rx_bind. by rewrite H. Qed.
