(* ===== verification/IpcServer.v ===== *)
(** * The controller's socket server ([audesys-runtime/src/ipc.rs], requests)

    Authentication, the dispatch of a request to the engine, the subscription
    table, and the threads of the server as a step relation.  One request is
    handled in two atomic steps: the dispatch up to its reply, and the cleanup
    of the subscription table at the end of the loop body.  What a request
    reads from outside (clocks, peer credentials, random ids) is a record.
    Locks are taken not to be poisoned. *)
From stdpp Require Import pretty.
From S2P Require Import Prelude Float HalTypes HalValue HalIr FunctionBlocks Vm Executor.
From S2P Require Import Text Qos Transport Middleware.
From S2P Require Import Signals Lifecycle Engine.
From S2P Require Import CommonTypes IpcWire.
Local Open Scope Z_scope.

Record SessionInfo := mkSession { session_id : Z; s_role : Role; s_expires_at_ms : Z }.

(** Sessions and the connections whose stream was cloned, by signal name. *)
Abbreviation Subscriptions := (gmap string (list (Z * nat))) (only parsing).

Record MsgEnv := mkMsgEnv {
  now_verify : Z; now_session : Z; now_auth : Z; now_secs : Z; now_micros : Z;
  random_id : Z;
  instant : Z;
  peer_cred : result (Z * Z * Z) string;
  try_clone : result unit string;
  health : list HealthCheck }.

(** One connection thread. *)
Record Conn := mkConn { conn_id : nat; session : option SessionInfo; next_session_id : Z }.
Definition conn_new (id : nat) : Conn := mkConn id None 1.
Definition set_session (c : Conn) (s : option SessionInfo) : Conn :=
  mkConn (conn_id c) s (next_session_id c).

(** ** Subscriptions *)
Definition retain_other (sid : Z) (l : list (Z * nat)) : list (Z * nat) :=
  List.filter (fun '(s, _) => negb (s =? sid)) l.

Definition subscribe (subs : Subscriptions) (name : string) (sid : Z) (conn : nat) : Subscriptions :=
  <[name := default [] (subs !! name) ++ [(sid, conn)]]> subs.

Definition unsubscribe (subs : Subscriptions) (name : string) (sid : Z) : Subscriptions :=
  match subs !! name with
  | None => subs
  | Some l =>
      match retain_other sid l with
      | [] => delete name subs
      | l => <[name := l]> subs
      end
  end.

(** The end of the loop body. *)
Definition cleanup_session (sid : Z) (subs : Subscriptions) : Subscriptions :=
  omap (fun l => match retain_other sid l with [] => None | l => Some l end) subs.

Section server.
Context {HB : BuildProfile} {HD : Decoders} {HF : FloatFormat} {HM : Hmac}.
Context {M : Type} {HT : HalTransport M} {HQ : HalQoS M}.

Record Server := mkServer { engine : Engine (M := M); subscriptions : Subscriptions }.
Definition with_engine (s : Server) (e : Engine) : Server := mkServer e (subscriptions s).
Definition with_subs (s : Server) (subs : Subscriptions) : Server := mkServer (engine s) subs.

(** What handling a request leaves: the server, the connection, the replies
    written, the callbacks run, and whether the loop body was left early
    ([continue]). *)
Record Handled := mkHandled {
  h_server : Server; h_conn : Conn; h_replies : list Reply; h_callbacks : list Delivery; h_skip : bool }.

Definition answer (s : Server) (c : Conn) (r : Reply) : Handled := mkHandled s c [r] [] false.
Definition refuse (s : Server) (c : Conn) (method : Z) (msg : string) : Handled :=
  mkHandled s c [error_reply method msg] [] true.
Definition ok_text (method : Z) (msg : string) : Reply := ok_reply method (string_bytes msg).

(** The common [match] on a [Result<(), String>]. *)
Definition answer_result (s : Server) (c : Conn) (method : Z) (okmsg : string) (r : result unit string)
  : Handled :=
  answer s c (match r with Ok _ => ok_text method okmsg | Err e => error_reply method e end).

(** ** Authentication *)
Definition handle_auth (env : MsgEnv) (c : Conn) (payload secret : list Z) (wl : list (Role * list Z))
  : option (Conn * list Reply * option SessionInfo) :=
  let fail msg := Some (c, [error_reply METHOD_AUTH_REQUEST msg], None) in
  if (length payload <? 5)%nat then fail "need 5 bytes (pid + role)"
  else
    let client_pid := of_le_bytes (take 4 payload) in
    let role_byte := nth 4 payload 0 in
    match role_from_u8 role_byte with
    | None => fail ("unknown role byte: " +:+ pretty role_byte)
    | Some requested_role =>
        match peer_cred env with
        | Err e => fail ("SO_PEERCRED: " +:+ e)
        | Ok (peer_pid, peer_uid, _) =>
            if negb (wrap_u 32 peer_pid =? client_pid) then
              fail ("pid mismatch: claimed " +:+ pretty client_pid +:+ ", actual " +:+ pretty peer_pid)
            else if negb (is_uid_allowed wl requested_role peer_uid) then
              fail ("uid " +:+ pretty peer_uid +:+ " not allowed for " +:+ role_debug requested_role)
            else
              let id := next_session_id c in
              let c := mkConn (conn_id c) (session c) (wrap_u 64 (id + 1)) in
              let ttl_ms :=
                if bool_decide (requested_role = Supervisor) then AGENT_TOKEN_TTL_MS
                else DEFAULT_TOKEN_TTL_MS in
              expires ← arith false 64 (now_auth env + ttl_ms);
              let token := build_wire_token secret id (role_to_u8 requested_role) expires in
              Some (c, [ok_reply METHOD_AUTH_REQUEST token], Some (mkSession id requested_role expires))
        end
    end.

(** ** Requests, by group *)
Definition role_of (c : Conn) : option Role := s_role <$> session c.
Definition sid_of (c : Conn) : Z := default 0 (session_id <$> session c).

Definition on_auth (env : MsgEnv) (s : Server) (c : Conn) (payload secret : list Z)
    (wl : list (Role * list Z)) : option Handled :=
  '(c, replies, sess) ← handle_auth env c payload secret wl;
  match sess with
  | Some x =>
      let token := build_wire_token secret (session_id x) (role_to_u8 (s_role x)) (s_expires_at_ms x) in
      Some (mkHandled s (set_session c (Some x)) (replies ++ [ok_reply METHOD_AUTH_REQUEST token]) [] false)
  | None => Some (mkHandled s c replies [] false)
  end.

(** [configureComponent] and [loadHalConfig]. *)
Definition on_config (env : MsgEnv) (s : Server) (c : Conn) (method : Z) (name : string) (payload : list Z)
  : Handled :=
  if negb (can_config (role_of c)) then refuse s c method "unauthorized"
  else
    let '(e, r) := engine_queue_config (engine s) (mkCmd (random_id env) name payload (instant env)) in
    answer_result (with_engine s e) c method "queued" r.

Definition on_config_command (env : MsgEnv) (s : Server) (c : Conn) (payload : list Z) : Handled :=
  on_config env s c METHOD_CONFIG_COMMAND "configureComponent" payload.
Definition on_load_hal_config (env : MsgEnv) (s : Server) (c : Conn) (payload : list Z) : Handled :=
  on_config env s c METHOD_LOAD_HAL_CONFIG "loadHalConfig" payload.

Definition on_read_signal (s : Server) (c : Conn) (payload : list Z) : Handled :=
  if negb (can_read (role_of c)) then refuse s c METHOD_READ_SIGNAL "unauthorized"
  else
    let '(mw, r) := read_signal (middleware (engine s)) (from_utf8_lossy payload) in
    answer (with_engine s (set_middleware (engine s) mw)) c
      match r with
      | Some (value, _) => ok_reply METHOD_READ_SIGNAL (encode_hal_value value)
      | None => error_reply METHOD_READ_SIGNAL "signal not found"
      end.

Definition on_write_signal (env : MsgEnv) (s : Server) (c : Conn) (payload : list Z) : Handled :=
  if negb (can_write (role_of c)) then refuse s c METHOD_WRITE_SIGNAL "unauthorized"
  else if (length payload <? 2)%nat then refuse s c METHOD_WRITE_SIGNAL "payload too short"
  else
    let name_len := Z.to_nat (of_le_bytes (take 2 payload)) in
    if (length payload <? 2 + name_len)%nat then refuse s c METHOD_WRITE_SIGNAL "payload truncated"
    else
      let signal_name := from_utf8_lossy (take name_len (drop 2 payload)) in
      match decode_hal_value (drop (2 + name_len) payload) with
      | Err e => refuse s c METHOD_WRITE_SIGNAL e
      | Ok (value, _) =>
          let ts := mkTs (now_secs env / 1000) (wrap_u 32 (now_micros env mod 1000 * 1000)) in
          let '(mw, ds) := publish_signal (middleware (engine s)) signal_name value ts in
          mkHandled (with_engine s (set_middleware (engine s) mw)) c
            [ok_text METHOD_WRITE_SIGNAL "ok"] ds false
      end.

Definition health_debug (h : HealthStatus) : string :=
  match h with
  | Healthy => "Healthy" | Starting => "Starting" | Stopping => "Stopping"
  | Degraded r => "Degraded(" +:+ str_debug r +:+ ")"
  | Unhealthy r => "Unhealthy(" +:+ str_debug r +:+ ")"
  end.

Definition on_health (env : MsgEnv) (s : Server) (c : Conn) : Handled :=
  if negb (can_read (role_of c)) then refuse s c METHOD_HEALTH_QUERY "unauthorized"
  else answer s c (ok_text METHOD_HEALTH_QUERY (health_debug (aggregate (health env)))).

Definition on_snapshot (s : Server) (c : Conn) (payload : list Z) : Handled :=
  if negb (can_read (role_of c)) then refuse s c METHOD_SIGNAL_SNAPSHOT "unauthorized"
  else
    let sigs := snapshot_signals (middleware (engine s)) (from_utf8_lossy payload) in
    answer s c (ok_reply METHOD_SIGNAL_SNAPSHOT
      (encode_snapshot (map (fun '(n, v, _) => (n, v)) sigs))).

Definition on_load_program (s : Server) (c : Conn) (payload : list Z) : Handled :=
  if negb (can_config (role_of c)) then refuse s c METHOD_LOAD_PROGRAM "unauthorized"
  else
    let '(e, r) := load_hal_program (engine s) payload in
    answer_result (with_engine s e) c METHOD_LOAD_PROGRAM "loaded" r.

(** [pause], [resume], [step_cycle]. *)
Definition on_control (s : Server) (c : Conn) (method : Z) (act : Engine → Engine (M := M)) (msg : string)
  : Handled :=
  if negb (can_config (role_of c)) then refuse s c method "unauthorized"
  else answer (with_engine s (act (engine s))) c (ok_text method msg).

Definition on_pause (s : Server) (c : Conn) : Handled := on_control s c METHOD_PAUSE pause "paused".
Definition on_resume (s : Server) (c : Conn) : Handled := on_control s c METHOD_RESUME resume "resumed".
Definition on_step_cycle (s : Server) (c : Conn) : Handled :=
  on_control s c METHOD_STEP_CYCLE step_cycle "stepped".

Definition set_executor (e : Engine) (x : Executor) : Engine (M := M) :=
  set_program e (hal_program e) (Some x).

Definition on_breakpoint (s : Server) (c : Conn) (method : Z) (payload : list Z)
    (act : Executor → nat → Executor * bool) : Handled :=
  if negb (can_config (role_of c)) then refuse s c method "unauthorized"
  else if (length payload <? 4)%nat then refuse s c method "need 4 bytes IP"
  else
    let ip := Z.to_nat (of_be_bytes (take 4 payload)) in
    match hal_executor (engine s) with
    | Some x =>
        answer (with_engine s (set_executor (engine s) (act x ip).1)) c (ok_text method "ok")
    | None => answer s c (error_reply method "no program loaded")
    end.

Definition on_set_breakpoint (s : Server) (c : Conn) (payload : list Z) : Handled :=
  on_breakpoint s c METHOD_SET_BREAKPOINT payload add_breakpoint.
Definition on_clear_breakpoint (s : Server) (c : Conn) (payload : list Z) : Handled :=
  on_breakpoint s c METHOD_CLEAR_BREAKPOINT payload remove_breakpoint.

Definition on_list_breakpoints (s : Server) (c : Conn) : Handled :=
  if negb (can_read (role_of c)) then refuse s c METHOD_LIST_BREAKPOINTS "unauthorized"
  else match hal_executor (engine s) with
  | Some x =>
      answer s c (ok_text METHOD_LIST_BREAKPOINTS (String.concat "," (map pretty (list_breakpoints x))))
  | None => refuse s c METHOD_LIST_BREAKPOINTS "no program loaded"
  end.

(** [None] is the panic of [read_register] on an index out of range. *)
Definition on_read_registers (s : Server) (c : Conn) (payload : list Z) : option Handled :=
  if negb (can_read (role_of c)) then Some (refuse s c METHOD_READ_REGISTERS "unauthorized")
  else match payload with
  | [] => Some (refuse s c METHOD_READ_REGISTERS "need register index")
  | idx :: _ =>
      match hal_executor (engine s) with
      | Some x =>
          v ← read_register (vm x) (Z.to_nat idx);
          Some (answer s c (ok_text METHOD_READ_REGISTERS
                 ("r" +:+ pretty idx +:+ "=" +:+ hal_value_debug v)))
      | None => Some (refuse s c METHOD_READ_REGISTERS "no program loaded")
      end
  end.

Definition bool_display (b : bool) : string := if b then "true" else "false".
Definition on_debug_state (s : Server) (c : Conn) : Handled :=
  if negb (can_read (role_of c)) then refuse s c METHOD_DEBUG_STATE "unauthorized"
  else
    let '(debug_mode, bps, trace_len) :=
      match hal_executor (engine s) with
      | Some x => (is_debug_enabled x, list_breakpoints x, length (trace_buffer (debug_state x)))
      | None => (false, [], 0%nat)
      end in
    answer s c (ok_text METHOD_DEBUG_STATE
      ("{" +:+ quoted "debug_mode" +:+ ":" +:+ bool_display debug_mode +:+
       "," +:+ quoted "paused" +:+ ":" +:+ bool_display (is_paused (engine s)) +:+
       "," +:+ quoted "breakpoints" +:+ ":[" +:+ comma_list (map pretty bps) +:+
       "]," +:+ quoted "trace_len" +:+ ":" +:+ pretty trace_len +:+ "}")).

(** [prepare_swap], [commit_swap], [rollback_swap]. *)
Definition on_swap (s : Server) (c : Conn) (method : Z) (okmsg : string)
    (act : Engine → Engine (M := M) * result unit string) : Handled :=
  if negb (can_config (role_of c)) then refuse s c method "unauthorized"
  else
    let '(e, r) := act (engine s) in answer_result (with_engine s e) c method okmsg r.

Definition on_prepare_swap (s : Server) (c : Conn) (payload : list Z) : Handled :=
  on_swap s c METHOD_PREPARE_SWAP "ready" (fun e => prepare_swap e payload).
Definition on_commit_swap (s : Server) (c : Conn) : Handled :=
  on_swap s c METHOD_COMMIT_SWAP "committed" commit_swap.
Definition on_rollback_swap (s : Server) (c : Conn) : Handled :=
  on_swap s c METHOD_ROLLBACK_SWAP "cancelled" rollback_swap.

Definition on_deploy_layout (s : Server) (c : Conn) (payload : list Z) : option Handled :=
  if negb (can_config (role_of c)) then Some (refuse s c METHOD_DEPLOY_HMI_LAYOUT "unauthorized")
  else match payload with
  | [] => Some (refuse s c METHOD_DEPLOY_HMI_LAYOUT "empty payload")
  | _ =>
      '(e, r) ← deploy_hmi_layout (engine s) payload;
      Some (answer (with_engine s e) c
        match r with
        | Ok generation => ok_reply METHOD_DEPLOY_HMI_LAYOUT (le_bytes 8 generation)
        | Err msg => error_reply METHOD_DEPLOY_HMI_LAYOUT msg
        end)
  end.

Definition on_get_layout (s : Server) (c : Conn) : Handled :=
  if negb (can_read (role_of c)) then refuse s c METHOD_GET_HMI_LAYOUT "unauthorized"
  else answer s c
    match get_hmi_layout (engine s) with
    | Some (yaml, generation) => ok_reply METHOD_GET_HMI_LAYOUT (le_bytes 8 generation ++ yaml)
    | None => error_reply METHOD_GET_HMI_LAYOUT "no layout deployed"
    end.

Definition on_subscribe (env : MsgEnv) (s : Server) (c : Conn) (payload : list Z) : Handled :=
  if negb (can_read (role_of c)) then refuse s c METHOD_SUBSCRIBE_SIGNAL "unauthorized"
  else
    let name := from_utf8_lossy payload in
    if bool_decide (name = "") then refuse s c METHOD_SUBSCRIBE_SIGNAL "empty signal name"
    else match try_clone env with
    | Ok _ =>
        answer (with_subs s (subscribe (subscriptions s) name (sid_of c) (conn_id c))) c
          (ok_text METHOD_SUBSCRIBE_SIGNAL "subscribed")
    | Err e => answer s c (error_reply METHOD_SUBSCRIBE_SIGNAL e)
    end.

Definition on_unsubscribe (s : Server) (c : Conn) (payload : list Z) : Handled :=
  if negb (can_read (role_of c)) then refuse s c METHOD_UNSUBSCRIBE_SIGNAL "unauthorized"
  else
    let name := from_utf8_lossy payload in
    if bool_decide (name = "") then refuse s c METHOD_UNSUBSCRIBE_SIGNAL "empty signal name"
    else answer (with_subs s (unsubscribe (subscriptions s) name (sid_of c))) c
           (ok_text METHOD_UNSUBSCRIBE_SIGNAL "unsubscribed").

(** ** The loop body *)
Section config.
Context (secret : list Z) (wl : list (Role * list Z)).

(** The token check of a connection with a session: [Some] is a refusal. *)
Definition check_session (env : MsgEnv) (s : Server) (c : Conn) (f : Frame) : option Handled :=
  match session c with
  | None => None
  | Some sess =>
      if f_method f =? METHOD_AUTH_REQUEST then
        Some (refuse s c METHOD_AUTH_REQUEST "already authenticated")
      else match verify_wire_token (now_verify env) secret (f_token f) with
      | Ok role_byte =>
          if negb (bool_decide (role_from_u8 role_byte = Some (s_role sess))) then
            Some (refuse s c (f_method f) "role mismatch")
          else if now_session env >? s_expires_at_ms sess then
            Some (refuse s (set_session c None) (f_method f) "token expired")
          else None
      | Err e => Some (refuse s c (f_method f) ("auth: " +:+ e))
      end
  end.

Definition handle_request (env : MsgEnv) (s : Server) (c : Conn) (f : Frame) : option Handled :=
  let payload := f_payload f in
  match f_method f with
  | 1 => on_auth env s c payload secret wl
  | 2 => Some (on_config_command env s c payload)
  | 3 => Some (on_read_signal s c payload)
  | 4 => Some (on_write_signal env s c payload)
  | 5 => Some (on_health env s c)
  | 6 => Some (on_snapshot s c payload)
  | 7 => Some (on_load_program s c payload)
  | 8 => Some (on_load_hal_config env s c payload)
  | 9 => Some (on_pause s c)
  | 10 => Some (on_resume s c)
  | 11 => Some (on_step_cycle s c)
  | 12 => Some (on_set_breakpoint s c payload)
  | 13 => Some (on_clear_breakpoint s c payload)
  | 14 => Some (on_list_breakpoints s c)
  | 15 => on_read_registers s c payload
  | 16 => Some (on_debug_state s c)
  | 17 => Some (on_prepare_swap s c payload)
  | 18 => Some (on_commit_swap s c)
  | 19 => Some (on_rollback_swap s c)
  | 20 => Some (on_subscribe env s c payload)
  | 21 => Some (on_unsubscribe s c payload)
  | 23 => on_deploy_layout s c payload
  | 24 => Some (on_get_layout s c)
  | m => Some (answer s c (error_reply m ("unknown method_id: 0x" +:+ hex_byte m)))
  end.

(** Up to the reply. *)
Definition dispatch (env : MsgEnv) (s : Server) (c : Conn) (f : Frame) : option Handled :=
  match check_session env s c f with
  | Some h => Some h
  | None => handle_request env s c f
  end.

(** The end of the loop body, not reached after a [continue]. *)
Definition cleanup (s : Server) (c : Conn) : Server :=
  match session c with
  | Some sess => with_subs s (cleanup_session (session_id sess) (subscriptions s))
  | None => s
  end.

Definition handle_message (env : MsgEnv) (s : Server) (c : Conn) (f : Frame) : option Handled :=
  h ← dispatch env s c f;
  Some (if h_skip h then h
        else mkHandled (cleanup (h_server h) (h_conn h)) (h_conn h) (h_replies h) (h_callbacks h) false).

(** The frames written for a request. *)
Definition reply_frames (h : Handled) : option (list (list Z)) := mapM build_response (h_replies h).

(** The loop of [handle_connection], one environment per turn: it ends when the
    socket fails, a handler panics or the environments run out. *)
Fixpoint handle_connection (envs : list MsgEnv) (s : Server) (c : Conn) (input : list RxEvent)
    (out : list Reply) : Server * Conn * list Reply :=
  match envs with
  | [] => (s, c, out)
  | env :: envs =>
      match read_frame input with
      | (input, Err WouldBlock) => handle_connection envs s c input out
      | (_, Err _) => (s, c, out)
      | (input, Ok f) =>
          match handle_message env s c f with
          | None => (s, c, out)
          | Some h => handle_connection envs (h_server h) (h_conn h) input (out ++ h_replies h)
          end
      end
  end.

(** ** The threads of the server *)
Inductive Phase := Reading | Cleaning.
Record System := mkSystem { server : Server; conns : gmap nat (Conn * Phase) }.

Definition system_new (e : Engine) : System := mkSystem (mkServer e ∅) ∅.

(** The push targets the engine sees. *)
Definition push_targets (s : Server) : gmap string (list Z) := (map fst) <$> subscriptions s.

Inductive sys_step : System → System → Prop :=
  | step_accept sys id :
      conns sys !! id = None →
      sys_step sys (mkSystem (server sys) (<[id := (conn_new id, Reading)]> (conns sys)))
  | step_close sys id c :
      conns sys !! id = Some (c, Reading) →
      sys_step sys (mkSystem (server sys) (delete id (conns sys)))
  | step_request sys id c env f h :
      conns sys !! id = Some (c, Reading) →
      dispatch env (server sys) c f = Some h →
      sys_step sys (mkSystem (h_server h)
        (<[id := (h_conn h, if h_skip h then Reading else Cleaning)]> (conns sys)))
  | step_cleanup sys id c :
      conns sys !! id = Some (c, Cleaning) →
      sys_step sys (mkSystem (cleanup (server sys) c) (<[id := (c, Reading)]> (conns sys)))
  | step_engine sys env e' out :
      Engine.subscriptions env = Some (push_targets (server sys)) →
      cycle env (engine (server sys)) = CycleDone e' out →
      sys_step sys (mkSystem (with_engine (server sys) e') (conns sys)).

Inductive sys_reachable : System → Prop :=
  | reach_new e : sys_reachable (system_new e)
  | reach_step sys sys' : sys_reachable sys → sys_step sys sys' → sys_reachable sys'.
End config.
End server.
