(* ===== verification/RuntimeClient.v ===== *)
(** * The controller's socket client ([audesys-runtime-client/src/lib.rs])

    A synchronous client: each call writes one request and reads one response.
    The copies of the value encoder, the decoder and the role numbers in this
    crate are those of the server word for word, and are shared here.  The
    socket is the list of what reading it will meet; [sent] is what writing
    the request returned. *)
From stdpp Require Import pretty.
From S2P Require Import Prelude Float HalTypes HalValue Encoding Text CommonTypes IpcWire.
Local Open Scope Z_scope.

Record RuntimeClient := mkClient {
  hmac_secret : list Z; session_token : option (list Z); has_token : bool }.

(** [connect], once the socket is open. *)
Definition connect (secret : list Z) : RuntimeClient := mkClient secret None false.
Definition is_authenticated (c : RuntimeClient) : bool := has_token c.

(** [Display] of an [io::Error]. *)
Class IoDisplay := io_display : IoError → string.

Definition client_encode_hal_value : HalValue → list Z := encode_hal_value.
Definition client_decode_hal_value : list Z → result (HalValue * nat) string := decode_hal_value.

Section client.
Context `{HB : BuildProfile} `{HI : IoDisplay}.

Definition zero_token : list Z := replicate TOKEN_WIRE_SIZE 0.

(** A short token is padded with zeros; [total_len] may overflow. *)
Definition build_request (token : list Z) (method : Z) (payload : list Z) : option (list Z) :=
  total_len ← arith false 32 (HEADER_SIZE + wrap_u 32 (Z.of_nat (length payload)));
  let token_field :=
    if (TOKEN_WIRE_SIZE <=? length token)%nat then take TOKEN_WIRE_SIZE token
    else token ++ replicate (TOKEN_WIRE_SIZE - length token) 0 in
  Some (le_bytes 4 total_len ++ token_field ++ method :: payload).

(** [.map_err(|e| format!("{what}: {e}"))]. *)
Definition describe {A} (what : string) (m : Rx A) : Stream → Stream * result A string :=
  fun s => match m s with
           | (s, Ok a) => (s, Ok a)
           | (s, Err e) => (s, Err (what +:+ ": " +:+ io_display e))
           end.

Definition cx_bind {A B} (m : Stream → Stream * result A string) (k : A → Stream → Stream * result B string)
  : Stream → Stream * result B string :=
  fun s => match m s with (s, Ok a) => k a s | (s, Err e) => (s, Err e) end.
Notation "'let/' x := m 'in' k" := (cx_bind m (fun x => k))
  (at level 10, x name, k at level 200) : hal_scope.
Local Open Scope hal_scope.
Definition cx_ret {A} (r : result A string) : Stream → Stream * result A string := fun s => (s, r).

Definition read_raw_frame : Rx (Z * list Z) :=
  len_bytes ← read_exact 4;
  let frame_len := of_le_bytes len_bytes in
  if frame_len <? 6 then fail InvalidData
  else
    method ← read_exact 1;
    status ← read_exact 1;
    payload ← read_exact (Z.to_nat (frame_len - 6));
    mret (nth 0 method 0, payload).

Definition read_response : Stream → Stream * result (Z * Z * list Z) string :=
  let/ len_bytes := describe "read length" (read_exact 4) in
  let frame_len := of_le_bytes len_bytes in
  if frame_len <? 6 then cx_ret (Err ("response frame too short: " +:+ pretty frame_len))
  else
    let/ method := describe "read method_id" (read_exact 1) in
    let/ status := describe "read status" (read_exact 1) in
    let/ payload := describe "read payload" (read_exact (Z.to_nat (frame_len - 6))) in
    let method := nth 0 method 0 in
    let status := nth 0 status 0 in
    if negb (status =? STATUS_OK) then
      cx_ret (Err ("server error (method=0x" +:+ hex_byte method +:+ "): " +:+ from_utf8_lossy payload))
    else cx_ret (Ok (method, status, payload)).

(** The frame [send_request] writes, and what it makes of the response: the
    method and the status of the response are ignored. *)
Definition request_frame (c : RuntimeClient) (method : Z) (payload : list Z) : option (list Z) :=
  build_request (default zero_token (session_token c)) method payload.
Definition send_request (sent : result unit IoError) (method : Z)
  : Stream → Stream * result (list Z) string :=
  match sent with
  | Err e => cx_ret (Err ("send " +:+ pretty method +:+ ": " +:+ io_display e))
  | Ok _ => let/ r := read_response in cx_ret (Ok (snd r))
  end.

(** ** Authentication *)
Definition auth_frame (pid : Z) (role : Role) : option (list Z) :=
  build_request zero_token METHOD_AUTH_REQUEST (le_bytes 4 pid ++ [role_to_u8 role]).

Definition authenticate (c : RuntimeClient) (sent : result unit IoError) (s : Stream)
  : RuntimeClient * Stream * result unit string :=
  match sent with
  | Err e => (c, s, Err ("auth send: " +:+ io_display e))
  | Ok _ =>
      match read_response s with
      | (s, Err e) => (c, s, Err ("auth recv: " +:+ e))
      | (s, Ok (method, status, payload)) =>
          if negb (method =? METHOD_AUTH_REQUEST) || negb (status =? STATUS_OK) then
            (c, s, Err ("auth rejected: " +:+ from_utf8_lossy payload))
          else if (length payload <? TOKEN_WIRE_SIZE)%nat then
            (c, s, Err ("auth token too short: " +:+ pretty (length payload) +:+ " bytes"))
          else (mkClient (hmac_secret c) (Some (take TOKEN_WIRE_SIZE payload)) true, s, Ok tt)
      end
  end.

(** ** Requests: the payload a call sends, and how it reads the response *)
Definition text_of (resp : list Z) : result string string :=
  match from_utf8 resp with
  | Some s => Ok s
  | None => Err ("utf8: " +:+ utf8_error_display resp)
  end.

(** The calls that return the text of the response: [load_program],
    [load_hal_config], [health_query], [config_command], [pause], [resume],
    [step_cycle], [set_breakpoint], [clear_breakpoint], [list_breakpoints],
    [read_register], [debug_state], [prepare_swap], [commit_swap],
    [rollback_swap]. *)
Definition text_call (method : Z) (sent : result unit IoError) : Stream → Stream * result string string :=
  let/ resp := send_request sent method in cx_ret (text_of resp).

Definition load_program := text_call METHOD_LOAD_PROGRAM.
Definition load_hal_config := text_call METHOD_LOAD_HAL_CONFIG.
Definition health_query := text_call METHOD_HEALTH_QUERY.
Definition config_command := text_call METHOD_CONFIG_COMMAND.
Definition client_pause := text_call METHOD_PAUSE.
Definition client_resume := text_call METHOD_RESUME.
Definition client_step_cycle := text_call METHOD_STEP_CYCLE.
Definition breakpoint_payload (ip : Z) : list Z := be_bytes 4 ip.
Definition set_breakpoint := text_call METHOD_SET_BREAKPOINT.
Definition clear_breakpoint := text_call METHOD_CLEAR_BREAKPOINT.
Definition client_list_breakpoints := text_call METHOD_LIST_BREAKPOINTS.
Definition register_payload (reg_idx : Z) : list Z := [reg_idx].
Definition client_read_register := text_call METHOD_READ_REGISTERS.
Definition client_debug_state := text_call METHOD_DEBUG_STATE.
Definition client_prepare_swap := text_call METHOD_PREPARE_SWAP.
Definition client_commit_swap := text_call METHOD_COMMIT_SWAP.
Definition client_rollback_swap := text_call METHOD_ROLLBACK_SWAP.

Definition client_read_signal (sent : result unit IoError) : Stream → Stream * result HalValue string :=
  let/ resp := send_request sent METHOD_READ_SIGNAL in
  cx_ret (let? r := client_decode_hal_value resp in Ok (fst r)).

Definition write_payload (name : string) (v : HalValue) : list Z :=
  le_bytes 2 (Z.of_nat (String.length name)) ++ string_bytes name ++ client_encode_hal_value v.
Definition client_write_signal (sent : result unit IoError) : Stream → Stream * result unit string :=
  let/ _ := send_request sent METHOD_WRITE_SIGNAL in cx_ret (Ok tt).

Definition client_subscribe_signal (sent : result unit IoError) : Stream → Stream * result unit string :=
  let/ _ := send_request sent METHOD_SUBSCRIBE_SIGNAL in cx_ret (Ok tt).
Definition client_unsubscribe_signal (sent : result unit IoError) : Stream → Stream * result unit string :=
  let/ _ := send_request sent METHOD_UNSUBSCRIBE_SIGNAL in cx_ret (Ok tt).

Definition client_deploy_hmi_layout (sent : result unit IoError) : Stream → Stream * result Z string :=
  let/ resp := send_request sent METHOD_DEPLOY_HMI_LAYOUT in
  cx_ret (if (length resp <? 8)%nat
          then Err ("response too short: " +:+ pretty (length resp) +:+ " bytes")
          else Ok (of_le_bytes (take 8 resp))).
Definition client_get_hmi_layout (sent : result unit IoError) : Stream → Stream * result (list Z * Z) string :=
  let/ resp := send_request sent METHOD_GET_HMI_LAYOUT in
  cx_ret (if (length resp <? 8)%nat
          then Err ("response too short: " +:+ pretty (length resp) +:+ " bytes")
          else Ok (drop 8 resp, of_le_bytes (take 8 resp))).

(** The loop of [decode_snapshot_response], on the bytes not read yet. *)
Fixpoint decode_entries (count : nat) (data : list Z) : result (list (string * HalValue)) string :=
  match count with
  | O => Ok []
  | S count =>
      if (length data <? 2)%nat then Err "snapshot: truncated name_len"
      else
        let name_len := Z.to_nat (of_le_bytes (take 2 data)) in
        let data := drop 2 data in
        if (length data <? name_len)%nat then Err "snapshot: truncated name"
        else
          let name := from_utf8_lossy (take name_len data) in
          let data := drop name_len data in
          let? (value, consumed) := client_decode_hal_value data in
          let? results := decode_entries count (drop consumed data) in
          Ok ((name, value) :: results)
  end.
Definition decode_snapshot_response (data : list Z) : result (list (string * HalValue)) string :=
  if (length data <? 2)%nat then Err "snapshot response too short"
  else decode_entries (Z.to_nat (of_le_bytes (take 2 data))) (drop 2 data).
Definition signal_snapshot (sent : result unit IoError)
  : Stream → Stream * result (list (string * HalValue)) string :=
  let/ resp := send_request sent METHOD_SIGNAL_SNAPSHOT in cx_ret (decode_snapshot_response resp).
End client.

(** ** Facts

    Requests, responses and snapshots written by one side are read by the
    other. *)
Section frames.
Context `{HB : BuildProfile} `{HI : IoDisplay}.

(** A socket on which [frame] arrives, then [k]. *)
Definition arriving (frame : list Z) (k : list RxEvent) : list RxEvent := map RxByte frame ++ k.

Lemma arriving_app a b k : arriving (a ++ b) k = arriving a (arriving b k).
Proof. unfold arriving. by rewrite map_app, <- app_assoc. Qed.

Lemma read_arriving n l k : length l = n → read_exact n (arriving l k) = (k, Ok l).
Proof. apply read_exact_n. Qed.

Lemma arith_u32 z : 0 ≤ z < 2 ^ 32 → arith false 32 z = Some z.
Proof.
  intros H. apply arith_exact. apply in_u_spec. lia.
Qed.

Lemma read_frame_ok len token method payload k :
  length token = TOKEN_WIRE_SIZE → in_u 32 len = true → len = HEADER_SIZE + Z.of_nat (length payload) →
  read_frame (arriving (le_bytes 4 len ++ token ++ method :: payload) k) =
  (k, Ok (mkFrame token method payload)).
Proof.
  intros Ht Hl Hlen. unfold read_frame. rewrite arriving_app.
  erewrite rx_bind_ok by (apply read_arriving, le_bytes_length). cbv beta zeta.
  rewrite (of_bytes_u 4) by done.
  rewrite (proj2 (Z.ltb_ge _ _)) by (unfold HEADER_SIZE in *; lia).
  rewrite arriving_app. erewrite rx_bind_ok by (by apply read_arriving).
  change (method :: payload) with ([method] ++ payload). rewrite arriving_app.
  erewrite rx_bind_ok by (by apply (read_arriving 1 [method])).
  erewrite rx_bind_ok by (apply read_arriving; lia). done.
Qed.

(** The server reads the request a client writes: for a 64-byte token and a
    payload below 4 GiB less the header, the bytes of [build_request] are read
    back as the token, the method and the payload, and nothing of what follows
    on the socket is consumed. *)
Theorem request_roundtrip token method payload k :
  length token = TOKEN_WIRE_SIZE → Z.of_nat (length payload) < 2 ^ 32 - HEADER_SIZE →
  ∃ frame, build_request token method payload = Some frame ∧
    read_frame (arriving frame k) = (k, Ok (mkFrame token method payload)).
Proof.
  unfold HEADER_SIZE. intros Ht Hp. eexists. split.
  - unfold build_request, HEADER_SIZE. rewrite wrap_u_id by (apply in_u_spec; lia).
    rewrite arith_u32 by lia. cbn [mbind option_bind].
    rewrite Ht, (proj2 (Nat.leb_le _ _)) by lia. rewrite take_ge by lia. reflexivity.
  - apply read_frame_ok; [done | apply in_u_spec; lia | done].
Qed.

Lemma describe_ok {A} what (m : Rx A) s s' a : m s = (s', Ok a) → describe what m s = (s', Ok a).
Proof. intros H. unfold describe. by rewrite H. Qed.

Lemma cx_bind_ok {A B} (m : list RxEvent → list RxEvent * result A string)
    (f : A → list RxEvent → list RxEvent * result B string) s s' a :
  m s = (s', Ok a) → cx_bind m f s = f a s'.
Proof. intros H. unfold cx_bind. by rewrite H. Qed.

(** What the client makes of a response frame. *)
Definition response_of (r : Reply) : result (Z * Z * list Z) string :=
  if r_status r =? STATUS_OK then Ok (r_method r, r_status r, r_payload r)
  else Err ("server error (method=0x" +:+ hex_byte (r_method r) +:+ "): " +:+ from_utf8_lossy (r_payload r)).

Definition fits (r : Reply) : bool := Z.of_nat (length (r_payload r)) <? 2 ^ 32 - 6.

Lemma read_response_ok r k : fits r = true →
  ∃ frame, build_response r = Some frame ∧ read_response (arriving frame k) = (k, response_of r).
Proof.
  unfold fits. intros Hp. breflect. eexists. split.
  - unfold build_response. rewrite wrap_u_id by (apply in_u_spec; lia).
    rewrite arith_u32 by lia. reflexivity.
  - unfold read_response. rewrite arriving_app.
    erewrite cx_bind_ok by (apply describe_ok, read_arriving, le_bytes_length). cbv beta zeta.
    rewrite (of_bytes_u 4) by (apply in_u_spec; lia). rewrite (proj2 (Z.ltb_ge _ _)) by lia.
    change (r_method r :: r_status r :: r_payload r) with ([r_method r] ++ [r_status r] ++ r_payload r).
    rewrite !arriving_app.
    erewrite cx_bind_ok by (by apply describe_ok, (read_arriving 1 [r_method r])).
    erewrite cx_bind_ok by (by apply describe_ok, (read_arriving 1 [r_status r])).
    erewrite cx_bind_ok by (apply describe_ok, read_arriving; lia).
    cbn [nth]. unfold response_of. by destruct (r_status r =? STATUS_OK).
Qed.
End frames.

Lemma request_roundtrip_witness :
  ∃ frame, build_request (HB := debug_profile) zero_token METHOD_AUTH_REQUEST [1; 2; 3; 4; 0] = Some frame ∧
    read_frame (arriving frame []) = ([], Ok (mkFrame zero_token METHOD_AUTH_REQUEST [1; 2; 3; 4; 0])).
Proof.
  apply (request_roundtrip (HB := debug_profile) zero_token METHOD_AUTH_REQUEST [1; 2; 3; 4; 0] []);
    [reflexivity | vm_compute; reflexivity].
Defined.

(** ** Snapshots *)
Definition entry_ok (e : string * HalValue) : bool :=
  string_wf (fst e) && (Z.of_nat (String.length (fst e)) <? 2 ^ 16) && hal_wf (snd e) && encodable (snd e).

Lemma decode_entries_ok es :
  forallb entry_ok es = true →
  decode_entries (length es) (concat (map (fun '(n, v) => encode_snapshot_entry n v) es)) = Ok es.
Proof.
  induction es as [|[n v] es IH]; [done|]. cbn [forallb]. intros [Hn Hes]%andb_true_iff.
  unfold entry_ok in Hn. cbn in Hn. rewrite !andb_true_iff in Hn.
  destruct Hn as [[[Hw Hl] Hv] He]. apply Z.ltb_lt in Hl. cbn [length map concat decode_entries].
  set (rest := concat _) in *. unfold encode_snapshot_entry. rewrite <- !app_assoc.
  rewrite (proj2 (Nat.ltb_ge _ _)) by (rewrite length_app, le_bytes_length; lia).
  rewrite take_app_length' by (by rewrite le_bytes_length).
  rewrite drop_app_length' by (by rewrite le_bytes_length).
  rewrite (of_bytes_u 2) by (apply in_u_spec; lia). rewrite Nat2Z.id, <- string_bytes_length.
  rewrite (proj2 (Nat.ltb_ge _ _)) by (rewrite length_app; lia).
  rewrite take_app_length, drop_app_length. rewrite lossy_string by done.
  unfold client_decode_hal_value.
  pose proof (decode_encode v rest Hv He) as ->. cbn [result_bind].
  rewrite drop_app_length, IH by done. done.
Qed.

(** A snapshot of fewer than 65536 signals with names shorter than 64 KiB
    reaches the client unchanged, in order. *)
Theorem snapshot_roundtrip es :
  Z.of_nat (length es) < 2 ^ 16 → forallb entry_ok es = true →
  decode_snapshot_response (encode_snapshot es) = Ok es.
Proof.
  intros Hl He. unfold decode_snapshot_response, encode_snapshot.
  rewrite (proj2 (Nat.ltb_ge _ _)) by (rewrite length_app, le_bytes_length; lia).
  rewrite take_app_length' by (by rewrite le_bytes_length).
  rewrite drop_app_length' by (by rewrite le_bytes_length).
  rewrite (of_bytes_u 2) by (apply in_u_spec; lia). rewrite Nat2Z.id. by apply decode_entries_ok.
Qed.

Lemma snapshot_roundtrip_witness :
  decode_snapshot_response (encode_snapshot [("a", VBool true); ("b", VS16 (-2))]) =
  Ok [("a", VBool true); ("b", VS16 (-2))].
Proof.
  apply (snapshot_roundtrip [("a", VBool true); ("b", VS16 (-2))]); vm_compute; reflexivity.
Defined.
