(* ===== verification/IpcFacts.v ===== *)
(** * Facts about the socket server

    Who may change what, what a token proves, and what becomes of sessions and
    subscriptions. *)
From stdpp Require Import pretty.
From S2P Require Import Prelude Float HalTypes HalValue Encoding HalIr FunctionBlocks Vm Executor.
From S2P Require Import Text Transport Qos Middleware Signals Lifecycle Engine CommonTypes.
From S2P Require Import IpcWire IpcServer RuntimeClient.
Local Open Scope Z_scope.
Lemma config_can_write r : can_write r = false → can_config r = false.
Proof. by destruct r as [[]|]. Qed.

(** ** Subscriptions *)
Definition sub_of (subs : gmap string (list (Z * nat))) (sid : Z) (cid : nat) : Prop :=
  ∃ name l, subs !! name = Some l ∧ (sid, cid) ∈ l.

(** No entry is empty: the map is empty exactly when nobody is subscribed. *)
Definition no_empty (subs : gmap string (list (Z * nat))) : Prop := ∀ name, subs !! name ≠ Some [].

Lemma elem_of_retain sid l s c : (s, c) ∈ retain_other sid l ↔ (s, c) ∈ l ∧ s ≠ sid.
Proof.
  unfold retain_other. rewrite !list_elem_of_In, filter_In, negb_true_iff, Z.eqb_neq. done.
Qed.

Lemma cleanup_lookup sid subs name :
  cleanup_session sid subs !! name =
  l ← subs !! name; match retain_other sid l with [] => None | l => Some l end.
Proof. unfold cleanup_session. by rewrite lookup_omap. Qed.

Lemma cleanup_sub sid subs s c : sub_of (cleanup_session sid subs) s c → sub_of subs s c ∧ s ≠ sid.
Proof.
  intros (name & l & Hl & Hin). rewrite cleanup_lookup in Hl.
  destruct (subs !! name) as [l0|] eqn:E; [|done]. cbn in Hl.
  destruct (retain_other sid l0) as [|x l'] eqn:Er; [done|]. injection Hl as <-.
  rewrite <- Er in Hin. apply elem_of_retain in Hin as [Hin Hs]. split; [by exists name, l0 | done].
Qed.

Lemma cleanup_no_empty sid subs : no_empty (cleanup_session sid subs).
Proof.
  intros name H. rewrite cleanup_lookup in H. destruct (subs !! name) as [l|]; [|done].
  cbn in H. by destruct (retain_other sid l).
Qed.

Lemma unsubscribe_sub subs name sid s c : sub_of (unsubscribe subs name sid) s c → sub_of subs s c.
Proof.
  unfold unsubscribe. destruct (subs !! name) as [l|] eqn:E; [|done].
  intros (n & k & Hk & Hin). destruct (decide (n = name)) as [->|Hn].
  - destruct (retain_other sid l) eqn:Er.
    + by rewrite lookup_delete_eq in Hk.
    + rewrite lookup_insert_eq in Hk. injection Hk as <-. rewrite <- Er in Hin.
      apply elem_of_retain in Hin as [Hin _]. by exists name, l.
  - exists n, k. split; [|done]. destruct (retain_other sid l).
    + by rewrite lookup_delete_ne in Hk.
    + by rewrite lookup_insert_ne in Hk.
Qed.

Lemma unsubscribe_no_empty subs name sid : no_empty subs → no_empty (unsubscribe subs name sid).
Proof.
  intros H n. unfold unsubscribe. destruct (subs !! name) as [l|] eqn:E; [|apply H].
  destruct (retain_other sid l) eqn:Er; destruct (decide (n = name)) as [->|Hn].
  - by rewrite lookup_delete_eq.
  - rewrite lookup_delete_ne by done. apply H.
  - by rewrite lookup_insert_eq.
  - rewrite lookup_insert_ne by done. apply H.
Qed.

Lemma subscribe_sub subs name sid cid s c :
  sub_of (subscribe subs name sid cid) s c → sub_of subs s c ∨ s = sid ∧ c = cid.
Proof.
  intros (n & k & Hk & Hin). unfold subscribe in Hk. destruct (decide (n = name)) as [->|Hn].
  - rewrite lookup_insert_eq in Hk. injection Hk as <-. apply elem_of_app in Hin as [Hin|Hin].
    + left. destruct (subs !! name) as [l|] eqn:E; [by exists name, l | by apply not_elem_of_nil in Hin].
    + apply list_elem_of_singleton in Hin. right. by simplify_eq.
  - rewrite lookup_insert_ne in Hk by done. left. by exists n, k.
Qed.

Lemma subscribe_no_empty subs name sid cid : no_empty subs → no_empty (subscribe subs name sid cid).
Proof.
  intros H n. unfold subscribe. destruct (decide (n = name)) as [->|Hn].
  - rewrite lookup_insert_eq. intros [= E]. by destruct (default [] (subs !! name)).
  - rewrite lookup_insert_ne by done. apply H.
Qed.

Lemma no_subs_empty subs : no_empty subs → (∀ s c, ¬ sub_of subs s c) → subs = ∅.
Proof.
  intros He Hn. apply map_empty. intros name. destruct (subs !! name) as [l|] eqn:E; [|done].
  destruct l as [|[s c] l]; [by apply He in E|]. exfalso. apply (Hn s c). exists name, ((s, c) :: l).
  split; [done | left].
Qed.

Section server.
Context {HB : BuildProfile} {HD : Decoders} {HF : FloatFormat} {HM : Hmac}.
Context {M : Type} {HT : HalTransport M} {HQ : HalQoS M}.
Context (secret : list Z) (wl : list (Role * list Z)).

(** A property of every handler is a property of the dispatch. *)
Lemma handle_request_cases (P : Handled (M := M) → Prop) env s c f h :
  handle_request secret wl env s c f = Some h →
  (∀ h, on_auth env s c (f_payload f) secret wl = Some h → P h) →
  (∀ m n, P (on_config env s c m n (f_payload f))) →
  P (on_read_signal s c (f_payload f)) →
  P (on_write_signal env s c (f_payload f)) →
  P (on_health env s c) → P (on_snapshot s c (f_payload f)) →
  P (on_load_program s c (f_payload f)) →
  (∀ m act msg, P (on_control s c m act msg)) →
  (∀ m act, P (on_breakpoint s c m (f_payload f) act)) →
  P (on_list_breakpoints s c) →
  (∀ h, on_read_registers s c (f_payload f) = Some h → P h) →
  P (on_debug_state s c) →
  (∀ m msg act, P (on_swap s c m msg act)) →
  P (on_subscribe env s c (f_payload f)) → P (on_unsubscribe s c (f_payload f)) →
  (∀ h, on_deploy_layout s c (f_payload f) = Some h → P h) →
  P (on_get_layout s c) →
  (∀ m msg, P (answer s c (error_reply m msg))) → P h.
Proof.
  unfold handle_request. intros Hh. intros.
  repeat case_match; try (injection Hh as <-; eauto; fail); eauto.
Qed.

(** The engine fields a request may have changed: at most what reading or
    writing signals changes in the middleware. *)
Definition only_middleware (e e' : Engine (M := M)) : Prop := ∃ mw, e' = set_middleware e mw.

Lemma only_middleware_refl e : only_middleware e e.
Proof. exists (middleware e). by destruct e. Qed.

(** Without the right to configure, a request changes at most the middleware,
    and without the right to write, no signal and no callback runs. *)
Definition harmless (s : Server (M := M)) (c : Conn) (h : Handled (M := M)) : Prop :=
  (can_config (role_of c) = false → only_middleware (engine s) (engine (h_server h))) ∧
  (can_write (role_of c) = false → h_callbacks h = [] ∧
     ∀ n, (read_signal (middleware (engine (h_server h))) n).2 = (read_signal (middleware (engine s)) n).2).

Lemma harmless_same s c h :
  engine (h_server h) = engine s → h_callbacks h = [] → harmless s c h.
Proof. intros E Hc. unfold harmless. rewrite E. split; intros; [apply only_middleware_refl | done]. Qed.

Lemma harmless_config s c (b : bool) method msg h :
  b = can_config (role_of c) → h_callbacks h = [] →
  harmless s c (if negb b then refuse s c method msg else h).
Proof.
  intros -> Hc. destruct (can_config (role_of c)) eqn:E; [|by apply harmless_same].
  split; [by rewrite E|]. intros Hw. apply config_can_write in Hw. congruence.
Qed.

Context `{!HalTransportLaws M}.

Lemma on_read_signal_harmless s c p : harmless s c (on_read_signal s c p).
Proof.
  unfold on_read_signal. destruct (negb _); [by apply harmless_same|].
  destruct (read_signal (middleware (engine s)) (from_utf8_lossy p)) as [mw r] eqn:E.
  split; intros _; cbn; [by exists mw|]. split; [done|]. intros n.
  pose proof (read_read (middleware (engine s)) (from_utf8_lossy p) n) as H. by rewrite E in H.
Qed.

Lemma on_write_signal_harmless env s c p : harmless s c (on_write_signal env s c p).
Proof.
  unfold on_write_signal. destruct (can_write (role_of c)) eqn:Ew; cbn; [|by apply harmless_same].
  repeat case_match; try (by apply harmless_same).
  split; [intros _; cbn; by eexists | congruence].
Qed.

Lemma on_auth_harmless env s c p h : on_auth env s c p secret wl = Some h → harmless s c h.
Proof.
  unfold on_auth. intros H. destruct (handle_auth env c p secret wl) as [[[c' rs] sess]|]; [|done].
  cbn in H. case_match; injection H as <-; by apply harmless_same.
Qed.

Lemma on_swap_harmless s c m msg act : harmless s c (on_swap s c m msg act).
Proof.
  unfold on_swap. pose proof (harmless_config s c (can_config (role_of c)) m "unauthorized"
    (let '(e, r) := act (engine s) in answer_result (with_engine s e) c m msg r) eq_refl) as H.
  apply H. by destruct (act (engine s)).
Qed.

Lemma on_deploy_harmless s c p h : on_deploy_layout s c p = Some h → harmless s c h.
Proof.
  unfold on_deploy_layout. destruct (can_config (role_of c)) eqn:E; cbn.
  2: { intros [= <-]. by apply harmless_same. }
  destruct p; [intros [= <-]; by apply harmless_same|].
  destruct (deploy_hmi_layout (engine s) _) as [[e r]|]; [|done]. intros [= <-].
  split; [by rewrite E|]. intros Hw. apply config_can_write in Hw. congruence.
Qed.

Lemma handle_request_harmless env s c f h :
  handle_request secret wl env s c f = Some h → harmless s c h.
Proof.
  intros H. eapply (handle_request_cases (harmless s c)); [exact H|..].
  - apply on_auth_harmless.
  - intros m n. unfold on_config. apply (harmless_config s c _ m "unauthorized"
      (let '(e, r) := engine_queue_config (engine s) _ in answer_result (with_engine s e) c m "queued" r)); [done|].
    by destruct (engine_queue_config _ _).
  - apply on_read_signal_harmless.
  - apply on_write_signal_harmless.
  - unfold on_health. destruct (negb _); by apply harmless_same.
  - unfold on_snapshot. destruct (negb _); by apply harmless_same.
  - unfold on_load_program. apply (harmless_config s c _ _ "unauthorized"
      (let '(e, r) := load_hal_program (engine s) _ in answer_result (with_engine s e) c _ "loaded" r)); [done|].
    by destruct (load_hal_program _ _).
  - intros. unfold on_control. by apply harmless_config.
  - intros. unfold on_breakpoint. apply (harmless_config s c _ m "unauthorized"); [done|].
    by repeat case_match.
  - unfold on_list_breakpoints. repeat case_match; by apply harmless_same.
  - intros h'. unfold on_read_registers. destruct (negb _); [intros [= <-]; by apply harmless_same|].
    destruct (f_payload f); [intros [= <-]; by apply harmless_same|].
    destruct (hal_executor _); [|intros [= <-]; by apply harmless_same].
    destruct (read_register _ _); [|done]. intros [= <-]. by apply harmless_same.
  - unfold on_debug_state. repeat case_match; by apply harmless_same.
  - apply on_swap_harmless.
  - unfold on_subscribe. repeat case_match; by apply harmless_same.
  - unfold on_unsubscribe. repeat case_match; by apply harmless_same.
  - apply on_deploy_harmless.
  - unfold on_get_layout. destruct (negb _); by apply harmless_same.
  - intros. by apply harmless_same.
Qed.

Lemma check_session_some env (s : Server (M := M)) c f (h : Handled (M := M)) :
  check_session secret env s c f = Some h →
  h_server h = s ∧ h_callbacks h = [] ∧ h_skip h = true ∧
  ∃ sess msg, session c = Some sess ∧ h_replies h = [error_reply (f_method f) msg].
Proof.
  unfold check_session. destruct (session c) as [sess|]; [|done].
  destruct (_ =? _) eqn:E; [apply Z.eqb_eq in E; rewrite E; intros [= <-]; eauto 10|].
  destruct (verify_wire_token _ _ _); [|intros [= <-]; eauto 10].
  destruct (negb _); [intros [= <-]; eauto 10|]. destruct (_ >? _); [|done]. intros [= <-]. eauto 10.
Qed.

(** [C13] A request never does more than its role allows.  Without the right to
    configure (no session, operator, auditor, HMI) it leaves every part of the
    engine but the middleware as it was: program, executor, breakpoints, swap,
    layout, queue, registry, run state.  Without the right to write (no
    session, operator, auditor) it also changes no signal anyone can read and
    runs no subscriber's callback. *)
Theorem ipc_authorization env (s : Server (M := M)) c f (h : Handled (M := M)) :
  handle_message secret wl env s c f = Some h →
  (can_config (role_of c) = false → only_middleware (engine s) (engine (h_server h))) ∧
  (can_write (role_of c) = false → h_callbacks h = [] ∧
     ∀ n, (read_signal (middleware (engine (h_server h))) n).2 = (read_signal (middleware (engine s)) n).2).
Proof.
  unfold handle_message, dispatch. destruct (check_session secret env s c f) as [h0|] eqn:Ec.
  - cbn. apply check_session_some in Ec as (E1 & E2 & E3 & _). rewrite E3. intros [= <-].
    apply harmless_same; by rewrite ?E1.
  - destruct (handle_request secret wl env s c f) as [h0|] eqn:Eh; [|done]. cbn. intros [= <-].
    apply handle_request_harmless in Eh. destruct (h_skip h0); [exact Eh|].
    unfold harmless in Eh. unfold cleanup. cbn. by destruct (session (h_conn h0)).
Qed.
End server.

(** ** Tokens and sessions *)
Section session.
Context {HB : BuildProfile} {HD : Decoders} {HF : FloatFormat} {HM : Hmac} {HML : HmacLaws}.
Context {M : Type} {HT : HalTransport M} {HQ : HalQoS M}.
Context (secret : list Z) (wl : list (Role * list Z)).

Lemma role_from_to b r : role_from_u8 b = Some r → b = role_to_u8 r ∧ r ≠ Hmi.
Proof.
  unfold role_from_u8. destruct b as [|p|p]; [intros [= <-]; done| |done].
  destruct p as [[[]|[]|]|[[]|[]|]|]; intros [= <-]; done.
Qed.

Definition refused (method : Z) (rs : list Reply) : Prop := ∃ msg, rs = [error_reply method msg].

(** What it takes to get through to a connection with a session: the request is
    not an authentication, the session has not expired, and the token is one the
    server signed for the role of that session and has not expired.  Of its 64
    bytes the last 15 are free. *)
Definition admitted (env : MsgEnv) (sess : SessionInfo) (f : Frame) : Prop :=
  f_method f ≠ METHOD_AUTH_REQUEST ∧ now_session env ≤ s_expires_at_ms sess ∧ s_role sess ≠ Hmi ∧
  (TOKEN_WIRE_SIZE ≤ length (f_token f))%nat ∧
  ∃ sid e, in_u 64 sid = true ∧ in_u 64 e = true ∧ now_verify env ≤ e ∧
    take 49 (f_token f) = take 49 (build_wire_token secret sid (role_to_u8 (s_role sess)) e).

(** [C14] A request on a connection with a session reaches its handler exactly
    when it carries a token the server signed for the role of that session, and
    neither the token nor the session has expired.  Every other request is
    answered with one error and changes nothing; at most the connection loses
    its session.  The session number inside the token is not compared: a token
    of another session of the same role passes. *)
Theorem token_required env (s : Server (M := M)) c f sess :
  bytes_wf (f_token f) = true → session c = Some sess →
  (admitted env sess f ∧ dispatch secret wl env s c f = handle_request secret wl env s c f) ∨
  (¬ admitted env sess f ∧ ∃ h, handle_message secret wl env s c f = Some h ∧
     refused (f_method f) (h_replies h) ∧ h_server h = s ∧ h_callbacks h = [] ∧
     (h_conn h = c ∨ h_conn h = set_session c None)).
Proof.
  intros Hb Hs. unfold handle_message, dispatch, check_session, admitted. rewrite Hs.
  destruct (f_method f =? METHOD_AUTH_REQUEST) eqn:Em.
  { right. apply Z.eqb_eq in Em. split; [by intros [? _]|]. rewrite Em. unfold refused. cbn. eauto 10. }
  apply Z.eqb_neq in Em.
  destruct (verify_wire_token _ _ _) as [b|msg] eqn:Ev.
  2: { right. split; [|unfold refused; cbn; eauto 10]. intros (_ & _ & _ & Hl & sid & e & Hsid & He & Hn & Ht).
       rewrite (verify_signed _ _ _ sid (role_to_u8 (s_role sess)) e) in Ev by done.
       destruct (_ >? e) eqn:Eg; [|done]. rewrite Z.gtb_ltb in Eg. apply Z.ltb_lt in Eg. lia. }
  case_bool_decide as Hr; cbn [negb].
  2: { right. split; [|unfold refused; cbn; eauto 10]. intros (_ & _ & Hh & Hl & sid & e & Hsid & He & Hn & Ht).
       rewrite (verify_signed _ _ _ sid (role_to_u8 (s_role sess)) e) in Ev by done.
       destruct (_ >? e); [done|]. injection Ev as <-. by destruct (s_role sess). }
  destruct (_ >? _) eqn:Ex; rewrite Z.gtb_ltb in Ex.
  { right. split; [|unfold refused; cbn; eauto 10]. apply Z.ltb_lt in Ex. intros (_ & ? & _). lia. }
  left. apply Z.ltb_ge in Ex. split; [|done]. destruct (verify_sound _ _ _ _ Hb Ev) as (Hl & sid & e & H1 & H2 & H3 & Ht).
  apply role_from_to in Hr as [-> Hh]. split_and!; try done. by exists sid, e.
Qed.

(** An expired session is stuck: once a session has expired, a request with
    the session's own token is answered with an authentication error, and an
    authentication request with "already authenticated"; both leave the server
    and the connection as they were, so the connection keeps the dead session
    and can never authenticate again. *)
Theorem expired_session_stuck env (s : Server (M := M)) c f sess :
  session c = Some sess → in_u 64 (session_id sess) = true → in_u 64 (s_expires_at_ms sess) = true →
  s_expires_at_ms sess < now_verify env →
  f_method f = METHOD_AUTH_REQUEST ∨
  f_token f = build_wire_token secret (session_id sess) (role_to_u8 (s_role sess)) (s_expires_at_ms sess) →
  ∃ msg, handle_message secret wl env s c f = Some (refuse s c (f_method f) msg) ∧
    (msg = "already authenticated" ∨ msg = "auth: token expired").
Proof.
  intros Hs Hi He Hx Hf. unfold handle_message, dispatch, check_session. rewrite Hs.
  destruct (f_method f =? METHOD_AUTH_REQUEST) eqn:Em.
  { apply Z.eqb_eq in Em. rewrite Em. exists "already authenticated". by split; [|left]. }
  apply Z.eqb_neq in Em. destruct Hf as [Hf|Hf]; [done|]. rewrite Hf, verify_build by done.
  replace (now_verify env >? s_expires_at_ms sess) with true
    by (symmetry; rewrite Z.gtb_ltb; by apply Z.ltb_lt).
  exists "auth: token expired". by split; [|right].
Qed.

(** ** Authentication *)

(** Whom the whitelist lets play a role: the users of the role's first entry. *)
Definition open_to (r : Role) (uid : Z) : Prop :=
  ∃ before uids after, wl = before ++ (r, uids) :: after ∧ r ∉ before.*1 ∧ uid ∈ uids.

Lemma uid_allowed_open r uid : is_uid_allowed wl r uid = true ↔ open_to r uid.
Proof.
  unfold is_uid_allowed, open_to. induction wl as [|[r' us] l IH]; cbn [List.find fst].
  { split; [done|]. by intros ([|??] & ? & ? & ? & _). }
  case_bool_decide as Hr.
  - subst r'. rewrite existsb_exists. split.
    + intros (u & Hu & E). apply Z.eqb_eq in E as ->. exists [], us, l. split_and!; [done | by intros ?%not_elem_of_nil |].
      by rewrite list_elem_of_In.
    + intros ([|[r' us'] b] & uids & a & E & Hb & Hu); injection E as ??; subst.
      * exists uid. split; [by rewrite <- list_elem_of_In | apply Z.eqb_refl].
      * exfalso. apply Hb. left.
  - rewrite IH. split; intros (b & uids & a & E & Hb & Hu).
    + exists ((r', us) :: b), uids, a. subst l. split_and!; [done | | done]. cbn. by rewrite not_elem_of_cons.
    + destruct b as [|x b]; injection E as ??; subst; [done|].
      exists b, uids, a. split_and!; [done | | done]. intros Hin. apply Hb. by right.
Qed.

(** A request that names the process and a role open to the user the kernel
    vouches for. *)
Definition claims_peer (env : MsgEnv) (payload : list Z) (r : Role) : Prop :=
  ∃ pid uid gid, peer_cred env = Ok (pid, uid, gid) ∧ (5 ≤ length payload)%nat ∧
    of_le_bytes (take 4 payload) = wrap_u 32 pid ∧
    nth 4 payload 0 = role_to_u8 r ∧ r ≠ Hmi ∧ open_to r uid.

Definition ttl_of (r : Role) : Z :=
  match r with Supervisor => AGENT_TOKEN_TTL_MS | _ => DEFAULT_TOKEN_TTL_MS end.

Definition auth_ok (env : MsgEnv) (c : Conn) (payload : list Z) (x : SessionInfo) : Prop :=
  claims_peer env payload (s_role x) ∧ session_id x = next_session_id c ∧
  arith false 64 (now_auth env + ttl_of (s_role x)) = Some (s_expires_at_ms x).

Definition token_of (x : SessionInfo) : list Z :=
  build_wire_token secret (session_id x) (role_to_u8 (s_role x)) (s_expires_at_ms x).

Lemma handle_auth_spec env c payload :
  match handle_auth env c payload secret wl with
  | Some (c', rs, sess) =>
      conn_id c' = conn_id c ∧ session c' = session c ∧ (∀ x, sess = Some x ↔ auth_ok env c payload x) ∧
      match sess with
      | Some x => rs = [ok_reply METHOD_AUTH_REQUEST (token_of x)]
      | None => refused METHOD_AUTH_REQUEST rs
      end
  | None => ∃ r, claims_peer env payload r ∧ arith false 64 (now_auth env + ttl_of r) = None
  end.
Proof.
  assert (∀ msg, (∀ r, ¬ claims_peer env payload r) →
    conn_id c = conn_id c ∧ session c = session c ∧ (∀ x, None = Some x ↔ auth_ok env c payload x) ∧
    refused METHOD_AUTH_REQUEST [error_reply METHOD_AUTH_REQUEST msg]) as Hno.
  { intros msg Hr. split_and!; [done | done | | by eexists]. intros x. split; [done|]. by intros (?%Hr & _). }
  unfold handle_auth. destruct (_ <? _)%nat eqn:El.
  { apply Hno. intros r (? & ? & ? & _ & Hl & _). breflect. lia. }
  breflect. destruct (role_from_u8 _) as [r|] eqn:Er.
  2: { apply Hno. intros r (? & ? & ? & _ & _ & _ & Hr & Hh & _). rewrite Hr in Er. by destruct r. }
  apply role_from_to in Er as [Hr Hh].
  assert (∀ r', nth 4 payload 0 = role_to_u8 r' → r' ≠ Hmi → r' = r) as Hfun.
  { intros r'. rewrite Hr. by destruct r, r'. }
  destruct (peer_cred env) as [[[pid uid] gid]|] eqn:Ep.
  2: { apply Hno. intros r' (? & ? & ? & ? & _). congruence. }
  destruct (_ =? _) eqn:E1; cbn [negb].
  2: { apply Hno. intros r' (? & ? & ? & Hp & _ & Hw & _). apply Z.eqb_neq in E1. congruence. }
  destruct (is_uid_allowed wl r uid) eqn:E2; cbn [negb].
  2: { apply Hno. intros r' (? & ? & ? & Hp & _ & _ & H1 & H2 & H3). rewrite (Hfun r') in H3 by done.
       apply uid_allowed_open in H3. congruence. }
  assert (claims_peer env payload r) as Hc.
  { exists pid, uid, gid. apply Z.eqb_eq in E1. apply uid_allowed_open in E2. split_and!; congruence || done. }
  replace (if bool_decide (r = Supervisor) then _ else _) with (ttl_of r) by (by destruct r).
  destruct (arith _ _ _) as [e|] eqn:Ea; cbn [mbind option_bind]; [|by exists r].
  split_and!; [done | done | | done]. intros x. split.
  - by intros [= <-].
  - intros ((? & ? & ? & _ & _ & _ & H1 & H2 & _) & Hi & He). apply (Hfun _ H1) in H2. rewrite H2, Ea in He.
    destruct x as [i r' e']. cbn in *. congruence.
Qed.

(** What an authentication request leads to. *)
Lemma auth_result_exact env (s : Server (M := M)) c f :
  session c = None → f_method f = METHOD_AUTH_REQUEST →
  match handle_message secret wl env s c f with
  | Some h => (∀ x, session (h_conn h) = Some x ↔ auth_ok env c (f_payload f) x) ∧
      match session (h_conn h) with
      | Some x => h_replies h = [ok_reply METHOD_AUTH_REQUEST (token_of x); ok_reply METHOD_AUTH_REQUEST (token_of x)]
      | None => refused METHOD_AUTH_REQUEST (h_replies h)
      end
  | None => ∃ r, claims_peer env (f_payload f) r ∧ arith false 64 (now_auth env + ttl_of r) = None
  end.
Proof.
  intros Hs Hm. unfold handle_message, dispatch, check_session, handle_request. rewrite Hs, Hm.
  unfold METHOD_AUTH_REQUEST at 1, on_auth. pose proof (handle_auth_spec env c (f_payload f)) as Ha.
  destruct (handle_auth env c (f_payload f) secret wl) as [[[c' rs] sess]|]; [|exact Ha].
  destruct Ha as (_ & E2 & E3 & E4). destruct sess as [x|]; cbn; [by rewrite E4|]. rewrite E2, Hs. done.
Qed.

Lemma auth_result env (s : Server (M := M)) c f (h : Handled (M := M)) :
  session c = None → f_method f = METHOD_AUTH_REQUEST →
  handle_message secret wl env s c f = Some h →
  match session (h_conn h) with
  | Some x => auth_ok env c (f_payload f) x ∧
      h_replies h = [ok_reply METHOD_AUTH_REQUEST (token_of x); ok_reply METHOD_AUTH_REQUEST (token_of x)]
  | None => refused METHOD_AUTH_REQUEST (h_replies h)
  end.
Proof.
  intros Hs Hm Hh. pose proof (auth_result_exact env s c f Hs Hm) as Ha. rewrite Hh in Ha.
  destruct Ha as [H1 H2]. destruct (session (h_conn h)) as [x|]; [|done]. split; [by apply H1 | done].
Qed.

End session.

(** ** The life of a subscription *)
Section subscriptions.
Context {HB : BuildProfile} {HD : Decoders} {HF : FloatFormat} {HM : Hmac}.
Context {M : Type} {HT : HalTransport M} {HQ : HalQoS M}.
Context (secret : list Z) (wl : list (Role * list Z)).

(** What a dispatch does to the table and to the connection's number. *)
Definition subs_effect (s : Server (M := M)) (c : Conn) (h : Handled (M := M)) : Prop :=
  conn_id (h_conn h) = conn_id c ∧
  (subscriptions (h_server h) = subscriptions s ∨
   (∃ name sid, subscriptions (h_server h) = unsubscribe (subscriptions s) name sid) ∨
   ∃ name sess, session c = Some sess ∧ h_conn h = c ∧ h_skip h = false ∧
     subscriptions (h_server h) = subscribe (subscriptions s) name (session_id sess) (conn_id c)).

Lemma subs_effect_same s c (h : Handled (M := M)) :
  h_conn h = c → subscriptions (h_server h) = subscriptions s → subs_effect s c h.
Proof. intros Hc E. split; [by rewrite Hc | by left]. Qed.

Lemma subs_effect_auth env s c p h : on_auth env s c p secret wl = Some h → subs_effect s c h.
Proof.
  unfold on_auth. destruct (handle_auth env c p secret wl) as [[[c' rs] sess]|] eqn:E; [|done].
  assert (conn_id c' = conn_id c) as Hc.
  { unfold handle_auth in E. repeat case_match; simplify_eq; try done;
      apply bind_Some in E as (? & _ & E); by simplify_eq. }
  cbn. destruct sess; intros [= <-]; (split; [done | by left]).
Qed.

Lemma subs_effect_subscribe env s c p : subs_effect s c (on_subscribe env s c p).
Proof.
  unfold on_subscribe, can_read, role_of, sid_of. destruct (session c) as [sess|] eqn:Es; cbn.
  2: { by apply subs_effect_same. }
  case_bool_decide; [by apply subs_effect_same|].
  destruct (try_clone env); [|by apply subs_effect_same].
  split; [done|]. right. right. exists (from_utf8_lossy p), sess. done.
Qed.

Lemma subs_effect_unsubscribe s c p : subs_effect s c (on_unsubscribe s c p).
Proof.
  unfold on_unsubscribe. destruct (negb _); [by apply subs_effect_same|].
  case_bool_decide; [by apply subs_effect_same|]. split; [done|]. right. left. by eexists _, _.
Qed.

Lemma dispatch_subs env s c f h :
  dispatch secret wl env s c f = Some h → subs_effect s c h.
Proof.
  unfold dispatch, check_session. intros H. destruct (session c) as [sess|] eqn:Es.
  1: destruct (_ =? _); [injection H as <-; by apply subs_effect_same|].
  1: destruct (verify_wire_token _ _ _); [|injection H as <-; by apply subs_effect_same].
  1: destruct (negb _); [injection H as <-; by apply subs_effect_same|].
  1: destruct (_ >? _); [injection H as <-; split; [done | by left]|].
  all: eapply (handle_request_cases secret wl (subs_effect s c)); [exact H|..];
    try (intros; apply subs_effect_auth || apply subs_effect_subscribe || apply subs_effect_unsubscribe; eassumption);
    try apply subs_effect_auth; try apply subs_effect_subscribe; try apply subs_effect_unsubscribe;
    intros; unfold on_config, on_read_signal, on_write_signal, on_health, on_snapshot, on_load_program,
      on_control, on_breakpoint, on_list_breakpoints, on_debug_state, on_swap, on_get_layout, answer_result,
      on_read_registers, on_deploy_layout in *;
    repeat case_match; simplify_eq; try (by apply subs_effect_same);
    match goal with H : _ ≫= _ = Some _ |- _ => apply bind_Some in H as (? & _ & H) end;
    repeat case_match; simplify_eq; by apply subs_effect_same.
Qed.

(** Every subscription belongs to a connection between its reply and its
    cleanup. *)
Definition subs_inv (sys : System (M := M)) : Prop :=
  no_empty (subscriptions (server sys)) ∧
  (∀ id c ph, conns sys !! id = Some (c, ph) → conn_id c = id) ∧
  ∀ sid cid, sub_of (subscriptions (server sys)) sid cid →
    ∃ c sess, conns sys !! cid = Some (c, Cleaning) ∧ session c = Some sess ∧ session_id sess = sid.

Lemma subs_inv_request sys id c env f h :
  subs_inv sys → conns sys !! id = Some (c, Reading) → dispatch secret wl env (server sys) c f = Some h →
  subs_inv (mkSystem (h_server h) (<[id := (h_conn h, if h_skip h then Reading else Cleaning)]> (conns sys))).
Proof.
  intros (He & Hid & Hs) Hc Hd. pose proof (Hid _ _ _ Hc) as Hcid.
  apply dispatch_subs in Hd as [Hci Heff]. split_and!; cbn.
  - destruct Heff as [->|[(n & k & ->)|(n & x & _ & _ & _ & ->)]];
      eauto using unsubscribe_no_empty, subscribe_no_empty.
  - intros i c' ph. destruct (decide (i = id)) as [->|Hi].
    + rewrite lookup_insert_eq. intros [= <- _]. by rewrite Hci.
    + rewrite lookup_insert_ne by done. apply Hid.
  - intros sid cid Hsub.
    assert (Hold : sub_of (subscriptions (server sys)) sid cid → ∃ c0 sess,
        <[id := (h_conn h, if h_skip h then Reading else Cleaning)]> (conns sys) !! cid = Some (c0, Cleaning)
        ∧ session c0 = Some sess ∧ session_id sess = sid).
    { intros Ho. destruct (Hs _ _ Ho) as (c0 & x & Hl & Hx). exists c0, x. split; [|done].
      rewrite lookup_insert_ne; [done|]. intros <-. congruence. }
    destruct Heff as [E|[(n & k & E)|(n & x & Hx & Hcc & Hsk & E)]]; rewrite E in Hsub.
    + by apply Hold.
    + by apply Hold, (unsubscribe_sub _ n k).
    + apply subscribe_sub in Hsub as [Ho|[-> ->]]; [by apply Hold|].
      exists c, x. rewrite Hcid, lookup_insert_eq, Hcc, Hsk. done.
Qed.

Lemma subs_inv_cleanup sys id c :
  subs_inv sys → conns sys !! id = Some (c, Cleaning) →
  subs_inv (mkSystem (cleanup (server sys) c) (<[id := (c, Reading)]> (conns sys))).
Proof.
  intros (He & Hid & Hs) Hc. split_and!; cbn.
  - unfold cleanup. destruct (session c); cbn; [apply cleanup_no_empty | done].
  - intros i c' ph. destruct (decide (i = id)) as [->|Hi].
    + rewrite lookup_insert_eq. intros [= <- _]. by eapply Hid.
    + rewrite lookup_insert_ne by done. apply Hid.
  - intros sid cid Hsub. unfold cleanup in Hsub.
    assert (sub_of (subscriptions (server sys)) sid cid ∧
            ∀ sess, session c = Some sess → session_id sess ≠ sid) as [Ho Hne].
    { destruct (session c) as [sess|]; [|done]. cbn in Hsub. apply cleanup_sub in Hsub as [Ho Hne].
      split; [done|]. intros ? [= <-]. congruence. }
    destruct (Hs _ _ Ho) as (c0 & x & Hl & Hx & Hsid). exists c0, x. split; [|done].
    rewrite lookup_insert_ne; [done|]. intros <-. rewrite Hc in Hl. injection Hl as ->.
    by apply (Hne x).
Qed.

Lemma subs_inv_reachable sys : sys_reachable secret wl sys → subs_inv sys.
Proof.
  induction 1 as [e|sys sys' _ IH Hstep].
  { split_and!; cbn; [intros n; by rewrite lookup_empty | by intros ??? ?%lookup_empty_Some|].
    intros ?? (n & l & Hl & _). by rewrite lookup_empty in Hl. }
  destruct Hstep as [sys id Hn|sys id c Hc|sys id c env f h Hc Hd|sys id c Hc|sys env e' out Henv Hcy].
  - destruct IH as (He & Hid & Hs). split_and!; cbn; [done| |].
    + intros i c ph. destruct (decide (i = id)) as [->|Hi].
      * rewrite lookup_insert_eq. by intros [= <- _].
      * rewrite lookup_insert_ne by done. apply Hid.
    + intros sid cid Hsub. destruct (Hs _ _ Hsub) as (c0 & x & Hl & Hx). exists c0, x. split; [|done].
      rewrite lookup_insert_ne; [done|]. intros ->. congruence.
  - destruct IH as (He & Hid & Hs). split_and!; cbn; [done| |].
    + intros i c' ph Hl. apply lookup_delete_Some in Hl as [_ Hl]. by eapply Hid.
    + intros sid cid Hsub. destruct (Hs _ _ Hsub) as (c0 & x & Hl & Hx). exists c0, x. split; [|done].
      rewrite lookup_delete_ne; [done|]. intros ->. congruence.
  - by eapply subs_inv_request.
  - by apply subs_inv_cleanup.
  - exact IH.
Qed.

(** [C15] Subscriptions do not outlive the request that makes them.  In every
    reachable state of the server, whom a cycle of the engine pushes to is the
    session of a connection whose request has been answered but whose loop has not
    reached its cleanup yet; the cleanup of that connection drops every
    subscription of its session; so while no connection is between its reply and
    its cleanup, the table is empty and a cycle pushes nothing to anybody. *)
Theorem pushes_nothing sys env e' out :
  sys_reachable secret wl sys →
  Engine.subscriptions env = Some (push_targets (server sys)) →
  cycle env (engine (server sys)) = CycleDone e' out →
  (∀ sid n v, (sid, n, v) ∈ pushed out →
     ∃ id c x, conns sys !! id = Some (c, Cleaning) ∧ session c = Some x ∧ session_id x = sid) ∧
  (∀ id c x, conns sys !! id = Some (c, Cleaning) → session c = Some x →
     ∀ cid, ¬ sub_of (subscriptions (cleanup (server sys) c)) (session_id x) cid) ∧
  ((∀ id c ph, conns sys !! id = Some (c, ph) → ph = Reading) →
     subscriptions (server sys) = ∅ ∧ pushed out = []).
Proof.
  intros Hr Henv Hcy. apply subs_inv_reachable in Hr as (He & _ & Hs).
  assert (∀ sid n v, (sid, n, v) ∈ pushed out →
    ∃ id c x, conns sys !! id = Some (c, Cleaning) ∧ session c = Some x ∧ session_id x = sid) as Hp.
  { intros sid n v Hin. apply cycle_inv in Hcy as (e1 & _ & _ & ->). cbn [pushed] in Hin.
    apply push_phase_spec in Hin as [(subs & l & Hsubs & Hl & Hsid) _]. rewrite Henv in Hsubs. injection Hsubs as <-.
    unfold push_targets in Hl. rewrite lookup_fmap in Hl. apply fmap_Some in Hl as (k & Hk & ->).
    apply list_elem_of_fmap in Hsid as ([s c] & -> & Hin). destruct (Hs s c) as (c0 & x & H); [by exists n, k|].
    by exists c, c0, x. }
  split; [exact Hp|]. split.
  - intros id c x _ Hx cid Hsub. unfold cleanup in Hsub. rewrite Hx in Hsub. by apply cleanup_sub in Hsub as [_ ?].
  - intros Hread. split.
    + apply no_subs_empty; [done|]. intros s c Hsub. destruct (Hs _ _ Hsub) as (c0 & x & Hl & _). by apply Hread in Hl.
    + destruct (pushed out) as [|[[sid n] v] l] eqn:E; [done|]. destruct (Hp sid n v) as (id & c & x & Hl & _); [left|].
      by apply Hread in Hl.
Qed.
End subscriptions.

(** ** Client and server together

    What a client sees over a whole exchange with the server, and the
    instances that show the theorems about the server apply. *)

Section exchange.
Context {HB : BuildProfile} {HD : Decoders} {HF : FloatFormat} {HM : Hmac} {HML : HmacLaws} {HI : IoDisplay}.
Context {M : Type} {HT : HalTransport M} {HQ : HalQoS M}.
Context (secret : list Z) (wl : list (Role * list Z)).

(** Replies on their way to the client. *)
Definition on_the_wire (rs : list Reply) (k : list RxEvent) : option (list RxEvent) :=
  frames ← mapM build_response rs; Some (arriving (concat frames) k).

Lemma on_the_wire_cons r rs k : fits r = true →
  on_the_wire (r :: rs) k =
  frame ← build_response r; rest ← on_the_wire rs k; Some (arriving frame rest).
Proof.
  intros _. unfold on_the_wire. cbn [mapM]. destruct (build_response r) as [f|]; [|done]. cbn [mbind option_bind].
  destruct (mapM build_response rs) as [fs|]; [|done]. cbn [mbind option_bind concat mret option_ret].
  by rewrite arriving_app.
Qed.

Lemma on_the_wire_read r rs k : fits r = true → Forall (λ r, fits r = true) rs →
  ∃ s rest, on_the_wire (r :: rs) k = Some s ∧ on_the_wire rs k = Some rest ∧
    read_response s = (rest, response_of r).
Proof.
  intros Hr Hrs.
  assert (∃ rest, on_the_wire rs k = Some rest) as [rest Hrest].
  { induction Hrs as [|r' rs Hr' _ [rest IH]]; [by eexists|].
    destruct (read_response_ok r' k Hr') as (f & Hf & _). rewrite on_the_wire_cons, Hf, IH by done. cbn. eauto. }
  destruct (read_response_ok r rest Hr) as (f & Hf & Hread).
  exists (arriving f rest), rest. rewrite on_the_wire_cons, Hf, Hrest by done. done.
Qed.

Lemma fits_token x : fits (ok_reply METHOD_AUTH_REQUEST (token_of secret x)) = true.
Proof. unfold fits, token_of. cbn [ok_reply r_payload]. rewrite build_wire_token_length. done. Qed.

Lemma authenticate_ok cl x s rest :
  read_response s = (rest, response_of (ok_reply METHOD_AUTH_REQUEST (token_of secret x))) →
  authenticate cl (Ok tt) s = (mkClient (hmac_secret cl) (Some (token_of secret x)) true, rest, Ok tt).
Proof.
  intros H. unfold authenticate. rewrite H. unfold response_of.
  cbn [ok_reply r_status r_method r_payload]. rewrite !Z.eqb_refl. cbn [negb orb].
  unfold token_of. rewrite build_wire_token_length.
  change (TOKEN_WIRE_SIZE <? TOKEN_WIRE_SIZE)%nat with false. cbv iota. rewrite take_ge; [done|].
  by rewrite build_wire_token_length.
Qed.

(** [C16] Because the server answers a successful authentication twice and the
    client ignores what request a response belongs to, a client is always one
    response behind: on a fresh connection, the first signal a client reads
    after it has authenticated is [S8(0)], whatever signal it asked for and
    whatever its value; the server's reply to that request is left on the
    socket, for the next call to read. *)
Theorem client_one_behind env (s : Server (M := M)) id f (h : Handled (M := M)) x cl rs k :
  f_method f = METHOD_AUTH_REQUEST →
  handle_message secret wl env s (conn_new id) f = Some h → session (h_conn h) = Some x →
  Forall (λ r, fits r = true) rs →
  ∃ input rest, on_the_wire (h_replies h ++ rs) k = Some input ∧ on_the_wire rs k = Some rest ∧
    let '(cl', input', r) := authenticate cl (Ok tt) input in
    r = Ok tt ∧ session_token cl' = Some (token_of secret x) ∧
    client_read_signal (Ok tt) input' = (rest, Ok (VS8 0)).
Proof.
  intros Hm Hh Hx Hrs. pose proof (auth_result secret wl env s (conn_new id) f h eq_refl Hm Hh) as Ha.
  rewrite Hx in Ha. destruct Ha as [Hok ->].
  set (r := ok_reply METHOD_AUTH_REQUEST (token_of secret x)). cbn [app].
  destruct (on_the_wire_read r (r :: rs) k) as (s1 & s2 & H1 & H2 & Hr1);
    [apply fits_token | constructor; [apply fits_token | done] |].
  destruct (on_the_wire_read r rs k) as (s2' & s3 & H2' & H3 & Hr2); [apply fits_token | done |].
  rewrite H2 in H2'. injection H2' as <-.
  exists s1, s3. split_and!; [done | done |]. rewrite (authenticate_ok cl x _ _ Hr1).
  split_and!; [done | done |]. unfold client_read_signal, send_request, cx_bind. rewrite Hr2.
  unfold response_of. cbn [r ok_reply r_status r_method r_payload Z.eqb STATUS_OK snd cx_ret].
  destruct Hok as (_ & Hid & _). unfold token_of. rewrite Hid. reflexivity.
Qed.

(** ** Writing and reading a signal *)
Context {HL : HalTransportLaws M}.

(** The session's own token, in time. *)
Definition fresh (env : MsgEnv) (x : SessionInfo) : Prop :=
  now_verify env ≤ s_expires_at_ms x ∧ now_session env ≤ s_expires_at_ms x.

Definition session_ok (x : SessionInfo) : Prop :=
  in_u 64 (session_id x) = true ∧ in_u 64 (s_expires_at_ms x) = true ∧ s_role x ≠ Hmi.

Lemma check_passes env (s : Server (M := M)) c x method payload :
  session c = Some x → session_ok x → fresh env x → method ≠ METHOD_AUTH_REQUEST →
  check_session secret env s c (mkFrame (token_of secret x) method payload) = None.
Proof.
  intros Hs (Hi & He & Hr) (Hv & Hn) Hm. unfold check_session. rewrite Hs. cbn [f_method f_token].
  rewrite (proj2 (Z.eqb_neq _ _)) by done. unfold token_of. rewrite verify_build by done.
  rewrite !Z.gtb_ltb, !(proj2 (Z.ltb_ge _ _)) by done.
  rewrite bool_decide_true; [done|]. by destruct (s_role x).
Qed.

Lemma write_payload_read name v :
  string_wf name = true → Z.of_nat (String.length name) < 2 ^ 16 → hal_wf v = true → encodable v = true →
  let p := write_payload name v in
  (length p <? 2)%nat = false ∧ Z.to_nat (of_le_bytes (take 2 p)) = String.length name ∧
  (length p <? 2 + String.length name)%nat = false ∧
  from_utf8_lossy (take (String.length name) (drop 2 p)) = name ∧
  decode_hal_value (drop (2 + String.length name) p) = Ok (v, length (encode_hal_value v)).
Proof.
  intros Hn Hl Hv He p. unfold p, write_payload, client_encode_hal_value. split_and!.
  - apply Nat.ltb_ge. rewrite length_app, le_bytes_length. lia.
  - rewrite take_app_length' by (by rewrite le_bytes_length).
    rewrite (of_bytes_u 2) by (apply in_u_spec; lia). lia.
  - apply Nat.ltb_ge. rewrite !length_app, le_bytes_length, string_bytes_length. lia.
  - rewrite drop_app_length' by (by rewrite le_bytes_length).
    rewrite take_app_length' by (by rewrite string_bytes_length). by apply lossy_string.
  - rewrite <- drop_drop. rewrite drop_app_length' by (by rewrite le_bytes_length).
    rewrite drop_app_length' by (by rewrite string_bytes_length).
    rewrite <- (app_nil_r (encode_hal_value v)) at 1. by apply decode_encode.
Qed.

(** [C17] A value a client writes to a signal is the value it reads back: on a
    connection whose session may write, the server accepts the write, and its
    reply to a following read of the same name decodes, on the client's side,
    to that value. *)
Theorem write_then_read env env' (s : Server (M := M)) c x name v :
  session c = Some x → session_ok x → fresh env x → fresh env' x → can_write (Some (s_role x)) = true →
  string_wf name = true → Z.of_nat (String.length name) < 2 ^ 16 → hal_wf v = true → encodable v = true →
  ∃ (h1 h2 : Handled (M := M)) resp,
    handle_message secret wl env s c (mkFrame (token_of secret x) METHOD_WRITE_SIGNAL (write_payload name v))
      = Some h1 ∧ h_replies h1 = [ok_text METHOD_WRITE_SIGNAL "ok"] ∧
    handle_message secret wl env' (h_server h1) (h_conn h1)
      (mkFrame (token_of secret x) METHOD_READ_SIGNAL (string_bytes name)) = Some h2 ∧
    h_replies h2 = [ok_reply METHOD_READ_SIGNAL resp] ∧
    client_decode_hal_value resp = Ok (v, length resp).
Proof.
  intros Hs Hx Hf Hf' Hw Hn Hl Hv He.
  destruct (write_payload_read name v Hn Hl Hv He) as (P1 & P2 & P3 & P4 & P5).
  assert (Hm1 : handle_request secret wl env s c
    (mkFrame (token_of secret x) METHOD_WRITE_SIGNAL (write_payload name v)) =
    Some (on_write_signal env s c (write_payload name v))) by done.
  assert (Hm2 : ∀ s', handle_request secret wl env' s' c
    (mkFrame (token_of secret x) METHOD_READ_SIGNAL (string_bytes name)) =
    Some (on_read_signal s' c (string_bytes name))) by done.
  unfold handle_message, dispatch. rewrite (check_passes env) by done. rewrite Hm1.
  unfold on_write_signal, role_of. rewrite Hs. cbn [fmap option_fmap option_map]. rewrite Hw. cbn [negb].
  rewrite P1, P2, P3, P4, P5.
  destruct (publish_signal (middleware (engine s)) name v _) as [mw ds] eqn:Ep.
  eexists _, _, (encode_hal_value v). split_and!; [reflexivity | reflexivity | | |].
  - cbn [mbind option_bind h_skip h_server h_conn]. unfold dispatch.
    rewrite (check_passes env') by done. rewrite Hm2. reflexivity.
  - cbn [h_replies h_skip]. unfold on_read_signal, role_of, cleanup. rewrite Hs. cbn [h_server session fmap option_fmap option_map can_read].
    cbn [with_subs with_engine engine]. rewrite lossy_string by done.
    match type of Ep with publish_signal ?m _ _ ?ts = _ =>
      pose proof (read_publish_same m name v ts) as Hr end.
    rewrite Ep in Hr. cbn [fst] in Hr.
    change (middleware (set_middleware (engine s) mw)) with mw.
    destruct (read_signal mw name) as [mw' r]. cbn in Hr. by subst r.
  - unfold client_decode_hal_value. rewrite <- (app_nil_r (encode_hal_value v)) at 1. by apply decode_encode.
Qed.
End exchange.

(** ** Instances *)
Definition demo_hmac : Hmac := fun k m => take 32 (m ++ k ++ replicate 32 0).
Lemma demo_hmac_laws : HmacLaws (H := demo_hmac).
Proof.
  intros k m. unfold hmac_sha256, demo_hmac. rewrite length_take, !length_app, length_replicate. lia.
Qed.
Definition demo_format : FloatFormat :=
  {| exp32 := fun _ => "0e0"; exp64 := fun _ => "0e0"; debug32 := fun _ => "0.0"; debug64 := fun _ => "0.0" |}.
Definition demo_display : IoDisplay := fun _ => "io".

Definition demo_msg_env (peer : result (Z * Z * Z) string) (now : Z) : MsgEnv :=
  mkMsgEnv now now now now now 1 0 peer (Ok tt) [].
Definition engineer_env : MsgEnv := demo_msg_env (Ok (7, 1000, 100)) 10.
Definition demo_server : Server := mkServer demo_engine ∅.
Definition demo_secret : list Z := [1; 2; 3].
Definition demo_session : SessionInfo := mkSession 1 Engineer 1000.
Definition demo_conn : Conn := mkConn 0 (Some demo_session) 2.
Definition demo_token : list Z := token_of (HM := demo_hmac) demo_secret demo_session.
Definition auth_request : Frame := mkFrame zero_token METHOD_AUTH_REQUEST [7; 0; 0; 0; 1].

Definition demo_handle (env : MsgEnv) (c : Conn) (f : Frame) : option Handled :=
  handle_message (HB := release_profile) (HD := demo_decoders) (HF := demo_format) (HM := demo_hmac)
    demo_secret default_whitelist env demo_server c f.

Lemma ipc_authorization_witness :
  ∃ h, demo_handle engineer_env (conn_new 0) (mkFrame zero_token METHOD_PAUSE []) = Some h ∧
    only_middleware demo_engine (engine (h_server h)).
Proof.
  destruct (demo_handle engineer_env (conn_new 0) (mkFrame zero_token METHOD_PAUSE [])) as [h|] eqn:Hh;
    [|vm_compute in Hh; discriminate Hh].
  exists h. split; [reflexivity|].
  apply (ipc_authorization (HB := release_profile) (HD := demo_decoders) (HF := demo_format) (HM := demo_hmac)
    demo_secret default_whitelist engineer_env demo_server (conn_new 0) (mkFrame zero_token METHOD_PAUSE []) h Hh).
  reflexivity.
Defined.

Lemma token_required_witness :
  admitted (HM := demo_hmac) demo_secret engineer_env demo_session (mkFrame demo_token METHOD_PAUSE []) ∧
  ¬ admitted (HM := demo_hmac) demo_secret (demo_msg_env (Ok (7, 1000, 100)) 1001) demo_session
      (mkFrame demo_token METHOD_PAUSE []).
Proof.
  pose (req := mkFrame demo_token METHOD_PAUSE []). split.
  - destruct (token_required (HB := release_profile) (HD := demo_decoders) (HF := demo_format) (HM := demo_hmac)
      (HML := demo_hmac_laws) demo_secret default_whitelist engineer_env demo_server demo_conn req demo_session)
      as [[Ha _]|[_ (h & Hh & (msg & Hm) & _)]]; [vm_compute; reflexivity | reflexivity | exact Ha |].
    exfalso. assert ((h_replies <$> demo_handle engineer_env demo_conn req) = Some [ok_text METHOD_PAUSE "paused"]) as Hv
      by (vm_compute; reflexivity).
    unfold demo_handle in Hv. rewrite Hh in Hv. cbn in Hv. rewrite Hm in Hv. discriminate Hv.
  - destruct (token_required (HB := release_profile) (HD := demo_decoders) (HF := demo_format) (HM := demo_hmac)
      (HML := demo_hmac_laws) demo_secret default_whitelist (demo_msg_env (Ok (7, 1000, 100)) 1001) demo_server
      demo_conn req demo_session) as [[_ Hd]|[Hn _]]; [vm_compute; reflexivity | reflexivity | | exact Hn].
    exfalso. apply (f_equal (fmap h_replies)) in Hd. vm_compute in Hd. discriminate Hd.
Defined.

Lemma expired_session_stuck_witness :
  ∃ msg, demo_handle (demo_msg_env (Ok (7, 1000, 100)) 1001) demo_conn auth_request =
    Some (refuse demo_server demo_conn METHOD_AUTH_REQUEST msg) ∧
    (msg = "already authenticated" ∨ msg = "auth: token expired").
Proof.
  apply (expired_session_stuck (HB := release_profile) (HD := demo_decoders) (HF := demo_format)
    (HM := demo_hmac) (HML := demo_hmac_laws) demo_secret default_whitelist
    (demo_msg_env (Ok (7, 1000, 100)) 1001) demo_server demo_conn auth_request demo_session);
    [reflexivity | reflexivity | reflexivity | reflexivity | left; reflexivity].
Defined.


Lemma client_one_behind_witness :
  ∃ h x, demo_handle engineer_env (conn_new 0) auth_request = Some h ∧ session (h_conn h) = Some x ∧
    let rs := [error_reply METHOD_READ_SIGNAL "signal not found"] in
    ∃ input rest, on_the_wire (HB := release_profile) (h_replies h ++ rs) [] = Some input ∧
      on_the_wire (HB := release_profile) rs [] = Some rest ∧
      let '(cl', input', r) := authenticate (HI := demo_display) (connect []) (Ok tt) input in
      r = Ok tt ∧ session_token cl' = Some (token_of (HM := demo_hmac) demo_secret x) ∧
      client_read_signal (HI := demo_display) (Ok tt) input' = (rest, Ok (VS8 0)).
Proof.
  destruct (demo_handle engineer_env (conn_new 0) auth_request) as [h|] eqn:Hh;
    [|vm_compute in Hh; discriminate Hh].
  assert ((session ∘ h_conn) <$> demo_handle engineer_env (conn_new 0) auth_request =
    Some (Some (mkSession 1 Engineer 3600010))) as Hv by (vm_compute; reflexivity).
  rewrite Hh in Hv. injection Hv as Hx. exists h, (mkSession 1 Engineer 3600010).
  split; [reflexivity|]. split; [exact Hx|].
  apply (client_one_behind (HB := release_profile) (HD := demo_decoders) (HF := demo_format) (HM := demo_hmac)
    (HML := demo_hmac_laws) (HI := demo_display) demo_secret default_whitelist engineer_env demo_server 0%nat
    auth_request h _ (connect [])); [reflexivity | exact Hh | exact Hx | repeat constructor].
Defined.

Lemma write_then_read_witness :
  ∃ (h1 h2 : Handled (M := InprocMiddleware)) resp,
    demo_handle engineer_env demo_conn (mkFrame demo_token METHOD_WRITE_SIGNAL (write_payload "x" (VS16 (-3))))
      = Some h1 ∧ h_replies h1 = [ok_text METHOD_WRITE_SIGNAL "ok"] ∧
    h_replies h2 = [ok_reply METHOD_READ_SIGNAL resp] ∧
    client_decode_hal_value resp = Ok (VS16 (-3), length resp).
Proof.
  destruct (write_then_read (HB := release_profile) (HD := demo_decoders) (HF := demo_format) (HM := demo_hmac)
    (HML := demo_hmac_laws) (M := InprocMiddleware) demo_secret default_whitelist engineer_env engineer_env
    demo_server demo_conn demo_session "x" (VS16 (-3))) as (h1 & h2 & resp & H1 & H2 & _ & H4 & H5);
    [reflexivity | split; [reflexivity | split; [reflexivity | discriminate]] | split; vm_compute; discriminate
    | split; vm_compute; discriminate | reflexivity | reflexivity | reflexivity | reflexivity | reflexivity |].
  by exists h1, h2, resp.
Defined.

(** One request of connection [id], as a step of the system. *)
Definition demo_request (sys : System (M := InprocMiddleware)) (id : nat) (env : MsgEnv) (f : Frame)
  : System (M := InprocMiddleware) :=
  match conns sys !! id with
  | Some (c, Reading) =>
      match dispatch (HB := release_profile) (HD := demo_decoders) (HF := demo_format) (HM := demo_hmac)
              demo_secret default_whitelist env (server sys) c f with
      | Some h => mkSystem (h_server h) (<[id := (h_conn h, if h_skip h then Reading else Cleaning)]> (conns sys))
      | None => sys
      end
  | _ => sys
  end.
Definition demo_cleanup (sys : System (M := InprocMiddleware)) (id : nat) : System (M := InprocMiddleware) :=
  match conns sys !! id with
  | Some (c, Cleaning) => mkSystem (cleanup (server sys) c) (<[id := (c, Reading)]> (conns sys))
  | _ => sys
  end.
Definition demo_reachable (sys : System) : Prop :=
  sys_reachable (HB := release_profile) (HD := demo_decoders) (HF := demo_format) (HM := demo_hmac)
    demo_secret default_whitelist sys.

Lemma demo_request_reachable sys id env f : demo_reachable sys → demo_reachable (demo_request sys id env f).
Proof.
  intros Hr. unfold demo_request. destruct (conns sys !! id) as [[c []]|] eqn:Hc; try done.
  destruct (dispatch _ _ _ _ _ _) as [h|] eqn:Hd; [|done]. eapply reach_step; [exact Hr|]. by eapply step_request.
Defined.

Lemma demo_cleanup_reachable sys id : demo_reachable sys → demo_reachable (demo_cleanup sys id).
Proof.
  intros Hr. unfold demo_cleanup. destruct (conns sys !! id) as [[c []]|] eqn:Hc; try done.
  eapply reach_step; [exact Hr|]. by apply step_cleanup.
Defined.

(** A client that authenticates and subscribes, before and after the cleanup. *)
Definition authenticated_system : System :=
  demo_cleanup (demo_request (mkSystem (mkServer loaded_engine ∅) {[ 0%nat := (conn_new 0, Reading) ]}) 0 engineer_env auth_request) 0.
Definition subscribed_system : System :=
  demo_request authenticated_system 0 engineer_env
    (mkFrame (token_of (HM := demo_hmac) demo_secret (mkSession 1 Engineer 3600010)) METHOD_SUBSCRIBE_SIGNAL
       (string_bytes "out")).
Definition cleaned_system : System := demo_cleanup subscribed_system 0.

Lemma subscribed_reachable : demo_reachable subscribed_system.
Proof.
  apply demo_request_reachable, demo_cleanup_reachable, demo_request_reachable.
  eapply reach_step; [apply (reach_new _ _ loaded_engine)|]. by apply step_accept.
Defined.

Definition watching_env (sys : System (M := InprocMiddleware)) : CycleEnv :=
  mkEnv (fun _ => VBool true) true (fun _ => (WRunning, Err "")) 0 10 5 (Some (push_targets (server sys))) 100.
Definition demo_pushes (sys : System) : option (list (Z * string * HalValue)) :=
  match cycle (HB := release_profile) (watching_env sys) (engine (server sys)) with
  | CycleDone _ out => Some (pushed out)
  | _ => None
  end.

Lemma cleaned_reading id c ph : conns cleaned_system !! id = Some (c, ph) → ph = Reading.
Proof.
  assert (map_Forall (fun _ p => p.2 = Reading) (conns cleaned_system)) as Hall
    by (apply map_Forall_to_list; vm_compute; repeat constructor).
  intros Hl. exact (Hall id (c, ph) Hl).
Defined.

Lemma pushes_nothing_witness :
  demo_pushes subscribed_system = Some [(1, "out", VU8 7)] ∧
  ∃ e' o, cycle (HB := release_profile) (watching_env cleaned_system) (engine (server cleaned_system)) = CycleDone e' o ∧
    subscriptions (server cleaned_system) = ∅ ∧ pushed o = [].
Proof.
  split; [vm_compute; reflexivity|].
  destruct (cycle (HB := release_profile) (watching_env cleaned_system) (engine (server cleaned_system)))
    as [e' o| | |] eqn:Hc; [|vm_compute in Hc; discriminate Hc..].
  exists e', o. split; [reflexivity|].
  apply (pushes_nothing (HB := release_profile) (HD := demo_decoders) (HF := demo_format) (HM := demo_hmac)
    demo_secret default_whitelist cleaned_system (watching_env cleaned_system) e' o
    (demo_cleanup_reachable _ _ subscribed_reachable) eq_refl Hc), cleaned_reading.
Defined.
