(* ===== verification/Agent.v ===== *)
(** * The supervisor process ([audesys-agent/src])

    Configuration, the life of a supervised process, the status push to the
    controller's socket and the main loop.  As in [Lifecycle] the operating
    system is the environment: what [try_wait] reports and what a spawn
    returns are arguments. *)
From stdpp Require Import pretty.
From S2P Require Import Prelude Float HalTypes HalValue HalIr FunctionBlocks Vm Executor Text Qos Transport Middleware.
From S2P Require Import Signals Lifecycle Engine CommonTypes IpcWire IpcServer RuntimeClient IpcFacts.
Local Open Scope Z_scope.

(** ** Configuration ([config.rs]) *)
Record AgentChild := mkAgentChild {
  ac_name : string; ac_program : string; ac_args : list string; ac_role : string }.
Record AgentConfig := mkAgentConfig {
  ag_children : list AgentChild; ag_uds_path : string;
  check_interval_ms : Z; ag_shutdown_timeout_ms : Z }.
Definition default_uds_path : string := "/tmp/audesys-controller.sock".

(** The document, its optional fields absent or present. *)
Record RawAgentChild := mkRawAgentChild {
  rc_name : string; rc_program : string; rc_args : option (list string); rc_role : option string }.
Record RawAgentConfig := mkRawAgentConfig {
  rg_children : list RawAgentChild; rg_uds_path : option string;
  rg_check_interval_ms : option Z; rg_shutdown_timeout_ms : option Z }.
Definition agent_child_of_raw (c : RawAgentChild) : AgentChild :=
  mkAgentChild (rc_name c) (rc_program c) (default [] (rc_args c)) (default "system" (rc_role c)).
Definition agent_config_of_raw (c : RawAgentConfig) : AgentConfig :=
  mkAgentConfig (map agent_child_of_raw (rg_children c)) (default default_uds_path (rg_uds_path c))
    (default 500 (rg_check_interval_ms c)) (default 5000 (rg_shutdown_timeout_ms c)).
Definition agent_load (read : string → result string string) (yaml : string → result RawAgentConfig string)
    (path : string) : result AgentConfig string :=
  match read path with
  | Err e => Err ("read " +:+ path +:+ ": " +:+ e)
  | Ok content =>
      match yaml content with
      | Err e => Err ("parse " +:+ path +:+ ": " +:+ e) | Ok c => Ok (agent_config_of_raw c) end
  end.

(** [parse_args], after the program's name. *)
Fixpoint agent_args (a : string * string) (l : list string) : string * string :=
  match l with
  | [] => a
  | o :: l =>
      if String.eqb o "--config" then match l with v :: l => agent_args (v, a.2) l | [] => a end
      else if String.eqb o "--uds-path" then match l with v :: l => agent_args (a.1, v) l | [] => a end
      else agent_args a l
  end.
Definition agent_parse_args (l : list string) : string * string :=
  agent_args ("supervisor.yaml", "/tmp/audesys-controller.sock") l.
(** The socket [main] uses. *)
Definition chosen_uds_path (config : AgentConfig) (cli : string) : string :=
  if String.eqb (ag_uds_path config) "" then cli else ag_uds_path config.

(** ** The life of a process ([monitor.rs]) *)
Inductive AgentState :=
  | AgRunning | AgRestarting (attempt backoff_ms : Z) | AgFailed (reason : string).
Record StatusChange := mkChange {
  ch_name : string; ch_state : AgentState; ch_exit_code : option Z; ch_restart_count : Z }.
Record ManagedProcess := mkProc {
  p_name : string; p_child : option Z; p_program : string; p_args : list string;
  p_restart_count : Z; p_exit_code : option Z; p_state : AgentState }.

Definition proc_new (name program : string) (args : list string) : ManagedProcess :=
  mkProc name None program args 0 None AgRunning.
Definition with_proc (p : ManagedProcess) (child : option Z) (count : Z) (code : option Z) (st : AgentState)
  : ManagedProcess := mkProc (p_name p) child (p_program p) (p_args p) count code st.

Definition proc_spawn (p : ManagedProcess) (os : Spawn) : ManagedProcess * result Z string :=
  match os with
  | Err e => (p, Err ("spawn " +:+ p_name p +:+ ": " +:+ e))
  | Ok pid => (with_proc p (Some pid) (p_restart_count p) (p_exit_code p) AgRunning, Ok pid)
  end.

Definition change_of (p : ManagedProcess) (code : option Z) : StatusChange :=
  mkChange (p_name p) (p_state p) code (p_restart_count p).

Definition proc_check (p : ManagedProcess) (w : Wait) (os : Spawn) : ManagedProcess * option StatusChange :=
  match p_child p with
  | None => (p, None)
  | Some _ =>
      match w with
      | WExited code =>
          let p :=
            if p_restart_count p <? MAX_RETRIES then
              let attempt := p_restart_count p + 1 in
              match os with
              | Ok pid =>
                  with_proc p (Some pid) attempt None
                    (AgRestarting attempt (BACKOFF_BASE_MS * Z.shiftl 1 (Z.max 0 (attempt - 1))))
              | Err e => with_proc p None (p_restart_count p) code (AgFailed ("restart spawn failed: " +:+ e))
              end
            else with_proc p None (p_restart_count p) code
                   (AgFailed ("exceeded max retries (" +:+ pretty MAX_RETRIES +:+ ")")) in
          (p, Some (change_of p code))
      | WRunning => (p, None)
      | WError =>
          let p := with_proc p None (p_restart_count p) (p_exit_code p) (AgFailed "try_wait() error") in
          (p, Some (change_of p None))
      end
  end.

Definition proc_kill (p : ManagedProcess) : ManagedProcess :=
  with_proc p None (p_restart_count p) (p_exit_code p) (p_state p).

Definition is_failed (p : ManagedProcess) : bool := match p_state p with AgFailed _ => true | _ => false end.

(** ** The status push ([main.rs]) *)
Definition METHOD_CHILD_STATUS : Z := 7.

(** The length is truncated to 32 bits. *)
Definition agent_build_frame (token : list Z) (method : Z) (payload : list Z) : list Z :=
  le_bytes 4 (wrap_u 32 (HEADER_SIZE + Z.of_nat (length payload))) ++ token ++ method :: payload.

Definition state_code (s : AgentState) : Z :=
  match s with AgRunning => 0 | AgRestarting _ _ => 1 | AgFailed _ => 2 end.
Definition exit_bytes (code : option Z) : list Z :=
  match code with Some c => le_bytes 4 c | None => le_bytes 4 4294967295 end.
Definition status_payload (p : ManagedProcess) : list Z :=
  le_bytes 2 (Z.of_nat (String.length (p_name p))) ++ string_bytes (p_name p) ++
  [state_code (p_state p)] ++ exit_bytes (p_exit_code p) ++ le_bytes 4 (p_restart_count p).
Definition status_frame (token : list Z) (p : ManagedProcess) : list Z :=
  agent_build_frame token METHOD_CHILD_STATUS (status_payload p).

Section push.
Context `{HI : IoDisplay}.

(** [io::Result] as its text. *)
Definition io_text {A} (m : Rx A) : Stream → Stream * result A string := fun s =>
  match m s with (s, Ok a) => (s, Ok a) | (s, Err e) => (s, Err (io_display e)) end.

Definition agent_read_response : Stream → Stream * result (Z * Z * list Z) string :=
  cx_bind (io_text (read_exact 4)) (fun len =>
    let total_len := of_le_bytes len in
    if total_len <? 6 then cx_ret (Err "response too short")
    else cx_bind (io_text (read_exact (Z.to_nat (2 + (total_len - 6))))) (fun rest =>
           cx_ret (Ok (nth 0 rest 0, nth 1 rest 0, drop 2 rest)))).

Definition agent_auth_frame (pid : Z) : list Z :=
  agent_build_frame zero_token METHOD_AUTH_REQUEST (le_bytes 4 pid ++ [role_to_u8 Supervisor]).

(** [connected] and [sent] are what connecting and writing returned. *)
Definition connect_and_auth (connected sent : result unit string) (s : Stream)
  : Stream * result (list Z) string :=
  match connected with
  | Err e => (s, Err e)
  | Ok _ =>
      match sent with
      | Err e => (s, Err e)
      | Ok _ =>
          cx_bind agent_read_response (fun '(method, status, payload) =>
            cx_ret
              (if negb (method =? METHOD_AUTH_REQUEST) || negb (status =? STATUS_OK)
               then Err ("auth failed: " +:+ from_utf8_lossy payload)
               else if (length payload <? TOKEN_WIRE_SIZE)%nat then Err "token too short"
               else Ok (take TOKEN_WIRE_SIZE payload))) s
      end
  end.

(** The frames written, up to the first write that fails, and the line logged. *)
Fixpoint push_frames (token : list Z) (write : nat → result unit string) (ps : list ManagedProcess)
  : list (list Z) * list string :=
  match ps with
  | [] => ([], [])
  | p :: ps =>
      match write 0%nat with
      | Err e => ([], ["Supervisor: status push write error for " +:+ p_name p +:+ ": " +:+ e])
      | Ok _ => let '(fs, log) := push_frames token (λ i, write (S i)) ps in (status_frame token p :: fs, log)
      end
  end.

Record PushEnv := mkPushEnv {
  pe_connected : result unit string; pe_sent : result unit string; pe_stream : Stream;
  pe_write : nat → result unit string }.
Definition push_status (env : PushEnv) (ps : list ManagedProcess) : list (list Z) * list string :=
  match connect_and_auth (pe_connected env) (pe_sent env) (pe_stream env) with
  | (_, Err e) => ([], ["Supervisor: status push connect/auth failed: " +:+ e])
  | (_, Ok token) => push_frames token (pe_write env) ps
  end.

(** ** The main loop *)
Definition start_child (c : AgentChild) (os : Spawn) : ManagedProcess :=
  match proc_spawn (proc_new (ac_name c) (ac_program c) (ac_args c)) os with
  | (p, Ok _) => p
  | (p, Err e) => with_proc p (p_child p) (p_restart_count p) (p_exit_code p) (AgFailed e)
  end.
Definition start_children (cs : list AgentChild) (os : nat → Spawn) : list ManagedProcess :=
  imap (λ i c, start_child c (os i)) cs.

(** [for child in &mut children]: the processes and whether one changed. *)
Fixpoint check_all (os : nat → Wait * Spawn) (ps : list ManagedProcess) : list ManagedProcess * list StatusChange :=
  match ps with
  | [] => ([], [])
  | p :: ps =>
      let '(p', change) := if is_failed p then (p, None) else proc_check p (os 0%nat).1 (os 0%nat).2 in
      let '(ps', changes) := check_all (λ i, os (S i)) ps in
      (p' :: ps', match change with Some c => c :: changes | None => changes end)
  end.

Record AgentTurn := mkTurn { at_shutdown : bool; at_os : nat → Wait * Spawn; at_push : PushEnv }.
Inductive LoopEnd := ShutdownSeen | AllFailed | StillRunning.

Fixpoint monitor_loop (turns : list AgentTurn) (ps : list ManagedProcess)
  : list ManagedProcess * list (list Z) * LoopEnd :=
  match turns with
  | [] => (ps, [], StillRunning)
  | t :: turns =>
      if at_shutdown t then (ps, [], ShutdownSeen)
      else
        let '(ps, changes) := check_all (at_os t) ps in
        let sent := if bool_decide (changes = []) then [] else (push_status (at_push t) ps).1 in
        if forallb is_failed ps then (ps, sent, AllFailed)
        else let '(ps, sent', e) := monitor_loop turns ps in (ps, sent ++ sent', e)
  end.
End push.

(** The shutdown: kill every child, then wait for each.  [polls] is what one
    child's [try_wait] and respawn report on successive polls, and whether the
    deadline has passed; [None] is still waiting. *)
Fixpoint await_exit (fuel : nat) (polls : nat → bool * Wait * Spawn) (p : ManagedProcess) : option ManagedProcess :=
  match p_child p with
  | None => Some p
  | Some _ =>
      match fuel with
      | O => None
      | S fuel =>
          let '(late, w, os) := polls 0%nat in
          if late then Some (proc_kill p)
          else match proc_check p w os with
               | (p, Some _) => Some p
               | (p, None) => await_exit fuel (λ i, polls (S i)) p
               end
      end
  end.
Definition agent_shutdown (fuel : nat) (polls : nat → nat → bool * Wait * Spawn) (ps : list ManagedProcess)
  : option (list ManagedProcess) :=
  mapM (λ ip : nat * ManagedProcess, await_exit fuel (polls ip.1) ip.2) (imap pair (map proc_kill ps)).

(** ** The life of one process *)

(** A run of checks from the main loop: the process and its restarts. *)
Definition respawned (c : option StatusChange) : nat :=
  match c with Some ch => match ch_state ch with AgRestarting _ _ => 1 | _ => 0 end | None => 0 end%nat.
Fixpoint life (p : ManagedProcess) (checks : list (Wait * Spawn)) : ManagedProcess * nat :=
  match checks with
  | [] => (p, 0%nat)
  | (w, os) :: checks =>
      let '(p, change) := if is_failed p then (p, None) else proc_check p w os in
      let '(p, k) := life p checks in (p, (respawned change + k)%nat)
  end.

Definition proc_ok (p : ManagedProcess) : Prop :=
  0 ≤ p_restart_count p ≤ MAX_RETRIES ∧
  match p_state p with
  | AgRunning => is_Some (p_child p) ∧ p_restart_count p = 0 ∧ p_exit_code p = None
  | AgRestarting attempt backoff =>
      is_Some (p_child p) ∧ attempt = p_restart_count p ∧ backoff = BACKOFF_BASE_MS * 2 ^ (attempt - 1) ∧
      1 ≤ attempt ∧ p_exit_code p = None
  | AgFailed _ => p_child p = None
  end.

Lemma start_child_ok c os : proc_ok (start_child c os) ∧ p_restart_count (start_child c os) = 0.
Proof.
  unfold start_child, proc_spawn, proc_ok, MAX_RETRIES. destruct os; cbn; split_and!; try done; lia.
Qed.

Lemma proc_check_step p w os : proc_ok p → is_failed p = false →
  let '(p', change) := proc_check p w os in
  proc_ok p' ∧ p_restart_count p' = p_restart_count p + Z.of_nat (respawned change) ∧
  ∀ code, w = WExited code → is_failed p' = true ∨ p_restart_count p' = p_restart_count p + 1.
Proof.
  unfold proc_ok, is_failed, proc_check. intros [Hc Hst] Hnf.
  destruct (p_child p) as [pid|] eqn:Ech; [|destruct (p_state p); naive_solver].
  destruct w as [code| |].
  - destruct (Z.ltb_spec (p_restart_count p) MAX_RETRIES) as [Hlt|Hge].
    + destruct os as [pid'|e]; cbn; split_and!; try done; try lia; auto.
      * rewrite Z.shiftl_mul_pow2, Z.mul_1_l by lia. do 2 f_equal. lia.
    + cbn. split_and!; try done; try lia; auto.
  - cbn. split_and!; [lia|lia|by rewrite Ech|lia|done].
  - cbn. split_and!; try done; lia.
Qed.

(** Restart budget of the supervisor: a process is restarted at most three
    times in its whole life - the counter is the number of restarts so far and
    nothing ever resets it - and at every moment the state says the truth: a
    running or restarting process has a child process, a failed one has none,
    and the reported backoff is 1, 2 or 4 seconds. *)
Theorem agent_restart_budget c os checks p k : life (start_child c os) checks = (p, k) →
  proc_ok p ∧ p_restart_count p = Z.of_nat k ∧ (k ≤ 3)%nat.
Proof.
  destruct (start_child_ok c os) as [Hok Hz].
  assert (Hlife : ∀ cs p0, proc_ok p0 → proc_ok (life p0 cs).1 ∧
    p_restart_count (life p0 cs).1 = p_restart_count p0 + Z.of_nat (life p0 cs).2).
  { induction cs as [|[w o] cs IH]; intros p0 Hp0; cbn [life]; [split; [done|cbn; lia]|].
    destruct (is_failed p0) eqn:Ef.
    - destruct (IH p0 Hp0) as [H1 H2]. destruct (life p0 cs) as [p1 k1]. cbn in *. split; [done|lia].
    - pose proof (proc_check_step p0 w o Hp0 Ef) as Hs. destruct (proc_check p0 w o) as [p1 ch].
      destruct Hs as (Hp1 & Hn & _). destruct (IH p1 Hp1) as [H1 H2]. destruct (life p1 cs) as [p2 k2].
      cbn [fst snd] in *. split; [done|lia]. }
  intros Hl. destruct (Hlife checks _ Hok) as [H1 H2]. rewrite Hl in H1, H2. cbn [fst snd] in *. rewrite Hz in H2.
  destruct H1 as [Hb Hst]. split; [by split|]. unfold MAX_RETRIES in Hb. lia.
Qed.

(** The exit code of a process that is restarted never reaches the
    controller: the change that is logged carries it, but the restart clears
    the field the status push sends, so the payload holds the code of an
    unknown exit; the process has been respawned at once, whatever backoff is
    reported. *)
Theorem restart_hides_exit_code p code pid p' ch : proc_ok p → is_failed p = false →
  proc_check p (WExited code) (Ok pid) = (p', Some ch) → is_failed p' = false →
  p_child p' = Some pid ∧ ch_exit_code ch = code ∧
  status_payload p' = le_bytes 2 (Z.of_nat (String.length (p_name p))) ++ string_bytes (p_name p) ++
    [1; 255; 255; 255; 255] ++ le_bytes 4 (p_restart_count p + 1).
Proof.
  unfold proc_ok, is_failed, proc_check. intros [Hc Hst] Hnf.
  destruct (p_child p) as [pid0|] eqn:Ech; [|destruct (p_state p); naive_solver].
  destruct (p_restart_count p <? MAX_RETRIES); intros [= <- <-]; [|done]. intros _. done.
Qed.

(** ** The main loop *)
Section main.
Context `{HI : IoDisplay}.

(** Restarts left to a process that has not failed. *)
Definition budget (n : Z) (p : ManagedProcess) : Prop :=
  is_failed p = true ∨ MAX_RETRIES - p_restart_count p < n.

Lemma check_all_exits os ps n : (∀ i, ∃ code, (os i).1 = WExited code) →
  Forall proc_ok ps → Forall (budget n) ps →
  Forall proc_ok (check_all os ps).1 ∧ Forall (budget (n - 1)) (check_all os ps).1.
Proof.
  intros Hos Hok Hb. revert os Hos. induction ps as [|p ps IH]; intros os Hos; cbn [check_all]; [done|].
  apply Forall_cons in Hok as [Hp Hok]. apply Forall_cons in Hb as [Hbp Hb].
  destruct (IH Hok Hb (λ i, os (S i)) (λ i, Hos (S i))) as [IH1 IH2].
  destruct (check_all (λ i, os (S i)) ps) as [ps' chs]. cbn [fst] in IH1, IH2.
  destruct (is_failed p) eqn:Ef.
  - cbn. split; constructor; try done. by left.
  - pose proof (proc_check_step p (os 0%nat).1 (os 0%nat).2 Hp Ef) as Hs.
    destruct (proc_check p _ _) as [p' ch]. destruct Hs as (Hp' & _ & Hex).
    destruct (Hos 0%nat) as [code Hcode]. cbn. split; constructor; try done.
    destruct (Hex code Hcode) as [|Hcnt]; [by left|]. right. destruct Hbp as [|Hlt]; [congruence|lia].
Qed.

(** [C38] A crash loop comes to an end: if from some turn on every process is
    found to have exited, whatever the respawns return, the supervisor gives up
    within four turns - every process has failed and the loop is left. *)
Theorem crash_loop_ends turns cs os : (4 ≤ length turns)%nat →
  Forall (λ t, at_shutdown t = false ∧ ∀ i, ∃ code, (at_os t i).1 = WExited code) turns →
  let '(ps, _, e) := monitor_loop turns (start_children cs os) in
  e = AllFailed ∧ Forall (λ p, is_failed p = true ∧ p_child p = None) ps.
Proof.
  intros Hlen Ht.
  assert (Hloop : ∀ ts n ps, Forall (λ t, at_shutdown t = false ∧ ∀ i, ∃ code, (at_os t i).1 = WExited code) ts →
    Forall proc_ok ps → Forall (budget n) ps → n ≤ Z.of_nat (length ts) → ts ≠ [] →
    let '(ps', _, e) := monitor_loop ts ps in
    e = AllFailed ∧ Forall (λ p, is_failed p = true ∧ p_child p = None) ps').
  { induction ts as [|t ts IH]; intros n ps Hts Hok Hb Hn Hne; [done|]. cbn [monitor_loop].
    apply Forall_cons in Hts as [[-> Hex] Hts].
    destruct (check_all_exits (at_os t) ps n Hex Hok Hb) as [Hok1 Hb1].
    destruct (check_all (at_os t) ps) as [ps1 chs]. cbn [fst] in Hok1, Hb1.
    destruct (forallb is_failed ps1) eqn:Ef.
    { split; [done|]. apply Forall_forall. intros p Hp. rewrite forallb_forall in Ef.
      assert (Hf : is_failed p = true) by (by apply Ef, list_elem_of_In). split; [done|].
      rewrite Forall_forall in Hok1. destruct (Hok1 p Hp) as [_ Hst]. unfold is_failed in Hf. by destruct (p_state p). }
    destruct ts as [|t' ts].
    { exfalso. cbn in Hn. assert (forallb is_failed ps1 = true); [|congruence].
      apply forallb_forall. intros p Hp%list_elem_of_In. rewrite Forall_forall in Hb1, Hok1.
      destruct (Hb1 p Hp) as [|Hlt]; [done|]. destruct (Hok1 p Hp) as [Hc _]. lia. }
    specialize (IH (n - 1) ps1 Hts Hok1 Hb1 ltac:(cbn [length] in *; lia) ltac:(done)).
    destruct (monitor_loop (t' :: ts) ps1) as [[ps2 sent] e]. done. }
  apply (Hloop turns 4); [done| | |lia|destruct turns; [cbn in Hlen; lia|done]].
  - apply Forall_lookup. intros i p Hp. unfold start_children in Hp. rewrite list_lookup_imap in Hp.
    destruct (cs !! i); [|done]. injection Hp as <-. apply start_child_ok.
  - apply Forall_lookup. intros i p Hp. unfold start_children in Hp. rewrite list_lookup_imap in Hp.
    destruct (cs !! i); [|done]. injection Hp as <-. right. rewrite (proj2 (start_child_ok _ _)). unfold MAX_RETRIES. lia.
Qed.
End main.

(** The shutdown does not wait: every child is killed first, which forgets
    its handle, so the loop that would wait up to the configured timeout finds
    nothing to wait for - the result does not depend on the timeout, on what
    the processes do or on any reading of the clock. *)
Theorem shutdown_never_waits fuel polls ps : agent_shutdown fuel polls ps = Some (map proc_kill ps).
Proof.
  unfold agent_shutdown. apply mapM_Some. apply Forall2_lookup. intros i.
  rewrite list_lookup_imap, list_lookup_fmap. destruct (ps !! i) as [p|]; cbn; constructor. by destruct fuel.
Qed.

(** The socket given on the command line is used only by a configuration
    that sets an empty path: a document without the field means the default
    path and not the argument. *)
Theorem uds_argument_ignored raw cli : chosen_uds_path (agent_config_of_raw raw) cli =
  match rg_uds_path raw with Some "" => cli | Some path => path | None => default_uds_path end.
Proof.
  unfold chosen_uds_path. destruct raw as [cs path ci st]. cbn. destruct path as [path|]; [|done]. cbn.
  destruct (String.eqb_spec path "") as [->|Hne]; [done|]. by destruct path.
Qed.

(** ** Against the controller's server *)
Section server.
Context {HB : BuildProfile} {HD : Decoders} {HF : FloatFormat} {HM : Hmac} {HML : HmacLaws} {HI : IoDisplay}.
Context {M : Type} {HT : HalTransport M} {HQ : HalQoS M}.
Context (secret : list Z) (wl : list (Role * list Z)).

Lemma io_text_ok {A} (m : Rx A) s s' a : m s = (s', Ok a) → io_text m s = (s', Ok a).
Proof. intros H. unfold io_text. by rewrite H. Qed.

Lemma agent_read_response_ok r k : fits r = true →
  ∃ frame, build_response r = Some frame ∧
    agent_read_response (arriving frame k) = (k, Ok (r_method r, r_status r, r_payload r)).
Proof.
  unfold fits. intros Hp. breflect. eexists. split.
  - unfold build_response. rewrite wrap_u_id by (apply in_u_spec; lia). rewrite arith_u32 by lia. reflexivity.
  - unfold agent_read_response. rewrite arriving_app.
    erewrite cx_bind_ok by (apply io_text_ok, read_arriving, le_bytes_length). cbv beta zeta.
    rewrite (of_bytes_u 4) by (apply in_u_spec; lia). rewrite (proj2 (Z.ltb_ge _ _)) by lia.
    erewrite cx_bind_ok by (apply io_text_ok, read_arriving; cbn [length]; lia). reflexivity.
Qed.

Lemma agent_frame_read token method payload k :
  length token = TOKEN_WIRE_SIZE → Z.of_nat (length payload) < 2 ^ 32 - HEADER_SIZE →
  read_frame (arriving (agent_build_frame token method payload) k) = (k, Ok (mkFrame token method payload)).
Proof.
  unfold HEADER_SIZE. intros Ht Hp. unfold agent_build_frame, HEADER_SIZE.
  rewrite wrap_u_id by (apply in_u_spec; lia). apply read_frame_ok; [done | apply in_u_spec; lia | done].
Qed.

(** The supervisor gets its token: the server reads the supervisor's
    authentication frame as a request of its process for the supervisor role,
    and when it opens a session the supervisor takes the session's token from
    the replies, whatever follows them. *)
Theorem agent_authenticates env (s : Server (M := M)) id pid (h : Handled (M := M)) x k :
  in_u 32 pid = true →
  let f := mkFrame zero_token METHOD_AUTH_REQUEST (le_bytes 4 pid ++ [2]) in
  read_frame (arriving (agent_auth_frame pid) k) = (k, Ok f) ∧
  (handle_message secret wl env s (conn_new id) f = Some h → session (h_conn h) = Some x →
   s_role x = Supervisor ∧
   ∃ input rest, on_the_wire (h_replies h) k = Some input ∧
     connect_and_auth (Ok tt) (Ok tt) input = (rest, Ok (token_of secret x))).
Proof.
  intros Hpid f. split; [by apply agent_frame_read|]. intros Hh Hx.
  pose proof (auth_result secret wl env s (conn_new id) f h eq_refl eq_refl Hh) as Ha. rewrite Hx in Ha.
  destruct Ha as [Hok Hr]. split.
  { destruct Hok as ((_ & _ & _ & _ & _ & _ & Hrole & _) & _). cbn in Hrole. by destruct (s_role x). }
  rewrite Hr. set (r := ok_reply METHOD_AUTH_REQUEST (token_of secret x)).
  destruct (on_the_wire_read r [] k) as (s2 & s3 & Hw2 & _ & _); [apply fits_token | done |].
  destruct (agent_read_response_ok r s2 (fits_token secret x)) as (fr & Hfr & Hread).
  exists (arriving fr s2), s2. split.
  { rewrite on_the_wire_cons by apply fits_token. by rewrite Hfr, Hw2. }
  unfold connect_and_auth. erewrite cx_bind_ok by exact Hread. unfold cx_ret.
  cbn [r ok_reply r_method r_status r_payload]. rewrite !Z.eqb_refl. cbn [negb orb].
  unfold token_of. rewrite build_wire_token_length. change (TOKEN_WIRE_SIZE <? TOKEN_WIRE_SIZE)%nat with false.
  cbv iota. by rewrite take_ge by (by rewrite build_wire_token_length).
Qed.

(** A status push is a request to load a program: method 7 is LOAD_PROGRAM
    on the server, so on the supervisor's session - whose role may configure -
    every status record is handed to the program loader, and the reply is the
    loader's. *)
Theorem status_push_loads_program env (s : Server (M := M)) c x p k :
  session c = Some x → session_ok x → fresh env x → s_role x = Supervisor →
  Z.of_nat (String.length (p_name p)) < 2 ^ 16 →
  let frame := mkFrame (token_of secret x) METHOD_LOAD_PROGRAM (status_payload p) in
  read_frame (arriving (status_frame (token_of secret x) p) k) = (k, Ok frame) ∧
  dispatch secret wl env s c frame =
    Some (let '(e, r) := load_hal_program (engine s) (status_payload p) in
          answer_result (with_engine s e) c METHOD_LOAD_PROGRAM "loaded" r).
Proof.
  intros Hs Hx Hf Hr Hn frame. split.
  - apply agent_frame_read; [apply build_wire_token_length|].
    unfold status_payload, exit_bytes, HEADER_SIZE. rewrite !length_app, string_bytes_length.
    destruct (p_exit_code p); rewrite !le_bytes_length; cbn [length]; lia.
  - unfold dispatch, frame. rewrite (check_passes secret env s c x) by done.
    cbn [handle_request f_method f_payload METHOD_LOAD_PROGRAM]. unfold on_load_program, role_of. rewrite Hs. cbn [fmap option_fmap option_map].
    by rewrite Hr.
Qed.
End server.

(** ** Runs *)
Definition demo_proc : AgentChild := mkAgentChild "runtime" "audesys-runtime" [] "system".
Definition demo_crash : AgentTurn :=
  mkTurn false (λ _, (WExited (Some 139), Ok 9)) (mkPushEnv (Err "no such file") (Ok tt) [] (λ _, Ok tt)).

Lemma agent_restart_budget_witness :
  let '(p, k) := life (start_child demo_proc (Ok 7)) (replicate 5 (WExited (Some 1), Ok 8)) in
  k = 3%nat ∧ proc_ok p ∧ p_restart_count p = 3.
Proof.
  destruct (life (start_child demo_proc (Ok 7)) (replicate 5 (WExited (Some 1), Ok 8))) as [p k] eqn:E.
  destruct (agent_restart_budget _ _ _ _ _ E) as (Hp & Hc & _). vm_compute in E. injection E as <- <-.
  split_and!; [done | exact Hp | exact Hc].
Defined.

Lemma restart_hides_exit_code_witness :
  let p := start_child demo_proc (Ok 7) in
  status_payload (proc_check p (WExited (Some 139)) (Ok 8)).1 =
  [7; 0] ++ string_bytes "runtime" ++ [1; 255; 255; 255; 255] ++ [1; 0; 0; 0].
Proof.
  intros p. destruct (proc_check p (WExited (Some 139)) (Ok 8)) as [p' ch] eqn:E. cbn [fst].
  assert (Hok : proc_ok p) by (apply start_child_ok). vm_compute in E. injection E as <- <-.
  refine (proj2 (proj2 (restart_hides_exit_code p (Some 139) 8 _ _ Hok eq_refl eq_refl eq_refl))).
Defined.

Lemma crash_loop_ends_witness :
  let '(ps, _, e) := monitor_loop (HI := demo_display) (replicate 4 demo_crash) (start_children [demo_proc] (λ _, Ok 7)) in
  e = AllFailed ∧ Forall (λ p, is_failed p = true ∧ p_child p = None) ps.
Proof.
  apply (crash_loop_ends (HI := demo_display)); [done|]. repeat constructor; intros i; by eexists.
Defined.

Definition supervisor_session : SessionInfo := mkSession 1 Supervisor 1000.
Lemma status_push_loads_program_witness :
  let c := mkConn 0 (Some supervisor_session) 2 in
  let p := start_child demo_proc (Ok 7) in
  dispatch (HB := release_profile) (HD := demo_decoders) (HF := demo_format) (HM := demo_hmac)
    demo_secret default_whitelist engineer_env demo_server c
    (mkFrame (token_of (HM := demo_hmac) demo_secret supervisor_session) METHOD_LOAD_PROGRAM (status_payload p)) =
  Some (let '(e, r) := load_hal_program (HD := demo_decoders) (engine demo_server) (status_payload p) in
        answer_result (with_engine demo_server e) c METHOD_LOAD_PROGRAM "loaded" r).
Proof.
  intros c p.
  refine (proj2 (status_push_loads_program (HB := release_profile) (HD := demo_decoders) (HF := demo_format)
    (HM := demo_hmac) (HML := demo_hmac_laws) demo_secret default_whitelist engineer_env demo_server
    c supervisor_session p [] eq_refl _ _ eq_refl _)); vm_compute; done.
Defined.

Lemma agent_authenticates_witness :
  let f := mkFrame zero_token METHOD_AUTH_REQUEST [7; 0; 0; 0; 2] in
  ∃ h, demo_handle engineer_env (conn_new 0) f = Some h ∧ s_role <$> session (h_conn h) = Some Supervisor.
Proof.
  intros f. destruct (demo_handle engineer_env (conn_new 0) f) as [h|] eqn:Hh; [|vm_compute in Hh; discriminate Hh].
  exists h. split; [done|]. destruct (session (h_conn h)) as [x|] eqn:Hx.
  - cbn. f_equal.
    refine (proj1 (proj2 (agent_authenticates (HB := release_profile) (HD := demo_decoders) (HF := demo_format)
      (HM := demo_hmac) (HML := demo_hmac_laws) (HI := demo_display) demo_secret default_whitelist engineer_env
      demo_server 0 7 h x [] eq_refl) Hh Hx)).
  - vm_compute in Hh. injection Hh as <-. vm_compute in Hx. discriminate Hx.
Defined.
