(* ===== verification/Simulation.v ===== *)
(** * The simulation harness ([audesys-runtime/src/simulation.rs])

    An engine over the in-process middleware whose transport the harness also
    holds: injecting a value publishes it where the engine's read barrier looks.
    Faults, recorded scenes and their playback.  A sleep of the harness is the
    list of the turns the engine's thread makes meanwhile; the parsing of
    floats is a parameter. *)
From S2P Require Import Prelude Float HalTypes HalValue HalIr FunctionBlocks Vm Executor Text TextFacts Transport Qos.
From S2P Require Import Middleware Signals Lifecycle Engine CommonTypes IpcWire.
From stdpp Require Import pretty.
Local Open Scope Z_scope.

(** ** The harness *)
Inductive FaultKind := Timeout | OutOfRange | Disconnect.
#[export] Instance FaultKind_eq_dec : EqDecision FaultKind.
Proof. solve_decision. Defined.
Record ActiveFault := mkFault {
  f_kind : FaultKind; f_signal : string; start_cycle : Z; duration_cycles : Z }.

Record SimulationHarness := mkSim {
  sim_engine : Engine (M := InprocMiddleware);
  faults : list ActiveFault;
  cycle_ms : Z;
  started : bool }.

Definition build_inproc_stack (now : Z) : InprocMiddleware :=
  mkMiddleware transport_new discovery_new qos_new audit_new now.
Definition sim_new (ms now : Z) : SimulationHarness :=
  mkSim (engine_new (build_inproc_stack now) lifecycle_new) [] ms false.
Definition sim_with_engine (h : SimulationHarness) (e : Engine) : SimulationHarness :=
  mkSim e (faults h) (cycle_ms h) (started h).
Definition with_faults (h : SimulationHarness) (fs : list ActiveFault) : SimulationHarness :=
  mkSim (sim_engine h) fs (cycle_ms h) (started h).
Definition with_started (h : SimulationHarness) (b : bool) : SimulationHarness :=
  mkSim (sim_engine h) (faults h) (cycle_ms h) b.

Definition sim_register_signal (h : SimulationHarness) (name : string) (t : HalPinType) (v : HalValue)
    (s : WriteStrategy) : SimulationHarness * result unit string :=
  let '(e, res) := Engine.register_signal (sim_engine h) (mkDef name t v s) in (sim_with_engine h e, res).

(** The transport is the one inside the engine's middleware. *)
Definition sim_set_signal (h : SimulationHarness) (name : string) (v : HalValue) : SimulationHarness :=
  let e := sim_engine h in
  sim_with_engine h (set_middleware e (publish_signal (middleware e) name v (mkTs 0 0)).1).
Definition sim_get_signal (h : SimulationHarness) (name : string) : SimulationHarness * option HalValue :=
  let e := sim_engine h in
  let '(mw, v) := read_signal (middleware e) name in
  (sim_with_engine h (set_middleware e mw), match v with Some (v, _) => Some v | None => None end).
Definition sim_snapshot (h : SimulationHarness) : list (string * HalValue) := Engine.signal_snapshot (sim_engine h).

Definition sim_start (h : SimulationHarness) : SimulationHarness :=
  if started h then h
  else let e := sim_engine h in
       with_started (sim_with_engine h (set_run e true (paused e) (step_requested e))) true.
Definition sim_stop (h : SimulationHarness) : SimulationHarness :=
  with_started (sim_with_engine h (stop (sim_engine h))) false.
Definition sim_pause (h : SimulationHarness) : SimulationHarness := sim_with_engine h (pause (sim_engine h)).
Definition sim_resume (h : SimulationHarness) : SimulationHarness := sim_with_engine h (Engine.resume (sim_engine h)).
Definition sim_step_cycle (h : SimulationHarness) : SimulationHarness := sim_with_engine h (step_cycle (sim_engine h)).
Definition sim_cycle_count (h : SimulationHarness) : Z := cycle_count (sim_engine h).
Definition sim_signals_published (h : SimulationHarness) : Z := m_signals_published (e_metrics (sim_engine h)).
Definition sim_is_running (h : SimulationHarness) : bool := is_running (sim_engine h).
Definition sim_drop (h : SimulationHarness) : SimulationHarness := if sim_is_running h then sim_stop h else h.

Section harness.
Context {HB : BuildProfile}.

(** What the engine's thread does while the harness sleeps: a list of turns.
    The harness loads no program, so the cycles complete, unless somebody
    registered a computed signal: then the thread is blocked in its cycle. *)
Definition thread_turn (h : SimulationHarness) (env : CycleEnv) : SimulationHarness :=
  if started h then
    match loop_turn env (sim_engine h) with
    | LoopCycle (CycleDone e _) => sim_with_engine h e
    | _ => h
    end
  else h.
Definition sim_sleep (h : SimulationHarness) (turns : list CycleEnv) : SimulationHarness := fold_left thread_turn turns h.

Definition run_for (h : SimulationHarness) (turns : list CycleEnv) : SimulationHarness :=
  sim_stop (sim_sleep (sim_start h) turns).
(** The time slept: [None] is the overflow of a checked build. *)
Definition sim_run_cycles_ms (h : SimulationHarness) (n : Z) : option Z :=
  p ← arith false 64 (cycle_ms h * n); arith false 64 (p + 20).
Definition sim_run_cycles (h : SimulationHarness) (n : Z) (turns : list CycleEnv) : option SimulationHarness :=
  match sim_run_cycles_ms h n with Some _ => Some (run_for h turns) | None => None end.

(** ** Faults *)
Definition inject_fault (h : SimulationHarness) (k : FaultKind) (s : string) (start duration : Z) : SimulationHarness :=
  with_faults h (faults h ++ [mkFault k s start duration]).
Definition clear_faults (h : SimulationHarness) : SimulationHarness := with_faults h [].

Definition fault_active (current : Z) (f : ActiveFault) : option bool :=
  if start_cycle f <=? current then
    e ← arith false 64 (start_cycle f + duration_cycles f); Some (current <? e)
  else Some false.
Fixpoint filter_active (current : Z) (fs : list ActiveFault) : option (list ActiveFault) :=
  match fs with
  | [] => Some []
  | f :: fs =>
      match fault_active current f, filter_active current fs with
      | Some b, Some l => Some (if b : bool then f :: l else l)
      | _, _ => None
      end
  end.
Definition active_faults (h : SimulationHarness) : option (list ActiveFault) :=
  filter_active (sim_cycle_count h) (faults h).

Definition F32_MAX : Z := 2139095039.
(** [None]: the type has no extreme, and the loop returns. *)
Definition extreme (v : HalValue) : option HalValue :=
  match v with
  | VF32 _ => Some (VF32 F32_MAX)
  | VU32 _ => Some (VU32 (2 ^ 32 - 1))
  | VS32 _ => Some (VS32 (2 ^ 31 - 1))
  | VBool b => Some (VBool (negb b))
  | _ => None
  end.
Fixpoint resolve_loop (signal : string) (v : HalValue) (fs : list ActiveFault) : HalValue * bool :=
  match fs with
  | [] => (v, true)
  | f :: fs =>
      if negb (String.eqb (f_signal f) signal) then resolve_loop signal v fs
      else match f_kind f with
           | Timeout | Disconnect => (v, false)
           | OutOfRange => match extreme v with Some v => resolve_loop signal v fs | None => (v, true) end
           end
  end.
Definition resolve_fault (h : SimulationHarness) (signal : string) (v : HalValue) : option (HalValue * bool) :=
  fs ← active_faults h; Some (resolve_loop signal v fs).

(** ** Scenes *)
Record Scene := mkScene {
  sc_name : string; sc_cycle_ms : Z; signal_names : list string; frames : list (gmap string string) }.

Context {HF : FloatFormat}.

Definition frame_of (h : SimulationHarness) : gmap string string :=
  list_to_map (map (fun '(n, v) => (n, hal_value_debug v)) (sim_snapshot h)).

(** [sleeps] gives the turns of the thread during the sleep after each step. *)
Fixpoint record_frames (h : SimulationHarness) (sleeps : list (list CycleEnv))
  : SimulationHarness * list (gmap string string) :=
  match sleeps with
  | [] => (h, [])
  | turns :: sleeps =>
      let h := sim_sleep (sim_step_cycle h) turns in
      let '(h', fs) := record_frames h sleeps in (h', frame_of h :: fs)
  end.
Definition sim_record (h : SimulationHarness) (name : string) (sleeps : list (list CycleEnv))
  : SimulationHarness * Scene :=
  let names := (sim_snapshot h).*1 in
  let '(h', fs) := record_frames h sleeps in (h', mkScene name (cycle_ms h) names fs).

Class FloatParse := { parse32 : string → option Z; parse64 : string → option Z }.
Context {HP : FloatParse}.

Definition strip_wrap (p s : string) : option string :=
  if starts_with s p then
    let r := str_from s (String.length p) in
    if ends_with_char r ")" then Some (drop_last r) else None
  else None.
Definition parse_hal_value (s : string) : option HalValue :=
  let s := trim s in
  match strip_wrap "Bool(" s with
  | Some inner => Some (VBool (String.eqb inner "true"))
  | None =>
  match strip_wrap "U32(" s with
  | Some inner => VU32 <$> parse_number false 32 inner
  | None =>
  match strip_wrap "S32(" s with
  | Some inner => VS32 <$> parse_number true 32 inner
  | None =>
  match strip_wrap "F32(" s with
  | Some inner => VF32 <$> parse32 inner
  | None =>
  match strip_wrap "F64(" s with
  | Some inner => VF64 <$> parse64 inner
  | None => None
  end end end end end.

(** The entries of a frame, in the order in which the map yields them. *)
Definition inject_frame (h : SimulationHarness) (frame : gmap string string) : SimulationHarness :=
  fold_left (fun h '(name, val_str) =>
    match parse_hal_value val_str with Some v => sim_set_signal h name v | None => h end) (map_to_list frame) h.
Fixpoint play_frames (h : SimulationHarness) (fs : list (gmap string string)) (sleeps : list (list CycleEnv))
  : SimulationHarness :=
  match fs with
  | [] => h
  | f :: fs => play_frames (sim_sleep (sim_step_cycle (inject_frame h f)) (default [] (head sleeps))) fs (tail sleeps)
  end.
Definition play (h : SimulationHarness) (s : Scene) (sleeps : list (list CycleEnv)) : SimulationHarness :=
  sim_stop (play_frames (sim_start h) (frames s) sleeps).
End harness.

(** What Rust's [Debug] and [FromStr] of floats guarantee: the text of a number
    has no blanks and parses back to it. *)
Class FloatTextLaws `{FloatFormat, FloatParse} := {
  debug32_plain : ∀ b, no_space (debug32 b) = true;
  debug64_plain : ∀ b, no_space (debug64 b) = true;
  parse_debug32 : ∀ b, in_u 32 b = true → float_eqb binary32 b b = true → parse32 (debug32 b) = Some b;
  parse_debug64 : ∀ b, in_u 64 b = true → float_eqb binary64 b b = true → parse64 (debug64 b) = Some b }.

(** ** Facts: scenes *)
Lemma strip_wrap_ok p s : strip_wrap p (p +:+ s +:+ ")") = Some s.
Proof.
  unfold strip_wrap. assert (starts_with (p +:+ s +:+ ")") p = true) as ->.
  { unfold starts_with. rewrite chars_app. apply starts_with_chars_app. }
  rewrite str_from_app. unfold ends_with_char, drop_last. rewrite chars_app, rev_app_distr. cbn.
  by rewrite rev_involutive, of_chars_chars.
Qed.

(** The value a played scene injects for a recorded one. *)
Definition replayable (v : HalValue) : option HalValue :=
  match v with VBool _ | VU32 _ | VS32 _ | VF32 _ | VF64 _ => Some v | _ => None end.
Definition number_wf (v : HalValue) : bool :=
  match v with
  | VU32 n => in_u 32 n | VS32 n => in_s 32 n
  | VF32 b => in_u 32 b && float_eqb binary32 b b
  | VF64 b => in_u 64 b && float_eqb binary64 b b
  | _ => true
  end.

Lemma trim_debug `{FloatFormat} v : trim (hal_value_debug v) = hal_value_debug v.
Proof.
  apply trim_id; intros c l; destruct v; try (match goal with b : bool |- _ => destruct b end);
    cbn [hal_value_debug]; rewrite ?chars_app, ?rev_app_distr; cbn; by intros [= <- _].
Qed.

(** A recorded value is played back unchanged if it is a Boolean, a 32-bit
    integer or a float that is not a NaN; a value of any other type is written
    to the scene but silently skipped when the scene is played. *)
Theorem scene_value_roundtrip `{FloatFormat, FloatParse, !FloatTextLaws} v :
  number_wf v = true → parse_hal_value (hal_value_debug v) = replayable v.
Proof.
  intros Hv. unfold parse_hal_value. rewrite trim_debug.
  destruct v; cbn [hal_value_debug replayable]; cbn [number_wf] in Hv; breflect; try reflexivity.
  - rewrite strip_wrap_ok. by destruct b.
  - change (strip_wrap "Bool(" ("S32(" +:+ ?x)) with (@None string).
    change (strip_wrap "U32(" ("S32(" +:+ ?x)) with (@None string).
    rewrite strip_wrap_ok, parse_number_pretty by done. done.
  - change (strip_wrap "Bool(" ("U32(" +:+ ?x)) with (@None string).
    rewrite strip_wrap_ok, parse_number_pretty by done. done.
  - change (strip_wrap "Bool(" ("F32(" +:+ ?x)) with (@None string).
    change (strip_wrap "U32(" ("F32(" +:+ ?x)) with (@None string).
    change (strip_wrap "S32(" ("F32(" +:+ ?x)) with (@None string).
    by rewrite strip_wrap_ok, parse_debug32.
  - change (strip_wrap "Bool(" ("F64(" +:+ ?x)) with (@None string).
    change (strip_wrap "U32(" ("F64(" +:+ ?x)) with (@None string).
    change (strip_wrap "S32(" ("F64(" +:+ ?x)) with (@None string).
    change (strip_wrap "F32(" ("F64(" +:+ ?x)) with (@None string).
    by rewrite strip_wrap_ok, parse_debug64.
Qed.

(** ** Facts: faults *)
Definition suppresses (signal : string) (f : ActiveFault) : bool :=
  String.eqb (f_signal f) signal && negb (bool_decide (f_kind f = OutOfRange)).
Definition distorts (signal : string) (f : ActiveFault) : bool :=
  String.eqb (f_signal f) signal && bool_decide (f_kind f = OutOfRange).

Lemma extreme_again v w : extreme v = Some w → is_Some (extreme w).
Proof. destruct v; cbn; intros; simplify_eq; cbn; eauto. Qed.

(** Faults on a value whose type has an extreme: the value is suppressed
    exactly when a timeout or disconnect fault on its signal is among the active
    ones.  An out-of-range fault on any other type returns at once and hides
    such a fault that comes after it; and since Booleans are inverted, two
    out-of-range faults on one cancel. *)
Theorem resolve_loop_spec signal v fs :
  ((is_Some (extreme v)) → (resolve_loop signal v fs).2 = negb (existsb (suppresses signal) fs)) ∧
  (extreme v = None → ∀ k, k ≠ OutOfRange → ∀ s d s' d',
     resolve_loop signal v (mkFault OutOfRange signal s d :: mkFault k signal s' d' :: fs) = (v, true)) ∧
  (∀ b, v = VBool b → existsb (suppresses signal) fs = false →
     resolve_loop signal v fs = (VBool (xorb b (Nat.odd (length (List.filter (distorts signal) fs)))), true)).
Proof.
  split; [|split].
  - induction fs as [|f fs IH] in v |- *; [done|]. intros Hv. cbn [resolve_loop existsb].
    unfold suppresses at 1. destruct (String.eqb (f_signal f) signal); cbn [negb andb orb]; [|by apply IH].
    destruct (f_kind f); cbn; try done. destruct Hv as [w Hw]. rewrite Hw. apply IH. by eapply extreme_again.
  - intros Hv k Hk s d s' d'. cbn [resolve_loop f_signal f_kind]. rewrite String.eqb_refl. cbn [negb]. by rewrite Hv.
  - induction fs as [|f fs IH] in v |- *; intros b -> Hs; [cbn; by rewrite xorb_false_r|].
    cbn [existsb] in Hs. apply orb_false_iff in Hs as [Hf Hs]. cbn [resolve_loop List.filter].
    unfold suppresses in Hf. unfold distorts at 1.
    destruct (String.eqb (f_signal f) signal); cbn [negb andb] in *; [|by apply IH].
    destruct (f_kind f); try discriminate Hf. cbn [extreme]. rewrite (IH _ (negb b) eq_refl Hs).
    rewrite bool_decide_true by done. cbn [length]. rewrite Nat.odd_succ, <- Nat.negb_odd.
    by destruct b, (Nat.odd _).
Qed.

(** A fault meant to last for ever: past its start cycle its end overflows. *)
Lemma forever_fault h k s start current :
  0 < start <= current → current < 2 ^ 64 →
  fault_active (HB := debug_profile) current (mkFault k s start (2 ^ 64 - 1)) = None ∧
  fault_active (HB := release_profile) current (mkFault k s start (2 ^ 64 - 1)) = Some false ∧
  faults (inject_fault h k s start (2 ^ 64 - 1)) = faults h ++ [mkFault k s start (2 ^ 64 - 1)].
Proof.
  intros Hs Hc. unfold fault_active. cbn [start_cycle duration_cycles].
  rewrite (proj2 (Z.leb_le _ _)) by lia. unfold arith.
  assert (Prelude.in_int false 64 (start + (2 ^ 64 - 1)) = false) as ->.
  { apply not_true_iff_false. intros H. apply in_u_spec in H. lia. }
  split; [done|]. split; [|done]. cbn -[Z.pow wrap_u]. unfold wrap.
  assert (wrap_u 64 (start + (2 ^ 64 - 1)) = start - 1) as ->.
  { unfold wrap_u. replace (start + (2 ^ 64 - 1)) with (start - 1 + 1 * 2 ^ 64) by lia.
    rewrite Z.mod_add by lia. apply Z.mod_small. lia. }
  by rewrite (proj2 (Z.ltb_ge _ _)) by lia.
Qed.

(** ** Facts: the engine behind the harness *)
Section cycles.
Context {HB : BuildProfile}.

(** The engine of a harness: no program, no swap, no computed signal. *)
Definition plain_engine (e : Engine (M := InprocMiddleware)) : Prop :=
  registry_wf (e_signals e) ∧ hal_executor e = None ∧ swap_committed e = false ∧ ¬ has_computed (e_signals e).

Lemma plain_configured (e : Engine (M := InprocMiddleware)) :
  plain_engine e → ∀ n, e_signals (configured e) !! n = e_signals e !! n.
Proof.
  intros (_ & _ & Hs & _) n. unfold configured, swap_barrier. destruct (config_barrier_frame e n) as [Hsg _].
  pose proof (config_barrier_view e) as Hcv. unfold swap_view in Hcv. injection Hcv as _ _ _ H4.
  by rewrite H4, Hs, Hsg.
Qed.

Lemma cycle_flags (env : CycleEnv) (e e' : Engine (M := InprocMiddleware)) o :
  cycle env e = CycleDone e' o →
  (running e', paused e', step_requested e') = (running e, paused e, step_requested e).
Proof.
  intros Hc. apply cycle_inv in Hc as (e1 & Hex & -> & _). apply before_write_stats in Hex.
  destruct (supervise_frame env (write_barrier e1).1) as (_ & _ & _ & _ & _ & _ & Hf). rewrite Hf.
  unfold stats_view in Hex. injection Hex as _ _ _ <- <- <-.
  unfold write_barrier. by destruct (publish_own _ _ _) as [[??]?].
Qed.

Lemma plain_cycle env e :
  plain_engine e →
  ∃ e' o, cycle env e = CycleDone e' o ∧ plain_engine e' ∧
    ∀ n, e_signals e' !! n =
      (fun d => set_value d (input_value (middleware e) n d)) <$> e_signals e !! n.
Proof.
  intros Hplain. pose proof (plain_configured e Hplain) as Hconf. destruct Hplain as (Hr & Hx & Hs & Hnc).
  assert (has_computed (e_signals (prologue env e)) → has_computed (e_signals e)) as Hcp.
  { rewrite prologue_computed by done. intros (n & d & f & Hd & Hf). exists n, d, f. by rewrite <- Hconf. }
  assert (swap_view (prologue env e) = swap_view e) as Hv.
  { rewrite prologue_view. pose proof (config_barrier_view e) as Hv. unfold swap_barrier.
    unfold swap_view in *. injection Hv as H1 H2 H3 H4. rewrite H4, Hs. congruence. }
  revert Hv. set (e1 := prologue env e). intros Hv.
  assert (swap_committed e1 = swap_committed e) as Hv4 by exact (f_equal (fun v => v.2) Hv).
  assert (program <$> hal_executor e1 = program <$> hal_executor e) as Hv2
    by exact (f_equal (fun v => v.1.1.2) Hv).
  rewrite Hx in Hv2. assert (hal_executor e1 = None) as Hx' by (by destruct (hal_executor e1)).
  assert (execute_phase env e1 = Some (Some e1)) as Hex
    by (unfold execute_phase; by rewrite Hx').
  pose proof (prologue_wf env e Hr) as Hw1. fold e1 in Hw1.
  unfold cycle. fold e1 in Hcp |- *. destruct (compute_phase_spec env e1 Hw1) as [[Hbad _]|[_ ->]]; [naive_solver|].
  rewrite Hex. destruct (write_barrier e1) as [e2 ds] eqn:Ew.
  exists (supervise env e2), (mkOutputs ds (push_phase env e2)). split; [done|].
  destruct (supervise_frame env e2) as (Hsig & _ & _ & He & _ & Hc & _).
  assert (e_signals e2 = e_signals e1 ∧ hal_executor e2 = None ∧ swap_committed e2 = false) as (E1 & E2 & E3).
  { unfold write_barrier in Ew. destruct (publish_own _ _ _) as [[mw mt] ds']. injection Ew as <- _.
    split; [done|]. split; [exact Hx' | exact (eq_trans Hv4 Hs)]. }
  unfold plain_engine. rewrite Hsig, He, Hc, E1, E2, E3. split; [by split_and!; [..|intros ?%Hcp]|].
  intros n. unfold e1. by rewrite prologue_signals, Hconf by done.
Qed.

(** Injection works: a value set from outside is what the transport holds,
    and after the next cycle it is the value of the monitored signal in the
    engine's registry; owned signals keep their own value.  The cycle always
    completes, for a harness loads no program and registered no computed signal. *)
Theorem injection_reaches_engine h n v env d :
  plain_engine (sim_engine h) →
  e_signals (sim_engine h) !! n = Some d →
  (sim_get_signal (sim_set_signal h n v) n).2 = Some v ∧
  ∃ e' o, cycle env (sim_engine (sim_set_signal h n v)) = CycleDone e' o ∧
    (sd_strategy d = SMonitored → e_signals e' !! n = Some (set_value d v)) ∧
    (sd_strategy d = SOwn → e_signals e' !! n = Some (set_value d (sd_value d))).
Proof.
  intros Hp Hn. split.
  - unfold sim_get_signal, sim_set_signal. cbn [sim_engine sim_with_engine middleware set_middleware].
    pose proof (read_publish_same (middleware (sim_engine h)) n v (mkTs 0 0)) as H.
    destruct (read_signal _ n) as [mw w]. cbn in *. by subst w.
  - destruct (plain_cycle env (sim_engine (sim_set_signal h n v)) Hp) as (e' & o & Hc & _ & Hs).
    exists e', o. split; [done|]. rewrite Hs. cbn [sim_set_signal sim_with_engine sim_engine set_middleware e_signals].
    rewrite Hn. unfold input_value.
    pose proof (read_publish_same (middleware (sim_engine h)) n v (mkTs 0 0)) as Hread.
    split; intros Hd; cbn -[read_signal publish_signal] in *; rewrite Hd; [|done]. by rewrite Hread.
Qed.

(** ** The pause left behind *)

(** Paused, with no request pending. *)
Definition resting (h : SimulationHarness) : Prop :=
  plain_engine (sim_engine h) ∧ paused (sim_engine h) = true ∧ step_requested (sim_engine h) = false.

Lemma resting_sleep h turns : resting h → sim_sleep h turns = h.
Proof.
  intros (_ & Hp & Hs). unfold sim_sleep. induction turns as [|env turns IH]; [done|]. cbn.
  assert (thread_turn h env = h) as ->; [|done].
  unfold thread_turn. destruct (started h); [|done]. unfold loop_turn. rewrite Hp, Hs.
  by destruct (negb (running (sim_engine h))).
Qed.

(** One step of a started, running harness that sleeps long enough for a turn. *)
Lemma stepped_rests h env turns :
  started h = true → plain_engine (sim_engine h) → running (sim_engine h) = true →
  let h' := sim_sleep (sim_step_cycle h) (env :: turns) in
  resting h' ∧ started h' = true ∧ running (sim_engine h') = true.
Proof.
  intros Hst Hp Hr. cbn zeta. unfold sim_sleep. cbn [fold_left].
  unfold thread_turn at 2 4 6. cbn [started sim_step_cycle sim_with_engine sim_engine]. rewrite Hst.
  unfold loop_turn. cbn [running paused step_requested step_cycle set_run]. rewrite Hr. cbn [negb andb].
  set (e0 := set_run _ true true false).
  assert (plain_engine e0) as Hp0 by exact Hp.
  destruct (plain_cycle env e0 Hp0) as (e' & o & Hc & Hp' & _). rewrite Hc.
  apply cycle_flags in Hc. injection Hc as F1 F2 F3.
  assert (resting (sim_with_engine (mkSim (step_cycle (sim_engine h)) (faults h) (cycle_ms h) (started h)) e'))
    as Hrest by (split; [exact Hp' | split; [exact F2 | exact F3]]).
  pose proof (resting_sleep _ turns Hrest) as E. unfold sim_sleep, sim_step_cycle in *.
  unfold sim_with_engine in *. cbn [faults cycle_ms started sim_engine] in *. rewrite E.
  split; [exact Hrest|]. split; [exact Hst | exact F1].
Qed.

Context {HF : FloatFormat} {HP : FloatParse}.

Lemma inject_frame_same h f :
  started (inject_frame h f) = started h ∧ running (sim_engine (inject_frame h f)) = running (sim_engine h) ∧
  (plain_engine (sim_engine h) → plain_engine (sim_engine (inject_frame h f))).
Proof.
  unfold inject_frame. generalize (map_to_list f). intros l.
  induction l as [|[n s] l IH] in h |- *; [done|]. cbn [fold_left].
  destruct (parse_hal_value s) as [v|]; [|apply IH].
  destruct (IH (sim_set_signal h n v)) as (-> & -> & H). split; [done|]. split; [done|]. intros Hp. by apply H.
Qed.

(** Playing a scene leaves the engine paused: after a playback of at least
    one frame whose sleeps let the thread turn, running the harness again runs
    no cycle at all, for any number of turns, until somebody resumes it. *)
Theorem play_leaves_paused h s sleeps turns :
  plain_engine (sim_engine h) → started h = false →
  frames s ≠ [] → length sleeps = length (frames s) → Forall (fun l => l ≠ []) sleeps →
  let h' := play h s sleeps in
  paused (sim_engine h') = true ∧
  cycle_count (sim_engine (run_for h' turns)) = cycle_count (sim_engine h') ∧
  e_signals (sim_engine (run_for h' turns)) = e_signals (sim_engine h').
Proof.
  intros Hp Hst Hne Hlen Hs. cbn zeta.
  assert (∀ fs sl h0, started h0 = true → plain_engine (sim_engine h0) → running (sim_engine h0) = true →
            fs ≠ [] → length sl = length fs → Forall (fun l => l ≠ []) sl → resting (play_frames h0 fs sl)) as H.
  { induction fs as [|f fs IH]; intros sl h0 H1 H2 H3 Hf Hl Hsl; [done|].
    destruct Hsl as [|[|env ts] sl Ht Hsl]; [done|done|]. cbn [play_frames head default tail].
    destruct (inject_frame_same h0 f) as (E1 & E2 & E3).
    destruct (stepped_rests (inject_frame h0 f) env ts) as (R & S & T); [congruence | by apply E3 | congruence |].
    change (default [] (Some ?l)) with l.
    destruct fs as [|f' fs]; [exact R|]. apply IH; try done; [apply R|]. by injection Hl as ->. }
  specialize (H (frames s) sleeps (sim_start h)).
  assert (resting (play_frames (sim_start h) (frames s) sleeps)) as Hrest.
  { apply H; try done; unfold sim_start; rewrite Hst; [done | exact Hp | done]. }
  unfold play. set (h1 := play_frames _ _ _) in *. destruct Hrest as (Hp1 & Hpa & Hse).
  split; [exact Hpa|]. unfold run_for. rewrite resting_sleep; [done|].
  split; [exact Hp1 | split; [exact Hpa | exact Hse]].
Qed.
End cycles.

(** ** Witnesses *)
Definition bits_format : FloatFormat :=
  {| exp32 := fun b => pretty (Z.abs b); exp64 := fun b => pretty (Z.abs b);
     debug32 := fun b => pretty (Z.abs b); debug64 := fun b => pretty (Z.abs b) |}.
Definition bits_parse : FloatParse := {| parse32 := parse_number false 32; parse64 := parse_number false 64 |}.
Lemma bits_laws : FloatTextLaws (H := bits_format) (H0 := bits_parse).
Proof.
  split; intros b; unfold debug32, debug64, parse32, parse64, bits_format, bits_parse.
  - apply pretty_no_space. lia.
  - apply pretty_no_space. lia.
  - intros Hb _. apply in_u_spec in Hb as Hb'. rewrite Z.abs_eq by lia. by apply parse_number_pretty.
  - intros Hb _. apply in_u_spec in Hb as Hb'. rewrite Z.abs_eq by lia. by apply parse_number_pretty.
Qed.

Lemma scene_value_roundtrip_witness :
  parse_hal_value (HP := bits_parse) (hal_value_debug (H := bits_format) (VS32 (-7))) = Some (VS32 (-7)) ∧
  parse_hal_value (HP := bits_parse) (hal_value_debug (H := bits_format) (VU16 7)) = None.
Proof.
  split; by apply (scene_value_roundtrip (H := bits_format) (H0 := bits_parse) (H1 := bits_laws)).
Defined.

Lemma resolve_loop_spec_witness :
  resolve_loop "x" (VU16 1) [mkFault OutOfRange "x" 0 5; mkFault Timeout "x" 0 5] = (VU16 1, true) ∧
  (resolve_loop "x" (VU32 1) [mkFault OutOfRange "x" 0 5; mkFault Timeout "x" 0 5]).2 = false.
Proof.
  split.
  - by apply (resolve_loop_spec "x" (VU16 1) []).
  - rewrite (proj1 (resolve_loop_spec "x" (VU32 1) _)); [reflexivity | by eexists].
Defined.

Definition demo_sim : SimulationHarness :=
  (sim_register_signal (sim_new 1 0) "sensor.temp" TF32 (VF32 0) SMonitored).1.
Lemma demo_sim_plain : plain_engine (sim_engine demo_sim).
Proof.
  split; [|split; [reflexivity|split; [reflexivity|]]].
  - unfold demo_sim, sim_register_signal, Engine.register_signal.
    pose proof (register_wf (e_signals (sim_engine (sim_new 1 0))) (mkDef "sensor.temp" TF32 (VF32 0) SMonitored)) as H.
    destruct (Signals.register _ _). apply H, registry_new_wf.
  - apply no_computed, (bool_decide_unpack _). vm_compute. reflexivity.
Defined.

Lemma injection_reaches_engine_witness :
  ∃ e' o, cycle (HB := release_profile) demo_env (sim_engine (sim_set_signal demo_sim "sensor.temp" (VF32 42))) = CycleDone e' o ∧
    e_signals e' !! "sensor.temp" = Some (mkDef "sensor.temp" TF32 (VF32 42) SMonitored).
Proof.
  destruct (injection_reaches_engine (HB := release_profile) demo_sim "sensor.temp" (VF32 42) demo_env
              (mkDef "sensor.temp" TF32 (VF32 0) SMonitored) demo_sim_plain ltac:(vm_compute; reflexivity))
    as (_ & e' & o & Hc & Hm & _).
  exists e', o. split; [exact Hc|]. by apply Hm.
Defined.

Lemma play_leaves_paused_witness :
  paused (sim_engine (play (HB := release_profile) (HP := bits_parse) demo_sim
    (mkScene "s" 1 ["sensor.temp"] [{[ "sensor.temp" := "U32(5)" ]}]) [[demo_env]])) = true.
Proof.
  apply (play_leaves_paused (HB := release_profile) (HP := bits_parse) demo_sim
    (mkScene "s" 1 ["sensor.temp"] [{[ "sensor.temp" := "U32(5)" ]}]) [[demo_env]] []);
    [apply demo_sim_plain | reflexivity | discriminate | reflexivity | by repeat constructor].
Defined.
