(* ===== verification/StLexer.v ===== *)
(** * Structured Text tokens ([audesys-hal-binding-gen/src/lexer.rs])

    The lexer of the Structured Text compiler, on ASCII text.  It works on the
    characters that are left, with the line and column of the next one. *)
From Stdlib Require Import SpecFloat.
From S2P Require Import Prelude Float Text.
Local Open Scope Z_scope.

Inductive Token :=
  | KProgram | KEndProgram | KVar | KEndVar | KIf | KThen | KElse | KEndIf
  | KWhile | KDo | KEndWhile | KFor | KTo | KBy | KEndFor | KCase | KOf | KEndCase
  | KRepeat | KUntil | KEndRepeat | KReturn | KExit | KFunction | KEndFunction
  | KFunctionBlock | KEndFunctionBlock | KVarInput | KVarOutput | KVarInOut
  | KAnd | KOr | KNot
  | KInt | KReal | KBool | KDInt | KLReal | KByte | KWord | KDWord | KSInt | KUSInt
  | KUInt | KULInt | KLInt | KTime | KDate | KTOD | KDT | KString | KArray
  | KAssign | KPlus | KMinus | KStar | KSlash | KEqual | KNotEqual | KGreater | KLess
  | KGreaterEq | KLessEq | KMod | KXor
  | KSemicolon | KColon | KLParen | KRParen | KComma | KLBracket | KRBracket | KDotDot | KDot
  | KTon | KTof | KTp | KCtu | KCtd | KCtud | KSr | KRs | KRTrig | KFTrig
  | KIdentifier (s : string) | KIntegerLiteral (n : Z) | KRealLiteral (bits : Z).
#[export] Instance StToken_eq_dec : EqDecision Token.
Proof. solve_decision. Defined.

Record Span := mkSpan { sp_line : nat; sp_col : nat }.
Record TokenInfo := mkTok { tok : Token; span : Span }.

Inductive LexError :=
  | UnexpectedChar (c : ascii) (line col : nat)
  | UnterminatedString (line col : nat).

Definition keywords : list (string * Token) :=
  [("PROGRAM", KProgram); ("END_PROGRAM", KEndProgram); ("VAR", KVar); ("END_VAR", KEndVar);
   ("IF", KIf); ("THEN", KThen); ("ELSE", KElse); ("END_IF", KEndIf); ("WHILE", KWhile); ("DO", KDo);
   ("END_WHILE", KEndWhile); ("FOR", KFor); ("TO", KTo); ("BY", KBy); ("END_FOR", KEndFor);
   ("CASE", KCase); ("OF", KOf); ("END_CASE", KEndCase); ("REPEAT", KRepeat); ("UNTIL", KUntil);
   ("END_REPEAT", KEndRepeat); ("RETURN", KReturn); ("EXIT", KExit); ("FUNCTION", KFunction);
   ("END_FUNCTION", KEndFunction); ("FUNCTION_BLOCK", KFunctionBlock);
   ("END_FUNCTION_BLOCK", KEndFunctionBlock); ("VAR_INPUT", KVarInput); ("VAR_OUTPUT", KVarOutput);
   ("VAR_IN_OUT", KVarInOut); ("AND", KAnd); ("OR", KOr); ("NOT", KNot); ("MOD", KMod); ("XOR", KXor);
   ("INT", KInt); ("REAL", KReal); ("BOOL", KBool); ("DINT", KDInt); ("LREAL", KLReal); ("BYTE", KByte);
   ("WORD", KWord); ("DWORD", KDWord); ("SINT", KSInt); ("USINT", KUSInt); ("UINT", KUInt);
   ("ULINT", KULInt); ("LINT", KLInt); ("TIME", KTime); ("DATE", KDate); ("TOD", KTOD); ("DT", KDT);
   ("STRING", KString); ("ARRAY", KArray); ("TON", KTon); ("TOF", KTof); ("TP", KTp); ("CTU", KCtu);
   ("CTD", KCtd); ("CTUD", KCtud); ("SR", KSr); ("RS", KRs); ("R_TRIG", KRTrig); ("F_TRIG", KFTrig)].

Definition match_keyword (s : string) : Token :=
  match List.find (fun '(k, _) => bool_decide (k = s)) keywords with
  | Some (_, t) => t
  | None => KIdentifier s
  end.

(** The operators and delimiters, two-character ones first, with the number of
    characters. *)
Definition symbol (l : list ascii) : option (Token * nat) :=
  match l with
  | ":"%char :: "="%char :: _ => Some (KAssign, 2)
  | ":"%char :: _ => Some (KColon, 1)
  | "<"%char :: ">"%char :: _ => Some (KNotEqual, 2)
  | "<"%char :: "="%char :: _ => Some (KLessEq, 2)
  | "<"%char :: _ => Some (KLess, 1)
  | ">"%char :: "="%char :: _ => Some (KGreaterEq, 2)
  | ">"%char :: _ => Some (KGreater, 1)
  | "+"%char :: _ => Some (KPlus, 1)
  | "-"%char :: _ => Some (KMinus, 1)
  | "*"%char :: _ => Some (KStar, 1)
  | "/"%char :: _ => Some (KSlash, 1)
  | "="%char :: _ => Some (KEqual, 1)
  | ";"%char :: _ => Some (KSemicolon, 1)
  | "("%char :: _ => Some (KLParen, 1)
  | ")"%char :: _ => Some (KRParen, 1)
  | ","%char :: _ => Some (KComma, 1)
  | "["%char :: _ => Some (KLBracket, 1)
  | "]"%char :: _ => Some (KRBracket, 1)
  | "."%char :: "."%char :: _ => Some (KDotDot, 2)
  | "."%char :: _ => Some (KDot, 1)
  | _ => None
  end%nat.

(** Inside a comment, [depth] levels deep: what is left, with its position.  A
    comment that does not end runs to the end of the text. *)
Fixpoint skip_comment (depth : nat) (l : list ascii) (line col : nat) : list ascii * nat * nat :=
  match depth with
  | O => (l, line, col)
  | S d =>
      match l with
      | [] => ([], line, col)
      | c :: l1 =>
          let one := if Ascii.eqb c newline then skip_comment depth l1 (S line) 1
                     else skip_comment depth l1 line (S col) in
          match l1 with
          | c2 :: l2 =>
              if Ascii.eqb c "(" && Ascii.eqb c2 "*" then skip_comment (S depth) l2 line (S (S col))
              else if Ascii.eqb c "*" && Ascii.eqb c2 ")" then skip_comment d l2 line (S (S col))
              else one
          | [] => one
          end
      end
  end.

Definition is_ident_start (c : ascii) : bool := is_alphabetic c || Ascii.eqb c "_".
Definition is_ident_char (c : ascii) : bool := is_alphanumeric c || Ascii.eqb c "_".

(** The longest prefix whose characters satisfy [p], and the rest. *)
Fixpoint span_while (p : ascii → bool) (l : list ascii) : list ascii * list ascii :=
  match l with
  | c :: l' => if p c then let '(a, b) := span_while p l' in (c :: a, b) else ([], l)
  | [] => ([], [])
  end.

(** Digits, with a dot if a digit follows it: the digits, whether there was a
    dot, and the rest. *)
Fixpoint lex_number (is_real : bool) (l : list ascii) : list ascii * bool * list ascii :=
  match l with
  | [] => ([], is_real, [])
  | c :: l' =>
      if is_digit c then let '(s, r, k) := lex_number is_real l' in (c :: s, r, k)
      else if Ascii.eqb c "." then
        if is_real then ([], is_real, l)
        else match l' with
             | d :: _ =>
                 if is_digit d then let '(s, r, k) := lex_number true l' in (c :: s, r, k)
                 else ([], false, l)
             | [] => ([], false, l)
             end
      else ([], is_real, l)
  end.

Definition digit_value (c : ascii) : Z := byte_of_ascii c - 48.
Definition digits_value (l : list ascii) : Z := fold_left (fun n c => 10 * n + digit_value c) l 0.

(** [num_str.parse::<i64>().unwrap_or(0)]. *)
Definition parse_i64 (l : list ascii) : Z :=
  let n := digits_value l in if in_s 64 n then n else 0.

(** The double nearest to [m / 10 ^ k]. *)
Definition decimal_f64 (m : Z) (k : nat) : Z :=
  match m, 10 ^ Z.of_nat k with
  | Zpos p, Zpos q =>
      let '(mz, ez, lz) := SFdiv_core_binary (prec binary64) (emax binary64) (Zpos p) 0 (Zpos q) 0 in
      float_encode binary64 (binary_round_aux (prec binary64) (emax binary64) false mz ez lz)
  | _, _ => f64_zero
  end.

(** [num_str.parse::<f64>()] on digits, a dot and digits. *)
Definition parse_real (l : list ascii) : Z :=
  let '(int, rest) := span_while is_digit l in
  let frac := tl rest in
  decimal_f64 (digits_value (int ++ frac)) (length frac).

(** One turn of the loop: at most one token, what is left and its position. *)
Definition lex_step (l : list ascii) (line col : nat)
  : result (option Token * list ascii * nat * nat) LexError :=
  match l with
  | [] => Ok (None, [], line, col)
  | ch :: l1 =>
      if Ascii.eqb ch newline then Ok (None, l1, S line, 1%nat)
      else if Ascii.eqb ch " " || Ascii.eqb ch carriage_return || Ascii.eqb ch "009" then
        Ok (None, l1, line, S col)
      else match l with
      | "("%char :: "*"%char :: l2 =>
          let '(k, line, col) := skip_comment 1 l2 line (S (S col)) in Ok (None, k, line, col)
      | _ =>
          match symbol l with
          | Some (t, n) => Ok (Some t, drop n l, line, (col + n)%nat)
          | None =>
              if is_ident_start ch then
                let '(w, k) := span_while is_ident_char l in
                Ok (Some (match_keyword (of_chars w)), k, line, (col + length w)%nat)
              else if is_digit ch then
                let '(s, is_real, k) := lex_number false l in
                Ok (Some (if is_real then KRealLiteral (parse_real s) else KIntegerLiteral (parse_i64 s)),
                    k, line, (col + length s)%nat)
              else Err (UnexpectedChar ch line col)
          end
      end
  end.

(** Every turn consumes a character, so the length of the text is enough fuel. *)
Fixpoint lex_loop (fuel : nat) (l : list ascii) (line col : nat) : result (list TokenInfo) LexError :=
  match fuel, l with
  | S fuel, _ :: _ =>
      match lex_step l line col with
      | Ok (t, k, line', col') =>
          let? ts := lex_loop fuel k line' col' in
          Ok (match t with Some t => mkTok t (mkSpan line col) :: ts | None => ts end)
      | Err e => Err e
      end
  | _, _ => Ok []
  end.

Definition tokenize (source : string) : result (list TokenInfo) LexError :=
  let l := chars source in lex_loop (length l) l 1 1.
