(* ===== verification/StParser.v ===== *)
(** * Structured Text syntax ([audesys-hal-binding-gen/src/parser.rs])

    The syntax tree and the recursive-descent parser.  The parser state is the
    list of tokens that are left.  Recursion carries fuel; [None] is fuel
    running out, which the bound of [parse_program] rules out. *)
From S2P Require Import Prelude Float StLexer.
Local Open Scope Z_scope.

Inductive VarType :=
  | TyInt | TyReal | TyBool | TyDInt | TyLReal | TyByte | TyWord | TyDWord | TySInt | TyUSInt
  | TyUInt | TyULInt | TyLInt | TyTime | TyDate | TyTOD | TyDT | TyString | TyArray
  | TyTon | TyTof | TyTp | TyCtu | TyCtd | TyCtud | TySr | TyRs | TyRTrig | TyFTrig.
#[export] Instance VarType_eq_dec : EqDecision VarType.
Proof. solve_decision. Defined.

Inductive BinOp := Add | Sub | Mul | Div | Eq_ | Neq | Gt_ | Lt_ | Gte | Lte | And_ | Or_ | Mod_ | Xor_.
Inductive UnaryOp := Neg | Not_.
#[export] Instance StBinOp_eq_dec : EqDecision BinOp.
Proof. solve_decision. Defined.

Inductive Expr :=
  | IntLiteral (n : Z)
  | RealLiteral (bits : Z)
  | BoolLiteral (b : bool)
  | Variable_ (name : string)
  | Binary (l : Expr) (op : BinOp) (r : Expr)
  | Unary (op : UnaryOp) (e : Expr)
  | ArrayAccess (name : string) (index : Expr)
  | FieldAccess (name field : string).

Inductive Statement :=
  | Assign (name : string) (value : Expr)
  | If_ (condition : Expr) (then_body else_body : list Statement)
  | While_ (condition : Expr) (body : list Statement)
  | For_ (variable : string) (start stop : Expr) (step : option Expr) (body : list Statement)
  | Case_ (variable : string) (cases : list (list Z * list Statement)) (else_body : list Statement)
  | Repeat_ (body : list Statement) (condition : Expr)
  | Return_ | Exit_
  | FunCall (name : string) (args : list Expr)
  | ArrayAssign (name : string) (index value : Expr).

(** Induction on statements, with the hypothesis for every nested body. *)
Section statement_ind.
Context (P : Statement → Prop).
Context (HAssign : ∀ x e, P (Assign x e)) (HReturn : P Return_) (HExit : P Exit_)
  (HCall : ∀ f args, P (FunCall f args)) (HArray : ∀ x i v, P (ArrayAssign x i v))
  (HIf : ∀ c t e, Forall P t → Forall P e → P (If_ c t e))
  (HWhile : ∀ c b, Forall P b → P (While_ c b))
  (HFor : ∀ x a b k body, Forall P body → P (For_ x a b k body))
  (HCase : ∀ x cs e, Forall (λ a, Forall P a.2) cs → Forall P e → P (Case_ x cs e))
  (HRepeat : ∀ b c, Forall P b → P (Repeat_ b c)).

Fixpoint statement_ind (s : Statement) : P s :=
  let body := fix body (l : list Statement) : Forall P l :=
    match l with [] => Forall_nil_2 P | s :: l => Forall_cons_2 P s l (statement_ind s) (body l) end in
  match s with
  | Assign x e => HAssign x e
  | If_ c t e => HIf c t e (body t) (body e)
  | While_ c b => HWhile c b (body b)
  | For_ x a b k bd => HFor x a b k bd (body bd)
  | Case_ x cs e =>
      HCase x cs e
        ((fix arms (l : list (list Z * list Statement)) : Forall (λ a, Forall P a.2) l :=
            match l with
            | [] => Forall_nil_2 _
            | a :: l => Forall_cons_2 _ a l (let (v, b) as a return Forall P a.2 := a in body b) (arms l)
            end) cs) (body e)
  | Repeat_ b c => HRepeat b c (body b)
  | Return_ => HReturn
  | Exit_ => HExit
  | FunCall f args => HCall f args
  | ArrayAssign x i v => HArray x i v
  end.
End statement_ind.

Record VarDecl := mkVar {
  var_name : string; var_type : VarType; array_bounds : option (Expr * Expr); string_len : option Z }.

Record FunctionDef := mkFun {
  fd_name : string; return_type : VarType; fd_variables : list VarDecl;
  input_params : list VarDecl; output_params : list VarDecl; inout_params : list VarDecl;
  fd_body : list Statement }.

Record Program := mkProg {
  p_name : string; p_variables : list VarDecl; p_body : list Statement; functions : list FunctionDef }.

Inductive ParseError :=
  | UnexpectedToken (t : Token) (line col : nat)
  | UnexpectedEof
  | ExpectedToken (t : Token) (line col : nat)
  | RedefinedVariable (name : string) (line : nat).

(** ** The parser state *)
Abbreviation Tokens := (list TokenInfo) (only parsing).
Definition P (A : Type) : Type := Tokens → option (result (A * Tokens) ParseError).

#[export] Instance p_ret : MRet P := fun A a ts => Some (Ok (a, ts)).
#[export] Instance p_bind : MBind P := fun A B f m ts =>
  match m ts with
  | None => None
  | Some (Err e) => Some (Err e)
  | Some (Ok (a, ts)) => f a ts
  end.
Definition p_fail {A} (e : ParseError) : P A := fun _ => Some (Err e).
Definition out_of_fuel {A} : P A := fun _ => None.

(** [peek_token] *)
Definition peek : P (option Token) := fun ts => Some (Ok (tok <$> head ts, ts)).
Definition advance : P (option TokenInfo) := fun ts => Some (Ok (head ts, tail ts)).
Definition peek_span : P Span := fun ts => Some (Ok (default (mkSpan 0 0) (span <$> head ts), ts)).
Definition unexpected {A} (ti : TokenInfo) : P A :=
  p_fail (UnexpectedToken (tok ti) (sp_line (span ti)) (sp_col (span ti))).

Definition expect (t : Token) : P unit :=
  ti ← advance;
  match ti with
  | Some ti => if bool_decide (tok ti = t) then mret tt else unexpected ti
  | None => p_fail UnexpectedEof
  end.

Definition expect_ident : P (string * nat) :=
  ti ← advance;
  match ti with
  | Some ti => match tok ti with
               | KIdentifier name => mret (name, sp_line (span ti))
               | _ => unexpected ti
               end
  | None => p_fail UnexpectedEof
  end.

Definition next_is (t : Token) : P bool := k ← peek; mret (bool_decide (k = Some t)).

(** ** Expressions *)
Definition precedence (op : BinOp) : nat :=
  match op with
  | Or_ | Xor_ => 1
  | And_ => 2
  | Eq_ | Neq | Gt_ | Lt_ | Gte | Lte => 3
  | Add | Sub => 4
  | Mul | Div | Mod_ => 5
  end.

Definition token_to_binop (t : Token) : option BinOp :=
  match t with
  | KPlus => Some Add | KMinus => Some Sub | KStar => Some Mul | KSlash => Some Div
  | KEqual => Some Eq_ | KNotEqual => Some Neq | KGreater => Some Gt_ | KLess => Some Lt_
  | KGreaterEq => Some Gte | KLessEq => Some Lte | KAnd => Some And_ | KOr => Some Or_
  | KMod => Some Mod_ | KXor => Some Xor_ | _ => None
  end.

(** [parse_expr_prec], its loop, [parse_unary] and [parse_primary]. *)
Fixpoint parse_expr_prec (fuel : nat) (min_prec : nat) : P Expr :=
  match fuel with
  | O => out_of_fuel
  | S fuel => l ← parse_unary fuel; parse_loop fuel min_prec l
  end
with parse_loop (fuel : nat) (min_prec : nat) (l : Expr) : P Expr :=
  match fuel with
  | O => out_of_fuel
  | S fuel =>
      t ← peek;
      match t ≫= token_to_binop with
      | Some op =>
          if (min_prec <=? precedence op)%nat then
            _ ← advance;
            r ← parse_expr_prec fuel (S (precedence op));
            parse_loop fuel min_prec (Binary l op r)
          else mret l
      | None => mret l
      end
  end
with parse_unary (fuel : nat) : P Expr :=
  match fuel with
  | O => out_of_fuel
  | S fuel =>
      t ← peek;
      match t with
      | Some KMinus => _ ← advance; e ← parse_unary fuel; mret (Unary Neg e)
      | Some KNot => _ ← advance; e ← parse_unary fuel; mret (Unary Not_ e)
      | _ => parse_primary fuel
      end
  end
with parse_primary (fuel : nat) : P Expr :=
  match fuel with
  | O => out_of_fuel
  | S fuel =>
      ti ← advance;
      match ti with
      | None => p_fail UnexpectedEof
      | Some ti =>
          match tok ti with
          | KIntegerLiteral n => mret (IntLiteral n)
          | KRealLiteral n => mret (RealLiteral n)
          | KIdentifier name =>
              if bool_decide (name = "TRUE") then mret (BoolLiteral true)
              else if bool_decide (name = "FALSE") then mret (BoolLiteral false)
              else
                b ← next_is KLBracket;
                if b : bool then
                  _ ← expect KLBracket; index ← parse_expr_prec fuel 0; _ ← expect KRBracket;
                  mret (ArrayAccess name index)
                else
                  d ← next_is KDot;
                  if d : bool then
                    _ ← expect KDot; field ← expect_ident; mret (FieldAccess name (fst field))
                  else mret (Variable_ name)
          | KLParen => e ← parse_expr_prec fuel 0; _ ← expect KRParen; mret e
          | _ => unexpected ti
          end
      end
  end.
Definition parse_expression (fuel : nat) : P Expr := parse_expr_prec fuel 0.

(** ** Declarations *)
Definition simple_type (t : Token) : option VarType :=
  match t with
  | KInt => Some TyInt | KReal => Some TyReal | KBool => Some TyBool | KDInt => Some TyDInt
  | KLReal => Some TyLReal | KByte => Some TyByte | KWord => Some TyWord | KDWord => Some TyDWord
  | KSInt => Some TySInt | KUSInt => Some TyUSInt | KUInt => Some TyUInt | KULInt => Some TyULInt
  | KLInt => Some TyLInt | KTime => Some TyTime | KDate => Some TyDate | KTOD => Some TyTOD
  | KDT => Some TyDT | KTon => Some TyTon | KTp => Some TyTp | KCtu => Some TyCtu | KCtd => Some TyCtd
  | KCtud => Some TyCtud | KSr => Some TySr | KRs => Some TyRs | KRTrig => Some TyRTrig
  | KFTrig => Some TyFTrig
  | _ => None
  end.

Fixpoint parse_var_type (fuel : nat) : P VarType :=
  match fuel with
  | O => out_of_fuel
  | S fuel =>
      ti ← advance;
      match ti with
      | None => p_fail UnexpectedEof
      | Some ti =>
          match simple_type (tok ti), tok ti with
          | Some ty, _ => mret ty
          | None, KString =>
              b ← next_is KLParen;
              if b : bool then
                _ ← expect KLParen;
                len ← advance;
                match tok <$> len with
                | Some (KIntegerLiteral _) => _ ← expect KRParen; mret TyString
                | _ => p_fail UnexpectedEof
                end
              else mret TyString
          | None, KArray =>
              _ ← expect KLBracket; _ ← parse_expression fuel; _ ← expect KDotDot;
              _ ← parse_expression fuel; _ ← expect KRBracket; _ ← expect KOf;
              _ ← parse_var_type fuel; mret TyArray
          | None, _ => unexpected ti
          end
      end
  end.

Definition declared (name : string) (vars : list VarDecl) : bool :=
  existsb (fun v => bool_decide (var_name v = name)) vars.

(** The declarations up to [stop], which is left for the caller. *)
Fixpoint parse_decls (fuel : nat) (stop : Token) (vars : list VarDecl) : P (list VarDecl) :=
  match fuel with
  | O => out_of_fuel
  | S fuel =>
      b ← next_is stop;
      if b : bool then mret vars
      else
        id ← expect_ident;
        _ ← expect KColon; ty ← parse_var_type fuel; _ ← expect KSemicolon;
        if declared (fst id) vars then p_fail (RedefinedVariable (fst id) (snd id))
        else parse_decls fuel stop (vars ++ [mkVar (fst id) ty None None])
  end.

Definition parse_var_block (fuel : nat) : P (list VarDecl) :=
  _ ← expect KVar; vars ← parse_decls fuel KEndVar []; _ ← expect KEndVar;
  b ← next_is KSemicolon;
  if b : bool then _ ← advance; mret vars else mret vars.

Definition parse_param_block (fuel : nat) (start stop : Token) : P (list VarDecl) :=
  _ ← expect start; vars ← parse_decls fuel stop []; _ ← expect stop; _ ← expect KSemicolon; mret vars.

(** ** Statements *)
Fixpoint parse_args (fuel : nat) (args : list Expr) : P (list Expr) :=
  match fuel with
  | O => out_of_fuel
  | S fuel =>
      b ← next_is KComma;
      if b : bool then
        _ ← expect KComma; e ← parse_expression fuel; parse_args fuel (args ++ [e])
      else mret args
  end.

Definition parse_ident_stmt (fuel : nat) : P Statement :=
  id ← expect_ident;
  let name := fst id in
  b ← next_is KLBracket;
  if b : bool then
    _ ← expect KLBracket; index ← parse_expression fuel; _ ← expect KRBracket; _ ← expect KAssign;
    value ← parse_expression fuel; _ ← expect KSemicolon; mret (ArrayAssign name index value)
  else
    t ← peek;
    match t with
    | Some KAssign =>
        _ ← expect KAssign; value ← parse_expression fuel; _ ← expect KSemicolon; mret (Assign name value)
    | Some KLParen =>
        _ ← expect KLParen;
        e ← next_is KRParen;
        args ← (if e : bool then mret [] else a ← parse_expression fuel; parse_args fuel [a]);
        _ ← expect KRParen; _ ← expect KSemicolon; mret (FunCall name args)
    | _ => p_fail (UnexpectedToken (KIdentifier "") 0 0)
    end.

Fixpoint parse_case_values (fuel : nat) (values : list Z) : P (list Z) :=
  match fuel with
  | O => out_of_fuel
  | S fuel =>
      ti ← advance;
      match ti with
      | None => p_fail UnexpectedEof
      | Some ti =>
          match tok ti with
          | KIntegerLiteral n =>
              t ← peek;
              match t with
              | Some KColon => _ ← advance; mret (values ++ [n])
              | Some KComma => _ ← advance; parse_case_values fuel (values ++ [n])
              | _ =>
                  sp ← peek_span; p_fail (ExpectedToken KColon (sp_line sp) (sp_col sp))
              end
          | _ => unexpected ti
          end
      end
  end.

Definition is_int_literal (t : option Token) : bool :=
  match t with Some (KIntegerLiteral _) => true | _ => false end.

(** Where a list of statements ends, by the next token. *)
Definition stops_at (ts : list Token) (t : option Token) : bool :=
  match t with Some t => bool_decide (t ∈ ts) | None => false end.
Definition case_body_end (t : option Token) : bool := stops_at [KElse; KEndCase] t || is_int_literal t.

Fixpoint parse_statement (fuel : nat) : P Statement :=
  match fuel with
  | O => out_of_fuel
  | S fuel =>
      t ← peek;
      match t with
      | Some KIf =>
          _ ← expect KIf; condition ← parse_expression fuel; _ ← expect KThen;
          then_body ← parse_until fuel (stops_at [KElse; KEndIf]);
          b ← next_is KElse;
          else_body ← (if b : bool then _ ← expect KElse; parse_until fuel (stops_at [KEndIf]) else mret []);
          _ ← expect KEndIf; _ ← expect KSemicolon; mret (If_ condition then_body else_body)
      | Some KWhile =>
          _ ← expect KWhile; condition ← parse_expression fuel; _ ← expect KDo;
          body ← parse_until fuel (stops_at [KEndWhile]);
          _ ← expect KEndWhile; _ ← expect KSemicolon; mret (While_ condition body)
      | Some KFor =>
          _ ← expect KFor; id ← expect_ident; _ ← expect KAssign; start ← parse_expression fuel;
          _ ← expect KTo; stop ← parse_expression fuel;
          b ← next_is KBy;
          step ← (if b : bool then _ ← expect KBy; e ← parse_expression fuel; mret (Some e) else mret None);
          _ ← expect KDo; body ← parse_until fuel (stops_at [KEndFor]);
          _ ← expect KEndFor; _ ← expect KSemicolon; mret (For_ (fst id) start stop step body)
      | Some KCase =>
          _ ← expect KCase; id ← expect_ident; _ ← expect KOf;
          cases ← parse_cases fuel;
          b ← next_is KElse;
          else_body ← (if b : bool then _ ← expect KElse; parse_until fuel (stops_at [KEndCase]) else mret []);
          _ ← expect KEndCase; _ ← expect KSemicolon; mret (Case_ (fst id) cases else_body)
      | Some KRepeat =>
          _ ← expect KRepeat; body ← parse_until fuel (stops_at [KUntil]); _ ← expect KUntil;
          condition ← parse_expression fuel;
          _ ← expect KEndRepeat; _ ← expect KSemicolon; mret (Repeat_ body condition)
      | Some KReturn => _ ← expect KReturn; _ ← expect KSemicolon; mret Return_
      | Some KExit => _ ← expect KExit; _ ← expect KSemicolon; mret Exit_
      | _ => parse_ident_stmt fuel
      end
  end
with parse_until (fuel : nat) (stop : option Token → bool) : P (list Statement) :=
  match fuel with
  | O => out_of_fuel
  | S fuel =>
      t ← peek;
      if stop t then mret []
      else s ← parse_statement fuel; ss ← parse_until fuel stop; mret (s :: ss)
  end
with parse_cases (fuel : nat) : P (list (list Z * list Statement)) :=
  match fuel with
  | O => out_of_fuel
  | S fuel =>
      t ← peek;
      if stops_at [KEndCase; KElse] t then mret []
      else
        values ← parse_case_values fuel [];
        body ← parse_until fuel case_body_end;
        cs ← parse_cases fuel; mret ((values, body) :: cs)
  end.

(** ** Programs *)
Record Params := mkParams { in_ps : list VarDecl; out_ps : list VarDecl; io_ps : list VarDecl; locals : list VarDecl }.

(** The optional blocks of a function, a later one of a kind replacing an
    earlier one. *)
Fixpoint parse_blocks_of (fuel : nat) (b : Params) : P Params :=
  match fuel with
  | O => out_of_fuel
  | S fuel =>
      t ← peek;
      match t with
      | Some KVarInput =>
          v ← parse_param_block fuel KVarInput KEndVar;
          parse_blocks_of fuel (mkParams v (out_ps b) (io_ps b) (locals b))
      | Some KVarOutput =>
          v ← parse_param_block fuel KVarOutput KEndVar;
          parse_blocks_of fuel (mkParams (in_ps b) v (io_ps b) (locals b))
      | Some KVarInOut =>
          v ← parse_param_block fuel KVarInOut KEndVar;
          parse_blocks_of fuel (mkParams (in_ps b) (out_ps b) v (locals b))
      | Some KVar =>
          v ← parse_var_block fuel; parse_blocks_of fuel (mkParams (in_ps b) (out_ps b) (io_ps b) v)
      | _ => mret b
      end
  end.

Definition parse_function_def (fuel : nat) : P FunctionDef :=
  _ ← expect KFunction; id ← expect_ident; _ ← expect KColon; ty ← parse_var_type fuel;
  _ ← expect KSemicolon;
  b ← parse_blocks_of fuel (mkParams [] [] [] []);
  body ← parse_until fuel (stops_at [KEndFunction]);
  _ ← expect KEndFunction; _ ← expect KSemicolon;
  mret (mkFun (fst id) ty (locals b) (in_ps b) (out_ps b) (io_ps b) body).

(** The loop of [parse_program_inner]. *)
Fixpoint parse_items (fuel : nat) (body : list Statement) (fns : list FunctionDef)
  : P (list Statement * list FunctionDef) :=
  match fuel with
  | O => out_of_fuel
  | S fuel =>
      t ← peek;
      match t with
      | Some KFunction => f ← parse_function_def fuel; parse_items fuel body (fns ++ [f])
      | Some KEndProgram => mret (body, fns)
      | Some _ => s ← parse_statement fuel; parse_items fuel (body ++ [s]) fns
      | None => p_fail UnexpectedEof
      end
  end.

(** The second check for redeclared variables: the line is always 0. *)
Fixpoint first_duplicate (seen : list string) (vars : list VarDecl) : option string :=
  match vars with
  | [] => None
  | v :: vars =>
      if bool_decide (var_name v ∈ seen) then Some (var_name v) else first_duplicate (var_name v :: seen) vars
  end.

Definition parse_program_inner (fuel : nat) : P Program :=
  _ ← expect KProgram; id ← expect_ident;
  b ← next_is KVar;
  variables ← (if b : bool then parse_var_block fuel else mret []);
  match first_duplicate [] variables with
  | Some name => p_fail (RedefinedVariable name 0)
  | None =>
      items ← parse_items fuel [] [];
      _ ← expect KEndProgram;
      mret (mkProg (fst id) variables (fst items) (snd items))
  end.

Definition parse_fuel (ts : list TokenInfo) : nat := 8 * length ts + 8.
Definition parse_program (ts : list TokenInfo) : option (result Program ParseError) :=
  match parse_program_inner (parse_fuel ts) ts with
  | None => None
  | Some (Err e) => Some (Err e)
  | Some (Ok (p, _)) => Some (Ok p)
  end.
