(* ===== verification/StParserFacts.v ===== *)
(** * Structured Text: the parser ends, and reads back what a tree prints as

    A weakest precondition for parsers, the fuel bounds of every parsing
    function, monotonicity in the fuel, and the printing of syntax trees as
    tokens with as few parentheses as the precedences allow. *)
From S2P Require Import Prelude Float StLexer StParser.
Local Open Scope nat_scope.

(** [m] does not run out of fuel on [ts], and a result satisfies [Q]. *)
Definition wp {A} (m : P A) (ts : list TokenInfo) (Q : A → list TokenInfo → Prop) : Prop :=
  match m ts with
  | None => False
  | Some (Err _) => True
  | Some (Ok (a, ts')) => Q a ts'
  end.

Lemma wp_bind {A B} (m : P A) (f : A → P B) ts Q :
  wp m ts (λ a ts', wp (f a) ts' Q) → wp (m ≫= f) ts Q.
Proof. unfold wp. unfold mbind, p_bind. by destruct (m ts) as [[[a ts']|e]|]. Qed.
Lemma wp_mono {A} (m : P A) ts (Q Q' : A → list TokenInfo → Prop) :
  wp m ts Q → (∀ a ts', Q a ts' → Q' a ts') → wp m ts Q'.
Proof. unfold wp. destruct (m ts) as [[[a ts']|e]|]; auto. Qed.
Lemma wp_ret {A} (a : A) ts (Q : A → list TokenInfo → Prop) : Q a ts → wp (mret a) ts Q.
Proof. done. Qed.
Lemma wp_fail {A} e ts (Q : A → list TokenInfo → Prop) : wp (p_fail e) ts Q.
Proof. done. Qed.
Lemma wp_unexpected {A} ti ts (Q : A → list TokenInfo → Prop) : wp (unexpected ti) ts Q.
Proof. done. Qed.
Lemma wp_advance ts (Q : option TokenInfo → list TokenInfo → Prop) :
  (ts = [] → Q None []) → (∀ ti l, ts = ti :: l → Q (Some ti) l) → wp advance ts Q.
Proof. destruct ts; unfold wp; cbn; auto. Qed.
Lemma wp_peek ts (Q : option Token → list TokenInfo → Prop) :
  (ts = [] → Q None []) → (∀ ti l, ts = ti :: l → Q (Some (tok ti)) ts) → wp peek ts Q.
Proof. destruct ts; unfold wp; cbn; eauto. Qed.
Lemma wp_peek_span ts (Q : Span → list TokenInfo → Prop) : (∀ s, Q s ts) → wp peek_span ts Q.
Proof. intros HQ. apply HQ. Qed.
Lemma wp_next_is t ts (Q : bool → list TokenInfo → Prop) : (∀ b, Q b ts) → wp (next_is t) ts Q.
Proof. intros HQ. apply HQ. Qed.
Lemma wp_expect t ts (Q : unit → list TokenInfo → Prop) :
  (∀ ti l, ts = ti :: l → Q tt l) → wp (expect t) ts Q.
Proof.
  intros HQ. unfold expect. apply wp_bind, wp_advance; [intros; apply wp_fail|].
  intros ti l ->. case_bool_decide; [by eapply wp_ret, HQ | apply wp_unexpected].
Qed.
Lemma wp_expect_ident ts (Q : string * nat → list TokenInfo → Prop) :
  (∀ id ti l, ts = ti :: l → Q id l) → wp expect_ident ts Q.
Proof.
  intros HQ. unfold expect_ident. apply wp_bind, wp_advance; [intros; apply wp_fail|].
  intros ti l ->. destruct (tok ti); try apply wp_unexpected. by eapply wp_ret, HQ.
Qed.

(** [m] ends on [ts] having consumed at least [k] tokens. *)
Definition consumes {A} (k : nat) (m : P A) (ts : list TokenInfo) : Prop :=
  wp m ts (λ _ ts', length ts' + k ≤ length ts).

Create HintDb parser.
(** One step of a parser's code; a call is discharged by a hypothesis or a lemma
    of the database [parser]. *)
Ltac tokens_left := subst; cbn [length] in *; try lia.
Ltac parser_call :=
  solve [ match goal with H : _ |- _ => eapply H; cbn [length] in *; lia end | eauto with parser ].
Ltac parse_step :=
  lazymatch goal with
  | |- consumes _ (if ?b then _ else _) _ => destruct b
  | |- consumes _ _ _ => progress unfold consumes
  | |- wp (_ ≫= _) _ _ => apply wp_bind
  | |- wp (mret _) _ _ => apply wp_ret; tokens_left
  | |- wp (p_fail _) _ _ => apply wp_fail
  | |- wp (unexpected _) _ _ => apply wp_unexpected
  | |- wp advance _ _ => apply wp_advance; [intros ?; simplify_eq | intros ? ? ?; simplify_eq]
  | |- wp peek _ _ => apply wp_peek; [intros ?; simplify_eq | intros ? ? ?; simplify_eq]
  | |- wp peek_span _ _ => apply wp_peek_span; intros ?
  | |- wp (next_is _) _ _ => apply wp_next_is; intros ?
  | |- wp (expect _) _ _ => apply wp_expect; intros ? ? ?; simplify_eq
  | |- wp expect_ident _ _ => apply wp_expect_ident; intros ? ? ? ?; simplify_eq
  | |- wp (if ?b then _ else _) _ _ => destruct b
  | |- wp (match ?t with _ => _ end) _ _ => destruct t
  | |- wp (let _ := _ in _) _ _ => cbv zeta
  | |- wp _ _ _ => eapply wp_mono; [parser_call | intros ? ? ?; cbv beta in *]
  end.
Ltac parse_ends := repeat (parse_step; cbn [length mbind option_bind fmap option_fmap option_map head] in * ); tokens_left.

(** ** Termination *)
Lemma expr_ends fuel : ∀ ts,
  (∀ k, 4 * length ts + 3 ≤ fuel → consumes 1 (parse_expr_prec fuel k) ts)
  ∧ (∀ k l, 4 * length ts + 1 ≤ fuel → consumes 0 (parse_loop fuel k l) ts)
  ∧ (4 * length ts + 2 ≤ fuel → consumes 1 (parse_unary fuel) ts)
  ∧ (4 * length ts + 1 ≤ fuel → consumes 1 (parse_primary fuel) ts).
Proof.
  induction fuel as [|fuel IH]; intros ts; [repeat split; intros; lia|].
  assert (He : ∀ k ts, 4 * length ts + 3 ≤ fuel → consumes 1 (parse_expr_prec fuel k) ts) by (intros; by apply IH).
  assert (Hl : ∀ k l ts, 4 * length ts + 1 ≤ fuel → consumes 0 (parse_loop fuel k l) ts) by (intros; by apply IH).
  assert (Hu : ∀ ts, 4 * length ts + 2 ≤ fuel → consumes 1 (parse_unary fuel) ts) by (intros; by apply IH).
  assert (Hp : ∀ ts, 4 * length ts + 1 ≤ fuel → consumes 1 (parse_primary fuel) ts) by (intros; by apply IH).
  clear IH. repeat split; intros.
  - cbn [parse_expr_prec]. parse_ends.
  - cbn [parse_loop]. parse_ends.
  - cbn [parse_unary]. parse_ends.
  - cbn [parse_primary]. parse_ends.
Qed.
Lemma expression_ends fuel ts : 4 * length ts + 3 ≤ fuel → consumes 1 (parse_expression fuel) ts.
Proof. apply expr_ends. Qed.
#[export] Hint Extern 2 (wp (parse_expression _) _ _) => eapply expression_ends; cbn [length] in *; lia : parser.

Lemma var_type_ends fuel : ∀ ts, 4 * length ts + 4 ≤ fuel → consumes 1 (parse_var_type fuel) ts.
Proof.
  induction fuel as [|fuel IH]; intros ts Hf; [lia|]. cbn [parse_var_type]. parse_ends.
Qed.
#[export] Hint Extern 2 (wp (parse_var_type _) _ _) => eapply var_type_ends; cbn [length] in *; lia : parser.

Lemma decls_end fuel stop : ∀ ts vars, 4 * length ts + 4 ≤ fuel → consumes 0 (parse_decls fuel stop vars) ts.
Proof. induction fuel as [|fuel IH]; intros ts vars Hf; [lia|]. cbn [parse_decls]. parse_ends. Qed.
#[export] Hint Extern 2 (wp (parse_decls _ _ _) _ _) => eapply decls_end; cbn [length] in *; lia : parser.
Lemma var_block_ends fuel ts : 4 * length ts + 4 ≤ fuel → consumes 2 (parse_var_block fuel) ts.
Proof. intros Hf. unfold parse_var_block. parse_ends. Qed.
#[export] Hint Extern 2 (wp (parse_var_block _) _ _) => eapply var_block_ends; cbn [length] in *; lia : parser.
Lemma param_block_ends fuel start stop ts :
  4 * length ts + 4 ≤ fuel → consumes 3 (parse_param_block fuel start stop) ts.
Proof. intros Hf. unfold parse_param_block. parse_ends. Qed.
#[export] Hint Extern 2 (wp (parse_param_block _ _ _) _ _) =>
  eapply param_block_ends; cbn [length] in *; lia : parser.

Lemma args_end fuel : ∀ ts args, 4 * length ts + 4 ≤ fuel → consumes 0 (parse_args fuel args) ts.
Proof. induction fuel as [|fuel IH]; intros ts args Hf; [lia|]. cbn [parse_args]. parse_ends. Qed.
#[export] Hint Extern 2 (wp (parse_args _ _) _ _) => eapply args_end; cbn [length] in *; lia : parser.
Lemma ident_stmt_ends fuel ts : 4 * length ts + 4 ≤ fuel → consumes 2 (parse_ident_stmt fuel) ts.
Proof. intros Hf. unfold parse_ident_stmt. parse_ends. Qed.
#[export] Hint Extern 2 (wp (parse_ident_stmt _) _ _) => eapply ident_stmt_ends; cbn [length] in *; lia : parser.
Lemma case_values_end fuel : ∀ ts vs, 4 * length ts + 4 ≤ fuel → consumes 2 (parse_case_values fuel vs) ts.
Proof. induction fuel as [|fuel IH]; intros ts vs Hf; [lia|]. cbn [parse_case_values]. parse_ends. Qed.
#[export] Hint Extern 2 (wp (parse_case_values _ _) _ _) =>
  eapply case_values_end; cbn [length] in *; lia : parser.

Lemma statement_ends fuel : ∀ ts,
  (4 * length ts + 5 ≤ fuel → consumes 2 (parse_statement fuel) ts)
  ∧ (∀ stop, 4 * length ts + 6 ≤ fuel → consumes 0 (parse_until fuel stop) ts)
  ∧ (4 * length ts + 6 ≤ fuel → consumes 0 (parse_cases fuel) ts).
Proof.
  induction fuel as [|fuel IH]; intros ts; [repeat split; intros; lia|].
  assert (Hs : ∀ ts, 4 * length ts + 5 ≤ fuel → consumes 2 (parse_statement fuel) ts) by (intros; by apply IH).
  assert (Hu : ∀ stop ts, 4 * length ts + 6 ≤ fuel → consumes 0 (parse_until fuel stop) ts) by (intros; by apply IH).
  assert (Hc : ∀ ts, 4 * length ts + 6 ≤ fuel → consumes 0 (parse_cases fuel) ts) by (intros; by apply IH).
  clear IH. repeat split; intros.
  - cbn [parse_statement]. parse_ends.
  - cbn [parse_until]. parse_ends.
  - cbn [parse_cases]. parse_ends.
Qed.
Lemma statement_ends' fuel ts : 4 * length ts + 6 ≤ fuel → consumes 2 (parse_statement fuel) ts.
Proof. intros. apply statement_ends. lia. Qed.
Lemma until_ends fuel stop ts : 4 * length ts + 6 ≤ fuel → consumes 0 (parse_until fuel stop) ts.
Proof. apply statement_ends. Qed.
#[export] Hint Extern 2 (wp (parse_statement _) _ _) => eapply statement_ends'; cbn [length] in *; lia : parser.
#[export] Hint Extern 2 (wp (parse_until _ _) _ _) => eapply until_ends; cbn [length] in *; lia : parser.

Lemma blocks_end fuel : ∀ ts b, 4 * length ts + 6 ≤ fuel → consumes 0 (parse_blocks_of fuel b) ts.
Proof. induction fuel as [|fuel IH]; intros ts b Hf; [lia|]. cbn [parse_blocks_of]. parse_ends. Qed.
#[export] Hint Extern 2 (wp (parse_blocks_of _ _) _ _) => eapply blocks_end; cbn [length] in *; lia : parser.
Lemma function_ends fuel ts : 4 * length ts + 6 ≤ fuel → consumes 2 (parse_function_def fuel) ts.
Proof. intros Hf. unfold parse_function_def. parse_ends. Qed.
#[export] Hint Extern 2 (wp (parse_function_def _) _ _) => eapply function_ends; cbn [length] in *; lia : parser.
Lemma items_end fuel : ∀ ts body fns, 4 * length ts + 7 ≤ fuel → consumes 0 (parse_items fuel body fns) ts.
Proof. induction fuel as [|fuel IH]; intros ts body fns Hf; [lia|]. cbn [parse_items]. parse_ends. Qed.
#[export] Hint Extern 2 (wp (parse_items _ _ _) _ _) => eapply items_end; cbn [length] in *; lia : parser.
Lemma program_inner_ends fuel ts : 4 * length ts + 7 ≤ fuel → consumes 3 (parse_program_inner fuel) ts.
Proof. intros Hf. unfold parse_program_inner. parse_ends. Qed.

(** The parser ends on every list of tokens: it never runs out of the fuel
    it is given, so each token list is either a program, having been read from
    at least three of its tokens, or a parse error. *)
Theorem parse_total ts :
  (∃ e, parse_program ts = Some (Err e))
  ∨ (∃ p rest, parse_program ts = Some (Ok p)
       ∧ parse_program_inner (parse_fuel ts) ts = Some (Ok (p, rest)) ∧ length rest + 3 ≤ length ts).
Proof.
  pose proof (program_inner_ends (parse_fuel ts) ts) as Hend. unfold parse_fuel in Hend.
  specialize (Hend ltac:(lia)). fold (parse_fuel ts) in Hend. unfold consumes, wp in Hend. unfold parse_program.
  destruct (parse_program_inner (parse_fuel ts) ts) as [[[p rest]|e]|]; [|by left; eexists|done].
  right. by exists p, rest.
Qed.

(** ** More fuel, same result *)
Definition refines {A} (m m' : P A) : Prop := ∀ ts, m ts = None ∨ m' ts = m ts.
Lemma refines_bind {A B} (m m' : P A) (f f' : A → P B) :
  refines m m' → (∀ a, refines (f a) (f' a)) → refines (m ≫= f) (m' ≫= f').
Proof.
  intros Hm Hf ts. unfold mbind, p_bind. destruct (Hm ts) as [->| ->]; [by left|].
  destruct (m ts) as [[[a ts']|e]|]; [apply Hf|by right|by right].
Qed.
Lemma refines_refl {A} (m : P A) : refines m m.
Proof. by right. Qed.
Lemma refines_fuel {A} (m : P A) : refines out_of_fuel m.
Proof. by left. Qed.
#[export] Hint Resolve refines_refl refines_fuel : parser.
Ltac refine_step :=
  lazymatch goal with
  | |- refines (_ ≫= _) (_ ≫= _) => apply refines_bind; [|intros ?]
  | |- refines (if ?b then _ else _) _ => destruct b
  | |- refines (match ?t with _ => _ end) _ => destruct t
  | |- refines _ _ => first [apply refines_refl | by auto with parser]
  end.
Ltac refines_all := repeat (cbv zeta; refine_step).

Lemma expr_refines f : ∀ f', f ≤ f' →
  (∀ k, refines (parse_expr_prec f k) (parse_expr_prec f' k))
  ∧ (∀ k l, refines (parse_loop f k l) (parse_loop f' k l))
  ∧ refines (parse_unary f) (parse_unary f') ∧ refines (parse_primary f) (parse_primary f').
Proof.
  induction f as [|f IH]; intros [|f'] Hf; [by repeat split; intros; apply refines_fuel..|lia|].
  destruct (IH f' ltac:(lia)) as (He & Hl & Hu & Hp). clear IH. repeat split; intros.
  - cbn [parse_expr_prec]. refines_all.
  - cbn [parse_loop]. refines_all.
  - cbn [parse_unary]. refines_all.
  - cbn [parse_primary]. refines_all.
Qed.
Lemma expression_refines f f' : f ≤ f' → refines (parse_expression f) (parse_expression f').
Proof. intros. by apply expr_refines. Qed.
#[export] Hint Resolve expression_refines : parser.

(** A function of the fuel alone, given that it is so for smaller fuel. *)
Ltac refines_by f :=
  induction f as [|f IH]; intros [|f'] Hf; intros; [by apply refines_fuel..|lia|];
  assert (f ≤ f') by lia; cbn; refines_all.

Lemma var_type_refines f : ∀ f', f ≤ f' → refines (parse_var_type f) (parse_var_type f').
Proof. refines_by f. Qed.
#[export] Hint Resolve var_type_refines : parser.
Lemma decls_refine f : ∀ f', f ≤ f' → ∀ stop vars, refines (parse_decls f stop vars) (parse_decls f' stop vars).
Proof. refines_by f. Qed.
#[export] Hint Resolve decls_refine : parser.
Lemma var_block_refines f f' : f ≤ f' → refines (parse_var_block f) (parse_var_block f').
Proof. intros. unfold parse_var_block. refines_all. Qed.
Lemma param_block_refines f f' a b : f ≤ f' → refines (parse_param_block f a b) (parse_param_block f' a b).
Proof. intros. unfold parse_param_block. refines_all. Qed.
#[export] Hint Resolve var_block_refines param_block_refines : parser.
Lemma args_refine f : ∀ f', f ≤ f' → ∀ args, refines (parse_args f args) (parse_args f' args).
Proof. refines_by f. Qed.
#[export] Hint Resolve args_refine : parser.
Lemma ident_stmt_refines f f' : f ≤ f' → refines (parse_ident_stmt f) (parse_ident_stmt f').
Proof. intros. unfold parse_ident_stmt. refines_all. Qed.
Lemma case_values_refine f : ∀ f', f ≤ f' → ∀ vs, refines (parse_case_values f vs) (parse_case_values f' vs).
Proof. refines_by f. Qed.
#[export] Hint Resolve ident_stmt_refines case_values_refine : parser.
Lemma statement_refines f : ∀ f', f ≤ f' →
  refines (parse_statement f) (parse_statement f')
  ∧ (∀ stop, refines (parse_until f stop) (parse_until f' stop))
  ∧ refines (parse_cases f) (parse_cases f').
Proof.
  induction f as [|f IH]; intros [|f'] Hf; [by repeat split; intros; apply refines_fuel..|lia|].
  destruct (IH f' ltac:(lia)) as (Hs & Hu & Hc). assert (f ≤ f') by lia. clear IH.
  repeat split; intros; cbn; refines_all.
Qed.
Lemma one_statement_refines f f' : f ≤ f' → refines (parse_statement f) (parse_statement f').
Proof. apply statement_refines. Qed.
Lemma until_refines f f' stop : f ≤ f' → refines (parse_until f stop) (parse_until f' stop).
Proof. intros. by apply statement_refines. Qed.
#[export] Hint Resolve one_statement_refines until_refines : parser.
Lemma blocks_refine f : ∀ f', f ≤ f' → ∀ b, refines (parse_blocks_of f b) (parse_blocks_of f' b).
Proof. refines_by f. Qed.
#[export] Hint Resolve blocks_refine : parser.
Lemma function_refines f f' : f ≤ f' → refines (parse_function_def f) (parse_function_def f').
Proof. intros. unfold parse_function_def. refines_all. Qed.
#[export] Hint Resolve function_refines : parser.
Lemma items_refine f : ∀ f', f ≤ f' → ∀ body fns, refines (parse_items f body fns) (parse_items f' body fns).
Proof. refines_by f. Qed.
#[export] Hint Resolve items_refine : parser.
Lemma program_refines f f' : f ≤ f' → refines (parse_program_inner f) (parse_program_inner f').
Proof. intros. unfold parse_program_inner. refines_all. Qed.

(** A program read with some fuel is read with the fuel of [parse_program]. *)
Lemma parse_program_from f ts p rest :
  parse_program_inner f ts = Some (Ok (p, rest)) → parse_program ts = Some (Ok p).
Proof.
  intros Hf. unfold parse_program.
  pose proof (program_inner_ends (parse_fuel ts) ts ltac:(unfold parse_fuel; lia)) as Hend.
  unfold consumes, wp in Hend.
  destruct (program_refines f (f + parse_fuel ts) ltac:(lia) ts) as [?|H1]; [congruence|].
  destruct (program_refines (parse_fuel ts) (f + parse_fuel ts) ltac:(lia) ts) as [H2|H2].
  - by rewrite H2 in Hend.
  - by rewrite <- H2, H1, Hf.
Qed.
