(* ===== verification/StPrint.v ===== *)
(** * Structured Text: printing syntax trees as tokens, and reading them back

    Expressions are printed with the parentheses the precedences of
    [parser.rs] require and no others. *)
From S2P Require Import Prelude Float StLexer StParser StParserFacts.
Local Open Scope nat_scope.

(** ** Printing *)
Definition binop_token (op : BinOp) : Token :=
  match op with
  | Add => KPlus | Sub => KMinus | Mul => KStar | Div => KSlash | Eq_ => KEqual | Neq => KNotEqual
  | Gt_ => KGreater | Lt_ => KLess | Gte => KGreaterEq | Lte => KLessEq | And_ => KAnd | Or_ => KOr
  | Mod_ => KMod | Xor_ => KXor
  end.
Definition unop_token (op : UnaryOp) : Token := match op with Neg => KMinus | Not_ => KNot end.
Definition wrap (b : bool) (l : list Token) : list Token := if b then KLParen :: l ++ [KRParen] else l.

(** An expression where the parser expects operators of precedence at least [k]. *)
Fixpoint expr_tokens (k : nat) (e : Expr) : list Token :=
  match e with
  | IntLiteral n => [KIntegerLiteral n]
  | RealLiteral n => [KRealLiteral n]
  | BoolLiteral b => [KIdentifier (if b then "TRUE" else "FALSE")]
  | Variable_ x => [KIdentifier x]
  | Unary op e => unop_token op :: expr_tokens 6 e
  | Binary l op r =>
      let p := precedence op in
      wrap (p <? k) (expr_tokens p l ++ binop_token op :: expr_tokens (S p) r)
  | ArrayAccess x i => KIdentifier x :: KLBracket :: expr_tokens 0 i ++ [KRBracket]
  | FieldAccess x f => [KIdentifier x; KDot; KIdentifier f]
  end.

Fixpoint args_tokens (args : list Expr) : list Token :=
  match args with
  | [] => []
  | e :: args => KComma :: expr_tokens 0 e ++ args_tokens args
  end.
Fixpoint values_tokens (vs : list Z) : list Token :=
  match vs with
  | [] => []
  | [v] => [KIntegerLiteral v; KColon]
  | v :: vs => KIntegerLiteral v :: KComma :: values_tokens vs
  end.
Definition else_tokens (body : list Token) : list Token :=
  match body with [] => [] | _ => KElse :: body end.

Fixpoint stmt_tokens (s : Statement) : list Token :=
  let body := fix body (l : list Statement) : list Token :=
    match l with [] => [] | s :: l => stmt_tokens s ++ body l end in
  match s with
  | Assign x e => KIdentifier x :: KAssign :: expr_tokens 0 e ++ [KSemicolon]
  | ArrayAssign x i v =>
      KIdentifier x :: KLBracket :: expr_tokens 0 i ++ KRBracket :: KAssign :: expr_tokens 0 v ++ [KSemicolon]
  | If_ c t e =>
      KIf :: expr_tokens 0 c ++ KThen :: body t ++ else_tokens (body e) ++ [KEndIf; KSemicolon]
  | While_ c b => KWhile :: expr_tokens 0 c ++ KDo :: body b ++ [KEndWhile; KSemicolon]
  | For_ x a b k bd =>
      KFor :: KIdentifier x :: KAssign :: expr_tokens 0 a ++ KTo :: expr_tokens 0 b
        ++ match k with Some e => KBy :: expr_tokens 0 e | None => [] end
        ++ KDo :: body bd ++ [KEndFor; KSemicolon]
  | Case_ x cases e =>
      KCase :: KIdentifier x :: KOf
        :: (fix arms (l : list (list Z * list Statement)) : list Token :=
              match l with [] => [] | (vs, b) :: l => values_tokens vs ++ body b ++ arms l end) cases
        ++ else_tokens (body e) ++ [KEndCase; KSemicolon]
  | Repeat_ b c => KRepeat :: body b ++ KUntil :: expr_tokens 0 c ++ [KEndRepeat; KSemicolon]
  | Return_ => [KReturn; KSemicolon]
  | Exit_ => [KExit; KSemicolon]
  | FunCall f args =>
      KIdentifier f :: KLParen
        :: match args with [] => [] | e :: args => expr_tokens 0 e ++ args_tokens args end
        ++ [KRParen; KSemicolon]
  end.
Definition body_tokens : list Statement → list Token := flat_map stmt_tokens.
Definition arms_tokens : list (list Z * list Statement) → list Token :=
  flat_map (λ a, values_tokens a.1 ++ body_tokens a.2).

Definition type_tokens (t : VarType) : list Token :=
  match t with
  | TyInt => [KInt] | TyReal => [KReal] | TyBool => [KBool] | TyDInt => [KDInt] | TyLReal => [KLReal]
  | TyByte => [KByte] | TyWord => [KWord] | TyDWord => [KDWord] | TySInt => [KSInt] | TyUSInt => [KUSInt]
  | TyUInt => [KUInt] | TyULInt => [KULInt] | TyLInt => [KLInt] | TyTime => [KTime] | TyDate => [KDate]
  | TyTOD => [KTOD] | TyDT => [KDT] | TyString => [KString]
  | TyArray => [KArray; KLBracket; KIntegerLiteral 0; KDotDot; KIntegerLiteral 0; KRBracket; KOf; KInt]
  | TyTon => [KTon] | TyTof => [KTof] | TyTp => [KTp] | TyCtu => [KCtu] | TyCtd => [KCtd]
  | TyCtud => [KCtud] | TySr => [KSr] | TyRs => [KRs] | TyRTrig => [KRTrig] | TyFTrig => [KFTrig]
  end.
Definition decl_tokens (v : VarDecl) : list Token :=
  KIdentifier (var_name v) :: KColon :: type_tokens (var_type v) ++ [KSemicolon].
Definition block_tokens (start : Token) (vars : list VarDecl) : list Token :=
  match vars with
  | [] => []
  | _ => start :: flat_map decl_tokens vars ++ [KEndVar; KSemicolon]
  end.
Definition function_tokens (f : FunctionDef) : list Token :=
  KFunction :: KIdentifier (fd_name f) :: KColon :: type_tokens (return_type f) ++ KSemicolon
    :: block_tokens KVarInput (input_params f) ++ block_tokens KVarOutput (output_params f)
    ++ block_tokens KVarInOut (inout_params f) ++ block_tokens KVar (fd_variables f)
    ++ body_tokens (fd_body f) ++ [KEndFunction; KSemicolon].
Definition program_tokens (p : Program) : list Token :=
  KProgram :: KIdentifier (p_name p) :: block_tokens KVar (p_variables p)
    ++ flat_map function_tokens (functions p) ++ body_tokens (p_body p) ++ [KEndProgram].

(** ** Trees the parser can build *)
Definition valid_name (x : string) : bool := negb (bool_decide (x ∈ ["TRUE"; "FALSE"])).
Fixpoint valid_expr (e : Expr) : bool :=
  match e with
  | IntLiteral _ | RealLiteral _ | BoolLiteral _ => true
  | Variable_ x | FieldAccess x _ => valid_name x
  | ArrayAccess x i => valid_name x && valid_expr i
  | Unary _ e => valid_expr e
  | Binary l _ r => valid_expr l && valid_expr r
  end.
Fixpoint valid_stmt (s : Statement) : bool :=
  match s with
  | Assign _ e => valid_expr e
  | ArrayAssign _ i v => valid_expr i && valid_expr v
  | If_ c t e => valid_expr c && forallb valid_stmt t && forallb valid_stmt e
  | While_ c b => valid_expr c && forallb valid_stmt b
  | For_ _ a b k bd => valid_expr a && valid_expr b && from_option valid_expr true k && forallb valid_stmt bd
  | Case_ _ cases e =>
      forallb (λ a, negb (bool_decide (a.1 = [])) && forallb valid_stmt a.2) cases && forallb valid_stmt e
  | Repeat_ b c => forallb valid_stmt b && valid_expr c
  | Return_ | Exit_ => true
  | FunCall _ args => forallb valid_expr args
  end.
(** [TOF] is a type no declaration can name; bounds and lengths are not kept. *)
Definition valid_var (v : VarDecl) : bool :=
  bool_decide (var_type v ≠ TyTof)
  && match array_bounds v, string_len v with None, None => true | _, _ => false end.
Definition valid_block (vars : list VarDecl) : bool :=
  forallb valid_var vars && bool_decide (NoDup (var_name <$> vars)).
Definition valid_function (f : FunctionDef) : bool :=
  bool_decide (return_type f ≠ TyTof) && valid_block (input_params f) && valid_block (output_params f)
  && valid_block (inout_params f) && valid_block (fd_variables f) && forallb valid_stmt (fd_body f).
Definition valid_program (p : Program) : bool :=
  valid_block (p_variables p) && forallb valid_function (functions p) && forallb valid_stmt (p_body p).

(** ** Reading *)

(** [m] takes the tokens [l] to [l'] with result [a], wherever they stand. *)
Definition reads {A} (m : P A) (l : list Token) (a : A) (l' : list Token) : Prop :=
  ∀ ts, tok <$> ts = l → ∃ ts', m ts = Some (Ok (a, ts')) ∧ tok <$> ts' = l'.
(** With enough fuel. *)
Definition reads_with {A} (m : nat → P A) (l : list Token) (a : A) (l' : list Token) : Prop :=
  ∃ n, ∀ f, n ≤ f → reads (m f) l a l'.

Lemma reads_bind {A B} (m : P A) (f : A → P B) l a l1 b l2 :
  reads m l a l1 → reads (f a) l1 b l2 → reads (m ≫= f) l b l2.
Proof.
  intros Hm Hf ts Hts. destruct (Hm ts Hts) as (ts1 & E1 & H1). destruct (Hf ts1 H1) as (ts2 & E2 & H2).
  exists ts2. unfold mbind, p_bind. by rewrite E1.
Qed.
Lemma reads_ret {A} (a : A) l : reads (mret a) l a l.
Proof. intros ts Hts. by exists ts. Qed.
Lemma reads_expect {B} t (f : unit → P B) l b l2 : reads (f tt) l b l2 → reads (expect t ≫= f) (t :: l) b l2.
Proof.
  apply reads_bind. intros [|ti ts] [= Ht Hl]. exists ts. unfold expect, mbind, p_bind, advance. cbn.
  by rewrite bool_decide_true.
Qed.
Lemma reads_advance {B} t (f : option TokenInfo → P B) l b l2 :
  (∀ ti, tok ti = t → reads (f (Some ti)) l b l2) → reads (advance ≫= f) (t :: l) b l2.
Proof. intros Hf [|ti ts] [= Ht Hl]. destruct (Hf ti Ht ts Hl) as (ts2 & E2 & H2). by exists ts2. Qed.
Lemma reads_ident {B} x (f : string * nat → P B) l b l2 :
  (∀ n, reads (f (x, n)) l b l2) → reads (expect_ident ≫= f) (KIdentifier x :: l) b l2.
Proof.
  intros Hf [|ti ts] [= Ht Hl]. destruct (Hf (sp_line (span ti)) ts Hl) as (ts2 & E2 & H2). exists ts2.
  unfold expect_ident, mbind, p_bind, advance. cbn. by rewrite Ht.
Qed.
Lemma reads_peek {B} (f : option Token → P B) l b l2 : reads (f (head l)) l b l2 → reads (peek ≫= f) l b l2.
Proof. apply reads_bind. intros ts <-. exists ts. split; [|done]. unfold peek. by destruct ts. Qed.
Lemma reads_next {B} t (f : bool → P B) l b l2 :
  reads (f (bool_decide (head l = Some t))) l b l2 → reads (next_is t ≫= f) l b l2.
Proof.
  intros Hf ts Hts. destruct (Hf ts Hts) as (ts2 & E2 & H2). exists ts2. split; [|done].
  rewrite <- E2. unfold next_is, mbind, p_bind, peek. cbn. do 2 f_equal. rewrite <- Hts. by destruct ts.
Qed.
Lemma reads_next_true {B} t (f : bool → P B) l b l2 :
  reads (f true) (t :: l) b l2 → reads (next_is t ≫= f) (t :: l) b l2.
Proof. intros. apply reads_next. cbn [head]. by rewrite bool_decide_true. Qed.
Lemma reads_next_false {B} t (f : bool → P B) l b l2 :
  head l ≠ Some t → reads (f false) l b l2 → reads (next_is t ≫= f) l b l2.
Proof. intros. apply reads_next. by rewrite bool_decide_false. Qed.

(** The next fuel. *)
Lemma reads_with_S {A} (m : nat → P A) l a l' : reads_with (λ f, m (S f)) l a l' → reads_with m l a l'.
Proof. intros [n Hn]. exists (S n). intros [|f] Hf; [lia|]. apply Hn. lia. Qed.
Lemma reads_with_const {A} (m : P A) l a l' : reads m l a l' → reads_with (λ _, m) l a l'.
Proof. intros. by exists 0. Qed.
Lemma reads_with_bind {A B} (m : nat → P A) (g : nat → A → P B) l a l1 b l2 :
  reads_with m l a l1 → reads_with (λ f, g f a) l1 b l2 → reads_with (λ f, m f ≫= g f) l b l2.
Proof.
  intros [n1 H1] [n2 H2]. exists (n1 + n2). intros f Hf. eapply reads_bind; [apply H1; lia | apply H2; lia].
Qed.
Lemma rw_expect {B} t (g : nat → unit → P B) l b l2 :
  reads_with (λ f, g f tt) l b l2 → reads_with (λ f, expect t ≫= g f) (t :: l) b l2.
Proof. intros [n Hn]. exists n. intros f Hf. by apply reads_expect, Hn. Qed.
(** An identifier whose line is not used. *)
Lemma rw_ident {B} x (g : nat → string * nat → P B) l b l2 :
  (∀ n f, g f (x, n) = g f (x, 0)) → reads_with (λ f, g f (x, 0)) l b l2 →
  reads_with (λ f, expect_ident ≫= g f) (KIdentifier x :: l) b l2.
Proof. intros Hg [n Hn]. exists n. intros f Hf. apply reads_ident. intros m. rewrite Hg. by apply Hn. Qed.
Lemma rw_peek {B} (g : nat → option Token → P B) l b l2 :
  reads_with (λ f, g f (head l)) l b l2 → reads_with (λ f, peek ≫= g f) l b l2.
Proof. intros [n Hn]. exists n. intros f Hf. by apply reads_peek, Hn. Qed.
Lemma rw_next_true {B} t (g : nat → bool → P B) l b l2 :
  reads_with (λ f, g f true) (t :: l) b l2 → reads_with (λ f, next_is t ≫= g f) (t :: l) b l2.
Proof. intros [n Hn]. exists n. intros f Hf. by apply reads_next_true, Hn. Qed.
Lemma rw_next_false {B} t (g : nat → bool → P B) l b l2 :
  head l ≠ Some t → reads_with (λ f, g f false) l b l2 → reads_with (λ f, next_is t ≫= g f) l b l2.
Proof. intros Ht [n Hn]. exists n. intros f Hf. by apply reads_next_false, Hn. Qed.
Lemma rw_ret {A} (a : A) l : reads_with (λ _, mret a) l a l.
Proof. apply reads_with_const, reads_ret. Qed.

(** A token whose position is not used. *)
Lemma rw_advance {B} t (g : nat → option TokenInfo → P B) (h : nat → P B) l b l2 :
  (∀ ti f, tok ti = t → g f (Some ti) = h f) → reads_with h l b l2 →
  reads_with (λ f, advance ≫= g f) (t :: l) b l2.
Proof. intros Hg [n Hn]. exists n. intros f Hf. apply reads_advance. intros ti Ht. rewrite (Hg ti f Ht). by apply Hn. Qed.

(** Reads the code of a parser up to its next call. *)
Ltac read_prim :=
  lazymatch goal with
  | |- reads_with (λ _, expect _ ≫= _) _ _ _ => apply rw_expect
  | |- reads_with (λ _, expect_ident ≫= _) _ _ _ => apply rw_ident; [reflexivity|]
  | |- reads_with (λ _, peek ≫= _) _ _ _ => apply rw_peek
  | |- reads_with (λ _, advance ≫= _) _ _ _ =>
      eapply rw_advance; [let E := fresh in intros ? ? E; cbn; rewrite ?E; reflexivity|]
  | |- reads_with (λ _, mret _) _ _ _ => apply rw_ret
  | |- reads_with (λ _, next_is ?t ≫= _) (?t :: _) _ _ => apply rw_next_true
  | |- reads_with (λ _, next_is _ ≫= _) _ _ _ => apply rw_next_false; [done|]
  end.
Ltac read := repeat (read_prim; cbn [head app fst snd]).

(** ** Expressions *)
Definition next_op (rest : list Token) : option BinOp := head rest ≫= token_to_binop.
(** The next token does not extend a variable, nor an expression at [j]. *)
Definition no_access (rest : list Token) : bool :=
  bool_decide (head rest ≠ Some KLBracket) && bool_decide (head rest ≠ Some KDot).
Definition ends (j : nat) (rest : list Token) : bool :=
  no_access rest && match next_op rest with Some op => precedence op <=? j | None => true end.
(** The next token ends a whole expression. *)
Definition closing (rest : list Token) : bool := no_access rest && bool_decide (next_op rest = None).

Lemma token_binop op : token_to_binop (binop_token op) = Some op.
Proof. by destruct op. Qed.

Lemma loop_stops k e rest : ends (pred k) rest = true → 0 < k ∨ next_op rest = None →
  reads_with (λ f, parse_loop f k e) rest e rest.
Proof.
  intros Hends Hk. apply reads_with_S. cbn [parse_loop]. read. fold (next_op rest).
  apply andb_true_iff in Hends as [_ Hp].
  destruct (next_op rest) as [op|]; [|read].
  destruct Hk as [Hk|]; [|done]. apply Nat.leb_le in Hp.
  rewrite (proj2 (Nat.leb_gt _ _)) by lia. read.
Qed.

(** What the parser does on the tokens of [e] at level [j] followed by [rest]. *)
Definition reads_unary (e : Expr) : Prop := ∀ rest, no_access rest = true →
  reads_with parse_unary (expr_tokens 6 e ++ rest) e rest.
Definition reads_expr (e : Expr) : Prop := ∀ j k rest a l', k ≤ j → ends j rest = true →
  reads_with (λ f, parse_loop f k e) rest a l' →
  reads_with (λ f, parse_expr_prec f k) (expr_tokens j e ++ rest) a l'.

Lemma ends_access j rest : ends j rest = true → no_access rest = true.
Proof. unfold ends. by intros [? _]%andb_true_iff. Qed.
Lemma closing_ends j rest : closing rest = true → ends j rest = true.
Proof.
  unfold closing, ends. intros [-> Hn]%andb_true_iff. apply bool_decide_eq_true in Hn. by rewrite Hn.
Qed.
Lemma closing_none rest : closing rest = true → next_op rest = None.
Proof. unfold closing. by intros [_ ?%bool_decide_eq_true]%andb_true_iff. Qed.

(** A whole expression before a token that closes it. *)
Lemma reads_whole e rest : reads_expr e → closing rest = true →
  reads_with parse_expression (expr_tokens 0 e ++ rest) e rest.
Proof.
  intros He Hc. unfold parse_expression. apply (He 0 0 rest e rest); [done | by apply closing_ends|].
  apply loop_stops; [by apply closing_ends | right; by apply closing_none].
Qed.
Lemma rw_whole {B} (g : nat → Expr → P B) e rest b l2 :
  reads_expr e → closing rest = true → reads_with (λ f, g f e) rest b l2 →
  reads_with (λ f, parse_expression f ≫= g f) (expr_tokens 0 e ++ rest) b l2.
Proof. intros He Hc Hg. eapply reads_with_bind; [by apply reads_whole | done]. Qed.

(** An operand is an expression at every level. *)
Lemma unary_expr e : (∀ j, expr_tokens j e = expr_tokens 6 e) → reads_unary e → reads_expr e.
Proof.
  intros Ht Hu j k rest a l' Hk Hends Hl. rewrite Ht. apply reads_with_S. cbn [parse_expr_prec].
  eapply reads_with_bind; [by apply Hu, ends_access with j | done].
Qed.
Lemma primary_unary e : (∀ t, head (expr_tokens 6 e) = Some t → t ≠ KMinus ∧ t ≠ KNot) → expr_tokens 6 e ≠ [] →
  (∀ rest, no_access rest = true → reads_with parse_primary (expr_tokens 6 e ++ rest) e rest) → reads_unary e.
Proof.
  intros Hh Hne Hp rest Ha. specialize (Hp rest Ha). apply reads_with_S. cbn [parse_unary]. apply rw_peek.
  destruct (expr_tokens 6 e) as [|t l]; [done|]. cbn [app head] in *. destruct (Hh t eq_refl). by destruct t.
Qed.

Lemma ident_expr x : valid_name x = true → reads_unary (Variable_ x).
Proof.
  intros Hx. apply primary_unary; [by intros t [= <-] | done|]. intros rest Ha.
  unfold valid_name in Hx. apply negb_true_iff, bool_decide_eq_false in Hx.
  apply andb_true_iff in Ha as [H1%bool_decide_eq_true H2%bool_decide_eq_true].
  apply reads_with_S. cbn [parse_primary expr_tokens app]. read. rewrite !bool_decide_false by (intros ->; set_solver). read.
Qed.

Lemma literal_unary e t : expr_tokens 6 e = [t] → t ≠ KMinus → t ≠ KNot →
  (∀ rest, reads_with parse_primary (t :: rest) e rest) → reads_unary e.
Proof.
  intros Ht H1 H2 Hp. apply primary_unary; rewrite Ht; [by intros t' [= <-] | done | intros rest _; apply Hp].
Qed.
Lemma array_unary x i : valid_name x = true → reads_expr i → reads_unary (ArrayAccess x i).
Proof.
  intros Hx Hi. apply primary_unary; [by intros t [= <-] | done|]. intros rest Ha.
  unfold valid_name in Hx. apply negb_true_iff, bool_decide_eq_false in Hx.
  apply reads_with_S. cbn [parse_primary expr_tokens app]. read. rewrite !bool_decide_false by (intros ->; set_solver).
  read. rewrite <- (assoc_L (++)). apply rw_whole; [done | reflexivity |]. cbn [app]. read.
Qed.
Lemma field_unary x y : valid_name x = true → reads_unary (FieldAccess x y).
Proof.
  intros Hx. apply primary_unary; [by intros t [= <-] | done|]. intros rest Ha.
  unfold valid_name in Hx. apply negb_true_iff, bool_decide_eq_false in Hx.
  apply reads_with_S. cbn [parse_primary expr_tokens app]. read. rewrite !bool_decide_false by (intros ->; set_solver).
  read.
Qed.
Lemma minus_unary op e : reads_unary e → reads_unary (Unary op e).
Proof.
  intros He rest Ha. apply reads_with_S. cbn [parse_unary expr_tokens app]. destruct op; cbn [unop_token]; read;
  (eapply reads_with_bind; [by apply He | read]).
Qed.

(** A binary operator without parentheses. *)
Lemma open_binary l op r : reads_expr l → reads_expr r → let p := precedence op in
  ∀ j k rest a l', k ≤ j → j ≤ p → ends j rest = true →
  reads_with (λ f, parse_loop f k (Binary l op r)) rest a l' →
  reads_with (λ f, parse_expr_prec f k) ((expr_tokens p l ++ binop_token op :: expr_tokens (S p) r) ++ rest) a l'.
Proof.
  intros Hl Hr p j k rest a l' Hk Hj Hends Hloop. rewrite <- (assoc_L (++)). cbn [app].
  assert (Hp : ends p (binop_token op :: expr_tokens (S p) r ++ rest) = true).
  { unfold ends, no_access, next_op. cbn [head mbind option_bind]. rewrite token_binop.
    rewrite !bool_decide_true by (by destruct op). apply Nat.leb_refl. }
  assert (Hp' : ends p rest = true).
  { unfold ends in *. apply andb_true_iff in Hends as [-> Ho]. destruct (next_op rest); [|done].
    apply Nat.leb_le in Ho. cbn. apply Nat.leb_le. lia. }
  apply Hl; [lia|done|]. apply reads_with_S. cbn [parse_loop]. read. cbn [mbind option_bind]. rewrite token_binop, (proj2 (Nat.leb_le _ _)) by lia.
  read. eapply reads_with_bind; [|exact Hloop].
  apply Hr; [done | | apply loop_stops; [done | lia]].
  unfold ends in *. apply andb_true_iff in Hp' as [-> Ho]. destruct (next_op rest); [|done].
  apply Nat.leb_le in Ho. cbn. apply Nat.leb_le. lia.
Qed.

Lemma unary_both e : (∀ j, expr_tokens j e = expr_tokens 6 e) → reads_unary e → reads_expr e ∧ reads_unary e.
Proof. intros Ht Hu. split; [by apply unary_expr | done]. Qed.

(** In parentheses. *)
Lemma binary_unary l op r : reads_expr l → reads_expr r → reads_unary (Binary l op r).
Proof.
  intros Hl Hr. apply primary_unary.
  - cbn [expr_tokens]. rewrite (proj2 (Nat.ltb_lt _ _)) by (destruct op; cbn; lia). by intros t [= <-].
  - cbn [expr_tokens]. by rewrite (proj2 (Nat.ltb_lt _ _)) by (destruct op; cbn; lia).
  - intros rest Ha. cbn [expr_tokens]. rewrite (proj2 (Nat.ltb_lt _ _)) by (destruct op; cbn; lia).
    cbn [wrap app]. apply reads_with_S. cbn [parse_primary]. read. rewrite <- (assoc_L (++)). cbn [app].
    eapply reads_with_bind; [|read].
    apply (open_binary l op r Hl Hr 0 0); [lia..|reflexivity|]. by apply loop_stops; [|right].
Qed.
Lemma expr_roundtrip e : valid_expr e = true → reads_expr e ∧ reads_unary e.
Proof.
  induction e as [n|n|b|x|l IHl op r IHr|op e IHe|x i IHi|x y]; cbn [valid_expr]; intros Hv.
  - apply unary_both; [done|]. eapply literal_unary; [done..|]. intros. apply reads_with_S. cbn [parse_primary]. read.
  - apply unary_both; [done|]. eapply literal_unary; [done..|]. intros. apply reads_with_S. cbn [parse_primary]. read.
  - apply unary_both; [done|]. eapply literal_unary; [done..|]. intros. apply reads_with_S. cbn [parse_primary]. read.
    destruct b; apply rw_ret.
  - apply unary_both; [done|]. by apply ident_expr.
  - apply andb_true_iff in Hv as [Hl Hr]. destruct (IHl Hl) as [Hl' _], (IHr Hr) as [Hr' _].
    assert (Hu := binary_unary l op r Hl' Hr'). split; [|exact Hu].
    intros j k rest a l' Hk Hends Hloop. destruct (Nat.lt_ge_cases (precedence op) j) as [Hlt|Hge].
    + assert (Ht : expr_tokens j (Binary l op r) = expr_tokens 6 (Binary l op r)).
      { cbn [expr_tokens]. by rewrite !(proj2 (Nat.ltb_lt _ _)) by (destruct op; cbn in *; lia). }
      rewrite Ht. apply reads_with_S. cbn [parse_expr_prec].
      eapply reads_with_bind; [by apply Hu, ends_access with j | done].
    + cbn [expr_tokens]. rewrite (proj2 (Nat.ltb_ge _ _)) by lia. cbn [wrap]. by apply (open_binary l op r Hl' Hr' j k).
  - apply unary_both; [done|]. by apply minus_unary, IHe.
  - apply andb_true_iff in Hv as [Hx Hi]. apply unary_both; [done|]. by apply array_unary, IHi.
  - apply unary_both; [done|]. by apply field_unary.
Qed.

(** ** Statements *)
Lemma rw_expr {B} (g : nat → Expr → P B) e rest b l2 :
  valid_expr e = true → closing rest = true → reads_with (λ f, g f e) rest b l2 →
  reads_with (λ f, parse_expression f ≫= g f) (expr_tokens 0 e ++ rest) b l2.
Proof. intros He. apply rw_whole. by apply expr_roundtrip. Qed.

Definition reads_stmt (s : Statement) : Prop :=
  ∀ rest, reads_with parse_statement (stmt_tokens s ++ rest) s rest.

(** A statement begins with an identifier or one of seven keywords. *)
Definition starts_stmt (t : Token) : bool :=
  match t with
  | KIdentifier _ | KIf | KWhile | KFor | KCase | KRepeat | KReturn | KExit => true
  | _ => false
  end.
Lemma stmt_head s : ∃ t l, stmt_tokens s = t :: l ∧ starts_stmt t = true.
Proof. destruct s; cbn [stmt_tokens]; eauto. Qed.

(** Where a body ends. *)
Definition stops (stop : option Token → bool) : Prop := ∀ t, starts_stmt t = true → stop (Some t) = false.
Lemma body_reads ss stop rest : Forall reads_stmt ss → stops stop → stop (head rest) = true →
  reads_with (λ f, parse_until f stop) (body_tokens ss ++ rest) ss rest.
Proof.
  intros Hss Hst Hr. induction Hss as [|s ss Hs Hss IH]; apply reads_with_S; cbn [parse_until].
  - apply rw_peek. cbn [body_tokens flat_map app]. rewrite Hr. read.
  - cbn [body_tokens flat_map]. fold (body_tokens ss). rewrite <- (assoc_L (++)). apply rw_peek.
    destruct (stmt_head s) as (t & l & Ht & Hst'). rewrite Ht. cbn [app head]. rewrite (Hst t Hst'), app_comm_cons, <- Ht.
    eapply reads_with_bind; [apply Hs|]. eapply reads_with_bind; [apply IH | read].
Qed.
Lemma rw_body {B} (g : nat → list Statement → P B) ss stop rest b l2 :
  Forall reads_stmt ss → stops stop → stop (head rest) = true → reads_with (λ f, g f ss) rest b l2 →
  reads_with (λ f, parse_until f stop ≫= g f) (body_tokens ss ++ rest) b l2.
Proof. intros Hss Hst Hr Hg. eapply reads_with_bind; [by apply body_reads | done]. Qed.
Lemma stops_at_stops ts : Forall (λ t, starts_stmt t = false) ts → stops (stops_at ts).
Proof.
  intros Hts t Ht. cbn. apply bool_decide_eq_false. intros Hin.
  rewrite Forall_forall in Hts. specialize (Hts t Hin). congruence.
Qed.

Lemma args_read es : ∀ acc rest, forallb valid_expr es = true →
  reads_with (λ f, parse_args f acc) (args_tokens es ++ KRParen :: rest) (acc ++ es) (KRParen :: rest).
Proof.
  induction es as [|e es IH]; intros acc rest Hv; apply reads_with_S; cbn [parse_args args_tokens app].
  - rewrite app_nil_r. read.
  - cbn in Hv. apply andb_true_iff in Hv as [He Hes]. read. rewrite <- (assoc_L (++)).
    apply rw_expr; [done | by destruct es|]. specialize (IH (acc ++ [e]) rest Hes). by rewrite <- (assoc_L (++)) in IH.
Qed.
Lemma values_read vs : ∀ acc rest, vs ≠ [] →
  reads_with (λ f, parse_case_values f acc) (values_tokens vs ++ rest) (acc ++ vs) rest.
Proof.
  induction vs as [|v vs IH]; intros acc rest Hne; [done|]. apply reads_with_S. cbn [parse_case_values].
  destruct vs as [|v' vs]; [cbn [values_tokens app]; read|].
  change (values_tokens (v :: v' :: vs)) with (KIntegerLiteral v :: KComma :: values_tokens (v' :: vs)).
  cbn [app]. read. specialize (IH (acc ++ [v]) rest ltac:(done)). by rewrite <- (assoc_L (++)) in IH.
Qed.

Lemma if_tokens c t e : stmt_tokens (If_ c t e)
  = KIf :: expr_tokens 0 c ++ KThen :: body_tokens t ++ else_tokens (body_tokens e) ++ [KEndIf; KSemicolon].
Proof. done. Qed.
Lemma while_tokens c b : stmt_tokens (While_ c b)
  = KWhile :: expr_tokens 0 c ++ KDo :: body_tokens b ++ [KEndWhile; KSemicolon].
Proof. done. Qed.
Lemma for_tokens x a b k bd : stmt_tokens (For_ x a b k bd)
  = KFor :: KIdentifier x :: KAssign :: expr_tokens 0 a ++ KTo :: expr_tokens 0 b
      ++ match k with Some e => KBy :: expr_tokens 0 e | None => [] end
      ++ KDo :: body_tokens bd ++ [KEndFor; KSemicolon].
Proof. done. Qed.
Lemma case_tokens x cases e : stmt_tokens (Case_ x cases e)
  = KCase :: KIdentifier x :: KOf :: arms_tokens cases ++ else_tokens (body_tokens e) ++ [KEndCase; KSemicolon].
Proof.
  cbn [stmt_tokens]. do 3 f_equal. f_equal. induction cases as [|[vs b] cases IH]; [done|].
  cbn [arms_tokens flat_map fst snd]. fold (arms_tokens cases). by rewrite IH, (assoc_L (++)).
Qed.
Lemma repeat_tokens b c : stmt_tokens (Repeat_ b c)
  = KRepeat :: body_tokens b ++ KUntil :: expr_tokens 0 c ++ [KEndRepeat; KSemicolon].
Proof. done. Qed.

(** An optional ELSE part before the end of its statement. *)
Lemma rw_else {B} (g : nat → list Statement → P B) stop e rest a l2 :
  starts_stmt stop = false → stop ≠ KElse → Forall reads_stmt e →
  reads_with (λ f, g f e) (stop :: rest) a l2 →
  reads_with (λ f, b ← next_is KElse;
    else_body ← (if b : bool then _ ← expect KElse; parse_until f (stops_at [stop]) else mret []); g f else_body)
    (else_tokens (body_tokens e) ++ stop :: rest) a l2.
Proof.
  intros Hst Hne He Hg. destruct e as [|s e].
  - cbn [body_tokens flat_map else_tokens app]. apply rw_next_false; [cbn; congruence|].
    by eapply reads_with_bind; [apply rw_ret|].
  - destruct (stmt_head s) as (t & l & Ht & _). cbn [body_tokens flat_map]. fold (body_tokens e).
    assert (Hb : body_tokens (s :: e) = stmt_tokens s ++ body_tokens e) by done. rewrite Ht at 1.
    cbn [app else_tokens]. rewrite app_comm_cons. change (t :: l ++ ?k) with ((t :: l) ++ k). rewrite <- Ht, <- Hb.
    cbn [app]. read_prim. eapply reads_with_bind; [|exact Hg]. read.
    apply body_reads; [done | by apply stops_at_stops; repeat constructor|]. cbn. apply bool_decide_eq_true. set_solver.
Qed.

(** Statement by statement. *)
Ltac flat := repeat rewrite <- (assoc_L (++)); cbn [app head fst snd].
Ltac start_stmt := apply reads_with_S; cbn [parse_statement]; flat; read; flat.
Lemma assign_reads x e : valid_expr e = true → reads_stmt (Assign x e).
Proof.
  intros He rest. cbn [stmt_tokens]. start_stmt. unfold parse_ident_stmt. read.
  apply rw_expr; [done..|]. read.
Qed.
Lemma array_assign_reads x i v : valid_expr i = true → valid_expr v = true → reads_stmt (ArrayAssign x i v).
Proof.
  intros Hi Hv rest. cbn [stmt_tokens]. start_stmt. unfold parse_ident_stmt. read.
  apply rw_expr; [done..|]. read. flat. apply rw_expr; [done..|]. read.
Qed.
Lemma expr_head e : ∀ k, ∃ t l, expr_tokens k e = t :: l ∧ t ≠ KRParen.
Proof.
  induction e as [n|n|b|x|l IHl op r IHr|op e IHe|x i IHi|x y]; intros k; cbn [expr_tokens]; eauto.
  - unfold wrap. destruct (_ <? _); [by eauto|]. destruct (IHl (precedence op)) as (t & l' & -> & Ht). cbn. eauto.
  - eexists _, _. split; [done|]. by destruct op.
Qed.
Lemma call_reads x args : forallb valid_expr args = true → reads_stmt (FunCall x args).
Proof.
  intros Hv rest. cbn [stmt_tokens]. start_stmt. unfold parse_ident_stmt. destruct args as [|e args].
  - cbn [app]. read. eapply reads_with_bind; [apply rw_ret | read].
  - cbn in Hv. apply andb_true_iff in Hv as [He Hes]. flat. read. apply rw_next_false.
    { destruct (expr_head e 0) as (t & l & -> & Ht). cbn. congruence. }
    eapply reads_with_bind; [|read].
    apply rw_expr; [done | by destruct args|]. by apply args_read.
Qed.
Lemma return_reads : reads_stmt Return_.
Proof. intros rest. cbn [stmt_tokens]. start_stmt. Qed.
Lemma exit_reads : reads_stmt Exit_.
Proof. intros rest. cbn [stmt_tokens]. start_stmt. Qed.
Ltac stop_list := first [by apply stops_at_stops; repeat constructor | reflexivity | done].
Lemma else_head e stop rest :
  head (else_tokens (body_tokens e) ++ stop :: rest) = Some (match e with [] => stop | _ => KElse end).
Proof.
  destruct e as [|s e]; [done|]. destruct (stmt_head s) as (t & l & E & _).
  cbn [body_tokens flat_map]. by rewrite E.
Qed.
Lemma if_reads c t e : valid_expr c = true → Forall reads_stmt t → Forall reads_stmt e → reads_stmt (If_ c t e).
Proof.
  intros Hc Ht He rest. rewrite if_tokens. start_stmt. apply rw_expr; [done..|]. read.
  flat. apply rw_body; [done | stop_list | rewrite else_head; by destruct e|]. apply rw_else; [done..|]. read.
Qed.
Lemma while_reads c b : valid_expr c = true → Forall reads_stmt b → reads_stmt (While_ c b).
Proof.
  intros Hc Hb rest. rewrite while_tokens. start_stmt. apply rw_expr; [done..|]. read.
  flat. apply rw_body; [done | stop_list..|]. read.
Qed.
Lemma repeat_reads b c : valid_expr c = true → Forall reads_stmt b → reads_stmt (Repeat_ b c).
Proof.
  intros Hc Hb rest. rewrite repeat_tokens. start_stmt. flat. apply rw_body; [done | stop_list..|]. flat. read. flat.
  apply rw_expr; [done..|]. read.
Qed.
Lemma for_reads x a b k bd : valid_expr a = true → valid_expr b = true → from_option valid_expr true k = true →
  Forall reads_stmt bd → reads_stmt (For_ x a b k bd).
Proof.
  intros Ha Hb Hk Hbd rest. rewrite for_tokens. start_stmt. apply rw_expr; [done..|]. read. flat.
  apply rw_expr; [done | by destruct k|]. destruct k as [e|]; flat; read.
  - eapply reads_with_bind; [read; apply rw_expr; [done..|]; read|]. read.
    flat. apply rw_body; [done | stop_list..|]. read.
  - eapply reads_with_bind; [apply rw_ret|]. read. flat. apply rw_body; [done | stop_list..|]. read.
Qed.

(** The body of an alternative of a CASE. *)
Lemma case_body_stops : stops case_body_end.
Proof. by intros []. Qed.
Lemma values_head vs : vs ≠ [] → ∃ v l, values_tokens vs = KIntegerLiteral v :: l.
Proof. destruct vs as [|v [|v' vs]]; [done|by eexists _, _..]. Qed.
Lemma arms_head cases e rest :
  forallb (λ a, negb (bool_decide (a.1 = [])) && forallb valid_stmt a.2) cases = true →
  case_body_end (head (arms_tokens cases ++ else_tokens (body_tokens e) ++ KEndCase :: rest)) = true.
Proof.
  destruct cases as [|[vs b] cases]; cbn [forallb arms_tokens flat_map fst snd].
  - intros _. cbn [app]. rewrite else_head. by destruct e.
  - intros [[Hvs%negb_true_iff%bool_decide_eq_false _]%andb_true_iff _]%andb_true_iff.
    destruct (values_head vs Hvs) as (v & l & ->). done.
Qed.
Lemma arms_read cases e rest :
  forallb (λ a, negb (bool_decide (a.1 = [])) && forallb valid_stmt a.2) cases = true →
  Forall (λ a, Forall reads_stmt a.2) cases →
  reads_with parse_cases (arms_tokens cases ++ else_tokens (body_tokens e) ++ KEndCase :: rest) cases
    (else_tokens (body_tokens e) ++ KEndCase :: rest).
Proof.
  intros Hv Hc. induction Hc as [|[vs b] cases Hb Hc IH]; apply reads_with_S; cbn [parse_cases].
  - apply rw_peek. cbn [arms_tokens flat_map app]. rewrite else_head. destruct e; apply rw_ret.
  - pose proof (arms_head cases e rest) as Hh. cbn [forallb fst snd] in Hv.
    apply andb_true_iff in Hv as [[Hvs%negb_true_iff%bool_decide_eq_false _]%andb_true_iff Hv].
    cbn [arms_tokens flat_map fst snd]. fold (arms_tokens cases). apply rw_peek.
    destruct (values_head vs Hvs) as (v & l & Hl). flat.
    replace (stops_at _ _) with false by (by rewrite Hl).
    eapply reads_with_bind; [exact (values_read vs [] _ Hvs)|]. cbn [app].
    apply rw_body; [done | apply case_body_stops | by apply Hh|].
    eapply reads_with_bind; [by apply IH | read].
Qed.
Lemma case_reads x cases e :
  forallb (λ a, negb (bool_decide (a.1 = [])) && forallb valid_stmt a.2) cases = true →
  Forall (λ a, Forall reads_stmt a.2) cases → Forall reads_stmt e → reads_stmt (Case_ x cases e).
Proof.
  intros Hv Hc He rest. rewrite case_tokens. start_stmt.
  eapply reads_with_bind; [by apply arms_read|]. apply rw_else; [done..|]. read.
Qed.

Lemma stmts_valid ss : Forall (λ s, valid_stmt s = true → reads_stmt s) ss → forallb valid_stmt ss = true →
  Forall reads_stmt ss.
Proof.
  induction 1 as [|s ss Hs Hss IH]; [done|]. intros [??]%andb_true_iff. constructor; auto.
Qed.
Lemma stmt_roundtrip s : valid_stmt s = true → reads_stmt s.
Proof.
  induction s as [x e| | |f args|x i v|c t e IHt IHe|c b IHb|x a b k bd IHb|x cs e IHcs IHe|b c IHb] using statement_ind;
    cbn [valid_stmt]; rewrite ?andb_true_iff; intros Hv; destruct_and?.
  - by apply assign_reads.
  - apply return_reads.
  - apply exit_reads.
  - by apply call_reads.
  - by apply array_assign_reads.
  - apply if_reads; auto using stmts_valid.
  - apply while_reads; auto using stmts_valid.
  - apply for_reads; auto using stmts_valid.
  - apply case_reads; auto using stmts_valid.
    induction IHcs as [|[vs b] cs Hb Hcs IH]; [done|]. cbn [forallb fst snd] in *.
    rewrite !andb_true_iff in *. destruct_and?. constructor; auto using stmts_valid.
  - apply repeat_reads; auto using stmts_valid.
Qed.
Lemma body_roundtrip ss : forallb valid_stmt ss = true → Forall reads_stmt ss.
Proof. intros Hv. apply stmts_valid; [|done]. apply Forall_true. apply stmt_roundtrip. Qed.

(** ** Declarations *)
Lemma rw_name {B} x (g : nat → string * nat → P B) (h : nat → P B) l b l2 :
  (∀ n f, g f (x, n) = h f) → reads_with h l b l2 →
  reads_with (λ f, expect_ident ≫= g f) (KIdentifier x :: l) b l2.
Proof. intros Hg [n Hn]. exists n. intros f Hf. apply reads_ident. intros m. rewrite Hg. by apply Hn. Qed.

Lemma simple_type_reads t tk rest : type_tokens t = [tk] → simple_type tk = Some t →
  reads_with parse_var_type (tk :: rest) t rest.
Proof. intros _ Hs. apply reads_with_S. cbn [parse_var_type]. eapply rw_advance; [intros ti f ->; rewrite Hs; reflexivity|]. read. Qed.
Lemma var_type_reads t rest : t ≠ TyTof → head rest ≠ Some KLParen →
  reads_with parse_var_type (type_tokens t ++ rest) t rest.
Proof.
  intros Ht Hr. destruct t; try (by eapply simple_type_reads).
  - apply reads_with_S. cbn [parse_var_type type_tokens app]. read. cbn [simple_type]. read.
  - apply reads_with_S. cbn [parse_var_type type_tokens app]. read. cbn [simple_type]. read.
    eapply reads_with_bind; [apply (reads_whole (IntLiteral 0)); [by apply expr_roundtrip | reflexivity]|]. read.
    eapply reads_with_bind; [apply (reads_whole (IntLiteral 0)); [by apply expr_roundtrip | reflexivity]|]. read.
    eapply reads_with_bind; [by apply (simple_type_reads TyInt)|]. read.
Qed.

Lemma decls_read stop : (∀ x, stop ≠ KIdentifier x) → ∀ vs acc rest, forallb valid_var vs = true →
  NoDup (var_name <$> acc ++ vs) →
  reads_with (λ f, parse_decls f stop acc) (flat_map decl_tokens vs ++ stop :: rest) (acc ++ vs) (stop :: rest).
Proof.
  intros Hstop. induction vs as [|[x ty ab sl] vs IH]; intros acc rest Hv Hnd; apply reads_with_S; cbn [parse_decls].
  - rewrite app_nil_r. cbn [flat_map app]. read.
  - cbn in Hv. apply andb_true_iff in Hv as [[Hty%bool_decide_eq_true Hn]%andb_true_iff Hv].
    cbn [var_type array_bounds string_len] in *. destruct ab, sl; try done.
    assert (Hd : declared x acc = false).
    { apply not_true_iff_false. intros (v & Hin & Hx%bool_decide_eq_true)%existsb_exists. rewrite fmap_app in Hnd.
      apply NoDup_app in Hnd as (_ & Hnd & _). eapply (Hnd x); [|cbn; left].
      apply list_elem_of_fmap. exists v. split; [done|]. by apply list_elem_of_In. }
    cbn [flat_map decl_tokens var_name var_type app]. flat. apply rw_next_false; [cbn; specialize (Hstop x); congruence|].
    eapply rw_name; [intros n f; cbn [fst snd]; rewrite Hd; reflexivity|]. read. flat.
    eapply reads_with_bind; [by apply var_type_reads|]. read.
    specialize (IH (acc ++ [mkVar x ty None None]) rest Hv). rewrite <- !(assoc_L (++)) in IH. by apply IH.
Qed.

Lemma valid_block_spec vs : valid_block vs = true → forallb valid_var vs = true ∧ NoDup (var_name <$> vs).
Proof. unfold valid_block. by intros [? ?%bool_decide_eq_true]%andb_true_iff. Qed.
Lemma block_cons start vs rest : vs ≠ [] →
  block_tokens start vs ++ rest = start :: flat_map decl_tokens vs ++ KEndVar :: KSemicolon :: rest.
Proof. destruct vs as [|v vs]; [done|]. intros _. cbn [block_tokens app]. by rewrite <- (assoc_L (++)). Qed.

Lemma var_block_reads vs rest : valid_block vs = true → vs ≠ [] →
  reads_with parse_var_block (block_tokens KVar vs ++ rest) vs rest.
Proof.
  intros [Hv Hnd]%valid_block_spec Hne. rewrite block_cons by done. unfold parse_var_block. read.
  eapply reads_with_bind; [by apply (decls_read KEndVar ltac:(done) vs [])|]. read.
Qed.
Lemma param_block_reads start vs rest : valid_block vs = true → vs ≠ [] →
  reads_with (λ f, parse_param_block f start KEndVar) (block_tokens start vs ++ rest) vs rest.
Proof.
  intros [Hv Hnd]%valid_block_spec Hne. rewrite block_cons by done. unfold parse_param_block. read.
  eapply reads_with_bind; [by apply (decls_read KEndVar ltac:(done) vs [])|]. read.
Qed.

(** The blocks of a function, one after the other. *)
Lemma block_nil start vs : vs = [] → block_tokens start vs = [].
Proof. by intros ->. Qed.
Ltac one_block :=
  intros ?; intros; match goal with |- reads_with _ (block_tokens _ ?vs ++ _) _ _ =>
    destruct (decide (vs = [])) as [->|?]; [done|] end;
  apply reads_with_S; cbn [parse_blocks_of]; apply rw_peek; rewrite block_cons by done; cbn [head];
  rewrite <- block_cons by done.
Lemma input_block vs o i l rest r l' : valid_block vs = true →
  reads_with (λ f, parse_blocks_of f (mkParams vs o i l)) rest r l' →
  reads_with (λ f, parse_blocks_of f (mkParams [] o i l)) (block_tokens KVarInput vs ++ rest) r l'.
Proof. one_block. eapply reads_with_bind; [by apply param_block_reads | done]. Qed.
Lemma output_block vs a i l rest r l' : valid_block vs = true →
  reads_with (λ f, parse_blocks_of f (mkParams a vs i l)) rest r l' →
  reads_with (λ f, parse_blocks_of f (mkParams a [] i l)) (block_tokens KVarOutput vs ++ rest) r l'.
Proof. one_block. eapply reads_with_bind; [by apply param_block_reads | done]. Qed.
Lemma inout_block vs a o l rest r l' : valid_block vs = true →
  reads_with (λ f, parse_blocks_of f (mkParams a o vs l)) rest r l' →
  reads_with (λ f, parse_blocks_of f (mkParams a o [] l)) (block_tokens KVarInOut vs ++ rest) r l'.
Proof. one_block. eapply reads_with_bind; [by apply param_block_reads | done]. Qed.
Lemma local_block vs a o i rest r l' : valid_block vs = true →
  reads_with (λ f, parse_blocks_of f (mkParams a o i vs)) rest r l' →
  reads_with (λ f, parse_blocks_of f (mkParams a o i [])) (block_tokens KVar vs ++ rest) r l'.
Proof. one_block. eapply reads_with_bind; [by apply var_block_reads | done]. Qed.
Definition no_block (t : option Token) : bool :=
  match t with Some (KVarInput | KVarOutput | KVarInOut | KVar) => false | _ => true end.
Lemma blocks_stop b rest : no_block (head rest) = true → reads_with (λ f, parse_blocks_of f b) rest b rest.
Proof.
  intros Hh. apply reads_with_S. cbn [parse_blocks_of]. apply rw_peek.
  destruct (head rest) as [[]|]; (done || apply rw_ret).
Qed.
Lemma body_head ss stop rest : starts_stmt stop = false →
  head (body_tokens ss ++ stop :: rest) = Some stop
  ∨ ∃ t, head (body_tokens ss ++ stop :: rest) = Some t ∧ starts_stmt t = true.
Proof.
  intros Hst. destruct ss as [|s ss]; [by left|]. destruct (stmt_head s) as (t & l & E & Ht).
  right. exists t. cbn [body_tokens flat_map]. by rewrite E.
Qed.

Lemma function_reads fd rest : valid_function fd = true →
  reads_with parse_function_def (function_tokens fd ++ rest) fd rest.
Proof.
  destruct fd as [name ty locals ins outs ios body]. unfold valid_function. cbn.
  rewrite !andb_true_iff. intros [[[[[Hty%bool_decide_eq_true Hi] Ho] Hio] Hl] Hb].
  unfold parse_function_def, function_tokens. cbn [fd_name return_type input_params output_params inout_params fd_variables fd_body].
  flat. read. flat. eapply reads_with_bind; [by apply var_type_reads|]. read. flat.
  eapply reads_with_bind.
  { apply input_block, output_block, inout_block, local_block; [done..|]. apply blocks_stop.
    destruct (body_head body KEndFunction (KSemicolon :: rest)) as [->|(t & -> & Ht)]; [done..|]. by destruct t. }
  apply rw_body; [by apply body_roundtrip | stop_list..|]. read.
Qed.

(** ** Programs *)
Lemma functions_read fs : ∀ body fns rest r l', forallb valid_function fs = true →
  reads_with (λ f, parse_items f body (fns ++ fs)) rest r l' →
  reads_with (λ f, parse_items f body fns) (flat_map function_tokens fs ++ rest) r l'.
Proof.
  induction fs as [|fd fs IH]; intros body fns rest r l' Hv Hr; [by rewrite app_nil_r in Hr|].
  cbn in Hv. apply andb_true_iff in Hv as [Hf Hv]. apply reads_with_S. cbn [parse_items flat_map]. flat.
  apply rw_peek. cbn [function_tokens app head].
  eapply reads_with_bind; [exact (function_reads fd _ Hf)|].
  apply IH; [done|]. by rewrite <- (assoc_L (++)).
Qed.
Lemma statements_read ss : ∀ body fns rest, Forall reads_stmt ss →
  reads_with (λ f, parse_items f body fns) (body_tokens ss ++ KEndProgram :: rest) (body ++ ss, fns) (KEndProgram :: rest).
Proof.
  induction ss as [|s ss IH]; intros body fns rest Hss; apply reads_with_S; cbn [parse_items].
  - rewrite app_nil_r. cbn [body_tokens flat_map app]. read.
  - apply Forall_cons in Hss as [Hs Hss]. cbn [body_tokens flat_map]. fold (body_tokens ss). flat. apply rw_peek.
    destruct (stmt_head s) as (t & l & Ht & Hst).
    replace (head (stmt_tokens s ++ body_tokens ss ++ KEndProgram :: rest)) with (Some t) by (by rewrite Ht).
    specialize (IH (body ++ [s]) fns rest Hss). rewrite <- (assoc_L (++)) in IH.
    assert (Hgo : reads_with (λ f, s ← parse_statement f; parse_items f (body ++ [s]) fns)
      (stmt_tokens s ++ body_tokens ss ++ KEndProgram :: rest) (body ++ s :: ss, fns) (KEndProgram :: rest)).
    { eapply reads_with_bind; [apply Hs | exact IH]. }
    by destruct t.
Qed.

Lemma no_duplicate vs : ∀ seen, NoDup (var_name <$> vs) → (∀ v, v ∈ vs → var_name v ∉ seen) →
  first_duplicate seen vs = None.
Proof.
  induction vs as [|v vs IH]; intros seen Hnd Hs; cbn; [done|].
  apply NoDup_cons in Hnd as [Hv Hnd]. rewrite bool_decide_false by (apply Hs; left).
  apply IH; [done|]. intros w Hw [E|Hin]%elem_of_cons; [|eapply Hs; [by right|done]].
  apply Hv. rewrite <- E. by apply list_elem_of_fmap_2.
Qed.

Lemma program_reads p : valid_program p = true → reads_with parse_program_inner (program_tokens p) p [].
Proof.
  destruct p as [name vars body fns]. unfold valid_program. cbn [p_variables functions p_body].
  rewrite !andb_true_iff. intros [[Hv Hf] Hb]. unfold parse_program_inner, program_tokens.
  cbn [p_name p_variables functions p_body]. read.
  set (rest := flat_map function_tokens fns ++ body_tokens body ++ [KEndProgram]).
  assert (Hitems : reads_with (λ f, parse_items f [] []) rest (body, fns) [KEndProgram]).
  { apply functions_read; [done|]. apply (statements_read body [] fns []). by apply body_roundtrip. }
  assert (Hhead : head rest ≠ Some KVar).
  { unfold rest. destruct fns as [|fd fns]; [|by cbn]. cbn [flat_map app].
    destruct (body_head body KEndProgram []) as [->|(t & -> & Ht)]; [done..|]. intros [= ->]. done. }
  assert (Hrest : ∀ vs, vs = vars → reads_with (λ f, match first_duplicate [] vs with
      | Some name => p_fail (RedefinedVariable name 0)
      | None => items ← parse_items f [] []; _ ← expect KEndProgram; mret (mkProg name vs items.1 items.2)
      end) rest (mkProg name vars body fns) []).
  { intros vs ->. rewrite no_duplicate; [|by apply valid_block_spec|set_solver].
    eapply reads_with_bind; [exact Hitems|]. read. }
  destruct (decide (vars = [])) as [->|Hne].
  - cbn [block_tokens app]. apply rw_next_false; [done|]. eapply reads_with_bind; [apply rw_ret|]. by apply Hrest.
  - rewrite block_cons by done. apply rw_next_true. rewrite <- block_cons by done.
    eapply reads_with_bind; [by apply var_block_reads|]. by apply Hrest.
Qed.

(** [C28] Structured Text syntax survives printing: whatever the positions of its
    tokens, the printed form of a tree the parser can build parses back to the
    tree.  Expressions are printed with no more parentheses than precedence and
    left associativity require. *)
Theorem st_tokens_roundtrip p ts :
  valid_program p = true → tok <$> ts = program_tokens p → parse_program ts = Some (Ok p).
Proof.
  intros Hp Hts. destruct (program_reads p Hp) as [n Hn].
  destruct (Hn n ltac:(lia) ts Hts) as (rest & Hr & _). by eapply parse_program_from.
Qed.

Definition printed (p : Program) : list TokenInfo := (λ t, mkTok t (mkSpan 0 0)) <$> program_tokens p.
Definition mixed_operators : Program :=
  mkProg "p" [mkVar "x" TyDInt None None; mkVar "t" TyTon None None]
    [Assign "x" (Binary (Binary (Variable_ "x") Sub (Variable_ "x")) Mul (Binary (IntLiteral 1) Sub (Unary Neg (IntLiteral 2))));
     If_ (Unary Not_ (FieldAccess "t" "Q")) [FunCall "t" [BoolLiteral true; IntLiteral 5]] [Case_ "x" [([1%Z; 2%Z], [Exit_])] []]]
    [mkFun "f" TyReal [] [mkVar "a" TyArray None None] [] [] [Return_]].
Lemma st_tokens_roundtrip_witness :
  length (program_tokens mixed_operators) = 79 ∧ parse_program (printed mixed_operators) = Some (Ok mixed_operators).
Proof.
  split; [vm_compute; reflexivity|]. apply st_tokens_roundtrip; [vm_compute; reflexivity | vm_compute; reflexivity].
Defined.
