(* ===== verification/StCodegen.v ===== *)
(** * Structured Text: code generation ([audesys-hal-binding-gen/src/codegen.rs])

    The generator is a state monad over [Codegen] with two failures: [Err] is a
    [CodegenError] and [None] a panic (a fourth scratch register, or [EXIT]
    outside a loop).  Instruction indices are the code's [u32]. *)
From S2P Require Import Prelude Float HalTypes HalValue HalIr StLexer StParser.
Local Open Scope Z_scope.

Definition SCRATCH0 : nat := 14.
Definition SCRATCH1 : nat := 15.
Definition SCRATCH2 : nat := 13.
Definition MAX_VAR_REGS : nat := 13.

Inductive CodegenError :=
  | UndefinedVariable (name : string)
  | TooManyVariables (max : nat)
  | TypeMismatch (expected got : VarType) (context : string).

Record Codegen := mkGen {
  registers : gmap string nat;
  var_types : gmap string VarType;
  insts : list Instruction;
  scratch_avail : list bool;
  loop_exits : list (list Z) }.

Definition with_insts (g : Codegen) (x : list Instruction) : Codegen :=
  mkGen (registers g) (var_types g) x (scratch_avail g) (loop_exits g).
Definition with_scratch (g : Codegen) (x : list bool) : Codegen :=
  mkGen (registers g) (var_types g) (insts g) x (loop_exits g).
Definition with_exits (g : Codegen) (x : list (list Z)) : Codegen :=
  mkGen (registers g) (var_types g) (insts g) (scratch_avail g) x.

Definition Gen (A : Type) : Type := Codegen → option (result (A * Codegen) CodegenError).
#[export] Instance gen_ret : MRet Gen := fun A a g => Some (Ok (a, g)).
#[export] Instance gen_bind : MBind Gen := fun A B f m g =>
  match m g with
  | None => None
  | Some (Err e) => Some (Err e)
  | Some (Ok (a, g)) => f a g
  end.
Definition gen_fail {A} (e : CodegenError) : Gen A := fun _ => Some (Err e).
Definition gen_panic {A} : Gen A := fun _ => None.
(** A computation that reads the state and may fail. *)
Definition reading {A} (f : Codegen → result A CodegenError) : Gen A := fun g =>
  Some (match f g with Ok a => Ok (a, g) | Err e => Err e end).

(** [for x in l { f(x)? }] and the same collecting the results. *)
Definition each {A} (f : A → Gen unit) : list A → Gen unit :=
  fix go l := match l with [] => mret tt | x :: l => _ ← f x; go l end.
Definition collect {A B} (f : A → Gen B) : list A → Gen (list B) :=
  fix go l := match l with [] => mret [] | x :: l => y ← f x; ys ← go l; mret (y :: ys) end.

(** [Codegen::new]: the i-th variable lives in register i. *)
Fixpoint assign_registers (i : nat) (vars : list VarDecl) (regs : gmap string nat)
    (types : gmap string VarType) : gmap string nat * gmap string VarType :=
  match vars with
  | [] => (regs, types)
  | v :: vars =>
      assign_registers (S i) vars (<[var_name v := i]> regs) (<[var_name v := var_type v]> types)
  end.
Definition codegen_new (vars : list VarDecl) : result Codegen CodegenError :=
  if (MAX_VAR_REGS <? length vars)%nat then Err (TooManyVariables MAX_VAR_REGS)
  else let '(regs, types) := assign_registers 0 vars ∅ ∅ in
       Ok (mkGen regs types [] [true; true; true] []).

(** ** Emission *)
Definition current_idx : Gen Z := fun g => Some (Ok (wrap_u 32 (Z.of_nat (length (insts g))), g)).
Definition push_inst (i : Instruction) : Gen unit := fun g =>
  Some (Ok (tt, with_insts g (insts g ++ [i]))).
Definition emit (i : Instruction) : Gen Z := idx ← current_idx; _ ← push_inst i; mret idx.
Definition emit_ (i : Instruction) : Gen unit := _ ← emit i; mret tt.

Definition retarget (target : Z) (i : Instruction) : Instruction :=
  mkInst (opcode i) [Immediate (VU32 target)].
Definition patch_jump (inst_idx target : Z) : Gen unit := fun g =>
  Some (Ok (tt, with_insts g (alter (retarget target) (Z.to_nat inst_idx) (insts g)))).
Definition patch_all (js : list Z) (target : Z) : Gen unit := each (fun j => patch_jump j target) js.

(** ** Scratch registers *)
Definition alloc_scratch : Gen nat := fun g =>
  match scratch_avail g with
  | true :: l => Some (Ok (SCRATCH0, with_scratch g (false :: l)))
  | a :: true :: l => Some (Ok (SCRATCH1, with_scratch g (a :: false :: l)))
  | a :: b :: true :: l => Some (Ok (SCRATCH2, with_scratch g (a :: b :: false :: l)))
  | _ => None
  end.
Definition free_scratch (reg : nat) : Gen unit := fun g =>
  let free i r l := if (reg =? r)%nat then <[i := true]> l else l in
  Some (Ok (tt, with_scratch g (free 2%nat SCRATCH2 (free 1%nat SCRATCH1 (free 0%nat SCRATCH0 (scratch_avail g)))))).

(** ** Loops: the last element of [loop_exits] is the innermost loop. *)
Definition push_loop : Gen unit := fun g => Some (Ok (tt, with_exits g (loop_exits g ++ [[]]))).
Definition push_exit (j : Z) : Gen unit := fun g =>
  match last (loop_exits g) with
  | Some js => Some (Ok (tt, with_exits g (removelast (loop_exits g) ++ [js ++ [j]])))
  | None => None
  end.
Definition record_exit : Gen unit := j ← emit (jump 0); push_exit j.
Definition take_exits : Gen (list Z) := fun g =>
  Some (Ok (default [] (last (loop_exits g)), with_exits g (removelast (loop_exits g)))).
Definition pop_loop : Gen unit := js ← take_exits; l ← current_idx; patch_all js l.

(** ** Variables and types *)
Definition lookup_reg (g : Codegen) (name : string) : result nat CodegenError :=
  match registers g !! name with Some r => Ok r | None => Err (UndefinedVariable name) end.
Definition lookup_type (g : Codegen) (name : string) : result VarType CodegenError :=
  match var_types g !! name with Some t => Ok t | None => Err (UndefinedVariable name) end.
Definition var_reg (name : string) : Gen nat := reading (fun g => lookup_reg g name).
Definition type_of_var (name : string) : Gen (option VarType) := reading (fun g => Ok (var_types g !! name)).

Definition zero_of (vt : VarType) : HalValue :=
  match vt with
  | TyBool => VBool false
  | TySInt => VS8 0
  | TyUSInt | TyByte => VU8 0
  | TyInt => VS16 0
  | TyUInt | TyWord => VU16 0
  | TyDInt | TyTime => VS32 0
  | TyULInt | TyDWord | TyDate | TyTOD | TyDT => VU32 0
  | TyLInt => VS64 0
  | TyReal => VF32 f32_zero
  | TyLReal => VF64 f64_zero
  | TyString => VString ""
  | TyArray => VArray TS32 []
  | _ => VU32 0
  end.
Definition zero_for_var (g : Codegen) (name : string) : HalValue :=
  zero_of (default TyInt (var_types g !! name)).

Definition var_type_to_hal_pin_type (vt : VarType) : HalPinType :=
  match vt with
  | TyBool => TBool
  | TySInt => TS8
  | TyUSInt | TyByte => TU8
  | TyInt => TS16
  | TyUInt | TyWord => TU16
  | TyDInt | TyTime => TS32
  | TyULInt | TyDWord | TyDate | TyTOD | TyDT => TU32
  | TyLInt => TS64
  | TyReal => TF32
  | TyLReal => TF64
  | TyString => TString
  | TyArray => TBlob
  | _ => TU32
  end.

Definition is_timer (vt : VarType) : bool := bool_decide (vt ∈ [TyTon; TyTof; TyTp]).
Definition is_counter (vt : VarType) : bool := bool_decide (vt ∈ [TyCtu; TyCtd; TyCtud]).
Definition is_sr_rs (vt : VarType) : bool := bool_decide (vt ∈ [TySr; TyRs]).
Definition is_edge (vt : VarType) : bool := bool_decide (vt ∈ [TyRTrig; TyFTrig]).

Definition is_cmp_op (op : BinOp) : bool := bool_decide (op ∈ [Eq_; Neq; Gt_; Lt_; Gte; Lte]).
Definition is_integer_type (vt : VarType) : bool :=
  bool_decide (vt ∈ [TyInt; TyDInt; TySInt; TyUSInt; TyUInt; TyULInt; TyLInt; TyByte; TyWord;
                     TyDWord; TyTime; TyDate; TyTOD; TyDT]).
Definition types_compatible (a b : VarType) : bool :=
  bool_decide (a = b) ||
  match a, b with
  | TyInt, t => is_integer_type t
  | t, TyInt => is_integer_type t
  | TyReal, TyLReal | TyLReal, TyReal => true
  | _, _ => false
  end.

Definition cmp_opcode (op : BinOp) : Opcode :=
  match op with
  | Eq_ => OpEq | Neq => OpNeq | Gt_ => OpGt | Lt_ => OpLt | Gte => OpGte | _ => OpLte
  end.
Definition op_to_arith_opcode (op : BinOp) : option Opcode :=
  match op with
  | Add => Some OpAdd | Sub => Some OpSub | Mul => Some OpMul | Div => Some OpDiv
  | Mod_ => Some OpMod | _ => None
  end.

(** [{:?}] of an operator. *)
Definition binop_debug (op : BinOp) : string :=
  match op with
  | Add => "Add" | Sub => "Sub" | Mul => "Mul" | Div => "Div" | Eq_ => "Eq" | Neq => "Neq"
  | Gt_ => "Gt" | Lt_ => "Lt" | Gte => "Gte" | Lte => "Lte" | And_ => "And" | Or_ => "Or"
  | Mod_ => "Mod" | Xor_ => "Xor"
  end.
Definition quoted (s : string) : string := "'" +:+ s +:+ "'".

(** [type_of_expr] *)
Definition element_type (vt : VarType) : VarType := match vt with TyArray => TyInt | _ => vt end.
Definition field_type (vt : VarType) : VarType :=
  if is_timer vt || is_counter vt || is_sr_rs vt || is_edge vt then TyBool else vt.

Fixpoint type_of_expr (g : Codegen) (e : Expr) : result VarType CodegenError :=
  match e with
  | IntLiteral _ => Ok TyInt
  | RealLiteral _ => Ok TyReal
  | BoolLiteral _ => Ok TyBool
  | Variable_ name => lookup_type g name
  | ArrayAccess name _ => let? vt := lookup_type g name in Ok (element_type vt)
  | FieldAccess name _ => let? vt := lookup_type g name in Ok (field_type vt)
  | Binary l op r =>
      let? lt := type_of_expr g l in
      let? rt := type_of_expr g r in
      if is_cmp_op op then Ok TyBool
      else if bool_decide (op ∈ [And_; Or_]) then
        if negb (bool_decide (lt = TyBool)) || negb (bool_decide (rt = TyBool)) then
          Err (TypeMismatch TyBool (if bool_decide (lt = TyBool) then rt else lt)
                 ("logic " +:+ quoted (binop_debug op)))
        else Ok TyBool
      else if bool_decide (op = Xor_) then
        if types_compatible lt rt then Ok lt
        else Err (TypeMismatch rt lt ("bitwise " +:+ quoted (binop_debug op)))
      else
        if types_compatible lt rt then Ok lt
        else Err (TypeMismatch lt rt ("binary " +:+ quoted (binop_debug op)))
  | Unary Neg e =>
      let? t := type_of_expr g e in
      if bool_decide (t ∈ [TyInt; TyReal; TyDInt; TyLReal]) then Ok t
      else Err (TypeMismatch TyInt t "negation")
  | Unary Not_ e =>
      let? t := type_of_expr g e in
      if is_integer_type t || bool_decide (t = TyBool) then Ok t else Err (TypeMismatch TyInt t "NOT")
  end.

Definition check_assign (g : Codegen) (name : string) (value : Expr) : result unit CodegenError :=
  let? expected := lookup_type g name in
  let context := "assign to " +:+ quoted name in
  match value with
  | IntLiteral _ =>
      if is_integer_type expected then Ok tt else Err (TypeMismatch expected TyInt context)
  | RealLiteral _ =>
      if bool_decide (expected ∈ [TyReal; TyLReal]) then Ok tt
      else Err (TypeMismatch expected TyReal context)
  | _ =>
      let? got := type_of_expr g value in
      if types_compatible got expected then Ok tt else Err (TypeMismatch expected got context)
  end.

Definition check_condition (g : Codegen) (e : Expr) (context : string) : result unit CodegenError :=
  let? t := type_of_expr g e in
  if bool_decide (t = TyBool) then Ok tt else Err (TypeMismatch TyBool t context).

(** ** Expressions *)
Definition S32_of (n : Z) : HalValue := VS32 (wrap_s 32 n).

(** [compile_cmp_expr], given the two operands' code. *)
Definition emit_compare (left right : nat → Gen unit) (op : BinOp) : Gen unit :=
  rs ← alloc_scratch; _ ← right rs;
  ls ← alloc_scratch; _ ← left ls;
  _ ← emit_ (cmp_inst (cmp_opcode op) ls rs);
  _ ← free_scratch ls; free_scratch rs.
Definition compile_cmp_expr (left right : nat → Gen unit) (op : BinOp) (dest_reg : nat) : Gen unit :=
  _ ← emit_compare left right op;
  _ ← emit_ (load_imm dest_reg (VBool false));
  jmp ← emit (jump_if 0);
  _ ← emit_ (load_imm dest_reg (VBool true));
  l ← current_idx; patch_jump jmp l.

(** [.field] of a function block: the branch is on the declared type. *)
Definition compile_field (name field : string) (dest_reg : nat) : Gen unit :=
  reg ← var_reg name;
  vt ← type_of_var name;
  if from_option is_sr_rs false vt then
    if bool_decide (field = "Q2") then
      q1 ← alloc_scratch;
      _ ← emit_ (read_sr (Z.of_nat reg) q1 dest_reg); free_scratch q1
    else
      q2 ← alloc_scratch;
      _ ← emit_ (read_sr (Z.of_nat reg) dest_reg q2); free_scratch q2
  else if from_option is_edge false vt then emit_ (read_edge (Z.of_nat reg) dest_reg)
  else
    et ← alloc_scratch;
    _ ← emit_ (read_timer (Z.of_nat reg) dest_reg et); free_scratch et.

Fixpoint compile_expr (e : Expr) (dest_reg : nat) : Gen unit :=
  match e with
  | IntLiteral n => emit_ (load_imm dest_reg (S32_of n))
  | RealLiteral n => emit_ (load_imm dest_reg (VF32 (float_convert binary64 binary32 n)))
  | BoolLiteral b => emit_ (load_imm dest_reg (VBool b))
  | Variable_ name =>
      src_reg ← var_reg name;
      if (src_reg =? dest_reg)%nat then mret tt
      else
        zero ← reading (fun g => Ok (zero_for_var g name));
        _ ← emit_ (load_imm dest_reg zero);
        emit_ (arith_inst OpAdd src_reg dest_reg dest_reg)
  | Binary l op r =>
      match op_to_arith_opcode op with
      | Some arith_op =>
          _ ← compile_expr l dest_reg;
          s ← alloc_scratch; _ ← compile_expr r s;
          _ ← emit_ (arith_inst arith_op dest_reg s dest_reg); free_scratch s
      | None =>
          if is_cmp_op op then compile_cmp_expr (compile_expr l) (compile_expr r) op dest_reg
          else
            let bit_op := match op with And_ => OpAnd | Or_ => OpOr | _ => OpXor end in
            s ← alloc_scratch;
            _ ← compile_expr l dest_reg; _ ← compile_expr r s;
            _ ← emit_ (arith_inst bit_op dest_reg s dest_reg); free_scratch s
      end
  | Unary Neg e =>
      _ ← compile_expr e dest_reg;
      zero ← alloc_scratch;
      _ ← emit_ (load_imm zero (VS32 0));
      _ ← emit_ (arith_inst OpSub zero dest_reg dest_reg); free_scratch zero
  | Unary Not_ e =>
      _ ← compile_expr e dest_reg; emit_ (arith_inst OpNot dest_reg dest_reg dest_reg)
  | ArrayAccess name index =>
      array_reg ← var_reg name;
      idx_reg ← alloc_scratch; _ ← compile_expr index idx_reg;
      _ ← emit_ (load_index dest_reg array_reg idx_reg); free_scratch idx_reg
  | FieldAccess name field => compile_field name field dest_reg
  end.

(** [compile_bool_cond]: the jumps added to [else_jumps] and to [end_jumps]. *)
Definition bool_test (value : nat → Gen unit) : Gen (list Z * list Z) :=
  s ← alloc_scratch; _ ← value s;
  t ← alloc_scratch;
  _ ← emit_ (load_imm t (VBool true));
  _ ← emit_ (cmp_inst OpEq s t);
  _ ← free_scratch s; _ ← free_scratch t;
  j ← emit (jump_if 0); mret ([j], []).

Fixpoint compile_bool_cond (e : Expr) : Gen (list Z * list Z) :=
  match e with
  | Binary l op r =>
      if is_cmp_op op then
        _ ← emit_compare (compile_expr l) (compile_expr r) op;
        j ← emit (jump_if 0); mret ([j], [])
      else if bool_decide (op = And_) then
        '(le, lend) ← compile_bool_cond l;
        '(re, rend) ← compile_bool_cond r;
        mret (le ++ re, lend ++ rend)
      else if bool_decide (op = Or_) then
        '(right_else, lend) ← compile_bool_cond l;
        or_then ← emit (jump 0);
        right_start ← current_idx;
        _ ← patch_all right_else right_start;
        '(re, rend) ← compile_bool_cond r;
        mret (re, lend ++ or_then :: rend)
      else bool_test (compile_expr e)
  | Unary Not_ inner =>
      '(inner_else, inner_end) ← compile_bool_cond inner; mret (inner_end, inner_else)
  | _ => bool_test (compile_expr e)
  end.
Definition compile_condition : Expr → Gen (list Z * list Z) := compile_bool_cond.

(** ** Function block calls *)

(** An input of a function block: a variable is copied by [Load], any other
    expression is computed in the scratch register. *)
Definition compile_input (arg : Expr) (scratch : nat) : Gen unit :=
  match arg with
  | Variable_ in_name =>
      in_reg ← var_reg in_name; emit_ (mkInst OpLoad [Register scratch; Register in_reg])
  | _ => compile_expr arg scratch
  end.
Definition literal_u32 (arg : Expr) : Z :=
  match arg with IntLiteral n => wrap_u 32 n | _ => 0 end.

Definition timer_code (vt : VarType) : Z := match vt with TyTon => 0 | TyTof => 1 | _ => 2 end.
Definition counter_code (vt : VarType) : Z := match vt with TyCtu => 0 | TyCtd => 1 | _ => 2 end.
Definition sr_code (vt : VarType) : Z := match vt with TySr => 0 | _ => 1 end.
Definition edge_code (vt : VarType) : Z := match vt with TyRTrig => 0 | _ => 1 end.

Definition compile_timer (name : string) (vt : VarType) (in_ pt : Expr) : Gen unit :=
  timer_reg ← var_reg name;
  in_scratch ← alloc_scratch; _ ← compile_input in_ in_scratch;
  _ ← emit_ (timer_run (Z.of_nat timer_reg) in_scratch (literal_u32 pt) (timer_code vt));
  free_scratch in_scratch.

Definition compile_counter (name : string) (vt : VarType) (cu pv : Expr) (cd : option Expr) : Gen unit :=
  ctr_reg ← var_reg name;
  cu_scratch ← alloc_scratch; _ ← compile_input cu cu_scratch;
  cd_scratch ← alloc_scratch;
  _ ← (match cd with
       | Some cd => compile_input cd cd_scratch
       | None => emit_ (load_imm cd_scratch (VBool false))
       end);
  _ ← emit_ (counter_run (Z.of_nat ctr_reg) cu_scratch cd_scratch (literal_u32 pv) (counter_code vt));
  _ ← free_scratch cd_scratch; free_scratch cu_scratch.

Definition compile_sr (name : string) (vt : VarType) (s1 r : Expr) : Gen unit :=
  fb_reg ← var_reg name;
  s1_scratch ← alloc_scratch; _ ← compile_input s1 s1_scratch;
  r_scratch ← alloc_scratch; _ ← compile_input r r_scratch;
  _ ← emit_ (sr_run (Z.of_nat fb_reg) s1_scratch r_scratch (sr_code vt));
  _ ← free_scratch r_scratch; free_scratch s1_scratch.

Definition compile_edge (name : string) (vt : VarType) (clk : Expr) : Gen unit :=
  fb_reg ← var_reg name;
  clk_scratch ← alloc_scratch; _ ← compile_input clk clk_scratch;
  _ ← emit_ (edge_run (Z.of_nat fb_reg) clk_scratch (edge_code vt)); free_scratch clk_scratch.

(** The generic call: the first four arguments go to registers 0 to 3. *)
Fixpoint compile_args (i : nat) (args : list Expr) : Gen unit :=
  match args with
  | [] => mret tt
  | a :: args => _ ← (if (i <? 4)%nat then compile_expr a i else mret tt); compile_args (S i) args
  end.
Definition compile_call (args : list Expr) : Gen unit := _ ← compile_args 0 args; emit_ (call 0).

Definition compile_fun_call (name : string) (args : list Expr) : Gen unit :=
  vt ← type_of_var name;
  match vt with
  | Some vt =>
      match args with
      | a :: b :: rest =>
          if is_timer vt then compile_timer name vt a b
          else if is_counter vt then compile_counter name vt a b (head rest)
          else if is_sr_rs vt then compile_sr name vt a b
          else if is_edge vt then compile_edge name vt a
          else compile_call args
      | [a] => if is_edge vt then compile_edge name vt a else compile_call args
      | [] => compile_call args
      end
  | None => compile_call args
  end.

(** ** Statements *)
Definition store_var (name : string) (reg : nat) : Gen unit :=
  emit_ (mkInst OpStore [SignalName name; Register reg]).

Definition compile_assign (name : string) (value : Expr) : Gen unit :=
  _ ← reading (fun g => check_assign g name value);
  dest_reg ← var_reg name;
  _ ← compile_expr value dest_reg; store_var name dest_reg.

Definition compile_array_assign (name : string) (index value : Expr) : Gen unit :=
  array_reg ← var_reg name;
  idx_reg ← alloc_scratch; _ ← compile_expr index idx_reg;
  val_reg ← alloc_scratch; _ ← compile_expr value val_reg;
  _ ← emit_ (store_index array_reg idx_reg val_reg);
  _ ← free_scratch idx_reg; _ ← free_scratch val_reg; store_var name array_reg.

Definition compile_if (condition : Expr) (then_body else_body : Gen unit) : Gen unit :=
  _ ← reading (fun g => check_condition g condition "IF");
  '(else_jumps, end_jumps) ← compile_condition condition;
  to_else ← emit (jump 0);
  then_label ← current_idx;
  _ ← patch_all else_jumps then_label; _ ← patch_all end_jumps then_label;
  _ ← then_body;
  to_end ← emit (jump 0);
  else_label ← current_idx; _ ← patch_jump to_else else_label;
  _ ← else_body;
  end_label ← current_idx; patch_jump to_end end_label.

Definition compile_while (condition : Expr) (body : Gen unit) : Gen unit :=
  _ ← reading (fun g => check_condition g condition "WHILE");
  _ ← push_loop;
  loop_start ← current_idx;
  '(else_jumps, _) ← compile_condition condition;
  exit_jump ← emit (jump 0);
  body_label ← current_idx; _ ← patch_all else_jumps body_label;
  _ ← body;
  _ ← emit_ (jump loop_start);
  exit_label ← current_idx; _ ← patch_jump exit_jump exit_label; pop_loop.

Definition check_for_var (g : Codegen) (variable : string) : result unit CodegenError :=
  let? vt := lookup_type g variable in
  if bool_decide (vt ∈ [TyInt; TyDInt]) then Ok tt
  else Err (TypeMismatch TyInt vt ("FOR variable " +:+ quoted variable)).

Definition compile_for (variable : string) (start stop : Expr) (step : option Expr) (body : Gen unit)
  : Gen unit :=
  _ ← reading (fun g => check_for_var g variable);
  reg ← var_reg variable;
  _ ← compile_expr start reg;
  _ ← push_loop;
  loop_start ← current_idx;
  end_scratch ← alloc_scratch; _ ← compile_expr stop end_scratch;
  _ ← emit_ (cmp_inst OpGt reg end_scratch); _ ← free_scratch end_scratch;
  exit_jump ← emit (jump_if 0);
  _ ← body;
  step_scratch ← alloc_scratch;
  _ ← (match step with
       | Some e => compile_expr e step_scratch
       | None => emit_ (load_imm step_scratch (VS32 1))
       end);
  _ ← emit_ (arith_inst OpAdd reg step_scratch reg); _ ← free_scratch step_scratch;
  _ ← emit_ (jump loop_start);
  exit_label ← current_idx; _ ← patch_jump exit_jump exit_label; pop_loop.

Definition compile_repeat (body : Gen unit) (condition : Expr) : Gen unit :=
  _ ← reading (fun g => check_condition g condition "REPEAT");
  _ ← push_loop;
  loop_start ← current_idx;
  _ ← body;
  '(else_jumps, _) ← compile_condition condition;
  to_loop ← emit (jump 0);
  exit_label ← current_idx; _ ← patch_all else_jumps exit_label;
  _ ← patch_jump to_loop loop_start; pop_loop.

(** One alternative of a CASE: the jump to the end of the statement. *)
Definition case_test (reg : nat) (val : Z) : Gen Z :=
  val_scratch ← alloc_scratch;
  _ ← emit_ (load_imm val_scratch (S32_of val));
  _ ← emit_ (cmp_inst OpEq reg val_scratch);
  _ ← free_scratch val_scratch; emit (jump_if 0).
Definition case_arm (reg : nat) (values : list Z) (body : Gen unit) : Gen Z :=
  jump_to_body ← collect (case_test reg) values;
  skip_body ← emit (jump 0);
  body_label ← current_idx; _ ← patch_all jump_to_body body_label;
  _ ← body;
  exit_jump ← emit (jump 0);
  next_case_label ← current_idx; _ ← patch_jump skip_body next_case_label; mret exit_jump.
Definition compile_case (variable : string) (arms : nat → Gen (list Z)) (else_body : Gen unit) : Gen unit :=
  reg ← var_reg variable;
  exit_jumps ← arms reg;
  _ ← else_body;
  exit_label ← current_idx; patch_all exit_jumps exit_label.

Fixpoint compile_stmt (s : Statement) : Gen unit :=
  match s with
  | Assign name value => compile_assign name value
  | ArrayAssign name index value => compile_array_assign name index value
  | If_ c t e => compile_if c (each compile_stmt t) (each compile_stmt e)
  | While_ c body => compile_while c (each compile_stmt body)
  | For_ v start stop step body => compile_for v start stop step (each compile_stmt body)
  | Repeat_ body c => compile_repeat (each compile_stmt body) c
  | Return_ => emit_ halt
  | Exit_ => record_exit
  | Case_ v cases else_body =>
      compile_case v
        (fun reg => collect (fun '(values, body) => case_arm reg values (each compile_stmt body)) cases)
        (each compile_stmt else_body)
  | FunCall name args => compile_fun_call name args
  end.
Definition compile_stmts : list Statement → Gen unit := each compile_stmt.

(** ** [compile_ast] *)

(** A function is compiled with the program's registers, after its [Halt]. *)
Definition compile_function (f : FunctionDef) : Gen FunctionEntry :=
  start_ip ← current_idx;
  _ ← compile_stmts (fd_body f);
  _ ← emit_ (ret None);
  mret (Build_FunctionEntry (fd_name f) start_ip 0).

Definition compile_program (p : Program) : Gen (list FunctionEntry) :=
  _ ← compile_stmts (p_body p);
  _ ← emit_ halt;
  collect compile_function (functions p).

(** The signal bindings of the Store instructions, first occurrences only. *)
Fixpoint store_bindings (types : gmap string VarType) (seen : gset string) (code : list Instruction)
  : list SignalBinding :=
  match code with
  | [] => []
  | i :: code =>
      match opcode i, operands i with
      | OpStore, SignalName name :: _ =>
          if bool_decide (name ∈ seen) then store_bindings types seen code
          else Build_SignalBinding name name Write
                 (var_type_to_hal_pin_type (default TyInt (types !! name)))
                 :: store_bindings types ({[ name ]} ∪ seen) code
      | _, _ => store_bindings types seen code
      end
  end.

(** [patch_function_calls] does nothing. *)
Definition compile_ast (p : Program) : option (result HalProgram CodegenError) :=
  match codegen_new (p_variables p) with
  | Err e => Some (Err e)
  | Ok g =>
      match compile_program p g with
      | None => None
      | Some (Err e) => Some (Err e)
      | Some (Ok (table, g)) =>
          Some (Ok (mkProgram (p_name p) (store_bindings (var_types g) ∅ (insts g)) [] (insts g) table))
      end
  end.

(** ** [compile] ([audesys-hal-binding-gen/src/lib.rs]) *)
Inductive CompileError :=
  | Lex (e : LexError)
  | Parse (e : ParseError)
  | CodegenErr (e : CodegenError).

Definition compile (source : string) : option (result HalProgram CompileError) :=
  match tokenize source with
  | Err e => Some (Err (Lex e))
  | Ok tokens =>
      match parse_program tokens with
      | None => None
      | Some (Err e) => Some (Err (Parse e))
      | Some (Ok ast) =>
          match compile_ast ast with
          | None => None
          | Some (Err e) => Some (Err (CodegenErr e))
          | Some (Ok p) => Some (Ok p)
          end
      end
  end.
