(* ===== verification/StLayout.v ===== *)
(** * The layout of compiled Structured Text

    A reference definition of the code generator: the code of a phrase as a
    function of its address, every jump with its target, and the jumps whose
    target the phrase does not know as holes.  [StBackpatch] proves that the
    generator, which emits jumps with target 0 and patches them afterwards,
    produces this code. *)
From S2P Require Import Prelude Float HalTypes HalValue HalIr StLexer StParser StCodegen.
Local Open Scope Z_scope.

(** Where a jump with an unknown target comes from: a condition that holds, a
    condition decided otherwise, [EXIT]. *)
Inductive HoleKind := OnTrue | OnEnd | OnExit.
#[export] Instance HoleKind_eq_dec : EqDecision HoleKind.
Proof. solve_decision. Defined.
Inductive Target := Abs (n : nat) | Hole (h : HoleKind).
Inductive Item := Ins (i : Instruction) | Jmp (op : Opcode) (t : Target).
Abbreviation Template := (list Item) (only parsing).

Definition ip_u32 (n : nat) : Z := wrap_u 32 (Z.of_nat n).

(** The instructions of a template, every hole being a jump to 0. *)
Definition resolve1 (i : Item) : Instruction :=
  match i with
  | Ins i => i
  | Jmp op (Abs n) => mkInst op [imm_u32 (ip_u32 n)]
  | Jmp op (Hole _) => mkInst op [imm_u32 0]
  end.
Definition resolve (c : Template) : list Instruction := resolve1 <$> c.

Definition fill1 (h : HoleKind) (n : nat) (i : Item) : Item :=
  match i with
  | Jmp op (Hole h') => if decide (h' = h) then Jmp op (Abs n) else i
  | _ => i
  end.
Definition fill (h : HoleKind) (n : nat) (c : Template) : Template := fill1 h n <$> c.

Definition swap_hole (h : HoleKind) : HoleKind :=
  match h with OnTrue => OnEnd | OnEnd => OnTrue | OnExit => OnExit end.
Definition swap1 (i : Item) : Item :=
  match i with Jmp op (Hole h) => Jmp op (Hole (swap_hole h)) | _ => i end.
Definition swap (c : Template) : Template := swap1 <$> c.

(** The addresses of the holes of a kind in a template that starts at [pc]. *)
Fixpoint holes (h : HoleKind) (pc : nat) (c : Template) : list Z :=
  match c with
  | [] => []
  | Jmp _ (Hole h') :: c => if decide (h' = h) then Z.of_nat pc :: holes h (S pc) c else holes h (S pc) c
  | _ :: c => holes h (S pc) c
  end.

Section layout.
Context (regs : gmap string nat) (types : gmap string VarType).

Definition reg_of (x : string) : nat := default 0%nat (regs !! x).
Definition type_of (x : string) : VarType := default TyInt (types !! x).

(** The scratch register handed out when [k] are in use. *)
Definition scratch (k : nat) : nat := nth k [SCRATCH0; SCRATCH1; SCRATCH2] 0%nat.

Definition field_code (k : nat) (x field : string) (d : nat) : list Instruction :=
  let r := Z.of_nat (reg_of x) in
  let vt := types !! x in
  if from_option is_sr_rs false vt then
    [if bool_decide (field = "Q2") then read_sr r (scratch k) d else read_sr r d (scratch k)]
  else if from_option is_edge false vt then [read_edge r d]
  else [read_timer r d (scratch k)].

Definition bit_opcode (op : BinOp) : Opcode :=
  match op with And_ => OpAnd | Or_ => OpOr | _ => OpXor end.

(** The code of an expression at address [pc] with [k] scratch registers in
    use, its value going to register [d]. *)
Definition compare_code (right left : nat → nat → nat → list Instruction) (op : BinOp) (pc k : nat)
  : list Instruction :=
  let cr := right pc (S k) (scratch k) in
  let cl := left (pc + length cr)%nat (S (S k)) (scratch (S k)) in
  cr ++ cl ++ [cmp_inst (cmp_opcode op) (scratch (S k)) (scratch k)].
Definition compare_value (right left : nat → nat → nat → list Instruction) (op : BinOp) (pc k d : nat)
  : list Instruction :=
  let c := compare_code right left op pc k in
  c ++ [load_imm d (VBool false); jump_if (ip_u32 (pc + length c + 3)); load_imm d (VBool true)].

Fixpoint expr_code (e : Expr) (pc k d : nat) : list Instruction :=
  match e with
  | IntLiteral n => [load_imm d (S32_of n)]
  | RealLiteral n => [load_imm d (VF32 (float_convert binary64 binary32 n))]
  | BoolLiteral b => [load_imm d (VBool b)]
  | Variable_ x =>
      if (reg_of x =? d)%nat then []
      else [load_imm d (zero_of (type_of x)); arith_inst OpAdd (reg_of x) d d]
  | Binary l op r =>
      match op_to_arith_opcode op with
      | Some arith_op =>
          let cl := expr_code l pc k d in
          cl ++ expr_code r (pc + length cl)%nat (S k) (scratch k) ++ [arith_inst arith_op d (scratch k) d]
      | None =>
          if is_cmp_op op then compare_value (expr_code r) (expr_code l) op pc k d
          else
            let cl := expr_code l pc (S k) d in
            cl ++ expr_code r (pc + length cl)%nat (S k) (scratch k)
               ++ [arith_inst (bit_opcode op) d (scratch k) d]
      end
  | Unary Neg e =>
      expr_code e pc k d ++ [load_imm (scratch k) (VS32 0); arith_inst OpSub (scratch k) d d]
  | Unary Not_ e => expr_code e pc k d ++ [arith_inst OpNot d d d]
  | ArrayAccess x i => expr_code i pc (S k) (scratch k) ++ [load_index d (reg_of x) (scratch k)]
  | FieldAccess x f => field_code k x f d
  end.

(** ** Conditions: holes [OnTrue] and [OnEnd]. *)
Definition test_code (e : Expr) (pc : nat) : Template :=
  (Ins <$> expr_code e pc 1 (scratch 0) ++
     [load_imm (scratch 1) (VBool true); cmp_inst OpEq (scratch 0) (scratch 1)])
  ++ [Jmp OpJumpIf (Hole OnTrue)].

Fixpoint cond_code (e : Expr) (pc : nat) : Template :=
  match e with
  | Binary l op r =>
      if is_cmp_op op then
        (Ins <$> compare_code (expr_code r) (expr_code l) op pc 0) ++ [Jmp OpJumpIf (Hole OnTrue)]
      else if bool_decide (op = And_) then
        let cl := cond_code l pc in cl ++ cond_code r (pc + length cl)%nat
      else if bool_decide (op = Or_) then
        let cl := cond_code l pc in
        let right_start := (pc + length cl + 1)%nat in
        fill OnTrue right_start cl ++ [Jmp OpJump (Hole OnEnd)] ++ cond_code r right_start
      else test_code e pc
  | Unary Not_ e => swap (cond_code e pc)
  | _ => test_code e pc
  end.

(** ** Statements: the holes left are [OnExit]. *)
Definition input_code (e : Expr) (pc k d : nat) : list Instruction :=
  match e with
  | Variable_ x => [mkInst OpLoad [Register d; Register (reg_of x)]]
  | _ => expr_code e pc k d
  end.

Definition timer_call (x : string) (vt : VarType) (in_ pt : Expr) (pc : nat) : list Instruction :=
  input_code in_ pc 1 (scratch 0)
  ++ [timer_run (Z.of_nat (reg_of x)) (scratch 0) (literal_u32 pt) (timer_code vt)].
Definition counter_call (x : string) (vt : VarType) (cu pv : Expr) (cd : option Expr) (pc : nat)
  : list Instruction :=
  let c1 := input_code cu pc 1 (scratch 0) in
  c1 ++ match cd with
        | Some cd => input_code cd (pc + length c1)%nat 2 (scratch 1)
        | None => [load_imm (scratch 1) (VBool false)]
        end
     ++ [counter_run (Z.of_nat (reg_of x)) (scratch 0) (scratch 1) (literal_u32 pv) (counter_code vt)].
Definition sr_call (x : string) (vt : VarType) (s1 r : Expr) (pc : nat) : list Instruction :=
  let c1 := input_code s1 pc 1 (scratch 0) in
  c1 ++ input_code r (pc + length c1)%nat 2 (scratch 1)
     ++ [sr_run (Z.of_nat (reg_of x)) (scratch 0) (scratch 1) (sr_code vt)].
Definition edge_call (x : string) (vt : VarType) (clk : Expr) (pc : nat) : list Instruction :=
  input_code clk pc 1 (scratch 0) ++ [edge_run (Z.of_nat (reg_of x)) (scratch 0) (edge_code vt)].

Fixpoint args_code (i : nat) (args : list Expr) (pc : nat) : list Instruction :=
  match args with
  | [] => []
  | a :: args =>
      let c := if (i <? 4)%nat then expr_code a pc 0 i else [] in
      c ++ args_code (S i) args (pc + length c)%nat
  end.
Definition call_code (args : list Expr) (pc : nat) : list Instruction := args_code 0 args pc ++ [call 0].

Definition fun_call_code (x : string) (args : list Expr) (pc : nat) : list Instruction :=
  match types !! x with
  | Some vt =>
      match args with
      | a :: b :: rest =>
          if is_timer vt then timer_call x vt a b pc
          else if is_counter vt then counter_call x vt a b (head rest) pc
          else if is_sr_rs vt then sr_call x vt a b pc
          else if is_edge vt then edge_call x vt a pc
          else call_code args pc
      | [a] => if is_edge vt then edge_call x vt a pc else call_code args pc
      | [] => call_code args pc
      end
  | None => call_code args pc
  end.

Definition store_inst (x : string) : Instruction := mkInst OpStore [SignalName x; Register (reg_of x)].
Definition assign_code (x : string) (e : Expr) (pc : nat) : list Instruction :=
  expr_code e pc 0 (reg_of x) ++ [store_inst x].
Definition array_assign_code (x : string) (index value : Expr) (pc : nat) : list Instruction :=
  let ci := expr_code index pc 1 (scratch 0) in
  ci ++ expr_code value (pc + length ci)%nat 2 (scratch 1)
     ++ [store_index (reg_of x) (scratch 0) (scratch 1); store_inst x].

(** The code of a list of phrases laid out one after the other. *)
Definition seq_code {A} (f : A → nat → Template) : list A → nat → Template :=
  fix go l pc := match l with [] => [] | x :: l => let c := f x pc in c ++ go l (pc + length c)%nat end.

Definition if_code (c : Expr) (thn els : nat → Template) (pc : nat) : Template :=
  let cc := cond_code c pc in
  let then_pc := (pc + length cc + 1)%nat in
  let ct := thn then_pc in
  let else_pc := (then_pc + length ct + 1)%nat in
  let ce := els else_pc in
  fill OnEnd then_pc (fill OnTrue then_pc cc) ++ [Jmp OpJump (Abs else_pc)] ++ ct
  ++ [Jmp OpJump (Abs (else_pc + length ce)%nat)] ++ ce.

Definition while_code (c : Expr) (body : nat → Template) (pc : nat) : Template :=
  let cc := cond_code c pc in
  let body_pc := (pc + length cc + 1)%nat in
  let cb := body body_pc in
  let exit_pc := (body_pc + length cb + 1)%nat in
  fill OnEnd 0 (fill OnTrue body_pc cc) ++ [Jmp OpJump (Abs exit_pc)] ++ fill OnExit exit_pc cb
  ++ [Jmp OpJump (Abs pc)].

Definition for_code (x : string) (start stop : Expr) (step : option Expr) (body : nat → Template) (pc : nat)
  : Template :=
  let c1 := expr_code start pc 0 (reg_of x) in
  let loop_pc := (pc + length c1)%nat in
  let c2 := expr_code stop loop_pc 1 (scratch 0) in
  let body_pc := (loop_pc + length c2 + 2)%nat in
  let cb := body body_pc in
  let step_pc := (body_pc + length cb)%nat in
  let c3 := match step with
            | Some e => expr_code e step_pc 1 (scratch 0)
            | None => [load_imm (scratch 0) (VS32 1)]
            end in
  let exit_pc := (step_pc + length c3 + 2)%nat in
  (Ins <$> c1) ++ (Ins <$> c2 ++ [cmp_inst OpGt (reg_of x) (scratch 0)]) ++ [Jmp OpJumpIf (Abs exit_pc)]
  ++ fill OnExit exit_pc cb ++ (Ins <$> c3 ++ [arith_inst OpAdd (reg_of x) (scratch 0) (reg_of x)])
  ++ [Jmp OpJump (Abs loop_pc)].

Definition repeat_code (body : nat → Template) (c : Expr) (pc : nat) : Template :=
  let cb := body pc in
  let cond_pc := (pc + length cb)%nat in
  let cc := cond_code c cond_pc in
  let exit_pc := (cond_pc + length cc + 1)%nat in
  fill OnExit exit_pc cb ++ fill OnEnd 0 (fill OnTrue exit_pc cc) ++ [Jmp OpJump (Abs pc)].

(** The tests of one alternative of a CASE jump to its body. *)
Definition case_tests (reg : nat) (values : list Z) : Template :=
  flat_map (fun v => [Ins (load_imm (scratch 0) (S32_of v)); Ins (cmp_inst OpEq reg (scratch 0));
                      Jmp OpJumpIf (Hole OnTrue)]) values.
(** The jump to the end of the CASE is an [OnEnd] hole of its own, kept apart
    from the body's [OnExit] holes. *)
Definition arm_code (reg : nat) (values : list Z) (body : nat → Template) (pc : nat) : Template :=
  let ct := case_tests reg values in
  let body_pc := (pc + length ct + 1)%nat in
  let cb := body body_pc in
  fill OnTrue body_pc ct ++ [Jmp OpJump (Abs (body_pc + length cb + 1)%nat)] ++ cb
  ++ [Jmp OpJump (Hole OnEnd)].
Definition case_code (arms els : nat → Template) (pc : nat) : Template :=
  let ca := arms pc in
  let ce := els (pc + length ca)%nat in
  fill OnEnd (pc + length ca + length ce)%nat ca ++ ce.

Fixpoint stmt_code (s : Statement) (pc : nat) : Template :=
  match s with
  | Assign x e => Ins <$> assign_code x e pc
  | ArrayAssign x i v => Ins <$> array_assign_code x i v pc
  | If_ c t e => if_code c (seq_code stmt_code t) (seq_code stmt_code e) pc
  | While_ c body => while_code c (seq_code stmt_code body) pc
  | For_ x start stop step body => for_code x start stop step (seq_code stmt_code body) pc
  | Repeat_ body c => repeat_code (seq_code stmt_code body) c pc
  | Return_ => [Ins halt]
  | Exit_ => [Jmp OpJump (Hole OnExit)]
  | Case_ x cases els =>
      case_code
        (seq_code (fun '(values, body) => arm_code (reg_of x) values (seq_code stmt_code body)) cases)
        (seq_code stmt_code els) pc
  | FunCall x args => Ins <$> fun_call_code x args pc
  end.
Definition stmts_code : list Statement → nat → Template := seq_code stmt_code.

(** Functions follow the program's [Halt]. *)
Definition function_code (f : FunctionDef) (pc : nat) : Template := stmts_code (fd_body f) pc ++ [Ins (ret None)].
Definition main_code (p : Program) : Template := stmts_code (p_body p) 0 ++ [Ins halt].
Definition program_code (p : Program) : Template :=
  let c := main_code p in c ++ seq_code function_code (functions p) (length c).

Fixpoint function_entries (fs : list FunctionDef) (pc : nat) : list FunctionEntry :=
  match fs with
  | [] => []
  | f :: fs =>
      Build_FunctionEntry (fd_name f) (ip_u32 pc) 0
        :: function_entries fs (pc + length (function_code f pc))%nat
  end.
End layout.

(** The registers and types of a program's variables, and its laid-out code. *)
Definition regs_of (p : Program) : gmap string nat := fst (assign_registers 0 (p_variables p) ∅ ∅).
Definition types_of (p : Program) : gmap string VarType := snd (assign_registers 0 (p_variables p) ∅ ∅).
Definition layout (p : Program) : Template := program_code (regs_of p) (types_of p) p.
