(* ===== verification/StBackpatch.v ===== *)
(** * Structured Text: backpatching is layout

    The generator of [StCodegen] produces the code laid out by [StLayout]. *)
From S2P Require Import Prelude Float HalTypes HalValue HalIr StLexer StParser StCodegen StLayout.
Local Open Scope Z_scope.

(** ** Lists of instructions and their patches *)
Definition patch_insts (js : list Z) (target : Z) (l : list Instruction) : list Instruction :=
  foldl (fun l j => alter (retarget target) (Z.to_nat j) l) l js.

Lemma resolve_app c1 c2 : resolve (c1 ++ c2) = resolve c1 ++ resolve c2.
Proof. apply fmap_app. Qed.
Lemma resolve_ins l : resolve (Ins <$> l) = l.
Proof. unfold resolve. rewrite <- list_fmap_compose. by apply list_fmap_id. Qed.
Lemma resolve_length c : length (resolve c) = length c.
Proof. apply length_fmap. Qed.
Lemma fill_app h n c1 c2 : fill h n (c1 ++ c2) = fill h n c1 ++ fill h n c2.
Proof. apply fmap_app. Qed.
Lemma fill_length h n c : length (fill h n c) = length c.
Proof. apply length_fmap. Qed.
Lemma fill_ins h n l : fill h n (Ins <$> l) = Ins <$> l.
Proof. unfold fill. by rewrite <- list_fmap_compose. Qed.
Lemma swap_length c : length (swap c) = length c.
Proof. apply length_fmap. Qed.
Lemma resolve_swap c : resolve (swap c) = resolve c.
Proof.
  unfold resolve, swap. rewrite <- list_fmap_compose. apply list_fmap_ext.
  intros i [j|op [n|h]] _; done.
Qed.

Lemma holes_app h pc c1 c2 : holes h pc (c1 ++ c2) = holes h pc c1 ++ holes h (pc + length c1) c2.
Proof.
  revert pc. induction c1 as [|[i|op [n|h']] c1 IH]; intros pc; cbn [holes app length].
  - by rewrite Nat.add_0_r.
  - by rewrite IH, Nat.add_succ_r.
  - by rewrite IH, Nat.add_succ_r.
  - rewrite IH, Nat.add_succ_r. by case_decide.
Qed.
Lemma holes_ins h pc l : holes h pc (Ins <$> l) = [].
Proof. revert pc. induction l; intros pc; cbn; auto. Qed.
Lemma holes_fill_same h n pc c : holes h pc (fill h n c) = [].
Proof.
  revert pc. induction c as [|[i|op [m|h']] c IH]; intros pc; cbn; auto.
  case_decide; cbn; [auto|]. by rewrite decide_False.
Qed.
Lemma holes_fill_other h h' n pc c : h ≠ h' → holes h pc (fill h' n c) = holes h pc c.
Proof.
  intros Hne. revert pc. induction c as [|[i|op [m|h1]] c IH]; intros pc; cbn; auto.
  destruct (decide (h1 = h')) as [->|]; cbn; [rewrite decide_False by done; auto|].
  case_decide; by rewrite IH.
Qed.
Lemma holes_swap h pc c : holes h pc (swap c) = holes (swap_hole h) pc c.
Proof.
  revert pc. induction c as [|[i|op [m|h1]] c IH]; intros pc; cbn; auto.
  by destruct h, h1; cbn; rewrite IH.
Qed.

(** Patching the holes of a kind in the middle of a program fills them. *)
Lemma patch_holes h n pre c post :
  patch_insts (holes h (length pre) c) (ip_u32 n) (pre ++ resolve c ++ post)
  = pre ++ resolve (fill h n c) ++ post.
Proof.
  revert pre. induction c as [|i c IH]; intros pre; [done|].
  assert (Hs : ∀ i', pre ++ i' :: resolve c ++ post = (pre ++ [i']) ++ resolve c ++ post)
    by (intros; by rewrite <- (assoc_L (++))).
  assert (Hl : ∀ i' : Instruction, S (length pre) = length (pre ++ [i'])) by (intros; rewrite length_app; cbn; lia).
  assert (IH' : ∀ i', patch_insts (holes h (S (length pre)) c) (ip_u32 n) (pre ++ i' :: resolve c ++ post)
                 = pre ++ i' :: resolve (fill h n c) ++ post).
  { intros i'. rewrite (Hl i'), Hs, IH. by rewrite <- (assoc_L (++)). }
  destruct i as [i|op [m|h']]; cbn [holes resolve fmap list_fmap fill resolve1 fill1 app] in *;
    [apply IH' ..|].
  case_decide as E; [|apply IH'].
  cbn [patch_insts foldl]. rewrite Nat2Z.id.
  rewrite alter_app_r_alt, Nat.sub_diag by lia. cbn [alter list_alter].
  apply IH'.
Qed.
Lemma patch_holes_in h n pc pre c post l :
  l = pre ++ resolve c ++ post → pc = length pre →
  patch_insts (holes h pc c) (ip_u32 n) l = pre ++ resolve (fill h n c) ++ post.
Proof. intros -> ->. apply patch_holes. Qed.
Lemma resolve_fill_zero h c : resolve (fill h 0 c) = resolve c.
Proof.
  unfold resolve, fill. rewrite <- list_fmap_compose. apply list_fmap_ext.
  intros i [j|op [n|h']] _; cbn; [done..|]. by case_decide.
Qed.
Lemma patch_insts_app js1 js2 t l : patch_insts (js1 ++ js2) t l = patch_insts js2 t (patch_insts js1 t l).
Proof. apply foldl_app. Qed.
Lemma patch_insts_length js t l : length (patch_insts js t l) = length l.
Proof.
  revert l. induction js as [|j js IH]; intros l; [done|].
  change (patch_insts (j :: js) t l) with (patch_insts js t (alter (retarget t) (Z.to_nat j) l)).
  by rewrite IH, length_alter.
Qed.
Lemma patch_one pre op t post :
  patch_insts [Z.of_nat (length pre)] t (pre ++ mkInst op [imm_u32 0] :: post)
  = pre ++ mkInst op [imm_u32 t] :: post.
Proof. cbn. by rewrite Nat2Z.id, alter_app_r_alt, Nat.sub_diag by lia. Qed.

(** ** Generator states *)
Definition small (n : nat) : Prop := Z.of_nat n < 2 ^ 32.
Lemma ip_u32_exact n : small n → ip_u32 n = Z.of_nat n.
Proof. unfold small, ip_u32, wrap_u. intros. apply Z.mod_small. lia. Qed.

Definition avail (k : nat) : list bool :=
  match k with
  | O => [true; true; true] | 1 => [false; true; true] | 2 => [false; false; true]
  | _ => [false; false; false]
  end%nat.

Lemma gen_bind_inv {A B} (m : Gen A) (f : A → Gen B) g b g' :
  (m ≫= f) g = Some (Ok (b, g')) → ∃ a g1, m g = Some (Ok (a, g1)) ∧ f a g1 = Some (Ok (b, g')).
Proof. unfold mbind, gen_bind. destruct (m g) as [[[a g1]|]|]; naive_solver. Qed.
Lemma gen_bind_ok {A B} (m : Gen A) (f : A → Gen B) g a g1 :
  m g = Some (Ok (a, g1)) → (m ≫= f) g = f a g1.
Proof. unfold mbind, gen_bind. by intros ->. Qed.

Lemma ok_inj {A} (a b : A) (g g' : Codegen) : (Some (Ok (a, g)) : option (result _ CodegenError)) = Some (Ok (b, g')) → g' = g.
Proof. congruence. Qed.

Lemma patch_one_in n op t pre post l :
  l = pre ++ mkInst op [imm_u32 0] :: post → n = length pre → small n →
  patch_insts [ip_u32 n] t l = pre ++ mkInst op [imm_u32 t] :: post.
Proof. intros -> -> Hs. rewrite ip_u32_exact by done. apply patch_one. Qed.

Section states.
Context (regs : gmap string nat) (types : gmap string VarType).

(** Code [l] so far, [k] scratch registers in use, [X] the open loops' exits. *)
Definition st (l : list Instruction) (k : nat) (X : list (list Z)) : Codegen :=
  mkGen regs types l (avail k) X.

Lemma current_idx_st l k X : current_idx (st l k X) = Some (Ok (ip_u32 (length l), st l k X)).
Proof. done. Qed.
Lemma emit_st i l k X : emit i (st l k X) = Some (Ok (ip_u32 (length l), st (l ++ [i]) k X)).
Proof. done. Qed.
Lemma emit__st i l k X : emit_ i (st l k X) = Some (Ok (tt, st (l ++ [i]) k X)).
Proof. done. Qed.
Lemma alloc_st l k X :
  alloc_scratch (st l k X) = if (k <? 3)%nat then Some (Ok (scratch k, st l (S k) X)) else None.
Proof. by destruct k as [|[|[|k]]]. Qed.
Lemma free_st l k X : (k < 3)%nat → free_scratch (scratch k) (st l (S k) X) = Some (Ok (tt, st l k X)).
Proof. by destruct k as [|[|[|k]]]; try lia. Qed.
Lemma free_st_down {B} (f : unit → Gen B) l k X : (k < 2)%nat →
  (free_scratch (scratch k) ≫= λ _, free_scratch (scratch (S k)) ≫= f) (st l (S (S k)) X) = f tt (st l k X).
Proof. by destruct k as [|[|k]]; try lia. Qed.
Lemma each_patch js t l k X :
  patch_all js t (st l k X) = Some (Ok (tt, st (patch_insts js t l) k X)).
Proof. revert l. induction js as [|j js IH]; intros l; [done|]. exact (IH _). Qed.
Lemma patch_st j t l k X : patch_jump j t (st l k X) = Some (Ok (tt, st (patch_insts [j] t l) k X)).
Proof. done. Qed.
(** Patching a jump whose position is the length of the code before it. *)
Lemma patch_hole1 l c op t post k X :
  small (length (l ++ c)) →
  patch_jump (ip_u32 (length (l ++ c))) t (st (l ++ c ++ mkInst op [imm_u32 0] :: post) k X)
  = Some (Ok (tt, st (l ++ c ++ mkInst op [imm_u32 t] :: post) k X)).
Proof.
  intros Hs. rewrite patch_st, ip_u32_exact by done. do 4 f_equal.
  rewrite !(assoc_L (++)). apply patch_one.
Qed.
Lemma var_reg_st x l k X r g' :
  var_reg x (st l k X) = Some (Ok (r, g')) → r = reg_of regs x ∧ g' = st l k X.
Proof.
  unfold var_reg, reading, lookup_reg, reg_of. cbn.
  destruct (regs !! x); intros [= <- <-]; done.
Qed.
Lemma type_of_var_st x l k X : type_of_var x (st l k X) = Some (Ok (types !! x, st l k X)).
Proof. done. Qed.
Lemma reading_st {A} (f : Codegen → result A CodegenError) l k X a g' :
  reading f (st l k X) = Some (Ok (a, g')) → f (st l k X) = Ok a ∧ g' = st l k X.
Proof. unfold reading. destruct (f _); intros [= <- <-]; done. Qed.
End states.

(** One step of a generator that succeeds, in hypothesis [H]. *)
Ltac gen_rw H :=
  first
    [ rewrite (gen_bind_ok _ _ _ _ _ (emit__st _ _ _ _ _ _)) in H
    | rewrite (gen_bind_ok _ _ _ _ _ (emit_st _ _ _ _ _ _)) in H
    | rewrite (gen_bind_ok _ _ _ _ _ (current_idx_st _ _ _ _ _)) in H
    | rewrite (gen_bind_ok _ _ _ _ _ (type_of_var_st _ _ _ _ _ _)) in H
    | rewrite (gen_bind_ok _ _ _ _ _ (each_patch _ _ _ _ _ _ _)) in H
    | rewrite (gen_bind_ok _ _ _ _ _ (patch_st _ _ _ _ _ _ _)) in H
    | rewrite emit__st in H
    | rewrite each_patch in H
    | rewrite patch_st in H ].
Ltac gen_alloc H :=
  let a := fresh "s" in let g := fresh "g" in let E := fresh "E" in
  apply gen_bind_inv in H as (a & g & E & H);
  rewrite alloc_st in E; 
  let L := fresh "Hlt" in
  match type of E with
  | (if (?k <? 3)%nat then _ else _) = _ =>
      destruct (Nat.ltb_spec k 3) as [L|L]; [|discriminate E]; injection E as <- <-
  end.
Ltac gen_var H :=
  let a := fresh "r" in let g := fresh "g" in let E := fresh "E" in
  apply gen_bind_inv in H as (a & g & E & H);
  apply var_reg_st in E as [-> ->].
Ltac gen_free H :=
  match goal with
  | L : (?k < 3)%nat |- _ =>
      first [ rewrite (gen_bind_ok _ _ _ _ _ (free_st _ _ _ k _ L)) in H
            | rewrite (free_st _ _ _ k _ L) in H ]
  end.

(** ** Expressions *)
Section expressions.
Context (regs : gmap string nat) (types : gmap string VarType).
Local Abbreviation st := (st regs types) (only parsing).
Local Abbreviation expr_code := (expr_code regs types) (only parsing).

(** [m] appends [code] to the program when it succeeds. *)
Definition emits (m : Gen unit) (k : nat) (l code : list Instruction) : Prop :=
  ∀ X u g, m (st l k X) = Some (Ok (u, g)) → g = st (l ++ code) k X.
(** The code of an operand, wherever it is placed and whatever its register. *)
Definition operand (m : nat → Gen unit) (code : nat → nat → nat → list Instruction) : Prop :=
  ∀ l k d, small (length l + length (code (length l) k d)) → emits (m d) k l (code (length l) k d).

Lemma emits_emit_ i k l : emits (emit_ i) k l [i].
Proof. intros X u g. rewrite emit__st. by intros [= _ <-]. Qed.

Lemma emits_bind m f k l c1 c2 :
  emits m k l c1 → (∀ u, emits (f u) k (l ++ c1) c2) → emits (m ≫= f) k l (c1 ++ c2).
Proof.
  intros Hm Hf X u g H. apply gen_bind_inv in H as (a & g1 & H1 & H2).
  apply Hm in H1 as ->. apply Hf in H2 as ->. by rewrite (assoc_L (++)).
Qed.

Lemma emits_scratch (f : nat → Gen unit) k l code :
  (k < 3 → emits (f (scratch k)) (S k) l code)%nat →
  emits (s ← alloc_scratch; _ ← f s; free_scratch s) k l code.
Proof.
  intros Hf X u g H. gen_alloc H. apply gen_bind_inv in H as (a & g1 & H1 & H2).
  apply Hf in H1 as ->; [|done]. gen_free H2. by injection H2 as _ <-.
Qed.

Lemma bind_assoc {A B D} (m : Gen A) (f : A → Gen B) (h : B → Gen D) g :
  ((m ≫= f) ≫= h) g = (m ≫= λ a, f a ≫= h) g.
Proof. unfold mbind, gen_bind. by destruct (m g) as [[[a g1]|]|]. Qed.
Lemma bind_ext {A B} (m : Gen A) (f h : A → Gen B) g :
  (∀ a g1, f a g1 = h a g1) → (m ≫= f) g = (m ≫= h) g.
Proof. intros Hf. unfold mbind, gen_bind. destruct (m g) as [[[a g1]|]|]; [apply Hf | done..]. Qed.
Lemma gen_emits_ext m1 m2 k l c : (∀ g, m1 g = m2 g) → emits m2 k l c → emits m1 k l c.
Proof. intros Hm H X u g. rewrite Hm. apply H. Qed.

Lemma emits_scratch2 (f h : nat → Gen unit) k l code :
  (k < 3 → emits (_ ← f (scratch k); h (scratch k)) (S k) l code)%nat →
  emits (s ← alloc_scratch; _ ← f s; _ ← h s; free_scratch s) k l code.
Proof.
  intros Hf. eapply gen_emits_ext; [|apply (emits_scratch (λ s, _ ← f s; h s)), Hf].
  intros g. apply bind_ext. intros s g1. symmetry. apply bind_assoc.
Qed.
Lemma emits_scratch3 (f h i : nat → Gen unit) k l code :
  (k < 3 → emits (_ ← f (scratch k); _ ← h (scratch k); i (scratch k)) (S k) l code)%nat →
  emits (s ← alloc_scratch; _ ← f s; _ ← h s; _ ← i s; free_scratch s) k l code.
Proof.
  intros Hf. eapply gen_emits_ext; [|apply (emits_scratch2 f (λ s, _ ← h s; i s)), Hf].
  intros g. apply bind_ext. intros s g1. apply bind_ext. intros u g2. symmetry. apply bind_assoc.
Qed.

Lemma emits_var x (f : nat → Gen unit) k l code :
  emits (f (reg_of regs x)) k l code → emits (r ← var_reg x; f r) k l code.
Proof. intros Hf X u g H. gen_var H. by apply Hf in H. Qed.

Lemma emits_compare left right cl cr op k l :
  operand left cl → operand right cr →
  small (length l + length (compare_code cr cl op (length l) k)) →
  emits (emit_compare left right op) k l (compare_code cr cl op (length l) k).
Proof.
  unfold compare_code, small. intros Hl Hr Hs X u g H. unfold emit_compare in H.
  rewrite !length_app in Hs. cbn [length] in Hs.
  gen_alloc H. apply gen_bind_inv in H as ([] & g1 & H1 & H). apply Hr in H1 as ->; [|unfold small; lia].
  gen_alloc H. apply gen_bind_inv in H as ([] & g1 & H1 & H).
  apply Hl in H1 as ->; [|unfold small; rewrite length_app; lia].
  gen_rw H. gen_free H. gen_free H. injection H as _ <-. by rewrite length_app, <- !(assoc_L (++)).
Qed.

Lemma emits_compare_value left right cl cr op k l d :
  operand left cl → operand right cr →
  small (length l + length (compare_value cr cl op (length l) k d)) →
  emits (compile_cmp_expr left right op d) k l (compare_value cr cl op (length l) k d).
Proof.
  unfold compare_value, small. intros Hl Hr Hs X u g H. unfold compile_cmp_expr in H.
  rewrite length_app in Hs. cbn [length] in Hs.
  apply gen_bind_inv in H as (a & g1 & H1 & H).
  apply (emits_compare left right cl cr) in H1 as ->; [|done..|unfold small; lia].
  set (c := compare_code cr cl op (length l) k) in *.
  do 4 gen_rw H.
  rewrite <- !(assoc_L (++)) in H. cbn [app] in H.
  change (jump_if 0) with (mkInst OpJumpIf [imm_u32 0]) in H.
  set (rest := [_; load_imm d (VBool true)]) in H.
  change (load_imm d (VBool false) :: rest) with ([load_imm d (VBool false)] ++ rest) in H.
  rewrite (assoc_L (++) c) in H. subst rest. rewrite patch_hole1 in H.
  2: { unfold small. rewrite !length_app. cbn [length]. lia. }
  apply ok_inj in H as ->. rewrite <- !(assoc_L (++)), !length_app. cbn [app length]. repeat f_equal. unfold jump_if. do 4 f_equal. lia.
Qed.

Lemma emits_field x f k l d : emits (compile_field x f d) k l (field_code regs types k x f d).
Proof.
  unfold compile_field, field_code. apply emits_var. intros X u g H. gen_rw H.
  destruct (from_option is_sr_rs false (types !! x)).
  - case_bool_decide; revert X u g H; apply emits_scratch; intros _; apply emits_emit_.
  - destruct (from_option is_edge false (types !! x)); revert X u g H;
      [apply emits_emit_ | apply emits_scratch; intros _; apply emits_emit_].
Qed.

Lemma emits_nil k l : emits (mret tt) k l [].
Proof. intros X u g [= _ <-]. by rewrite app_nil_r. Qed.

Lemma expr_operand e : operand (compile_expr e) (expr_code e).
Proof.
  induction e as [n|n|b|x|e1 IH1 op e2 IH2|[] e IH|x e IH|x f]; intros l k d; cbn [compile_expr StLayout.expr_code];
    intros Hs; try apply emits_emit_.
  - apply emits_var. destruct (_ =? d)%nat; [apply emits_nil|].
    intros X u g H. apply gen_bind_inv in H as (z & g1 & H1 & H).
    apply reading_st in H1 as [[= <-] ->]. gen_rw H. gen_rw H. injection H as _ <-.
    by rewrite <- (assoc_L (++)).
  - destruct (op_to_arith_opcode op) as [o|].
    + rewrite !length_app in Hs. unfold small in *. cbn [length] in Hs.
      apply emits_bind; [apply IH1; unfold small; lia|]. intros _.
      apply emits_scratch2. intros _. rewrite <- length_app.
      apply emits_bind; [apply IH2; unfold small; rewrite !length_app; lia | intros; apply emits_emit_].
    + destruct (is_cmp_op op); [by apply emits_compare_value|].
      rewrite !length_app in Hs. unfold small in *. cbn [length] in Hs.
      apply emits_scratch3. intros _.
      apply emits_bind; [apply IH1; unfold small; lia|]. intros _. rewrite <- length_app.
      apply emits_bind; [apply IH2; unfold small; rewrite !length_app; lia | intros; apply emits_emit_].
  - rewrite !length_app in Hs. unfold small in *.
    apply emits_bind; [apply IH; unfold small; lia|]. intros _.
    apply emits_scratch2. intros _. apply (emits_bind _ _ _ _ [_] [_]); [apply emits_emit_ | intros; apply emits_emit_].
  - rewrite !length_app in Hs. unfold small in *.
    apply emits_bind; [apply IH; unfold small; lia | intros; apply emits_emit_].
  - rewrite !length_app in Hs. unfold small in *. apply emits_var, emits_scratch2. intros _.
    apply emits_bind; [apply IH; unfold small; lia | intros; apply emits_emit_].
  - apply emits_field.
Qed.
End expressions.

(** ** Conditions *)
Section conditions.
Context (regs : gmap string nat) (types : gmap string VarType).
Local Abbreviation st := (st regs types) (only parsing).
Local Abbreviation cond_code := (cond_code regs types) (only parsing).

(** [m] appends the template [c] and returns the addresses of its holes. *)
Definition emits_cond (m : Gen (list Z * list Z)) (l : list Instruction) (c : Template) : Prop :=
  ∀ X js es g, m (st l 0 X) = Some (Ok ((js, es), g)) →
  g = st (l ++ resolve c) 0 X ∧ js = holes OnTrue (length l) c ∧ es = holes OnEnd (length l) c.

Lemma holes_ins_jump h h' op pc l :
  holes h pc ((Ins <$> l) ++ [Jmp op (Hole h')]) = if decide (h' = h) then [Z.of_nat (pc + length l)] else [].
Proof. rewrite holes_app, holes_ins, length_fmap. cbn. by case_decide. Qed.

(** The last jump of a test. *)
Lemma emits_final_jump m l code :
  small (length l + length code) → emits regs types m 0 l code →
  emits_cond (_ ← m; j ← emit (jump_if 0); mret ([j], [])) l ((Ins <$> code) ++ [Jmp OpJumpIf (Hole OnTrue)]).
Proof.
  intros Hs Hm X js es g H. apply gen_bind_inv in H as (u & g1 & H1 & H). apply Hm in H1 as ->.
  gen_rw H. injection H as <- <- <-. rewrite !holes_ins_jump, resolve_app, resolve_ins.
  rewrite decide_True, decide_False by done. rewrite ip_u32_exact, length_app by (by rewrite length_app).
  by rewrite (assoc_L (++)).
Qed.

Lemma emits_cond_ext m1 m2 l c : (∀ g, m1 g = m2 g) → emits_cond m2 l c → emits_cond m1 l c.
Proof. intros Hm H X js es g. rewrite Hm. apply H. Qed.

Lemma emits_bool_test e l :
  small (length l + length (test_code regs types e (length l))) →
  emits_cond (bool_test (compile_expr e)) l (test_code regs types e (length l)).
Proof.
  unfold test_code. set (c := expr_code regs types e (length l) 1 (scratch 0)).
  rewrite length_app, length_fmap, length_app. cbn [length]. unfold small. intros Hs.
  set (code := c ++ [_; _]).
  set (m := s ← alloc_scratch; _ ← compile_expr e s; t ← alloc_scratch;
            _ ← emit_ (load_imm t (VBool true)); _ ← emit_ (cmp_inst OpEq s t);
            _ ← free_scratch s; free_scratch t).
  apply (emits_cond_ext _ (_ ← m; j ← emit (jump_if 0); mret ([j], []))).
  { intros g. unfold bool_test, m. repeat (rewrite bind_assoc; apply bind_ext; intros ??). done. }
  apply emits_final_jump; [unfold small, code; rewrite length_app; cbn; lia|].
  intros X u g H. unfold m in H. gen_alloc H. apply gen_bind_inv in H as ([] & g1 & H1 & H).
  apply (expr_operand regs types e) in H1 as ->; [|unfold small; fold c; lia].
  gen_alloc H. gen_rw H. gen_rw H. unfold code. apply ok_inj in H as ->.
  by rewrite <- !(assoc_L (++)).
Qed.

Lemma cond_emits e l :
  small (length l + length (cond_code e (length l))) →
  emits_cond (compile_bool_cond e) l (cond_code e (length l)).
Proof.
  revert l. induction e as [n|n|b|x|e1 IH1 op e2 IH2|[] e IH|x e IH|x f]; intros l;
    cbn [compile_bool_cond StLayout.cond_code]; intros Hs; try by apply emits_bool_test.
  - destruct (is_cmp_op op).
    { rewrite length_app, length_fmap in Hs. cbn [length] in Hs. unfold small in Hs.
      apply emits_final_jump; [unfold small; lia|].
      apply emits_compare; try apply expr_operand. unfold small; lia. }
    case_bool_decide as Ea; [|case_bool_decide as Eo; [|by apply emits_bool_test]].
    + rewrite length_app in Hs. unfold small in Hs. intros X js es g H.
      apply gen_bind_inv in H as ([le lend] & g1 & H1 & H). apply IH1 in H1 as (-> & -> & ->); [|unfold small; lia].
      apply gen_bind_inv in H as ([re rend] & g1 & H1 & H).
      apply IH2 in H1 as (-> & -> & ->); [|unfold small; rewrite length_app, resolve_length; lia].
      injection H as <- <- <-. rewrite !length_app, !resolve_length, resolve_app, !holes_app.
      by rewrite (assoc_L (++)).
    + rewrite !length_app, fill_length in Hs. unfold small in Hs. cbn [length] in Hs. intros X js es g H.
      apply gen_bind_inv in H as ([le lend] & g1 & H1 & H). apply IH1 in H1 as (-> & -> & ->); [|unfold small; lia].
      set (cl := cond_code e1 (length l)) in *.
      do 3 gen_rw H. rewrite <- (assoc_L (++)), (patch_holes OnTrue) in H.
      rewrite !length_app, resolve_length in H. cbn [length] in H. rewrite Nat.add_assoc in H.
      apply gen_bind_inv in H as ([re rend] & g1 & H1 & H).
      assert (Hl : length (l ++ resolve (fill OnTrue (length l + length cl + 1) cl) ++ [jump 0])
                   = (length l + length cl + 1)%nat).
      { rewrite !length_app, resolve_length, fill_length. cbn. lia. }
      apply IH2 in H1 as (-> & -> & ->); [|rewrite Hl; unfold small; lia].
      injection H as <- <- <-. rewrite Hl, !resolve_app, !holes_app, fill_length.
      rewrite holes_fill_same, holes_fill_other by done. cbn [holes length app].
      rewrite decide_False, decide_True by done. cbn [app].
      rewrite ip_u32_exact by (unfold small; lia).
      rewrite !Nat.add_1_r, <- !(assoc_L (++)). done.
  - rewrite swap_length in Hs. intros X js es g H.
    apply gen_bind_inv in H as ([ie ien] & g1 & H1 & H). apply IH in H1 as (-> & -> & ->); [|done].
    injection H as <- <- <-. by rewrite resolve_swap, !holes_swap.
Qed.
End conditions.
