(* ===== verification/StGenerator.v ===== *)
(** * Structured Text: the generator's program is the laid-out program

    [StBackpatch]'s expressions and conditions carried to statements, functions
    and whole programs. *)
From S2P Require Import Prelude Float HalTypes HalValue HalIr StLexer StParser StCodegen StLayout StBackpatch.
Local Open Scope Z_scope.

(** ** The exits of the innermost loop *)
Definition add_exits (js : list Z) (X : list (list Z)) : list (list Z) :=
  match last X with Some e => removelast X ++ [e ++ js] | None => X end.

Lemma add_exits_snoc js X e : add_exits js (X ++ [e]) = X ++ [e ++ js].
Proof. unfold add_exits. by rewrite last_snoc, removelast_last. Qed.
Lemma exits_cases (X : list (list Z)) : X = [] ∨ ∃ X' e, X = X' ++ [e].
Proof. induction X as [|e X _] using rev_ind; eauto. Qed.
Lemma add_exits_nil X : add_exits [] X = X.
Proof. destruct (exits_cases X) as [->|(X' & e & ->)]; [done|]. by rewrite add_exits_snoc, app_nil_r. Qed.
Lemma add_exits_app js1 js2 X : add_exits (js1 ++ js2) X = add_exits js2 (add_exits js1 X).
Proof.
  destruct (exits_cases X) as [->|(X' & e & ->)]; [done|]. by rewrite !add_exits_snoc, (assoc_L (++)).
Qed.

Section statements.
Context (regs : gmap string nat) (types : gmap string VarType).
Local Abbreviation st := (st regs types) (only parsing).
Local Abbreviation stmt_code := (stmt_code regs types) (only parsing).

(** [m] appends the template [c], its [EXIT] jumps going to the innermost loop,
    of which there is one when the template has such a jump. *)
Definition emits_stmt (m : Gen unit) (l : list Instruction) (c : Template) : Prop :=
  ∀ X u g, m (st l 0 X) = Some (Ok (u, g)) →
  g = st (l ++ resolve c) 0 (add_exits (holes OnExit (length l) c) X)
  ∧ (X = [] → holes OnExit (length l) c = []).

Lemma emits_plain m l code : emits regs types m 0 l code → emits_stmt m l (Ins <$> code).
Proof.
  intros Hm X u g H. apply Hm in H as ->. by rewrite holes_ins, add_exits_nil, resolve_ins.
Qed.

Lemma emits_stmt_bind m f l c1 c2 :
  emits_stmt m l c1 → (∀ u, emits_stmt (f u) (l ++ resolve c1) c2) → emits_stmt (m ≫= f) l (c1 ++ c2).
Proof.
  intros Hm Hf X u g H. apply gen_bind_inv in H as (a & g1 & H1 & H2).
  apply Hm in H1 as [-> H1]. apply Hf in H2 as [-> H2].
  rewrite resolve_app, (assoc_L (++)), holes_app, add_exits_app.
  rewrite length_app, resolve_length in *. split; [done|]. intros ->. rewrite H1 by done.
  apply H2. by rewrite H1.
Qed.

Lemma emits_stmt_nil l : emits_stmt (mret tt) l [].
Proof. apply (emits_plain _ _ []), emits_nil. Qed.

(** A list of phrases, one after the other. *)
Lemma emits_each {A} (f : A → Gen unit) (F : A → nat → Template) xs l :
  (∀ x l, x ∈ xs → small (length l + length (F x (length l))) → emits_stmt (f x) l (F x (length l))) →
  small (length l + length (seq_code F xs (length l))) →
  emits_stmt (each f xs) l (seq_code F xs (length l)).
Proof.
  revert l. induction xs as [|x xs IH]; intros l Hf Hs; cbn [each seq_code] in *; [apply emits_stmt_nil|].
  rewrite length_app in Hs. unfold small in Hs.
  apply emits_stmt_bind; [apply Hf; [set_solver | unfold small; lia]|]. intros _.
  rewrite <- (resolve_length (F x (length l))), <- length_app. apply IH.
  - intros y l' Hy. apply Hf. set_solver.
  - unfold small. rewrite length_app, resolve_length. lia.
Qed.

Lemma emits_check {B} (f : Codegen → result B CodegenError) (m : Gen unit) l c :
  emits_stmt m l c → emits_stmt (_ ← reading f; m) l c.
Proof.
  intros Hm X u g H. apply gen_bind_inv in H as (a & g1 & H1 & H).
  apply reading_st in H1 as [_ ->]. by apply Hm in H.
Qed.

(** ** Assignments *)
Lemma assign_emits x e l :
  small (length l + length (assign_code regs types x e (length l))) →
  emits_stmt (compile_assign x e) l (Ins <$> assign_code regs types x e (length l)).
Proof.
  unfold assign_code. rewrite length_app. unfold small. intros Hs. apply emits_check, emits_plain.
  apply emits_var, emits_bind; [apply expr_operand; unfold small; lia | intros; apply emits_emit_].
Qed.

Lemma array_assign_emits x i v l :
  small (length l + length (array_assign_code regs types x i v (length l))) →
  emits_stmt (compile_array_assign x i v) l (Ins <$> array_assign_code regs types x i v (length l)).
Proof.
  unfold array_assign_code. rewrite !length_app. unfold small. intros Hs. apply emits_plain, emits_var.
  intros X u g H. gen_alloc H. apply gen_bind_inv in H as ([] & g1 & H1 & H).
  apply expr_operand in H1 as ->; [|unfold small; lia]. gen_alloc H.
  apply gen_bind_inv in H as ([] & g1 & H1 & H).
  apply expr_operand in H1 as ->; [|unfold small; rewrite length_app; lia].
  gen_rw H. rewrite free_st_down in H by lia. unfold store_var in H. rewrite emit__st in H.
  apply ok_inj in H as ->. by rewrite length_app, <- !(assoc_L (++)).
Qed.

(** ** Function block and function calls *)
Lemma input_operand e : operand regs types (compile_input e) (input_code regs types e).
Proof.
  intros l k d. destruct e; try apply (expr_operand regs types). cbn. intros _. apply emits_var, emits_emit_.
Qed.

Lemma timer_emits x vt a b l :
  small (length l + length (timer_call regs types x vt a b (length l))) →
  emits regs types (compile_timer x vt a b) 0 l (timer_call regs types x vt a b (length l)).
Proof.
  unfold timer_call. rewrite length_app. unfold small. intros Hs. apply emits_var, emits_scratch2. intros _.
  apply emits_bind; [apply input_operand; unfold small; lia | intros; apply emits_emit_].
Qed.

Lemma edge_emits x vt a l :
  small (length l + length (edge_call regs types x vt a (length l))) →
  emits regs types (compile_edge x vt a) 0 l (edge_call regs types x vt a (length l)).
Proof.
  unfold edge_call. rewrite length_app. unfold small. intros Hs. apply emits_var, emits_scratch2. intros _.
  apply emits_bind; [apply input_operand; unfold small; lia | intros; apply emits_emit_].
Qed.

(** Two inputs in scratch registers, then the block's instruction. *)
Lemma two_inputs_emit a (m : nat → Gen unit) c2 i l :
  let c1 := input_code regs types a (length l) 1 (scratch 0) in
  small (length l + length c1) →
  emits regs types (m (scratch 1)) 2 (l ++ c1) c2 →
  emits regs types
    (s ← alloc_scratch; _ ← compile_input a s; t ← alloc_scratch; _ ← m t;
     _ ← emit_ (i s t); _ ← free_scratch t; free_scratch s) 0 l (c1 ++ c2 ++ [i (scratch 0) (scratch 1)]).
Proof.
  intros c1 Hs Hm X u g H. gen_alloc H. apply gen_bind_inv in H as ([] & g1 & H1 & H).
  apply input_operand in H1 as ->; [|done]. fold c1 in H. gen_alloc H.
  apply gen_bind_inv in H as ([] & g1 & H1 & H). apply Hm in H1 as ->. gen_rw H.
  rewrite (gen_bind_ok _ _ _ _ _ (free_st _ _ _ 1 _ ltac:(lia))) in H.
  rewrite (free_st _ _ _ 0 _ ltac:(lia)) in H. apply ok_inj in H as ->. by rewrite <- !(assoc_L (++)).
Qed.

Lemma counter_emits x vt a b c l :
  small (length l + length (counter_call regs types x vt a b c (length l))) →
  emits regs types (compile_counter x vt a b c) 0 l (counter_call regs types x vt a b c (length l)).
Proof.
  unfold counter_call. rewrite !length_app. unfold small. intros Hs. apply emits_var.
  apply (two_inputs_emit a (λ t, match c with Some cd => compile_input cd t | None => emit_ (load_imm t (VBool false)) end)
           _ (λ s t, counter_run _ s t _ _)); [unfold small; lia|].
  destruct c as [cd|]; [|apply emits_emit_]. rewrite <- length_app. apply input_operand.
  unfold small. rewrite length_app. lia.
Qed.

Lemma sr_emits x vt a b l :
  small (length l + length (sr_call regs types x vt a b (length l))) →
  emits regs types (compile_sr x vt a b) 0 l (sr_call regs types x vt a b (length l)).
Proof.
  unfold sr_call. rewrite !length_app. unfold small. intros Hs. apply emits_var.
  apply (two_inputs_emit a (compile_input b) _ (λ s t, sr_run _ s t _)); [unfold small; lia|].
  rewrite <- length_app. apply input_operand. unfold small. rewrite length_app. lia.
Qed.

Lemma args_emits args i l :
  small (length l + length (args_code regs types i args (length l))) →
  emits regs types (compile_args i args) 0 l (args_code regs types i args (length l)).
Proof.
  revert i l. induction args as [|a args IH]; intros i l Hs; [apply emits_nil|].
  cbn [args_code compile_args] in *. rewrite length_app in Hs. unfold small in Hs.
  apply emits_bind.
  - destruct (i <? 4)%nat; [|apply emits_nil]. apply expr_operand. unfold small. lia.
  - intros _. rewrite <- length_app. apply IH. rewrite length_app. unfold small. lia.
Qed.
Lemma call_emits args l :
  small (length l + length (call_code regs types args (length l))) →
  emits regs types (compile_call args) 0 l (call_code regs types args (length l)).
Proof.
  unfold call_code. rewrite length_app. unfold small. intros Hs.
  apply emits_bind; [apply args_emits; unfold small; lia | intros; apply emits_emit_].
Qed.

Lemma fun_call_emits x args l :
  small (length l + length (fun_call_code regs types x args (length l))) →
  emits_stmt (compile_fun_call x args) l (Ins <$> fun_call_code regs types x args (length l)).
Proof.
  unfold fun_call_code, compile_fun_call. intros Hs. apply emits_plain. intros X u g H. gen_rw H.
  revert X u g H. change (emits regs types
    (match types !! x with
     | Some vt => match args with
         | a :: b :: rest =>
             if is_timer vt then compile_timer x vt a b
             else if is_counter vt then compile_counter x vt a b (head rest)
             else if is_sr_rs vt then compile_sr x vt a b
             else if is_edge vt then compile_edge x vt a else compile_call args
         | [a] => if is_edge vt then compile_edge x vt a else compile_call args
         | [] => compile_call args end
     | None => compile_call args end) 0 l (fun_call_code regs types x args (length l))).
  unfold fun_call_code.
  destruct (types !! x) as [vt|]; [|by apply call_emits].
  destruct args as [|a [|b rest]]; [by apply call_emits | |].
  - destruct (is_edge vt); [by apply edge_emits | by apply call_emits].
  - destruct (is_timer vt); [by apply timer_emits|].
    destruct (is_counter vt); [by apply counter_emits|].
    destruct (is_sr_rs vt); [by apply sr_emits|].
    destruct (is_edge vt); [by apply edge_emits | by apply call_emits].
Qed.

(** ** Structured statements *)

(** [m] emits the code [F], wherever it is placed. *)
Definition phrase (m : Gen unit) (F : nat → Template) : Prop :=
  ∀ l, small (length l + length (F (length l))) → emits_stmt m l (F (length l)).

Lemma cond_no_exit e pc pc' : holes OnExit pc' (cond_code regs types e pc) = [].
Proof.
  revert pc pc'. induction e as [n|n|b|x|e1 IH1 op e2 IH2|[] e IH|x e IH|x f]; intros pc pc'; cbn [cond_code];
    try apply holes_ins_jump.
  - destruct (is_cmp_op op); [apply holes_ins_jump|].
    case_bool_decide; [|case_bool_decide; [|apply holes_ins_jump]].
    + by rewrite holes_app, IH1, IH2.
    + by rewrite !holes_app, holes_fill_other, IH1, IH2.
  - by rewrite holes_swap.
Qed.

(** Lengths of instruction lists; and the address at which the code now ends. *)
Ltac len_simpl :=
  rewrite ?length_app, ?resolve_length, ?fill_length, ?length_fmap in *; cbn [length] in *.
Ltac len := unfold small in *; len_simpl; len_simpl; lia.
Ltac here H pc :=
  match type of H with
  | context [ip_u32 (length ?L)] => replace (length L) with pc in H by len
  end.
(** Run a phrase [m] whose code is [F pc], by [E : phrase m F]. *)
Ltac run_phrase H E Ec pc Hx :=
  let g := fresh "g" in let Hg := fresh "Hg" in let HL := fresh "HL" in
  apply gen_bind_inv in H as ([] & g & Hg & H);
  match type of Hg with
  | _ (StBackpatch.st _ _ ?L _ _) = _ => assert (HL : length L = pc) by len
  end;
  apply E in Hg; rewrite HL in *; rewrite <- Ec in *; [|len]; destruct Hg as [-> Hx].

Ltac app_simpl :=
  rewrite ?resolve_app, ?resolve_ins, <- ?(assoc_L (++)); cbn [app resolve fmap list_fmap resolve1].
Ltac app_eq := do 3 app_simpl; done.
(** Patch in [H] the jump [op] that stands after [pre] and before [post]. *)
Ltac patch_at H op pre post :=
  rewrite (patch_one_in _ op _ pre post) in H; [|app_eq | len | len].

Lemma if_emits c thn els F1 F2 :
  phrase thn F1 → phrase els F2 → phrase (compile_if c thn els) (if_code regs types c F1 F2).
Proof.
  intros H1 H2 l. unfold if_code. remember (cond_code regs types c (length l)) as cc eqn:Ecc.
  remember (length l + length cc + 1)%nat as then_pc eqn:Ethen. remember (F1 then_pc) as ct eqn:Ect.
  remember (then_pc + length ct + 1)%nat as else_pc eqn:Eelse. remember (F2 else_pc) as ce eqn:Ece.
  intros Hs. apply emits_check.
  intros X u g H. apply gen_bind_inv in H as ([js es] & g1 & Hg & H).
  apply cond_emits in Hg as (-> & -> & ->); [|subst; len]. rewrite <- Ecc in H.
  do 2 gen_rw H. here H then_pc.
  gen_rw H. rewrite (patch_holes_in OnTrue then_pc _ l cc [jump 0]) in H by (by rewrite <- ?(assoc_L (++))).
  gen_rw H. rewrite <- (holes_fill_other OnEnd OnTrue then_pc) in H by done.
  rewrite (patch_holes_in OnEnd then_pc _ l _ [jump 0]) in H by done.
  remember (fill OnEnd then_pc (fill OnTrue then_pc cc)) as cf eqn:Ecf.
  assert (Hcf : length cf = length cc) by (subst cf; by rewrite !fill_length).
  run_phrase H H1 Ect then_pc Hx1.
  do 2 gen_rw H. here H else_pc. gen_rw H. 
  patch_at H OpJump (l ++ resolve cf) (resolve ct ++ [jump 0]).
  run_phrase H H2 Ece else_pc Hx2.
  gen_rw H. here H (else_pc + length ce)%nat. gen_rw H.
  patch_at H OpJump (l ++ resolve cf ++ jump (ip_u32 else_pc) :: resolve ct) (resolve ce).
  apply ok_inj in H as ->. 
  assert (Hn : ∀ p, holes OnExit p cc = []) by (intros; subst cc; apply cond_no_exit).
  assert (Hh : holes OnExit (length l) (cf ++ [Jmp OpJump (Abs else_pc)] ++ ct
                 ++ [Jmp OpJump (Abs (else_pc + length ce))] ++ ce)
               = holes OnExit then_pc ct ++ holes OnExit else_pc ce).
  { rewrite !holes_app, Ecf, !holes_fill_other, Hn by done. cbn [holes app]. f_equal; f_equal; len. }
  rewrite Hh. split; [rewrite add_exits_app; f_equal; app_eq|].
  intros ->. by rewrite Hx1, Hx2 by (rewrite ?Hx1; done).
Qed.

(** ** Loops *)
Lemma push_st l k X : push_loop (st l k X) = Some (Ok (tt, st l k (X ++ [[]]))).
Proof. done. Qed.
Lemma pop_st l k X js :
  pop_loop (st l k (X ++ [js])) = Some (Ok (tt, st (patch_insts js (ip_u32 (length l)) l) k X)).
Proof.
  unfold pop_loop. rewrite (gen_bind_ok _ _ _ js (st l k X)).
  2: { unfold take_exits. cbn [loop_exits StBackpatch.st]. by rewrite last_snoc, removelast_last. }
  rewrite (gen_bind_ok _ _ _ _ _ (current_idx_st _ _ _ _ _)). apply each_patch.
Qed.

(** A statement without [EXIT] of its own. *)
Lemma closed_intro l c X g :
  holes OnExit (length l) c = [] → g = st (l ++ resolve c) 0 X →
  g = st (l ++ resolve c) 0 (add_exits (holes OnExit (length l) c) X)
  ∧ (X = [] → holes OnExit (length l) c = []).
Proof. intros ->. by rewrite add_exits_nil. Qed.

Lemma while_emits c body F : phrase body F → phrase (compile_while c body) (while_code regs types c F).
Proof.
  intros Hb l. unfold while_code. remember (cond_code regs types c (length l)) as cc eqn:Ecc.
  remember (length l + length cc + 1)%nat as body_pc eqn:Ebody. remember (F body_pc) as cb eqn:Ecb.
  remember (body_pc + length cb + 1)%nat as exit_pc eqn:Eexit.
  intros Hs. apply emits_check.
  intros X u g H. rewrite (gen_bind_ok _ _ _ _ _ (push_st _ _ _)) in H. gen_rw H.
  apply gen_bind_inv in H as ([js es] & g1 & Hg & H).
  apply cond_emits in Hg as (-> & -> & ->); [|subst; len]. rewrite <- Ecc in H.
  do 2 gen_rw H. here H body_pc. gen_rw H.
  rewrite (patch_holes_in OnTrue body_pc _ l cc [jump 0]) in H by (by rewrite <- ?(assoc_L (++))).
  rewrite <- (resolve_fill_zero OnEnd (fill OnTrue body_pc cc)) in H.
  remember (fill OnEnd 0 (fill OnTrue body_pc cc)) as cf eqn:Ecf.
  assert (Hcf : length cf = length cc) by (subst cf; by rewrite !fill_length).
  run_phrase H Hb Ecb body_pc Hx. rewrite add_exits_snoc in H. cbn [app] in H.
  do 2 gen_rw H. here H exit_pc. gen_rw H.
  patch_at H OpJump (l ++ resolve cf) (resolve cb ++ [jump (ip_u32 (length l))]).
  rewrite pop_st in H. here H exit_pc.
  rewrite (patch_holes_in OnExit exit_pc _ (l ++ resolve cf ++ [jump (ip_u32 exit_pc)]) cb
             [jump (ip_u32 (length l))]) in H; [|app_eq | len].
  apply ok_inj in H as ->. apply closed_intro; [|f_equal; app_eq].
  assert (Hn : ∀ p, holes OnExit p cc = []) by (intros; subst cc; apply cond_no_exit).
  rewrite !holes_app, holes_fill_same, Ecf, !holes_fill_other, Hn by done. done.
Qed.

(** The step of a FOR, in a scratch register. *)
Definition step_code (step : option Expr) (pc : nat) : list Instruction :=
  match step with
  | Some e => expr_code regs types e pc 1 (scratch 0)
  | None => [load_imm (scratch 0) (VS32 1)]
  end.
Lemma step_emits step l :
  small (length l + length (step_code step (length l))) →
  emits regs types (match step with
                    | Some e => compile_expr e (scratch 0)
                    | None => emit_ (load_imm (scratch 0) (VS32 1)) end) 1 l (step_code step (length l)).
Proof. destruct step; intros Hs; [by apply expr_operand | apply emits_emit_]. Qed.

(** Run code that [emits] in [H], by its lemma [E]. *)
Ltac run_code H E Ec pc :=
  let g := fresh "g" in let Hg := fresh "Hg" in let HL := fresh "HL" in
  apply gen_bind_inv in H as ([] & g & Hg & H);
  match type of Hg with
  | _ (StBackpatch.st _ _ ?L _ _) = _ => assert (HL : length L = pc) by len
  end;
  apply E in Hg; rewrite ?HL in *; rewrite <- ?Ec in *; [|len]; subst g.

Lemma for_emits x start stop step body F :
  phrase body F → phrase (compile_for x start stop step body) (for_code regs types x start stop step F).
Proof.
  intros Hb l. unfold for_code. fold (step_code step).
  remember (expr_code regs types start (length l) 0 (reg_of regs x)) as c1 eqn:Ec1.
  remember (length l + length c1)%nat as loop_pc eqn:Eloop.
  remember (expr_code regs types stop loop_pc 1 (scratch 0)) as c2 eqn:Ec2.
  remember (loop_pc + length c2 + 2)%nat as body_pc eqn:Ebody. remember (F body_pc) as cb eqn:Ecb.
  remember (body_pc + length cb)%nat as step_pc eqn:Estep.
  fold (step_code step step_pc). remember (step_code step step_pc) as c3 eqn:Ec3.
  remember (step_pc + length c3 + 2)%nat as exit_pc eqn:Eexit.
  intros Hs. apply emits_check. intros X u g H. gen_var H.
  run_code H (expr_operand regs types start) Ec1 (length l).
  rewrite (gen_bind_ok _ _ _ _ _ (push_st _ _ _)) in H. gen_rw H. here H loop_pc.
  gen_alloc H. run_code H (expr_operand regs types stop) Ec2 loop_pc.
  gen_rw H. gen_free H. gen_rw H. run_phrase H Hb Ecb body_pc Hx. rewrite add_exits_snoc in H. cbn [app] in H.
  gen_alloc H. run_code H (step_emits step) Ec3 step_pc.
  gen_rw H. rewrite (gen_bind_ok _ _ _ _ _ (free_st _ _ _ 0 _ Hlt)) in H.
  do 2 gen_rw H. here H exit_pc. gen_rw H.
  set (tail := resolve cb ++ c3 ++ [arith_inst OpAdd (reg_of regs x) (scratch 0) (reg_of regs x);
                                    jump (ip_u32 loop_pc)]).
  patch_at H OpJumpIf (l ++ c1 ++ c2 ++ [cmp_inst OpGt (reg_of regs x) (scratch 0)]) tail.
  subst tail. rewrite pop_st in H. here H exit_pc.
  rewrite (patch_holes_in OnExit exit_pc _ (l ++ c1 ++ c2 ++ [cmp_inst OpGt (reg_of regs x) (scratch 0); jump_if (ip_u32 exit_pc)])
     cb (c3 ++ [arith_inst OpAdd (reg_of regs x) (scratch 0) (reg_of regs x);
                                    jump (ip_u32 loop_pc)])) in H; [|app_eq | len].
  apply ok_inj in H as ->. apply closed_intro; [|f_equal; app_eq].
  by rewrite !holes_app, holes_fill_same, !holes_ins.
Qed.

Lemma repeat_emits body c F : phrase body F → phrase (compile_repeat body c) (repeat_code regs types F c).
Proof.
  intros Hb l. unfold repeat_code. remember (F (length l)) as cb eqn:Ecb.
  remember (length l + length cb)%nat as cond_pc eqn:Econd.
  remember (cond_code regs types c cond_pc) as cc eqn:Ecc.
  remember (cond_pc + length cc + 1)%nat as exit_pc eqn:Eexit.
  intros Hs. apply emits_check. intros X u g H.
  rewrite (gen_bind_ok _ _ _ _ _ (push_st _ _ _)) in H. gen_rw H.
  apply gen_bind_inv in H as ([] & g1 & Hg & H). apply Hb in Hg; rewrite <- Ecb in *; [|len].
  destruct Hg as [-> Hx]. rewrite add_exits_snoc in H. cbn [app] in H.
  assert (HL : length (l ++ resolve cb) = cond_pc) by len.
  apply gen_bind_inv in H as ([js es] & g1 & Hg & H).
  apply cond_emits in Hg; rewrite HL in *; rewrite <- Ecc in *; [|len]. destruct Hg as (-> & -> & ->).
  do 2 gen_rw H. here H exit_pc. gen_rw H.
  rewrite (patch_holes_in OnTrue exit_pc _ (l ++ resolve cb) cc [jump 0]) in H by (by rewrite <- ?(assoc_L (++))).
  rewrite <- (resolve_fill_zero OnEnd (fill OnTrue exit_pc cc)) in H.
  remember (fill OnEnd 0 (fill OnTrue exit_pc cc)) as cf eqn:Ecf.
  assert (Hcf : length cf = length cc) by (subst cf; by rewrite !fill_length).
  gen_rw H. patch_at H OpJump (l ++ resolve cb ++ resolve cf) (@nil Instruction).
  rewrite pop_st in H. here H exit_pc.
  rewrite (patch_holes_in OnExit exit_pc _ l cb (resolve cf ++ [jump (ip_u32 (length l))])) in H; [|app_eq | len].
  apply ok_inj in H as ->. apply closed_intro; [|f_equal; app_eq].
  assert (Hn : ∀ p, holes OnExit p cc = []) by (intros; subst cc; apply cond_no_exit).
  rewrite !holes_app, holes_fill_same, Ecf, !holes_fill_other, Hn by done. done.
Qed.

(** ** CASE *)
Lemma tests_emit r vs l X js g :
  small (length l + length (case_tests r vs)) →
  collect (case_test r) vs (st l 0 X) = Some (Ok (js, g)) →
  g = st (l ++ resolve (case_tests r vs)) 0 X ∧ js = holes OnTrue (length l) (case_tests r vs).
Proof.
  revert l js g. induction vs as [|v vs IH]; intros l js g Hs H.
  { injection H as <- <-. by rewrite app_nil_r. }
  unfold case_tests in *. cbn [collect flat_map] in *. rewrite length_app in Hs. cbn [length] in Hs.
  apply gen_bind_inv in H as (j & g1 & Ht & H). unfold case_test in Ht. gen_alloc Ht.
  do 2 gen_rw Ht. rewrite (gen_bind_ok _ _ _ _ _ (free_st _ _ _ 0 _ ltac:(lia))), emit_st in Ht.
  injection Ht as <- <-.
  apply gen_bind_inv in H as (js' & g1 & Hg & H). apply IH in Hg as [-> ->]; [|len].
  injection H as <- <-. rewrite ip_u32_exact by len. split; [f_equal; app_eq|].
  cbn [app holes]. rewrite decide_True by done. f_equal; [len|]. f_equal. len.
Qed.

Lemma tests_holes h p r vs : h ≠ OnTrue → holes h p (case_tests r vs) = [].
Proof.
  intros Hh. revert p. induction vs as [|v vs IH]; intros p; [done|].
  cbn. rewrite decide_False by done. apply IH.
Qed.

(** [m] emits one arm and returns the address of its jump to the end. *)
Definition emits_arm (m : Gen Z) (l : list Instruction) (c : Template) : Prop :=
  ∀ X j g, m (st l 0 X) = Some (Ok (j, g)) →
  g = st (l ++ resolve c) 0 (add_exits (holes OnExit (length l) c) X)
  ∧ (X = [] → holes OnExit (length l) c = []) ∧ [j] = holes OnEnd (length l) c.

(** Only [EXIT] leaves a hole. *)
Definition closed (F : nat → Template) : Prop := ∀ h p q, h ≠ OnExit → holes h p (F q) = [].

Lemma arm_emits r vs body F l :
  phrase body F → closed F → small (length l + length (arm_code r vs F (length l))) →
  emits_arm (case_arm r vs body) l (arm_code r vs F (length l)).
Proof.
  intros Hb Hc. unfold arm_code. remember (case_tests r vs) as ct eqn:Ect.
  remember (length l + length ct + 1)%nat as body_pc eqn:Ebody. remember (F body_pc) as cb eqn:Ecb.
  intros Hs X j g H. apply gen_bind_inv in H as (js & g1 & Hg & H).
  apply tests_emit in Hg as [-> ->]; [|subst; len]. rewrite <- Ect in H.
  do 2 gen_rw H. here H body_pc. gen_rw H.
  rewrite (patch_holes_in OnTrue body_pc _ l ct [jump 0]) in H by (by rewrite <- ?(assoc_L (++))).
  run_phrase H Hb Ecb body_pc Hx.
  do 2 gen_rw H. here H (body_pc + length cb + 1)%nat. gen_rw H.
  patch_at H OpJump (l ++ resolve (fill OnTrue body_pc ct)) (resolve cb ++ [jump 0]).
  injection H as <- <-.
  assert (Hn : ∀ h p, h ≠ OnTrue → holes h p ct = []) by (intros; subst ct; by apply tests_holes).
  rewrite !holes_app, !holes_fill_other, !Hn by done. cbn [holes app length]. rewrite app_nil_r, fill_length.
  replace (length l + length ct + 1)%nat with body_pc by done. split_and!; [f_equal; app_eq | done |].
  subst cb. rewrite Hc by done. cbn [app]. rewrite decide_True by done. f_equal.
  rewrite ip_u32_exact by len. len.
Qed.

Lemma arms_emit {A} (f : A → Gen Z) (F : A → nat → Template) xs l X js g :
  (∀ x l, x ∈ xs → small (length l + length (F x (length l))) → emits_arm (f x) l (F x (length l))) →
  small (length l + length (seq_code F xs (length l))) →
  collect f xs (st l 0 X) = Some (Ok (js, g)) →
  let c := seq_code F xs (length l) in
  g = st (l ++ resolve c) 0 (add_exits (holes OnExit (length l) c) X)
  ∧ (X = [] → holes OnExit (length l) c = []) ∧ js = holes OnEnd (length l) c.
Proof.
  revert l X js g. induction xs as [|x xs IH]; intros l X js g Hf Hs H; cbn [collect seq_code] in *.
  { injection H as <- <-. by rewrite app_nil_r, add_exits_nil. }
  rewrite length_app in Hs. apply gen_bind_inv in H as (j & g1 & Hg & H).
  apply Hf in Hg as (-> & Hx & Hj); [|set_solver|len].
  remember (F x (length l)) as c1 eqn:Ec1.
  assert (HL : length (l ++ resolve c1) = (length l + length c1)%nat) by len.
  apply gen_bind_inv in H as (js' & g1 & Hg & H).
  apply IH in Hg; [|intros; apply Hf; [set_solver|done] | rewrite HL; len]. rewrite HL in Hg.
  destruct Hg as (-> & Hx2 & ->). injection H as <- <-. rewrite !holes_app, add_exits_app.
  split_and!; [f_equal; app_eq | intros ->; rewrite Hx, Hx2; by rewrite ?Hx | by rewrite <- Hj].
Qed.

Lemma case_emits x (arms : nat → Gen (list Z)) els Fa F :
  (∀ l X js g, small (length l + length (Fa (length l))) → arms (reg_of regs x) (st l 0 X) = Some (Ok (js, g)) →
    g = st (l ++ resolve (Fa (length l))) 0 (add_exits (holes OnExit (length l) (Fa (length l))) X)
    ∧ (X = [] → holes OnExit (length l) (Fa (length l)) = []) ∧ js = holes OnEnd (length l) (Fa (length l))) →
  phrase els F → phrase (compile_case x arms els) (case_code Fa F).
Proof.
  intros Ha He l. unfold case_code. remember (Fa (length l)) as ca eqn:Eca.
  remember (F (length l + length ca)%nat) as ce eqn:Ece.
  intros Hs X u g H. gen_var H. apply gen_bind_inv in H as (js & g1 & Hg & H).
  apply Ha in Hg; rewrite <- Eca in *; [|len]. destruct Hg as (-> & Hx1 & ->).
  run_phrase H He Ece (length l + length ca)%nat Hx2.
  gen_rw H. here H (length l + length ca + length ce)%nat. gen_rw H.
  rewrite (patch_holes_in OnEnd _ _ l ca (resolve ce)) in H by (by rewrite <- ?(assoc_L (++))).
  apply ok_inj in H as ->. rewrite holes_app, holes_fill_other, fill_length, add_exits_app by done.
  split; [f_equal; app_eq|]. intros ->. by rewrite Hx1, Hx2 by (rewrite ?Hx1; done).
Qed.

(** ** Every statement *)
Lemma closed_ins f : closed (λ pc, Ins <$> f pc).
Proof. intros h p q _. apply holes_ins. Qed.
Lemma seq_closed {A} (F : A → nat → Template) xs h :
  (∀ x p q, x ∈ xs → holes h p (F x q) = []) → ∀ p q, holes h p (seq_code F xs q) = [].
Proof.
  intros HF. induction xs as [|x xs IH]; intros p q; cbn [seq_code]; [done|].
  rewrite holes_app, HF, IH by set_solver. done.
Qed.
Lemma bodies_closed {A} (F : A → nat → Template) xs :
  Forall (λ x, closed (F x)) xs → closed (seq_code F xs).
Proof.
  intros HF h p q Hh. apply seq_closed. intros x p' q' Hx.
  exact (proj1 (Forall_forall _ _) HF x Hx h p' q' Hh).
Qed.
(** Both kinds of holes filled. *)
Lemma filled_closed h p n m c : h ≠ OnExit → holes h p (fill OnEnd n (fill OnTrue m c)) = [].
Proof.
  intros Hh. destruct h; [|apply holes_fill_same | done].
  rewrite holes_fill_other by done. apply holes_fill_same.
Qed.

Lemma stmt_closed s : closed (stmt_code s).
Proof.
  induction s as [x e| | |f args|x i v|c t e Ht He|c b Hb|x a b k bd Hb|x cs e Hcs He|b c Hb] using statement_ind;
    try apply closed_ins; try (intros h p q Hh; cbn [StLayout.stmt_code]).
  - apply (holes_ins h p [halt]).
  - cbn. by rewrite decide_False.
  - unfold if_code. rewrite !holes_app, filled_closed by done. cbn [holes].
    by rewrite !bodies_closed by done.
  - unfold while_code. rewrite !holes_app, filled_closed, holes_fill_other by done. cbn [holes].
    by rewrite !bodies_closed by done.
  - unfold for_code. rewrite !holes_app, !holes_ins, holes_fill_other by done. cbn [holes].
    by rewrite !bodies_closed by done.
  - unfold case_code. rewrite holes_app, (bodies_closed _ _ He) by done. rewrite app_nil_r.
    destruct (decide (h = OnEnd)) as [->|Hne]; [apply holes_fill_same|].
    rewrite holes_fill_other by done. apply seq_closed. intros [vs bd] p' q' Hx. unfold arm_code.
    destruct h; [|done..]. rewrite !holes_app, holes_fill_same. cbn [holes].
    rewrite decide_False by done. rewrite (bodies_closed _ _ (proj1 (Forall_forall _ _) Hcs _ Hx)) by done. done.
  - unfold repeat_code. rewrite !holes_app, filled_closed, holes_fill_other by done. cbn [holes].
    by rewrite !bodies_closed by done.
Qed.
Lemma stmts_closed ss : closed (stmts_code regs types ss).
Proof. apply bodies_closed, Forall_forall. intros s _. apply stmt_closed. Qed.

Lemma bodies_phrase ss :
  Forall (λ s, phrase (compile_stmt s) (stmt_code s)) ss →
  phrase (each compile_stmt ss) (seq_code stmt_code ss).
Proof.
  intros Hss l Hs. apply emits_each; [|done]. intros s l' Hx. exact (proj1 (Forall_forall _ _) Hss s Hx l').
Qed.

Lemma stmt_phrase s : phrase (compile_stmt s) (stmt_code s).
Proof.
  induction s as [x e| | |f args|x i v|c t e Ht He|c b Hb|x a b k bd Hb|x cs e Hcs He|b c Hb] using statement_ind;
    cbn [compile_stmt].
  - intros l Hs. cbn [StLayout.stmt_code] in *. rewrite length_fmap in Hs. by apply assign_emits.
  - intros l _. apply (emits_plain _ _ [halt]), emits_emit_.
  - intros l Hs X u g H. cbn [StLayout.stmt_code] in *. unfold record_exit in H. gen_rw H.
    unfold push_exit in H. cbn [loop_exits StBackpatch.st] in H.
    destruct (exits_cases X) as [->|(X' & ex & ->)]; [done|]. rewrite last_snoc, removelast_last in H.
    injection H as _ <-. cbn [holes]. rewrite decide_True by done. rewrite add_exits_snoc, ip_u32_exact by len.
    split; [done|]. by destruct X'.
  - intros l Hs. cbn [StLayout.stmt_code] in *. rewrite length_fmap in Hs. by apply fun_call_emits.
  - intros l Hs. cbn [StLayout.stmt_code] in *. rewrite length_fmap in Hs. by apply array_assign_emits.
  - apply if_emits; by apply bodies_phrase.
  - apply while_emits; by apply bodies_phrase.
  - apply for_emits; by apply bodies_phrase.
  - apply case_emits; [|by apply bodies_phrase].
    intros l X js g Hs H. refine (arms_emit _ _ _ _ _ _ _ _ Hs H).
    intros [vs bd] l' Hx Hs'. apply arm_emits; [|apply stmts_closed|done].
    apply bodies_phrase. exact (proj1 (Forall_forall _ _) Hcs _ Hx).
  - apply repeat_emits; by apply bodies_phrase.
Qed.
Lemma stmts_phrase ss : phrase (compile_stmts ss) (stmts_code regs types ss).
Proof. apply bodies_phrase, Forall_forall. intros s _. apply stmt_phrase. Qed.

(** ** Functions and programs *)
Lemma function_emits f l e g :
  small (length l + length (function_code regs types f (length l))) →
  compile_function f (st l 0 []) = Some (Ok (e, g)) →
  g = st (l ++ resolve (function_code regs types f (length l))) 0 []
  ∧ e = Build_FunctionEntry (fd_name f) (ip_u32 (length l)) 0.
Proof.
  unfold function_code. intros Hs H. unfold compile_function in H. gen_rw H.
  apply gen_bind_inv in H as ([] & g1 & Hg & H). apply stmts_phrase in Hg as [-> Hx]; [|len].
  gen_rw H. injection H as <- <-. split; [f_equal; app_eq | done].
Qed.

Lemma functions_emit fs l es g :
  small (length l + length (seq_code (function_code regs types) fs (length l))) →
  collect compile_function fs (st l 0 []) = Some (Ok (es, g)) →
  g = st (l ++ resolve (seq_code (function_code regs types) fs (length l))) 0 []
  ∧ es = function_entries regs types fs (length l).
Proof.
  revert l es g. induction fs as [|f fs IH]; intros l es g Hs H; cbn [collect seq_code function_entries] in *.
  { injection H as <- <-. by rewrite app_nil_r. }
  rewrite length_app in Hs. apply gen_bind_inv in H as (e & g1 & Hg & H).
  apply function_emits in Hg as [-> ->]; [|len].
  remember (function_code regs types f (length l)) as c eqn:Ec.
  assert (HL : length (l ++ resolve c) = (length l + length c)%nat) by len.
  apply gen_bind_inv in H as (es' & g1 & Hg & H). apply IH in Hg; rewrite HL in *; [|len].
  destruct Hg as [-> ->]. injection H as <- <-. split; [f_equal; app_eq | done].
Qed.

Lemma program_emits p es g :
  small (length (program_code regs types p)) →
  compile_program p (st [] 0 []) = Some (Ok (es, g)) →
  g = st (resolve (program_code regs types p)) 0 []
  ∧ es = function_entries regs types (functions p) (length (main_code regs types p)).
Proof.
  unfold program_code. intros Hs H. unfold compile_program in H. unfold main_code in *.
  apply gen_bind_inv in H as ([] & g1 & Hg & H). apply stmts_phrase in Hg as [-> Hx]; [|len].
  cbn [app length] in *. rewrite Hx in H by done. gen_rw H.
  remember (stmts_code regs types (p_body p) 0) as c eqn:Ec.
  assert (HL : length (resolve c ++ [halt]) = length (c ++ [Ins halt])) by len.
  rewrite add_exits_nil in H. apply functions_emit in H; rewrite HL in *; [|len].
  destruct H as [-> ->]. split; [f_equal; app_eq | done].
Qed.
End statements.

Lemma compile_ast_layout p prog :
  small (length (layout p)) → compile_ast p = Some (Ok prog) →
  instructions prog = resolve (layout p)
  ∧ prog_signals prog = store_bindings (types_of p) ∅ (resolve (layout p))
  ∧ function_table prog
    = function_entries (regs_of p) (types_of p) (functions p) (length (main_code (regs_of p) (types_of p) p)).
Proof.
  unfold layout, regs_of, types_of, compile_ast, codegen_new. intros Hs.
  destruct (_ <? _)%nat; [done|]. destruct (assign_registers 0 (p_variables p) ∅ ∅) as [regs types].
  cbn [fst snd] in *. change (mkGen regs types [] [true; true; true] []) with (st regs types [] 0 []).
  destruct (compile_program p (st regs types [] 0 [])) as [[[es g]|]|] eqn:E; intros H; try done.
  apply program_emits in E as [-> ->]; [|done]. by injection H as <-.
Qed.

(** [C4] Backpatching is layout: whenever the compiler returns a program of
    fewer than 2^32 instructions, its code - emitted with jumps to 0 that are
    patched when their target becomes known, through nested IF, WHILE, FOR,
    REPEAT, CASE and EXIT - is the code laid out with every target computed
    from the lengths of the phrases, its function table holds the address of
    each function's code, and its signal bindings are its Store instructions'. *)
Theorem generator_is_layout p prog :
  small (length (layout p)) → compile_ast p = Some (Ok prog) →
  instructions prog = resolve (layout p)
  ∧ prog_signals prog = store_bindings (types_of p) ∅ (resolve (layout p))
  ∧ function_table prog
    = function_entries (regs_of p) (types_of p) (functions p) (length (main_code (regs_of p) (types_of p) p)).
Proof. apply compile_ast_layout. Qed.
