(* ===== verification/StSemantics.v ===== *)
(** * A source semantics for Structured Text over DINT variables

    What a program of the fragment means, without registers, jumps or scratch
    space: integer expressions, comparisons, assignments, IF, WHILE, REPEAT,
    FOR, CASE, EXIT and RETURN.  [StCorrect] proves that compiled programs
    behave this way. *)
From S2P Require Import Prelude HalTypes HalValue HalIr StParser StCodegen.
Local Open Scope Z_scope.

(** The values of the variables. *)
Abbreviation Env := (gmap string Z) (only parsing).
Definition env_wf (ρ : Env) : Prop := map_Forall (λ _ v, in_s 32 v = true) ρ.

Section profile.
Context `{BuildProfile}.

(** A division by zero gives zero; overflow panics or wraps with the build. *)
Definition arith_op (op : BinOp) (a b : Z) : option Z :=
  match op with
  | Add => int_add true 32 a b
  | Sub => int_sub true 32 a b
  | Mul => int_mul true 32 a b
  | Div => if b =? 0 then Some 0 else int_div true 32 a b
  | Mod_ => if b =? 0 then Some 0 else int_rem true 32 a b
  | _ => None
  end.

Fixpoint eval (ρ : Env) (e : Expr) : option Z :=
  match e with
  | IntLiteral n => Some (wrap_s 32 n)
  | Variable_ x => ρ !! x
  | Binary l op r => a ← eval ρ l; b ← eval ρ r; arith_op op a b
  | Unary Neg e => a ← eval ρ e; int_sub true 32 0 a
  | _ => None
  end.

Definition compare_op (op : BinOp) (a b : Z) : option bool :=
  match op with
  | Eq_ => Some (a =? b) | Neq => Some (negb (a =? b))
  | Gt_ => Some (b <? a) | Lt_ => Some (a <? b)
  | Gte => Some (b <=? a) | Lte => Some (a <=? b)
  | _ => None
  end.

(** A condition is one comparison. *)
Definition holds (ρ : Env) (c : Expr) : option bool :=
  match c with
  | Binary l op r => a ← eval ρ l; b ← eval ρ r; compare_op op a b
  | _ => None
  end.

(** How a statement ends. *)
Inductive Ending := Next | Exited | Returned.

(** The arm of a CASE that the value selects. *)
Fixpoint select (v : Z) (cases : list (list Z * list Statement)) : option (list Statement) :=
  match cases with
  | [] => None
  | (values, body) :: cases =>
      if existsb (fun n => v =? wrap_s 32 n) values then Some body else select v cases
  end.

Definition step_value (ρ : Env) (step : option Expr) : option Z :=
  match step with Some e => eval ρ e | None => Some 1 end.

(** A loop stops at [EXIT] and passes [RETURN] on. *)
Definition after_loop (o : Ending) : Ending := match o with Exited => Next | o => o end.

(** [runs ρ s ρ' w o]: the statement, from values [ρ], writes the outputs [w]
    in order and ends with [ρ'] and [o]. *)
Inductive runs : Env → Statement → Env → list (string * HalValue) → Ending → Prop :=
  | run_assign ρ x e v :
      eval ρ e = Some v → runs ρ (Assign x e) (<[x := v]> ρ) [(x, VS32 v)] Next
  | run_exit ρ : runs ρ Exit_ ρ [] Exited
  | run_return ρ : runs ρ Return_ ρ [] Returned
  | run_if ρ c t e (b : bool) ρ' w o :
      holds ρ c = Some b → runs_all ρ (if b then t else e) ρ' w o → runs ρ (If_ c t e) ρ' w o
  | run_while_done ρ c body :
      holds ρ c = Some false → runs ρ (While_ c body) ρ [] Next
  | run_while_stop ρ c body ρ' w o :
      holds ρ c = Some true → runs_all ρ body ρ' w o → o ≠ Next →
      runs ρ (While_ c body) ρ' w (after_loop o)
  | run_while_again ρ c body ρ1 w1 ρ2 w2 o :
      holds ρ c = Some true → runs_all ρ body ρ1 w1 Next → runs ρ1 (While_ c body) ρ2 w2 o →
      runs ρ (While_ c body) ρ2 (w1 ++ w2) o
  | run_repeat_stop ρ body c ρ' w o :
      runs_all ρ body ρ' w o → o ≠ Next → runs ρ (Repeat_ body c) ρ' w (after_loop o)
  | run_repeat_done ρ body c ρ' w :
      runs_all ρ body ρ' w Next → holds ρ' c = Some true → runs ρ (Repeat_ body c) ρ' w Next
  | run_repeat_again ρ body c ρ1 w1 ρ2 w2 o :
      runs_all ρ body ρ1 w1 Next → holds ρ1 c = Some false → runs ρ1 (Repeat_ body c) ρ2 w2 o →
      runs ρ (Repeat_ body c) ρ2 (w1 ++ w2) o
  | run_for ρ x start stop step body v ρ' w o :
      eval ρ start = Some v → runs_for x stop step body (<[x := v]> ρ) ρ' w o →
      runs ρ (For_ x start stop step body) ρ' w o
  | run_case ρ x cases els v ρ' w o :
      ρ !! x = Some v → runs_all ρ (default els (select v cases)) ρ' w o →
      runs ρ (Case_ x cases els) ρ' w o
with runs_all : Env → list Statement → Env → list (string * HalValue) → Ending → Prop :=
  | run_nil ρ : runs_all ρ [] ρ [] Next
  | run_stop ρ s ss ρ' w o : runs ρ s ρ' w o → o ≠ Next → runs_all ρ (s :: ss) ρ' w o
  | run_cons ρ s ss ρ1 w1 ρ2 w2 o :
      runs ρ s ρ1 w1 Next → runs_all ρ1 ss ρ2 w2 o → runs_all ρ (s :: ss) ρ2 (w1 ++ w2) o
with runs_for : string → Expr → option Expr → list Statement →
    Env → Env → list (string * HalValue) → Ending → Prop :=
  | for_done x stop step body ρ v limit :
      ρ !! x = Some v → eval ρ stop = Some limit → (v <=? limit) = false →
      runs_for x stop step body ρ ρ [] Next
  | for_stop x stop step body ρ v limit ρ' w o :
      ρ !! x = Some v → eval ρ stop = Some limit → (v <=? limit) = true →
      runs_all ρ body ρ' w o → o ≠ Next → runs_for x stop step body ρ ρ' w (after_loop o)
  | for_again x stop step body ρ v limit ρ1 w1 k v1 v2 ρ2 w2 o :
      ρ !! x = Some v → eval ρ stop = Some limit → (v <=? limit) = true →
      runs_all ρ body ρ1 w1 Next → ρ1 !! x = Some v1 → step_value ρ1 step = Some k →
      int_add true 32 v1 k = Some v2 →
      runs_for x stop step body (<[x := v2]> ρ1) ρ2 w2 o →
      runs_for x stop step body ρ ρ2 (w1 ++ w2) o.

Scheme runs_ind' := Induction for runs Sort Prop
  with runs_all_ind' := Induction for runs_all Sort Prop
  with runs_for_ind' := Induction for runs_for Sort Prop.
Combined Scheme runs_mutind from runs_ind', runs_all_ind', runs_for_ind'.

(** ** The semantics as a program

    The values, the outputs and the ending; [None] when the fuel runs out or
    the source has no meaning (an overflow, an unknown variable). *)
Abbreviation Result := (option (gmap string Z * list (string * HalValue) * Ending)) (only parsing).

(** Go on after [r] with what [k] makes of its values if it ended normally. *)
Definition and_then (r : Result) (k : gmap string Z → Result) : Result :=
  '(ρ, w, o) ← r;
  match o with
  | Next => '(ρ', w', o') ← k ρ; Some (ρ', w ++ w', o')
  | _ => Some (ρ, w, o)
  end.
Definition leave_loop (r : Result) : Result := '(ρ, w, o) ← r; Some (ρ, w, after_loop o).
(** One round of a loop, then [again]. *)
Definition round (body : Result) (again : gmap string Z → Result) : Result :=
  '(ρ, w, o) ← body;
  match o with
  | Next => '(ρ', w', o') ← again ρ; Some (ρ', w ++ w', o')
  | _ => Some (ρ, w, after_loop o)
  end.

Fixpoint interp (fuel : nat) (ρ : Env) (s : Statement) : Result :=
  match fuel with
  | O => None
  | S fuel =>
      match s with
      | Assign x e => v ← eval ρ e; Some (<[x := v]> ρ, [(x, VS32 v)], Next)
      | Exit_ => Some (ρ, [], Exited)
      | Return_ => Some (ρ, [], Returned)
      | If_ c t e => b ← holds ρ c; interp_all fuel ρ (if b : bool then t else e)
      | While_ c body =>
          b ← holds ρ c;
          if b : bool then round (interp_all fuel ρ body) (fun ρ => interp fuel ρ s) else Some (ρ, [], Next)
      | Repeat_ body c =>
          round (interp_all fuel ρ body)
            (fun ρ => b ← holds ρ c; if b : bool then Some (ρ, [], Next) else interp fuel ρ s)
      | For_ x start stop step body =>
          v ← eval ρ start; interp_for fuel x stop step body (<[x := v]> ρ)
      | Case_ x cases els => v ← ρ !! x; interp_all fuel ρ (default els (select v cases))
      | _ => None
      end
  end
with interp_all (fuel : nat) (ρ : Env) (ss : list Statement) : Result :=
  match fuel with
  | O => None
  | S fuel =>
      match ss with
      | [] => Some (ρ, [], Next)
      | s :: ss => and_then (interp fuel ρ s) (fun ρ => interp_all fuel ρ ss)
      end
  end
with interp_for (fuel : nat) (x : string) (stop : Expr) (step : option Expr) (body : list Statement)
    (ρ : Env) : Result :=
  match fuel with
  | O => None
  | S fuel =>
      v ← ρ !! x; limit ← eval ρ stop;
      if v <=? limit then
        round (interp_all fuel ρ body)
          (fun ρ => v ← ρ !! x; k ← step_value ρ step; v ← int_add true 32 v k;
                    interp_for fuel x stop step body (<[x := v]> ρ))
      else Some (ρ, [], Next)
  end.

(** Take apart [m ≫= f = Some r] and the test on an ending in [H]. *)
Ltac take H :=
  repeat match type of H with
    | (?m ≫= _) = Some _ => let E := fresh "E" in destruct m eqn:E in H; cbn [mbind option_bind] in H; [|done]
    | (let '(_, _) := ?p in _) = Some _ => destruct p
    | (match ?o with Next => _ | Exited => _ | Returned => _ end) = Some _ => destruct o
    | Some _ = Some _ => injection H as <- <- <-
    end.

Lemma interp_sound fuel :
  (∀ ρ s ρ' w o, interp fuel ρ s = Some (ρ', w, o) → runs ρ s ρ' w o)
  ∧ (∀ ρ ss ρ' w o, interp_all fuel ρ ss = Some (ρ', w, o) → runs_all ρ ss ρ' w o)
  ∧ (∀ x stop step body ρ ρ' w o, interp_for fuel x stop step body ρ = Some (ρ', w, o) →
       runs_for x stop step body ρ ρ' w o).
Proof.
  induction fuel as [|fuel (IHs & IHa & IHf)]; [done|]. split_and!.
  - intros ρ s ρ' w o Hr. destruct s as [x e|c t e|c body|x a b k body|x cs e|body c| | |f args|x i v];
      cbn [interp] in Hr; try done; unfold round in Hr.
    + take Hr. by constructor.
    + take Hr. econstructor; eauto.
    + take Hr. destruct b; [|take Hr; by apply run_while_done]. take Hr.
      * eapply run_while_again; eauto.
      * apply (run_while_stop _ _ _ _ _ Exited); auto.
      * apply (run_while_stop _ _ _ _ _ Returned); auto.
    + take Hr. econstructor; eauto.
    + take Hr. econstructor; eauto.
    + take Hr.
      * take E0. destruct b; take E0; [|eapply run_repeat_again; eauto].
        rewrite app_nil_r. apply run_repeat_done; auto.
      * apply (run_repeat_stop _ _ _ _ _ Exited); auto.
      * apply (run_repeat_stop _ _ _ _ _ Returned); auto.
    + take Hr. constructor.
    + take Hr. constructor.
  - intros ρ ss ρ' w o Hr. destruct ss as [|s ss]; cbn [interp_all] in Hr; unfold and_then in Hr; take Hr.
    + constructor.
    + eapply run_cons; eauto.
    + apply run_stop; auto.
    + apply run_stop; auto.
  - intros x stop step body ρ ρ' w o Hr. cbn [interp_for] in Hr. unfold round in Hr.
    do 2 (match type of Hr with (?m ≫= _) = _ => destruct m eqn:? in Hr end; cbn [mbind option_bind] in Hr; [|done]).
    destruct (_ <=? _) eqn:Hle; [|take Hr; by eapply for_done]. take Hr.
    + take E0. eapply for_again; eauto.
    + eapply (for_stop _ _ _ _ _ _ _ _ _ Exited); eauto.
    + eapply (for_stop _ _ _ _ _ _ _ _ _ Returned); eauto.
Qed.
End profile.

(** ** The fragment *)
Fixpoint expr_vars (e : Expr) : list string :=
  match e with
  | Variable_ x => [x]
  | Binary l _ r => expr_vars l ++ expr_vars r
  | Unary _ e => expr_vars e
  | _ => []
  end.

(** Integer expressions that need at most [n] scratch registers. *)
Fixpoint arith_expr (n : nat) (e : Expr) : bool :=
  match e with
  | IntLiteral _ | Variable_ _ => true
  | Binary l op r =>
      match n with
      | O => false
      | S n' => bool_decide (is_Some (op_to_arith_opcode op)) && arith_expr n l && arith_expr n' r
      end
  | Unary Neg e => match n with O => false | S _ => arith_expr n e end
  | _ => false
  end.

(** The variable [x] may be computed in place: no right operand reads it. *)
Fixpoint in_place (x : string) (e : Expr) : bool :=
  match e with
  | Binary l _ r => in_place x l && negb (bool_decide (x ∈ expr_vars r))
  | Unary _ e => in_place x e
  | _ => true
  end.

(** A comparison of two integer expressions, the right one computed first. *)
Definition comparison (c : Expr) : bool :=
  match c with
  | Binary l op r => is_cmp_op op && arith_expr 2 r && arith_expr 1 l
  | _ => false
  end.

Section fragment.
Context (vars : list string).
Definition scoped (e : Expr) : bool := forallb (fun x => bool_decide (x ∈ vars)) (expr_vars e).
Definition known (x : string) : bool := bool_decide (x ∈ vars).

Fixpoint fragment (s : Statement) : bool :=
  match s with
  | Assign x e => known x && scoped e && arith_expr 3 e && in_place x e
  | If_ c t e => comparison c && scoped c && forallb fragment t && forallb fragment e
  | While_ c b => comparison c && scoped c && forallb fragment b
  | Repeat_ b c => forallb fragment b && comparison c && scoped c
  | For_ x start stop step b =>
      known x && scoped start && arith_expr 3 start && in_place x start && scoped stop && arith_expr 2 stop
      && match step with Some e => scoped e && arith_expr 2 e | None => true end && forallb fragment b
  | Case_ x cs e => known x && forallb (fun '(_, b) => forallb fragment b) cs && forallb fragment e
  | Return_ | Exit_ => true
  | FunCall _ _ | ArrayAssign _ _ _ => false
  end.
End fragment.
