(* ===== verification/StExprRun.v ===== *)
(** * Running compiled expressions and comparisons *)
From S2P Require Import Prelude Float StParser StCodegen StLayout StSemantics.
From S2P Require Import HalTypes HalValue HalIr FunctionBlocks Vm Executor ExecutorFacts ExecutorControl StraightLine.
Local Open Scope Z_scope.

(** The variables of the fragment: DINTs in distinct registers below the
    scratch registers. *)
Record variables_ok (regs : gmap string nat) (types : gmap string VarType) (vars : list string) : Prop := {
  reg_low : ∀ x, x ∈ vars → (reg_of regs x < MAX_VAR_REGS)%nat;
  reg_inj : ∀ x y, x ∈ vars → y ∈ vars → reg_of regs x = reg_of regs y → x = y;
  var_dint : ∀ x, x ∈ vars → zero_of (type_of types x) = VS32 0 }.

(** The registers hold the values of [ρ]. *)
Definition agree (regs : gmap string nat) (ρ : gmap string Z) (m : Vm) (xs : list string) : Prop :=
  ∀ x v, x ∈ xs → ρ !! x = Some v → read_register m (reg_of regs x) = Some (VS32 v).

(** Only register [d] and the scratch registers from the [k]-th on changed. *)
Record kept (k d : nat) (m m' : Vm) : Prop := {
  kept_reg : ∀ r, r ≠ d → (∀ j, (k ≤ j < 3)%nat → r ≠ scratch j) → read_register m' r = read_register m r;
  kept_len : length (registers m') = length (registers m);
  kept_signals : signals m' = signals m;
  kept_stack : call_stack m' = call_stack m }.

Lemma scratch_inj i j : (i < 3)%nat → (j < 3)%nat → scratch i = scratch j → i = j.
Proof. destruct i as [|[|[|i]]], j as [|[|[|j]]]; cbn; unfold SCRATCH0, SCRATCH1, SCRATCH2; lia. Qed.
Lemma scratch_high j : (j < 3)%nat → (MAX_VAR_REGS ≤ scratch j < REGISTER_COUNT)%nat.
Proof. destruct j as [|[|[|j]]]; cbn; unfold MAX_VAR_REGS, REGISTER_COUNT, SCRATCH0, SCRATCH1, SCRATCH2; lia. Qed.

Lemma kept_refl k d m : kept k d m m.
Proof. done. Qed.
Lemma kept_trans k d m1 m2 m3 : kept k d m1 m2 → kept k d m2 m3 → kept k d m1 m3.
Proof.
  intros [H1 L1 S1 C1] [H2 L2 S2 C2]. split; try congruence.
  intros r Hd Hj. by rewrite H2, H1.
Qed.
(** Work in a fresh scratch register, seen from outside. *)
Lemma kept_scratch k d m m' : (k < 3)%nat → kept (S k) (scratch k) m m' → kept k d m m'.
Proof.
  intros Hk [H1 L1 S1 C1]. split; auto. intros r Hd Hj. apply H1.
  - apply Hj. lia.
  - intros j Hj'. apply Hj. lia.
Qed.
Lemma kept_set k d m v : kept k d m (advance_ip (set_reg m d v)).
Proof.
  split; auto.
  - intros r Hr _. change (read_register (set_reg m d v) r = read_register m r). by apply read_set_other.
  - apply set_reg_length.
Qed.
Lemma kept_set_scratch k d m v : (k < 3)%nat → kept k d m (advance_ip (set_reg m (scratch k) v)).
Proof. intros Hk. apply (kept_scratch k d); [done | apply kept_set]. Qed.

Lemma exec_one `{BuildProfile} m i m' :
  is_jump (opcode i) = false → execute_instruction m i = cont m' → exec_seq m [i] = Some (advance_ip m').
Proof. intros Hj He. cbn. by rewrite Hj, He. Qed.

Section profile.
Context `{BuildProfile}.

(** ** Values *)
Lemma arith_op_in op a b r :
  in_s 32 a = true → in_s 32 b = true → arith_op op a b = Some r → in_s 32 r = true.
Proof.
  intros Ha Hb. destruct op; try done; cbn.
  - apply (int_add_closed true 32); [lia | done..].
  - apply (int_sub_closed true 32); [lia | done..].
  - apply (int_mul_closed true 32); [lia | done..].
  - case_match; [by intros [= <-]|]. apply (int_div_closed true 32); [lia | done..].
  - case_match; [by intros [= <-]|]. apply (int_rem_closed true 32); [lia | done..].
Qed.
Lemma eval_in ρ e v : env_wf ρ → eval ρ e = Some v → in_s 32 v = true.
Proof.
  intros Hρ. revert v. induction e as [n| | |x|l IHl op r IHr|[] e IH| |]; intros v; cbn; try done.
  - intros [= <-]. by apply wrap_s_in.
  - intros Hx. exact (Hρ x v Hx).
  - destruct (eval ρ l) as [a|]; [|done]. destruct (eval ρ r) as [b|]; [|done]. cbn.
    apply arith_op_in; auto.
  - destruct (eval ρ e) as [a|]; [|done]. cbn. apply (int_sub_closed true 32); [lia | done | auto].
Qed.

Lemma arith_opcode_runs op o m a b d x y v :
  op_to_arith_opcode op = Some o → (d < REGISTER_COUNT)%nat →
  read_register m a = Some (VS32 x) → read_register m b = Some (VS32 y) → arith_op op x y = Some v →
  execute_instruction m (arith_inst o a b d) = cont (set_reg m d (VS32 v)).
Proof.
  intros Ho Hd Ha Hb Hv.
  destruct op; try done; injection Ho as <-; cbn in Hv; unfold arith_inst.
  - apply (exec_binop_reg m OpAdd hal_add a b d (VS32 x) (VS32 y)); try done. cbn. by rewrite Hv.
  - apply (exec_binop_reg m OpSub hal_sub a b d (VS32 x) (VS32 y)); try done. cbn. by rewrite Hv.
  - apply (exec_binop_reg m OpMul hal_mul a b d (VS32 x) (VS32 y)); try done. cbn. by rewrite Hv.
  - apply (exec_binop_reg m OpDiv guarded_div a b d (VS32 x) (VS32 y)); try done.
    unfold guarded_div, is_guarded_zero. cbn. rewrite !orb_false_r.
    destruct (y =? 0); [by injection Hv as <-|]. by rewrite Hv.
  - apply (exec_binop_reg m OpMod guarded_rem a b d (VS32 x) (VS32 y)); try done.
    unfold guarded_rem, is_guarded_zero. cbn. rewrite !orb_false_r.
    destruct (y =? 0); [by injection Hv as <-|]. by rewrite Hv.
Qed.

Context (regs : gmap string nat) (types : gmap string VarType) (vars : list string).
Context (Hok : variables_ok regs types vars).
Local Abbreviation expr_code := (expr_code regs types) (only parsing).

(** Register [d] is read by no right operand. *)
Fixpoint place_ok (d : nat) (e : Expr) : Prop :=
  match e with
  | Binary l _ r => place_ok d l ∧ ∀ x, x ∈ expr_vars r → reg_of regs x ≠ d
  | Unary _ e => place_ok d e
  | _ => True
  end.
Lemma place_scratch j e : (j < 3)%nat → (∀ x, x ∈ expr_vars e → x ∈ vars) → place_ok (scratch j) e.
Proof.
  intros Hj. induction e as [| | | |l IHl op r IHr|op e IH| |]; cbn [place_ok expr_vars in_place]; intros Hv; auto.
  split; [set_solver|]. intros x Hx E.
  pose proof (reg_low _ _ _ Hok x ltac:(set_solver)). pose proof (scratch_high j Hj). lia.
Qed.
Lemma place_var x e :
  x ∈ vars → (∀ y, y ∈ expr_vars e → y ∈ vars) → in_place x e = true → place_ok (reg_of regs x) e.
Proof.
  intros Hx. induction e as [| | | |l IHl op r IHr|op e IH| |]; cbn [place_ok expr_vars in_place]; intros Hv; auto.
  rewrite andb_true_iff, negb_true_iff, bool_decide_eq_false. intros [Hl Hr].
  split; [apply IHl; [set_solver | done]|]. intros y Hy E.
  apply (reg_inj _ _ _ Hok) in E as ->; [done | set_solver | done].
Qed.

Lemma agree_kept ρ m m' xs k d :
  (∀ x, x ∈ xs → x ∈ vars) → (∀ x, x ∈ xs → reg_of regs x ≠ d) → kept k d m m' →
  agree regs ρ m xs → agree regs ρ m' xs.
Proof.
  intros Hv Hd Hk Ha x v Hx E. rewrite (kept_reg _ _ _ _ Hk); [by apply Ha | by apply Hd |].
  intros j Hj Ej. pose proof (reg_low _ _ _ Hok x (Hv x Hx)). pose proof (scratch_high j ltac:(lia)). lia.
Qed.

Definition runs_to (ρ : gmap string Z) (e : Expr) (n k d : nat) (m : Vm) (v : Z) (code : list Instruction) : Prop :=
  ∃ m', exec_seq m code = Some m' ∧ read_register m' d = Some (VS32 v) ∧ kept k d m m'.

(** What an expression's code asks for. *)
Record ready (ρ : gmap string Z) (e : Expr) (n k d : nat) (m : Vm) : Prop := {
  rd_count : (n + k = 3)%nat;
  rd_arith : arith_expr n e = true;
  rd_vars : ∀ x, x ∈ expr_vars e → x ∈ vars;
  rd_dest : (d < REGISTER_COUNT)%nat;
  rd_free : ∀ j, (k ≤ j < 3)%nat → d ≠ scratch j;
  rd_place : place_ok d e;
  rd_len : length (registers m) = REGISTER_COUNT;
  rd_agree : agree regs ρ m (expr_vars e);
  rd_env : env_wf ρ }.

Lemma literal_runs ρ e n k d m v z :
  ready ρ e n k d m → z = VS32 v → runs_to ρ e n k d m v [load_imm d z].
Proof.
  intros [] ->. exists (advance_ip (set_reg m d (VS32 v))). split_and!.
  - apply exec_one; [done|]. by apply exec_load_imm.
  - by apply read_set_same.
  - apply kept_set.
Qed.

Lemma variable_runs ρ x n k d m v pc :
  ready ρ (Variable_ x) n k d m → ρ !! x = Some v →
  runs_to ρ (Variable_ x) n k d m v (expr_code (Variable_ x) pc k d).
Proof.
  intros [Hn He Hv Hd Hf Hp Hl Ha Hw] Hx. cbn [StLayout.expr_code].
  assert (Hr : read_register m (reg_of regs x) = Some (VS32 v)) by (apply Ha; [cbn; set_solver | done]).
  destruct (Nat.eqb_spec (reg_of regs x) d) as [<-|Hne].
  { exists m. split_and!; [done..|apply kept_refl]. }
  rewrite (var_dint _ _ _ Hok) by (apply Hv; cbn; set_solver).
  set (m1 := advance_ip (set_reg m d (VS32 0))).
  exists (advance_ip (set_reg m1 d (VS32 v))). split_and!.
  - change [?a; ?b] with ([a] ++ [b]). rewrite exec_seq_app, (exec_one m _ (set_reg m d (VS32 0))); [|done|by apply exec_load_imm].
    cbn [mbind option_bind]. apply exec_one; [done|].
    apply (exec_binop_reg m1 OpAdd hal_add _ _ _ (VS32 v) (VS32 0)); try done.
    + unfold m1. by rewrite read_advance, read_set_other.
    + unfold m1. rewrite read_advance. by apply read_set_same.
    + cbn. unfold int_add, arith. cbn [in_int]. rewrite Z.add_0_r, (Hw x v Hx). done.
  - rewrite read_advance. apply read_set_same; [|done]. unfold m1. cbn. by rewrite length_insert.
  - eapply kept_trans; apply kept_set.
Qed.

(** An operand in the next scratch register. *)
Lemma ready_scratch ρ e n k m :
  (k < 3)%nat → (n + S k = 3)%nat → arith_expr n e = true → (∀ x, x ∈ expr_vars e → x ∈ vars) →
  length (registers m) = REGISTER_COUNT → agree regs ρ m (expr_vars e) → env_wf ρ →
  ready ρ e n (S k) (scratch k) m.
Proof.
  intros Hk Hn He Hv Hl Ha Hw. split; auto.
  - apply scratch_high; lia.
  - intros j Hj E. apply scratch_inj in E; lia.
  - by apply place_scratch.
Qed.

Lemma exec_seq_snoc m c i m1 m2 :
  exec_seq m c = Some m1 → is_jump (opcode i) = false → execute_instruction m1 i = cont m2 →
  exec_seq m (c ++ [i]) = Some (advance_ip m2).
Proof. intros Hc Hj Hi. rewrite exec_seq_app, Hc. cbn [mbind option_bind]. by apply exec_one. Qed.

Lemma arith_not_jump op o : op_to_arith_opcode op = Some o → is_jump o = false.
Proof. by destruct op; intros [= <-]. Qed.

Lemma expr_runs e : ∀ ρ n k d m v pc,
  ready ρ e n k d m → eval ρ e = Some v → runs_to ρ e n k d m v (expr_code e pc k d).
Proof.
  induction e as [z| | |x|l IHl op r IHr|[] e IH| |]; intros ρ n k d m v pc Hr Hv; try done.
  - injection Hv as <-. by eapply literal_runs.
  - by apply variable_runs.
  - destruct Hr as [Hn He Hvs Hd Hf [Hp Hp2] Hl Ha Hw]. cbn [arith_expr expr_vars eval StLayout.expr_code] in *.
    destruct n as [|n]; [done|]. rewrite !andb_true_iff, bool_decide_eq_true in He. destruct He as [[[o Ho] He1] He2].
    rewrite Ho. destruct (eval ρ l) as [a|] eqn:Ea; [|done]. destruct (eval ρ r) as [b|] eqn:Eb; [|done].
    cbn [mbind option_bind] in Hv. assert (Hk : (k < 3)%nat) by lia.
    destruct (IHl ρ (S n) k d m a pc) as (m1 & X1 & R1 & K1); [|done|].
    { split; auto; [set_solver | intros x y Hx; apply Ha; set_solver]. }
    destruct (IHr ρ n (S k) (scratch k) m1 b (pc + length (expr_code l pc k d))%nat) as (m2 & X2 & R2 & K2); [|done|].
    { apply ready_scratch; [done | lia | done | set_solver | by rewrite (kept_len _ _ _ _ K1) | | done].
      eapply agree_kept; [set_solver | exact Hp2 | exact K1 | intros x y Hx; apply Ha; set_solver]. }
    exists (advance_ip (set_reg m2 d (VS32 v))). split_and!.
    + rewrite exec_seq_app, X1. cbn [mbind option_bind]. eapply exec_seq_snoc; [exact X2 | by eapply arith_not_jump |].
      eapply arith_opcode_runs; eauto. rewrite (kept_reg _ _ _ _ K2); [done | |].
      * apply Hf. lia.
      * intros j Hj. apply Hf. lia.
    + rewrite read_advance. apply read_set_same; [|done].
      by rewrite (kept_len _ _ _ _ K2), (kept_len _ _ _ _ K1).
    + eapply kept_trans; [exact K1|]. eapply kept_trans; [by apply kept_scratch, K2|]. apply kept_set.
  - destruct Hr as [Hn He Hvs Hd Hf Hp Hl Ha Hw]. cbn [arith_expr expr_vars eval StLayout.expr_code place_ok] in *.
    destruct n as [|n]; [done|]. destruct (eval ρ e) as [a|] eqn:Ea; [|done]. cbn [mbind option_bind] in Hv.
    assert (Hk : (k < 3)%nat) by lia.
    destruct (IH ρ (S n) k d m a pc) as (m1 & X1 & R1 & K1); [by split | done |].
    set (m2 := advance_ip (set_reg m1 (scratch k) (VS32 0))).
    pose proof (scratch_high k Hk) as [_ Hs]. assert (Hds : scratch k ≠ d) by (intros E; apply (Hf k); [lia | done]).
    exists (advance_ip (set_reg m2 d (VS32 v))). split_and!.
    + change [?i; ?j] with ([i] ++ [j]). rewrite (assoc_L (++)). eapply exec_seq_snoc.
      * eapply exec_seq_snoc; [exact X1 | done | by apply exec_load_imm].
      * done.
      * apply (exec_binop_reg m2 OpSub hal_sub _ _ _ (VS32 0) (VS32 a)); try done.
        -- unfold m2. rewrite read_advance. apply read_set_same; [by rewrite (kept_len _ _ _ _ K1) | done].
        -- unfold m2. by rewrite read_advance, read_set_other.
        -- cbn. by rewrite Hv.
    + rewrite read_advance. apply read_set_same; [|done]. unfold m2. cbn. by rewrite length_insert, (kept_len _ _ _ _ K1).
    + eapply kept_trans; [exact K1|]. eapply kept_trans; [apply (kept_set_scratch k d m1 (VS32 0)); lia | apply kept_set].
Qed.

(** ** Comparisons *)
Definition compare_fn (o : Opcode) : HalValue → HalValue → bool :=
  match o with
  | OpEq => hal_eqb | OpNeq => (fun a b => negb (hal_eqb a b)) | OpGt => value_gt
  | OpLt => value_lt | OpGte => value_ge | _ => value_le
  end.
Lemma cmp_runs op m a b x y r :
  compare_op op x y = Some r → read_register m a = Some (VS32 x) → read_register m b = Some (VS32 y) →
  execute_instruction m (cmp_inst (cmp_opcode op) a b) = cont (set_flags_zero m r).
Proof.
  intros Hc Ha Hb. unfold execute_instruction, cmp_inst, exec_compare, read_reg.
  assert (G : ∀ (z1 z2 : Z), z1 > z2 ↔ z2 < z1) by lia.
  destruct op; try done; injection Hc as <-; cbn -[read_register]; rewrite Ha; cbn -[read_register]; rewrite Hb;
    cbn -[read_register]; unfold cont; do 3 f_equal;
    unfold value_gt, value_lt, value_ge, value_le, hal_partial_cmp;
    destruct (Z.compare_spec x y); symmetry; rewrite ?Z.ltb_lt, ?Z.leb_le, ?Z.ltb_ge, ?Z.leb_gt; lia.
Qed.

Definition cmp_code (c : Expr) (pc : nat) : list Instruction :=
  match c with
  | Binary l op r => compare_code (expr_code r) (expr_code l) op pc 0
  | _ => []
  end.

Lemma compare_runs ρ c m pc b :
  comparison c = true → (∀ x, x ∈ expr_vars c → x ∈ vars) → holds ρ c = Some b →
  length (registers m) = REGISTER_COUNT → agree regs ρ m (expr_vars c) → env_wf ρ →
  ∃ m', exec_seq m (cmp_code c pc) = Some m' ∧ flags_zero m' = b ∧ kept 0 (scratch 0) m m'.
Proof.
  destruct c as [| | | |l op r| | |]; try done. cbn [comparison holds expr_vars cmp_code]. unfold compare_code.
  rewrite !andb_true_iff. intros [[_ Hr] Hl] Hv Hh Hlen Ha Hw.
  destruct (eval ρ l) as [x|] eqn:Ex; [|done]. destruct (eval ρ r) as [y|] eqn:Ey; [|done].
  cbn [mbind option_bind] in Hh.
  destruct (expr_runs r ρ 2 1 (scratch 0) m y pc) as (m1 & X1 & R1 & K1); [|done|].
  { apply ready_scratch; try done; [lia | set_solver | intros z v Hz; apply Ha; set_solver]. }
  destruct (expr_runs l ρ 1 2 (scratch 1) m1 x (pc + length (expr_code r pc 1 (scratch 0)))%nat)
    as (m2 & X2 & R2 & K2); [|done|].
  { apply ready_scratch; try done; [lia | set_solver | by rewrite (kept_len _ _ _ _ K1) |].
    eapply agree_kept; [| |exact K1|intros z v Hz; apply Ha; set_solver]; [set_solver|].
    intros z Hz E. pose proof (reg_low _ _ _ Hok z ltac:(set_solver)). pose proof (scratch_high 0 ltac:(lia)). lia. }
  exists (advance_ip (set_flags_zero m2 b)). split_and!; [|done|].
  - rewrite exec_seq_app, X1. cbn [mbind option_bind]. eapply exec_seq_snoc; [exact X2 | by destruct op |].
    eapply cmp_runs; [done..|]. rewrite (kept_reg _ _ _ _ K2); [done | |].
    + intros E. apply scratch_inj in E; lia.
    + intros j Hj E. apply scratch_inj in E; lia.
  - apply (kept_trans _ _ _ m1); [by apply kept_scratch; [lia|]|].
    assert (kept 0 (scratch 0) m1 m2) as [] by (apply kept_scratch; [lia|]; apply kept_scratch; [lia | done]).
    by split.
Qed.

(** ** The code is straight-line. *)
Definition plain (i : Instruction) : bool := is_data_op (opcode i) || bool_decide (opcode i = OpStore).
Lemma expr_plain e n pc k d : arith_expr n e = true → forallb plain (expr_code e pc k d) = true.
Proof.
  revert n pc k d. induction e as [z| | |x|l IHl op r IHr|[] e IH| |]; intros n pc k d; try done; cbn [arith_expr StLayout.expr_code].
  - by destruct (_ =? _)%nat.
  - destruct n as [|n]; [done|]. rewrite !andb_true_iff, bool_decide_eq_true. intros [[[o Ho] Hl] Hr].
    rewrite Ho, !forallb_app, (IHl (S n)), (IHr n) by done. destruct op; try done; by injection Ho as <-.
  - destruct n as [|n]; [done|]. intros He. by rewrite forallb_app, (IH (S n)).
Qed.
Lemma cmp_plain c pc : comparison c = true → forallb plain (cmp_code c pc) = true.
Proof.
  destruct c as [| | | |l op r| | |]; try done. cbn [comparison cmp_code]. unfold compare_code.
  rewrite !andb_true_iff. intros [[_ Hr] Hl]. rewrite !forallb_app, (expr_plain r 2), (expr_plain l 1) by done.
  by destruct op.
Qed.
End profile.
