(* ===== verification/StCorrect.v ===== *)
(** * Compiled Structured Text behaves as its source

    A simulation of [StSemantics] by the interpreter running the code of
    [StLayout], and the theorem about compiled programs. *)
From S2P Require Import Prelude Float StParser StCodegen StLayout StBackpatch StGenerator StSemantics StExprRun.
From S2P Require Import HalTypes HalValue HalIr FunctionBlocks Vm Executor ExecutorFacts ExecutorControl StraightLine.
Local Open Scope Z_scope.

(** ** Templates in place *)
Lemma fill_fill h n m c : fill h n (fill h m c) = fill h m c.
Proof.
  unfold fill. rewrite <- list_fmap_compose. apply list_fmap_ext.
  intros i [j|op [k|h']] _; cbn; [done..|]. case_decide as E; cbn; [done|]. by rewrite decide_False.
Qed.
Lemma fill_none h n c : (∀ p, holes h p c = []) → fill h n c = c.
Proof.
  intros Hc. specialize (Hc 0%nat). revert Hc. generalize 0%nat.
  induction c as [|[i|op [m|h']] c IH]; intros p; cbn; [done|..].
  - intros Hc. f_equal. by eapply IH.
  - intros Hc. f_equal. by eapply IH.
  - case_decide; [done|]. intros Hc. f_equal. by eapply IH.
Qed.
Lemma code_at_bound p pc c : code_at p pc c → (pc + length c ≤ length (instructions p))%nat.
Proof. intros (pre & post & -> & <-). rewrite !length_app. lia. Qed.
Lemma to_nat_ip n : small n → Z.to_nat (ip_u32 n) = n.
Proof. intros Hs. rewrite ip_u32_exact by done. lia. Qed.
Lemma small_le n k : (n ≤ k)%nat → small k → small n.
Proof. unfold small. lia. Qed.

Section profile.
Context `{BuildProfile}.
Context (regs : gmap string nat) (types : gmap string VarType) (vars : list string).
Context (Hok : variables_ok regs types vars).
Context (prog : HalProgram) (d : DebugState).
Context (Hsmall : small (length (instructions prog))) (Hd : debug_mode d = false).

Local Abbreviation E m := (mkExecutor m prog d) (only parsing).
Local Abbreviation stmt_code := (stmt_code regs types) (only parsing).

(** The machine holds the values of [ρ]. *)
Record inv (ρ : gmap string Z) (m : Vm) : Prop := {
  inv_agree : agree regs ρ m vars;
  inv_len : length (registers m) = REGISTER_COUNT;
  inv_env : env_wf ρ }.
(** Outputs and call stack as before. *)
Definition quiet (m m' : Vm) : Prop := signals m' = signals m ∧ call_stack m' = call_stack m.

Lemma kept_quiet k r m m' : kept k r m m' → quiet m m'.
Proof. by intros []. Qed.
Lemma quiet_trans m1 m2 m3 : quiet m1 m2 → quiet m2 m3 → quiet m1 m3.
Proof. unfold quiet. naive_solver congruence. Qed.
Lemma agree_sub ρ m xs : (∀ x, x ∈ xs → x ∈ vars) → inv ρ m → agree regs ρ m xs.
Proof. intros Hv Hi x v Hx. by apply (inv_agree _ _ Hi), Hv. Qed.

Lemma inv_kept ρ m m' k r :
  (∀ x, x ∈ vars → reg_of regs x ≠ r) → kept k r m m' → inv ρ m → inv ρ m'.
Proof.
  intros Hr Hk [Ha Hl Hw]. split; [|by rewrite (kept_len _ _ _ _ Hk)|done].
  by apply (agree_kept regs types vars Hok ρ m m' vars k r).
Qed.
Lemma var_not_scratch x j : x ∈ vars → (j < 3)%nat → reg_of regs x ≠ scratch j.
Proof. intros Hx Hj E. pose proof (reg_low _ _ _ Hok x Hx). pose proof (scratch_high j Hj). lia. Qed.
Lemma inv_set_ip ρ m n : inv ρ m → inv ρ (set_ip m n).
Proof. by intros []. Qed.

(** ** Straight-line code and jumps *)
Lemma run_plain m m' code :
  exec_seq m code = Some m' → forallb plain code = true → code_at prog (ip m) code →
  continues (length code) (E m) (E m') ∧ ip m' = (ip m + length code)%nat.
Proof. intros Hr Hp Hc. by apply (continues_seq code m prog d m' Hd). Qed.

Lemma jump_if_step m t :
  instructions prog !! ip m = Some (jump_if t) →
  continues 1 (E m) (E (if flags_zero m then set_ip m (Z.to_nat t) else advance_ip m)).
Proof.
  intros Hi. econstructor; [|constructor]. rewrite (step_no_debug (E m) _ Hd Hi).
  unfold step_instruction. cbn. unfold exec_jump_if, imm_u32. destruct (flags_zero m); cbn; by rewrite Hd.
Qed.
Lemma jump_steps m t code : code_at prog (ip m) (jump (ip_u32 t) :: code) → small t →
  continues 1 (E m) (E (set_ip m t)).
Proof.
  intros [Hi _]%code_at_cons Ht. rewrite <- (to_nat_ip t Ht). by apply step_jump.
Qed.

Lemma scoped_vars e : scoped vars e = true → ∀ x, x ∈ expr_vars e → x ∈ vars.
Proof.
  unfold scoped. rewrite forallb_forall. intros Hv x Hx%list_elem_of_In.
  by apply Hv, bool_decide_eq_true in Hx.
Qed.
Lemma known_var x : known vars x = true → x ∈ vars.
Proof. apply bool_decide_eq_true. Qed.

(** ** Conditions *)
Lemma cond_shape c pc : comparison c = true →
  cond_code regs types c pc = (Ins <$> cmp_code regs types c pc) ++ [Jmp OpJumpIf (Hole OnTrue)].
Proof. destruct c; try done. cbn. by destruct (is_cmp_op op). Qed.
Lemma cond_filled c pc t k x : comparison c = true →
  resolve (fill OnExit x (fill OnEnd k (fill OnTrue t (cond_code regs types c pc))))
  = cmp_code regs types c pc ++ [jump_if (ip_u32 t)].
Proof. intros Hc. rewrite cond_shape, !fill_app, !fill_ins, resolve_app, resolve_ins by done. done. Qed.
Lemma cond_length c pc : comparison c = true →
  length (cond_code regs types c pc) = S (length (cmp_code regs types c pc)).
Proof. intros Hc. rewrite cond_shape, length_app, length_fmap by done. cbn. lia. Qed.

Lemma cond_runs ρ c m t b :
  comparison c = true → scoped vars c = true → holds ρ c = Some b → inv ρ m → small t →
  code_at prog (ip m) (cmp_code regs types c (ip m) ++ [jump_if (ip_u32 t)]) →
  ∃ n m', continues n (E m) (E m') ∧ inv ρ m' ∧ quiet m m' ∧
    ip m' = if b then t else (ip m + length (cond_code regs types c (ip m)))%nat.
Proof.
  intros Hc Hv Hh Hi Ht Hcode. rewrite cond_length by done.
  pose proof (scoped_vars c Hv) as Hvs.
  destruct (compare_runs regs types vars Hok ρ c m (ip m) b) as (m1 & X & F & K);
    [done..|apply Hi|by apply agree_sub|apply Hi|].
  apply code_at_app in Hcode as [C1 C2].
  destruct (run_plain m m1 _ X (cmp_plain _ _ _ _ Hc) C1) as [R Hip].
  rewrite <- Hip in C2. apply code_at_cons in C2 as [C2 _].
  pose proof (jump_if_step m1 _ C2) as R2. rewrite F, to_nat_ip in R2 by done.
  assert (Hi1 : inv ρ m1) by (eapply inv_kept; [|exact K|done]; intros; apply var_not_scratch; [done|lia]).
  destruct K as [_ _ Ks Kc].
  eexists _, _. split; [eapply continues_app; [exact R | exact R2]|].
  destruct b; split_and!; try done; try by apply inv_set_ip. cbn. lia.
Qed.

(** ** Assigning a variable *)
Lemma inv_update ρ x v m :
  x ∈ vars → inv ρ m → in_s 32 v = true →
  inv (<[x := v]> ρ) (advance_ip (set_reg m (reg_of regs x) (VS32 v))).
Proof.
  intros Hx [Ha Hl Hw] Hv. pose proof (reg_low _ _ _ Hok x Hx) as Hlow.
  split; [|cbn; by rewrite length_insert | by apply map_Forall_insert_2].
  intros y z Hy. rewrite read_advance, lookup_insert. case_decide as E.
  - intros [= <-]. subst y. apply read_set_same; [done|]. unfold MAX_VAR_REGS, REGISTER_COUNT in *. lia.
  - intros Hz. rewrite read_set_other; [by apply Ha|]. intros E'. by apply E, (reg_inj _ _ _ Hok).
Qed.
Lemma step_in ρ k step : step_value ρ step = Some k → env_wf ρ → in_s 32 k = true.
Proof. destruct step; cbn; [intros; by eapply eval_in | by intros [= <-]]. Qed.

Lemma assign_runs ρ x e v m :
  x ∈ vars → scoped vars e = true → arith_expr 3 e = true → in_place x e = true → eval ρ e = Some v →
  inv ρ m → code_at prog (ip m) (expr_code regs types e (ip m) 0 (reg_of regs x)) →
  ∃ n m', continues n (E m) (E m') ∧ inv (<[x := v]> ρ) m' ∧ quiet m m' ∧
    ip m' = (ip m + length (expr_code regs types e (ip m) 0 (reg_of regs x)))%nat ∧
    read_register m' (reg_of regs x) = Some (VS32 v).
Proof.
  intros Hx Hs He Hp Hv Hi Hc. pose proof (reg_low _ _ _ Hok x Hx) as Hlow.
  destruct (expr_runs regs types vars Hok e ρ 3 0 (reg_of regs x) m v (ip m)) as (m1 & X & R & K); [|done|].
  { split; try apply Hi; auto.
    - by apply scoped_vars.
    - unfold MAX_VAR_REGS, REGISTER_COUNT in *. lia.
    - intros j Hj. apply var_not_scratch; [done | lia].
    - eapply place_var; [done..|by apply scoped_vars | done].
    - by apply agree_sub; [apply scoped_vars|]. }
  destruct (run_plain m m1 _ X (expr_plain _ _ _ _ _ _ _ He) Hc) as [Hr Hip].
  eexists _, m1. split_and!; [exact Hr | | by eapply kept_quiet | done..].
  destruct Hi as [Ha Hl Hw]. split; [|by rewrite (kept_len _ _ _ _ K)|].
  - intros y z Hy. rewrite lookup_insert. case_decide as E; [intros [= <-]; by subst|].
    intros Hz. rewrite (kept_reg _ _ _ _ K); [by apply Ha | |].
    + intros E'. by apply E, eq_sym, (reg_inj _ _ _ Hok).
    + intros j Hj. apply var_not_scratch; [done | lia].
  - apply map_Forall_insert_2; [by eapply eval_in | done].
Qed.

Lemma store_runs ρ x v m code :
  x ∈ vars → inv ρ m → read_register m (reg_of regs x) = Some (VS32 v) →
  code_at prog (ip m) (store_inst regs x :: code) →
  ∃ m', continues 1 (E m) (E m') ∧ inv ρ m' ∧ ip m' = S (ip m) ∧
    signals m' = <[x := VS32 v]> (signals m) ∧ call_stack m' = call_stack m.
Proof.
  intros Hx Hi Hr Hc. change (store_inst regs x :: code) with ([store_inst regs x] ++ code) in Hc.
  apply code_at_app in Hc as [Hc _].
  exists (advance_ip (write_signal m x (VS32 v))).
  destruct (run_plain m (advance_ip (write_signal m x (VS32 v))) [store_inst regs x]) as [R Hip]; [|done..|].
  { apply exec_one; [done|]. by apply exec_store_reg. }
  split_and!; [exact R | by destruct Hi | done..].
Qed.

(** ** Reaching the end of a phrase *)
Definition ends (o : Ending) (stop X : nat) (m : Vm) : Prop :=
  match o with
  | Next => ip m = stop
  | Exited => ip m = X
  | Returned => instructions prog !! ip m = Some halt
  end.
(** From [m] the program runs to the end [o] of a phrase, the variables then
    being [ρ'] and the outputs [w] having been written. *)
Definition reaches (m : Vm) (ρ' : gmap string Z) (w : list (string * HalValue)) (o : Ending) (stop X : nat) : Prop :=
  ∃ n m', continues n (E m) (E m') ∧ inv ρ' m' ∧ signals m' = write_all (signals m) w ∧
    call_stack m' = call_stack m ∧ ends o stop X m'.

Lemma reaches_after n m m1 ρ' w o stop X :
  continues n (E m) (E m1) → quiet m m1 → reaches m1 ρ' w o stop X → reaches m ρ' w o stop X.
Proof.
  intros Hc [Hs Hk] (n' & m' & Hc' & Hi & Hs' & Hk' & He). exists (n + n')%nat, m'.
  split_and!; [by eapply continues_app | done | by rewrite Hs', Hs | by rewrite Hk' | done].
Qed.
Lemma reaches_then m m1 n w1 ρ' w2 o stop X :
  continues n (E m) (E m1) → signals m1 = write_all (signals m) w1 → call_stack m1 = call_stack m →
  reaches m1 ρ' w2 o stop X → reaches m ρ' (w1 ++ w2) o stop X.
Proof.
  intros Hc Hs Hk (n' & m' & Hc' & Hi & Hs' & Hk' & He). exists (n + n')%nat, m'.
  split_and!; [by eapply continues_app | done | by rewrite Hs', Hs, write_all_app | by rewrite Hk' | done].
Qed.
Lemma reaches_here m ρ stop X : inv ρ m → ip m = stop → reaches m ρ [] Next stop X.
Proof. intros Hi Hp. exists 0%nat, m. split_and!; [constructor | done..]. Qed.
(** A phrase that ends early does so whatever follows it. *)
Lemma reaches_early m ρ' w o stop stop' X : o ≠ Next → reaches m ρ' w o stop X → reaches m ρ' w o stop' X.
Proof. intros Ho (n & m' & Hc & Hi & Hs & Hk & He). exists n, m'. by destruct o. Qed.
(** A jump after the phrase. *)
Lemma reaches_jump m ρ' w stop X t :
  reaches m ρ' w Next stop X → small t → code_at prog stop [jump (ip_u32 t)] →
  ∃ n m', continues n (E m) (E m') ∧ inv ρ' m' ∧ signals m' = write_all (signals m) w ∧
    call_stack m' = call_stack m ∧ ip m' = t.
Proof.
  intros (n & m' & Hc & Hi & Hs & Hk & He) Ht Hj. cbn in He. rewrite <- He in Hj.
  exists (n + 1)%nat, (set_ip m' t). split_and!; try done; [|by apply inv_set_ip].
  eapply continues_app; [exact Hc | by eapply jump_steps].
Qed.
(** Out of a loop whose [EXIT] leads to [stop]. *)
Lemma reaches_out m ρ' w o stop stop' X :
  o ≠ Next → reaches m ρ' w o stop' stop → reaches m ρ' w (after_loop o) stop X.
Proof. intros Ho (n & m' & Hc & Hi & Hs & Hk & He). exists n, m'. by destruct o. Qed.

(** [s] runs as [ρ'], [w], [o] say wherever its code is placed. *)
Definition simulates (ρ : gmap string Z) (c : nat → Template) (ρ' : gmap string Z)
    (w : list (string * HalValue)) (o : Ending) : Prop :=
  ∀ X m, inv ρ m → small X → code_at prog (ip m) (resolve (fill OnExit X (c (ip m)))) →
  reaches m ρ' w o (ip m + length (c (ip m))) X.

Lemma sim_assign ρ x e v :
  fragment vars (Assign x e) = true → eval ρ e = Some v →
  simulates ρ (stmt_code (Assign x e)) (<[x := v]> ρ) [(x, VS32 v)] Next.
Proof.
  cbn [fragment]. rewrite !andb_true_iff. intros [[[Hx%known_var Hs] He] Hp] Hv X m Hi HX Hc.
  cbn [StLayout.stmt_code] in *. unfold assign_code in *. rewrite fill_ins, resolve_ins in Hc.
  apply code_at_app in Hc as [C1 C2].
  destruct (assign_runs ρ x e v m) as (n & m1 & R & Hi1 & [Q1 Q2] & Hip & Hr); [done..|].
  rewrite <- Hip in C2. destruct (store_runs _ x v m1 [] Hx Hi1 Hr C2) as (m2 & R2 & Hi2 & Hip2 & Hs2 & Hk2).
  exists (n + 1)%nat, m2. split_and!; [by eapply continues_app | done | by rewrite Hs2, Q1 | by rewrite Hk2 |].
  cbn. rewrite Hip2, Hip, length_fmap, length_app. cbn. lia.
Qed.

Lemma sim_exit ρ : simulates ρ (stmt_code Exit_) ρ [] Exited.
Proof.
  intros X m Hi HX Hc. cbn in Hc. rewrite decide_True in Hc by done.
  exists 1%nat, (set_ip m X). split_and!; [by eapply jump_steps | by apply inv_set_ip | done..].
Qed.
Lemma sim_return ρ : simulates ρ (stmt_code Return_) ρ [] Returned.
Proof.
  intros X m Hi HX Hc. apply code_at_cons in Hc as [Hc _].
  exists 0%nat, m. split_and!; [constructor | done..].
Qed.
Lemma sim_nil ρ {A} (F : A → nat → Template) : simulates ρ (seq_code F []) ρ [] Next.
Proof. intros X m Hi HX Hc. apply reaches_here; [done|]. cbn. lia. Qed.
Lemma sim_stop ρ {A} (F : A → nat → Template) x xs ρ' w o :
  o ≠ Next → simulates ρ (F x) ρ' w o → simulates ρ (seq_code F (x :: xs)) ρ' w o.
Proof.
  intros Ho Hx X m Hi HX Hc. cbn [seq_code] in *. rewrite fill_app, resolve_app in Hc.
  apply code_at_app in Hc as [C _]. eapply reaches_early; [done | by apply Hx].
Qed.
Lemma sim_cons ρ {A} (F : A → nat → Template) x xs ρ1 w1 ρ2 w2 o :
  simulates ρ (F x) ρ1 w1 Next → simulates ρ1 (seq_code F xs) ρ2 w2 o →
  simulates ρ (seq_code F (x :: xs)) ρ2 (w1 ++ w2) o.
Proof.
  intros Hx Hxs X m Hi HX Hc. cbn [seq_code] in *. rewrite fill_app, resolve_app in Hc.
  apply code_at_app in Hc as [C1 C2]. rewrite resolve_length, fill_length in C2.
  destruct (Hx X m Hi HX C1) as (n & m1 & R & Hi1 & Hs & Hk & Hip). cbn in Hip.
  eapply reaches_then; [exact R | done | done |].
  rewrite <- Hip in *. rewrite length_app, Nat.add_assoc, <- Hip. by apply Hxs.
Qed.

(** ** Templates in the program *)
Definition at_ (pc X : nat) (c : Template) : Prop := code_at prog pc (resolve (fill OnExit X c)).

Lemma at_app pc X c1 c2 : at_ pc X (c1 ++ c2) → at_ pc X c1 ∧ at_ (pc + length c1) X c2.
Proof.
  unfold at_. rewrite fill_app, resolve_app. intros [C1 C2]%code_at_app.
  by rewrite resolve_length, fill_length in C2.
Qed.
Lemma at_small pc X c n : at_ pc X c → (n ≤ pc + length c)%nat → small n.
Proof.
  intros Hc%code_at_bound Hn. rewrite resolve_length, fill_length in Hc.
  eapply small_le; [|exact Hsmall]. lia.
Qed.
Lemma at_ins pc X l : at_ pc X (Ins <$> l) → code_at prog pc l.
Proof. unfold at_. by rewrite fill_ins, resolve_ins. Qed.
Lemma at_inner pc X Y c : at_ pc X (fill OnExit Y c) → at_ pc Y c.
Proof. unfold at_. by rewrite fill_fill. Qed.
Lemma at_cond pc X k t c : comparison c = true →
  at_ pc X (fill OnEnd k (fill OnTrue t (cond_code regs types c pc))) →
  code_at prog pc (cmp_code regs types c pc ++ [jump_if (ip_u32 t)]).
Proof. intros Hc. unfold at_. by rewrite cond_filled. Qed.
Lemma at_jump m X t : at_ (ip m) X [Jmp OpJump (Abs t)] → small t →
  continues 1 (E m) (E (set_ip m t)).
Proof. apply jump_steps. Qed.

(** A condition, by its filled template. *)
Lemma sim_cond ρ c m X k t b :
  comparison c = true → scoped vars c = true → holds ρ c = Some b → inv ρ m → small t →
  at_ (ip m) X (fill OnEnd k (fill OnTrue t (cond_code regs types c (ip m)))) →
  ∃ n m', continues n (E m) (E m') ∧ inv ρ m' ∧ quiet m m' ∧
    ip m' = if b then t else (ip m + length (cond_code regs types c (ip m)))%nat.
Proof. intros Hc Hs Hb Hi Ht Ha. apply at_cond in Ha; [|done]. by apply (cond_runs ρ c m t b). Qed.

Lemma at_eq pc pc' X c : at_ pc X c → pc = pc' → at_ pc' X c.
Proof. by intros ? <-. Qed.
(** A phrase followed by a jump. *)
Lemma reaches_and_jump m ρ' w o stop X Y t :
  reaches m ρ' w o stop X → small t → at_ stop Y [Jmp OpJump (Abs t)] → reaches m ρ' w o t X.
Proof.
  intros (n & m' & Hc & Hi & Hs & Hk & He) Ht Hj. destruct o; [|by exists n, m'..].
  cbn in He. rewrite <- He in Hj. exists (n + 1)%nat, (set_ip m' t). split_and!; try done.
  - eapply continues_app; [exact Hc | by eapply at_jump].
  - by apply inv_set_ip.
Qed.
(** The phrase whose code stands at the machine's address. *)
Lemma sim_at ρ F ρ' w o X pc m :
  simulates ρ F ρ' w o → inv ρ m → small X → ip m = pc → at_ pc X (F pc) →
  reaches m ρ' w o (pc + length (F pc)) X.
Proof. intros Hs Hi HX <- Hc. by apply Hs. Qed.

Lemma sim_if ρ c thn els b ρ' w o :
  comparison c = true → scoped vars c = true → holds ρ c = Some b →
  simulates ρ (if b then thn else els) ρ' w o → simulates ρ (if_code regs types c thn els) ρ' w o.
Proof.
  intros Hc Hs Hb Hbody X m Hi HX Hcode. fold (at_ (ip m) X (if_code regs types c thn els (ip m))) in Hcode.
  pose proof (λ n, at_small _ _ _ n Hcode) as Hsm. unfold if_code in *.
  remember (cond_code regs types c (ip m)) as cc eqn:Ecc.
  remember (ip m + length cc + 1)%nat as tpc eqn:Et.
  remember (tpc + length (thn tpc) + 1)%nat as epc eqn:Ee.
  rewrite !length_app, !fill_length in *. cbn [length] in *.
  apply at_app in Hcode as [C1 C2]. apply at_app in C2 as [C2 C3].
  apply at_app in C3 as [C3 C4]. apply at_app in C4 as [C4 C5].
  rewrite !fill_length in *. cbn [length] in *. subst cc.
  destruct (sim_cond ρ c m X tpc tpc b) as (n & m1 & R & Hi1 & Q & Hip); [try done..|]; [apply Hsm; lia|].
  eapply reaches_after; [exact R | exact Q |].
  replace (ip m + _)%nat with (epc + length (els epc))%nat by lia.
  destruct b.
  - eapply reaches_and_jump; [apply (sim_at ρ thn _ _ _ X tpc) | apply Hsm; lia |]; try done.
    + eapply at_eq; [exact C3 | lia].
    + eapply at_eq; [exact C4 | lia].
  - eapply reaches_after; [eapply continues_app; [eapply at_jump|constructor] | done |].
    + eapply at_eq; [exact C2 | lia].
    + apply Hsm. lia.
    + apply sim_at with (ρ := ρ); [done | by apply inv_set_ip | done | done |]. eapply at_eq; [exact C5 | lia].
Qed.

(** One round of a WHILE: the condition, then out of the loop or into the body. *)
Section while.
Context (c : Expr) (body : nat → Template).
Context (Hc : comparison c = true) (Hs : scoped vars c = true).

Definition body_pc (pc : nat) : nat := (pc + length (cond_code regs types c pc) + 1)%nat.
Definition exit_pc (pc : nat) : nat := (body_pc pc + length (body (body_pc pc)) + 1)%nat.

Lemma while_round ρ b X m :
  holds ρ c = Some b → inv ρ m → at_ (ip m) X (while_code regs types c body (ip m)) →
  small (exit_pc (ip m)) ∧ small (ip m)
  ∧ (ip m + length (while_code regs types c body (ip m)) = exit_pc (ip m))%nat
  ∧ at_ (body_pc (ip m) + length (body (body_pc (ip m)))) X [Jmp OpJump (Abs (ip m))]
  ∧ at_ (body_pc (ip m)) (exit_pc (ip m)) (body (body_pc (ip m)))
  ∧ ∃ n m', continues n (E m) (E m') ∧ inv ρ m' ∧ quiet m m' ∧
      ip m' = if b then body_pc (ip m) else exit_pc (ip m).
Proof.
  intros Hb Hi Hcode. pose proof (λ n, at_small _ _ _ n Hcode) as Hsm. unfold while_code in *.
  fold (body_pc (ip m)) in *. fold (exit_pc (ip m)) in *.
  rewrite !length_app, !fill_length in *. cbn [length] in *.
  apply at_app in Hcode as [C1 C2]. apply at_app in C2 as [C2 C3]. apply at_app in C3 as [C3 C4].
  rewrite !fill_length in *. cbn [length] in *. fold (body_pc (ip m)) in *.
  assert (Hx : exit_pc (ip m) = (ip m + (length (cond_code regs types c (ip m)) + (1 + (length (body (body_pc (ip m))) + 1))))%nat)
    by (unfold exit_pc at 1, body_pc at 1; lia).
  destruct (sim_cond ρ c m X 0 (body_pc (ip m)) b) as (n & m1 & R & Hi1 & Q & Hip);
    [try done..|]; [apply Hsm; unfold body_pc; lia|].
  assert (Hse : small (exit_pc (ip m))) by (apply Hsm; lia).
  split_and!; [done | apply Hsm; lia | lia | done | by eapply at_inner |].
  destruct b; [by exists n, m1|]. exists (n + 1)%nat, (set_ip m1 (exit_pc (ip m))).
  split_and!; [|by apply inv_set_ip|done..]. eapply continues_app; [exact R|]. eapply at_jump; [|done].
  eapply at_eq; [exact C2 | lia].
Qed.

Local Abbreviation code := (while_code regs types c body) (only parsing).
Lemma sim_while_done ρ : holds ρ c = Some false → simulates ρ code ρ [] Next.
Proof.
  intros Hb X m Hi HX Hcode.
  destruct (while_round ρ false X m Hb Hi Hcode) as (_ & _ & -> & _ & _ & n & m1 & R & Hi1 & Q & Hip).
  eapply reaches_after; [exact R | exact Q | by apply reaches_here].
Qed.
Lemma sim_while_stop ρ ρ' w o :
  holds ρ c = Some true → simulates ρ body ρ' w o → o ≠ Next → simulates ρ code ρ' w (after_loop o).
Proof.
  intros Hb Hbody Ho X m Hi HX Hcode.
  destruct (while_round ρ true X m Hb Hi Hcode) as (Hse & _ & -> & _ & Cb & n & m1 & R & Hi1 & Q & Hip).
  eapply reaches_after; [exact R | exact Q |]. eapply reaches_out; [done|]. by apply (sim_at ρ body).
Qed.
Lemma sim_while_again ρ ρ1 w1 ρ2 w2 o :
  holds ρ c = Some true → simulates ρ body ρ1 w1 Next → simulates ρ1 code ρ2 w2 o →
  simulates ρ code ρ2 (w1 ++ w2) o.
Proof.
  intros Hb Hbody Hloop X m Hi HX Hcode.
  destruct (while_round ρ true X m Hb Hi Hcode) as (Hse & Hsp & _ & Cj & Cb & n & m1 & R & Hi1 & Q & Hip).
  eapply reaches_after; [exact R | exact Q |].
  destruct (reaches_and_jump m1 ρ1 w1 Next _ (exit_pc (ip m)) X (ip m)
              (sim_at ρ body ρ1 w1 Next _ _ m1 Hbody Hi1 Hse Hip Cb) Hsp Cj)
    as (n2 & m2 & R2 & Hi2 & S2 & K2 & Hip2). cbn in Hip2.
  eapply reaches_then; [exact R2 | done | done |]. by apply (sim_at ρ1 code).
Qed.
End while.

(** One round of a REPEAT: the body, then the condition. *)
Section repeat.
Context (c : Expr) (body : nat → Template).
Context (Hc : comparison c = true) (Hs : scoped vars c = true).

Definition cond_pc (pc : nat) : nat := (pc + length (body pc))%nat.
Definition out_pc (pc : nat) : nat := (cond_pc pc + length (cond_code regs types c (cond_pc pc)) + 1)%nat.

Lemma repeat_parts X pc :
  at_ pc X (repeat_code regs types body c pc) →
  small (out_pc pc) ∧ small pc ∧ (pc + length (repeat_code regs types body c pc) = out_pc pc)%nat
  ∧ at_ pc (out_pc pc) (body pc)
  ∧ at_ (cond_pc pc) X (fill OnEnd 0 (fill OnTrue (out_pc pc) (cond_code regs types c (cond_pc pc))))
  ∧ at_ (cond_pc pc + length (cond_code regs types c (cond_pc pc))) X [Jmp OpJump (Abs pc)].
Proof.
  intros Hcode. pose proof (λ n, at_small _ _ _ n Hcode) as Hsm. unfold repeat_code in *.
  fold (cond_pc pc) in *. fold (out_pc pc) in *.
  rewrite !length_app, !fill_length in *. cbn [length] in *.
  apply at_app in Hcode as [C1 C2]. apply at_app in C2 as [C2 C3]. rewrite !fill_length in *.
  fold (cond_pc pc) in *.
  assert (Hx : out_pc pc = (pc + (length (body pc) + (length (cond_code regs types c (cond_pc pc)) + 1)))%nat)
    by (unfold out_pc at 1, cond_pc at 1; lia).
  split_and!; [apply Hsm; lia | apply Hsm; lia | lia | by eapply at_inner | done | done].
Qed.

Local Abbreviation code := (repeat_code regs types body c) (only parsing).
Lemma sim_repeat_stop ρ ρ' w o :
  simulates ρ body ρ' w o → o ≠ Next → simulates ρ code ρ' w (after_loop o).
Proof.
  intros Hbody Ho X m Hi HX Hcode. destruct (repeat_parts X (ip m) Hcode) as (Hso & _ & -> & Cb & _ & _).
  eapply reaches_out; [done|]. by apply (sim_at ρ body).
Qed.
Lemma repeat_round ρ ρ1 w b X m :
  simulates ρ body ρ1 w Next → holds ρ1 c = Some b → inv ρ m → at_ (ip m) X (code (ip m)) →
  ∃ n m', continues n (E m) (E m') ∧ inv ρ1 m' ∧ signals m' = write_all (signals m) w ∧
    call_stack m' = call_stack m ∧ ip m' = if b then out_pc (ip m) else ip m.
Proof.
  intros Hbody Hb Hi Hcode. destruct (repeat_parts X (ip m) Hcode) as (Hso & Hsp & _ & Cb & Cc & Cj).
  destruct (sim_at ρ body ρ1 w Next _ _ m Hbody Hi Hso eq_refl Cb) as (n & m1 & R & Hi1 & S1 & K1 & Hip1).
  cbn in Hip1. fold (cond_pc (ip m)) in Hip1. rewrite <- Hip1 in Cc, Cj.
  destruct (sim_cond ρ1 c m1 X 0 (out_pc (ip m)) b) as (n2 & m2 & R2 & Hi2 & [Q1 Q2] & Hip2); [done..|].
  pose proof (continues_app _ _ _ _ _ R R2) as R3. destruct b.
  - exists (n + n2)%nat, m2. split_and!; [done | done | by rewrite Q1 | by rewrite Q2 | done].
  - exists (n + n2 + 1)%nat, (set_ip m2 (ip m)).
    split_and!; [|by apply inv_set_ip | by rewrite <- S1, <- Q1 | by rewrite <- K1, <- Q2 | done].
    eapply continues_app; [exact R3|]. eapply at_jump; [by rewrite Hip2 | done].
Qed.
Lemma sim_repeat_done ρ ρ' w :
  simulates ρ body ρ' w Next → holds ρ' c = Some true → simulates ρ code ρ' w Next.
Proof.
  intros Hbody Hb X m Hi HX Hcode. destruct (repeat_parts X (ip m) Hcode) as (_ & _ & -> & _).
  exact (repeat_round ρ ρ' w true X m Hbody Hb Hi Hcode).
Qed.
Lemma sim_repeat_again ρ ρ1 w1 ρ2 w2 o :
  simulates ρ body ρ1 w1 Next → holds ρ1 c = Some false → simulates ρ1 code ρ2 w2 o →
  simulates ρ code ρ2 (w1 ++ w2) o.
Proof.
  intros Hbody Hb Hloop X m Hi HX Hcode.
  destruct (repeat_round ρ ρ1 w1 false X m Hbody Hb Hi Hcode) as (n & m1 & R & Hi1 & S1 & K1 & Hip).
  eapply reaches_then; [exact R | done | done |]. by apply (sim_at ρ1 code).
Qed.
End repeat.

(** ** FOR *)
Section for_.
Context (x : string) (stop : Expr) (step : option Expr) (body : nat → Template).
Context (Hx : x ∈ vars) (Hstop : scoped vars stop = true) (Astop : arith_expr 2 stop = true)
  (Hstep : match step with Some e => scoped vars e && arith_expr 2 e = true | None => True end).
Local Abbreviation rx := (reg_of regs x) (only parsing).
Local Abbreviation step_code := (step_code regs types step) (only parsing).

Definition limit_code (lp : nat) : list Instruction :=
  expr_code regs types stop lp 1 (scratch 0) ++ [cmp_inst OpGt rx (scratch 0)].
Definition for_body (lp : nat) : nat := (lp + length (limit_code lp) + 1)%nat.
Definition for_step (lp : nat) : nat := (for_body lp + length (body (for_body lp)))%nat.
Definition next_code (lp : nat) : list Instruction :=
  step_code (for_step lp) ++ [arith_inst OpAdd rx (scratch 0) rx].
Definition for_exit (lp : nat) : nat := (for_step lp + length (next_code lp) + 1)%nat.
(** The code from the limit test on. *)
Definition loop_code (lp : nat) : Template :=
  (Ins <$> limit_code lp) ++ [Jmp OpJumpIf (Abs (for_exit lp))] ++ fill OnExit (for_exit lp) (body (for_body lp))
  ++ (Ins <$> next_code lp) ++ [Jmp OpJump (Abs lp)].

Lemma for_code_loop start pc :
  for_code regs types x start stop step body pc
  = (Ins <$> expr_code regs types start pc 0 rx) ++ loop_code (pc + length (expr_code regs types start pc 0 rx)).
Proof.
  unfold for_code, loop_code, next_code, for_exit, next_code, for_step, for_body, limit_code.
  rewrite !length_app. cbn [length].
  set (lp := (pc + _)%nat). set (n2 := length (expr_code regs types stop lp 1 (scratch 0))).
  replace (lp + n2 + 2)%nat with (lp + (n2 + 1) + 1)%nat by lia.
  fold (step_code (lp + (n2 + 1) + 1 + length (body (lp + (n2 + 1) + 1)))%nat).
  set (sp := (lp + (n2 + 1) + 1 + _)%nat). set (n3 := length (step_code sp)).
  by replace (sp + n3 + 2)%nat with (sp + (n3 + 1) + 1)%nat by lia.
Qed.

Lemma loop_parts X lp :
  at_ lp X (loop_code lp) →
  small (for_exit lp) ∧ small lp ∧ (lp + length (loop_code lp) = for_exit lp)%nat
  ∧ code_at prog lp (limit_code lp ++ [jump_if (ip_u32 (for_exit lp))])
  ∧ at_ (for_body lp) (for_exit lp) (body (for_body lp))
  ∧ code_at prog (for_step lp) (next_code lp) 
  ∧ at_ (for_step lp + length (next_code lp)) X [Jmp OpJump (Abs lp)].
Proof.
  intros Hcode. pose proof (λ n, at_small _ _ _ n Hcode) as Hsm. unfold loop_code in *.
  rewrite (assoc_L (++)) in Hcode. rewrite !length_app, !length_fmap, !fill_length in *. cbn [length] in *.
  apply at_app in Hcode as [C1 C2]. apply at_app in C2 as [C2 C3]. apply at_app in C3 as [C3 C4].
  rewrite !length_app, !length_fmap, !fill_length in *. cbn [length] in *.
  rewrite Nat.add_assoc in C2, C3, C4. fold (for_body lp) in *. fold (for_step lp) in *.
  assert (Hl : for_exit lp = (lp + (length (limit_code lp) + (1 + (length (body (for_body lp)) + (length (next_code lp) + 1)))))%nat)
    by (unfold for_exit at 1, for_step at 1, for_body at 1; lia).
  split_and!; [apply Hsm; lia | apply Hsm; lia | lia | | by eapply at_inner | by eapply at_ins | done].
  unfold at_ in C1. by rewrite fill_app, fill_ins, resolve_app, resolve_ins in C1.
Qed.

(** The limit test leads into the body or out of the loop. *)
Lemma limit_runs ρ v limit X m :
  ρ !! x = Some v → eval ρ stop = Some limit → inv ρ m → at_ (ip m) X (loop_code (ip m)) →
  ∃ n m', continues n (E m) (E m') ∧ inv ρ m' ∧ quiet m m' ∧
    ip m' = if v <=? limit then for_body (ip m) else for_exit (ip m).
Proof.
  intros Hv Hl Hi Hcode. destruct (loop_parts X (ip m) Hcode) as (Hse & _ & _ & Cl & _).
  destruct (expr_runs regs types vars Hok stop ρ 2 1 (scratch 0) m limit (ip m)) as (m1 & X1 & R1 & K1); [|done|].
  { eapply ready_scratch; try done; [lia | by apply scoped_vars | apply Hi | by apply agree_sub; [apply scoped_vars|] | apply Hi]. }
  assert (X2 : exec_seq m (limit_code (ip m)) = Some (advance_ip (set_flags_zero m1 (limit <? v)))).
  { eapply exec_seq_snoc; [exact X1 | done |]. apply (cmp_runs Gt_ m1 rx (scratch 0) v limit); [done| |done].
    rewrite (kept_reg _ _ _ _ K1); [by apply (inv_agree _ _ Hi) | by apply var_not_scratch; [|lia] |].
    intros j Hj. apply var_not_scratch; [done | lia]. }
  assert (Hi1 : inv ρ m1) by (eapply inv_kept; [|exact K1|done]; intros; apply var_not_scratch; [done|lia]).
  apply code_at_app in Cl as [C1 C2].
  destruct (run_plain m _ _ X2) as [R Hip]; [|done|].
  { unfold limit_code. by rewrite forallb_app, (expr_plain _ _ _ 2). }
  rewrite <- Hip in C2. apply code_at_cons in C2 as [C2 _].
  pose proof (jump_if_step _ _ C2) as R2. cbn [flags_zero advance_ip set_flags_zero set_ip] in R2.
  rewrite to_nat_ip in R2 by done. rewrite Z.leb_antisym.
  eexists _, _. split; [eapply continues_app; [exact R | exact R2]|]. destruct K1 as [_ _ K2 K3].
  destruct (limit <? v); split_and!; try done; try by destruct Hi1. cbn in Hip |- *. unfold for_body. lia.
Qed.

(** The step adds to the variable and goes back to the test. *)
Lemma next_runs ρ v k v2 X lp m :
  ρ !! x = Some v → step_value ρ step = Some k → int_add true 32 v k = Some v2 →
  inv ρ m → ip m = for_step lp → at_ lp X (loop_code lp) →
  ∃ n m', continues n (E m) (E m') ∧ inv (<[x := v2]> ρ) m' ∧ quiet m m' ∧ ip m' = lp.
Proof.
  intros Hv Hk Ha Hi Hp Hcode. destruct (loop_parts X lp Hcode) as (_ & Hlp & _ & _ & _ & Cn & Cj).
  rewrite <- Hp in Cn, Cj. unfold next_code in Cn, Cj. rewrite <- Hp in Cn, Cj.
  pose proof (inv_len _ _ Hi) as Hlen. pose proof (reg_low _ _ _ Hok x Hx) as Hlow.
  assert (Hrun : runs_to ρ stop 2 1 (scratch 0) m k (step_code (ip m))).
  { destruct step as [e|]; cbn in Hk.
    - apply andb_true_iff in Hstep as [Hs1 Hs2]. apply (expr_runs regs types vars Hok e ρ 2 1 (scratch 0)); [|done].
      eapply ready_scratch; try done; [lia | by apply scoped_vars | by apply agree_sub; [apply scoped_vars|] | apply Hi].
    - injection Hk as <-. exists (advance_ip (set_reg m (scratch 0) (VS32 1))). 
      pose proof (scratch_high 0 ltac:(lia)) as [_ Hs0].
      split_and!; [apply exec_one; [done|]; by apply exec_load_imm | by apply read_set_same | apply kept_set]. }
  destruct Hrun as (m1 & X1 & R1 & K1).
  assert (X2 : exec_seq m (step_code (ip m) ++ [arith_inst OpAdd rx (scratch 0) rx])
               = Some (advance_ip (set_reg m1 rx (VS32 v2)))).
  { eapply exec_seq_snoc; [exact X1 | done |].
    apply (arith_opcode_runs Add OpAdd m1 rx (scratch 0) rx v k); try done.
    - unfold MAX_VAR_REGS, REGISTER_COUNT in *. lia.
    - rewrite (kept_reg _ _ _ _ K1); [by apply (inv_agree _ _ Hi) | by apply var_not_scratch; [|lia] |].
      intros j Hj. apply var_not_scratch; [done | lia]. }
  assert (Hi1 : inv ρ m1) by (eapply inv_kept; [|exact K1|done]; intros; apply var_not_scratch; [done|lia]).
  set (m2 := advance_ip (set_reg m1 rx (VS32 v2))) in *.
  destruct (run_plain m m2 _ X2) as [R Hip]; [|done|].
  { rewrite forallb_app. apply andb_true_iff. split; [|done]. destruct step; [|done].
    apply andb_true_iff in Hstep as [_ Hs2]. by apply (expr_plain _ _ _ 2). }
  rewrite <- Hip in Cj.
  exists (length (step_code (ip m) ++ [arith_inst OpAdd rx (scratch 0) rx]) + 1)%nat, (set_ip m2 lp).
  destruct K1 as [_ _ K2 K3].
  split_and!; [eapply continues_app; [exact R | by eapply at_jump] | | done..].
  apply inv_set_ip, inv_update; [done..|].
  exact (int_add_closed true 32 v k v2 ltac:(lia) (inv_env _ _ Hi x v Hv) (step_in ρ k step Hk (inv_env _ _ Hi)) Ha).
Qed.

Lemma sim_for_done ρ v limit :
  ρ !! x = Some v → eval ρ stop = Some limit → (v <=? limit) = false → simulates ρ loop_code ρ [] Next.
Proof.
  intros Hv Hl Hb X m Hi HX Hcode. destruct (loop_parts X (ip m) Hcode) as (_ & _ & -> & _).
  destruct (limit_runs ρ v limit X m Hv Hl Hi Hcode) as (n & m1 & R & Hi1 & Q & Hip). rewrite Hb in Hip.
  eapply reaches_after; [exact R | exact Q | by apply reaches_here].
Qed.
Lemma sim_for_stop ρ v limit ρ' w o :
  ρ !! x = Some v → eval ρ stop = Some limit → (v <=? limit) = true →
  simulates ρ body ρ' w o → o ≠ Next → simulates ρ loop_code ρ' w (after_loop o).
Proof.
  intros Hv Hl Hb Hbody Ho X m Hi HX Hcode. destruct (loop_parts X (ip m) Hcode) as (Hse & _ & -> & _ & Cb & _).
  destruct (limit_runs ρ v limit X m Hv Hl Hi Hcode) as (n & m1 & R & Hi1 & Q & Hip). rewrite Hb in Hip.
  eapply reaches_after; [exact R | exact Q |]. eapply reaches_out; [done|]. by apply (sim_at ρ body).
Qed.
Lemma sim_for_again ρ v limit ρ1 w1 k v1 v2 ρ2 w2 o :
  ρ !! x = Some v → eval ρ stop = Some limit → (v <=? limit) = true →
  simulates ρ body ρ1 w1 Next → ρ1 !! x = Some v1 → step_value ρ1 step = Some k →
  int_add true 32 v1 k = Some v2 → simulates (<[x := v2]> ρ1) loop_code ρ2 w2 o →
  simulates ρ loop_code ρ2 (w1 ++ w2) o.
Proof.
  intros Hv Hl Hb Hbody Hv1 Hk Ha Hloop X m Hi HX Hcode.
  destruct (loop_parts X (ip m) Hcode) as (Hse & _ & _ & _ & Cb & _).
  destruct (limit_runs ρ v limit X m Hv Hl Hi Hcode) as (n & m1 & R & Hi1 & Q & Hip). rewrite Hb in Hip.
  eapply reaches_after; [exact R | exact Q |].
  destruct (sim_at ρ body ρ1 w1 Next _ _ m1 Hbody Hi1 Hse Hip Cb) as (n2 & m2 & R2 & Hi2 & S2 & K2 & Hip2).
  cbn in Hip2. fold (for_step (ip m)) in Hip2.
  destruct (next_runs ρ1 v1 k v2 X (ip m) m2) as (n3 & m3 & R3 & Hi3 & [Q3 Q4] & Hip3); [done..|].
  eapply reaches_then; [eapply continues_app; [exact R2 | exact R3] | by rewrite Q3 | by rewrite Q4 |].
  by apply (sim_at (<[x := v2]> ρ1) loop_code).
Qed.
End for_.

Lemma sim_for ρ x start stop step body v ρ' w o :
  x ∈ vars → scoped vars start = true → arith_expr 3 start = true → in_place x start = true →
  eval ρ start = Some v → simulates (<[x := v]> ρ) (loop_code x stop step body) ρ' w o →
  simulates ρ (for_code regs types x start stop step body) ρ' w o.
Proof.
  intros Hx Hs He Hp Hv Hloop X m Hi HX Hcode.
  fold (at_ (ip m) X (for_code regs types x start stop step body (ip m))) in Hcode.
  rewrite for_code_loop in *. apply at_app in Hcode as [C1 C2]. apply at_ins in C1.
  destruct (assign_runs ρ x start v m) as (n & m1 & R & Hi1 & Q & Hip & _); [done..|].
  eapply reaches_after; [exact R | exact Q |]. rewrite length_fmap in C2.
  rewrite length_app, length_fmap, Nat.add_assoc. by apply (sim_at (<[x := v]> ρ) (loop_code x stop step body)).
Qed.

(** ** CASE *)
Section case.
Context (x : string) (Hx : x ∈ vars).
Local Abbreviation rx := (reg_of regs x) (only parsing).

Definition test1 (v : Z) : list Instruction :=
  [load_imm (scratch 0) (S32_of v); cmp_inst OpEq rx (scratch 0)].

Lemma test_runs ρ v n t m :
  ρ !! x = Some v → inv ρ m → small t → code_at prog (ip m) (test1 n ++ [jump_if (ip_u32 t)]) →
  ∃ k m', continues k (E m) (E m') ∧ inv ρ m' ∧ quiet m m' ∧
    ip m' = if v =? wrap_s 32 n then t else (ip m + 3)%nat.
Proof.
  intros Hv Hi Ht Hcode. apply code_at_app in Hcode as [C1 C2].
  pose proof (scratch_high 0 ltac:(lia)) as [_ Hs0]. pose proof (inv_len _ _ Hi) as Hlen.
  set (m1 := advance_ip (set_reg m (scratch 0) (S32_of n))).
  assert (X : exec_seq m (test1 n) = Some (advance_ip (set_flags_zero m1 (v =? wrap_s 32 n)))).
  { apply (exec_seq_snoc m [load_imm (scratch 0) (S32_of n)] _ m1);
      [apply exec_one; [done | by apply exec_load_imm] | done |].
    apply (cmp_runs Eq_ m1 rx (scratch 0) v (wrap_s 32 n)); [done | | by apply read_set_same].
    unfold m1. rewrite read_advance, read_set_other; [by apply (inv_agree _ _ Hi)|].
    by apply not_eq_sym, var_not_scratch; [|lia]. }
  assert (Hi1 : inv ρ m1).
  { eapply inv_kept; [|apply (kept_set 0)|exact Hi]. intros; apply var_not_scratch; [done|lia]. }
  destruct (run_plain m _ _ X) as [R Hip]; [done..|]. rewrite <- Hip in C2. apply code_at_cons in C2 as [C2 _].
  pose proof (jump_if_step _ _ C2) as R2. cbn [flags_zero advance_ip set_flags_zero set_ip] in R2.
  rewrite to_nat_ip in R2 by done.
  eexists _, _. split; [eapply continues_app; [exact R | exact R2]|].
  destruct (v =? wrap_s 32 n); split_and!; try done; try by destruct Hi1. cbn in Hip |- *. lia.
Qed.

Lemma tests_run ρ v values t X m :
  ρ !! x = Some v → inv ρ m → small t → at_ (ip m) X (fill OnTrue t (case_tests rx values)) →
  ∃ k m', continues k (E m) (E m') ∧ inv ρ m' ∧ quiet m m' ∧
    ip m' = if existsb (fun n => v =? wrap_s 32 n) values then t
            else (ip m + length (case_tests rx values))%nat.
Proof.
  intros Hv. revert m. induction values as [|n values IH]; intros m Hi Ht Hcode.
  { exists 0%nat, m. split_and!; [constructor | done..|]. cbn. lia. }
  change (case_tests rx (n :: values)) with
    (((Ins <$> test1 n) ++ [Jmp OpJumpIf (Hole OnTrue)]) ++ case_tests rx values) in *.
  rewrite fill_app in Hcode. apply at_app in Hcode as [C1 C2]. rewrite fill_length, length_app in C2.
  cbn [length fmap list_fmap test1] in C2. rewrite !length_app. cbn [length fmap list_fmap test1].
  assert (C1' : code_at prog (ip m) (test1 n ++ [jump_if (ip_u32 t)])) by exact C1.
  destruct (test_runs ρ v n t m Hv Hi Ht C1') as (k & m1 & R & Hi1 & Q & Hip). cbn [existsb].
  destruct (v =? wrap_s 32 n); [by exists k, m1|]. cbn [orb].
  destruct (IH m1 Hi1 Ht) as (k2 & m2 & R2 & Hi2 & Q2 & Hip2); [eapply at_eq; [exact C2 | lia]|].
  exists (k + k2)%nat, m2. split_and!; [by eapply continues_app | done | by eapply quiet_trans |].
  rewrite Hip2. destruct (existsb _ values); [done | lia].
Qed.

(** One arm: to the end [e] of the statement, or to the next arm. *)
Lemma arm_runs ρ v values body e X m :
  ρ !! x = Some v → inv ρ m → small X → small e →
  closed body → at_ (ip m) X (fill OnEnd e (arm_code rx values body (ip m))) →
  if existsb (fun n => v =? wrap_s 32 n) values then
    ∀ ρ' w o, simulates ρ body ρ' w o → reaches m ρ' w o e X
  else ∃ n m', continues n (E m) (E m') ∧ inv ρ m' ∧ quiet m m' ∧
         ip m' = (ip m + length (arm_code rx values body (ip m)))%nat.
Proof.
  intros Hv Hi HX He Hcl Hcode. pose proof (λ n, at_small _ _ _ n Hcode) as Hsm. unfold arm_code in *.
  remember (ip m + length (case_tests rx values) + 1)%nat as bpc eqn:Eb.
  rewrite fill_length in Hsm. rewrite !length_app, !fill_length in *. cbn [length] in *.
  rewrite !(fill_app OnEnd) in Hcode.
  apply at_app in Hcode as [C1 C2]. apply at_app in C2 as [C2 C3]. apply at_app in C3 as [C3 C4].
  rewrite !fill_length in *. cbn [length] in *.
  rewrite (fill_none OnEnd e (body bpc)) in C3 by (intros; by apply Hcl).
  rewrite (fill_none OnEnd e (fill OnTrue _ _)) in C1
    by (intros p; rewrite holes_fill_other by done; by apply tests_holes).
  destruct (tests_run ρ v values bpc X m Hv Hi) as (n & m1 & R & Hi1 & Q & Hip); [apply Hsm; lia | done |].
  destruct (existsb _ values).
  - intros ρ' w o Hb. eapply reaches_after; [exact R | exact Q |].
    eapply reaches_and_jump; [apply (sim_at ρ body _ _ _ X bpc) | exact He |]; try done.
    + eapply at_eq; [exact C3 | lia].
    + eapply at_eq; [exact C4 | lia].
  - exists (n + 1)%nat, (set_ip m1 (bpc + length (body bpc) + 1)). split_and!; [|by apply inv_set_ip | done |].
    + eapply continues_app; [exact R|]. eapply at_jump; [by rewrite Hip | apply Hsm; lia].
    + cbn. lia.
Qed.

Local Abbreviation arm := (λ '(values, body), arm_code rx values (stmts_code regs types body)) (only parsing).

(** The arms in order, then the end [e] or the code after them. *)
Lemma arms_run ρ v cases e X m :
  ρ !! x = Some v → inv ρ m → small X → small e →
  at_ (ip m) X (fill OnEnd e (seq_code arm cases (ip m))) →
  match select v cases with
  | Some body => ∀ ρ' w o, simulates ρ (stmts_code regs types body) ρ' w o → reaches m ρ' w o e X
  | None => ∃ n m', continues n (E m) (E m') ∧ inv ρ m' ∧ quiet m m' ∧
              ip m' = (ip m + length (seq_code arm cases (ip m)))%nat
  end.
Proof.
  intros Hv. revert m. induction cases as [|[values body] cases IH]; intros m Hi HX He Hcode.
  { exists 0%nat, m. split_and!; [constructor | done..|]. cbn. lia. }
  cbn [select seq_code] in *. rewrite fill_app in Hcode. apply at_app in Hcode as [C1 C2].
  rewrite fill_length in C2.
  pose proof (arm_runs ρ v values (stmts_code regs types body) e X m Hv Hi HX He (stmts_closed _ _ _) C1) as Harm.
  destruct (existsb _ values); [done|]. destruct Harm as (n & m1 & R & Hi1 & Q & Hip).
  rewrite <- Hip in C2. rewrite length_app, Nat.add_assoc, <- Hip.
  specialize (IH m1 Hi1 HX He C2). destruct (select v cases).
  - intros ρ' w o Hb. eapply reaches_after; [exact R | exact Q | by apply IH].
  - destruct IH as (n2 & m2 & R2 & Hi2 & Q2 & Hip2). exists (n + n2)%nat, m2.
    split_and!; [by eapply continues_app | done | by eapply quiet_trans | done].
Qed.

Lemma sim_case ρ v cases els ρ' w o :
  ρ !! x = Some v → simulates ρ (stmts_code regs types (default els (select v cases))) ρ' w o →
  simulates ρ (case_code (seq_code arm cases) (stmts_code regs types els)) ρ' w o.
Proof.
  intros Hv Hb X m Hi HX Hcode.
  fold (at_ (ip m) X (case_code (seq_code arm cases) (stmts_code regs types els) (ip m))) in Hcode.
  pose proof (λ n, at_small _ _ _ n Hcode) as Hsm. unfold case_code in *.
  remember (ip m + length (seq_code arm cases (ip m)))%nat as epc eqn:Ee.
  rewrite !length_app, !fill_length in *. apply at_app in Hcode as [C1 C2]. rewrite fill_length, <- Ee in C2.
  pose proof (arms_run ρ v cases (epc + length (stmts_code regs types els epc))%nat X m Hv Hi HX) as Harms.
  specialize (Harms ltac:(apply Hsm; lia) C1).
  rewrite Nat.add_assoc, <- Ee. destruct (select v cases) as [body|]; [by apply Harms|].
  destruct Harms as (n & m1 & R & Hi1 & Q & Hip). eapply reaches_after; [exact R | exact Q |].
  rewrite <- Ee in Hip. by apply (sim_at ρ (stmts_code regs types els)).
Qed.
End case.

(** ** The simulation *)
Lemma loop_ready x start stop step body :
  fragment vars (For_ x start stop step body) = true →
  (x ∈ vars ∧ scoped vars start = true ∧ arith_expr 3 start = true ∧ in_place x start = true)
  ∧ (scoped vars stop = true ∧ arith_expr 2 stop = true
     ∧ match step with Some e => scoped vars e && arith_expr 2 e = true | None => True end)
  ∧ forallb (fragment vars) body = true.
Proof.
  cbn [fragment]. rewrite !andb_true_iff. intros [[[[[[[Hx Hs] Ha] Hp] Hs2] Ha2] Hst] Hb].
  split_and!; auto using known_var. by destruct step.
Qed.

Lemma simulation :
  (∀ ρ s ρ' w o, runs ρ s ρ' w o → fragment vars s = true → simulates ρ (stmt_code s) ρ' w o)
  ∧ (∀ ρ ss ρ' w o, runs_all ρ ss ρ' w o → forallb (fragment vars) ss = true →
       simulates ρ (stmts_code regs types ss) ρ' w o)
  ∧ (∀ x stop step body ρ ρ' w o, runs_for x stop step body ρ ρ' w o →
       x ∈ vars → scoped vars stop = true → arith_expr 2 stop = true →
       match step with Some e => scoped vars e && arith_expr 2 e = true | None => True end →
       forallb (fragment vars) body = true →
       simulates ρ (loop_code x stop step (stmts_code regs types body)) ρ' w o).
Proof.
  apply runs_mutind.
  - intros. by apply sim_assign.
  - intros. apply sim_exit.
  - intros. apply sim_return.
  - intros ρ c t e b ρ' w o Hb _ IH Hf. cbn [fragment] in Hf. rewrite !andb_true_iff in Hf.
    destruct Hf as [[[Hc Hs] Ht] He]. apply (sim_if ρ c _ _ b); [done..|]. by destruct b; apply IH.
  - intros ρ c body Hb Hf. cbn [fragment] in Hf. rewrite !andb_true_iff in Hf.
    destruct Hf as [[Hc Hs] _]. by apply sim_while_done.
  - intros ρ c body ρ' w o Hb _ IH Ho Hf. cbn [fragment] in Hf. rewrite !andb_true_iff in Hf.
    destruct Hf as [[Hc Hs] Hbd]. apply sim_while_stop; auto.
  - intros ρ c body ρ1 w1 ρ2 w2 o Hb _ IH1 _ IH2 Hf. pose proof Hf as Hf'. cbn [fragment] in Hf.
    rewrite !andb_true_iff in Hf. destruct Hf as [[Hc Hs] Hbd].
    apply (sim_while_again c (stmts_code regs types body) Hc Hs ρ ρ1); auto.
  - intros ρ body c ρ' w o _ IH Ho Hf. cbn [fragment] in Hf. rewrite !andb_true_iff in Hf.
    destruct Hf as [[Hbd Hc] Hs]. apply sim_repeat_stop; auto.
  - intros ρ body c ρ' w _ IH Hb Hf. cbn [fragment] in Hf. rewrite !andb_true_iff in Hf.
    destruct Hf as [[Hbd Hc] Hs]. apply sim_repeat_done; auto.
  - intros ρ body c ρ1 w1 ρ2 w2 o _ IH1 Hb _ IH2 Hf. pose proof Hf as Hf'. cbn [fragment] in Hf.
    rewrite !andb_true_iff in Hf. destruct Hf as [[Hbd Hc] Hs].
    apply (sim_repeat_again c (stmts_code regs types body) Hc Hs ρ ρ1); auto.
  - intros ρ x start stop step body v ρ' w o Hv _ IH Hf.
    apply loop_ready in Hf as ((Hx & Hs & Ha & Hp) & (Hs2 & Ha2 & Hst) & Hb).
    eapply sim_for; eauto.
  - intros ρ x cases els v ρ' w o Hv _ IH Hf. cbn [fragment] in Hf. rewrite !andb_true_iff in Hf.
    destruct Hf as [[Hx%known_var Hcs] He]. eapply (sim_case x Hx); [exact Hv|]. apply IH.
    clear -Hcs He. induction cases as [|[vs b] cases IHc]; cbn in *; [done|].
    apply andb_true_iff in Hcs as [H1 H2]. destruct (existsb _ vs); auto.
  - intros. apply sim_nil.
  - intros ρ s ss ρ' w o _ IH Ho Hf. cbn in Hf. apply andb_true_iff in Hf as [H1 H2]. apply sim_stop; auto.
  - intros ρ s ss ρ1 w1 ρ2 w2 o _ IH1 _ IH2 Hf. cbn in Hf. apply andb_true_iff in Hf as [H1 H2].
    eapply sim_cons; [by apply IH1 | by apply IH2].
  - intros. eapply sim_for_done; eauto.
  - intros. eapply sim_for_stop; eauto.
  - intros. eapply sim_for_again; eauto.
Qed.
End profile.
