(* ===== verification/StProgram.v ===== *)
(** * Whole Structured Text programs

    The register assignment of [Codegen::new], and the correctness of compiled
    programs of the fragment. *)
From S2P Require Import Prelude Float StLexer StParser StCodegen StLayout StBackpatch StGenerator StSemantics StExprRun StCorrect.
From S2P Require Import HalTypes HalValue HalIr FunctionBlocks Vm Executor ExecutorFacts ExecutorControl StraightLine.
Local Open Scope Z_scope.

(** ** Registers of the variables *)
Definition names (vars : list VarDecl) : list string := var_name <$> vars.

Lemma assign_registers_spec vars : ∀ i regs types,
  NoDup (names vars) →
  let '(regs', types') := assign_registers i vars regs types in
  (∀ j v, vars !! j = Some v →
     regs' !! var_name v = Some (i + j)%nat ∧ types' !! var_name v = Some (var_type v))
  ∧ (∀ x, x ∉ names vars → regs' !! x = regs !! x ∧ types' !! x = types !! x).
Proof.
  induction vars as [|v vars IH]; intros i regs types Hd; [by split|].
  cbn [assign_registers names fmap list_fmap] in *. apply NoDup_cons in Hd as [Hv Hd].
  specialize (IH (S i) (<[var_name v := i]> regs) (<[var_name v := var_type v]> types) Hd).
  destruct (assign_registers _ _ _ _) as [regs' types']. destruct IH as [IH1 IH2]. split.
  - intros [|j] u; cbn; intros Hj.
    + injection Hj as ->. destruct (IH2 (var_name u) Hv) as [-> ->].
      rewrite !lookup_insert_eq. split; [f_equal; lia | done].
    + destruct (IH1 j u Hj) as [-> ->]. split; [f_equal; lia | done].
  - intros x [Hne Hx]%not_elem_of_cons. destruct (IH2 x Hx) as [-> ->].
    by rewrite !lookup_insert_ne.
Qed.

(** The declarations of a program of the fragment. *)
Definition dint_vars (p : Program) : Prop :=
  NoDup (names (p_variables p)) ∧ Forall (λ v, var_type v = TyDInt) (p_variables p).

Lemma program_variables_ok p g :
  dint_vars p → codegen_new (p_variables p) = Ok g →
  variables_ok (regs_of p) (types_of p) (names (p_variables p)).
Proof.
  unfold codegen_new, regs_of, types_of. intros [Hd Ht] Hg.
  destruct (_ <? _)%nat eqn:Hn in Hg; [done|]. apply Nat.ltb_ge in Hn. clear Hg.
  pose proof (assign_registers_spec (p_variables p) 0 ∅ ∅ Hd) as Hs.
  destruct (assign_registers _ _ _ _) as [regs types]. destruct Hs as [Hs _]. cbn [fst snd].
  assert (Hx : ∀ x, x ∈ names (p_variables p) → ∃ j v, p_variables p !! j = Some v ∧ x = var_name v
                 ∧ reg_of regs x = j ∧ type_of types x = TyDInt ∧ (j < MAX_VAR_REGS)%nat).
  { intros x (v & -> & Hv)%list_elem_of_fmap. apply list_elem_of_lookup in Hv as [j Hj].
    destruct (Hs j v Hj) as [H1 H2]. exists j, v. unfold reg_of, type_of. rewrite H1, H2.
    apply lookup_lt_Some in Hj as Hlt.
    split_and!; try done; [|lia]. exact (proj1 (Forall_lookup _ _) Ht j v Hj). }
  split.
  - intros x (j & v & _ & _ & -> & _ & Hj)%Hx. done.
  - intros x y (j & v & Hj & -> & -> & _)%Hx (k & u & Hk & -> & -> & _)%Hx E. subst k. congruence.
  - intros x (j & v & _ & _ & _ & -> & _)%Hx. done.
Qed.

(** Every variable starts at zero. *)
Definition initial (p : Program) : gmap string Z :=
  list_to_map ((λ x, (x, 0)) <$> names (p_variables p)).
Lemma initial_zero p x v : initial p !! x = Some v → v = 0.
Proof.
  unfold initial. intros Hx%elem_of_list_to_map_2. apply list_elem_of_fmap in Hx as (y & [= _ ->] & _). done.
Qed.

Section profile.
Context `{BuildProfile}.

Lemma initial_inv p : variables_ok (regs_of p) (types_of p) (names (p_variables p)) →
  inv (regs_of p) (names (p_variables p)) (initial p) vm_new.
Proof.
  intros Hok. split; [|done|].
  - intros x v Hx Hv. rewrite (initial_zero p x v Hv).
    pose proof (reg_low _ _ _ Hok x Hx) as Hlow. unfold MAX_VAR_REGS in Hlow.
    unfold read_register, REGISTER_COUNT. rewrite (proj2 (Nat.ltb_lt _ _)) by lia.
    cbn -[replicate REGISTER_COUNT lookup]. apply lookup_replicate_2. unfold REGISTER_COUNT. lia.
  - intros x v Hv. by rewrite (initial_zero p x v Hv).
Qed.

(** Reaching a [Halt] ends the run there. *)
Lemma run_to_halt_from n e e1 :
  continues n e e1 → debug_mode (debug_state e1) = false → instructions (program e1) !! ip (vm e1) = Some halt →
  run_to_halt (S n) e = Done (with_vm e1 (advance_ip (vm e1))) (S n).
Proof.
  intros Hc Hd Hh. unfold run_to_halt.
  rewrite (run_loop_complete n e e1 (with_vm e1 (advance_ip (vm e1))) Halted 0);
    [f_equal; lia | done | | done | lia].
  rewrite (step_no_debug e1 halt) by done. unfold step_instruction. cbn. rewrite Hd. by destruct e1.
Qed.

(** A program whose main code simulates from the initial values runs so. *)
Lemma run_simulated p prog ρ' w o :
  dint_vars p → small (length (layout p)) → compile_ast p = Some (Ok prog) →
  (variables_ok (regs_of p) (types_of p) (names (p_variables p)) → small (length (instructions prog)) →
   simulates (regs_of p) (names (p_variables p)) prog debug_new (initial p)
     (stmts_code (regs_of p) (types_of p) (p_body p)) ρ' w o) →
  o ≠ Exited →
  ∃ n e, run_to_halt n (executor_new prog) = Done e n
    ∧ signals (vm e) = write_all ∅ w
    ∧ ∀ x v, x ∈ names (p_variables p) → ρ' !! x = Some v →
        read_register (vm e) (reg_of (regs_of p) x) = Some (VS32 v).
Proof.
  intros Hv Hs Hc Hsim Ho. destruct (compile_ast_layout p prog Hs Hc) as (Hi & _ & _).
  assert (Hok : variables_ok (regs_of p) (types_of p) (names (p_variables p))).
  { unfold compile_ast in Hc. destruct (codegen_new (p_variables p)) as [g|] eqn:Hg; [|done].
    by eapply program_variables_ok. }
  assert (Hsm : small (length (instructions prog))) by (by rewrite Hi, resolve_length).
  assert (Hcode : code_at prog 0 (resolve (fill OnExit 0 (main_code (regs_of p) (types_of p) p)))).
  { rewrite resolve_fill_zero. eexists [], _. rewrite Hi. unfold layout, program_code.
    by rewrite resolve_app. }
  unfold main_code in Hcode. rewrite fill_app, resolve_app in Hcode. apply code_at_app in Hcode as [C1 C2].
  rewrite resolve_length, fill_length in C2.
  destruct (Hsim Hok Hsm 0%nat vm_new (initial_inv p Hok) ltac:(by vm_compute) C1)
    as (n & m & Hn & Hinv & Hsig & _ & He).
  set (e := mkExecutor m prog debug_new) in *.
  assert (Hh : instructions prog !! ip m = Some halt).
  { destruct o; [|done..]. cbn in He. rewrite He. apply code_at_cons in C2 as [C2 _]. exact C2. }
  exists (S n), (with_vm e (advance_ip m)). split_and!; [by apply (run_to_halt_from n) | exact Hsig|].
  intros x v Hx Hxv. exact (inv_agree _ _ _ _ Hinv x v Hx Hxv).
Qed.

(** [C2] Compiled programs compute what their source means: let the compiler
    accept a program over at most 13 DINT variables whose statements are
    assignments, IF, WHILE, REPEAT, FOR, CASE, EXIT and RETURN over integer
    arithmetic and comparisons (expressions within the scratch registers, an
    assignment's right operands not reading the variable assigned).  If the
    source, from all variables zero, runs to completion with final values [ρ']
    and outputs [w], then the compiled program, run from a fresh machine, halts,
    having written exactly the signals [w] in that order, with every variable's
    register holding its value in [ρ']. *)
Theorem st_program_correct p prog ρ' w o :
  dint_vars p → forallb (fragment (names (p_variables p))) (p_body p) = true →
  small (length (layout p)) → compile_ast p = Some (Ok prog) →
  runs_all (initial p) (p_body p) ρ' w o → o ≠ Exited →
  ∃ n e, run_to_halt n (executor_new prog) = Done e n
    ∧ signals (vm e) = write_all ∅ w
    ∧ ∀ x v, x ∈ names (p_variables p) → ρ' !! x = Some v →
        read_register (vm e) (reg_of (regs_of p) x) = Some (VS32 v).
Proof.
  intros Hv Hf Hs Hc Hr. apply run_simulated; [done..|]. intros Hok Hsm.
  by apply (simulation (regs_of p) (types_of p) _ Hok prog debug_new Hsm eq_refl).
Qed.
End profile.

(** ** Witnesses *)
Definition sums_source : string :=
  "PROGRAM sums VAR x : DINT; y : DINT; z : DINT; END_VAR x := 3; WHILE x > 0 DO y := y + x; x := x - 1; END_WHILE; CASE y OF 1, 2: z := 7; 6: FOR x := 1 TO 5 DO IF x = 3 THEN EXIT; END_IF; z := z + y; END_FOR; ELSE z := -1; END_CASE; REPEAT y := y / 4; UNTIL y <= 0 END_REPEAT; END_PROGRAM".
Definition parsed (source : string) : Program :=
  match tokenize source with
  | Ok ts => match parse_program ts with Some (Ok p) => p | _ => mkProg "" [] [] [] end
  | Err _ => mkProg "" [] [] []
  end.
Definition compiled (p : Program) : HalProgram :=
  match compile_ast p with Some (Ok p) => p | _ => program_new "" [] end.
Definition sums : Program := parsed sums_source.
Definition sums_program : HalProgram := compiled sums.

Lemma generator_is_layout_witness :
  length (instructions sums_program) = 64%nat
  ∧ instructions sums_program = resolve (layout sums).
Proof.
  split; [vm_compute; reflexivity|].
  apply (generator_is_layout sums sums_program); vm_compute; reflexivity.
Defined.


Lemma st_program_correct_witness :
  ∃ n e, run_to_halt (H := debug_profile) n (executor_new sums_program) = Done e n
    ∧ signals (vm e) !! "z" = Some (VS32 12) ∧ signals (vm e) !! "y" = Some (VS32 0).
Proof.
  destruct (interp_all (H := debug_profile) 100 (initial sums) (p_body sums)) as [[[ρ w] o]|] eqn:E;
    [|by vm_compute in E].
  assert (Hw : write_all ∅ w !! "z" = Some (VS32 12) ∧ write_all ∅ w !! "y" = Some (VS32 0) ∧ o = Next).
  { vm_compute in E. injection E as <- <- <-. by vm_compute. }
  destruct Hw as (Hz & Hy & ->).
  destruct (st_program_correct (H := debug_profile) sums sums_program ρ w Next) as (n & e & Hr & Hs & _).
  - split; [apply (bool_decide_unpack _); vm_compute; exact I | repeat constructor].
  - vm_compute. reflexivity.
  - vm_compute. reflexivity.
  - vm_compute. reflexivity.
  - exact (proj1 (proj2 (interp_sound (H := debug_profile) 100)) _ _ _ _ _ E).
  - discriminate.
  - exists n, e. rewrite Hs. split; [exact Hr | split; [exact Hz | exact Hy]].
Defined.
