(* ===== verification/StSafety.v ===== *)
(** * Structured Text: what every compiled program satisfies

    Facts about the code of any program, not only of the fragment: jumps stay
    inside the main program, and no instruction reads a signal. *)
From S2P Require Import Prelude Float StLexer StParser StCodegen StLayout StBackpatch StGenerator StProgram.
From S2P Require Import HalTypes HalValue HalIr FunctionBlocks Vm Executor ExecutorFacts ExecutorControl StraightLine.
Local Open Scope Z_scope.

(** The instruction does not load a signal, does not return, and jumps to at
    most [b]. *)
Definition inst_ok (b : nat) (i : Instruction) : bool :=
  match opcode i, operands i with
  | OpLoad, [Register _; SignalName _] => false
  | OpLoad, [Register _; _] => true
  | OpLoad, _ => false
  | OpJump, [Immediate (VU32 t)] | OpJumpIf, [Immediate (VU32 t)] => (0 <=? t) && (t <=? Z.of_nat b)
  | OpJump, _ | OpJumpIf, _ | OpRet, _ => false
  | OpCall, [Immediate (VU32 t)] => t =? 0
  | OpCall, _ => false
  | _, _ => true
  end.
Definition item_ok (b : nat) (i : Item) : bool :=
  match i with
  | Ins i => inst_ok b i
  | Jmp op (Abs n) => bool_decide (op ∈ [OpJump; OpJumpIf]) && (n <=? b)%nat
  | Jmp op (Hole _) => bool_decide (op ∈ [OpJump; OpJumpIf])
  end.

Lemma ip_u32_bound n : 0 ≤ ip_u32 n ≤ Z.of_nat n.
Proof. unfold ip_u32, wrap_u. split; [apply Z.mod_pos_bound; lia | apply Z.mod_le; lia]. Qed.
Lemma jump_if_ok b n : (n ≤ b)%nat → inst_ok b (jump_if (ip_u32 n)) = true.
Proof. intros Hn. cbn. pose proof (ip_u32_bound n). rewrite andb_true_iff, !Z.leb_le. lia. Qed.

Lemma ok_resolve b c : forallb (item_ok b) c = true → forallb (inst_ok b) (resolve c) = true.
Proof.
  unfold resolve. induction c as [|[i|op [n|h]] c IH]; [done|..]; cbn [forallb fmap list_fmap item_ok resolve1];
    rewrite !andb_true_iff; intros [Hi Hc]; (split; [|by apply IH]); [done|..].
  - destruct Hi as [Ho%bool_decide_eq_true Hn%Nat.leb_le]. pose proof (ip_u32_bound n).
    assert (0 <=? ip_u32 n = true ∧ ip_u32 n <=? Z.of_nat b = true) as [H1 H2] by (rewrite !Z.leb_le; lia).
    repeat (apply elem_of_cons in Ho as [->|Ho]; [cbn; by rewrite H1, H2|]). by apply elem_of_nil in Ho.
  - apply bool_decide_eq_true in Hi. assert (0 <=? Z.of_nat b = true) as H1 by (apply Z.leb_le; lia).
    repeat (apply elem_of_cons in Hi as [->|Hi]; [cbn; by rewrite H1|]). by apply elem_of_nil in Hi.
Qed.
Lemma ok_fill b h n c : (n ≤ b)%nat → forallb (item_ok b) c = true → forallb (item_ok b) (fill h n c) = true.
Proof.
  intros Hn. unfold fill. induction c as [|[i|op [m|h']] c IH]; [done|..]; cbn [forallb fmap list_fmap fill1];
    rewrite !andb_true_iff; intros [Hi Hc]; (split; [|by apply IH]); [done..|].
  case_decide; [|done]. cbn in *. rewrite Hi. by apply Nat.leb_le.
Qed.
Lemma ok_fill2 b h n h' m c : (n ≤ b)%nat → (m ≤ b)%nat → forallb (item_ok b) c = true →
  forallb (item_ok b) (fill h n (fill h' m c)) = true.
Proof. intros Hn Hm Hc. by apply ok_fill, ok_fill. Qed.
Lemma ok_swap b c : forallb (item_ok b) c = true → forallb (item_ok b) (swap c) = true.
Proof.
  unfold swap. induction c as [|[i|op [m|h']] c IH]; [done|..]; cbn [forallb fmap list_fmap swap1];
    rewrite !andb_true_iff; intros [Hi Hc]; (split; [done | by apply IH]).
Qed.
Lemma ok_ins b l : forallb (item_ok b) (Ins <$> l) = forallb (inst_ok b) l.
Proof. induction l as [|i l IH]; [done|]. cbn. by rewrite IH. Qed.

Section code.
Context (regs : gmap string nat) (types : gmap string VarType).

Lemma compare_ok cr cl op pc k b :
  (∀ pc k d b, (pc + length (cr pc k d) ≤ b)%nat → forallb (inst_ok b) (cr pc k d) = true) →
  (∀ pc k d b, (pc + length (cl pc k d) ≤ b)%nat → forallb (inst_ok b) (cl pc k d) = true) →
  (pc + length (compare_code cr cl op pc k) ≤ b)%nat →
  forallb (inst_ok b) (compare_code cr cl op pc k) = true.
Proof.
  intros Hr Hl. unfold compare_code. rewrite !length_app. cbn [length]. intros Hb.
  rewrite !forallb_app, Hr, Hl by lia. by destruct op.
Qed.

Lemma expr_ok e : ∀ pc k d b,
  (pc + length (expr_code regs types e pc k d) ≤ b)%nat →
  forallb (inst_ok b) (expr_code regs types e pc k d) = true.
Proof.
  induction e as [n|n|v|x|l IHl op r IHr|[] e IH|x e IH|x f]; intros pc k d b; cbn [expr_code]; try done.
  - by destruct (_ =? _)%nat.
  - destruct (op_to_arith_opcode op) as [o|] eqn:Eo.
    + rewrite !length_app. cbn [length]. intros Hb. rewrite !forallb_app, IHl, IHr by lia.
      destruct op; try done; by injection Eo as <-.
    + destruct (is_cmp_op op).
      * unfold compare_value. rewrite length_app. cbn [length]. intros Hb.
        rewrite forallb_app, compare_ok by (done || lia). cbn [forallb andb].
        rewrite jump_if_ok by lia. done.
      * rewrite !length_app. cbn [length]. intros Hb. rewrite !forallb_app, IHl, IHr by lia. by destruct op.
  - rewrite length_app. cbn [length]. intros Hb. by rewrite forallb_app, IH by lia.
  - rewrite length_app. cbn [length]. intros Hb. by rewrite forallb_app, IH by lia.
  - rewrite length_app. cbn [length]. intros Hb. by rewrite forallb_app, IH by lia.
  - unfold field_code. by repeat case_match.
Qed.

Lemma input_ok e pc k d b :
  (pc + length (input_code regs types e pc k d) ≤ b)%nat →
  forallb (inst_ok b) (input_code regs types e pc k d) = true.
Proof. destruct e; cbn [input_code]; intros Hb; first [done | by apply expr_ok]. Qed.
Lemma args_ok args : ∀ i pc b,
  (pc + length (args_code regs types i args pc) ≤ b)%nat →
  forallb (inst_ok b) (args_code regs types i args pc) = true.
Proof.
  induction args as [|a args IH]; intros i pc b; cbn [args_code]; [done|].
  rewrite length_app. intros Hb. rewrite forallb_app, IH by lia.
  rewrite andb_true_r. destruct (i <? 4)%nat; [apply expr_ok; lia | done].
Qed.
Lemma call_ok x args pc b :
  (pc + length (fun_call_code regs types x args pc) ≤ b)%nat →
  forallb (inst_ok b) (fun_call_code regs types x args pc) = true.
Proof.
  assert (Hc : (pc + length (call_code regs types args pc) ≤ b)%nat →
               forallb (inst_ok b) (call_code regs types args pc) = true).
  { unfold call_code. rewrite length_app. cbn [length]. intros Hb. by rewrite forallb_app, args_ok by lia. }
  assert (He : ∀ vt a, (pc + length (edge_call regs types x vt a pc) ≤ b)%nat →
               forallb (inst_ok b) (edge_call regs types x vt a pc) = true).
  { intros vt a. unfold edge_call. rewrite length_app. cbn [length]. intros Hb. by rewrite forallb_app, input_ok by lia. }
  unfold fun_call_code. destruct (types !! x) as [vt|]; [|done].
  destruct args as [|a [|a2 rest]]; [exact Hc | destruct (is_edge vt); [apply He | exact Hc] |].
  destruct (is_timer vt); [|destruct (is_counter vt); [|destruct (is_sr_rs vt);
    [|destruct (is_edge vt); [apply He | exact Hc]]]].
  - unfold timer_call. rewrite length_app. cbn [length]. intros Hb. by rewrite forallb_app, input_ok by lia.
  - unfold counter_call. rewrite !length_app. cbn [length]. intros Hb.
    rewrite !forallb_app, input_ok by lia. destruct (head rest); [|done]. by rewrite input_ok by lia.
  - unfold sr_call. rewrite !length_app. cbn [length]. intros Hb.
    by rewrite !forallb_app, !input_ok by lia.
Qed.

(** The items of a template at [pc] are good for every bound past its end. *)
Definition good (F : nat → Template) : Prop :=
  ∀ pc b, (pc + length (F pc) ≤ b)%nat → forallb (item_ok b) (F pc) = true.

Lemma good_ins f : (∀ pc b, (pc + length (f pc) ≤ b)%nat → forallb (inst_ok b) (f pc) = true) →
  good (λ pc, Ins <$> f pc).
Proof. intros Hf pc b. rewrite length_fmap, ok_ins. apply Hf. Qed.
Lemma good_seq {A} (F : A → nat → Template) xs : Forall (λ x, good (F x)) xs → good (seq_code F xs).
Proof.
  intros HF. induction HF as [|x xs Hx _ IH]; intros pc b; cbn [seq_code]; [done|].
  rewrite length_app. intros Hb. by rewrite forallb_app, Hx, IH by lia.
Qed.
Lemma good_cond c : good (cond_code regs types c).
Proof.
  assert (Ht : ∀ e, good (test_code regs types e)).
  { intros e pc b. unfold test_code. rewrite length_app, length_fmap, length_app. cbn [length]. intros Hb.
    by rewrite forallb_app, ok_ins, forallb_app, expr_ok by lia. }
  induction c as [n|n|v|x|l IHl op r IHr|[] e IH|x e IH|x f]; try apply Ht; intros pc b; cbn [cond_code].
  - destruct (is_cmp_op op).
    { rewrite length_app, length_fmap. cbn [length]. intros Hb.
      rewrite forallb_app, ok_ins, compare_ok; try done; try lia; intros; by apply expr_ok. }
    case_bool_decide; [|case_bool_decide; [|by apply Ht]]; rewrite !length_app, ?fill_length; cbn [length]; intros Hb.
    + by rewrite forallb_app, IHl, IHr by lia.
    + rewrite !forallb_app, ok_fill, IHr; try lia; [done | apply IHl; lia].
  - rewrite swap_length. intros Hb. by apply ok_swap, IH.
Qed.

Ltac jump_ok := cbn [forallb item_ok]; rewrite (proj2 (Nat.leb_le _ _)) by lia; cbn [andb].

Lemma good_stmt s : good (stmt_code regs types s).
Proof.
  induction s as [x e| | |f args|x i v|c t e Ht He|c bd Hb|x a z k bd Hb|x cs e Hcs He|bd c Hb] using statement_ind;
    cbn [stmt_code].
  - apply good_ins. intros pc b. unfold assign_code. rewrite length_app. cbn [length]. intros Hb.
    by rewrite forallb_app, expr_ok by lia.
  - done.
  - done.
  - apply good_ins. apply call_ok.
  - apply good_ins. intros pc b. unfold array_assign_code. rewrite !length_app. cbn [length]. intros Hb.
    by rewrite !forallb_app, !expr_ok by lia.
  - intros pc b. unfold if_code. rewrite !length_app, !fill_length. cbn [length]. intros Hb.
    rewrite !forallb_app, ok_fill2; try lia; [|apply good_cond; lia].
    rewrite (good_seq _ _ Ht), (good_seq _ _ He) by lia. jump_ok. jump_ok. done.
  - intros pc b. unfold while_code. rewrite !length_app, !fill_length. cbn [length]. intros Hbd.
    rewrite !forallb_app, ok_fill2, ok_fill; try lia; [| apply (good_seq _ _ Hb); lia | apply good_cond; lia].
    jump_ok. jump_ok. done.
  - intros pc b. unfold for_code. fold (step_code regs types k).
    rewrite !length_app, !length_fmap, !length_app, !fill_length. cbn [length].
    set (s1 := (pc + length (expr_code regs types a pc 0 (reg_of regs x)))%nat).
    set (s2 := (s1 + length (expr_code regs types z s1 1 (scratch 0)) + 2)%nat).
    set (s3 := (s2 + length (seq_code (stmt_code regs types) bd s2))%nat).
    set (n3 := length (match k with Some _ => _ | None => _ end)). intros Hbd.
    rewrite !forallb_app, !ok_ins, !forallb_app, ok_fill; try lia; [|apply (good_seq _ _ Hb); lia].
    rewrite !expr_ok by lia. jump_ok. jump_ok.
    subst n3. destruct k; [by rewrite expr_ok by lia | done].
  - intros pc b. unfold case_code. rewrite length_app, fill_length. intros Hbd.
    rewrite forallb_app, ok_fill, (good_seq _ _ He); try lia. apply good_seq; [|lia].
    eapply Forall_impl; [exact Hcs|]. intros [vs body] Hb pc' b'. cbn [snd] in Hb. unfold arm_code.
    rewrite !length_app, fill_length. cbn [length]. intros Hb'.
    rewrite !forallb_app, ok_fill, (good_seq _ _ Hb); try lia; [by jump_ok|].
    clear. induction vs; [done|]. cbn. done.
  - intros pc b. unfold repeat_code. rewrite !length_app, !fill_length. cbn [length]. intros Hbd.
    rewrite !forallb_app, ok_fill2, ok_fill; try lia; [| apply (good_seq _ _ Hb); lia | apply good_cond; lia].
    by jump_ok.
Qed.
Lemma good_stmts ss : good (stmts_code regs types ss).
Proof. apply good_seq, Forall_forall. intros s _. apply good_stmt. Qed.
End code.

(** ** Executing without reading signals *)
Section signals.
Context `{BuildProfile}.

(** The same result with other signals. *)
Definition lift (s : gmap string HalValue) (x : option (Vm * ExecutorResult)) : option (Vm * ExecutorResult) :=
  (fun p => (with_signals p.1 s, p.2)) <$> x.

Lemma write_lift m s i v : write_register (with_signals m s) i v = (fun m => with_signals m s) <$> write_register m i v.
Proof. unfold write_register. by destruct (_ <? _)%nat. Qed.
Lemma grow_lift s count add i m :
  (∀ m, count (with_signals m s) = count m) → (∀ m, add (with_signals m s) = with_signals (add m) s) →
  grow count add i (with_signals m s) = with_signals (grow count add i m) s.
Proof.
  intros Hc Ha. unfold grow. generalize (S i). intros fuel. revert m.
  induction fuel as [|fuel IH]; intros m; [done|]. cbn. rewrite Hc, Ha. destruct (_ <=? _)%nat; [apply IH | done].
Qed.

(** Read, grow and write in any order: take the run apart on both sides. *)
Ltac lift_tac :=
  repeat first
    [ done
    | progress rewrite ?write_lift, ?grow_lift by done
    | progress cbn [mbind option_bind fmap option_fmap option_map fst snd]
    | match goal with
      | |- context [read_register (with_signals ?m ?s) ?i] =>
          change (read_register (with_signals m s) i) with (read_register m i)
      | |- context [read_reg (with_signals ?m ?s) ?i] =>
          change (read_reg (with_signals m s) i) with (read_reg m i)
      | |- context [bool_operand (with_signals ?m ?s) ?i] =>
          change (bool_operand (with_signals m s) i) with (bool_operand m i)
      | |- context [timer (with_signals ?m ?s) ?i] => change (timer (with_signals m s) i) with (timer m i)
      | |- context [counter (with_signals ?m ?s) ?i] => change (counter (with_signals m s) i) with (counter m i)
      | |- context [sr (with_signals ?m ?s) ?i] => change (sr (with_signals m s) i) with (sr m i)
      | |- context [edge (with_signals ?m ?s) ?i] => change (edge (with_signals m s) i) with (edge m i)
      | |- context [write_register ?m ?i ?v] => destruct (write_register m i v) eqn:?
      | |- context [?x ≫= _] => destruct x eqn:?
      | |- context [match ?x with _ => _ end] => destruct x eqn:?
      end ].

Lemma binop_lift m s ops f : exec_arith_binop (with_signals m s) ops f = lift s (exec_arith_binop m ops f).
Proof. unfold exec_arith_binop, lift, cont. lift_tac. Qed.
Lemma unary_lift m s ops f : exec_unary (with_signals m s) ops f = lift s (exec_unary m ops f).
Proof. unfold exec_unary, lift, cont. lift_tac. Qed.
Lemma compare_lift m s ops f : exec_compare (with_signals m s) ops f = lift s (exec_compare m ops f).
Proof. unfold exec_compare, lift, cont. lift_tac. Qed.
Lemma load_index_lift m s ops : exec_load_index (with_signals m s) ops = lift s (exec_load_index m ops).
Proof. unfold exec_load_index, lift, cont. lift_tac. Qed.
Lemma store_index_lift m s ops : exec_store_index (with_signals m s) ops = lift s (exec_store_index m ops).
Proof. unfold exec_store_index, lift, cont. lift_tac. Qed.
Lemma timer_run_lift m s ops : exec_timer_run (with_signals m s) ops = lift s (exec_timer_run m ops).
Proof. unfold exec_timer_run, grow_timers, lift, cont. lift_tac. Qed.
Lemma read_timer_lift m s ops : exec_read_timer (with_signals m s) ops = lift s (exec_read_timer m ops).
Proof. unfold exec_read_timer, grow_timers, lift, cont. lift_tac. Qed.
Lemma counter_run_lift m s ops : exec_counter_run (with_signals m s) ops = lift s (exec_counter_run m ops).
Proof. unfold exec_counter_run, grow_counters, lift, cont. lift_tac. Qed.
Lemma read_counter_lift m s ops : exec_read_counter (with_signals m s) ops = lift s (exec_read_counter m ops).
Proof. unfold exec_read_counter, grow_counters, lift, cont. lift_tac. Qed.
Lemma sr_run_lift m s ops : exec_sr_run (with_signals m s) ops = lift s (exec_sr_run m ops).
Proof. unfold exec_sr_run, grow_srs, lift, cont. lift_tac. Qed.
Lemma read_sr_lift m s ops : exec_read_sr (with_signals m s) ops = lift s (exec_read_sr m ops).
Proof. unfold exec_read_sr, grow_srs, lift, cont. lift_tac. Qed.
Lemma edge_run_lift m s ops : exec_edge_run (with_signals m s) ops = lift s (exec_edge_run m ops).
Proof. unfold exec_edge_run, grow_edges, lift, cont. lift_tac. Qed.
Lemma read_edge_lift m s ops : exec_read_edge (with_signals m s) ops = lift s (exec_read_edge m ops).
Proof. unfold exec_read_edge, grow_edges, lift, cont. lift_tac. Qed.
Lemma jump_if_lift m s ops : exec_jump_if (with_signals m s) ops = lift s (exec_jump_if m ops).
Proof.
  unfold exec_jump_if, lift, cont. change (flags_zero (with_signals m s)) with (flags_zero m).
  destruct (flags_zero m); by repeat case_match.
Qed.

(** An instruction that loads no signal gives the same machine and result
    whatever the signals, and writes the same ones. *)
Lemma execute_signals b m i m' r :
  inst_ok b i = true → execute_instruction m i = Some (m', r) →
  ∃ w, ∀ s, execute_instruction (with_signals m s) i = Some (with_signals m' (write_all s w), r).
Proof.
  assert (Hl : ∀ e : Vm → option (Vm * ExecutorResult), (∀ m s, e (with_signals m s) = lift s (e m)) →
    e m = Some (m', r) → ∃ w, ∀ s, e (with_signals m s) = Some (with_signals m' (write_all s w), r)).
  { intros e He Hm. exists []. intros s. by rewrite He, Hm. }
  destruct i as [op ops]. unfold inst_ok, execute_instruction. cbn [opcode operands].
  destruct op; intros Hok; try done;
    try (apply (Hl (λ m, exec_arith_binop m ops _)); intros; apply binop_lift);
    try (apply (Hl (λ m, exec_unary m ops _)); intros; apply unary_lift);
    try (apply (Hl (λ m, exec_compare m ops _)); intros; apply compare_lift).
  - intros [= <- <-]. by exists [].
  - destruct ops as [|[dst| |] [|src [|o l]]]; try done; destruct src as [r'|v|x]; try done;
      apply (Hl (λ m, exec_load m _)); intros; unfold exec_load, load_value, lift, cont; lift_tac.
  - unfold exec_store, cont. destruct ops as [|[| |x] [|src rest]]; try (intros [= <- <-]; by exists []).
    intros Hm. apply bind_Some in Hm as (v & Hv & Hm). injection Hm as <- <-. exists [(x, v)]. intros s.
    change (read_reg (with_signals m s) src) with (read_reg m src). by rewrite Hv.
  - apply (Hl (λ m, exec_jump m ops)). intros. unfold exec_jump, lift, cont. by repeat case_match.
  - apply (Hl (λ m, exec_jump_if m ops)). intros. apply jump_if_lift.
  - by apply (Hl (λ m, exec_call m ops)).
  - apply (Hl (λ m, exec_load_index m ops)). intros. apply load_index_lift.
  - apply (Hl (λ m, exec_store_index m ops)). intros. apply store_index_lift.
  - apply (Hl (λ m, exec_timer_run m ops)). intros. apply timer_run_lift.
  - apply (Hl (λ m, exec_read_timer m ops)). intros. apply read_timer_lift.
  - apply (Hl (λ m, exec_counter_run m ops)). intros. apply counter_run_lift.
  - apply (Hl (λ m, exec_read_counter m ops)). intros. apply read_counter_lift.
  - apply (Hl (λ m, exec_sr_run m ops)). intros. apply sr_run_lift.
  - apply (Hl (λ m, exec_read_sr m ops)). intros. apply read_sr_lift.
  - apply (Hl (λ m, exec_edge_run m ops)). intros. apply edge_run_lift.
  - apply (Hl (λ m, exec_read_edge m ops)). intros. apply read_edge_lift.
  - intros [= <- <-]. by exists [].
Qed.
End signals.

(** ** The main program is left only by its [Halt]. *)
Section confined.
Context `{BuildProfile}.
Context (prog : HalProgram) (h : nat).
Context (Hcode : ∀ i, (i ≤ h)%nat → ∃ inst, instructions prog !! i = Some inst ∧ inst_ok h inst = true).
Context (Hhalt : instructions prog !! h = Some halt).

(** Running the main program. *)
Definition inside (e : Executor) : Prop := program e = prog ∧ (ip (vm e) ≤ h)%nat.

Lemma data_op_ip m i m' r :
  is_data_op (opcode i) = true → execute_instruction m i = Some (m', r) → ip m' = ip m.
Proof. intros Hd He. apply control_data_op in He; [|done]. by injection He. Qed.

Lemma inside_inst e : inside e → ∃ i, instructions prog !! ip (vm e) = Some i ∧ inst_ok h i = true.
Proof. intros [_ Hi]. by apply Hcode. Qed.

Lemma inst_next m i m' r :
  inst_ok h i = true → (ip m < h ∨ i = halt)%nat → execute_instruction m i = Some (m', r) → r = Continue →
  (ip (if is_jump (opcode i) then m' else advance_ip m') ≤ h)%nat.
Proof.
  intros Hok Hlt He ->. destruct Hlt as [Hlt | ->]; [|done].
  destruct (is_data_op (opcode i)) eqn:Hd.
  { pose proof (data_op_ip _ _ _ _ Hd He) as Hip. destruct (is_jump (opcode i)); cbn; lia. }
  destruct i as [op ops]. unfold inst_ok, execute_instruction in *. cbn [opcode operands] in *.
  destruct op; try done; cbn [is_jump].
  - apply exec_store_frame in He as (_ & Hip & _). cbn. lia.
  - destruct ops as [|[|[] |] [|]]; try done. apply andb_true_iff in Hok as [H1%Z.leb_le H2%Z.leb_le].
    injection He as <-. cbn. lia.
  - destruct ops as [|[|[] |] [|]]; try done. apply andb_true_iff in Hok as [H1%Z.leb_le H2%Z.leb_le].
    unfold exec_jump_if, cont in He. destruct (flags_zero m); injection He as <-; cbn; lia.
  - destruct ops as [|[|[] |] [|]]; try done. apply Z.eqb_eq in Hok as ->.
    injection He as <-. cbn. lia.
Qed.

Lemma inside_cases e i :
  inside e → instructions prog !! ip (vm e) = Some i → (ip (vm e) < h ∨ i = halt)%nat.
Proof.
  intros [_ Hi] Hl. destruct (decide (ip (vm e) = h)) as [E|]; [right | left; lia].
  rewrite E, Hhalt in Hl. by injection Hl.
Qed.

Lemma inside_step e e' : inside e → step e = Some (e', Continue) → inside e'.
Proof.
  intros Hin Hs. destruct (inside_inst e Hin) as (i & Hi & Hok).
  pose proof (inside_cases e i Hin Hi) as Hlt. destruct Hin as [Hp _].
  apply step_inv in Hs as (i' & Hi' & [(_ & _ & [=]) | (_ & Hs)]). rewrite Hp, Hi in Hi'. injection Hi' as <-.
  apply step_instruction_inv in Hs as (m & d & He & -> & _). split; [done|]. cbn [vm].
  exact (inst_next _ _ _ _ Hok Hlt He eq_refl).
Qed.
Lemma inside_continues n e e' : continues n e e' → inside e → inside e'.
Proof. induction 1 as [|n e e1 e' Hs _ IH]; [done|]. intros Hin. by eapply IH, inside_step. Qed.

(** ** Two machines that differ in their signals run in step. *)
Lemma step_signals e e' r :
  inside e → step e = Some (e', r) →
  ∃ w, ∀ s, step (with_vm e (with_signals (vm e) s)) = Some (with_vm e' (with_signals (vm e') (write_all s w)), r).
Proof.
  intros Hin Hs. destruct (inside_inst e Hin) as (i & Hi & Hok). destruct Hin as [Hp _].
  unfold step in *. rewrite Hp, Hi in Hs. cbn [mbind option_bind] in Hs.
  destruct (at_breakpoint e) eqn:Hb.
  { injection Hs as <- <-. exists []. intros s'. cbn [vm with_vm program ip with_signals]. rewrite Hp, Hi. cbn.
    unfold at_breakpoint in *. cbn. by rewrite Hb. }
  unfold step_instruction in Hs. apply bind_Some in Hs as ([m r'] & He & Hs).
  apply bind_Some in Hs as (d & Hd & [= <- <-]).
  destruct (execute_signals h (vm e) i m r' Hok He) as [w Hw]. exists w. intros s'.
  cbn [vm with_vm program ip with_signals]. rewrite Hp, Hi. cbn [mbind option_bind].
  change (at_breakpoint (with_vm e _)) with (at_breakpoint e). rewrite Hb.
  unfold step_instruction. cbn [vm with_vm debug_state program]. rewrite Hw. cbn [mbind option_bind].
  change (read_register (with_signals m (write_all s' w)) 0) with (read_register m 0).
  change (ip (with_signals (vm e) s')) with (ip (vm e)). rewrite Hd. cbn [mbind option_bind].
  rewrite Hp. by destruct (is_jump (opcode i)).
Qed.

Lemma run_signals fuel e k e' n :
  inside e → run_loop fuel e k = Done e' n →
  ∃ w, ∀ s, run_loop fuel (with_vm e (with_signals (vm e) s)) k
            = Done (with_vm e' (with_signals (vm e') (write_all s w))) n.
Proof.
  revert e k. induction fuel as [|fuel IH]; intros e k Hin Hr; cbn in *; [done|].
  destruct (step e) as [[e1 r]|] eqn:Hs; [|done].
  destruct (step_signals e e1 r Hin Hs) as [w1 Hw1].
  destruct r; [|injection Hr as <- <-; exists w1; intros s; by rewrite Hw1..].
  pose proof (inside_step e e1 Hin Hs) as Hin1. destruct (IH e1 _ Hin1 Hr) as [w2 Hw2].
  exists (w1 ++ w2). intros s. rewrite Hw1, write_all_app.
  apply Hw2.
Qed.
End confined.

(** ** Compiled programs *)
Lemma main_inside p prog :
  small (length (layout p)) → compile_ast p = Some (Ok prog) →
  ∃ h, length (main_code (regs_of p) (types_of p) p) = S h
    ∧ (∀ i, (i ≤ h)%nat → ∃ inst, instructions prog !! i = Some inst ∧ inst_ok h inst = true)
    ∧ instructions prog !! h = Some halt.
Proof.
  intros Hs Hc. destruct (compile_ast_layout p prog Hs Hc) as (Hi & _ & _).
  set (c := stmts_code (regs_of p) (types_of p) (p_body p) 0). exists (length c).
  assert (Hm : instructions prog = (resolve c ++ [halt]) ++ resolve
     (seq_code (function_code (regs_of p) (types_of p)) (functions p) (length (main_code (regs_of p) (types_of p) p)))).
  { rewrite Hi. unfold layout, program_code. fold c. rewrite resolve_app. unfold main_code. by rewrite resolve_app. }
  split_and!.
  - unfold main_code. rewrite length_app. cbn. fold c. lia.
  - intros i Hle. destruct (lookup_lt_is_Some_2 (resolve c ++ [halt]) i) as [inst Hinst].
    { rewrite length_app, resolve_length. cbn. lia. }
    exists inst. split; [rewrite Hm; by apply lookup_app_l_Some|].
    assert (Hok : forallb (inst_ok (length c)) (resolve c ++ [halt]) = true).
    { rewrite forallb_app, ok_resolve; [done|]. by apply (good_stmts _ _ (p_body p) 0%nat). }
    rewrite forallb_forall in Hok. apply Hok, list_elem_of_In. by eapply list_elem_of_lookup_2.
  - rewrite Hm. apply lookup_app_l_Some. apply list_lookup_middle. by rewrite resolve_length.
Qed.

Lemma function_entries_after regs types fs pc f :
  f ∈ function_entries regs types fs pc →
  ∃ n, entry_point f = ip_u32 n ∧ (pc ≤ n ≤ pc + length (seq_code (function_code regs types) fs pc))%nat.
Proof.
  revert pc. induction fs as [|g fs IH]; intros pc; cbn [function_entries seq_code]; [by intros Hf%elem_of_nil|].
  rewrite length_app. intros [-> | Hf]%elem_of_cons; [exists pc; split; [done | lia]|].
  apply IH in Hf as (n & -> & Hn). exists n. split; [done | lia].
Qed.

Section programs.
Context `{BuildProfile}.

(** A compiled program stays in its main part: from instruction 0, in any
    machine and with the debugger on or off, every state reached stands at an
    instruction of the main program - so the interpreter never runs off the
    code, whatever jumps the nested statements took - and before the entry
    point of every function: the bodies the compiler emits for FUNCTIONs are
    never executed, since a call is always a call of address 0. *)
Theorem functions_never_run p prog m d n e :
  small (length (layout p)) → compile_ast p = Some (Ok prog) → ip m = 0%nat →
  continues n (mkExecutor m prog d) e →
  (∃ i, instructions prog !! ip (vm e) = Some i ∧ opcode i ≠ OpRet)
  ∧ Forall (λ f, Z.of_nat (ip (vm e)) < entry_point f) (function_table prog).
Proof.
  intros Hs Hc Hip Hn. destruct (main_inside p prog Hs Hc) as (h & Hl & Hcode & Hh).
  assert (Hin : inside prog h (mkExecutor m prog d)) by (split; [done | cbn; lia]).
  pose proof (inside_continues prog h Hcode Hh n _ _ Hn Hin) as Hin'.
  split.
  - destruct (inside_inst prog h Hcode e Hin') as (i & Hi & Hok). exists i. split; [done|].
    unfold inst_ok in Hok. by destruct (opcode i).
  - destruct (compile_ast_layout p prog Hs Hc) as (_ & _ & ->). apply Forall_forall. intros f Hf.
    apply function_entries_after in Hf as (k & -> & Hk). destruct Hin' as [_ Hle].
    unfold layout, program_code in Hs. rewrite length_app in Hs.
    rewrite ip_u32_exact by (unfold small in *; lia). lia.
Qed.

(** A compiled program never reads its inputs: whatever statements it was
    compiled from, a run from instruction 0 that ends does so with the same
    number of steps, the same registers and the same function block states for
    every content of the signal table, and writes the same signals with the
    same values in the same order: only the signals it does not write keep the
    values they had. *)
Theorem inputs_ignored p prog fuel m d e n :
  small (length (layout p)) → compile_ast p = Some (Ok prog) → ip m = 0%nat →
  run_to_halt fuel (mkExecutor m prog d) = Done e n →
  ∃ w, ∀ s, run_to_halt fuel (mkExecutor (with_signals m s) prog d)
            = Done (with_vm e (with_signals (vm e) (write_all s w))) n.
Proof.
  intros Hs Hc Hip Hr. destruct (main_inside p prog Hs Hc) as (h & Hl & Hcode & Hh).
  assert (Hin : inside prog h (mkExecutor m prog d)) by (split; [done | cbn; lia]).
  exact (run_signals prog h Hcode Hh fuel _ 0 e n Hin Hr).
Qed.
End programs.

(** ** Witnesses *)
Definition with_function : Program :=
  parsed "PROGRAM p VAR x : DINT; END_VAR FUNCTION f : DINT; x := 7; END_FUNCTION; x := 1; END_PROGRAM".

Lemma functions_never_run_witness :
  length (function_table (compiled with_function)) = 1%nat
  ∧ Forall (λ f, 2 < entry_point f) (function_table (compiled with_function)).
Proof.
  split; [reflexivity|].
  refine (proj2 (functions_never_run (H := release_profile) with_function (compiled with_function) vm_new debug_new 2
    (mkExecutor (set_ip (write_signal (set_reg vm_new 0 (VS32 1)) "x" (VS32 1)) 2) (compiled with_function) debug_new)
    _ _ _ _)); [vm_compute; reflexivity .. | reflexivity |].
  apply steps_continues. vm_compute. reflexivity.
Defined.

Lemma inputs_ignored_witness :
  ∃ e n w, ∀ s, run_to_halt (H := release_profile) 1000 (mkExecutor (with_signals vm_new s) sums_program debug_new)
                = Done (with_vm e (with_signals (vm e) (write_all s w))) n.
Proof.
  destruct (run_to_halt (H := release_profile) 1000 (executor_new sums_program)) as [e n| |] eqn:E;
    [|by vm_compute in E..].
  exists e, n.
  apply (inputs_ignored (H := release_profile) sums sums_program 1000 vm_new debug_new e n);
    [vm_compute; reflexivity .. | reflexivity | exact E].
Defined.
