(* ===== verification/StBehaviour.v ===== *)
(** * Structured Text: where compiled programs differ from their source

    Conditions with connectives, comparisons used as values, variables that are
    not DINTs, operands that are overwritten, and calls. *)
From S2P Require Import Prelude Float StLexer StParser StCodegen StLayout StBackpatch StGenerator StSemantics StExprRun StCorrect StProgram.
From S2P Require Import HalTypes HalValue HalIr FunctionBlocks Vm Executor ExecutorFacts ExecutorControl StraightLine.
Local Open Scope Z_scope.

(** ** Conditions with connectives *)

(** How a condition's code ends: by a jump to the place of a condition that
    holds, by a jump of the other kind, or by falling through. *)
Inductive Outcome := Holds | Decided | Falls.
#[export] Instance Outcome_eq_dec : EqDecision Outcome.
Proof. solve_decision. Defined.

(** Conditions made of comparisons. *)
Fixpoint condition (c : Expr) : bool :=
  comparison c ||
  match c with
  | Binary l op r => bool_decide (op ∈ [And_; Or_]) && condition l && condition r
  | Unary Not_ c => condition c
  | _ => false
  end.

Section outcomes.
Context `{BuildProfile}.

Fixpoint outcome (ρ : gmap string Z) (c : Expr) : option Outcome :=
  if comparison c then b ← holds ρ c; Some (if b : bool then Holds else Falls)
  else match c with
  | Binary l And_ r => o ← outcome ρ l; match o with Falls => outcome ρ r | _ => Some o end
  | Binary l Or_ r => o ← outcome ρ l; match o with Holds => outcome ρ r | _ => Some Decided end
  | Unary Not_ c =>
      o ← outcome ρ c; Some (match o with Holds => Decided | Decided => Holds | Falls => Falls end)
  | _ => None
  end.

(** An IF takes its THEN branch unless the condition falls through. *)
Definition takes_then (o : Outcome) : bool := negb (bool_decide (o = Falls)).
End outcomes.

Lemma fill_swap h n c : fill h n (swap c) = swap (fill (swap_hole h) n c).
Proof.
  unfold fill, swap. rewrite <- !list_fmap_compose. apply list_fmap_ext.
  intros i [j|op [m|h']] _; cbn; [done..|]. by destruct h, h'.
Qed.
Lemma fill_comm h h' n m c : h ≠ h' → fill h n (fill h' m c) = fill h' m (fill h n c).
Proof.
  intros Hne. unfold fill. rewrite <- !list_fmap_compose. apply list_fmap_ext.
  intros i [j|op [k|h1]] _; cbn; [done..|]. repeat (case_decide; cbn); congruence.
Qed.
Lemma cond_exit regs types n c pc : fill OnExit n (cond_code regs types c pc) = cond_code regs types c pc.
Proof. apply fill_none. intros p. apply cond_no_exit. Qed.

Section profile.
Context `{BuildProfile}.
Context (regs : gmap string nat) (types : gmap string VarType) (vars : list string).
Context (Hok : variables_ok regs types vars).
Context (prog : HalProgram) (d : DebugState).
Context (Hsmall : small (length (instructions prog))) (Hd : debug_mode d = false).
Local Abbreviation E m := (mkExecutor m prog d) (only parsing).
Local Abbreviation cond_code := (cond_code regs types) (only parsing).
Local Abbreviation inv := (inv regs vars) (only parsing).

(** The code of a condition with its holes filled. *)
Definition filled (t k : nat) (c : Template) : list Instruction := resolve (fill OnEnd k (fill OnTrue t c)).
Lemma filled_app t k c1 c2 : filled t k (c1 ++ c2) = filled t k c1 ++ filled t k c2.
Proof. unfold filled. by rewrite !fill_app, resolve_app. Qed.
Lemma filled_length t k c : length (filled t k c) = length c.
Proof. unfold filled. by rewrite resolve_length, !fill_length. Qed.
Lemma filled_swap t k c : filled t k (swap c) = filled k t c.
Proof. unfold filled. rewrite !fill_swap, resolve_swap. cbn [swap_hole]. by rewrite fill_comm. Qed.
Lemma filled_true t k n c : filled t k (fill OnTrue n c) = filled n k c.
Proof. unfold filled. by rewrite fill_fill. Qed.

Definition lands (o : Outcome) (t k pc : nat) : nat :=
  match o with Holds => t | Decided => k | Falls => pc end.

(** The machine [m'], reached from [m], stands at [pc] with the same values. *)
Definition arrives (ρ : gmap string Z) (m : Vm) (pc : nat) : Prop :=
  ∃ n m', continues n (E m) (E m') ∧ inv ρ m' ∧ quiet m m' ∧ ip m' = pc.
Lemma arrives_trans ρ m m1 n pc :
  continues n (E m) (E m1) → quiet m m1 → arrives ρ m1 pc → arrives ρ m pc.
Proof.
  intros Hc Hq (n' & m' & Hc' & Hi & Hq' & Hip). exists (n + n')%nat, m'.
  split_and!; [by eapply continues_app | done | by eapply quiet_trans | done].
Qed.

Lemma condition_cases c : condition c = true →
  comparison c = true
  ∨ (∃ l r, c = Binary l And_ r ∧ condition l = true ∧ condition r = true)
  ∨ (∃ l r, c = Binary l Or_ r ∧ condition l = true ∧ condition r = true)
  ∨ (∃ e, c = Unary Not_ e ∧ condition e = true).
Proof.
  destruct c as [| | | |l op r|[] e| |]; cbn [condition]; try (by cbn); intros Hc.
  - apply orb_true_iff in Hc as [Hc | Hc]; [by left|]. right.
    rewrite !andb_true_iff, bool_decide_eq_true in Hc. destruct Hc as [[Ho Hl] Hr].
    apply elem_of_cons in Ho as [-> | [-> | []%elem_of_nil]%elem_of_cons]; [left; eauto | right; left; eauto].
  - apply orb_true_iff in Hc as [Hc | Hc]; [by left|]. eauto 10.
Qed.

Lemma at_filled c pc t k X :
  code_at prog pc (filled t k (cond_code c pc)) →
  at_ prog pc X (fill OnEnd k (fill OnTrue t (cond_code c pc))).
Proof.
  unfold filled, at_. rewrite (fill_comm OnExit OnEnd), (fill_comm OnExit OnTrue), cond_exit by done. done.
Qed.
Lemma cond_and l r pc :
  cond_code (Binary l And_ r) pc = cond_code l pc ++ cond_code r (pc + length (cond_code l pc)).
Proof. done. Qed.
Lemma cond_or l r pc :
  let start := (pc + length (cond_code l pc) + 1)%nat in
  cond_code (Binary l Or_ r) pc
  = fill OnTrue start (cond_code l pc) ++ [Jmp OpJump (Hole OnEnd)] ++ cond_code r start.
Proof. done. Qed.
Lemma scoped_binary l op r :
  scoped vars (Binary l op r) = true → scoped vars l = true ∧ scoped vars r = true.
Proof. unfold scoped. cbn [expr_vars]. by rewrite forallb_app, andb_true_iff. Qed.
Lemma small_end pc c : code_at prog pc c → small (pc + length c).
Proof. intros Hc%code_at_bound. by eapply small_le. Qed.

(** The code of a condition lands where its outcome says. *)
Definition lands_right (c : Expr) : Prop := ∀ ρ o t k m,
  condition c = true → scoped vars c = true → outcome ρ c = Some o → inv ρ m → small t → small k →
  code_at prog (ip m) (filled t k (cond_code c (ip m))) →
  arrives ρ m (lands o t k (ip m + length (cond_code c (ip m)))).

Lemma comparison_lands c : comparison c = true → lands_right c.
Proof.
  intros Hc ρ o t k m _ Hs Ho Hi Ht Hk Hcode.
  assert (Hb : ∃ b, holds ρ c = Some b ∧ o = if b : bool then Holds else Falls).
  { destruct c; try done. cbn [outcome] in Ho. rewrite Hc in Ho.
    destruct (holds ρ _) as [b|]; [|done]. injection Ho as <-. eauto. }
  destruct Hb as (b & Hb & ->).
  destruct (sim_cond regs types vars Hok prog d Hd ρ c m 0 k t b) as (n & m' & R & Hi' & Q & Hip);
    [done..|by apply at_filled|].
  exists n, m'. by destruct b.
Qed.

Lemma and_lands l r : condition l = true → condition r = true → lands_right l → lands_right r →
  lands_right (Binary l And_ r).
Proof.
  intros Hl Hr IHl IHr ρ o t k m _ [Hs1 Hs2]%scoped_binary Ho Hi Ht Hk Hcode.
  cbn in Ho. destruct (outcome ρ l) as [o1|] eqn:Ho1; [|done]. cbn [mbind option_bind] in Ho.
  rewrite cond_and, filled_app in *. apply code_at_app in Hcode as [C1 C2]. rewrite filled_length in C2.
  pose proof (IHl ρ o1 t k m Hl Hs1 Ho1 Hi Ht Hk C1) as H1.
  destruct o1; [by injection Ho as <-; apply H1 | by injection Ho as <-; apply H1|].
  destruct H1 as (n & m1 & R & Hi1 & Q & Hip). cbn in Hip. rewrite <- Hip in C2.
  eapply arrives_trans; [exact R | exact Q |]. rewrite length_app, Nat.add_assoc, <- Hip.
  by apply IHr.
Qed.

Lemma or_lands l r : condition l = true → condition r = true → lands_right l → lands_right r →
  lands_right (Binary l Or_ r).
Proof.
  intros Hl Hr IHl IHr ρ o t k m _ [Hs1 Hs2]%scoped_binary Ho Hi Ht Hk Hcode.
  cbn in Ho. destruct (outcome ρ l) as [o1|] eqn:Ho1; [|done]. cbn [mbind option_bind] in Ho.
  pose proof (small_end _ _ Hcode) as Hend. rewrite filled_length in Hend.
  rewrite cond_or in *. set (start := (ip m + length (cond_code l (ip m)) + 1)%nat) in *.
  rewrite !length_app, fill_length in *. cbn [length] in *.
  rewrite !filled_app, filled_true in Hcode. apply code_at_app in Hcode as [C1 C2].
  apply code_at_app in C2 as [C2 C3]. rewrite filled_length in C2.
  rewrite (filled_length t k [_]), filled_length in C3. cbn [length] in C3. fold start in C3.
  pose proof (IHl ρ o1 start k m Hl Hs1 Ho1 Hi ltac:(eapply small_le; [|exact Hend]; lia) Hk C1) as H1.
  destruct o1.
  - destruct H1 as (n & m1 & R & Hi1 & Q & Hip). cbn in Hip. rewrite <- Hip in C3.
    eapply arrives_trans; [exact R | exact Q |].
    replace (ip m + _)%nat with (ip m1 + length (cond_code r (ip m1)))%nat by (rewrite Hip; lia).
    by apply IHr.
  - by injection Ho as <-.
  - injection Ho as <-. destruct H1 as (n & m1 & R & Hi1 & Q & Hip). cbn in Hip. rewrite <- Hip in C2.
    eapply arrives_trans; [exact R | exact Q |]. exists 1%nat, (set_ip m1 k).
    assert (C2' : code_at prog (ip m1) [jump (ip_u32 k)]) by exact C2.
    split_and!; [by eapply (jump_steps prog d Hd) | by apply inv_set_ip | done..].
Qed.

Lemma not_lands c : condition c = true → lands_right c → lands_right (Unary Not_ c).
Proof.
  intros Hc IH ρ o t k m _ Hs Ho Hi Ht Hk Hcode.
  cbn in Ho. destruct (outcome ρ c) as [o1|] eqn:Ho1; [|done]. cbn [mbind option_bind] in Ho. injection Ho as <-.
  cbn [StLayout.cond_code] in *. rewrite filled_swap in Hcode. rewrite swap_length.
  pose proof (IH ρ o1 k t m Hc Hs Ho1 Hi Hk Ht Hcode) as H1. by destruct o1.
Qed.

Lemma condition_lands c : condition c = true → lands_right c.
Proof.
  induction c as [| | | |l IHl op r IHr|op e IH| |]; intros Hc; pose proof Hc as Hc';
    apply condition_cases in Hc' as [Hc' | [(? & ? & [=] & Hl & Hr) | [(? & ? & [=] & Hl & Hr) | (? & [=] & He)]]];
    try (by apply comparison_lands); subst.
  - by apply and_lands; auto.
  - by apply or_lands; auto.
  - by apply not_lands; auto.
Qed.

(** An IF takes the branch its condition's outcome selects. *)
Lemma if_outcome ρ c thn els out ρ' w o :
  condition c = true → scoped vars c = true → outcome ρ c = Some out →
  simulates regs vars prog d ρ (if takes_then out then thn else els) ρ' w o →
  simulates regs vars prog d ρ (if_code regs types c thn els) ρ' w o.
Proof.
  intros Hc Hs Hb Hbody X m Hi HX Hcode. fold (at_ prog (ip m) X (if_code regs types c thn els (ip m))) in Hcode.
  pose proof (λ n, at_small prog Hsmall _ _ _ n Hcode) as Hsm. unfold if_code in *.
  remember (cond_code c (ip m)) as cc eqn:Ecc.
  remember (ip m + length cc + 1)%nat as tpc eqn:Et.
  remember (tpc + length (thn tpc) + 1)%nat as epc eqn:Ee.
  rewrite !length_app, !fill_length in *. cbn [length] in *.
  apply at_app in Hcode as [C1 C2]. apply at_app in C2 as [C2 C3].
  apply at_app in C3 as [C3 C4]. apply at_app in C4 as [C4 C5].
  rewrite !fill_length in *. cbn [length] in *. subst cc.
  assert (Hf : code_at prog (ip m) (filled tpc tpc (cond_code c (ip m)))).
  { unfold at_ in C1. by rewrite (fill_comm OnExit OnEnd), (fill_comm OnExit OnTrue), cond_exit in C1 by done. }
  assert (Ht : small tpc) by (apply Hsm; lia).
  destruct (condition_lands c Hc ρ out tpc tpc m Hc Hs Hb Hi Ht Ht Hf) as (n & m1 & R & Hi1 & Q & Hip).
  eapply reaches_after; [exact R | exact Q |].
  replace (ip m + _)%nat with (epc + length (els epc))%nat by lia.
  destruct (takes_then out) eqn:Eo.
  - assert (Hip' : ip m1 = tpc) by (by destruct out).
    eapply reaches_and_jump; [exact Hd | apply (sim_at regs vars prog d ρ thn _ _ _ X tpc) | apply Hsm; lia |]; try done.
    + eapply at_eq; [exact C3 | lia].
    + eapply at_eq; [exact C4 | lia].
  - assert (out = Falls) as -> by (by destruct out). cbn in Hip.
    eapply reaches_after; [eapply continues_app; [eapply (at_jump prog d Hd)|constructor] | done |].
    + eapply at_eq; [exact C2 | lia].
    + apply Hsm. lia.
    + apply sim_at with (ρ := ρ); [done | by apply inv_set_ip | done | done |]. eapply at_eq; [exact C5 | lia].
Qed.

Lemma seq_code_app {A} (F : A → nat → Template) xs ys pc :
  seq_code F (xs ++ ys) pc = seq_code F xs pc ++ seq_code F ys (pc + length (seq_code F xs pc)).
Proof.
  revert pc. induction xs as [|x xs IH]; intros pc; cbn [seq_code app length]; [by rewrite Nat.add_0_r|].
  rewrite IH, <- (assoc_L (++)), length_app. by rewrite Nat.add_assoc.
Qed.
Lemma sim_append ρ xs s ρ1 w1 ρ2 w2 o :
  simulates regs vars prog d ρ (stmts_code regs types xs) ρ1 w1 Next →
  simulates regs vars prog d ρ1 (stmt_code regs types s) ρ2 w2 o →
  simulates regs vars prog d ρ (stmts_code regs types (xs ++ [s])) ρ2 (w1 ++ w2) o.
Proof.
  intros H1 H2 X m Hi HX Hcode. unfold stmts_code in *. rewrite seq_code_app in *. cbn [seq_code] in *.
  rewrite app_nil_r in *. fold (stmts_code regs types xs) in *.
  apply at_app in Hcode as [C1 C2]. rewrite length_app, Nat.add_assoc.
  destruct (H1 X m Hi HX C1) as (n & m1 & R & Hi1 & S1 & K1 & Hip). cbn in Hip. 
  eapply reaches_then; [exact R | done | done |]. rewrite <- Hip in *. by apply H2.
Qed.

(** ** Comparisons as values *)
Lemma compare_value_code c pc k dst : comparison c = true →
  expr_code regs types c pc k dst
  = let l := match c with Binary l _ _ => l | _ => c end in
    let r := match c with Binary _ _ r => r | _ => c end in
    let op := match c with Binary _ op _ => op | _ => Eq_ end in
    compare_value (expr_code regs types r) (expr_code regs types l) op pc k dst.
Proof.
  destruct c as [| | | |l op r| | |]; try done. cbn [comparison]. rewrite !andb_true_iff. intros [[Hc _] _].
  cbn [expr_code]. rewrite Hc. by destruct op.
Qed.

Lemma compare_value_runs ρ c b dst m :
  comparison c = true → scoped vars c = true → holds ρ c = Some b → inv ρ m →
  (dst < MAX_VAR_REGS)%nat → code_at prog (ip m) (expr_code regs types c (ip m) 0 dst) →
  ∃ n m', continues n (E m) (E m') ∧ read_register m' dst = Some (VBool (negb b)) ∧ quiet m m'
    ∧ ip m' = (ip m + length (expr_code regs types c (ip m) 0 dst))%nat
    ∧ ∀ r, (r < MAX_VAR_REGS)%nat → r ≠ dst → read_register m' r = read_register m r.
Proof.
  intros Hc Hs Hb Hi Hd16 Hcode.
  assert (Hcv : expr_code regs types c (ip m) 0 dst = cmp_code regs types c (ip m) ++
     [load_imm dst (VBool false); jump_if (ip_u32 (ip m + length (cmp_code regs types c (ip m)) + 3));
      load_imm dst (VBool true)]) by (rewrite compare_value_code by done; by destruct c).
  pose proof (small_end _ _ Hcode) as Hend. rewrite Hcv in *. rewrite length_app in *. cbn [length] in *.
  set (c1 := cmp_code regs types c (ip m)) in *. set (stop := (ip m + length c1 + 3)%nat) in *.
  destruct (compare_runs regs types vars Hok ρ c m (ip m) b) as (m1 & X & F & K);
    [done | by apply scoped_vars | done | apply Hi | by apply (agree_sub _ vars); [apply scoped_vars|] | apply Hi |].
  fold c1 in X. assert (Hlen : length (registers m1) = REGISTER_COUNT) by (by rewrite (kept_len _ _ _ _ K), (inv_len _ _ _ _ Hi)).
  assert (Hdst : (dst < REGISTER_COUNT)%nat) by (unfold MAX_VAR_REGS, REGISTER_COUNT in *; lia).
  change (c1 ++ [load_imm dst (VBool false); jump_if (ip_u32 stop); load_imm dst (VBool true)])
    with (c1 ++ [load_imm dst (VBool false)] ++ [jump_if (ip_u32 stop); load_imm dst (VBool true)]) in Hcode.
  rewrite (assoc_L (++)) in Hcode. apply code_at_app in Hcode as [C1 C2].
  set (m2 := advance_ip (set_reg m1 dst (VBool false))).
  assert (X2 : exec_seq m (c1 ++ [load_imm dst (VBool false)]) = Some m2).
  { apply (exec_seq_snoc _ _ _ m1); [exact X | done | by apply exec_load_imm]. }
  destruct (run_plain prog d Hd m m2 _ X2) as [R Hip]; [|exact C1|].
  { unfold c1. by rewrite forallb_app, cmp_plain. }
  rewrite <- Hip in C2. apply code_at_cons in C2 as [J C2]. rewrite length_app in Hip. cbn [length] in Hip.
  pose proof (jump_if_step prog d Hd m2 _ J) as R2. change (flags_zero m2) with (flags_zero m1) in R2. rewrite F in R2.
  assert (Hout : ∀ r, (r < MAX_VAR_REGS)%nat → r ≠ dst → read_register m2 r = read_register m r).
  { intros r Hr Hne. unfold m2. rewrite read_advance, read_set_other by done. apply (kept_reg _ _ _ _ K).
    - intros ->. pose proof (scratch_high 0 ltac:(lia)). lia.
    - intros j Hj ->. pose proof (scratch_high j ltac:(lia)). lia. }
  pose proof (kept_quiet _ _ _ _ K) as Q. destruct b.
  - rewrite to_nat_ip in R2 by (eapply small_le; [|exact Hend]; unfold stop; lia).
    eexists _, (set_ip m2 stop). split; [eapply continues_app; [exact R | exact R2]|].
    split_and!; [by apply read_set_same | done | unfold stop; cbn; lia | done].
  - set (m3 := advance_ip (set_reg (advance_ip m2) dst (VBool true))).
    destruct (run_plain prog d Hd (advance_ip m2) m3 [load_imm dst (VBool true)]) as [R3 Hip3]; [|done|exact C2|].
    { apply exec_one; [done | by apply exec_load_imm]. }
    eexists _, m3. split; [eapply continues_app; [eapply continues_app; [exact R | exact R2] | exact R3]|].
    split_and!; [|done|rewrite Hip3; cbn in Hip |- *; lia|].
    + unfold m3. rewrite read_advance. apply read_set_same; [|done]. cbn. by rewrite length_insert.
    + intros r Hr Hne. unfold m3. rewrite read_advance, read_set_other by done. by apply Hout.
Qed.

(** ** An operand overwritten before it is read *)
Lemma overwritten_runs ρ x y op o vy v m pc :
  x ∈ vars → y ∈ vars → x ≠ y → op_to_arith_opcode op = Some o → ρ !! y = Some vy →
  arith_op op vy vy = Some v → inv ρ m →
  runs_to ρ (Variable_ x) 3 0 (reg_of regs x) m v
    (expr_code regs types (Binary (Variable_ y) op (Variable_ x)) pc 0 (reg_of regs x)).
Proof.
  intros Hx Hy Hne Ho Hvy Hv Hi. pose proof (reg_low _ _ _ Hok x Hx) as Hlow.
  assert (Hdst : (reg_of regs x < REGISTER_COUNT)%nat) by (unfold MAX_VAR_REGS, REGISTER_COUNT in *; lia).
  assert (Hns : ∀ j, (j < 3)%nat → reg_of regs x ≠ scratch j) by (intros; by apply (var_not_scratch regs types vars Hok)).
  set (ex := Variable_ x). set (ey := Variable_ y). cbn [expr_code]. rewrite Ho.
  destruct (variable_runs regs types vars Hok ρ y 3 0 (reg_of regs x) m vy pc) as (m1 & X1 & R1 & K1); [|done|].
  { split; try apply Hi; auto.
    - cbn. set_solver.
    - intros j Hj. apply Hns. lia.
    - cbn. auto.
    - apply (agree_sub regs vars); [cbn; set_solver | done]. }
  fold ey in X1. set (c1 := expr_code regs types ey pc 0 (reg_of regs x)) in *.
  assert (Hw : env_wf (<[x := vy]> ρ)) by (apply map_Forall_insert_2; [exact (inv_env _ _ _ _ Hi y vy Hvy) | apply Hi]).
  destruct (variable_runs regs types vars Hok (<[x := vy]> ρ) x 2 1 (scratch 0) m1 vy (pc + length c1)%nat)
    as (m2 & X2 & R2 & K2); [|by rewrite lookup_insert_eq|].
  { eapply (ready_scratch regs types vars Hok _ _ 2 0); try done; [lia | cbn; set_solver | | ].
    - by rewrite (kept_len _ _ _ _ K1), (inv_len _ _ _ _ Hi).
    - intros z u Hz%list_elem_of_singleton. subst z. rewrite lookup_insert_eq. by intros [= <-]. }
  fold ex in X2. exists (advance_ip (set_reg m2 (reg_of regs x) (VS32 v))). split_and!.
  - rewrite exec_seq_app, X1. cbn [mbind option_bind]. eapply exec_seq_snoc; [exact X2 | by eapply arith_not_jump |].
    eapply arith_opcode_runs; [exact Ho | exact Hdst | | exact R2 | exact Hv].
    rewrite (kept_reg _ _ _ _ K2); [exact R1 | apply Hns; lia | intros j Hj; apply Hns; lia].
  - rewrite read_advance. apply read_set_same; [|done].
    by rewrite (kept_len _ _ _ _ K2), (kept_len _ _ _ _ K1), (inv_len _ _ _ _ Hi).
  - eapply kept_trans; [exact K1|]. eapply kept_trans; [by apply kept_scratch; [lia | exact K2]|]. apply kept_set.
Qed.

Lemma kept_update ρ x v m m' :
  x ∈ vars → in_s 32 v = true → read_register m' (reg_of regs x) = Some (VS32 v) →
  kept 0 (reg_of regs x) m m' → inv ρ m → inv (<[x := v]> ρ) m'.
Proof.
  intros Hx Hv Hr K [Ha Hl Hw]. split; [|by rewrite (kept_len _ _ _ _ K)|by apply map_Forall_insert_2].
  intros z u Hz. rewrite lookup_insert. case_decide as Ez; [intros [= <-]; by subst|].
  intros Hu. rewrite (kept_reg _ _ _ _ K); [by apply Ha | |].
  - intros E'. by apply Ez, eq_sym, (reg_inj _ _ _ Hok).
  - intros j Hj. apply (var_not_scratch regs types vars Hok); [done | lia].
Qed.

Lemma sim_overwritten ρ x y op vy v :
  x ∈ vars → y ∈ vars → x ≠ y → is_Some (op_to_arith_opcode op) → ρ !! y = Some vy →
  arith_op op vy vy = Some v →
  simulates regs vars prog d ρ (stmt_code regs types (Assign x (Binary (Variable_ y) op (Variable_ x))))
    (<[x := v]> ρ) [(x, VS32 v)] Next.
Proof.
  intros Hx Hy Hne [o Ho] Hvy Hv X m Hi HX Hc. cbn [StLayout.stmt_code] in *. rewrite fill_ins, resolve_ins in Hc.
  rewrite length_fmap. unfold assign_code in *. rewrite length_app. cbn [length].
  apply code_at_app in Hc as [C1 C2].
  destruct (overwritten_runs ρ x y op o vy v m (ip m) Hx Hy Hne Ho Hvy Hv Hi) as (m1 & X1 & R1 & K1).
  destruct (run_plain prog d Hd m m1 _ X1) as [Hr Hip]; [|exact C1|].
  { apply (expr_plain _ _ _ 3). cbn. by rewrite Ho. }
  assert (Hin : in_s 32 v = true).
  { eapply arith_op_in; [| |exact Hv]; exact (inv_env _ _ _ _ Hi y vy Hvy). }
  pose proof (kept_update ρ x v m m1 Hx Hin R1 K1 Hi) as Hi1. destruct (kept_quiet _ _ _ _ K1) as [Q1 Q2].
  rewrite <- Hip in C2.
  destruct (store_runs regs vars prog d Hd _ x v m1 [] Hx Hi1 R1 C2) as (m2 & R2 & Hi2 & Hip2 & Hs2 & Hk2).
  eexists _, m2. split; [eapply continues_app; [exact Hr | exact R2]|].
  split_and!; [done | by rewrite Hs2, Q1 | by rewrite Hk2 |]. unfold ends. rewrite Hip2, Hip. lia.
Qed.
End profile.

(** The conditions whose connective the compiler misreads, with what decides
    the branch. *)
Inductive misread (a b : Expr) (va vb : bool) : Expr → bool → Prop :=
  | misread_and : misread a b va vb (Binary a And_ b) (va || vb)
  | misread_or : misread a b va vb (Binary a Or_ b) (negb va || vb)
  | misread_not : misread a b va vb (Unary Not_ a) va.

Lemma comparison_condition c : comparison c = true → condition c = true.
Proof. intros Hc. destruct c; try done; cbn [condition]; by rewrite Hc. Qed.
Lemma misread_condition a b va vb c taken :
  comparison a = true → comparison b = true → misread a b va vb c taken → condition c = true.
Proof.
  intros Ha Hb Hm.
  pose proof (comparison_condition a Ha) as Hca. pose proof (comparison_condition b Hb) as Hcb.
  destruct Hm; cbn [condition]; rewrite ?Hca, ?Hcb; apply orb_true_iff; by right.
Qed.
Lemma outcome_comparison `{BuildProfile} ρ c b :
  comparison c = true → holds ρ c = Some b → outcome ρ c = Some (if b then Holds else Falls).
Proof.
  intros Hc Hb. assert (outcome ρ c = b ← holds ρ c; Some (if b : bool then Holds else Falls)) as ->.
  { destruct c as [| | | |l op r|op e| |]; try done. unfold outcome. by rewrite Hc. }
  by rewrite Hb.
Qed.
Lemma misread_outcome `{BuildProfile} ρ a b va vb c taken :
  comparison a = true → comparison b = true → holds ρ a = Some va → holds ρ b = Some vb →
  misread a b va vb c taken → ∃ out, outcome ρ c = Some out ∧ takes_then out = taken.
Proof.
  intros Ca Cb Ha Hb Hm.
  pose proof (outcome_comparison ρ a va Ca Ha) as Hoa. pose proof (outcome_comparison ρ b vb Cb Hb) as Hob.
  destruct Hm, va, vb; eexists; (split; [cbn; rewrite ?Hoa; cbn; rewrite ?Hob; reflexivity | reflexivity]).
Qed.

Section programs.
Context `{BuildProfile}.

(** Connectives in the condition of an IF: for a DINT program of the
    fragment that ends with [IF c THEN t ELSE e] over two comparisons [a] and
    [b], the compiled program runs [t] exactly when: [a] or [b] holds, if [c] is
    [a AND b]; [a] fails or [b] holds, if [c] is [a OR b]; and [a] holds, if [c]
    is [NOT a].  AND is compiled as OR, OR as an implication, and NOT is
    dropped. *)
Theorem connectives_decide p prog pre a b va vb c taken t e ρ w1 ρ' w2 o :
  dint_vars p → p_body p = pre ++ [If_ c t e] →
  small (length (layout p)) → compile_ast p = Some (Ok prog) →
  let vars := names (p_variables p) in
  forallb (fragment vars) pre = true → forallb (fragment vars) t = true → forallb (fragment vars) e = true →
  comparison a = true → comparison b = true → scoped vars c = true →
  runs_all (initial p) pre ρ w1 Next → holds ρ a = Some va → holds ρ b = Some vb →
  misread a b va vb c taken →
  runs_all ρ (if taken then t else e) ρ' w2 o → o ≠ Exited →
  ∃ n e, run_to_halt n (executor_new prog) = Done e n ∧ signals (vm e) = write_all ∅ (w1 ++ w2).
Proof.
  intros Hv Hp Hs Hc vars Hpre Ht He Ha Hb Hsc Hr1 Hva Hvb Hm Hr2 Ho.
  destruct (run_simulated p prog ρ' (w1 ++ w2) o) as (n & ex & Hn & Hsig & _); [done..| |done|by exists n, ex].
  intros Hok Hsm. rewrite Hp.
  destruct (simulation (regs_of p) (types_of p) _ Hok prog debug_new Hsm eq_refl) as (_ & Hsim & _).
  destruct (misread_outcome ρ a b va vb c taken Ha Hb Hva Hvb Hm) as (out & Hout & Htk).
  eapply sim_append; [by apply Hsim|]. cbn [stmt_code].
  eapply (if_outcome _ _ _ Hok prog debug_new Hsm eq_refl); [exact (misread_condition a b va vb c taken Ha Hb Hm) | done | exact Hout |].
  rewrite Htk. destruct taken; by apply Hsim.
Qed.

(** A right operand may be overwritten before it is read: for a DINT program
    of the fragment that ends with [x := y op x], the compiled program stores
    [y op y] in [x], since [y] is computed into [x]'s register before [x] is
    read. *)
Theorem operand_overwritten p prog pre x y op ρ w1 vy v :
  dint_vars p → p_body p = pre ++ [Assign x (Binary (Variable_ y) op (Variable_ x))] →
  small (length (layout p)) → compile_ast p = Some (Ok prog) →
  let vars := names (p_variables p) in
  forallb (fragment vars) pre = true → x ∈ vars → y ∈ vars → x ≠ y →
  runs_all (initial p) pre ρ w1 Next → ρ !! y = Some vy →
  is_Some (op_to_arith_opcode op) → arith_op op vy vy = Some v →
  ∃ n e, run_to_halt n (executor_new prog) = Done e n
    ∧ signals (vm e) = write_all ∅ (w1 ++ [(x, VS32 v)]).
Proof.
  intros Hv Hp Hs Hc vars Hpre Hx Hy Hne Hr1 Hvy Ho Har.
  destruct (run_simulated p prog (<[x := v]> ρ) (w1 ++ [(x, VS32 v)]) Next) as (n & ex & Hn & Hsig & _);
    [done..| |done|by exists n, ex].
  intros Hok Hsm. rewrite Hp.
  destruct (simulation (regs_of p) (types_of p) _ Hok prog debug_new Hsm eq_refl) as (_ & Hsim & _).
  eapply sim_append; [by apply Hsim|]. by eapply sim_overwritten.
Qed.

(** A comparison used as a value is inverted: where the code of [x := c]
    for a comparison [c] of the fragment stands, the machine whose variables
    hold [ρ] runs it to its end and writes to [x] the negation of [c]. *)
Theorem comparison_inverted regs types vars prog d ρ c b x m :
  variables_ok regs types vars → small (length (instructions prog)) → debug_mode d = false →
  comparison c = true → scoped vars c = true → holds ρ c = Some b → inv regs vars ρ m →
  (reg_of regs x < MAX_VAR_REGS)%nat → code_at prog (ip m) (assign_code regs types x c (ip m)) →
  ∃ n m', continues n (mkExecutor m prog d) (mkExecutor m' prog d)
    ∧ ip m' = (ip m + length (assign_code regs types x c (ip m)))%nat
    ∧ signals m' = <[x := VBool (negb b)]> (signals m).
Proof.
  intros Hok Hsm Hd Hc Hs Hb Hi Hx Hcode. unfold assign_code in *. apply code_at_app in Hcode as [C1 C2].
  destruct (compare_value_runs regs types vars Hok prog d Hsm Hd ρ c b (reg_of regs x) m Hc Hs Hb Hi Hx C1)
    as (n & m1 & R & Hr & [Q1 _] & Hip & _).
  rewrite <- Hip in C2. set (m2 := advance_ip (write_signal m1 x (VBool (negb b)))).
  destruct (run_plain prog d Hd m1 m2 [store_inst regs x]) as [R2 Hip2]; [|done|exact C2|].
  { apply exec_one; [done | by apply exec_store_reg]. }
  eexists _, m2. split; [eapply continues_app; [exact R | exact R2]|].
  split; [rewrite Hip2, Hip, length_app; cbn; lia | by cbn; rewrite Q1].
Qed.

(** A call starts the program again: a program whose first statement is a
    call without arguments, of a FUNCTION or of an undeclared name, never ends,
    with the debugger off and whatever the machine's registers and signals. *)
Theorem call_never_returns p prog f rest m d :
  p_body p = FunCall f [] :: rest →
  small (length (layout p)) → compile_ast p = Some (Ok prog) →
  ip m = 0%nat → debug_mode d = false → diverges (mkExecutor m prog d).
Proof.
  intros Hb Hs Hc Hip Hd. destruct (compile_ast_layout p prog Hs Hc) as (Hi & _ & _).
  assert (H0 : instructions prog !! 0%nat = Some (call 0)).
  { rewrite Hi. unfold layout, program_code, main_code. rewrite Hb. cbn [stmts_code seq_code stmt_code].
    unfold fun_call_code. by destruct (types_of p !! f). }
  apply (diverges_cycle (λ e, program e = prog ∧ debug_mode (debug_state e) = false ∧ ip (vm e) = 0%nat)); [|done].
  intros [m1 p1 d1] (Hp & Hd1 & Hip1). cbn in Hp, Hd1, Hip1. subst p1.
  exists 0%nat, (mkExecutor (set_ip (push_call_ip m1 (S (ip m1))) 0) prog d1). split; [|done].
  econstructor; [|constructor].
  rewrite (step_no_debug (mkExecutor m1 prog d1) (call 0)) by (done || (cbn; by rewrite Hip1)).
  unfold step_instruction. cbn. by rewrite Hd1.
Qed.
End programs.

(** ** Values *)
Section values.
Context `{BuildProfile}.
Context (regs : gmap string nat) (types : gmap string VarType).

(** Reading a variable adds it to the zero of its declared type. *)
Lemma read_adds m x pc k d v :
  reg_of regs x ≠ d → (d < REGISTER_COUNT)%nat → length (registers m) = REGISTER_COUNT →
  read_register m (reg_of regs x) = Some v →
  exec_seq m (expr_code regs types (Variable_ x) pc k d)
  = r ← hal_add v (zero_of (type_of types x));
    Some (advance_ip (set_reg (advance_ip (set_reg m d (zero_of (type_of types x)))) d r)).
Proof.
  intros Hne Hd Hl Hv. cbn [expr_code]. rewrite (proj2 (Nat.eqb_neq _ _) Hne).
  set (z := zero_of (type_of types x)). set (m1 := advance_ip (set_reg m d z)).
  change [?a; ?b] with ([a] ++ [b]). rewrite exec_seq_app, (exec_one m _ (set_reg m d z)) by (done || by apply exec_load_imm).
  cbn [mbind option_bind]. fold m1.
  assert (Hr1 : read_register m1 (reg_of regs x) = Some v) by (unfold m1; by rewrite read_advance, read_set_other).
  assert (Hr2 : read_register m1 d = Some z) by (unfold m1; rewrite read_advance; by apply read_set_same).
  destruct (hal_add v z) as [r|] eqn:Ha; cbn [mbind option_bind].
  - apply exec_one; [done|]. by apply (exec_binop_reg m1 OpAdd hal_add _ _ _ v z).
  - unfold exec_seq, arith_inst, execute_instruction. cbn [opcode operands is_jump].
    unfold exec_arith_binop, read_reg. by rewrite Hr1, Hr2; cbn; rewrite Ha.
Qed.

(** A variable reads as S32 zero unless its register holds a value of its
    declared numeric type: [y := x] with [x] and [y] in different registers
    stores S32(0) in [y]'s signal whenever the value [v] of [x] is not of the
    variant of [x]'s declared type.  So every BOOL, STRING and ARRAY variable
    reads as zero, and so does an INT, SINT, UINT, LINT, WORD or BYTE variable
    that was assigned a literal, which the compiler always loads as an S32. *)
Theorem mismatched_reads_zero m x y pc v :
  reg_of regs x ≠ reg_of regs y → (reg_of regs y < REGISTER_COUNT)%nat →
  length (registers m) = REGISTER_COUNT → read_register m (reg_of regs x) = Some v →
  same_numeric v (zero_of (type_of types x)) = false →
  ∃ m', exec_seq m (assign_code regs types y (Variable_ x) pc) = Some m'
    ∧ signals m' = <[y := VS32 0]> (signals m).
Proof.
  intros Hne Hd Hl Hv Hs.
  assert (Ha : hal_add v (zero_of (type_of types x)) = Some (VS32 0)).
  { destruct v, (type_of types x); done. }
  unfold assign_code. rewrite exec_seq_app, (read_adds m x pc 0 _ v), Ha by done. cbn [mbind option_bind].
  set (m1 := advance_ip (set_reg _ _ _)).
  exists (advance_ip (write_signal m1 y (VS32 0))). split; [|done].
  apply exec_one; [done|]. apply exec_store_reg. unfold m1. rewrite read_advance.
  apply read_set_same; [|done]. cbn. by rewrite length_insert.
Qed.
End values.

(** ** Witnesses *)
Ltac closed_goals := try lazymatch goal with |- _ = _ => vm_compute; reflexivity | |- small _ => vm_compute; reflexivity end.
Definition and_program : Program :=
  parsed "PROGRAM p VAR x : DINT; y : DINT; z : DINT; END_VAR x := 1; IF x > 0 AND y > 0 THEN z := 1; ELSE z := 2; END_IF; END_PROGRAM".

Lemma connectives_decide_witness :
  ∃ n e, run_to_halt (H := debug_profile) n (executor_new (compiled and_program)) = Done e n
    ∧ signals (vm e) !! "z" = Some (VS32 1).
Proof.
  set (x := Variable_ "x"). set (y := Variable_ "y"). set (zero := IntLiteral 0).
  destruct (connectives_decide (H := debug_profile) and_program (compiled and_program) [Assign "x" (IntLiteral 1)]
              (Binary x Gt_ zero) (Binary y Gt_ zero) true false (Binary (Binary x Gt_ zero) And_ (Binary y Gt_ zero)) true
              [Assign "z" (IntLiteral 1)] [Assign "z" (IntLiteral 2)]
              (<["x" := 1]> (initial and_program)) [("x", VS32 1)]
              (<["z" := 1]> (<["x" := 1]> (initial and_program))) [("z", VS32 1)] Next) as (n & e & Hr & Hs);
    closed_goals.
  - split; [apply (bool_decide_unpack _); vm_compute; exact I | repeat constructor].
  - eapply (run_cons _ _ _ _ [("x", VS32 1)] _ []); constructor; vm_compute; reflexivity.
  - apply (misread_and (Binary x Gt_ zero) (Binary y Gt_ zero) true false).
  - eapply (run_cons _ _ _ _ [("z", VS32 1)] _ []); constructor; vm_compute; reflexivity.
  - discriminate.
  - exists n, e. split; [exact Hr | by rewrite Hs].
Defined.

Definition minus_program : Program :=
  parsed "PROGRAM p VAR x : DINT; y : DINT; END_VAR y := 3; x := y - x; END_PROGRAM".
Lemma operand_overwritten_witness :
  ∃ n e, run_to_halt (H := debug_profile) n (executor_new (compiled minus_program)) = Done e n
    ∧ signals (vm e) !! "x" = Some (VS32 0).
Proof.
  destruct (operand_overwritten (H := debug_profile) minus_program (compiled minus_program) [Assign "y" (IntLiteral 3)]
              "x" "y" Sub (<["y" := 3]> (initial minus_program)) [("y", VS32 3)] 3 0) as (n & e & Hr & Hs);
    closed_goals.
  - split; [apply (bool_decide_unpack _); vm_compute; exact I | repeat constructor].
  - apply (bool_decide_unpack _). vm_compute. exact I.
  - apply (bool_decide_unpack _). vm_compute. exact I.
  - discriminate.
  - eapply (run_cons _ _ _ _ [("y", VS32 3)] _ []); constructor; vm_compute; reflexivity.
  - by exists OpSub.
  - exists n, e. split; [exact Hr | by rewrite Hs].
Defined.

Definition call_program : Program := parsed "PROGRAM p VAR x : DINT; END_VAR f(); x := 1; END_PROGRAM".
Lemma call_never_returns_witness :
  diverges (H := debug_profile) (mkExecutor vm_new (compiled call_program) debug_new).
Proof.
  apply (call_never_returns (H := debug_profile) call_program (compiled call_program) "f" [Assign "x" (IntLiteral 1)]);
    vm_compute; reflexivity.
Defined.

Lemma mismatched_reads_zero_witness :
  ∃ m', exec_seq (H := debug_profile) (set_reg vm_new 0 (VBool true))
          (assign_code {["b" := 0%nat; "c" := 1%nat]} {["b" := TyBool; "c" := TyBool]} "c" (Variable_ "b") 5) = Some m'
    ∧ signals m' = {["c" := VS32 0]}.
Proof.
  apply (mismatched_reads_zero (H := debug_profile) _ _ (set_reg vm_new 0 (VBool true)) "b" "c" 5 (VBool true));
    [discriminate | apply (bool_decide_unpack _); vm_compute; exact I | reflexivity ..].
Defined.

Lemma comparison_inverted_witness :
  let regs := {["x" := 0%nat; "b" := 1%nat]} in
  let types := {["x" := TyDInt; "b" := TyBool]} in
  let c := Binary (Variable_ "x") Eq_ (IntLiteral 0) in
  let prog := program_new "" (assign_code regs types "b" c 0) in
  ∃ n m', continues (H := debug_profile) n (mkExecutor vm_new prog debug_new) (mkExecutor m' prog debug_new)
    ∧ ip m' = 8%nat ∧ signals m' = {["b" := VBool false]}.
Proof.
  intros regs types c prog.
  destruct (comparison_inverted (H := debug_profile) regs types ["x"] prog debug_new {["x" := 0]} c true "b" vm_new)
    as (n & m' & R & Hip & Hs); closed_goals.
  - split.
    + intros x ->%list_elem_of_singleton. vm_compute. lia.
    + by intros x y ->%list_elem_of_singleton ->%list_elem_of_singleton.
    + by intros x ->%list_elem_of_singleton.
  - split; [|done|].
    + intros x v ->%list_elem_of_singleton [= <-]. reflexivity.
    + intros x v [_ <-]%lookup_singleton_Some. by vm_compute.
  - vm_compute. lia.
  - exists [], []. split; [by rewrite app_nil_r|done].
  - exists n, m'. split; [exact R | split; [rewrite Hip; reflexivity | exact Hs]].
Defined.
