(* ===== verification/LdLayout.v ===== *)
(** * Ladder diagram layout ([audesys-ld-layout/src/*.rs])

    Validation, rung numbering, the placement of contacts, function blocks,
    coils and power rails, and wire routing.  Coordinates are [f64] bit
    patterns.  The type-specific fields of a node are a JSON map of a
    third-party crate: a parameter, of which the layout reads the string
    ["side"]. *)
From S2P Require Import Prelude Float IntFloat.
Local Open Scope Z_scope.

Record Point := mkPoint { px : Z; py : Z }.
Record Size := mkSize { sz_width : Z; sz_height : Z }.

(** Constants. *)
Definition RAIL_LEFT_X : Z := f64_of_Z 20.
Definition RAIL_RIGHT_X : Z := f64_of_Z 920.
Definition RAIL_WIDTH : Z := f64_of_Z 4.
Definition ELEMENT_START_X : Z := f64_add (f64_add RAIL_LEFT_X RAIL_WIDTH) (f64_of_Z 60).
Definition ELEMENT_SPACING_X : Z := f64_of_Z 40.
Definition RUNG_SPACING_Y : Z := f64_of_Z 60.
Definition RUNG_START_Y : Z := f64_of_Z 50.
Definition DEFAULT_ELEMENT_HEIGHT : Z := f64_of_Z 36.

Section layout.
Context {HB : BuildProfile} {Extra : Type} (extra_side : Extra → option string).

Record LayoutNode := mkNode {
  node_id : string; node_kind : string; position : Point; size : Size; node_extra : Extra }.
Record LayoutEdge := mkEdge {
  edge_id : string; edge_kind : string; source_id : string; target_id : string;
  routing_points : list Point; edge_extra : Extra }.
Record RungDef := mkRung {
  rung_id : string; rung_number : Z; rung_comment : option string; element_ids : list string }.
Record LayoutInput := mkLayout {
  layout_id : string; nodes : list LayoutNode; edges : list LayoutEdge; rungs : list RungDef }.
Record RungRow := mkRow { row_index : Z; row_y : Z }.

Definition with_position (n : LayoutNode) (p : Point) : LayoutNode :=
  mkNode (node_id n) (node_kind n) p (size n) (node_extra n).
Definition with_size (n : LayoutNode) (s : Size) : LayoutNode :=
  mkNode (node_id n) (node_kind n) (position n) s (node_extra n).
Definition with_points (e : LayoutEdge) (ps : list Point) : LayoutEdge :=
  mkEdge (edge_id e) (edge_kind e) (source_id e) (target_id e) ps (edge_extra e).
Definition with_number (r : RungDef) (n : Z) : RungDef :=
  mkRung (rung_id r) n (rung_comment r) (element_ids r).

(** ** Geometry *)
Definition node_right (n : LayoutNode) : Z := f64_add (px (position n)) (sz_width (size n)).
Definition node_bottom (n : LayoutNode) : Z := f64_add (py (position n)) (sz_height (size n)).
Definition node_cx (n : LayoutNode) : Z := f64_add (px (position n)) (f64_div (sz_width (size n)) (f64_of_Z 2)).
Definition node_cy (n : LayoutNode) : Z := f64_add (py (position n)) (f64_div (sz_height (size n)) (f64_of_Z 2)).
Definition bbox (n : LayoutNode) : Z * Z * Z * Z :=
  (px (position n), py (position n), node_right n, node_bottom n).
Definition overlaps (a b : LayoutNode) : bool :=
  let '(ax1, ay1, ax2, ay2) := bbox a in
  let '(bx1, by1, bx2, by2) := bbox b in
  f64_ltb ax1 bx2 && f64_ltb bx1 ax2 && f64_ltb ay1 by2 && f64_ltb by1 ay2.

(** ** Validation *)
Definition is_rail (n : LayoutNode) : bool := bool_decide (node_kind n = "node:powerrail").

Definition check_connectivity (ns : list LayoutNode) (es : list LayoutEdge) : list string :=
  let connected := list_to_set (C := gset string) (flat_map (fun e => [source_id e; target_id e]) es) in
  node_id <$> List.filter (fun n => negb (is_rail n) && negb (bool_decide (node_id n ∈ connected))) ns.

(** The kinds of the nodes, by id; a later node replaces an earlier one. *)
Definition kind_map (ns : list LayoutNode) : gmap string string :=
  fold_left (fun m n => <[node_id n := node_kind n]> m) ns ∅.
Definition rung_incomplete (kinds : gmap string string) (r : RungDef) : bool :=
  match element_ids r with
  | [] => true
  | ids =>
      let has k := existsb (fun id => bool_decide (kinds !! id = Some k)) ids in
      negb (has "node:contact") || negb (has "node:coil")
  end.
Definition check_rung_completeness (ns : list LayoutNode) (rs : list RungDef) : list string :=
  rung_id <$> List.filter (rung_incomplete (kind_map ns)) rs.

Definition check_orphans (ns : list LayoutNode) (rs : list RungDef) : list string :=
  let assigned := list_to_set (C := gset string) (flat_map element_ids rs) in
  node_id <$> List.filter (fun n => negb (is_rail n) && negb (bool_decide (node_id n ∈ assigned))) ns.

(** Each pair of elements once, in order. *)
Fixpoint overlapping_pairs (ns : list LayoutNode) : list (string * string) :=
  match ns with
  | [] => []
  | n :: ns =>
      ((fun m => (node_id n, node_id m)) <$> List.filter (overlaps n) ns) ++ overlapping_pairs ns
  end.
Definition check_overlaps (ns : list LayoutNode) : list (string * string) :=
  overlapping_pairs (List.filter (fun n => negb (is_rail n)) ns).

Record ValidationReport := mkReport {
  warnings : list string; unconnected : list string; incomplete_rungs : list string;
  orphans : list string; overlap_pairs : list (string * string) }.
Definition validate (ns : list LayoutNode) (es : list LayoutEdge) (rs : list RungDef) : ValidationReport :=
  mkReport [] (check_connectivity ns es) (check_rung_completeness ns rs) (check_orphans ns rs) (check_overlaps ns).

(** ** Rungs *)
Definition auto_number (rs : list RungDef) : list RungDef :=
  imap (fun i r => with_number r (wrap_u 32 (Z.of_nat i + 1))) rs.

(** [y] of the i-th rung. *)
Definition rung_y (i : Z) : Z :=
  f64_add RUNG_START_Y (f64_mul (f64_of_Z i) (f64_add DEFAULT_ELEMENT_HEIGHT RUNG_SPACING_Y)).

Record Rails := mkRails { rail_y : Z; rail_height : Z; coil_x : Z; rail_right_x : Z }.

Definition layout_rungs (ns : list LayoutNode) (rs : list RungDef) : list RungRow * Rails :=
  let max_element_width := fold_left f64_max ((fun n => sz_width (size n)) <$> ns) f64_zero in
  let coil_x := f64_sub (f64_sub (f64_sub RAIL_RIGHT_X RAIL_WIDTH) (f64_of_Z 60)) max_element_width in
  let rung_rows := imap (fun i _ => mkRow (Z.of_nat i) (rung_y (Z.of_nat i))) rs in
  match last rung_rows with
  | None => (rung_rows, mkRails RUNG_START_Y (f64_of_Z 600) coil_x RAIL_RIGHT_X)
  | Some last_row =>
      let y := f64_sub RUNG_START_Y (f64_of_Z 20) in
      let height := f64_sub (f64_add (f64_add (row_y last_row) DEFAULT_ELEMENT_HEIGHT) (f64_of_Z 20)) y in
      (rung_rows, mkRails y height coil_x RAIL_RIGHT_X)
  end.

(** The row of a rung, by its number; [rung_number - 1] panics in a checked
    build when the number is zero. *)
Definition row_of (rows : list RungRow) (r : RungDef) : option (option RungRow) :=
  i ← arith false 64 (rung_number r - 1);
  Some (List.find (fun row => row_index row =? i) rows).

(** What the loop over a rung's elements carries: how many contacts so far,
    whether a function block was seen and its width. *)
Record RungScan := mkScan { contact_count : Z; fb_seen : bool; fb_width_offset : Z }.

Definition contact_x (s : RungScan) (w : Z) : Z :=
  let offset := f64_mul (f64_of_Z (contact_count s)) (f64_add w ELEMENT_SPACING_X) in
  if fb_seen s then
    f64_add (f64_add (f64_add ELEMENT_START_X (fb_width_offset s)) ELEMENT_SPACING_X) offset
  else f64_add ELEMENT_START_X offset.
Definition fb_x (s : RungScan) (w : Z) : Z :=
  f64_add ELEMENT_START_X (f64_mul (f64_of_Z (contact_count s)) (f64_add w ELEMENT_SPACING_X)).

(** Moves the node at [idx]; [None] is an index out of range. *)
Definition move (ns : list LayoutNode) (idx : nat) (p : Point) : list LayoutNode :=
  alter (fun n => with_position n p) idx ns.

Fixpoint place_contacts (node_map : gmap string nat) (y : Z) (ids : list string) (s : RungScan)
    (ns : list LayoutNode) : option (list LayoutNode) :=
  match ids with
  | [] => Some ns
  | id :: ids =>
      match node_map !! id with
      | None => place_contacts node_map y ids s ns
      | Some idx =>
          n ← ns !! idx;
          let w := sz_width (size n) in
          if bool_decide (node_kind n = "node:contact") then
            place_contacts node_map y ids (mkScan (contact_count s + 1) (fb_seen s) (fb_width_offset s))
              (move ns idx (mkPoint (contact_x s w) y))
          else if bool_decide (node_kind n = "node:fb") then
            place_contacts node_map y ids (mkScan (contact_count s) true w)
              (move ns idx (mkPoint (fb_x s w) y))
          else place_contacts node_map y ids s ns
      end
  end.

(** [for rung in rungs], with the rungs without a row skipped. *)
Fixpoint for_rungs (place : RungDef → Z → list LayoutNode → option (list LayoutNode))
    (rows : list RungRow) (rs : list RungDef) (ns : list LayoutNode) : option (list LayoutNode) :=
  match rs with
  | [] => Some ns
  | r :: rs =>
      row ← row_of rows r;
      ns ← match row with Some row => place r (row_y row) ns | None => Some ns end;
      for_rungs place rows rs ns
  end.

Definition layout_contacts (ns : list LayoutNode) (rs : list RungDef) (node_map : gmap string nat)
    (rows : list RungRow) : option (list LayoutNode) :=
  for_rungs (fun r y ns => place_contacts node_map y (element_ids r) (mkScan 0 false f64_zero) ns) rows rs ns.

Fixpoint place_coils (node_map : gmap string nat) (x0 y : Z) (ids : list string) (count : Z)
    (ns : list LayoutNode) : option (list LayoutNode) :=
  match ids with
  | [] => Some ns
  | id :: ids =>
      match node_map !! id with
      | None => place_coils node_map x0 y ids count ns
      | Some idx =>
          n ← ns !! idx;
          let w := sz_width (size n) in
          if bool_decide (node_kind n = "node:coil") then
            let x := f64_add x0 (f64_mul (f64_of_Z count) (f64_add w ELEMENT_SPACING_X)) in
            place_coils node_map x0 y ids (count + 1) (move ns idx (mkPoint x y))
          else place_coils node_map x0 y ids count ns
      end
  end.
Definition layout_coils (ns : list LayoutNode) (rs : list RungDef) (node_map : gmap string nat)
    (rows : list RungRow) (coil_x : Z) : option (list LayoutNode) :=
  for_rungs (fun r y ns => place_coils node_map coil_x y (element_ids r) 0 ns) rows rs ns.

Definition place_rail (r : Rails) (n : LayoutNode) : LayoutNode :=
  if is_rail n then
    let side := default "Left" (extra_side (node_extra n)) in
    let x := if bool_decide (side = "Right") then rail_right_x r else RAIL_LEFT_X in
    with_size (with_position n (mkPoint x (rail_y r))) (mkSize RAIL_WIDTH (rail_height r))
  else n.
Definition layout_rails (ns : list LayoutNode) (r : Rails) : list LayoutNode := place_rail r <$> ns.

(** ** Wires *)
Definition compute_wire_route (src tgt : LayoutNode) : list Point :=
  let two := f64_of_Z 2 in
  let src_cx := f64_add (px (position src)) (sz_width (size src)) in
  let src_cy := f64_add (py (position src)) (f64_div (sz_height (size src)) two) in
  let tgt_cx := px (position tgt) in
  let tgt_cy := f64_add (py (position tgt)) (f64_div (sz_height (size tgt)) two) in
  if f64_ltb (f64_abs (f64_sub src_cy tgt_cy)) two then []
  else
    let mid_x := f64_div (f64_add src_cx tgt_cx) two in
    [mkPoint mid_x src_cy; mkPoint mid_x tgt_cy].

Definition route_edge (ns : list LayoutNode) (node_map : gmap string nat) (e : LayoutEdge) : option LayoutEdge :=
  match node_map !! source_id e, node_map !! target_id e with
  | Some src_idx, Some tgt_idx =>
      src ← ns !! src_idx;
      tgt ← ns !! tgt_idx;
      Some (with_points e
              (if bool_decide (edge_kind e = "edge:power") then []
               else if bool_decide (edge_kind e = "edge:wire") then compute_wire_route src tgt else []))
  | _, _ => Some e
  end.
Definition route_wires (es : list LayoutEdge) (ns : list LayoutNode) (node_map : gmap string nat)
  : option (list LayoutEdge) := mapM (route_edge ns node_map) es.

(** ** The pipeline

    The index of each node, by id; a later node replaces an earlier one. *)
Fixpoint build_node_map (i : nat) (ns : list LayoutNode) (m : gmap string nat) : gmap string nat :=
  match ns with
  | [] => m
  | n :: ns => build_node_map (S i) ns (<[node_id n := i]> m)
  end.

(** The validation report is computed and dropped. *)
Definition layout_ld (input : LayoutInput) : option LayoutInput :=
  let node_map := build_node_map 0 (nodes input) ∅ in
  let rs := auto_number (rungs input) in
  let '(rows, rails) := layout_rungs (nodes input) rs in
  ns ← layout_contacts (nodes input) rs node_map rows;
  ns ← layout_coils ns rs node_map rows (coil_x rails);
  let ns := layout_rails ns rails in
  es ← route_wires (edges input) ns node_map;
  Some (mkLayout (layout_id input) ns es rs).
End layout.

(** ** Facts
 *)
(** The constants as integers. *)
Lemma element_start : ELEMENT_START_X = f64_of_Z 84.
Proof. by vm_compute. Qed.
Lemma rung_pitch : f64_add DEFAULT_ELEMENT_HEIGHT RUNG_SPACING_Y = f64_of_Z 96.
Proof. by vm_compute. Qed.
Lemma rung_y_int i : 0 ≤ i → 50 + 96 * i < 2 ^ 53 → rung_y i = f64_of_Z (50 + 96 * i).
Proof.
  intros Hi Hb. unfold rung_y, RUNG_START_Y. rewrite rung_pitch, f64_mul_int, f64_add_int by lia. f_equal. lia.
Qed.
Lemma grid_x_int k w : 0 ≤ k → 0 ≤ w → 84 + k * (w + 40) < 2 ^ 53 → w + 40 < 2 ^ 53 → k < 2 ^ 53 →
  f64_add ELEMENT_START_X (f64_mul (f64_of_Z k) (f64_add (f64_of_Z w) ELEMENT_SPACING_X)) = f64_of_Z (84 + k * (w + 40)).
Proof.
  intros Hk Hw Hb Hw' Hk'. unfold ELEMENT_SPACING_X. rewrite element_start, f64_add_int, f64_mul_int, f64_add_int by nia. done.
Qed.

Section layout.
Context {HB : BuildProfile} {Extra : Type} (extra_side : Extra → option string).
Local Abbreviation Node := (LayoutNode (Extra := Extra)) (only parsing).

(** ** What placing elements keeps *)

(** The same node up to its position. *)
Definition same_node (n n' : Node) : Prop :=
  node_id n' = node_id n ∧ node_kind n' = node_kind n ∧ size n' = size n ∧ node_extra n' = node_extra n.
#[local] Instance same_node_refl : Reflexive same_node.
Proof. by intros n. Qed.
#[local] Instance same_node_trans : Transitive same_node.
Proof. unfold same_node. intros a b c ??. naive_solver congruence. Qed.
Definition same_nodes : list Node → list Node → Prop := Forall2 same_node.

Lemma same_nodes_refl ns : same_nodes ns ns.
Proof. unfold same_nodes. reflexivity. Qed.
Lemma same_nodes_trans a b c : same_nodes a b → same_nodes b c → same_nodes a c.
Proof. unfold same_nodes. intros. by etrans. Qed.
Lemma same_move ns idx p : same_nodes ns (move ns idx p).
Proof.
  unfold move. revert idx. induction ns as [|n ns IH]; intros [|idx]; cbn; constructor; try done. apply IH.
Qed.
Lemma move_other (ns : list Node) idx j p : idx ≠ j → move ns idx p !! j = ns !! j.
Proof. intros. unfold move. by apply list_lookup_alter_ne. Qed.
Lemma move_here (ns : list Node) j n p : ns !! j = Some n → move ns j p !! j = Some (with_position n p).
Proof. intros H. unfold move. by rewrite list_lookup_alter, decide_True, H. Qed.
Lemma same_lookup ns ns' j n' : same_nodes ns ns' → ns' !! j = Some n' → ∃ n, ns !! j = Some n ∧ same_node n n'.
Proof. intros H Hj. by eapply Forall2_lookup_r. Qed.

(** [place] ends on every list whose nodes the map points to, keeps all but
    positions, and moves only the nodes of [ids]. *)
Definition places (nm : gmap string nat) (ids : list string) (place : list Node → option (list Node)) : Prop :=
  ∀ ns, (∀ id idx, nm !! id = Some idx → (idx < length ns)%nat) →
    ∃ ns', place ns = Some ns' ∧ same_nodes ns ns'
      ∧ ∀ j, (∀ id, id ∈ ids → nm !! id ≠ Some j) → ns' !! j = ns !! j.

Lemma place_moved nm id ids idx (p : Point) (place : list Node → option (list Node)) :
  nm !! id = Some idx → places nm ids place → places nm (id :: ids) (λ ns, place (move ns idx p)).
Proof.
  intros Hid Hp ns Hin. destruct (Hp (move ns idx p)) as (ns' & Hr & Hs & Hf).
  { intros id' idx' H. unfold move. rewrite length_alter. by eapply Hin. }
  exists ns'. split; [done|]. split; [by eapply same_nodes_trans; [apply same_move|]|].
  intros j Hj. rewrite Hf by (intros; apply Hj; by right). unfold move. apply list_lookup_alter_ne.
  intros ->. by eapply (Hj id); [left|].
Qed.
Lemma place_skipped nm id ids place : places nm ids place → places nm (id :: ids) place.
Proof.
  intros Hp ns Hin. destruct (Hp ns Hin) as (ns' & Hr & Hs & Hf). exists ns'. split; [done|]. split; [done|].
  intros j Hj. apply Hf. intros. apply Hj. by right.
Qed.
Lemma place_nil nm : places nm [] Some.
Proof. intros ns _. exists ns. split; [done|]. split; [apply same_nodes_refl | done]. Qed.

Lemma places_contacts nm y ids : ∀ s, places nm ids (place_contacts nm y ids s).
Proof.
  induction ids as [|id ids IH]; intros s; [apply place_nil|]. intros ns Hin. cbn [place_contacts].
  destruct (nm !! id) as [idx|] eqn:Hid; [|by apply place_skipped].
  destruct (lookup_lt_is_Some_2 ns idx (Hin id idx Hid)) as [n Hn]. rewrite Hn. cbn.
  repeat case_bool_decide; [by eapply (place_moved nm id ids idx); eauto.. | by apply place_skipped].
Qed.
Lemma places_coils nm x0 y ids : ∀ c, places nm ids (place_coils nm x0 y ids c).
Proof.
  induction ids as [|id ids IH]; intros c; [apply place_nil|]. intros ns Hin. cbn [place_coils].
  destruct (nm !! id) as [idx|] eqn:Hid; [|by apply place_skipped].
  destruct (lookup_lt_is_Some_2 ns idx (Hin id idx Hid)) as [n Hn]. rewrite Hn. cbn.
  case_bool_decide; [by eapply (place_moved nm id ids idx); eauto | by apply place_skipped].
Qed.

(** ** Rungs *)

(** The rungs and their rows as [layout_ld] numbers and computes them. *)
Definition numbered (i : nat) (rs : list RungDef) : list RungDef :=
  imap (λ j r, with_number r (wrap_u 32 (Z.of_nat (i + j) + 1))) rs.
Lemma auto_numbered rs : auto_number rs = numbered 0 rs.
Proof. done. Qed.
Definition rows_from (n : nat) : list RungRow := (λ i, mkRow (Z.of_nat i) (rung_y (Z.of_nat i))) <$> seq 0 n.

Lemma find_row_from m i : ∀ k, (k ≤ i < k + m)%nat →
  List.find (λ row, row_index row =? Z.of_nat i) ((λ j, mkRow (Z.of_nat j) (rung_y (Z.of_nat j))) <$> seq k m)
  = Some (mkRow (Z.of_nat i) (rung_y (Z.of_nat i))).
Proof.
  induction m as [|m IH]; intros k Hk; [lia|]. cbn [seq fmap list_fmap List.find row_index].
  destruct (Z.eqb_spec (Z.of_nat k) (Z.of_nat i)) as [E|E]; [by apply Nat2Z.inj in E as ->|]. apply IH. lia.
Qed.
Lemma numbered_cons k r rs :
  numbered k (r :: rs) = with_number r (wrap_u 32 (Z.of_nat k + 1)) :: numbered (S k) rs.
Proof.
  unfold numbered. rewrite imap_cons, Nat.add_0_r. f_equal. apply imap_ext. intros j x _. cbn. do 3 f_equal. lia.
Qed.
Lemma numbered_app k rs1 rs2 : numbered k (rs1 ++ rs2) = numbered k rs1 ++ numbered (k + length rs1) rs2.
Proof.
  unfold numbered. rewrite imap_app. f_equal. apply imap_ext. intros j x _. cbn. do 3 f_equal. lia.
Qed.
Lemma row_of_numbered n k r : (k < n)%nat → Z.of_nat n < 2 ^ 32 →
  row_of (rows_from n) (with_number r (wrap_u 32 (Z.of_nat k + 1))) = Some (Some (mkRow (Z.of_nat k) (rung_y (Z.of_nat k)))).
Proof.
  intros Hk Hn. unfold row_of. cbn [rung_number with_number].
  rewrite wrap_u_id by (apply in_u_spec; lia). replace (Z.of_nat k + 1 - 1) with (Z.of_nat k) by lia.
  rewrite arith_exact by (apply in_u_spec; lia). cbn [mbind option_bind]. f_equal. apply find_row_from. lia.
Qed.

Section rungs.
Context (nm : gmap string nat) (place : RungDef → Z → list Node → option (list Node)).
Context (Hplace : ∀ r y, places nm (element_ids r) (place r y)).
Context (n : nat) (Hn : Z.of_nat n < 2 ^ 32).

Lemma for_rungs_places rs : ∀ k, (k + length rs ≤ n)%nat →
  places nm (flat_map element_ids rs) (for_rungs place (rows_from n) (numbered k rs)).
Proof.
  induction rs as [|r rs IH]; intros k Hk; cbn in Hk; [apply place_nil|].
  intros ns Hin. rewrite numbered_cons. cbn [for_rungs]. rewrite row_of_numbered by lia. cbn [mbind option_bind row_y].
  destruct (Hplace (with_number r (wrap_u 32 (Z.of_nat k + 1))) (rung_y (Z.of_nat k)) ns Hin) as (ns1 & E1 & S1 & F1).
  cbn [element_ids with_number] in F1. rewrite E1. cbn [mbind option_bind].
  destruct (IH (S k) ltac:(lia) ns1) as (ns2 & E2 & S2 & F2).
  { intros id idx H. rewrite <- (Forall2_length _ _ _ S1). by eapply Hin. }
  exists ns2. split; [done|]. split; [by eapply same_nodes_trans|]. intros j Hj. cbn [flat_map] in Hj.
  rewrite F2, F1; [done| |]; intros id Hid; apply Hj, elem_of_app; auto.
Qed.
Lemma for_rungs_app rs1 rs2 ns :
  for_rungs place (rows_from n) (rs1 ++ rs2) ns
  = ns ← for_rungs place (rows_from n) rs1 ns; for_rungs place (rows_from n) rs2 ns.
Proof.
  revert ns. induction rs1 as [|r rs1 IH]; intros ns; [done|]. cbn [app for_rungs].
  destruct (row_of _ r) as [[row|]|]; cbn [mbind option_bind]; [|apply IH|done].
  destruct (place r (row_y row) ns) as [ns'|]; [apply IH | done].
Qed.

(** The nodes of one rung are where its own placement puts them, when no other
    rung names them. *)
Lemma rung_alone rs1 r rs2 ns : (length (rs1 ++ r :: rs2) ≤ n)%nat →
  (∀ id idx, nm !! id = Some idx → (idx < length ns)%nat) →
  ∃ ns1 ns2 ns3, same_nodes ns ns1
    ∧ place (with_number r (wrap_u 32 (Z.of_nat (length rs1) + 1))) (rung_y (Z.of_nat (length rs1))) ns1 = Some ns2
    ∧ for_rungs place (rows_from n) (numbered 0 (rs1 ++ r :: rs2)) ns = Some ns3 ∧ same_nodes ns ns3
    ∧ ∀ j, (∀ id, id ∈ flat_map element_ids rs2 → nm !! id ≠ Some j) → ns3 !! j = ns2 !! j.
Proof.
  intros Hlen Hin. rewrite length_app in Hlen. cbn in Hlen.
  destruct (for_rungs_places rs1 0 ltac:(lia) ns Hin) as (ns1 & E1 & S1 & _).
  assert (Hin1 : ∀ id idx, nm !! id = Some idx → (idx < length ns1)%nat).
  { intros id idx H. rewrite <- (Forall2_length _ _ _ S1). by eapply Hin. }
  destruct (Hplace (with_number r (wrap_u 32 (Z.of_nat (length rs1) + 1))) (rung_y (Z.of_nat (length rs1))) ns1 Hin1)
    as (ns2 & E2 & S2 & _).
  destruct (for_rungs_places rs2 (S (length rs1)) ltac:(lia) ns2) as (ns3 & E3 & S3 & F3).
  { intros id idx H. rewrite <- (Forall2_length _ _ _ S2). by eapply Hin1. }
  exists ns1, ns2, ns3. split; [done|]. split; [done|].
  rewrite numbered_app, for_rungs_app, E1, numbered_cons. cbn [mbind option_bind for_rungs Nat.add].
  rewrite row_of_numbered by lia. cbn [mbind option_bind row_y]. rewrite E2. cbn [mbind option_bind].
  split; [done|]. split; [|done]. by do 2 (eapply same_nodes_trans; [eassumption|]).
Qed.
End rungs.

(** ** The grid of contacts *)
Definition grid_x (k w : Z) : Z := f64_add ELEMENT_START_X (f64_mul (f64_of_Z k) (f64_add w ELEMENT_SPACING_X)).

Lemma contacts_grid nm y w ids : ∀ c (ns ns' : list Node), NoDup ids →
  (∀ id, id ∈ ids → ∃ idx n, nm !! id = Some idx ∧ ns !! idx = Some n ∧ node_kind n = "node:contact" ∧ sz_width (size n) = w) →
  (∀ id id' idx, nm !! id = Some idx → nm !! id' = Some idx → id = id') →
  (∀ id idx, nm !! id = Some idx → (idx < length ns)%nat) →
  place_contacts nm y ids (mkScan c false f64_zero) ns = Some ns' →
  ∀ k id idx, ids !! k = Some id → nm !! id = Some idx →
    ∃ n, ns' !! idx = Some n ∧ position n = mkPoint (grid_x (c + Z.of_nat k) w) y.
Proof.
  induction ids as [|id0 ids IH]; intros c ns ns' Hnd Hids Hinj Hin Hp k id idx Hk Hid; [done|].
  apply NoDup_cons in Hnd as [Hni Hnd]. destruct (Hids id0) as (idx0 & n0 & H1 & H2 & H3 & H4); [left|].
  cbn [place_contacts] in Hp. rewrite H1 in Hp. rewrite H2 in Hp.
  cbn [mbind option_bind contact_count fb_seen fb_width_offset] in Hp. rewrite bool_decide_true in Hp by done.
  set (p := mkPoint (contact_x (mkScan c false f64_zero) (sz_width (size n0))) y) in Hp.
  assert (Hin' : ∀ id idx, nm !! id = Some idx → (idx < length (move ns idx0 p))%nat).
  { intros i j Hij. unfold move. rewrite length_alter. by eapply Hin. }
  destruct k as [|k]; cbn in Hk.
  - injection Hk as <-. rewrite H1 in Hid. injection Hid as <-.
    destruct (places_contacts nm y ids (mkScan (c + 1) false f64_zero) (move ns idx0 p) Hin') as (ns2 & E & _ & F).
    rewrite E in Hp. injection Hp as <-. rewrite F.
    + exists (with_position n0 p). unfold move. rewrite list_lookup_alter, decide_True, H2 by done. split; [done|].
      cbn. unfold p, contact_x, grid_x. cbn. rewrite H4, Z.add_0_r. done.
    + intros id Hin0 Hc. rewrite (Hinj id id0 idx0) in Hin0 by done. done.
  - destruct (IH (c + 1) (move ns idx0 p) ns' Hnd) with (k := k) (id := id) (idx := idx) as (n & Hn & Hpos); try done.
    + intros id' Hid'. destruct (Hids id') as (i & m & G1 & G2 & G3 & G4); [by right|].
      exists i, m. split; [done|]. unfold move. rewrite list_lookup_alter_ne; [done|].
      intros ->. rewrite (Hinj id0 id' i) in Hni by done. done.
    + exists n. split; [done|]. rewrite Hpos. do 2 f_equal. lia.
Qed.

(** Placing coils moves coils only. *)
Lemma coils_keep nm x0 y ids : ∀ c (ns ns' : list Node) j n,
  place_coils nm x0 y ids c ns = Some ns' → ns !! j = Some n → node_kind n ≠ "node:coil" → ns' !! j = Some n.
Proof.
  induction ids as [|id ids IH]; intros c ns ns' j n Hp Hj Hk; cbn in Hp; [by injection Hp as <-|].
  destruct (nm !! id) as [idx|]; [|by eapply IH]. destruct (ns !! idx) as [m|] eqn:Hm; [|done]. cbn in Hp.
  case_bool_decide; [|by eapply IH]. eapply IH; [exact Hp| |done].
  unfold move. rewrite list_lookup_alter_ne; [done|]. congruence.
Qed.
Lemma rungs_keep place rows (rs : list RungDef) : (∀ r y ns ns' j n, place r y ns = Some ns' → ns !! j = Some n →
    node_kind n ≠ "node:coil" → ns' !! j = Some n) →
  ∀ (ns ns' : list Node) j n, for_rungs place rows rs ns = Some ns' → ns !! j = Some n → node_kind n ≠ "node:coil" →
    ns' !! j = Some n.
Proof.
  intros Hplace. induction rs as [|r rs IH]; intros ns ns' j n Hf Hj Hk; cbn in Hf; [by injection Hf as <-|].
  destruct (row_of rows r) as [[row|]|]; cbn in Hf; [|by eapply IH|done].
  destruct (place r (row_y row) ns) as [ns1|] eqn:Hp; [|done]. cbn in Hf. eapply IH; [done| |done]. by eapply Hplace.
Qed.

(** ** The map of the nodes *)
Lemma node_map_spec (ns : list Node) : ∀ i m id idx, build_node_map i ns m !! id = Some idx →
  (∃ n, ns !! (idx - i)%nat = Some n ∧ (i ≤ idx)%nat ∧ node_id n = id) ∨ m !! id = Some idx.
Proof.
  induction ns as [|n ns IH]; intros i m id idx H; cbn in H; [by right|].
  destruct (IH (S i) _ _ _ H) as [(n' & Hn & Hi & Hid)|Hm].
  - left. exists n'. replace (idx - i)%nat with (S (idx - S i))%nat by lia. split_and!; [done|lia|done].
  - destruct (decide (node_id n = id)) as [<-|Hne]; [|rewrite lookup_insert_ne in Hm by done; by right].
    rewrite lookup_insert_eq in Hm. injection Hm as <-. left. exists n. by rewrite Nat.sub_diag.
Qed.
Lemma node_map_lookup (ns : list Node) : ∀ i m k n, NoDup (node_id <$> ns) → ns !! k = Some n →
  build_node_map i ns m !! node_id n = Some (i + k)%nat.
Proof.
  assert (Hother : ∀ (ns : list Node) i m id, id ∉ node_id <$> ns → build_node_map i ns m !! id = m !! id).
  { clear ns. induction ns as [|n ns IH]; intros i m id Hni; cbn; [done|]. cbn in Hni. apply not_elem_of_cons in Hni as [??].
    rewrite IH by done. by rewrite lookup_insert_ne by done. }
  induction ns as [|n0 ns IH]; intros i m k n Hnd Hk; [done|]. cbn in Hnd. apply NoDup_cons in Hnd as [Hni Hnd].
  destruct k as [|k]; cbn in Hk |- *.
  - injection Hk as ->. rewrite Hother by done. rewrite lookup_insert_eq. f_equal. lia.
  - rewrite IH with (k := k) by done. f_equal. lia.
Qed.

(** ** Layout *)

(** What the layout computes, with the coordinates of each step named. *)
Lemma layout_steps (input : LayoutInput (Extra := Extra)) : Z.of_nat (length (rungs input)) < 2 ^ 32 →
  let nm := build_node_map 0 (nodes input) ∅ in let rs := auto_number (rungs input) in
  let rows := rows_from (length (rungs input)) in let rails := snd (layout_rungs (nodes input) rs) in
  ∃ ns1 ns2 es, layout_contacts (nodes input) rs nm rows = Some ns1 ∧ same_nodes (nodes input) ns1
    ∧ layout_coils ns1 rs nm rows (coil_x rails) = Some ns2 ∧ same_nodes ns1 ns2
    ∧ layout_ld extra_side input = Some (mkLayout (layout_id input) (layout_rails extra_side ns2 rails) es rs)
    ∧ route_wires (edges input) (layout_rails extra_side ns2 rails) nm = Some es.
Proof.
  intros Hlen nm rs rows rails.
  assert (Hin : ∀ id idx, nm !! id = Some idx → (idx < length (nodes input))%nat).
  { intros id idx H. apply node_map_spec in H as [(n & Hn & _)|]; [|done].
    rewrite Nat.sub_0_r in Hn. by eapply lookup_lt_Some. }
  destruct (for_rungs_places nm (λ r y ns, place_contacts nm y (element_ids r) (mkScan 0 false f64_zero) ns)
    (λ r y, places_contacts nm y (element_ids r) _) (length (rungs input)) Hlen (rungs input) 0 ltac:(lia) (nodes input) Hin)
    as (ns1 & E1 & S1 & _).
  assert (Hin1 : ∀ id idx, nm !! id = Some idx → (idx < length ns1)%nat).
  { intros id idx H. rewrite <- (Forall2_length _ _ _ S1). by eapply Hin. }
  destruct (for_rungs_places nm (λ r y ns, place_coils nm (coil_x rails) y (element_ids r) 0 ns)
    (λ r y, places_coils nm (coil_x rails) y (element_ids r) _) (length (rungs input)) Hlen (rungs input) 0 ltac:(lia) ns1 Hin1)
    as (ns2 & E2 & S2 & _).
  assert (Hw : ∃ es, route_wires (edges input) (layout_rails extra_side ns2 rails) nm = Some es).
  { apply mapM_is_Some. apply Forall_forall. intros e _. unfold compose, route_edge.
    destruct (nm !! source_id e) as [i|] eqn:Hi; [|by eexists]. destruct (nm !! target_id e) as [j|] eqn:Hj; [|by eexists].
    assert (Hl : ∀ k, (k < length (nodes input))%nat → is_Some (layout_rails extra_side ns2 rails !! k)).
    { intros k Hk. unfold layout_rails.
      rewrite list_lookup_fmap. apply fmap_is_Some, lookup_lt_is_Some_2.
      by rewrite <- (Forall2_length _ _ _ S2), <- (Forall2_length _ _ _ S1). }
    destruct (Hl i) as [ni ->]; [by eapply Hin|]. destruct (Hl j) as [nj ->]; [by eapply Hin|]. by eexists. }
  destruct Hw as [es Hw]. exists ns1, ns2, es. split_and!; try done.
  unfold layout_ld. fold nm. fold rs. fold rails.
  assert (Hrows : fst (layout_rungs (nodes input) rs) = rows).
  { unfold layout_rungs, rows, rows_from. replace (length (rungs input)) with (length rs) by apply length_imap.
    rewrite imap_seq_0. by destruct (last _). }
  destruct (layout_rungs (nodes input) rs) as [rows' rails']. cbn [fst snd] in *. subst rows' rails.
  change (numbered 0 (rungs input)) with rs in E1, E2. fold rows in E1, E2.
  unfold layout_contacts, layout_coils. rewrite E1. cbn [mbind option_bind]. rewrite E2. cbn [mbind option_bind].
  by rewrite Hw.
Qed.

(** The layout ends on every diagram of fewer than 2^32 rungs and changes
    only positions, rail sizes, rung numbers and wire routes: the output has
    the diagram's id, the same nodes in order (ids, kinds and extra fields,
    and for nodes that are not rails their sizes), the same edges with new
    routing points, and the same rungs numbered from 1. *)
Theorem layout_preserves (input : LayoutInput (Extra := Extra)) :
  Z.of_nat (length (rungs input)) < 2 ^ 32 →
  ∃ out, layout_ld extra_side input = Some out ∧ layout_id out = layout_id input
    ∧ Forall2 (λ n n', node_id n' = node_id n ∧ node_kind n' = node_kind n ∧ node_extra n' = node_extra n
                       ∧ (is_rail n = false → size n' = size n)) (nodes input) (nodes out)
    ∧ Forall2 (λ e e', ∃ ps, e' = with_points e ps) (edges input) (edges out)
    ∧ ∀ i r, rungs input !! i = Some r → rungs out !! i = Some (with_number r (Z.of_nat i + 1)).
Proof.
  intros Hlen. destruct (layout_steps input Hlen) as (ns1 & ns2 & es & _ & S1 & _ & S2 & E & Hw).
  eexists. split; [exact E|]. cbn [layout_id nodes edges rungs]. split; [done|]. split_and!.
  - unfold layout_rails. apply Forall2_fmap_r. eapply Forall2_impl; [exact (same_nodes_trans _ _ _ S1 S2)|].
    intros n n' (H1 & H2 & H3 & H4). unfold compose, place_rail, is_rail. rewrite H2.
    case_bool_decide; cbn; split_and!; done.
  - unfold route_wires in Hw. apply mapM_Some in Hw. eapply Forall2_impl; [exact Hw|]. intros e e' He.
    assert (Hsame : ∃ ps, e = with_points e ps) by (exists (routing_points e); by destruct e).
    unfold route_edge in He.
    destruct (_ !! source_id e) as [i|]; [|by injection He as <-]. destruct (_ !! target_id e) as [k|]; [|by injection He as <-].
    destruct (layout_rails _ _ _ !! i) as [n1|]; [|discriminate He]. cbn in He.
    destruct (layout_rails _ _ _ !! k) as [n2|]; [|discriminate He]. cbn in He. injection He as <-. by eexists.
  - intros i r Hr. unfold auto_number. rewrite list_lookup_imap, Hr. cbn. do 2 f_equal.
    apply wrap_u_id, in_u_spec. apply lookup_lt_Some in Hr. lia.
Qed.

(** A rung of contacts of one width, which no other rung names. *)
Record contact_rung (input : LayoutInput (Extra := Extra)) (i : nat) (r : RungDef) (w : Z) : Prop := {
  cr_rung : rungs input !! i = Some r;
  cr_once : NoDup (element_ids r);
  cr_nodes : ∀ id, id ∈ element_ids r →
    ∃ n, n ∈ nodes input ∧ node_id n = id ∧ node_kind n = "node:contact" ∧ sz_width (size n) = w;
  cr_own : ∀ j r' id, rungs input !! j = Some r' → j ≠ i → id ∈ element_ids r → id ∉ element_ids r' }.

Lemma contact_rung_laid_out (input : LayoutInput (Extra := Extra)) i r w :
  Z.of_nat (length (rungs input)) < 2 ^ 32 → NoDup (node_id <$> nodes input) → contact_rung input i r w →
  ∃ out, layout_ld extra_side input = Some out
    ∧ ∀ k id, element_ids r !! k = Some id → ∃ n, n ∈ nodes out ∧ node_id n = id ∧ sz_width (size n) = w
        ∧ position n = mkPoint (grid_x (Z.of_nat k) w) (rung_y (Z.of_nat i)).
Proof.
  intros Hlen Hnd [Hr Honce Hnodes Hown]. destruct (layout_steps input Hlen) as (ns1 & ns2 & es & E1 & S1 & E2 & S2 & E & _).
  eexists. split; [exact E|]. intros k id Hk. cbn [nodes].
  set (nm := build_node_map 0 (nodes input) ∅) in *.
  assert (Hin : ∀ id idx, nm !! id = Some idx → ∃ n, nodes input !! idx = Some n ∧ node_id n = id).
  { intros id' idx H. apply node_map_spec in H as [(n & Hn & _ & ?)|]; [|done]. rewrite Nat.sub_0_r in Hn. by exists n. }
  assert (Hof : ∀ id, id ∈ element_ids r →
    ∃ idx n, nm !! id = Some idx ∧ nodes input !! idx = Some n ∧ node_id n = id ∧ node_kind n = "node:contact" ∧ sz_width (size n) = w).
  { intros id' Hid. destruct (Hnodes id' Hid) as (n & [idx Hn]%list_elem_of_lookup & <- & ? & ?). exists idx, n.
    split; [|done]. by apply (node_map_lookup (nodes input) 0 ∅ idx n). }
  assert (Hidx : ∀ idx, (idx < length (nodes input))%nat → (idx < length ns1)%nat) by (intros; by rewrite <- (Forall2_length _ _ _ S1)).
  apply list_elem_of_split_length in Hr as (rs1 & rs2 & Hrs & Hi).
  destruct (rung_alone nm (λ r y ns, place_contacts nm y (element_ids r) (mkScan 0 false f64_zero) ns)
    (λ r y, places_contacts nm y (element_ids r) _) (length (rungs input)) Hlen rs1 r rs2 (nodes input))
    as (m1 & m2 & m3 & T1 & P & F & _ & Keep); [by rewrite Hrs | |].
  { intros id' idx H. destruct (Hin id' idx H) as (n & Hn & _). by eapply lookup_lt_Some. }
  rewrite <- Hrs in F. unfold layout_contacts in E1. change (auto_number (rungs input)) with (numbered 0 (rungs input)) in E1.
  rewrite F in E1. injection E1 as ->. cbn [element_ids with_number] in P.
  destruct (Hof id) as (idx & n0 & Hid & Hn0 & Hname & Hkind & Hw); [by eapply list_elem_of_lookup_2|].
  assert (Hgrid : ∃ n, m2 !! idx = Some n ∧ position n = mkPoint (grid_x (0 + Z.of_nat k) w) (rung_y (Z.of_nat (length rs1)))).
  { eapply contacts_grid; [exact Honce| | | |exact P|exact Hk|exact Hid].
    - intros id' Hid'. destruct (Hof id' Hid') as (j & n & G1 & G2 & _ & G3 & G4).
      destruct (Forall2_lookup_l _ _ _ _ _ T1 G2) as (n' & G5 & (_ & G6 & G7 & _)).
      exists j, n'. rewrite G6, G7. done.
    - intros a b j Ha Hb. destruct (Hin a j Ha) as (n & X1 & <-), (Hin b j Hb) as (n' & X2 & <-). congruence.
    - intros a j Ha. rewrite <- (Forall2_length _ _ _ T1). destruct (Hin a j Ha) as (n & Hn & _). by eapply lookup_lt_Some. }
  destruct Hgrid as (n & Hn & Hpos).
  assert (Hn1 : ns1 !! idx = Some n).
  { rewrite Keep; [done|]. intros id' Hid' Hc.
    destruct (Hin id' idx Hc) as (n' & Hn' & <-). rewrite Hn0 in Hn'. injection Hn' as <-.
    apply list_elem_of_In, in_flat_map in Hid' as (r' & [j Hj]%list_elem_of_In%list_elem_of_lookup & Hr').
    apply (Hown (S (length rs1 + j)) r' id); [|lia| |].
    - rewrite Hrs, lookup_app_r by lia. by replace (S (length rs1 + j) - length rs1)%nat with (S j) by lia.
    - by eapply list_elem_of_lookup_2.
    - rewrite <- Hname. by apply list_elem_of_In. }
  destruct (same_lookup _ _ _ _ S1 Hn1) as (n' & Hn' & (Q1 & Q2 & Q3 & _)). rewrite Hn0 in Hn'. injection Hn' as <-.
  assert (Hn2 : ns2 !! idx = Some n).
  { eapply rungs_keep; cycle 1; [exact E2|exact Hn1|by rewrite Q2, Hkind|]. intros r' y a b j n' Hp Hj Hne. exact (coils_keep _ _ _ _ _ _ _ _ _ Hp Hj Hne). }
  exists n. split_and!; [|by rewrite Q1 | by rewrite Q3 | by rewrite Hpos, Hi, Z.add_0_l].
  unfold layout_rails. apply list_elem_of_fmap. exists n. split; [|by eapply list_elem_of_lookup_2].
  unfold place_rail, is_rail. by rewrite Q2, Hkind.
Qed.

(** Contacts stand on a grid: in a rung (the [i]-th) of contacts of one integer
    width [w] which no other rung names, the layout puts the [k]-th contact at
    x = 84 + k (w + 40) and y = 50 + 96 i, exactly; so each contact ends 40
    units before the next one begins, and none overlaps another. *)
Theorem contacts_on_grid (input : LayoutInput (Extra := Extra)) i r w :
  Z.of_nat (length (rungs input)) < 2 ^ 32 → NoDup (node_id <$> nodes input) →
  0 ≤ w → 124 + (Z.of_nat (length (element_ids r)) + 1) * (w + 40) < 2 ^ 53 →
  contact_rung input i r (f64_of_Z w) →
  ∃ out, layout_ld extra_side input = Some out
    ∧ ∀ k id, element_ids r !! k = Some id → ∃ n, n ∈ nodes out ∧ node_id n = id
        ∧ position n = mkPoint (f64_of_Z (84 + Z.of_nat k * (w + 40))) (f64_of_Z (50 + 96 * Z.of_nat i))
        ∧ node_right n = f64_of_Z (84 + Z.of_nat (S k) * (w + 40) - 40).
Proof.
  intros Hlen Hnd Hw Hb Hr. destruct (contact_rung_laid_out input i r (f64_of_Z w) Hlen Hnd Hr) as (out & E & Hout).
  exists out. split; [done|]. intros k id Hk. destruct (Hout k id Hk) as (n & Hn & Hid & Hsz & Hpos).
  assert (Z.of_nat k < Z.of_nat (length (element_ids r))) by (apply lookup_lt_Some in Hk; lia).
  assert (Z.of_nat i < 2 ^ 32) by (pose proof (lookup_lt_Some _ _ _ (cr_rung _ _ _ _ Hr)); lia).
  assert (Hp : position n = mkPoint (f64_of_Z (84 + Z.of_nat k * (w + 40))) (f64_of_Z (50 + 96 * Z.of_nat i))).
  { rewrite Hpos. f_equal; [apply grid_x_int; nia | apply rung_y_int; lia]. }
  exists n. split_and!; [done..|]. unfold node_right. rewrite Hp, Hsz. cbn [px].
  rewrite f64_add_int by nia. f_equal. lia.
Qed.

(** ** Collisions *)

(** A contact after a function block is put into the block: in a rung of a
    contact, a block and a contact, with integer sizes, the layout of the rung
    makes the block and the second contact overlap whenever the block is more
    than 40 units wider than the contact. *)
Theorem contact_after_block_overlaps nm y (ns : list Node) a f b ia iff ib na nf nb wf wb hf hb :
  nm !! a = Some ia → nm !! f = Some iff → nm !! b = Some ib → NoDup [ia; iff; ib] →
  ns !! ia = Some na → ns !! iff = Some nf → ns !! ib = Some nb →
  node_kind na = "node:contact" → node_kind nf = "node:fb" → node_kind nb = "node:contact" →
  size nf = mkSize (f64_of_Z wf) (f64_of_Z hf) → size nb = mkSize (f64_of_Z wb) (f64_of_Z hb) →
  0 < wb → wb + 40 < wf → wf < 2 ^ 40 → 0 < hf < 2 ^ 40 → 0 < hb < 2 ^ 40 → 0 ≤ y < 2 ^ 40 →
  ∃ ns' nf' nb', place_contacts nm (f64_of_Z y) [a; f; b] (mkScan 0 false f64_zero) ns = Some ns'
    ∧ ns' !! iff = Some nf' ∧ ns' !! ib = Some nb' ∧ node_id nf' = node_id nf ∧ node_id nb' = node_id nb
    ∧ overlaps nf' nb' = true.
Proof.
  intros Ha Hf Hb Hnd Hna Hnf Hnb Ka Kf Kb Sf Sb Hwb Hw Hwf Hhf Hhb Hy.
  assert (ia ≠ iff ∧ ia ≠ ib ∧ iff ≠ ib) as (D1 & D2 & D3) by (rewrite !NoDup_cons in Hnd; set_solver).
  set (pf := mkPoint (fb_x (mkScan 1 false f64_zero) (f64_of_Z wf)) (f64_of_Z y)).
  set (pb := mkPoint (contact_x (mkScan 1 true (f64_of_Z wf)) (f64_of_Z wb)) (f64_of_Z y)).
  assert (Ef : px pf = f64_of_Z (124 + wf)).
  { unfold pf, fb_x. cbn [px contact_count]. rewrite (grid_x_int 1 wf) by lia. f_equal. lia. }
  assert (Eb : px pb = f64_of_Z (164 + wf + wb)).
  { unfold pb, contact_x. cbn [px contact_count fb_seen fb_width_offset]. unfold ELEMENT_SPACING_X.
    rewrite element_start, (f64_add_int wb 40), (f64_mul_int 1), !f64_add_int by lia. f_equal. lia. }
  cbn [place_contacts]. rewrite Ha, Hf, Hb, Hna. cbn [mbind option_bind]. rewrite bool_decide_true by done.
  rewrite (move_other ns ia iff), Hnf by done. cbn [mbind option_bind contact_count fb_seen fb_width_offset].
  rewrite bool_decide_false, bool_decide_true by (rewrite Kf; done).
  rewrite (move_other _ iff ib), (move_other ns ia ib), Hnb by done. cbn [mbind option_bind contact_count fb_seen fb_width_offset].
  rewrite bool_decide_true, Sf, Sb by done. cbn [sz_width]. change (0 + 1) with 1. fold pf. fold pb.
  eexists _, (with_position nf pf), (with_position nb pb). split; [done|].
  rewrite (move_other _ ib iff) by done. rewrite (move_here _ iff nf) by (by rewrite move_other).
  rewrite (move_here _ ib nb) by (by rewrite !move_other). split_and!; [done..|].
  unfold overlaps, bbox, node_right, node_bottom. cbn [position with_position size]. rewrite Ef, Eb, Sf, Sb.
  cbn [sz_width sz_height]. change (py pf) with (f64_of_Z y). change (py pb) with (f64_of_Z y).
  rewrite !f64_add_int, !f64_ltb_int by lia. rewrite !andb_true_iff, !Z.ltb_lt. lia.
Qed.
End layout.

(** ** Witnesses *)
Definition demo_node (id kind : string) (w : Z) : LayoutNode (Extra := option string) :=
  mkNode id kind (mkPoint f64_zero f64_zero) (mkSize (f64_of_Z w) (f64_of_Z 36)) None.
Definition demo_rung (id : string) (ids : list string) : RungDef := mkRung id 0 None ids.
Definition demo_layout : LayoutInput :=
  mkLayout "d" [demo_node "c1" "node:contact" 36; demo_node "c2" "node:contact" 36; demo_node "o1" "node:coil" 36;
                demo_node "rail" "node:powerrail" 4]
    [mkEdge "e" "edge:wire" "c1" "o1" [] None] [demo_rung "r0" ["o1"]; demo_rung "r1" ["c1"; "c2"]].

Lemma layout_preserves_witness :
  ∃ out, layout_ld (HB := debug_profile) (λ s, s) demo_layout = Some out ∧ layout_id out = "d".
Proof.
  destruct (layout_preserves (HB := debug_profile) (λ s : option string, s) demo_layout) as (out & E & Hid & _);
    [vm_compute; reflexivity | exists out; split; [exact E | exact Hid]].
Defined.

Lemma contacts_on_grid_witness :
  ∃ out, layout_ld (HB := debug_profile) (λ s, s) demo_layout = Some out
    ∧ ∃ n, n ∈ nodes out ∧ node_id n = "c2" ∧ position n = mkPoint (f64_of_Z 160) (f64_of_Z 146).
Proof.
  destruct (contacts_on_grid (HB := debug_profile) (λ s : option string, s) demo_layout 1 (demo_rung "r1" ["c1"; "c2"]) 36)
    as (out & E & H); [vm_compute; reflexivity | | lia | vm_compute; reflexivity | |].
  - apply (bool_decide_unpack _). vm_compute. exact I.
  - split.
    + reflexivity.
    + apply (bool_decide_unpack _). vm_compute. exact I.
    + intros id [->|[->|[]%not_elem_of_nil]%elem_of_cons]%elem_of_cons.
      * exists (demo_node "c1" "node:contact" 36). split; [left | split; [reflexivity | split; reflexivity]].
      * exists (demo_node "c2" "node:contact" 36). split; [right; left | split; [reflexivity | split; reflexivity]].
    + intros [|[|j]] r' id Hj Hne Hid; [|done|discriminate Hj]. injection Hj as <-. cbn in *. set_solver.
  - exists out. split; [exact E|]. destruct (H 1%nat "c2" eq_refl) as (n & Hn & Hid & Hpos & _).
    exists n. split; [exact Hn | split; [exact Hid | exact Hpos]].
Defined.

Lemma contact_after_block_overlaps_witness :
  ∃ ns' nf nb, place_contacts {["a" := 0%nat; "f" := 1%nat; "b" := 2%nat]} (f64_of_Z 50) ["a"; "f"; "b"] (mkScan 0 false f64_zero)
      [demo_node "a" "node:contact" 36; demo_node "f" "node:fb" 80; demo_node "b" "node:contact" 36] = Some ns'
    ∧ ns' !! 1%nat = Some nf ∧ ns' !! 2%nat = Some nb ∧ overlaps nf nb = true.
Proof.
  destruct (contact_after_block_overlaps {["a" := 0%nat; "f" := 1%nat; "b" := 2%nat]} 50
    [demo_node "a" "node:contact" 36; demo_node "f" "node:fb" 80; demo_node "b" "node:contact" 36]
    "a" "f" "b" 0 1 2 (demo_node "a" "node:contact" 36) (demo_node "f" "node:fb" 80) (demo_node "b" "node:contact" 36)
    80 36 36 36) as (ns' & nf & nb & E & H1 & H2 & _ & _ & H3); try reflexivity; try lia.
  - apply (bool_decide_unpack _). vm_compute. exact I.
  - exists ns', nf, nb. split; [exact E | split; [exact H1 | split; [exact H2 | exact H3]]].
Defined.
