(* ===== verification/DapAdapter.v ===== *)
(** * The debug adapter ([audesys-dap-adapter/src])

    Requests of the Debug Adapter Protocol over a controller client: the
    messages, the handlers and the packet framing; the adapter over a socket with
    given input, and together with the client and the server.  [serde_json]'s parser and
    printer are a class; sequence numbers are unbounded ([u64] in the code,
    counting messages from 1). *)
From stdpp Require Import pretty.
From S2P Require Import Prelude Float HalTypes HalValue HalIr FunctionBlocks Vm Executor Text TextFacts Qos Transport Middleware.
From S2P Require Import Signals Lifecycle Engine CommonTypes IpcWire IpcServer RuntimeClient IpcFacts.
Local Open Scope Z_scope.

(** ** JSON *)
Inductive Json :=
  | JNull | JBool (b : bool) | JInt (z : Z) | JFloat (bits : Z) | JStr (s : string)
  | JArr (l : list Json) | JObj (l : list (string * Json)).
Class JsonText := { from_str : string → option Json; to_string : Json → string }.

(** A [serde_json::Map]: sorted by key. *)
Fixpoint put (k : string) (v : Json) (l : list (string * Json)) : list (string * Json) :=
  match l with
  | [] => [(k, v)]
  | (k', v') :: l' =>
      match String.compare k k' with
      | Lt => (k, v) :: l | Eq => (k, v) :: l' | Gt => (k', v') :: put k v l'
      end
  end.
Definition json (l : list (string * Json)) : Json := JObj (fold_left (fun m kv => put kv.1 kv.2 m) l []).

Definition lookup_all (k : string) (l : list (string * Json)) : list Json :=
  map snd (List.filter (fun kv : string * Json => String.eqb kv.1 k) l).
(** A field of a derived struct: absent, present, or given twice (an error). *)
Definition field (k : string) (l : list (string * Json)) : option (option Json) :=
  match lookup_all k l with [] => Some None | [v] => Some (Some v) | _ => None end.
Definition as_string (v : Json) : option string := match v with JStr s => Some s | _ => None end.
(** An unsigned integer of 64 bits. *)
Definition as_u64 (v : Json) : option Z :=
  match v with JInt z => if in_u 64 z then Some z else None | _ => None end.
Definition with_default {A} (d : A) (read : Json → option A) (v : option Json) : option A :=
  match v with None => Some d | Some v => read v end.
(** [Option<_>] of a missing or null value. *)
Definition optional {A} (read : Json → option A) (v : option Json) : option (option A) :=
  match v with None | Some JNull => Some None | Some v => Some <$> read v end.

(** ** Messages ([protocol.rs]) *)
Record DapRequest := mkRequest { rq_seq : Z; rq_command : string; rq_arguments : option Json }.

(** A derived [Deserialize] accepts an object or the array of the fields. *)
Definition request_of_json (j : Json) : option DapRequest :=
  match j with
  | JObj l =>
      fs ← field "seq" l; fc ← field "command" l; fa ← field "arguments" l;
      v ← fs; seq ← as_u64 v; command ← with_default "" as_string fc; args ← optional Some fa;
      Some (mkRequest seq command args)
  | JArr (v :: l) =>
      seq ← as_u64 v;
      match l with
      | [] => Some (mkRequest seq "" None)
      | [c] => command ← as_string c; Some (mkRequest seq command None)
      | [c; a] => command ← as_string c; args ← optional Some (Some a); Some (mkRequest seq command args)
      | _ => None
      end
  | _ => None
  end.

Definition default_socket_path : string := "/tmp/audesys-controller.sock".
Definition default_secret : string := "audesys-dev-secret".
Record LaunchArguments := mkLaunch { la_socket_path : string; la_secret : string }.
Definition launch_of_json (j : Json) : option LaunchArguments :=
  match j with
  | JObj l =>
      fp ← field "socketPath" l; fs ← field "secret" l;
      path ← with_default default_socket_path as_string fp;
      secret ← with_default default_secret as_string fs;
      Some (mkLaunch path secret)
  | JArr [] => Some (mkLaunch default_socket_path default_secret)
  | JArr [p] => path ← as_string p; Some (mkLaunch path default_secret)
  | JArr [p; s] => path ← as_string p; secret ← as_string s; Some (mkLaunch path secret)
  | _ => None
  end.

(** [SourceArg]: only whether it deserializes matters. *)
Definition source_ok (j : Json) : option unit :=
  match j with
  | JObj l => fn ← field "name" l; fp ← field "path" l; v ← fn; _ ← as_string v; _ ← optional as_string fp; Some tt
  | JArr [n; p] => _ ← as_string n; _ ← optional as_string (Some p); Some tt
  | _ => None
  end.
Definition breakpoint_line (j : Json) : option Z :=
  match j with
  | JObj l => f ← field "line" l; v ← f; as_u64 v
  | JArr [v] => as_u64 v
  | _ => None
  end.
Definition breakpoint_lines (j : Json) : option (list Z) :=
  match j with JArr l => mapM breakpoint_line l | _ => None end.
(** [SetBreakpointsArguments]: the lines. *)
Definition breakpoints_of_json (j : Json) : option (list Z) :=
  match j with
  | JObj l =>
      fs ← field "source" l; fb ← field "breakpoints" l;
      v ← fs; _ ← source_ok v; with_default [] breakpoint_lines fb
  | JArr [s] => _ ← source_ok s; Some []
  | JArr [s; b] => _ ← source_ok s; breakpoint_lines b
  | _ => None
  end.

Inductive DapMessage :=
  | DapResponse (seq request_seq : Z) (success : bool) (command : string) (body : option Json) (message : option string)
  | DapEvent (seq : Z) (event : string) (body : option Json).
Definition some_field (k : string) (v : option Json) : list (string * Json) :=
  match v with Some v => [(k, v)] | None => [] end.
(** Derived [Serialize]: the fields in declaration order. *)
Definition json_of_message (m : DapMessage) : Json :=
  match m with
  | DapResponse seq rs ok command body message =>
      JObj ([("seq", JInt seq); ("type", JStr "response"); ("request_seq", JInt rs); ("success", JBool ok);
             ("command", JStr command)] ++ some_field "body" body ++ some_field "message" (JStr <$> message))
  | DapEvent seq event body =>
      JObj ([("seq", JInt seq); ("type", JStr "event"); ("event", JStr event)] ++ some_field "body" body)
  end.
Definition message_seq (m : DapMessage) : Z :=
  match m with DapResponse seq _ _ _ _ _ | DapEvent seq _ _ => seq end.

Definition ev_stopped (seq : Z) (reason : string) : DapMessage :=
  DapEvent seq "stopped" (Some (json [("reason", JStr reason); ("threadId", JInt 1)])).
Definition ev_continued (seq : Z) : DapMessage := DapEvent seq "continued" (Some (json [("threadId", JInt 1)])).
Definition ev_initialized (seq : Z) : DapMessage := DapEvent seq "initialized" None.

Record Breakpoint := mkBreakpoint { bp_id : Z; bp_verified : bool; bp_line : Z; bp_message : option string }.
Definition json_of_breakpoint (b : Breakpoint) : Json :=
  json ([("id", JInt (bp_id b)); ("verified", JBool (bp_verified b)); ("line", JInt (bp_line b))]
        ++ some_field "message" (JStr <$> bp_message b)).

(** ** Text helpers *)

(** [str::split] on a character. *)
Fixpoint split_aux (c : ascii) (acc : list ascii) (l : list ascii) : list string :=
  match l with
  | [] => [of_chars (rev acc)]
  | d :: l => if Ascii.eqb d c then of_chars (rev acc) :: split_aux c [] l else split_aux c (d :: acc) l
  end.
Definition split_char (c : ascii) (s : string) : list string := split_aux c [] (chars s).
(** [trim_matches] on the brackets. *)
Definition is_bracket (c : ascii) : bool := Ascii.eqb c "[" || Ascii.eqb c "]".
Fixpoint drop_brackets (l : list ascii) : list ascii :=
  match l with c :: l' => if is_bracket c then drop_brackets l' else l | [] => [] end.
Definition trim_brackets (s : string) : string :=
  of_chars (rev (drop_brackets (rev (drop_brackets (chars s))))).
(** The part after the first ['='], if any. *)
Fixpoint after_eq (l : list ascii) : option (list ascii) :=
  match l with [] => None | c :: l => if Ascii.eqb c "=" then Some l else after_eq l end.
Definition value_part (s : string) : string := match after_eq (chars s) with Some v => of_chars v | None => s end.
Definition hex_upper_digit (d : Z) : ascii :=
  ascii_of_byte (if d <? 10 then 48 + d else 55 + d).
Fixpoint hex_upper_aux (fuel : nat) (z : Z) (acc : string) : string :=
  match fuel with
  | O => acc
  | S fuel => let acc := String.String (hex_upper_digit (z mod 16)) acc in
              if z / 16 =? 0 then acc else hex_upper_aux fuel (z / 16) acc
  end.
Definition hex_upper (z : Z) : string := hex_upper_aux 16 z "".

(** ** The controller's client, as the adapter uses it *)
Class ControllerClient (C : Type) := {
  cc_authenticate : C → Role → C * result unit string;
  cc_pause : C → C * result string string;
  cc_resume : C → C * result string string;
  cc_step_cycle : C → C * result string string;
  cc_list_breakpoints : C → C * result string string;
  cc_set_breakpoint : C → Z → C * result string string;
  cc_clear_breakpoint : C → Z → C * result string string;
  cc_debug_state : C → C * result string string;
  cc_read_register : C → Z → C * result string string }.

(** ** The adapter ([adapter.rs]) *)
Section adapter.
Context `{JT : JsonText} {C : Type} `{CC : ControllerClient C}.

Record DebugAdapter := mkAdapter { da_client : option C; next_seq : Z }.
Definition adapter_start : DebugAdapter := mkAdapter None 1.
Abbreviation Handler := (DebugAdapter → DebugAdapter * list DapMessage) (only parsing).

Definition with_client (a : DebugAdapter) (c : C) : DebugAdapter := mkAdapter (Some c) (next_seq a).
Definition bump (a : DebugAdapter) (n : Z) : DebugAdapter := mkAdapter (da_client a) (next_seq a + n).

Definition dap_ok (req : DapRequest) (body : Json) : Handler := fun a =>
  (bump a 1, [DapResponse (next_seq a) (rq_seq req) true (rq_command req) (Some body) None]).
Definition dap_err (req : DapRequest) (msg : string) : Handler := fun a =>
  (bump a 1, [DapResponse (next_seq a) (rq_seq req) false (rq_command req) None (Some msg)]).
(** An event before the rest. *)
Definition dap_event (ev : Z → DapMessage) (k : Handler) : Handler := fun a =>
  let '(a', out) := k (bump a 1) in (a', ev (next_seq a) :: out).
(** [self.client.as_mut()]. *)
Definition connected_or (req : DapRequest) (k : C → Handler) : Handler := fun a =>
  match da_client a with Some c => k c a | None => dap_err req "not connected" a end.

Definition handle_initialize (req : DapRequest) : Handler :=
  dap_ok req (json [("supportsConfigurationDoneRequest", JBool true); ("supportsConditionalBreakpoints", JBool false);
                    ("supportsStepInTargetsRequest", JBool false); ("supportsStepBack", JBool false);
                    ("supportsGotoTargetsRequest", JBool false)]).

(** [connect] is what opening the socket returns. *)
Definition handle_attach (connect : string → string → result C string) (req : DapRequest) : Handler := fun a =>
  match rq_arguments req ≫= launch_of_json with
  | None => dap_err req "invalid launch arguments" a
  | Some args =>
      match connect (la_socket_path args) (la_secret args) with
      | Err e => dap_err req ("connect: " +:+ e) a
      | Ok c =>
          match cc_authenticate c Engineer with
          | (_, Err e) => dap_err req ("auth failed: " +:+ e) a
          | (c, Ok _) =>
              let c := (cc_pause c).1 in
              dap_event ev_initialized (dap_event (λ n, ev_stopped n "entry") (dap_ok req (json []))) (with_client a c)
          end
      end
  end.

Fixpoint clear_all (c : C) (ips : list string) : C :=
  match ips with
  | [] => c
  | s :: ips => clear_all (match parse_number false 32 (trim s) with
                           | Some ip => (cc_clear_breakpoint c ip).1 | None => c end) ips
  end.
Definition clear_existing (c : C) : C :=
  let '(c, r) := cc_list_breakpoints c in
  let existing := match r with Ok s => s | Err _ => "" end in
  if String.eqb existing "[]" || String.eqb existing "" then c
  else clear_all c (split_char "," (trim_brackets existing)).
Fixpoint set_all (c : C) (i : Z) (ls : list Z) : C * list Breakpoint :=
  match ls with
  | [] => (c, [])
  | line :: ls =>
      let '(c, r) := cc_set_breakpoint c (wrap_u 32 line) in
      let '(c, bps) := set_all c (i + 1) ls in
      (c, mkBreakpoint (i + 1) (is_ok r) line (match r with Ok _ => None | Err e => Some e end) :: bps)
  end.
Definition handle_set_breakpoints (req : DapRequest) : Handler :=
  connected_or req (fun c a =>
    match rq_arguments req ≫= breakpoints_of_json with
    | None => dap_err req "invalid breakpoint arguments" a
    | Some ls =>
        let '(c, bps) := set_all (clear_existing c) 0 ls in
        dap_ok req (json [("breakpoints", JArr (map json_of_breakpoint bps))]) (with_client a c)
    end).

Definition handle_config_done (req : DapRequest) : Handler := dap_event ev_continued (dap_ok req (json [])).

(** One call to the controller, an event, and the answer. *)
Definition control (req : DapRequest) (call : C → C * result string string) (what : string)
    (ev : Z → DapMessage) (body : Json) : Handler :=
  connected_or req (fun c a =>
    match call c with
    | (c, Err e) => dap_err req (what +:+ ": " +:+ e) (with_client a c)
    | (c, Ok _) => dap_event ev (dap_ok req body) (with_client a c)
    end).
Definition handle_continue (req : DapRequest) : Handler :=
  control req cc_resume "resume" ev_continued (json [("allThreadsContinued", JBool true)]).
Definition handle_next (req : DapRequest) : Handler :=
  control req cc_step_cycle "step" (λ n, ev_stopped n "step") (json []).
Definition handle_step_in (req : DapRequest) : Handler := handle_next req.
Definition handle_pause (req : DapRequest) : Handler :=
  control req cc_pause "pause" (λ n, ev_stopped n "pause") (json []).

Definition handle_threads (req : DapRequest) : Handler :=
  dap_ok req (json [("threads", JArr [json [("id", JInt 1); ("name", JStr "main")]])]).

(** [debug["breakpoints"]], its first element as an unsigned integer. *)
Definition first_breakpoint (state : string) : Z :=
  match from_str state with
  | Some (JObj l) =>
      match lookup_all "breakpoints" l with
      | JArr (v :: _) :: _ => default 0 (as_u64 v)
      | _ => 0
      end
  | _ => 0
  end.
Definition handle_stack_trace (req : DapRequest) : Handler :=
  connected_or req (fun c a =>
    let '(c, r) := cc_debug_state c in
    let ip := first_breakpoint (match r with Ok s => s | Err _ => "" end) in
    let frame := json [("id", JInt 0); ("name", JStr "ST Program"); ("line", JInt ip); ("column", JInt 0);
                       ("source", json [("name", JStr "main.st")]);
                       ("instructionPointerReference", JStr ("0x" +:+ hex_upper ip))] in
    dap_ok req (json [("stackFrames", JArr [frame]); ("totalFrames", JInt 1)]) (with_client a c)).

Definition handle_scopes (req : DapRequest) : Handler :=
  dap_ok req (json [("scopes", JArr [json [("name", JStr "Registers"); ("variablesReference", JInt 1);
                                           ("expensive", JBool false)]])]).

Definition reg_names : list string :=
  ["r0"; "r1"; "r2"; "r3"; "r4"; "r5"; "r6"; "r7"; "r8"; "r9"; "r10"; "r11"; "r12"; "r13"].
Fixpoint read_registers (c : C) (i : Z) (names : list string) : C * list (string * string) :=
  match names with
  | [] => (c, [])
  | name :: names =>
      let '(c, r) := cc_read_register c i in
      let '(c, vars) := read_registers c (i + 1) names in
      (c, (name, value_part (match r with Ok s => s | Err _ => "?" end)) :: vars)
  end.
Definition json_of_variable (v : string * string) : Json :=
  json [("name", JStr v.1); ("value", JStr v.2); ("variablesReference", JInt 0)].
Definition handle_variables (req : DapRequest) : Handler :=
  connected_or req (fun c a =>
    let '(c, vars) := read_registers c 0 reg_names in
    dap_ok req (json [("variables", JArr (map json_of_variable vars))]) (with_client a c)).

(** The client is dropped whatever the resume returns. *)
Definition handle_disconnect (req : DapRequest) : Handler := fun a =>
  dap_ok req (json []) (mkAdapter None (next_seq a)).

Definition dap_handle (connect : string → string → result C string) (req : DapRequest) : Handler :=
  let command := String.eqb (rq_command req) in
  if command "initialize" then handle_initialize req
  else if command "launch" || command "attach" then handle_attach connect req
  else if command "setBreakpoints" then handle_set_breakpoints req
  else if command "configurationDone" then handle_config_done req
  else if command "continue" then handle_continue req
  else if command "next" then handle_next req
  else if command "stepIn" then handle_step_in req
  else if command "pause" then handle_pause req
  else if command "threads" then handle_threads req
  else if command "stackTrace" then handle_stack_trace req
  else if command "scopes" then handle_scopes req
  else if command "variables" then handle_variables req
  else if command "disconnect" then handle_disconnect req
  else dap_err req "unsupported command".

(** ** Framing ([main.rs]) *)
Definition parse_content_length (line : string) : option Z :=
  if starts_with line "Content-Length: "
  then parse_number false 64 (trim (str_from line (String.length "Content-Length: "))) else None.
Definition crlf : string := String.String carriage_return (String.String newline EmptyString).
Definition send_packet (data : string) : string :=
  "Content-Length: " +:+ pretty (Z.of_nat (String.length data)) +:+ crlf +:+ crlf +:+ data.

(** [read_line]: up to and including a newline; [None] at the end. *)
Fixpoint read_line_chars (l : list ascii) : list ascii * list ascii :=
  match l with
  | [] => ([], [])
  | c :: l => if Ascii.eqb c newline then ([c], l)
              else let '(line, rest) := read_line_chars l in (c :: line, rest)
  end.
(** The loop of [main]: the requests it hands to the adapter.  Input that is
    not UTF-8 is outside of this reading of it as text. *)
Fixpoint read_requests (fuel : nat) (l : list ascii) : list DapRequest :=
  match fuel with
  | O => []
  | S fuel =>
      match read_line_chars l with
      | ([], _) => []
      | (line, l) =>
          if forallb is_whitespace line then read_requests fuel l
          else match parse_content_length (of_chars line) with
               | None => read_requests fuel l
               | Some n =>
                   let '(_, l) := read_line_chars l in
                   if Z.of_nat (length l) <? n then []
                   else let body := of_chars (take (Z.to_nat n) l) in
                        let l := drop (Z.to_nat n) l in
                        match from_str body ≫= request_of_json with
                        | Some r => r :: read_requests fuel l
                        | None => read_requests fuel l
                        end
               end
      end
  end.

Fixpoint run_requests (connects : nat → string → string → result C string) (rs : list DapRequest) (a : DebugAdapter)
  : DebugAdapter * list DapMessage :=
  match rs with
  | [] => (a, [])
  | r :: rs =>
      let '(a, out) := dap_handle (connects 0%nat) r a in
      let '(a, out') := run_requests (λ i, connects (S i)) rs a in (a, out ++ out')
  end.
End adapter.
Arguments DebugAdapter C : clear implicits.

(** ** The protocol *)
Section protocol.
Context `{JT : JsonText} {C : Type} `{CC : ControllerClient C}.

Definition is_event (m : DapMessage) : bool := match m with DapEvent _ _ _ => true | _ => false end.
Definition answer_to (m : DapMessage) : option (Z * string) :=
  match m with DapResponse _ rs _ command _ _ => Some (rs, command) | _ => None end.

(** Numbers the messages from [n] on, and ends with the only response. *)
Definition answers (req : DapRequest) (n : Z) (r : DebugAdapter C * list DapMessage) : Prop :=
  next_seq r.1 = n + Z.of_nat (length r.2) ∧ map message_seq r.2 = seqZ n (Z.of_nat (length r.2)) ∧
  ∃ evs last, r.2 = evs ++ [last] ∧ Forall (λ m, is_event m = true) evs ∧
    answer_to last = Some (rq_seq req, rq_command req).

Lemma answers_ok req body a : answers req (next_seq a) (dap_ok (C:=C) req body a).
Proof. split_and!; [done | done |]. by eexists [], _. Qed.
Lemma answers_err req msg a : answers req (next_seq a) (dap_err (C:=C) req msg a).
Proof. split_and!; [done | done |]. by eexists [], _. Qed.

Lemma answers_event req ev k (a : DebugAdapter C) :
  (∀ n, message_seq (ev n) = n ∧ is_event (ev n) = true) →
  answers req (next_seq a + 1) (k (bump a 1)) → answers req (next_seq a) (dap_event ev k a).
Proof.
  intros Hev (Hn & Hs & evs & last & Hout & Hevs & Hans). unfold dap_event.
  destruct (k (bump a 1)) as [a' out]. cbn [fst snd] in *. unfold answers. cbn [fst snd length map]. split_and!.
  - lia.
  - rewrite (proj1 (Hev _)), Hs, (seqZ_cons (next_seq a)) by lia. f_equal. f_equal; lia.
  - exists (ev (next_seq a) :: evs), last. rewrite Hout. split_and!; [done| |done]. constructor; [apply Hev|done].
Qed.

Lemma dap_handle_answers connect req (a : DebugAdapter C) :
  answers req (next_seq a) (dap_handle connect req a).
Proof.
  assert (Hev : ∀ k b, (∀ b, answers req (next_seq b) (k b)) → ∀ ev, (∀ n, message_seq (ev n) = n ∧ is_event (ev n) = true) →
    answers req (next_seq b) (dap_event (C:=C) ev k b)).
  { intros k b Hk ev He. apply answers_event; [done|]. exact (Hk (bump b 1)). }
  assert (Hcontrol : ∀ call what ev body, (∀ n, message_seq (ev n) = n ∧ is_event (ev n) = true) →
    answers req (next_seq a) (control (C:=C) req call what ev body a)).
  { intros call what ev body He. unfold control, connected_or. destruct (da_client a) as [c|]; [|apply answers_err].
    destruct (call c) as [c' [r|e]].
    - apply (Hev _ (with_client a c')); [intros; apply answers_ok|done].
    - apply (answers_err req _ (with_client a c')). }
  unfold dap_handle.
  repeat match goal with |- answers _ _ ((if ?b then _ else _) _) => destruct b end.
  - apply answers_ok.
  - unfold handle_attach. destruct (_ ≫= _) as [args|]; [|apply answers_err].
    destruct (connect _ _) as [c|e]; [|apply answers_err]. destruct (cc_authenticate c Engineer) as [c' [[]|e]]; [|apply answers_err].
    apply (Hev _ (with_client a (cc_pause c').1)); [|done]. intros b. apply Hev; [|done]. intros; apply answers_ok.
  - unfold handle_set_breakpoints, connected_or. destruct (da_client a) as [c|]; [|apply answers_err].
    destruct (_ ≫= _) as [ls|]; [|apply answers_err]. destruct (set_all _ 0 ls) as [c' bps].
    apply (answers_ok req _ (with_client a c')).
  - apply Hev; [intros; apply answers_ok|done].
  - by apply Hcontrol.
  - by apply Hcontrol.
  - by apply Hcontrol.
  - by apply Hcontrol.
  - apply answers_ok.
  - unfold handle_stack_trace, connected_or. destruct (da_client a) as [c|]; [|apply answers_err].
    destruct (cc_debug_state c) as [c' r]. apply (answers_ok req _ (with_client a c')).
  - apply answers_ok.
  - unfold handle_variables, connected_or. destruct (da_client a) as [c|]; [|apply answers_err].
    destruct (read_registers c 0 reg_names) as [c' vars]. apply (answers_ok req _ (with_client a c')).
  - apply (answers_ok req _ (mkAdapter None (next_seq a))).
  - apply answers_err.
Qed.

(** [C33] The protocol: over any sequence of requests - whatever the controller
    answers and whether or not it is connected - the messages are numbered
    consecutively from the adapter's first number, and every request is
    answered exactly once, in order, with its own number and command. *)
Theorem dap_answers_each_request connects rs (a : DebugAdapter C) :
  let '(a', out) := run_requests connects rs a in
  map message_seq out = seqZ (next_seq a) (Z.of_nat (length out)) ∧
  next_seq a' = next_seq a + Z.of_nat (length out) ∧
  omap answer_to out = map (λ r, (rq_seq r, rq_command r)) rs.
Proof.
  revert connects a. induction rs as [|r rs IH]; intros connects a; cbn [run_requests].
  { split_and!; [done | cbn; lia | done]. }
  pose proof (dap_handle_answers (connects 0%nat) r a) as (Hn & Hs & evs & last & Hout & Hevs & Hans).
  destruct (dap_handle (connects 0%nat) r a) as [a1 out1]. cbn [fst snd] in *.
  specialize (IH (λ i, connects (S i)) a1). destruct (run_requests _ rs a1) as [a2 out2].
  destruct IH as (Hs2 & Hn2 & Ha2). split_and!.
  - rewrite map_app, Hs, Hs2, Hn, length_app, Nat2Z.inj_add. symmetry. apply seqZ_app; lia.
  - rewrite length_app. lia.
  - rewrite omap_app, Ha2, Hout, omap_app. cbn [omap list_omap]. rewrite Hans. cbn [map].
    replace (omap answer_to evs) with (@nil (Z * string)); [done|]. symmetry.
    clear -Hevs. induction Hevs as [|m evs Hm Hevs IH]; [done|]. cbn. destruct m; [done|]. exact IH.
Qed.
End protocol.

(** ** Framing *)
Lemma pretty_free z c : 0 ≤ z → is_digit c = false → free_of c (pretty z) = true.
Proof.
  intros Hz Hc. destruct (pretty_digits z Hz) as (Hd & _). unfold free_of.
  apply forallb_forall. intros d Hin. rewrite forallb_forall in Hd. specialize (Hd d Hin).
  apply negb_true_iff, Ascii.eqb_neq. intros ->. congruence.
Qed.

Section framing.
Context `{JT : JsonText}.

Lemma read_line_free w rest : free_of newline w = true →
  read_line_chars (chars w ++ newline :: rest) = (chars w ++ [newline], rest).
Proof.
  unfold free_of. induction (chars w) as [|c l IH]; [done|]. cbn [forallb app read_line_chars].
  intros [Hc Hl]%andb_prop. apply negb_true_iff in Hc. by rewrite Hc, IH.
Qed.

Lemma content_length_line n : in_u 64 n = true →
  parse_content_length ("Content-Length: " +:+ pretty n +:+ crlf) = Some n.
Proof.
  intros Hn. unfold parse_content_length, starts_with. rewrite chars_app, starts_with_chars_app, str_from_app.
  assert (H0 : 0 ≤ n) by (apply in_u_spec in Hn; lia).
  change (pretty n +:+ crlf) with ("" +:+ pretty n +:+ crlf).
  rewrite trim_blanks; [by apply parse_number_pretty | done | done | by apply pretty_no_space | by apply pretty_digits].
Qed.

Definition wire (bodies : list string) : list ascii := concat (map (λ b, chars (send_packet b)) bodies).

Lemma read_one_packet fuel body rest : in_u 64 (Z.of_nat (String.length body)) = true →
  read_requests (S fuel) (chars (send_packet body) ++ rest) =
  match from_str body ≫= request_of_json with
  | Some r => r :: read_requests fuel rest | None => read_requests fuel rest end.
Proof.
  intros Hn. set (n := Z.of_nat (String.length body)) in *.
  set (w := "Content-Length: " +:+ pretty n +:+ String.String carriage_return "").
  assert (Hw : free_of newline w = true).
  { unfold w. rewrite !free_of_app, pretty_free by (try done; lia). done. }
  assert (Hsplit : chars (send_packet body) ++ rest =
    chars w ++ newline :: (chars (String.String carriage_return "") ++ newline :: (chars body ++ rest))).
  { unfold send_packet, w, crlf. fold n. rewrite !chars_app, <- !app_assoc. done. }
  rewrite Hsplit. cbn [read_requests]. rewrite read_line_free by done.
  destruct (chars w ++ [newline]) as [|x line] eqn:El; [by destruct (chars w)|].
  rewrite <- El. replace (forallb is_whitespace (chars w ++ [newline])) with false by done.
  replace (of_chars (chars w ++ [newline])) with ("Content-Length: " +:+ pretty n +:+ crlf).
  2:{ apply chars_inj. unfold w, crlf. rewrite chars_of_chars, !chars_app, <- !app_assoc. done. }
  rewrite content_length_line, read_line_free by done. cbv beta iota zeta.
  assert (Hlen : length (chars body) = Z.to_nat n) by (rewrite length_chars; unfold n; lia).
  rewrite (proj2 (Z.ltb_ge _ _)) by (rewrite length_app, Hlen; lia).
  by rewrite <- Hlen, take_app_length, drop_app_length, of_chars_chars.
Qed.

(** Framing round trip: a stream of packets, each body behind its length,
    is read back as the requests of the bodies in order; a body that is no
    request is skipped without losing the next packet. *)
Theorem packet_roundtrip fuel bodies : (length bodies < fuel)%nat →
  Forall (λ b, in_u 64 (Z.of_nat (String.length b)) = true) bodies →
  read_requests fuel (wire bodies) = omap (λ b, from_str b ≫= request_of_json) bodies.
Proof.
  intros Hf Hb. revert fuel Hf. induction Hb as [|body bodies Hn Hb IH]; intros fuel Hf.
  - by destruct fuel.
  - destruct fuel as [|fuel]; [lia|]. unfold wire. cbn [map concat]. rewrite read_one_packet by done.
    fold (wire bodies). rewrite IH by (cbn in Hf; lia). cbn [omap list_omap].
    by destruct (from_str body ≫= request_of_json).
Qed.
End framing.

(** ** Over the socket *)
Record SocketClient := mkSocket { sk_client : RuntimeClient; sk_in : list RxEvent; sk_sent : result unit IoError }.

Section socket.
Context `{HI : IoDisplay}.

Definition socket_call (m : result unit IoError → list RxEvent → list RxEvent * result string string) (c : SocketClient)
  : SocketClient * result string string :=
  let '(s, r) := m (sk_sent c) (sk_in c) in (mkSocket (sk_client c) s (sk_sent c), r).
#[export] Instance SocketClient_controller : ControllerClient SocketClient := {
  cc_authenticate c role :=
    let '(cl, s, r) := authenticate (sk_client c) (sk_sent c) (sk_in c) in (mkSocket cl s (sk_sent c), r);
  cc_pause := socket_call client_pause;
  cc_resume := socket_call client_resume;
  cc_step_cycle := socket_call client_step_cycle;
  cc_list_breakpoints := socket_call client_list_breakpoints;
  cc_set_breakpoint c _ := socket_call set_breakpoint c;
  cc_clear_breakpoint c _ := socket_call clear_breakpoint c;
  cc_debug_state := socket_call client_debug_state;
  cc_read_register c _ := socket_call client_read_register c }.
End socket.

Section shifted.
Context {HB : BuildProfile} {HD : Decoders} {HF : FloatFormat} {HM : Hmac} {HML : HmacLaws} {HI : IoDisplay} {JT : JsonText}.
Context (secret : list Z).

Definition text_reply (t : string) : Reply := ok_reply METHOD_READ_REGISTERS (string_bytes t).
Definition sendable (t : string) : bool := string_wf t && fits (text_reply t).

Lemma socket_call_text method t rs k s cl :
  sendable t = true → Forall (λ r, fits r = true) rs → on_the_wire (text_reply t :: rs) k = Some s →
  ∃ rest, on_the_wire rs k = Some rest ∧
    socket_call (text_call method) (mkSocket cl s (Ok tt)) = (mkSocket cl rest (Ok tt), Ok t).
Proof.
  intros [Ht Hfit]%andb_prop Hrs Hs.
  destruct (on_the_wire_read (text_reply t) rs k Hfit Hrs) as (s' & rest & Hs' & Hrest & Hread).
  rewrite Hs in Hs'. injection Hs' as <-. exists rest. split; [done|].
  unfold socket_call, text_call, send_request, cx_bind. cbn [sk_sent sk_in sk_client]. rewrite Hread.
  unfold response_of, text_reply. cbn [ok_reply r_status r_method r_payload snd]. rewrite Z.eqb_refl.
  cbn [snd].
  unfold cx_ret. cbv beta iota. unfold text_of. by rewrite from_utf8_string_bytes.
Qed.

Lemma read_registers_text cl i names ts rs k s :
  length ts = length names → Forall (λ t, sendable t = true) ts → Forall (λ r, fits r = true) rs →
  on_the_wire (map text_reply ts ++ rs) k = Some s →
  ∃ rest, on_the_wire rs k = Some rest ∧
    read_registers (mkSocket cl s (Ok tt)) i names = (mkSocket cl rest (Ok tt), zip names (map value_part ts)).
Proof.
  intros Hlen Hts Hrs. revert names i s Hlen. induction Hts as [|t ts Ht Hts IH]; intros names i s Hlen Hs.
  - destruct names; [|done]. by exists s.
  - destruct names as [|name names]; [done|]. cbn [map app] in Hs.
    destruct (socket_call_text METHOD_READ_REGISTERS t (map text_reply ts ++ rs) k s cl Ht) as (s1 & Hs1 & Hcall); [|done|].
    { apply Forall_app. split; [|done]. apply Forall_map. eapply Forall_impl; [exact Hts|].
      cbn. intros u Hu. by apply andb_prop in Hu as [_ Hu]. }
    destruct (IH names (i + 1) s1 ltac:(cbn in Hlen; lia) Hs1) as (rest & Hrest & Hread).
    exists rest. split; [done|]. cbn [read_registers cc_read_register SocketClient_controller zip_with map].
    unfold client_read_register. rewrite Hcall, Hread. done.
Qed.

(** The debugger shows each register one row too low: the server answers
    an authentication twice and the client never matches answers to requests,
    so after attaching the adapter is one answer behind - the first row shows
    the answer to the pause, every other row the register above it, and the
    last register is not shown at all. *)
Theorem registers_shifted x cl vs k input connect (a : DebugAdapter SocketClient) attach args req :
  length vs = 14%nat → Forall (λ t, sendable t = true) vs →
  on_the_wire ([ok_reply METHOD_AUTH_REQUEST (token_of secret x); ok_reply METHOD_AUTH_REQUEST (token_of secret x);
                text_reply "paused"] ++ map text_reply vs) k = Some input →
  rq_command attach = "attach" → rq_arguments attach ≫= launch_of_json = Some args →
  connect (la_socket_path args) (la_secret args) = Ok (mkSocket cl input (Ok tt)) →
  ∃ a2, handle_variables req (dap_handle connect attach a).1 =
    dap_ok req (json [("variables", JArr (map json_of_variable
      (zip reg_names (map value_part ("paused" :: take 13 vs)))))]) a2.
Proof.
  intros Hlen Hvs Hin Hcmd Hargs Hconn. set (auth := ok_reply METHOD_AUTH_REQUEST (token_of secret x)) in *.
  assert (Hfv : ∀ l, Forall (λ t, sendable t = true) l → Forall (λ r, fits r = true) (map text_reply l)).
  { intros l Hl. apply Forall_map. eapply Forall_impl; [exact Hl|]. cbn. intros u Hu. by apply andb_prop in Hu as [_ Hu]. }
  assert (Hp : sendable "paused" = true) by done.
  destruct (on_the_wire_read auth (auth :: map text_reply ("paused" :: vs)) k (fits_token secret x)) as (s0 & s1 & E0 & E1 & R0).
  { constructor; [apply fits_token|]. apply Hfv. by constructor. }
  cbn [app] in Hin. change (text_reply "paused" :: map text_reply vs) with (map text_reply ("paused" :: vs)) in Hin.
  rewrite Hin in E0. injection E0 as <-.
  destruct (on_the_wire_read auth (map text_reply ("paused" :: vs)) k (fits_token secret x)) as (s1' & s2 & E1' & E2 & R1).
  { apply Hfv. by constructor. }
  rewrite E1 in E1'. injection E1' as <-.
  assert (Hattach : da_client (dap_handle connect attach a).1 =
    Some (mkSocket (mkClient (hmac_secret cl) (Some (token_of secret x)) true) s2 (Ok tt))).
  { unfold dap_handle. rewrite Hcmd. cbn [String.eqb Ascii.eqb Bool.eqb orb].
    unfold handle_attach. rewrite Hargs, Hconn. cbn [cc_authenticate SocketClient_controller sk_client sk_sent sk_in].
    rewrite (authenticate_ok secret cl x input s1 R0). cbn [cc_pause SocketClient_controller].
    assert (Hpause : (socket_call client_pause (mkSocket (mkClient (hmac_secret cl) (Some (token_of secret x)) true) s1 (Ok tt))).1
      = mkSocket (mkClient (hmac_secret cl) (Some (token_of secret x)) true) s2 (Ok tt)).
    { unfold socket_call, client_pause, text_call, send_request, cx_bind. cbn [sk_sent sk_in sk_client]. rewrite R1.
      unfold response_of, auth. cbn [ok_reply r_status r_method r_payload snd]. rewrite Z.eqb_refl. done. }
    by rewrite Hpause. }
  unfold handle_variables, connected_or. rewrite Hattach.
  assert (Hsplit : "paused" :: vs = ("paused" :: take 13 vs) ++ drop 13 vs) by (cbn [app]; by rewrite take_drop).
  rewrite Hsplit, map_app in E2.
  destruct (read_registers_text (mkClient (hmac_secret cl) (Some (token_of secret x)) true) 0 reg_names ("paused" :: take 13 vs)
    (map text_reply (drop 13 vs)) k s2) as (rest & _ & ->); [| | |done|by eexists].
  - cbn [length]. rewrite length_take, Hlen. done.
  - constructor; [done|]. by apply Forall_take.
  - apply Hfv. by apply Forall_drop.
Qed.
End shifted.

(** ** The adapter, the client and the server together

    The client with the server at the other end of its socket: a call writes the
    request, the engine's thread works ([work i]), the server handles the
    request ([envs i] is what its thread finds) and puts its replies behind
    those that are still unread, and the client reads one response. *)
Record LiveClient {M : Type} := mkLive {
  lv_client : RuntimeClient; lv_in : list RxEvent; lv_server : Server (M := M); lv_conn : Conn; lv_turn : nat }.
Arguments LiveClient : clear implicits.

Section live.
Context {HB : BuildProfile} {HD : Decoders} {HF : FloatFormat} {HM : Hmac} {HI : IoDisplay}.
Context {M : Type} {HT : HalTransport M} {HQ : HalQoS M}.
Context (secret : list Z) (wl : list (Role * list Z)) (envs : nat → MsgEnv).
Context (work : nat → Engine (M := M) → Engine (M := M)) (pid : Z).

(** The server when it comes to the request. *)
Definition server_then (c : LiveClient M) : Server (M := M) :=
  with_engine (lv_server c) (work (lv_turn c) (engine (lv_server c))).
Definition exchange (frame : option (list Z)) (c : LiveClient M) : LiveClient M :=
  match (match frame with Some bytes => (read_frame (arriving bytes [])).2 | None => Err InvalidData end) with
  | Err _ => c
  | Ok f =>
      match handle_message secret wl (envs (lv_turn c)) (server_then c) (lv_conn c) f with
      | None => c
      | Some h =>
          mkLive M (lv_client c) (lv_in c ++ default [] (on_the_wire (h_replies h) [])) (h_server h) (h_conn h) (S (lv_turn c))
      end
  end.
Definition live_call (method : Z) (payload : list Z) (c : LiveClient M) : LiveClient M * result string string :=
  let c := exchange (request_frame (lv_client c) method payload) c in
  let '(s, r) := text_call method (Ok tt) (lv_in c) in
  (mkLive M (lv_client c) s (lv_server c) (lv_conn c) (lv_turn c), r).
Definition live_authenticate (role : Role) (c : LiveClient M) : LiveClient M * result unit string :=
  let c := exchange (auth_frame pid role) c in
  let '(cl, s, r) := authenticate (lv_client c) (Ok tt) (lv_in c) in
  (mkLive M cl s (lv_server c) (lv_conn c) (lv_turn c), r).
Definition LiveClient_controller : ControllerClient (LiveClient M) := {|
  cc_authenticate c role := live_authenticate role c;
  cc_pause := live_call METHOD_PAUSE [];
  cc_resume := live_call METHOD_RESUME [];
  cc_step_cycle := live_call METHOD_STEP_CYCLE [];
  cc_list_breakpoints := live_call METHOD_LIST_BREAKPOINTS [];
  cc_set_breakpoint c z := live_call METHOD_SET_BREAKPOINT (breakpoint_payload z) c;
  cc_clear_breakpoint c z := live_call METHOD_CLEAR_BREAKPOINT (breakpoint_payload z) c;
  cc_debug_state := live_call METHOD_DEBUG_STATE [];
  cc_read_register c i := live_call METHOD_READ_REGISTERS (register_payload i) c |}.
#[local] Existing Instance LiveClient_controller.
Context {HML : HmacLaws} {JT : JsonText}.

(** The breakpoints of the loaded program, if one is loaded. *)
Definition engine_breakpoints (e : Engine (M := M)) : option (gset nat) :=
  breakpoints ∘ debug_state <$> hal_executor e.

(** An authenticated client behind which one reply, [p], is still unread. *)
Record one_behind (x : SessionInfo) (p : Reply) (c : LiveClient M) : Prop := {
  ob_token : session_token (lv_client c) = Some (token_of secret x);
  ob_fits : fits p = true;
  ob_unread : on_the_wire [p] [] = Some (lv_in c);
  ob_session : session (lv_conn c) = Some x }.

(** What a text call makes of a reply. *)
Definition reply_text (p : Reply) : result string string :=
  let? r := response_of p in text_of r.2.

Lemma wire_app rs rs' s s' : on_the_wire rs [] = Some s → on_the_wire rs' [] = Some s' →
  on_the_wire (rs ++ rs') [] = Some (s ++ s').
Proof.
  unfold on_the_wire. revert s. induction rs as [|r rs IH]; intros s; cbn; [by intros [= <-]|].
  destruct (build_response r) as [f|]; [|done]. cbn.
  destruct (mapM build_response rs) as [fs|]; [|done]. cbn in *. intros [= <-] H'.
  specialize (IH _ eq_refl H'). destruct (mapM build_response (rs ++ rs')) as [fs'|]; [|done].
  cbn in *. injection IH as IH. f_equal. unfold arriving in *. rewrite !app_nil_r in *. by rewrite map_app, IH, map_app, app_assoc.
Qed.

Lemma wire_fits r : fits r = true → is_Some (on_the_wire [r] []).
Proof. intros H. unfold on_the_wire. destruct (read_response_ok r [] H) as (f & Hf & _). cbn. rewrite Hf. by eexists. Qed.

(** A request that is answered once leaves the client one answer behind: it
    reads the answer to the request before. *)
Lemma live_step x p c method payload (h : Handled (M := M)) r :
  one_behind x p c → session_ok x → (∀ i, fresh (envs (S i)) x) → lv_turn c ≠ O →
  method ≠ METHOD_AUTH_REQUEST → (length payload < 100)%nat →
  handle_request secret wl (envs (lv_turn c)) (server_then c) (lv_conn c) (mkFrame (token_of secret x) method payload) = Some h →
  h_replies h = [r] → fits r = true → h_conn h = lv_conn c →
  ∃ c', live_call method payload c = (c', reply_text p) ∧ one_behind x r c' ∧
    engine (lv_server c') = engine (h_server h) ∧ lv_turn c' = S (lv_turn c).
Proof.
  intros [Htok Hfp Hin Hsess] Hx Hfresh Ht Hm Hpl Hreq Hr Hfr Hc.
  assert (fresh (envs (lv_turn c)) x) as Hf by (by destruct (lv_turn c)).
  destruct (request_roundtrip (token_of secret x) method payload []) as (frame & Hframe & Hread);
    [apply build_wire_token_length | unfold HEADER_SIZE; lia |].
  destruct (wire_fits r Hfr) as [sr Hsr].
  set (s' := if h_skip h then h_server h else cleanup (h_server h) (h_conn h)).
  assert (exchange (request_frame (lv_client c) method payload) c =
    mkLive M (lv_client c) (lv_in c ++ sr) s' (lv_conn c) (S (lv_turn c))) as Hex.
  { unfold exchange, request_frame. rewrite Htok. cbn [default id]. rewrite Hframe.
    rewrite Hread. cbn [snd]. unfold handle_message, dispatch. rewrite (check_passes secret _ _ _ x) by done.
    rewrite Hreq. cbn [mbind option_bind]. unfold s'. destruct (h_skip h); cbn [h_replies h_server h_conn]; rewrite Hr, Hsr, Hc; reflexivity. }
  destruct (on_the_wire_read p [r] [] Hfp) as (s0 & s1 & E0 & E1 & Hresp); [by repeat constructor|].
  change [p; r] with ([p] ++ [r]) in E0. rewrite (wire_app [p] [r] _ _ Hin Hsr) in E0. injection E0 as <-.
  unfold live_call. rewrite Hex. cbn [lv_in]. unfold text_call, send_request, cx_bind. rewrite Hresp.
  unfold reply_text, response_of. destruct (r_status p =? STATUS_OK); cbn [cx_ret result_bind].
  all: eexists; split_and!; [reflexivity | done | | done].
  all: cbn; unfold s', cleanup; destruct (h_skip h); [done|]; by destruct (session (h_conn h)).
Qed.

(** The server's answer to setting a breakpoint. *)
Definition set_reply (bps : option (gset nat)) : Reply :=
  match bps with
  | Some _ => ok_text METHOD_SET_BREAKPOINT "ok" | None => error_reply METHOD_SET_BREAKPOINT "no program loaded"
  end.
Context (Hwork : ∀ i e, engine_breakpoints (work i e) = engine_breakpoints e).

Section granted.
Context (x : SessionInfo) (Hx : session_ok x) (Hrole : s_role x = Engineer) (Hfresh : ∀ i, fresh (envs (S i)) x).

Lemma may_configure (c : LiveClient M) : session (lv_conn c) = Some x →
  can_config (role_of (lv_conn c)) = true ∧ can_read (role_of (lv_conn c)) = true.
Proof. intros Hs. unfold role_of. rewrite Hs. cbn. by rewrite Hrole. Qed.

Lemma live_pause p c : one_behind x p c → lv_turn c ≠ O →
  ∃ c', live_call METHOD_PAUSE [] c = (c', reply_text p) ∧ one_behind x (ok_text METHOD_PAUSE "paused") c' ∧
    engine_breakpoints (engine (lv_server c')) = engine_breakpoints (engine (lv_server c)) ∧ lv_turn c' ≠ O.
Proof.
  intros Hob Ht. destruct (may_configure c (ob_session _ _ _ Hob)) as [Hc _].
  destruct (live_step x p c METHOD_PAUSE [] (answer (with_engine (server_then c) (pause (engine (server_then c))))
    (lv_conn c) (ok_text METHOD_PAUSE "paused")) (ok_text METHOD_PAUSE "paused"))
    as (c' & H1 & H2 & H3 & H4); try done; [cbn; lia | |].
  { cbn. unfold on_pause, on_control. by rewrite Hc. }
  exists c'. split_and!; [done.. | | lia]. rewrite H3. apply (Hwork (lv_turn c)).
Qed.

(** The answer to the list of breakpoints. *)
Definition list_reply (e : Engine (M := M)) : Reply :=
  match hal_executor e with
  | Some y => ok_text METHOD_LIST_BREAKPOINTS (String.concat "," (map pretty (list_breakpoints y)))
  | None => error_reply METHOD_LIST_BREAKPOINTS "no program loaded"
  end.
Definition listable (bps : option (gset nat)) : Prop :=
  match bps with
  | Some bps => fits (ok_text METHOD_LIST_BREAKPOINTS
      (String.concat "," (map pretty (merge_sort Nat.le (elements bps))))) = true
  | None => True
  end.

Lemma list_text_wf (l : list nat) : string_wf (String.concat "," (map pretty l)) = true.
Proof.
  apply ascii_string_wf.
  assert (∀ n : nat, Forall (λ b, 0 ≤ b < 128) (string_bytes (pretty n))) as Hn.
  { intros n. assert (pretty n = pretty (Z.of_nat n)) as -> by (by destruct n).
    destruct (pretty_digits (Z.of_nat n)) as (Hd & _); [lia|]. revert Hd.
    induction (pretty (Z.of_nat n)) as [|c s IH]; cbn [chars string_bytes forallb]; [constructor|].
    intros [Hc Hs]%andb_prop. constructor; [|by apply IH].
    unfold is_digit, Prelude.between in Hc. breflect. lia. }
  induction l as [|n [|n' l] IH]; [constructor | apply Hn |].
  change (String.concat "," (map pretty (n :: n' :: l)))
    with (pretty n +:+ "," +:+ String.concat "," (map pretty (n' :: l))).
  rewrite !string_bytes_app. apply Forall_app. split; [apply Hn|]. by constructor.
Qed.

Lemma live_list p c : one_behind x p c → lv_turn c ≠ O → listable (engine_breakpoints (engine (lv_server c))) →
  ∃ c' r, live_call METHOD_LIST_BREAKPOINTS [] c = (c', reply_text p) ∧ one_behind x r c' ∧
    is_ok (reply_text r) = bool_decide (is_Some (engine_breakpoints (engine (lv_server c)))) ∧
    engine_breakpoints (engine (lv_server c')) = engine_breakpoints (engine (lv_server c)) ∧ lv_turn c' ≠ O.
Proof.
  intros Hob Ht Hl. destruct (may_configure c (ob_session _ _ _ Hob)) as [_ Hc].
  set (e := work (lv_turn c) (engine (lv_server c))).
  assert (He : engine_breakpoints e = engine_breakpoints (engine (lv_server c))) by apply Hwork.
  rewrite <- He in Hl |- *. set (h := on_list_breakpoints (server_then c) (lv_conn c)).
  assert (Hh : h_replies h = [list_reply e] ∧ h_conn h = lv_conn c ∧ engine (h_server h) = e).
  { unfold h, on_list_breakpoints, list_reply. rewrite Hc. cbn [negb]. fold e. cbn [server_then with_engine engine].
    fold e. by destruct (hal_executor e). }
  destruct Hh as (H1 & H2 & H3).
  destruct (live_step x p c METHOD_LIST_BREAKPOINTS [] h (list_reply e)) as (c' & E1 & E2 & E3 & E4); try done; [cbn; lia | |].
  { unfold list_reply. unfold engine_breakpoints in Hl. by destruct (hal_executor e). }
  exists c', (list_reply e). split_and!; [done.. | | by rewrite E3, H3 | lia].
  unfold list_reply, engine_breakpoints. destruct (hal_executor e) as [y|]; [|done]. cbn [fmap option_fmap option_map].
  rewrite bool_decide_true by done. unfold reply_text, ok_text, response_of. cbn. unfold text_of.
  by rewrite from_utf8_string_bytes by (apply list_text_wf).
Qed.

Lemma live_set p c z : one_behind x p c → lv_turn c ≠ O → in_u 32 z = true →
  ∃ c', live_call METHOD_SET_BREAKPOINT (breakpoint_payload z) c = (c', reply_text p) ∧
    one_behind x (set_reply (engine_breakpoints (engine (lv_server c)))) c' ∧
    engine_breakpoints (engine (lv_server c')) =
      (λ bps, {[ Z.to_nat z ]} ∪ bps) <$> engine_breakpoints (engine (lv_server c)) ∧ lv_turn c' ≠ O.
Proof.
  intros Hob Ht Hz. destruct (may_configure c (ob_session _ _ _ Hob)) as [Hc _].
  set (e := work (lv_turn c) (engine (lv_server c))).
  assert (He : engine_breakpoints e = engine_breakpoints (engine (lv_server c))) by apply Hwork.
  rewrite <- He. set (h := on_set_breakpoint (server_then c) (lv_conn c) (breakpoint_payload z)).
  assert (Hh : h_replies h = [set_reply (engine_breakpoints e)] ∧ h_conn h = lv_conn c ∧
    engine_breakpoints (engine (h_server h)) = (λ bps, {[ Z.to_nat z ]} ∪ bps) <$> engine_breakpoints e).
  { unfold h, on_set_breakpoint, on_breakpoint, breakpoint_payload. rewrite Hc. cbn [negb].
    rewrite be_bytes_length. cbn [Nat.ltb Nat.leb]. rewrite take_ge by (by rewrite be_bytes_length).
    rewrite of_be_bytes_be_bytes, Z.mod_small by (apply in_u_spec in Hz; done). cbn [server_then with_engine engine]. fold e.
    unfold engine_breakpoints. by destruct (hal_executor e) as [y|] eqn:Ey; cbn; fold e; rewrite ?Ey. }
  destruct Hh as (H1 & H2 & H3).
  destruct (live_step x p c METHOD_SET_BREAKPOINT (breakpoint_payload z) h (set_reply (engine_breakpoints e)))
    as (c' & E1 & E2 & E3 & E4); try done.
  - unfold breakpoint_payload. rewrite be_bytes_length. lia.
  - by destruct (engine_breakpoints e).
  - exists c'. split_and!; [done.. | by rewrite E3 | lia].
Qed.

Lemma live_set_all ls p c i : one_behind x p c → lv_turn c ≠ O →
  is_ok (reply_text p) = bool_decide (is_Some (engine_breakpoints (engine (lv_server c)))) →
  let '(c', bl) := set_all c i ls in
  map bp_line bl = ls ∧ map bp_id bl = seqZ (i + 1) (Z.of_nat (length ls)) ∧
  Forall (λ b, bp_verified b = bool_decide (is_Some (engine_breakpoints (engine (lv_server c))))) bl ∧
  engine_breakpoints (engine (lv_server c')) =
    (λ bps, list_to_set (map (λ l, Z.to_nat (wrap_u 32 l)) ls) ∪ bps) <$> engine_breakpoints (engine (lv_server c)).
Proof.
  revert p c i. induction ls as [|line ls IH]; intros p c i Hob Ht Hp; cbn [set_all].
  { cbn. split_and!; [done..|]. destruct (engine_breakpoints _); [|done]. cbn. by rewrite union_empty_l_L. }
  destruct (live_set p c (wrap_u 32 line) Hob Ht) as (c1 & Hcall & Hob1 & He1 & Ht1); [by apply wrap_u_in|].
  cbn [cc_set_breakpoint LiveClient_controller]. rewrite Hcall.
  specialize (IH _ c1 (i + 1) Hob1 Ht1). rewrite He1 in IH. destruct (set_all c1 (i + 1) ls) as [c2 bl].
  destruct IH as (H1 & H2 & H3 & H4); [by destruct (engine_breakpoints _)|].
  cbn [map bp_line bp_id length]. split_and!.
  - by rewrite H1.
  - rewrite H2, (seqZ_cons (i + 1)) by lia. f_equal. f_equal; lia.
  - constructor; [done|]. eapply Forall_impl; [exact H3|]. cbn. intros b ->. by destruct (engine_breakpoints _).
  - rewrite H4. destruct (engine_breakpoints _); [|done]. cbn. f_equal. set_solver.
Qed.
End granted.

(** The request of [authenticate] as an engineer. *)
Definition engineer_payload : list Z := le_bytes 4 pid ++ [role_to_u8 Engineer].

Lemma auth_ok_engineer env c x : auth_ok wl env c engineer_payload x → in_u 64 (next_session_id c) = true →
  s_role x = Engineer ∧ session_ok x.
Proof.
  intros ((pid' & uid & gid & _ & _ & _ & Hr & Hh & _) & Hi & He) Hn.
  assert (s_role x = Engineer) as E.
  { unfold engineer_payload in Hr. rewrite app_nth2 in Hr by (rewrite le_bytes_length; lia).
    rewrite le_bytes_length in Hr. by destruct (s_role x). }
  split; [done|]. split_and!; [by rewrite Hi | by apply arith_in in He | done].
Qed.

Lemma auth_grants env (s : Server (M := M)) c f x :
  session c = None → f_method f = METHOD_AUTH_REQUEST → auth_ok wl env c (f_payload f) x →
  ∃ h, handle_message secret wl env s c f = Some h ∧ session (h_conn h) = Some x ∧ engine (h_server h) = engine s ∧
    h_replies h = [ok_reply METHOD_AUTH_REQUEST (token_of secret x); ok_reply METHOD_AUTH_REQUEST (token_of secret x)].
Proof.
  intros Hs Hm Hok. pose proof (auth_result_exact secret wl env s c f Hs Hm) as Ha.
  destruct (handle_message secret wl env s c f) as [h|] eqn:Eh.
  - destruct Ha as [H1 H2]. pose proof (proj2 (H1 x) Hok) as Hx. rewrite Hx in H2. exists h. split_and!; [done..| |done].
    revert Eh. unfold handle_message, dispatch, check_session, handle_request. rewrite Hs, Hm. unfold METHOD_AUTH_REQUEST at 1, on_auth.
    destruct (handle_auth env c (f_payload f) secret wl) as [[[c' rs] [y|]]|]; [| |done]; cbn; intros [= <-]; cbn; [done|].
    unfold cleanup. by destruct (session c').
  - exfalso. destruct Ha as (r & (? & ? & ? & _ & _ & _ & Hr & Hh & _) & Hn).
    destruct Hok as ((? & ? & ? & _ & _ & _ & Hr' & Hh' & _) & _ & He).
    assert (r = s_role x) as -> by (rewrite Hr in Hr'; by destruct r, (s_role x)). congruence.
Qed.

(** Attaching leaves an engineer's session one answer behind: the answer to the
    pause is still unread. *)
Lemma live_attach c id x : lv_in c = [] → lv_conn c = conn_new id → lv_turn c = O →
  auth_ok wl (envs 0%nat) (conn_new id) engineer_payload x → (∀ i, fresh (envs (S i)) x) →
  ∃ c1 c2, live_authenticate Engineer c = (c1, Ok tt) ∧ (live_call METHOD_PAUSE [] c1).1 = c2 ∧
    one_behind x (ok_text METHOD_PAUSE "paused") c2 ∧ lv_turn c2 ≠ O ∧
    engine_breakpoints (engine (lv_server c2)) = engine_breakpoints (engine (lv_server c)).
Proof.
  intros Hin Hconn Hturn Hok Hfresh. set (r := ok_reply METHOD_AUTH_REQUEST (token_of secret x)).
  destruct (auth_ok_engineer _ _ x Hok eq_refl) as [Hrole Hx].
  destruct (request_roundtrip zero_token METHOD_AUTH_REQUEST engineer_payload []) as (frame & Hframe & Hread);
    [done | unfold engineer_payload, HEADER_SIZE; rewrite length_app, le_bytes_length; cbn; lia |].
  destruct (auth_grants (envs 0%nat) (server_then c) (conn_new id) (mkFrame zero_token METHOD_AUTH_REQUEST engineer_payload) x)
    as (h & Hh & Hs & He & Hr); [done..|].
  destruct (on_the_wire_read r [r] [] (fits_token secret x)) as (s0 & s1 & E0 & E1 & Hresp).
  { constructor; [apply fits_token | constructor]. }
  set (c1 := mkLive M (mkClient (hmac_secret (lv_client c)) (Some (token_of secret x)) true) s1 (h_server h) (h_conn h) 1%nat).
  assert (live_authenticate Engineer c = (c1, Ok tt)) as Hauth.
  { unfold live_authenticate, exchange, auth_frame. fold engineer_payload. rewrite Hframe, Hread. cbn [snd].
    rewrite Hturn, Hconn, Hin, Hh, Hr. fold r. rewrite E0. cbn [default app lv_client lv_in]. unfold Datatypes.id.
    by rewrite (authenticate_ok secret (lv_client c) x s0 s1 Hresp). }
  assert (one_behind x r c1) as Hob by (constructor; [done | apply fits_token | done | done]).
  destruct (live_pause x Hx Hrole Hfresh r c1 Hob) as (c2 & Hcall & Hob2 & He2 & Ht2); [done|].
  exists c1, c2. rewrite Hcall. split_and!; [done.. |]. rewrite He2. cbn [c1 lv_server]. rewrite He. apply Hwork.
Qed.

(** [C32] Breakpoints only accumulate.  With the adapter, the socket client and
    the server put together - the engine's thread may work between two requests
    as long as it leaves the breakpoints - a fresh connection is attached to and
    breakpoints are set.  The adapter means to clear those there are, but the
    list it reads is the answer to its own pause, so nothing is cleared: the
    controller's breakpoints are those it had and the lines of the request, as
    32-bit numbers.  The answer lists the lines in order, numbered from one;
    all of them are reported as verified if a program is loaded, and none, with
    no breakpoint set, if none is. *)
Theorem breakpoints_accumulate c id x attach args sb ls connect connect' (a : DebugAdapter (LiveClient M)) :
  lv_in c = [] → lv_conn c = conn_new id → lv_turn c = O →
  auth_ok wl (envs 0%nat) (conn_new id) engineer_payload x → (∀ i, fresh (envs (S i)) x) →
  listable (engine_breakpoints (engine (lv_server c))) →
  rq_command attach = "attach" → rq_arguments attach ≫= launch_of_json = Some args →
  connect (la_socket_path args) (la_secret args) = Ok c →
  rq_command sb = "setBreakpoints" → rq_arguments sb ≫= breakpoints_of_json = Some ls →
  let held := engine_breakpoints (engine (lv_server c)) in
  ∃ a1 c1 bl, dap_handle connect' sb (dap_handle connect attach a).1 =
      dap_ok sb (json [("breakpoints", JArr (map json_of_breakpoint bl))]) a1 ∧ da_client a1 = Some c1 ∧
    map bp_line bl = ls ∧ map bp_id bl = seqZ 1 (Z.of_nat (length ls)) ∧
    Forall (λ b, bp_verified b = bool_decide (is_Some held)) bl ∧
    engine_breakpoints (engine (lv_server c1)) =
      (λ bps, list_to_set (map (λ l, Z.to_nat (wrap_u 32 l)) ls) ∪ bps) <$> held.
Proof.
  intros Hin Hconn Hturn Hok Hfresh Hlist Hac Haa Hco Hsc Hsa held.
  destruct (auth_ok_engineer _ _ x Hok eq_refl) as [Hrole Hx].
  destruct (live_attach c id x Hin Hconn Hturn Hok Hfresh) as (c1 & c2 & Hauth & Hpause & Hob & Ht & He).
  fold held in He, Hlist. rewrite <- He in Hlist.
  destruct (live_list x Hx Hrole Hfresh _ c2 Hob Ht Hlist) as (c3 & r & Hcall & Hob3 & Hr & He3 & Ht3).
  assert (da_client (dap_handle connect attach a).1 = Some c2) as Hclient.
  { unfold dap_handle. rewrite Hac. cbn [String.eqb Ascii.eqb Bool.eqb orb]. unfold handle_attach. rewrite Haa, Hco.
    cbn [cc_authenticate cc_pause LiveClient_controller]. rewrite Hauth, Hpause. done. }
  assert (clear_existing c2 = c3) as Hclear.
  { unfold clear_existing. cbn [cc_list_breakpoints LiveClient_controller]. rewrite Hcall. reflexivity. }
  pose proof (live_set_all x Hx Hrole Hfresh ls r c3 0 Hob3 Ht3) as Hset. rewrite Hr, He3 in Hset. specialize (Hset eq_refl).
  unfold dap_handle at 1. rewrite Hsc. cbn [String.eqb Ascii.eqb Bool.eqb orb]. unfold handle_set_breakpoints, connected_or.
  rewrite Hclient, Hsa, Hclear. destruct (set_all c3 0 ls) as [c4 bl]. destruct Hset as (H1 & H2 & H3 & H4).
  eexists _, c4, bl. rewrite He in H3, H4. split_and!; [reflexivity | done..].
Qed.
End live.

(** ** Runs *)

(** A codec of one request. *)
Definition one_request : JsonText := {|
  from_str s := if String.eqb s "go" then Some (JObj [("seq", JInt 7); ("command", JStr "threads")]) else None;
  to_string _ := "" |}.

Lemma packet_roundtrip_witness :
  read_requests (JT := one_request) 4 (wire ["go"; "junk"; "go"]) = [mkRequest 7 "threads" None; mkRequest 7 "threads" None].
Proof. apply (packet_roundtrip (JT := one_request) 4 ["go"; "junk"; "go"]); [cbn; lia | repeat constructor]. Defined.

(** A server whose loaded program has a breakpoint at instruction 5, and a client
    that has connected. *)
Definition watched_executor : Executor :=
  (add_breakpoint (default (executor_new demo_program) (hal_executor loaded_engine)) 5).1.
Definition live_start : LiveClient InprocMiddleware :=
  mkLive _ (connect [1]) [] (mkServer (set_executor loaded_engine watched_executor) ∅) (conn_new 0) 0.
Definition set_bps (ls : list Z) : DapRequest :=
  mkRequest 3 "setBreakpoints" (Some (json [("source", json [("name", JStr "main.st")]);
    ("breakpoints", JArr (map (λ l, json [("line", JInt l)]) ls))])).
Definition attach_request : DapRequest := mkRequest 1 "attach" (Some (json [])).

Lemma breakpoints_accumulate_witness :
  let CC := LiveClient_controller (HB := release_profile) (HD := demo_decoders) (HF := demo_format) (HM := demo_hmac)
    (HI := demo_display) demo_secret default_whitelist (λ _, engineer_env) (λ _ e, e) 7 in
  ∃ (a1 : DebugAdapter (LiveClient InprocMiddleware)) c1 bl,
    dap_handle (CC := CC) (JT := one_request) (λ _ _, Err "") (set_bps [4; 2 ^ 32 + 3])
      (dap_handle (CC := CC) (JT := one_request) (λ _ _, Ok live_start) attach_request adapter_start).1 =
      dap_ok (set_bps [4; 2 ^ 32 + 3]) (json [("breakpoints", JArr (map json_of_breakpoint bl))]) a1 ∧
    da_client a1 = Some c1 ∧ map bp_line bl = [4; 2 ^ 32 + 3] ∧ map bp_id bl = [1; 2] ∧
    Forall (λ b, bp_verified b = true) bl ∧
    engine_breakpoints (engine (lv_server c1)) = Some (list_to_set [4; 3] ∪ {[ 5 ]} : gset nat)%nat.
Proof.
  apply (breakpoints_accumulate (HB := release_profile) (HD := demo_decoders) (HF := demo_format) (HM := demo_hmac)
    (HI := demo_display) (HML := demo_hmac_laws) (JT := one_request) demo_secret default_whitelist (λ _, engineer_env)
    (λ _ e, e) 7 ltac:(done) live_start 0 (mkSession 1 Engineer 3600010) attach_request
    (mkLaunch default_socket_path default_secret) (set_bps [4; 2 ^ 32 + 3]) [4; 2 ^ 32 + 3]); try reflexivity.
  - split; [|done]. exists 7, 1000, 100. split_and!; [done | cbn; lia | done | done | done | ].
    apply uid_allowed_open. reflexivity.
  - intros i. split; vm_compute; discriminate.
Defined.

Definition demo_registers : list string := map (λ i, "r" +:+ pretty i +:+ "=" +:+ pretty (100 + i)) (seqZ 0 14).
Definition demo_input : list RxEvent :=
  default [] (on_the_wire (HB := release_profile)
    ([ok_reply METHOD_AUTH_REQUEST demo_token; ok_reply METHOD_AUTH_REQUEST demo_token; text_reply "paused"]
     ++ map text_reply demo_registers) []).

Lemma registers_shifted_witness :
  ∃ a2, handle_variables (CC := SocketClient_controller (HI := demo_display)) (mkRequest 2 "variables" None)
      (dap_handle (CC := SocketClient_controller (HI := demo_display)) (JT := one_request)
        (λ _ _, Ok (mkSocket (connect [1]) demo_input (Ok tt))) attach_request adapter_start).1 =
    dap_ok (mkRequest 2 "variables" None) (json [("variables", JArr (map json_of_variable
      (zip reg_names (map value_part ("paused" :: take 13 demo_registers)))))]) a2.
Proof.
  apply (registers_shifted (HB := release_profile) (HM := demo_hmac) (HML := demo_hmac_laws) (HI := demo_display)
    (JT := one_request) demo_secret demo_session (connect [1]) demo_registers [] demo_input
    (λ _ _, Ok (mkSocket (connect [1]) demo_input (Ok tt))) adapter_start attach_request
    (mkLaunch default_socket_path default_secret)); try reflexivity.
  - repeat constructor.
Defined.
