(* ===== verification/TheiaBridge.v ===== *)
(** * The bridge of the studio's backend ([audesys-theia-bridge/src/lib.rs])

    The functions the studio calls: the compilers, the one-shot calls of a
    controller, the life of a controller process and the simulation.  JSON and
    bincode are parameters, as are the texts of the Structured Text compiler's
    errors (derived code).  Calls of the operating system are arguments: what
    connecting, writing, spawning and the clock return. *)
From stdpp Require Import pretty.
From S2P Require Import Prelude Float HalTypes HalValue HalIr FunctionBlocks Vm Executor Text Qos Transport Middleware.
From S2P Require Import Signals Lifecycle Engine CommonTypes IpcWire IpcServer RuntimeClient IpcFacts Simulation.
From S2P Require IlSyntax IlCodegen IlFacts LdCompiler Fbd Sfc GcodeCompiler StCodegen.
Local Open Scope Z_scope.

(** What a function leaves outside the process. *)
Inductive BridgeEffect := KillChild (pid : Z) | RemoveFile (path : string).
(** The JSON objects the bridge builds itself, as the values they hold. *)
Inductive BridgeReply :=
  | RStarted (pid : Z) (socket : string) | RStopped
  | RHealth (alive : bool) (pid : option Z) (uptime_sec : Z)
  | RCreated (cycle_ms : Z) | RDestroyed
  | RSignals (l : list (string * HalValue)).

Class BridgeJson := {
  program_json : HalProgram → result string string;
  program_of_json : string → result HalProgram string;
  bincode_serialize : HalProgram → result (list Z) string;
  value_json : HalValue → result string string;
  signals_json : list (string * HalValue) → result string string;
  compile_error_text : StCodegen.CompileError → string }.

(** [.map_err(|e| format!("{what}: {e}"))] *)
Definition prefix_error {A} (what : string) (r : result A string) : result A string :=
  match r with Ok a => Ok a | Err e => Err (what +:+ ": " +:+ e) end.

(** ** Helpers *)
Section helpers.
Context {BJ : BridgeJson}.

Definition to_json (p : HalProgram) : result string string := prefix_error "serialize" (program_json p).
Definition json_to_bincode (json : string) : result (list Z) string :=
  let? p := prefix_error "deserialize" (program_of_json json) in
  prefix_error "bincode" (bincode_serialize p).

Definition parse_role (s : string) : result Role string :=
  let l := to_lowercase s in
  if String.eqb l "operator" then Ok Operator
  else if String.eqb l "engineer" then Ok Engineer
  else if String.eqb l "supervisor" then Ok Supervisor
  else if String.eqb l "auditor" then Ok Auditor
  else if String.eqb l "hmi" then Ok Hmi
  else if String.eqb l "system" then Ok CommonTypes.System
  else Err ("unknown role: " +:+ l).

Definition stub (name : string) : result string string :=
  Err ("not implemented: " +:+ name +:+ " is a stub for a future phase").

(** ** Compilers.  [None] is a panic of the compiler. *)
Definition json_of {E} (show : E → string) (r : option (result HalProgram E)) : option (result string string) :=
  match r with
  | None => None
  | Some (Err e) => Some (Err (show e))
  | Some (Ok p) => Some (to_json p)
  end.

Definition compile_st (source : string) : option (result string string) :=
  json_of compile_error_text (StCodegen.compile source).
Definition compile_il (source : string) : option (result string string) :=
  json_of id (IlCodegen.il_compile source).
(** [compile_ld], [compile_fbd], [compile_sfc]: a front end that writes IL. *)
Definition compile_via_il (front : string → result string string) (source : string)
  : option (result string string) :=
  match front source with Err e => Some (Err e) | Ok il => compile_il il end.
Definition compile_ld := compile_via_il LdCompiler.ld_compile.
Definition compile_fbd := compile_via_il Fbd.fbd_compile.
Definition compile_sfc := compile_via_il Sfc.sfc_compile.

Definition gcode_error_display (e : GcodeCompiler.GCodeError) : string :=
  match e with
  | GcodeCompiler.ParseError line msg => "line " +:+ pretty line +:+ ": parse error: " +:+ msg
  | GcodeCompiler.UnsupportedCommand line code => "line " +:+ pretty line +:+ ": unsupported command: " +:+ code
  | GcodeCompiler.MissingParameter line param => "line " +:+ pretty line +:+ ": missing parameter: " +:+ param
  end.
Definition compile_gcode `{HB : BuildProfile} `{FF : GcodeCompiler.FloatFunctions} (source : list Z)
  : option (result string string) :=
  json_of gcode_error_display (GcodeCompiler.gcode_compile source).
End helpers.

(** ** One-shot calls of the controller *)
Section calls.
Context {HB : BuildProfile} {HI : IoDisplay} {BJ : BridgeJson}.

(** [connected] and [auth_sent] are what connecting and writing the
    authentication returned; the client is dropped at the end. *)
Definition with_controller {A} (connected auth_sent : result unit IoError) (secret : list Z)
    (f : RuntimeClient → Stream → Stream * result A string) (s : Stream) : Stream * result A string :=
  match connected with
  | Err e => (s, Err ("connect: " +:+ io_display e))
  | Ok _ =>
      match authenticate (connect secret) auth_sent s with
      | (_, s, Err e) => (s, Err ("auth: " +:+ e))
      | (client, s, Ok _) => f client s
      end
  end.

(** The role a function asks for, the request it then makes and what it does
    with the answer. *)
Record BridgeCall := mkCall {
  bc_role : Role; bc_method : Z; bc_payload : list Z;
  bc_answer : result unit IoError → Stream → Stream * result string string }.
Definition bridge_call (c : BridgeCall) (connected auth_sent sent : result unit IoError) (secret : list Z)
  : Stream → Stream * result string string :=
  with_controller connected auth_sent secret (fun _ => bc_answer c sent).

(** [let x = call?; use(x)] in a closure. *)
Definition then_json {A} (m : Stream → Stream * result A string) (k : A → result string string)
  : Stream → Stream * result string string := cx_bind m (fun a => cx_ret (k a)).

Definition read_signal_call (name : string) : BridgeCall :=
  mkCall Operator METHOD_READ_SIGNAL (string_bytes name)
    (fun sent => then_json (client_read_signal sent) (fun v => prefix_error "serialize" (value_json v))).
Definition signal_snapshot_call (pattern : string) : BridgeCall :=
  mkCall Operator METHOD_SIGNAL_SNAPSHOT (string_bytes pattern)
    (fun sent => then_json (RuntimeClient.signal_snapshot sent) (fun l => prefix_error "serialize" (signals_json l))).
Definition load_call (program : list Z) : BridgeCall := mkCall Engineer METHOD_LOAD_PROGRAM program load_program.
(** [deploy_program]: bad JSON is reported before anything is connected. *)
Definition deploy_program (program_json : string) (connected auth_sent sent : result unit IoError) (secret : list Z)
    (s : Stream) : Stream * result string string :=
  match json_to_bincode program_json with
  | Err e => (s, Err e)
  | Ok program => bridge_call (load_call program) connected auth_sent sent secret s
  end.
Definition health_call : BridgeCall := mkCall Operator METHOD_HEALTH_QUERY [] health_query.
Definition deploy_hmi_call (yaml : string) : BridgeCall :=
  mkCall Engineer METHOD_DEPLOY_HMI_LAYOUT (string_bytes yaml)
    (fun sent => then_json (client_deploy_hmi_layout sent) (fun generation => Ok (pretty generation))).
Definition load_hal_config_call (yaml : string) : BridgeCall :=
  mkCall Engineer METHOD_LOAD_HAL_CONFIG (string_bytes yaml) load_hal_config.
Definition debug_connect (connected auth_sent : result unit IoError) (secret : list Z)
  : Stream → Stream * result string string :=
  with_controller connected auth_sent secret (fun _ => cx_ret (Ok "connected")).
Definition debug_disconnect : result string string := Ok "disconnected".
Definition debug_pause_call : BridgeCall := mkCall Engineer METHOD_PAUSE [] client_pause.
Definition debug_resume_call : BridgeCall := mkCall Engineer METHOD_RESUME [] client_resume.
Definition debug_step_call : BridgeCall := mkCall Engineer METHOD_STEP_CYCLE [] client_step_cycle.
Definition debug_get_registers_call : BridgeCall := mkCall Engineer METHOD_DEBUG_STATE [] client_debug_state.
Definition debug_add_breakpoint_call (ip : Z) : BridgeCall :=
  mkCall Engineer METHOD_SET_BREAKPOINT (breakpoint_payload ip) set_breakpoint.
Definition debug_remove_breakpoint_call (ip : Z) : BridgeCall :=
  mkCall Engineer METHOD_CLEAR_BREAKPOINT (breakpoint_payload ip) clear_breakpoint.
Definition debug_get_breakpoints_call : BridgeCall :=
  mkCall Engineer METHOD_LIST_BREAKPOINTS [] client_list_breakpoints.
Definition debug_get_state : result string string := stub "debug_get_state".
End calls.

(** ** Files *)
(** [Path::join] of a relative name. *)
Definition path_join (dir name : string) : string :=
  if String.eqb dir "" then name
  else if ends_with_char dir "/" then dir +:+ name else dir +:+ "/" +:+ name.
Definition open_project (read : string → result string string) (project_path : string) : result string string :=
  prefix_error "read project" (read (path_join project_path ".audesys-project.yaml")).
Definition read_project_file (read : string → result string string) (path : string) : result string string :=
  prefix_error "read file" (read path).
(** The path is put into the JSON text as it is. *)
Definition save_hmi_layout (write : string → string → result unit string) (path yaml : string)
  : result string string :=
  let quote := String.String double_quote "" in
  let? _ := prefix_error "write" (write path yaml) in
  Ok ("{" +:+ quote +:+ "saved" +:+ quote +:+ ":" +:+ quote +:+ path +:+ quote +:+ "}").
Definition load_hmi_layout (read : string → result string string) (path : string) : result string string :=
  prefix_error "read" (read path).

(** ** The statics of the process *)
Record ControllerHandle := mkHandle { h_pid : Z; h_started_at : Z }.
Record Bridge := mkBridge {
  b_controller : option ControllerHandle; b_socket : option string; b_sim : option SimulationHarness }.
Definition bridge_new : Bridge := mkBridge None None None.

(** ** The life of the controller process; instants are in milliseconds *)

(** Each poll reads the clock and tries the socket; [None]: still polling. *)
Fixpoint await_socket (fuel : nat) (deadline : Z) (polls : nat → Z * bool) : option bool :=
  match fuel with
  | O => None
  | S fuel =>
      let '(now, connects) := polls 0%nat in
      if deadline <=? now then Some false
      else if connects : bool then Some true
      else await_socket fuel deadline (fun i => polls (S i))
  end.
Definition START_TIMEOUT_MS : Z := 10000.
Definition POLL_INTERVAL_MS : Z := 100.

Record StartEnv := mkStart { se_exists : bool; se_spawn : result Z string; se_started_at : Z; se_polls : nat → Z * bool }.

Definition controller_start (fuel : nat) (env : StartEnv) (socket binary : string) (b : Bridge)
  : option (Bridge * list BridgeEffect * result BridgeReply string) :=
  match b_controller b with
  | Some _ => Some (b, [], Err "controller already running. Call controller_stop() first.")
  | None =>
      if negb (se_exists env) then Some (b, [], Err ("binary not found: " +:+ binary))
      else
        match se_spawn env with
        | Err e => Some (b, [], Err ("spawn failed: " +:+ e))
        | Ok pid =>
            match await_socket fuel (se_started_at env + START_TIMEOUT_MS) (se_polls env) with
            | None => None
            | Some false =>
                Some (b, [KillChild pid], Err "controller start timeout: UDS socket not ready after 10s")
            | Some true =>
                Some (mkBridge (Some (mkHandle pid (se_started_at env))) (Some socket) (b_sim b), [],
                      Ok (RStarted pid socket))
            end
        end
  end.

(** [controller_stop] up to [drop(guard)], and the rest. *)
Definition stop_take (b : Bridge) : Bridge * result ControllerHandle string :=
  match b_controller b with
  | None => (b, Err "no controller running")
  | Some h => (mkBridge None (b_socket b) (b_sim b), Ok h)
  end.
Definition stop_cleanup (b : Bridge) (h : ControllerHandle) : Bridge * list BridgeEffect * result BridgeReply string :=
  (mkBridge (b_controller b) None (b_sim b),
   KillChild (h_pid h) :: match b_socket b with Some path => [RemoveFile path] | None => [] end, Ok RStopped).
Definition controller_stop (b : Bridge) : Bridge * list BridgeEffect * result BridgeReply string :=
  match stop_take b with
  | (b, Err e) => (b, [], Err e)
  | (b, Ok h) => stop_cleanup b h
  end.

Definition controller_health (b : Bridge) (now : Z) (connects : string → bool) : BridgeReply :=
  let uptime h := Z.max 0 (now - h_started_at h) / 1000 in
  match b_controller b, b_socket b with
  | Some h, Some path => RHealth (connects path) (Some (h_pid h)) (uptime h)
  | Some h, None => RHealth false (Some (h_pid h)) (uptime h)
  | None, _ => RHealth false None 0
  end.

(** ** The simulation *)
Definition with_sim (b : Bridge) (s : option SimulationHarness) : Bridge := mkBridge (b_controller b) (b_socket b) s.

Section sim.
Context {HB : BuildProfile}.

(** [cycle_ms as u64] *)
Definition sim_create (ms now : Z) (b : Bridge) : Bridge * result BridgeReply string :=
  match b_sim b with
  | Some _ => (b, Err "simulation already active. Call sim_destroy() first.")
  | None => (with_sim b (Some (sim_new (wrap_u 64 ms) now)), Ok (RCreated ms))
  end.
Definition sim_destroy (b : Bridge) : Bridge * result BridgeReply string := (with_sim b None, Ok RDestroyed).
(** [turns]: those of the engine's thread while the call sleeps. *)
Definition bridge_sim_step (turns : list CycleEnv) (b : Bridge) : option (Bridge * result BridgeReply string) :=
  match b_sim b with
  | None => Some (b, Err "no simulation active. Call sim_create() first.")
  | Some h =>
      match sim_run_cycles h 1 turns with
      | None => None
      | Some h => Some (with_sim b (Some h), Ok (RSignals (sim_snapshot h)))
      end
  end.

Inductive SimCall := SimCreate (ms now : Z) | SimDestroy | SimStep (turns : list CycleEnv).
Definition sim_call (b : Bridge) (c : SimCall) : option (Bridge * result BridgeReply string) :=
  match c with
  | SimCreate ms now => Some (sim_create ms now b)
  | SimDestroy => Some (sim_destroy b)
  | SimStep turns => bridge_sim_step turns b
  end.
Fixpoint sim_session (b : Bridge) (cs : list SimCall) : option (Bridge * list (result BridgeReply string)) :=
  match cs with
  | [] => Some (b, [])
  | c :: cs =>
      match sim_call b c with
      | None => None
      | Some (b, r) => match sim_session b cs with None => None | Some (b, rs) => Some (b, r :: rs) end
      end
  end.
End sim.

(** ** Facts: compilers *)

(** Diagrams that are too large bring the process down: a Ladder, Function
    Block or Sequential Function Chart source that its front end accepts is
    compiled unless the IL it writes uses more than ten variables, and then the
    compiler panics inside the studio's process; the only errors reported for
    such a source are those of the front end and of the JSON writer. *)
Theorem graphical_compile_outcomes `{BridgeJson} front source :
  (compile_via_il front source = None ↔
     ∃ il, front source = Ok il ∧ (10 < size (IlFacts.program_vars (IlSyntax.parse (IlSyntax.tokenize il))))%nat) ∧
  (∀ e, compile_via_il front source = Some (Err e) →
     front source = Err e ∨ ∃ il p e', front source = Ok il ∧ IlCodegen.il_compile il = Some (Ok p) ∧
                              program_json p = Err e' ∧ e = "serialize: " +:+ e').
Proof.
  unfold compile_via_il. destruct (front source) as [il|e0]; [|split; [naive_solver|intros e [= ->]; by left]].
  unfold compile_il, IlCodegen.il_compile. split.
  - pose proof (IlFacts.compile_ast_none_size (IlSyntax.parse (IlSyntax.tokenize il))) as Hn.
    destruct (IlCodegen.compile_ast _) as [code|]; cbn; split; try done.
    + intros (? & [= <-] & Hs). by apply Hn in Hs.
    + intros _. exists il. split; [done|]. by apply Hn.
  - destruct (IlCodegen.compile_ast _) as [code|] eqn:Ec; [|done]. cbn. unfold to_json, prefix_error.
    intros e. destruct (program_json _) as [|e'] eqn:Ej; [done|]. intros [= <-]. right.
    eexists il, _, e'. split_and!; [done | by rewrite Ec | done | done].
Qed.

(** ** Facts: the calls against the controller's server *)
Section server.
Context {HB : BuildProfile} {HD : Decoders} {HF : FloatFormat} {HM : Hmac} {HML : HmacLaws} {HI : IoDisplay}.
Context {BJ : BridgeJson} {M : Type} {HT : HalTransport M} {HQ : HalQoS M}.
Context (secret : list Z) (wl : list (Role * list Z)).

(** The session a fresh connection gets. *)
Lemma fresh_session env (s : Server (M := M)) id f (h : Handled (M := M)) x :
  f_method f = METHOD_AUTH_REQUEST → handle_message secret wl env s (conn_new id) f = Some h →
  session (h_conn h) = Some x →
  h_replies h = replicate 2 (ok_reply METHOD_AUTH_REQUEST (token_of secret x)) ∧
  session_id x = 1 ∧ in_u 64 (s_expires_at_ms x) = true ∧
  role_from_u8 (nth 4 (f_payload f) 0) = Some (s_role x).
Proof.
  intros Hm Hh Hx. pose proof (auth_result secret wl env s (conn_new id) f h eq_refl Hm Hh) as Ha.
  rewrite Hx in Ha. destruct Ha as [((_ & _ & _ & _ & _ & _ & Hr & Hhmi & _) & Hid & He) Hrs].
  split_and!; [exact Hrs | exact Hid | by apply arith_in in He | rewrite Hr]. by destruct (s_role x).
Qed.

(** Once the client has authenticated, what it reads next is the second copy of
    its token. *)
Lemma second_copy x rs k : Forall (λ r, fits r = true) rs →
  ∃ input s1 rest, on_the_wire (replicate 2 (ok_reply METHOD_AUTH_REQUEST (token_of secret x)) ++ rs) k = Some input ∧
    on_the_wire rs k = Some rest ∧
    (∀ A (f : RuntimeClient → Stream → Stream * result A string), with_controller (Ok tt) (Ok tt) secret f input =
       f (mkClient secret (Some (token_of secret x)) true) s1) ∧
    ∀ m, send_request (Ok tt) m s1 = (rest, Ok (token_of secret x)).
Proof.
  intros Hrs. set (r := ok_reply METHOD_AUTH_REQUEST (token_of secret x)). cbn [replicate app].
  destruct (on_the_wire_read r (r :: rs) k) as (s1 & s2 & H1 & H2 & Hr1);
    [apply fits_token | constructor; [apply fits_token | done] |].
  destruct (on_the_wire_read r rs k) as (s2' & s3 & H2' & H3 & Hr2); [apply fits_token | done |].
  rewrite H2 in H2'. injection H2' as <-. exists s1, s2, s3. split_and!; [done | done | |].
  - intros A f. unfold with_controller. by rewrite (authenticate_ok secret (connect secret) x _ _ Hr1).
  - intros m. unfold send_request, cx_bind. rewrite Hr2. done.
Qed.

Lemma first_session_token x : session_id x = 1 → ∃ rest, token_of secret x = le_bytes 8 1 ++ rest.
Proof. intros Hid. unfold token_of. rewrite Hid. by eexists. Qed.

(** What a bridged call reports does not depend on what the controller
    answers.  The server sends two copies of the session's token and the bridge
    opens a connection per call, so the response every call reads is the second
    copy: a call that returns text returns the token (or that it is not UTF-8),
    a signal reads as [S8(0)], a snapshot is the single unnamed signal
    [Bool(false)] and a layout deploys as generation 1 - whatever the replies
    [rs] to the request itself say, errors included; these stay unread. *)
Theorem bridge_answers_token env (s : Server (M := M)) id f (h : Handled (M := M)) x rs k :
  f_method f = METHOD_AUTH_REQUEST →
  handle_message secret wl env s (conn_new id) f = Some h → session (h_conn h) = Some x →
  Forall (λ r, fits r = true) rs →
  ∃ input rest, on_the_wire (h_replies h ++ rs) k = Some input ∧ on_the_wire rs k = Some rest ∧
    let run c := bridge_call c (Ok tt) (Ok tt) (Ok tt) secret input in
    (∀ role m payload, run (mkCall role m payload (text_call m)) = (rest, text_of (token_of secret x))) ∧
    (∀ name, run (read_signal_call name) = (rest, prefix_error "serialize" (value_json (VS8 0)))) ∧
    (∀ p, run (signal_snapshot_call p) = (rest, prefix_error "serialize" (signals_json [("", VBool false)]))) ∧
    (∀ yaml, run (deploy_hmi_call yaml) = (rest, Ok "1")).
Proof.
  intros Hm Hh Hx Hrs. destruct (fresh_session env s id f h x Hm Hh Hx) as (-> & Hid & _).
  destruct (second_copy x rs k Hrs) as (input & s1 & rest & H1 & H2 & Hw & Hsend).
  exists input, rest. split_and!; [done | done |]. cbv zeta. unfold bridge_call. cbn [bc_answer read_signal_call
    signal_snapshot_call deploy_hmi_call].
  destruct (first_session_token x Hid) as [tl Ht].
  split_and!; intros; rewrite Hw; unfold text_call, then_json, client_read_signal, RuntimeClient.signal_snapshot,
    client_deploy_hmi_layout, cx_bind; rewrite Hsend; rewrite ?Ht; reflexivity.
Qed.

(** [C39] Deploying through the bridge: the JSON text of a program becomes the
    bincode the server's loader reads, so that a well-formed program is
    installed in the engine and any other is refused - and in both cases the
    bridge reports the same thing, the text of its token. *)
Theorem deploy_outcome_hidden env env' (s : Server (M := M)) id pid (h : Handled (M := M)) x json p bytes k :
  let e := engine (h_server h) in
  handle_message secret wl env s (conn_new id)
    (mkFrame zero_token METHOD_AUTH_REQUEST (le_bytes 4 pid ++ [role_to_u8 Engineer])) = Some h →
  session (h_conn h) = Some x → fresh env' x →
  program_of_json json = Ok p → bincode_serialize p = Ok bytes → bincode_deserialize bytes = Ok p →
  Z.of_nat (length bytes) < 2 ^ 32 - HEADER_SIZE →
  ∃ frame (h2 : Handled (M := M)) input rest,
    build_request (token_of secret x) METHOD_LOAD_PROGRAM bytes = Some frame ∧
    read_frame (arriving frame []) = ([], Ok (mkFrame (token_of secret x) METHOD_LOAD_PROGRAM bytes)) ∧
    handle_message secret wl env' (h_server h) (h_conn h)
      (mkFrame (token_of secret x) METHOD_LOAD_PROGRAM bytes) = Some h2 ∧
    engine (h_server h2) = (if is_well_formed p then install_program e p else e) ∧
    on_the_wire (h_replies h ++ h_replies h2) k = Some input ∧
    deploy_program json (Ok tt) (Ok tt) (Ok tt) secret input = (rest, text_of (token_of secret x)).
Proof.
  intros e Hh Hx Hf Hj Hser Hde Hlen.
  destruct (fresh_session env s id (mkFrame zero_token METHOD_AUTH_REQUEST (le_bytes 4 pid ++ [role_to_u8 Engineer]))
    h x eq_refl Hh Hx) as (Hrs & Hid & Hexp & Hrole).
  assert (s_role x = Engineer) as Hr by (cbn in Hrole; by injection Hrole).
  destruct (request_roundtrip (token_of secret x) METHOD_LOAD_PROGRAM bytes []) as (fr & Hfr & Hread);
    [apply build_wire_token_length | done |].
  set (h2 := answer_result (with_engine (h_server h) (load_hal_program e bytes).1) (h_conn h) METHOD_LOAD_PROGRAM
               "loaded" (load_hal_program e bytes).2).
  assert (Forall (λ r, fits r = true) (h_replies h2)) as Hfit.
  { unfold h2, load_hal_program. rewrite Hde. by destruct (is_well_formed p); repeat constructor. }
  destruct (second_copy x (h_replies h2) k Hfit) as (input & s1 & rest & H1 & H2 & Hw & Hsend).
  exists fr, (mkHandled (cleanup (h_server h2) (h_conn h)) (h_conn h) (h_replies h2) [] false), input, rest.
  split_and!; [exact Hfr | exact Hread | | | by rewrite Hrs |].
  - unfold handle_message, dispatch. rewrite (check_passes secret env' (h_server h) (h_conn h) x); [|done| |done|done].
    2: { split_and!; [by rewrite Hid | done | by rewrite Hr]. }
    cbn [handle_request f_method f_payload METHOD_LOAD_PROGRAM]. unfold on_load_program, role_of. rewrite Hx.
    cbn [fmap option_fmap option_map]. rewrite Hr. cbn [can_config negb]. fold e.
    unfold h2. by destruct (load_hal_program e bytes).
  - cbn [h_server]. unfold cleanup. rewrite Hx. cbn [with_subs engine]. unfold h2, load_hal_program. rewrite Hde.
    by destruct (is_well_formed p).
  - unfold deploy_program, json_to_bincode. rewrite Hj. cbn [prefix_error result_bind]. rewrite Hser.
    cbn [prefix_error]. unfold bridge_call. rewrite Hw. cbn [bc_answer load_call]. unfold load_program, text_call, cx_bind.
    by rewrite Hsend.
Qed.
End server.

(** ** Facts: the controller process *)

(** A clock that starts at [t0] and advances by the sleep between two polls. *)
Definition ticking (t0 : Z) (polls : nat → Z * bool) : Prop :=
  t0 ≤ (polls 0%nat).1 ∧ ∀ i, (polls i).1 + POLL_INTERVAL_MS ≤ (polls (S i)).1.

Lemma await_socket_ends n deadline polls t0 :
  ticking t0 polls → deadline ≤ t0 + POLL_INTERVAL_MS * Z.of_nat n → is_Some (await_socket (S n) deadline polls).
Proof.
  unfold ticking, POLL_INTERVAL_MS.
  induction n as [|n IH] in polls, t0 |- *; intros [H0 Hs] Hd; cbn [await_socket];
    destruct (polls 0%nat) as [now c] eqn:E; cbn [fst] in H0; destruct (Z.leb_spec deadline now); [by eexists|lia|by eexists|].
  destruct c; [by eexists|]. apply (IH (fun i => polls (S i)) (now + 100)); [|lia].
  split; [pose proof (Hs 0%nat) as H1; by rewrite E in H1 | intros i; apply Hs].
Qed.

(** Starting the controller ends: with the sleeps between its polls a start
    gives up or succeeds within 101 polls of the socket, and it leaves no orphan:
    the spawned process is either the controller from now on, together with its
    socket, or it has been killed and nothing is remembered; an earlier
    controller, a missing binary and a failed spawn change nothing. *)
Theorem controller_start_ends env socket binary b :
  ticking (se_started_at env) (se_polls env) →
  ∃ b' effs r, controller_start 101 env socket binary b = Some (b', effs, r) ∧
    match b_controller b, se_exists env, se_spawn env with
    | None, true, Ok pid =>
        (effs = [] ∧ r = Ok (RStarted pid socket) ∧ b_socket b' = Some socket ∧
         b_controller b' = Some (mkHandle pid (se_started_at env))) ∨
        (b' = b ∧ effs = [KillChild pid] ∧ ∃ e, r = Err e)
    | _, _, _ => b' = b ∧ effs = [] ∧ ∃ e, r = Err e
    end.
Proof.
  intros Ht. unfold controller_start.
  destruct (b_controller b); [by eauto 10|]. destruct (se_exists env); [|by eauto 10]. cbn [negb].
  destruct (se_spawn env) as [pid|e]; [|by eauto 10].
  destruct (await_socket_ends 100 (se_started_at env + START_TIMEOUT_MS) (se_polls env) (se_started_at env) Ht)
    as [[] ->]; [unfold START_TIMEOUT_MS, POLL_INTERVAL_MS; lia | by eauto 10 | by eauto 10].
Qed.

(** The process and its socket are remembered together. *)
Definition paired (b : Bridge) : Prop := is_Some (b_controller b) ↔ is_Some (b_socket b).

(** Calls that do not overlap keep the controller and its socket together.
    A start that runs while a stop is killing the old process does not: the
    stop's cleanup then removes the socket file of the new controller and
    forgets its path, after which the running controller is reported dead
    however its socket behaves, and no later start is accepted. *)
Theorem stop_start_overlap fuel env socket binary b h b1 b2 effs pid :
  stop_take b = (b1, Ok h) →
  controller_start fuel env socket binary b1 = Some (b2, effs, Ok (RStarted pid socket)) →
  (∀ b0, paired b0 → paired (controller_stop b0).1.1 ∧
     ∀ fuel env socket binary b' effs' r, controller_start fuel env socket binary b0 = Some (b', effs', r) → paired b') ∧
  let '(b3, effs', r) := stop_cleanup b2 h in
  r = Ok RStopped ∧ effs' = [KillChild (h_pid h); RemoveFile socket] ∧ ¬ paired b3 ∧
  (∀ now connects, ∃ up, controller_health b3 now connects = RHealth false (Some pid) up) ∧
  (∀ fuel' env' socket' binary', ∃ e, controller_start fuel' env' socket' binary' b3 = Some (b3, [], Err e)).
Proof.
  intros Ht Hs. unfold stop_take in Ht. destruct (b_controller b) as [h0|] eqn:Eb; [|done]. injection Ht as <- <-.
  unfold controller_start in Hs at 1. cbn [b_controller b_socket b_sim] in Hs.
  destruct (se_exists env); [|done]. cbn [negb] in Hs. destruct (se_spawn env) as [pid'|]; [|done].
  destruct (await_socket _ _ _) as [[]|]; try done. injection Hs as <- <- <-.
  split; [intros b0 Hp; split|].
  - unfold controller_stop, stop_take. destruct (b_controller b0) eqn:E0; cbn; [|done]. split; intros [? [=]].
  - intros ?????? r. unfold controller_start.
    destruct (b_controller b0); [by intros [= <- _ _]|]. destruct (se_exists _); [|by intros [= <- _ _]]. cbn [negb].
    destruct (se_spawn _); [|by intros [= <- _ _]].
    destruct (await_socket _ _ _) as [[]|]; try done; intros [= <- _ _]; [|done].
    unfold paired. cbn. split; intros _; by eexists.
  - cbn. split_and!; [done | done | | by eexists | by eexists].
    unfold paired. cbn. intros [Hx _]. destruct Hx as [y Hy]; [by eexists | done].
Qed.

(** ** Facts: the simulation *)
Section simulation.
Context {HB : BuildProfile}.

(** What a harness the bridge creates stays: no signal, no program. *)
Definition empty_sim (h : SimulationHarness) : Prop :=
  plain_engine (sim_engine h) ∧ e_signals (sim_engine h) = ∅.

Lemma empty_sim_turns turns h : empty_sim h → empty_sim (sim_sleep h turns).
Proof.
  unfold sim_sleep. induction turns as [|env turns IH] in h |- *; [done|]. intros [Hp Hn]. cbn [fold_left]. apply IH.
  unfold thread_turn. destruct (started h); [|done]. unfold loop_turn.
  destruct (negb _); [done|]. destruct (paused _ && negb _)%bool; [done|].
  set (e := set_run _ _ _ _). destruct (plain_cycle env e) as (e' & o & -> & Hpe & Hs); [exact Hp|].
  split; [exact Hpe|]. apply map_eq. intros n. cbn [sim_with_engine sim_engine]. rewrite Hs.
  change (e_signals e) with (e_signals (sim_engine h)). by rewrite Hn, lookup_empty.
Qed.

Lemma empty_sim_step turns h h' : empty_sim h → sim_run_cycles h 1 turns = Some h' → empty_sim h' ∧ sim_snapshot h' = [].
Proof.
  intros He. unfold sim_run_cycles. destruct (sim_run_cycles_ms h 1); [|done]. intros [= <-].
  assert (empty_sim (run_for h turns)) as H.
  { assert (empty_sim (sim_start h)) as Hst by (unfold sim_start; by destruct (started h)).
    destruct (empty_sim_turns turns _ Hst) as [Hp Hn]. split; [exact Hp | exact Hn]. }
  split; [done|]. destruct H as [_ Hn]. unfold sim_snapshot, Engine.signal_snapshot. by rewrite Hn.
Qed.

(** The simulation the bridge offers shows nothing: it has no call that
    registers a signal or loads a program, so in every session - created,
    stepped and destroyed in any order, for any turns of the engine's thread -
    each step returns the empty list of signals. *)
Theorem sim_step_shows_nothing cs b rs :
  sim_session bridge_new cs = Some (b, rs) →
  Forall (λ r, match r with Ok (RSignals l) => l = [] | _ => True end) rs.
Proof.
  assert (∀ cs b0 b rs, (∀ h, b_sim b0 = Some h → empty_sim h) → sim_session b0 cs = Some (b, rs) →
    Forall (λ r, match r with Ok (RSignals l) => l = [] | _ => True end) rs) as H; [|by apply H].
  clear cs b rs. induction cs as [|c cs IH]; intros b0 b rs Hb; cbn [sim_session]; [by intros [= _ <-]|].
  destruct (sim_call b0 c) as [[b1 r]|] eqn:Hc; [|done].
  destruct (sim_session b1 cs) as [[b2 rs2]|] eqn:Hcs; [|done]. intros [= <- <-].
  assert ((∀ h, b_sim b1 = Some h → empty_sim h) ∧ match r with Ok (RSignals l) => l = [] | _ => True end) as [H1 Hr];
    [|constructor; [exact Hr | by eapply IH]].
  destruct c as [ms now| |turns]; cbn [sim_call] in Hc.
  - unfold sim_create in Hc. destruct (b_sim b0) eqn:E; injection Hc as <- <-; [by rewrite E in *|].
    split; [|done]. cbn. intros h [= <-]. split; [split; [apply registry_new_wf | split_and!; [done | done |]; apply no_computed, map_Forall_empty] | done].
  - injection Hc as <- <-. by split.
  - unfold bridge_sim_step in Hc. destruct (b_sim b0) as [h|] eqn:E; [|by injection Hc as <- <-; rewrite E].
    destruct (sim_run_cycles h 1 turns) as [h'|] eqn:Er; [|done]. injection Hc as <- <-.
    destruct (empty_sim_step turns h h' (Hb h eq_refl) Er) as [He Hs]. split; [by cbn; intros ? [= <-] | exact Hs].
Qed.
End simulation.

(** The interval of a simulation is taken as it comes, and a negative one
    is read as 64 unsigned bits.  A step then sleeps the interval and 20 ms for
    one that is not negative; between -20 and -1 the sum overflows: a checked
    build panics, and a release build sleeps less than 20 ms; below, a single
    step sleeps for more than 2^63 milliseconds. *)
Theorem sim_step_interval ms now h :
  in_s 64 ms = true → b_sim (sim_create ms now bridge_new).1 = Some h →
  (0 ≤ ms → sim_run_cycles_ms (HB := debug_profile) h 1 = Some (ms + 20)) ∧
  (-20 ≤ ms < 0 → sim_run_cycles_ms (HB := debug_profile) h 1 = None ∧
                  sim_run_cycles_ms (HB := release_profile) h 1 = Some (ms + 20)) ∧
  (ms < -20 → ∃ t, sim_run_cycles_ms (HB := debug_profile) h 1 = Some t ∧ 2 ^ 63 < t).
Proof.
  intros Hms%in_s_spec. cbn [sim_create bridge_new b_sim fst with_sim]. intros [= <-].
  unfold sim_run_cycles_ms. cbn [sim_new cycle_ms]. rewrite Z.mul_1_r.
  assert (∀ `{BuildProfile} z, arith false 64 (wrap_u 64 z) = Some (wrap_u 64 z)) as Hw
    by (intros; apply arith_exact, wrap_u_in; lia).
  rewrite !Hw. cbn [mbind option_bind].
  assert (0 ≤ ms → wrap_u 64 ms = ms) as Hpos by (intros; apply wrap_u_id, in_u_spec; lia).
  assert (ms < 0 → wrap_u 64 ms = ms + 2 ^ 64) as Hneg.
  { intros Hn. unfold wrap_u. rewrite <- (Z.mod_add ms 1) by lia. apply Z.mod_small. lia. }
  split_and!.
  - intros H0. rewrite Hpos by done. apply arith_exact, in_u_spec. lia.
  - intros [Hl Hn]. rewrite Hneg by done. unfold arith.
    assert (Prelude.in_int false 64 (ms + 2 ^ 64 + 20) = false) as ->.
    { apply not_true_iff_false. intros H. apply in_u_spec in H. lia. }
    split; [done|]. cbn -[Z.pow wrap_u]. unfold wrap. f_equal. unfold wrap_u.
    replace (ms + 2 ^ 64 + 20) with (ms + 20 + 1 * 2 ^ 64) by lia. rewrite Z.mod_add by lia. apply Z.mod_small. lia.
  - intros Hl. rewrite Hneg by lia. exists (ms + 2 ^ 64 + 20). split; [|lia]. apply arith_exact, in_u_spec. lia.
Qed.

(** ** Runs *)
Definition demo_json : BridgeJson := {|
  program_json := fun _ => Ok "{}"; program_of_json := fun _ => Ok demo_program;
  bincode_serialize := fun _ => Ok [1]; value_json := fun _ => Ok "0"; signals_json := fun _ => Ok "[]";
  compile_error_text := fun _ => "error" |}.

Lemma bridge_answers_token_witness :
  ∃ h x, demo_handle engineer_env (conn_new 0) auth_request = Some h ∧ session (h_conn h) = Some x ∧
    ∃ input rest, on_the_wire (HB := release_profile) (h_replies h ++ [error_reply METHOD_PAUSE "unauthorized"]) [] = Some input ∧
      bridge_call (HI := demo_display) (debug_pause_call (HI := demo_display)) (Ok tt) (Ok tt) (Ok tt) demo_secret input =
      (rest, text_of (token_of (HM := demo_hmac) demo_secret x)).
Proof.
  destruct (demo_handle engineer_env (conn_new 0) auth_request) as [h|] eqn:Hh;
    [|vm_compute in Hh; discriminate Hh].
  assert ((session ∘ h_conn) <$> demo_handle engineer_env (conn_new 0) auth_request =
    Some (Some (mkSession 1 Engineer 3600010))) as Hv by (vm_compute; reflexivity).
  rewrite Hh in Hv. injection Hv as Hx. exists h, (mkSession 1 Engineer 3600010).
  split; [reflexivity|]. split; [exact Hx|].
  destruct (bridge_answers_token (HB := release_profile) (HD := demo_decoders) (HF := demo_format) (HM := demo_hmac)
    (HML := demo_hmac_laws) (HI := demo_display) (BJ := demo_json) demo_secret default_whitelist engineer_env demo_server 0%nat
    auth_request h _ [error_reply METHOD_PAUSE "unauthorized"] [] eq_refl Hh Hx)
    as (input & rest & H1 & _ & Hrun & _); [repeat constructor|].
  exists input, rest. split; [exact H1|]. apply (Hrun Engineer METHOD_PAUSE []).
Defined.

Lemma deploy_outcome_hidden_witness :
  ∃ (h h2 : Handled (M := InprocMiddleware)) x input rest,
    session (h_conn h) = Some x ∧
    engine (h_server h2) = install_program (engine (h_server h)) demo_program ∧
    deploy_program (HI := demo_display) (BJ := demo_json) "{}" (Ok tt) (Ok tt) (Ok tt) demo_secret input =
    (rest, text_of (token_of (HM := demo_hmac) demo_secret x)).
Proof.
  destruct (demo_handle engineer_env (conn_new 0) auth_request) as [h|] eqn:Hh;
    [|vm_compute in Hh; discriminate Hh].
  assert ((session ∘ h_conn) <$> demo_handle engineer_env (conn_new 0) auth_request =
    Some (Some (mkSession 1 Engineer 3600010))) as Hv by (vm_compute; reflexivity).
  rewrite Hh in Hv. injection Hv as Hx.
  destruct (deploy_outcome_hidden (HB := release_profile) (HD := demo_decoders) (HF := demo_format) (HM := demo_hmac)
    (HML := demo_hmac_laws) (HI := demo_display) (BJ := demo_json) demo_secret default_whitelist engineer_env engineer_env
    demo_server 0%nat 7 h (mkSession 1 Engineer 3600010) "{}" demo_program [1] [] Hh Hx)
    as (_ & h2 & input & rest & _ & _ & _ & He & _ & Hd);
    [split; vm_compute; discriminate | reflexivity | reflexivity | reflexivity | vm_compute; reflexivity |].
  exists h, h2, (mkSession 1 Engineer 3600010), input, rest. split; [exact Hx|]. split; [exact He | exact Hd].
Defined.

Definition demo_start : StartEnv := mkStart true (Ok 42) 0 (fun i => (100 * Z.of_nat i, false)).

Lemma controller_start_ends_witness :
  ∃ b' effs r, controller_start 101 demo_start "/tmp/s" "audesys" bridge_new = Some (b', effs, r) ∧
    effs = [KillChild 42] ∧ b' = bridge_new.
Proof.
  destruct (controller_start_ends demo_start "/tmp/s" "audesys" bridge_new) as (b' & effs & r & Hs & Hr).
  { split; [done|]. intros i. cbn. unfold POLL_INTERVAL_MS. lia. }
  exists b', effs, r. split; [exact Hs|]. cbn in Hr. destruct Hr as [(_ & -> & _)|(-> & -> & _)]; [|done].
  vm_compute in Hs. discriminate Hs.
Defined.

Lemma stop_start_overlap_witness :
  let b := mkBridge (Some (mkHandle 7 0)) (Some "/tmp/s") None in
  let env := mkStart true (Ok 42) 0 (fun _ => (0, true)) in
  ∃ b2, controller_start 1 env "/tmp/s" "audesys" (stop_take b).1 = Some (b2, [], Ok (RStarted 42 "/tmp/s")) ∧
    let '(b3, effs, _) := stop_cleanup b2 (mkHandle 7 0) in
    effs = [KillChild 7; RemoveFile "/tmp/s"] ∧ ¬ paired b3.
Proof.
  intros b env. eexists. split; [reflexivity|].
  destruct (stop_start_overlap 1 env "/tmp/s" "audesys" b (mkHandle 7 0) _ _ [] 42 eq_refl eq_refl)
    as (_ & _ & He & Hn & _). split; [exact He | exact Hn].
Defined.

Lemma sim_step_shows_nothing_witness :
  ∃ b rs, sim_session (HB := release_profile) bridge_new [SimCreate 10 0; SimStep [demo_env]; SimDestroy] = Some (b, rs) ∧
    Forall (λ r, match r with Ok (RSignals l) => l = [] | _ => True end) rs.
Proof.
  destruct (sim_session (HB := release_profile) bridge_new [SimCreate 10 0; SimStep [demo_env]; SimDestroy])
    as [[b rs]|] eqn:E; [|vm_compute in E; discriminate E].
  exists b, rs. split; [done|]. exact (sim_step_shows_nothing (HB := release_profile) _ b rs E).
Defined.

Lemma sim_step_interval_witness :
  ∃ h, b_sim (sim_create (-1) 0 bridge_new).1 = Some h ∧ sim_run_cycles_ms (HB := debug_profile) h 1 = None ∧
    sim_run_cycles_ms (HB := release_profile) h 1 = Some 19.
Proof.
  eexists. split; [reflexivity|].
  apply (sim_step_interval (-1) 0 _); [reflexivity | reflexivity | lia].
Defined.

Lemma graphical_compile_outcomes_witness :
  compile_ld (BJ := demo_json) "" = Some (Err "empty LD source") ∧ LdCompiler.ld_compile "" = Err "empty LD source".
Proof.
  split; [reflexivity|].
  destruct (proj2 (graphical_compile_outcomes (H := demo_json) LdCompiler.ld_compile "") "empty LD source" eq_refl)
    as [H|(il & p & e' & H & _)]; [exact H | discriminate H].
Defined.
